(* ===== verification/_CoqProject ===== *)
-Q . S2P
Prelude.v
Lww.v
BudgetQueue.v
Types.v
MemberList.v
Dissemination.v
Lifeguard.v
Probe.v
SwimNode.v
FailureDetection.v
ActorCtx.v
SwimActor.v
Registry.v
RegistryActor.v
NodeMetadata.v
Directory.v
LocationCache.v
Channel.v
Actor.v
Worker.v
Runtime.v
StdExtension.v
PassMachine.v
DemoActors.v
RuntimeLife.v
RuntimeProgress.v
StdRuntime.v
Memory.v
ByteRing.v
RingStream.v
RingLogic.v
RingProducer.v
RingConsumer.v
RingAtomic.v
RingRecords.v
RingSafety.v
RingFence.v
Arena.v
ArenaSafety.v
RingInstall.v
NodeModel.v
Reconciler.v
EffectExecutor.v
ReconcilerPass.v
ReconcilerLive.v
ReconcilerConverge.v
ProvisionWorld.v
ProvisionNode.v
ProvisionLedger.v
ProvisionSafety.v
ProcessIdentity.v
PaidAdmission.v
PaidStore.v
PaidMethods.v
PaidRecord.v
PaidValid.v
PaidWorld.v
PaidSafety.v
LogicalPath.v
NamespaceStore.v
NamespaceDirectory.v
NamespaceMoves.v
NamespaceInv.v
NamespaceRefine.v
NamespaceWorld.v
NamespaceOnce.v
NamespaceSafety.v
NamespaceEffect.v
NamespaceAgree.v
NamespaceProgress.v
NamespaceSample.v
NamespaceClient.v
NamespaceRequests.v
ObjectRecord.v
EdgeLifecycle.v
EdgeSafety.v
EdgeRuntime.v
EdgeNode.v
EdgeTraffic.v
EdgeSample.v
