(* ===== verification/Prelude.v ===== *)
(** * A verification development for swactor

    swactor is an actor runtime in Rust with a cluster built on it.  Actors run on the workers
    of a runtime and talk by messages (src/src); nodes find each other, detect failures and
    share names and locations by gossip (src/crates/distribution); processes on one machine
    move byte streams through rings in shared memory and find them in a namespace with one
    authority (src/crates/data-plane); and a reconciler
    keeps the machines of a cluster as a run asks for them (src/crates/provisioning).

    The development is a shallow embedding: a struct is a [Record], an enum an [Inductive], a
    function a [Definition] or [Fixpoint] under the name the code gives it, [&mut self] is state
    passing, [Result] is a sum and [Option] an [option].  Everything is executable, and the
    witnesses run it.  Unsigned integers are [N] with the reduction of their width written out,
    saturating and checked operations as such; [Instant], [SystemTime] and [Duration] are
    nanoseconds.  A [BTreeMap] is a [gmap] iterated in key order; where the code iterates a
    [HashMap], the order is an argument.  Code that is not in the repository, and the operating
    system, are arguments of the definitions: signatures, [crossbeam] queues, [pwrite], the
    blocking spawner.

    ** The parts and where they are

    _Shared_.  [Prelude]: machine integers, record updates, folds, ordered maps, the tactics.
    [Lww]: the last-writer-wins map that the gossiped stores refine.  [BudgetQueue]: the queue
    with a transmit budget that three gossip engines share.

    _The runtime_ (src/src).  [Channel] is channel.rs, alone and as machines of threads;
    [Actor] is actor.rs and extension.rs, with actor code as a program over the operations of
    [Ctx]; [Worker] is worker.rs and delivery.rs, one definition per phase of [run_pass];
    [Runtime] is runtime.rs and admin.rs, with the histories of handle operations and passes.
    [PassMachine] shows every pass to be a sequence of atomic steps; [RuntimeLife] and
    [RuntimeProgress] have the theorems.  [StdExtension] and [StdRuntime]
    are src/src/std: names, watches and groups.  [DemoActors] is a cast for the witnesses.

    _The cluster_ (src/crates/distribution/src).  [Types], [MemberList], [Dissemination],
    [Lifeguard], [Probe] and [SwimNode] are types.rs and the files of those names in swim/;
    [ActorCtx] and [SwimActor] are the actor around the node; [FailureDetection] composes them
    over time.  [Registry], [RegistryActor], [NodeMetadata], [Directory] and [LocationCache] are
    registry.rs, registry_actor.rs, node_metadata.rs with node_metadata_actor.rs,
    directory_actor.rs and cache.rs.

    _The data plane_ (src/crates/data-plane/src).  [Memory] has programs over a shared region;
    [ByteRing] is byte_ring.rs, every routine a program; [RingStream] what a ring promises;
    [RingLogic], [RingProducer], [RingConsumer] and [RingAtomic] the proof that it does so under
    every interleaving; [RingRecords], [RingSafety] and [RingFence] what follows and what does
    not.  [Arena] and [ArenaSafety] are arena.rs; [RingInstall] joins the two and models the
    part of host.rs that leases rings for streams.

    _The namespace_ (the same crate).  [LogicalPath] is path.rs; [NamespaceStore] is
    namespace_store.rs, the snapshot and the file it is committed to, with failures and losses of
    power; [NamespaceDirectory] is the authority of namespace.rs, every message of it.
    [NamespaceMoves] says what the authority may do, as atomic moves; [NamespaceRefine] shows that
    every handler is a sequence of them and [NamespaceInv] what they keep; [NamespaceWorld] runs
    the authority among crashes.  [NamespaceOnce], [NamespaceSafety], [NamespaceEffect],
    [NamespaceAgree] and [NamespaceProgress] have the theorems, [NamespaceSample] the runs of the
    witnesses.  [NamespaceClient] is the proxy of namespace.rs through which a node asks, and
    [NamespaceRequests] what it owes its callers.

    _Edges_ (the same crate).  [ObjectRecord] is object_record.rs, the frames of objects, and the
    loop of edge_runtime.rs that takes them off a stream; [EdgeLifecycle] is edge_lifecycle.rs, and
    [EdgeSafety] what it keeps; [EdgeRuntime] is edge_runtime.rs over the arena of [Arena], with the
    worker and the transport of edge_wire.rs as classes.  [EdgeNode] runs it and shows its invariant,
    [EdgeTraffic] how edges come up and objects arrive, and [EdgeSample] has the runs of the
    witnesses.

    _Provisioning_ (src/crates/provisioning/src).  [NodeModel] is node.rs, [Reconciler] is
    reconciler.rs, [EffectExecutor] is executor.rs.  [ReconcilerPass] shows a pass to be one
    step per node; [ReconcilerLive] and [ReconcilerConverge] have the theorems about the driver
    alone; [ProvisionWorld] joins driver, executor and a provider of leases in the loop of
    src/xtask/src/demo/feed.rs; [ProvisionNode], [ProvisionLedger] and [ProvisionSafety] show
    that no lease is lost.

    _Paid machines_ (paid_admission.rs of the same crate).  [ProcessIdentity] reads processes from
    /proc; [PaidAdmission] has the record, its validation and every transaction; [PaidStore] the
    file it lives in, with renames, syncs and losses of power; [PaidMethods] the public methods as
    programs of transactions.  [PaidRecord] and [PaidValid] show what a transaction keeps;
    [PaidWorld] adds processes, crashes and the provider, and has the run of the witnesses;
    [PaidSafety] has the theorems.

    ** What is shown

    - The runtime: callbacks of an actor come in the order of its life; routes lead to exactly
      the actors there are; a pass is fair and a worker that sleeps has nothing to run; a waker
      is never lost; death notices arrive; the registries refine relations.
    - The cluster: the member list, the registry and the directory converge whatever the order
      and repetition of gossip; an unresponsive member is declared dead in bounded time and a
      false suspicion is refuted; what subscribers are told mirrors what the node knows.
    - The data plane: a byte ring is linearizable and its records arrive once and in order; an
      endpoint touches nothing outside its ring whatever its peer writes; of the endpoint of a
      replaced ring, what is checked is refused, and what is not checked is named; the arena is
      partitioned, serves in order and makes nobody wait for nothing; installed rings are ready
      and apart.
    - The namespace: every handler is a step of an abstract namespace; a mutation is done once, as
      its specification says, and while its entry is in the log its repetition is answered from
      it, through crashes and losses of power; the endpoints of a stream are
      told the same stream, a generation never returns, a cancelled open never joins, and a stream
      in use is replaced, until a restart, only when its endpoints know or let go; a source that
      loses its path is told; a request is answered exactly once, at its deadline at the latest, and an abandoned open is retracted until that is acknowledged; a
      session reaches what its access says and nothing else.
    - Edges: a tick ends; an edge that is provisioned comes up; the worker is asked to load the
      records of a stream once and in order however their bytes are cut, until it refuses one, and
      they stay in their ring if it has room for one of them; a ring is given back once, and only when no one uses it; a stop completes when it is
      proven.  The runtime never proves it, so a ring that was installed stays leased.
    - Provisioning: if the backend keeps its contract, no submission is refused and no promoted
      operation expires, no lease is lost and no operation forgotten, and without either of the
      last two a lease is lost; a driver that is blocked has nothing to do; from any state a
      cluster converges in ten rounds.
    - Paid machines: whatever crashes, at most five machines are requested, none twice, within the
      time and money allowed; what was acknowledged survives; the record stays readable; when a
      complete cleanup has been acknowledged there is no machine and there never will be; the owner is told when to stop.
    - Where the code does not keep what it promises, a theorem runs it into the fault.

    ** Bounds and fuel

    Loops that are not structural have fuel, and a theorem that it is enough.  The greatest
    common divisor of [Arena] has 129 steps, more than Euclid needs on 64 bits; zeroing a ring
    takes as many chunks as it has; [drive_until_blocked] is shown to end within seven passes
    for a shape of any size; the spawner's promotion loop takes one step per call.  The ring
    theorems take the cursors, which count every byte ever moved, to stay below 2^64.  The
    convergence of a cluster says "or a 64-bit counter of attempts or operations is exhausted",
    which is the code's own error.
    A tick of the edge runtime has as much fuel as its commands weigh, a command at most three,
    and three rounds; [poll_returns] shows that they are enough.
    The namespace has no fuel: a tick walks its queue once and a resumed fence is removed first.
    That it runs out of revisions or epochs at 2^64 is the code's error and stated as such.

    ** What is not modelled

    Interleavings are sequentially consistent: the acquire and release orderings of the atomics
    are not weakened.  A pass of a worker, a call on a registry behind its lock and a call on
    the ledger behind its mutex are one step each.  Statistics, timings, traces, telemetry and
    formatting are observed only and left out.  Not modelled are the transports and their
    codecs, the engine's threads and timers, the processes of the operating system, the
    dashboard, the bindings to other languages, the application in src/apps and the test tools:
    they are mostly input and output around third-party libraries.  Of the data plane the sessions
    of processes, the copying of blobs and the asynchronous wrappers of
    the namespace's clients are left out for the same reason; a stream's endpoints and a blob's
    source appear as the messages they exchange with the directory.  Of the paid admission
    the permissions and links of its files are left out, and a transaction sees one state of
    /proc and of the clock. *)

From Stdlib Require Export ssreflect.
From stdpp Require Export base gmap sets list strings numbers sorting.

(** The proof language is SSReflect on top of stdpp, as in Iris: restore what
    loading [ssreflect] sets globally. *)
#[global] Open Scope general_if_scope.

(** ** Machine integers

    Unsigned machine integers are [N]; an operation that can leave the width
    is written with its reduction.  [u64_add] is the wrapping sum of a release
    build ([overflow-checks] is off in every profile of the workspace's
    [Cargo.toml] but the debug ones, where the same sum aborts). *)

Declare Scope swactor_scope.
Delimit Scope swactor_scope with swactor.

Definition u64_modulus : N := 18446744073709551616%N.
Definition u64_max : N := 18446744073709551615%N.
Definition u32_modulus : N := 4294967296%N.
Definition u32_max : N := 4294967295%N.

Definition u64_add (a b : N) : N := ((a + b) mod u64_modulus)%N.
Definition u64_mul (a b : N) : N := ((a * b) mod u64_modulus)%N.
Definition u64_saturating_add (a b : N) : N := N.min (a + b) u64_max.
Definition u32_add (a b : N) : N := ((a + b) mod u32_modulus)%N.

Notation "a +64 b" := (u64_add a b)
  (at level 50, left associativity) : swactor_scope.
Notation "a +32 b" := (u32_add a b)
  (at level 50, left associativity) : swactor_scope.
Open Scope swactor_scope.

(** The development's hint database: invariants of the components are
    proved by [eauto with swactor]. *)
Create HintDb swactor.

(** The question mark of a function that returns a [Result], whose values are [inl]. *)
Notation "x <-! r ; k" :=
  (match r with inl x => k | inr e => inr e end)
  (at level 100, r at next level, k at level 200, right associativity).

(** ** Tactics *)

(** Split on the innermost scrutinee of a [match] or [if] of the goal or of a
    hypothesis, keeping the equation. *)
Ltac case_scrutinee :=
  match goal with
  | |- context [match ?x with _ => _ end] =>
      lazymatch x with
      | context [match _ with _ => _ end] => fail
      | _ => destruct x eqn:?
      end
  | H : context [match ?x with _ => _ end] |- _ =>
      lazymatch x with
      | context [match _ with _ => _ end] => fail
      | _ => destruct x eqn:?
      end
  end.

(** Turn boolean tests of the code into the propositions they decide. *)
Ltac bool_to_prop :=
  repeat match goal with
  | H : andb _ _ = true |- _ => apply andb_true_iff in H as [? ?]
  | H : orb _ _ = false |- _ => apply orb_false_iff in H as [? ?]
  | H : negb _ = true |- _ => apply negb_true_iff in H
  | H : negb _ = false |- _ => apply negb_false_iff in H
  | H : N.eqb _ _ = true |- _ => apply N.eqb_eq in H
  | H : N.eqb _ _ = false |- _ => apply N.eqb_neq in H
  | H : N.ltb _ _ = true |- _ => apply N.ltb_lt in H
  | H : N.ltb _ _ = false |- _ => apply N.ltb_ge in H
  | H : N.leb _ _ = true |- _ => apply N.leb_le in H
  | H : N.leb _ _ = false |- _ => apply N.leb_gt in H
  | H : Nat.ltb _ _ = true |- _ => apply Nat.ltb_lt in H
  | H : Nat.ltb _ _ = false |- _ => apply Nat.ltb_ge in H
  | H : Nat.leb _ _ = true |- _ => apply Nat.leb_le in H
  | H : Nat.leb _ _ = false |- _ => apply Nat.leb_gt in H
  | H : Nat.eqb _ _ = true |- _ => apply Nat.eqb_eq in H
  | H : Nat.eqb _ _ = false |- _ => apply Nat.eqb_neq in H
  | H : bool_decide _ = true |- _ => apply bool_decide_eq_true in H
  | H : bool_decide _ = false |- _ => apply bool_decide_eq_false in H
  end.

(** [update_field eta x f v] is the record [x] with field [f] replaced by [v];
    [eta x] spells [x] out field by field. *)
Ltac update_field eta x f v :=
  let t := eval cbv beta delta [eta] in (eta x) in
  let old := constr:(f x) in
  lazymatch t with
  | context C [old] => let r := context C [v] in exact r
  end.

Lemma u64_add_small a b : (a + b < u64_modulus)%N → a +64 b = (a + b)%N.
Proof. intros. by apply N.mod_small. Qed.

Lemma u64_add_lt a b : (a +64 b < u64_modulus)%N.
Proof. by apply N.mod_lt. Qed.

Lemma u32_add_small a b : (a + b < u32_modulus)%N → a +32 b = (a + b)%N.
Proof. intros. by apply N.mod_small. Qed.

(** ** Identifiers

    [NodeId] and [ActorAddress] are 32-byte arrays.  They are modelled by the
    number their bytes spell in big-endian order: [be_value_lex] shows that the
    derived (lexicographic) order of the arrays is the order of the numbers. *)

Abbreviation NodeId := N (only parsing).
Abbreviation ActorAddress := N (only parsing).

Fixpoint lex_ltb (a b : list N) : bool :=
  match a, b with
  | [], [] => false
  | [], _ :: _ => true
  | _ :: _, [] => false
  | x :: a', y :: b' => (x <? y)%N || ((x =? y)%N && lex_ltb a' b')
  end.

Definition be_value (bytes : list N) : N :=
  foldl (λ acc b, acc * 256 + b)%N 0%N bytes.

Lemma lex_ltb_irrefl a : lex_ltb a a = false.
Proof.
  induction a as [|x a IH]; simpl; [done|].
  by rw N.ltb_irrefl N.eqb_refl IH.
Qed.

Lemma lex_ltb_trans a b c :
  lex_ltb a b = true → lex_ltb b c = true → lex_ltb a c = true.
Proof.
  revert b c; induction a as [|x a IH]; intros [|y b] [|z c]; simpl; try done.
  rw !orb_true_iff !andb_true_iff !N.ltb_lt !N.eqb_eq.
  intros [?|[-> ?]] [?|[-> ?]]; [left; lia..|eauto].
Qed.

Lemma lex_ltb_total a b :
  lex_ltb a b = false → lex_ltb b a = false → a = b.
Proof.
  revert b; induction a as [|x a IH]; intros [|y b]; simpl; try done.
  rw !orb_false_iff !N.ltb_ge.
  intros [? H1] [? H2]; assert (x = y) as -> by lia.
  rw N.eqb_refl /= in H1, H2. by rw (IH b).
Qed.

Lemma lex_ltb_asymm a b : lex_ltb a b = true → lex_ltb b a = false.
Proof.
  intros H. destruct (lex_ltb b a) eqn:E; [|done].
  by rw -(lex_ltb_irrefl a) (lex_ltb_trans a b a).
Qed.

Lemma be_value_acc acc bs :
  foldl (λ acc b, acc * 256 + b)%N acc bs =
  (acc * 256 ^ N.of_nat (length bs) + be_value bs)%N.
Proof.
  unfold be_value. revert acc; induction bs as [|b bs IH]; intros acc; simpl.
  { by rw N.pow_0_r N.mul_1_r N.add_0_r. }
  rw IH (IH b) Nat2N.inj_succ N.pow_succ_r'. lia.
Qed.

Lemma be_value_bound bs :
  Forall (λ b, b < 256)%N bs → (be_value bs < 256 ^ N.of_nat (length bs))%N.
Proof.
  induction 1 as [|b bs Hb _ IH]; [done|].
  unfold be_value; simpl. rw be_value_acc Nat2N.inj_succ N.pow_succ_r'.
  nia.
Qed.

(** The array order is the order of the big-endian values. *)
Lemma be_value_lex a b :
  length a = length b → Forall (λ x, x < 256)%N a → Forall (λ x, x < 256)%N b →
  lex_ltb a b = (be_value a <? be_value b)%N.
Proof.
  revert b; induction a as [|x a IH]; intros [|y b] Hlen Ha Hb; simpl in *;
    try lia; [done|].
  inv Ha; inv Hb.
  pose proof (be_value_bound a ltac:(done)) as Hba; rw Hlen in Hba.
  pose proof (be_value_bound b ltac:(done)) as Hbb.
  unfold be_value; simpl; rw !be_value_acc.
  rw IH // Hlen.
  set (p := (256 ^ N.of_nat (length b))%N) in *.
  apply eq_bool_prop_intro; rw !Is_true_true orb_true_iff andb_true_iff.
  rw !N.ltb_lt N.eqb_eq. split.
  - intros [?|[-> ?]]; nia.
  - intros ?. destruct (N.lt_trichotomy x y) as [?|[->|?]]; [by left| |nia].
    right; split; [done|lia].
Qed.

(** ** Lists *)

Section list_facts.
Context {A : Type}.

Lemma filter_fmap_nodup {B} (f : A → B) (P : A → Prop) `{!∀ x, Decision (P x)} l :
  NoDup (f <$> l) → NoDup (f <$> filter P l).
Proof.
  intros Hl. eapply sublist_NoDup; [exact Hl|].
  apply fmap_sublist, sublist_filter.
Qed.

Lemma filter_all (P : A → Prop) `{!∀ x, Decision (P x)} l :
  Forall P l → filter P l = l.
Proof.
  induction 1 as [|x l Hx _ IH]; [done|]. by rw filter_cons decide_True // IH.
Qed.

Lemma filter_ext_in (P Q : A → Prop) `{!∀ x, Decision (P x)} `{!∀ x, Decision (Q x)}
    (l : list A) :
  (∀ x, x ∈ l → P x ↔ Q x) → filter P l = filter Q l.
Proof.
  induction l as [|x l IH]; intros HPQ; [done|].
  assert (P x ↔ Q x) as Hx by (apply HPQ; by left).
  rw !filter_cons IH; [|by repeat case_decide; try tauto].
  intros y Hy. apply HPQ. by right.
Qed.

Lemma list_fmap_id_ext (f : A → A) (l : list A) : (∀ x, f x = x) → f <$> l = l.
Proof. intros Hf. induction l as [|x l IH]; [done|]. by rw fmap_cons Hf IH. Qed.
Lemma length_omap_some {B} (f : A → option B) (l : list A) :
  Forall (λ x, is_Some (f x)) l → length (omap f l) = length l.
Proof.
  induction 1 as [|x l [y Hy] _ IH]; [done|]. simpl. by rw Hy /= IH.
Qed.

Lemma NoDup_omap_inj {B} (f : A → option B) (l : list A) :
  NoDup l →
  (∀ i j x, i ∈ l → j ∈ l → f i = Some x → f j = Some x → i = j) →
  NoDup (omap f l).
Proof.
  induction 1 as [|i l Hi Hl IH]; intros Hf; simpl; [constructor|].
  assert (NoDup (omap f l)) as Hnd.
  { apply IH. intros j k x Hj Hk. apply Hf; by right. }
  destruct (f i) as [x|] eqn:E; [|done]. constructor; [|done].
  intros (j & Hj & Ej)%list_elem_of_omap.
  assert (i = j) as ->; [|done]. apply (Hf i j x); [by left|by right|done..].
Qed.

Lemma rotate_index_inj n start i j :
  start < n → i < n → j < n → (start + i) mod n = (start + j) mod n → i = j.
Proof.
  assert (∀ k, start < n → k < n →
    (start + k) mod n = if decide (start + k < n) then start + k else start + k - n)
    as Hmod.
  { intros k ??. case_decide; [by apply Nat.mod_small|].
    symmetry. apply (Nat.mod_unique _ _ 1); lia. }
  intros ???. rw !Hmod //. repeat case_decide; lia.
Qed.
End list_facts.

(** ** Stable sorting

    [sort_by le l] is the stable sort of [l]: the specification of
    [slice::sort_by_key] and of the ordered iteration of a [BTreeMap]. *)

Section sort.
Context {A : Type} (le : A → A → bool).

Fixpoint insert_by (x : A) (l : list A) : list A :=
  match l with
  | [] => [x]
  | y :: l' => if le x y then x :: y :: l' else y :: insert_by x l'
  end.

Definition sort_by (l : list A) : list A := foldr insert_by [] l.

Lemma insert_by_perm x l : insert_by x l ≡ₚ x :: l.
Proof.
  induction l as [|y l IH]; simpl; [done|].
  destruct (le x y); [done|]. rw IH. apply perm_swap.
Qed.

Lemma sort_by_perm l : sort_by l ≡ₚ l.
Proof.
  induction l as [|x l IH]; simpl; [done|]. by rw insert_by_perm IH.
Qed.

Lemma elem_of_sort_by x l : x ∈ sort_by l ↔ x ∈ l.
Proof. by rw sort_by_perm. Qed.

Lemma length_sort_by l : length (sort_by l) = length l.
Proof. by rw sort_by_perm. Qed.

Context (le_total : ∀ x y, le x y = false → le y x = true).
Context (le_trans : ∀ x y z, le x y = true → le y z = true → le x z = true).

Lemma insert_by_sorted x l :
  StronglySorted le l → StronglySorted le (insert_by x l).
Proof using le_total le_trans.
  induction 1 as [|y l Hl IH Hy]; simpl; [by repeat constructor|].
  destruct (le x y) eqn:E.
  - constructor; [by constructor|]. constructor; [by apply Is_true_true|].
    eapply Forall_impl; [exact Hy|]. intros z; rw !Is_true_true. eauto.
  - constructor; [done|]. rw insert_by_perm. constructor; [|done].
    by apply Is_true_true, le_total.
Qed.

Lemma sort_by_sorted l : StronglySorted le (sort_by l).
Proof using le_total le_trans.
  induction l; simpl; [constructor|by apply insert_by_sorted].
Qed.

(** Stability: sorting keeps the relative order of the elements of any class
    on which [le] does not distinguish. *)
Lemma insert_by_filter (P : A → Prop) `{!∀ x, Decision (P x)} x l :
  (∀ y, P x → P y → le x y = true) →
  filter P (insert_by x l) = filter P (x :: l).
Proof.
  intros HP. induction l as [|y l IH]; simpl; [done|].
  destruct (le x y) eqn:E; [done|].
  rw !filter_cons in IH |- *; simpl. rw IH.
  repeat case_decide; try done. by rw HP in E.
Qed.

Lemma sort_by_stable (P : A → Prop) `{!∀ x, Decision (P x)} l :
  (∀ x y, P x → P y → le x y = true) → filter P (sort_by l) = filter P l.
Proof.
  intros HP. induction l as [|x l IH]; [done|].
  change (sort_by (x :: l)) with (insert_by x (sort_by l)).
  rw insert_by_filter; [by eauto|]. by rw !filter_cons IH.
Qed.
End sort.

(** ** Ordered maps

    A [BTreeMap] is a [gmap]; [btree_values] is its iteration, in the order of
    the keys. *)

Section btree.
Context {V : Type}.
Implicit Types m : gmap N V.

Definition key_le (a b : N * V) : bool := (a.1 <=? b.1)%N.
Definition btree_entries m : list (N * V) := sort_by key_le (map_to_list m).
Definition btree_values m : list V := (btree_entries m).*2.

Lemma elem_of_btree_entries m i x : (i, x) ∈ btree_entries m ↔ m !! i = Some x.
Proof. by rw elem_of_sort_by elem_of_map_to_list. Qed.

Lemma elem_of_btree_values m x : x ∈ btree_values m ↔ ∃ i, m !! i = Some x.
Proof.
  unfold btree_values. rw list_elem_of_fmap. split.
  - intros ([i y] & -> & H%elem_of_btree_entries). by exists i.
  - intros [i H]. exists (i, x). by rw elem_of_btree_entries.
Qed.

Lemma btree_entries_nodup m : NoDup (btree_entries m).*1.
Proof.
  unfold btree_entries. rw sort_by_perm. apply NoDup_fst_map_to_list.
Qed.

Lemma length_btree_values m : length (btree_values m) = size m.
Proof.
  unfold btree_values, btree_entries.
  by rw length_fmap length_sort_by length_map_to_list.
Qed.

Lemma btree_entries_sorted m : StronglySorted key_le (btree_entries m).
Proof.
  apply sort_by_sorted; unfold key_le; intros *; rw ?N.leb_gt ?N.leb_le; lia.
Qed.
End btree.

(** ** Hash maps

    A [HashMap] is a [gmap].  Its iteration order is not specified by the
    language: an operation that iterates over one takes the order as an argument
    and is proved for every order. *)

Class HashOrder (K V : Type) `{Countable K} := {
  hash_iter : gmap K V → list (K * V);
  hash_iter_perm m : hash_iter m ≡ₚ map_to_list m;
}.
Arguments hash_iter {_ _ _ _ _} _.
Arguments hash_iter_perm {_ _ _ _ _} _.

Definition default_order K V `{Countable K} : HashOrder K V :=
  {| hash_iter := map_to_list; hash_iter_perm m := Permutation_refl _ |}.

Section hash.
Context `{Countable K} {V : Type} (ord : HashOrder K V).

Lemma elem_of_hash_iter (m : gmap K V) i x :
  (i, x) ∈ hash_iter m ↔ m !! i = Some x.
Proof. by rw hash_iter_perm elem_of_map_to_list. Qed.

Lemma length_hash_iter (m : gmap K V) : length (hash_iter m) = size m.
Proof. by rw hash_iter_perm length_map_to_list. Qed.

Lemma hash_iter_nodup (m : gmap K V) : NoDup (hash_iter m).*1.
Proof. rw hash_iter_perm. apply NoDup_fst_map_to_list. Qed.
End hash.

(** A [HashSet] is a [gset], iterated over as the map to the unit type that it is. *)
Definition hash_elems `{Countable K} {ord : HashOrder K unit} (X : gset K) : list K :=
  (hash_iter (gset_to_gmap () X)).*1.

Section hash_set.
Context `{Countable K} (ord : HashOrder K unit).

Lemma elem_of_hash_elems (X : gset K) x : x ∈ hash_elems X ↔ x ∈ X.
Proof.
  unfold hash_elems. rw list_elem_of_fmap. split.
  - intros ([y []] & -> & Hy). rw elem_of_hash_iter lookup_gset_to_gmap_Some in Hy. by destruct Hy.
  - intros Hx. exists (x, ()). by rw elem_of_hash_iter lookup_gset_to_gmap_Some.
Qed.

Lemma NoDup_hash_elems (X : gset K) : NoDup (hash_elems X).
Proof. apply hash_iter_nodup. Qed.

Lemma hash_elems_perm (X : gset K) : hash_elems X ≡ₚ elements X.
Proof.
  apply NoDup_Permutation; [apply NoDup_hash_elems|apply NoDup_elements|].
  intros x. by rw elem_of_hash_elems elem_of_elements.
Qed.
End hash_set.

(** ** Dissemination budget

    [Λ * max 1 ⌈log2 (max n 2)⌉], computed by the code in [f64].  [log2] of an
    integer below [2^48] is a power of two exactly when the integer is one and
    is otherwise strictly between two consecutive integers, so the rounded
    ceiling is the integer ceiling on every cluster size that can occur. *)
Definition gossip_budget (lambda cluster_size : nat) : nat :=
  lambda * Nat.max (Nat.log2_up (Nat.max cluster_size 2)) 1.

Lemma gossip_budget_pos lambda n : 0 < lambda → 0 < gossip_budget lambda n.
Proof. unfold gossip_budget. nia. Qed.

(** ** Folds over a state *)

Section fold.
Context {S E : Type} (P : S → Prop) (f : S → E → S).

(** An invariant of every step is an invariant of the loop. *)
Lemma foldl_invariant (Q : E → Prop) l s :
  (∀ s e, Q e → P s → P (f s e)) → Forall Q l → P s → P (foldl f s l).
Proof. intros Hf Hl. revert s; induction Hl; simpl; eauto. Qed.

Lemma foldl_invariant' l s : (∀ s e, P s → P (f s e)) → P s → P (foldl f s l).
Proof. intros Hf. revert s; induction l; simpl; eauto. Qed.
End fold.

Lemma last_default_irrelevant {A} (x : A) l d d' :
  List.last (x :: l) d = List.last (x :: l) d'.
Proof. revert x; induction l as [|y l IH]; intros x; [done|]. apply IH. Qed.

(** ** Strings

    The order of Rust strings is the lexicographic order of their bytes. *)

Definition str_bytes (s : string) : list N :=
  Ascii.N_of_ascii <$> String.list_ascii_of_string s.

Definition str_le (a b : string) : bool := negb (lex_ltb (str_bytes b) (str_bytes a)).

Lemma str_bytes_inj a b : str_bytes a = str_bytes b → a = b.
Proof.
  intros E. assert (Inj (=) (=) Ascii.N_of_ascii) as Hinj.
  { intros x y Exy. by rw -(Ascii.ascii_N_embedding x) Exy Ascii.ascii_N_embedding. }
  apply (inj (fmap Ascii.N_of_ascii)) in E.
  by rw -(String.string_of_list_ascii_of_string a) E String.string_of_list_ascii_of_string.
Qed.

Lemma str_le_total a b : str_le a b = false → str_le b a = true.
Proof.
  unfold str_le. rw negb_false_iff negb_true_iff. apply lex_ltb_asymm.
Qed.

Lemma lex_ltb_ge_trans a b c :
  lex_ltb b a = false → lex_ltb c b = false → lex_ltb c a = false.
Proof.
  intros H1 H2. destruct (lex_ltb c a) eqn:E; [|done].
  destruct (lex_ltb a b) eqn:Eab.
  - by rw (lex_ltb_trans c a b E Eab) in H2.
  - rw (lex_ltb_total a b Eab H1) in E. congruence.
Qed.

Lemma str_le_trans a b c : str_le a b = true → str_le b c = true → str_le a c = true.
Proof. unfold str_le. rw !negb_true_iff. apply lex_ltb_ge_trans. Qed.

Lemma str_le_antisym a b : str_le a b = true → str_le b a = true → a = b.
Proof.
  unfold str_le. rw !negb_true_iff. intros. by apply str_bytes_inj, lex_ltb_total.
Qed.

(** ** Batches

    The loop that takes [n] elements of an iterator at a time until it is
    exhausted. *)

Fixpoint chunks {A} (n fuel : nat) (l : list A) : list (list A) :=
  match fuel, l with
  | S fuel, _ :: _ => take n l :: chunks n fuel (drop n l)
  | _, _ => []
  end.

Lemma chunks_concat {A} n fuel (l : list A) :
  0 < n → length l ≤ fuel → concat (chunks n fuel l) = l.
Proof.
  intros Hn. revert l; induction fuel as [|fuel IH]; intros [|x l] Hl; simpl in *; try done;
    [lia|].
  rw IH; [rw length_drop; simpl; lia|]. by rw take_drop.
Qed.

(** ** Loops that emit

    The loop [for x in xs { out.extend(self.f(x)) }]. *)

Fixpoint emit_all {S A B} (f : S → A → S * list B) (s : S) (xs : list A)
    : S * list B :=
  match xs with
  | [] => (s, [])
  | x :: xs =>
      let r := f s x in
      let r' := emit_all f r.1 xs in
      (r'.1, r.2 ++ r'.2)
  end.

Lemma emit_all_app {S A B} (f : S → A → S * list B) s xs ys :
  emit_all f s (xs ++ ys) =
    ((emit_all f (emit_all f s xs).1 ys).1,
     (emit_all f s xs).2 ++ (emit_all f (emit_all f s xs).1 ys).2).
Proof.
  revert s; induction xs as [|x xs IH]; intros s; simpl.
  - by destruct (emit_all f s ys).
  - rw IH /= assoc //.
Qed.

(** A property of the state and of everything emitted so far that one iteration
    preserves holds at the end of the loop. *)
Lemma emit_all_invariant {S A B} (P : S → list B → Prop) (f : S → A → S * list B) s out xs :
  (∀ s out x, x ∈ xs → P s out → P (f s x).1 (out ++ (f s x).2)) →
  P s out → P (emit_all f s xs).1 (out ++ (emit_all f s xs).2).
Proof.
  revert s out; induction xs as [|x xs IH]; intros s out Hf HP; simpl.
  { by rw app_nil_r. }
  rw assoc. apply IH; [|apply Hf; [by left|done]].
  intros s' out' y Hy. apply Hf. by right.
Qed.
