(* ===== verification/Lww.v ===== *)
(** * Last-writer-wins maps

    The abstract specification shared by the gossiped stores of the cluster
    (membership, registry, directory, node metadata): a map in which every slot
    keeps the entry with the greatest key, keys being compared
    lexicographically.  The components refine [lww_merge]; what replication
    needs of it is proved once here: the state after a batch of merges depends
    on the set of merged entries alone ([lww_merges_set]), whatever the order
    and the number of deliveries, and the key of a slot never decreases. *)

From S2P Require Import Prelude.

Section lww.
Context {V K : Type} `{Countable K} (key : V → list N) (slot : V → K).
Implicit Types (m : gmap K V) (o : option V) (v : V).

(** [v] beats [c]: its key is strictly greater. *)
Definition better (v c : V) : bool := lex_ltb (key c) (key v).

Definition lww_pick o v : V :=
  match o with
  | Some c => if better v c then v else c
  | None => v
  end.

Definition lww_merge m v : gmap K V := <[slot v := lww_pick (m !! slot v) v]> m.

Definition lww_merges m (l : list V) : gmap K V := foldl lww_merge m l.

(** No two entries of [l] compete for a slot with the same key. *)
Definition distinct_keys (l : list V) : Prop :=
  ∀ a b, a ∈ l → b ∈ l → slot a = slot b → key a = key b → a = b.

Lemma better_irrefl v : better v v = false.
Proof. apply lex_ltb_irrefl. Qed.

Lemma better_trans a b c :
  better a b = true → better b c = true → better a c = true.
Proof. intros. by eapply lex_ltb_trans. Qed.

Lemma better_tie a b : better a b = false → better b a = false → key a = key b.
Proof. intros. by apply lex_ltb_total. Qed.

Lemma better_asymm a b : better a b = true → better b a = false.
Proof. apply lex_ltb_asymm. Qed.

(** Not being beaten is transitive. *)
Lemma not_better_trans a b c :
  better a b = false → better b c = false → better a c = false.
Proof.
  intros H1 H2. destruct (better a c) eqn:E; [|done].
  destruct (better b a) eqn:E2.
  - by rw -(better_trans _ _ _ E2 E).
  - unfold better in *. by rw -(better_tie a b H1 E2) E in H2.
Qed.

Lemma lww_merge_lookup m v k :
  lww_merge m v !! k =
    if decide (slot v = k) then Some (lww_pick (m !! k) v) else m !! k.
Proof.
  unfold lww_merge. rw lookup_insert. case_decide as E; [by rw E|done].
Qed.

(** [r] is what a slot holding [o] keeps of the competitors in [S]: a strict
    maximum if one beats the current entry, the current entry otherwise. *)
Definition best o (S : V → Prop) (r : V) : Prop :=
  (∀ v, S v → better v r = false) ∧
  (o = Some r ∨ S r ∧ ∀ c, o = Some c → better r c = true).

Lemma best_unique o (S S' : V → Prop) r r' :
  (∀ v, S v ↔ S' v) →
  (∀ a b, S a → S b → key a = key b → a = b) →
  best o S r → best o S' r' → r = r'.
Proof.
  intros HS Hd [Hmax Hr] [Hmax' Hr'].
  destruct Hr as [Hr|[Hr Hb]], Hr' as [Hr'|[Hr' Hb']].
  - congruence.
  - apply HS in Hr'. pose proof (Hmax _ Hr'). by rw Hb' in H0.
  - apply HS in Hr. pose proof (Hmax' _ Hr). by rw Hb in H0.
  - apply Hd; [done|by apply HS|].
    apply better_tie; [by apply Hmax', HS|by apply Hmax, HS].
Qed.

Definition competitors (l : list V) (k : K) (v : V) : Prop := v ∈ l ∧ slot v = k.

Lemma lww_merges_None l m k :
  lww_merges m l !! k = None ↔ m !! k = None ∧ ∀ v, ¬ competitors l k v.
Proof.
  revert m; induction l as [|b l IH]; intros m; simpl.
  { split; [|by intros [??]]. intros. split; [done|].
    by intros v [?%not_elem_of_nil _]. }
  rw (IH (lww_merge m b)) lww_merge_lookup. split.
  - case_decide; [by intros []|]. intros [? Hn]. split; [done|].
    intros v [[->|?]%elem_of_cons Hs]; [done|]. by apply (Hn v).
  - intros [Hm Hn]. rw decide_False.
    { intros E. apply (Hn b). split; [by left|done]. }
    split; [done|]. intros v [? ?]. apply (Hn v). split; [by right|done].
Qed.

Lemma lww_merges_best l m k r :
  lww_merges m l !! k = Some r → best (m !! k) (competitors l k) r.
Proof.
  revert m r; induction l as [|a l IH] using rev_ind; intros m r; simpl.
  { intros E. split; [by intros v [?%not_elem_of_nil _]|by left]. }
  unfold lww_merges. rw foldl_snoc lww_merge_lookup. fold (lww_merges m l).
  assert (∀ v, competitors (l ++ [a]) k v ↔
    competitors l k v ∨ (v = a ∧ slot a = k)) as Hc.
  { intros v. unfold competitors. rw elem_of_app list_elem_of_singleton.
    clear.
    intuition (subst; auto). }
  case_decide as Hk; intros E.
  - injection E as <-. unfold lww_pick.
    destruct (lww_merges m l !! k) as [c|] eqn:El.
    + destruct (IH m c El) as [Hmax Hcase].
      destruct (better a c) eqn:Hac; split.
      * intros v [Hv|[-> _]]%Hc; [|apply better_irrefl].
        eapply not_better_trans; [by apply Hmax|]. by apply better_asymm.
      * right; split; [apply Hc; by right|]. intros c' Hc'.
        destruct Hcase as [?|[_ Hb]]; [congruence|].
        eapply better_trans; [done|]. by apply Hb.
      * intros v [Hv|[-> _]]%Hc; [by apply Hmax|done].
      * destruct Hcase as [?|[??]]; [by left|]. right.
        split; [apply Hc; by left|done].
    + apply lww_merges_None in El as [Hm Hnone].
      split; [|right; split; [apply Hc; by right|by rw Hm]].
      intros v [Hv|[-> _]]%Hc; [by apply Hnone in Hv|apply better_irrefl].
  - destruct (IH m r E) as [Hmax Hcase]. split.
    + intros v [Hv|[-> ?]]%Hc; [by apply Hmax|done].
    + destruct Hcase as [?|[??]]; [by left|]. right.
      split; [apply Hc; by left|done].
Qed.

(** Convergence: the state depends on the set of merged entries alone. *)
Lemma lww_merges_set m l l' :
  (∀ v, v ∈ l ↔ v ∈ l') → distinct_keys l → lww_merges m l = lww_merges m l'.
Proof.
  intros Hl Hd. apply map_eq; intros k.
  assert (∀ v, competitors l k v ↔ competitors l' k v) as HS.
  { intros v. unfold competitors. by rw Hl. }
  destruct (lww_merges m l !! k) as [r|] eqn:E.
  - destruct (lww_merges m l' !! k) as [r'|] eqn:E'.
    + f_equal. eapply best_unique; [exact HS| |by apply lww_merges_best..].
      intros a b [? <-] [? ?]. by apply Hd.
    + apply lww_merges_None in E' as [Hm Hn].
      assert (lww_merges m l !! k = None); [|congruence].
      apply lww_merges_None. split; [done|]. intros v Hv. by apply (Hn v), HS.
  - symmetry. apply lww_merges_None in E as [Hm Hn]. apply lww_merges_None.
    split; [done|]. intros v Hv. by apply (Hn v), HS.
Qed.

(** Merging an entry twice is merging it once. *)
Lemma lww_merge_idemp m v : lww_merge (lww_merge m v) v = lww_merge m v.
Proof.
  apply map_eq; intros k. rw !lww_merge_lookup. case_decide; [|done].
  unfold lww_pick. destruct (m !! k) as [c|]; [|by rw better_irrefl].
  destruct (better v c) eqn:E; [by rw better_irrefl|by rw E].
Qed.

(** Merging one entry per slot into the empty map builds the map of the
    entries. *)
Lemma lww_merges_from_empty l k r :
  (∀ a b, a ∈ l → b ∈ l → slot a = slot b → a = b) →
  lww_merges ∅ l !! k = Some r ↔ competitors l k r.
Proof.
  intros Hd. split.
  - intros E%lww_merges_best. by destruct E as [_ [?|[? _]]].
  - intros [Hr Hk]. destruct (lww_merges ∅ l !! k) as [r'|] eqn:E.
    + apply lww_merges_best in E as [_ [?|[[? Hk'] _]]]; [done|].
      f_equal. apply Hd; [done..|congruence].
    + apply lww_merges_None in E as [_ E]. by destruct (E r).
Qed.

(** The key of a slot never decreases. *)
Lemma lww_merges_mono m l k c :
  m !! k = Some c → ∃ r, lww_merges m l !! k = Some r ∧ better c r = false.
Proof.
  intros Hm. destruct (lww_merges m l !! k) as [r|] eqn:E.
  - exists r; split; [done|]. apply lww_merges_best in E as [_ [E|[_ E]]].
    + rw Hm in E. injection E as ->. apply better_irrefl.
    + by apply better_asymm, E.
  - apply lww_merges_None in E as [E _]. congruence.
Qed.
End lww.
Arguments better : simpl never.

(** A projection of entries that determines the keys commutes with the merges,
    so what a reader sees through it converges even when two entries tie. *)
Section lww_map.
Context {V W K : Type} `{Countable K}.
Context (key : V → list N) (slot : V → K) (key' : W → list N) (slot' : W → K).
Context (f : V → W).
Context (Hkey : ∀ v, key' (f v) = key v) (Hslot : ∀ v, slot' (f v) = slot v).

Lemma lww_merges_fmap (m : gmap K V) (l : list V) :
  f <$> lww_merges key slot m l = lww_merges key' slot' (f <$> m) (f <$> l).
Proof using Hkey Hslot.
  revert m; induction l as [|v l IH]; intros m; simpl; [done|].
  unfold lww_merges in IH. rw IH. f_equal. unfold lww_merge.
  rw fmap_insert Hslot lookup_fmap. f_equal.
  unfold lww_pick, better. destruct (m !! slot v); simpl; [|done].
  rw !Hkey. by destruct (lex_ltb _ _).
Qed.
End lww_map.
