(* ===== verification/BudgetQueue.v ===== *)
(** * Queues with a transmit budget

    The three gossip engines (SWIM dissemination, cluster registry, node
    metadata) queue their updates in a [Vec] of items, each with the number of
    transmissions it still owes.  This file holds the loops they share (the
    [iter_mut().find] of [enqueue], the [iter_mut().take(count)] and [retain] of
    [take]/[take_pending]) and their accounting: a queue sends every item
    exactly as often as it owes, and then goes quiet. *)

From S2P Require Import Prelude.

Record pending (A : Type) := mkPending { pd_item : A; pd_remaining : nat }.
Arguments mkPending {_} _ _.
Arguments pd_item {_} _.
Arguments pd_remaining {_} _.

Section queue.
Context {A K : Type} `{EqDecision K} (slot : A → K).
Implicit Types (q : list (pending A)) (a : A).

Definition queue_slots q : list K := (λ e, slot (pd_item e)) <$> q.

(** Replace the queued item of the same slot if [supersedes] says so, else
    append. *)
Definition put (supersedes : A → A → bool) a (budget : nat) q : list (pending A) :=
  match list_find (λ e, slot (pd_item e) = slot a) q with
  | Some (i, e) =>
      if supersedes a (pd_item e) then <[i := mkPending a budget]> q else q
  | None => q ++ [mkPending a budget]
  end.

Definition spend_one (e : pending A) : pending A :=
  mkPending (pd_item e) (pd_remaining e - 1).

(** Return the first [max_count] items, charge each one transmission, and evict
    the exhausted ones. *)
Definition take_batch (max_count : nat) q : list (pending A) * list A :=
  let count := Nat.min max_count (length q) in
  (filter (λ e, 0 < pd_remaining e) ((spend_one <$> take count q) ++ drop count q),
   pd_item <$> take count q).

(** The queue invariant: one item per slot, each still owed. *)
Record queue_wf q : Prop := {
  queue_wf_slots : NoDup (queue_slots q);
  queue_wf_owed : Forall (λ e, 0 < pd_remaining e) q;
}.

Definition total q : nat := sum_list (pd_remaining <$> q).

Lemma queue_wf_nil : queue_wf [].
Proof. split; constructor. Qed.

Lemma queue_wf_perm q q' : q ≡ₚ q' → queue_wf q → queue_wf q'.
Proof. intros Hq [Hs Ho]. split; [unfold queue_slots|]; by rw -Hq. Qed.

Lemma queue_wf_filter (P : pending A → Prop) `{!∀ x, Decision (P x)} q :
  queue_wf q → queue_wf (filter P q).
Proof.
  intros [Hs Ho]. split; [by apply filter_fmap_nodup|].
  rw Forall_forall in Ho. apply Forall_forall. intros e [_ He]%list_elem_of_filter. eauto.
Qed.

(** The item queued for a slot, if any. *)
Definition queued_item q (k : K) : option A :=
  pd_item <$> (snd <$> list_find (λ e, slot (pd_item e) = k) q).

Lemma queued_item_Some q k a :
  queue_wf q → queued_item q k = Some a ↔ slot a = k ∧ a ∈ pd_item <$> q.
Proof.
  intros [Hnd _]. unfold queued_item. rw list_elem_of_fmap. split.
  - destruct (list_find _ _) as [[i e]|] eqn:E; [|done]. intros [= <-].
    apply list_find_Some in E as (Hi & He & _). split; [done|].
    exists e; split; [done|]. by eapply list_elem_of_lookup_2.
  - intros [Hk (e & -> & He)].
    destruct (list_find_elem_of (λ e, slot (pd_item e) = k) _ _ He Hk) as [[i e'] E].
    rw E /=. do 2 f_equal. apply list_find_Some in E as (Hi & He' & _).
    apply list_elem_of_lookup in He as [j Hj].
    assert (i = j) as ->; [|congruence].
    apply (NoDup_lookup (queue_slots q) i j k Hnd); unfold queue_slots;
      rw list_lookup_fmap ?Hi ?Hj /=; congruence.
Qed.

Lemma queued_item_cons e q k :
  queued_item (e :: q) k =
    if decide (slot (pd_item e) = k) then Some (pd_item e) else queued_item q k.
Proof.
  unfold queued_item; simpl. case_decide; [done|].
  by destruct (list_find _ q) as [[??]|].
Qed.

Lemma put_cons supersedes a b e q :
  put supersedes a b (e :: q) =
    if decide (slot (pd_item e) = slot a) then
      (if supersedes a (pd_item e) then mkPending a b else e) :: q
    else e :: put supersedes a b q.
Proof.
  unfold put; simpl. case_decide; [by destruct (supersedes _ _)|].
  destruct (list_find _ q) as [[??]|]; simpl; [|done]. by case_match.
Qed.

(** After [put], a slot holds the winner of the old and the new item. *)
Lemma queued_item_put supersedes a b q k :
  queued_item (put supersedes a b q) k =
    if decide (slot a = k) then
      Some (match queued_item q k with
            | Some e => if supersedes a e then a else e
            | None => a
            end)
    else queued_item q k.
Proof.
  induction q as [|e q IH].
  { unfold put; simpl. by rw queued_item_cons. }
  rw put_cons.
  destruct (decide (slot (pd_item e) = slot a)) as [He|He]; rw !queued_item_cons.
  - destruct (supersedes a (pd_item e)) eqn:Hs; simpl;
      repeat case_decide; rw ?Hs //; congruence.
  - rw IH. repeat case_decide; congruence.
Qed.

Lemma put_slots supersedes a b q :
  queue_slots (put supersedes a b q) =
    if decide (slot a ∈ queue_slots q) then queue_slots q
    else queue_slots q ++ [slot a].
Proof.
  unfold put, queue_slots.
  destruct (list_find _ q) as [[i e]|] eqn:E.
  - apply list_find_Some in E as (Hi & He & _).
    rw decide_True.
    { apply list_elem_of_fmap. exists e. split; [done|].
      by eapply list_elem_of_lookup_2. }
    destruct (supersedes _ _); [|done].
    rw list_fmap_insert list_insert_id //=. by rw list_lookup_fmap Hi /= He.
  - apply list_find_None in E. rw decide_False.
    { intros (e & He & Hin)%list_elem_of_fmap.
      rw Forall_forall in E. by apply (E e). }
    by rw fmap_app.
Qed.

Lemma put_wf supersedes a b q : 0 < b → queue_wf q → queue_wf (put supersedes a b q).
Proof.
  intros Hb [Hs Ho]. split.
  - rw put_slots. case_decide; [done|]. apply NoDup_app.
    split; [done|]. split; [|apply NoDup_singleton].
    by intros x Hx ->%list_elem_of_singleton.
  - unfold put. destruct (list_find _ q) as [[i e]|]; [case_match|]; [|done|].
    + by apply Forall_insert.
    + apply Forall_app_2; [done|]. by constructor.
Qed.

Lemma take_batch_slots n q :
  queue_slots (take_batch n q).1 `sublist_of` queue_slots q.
Proof.
  unfold take_batch, queue_slots; simpl.
  set (c := Nat.min _ _). etrans; [apply fmap_sublist, sublist_filter|].
  rw fmap_app -list_fmap_compose. rw -{3}(take_drop c q) fmap_app.
  done.
Qed.

Lemma take_batch_wf n q : queue_wf q → queue_wf (take_batch n q).1.
Proof.
  intros [Hs Ho]. split.
  - eapply sublist_NoDup; [exact Hs|apply take_batch_slots].
  - apply Forall_forall. by intros e [? _]%list_elem_of_filter.
Qed.

Lemma take_batch_length n q : length (take_batch n q).2 = Nat.min n (length q).
Proof. simpl. rw length_fmap length_take. lia. Qed.

(** ** Accounting *)

(** How many transmissions the queue owes to items satisfying [P]. *)
Definition owed (P : A → Prop) `{!∀ x, Decision (P x)} q : nat :=
  sum_list (pd_remaining <$> filter (λ e, P (pd_item e)) q).

Definition sent (P : A → Prop) `{!∀ x, Decision (P x)} (l : list A) : nat :=
  length (filter P l).

Section accounting.
Context (P : A → Prop) `{!∀ x, Decision (P x)}.

Lemma sent_app l l' : sent P (l ++ l') = sent P l + sent P l'.
Proof. unfold sent. by rw filter_app length_app. Qed.

Lemma owed_cons e q :
  owed P (e :: q) = (if decide (P (pd_item e)) then pd_remaining e else 0) + owed P q.
Proof. unfold owed. rw filter_cons. by case_decide. Qed.

Lemma owed_app q q' : owed P (q ++ q') = owed P q + owed P q'.
Proof. unfold owed. by rw filter_app fmap_app sum_list_with_app. Qed.

Lemma owed_perm q q' : q ≡ₚ q' → owed P q = owed P q'.
Proof. intros Hq. unfold owed. by rw Hq. Qed.

(** Evicting exhausted items loses nothing. *)
Lemma owed_evict q : owed P (filter (λ e, 0 < pd_remaining e) q) = owed P q.
Proof.
  induction q as [|e q IH]; [done|].
  rw filter_cons owed_cons -IH. case_decide; [by rw owed_cons|].
  case_decide; lia.
Qed.

Lemma owed_spend q :
  Forall (λ e, 0 < pd_remaining e) q →
  owed P (spend_one <$> q) + sent P (pd_item <$> q) = owed P q.
Proof.
  induction 1 as [|e q He _ IH]; [done|]. rw !fmap_cons !owed_cons -IH.
  unfold sent; rw filter_cons /=. case_decide; simpl; lia.
Qed.

(** What a batch sends is what the queue stops owing. *)
Lemma take_batch_accounting n q :
  queue_wf q →
  owed P (take_batch n q).1 + sent P (take_batch n q).2 = owed P q.
Proof.
  intros [_ Ho]. unfold take_batch; simpl. set (c := Nat.min _ _).
  rw owed_evict owed_app -{4}(take_drop c q) owed_app.
  rw -(owed_spend (take c q)); [by apply Forall_take|]. lia.
Qed.
End accounting.

(** An item put into a free slot is owed its budget. *)
Lemma owed_put_fresh `{!EqDecision A} supersedes a b q :
  queued_item q (slot a) = None →
  owed (λ x, x = a) (put supersedes a b q) = b.
Proof.
  intros Hnone. induction q as [|e q IH].
  { unfold put; simpl. by rw owed_cons decide_True // /owed /= Nat.add_0_r. }
  rw queued_item_cons in Hnone. case_decide as He; [done|].
  rw put_cons decide_False // owed_cons IH // decide_False //. congruence.
Qed.

Lemma total_owed q : total q = owed (λ _, True) q.
Proof.
  unfold total, owed. f_equal. rw filter_all //. by apply Forall_true.
Qed.

Lemma sent_all (l : list A) : sent (λ _, True) l = length l.
Proof. unfold sent. rw filter_all //. by apply Forall_true. Qed.

Lemma total_take n q :
  queue_wf q → total (take_batch n q).1 + length (take_batch n q).2 = total q.
Proof.
  intros Hq. rw !total_owed -(sent_all (take_batch n q).2).
  by apply take_batch_accounting.
Qed.

Lemma total_zero q : queue_wf q → total q = 0 → q = [].
Proof.
  intros [_ Ho]. destruct q as [|e q]; [done|]. inv Ho. unfold total; simpl. lia.
Qed.
End queue.
Arguments take_batch : simpl never.

#[export] Hint Resolve queue_wf_nil put_wf take_batch_wf queue_wf_filter : swactor.

(** ** Draining

    [drain reorder n fuel q] sends [fuel] batches, rearranging the queue with
    [reorder] before each, and collects what was sent. *)
Section drain.
Context {A K : Type} `{EqDecision K} (slot : A → K) (reorder : list (pending A) → list (pending A)).
Context (reorder_perm : ∀ q, reorder q ≡ₚ q).

Fixpoint drain (n fuel : nat) (q : list (pending A)) : list (pending A) * list A :=
  match fuel with
  | 0 => (q, [])
  | S fuel' =>
      let r := take_batch n (reorder q) in
      let r' := drain n fuel' r.1 in
      (r'.1, r.2 ++ r'.2)
  end.

Lemma drain_S n fuel q :
  drain n (S fuel) q =
    ((drain n fuel (take_batch n (reorder q)).1).1,
     (take_batch n (reorder q)).2 ++ (drain n fuel (take_batch n (reorder q)).1).2).
Proof. done. Qed.

Lemma reorder_wf q : queue_wf slot q → queue_wf slot (reorder q).
Proof using reorder_perm. by apply queue_wf_perm. Qed.

Lemma drain_wf n fuel q : queue_wf slot q → queue_wf slot (drain n fuel q).1.
Proof using reorder_perm.
  revert q; induction fuel as [|fuel IH]; intros q Hq; [done|]. rw drain_S.
  by apply IH, take_batch_wf, reorder_wf.
Qed.

Lemma drain_accounting (P : A → Prop) `{!∀ x, Decision (P x)} n fuel q :
  queue_wf slot q →
  owed P (drain n fuel q).1 + sent P (drain n fuel q).2 = owed P q.
Proof using reorder_perm.
  revert q; induction fuel as [|fuel IH]; intros q Hq.
  { unfold sent; simpl. lia. }
  rw drain_S. cbn [fst snd].
  pose proof (reorder_wf q Hq) as Hq'.
  pose proof (owed_perm P (reorder q) q (reorder_perm q)).
  pose proof (take_batch_accounting slot P n (reorder q) Hq').
  pose proof (IH _ (take_batch_wf slot n _ Hq')).
  rw sent_app. lia.
Qed.

(** As many batches as transmissions owed empty the queue. *)
Lemma drain_empties n fuel q :
  0 < n → queue_wf slot q → total q ≤ fuel → (drain n fuel q).1 = [].
Proof using reorder_perm.
  intros Hn. revert q; induction fuel as [|fuel IH]; intros q Hq Ht.
  { cbn [drain fst]. apply (total_zero slot); [done|lia]. }
  rw drain_S. cbn [fst snd].
  pose proof (reorder_wf q Hq) as Hq'.
  apply IH; [by apply take_batch_wf|].
  pose proof (total_take slot n (reorder q) Hq') as Hacc.
  rw take_batch_length in Hacc.
  assert (total (reorder q) = total q) by by rw !total_owed; apply owed_perm.
  destruct (reorder q) as [|e q']; [unfold total in *; simpl in *; lia|].
  simpl length in *. lia.
Qed.

(** Every item is sent exactly as often as it was owed. *)
Lemma drain_exact (P : A → Prop) `{!∀ x, Decision (P x)} n fuel q :
  0 < n → queue_wf slot q → total q ≤ fuel →
  sent P (drain n fuel q).2 = owed P q.
Proof using reorder_perm.
  intros Hn Hq Ht. rw -(drain_accounting P n fuel q) //.
  by rw drain_empties.
Qed.
End drain.
