(* ===== verification/Types.v ===== *)
(** * Membership and directory data

    The data of [crates/distribution/src/types.rs] and the membership update of
    [messages.rs]. *)

From S2P Require Import Prelude.

Inductive MemberState := Alive | Suspect | Dead.

#[export] Instance MemberState_eq_dec : EqDecision MemberState.
Proof. solve_decision. Defined.

(** [MemberState::priority]: the override order Dead > Suspect > Alive, which is
    also the derived comparison ([Ord for MemberState]). *)
Definition priority (s : MemberState) : N :=
  match s with Alive => 0 | Suspect => 1 | Dead => 2 end.

Definition state_gt (s t : MemberState) : bool := (priority t <? priority s)%N.

Record NodeRecord := mkNodeRecord {
  nr_node_id : NodeId;
  nr_state : MemberState;
  nr_incarnation : N;
}.

Record MembershipUpdate := mkMembershipUpdate {
  mu_node_id : NodeId;
  mu_state : MemberState;
  mu_incarnation : N;
}.

(** A signed claim that an actor lives on a node.  The signature scheme is
    Ed25519 (a third-party crate), so signatures are an opaque number. *)
Record DirectoryEntry := mkDirectoryEntry {
  de_actor_addr : ActorAddress;
  de_node_id : NodeId;
  de_generation : N;
  de_signature : N;
}.

Record DirectoryEntryPayload := mkDirectoryEntryPayload {
  dp_actor_addr : ActorAddress;
  dp_node_id : NodeId;
  dp_generation : N;
}.

Definition payload (e : DirectoryEntry) : DirectoryEntryPayload :=
  mkDirectoryEntryPayload (de_actor_addr e) (de_node_id e) (de_generation e).

#[export] Instance NodeRecord_eq_dec : EqDecision NodeRecord.
Proof. solve_decision. Defined.
#[export] Instance MembershipUpdate_eq_dec : EqDecision MembershipUpdate.
Proof. solve_decision. Defined.
#[export] Instance DirectoryEntry_eq_dec : EqDecision DirectoryEntry.
Proof. solve_decision. Defined.

Lemma priority_inj s t : priority s = priority t → s = t.
Proof. by destruct s, t. Qed.

Lemma priority_bound s : (priority s <= 2)%N.
Proof. by destruct s. Qed.

(** The key under which membership information is ordered: a higher
    incarnation wins, then the higher-priority state. *)
Definition member_key (s : MemberState) (incarnation : N) : list N :=
  [incarnation; priority s].

Arguments member_key : simpl never.

Lemma member_key_inj s i t j : member_key s i = member_key t j → s = t ∧ i = j.
Proof. intros [= -> ?%priority_inj]. done. Qed.

(** Two updates compete by their keys. *)
Lemma member_key_lt s i t j :
  lex_ltb (member_key s i) (member_key t j) =
    (i <? j)%N || ((i =? j)%N && state_gt t s).
Proof.
  unfold member_key, state_gt. cbn [lex_ltb].
  by destruct (i <? j)%N, (i =? j)%N, (priority s <? priority t)%N,
    (priority s =? priority t)%N.
Qed.
