(* ===== verification/MemberList.v ===== *)
(** * The SWIM membership list

    [crates/distribution/src/swim/member_list.rs]: the map from node ids to
    membership entries and its merge rule.  The [BTreeMap] is a [gmap] iterated
    in key order ([btree_values]). *)

From S2P Require Import Prelude Lww Types.

Record MemberEntry := mkMemberEntry {
  me_node_id : NodeId;
  me_state : MemberState;
  me_incarnation : N;
}.

#[export] Instance MemberEntry_eq_dec : EqDecision MemberEntry.
Proof. solve_decision. Defined.

Definition to_record (e : MemberEntry) : NodeRecord :=
  mkNodeRecord (me_node_id e) (me_state e) (me_incarnation e).

Record MemberList := mkMemberList {
  self_id : NodeId;
  self_incarnation : N;
  members : gmap NodeId MemberEntry;
}.

Definition set_members (ml : MemberList) (m : gmap NodeId MemberEntry) : MemberList :=
  mkMemberList (self_id ml) (self_incarnation ml) m.

Definition new (id : NodeId) : MemberList := mkMemberList id 0 ∅.

Definition refute (ml : MemberList) : MemberList * N :=
  let i := self_incarnation ml +64 1 in
  (mkMemberList (self_id ml) i (members ml), i).

Definition get (ml : MemberList) (id : NodeId) : option MemberEntry :=
  members ml !! id.

Definition alive_members (ml : MemberList) : list MemberEntry :=
  filter (λ e, me_state e ≠ Dead) (btree_values (members ml)).

Definition dead_members (ml : MemberList) : list MemberEntry :=
  filter (λ e, me_state e = Dead) (btree_values (members ml)).

Definition all_members (ml : MemberList) : list MemberEntry :=
  btree_values (members ml).

Definition alive_count (ml : MemberList) : nat := length (alive_members ml).

Definition remove (ml : MemberList) (id : NodeId) : MemberList * bool :=
  (set_members ml (delete id (members ml)),
   match members ml !! id with Some _ => true | None => false end).

Definition len (ml : MemberList) : nat := size (members ml).

Definition is_empty (ml : MemberList) : bool := len ml =? 0.

(** [MemberList::apply]: merge one update; the result says whether the list
    changed. *)
Definition apply (ml : MemberList) (node_id : NodeId) (state : MemberState)
    (incarnation : N) : MemberList * bool :=
  if (node_id =? self_id ml)%N then (ml, false)
  else
    match members ml !! node_id with
    | Some existing =>
        if (me_incarnation existing <? incarnation)%N then
          (set_members ml
             (<[node_id := mkMemberEntry (me_node_id existing) state incarnation]>
                (members ml)), true)
        else if ((incarnation =? me_incarnation existing)%N
                 && state_gt state (me_state existing))%bool then
          (set_members ml
             (<[node_id := mkMemberEntry (me_node_id existing) state
                             (me_incarnation existing)]> (members ml)), true)
        else (ml, false)
    | None =>
        (set_members ml
           (<[node_id := mkMemberEntry node_id state incarnation]> (members ml)),
         true)
    end.

(** [MemberList::suspect] and [declare_dead]: the local transitions
    Alive → Suspect and Suspect → Dead. *)
Definition move_state (from to : MemberState) (ml : MemberList) (id : NodeId)
    : MemberList * bool :=
  match members ml !! id with
  | Some e =>
      if decide (me_state e = from) then
        (set_members ml
           (<[id := mkMemberEntry (me_node_id e) to (me_incarnation e)]>
              (members ml)), true)
      else (ml, false)
  | None => (ml, false)
  end.

Definition suspect := move_state Alive Suspect.
Definition declare_dead := move_state Suspect Dead.

Definition snapshot (ml : MemberList) : list NodeRecord :=
  to_record <$> all_members ml.

(** [MemberList::clone_shallow] (declared in [probe.rs]): a copy rebuilt entry by
    entry through [apply]. *)
Definition clone_shallow (original : MemberList) : MemberList :=
  foldl (λ copy e, (apply copy (me_node_id e) (me_state e) (me_incarnation e)).1)
    (new (self_id original)) (all_members original).

(** The type invariant: an entry is stored under its own id, and the list never
    holds its owner. *)
Record wf (ml : MemberList) : Prop := {
  wf_key i e : members ml !! i = Some e → me_node_id e = i;
  wf_self : members ml !! self_id ml = None;
}.
#[export] Hint Resolve wf_key wf_self : swactor.

(** ** Refinement of the last-writer-wins map *)

Definition entry_key (e : MemberEntry) : list N :=
  member_key (me_state e) (me_incarnation e).

Lemma better_entry a b :
  better entry_key a b =
    (me_incarnation b <? me_incarnation a)%N
    || ((me_incarnation b =? me_incarnation a)%N
        && state_gt (me_state a) (me_state b)).
Proof. apply member_key_lt. Qed.

Definition entry_of (u : MembershipUpdate) : MemberEntry :=
  mkMemberEntry (mu_node_id u) (mu_state u) (mu_incarnation u).

Definition apply_update (ml : MemberList) (u : MembershipUpdate) : MemberList :=
  (apply ml (mu_node_id u) (mu_state u) (mu_incarnation u)).1.

Definition apply_all (ml : MemberList) (us : list MembershipUpdate) : MemberList :=
  foldl apply_update ml us.

Lemma list_new_wf id : wf (new id).
Proof. split; [by intros ? ? ?|done]. Qed.

Lemma apply_self_id ml id s i : self_id (apply ml id s i).1 = self_id ml.
Proof. unfold apply. by repeat case_match. Qed.

Lemma apply_self_incarnation ml id s i :
  self_incarnation (apply ml id s i).1 = self_incarnation ml.
Proof. unfold apply. by repeat case_match. Qed.

Lemma apply_on_self ml s i : apply ml (self_id ml) s i = (ml, false).
Proof. unfold apply. by rw N.eqb_refl. Qed.

Lemma set_members_id ml : set_members ml (members ml) = ml.
Proof. by destruct ml. Qed.

(** [apply] on another node is the last-writer-wins merge of its entry. *)
Lemma apply_lww ml id s i :
  wf ml → id ≠ self_id ml →
  apply ml id s i =
    (set_members ml (lww_merge entry_key me_node_id (members ml)
       (mkMemberEntry id s i)),
     match members ml !! id with
     | Some e => better entry_key (mkMemberEntry id s i) e
     | None => true
     end).
Proof.
  intros Hwf Hne. unfold apply, lww_merge. simpl.
  rw (proj2 (N.eqb_neq _ _)) //.
  destruct (members ml !! id) as [e|] eqn:E; simpl; [|done].
  rw better_entry /= (wf_key _ Hwf _ _ E) (N.eqb_sym i).
  destruct (me_incarnation e <? i)%N eqn:E1; simpl; [done|].
  destruct (me_incarnation e =? i)%N eqn:E2; simpl.
  - apply N.eqb_eq in E2 as <-. destruct (state_gt s (me_state e)); [done|].
    by rw insert_id // set_members_id.
  - by rw insert_id // set_members_id.
Qed.

Lemma lww_merge_wf ml e :
  wf ml → me_node_id e ≠ self_id ml →
  wf (set_members ml (lww_merge entry_key me_node_id (members ml) e)).
Proof.
  intros Hwf Hne. split; simpl.
  - intros k x. rw lww_merge_lookup. case_decide as Hk; [|eauto with swactor].
    intros [= <-]. unfold lww_pick. destruct (members ml !! k) eqn:E; [|done].
    case_match; [done|eauto with swactor].
  - rw lww_merge_lookup decide_False //. eauto with swactor.
Qed.

Lemma apply_wf ml id s i : wf ml → wf (apply ml id s i).1.
Proof.
  intros Hwf. destruct (decide (id = self_id ml)) as [->|Hne].
  - by rw apply_on_self.
  - rw apply_lww //. by apply lww_merge_wf.
Qed.
#[export] Hint Resolve list_new_wf apply_wf : swactor.

Lemma apply_all_lww ml us :
  wf ml →
  apply_all ml us =
    set_members ml (lww_merges entry_key me_node_id (members ml)
      (entry_of <$> filter (λ u, mu_node_id u ≠ self_id ml) us)).
Proof.
  revert ml; induction us as [|u us IH]; intros ml Hwf; simpl.
  { by rw set_members_id. }
  rw filter_cons. unfold apply_update.
  destruct (decide (mu_node_id u = self_id ml)) as [E|Hne].
  - rw decide_False; [by intros []|]. rw E apply_on_self /=. by apply IH.
  - rw decide_True //. rw IH /=; [by apply apply_wf|].
    rw apply_self_id. rw apply_lww //.
Qed.

Lemma move_state_wf from to ml id : wf ml → wf (move_state from to ml id).1.
Proof.
  intros Hwf. unfold move_state. destruct (members ml !! id) eqn:E; [|done].
  case_decide; [|done]. split; simpl.
  - intros k x. rw lookup_insert. case_decide; [|eauto with swactor].
    intros [= <-]; simpl. subst. eauto with swactor.
  - rw lookup_insert_ne; [intros ->; by rw wf_self in E|eauto with swactor].
Qed.

Lemma remove_wf ml id : wf ml → wf (remove ml id).1.
Proof.
  intros Hwf. split; simpl.
  - intros k x. rw lookup_delete. case_decide; [done|eauto with swactor].
  - rw lookup_delete. case_decide; [done|eauto with swactor].
Qed.

Lemma refute_wf ml : wf ml → wf (refute ml).1.
Proof. intros [??]; split; eauto. Qed.
#[export] Hint Resolve move_state_wf remove_wf refute_wf : swactor.

Lemma move_state_get from to ml id i :
  get (move_state from to ml id).1 i =
    (λ e, if decide (i = id ∧ me_state e = from)
          then mkMemberEntry (me_node_id e) to (me_incarnation e) else e) <$> get ml i.
Proof.
  unfold move_state, get.
  destruct (members ml !! id) as [e|] eqn:E; [case_decide as Hs|]; simpl.
  - rw lookup_insert. case_decide as Hi.
    + subst i. rw E /=. by case_decide; [|naive_solver].
    + destruct (members ml !! i); simpl; [|done]. by case_decide; [naive_solver|].
  - destruct (members ml !! i) eqn:Ei; simpl; [|done]. case_decide; [|done]. naive_solver.
  - destruct (members ml !! i) eqn:Ei; simpl; [|done]. case_decide; [|done]. naive_solver.
Qed.

Lemma move_state_changed from to ml id :
  (move_state from to ml id).2 = true ↔ ∃ e, get ml id = Some e ∧ me_state e = from.
Proof.
  unfold move_state, get. case_match; [case_decide|]; naive_solver.
Qed.

Lemma move_state_ids from to ml id :
  self_id (move_state from to ml id).1 = self_id ml ∧
  self_incarnation (move_state from to ml id).1 = self_incarnation ml.
Proof. unfold move_state. by repeat case_match. Qed.

Lemma MemberList_ext ml ml' :
  self_id ml = self_id ml' → self_incarnation ml = self_incarnation ml' →
  (∀ i, get ml i = get ml' i) → ml = ml'.
Proof.
  destruct ml, ml'. unfold get; simpl. intros -> -> H. f_equal. by apply map_eq.
Qed.

(** ** Queries *)

Lemma elem_of_all_members ml e :
  e ∈ all_members ml ↔ ∃ i, members ml !! i = Some e.
Proof. apply elem_of_btree_values. Qed.

Lemma elem_of_alive_members ml e :
  wf ml → e ∈ alive_members ml ↔
    members ml !! me_node_id e = Some e ∧ me_state e ≠ Dead.
Proof.
  intros Hwf. unfold alive_members.
  rw list_elem_of_filter elem_of_btree_values. split.
  - intros [? [i Hi]]. by rw (wf_key _ Hwf _ _ Hi).
  - intros [? ?]. split; [done|by eexists].
Qed.

Lemma elem_of_dead_members ml e :
  wf ml → e ∈ dead_members ml ↔
    members ml !! me_node_id e = Some e ∧ me_state e = Dead.
Proof.
  intros Hwf. unfold dead_members.
  rw list_elem_of_filter elem_of_btree_values. split.
  - intros [? [i Hi]]. by rw (wf_key _ Hwf _ _ Hi).
  - intros [? ?]. split; [done|by eexists].
Qed.

Lemma all_members_ids ml :
  wf ml → me_node_id <$> all_members ml = (btree_entries (members ml)).*1.
Proof.
  intros Hwf. unfold all_members, btree_values. rw -list_fmap_compose.
  apply list_fmap_ext. intros j [i e] Hj%list_elem_of_lookup_2. simpl.
  apply elem_of_btree_entries in Hj. eauto with swactor.
Qed.

Lemma all_members_nodup ml : wf ml → NoDup (me_node_id <$> all_members ml).
Proof. intros. rw all_members_ids //. apply btree_entries_nodup. Qed.

Lemma alive_members_nodup ml : wf ml → NoDup (me_node_id <$> alive_members ml).
Proof. intros. by apply filter_fmap_nodup, all_members_nodup. Qed.

Lemma all_members_inj ml a b :
  wf ml → a ∈ all_members ml → b ∈ all_members ml →
  me_node_id a = me_node_id b → a = b.
Proof.
  rw !elem_of_all_members. intros Hwf [i Hi] [j Hj].
  rw (wf_key _ Hwf _ _ Hi) (wf_key _ Hwf _ _ Hj). intros ->. congruence.
Qed.

Definition update_of (e : MemberEntry) : MembershipUpdate :=
  mkMembershipUpdate (me_node_id e) (me_state e) (me_incarnation e).

(** The shallow copy holds the same members (its incarnation is reset, which no
    reader of the copy uses). *)
Lemma clone_shallow_members ml :
  wf ml → members (clone_shallow ml) = members ml.
Proof.
  intros Hwf.
  assert (clone_shallow ml =
    apply_all (new (self_id ml)) (update_of <$> all_members ml)) as ->.
  { unfold clone_shallow, apply_all. by rw foldl_fmap. }
  rw apply_all_lww /=; [by apply list_new_wf|].
  assert (entry_of <$> filter (λ u, mu_node_id u ≠ self_id ml)
            (update_of <$> all_members ml) = all_members ml) as ->.
  { rw filter_all.
    - rw Forall_fmap Forall_forall. intros e [i He]%elem_of_all_members; simpl.
      rw (wf_key _ Hwf _ _ He). intros ->. by rw wf_self in He.
    - rw -list_fmap_compose. apply list_fmap_id_ext. by intros []. }
  apply map_eq; intros k. apply option_eq; intros e.
  rw lww_merges_from_empty; [intros; by apply (all_members_inj ml)|].
  unfold competitors. rw elem_of_all_members. split.
  - intros [[i Hi] <-]. by rw (wf_key _ Hwf _ _ Hi).
  - intros He. split; [by eexists|eauto with swactor].
Qed.

Lemma clone_shallow_alive ml :
  wf ml → alive_members (clone_shallow ml) = alive_members ml.
Proof. intros. unfold alive_members. by rw clone_shallow_members. Qed.

(** ** Properties *)

(** C3. The membership list is a state-based CRDT: two replicas that start from the same
    list and receive the same set of updates, in any order and with any repetitions, end
    with the same list. *)
Theorem apply_all_converges ml us vs :
  wf ml → (∀ u, u ∈ us ↔ u ∈ vs) → apply_all ml us = apply_all ml vs.
Proof.
  intros Hwf Huv. rw !apply_all_lww //. f_equal.
  apply lww_merges_set.
  - intros e. rw !list_elem_of_fmap. setoid_rewrite list_elem_of_filter.
    by setoid_rewrite Huv.
  - intros a b _ _ Hs [? ?]%member_key_inj. destruct a, b; simpl in *. congruence.
Qed.

Definition example_list : MemberList :=
  apply_all (new 1) [mkMembershipUpdate 2 Alive 0; mkMembershipUpdate 3 Suspect 4].

Lemma example_list_wf : wf example_list.
Proof. unfold example_list, apply_all; simpl. eauto 6 using apply_wf, list_new_wf. Qed.

Lemma apply_all_converges_witness :
  apply_all example_list [mkMembershipUpdate 2 Dead 0; mkMembershipUpdate 2 Alive 1] =
  apply_all example_list [mkMembershipUpdate 2 Alive 1; mkMembershipUpdate 2 Dead 0;
                          mkMembershipUpdate 2 Alive 1].
Proof.
  apply apply_all_converges; [exact example_list_wf|].
  intros u. rw !elem_of_cons. intuition auto.
Defined.

(** [apply] reports a change exactly when the list is different: nothing is announced
    twice and no change goes unannounced. *)
Theorem apply_changed_iff ml id s i :
  wf ml → (apply ml id s i).2 = true ↔ (apply ml id s i).1 ≠ ml.
Proof.
  intros Hwf. destruct (decide (id = self_id ml)) as [->|Hne].
  { by rw apply_on_self. }
  rw apply_lww //=. set (v := mkMemberEntry id s i).
  assert (set_members ml (lww_merge entry_key me_node_id (members ml) v) ≠ ml ↔
    members ml !! id ≠ Some (lww_pick entry_key (members ml !! id) v)) as ->.
  { split; intros H E; apply H.
    - unfold lww_merge. by rw insert_id // set_members_id.
    - rw -{1}E /= lww_merge_lookup decide_True //. }
  unfold lww_pick. destruct (members ml !! id) as [e|] eqn:E; [|done].
  destruct (better entry_key v e) eqn:Hb; [|by split].
  split; [|done]. intros _ [= ->]. by rw better_irrefl in Hb.
Qed.

Lemma apply_changed_iff_witness :
  (apply example_list 2 Suspect 0).2 = true ↔
  (apply example_list 2 Suspect 0).1 ≠ example_list.
Proof. apply apply_changed_iff. exact example_list_wf. Defined.
