(* ===== verification/Dissemination.v ===== *)
(** * The SWIM dissemination queue

    [crates/distribution/src/swim/dissemination.rs]: membership updates waiting
    to be piggybacked on protocol messages, each with its transmit budget. *)

From S2P Require Import Prelude Lww BudgetQueue Types.

(** ** The JSON codec

    Piggybacks cross the wire through [serde_json], a third-party crate: the
    codec is a parameter, and its documented behaviour (serialising the updates
    succeeds, with a nonempty document that parses back) is [UpdateCodecLaws]. *)

Class UpdateCodec := {
  to_vec : list MembershipUpdate → option (list Byte.byte);
  from_slice : list Byte.byte → option (list MembershipUpdate);
}.

Class UpdateCodecLaws (C : UpdateCodec) : Prop := {
  to_vec_total us : is_Some (to_vec us);
  to_vec_nonempty us bytes : to_vec us = Some bytes → bytes ≠ [];
  from_slice_to_vec us bytes : to_vec us = Some bytes → from_slice bytes = Some us;
}.

(** A codec that has these laws: the bits of a numbering of the updates, one per
    byte. *)
#[export] Instance MemberState_countable : Countable MemberState.
Proof.
  apply (inj_countable' priority
    (λ n, match n with 0%N => Alive | 1%N => Suspect | _ => Dead end)).
  by intros [].
Defined.

#[export] Instance MembershipUpdate_countable : Countable MembershipUpdate.
Proof.
  apply (inj_countable' (λ u, (mu_node_id u, mu_state u, mu_incarnation u))
    (λ t, mkMembershipUpdate t.1.1 t.1.2 t.2)).
  by intros [].
Defined.

Fixpoint bits_of (p : positive) : list Byte.byte :=
  match p with
  | xH => [Byte.x01]
  | xO p' => Byte.x00 :: bits_of p'
  | xI p' => Byte.x01 :: bits_of p'
  end.

Fixpoint of_bits (l : list Byte.byte) : option positive :=
  match l with
  | [] => None
  | [Byte.x01] => Some xH
  | Byte.x00 :: l' => xO <$> of_bits l'
  | Byte.x01 :: l' => xI <$> of_bits l'
  | _ :: _ => None
  end.

Definition bit_codec : UpdateCodec := {|
  to_vec us := Some (bits_of (encode us));
  from_slice bytes := of_bits bytes ≫= decode;
|}.

Lemma of_bits_of p : of_bits (bits_of p) = Some p.
Proof.
  induction p as [p IH|p IH|]; simpl; [|by rw IH|done].
  destruct (bits_of p) eqn:E; [by destruct p|]. by rw IH.
Qed.

Lemma bit_codec_laws : UpdateCodecLaws bit_codec.
Proof.
  split; simpl.
  - intros us. by eexists.
  - intros us bytes [= <-]. by destruct (encode us).
  - intros us bytes [= <-]. rw of_bits_of /=. apply decode_encode.
Qed.

Abbreviation DisseminationEntry := (pending MembershipUpdate).

Record DisseminationQueue := mkDisseminationQueue {
  entries : list DisseminationEntry;
  lambda : nat;
}.

Definition set_entries (q : DisseminationQueue) (es : list DisseminationEntry)
    : DisseminationQueue := mkDisseminationQueue es (lambda q).

Definition new (lambda : nat) : DisseminationQueue := mkDisseminationQueue [] lambda.

(** [Λ * ceil(log2(max(n, 2)))]. *)
Definition transmit_budget (q : DisseminationQueue) (cluster_size : nat) : nat :=
  gossip_budget (lambda q) cluster_size.

(** [u] carries news over [e]: a higher incarnation, or the same with a
    higher-priority state. *)
Definition supersedes (u e : MembershipUpdate) : bool :=
  (mu_incarnation e <? mu_incarnation u)%N
  || ((mu_incarnation u =? mu_incarnation e)%N && state_gt (mu_state u) (mu_state e)).

Definition enqueue (q : DisseminationQueue) (update : MembershipUpdate)
    (cluster_size : nat) : DisseminationQueue :=
  set_entries q
    (put mu_node_id supersedes update (transmit_budget q cluster_size) (entries q)).

(** [sort_by_key(Reverse(priority))]: a stable sort, most urgent first. *)
Definition more_urgent (a b : DisseminationEntry) : bool :=
  (priority (mu_state (pd_item b)) <=? priority (mu_state (pd_item a)))%N.

Definition take (q : DisseminationQueue) (max_count : nat)
    : DisseminationQueue * list MembershipUpdate :=
  let r := take_batch max_count (sort_by more_urgent (entries q)) in
  (set_entries q r.1, r.2).

Definition pack_piggyback `{UpdateCodec} (q : DisseminationQueue) (max_updates : nat)
    : DisseminationQueue * list Byte.byte :=
  let r := take q max_updates in
  (r.1, match r.2 with [] => [] | us => default [] (to_vec us) end).

Definition unpack_piggyback `{UpdateCodec} (bytes : list Byte.byte)
    : list MembershipUpdate :=
  match bytes with [] => [] | _ => default [] (from_slice bytes) end.

Definition len (q : DisseminationQueue) : nat := length (entries q).

Definition is_empty (q : DisseminationQueue) : bool :=
  match entries q with [] => true | _ => false end.

Definition purge_node (q : DisseminationQueue) (node_id : NodeId) : DisseminationQueue :=
  set_entries q (filter (λ e, mu_node_id (pd_item e) ≠ node_id) (entries q)).

Definition membership_update (node_id : NodeId) (state : MemberState)
    (incarnation : N) : MembershipUpdate :=
  mkMembershipUpdate node_id state incarnation.

(** The queue invariant: one update per node, each with budget left. *)
Record wf (q : DisseminationQueue) : Prop := {
  wf_lambda : 0 < lambda q;
  wf_entries : queue_wf mu_node_id (entries q);
}.

Definition update_key (u : MembershipUpdate) : list N :=
  member_key (mu_state u) (mu_incarnation u).

Lemma supersedes_better u e : supersedes u e = better update_key u e.
Proof.
  unfold supersedes, better, update_key. rw member_key_lt.
  by rw (N.eqb_sym (mu_incarnation u)).
Qed.

Lemma transmit_budget_pos q n : wf q → 0 < transmit_budget q n.
Proof. intros [? _]. by apply gossip_budget_pos. Qed.

Lemma queue_new_wf l : 0 < l → wf (new l).
Proof. split; [done|]. apply queue_wf_nil. Qed.

Lemma enqueue_wf q u n : wf q → wf (enqueue q u n).
Proof.
  intros Hq. pose proof (transmit_budget_pos q n Hq). destruct Hq.
  split; [done|]. by apply put_wf.
Qed.

Lemma sort_wf es : queue_wf mu_node_id es → queue_wf mu_node_id (sort_by more_urgent es).
Proof. apply queue_wf_perm. by rw sort_by_perm. Qed.

Lemma take_wf q n : wf q → wf (take q n).1.
Proof. intros [??]. split; [done|]. by apply take_batch_wf, sort_wf. Qed.

Lemma pack_piggyback_wf `{UpdateCodec} q n : wf q → wf (pack_piggyback q n).1.
Proof. apply take_wf. Qed.

Lemma purge_node_wf q id : wf q → wf (purge_node q id).
Proof. intros [??]. split; [done|]. by apply queue_wf_filter. Qed.
#[export] Hint Resolve queue_new_wf enqueue_wf take_wf pack_piggyback_wf purge_node_wf
  : swactor.

(** The update queued for a node, if any. *)
Definition queued (q : DisseminationQueue) (id : NodeId) : option MembershipUpdate :=
  queued_item mu_node_id (entries q) id.

Lemma take_sorted q n :
  (take q n).2 = pd_item <$> list.take n (sort_by more_urgent (entries q)).
Proof.
  unfold take, take_batch; simpl. rw length_sort_by.
  destruct (Nat.le_ge_cases n (length (entries q))).
  - by rw Nat.min_l.
  - rw Nat.min_r // !take_ge //; rw length_sort_by //.
Qed.

(** [take] repeated, collecting what was sent. *)
Fixpoint take_rounds (q : DisseminationQueue) (max_count rounds : nat)
    : DisseminationQueue * list MembershipUpdate :=
  match rounds with
  | 0 => (q, [])
  | S rounds' =>
      let r := take q max_count in
      let r' := take_rounds r.1 max_count rounds' in
      (r'.1, r.2 ++ r'.2)
  end.

Lemma take_rounds_drain q n rounds :
  take_rounds q n rounds =
    (set_entries q (drain (sort_by more_urgent) n rounds (entries q)).1,
     (drain (sort_by more_urgent) n rounds (entries q)).2).
Proof.
  revert q; induction rounds as [|k IH]; intros q; simpl; [by destruct q|].
  by rw IH.
Qed.

Lemma queued_enqueue q u cluster_size id :
  queued (enqueue q u cluster_size) id =
    if decide (mu_node_id u = id) then Some (lww_pick update_key (queued q id) u)
    else queued q id.
Proof.
  unfold queued, enqueue; simpl. rw queued_item_put. repeat case_decide; try done.
  f_equal. unfold lww_pick. case_match; [|done]. by rw supersedes_better.
Qed.

Lemma len_enqueue q u cluster_size : len (enqueue q u cluster_size) ≤ S (len q).
Proof.
  unfold len, enqueue; simpl.
  assert (∀ es, length es = length (queue_slots mu_node_id es)) as E
    by (intros; by rw length_fmap).
  rw (E (put _ _ _ _ _)) put_slots (E (entries q)). case_decide; rw ?length_app /=; lia.
Qed.

Lemma unpack_pack `{C : UpdateCodec} `{!UpdateCodecLaws C} q n :
  unpack_piggyback (pack_piggyback q n).2 = (take q n).2.
Proof.
  unfold pack_piggyback; cbn [snd]. destruct (take q n).2 as [|u us]; [done|].
  destruct (to_vec_total (u :: us)) as [bytes E]. rw E /=.
  destruct bytes as [|b bytes].
  - by destruct (to_vec_nonempty _ _ E).
  - unfold unpack_piggyback. by rw (from_slice_to_vec _ _ E).
Qed.

(** A batch large enough carries everything queued. *)
Lemma take_everything q n :
  len q ≤ n → (take q n).2 ≡ₚ pd_item <$> entries q.
Proof.
  intros Hn. rw take_sorted take_ge; [by rw length_sort_by|]. by rw sort_by_perm.
Qed.

(** ** Properties *)

(** A piggyback carries the most urgent updates: [take] returns [min max_count len]
    queued updates in descending priority, and every update it leaves for later is at
    most as urgent as every one it returns. *)
Theorem take_most_urgent q n :
  let us := (take q n).2 in
  length us = Nat.min n (len q) ∧
  StronglySorted (λ u v, (priority (mu_state v) <= priority (mu_state u))%N) us ∧
  ∃ rest, us ++ rest ≡ₚ (pd_item <$> entries q) ∧
    ∀ u v, u ∈ us → v ∈ rest → (priority (mu_state v) <= priority (mu_state u))%N.
Proof.
  cbn zeta. rw take_sorted. set (l := sort_by more_urgent (entries q)).
  assert (StronglySorted more_urgent l) as Hs.
  { apply sort_by_sorted; unfold more_urgent; intros *; rw ?N.leb_gt ?N.leb_le; lia. }
  rw -(take_drop n l) in Hs. apply StronglySorted_app in Hs as (Hcross & Hs & _).
  split; [|split].
  - rw length_fmap length_take length_sort_by //.
  - clear Hcross. induction Hs as [|e es _ IH He]; simpl; constructor; [done|].
    rw Forall_fmap. eapply Forall_impl; [exact He|].
    intros x Hx%Is_true_true. by apply N.leb_le.
  - exists (pd_item <$> drop n l). split.
    + by rw -fmap_app take_drop /l sort_by_perm.
    + intros u v (e & -> & He)%list_elem_of_fmap (e' & -> & He')%list_elem_of_fmap.
      specialize (Hcross e e' He He'). by apply Is_true_true, N.leb_le in Hcross.
Qed.

(** An update is transmitted exactly its budget: once an update about a node with no
    queued news is enqueued, taking batches until the queue is quiet sends it exactly [Λ
    * ceil(log2 n)] times, and the queue does become quiet after as many batches as
    transmissions are owed. *)
Theorem enqueue_transmitted_exactly q u n cluster_size rounds :
  wf q → queued q (mu_node_id u) = None → 0 < n →
  total (entries (enqueue q u cluster_size)) ≤ rounds →
  let r := take_rounds (enqueue q u cluster_size) n rounds in
  is_empty r.1 = true ∧ sent (λ v, v = u) r.2 = transmit_budget q cluster_size.
Proof.
  intros Hq Hnone Hn Hrounds. cbn zeta.
  pose proof (wf_entries _ (enqueue_wf q u cluster_size Hq)) as Hq'.
  assert (∀ es, sort_by more_urgent es ≡ₚ es) as Hsort by apply sort_by_perm.
  rw take_rounds_drain /is_empty /=. split.
  { by rw (drain_empties mu_node_id _ Hsort). }
  rw (drain_exact mu_node_id _ Hsort) //.
  by apply owed_put_fresh.
Qed.

Definition example_queue : DisseminationQueue :=
  enqueue (new 3) (mkMembershipUpdate 7 Dead 2) 5.

Lemma enqueue_transmitted_exactly_witness :
  let r := take_rounds (enqueue example_queue (mkMembershipUpdate 9 Alive 0) 5) 6 18 in
  is_empty r.1 = true ∧ sent (λ v, v = mkMembershipUpdate 9 Alive 0) r.2 = 9.
Proof.
  apply (enqueue_transmitted_exactly example_queue (mkMembershipUpdate 9 Alive 0) 6 5 18).
  - apply enqueue_wf, queue_new_wf. lia.
  - reflexivity.
  - lia.
  - vm_compute. lia.
Defined.

(** The queue keeps one update per node, the newest: enqueueing changes what is queued
    for the update's node only, to the greater of the old and the new update in the
    order (incarnation, state). *)
Theorem enqueue_keeps_newest q u cluster_size id :
  queued (enqueue q u cluster_size) id =
    if decide (mu_node_id u = id) then Some (lww_pick update_key (queued q id) u)
    else queued q id.
Proof. apply queued_enqueue. Qed.

(** What is packed is what the receiver unpacks: with a codec that parses what it
    prints, the receiver of a piggyback sees exactly the updates taken from the queue. *)
Theorem piggyback_roundtrip `{C : UpdateCodec} `{!UpdateCodecLaws C} q n :
  unpack_piggyback (pack_piggyback q n).2 = (take q n).2.
Proof. apply unpack_pack. Qed.

Lemma piggyback_roundtrip_witness :
  @unpack_piggyback bit_codec (@pack_piggyback bit_codec example_queue 6).2 =
    [mkMembershipUpdate 7 Dead 2].
Proof. exact (@piggyback_roundtrip bit_codec bit_codec_laws example_queue 6). Defined.
