(* ===== verification/Lifeguard.v ===== *)
(** * Lifeguard adaptive timeouts

    [crates/distribution/src/swim/lifeguard.rs]: the local health score and the
    suspicion timeout it stretches.  Durations are nanoseconds in [N];
    [Duration * u32] aborts above [u64::MAX] seconds, which
    [dynamic_timeout_no_overflow] excludes for every configuration whose base
    fits. *)

From S2P Require Import Prelude.
#[local] Open Scope N_scope.

Definition millis (n : N) : N := n * 1000000.

Record LifeguardConfig := mkLifeguardConfig {
  max_health_score : N;
  nack_penalty : N;
  ack_reward : N;
  base_suspicion_timeout : N;
  min_suspicion_timeout : N;
  max_suspicion_timeout : N;
}.

Definition default_config : LifeguardConfig := {|
  max_health_score := 8;
  nack_penalty := 1;
  ack_reward := 1;
  base_suspicion_timeout := millis 600;
  min_suspicion_timeout := millis 300;
  max_suspicion_timeout := millis 2400;
|}.

Record HealthMultiplier := mkHealthMultiplier {
  config : LifeguardConfig;
  score : N;
}.

Definition new (config : LifeguardConfig) : HealthMultiplier :=
  mkHealthMultiplier config 0.

(** [saturating_sub]. *)
Definition record_ack (h : HealthMultiplier) : HealthMultiplier :=
  mkHealthMultiplier (config h) (score h - ack_reward (config h)).

Definition record_nack (h : HealthMultiplier) : HealthMultiplier :=
  mkHealthMultiplier (config h)
    (N.min (score h +32 nack_penalty (config h)) (max_health_score (config h))).

Definition multiplier (h : HealthMultiplier) : N := 1 + score h.

Definition scaled_probe_interval (h : HealthMultiplier) (base : N) : N :=
  u64_mul base (multiplier h).

Definition scaled_probe_timeout (h : HealthMultiplier) (base : N) : N :=
  u64_mul base (multiplier h).

(** [u64::leading_zeros]. *)
Definition leading_zeros (n : N) : N := 64 - N.size n.

Definition log2_ceil (n : N) : N :=
  if n <=? 1 then 0 else 64 - leading_zeros (n - 1).

(** [Ord::clamp], which asserts [lo <= hi]. *)
Definition clamp (t lo hi : N) : N :=
  if t <? lo then lo else if hi <? t then hi else t.

Definition timeout_scale (h : HealthMultiplier) (cluster_size : nat) : N :=
  let log_n := N.max (log2_ceil (u64_saturating_add (N.of_nat cluster_size) 1)) 1 in
  N.min (u64_mul log_n (multiplier h)) u32_max.

Definition dynamic_suspicion_timeout (h : HealthMultiplier) (cluster_size : nat) : N :=
  clamp (base_suspicion_timeout (config h) * timeout_scale h cluster_size)
    (min_suspicion_timeout (config h)) (max_suspicion_timeout (config h)).

(** The score as the acks ([true]) and nacks ([false]) of a run leave it. *)
Definition record (h : HealthMultiplier) (ack : bool) : HealthMultiplier :=
  if ack then record_ack h else record_nack h.

Definition config_ok (c : LifeguardConfig) : Prop :=
  min_suspicion_timeout c <= max_suspicion_timeout c ∧
  max_health_score c + nack_penalty c < u32_modulus.

Lemma record_config h b : config (record h b) = config h.
Proof. by destruct b. Qed.

Lemma record_bounded h b :
  score h <= max_health_score (config h) →
  score (record h b) <= max_health_score (config h).
Proof. destruct b; simpl; lia. Qed.

Lemma run_bounded c (run : list bool) :
  config (foldl record (new c) run) = c ∧
  score (foldl record (new c) run) <= max_health_score c.
Proof.
  induction run as [|b run [IHc IH]] using rev_ind; [split; simpl; [done|lia]|].
  rw foldl_snoc record_config. split; [done|].
  rw -{2}IHc. apply record_bounded. by rw IHc.
Qed.

Lemma clamp_spec t lo hi :
  lo <= hi → lo <= clamp t lo hi <= hi ∧ (lo <= t <= hi → clamp t lo hi = t).
Proof. unfold clamp. intros. repeat case_match; bool_to_prop; lia. Qed.

Lemma clamp_mono t t' lo hi : lo <= hi → t <= t' → clamp t lo hi <= clamp t' lo hi.
Proof. unfold clamp. intros. repeat case_match; bool_to_prop; lia. Qed.

Lemma log2_ceil_log2_up n : n <= u64_max → log2_ceil n = N.log2_up n.
Proof.
  intros Hn. unfold log2_ceil. destruct (n <=? 1) eqn:E; bool_to_prop.
  { rw N.log2_up_eqn0 //. }
  unfold leading_zeros. rw N.log2_up_eqn // N.size_log2 -?N.pred_sub; [lia|].
  assert (N.log2 (N.pred n) < 64); [|lia].
  apply N.log2_lt_pow2; [lia|]. change (2 ^ 64) with u64_modulus.
  unfold u64_modulus, u64_max in *. lia.
Qed.

Lemma log2_ceil_bound n : n <= u64_max → log2_ceil n <= 64.
Proof.
  intros Hn. rw log2_ceil_log2_up //. destruct (decide (n = 0)) as [->|]; [done|].
  apply N.log2_up_le_pow2; [lia|]. change (2 ^ 64) with u64_modulus.
  unfold u64_modulus, u64_max in *. lia.
Qed.

Lemma log2_ceil_mono n n' : n <= n' → n' <= u64_max → log2_ceil n <= log2_ceil n'.
Proof. intros. rw !log2_ceil_log2_up; [lia..|]. by apply N.log2_up_le_mono. Qed.

(** The product of the logarithm and the multiplier does not wrap. *)
Lemma timeout_scale_exact h n :
  score h < u32_modulus →
  timeout_scale h n =
    N.min (N.max (log2_ceil (u64_saturating_add (N.of_nat n) 1)) 1 * (1 + score h))
      u32_max.
Proof.
  intros Hs. unfold timeout_scale, multiplier, u64_mul. f_equal. apply N.mod_small.
  pose proof (log2_ceil_bound (u64_saturating_add (N.of_nat n) 1)
    ltac:(unfold u64_saturating_add; lia)).
  unfold u32_modulus, u64_modulus in *. nia.
Qed.

Lemma timeout_scale_mono h h' n n' :
  score h <= score h' → score h' < u32_modulus → (n ≤ n')%nat →
  timeout_scale h n <= timeout_scale h' n'.
Proof.
  intros Hs Hs' Hn. rw !timeout_scale_exact; [lia..|].
  pose proof (log2_ceil_mono (u64_saturating_add (N.of_nat n) 1)
    (u64_saturating_add (N.of_nat n') 1)
    ltac:(unfold u64_saturating_add; lia) ltac:(unfold u64_saturating_add; lia)).
  nia.
Qed.

(** [Duration::MAX] is [u64::MAX] seconds and 999999999 nanoseconds: a base of
    up to [u32::MAX] seconds never overflows. *)
Lemma dynamic_timeout_no_overflow h n :
  base_suspicion_timeout (config h) <= u32_max * 1000000000 →
  base_suspicion_timeout (config h) * timeout_scale h n
    <= u64_max * 1000000000 + 999999999.
Proof.
  intros. assert (timeout_scale h n <= u32_max).
  { unfold timeout_scale. lia. }
  unfold u32_max, u64_max in *. nia.
Qed.

(** ** Properties *)

(** [log2_ceil n] is the ceiling of the binary logarithm: the least [k] with [n <= 2^k],
    for every nonzero 64-bit [n]. *)
Theorem log2_ceil_least n k :
  0 < n <= u64_max → n <= 2 ^ k ↔ log2_ceil n <= k.
Proof.
  intros [??]. rw log2_ceil_log2_up //. by apply N.log2_up_le_pow2.
Qed.

Lemma log2_ceil_least_witness : 1000 <= 2 ^ 10 ↔ log2_ceil 1000 <= 10.
Proof. apply (log2_ceil_least 1000 10). unfold u64_max. lia. Defined.

(** The suspicion timeout adapts within its band: whatever acks and nacks a node has
    seen, its timeout lies between the configured minimum and maximum, and it is not
    shorter for a node in worse health or in a larger cluster. *)
Theorem suspicion_timeout_adapts c run run' n n' :
  config_ok c →
  let h := foldl record (new c) run in
  let h' := foldl record (new c) run' in
  score h <= score h' → (n ≤ n')%nat →
  min_suspicion_timeout c <= dynamic_suspicion_timeout h n ∧
  dynamic_suspicion_timeout h n <= dynamic_suspicion_timeout h' n' ∧
  dynamic_suspicion_timeout h' n' <= max_suspicion_timeout c.
Proof.
  intros [Hband Hmax] h h' Hs Hn.
  destruct (run_bounded c run) as [Hc Hb], (run_bounded c run') as [Hc' Hb'].
  fold h in Hc, Hb. fold h' in Hc', Hb'.
  unfold dynamic_suspicion_timeout. rw Hc Hc'.
  split; [by apply clamp_spec|]. split; [|by apply clamp_spec].
  apply clamp_mono; [done|]. apply N.mul_le_mono_l, timeout_scale_mono; [done| |done].
  lia.
Qed.

Lemma suspicion_timeout_adapts_witness :
  millis 300 <= dynamic_suspicion_timeout (new default_config) 3 ∧
  dynamic_suspicion_timeout (new default_config) 3 <=
    dynamic_suspicion_timeout
      (foldl record (new default_config) [false; false; true; false]) 9 ∧
  dynamic_suspicion_timeout
    (foldl record (new default_config) [false; false; true; false]) 9 <= millis 2400.
Proof.
  apply (suspicion_timeout_adapts default_config [] [false; false; true; false] 3 9).
  - split; vm_compute; [intros [=]|reflexivity].
  - vm_compute. intros [=].
  - lia.
Defined.
