(* ===== verification/Probe.v ===== *)
(** * The SWIM probe cycle

    [crates/distribution/src/swim/probe.rs]: the state machine that pings one
    member at a time, falls back on indirect probes, suspects and declares dead.
    The caller drives the clock: instants and durations are nanoseconds in [N],
    [saturating_duration_since] is truncated subtraction.  The [&mut Vec] of
    actions of the code is the list each function returns, appended by the
    caller. *)

From S2P Require Import Prelude Types MemberList Lifeguard.
#[local] Open Scope N_scope.

Definition PROBE_HISTORY_SIZE : nat := 16.
Definition MAX_DEMAND_QUEUE : nat := 32.

Inductive ProbeMode :=
  | Periodic
  | Reactive (safety_sweep_interval : N).

Record SwimConfig := mkSwimConfig {
  probe_interval : N;
  probe_timeout : N;
  indirect_probes : nat;
  suspicion_timeout : N;
  dead_reprobe_interval : N;
  probe_mode : ProbeMode;
  lifeguard : option LifeguardConfig;
}.

Definition default_swim_config : SwimConfig := {|
  probe_interval := millis 200;
  probe_timeout := millis 15000;
  indirect_probes := 2;
  suspicion_timeout := millis 45000;
  dead_reprobe_interval := millis 1000;
  probe_mode := Periodic;
  lifeguard := None;
|}.

Inductive SwimEvent :=
  | Tick
  | AckReceived (from : NodeId) (sequence : N)
  | IndirectAckReceived (target : NodeId) (sequence : N)
  | SendFailed (to : NodeId).

#[export] Instance SwimEvent_eq_dec : EqDecision SwimEvent.
Proof. solve_decision. Defined.

Inductive SwimDiagEvent :=
  | ProbeAcked (target : NodeId) (sequence : N) (kind : string)
  | ProbeTimedOut (target : NodeId) (sequence : N) (kind : string) (budget_ticks : N).

Inductive SwimAction :=
  | ActSendPing (to : NodeId) (sequence : N)
  | ActSendPingReq (relay target : NodeId) (sequence : N)
  | ActSuspect (node_id : NodeId)
  | ActDeclareDead (node_id : NodeId)
  | ActDiag (diag : SwimDiagEvent).

#[export] Instance SwimDiagEvent_eq_dec : EqDecision SwimDiagEvent.
Proof. solve_decision. Defined.
#[export] Instance SwimAction_eq_dec : EqDecision SwimAction.
Proof. solve_decision. Defined.

Inductive ProbePhase :=
  | Idle
  | WaitingDirectAck (target : NodeId) (sequence sent_at : N)
  | WaitingIndirectAck (target : NodeId) (sequence sent_at : N).

Record SuspicionTimer := mkSuspicionTimer {
  st_node_id : NodeId;
  st_started_at : N;
}.

Record SwimProbe := mkSwimProbe {
  config : SwimConfig;
  now : N;
  step_counter : N;
  next_probe_at : option N;
  sequence : N;
  phase : ProbePhase;
  probe_index : nat;
  probe_order : list NodeId;
  suspicion_timers : list SuspicionTimer;
  recent_targets : list NodeId;
  next_reprobe_at : option N;
  reprobe_index : N;
  demand_queue : list NodeId;
  next_sweep_at : option N;
  health : option HealthMultiplier;
}.

Definition probe_eta (p : SwimProbe) : SwimProbe :=
  mkSwimProbe (config p) (now p) (step_counter p) (next_probe_at p) (sequence p)
    (phase p) (probe_index p) (probe_order p) (suspicion_timers p)
    (recent_targets p) (next_reprobe_at p) (reprobe_index p) (demand_queue p)
    (next_sweep_at p) (health p).

Definition set_now (p : SwimProbe) (v : N) : SwimProbe :=
  ltac:(update_field probe_eta p now v).
Definition set_step_counter (p : SwimProbe) (v : N) : SwimProbe :=
  ltac:(update_field probe_eta p step_counter v).
Definition set_next_probe_at (p : SwimProbe) (v : option N) : SwimProbe :=
  ltac:(update_field probe_eta p next_probe_at v).
Definition set_sequence (p : SwimProbe) (v : N) : SwimProbe :=
  ltac:(update_field probe_eta p sequence v).
Definition set_phase (p : SwimProbe) (v : ProbePhase) : SwimProbe :=
  ltac:(update_field probe_eta p phase v).
Definition set_probe_index (p : SwimProbe) (v : nat) : SwimProbe :=
  ltac:(update_field probe_eta p probe_index v).
Definition set_probe_order (p : SwimProbe) (v : list NodeId) : SwimProbe :=
  ltac:(update_field probe_eta p probe_order v).
Definition set_suspicion_timers (p : SwimProbe) (v : list SuspicionTimer) : SwimProbe :=
  ltac:(update_field probe_eta p suspicion_timers v).
Definition set_recent_targets (p : SwimProbe) (v : list NodeId) : SwimProbe :=
  ltac:(update_field probe_eta p recent_targets v).
Definition set_next_reprobe_at (p : SwimProbe) (v : option N) : SwimProbe :=
  ltac:(update_field probe_eta p next_reprobe_at v).
Definition set_reprobe_index (p : SwimProbe) (v : N) : SwimProbe :=
  ltac:(update_field probe_eta p reprobe_index v).
Definition set_demand_queue (p : SwimProbe) (v : list NodeId) : SwimProbe :=
  ltac:(update_field probe_eta p demand_queue v).
Definition set_next_sweep_at (p : SwimProbe) (v : option N) : SwimProbe :=
  ltac:(update_field probe_eta p next_sweep_at v).
Definition set_health (p : SwimProbe) (v : option HealthMultiplier) : SwimProbe :=
  ltac:(update_field probe_eta p health v).

Definition new (config : SwimConfig) (now : N) : SwimProbe := {|
  config := config;
  now := now;
  step_counter := 0;
  next_probe_at := Some (now + probe_interval config);
  sequence := 0;
  phase := Idle;
  probe_index := 0%nat;
  probe_order := [];
  suspicion_timers := [];
  recent_targets := [];
  next_reprobe_at :=
    if 0 <? dead_reprobe_interval config
    then Some (now + dead_reprobe_interval config) else None;
  reprobe_index := 0;
  demand_queue := [];
  next_sweep_at :=
    match probe_mode config with
    | Reactive safety_sweep_interval => Some (now + safety_sweep_interval)
    | Periodic => None
    end;
  health := Lifeguard.new <$> lifeguard config;
|}.

Definition next_sequence (p : SwimProbe) : SwimProbe * N :=
  let seq := sequence p +64 1 in (set_sequence p seq, seq).

(** ** Target selection *)

(** [slice::swap]. *)
Definition list_swap {A} (i j : nat) (l : list A) : list A :=
  match l !! i, l !! j with
  | Some x, Some y => <[i := y]> (<[j := x]> l)
  | _, _ => l
  end.

(** The index [i] is swapped with in the shuffle seeded by the step counter. *)
Definition shuffle_index (step_counter : N) (i : nat) : nat :=
  N.to_nat ((u64_mul step_counter 31 +64 N.of_nat i) mod (N.of_nat i + 1)).

(** The loop [for i in (1..n).rev()]. *)
Definition shuffle (step_counter : N) (order : list NodeId) : list NodeId :=
  foldl (λ l i, list_swap i (shuffle_index step_counter i) l) order
    (rev (seq 1 (length order - 1))).

Definition pick_probe_target (p : SwimProbe) (members : MemberList)
    : SwimProbe * option NodeId :=
  let alive := alive_members members in
  match alive with
  | [] => (p, None)
  | _ =>
      let p :=
        if ((length (probe_order p) <=? probe_index p)%nat
            || negb (length (probe_order p) =? length alive)%nat)%bool
        then set_probe_index
               (set_probe_order p (shuffle (step_counter p) (me_node_id <$> alive))) 0%nat
        else p in
      match probe_order p !! probe_index p with
      | Some target_id => (set_probe_index p (S (probe_index p)), Some target_id)
      | None => (p, None) (* index out of bounds; see [pick_probe_target_in_bounds] *)
      end
  end.

Definition pick_relays (p : SwimProbe) (members : MemberList) (target : NodeId)
    : list NodeId :=
  let alive := filter (λ e, me_node_id e ≠ target) (alive_members members) in
  let k := Nat.min (indirect_probes (config p)) (length alive) in
  let start :=
    match alive with
    | [] => 0%nat
    | _ => N.to_nat (step_counter p mod N.of_nat (length alive))
    end in
  omap (λ i, me_node_id <$> alive !! ((start + i) mod length alive)%nat) (seq 0 k).

(** ** Suspicion timers *)

Definition start_suspicion_timer (p : SwimProbe) (node_id : NodeId) : SwimProbe :=
  if decide (node_id ∈ st_node_id <$> suspicion_timers p) then p
  else set_suspicion_timers p
         (suspicion_timers p ++ [mkSuspicionTimer node_id (now p)]).

Definition cancel_suspicion_timer (p : SwimProbe) (node_id : NodeId) : SwimProbe :=
  set_suspicion_timers p
    (filter (λ t, st_node_id t ≠ node_id) (suspicion_timers p)).

(** The guard [if let Some(at) = deadline && now < at]. *)
Definition not_due (deadline : option N) (now : N) : bool :=
  match deadline with Some at_ => now <? at_ | None => false end.

(** The recent-target ring: at most [PROBE_HISTORY_SIZE] entries. *)
Definition push_recent (p : SwimProbe) (target : NodeId) : SwimProbe :=
  let kept :=
    if (PROBE_HISTORY_SIZE <=? length (recent_targets p))%nat
    then tail (recent_targets p) else recent_targets p in
  set_recent_targets p (kept ++ [target]).

(** Start a directed probe to a specific target. *)
Definition start_probe_for (p : SwimProbe) (target : NodeId)
    : SwimProbe * list SwimAction :=
  let p := push_recent p target in
  let '(p, seq) := next_sequence p in
  (set_phase p (WaitingDirectAck target seq (now p)), [ActSendPing target seq]).

Definition maybe_start_probe (p : SwimProbe) (members : MemberList)
    : SwimProbe * list SwimAction :=
  if not_due (next_probe_at p) (now p)
  then (p, [])
  else
    match phase p with
    | Idle =>
        let p := set_next_probe_at p (Some (now p + probe_interval (config p))) in
        let '(p, picked) := pick_probe_target p (clone_shallow members) in
        match picked with
        | Some target =>
            let p := push_recent p target in
            let '(p, seq) := next_sequence p in
            (set_phase p (WaitingDirectAck target seq (now p)),
             [ActSendPing target seq])
        | None => (p, [])
        end
    | _ => (p, [])
    end.

(** [budget.as_millis() as u64]. *)
Definition budget_millis (p : SwimProbe) : N :=
  (probe_timeout (config p) / 1000000) mod u64_modulus.

Definition record_health (p : SwimProbe) (f : HealthMultiplier → HealthMultiplier)
    : SwimProbe := set_health p (f <$> health p).

Definition check_probe_timeout (p : SwimProbe) (members : MemberList)
    : SwimProbe * list SwimAction :=
  match phase p with
  | WaitingDirectAck target seq sent_at =>
      if probe_timeout (config p) <=? now p - sent_at then
        (set_phase p (WaitingIndirectAck target seq (now p)),
         ActDiag (ProbeTimedOut target seq "direct" (budget_millis p))
         :: ((λ relay, ActSendPingReq relay target seq)
             <$> pick_relays p members target))
      else (p, [])
  | WaitingIndirectAck target seq sent_at =>
      if probe_timeout (config p) <=? now p - sent_at then
        (record_health (set_phase (start_suspicion_timer p target) Idle) record_nack,
         [ActDiag (ProbeTimedOut target seq "indirect" (budget_millis p));
          ActSuspect target])
      else (p, [])
  | Idle => (p, [])
  end.

(** An ack completes the probe in flight: cancel the suspicion, idle. *)
Definition complete_probe (p : SwimProbe) (target : NodeId) (seq : N) (kind : string)
    : SwimProbe * list SwimAction :=
  (record_health (set_phase (cancel_suspicion_timer p target) Idle) record_ack,
   [ActDiag (ProbeAcked target seq kind)]).

Definition handle_ack (p : SwimProbe) (from : NodeId) (seq : N)
    : SwimProbe * list SwimAction :=
  let kind :=
    match phase p with
    | WaitingDirectAck target expected _ =>
        if (from =? target) && (seq =? expected) then Some "direct"%string else None
    | WaitingIndirectAck target expected _ =>
        if (from =? target) && (seq =? expected) then Some "indirect"%string else None
    | Idle => None
    end in
  match kind with
  | Some kind => complete_probe p from seq kind
  | None => (p, [])
  end.

Definition handle_indirect_ack (p : SwimProbe) (target : NodeId) (seq : N)
    : SwimProbe * list SwimAction :=
  match phase p with
  | WaitingIndirectAck expected expected_seq _ =>
      if (target =? expected) && (seq =? expected_seq)
      then complete_probe p target seq "indirect" else (p, [])
  | _ => (p, [])
  end.

(** The suspicion timeout in force. *)
Definition effective_timeout (p : SwimProbe) (members : MemberList) : N :=
  match health p with
  | Some h =>
      N.max (suspicion_timeout (config p))
        (dynamic_suspicion_timeout h (MemberList.len members))
  | None => suspicion_timeout (config p)
  end.

Definition phase_target (ph : ProbePhase) : option NodeId :=
  match ph with
  | WaitingDirectAck target _ _ | WaitingIndirectAck target _ _ => Some target
  | Idle => None
  end.

Definition is_suspect (members : MemberList) (node_id : NodeId) : bool :=
  match get members node_id with
  | Some e => bool_decide (me_state e = Suspect)
  | None => false
  end.

(** One iteration of the loop over the expired timers. *)
Definition expire_one (st : SwimProbe * MemberList * list SwimAction) (node_id : NodeId)
    : SwimProbe * MemberList * list SwimAction :=
  let '(p, members, actions) := st in
  let still_suspect := is_suspect members node_id in
  let declared := declare_dead members node_id in
  let '(p, members, actions) :=
    if still_suspect then
      if declared.2 then
        (if decide (phase_target (phase p) = Some node_id) then set_phase p Idle else p,
         declared.1, actions ++ [ActDeclareDead node_id])
      else (p, declared.1, actions)
    else (p, members, actions) in
  (cancel_suspicion_timer p node_id, members, actions).

Definition expired_timers (p : SwimProbe) (members : MemberList) : list NodeId :=
  st_node_id <$>
    filter (λ t, effective_timeout p members <= now p - st_started_at t)
      (suspicion_timers p).

Definition check_suspicion_timeouts (p : SwimProbe) (members : MemberList)
    : SwimProbe * MemberList * list SwimAction :=
  foldl expire_one (p, members, []) (expired_timers p members).

Definition maybe_reprobe_dead (p : SwimProbe) (members : MemberList)
    : SwimProbe * list SwimAction :=
  if dead_reprobe_interval (config p) =? 0 then (p, [])
  else if not_due (next_reprobe_at p) (now p)
  then (p, [])
  else
    let p := set_next_reprobe_at p (Some (now p + dead_reprobe_interval (config p))) in
    let dead := dead_members members in
    match dead !! N.to_nat (reprobe_index p mod N.of_nat (length dead)) with
    | Some target =>
        let p := set_reprobe_index p (reprobe_index p +64 1) in
        let '(p, seq) := next_sequence p in
        (p, [ActSendPing (me_node_id target) seq])
    | None => (p, []) (* no dead member *)
    end.

(** ** Reactive mode *)

Definition is_currently_probing (p : SwimProbe) (target : NodeId) : bool :=
  match phase p with
  | WaitingDirectAck t _ _ | WaitingIndirectAck t _ _ => t =? target
  | Idle => false
  end.

Definition push_demand (p : SwimProbe) (target : NodeId) : SwimProbe :=
  if (length (demand_queue p) <? MAX_DEMAND_QUEUE)%nat
  then set_demand_queue p (demand_queue p ++ [target]) else p.

Definition enqueue_demand_probe (p : SwimProbe) (target : NodeId) : SwimProbe :=
  match probe_mode (config p) with
  | Periodic => p
  | Reactive _ =>
      if is_currently_probing p target || bool_decide (target ∈ demand_queue p)
      then p else push_demand p target
  end.

Definition handle_send_failed (p : SwimProbe) (target : NodeId) (members : MemberList)
    : SwimProbe * list SwimAction :=
  match get members target with
  | None => (p, [])
  | Some entry =>
      if decide (me_state entry = Dead) then (p, [])
      else if is_currently_probing p target then (p, [])
      else if decide (target ∈ demand_queue p) then (p, [])
      else
        match phase p with
        | Idle => start_probe_for p target
        | _ => (push_demand p target, [])
        end
  end.

Definition maybe_start_demand_probe (p : SwimProbe) : SwimProbe * list SwimAction :=
  match phase p with
  | Idle =>
      match demand_queue p with
      | target :: rest => start_probe_for (set_demand_queue p rest) target
      | [] => (p, [])
      end
  | _ => (p, [])
  end.

Definition maybe_safety_sweep (p : SwimProbe) (members : MemberList)
    : SwimProbe * list SwimAction :=
  if not_due (next_sweep_at p) (now p)
  then (p, [])
  else
    match probe_mode (config p) with
    | Periodic => (p, [])
    | Reactive interval =>
        let p := set_next_sweep_at p (Some (now p + interval)) in
        match phase p with
        | Idle =>
            let '(p, picked) := pick_probe_target p (clone_shallow members) in
            match picked with
            | Some target => start_probe_for p target
            | None => (p, [])
            end
        | _ => (p, [])
        end
    end.

(** ** The transition function *)

(** The probing part of a tick, by mode. *)
Definition tick_probe (p : SwimProbe) (members : MemberList)
    : SwimProbe * list SwimAction :=
  match probe_mode (config p) with
  | Periodic => maybe_start_probe p members
  | Reactive _ =>
      let '(p, a1) := maybe_start_demand_probe p in
      let '(p, a2) := maybe_safety_sweep p members in
      (p, a1 ++ a2)
  end.

Definition step (p : SwimProbe) (at_ : N) (event : SwimEvent) (members : MemberList)
    : SwimProbe * MemberList * list SwimAction :=
  let p := set_now p at_ in
  match event with
  | Tick =>
      let p := set_step_counter p (step_counter p +64 1) in
      let '(p, a1) := check_probe_timeout p members in
      let '(p, members, a2) := check_suspicion_timeouts p members in
      let '(p, a3) := tick_probe p members in
      let '(p, a4) := maybe_reprobe_dead p members in
      (p, members, a1 ++ a2 ++ a3 ++ a4)
  | AckReceived from seq =>
      let '(p, a) := handle_ack p from seq in (p, members, a)
  | IndirectAckReceived target seq =>
      let '(p, a) := handle_indirect_ack p target seq in (p, members, a)
  | SendFailed to =>
      let '(p, a) := handle_send_failed p to members in (p, members, a)
  end.

(** ** Shuffling and target selection *)

Lemma insert_perm {A} (l : list A) i x y :
  l !! i = Some x → x :: <[i := y]> l ≡ₚ y :: l.
Proof.
  revert i; induction l as [|z l IH]; intros [|i] Hi; simpl in *; try done.
  - injection Hi as ->. apply perm_swap.
  - rw perm_swap (IH i Hi). apply perm_swap.
Qed.

Lemma list_swap_perm {A} i j (l : list A) : list_swap i j l ≡ₚ l.
Proof.
  unfold list_swap. destruct (l !! i) as [x|] eqn:Hi; [|done].
  destruct (l !! j) as [y|] eqn:Hj; [|done].
  destruct (decide (i = j)) as [->|Hne].
  { assert (x = y) as -> by congruence. by rw !list_insert_id. }
  apply (Permutation_cons_inv (a := x)).
  rw insert_perm; [by rw list_lookup_insert_ne|]. by apply insert_perm.
Qed.

Lemma shuffle_perm c l : shuffle c l ≡ₚ l.
Proof.
  unfold shuffle. generalize (rev (seq 1 (length l - 1))) as idxs.
  intros idxs. revert l; induction idxs as [|i idxs IH]; intros l; simpl; [done|].
  by rw IH list_swap_perm.
Qed.

Lemma length_shuffle c l : length (shuffle c l) = length l.
Proof. by rw shuffle_perm. Qed.

(** The order from which the next target is taken. *)
Definition refreshed_order (p : SwimProbe) (members : MemberList) : list NodeId * nat :=
  let alive := alive_members members in
  if ((length (probe_order p) <=? probe_index p)%nat
      || negb (length (probe_order p) =? length alive)%nat)%bool
  then (shuffle (step_counter p) (me_node_id <$> alive), 0%nat)
  else (probe_order p, probe_index p).

(** The slice index of the code is in bounds: a target is found whenever a
    member is alive. *)
Lemma pick_probe_target_in_bounds p members :
  alive_members members ≠ [] →
  ∃ target,
    (refreshed_order p members).1 !! (refreshed_order p members).2 = Some target ∧
    pick_probe_target p members =
      (set_probe_index (set_probe_order p (refreshed_order p members).1)
         (S (refreshed_order p members).2), Some target).
Proof.
  intros Hne. unfold pick_probe_target, refreshed_order.
  set (alive := alive_members members) in *.
  set (b := (_ || _)%bool). destruct alive as [|e alive'] eqn:Ea; [done|].
  destruct b eqn:E; cbn [fst snd].
  - destruct (shuffle (step_counter p) (me_node_id <$> e :: alive') !! 0%nat)
      as [t|] eqn:Ht; [by exists t; rw /= Ht|].
    apply lookup_ge_None in Ht. rw length_shuffle length_fmap /= in Ht. lia.
  - destruct (probe_order p !! probe_index p) as [t|] eqn:Ht; [by exists t; destruct p|].
    apply lookup_ge_None in Ht. subst b. bool_to_prop. lia.
Qed.

Lemma pick_none p members :
  alive_members members = [] → pick_probe_target p members = (p, None).
Proof. unfold pick_probe_target. by intros ->. Qed.

(** [n] successive picks. *)
Fixpoint picks (n : nat) (p : SwimProbe) (members : MemberList)
    : SwimProbe * list NodeId :=
  match n with
  | 0 => (p, [])
  | S n' =>
      let '(p, t) := pick_probe_target p members in
      let '(p, ts) := picks n' p members in
      (p, option_list t ++ ts)
  end%nat.

(** Within a round the picks read the order off in sequence. *)
Lemma picks_within n p members :
  alive_members members ≠ [] →
  length (probe_order p) = length (alive_members members) →
  (probe_index p + n ≤ length (probe_order p))%nat →
  (picks n p members).2 = take n (drop (probe_index p) (probe_order p)).
Proof.
  intros Hne. revert p; induction n as [|n IH]; intros p Hlen Hn; [done|].
  assert (refreshed_order p members = (probe_order p, probe_index p)) as Hr.
  { unfold refreshed_order. case_match eqn:E; [|done].
    apply orb_true_iff in E as [?|?]; bool_to_prop; lia. }
  destruct (pick_probe_target_in_bounds p members Hne) as (t & Ht & Hp).
  rw Hr in Ht, Hp. cbn [fst snd] in Ht, Hp. simpl. rw Hp.
  specialize (IH (set_probe_index (set_probe_order p (probe_order p)) (S (probe_index p)))
    ltac:(done) ltac:(simpl; lia)).
  destruct (picks n _ members) as [p' ts]; simpl in IH |- *. subst ts.
  by rw (drop_S _ _ _ Ht).
Qed.

(** The probe rotation is fair: when an order is exhausted and the set of live members
    does not change, the next [n] picks, [n] the number of live members, visit every
    live member exactly once. *)
Theorem pick_round_complete p members :
  wf members → (length (probe_order p) ≤ probe_index p)%nat →
  (picks (alive_count members) p members).2 ≡ₚ me_node_id <$> alive_members members
  ∧ NoDup (picks (alive_count members) p members).2.
Proof.
  intros Hwf Hex. unfold alive_count.
  assert ((picks (length (alive_members members)) p members).2 ≡ₚ
    me_node_id <$> alive_members members) as Hperm.
  { destruct (alive_members members) as [|e alive'] eqn:Ea; [done|].
    assert (alive_members members ≠ []) as Hne by by rw Ea.
    destruct (pick_probe_target_in_bounds p members Hne) as (t & Ht & Hp).
    set (o := shuffle (step_counter p) (me_node_id <$> alive_members members)).
    assert (refreshed_order p members = (o, 0%nat)) as Hr.
    { unfold refreshed_order. by rw (proj2 (Nat.leb_le _ _) Hex). }
    rw Hr in Ht, Hp. cbn [fst snd] in Ht, Hp. simpl. rw Hp.
    pose proof (length_shuffle (step_counter p) (me_node_id <$> alive_members members))
      as Hl. fold o in Hl. rw length_fmap Ea /= in Hl.
    pose proof (picks_within (length alive')
      (set_probe_index (set_probe_order p o) 1) members Hne) as Hw.
    simpl in Hw. rw Ea in Hw. specialize (Hw Hl ltac:(lia)).
    destruct (picks _ _ members) as [p' ts]; simpl in Hw |- *. subst ts.
    trans o; [|by rw /o shuffle_perm Ea].
    rw take_ge; [rw length_drop; lia|]. by destruct o; simplify_eq/=. }
  split; [done|]. rw Hperm. by apply alive_members_nodup.
Qed.

(** ** Relays *)

(** The members a relay is chosen from. *)
Definition relay_candidates (members : MemberList) (target : NodeId) : list MemberEntry :=
  filter (λ e, me_node_id e ≠ target) (alive_members members).

(** Indirect probes go through distinct live members other than the target, as many as
    configured when there are enough. *)
Theorem pick_relays_spec p members target :
  wf members →
  NoDup (pick_relays p members target) ∧
  length (pick_relays p members target) =
    Nat.min (indirect_probes (config p)) (length (relay_candidates members target)) ∧
  ∀ r, r ∈ pick_relays p members target →
    r ≠ target ∧ ∃ e, get members r = Some e ∧ me_state e ≠ Dead.
Proof.
  intros Hwf. unfold pick_relays. fold (relay_candidates members target).
  set (cs := relay_candidates members target). set (k := Nat.min _ _).
  set (start := match cs with [] => _ | _ => _ end).
  assert (NoDup (me_node_id <$> cs)) as Hnd.
  { by apply filter_fmap_nodup, alive_members_nodup. }
  assert (cs ≠ [] → start < length cs)%nat as Hstart.
  { intros Hne. subst start. destruct cs as [|c cs']; [done|].
    pose proof (N.mod_lt (step_counter p) (N.of_nat (length (c :: cs')))
      ltac:(simpl; lia)). simpl in *. lia. }
  set (f := λ i, me_node_id <$> cs !! ((start + i) mod length cs)%nat).
  split; [|split].
  - apply NoDup_omap_inj; [apply NoDup_seq|].
    intros i j x Hi%elem_of_seq Hj%elem_of_seq Ei Ej. subst f; simpl in *.
    rw -list_lookup_fmap in Ei. rw -list_lookup_fmap in Ej.
    pose proof (NoDup_lookup _ _ _ _ Hnd Ei Ej) as E.
    assert (cs ≠ []) as Hne by (intros ->; simpl in *; lia).
    eapply rotate_index_inj; [by apply Hstart|..|exact E]; lia.
  - rw length_omap_some; [|by rw length_seq].
    apply Forall_forall. intros i Hi%elem_of_seq. subst f; simpl.
    apply fmap_is_Some, lookup_lt_is_Some_2. apply Nat.mod_upper_bound. lia.
  - intros r (i & _ & Hr)%list_elem_of_omap. subst f; simpl in Hr.
    apply fmap_Some in Hr as (e & He%list_elem_of_lookup_2 & ->).
    apply list_elem_of_filter in He as [? He].
    apply elem_of_alive_members in He as [? ?]; [|done]. eauto.
Qed.

(** ** The type invariant of the probe state *)

Record probe_wf (p : SwimProbe) : Prop := {
  pw_timers : NoDup (st_node_id <$> suspicion_timers p);
  pw_recent : (length (recent_targets p) ≤ PROBE_HISTORY_SIZE)%nat;
  pw_demand_nodup : NoDup (demand_queue p);
  pw_demand : (length (demand_queue p) ≤ MAX_DEMAND_QUEUE)%nat;
  pw_index : (probe_index p ≤ length (probe_order p))%nat;
}.

(** A field the invariant does not read can change. *)
Ltac frame_wf := intros []; split; assumption.

Lemma set_now_wf p v : probe_wf p → probe_wf (set_now p v).
Proof. frame_wf. Qed.
Lemma set_step_counter_wf p v : probe_wf p → probe_wf (set_step_counter p v).
Proof. frame_wf. Qed.
Lemma set_next_probe_at_wf p v : probe_wf p → probe_wf (set_next_probe_at p v).
Proof. frame_wf. Qed.
Lemma set_sequence_wf p v : probe_wf p → probe_wf (set_sequence p v).
Proof. frame_wf. Qed.
Lemma set_phase_wf p v : probe_wf p → probe_wf (set_phase p v).
Proof. frame_wf. Qed.
Lemma set_next_reprobe_at_wf p v : probe_wf p → probe_wf (set_next_reprobe_at p v).
Proof. frame_wf. Qed.
Lemma set_reprobe_index_wf p v : probe_wf p → probe_wf (set_reprobe_index p v).
Proof. frame_wf. Qed.
Lemma set_next_sweep_at_wf p v : probe_wf p → probe_wf (set_next_sweep_at p v).
Proof. frame_wf. Qed.
Lemma record_health_wf p f : probe_wf p → probe_wf (record_health p f).
Proof. frame_wf. Qed.
#[export] Hint Resolve set_now_wf set_step_counter_wf set_next_probe_at_wf
  set_sequence_wf set_phase_wf set_next_reprobe_at_wf set_reprobe_index_wf
  set_next_sweep_at_wf record_health_wf : swactor.

Lemma probe_new_wf c n : probe_wf (new c n).
Proof. split; simpl; first [lia|constructor]. Qed.

Lemma push_recent_wf p t : probe_wf p → probe_wf (push_recent p t).
Proof.
  intros []; split; try assumption. unfold push_recent.
  destruct (PROBE_HISTORY_SIZE <=? length (recent_targets p))%nat eqn:E;
    bool_to_prop; cbn [recent_targets set_recent_targets]; rw length_app.
  - destruct (recent_targets p); simpl in *; unfold PROBE_HISTORY_SIZE in *; lia.
  - unfold PROBE_HISTORY_SIZE in *. simpl. lia.
Qed.

Lemma start_timer_wf p id : probe_wf p → probe_wf (start_suspicion_timer p id).
Proof.
  unfold start_suspicion_timer. case_decide as Hin; [done|].
  intros []; split; try assumption; simpl. rw fmap_app.
  apply NoDup_app. split; [done|]. split; [|apply NoDup_singleton].
  by intros x Hx ->%list_elem_of_singleton.
Qed.

Lemma cancel_timer_wf p id : probe_wf p → probe_wf (cancel_suspicion_timer p id).
Proof. intros []; split; try assumption; simpl. by apply filter_fmap_nodup. Qed.

Lemma push_demand_wf p t :
  t ∉ demand_queue p → probe_wf p → probe_wf (push_demand p t).
Proof.
  intros Hin Hp. unfold push_demand.
  destruct (length (demand_queue p) <? MAX_DEMAND_QUEUE)%nat eqn:E; [|done].
  bool_to_prop. destruct Hp; split; try assumption; simpl.
  - apply NoDup_app. split; [done|]. split; [|apply NoDup_singleton].
    by intros x Hx ->%list_elem_of_singleton.
  - rw length_app /=. lia.
Qed.

Lemma pick_probe_target_wf p members :
  probe_wf p → probe_wf (pick_probe_target p members).1.
Proof.
  intros Hp. destruct (decide (alive_members members = [])) as [E|Hne].
  { by rw pick_none. }
  destruct (pick_probe_target_in_bounds p members Hne) as (t & Ht & ->).
  destruct Hp; split; try assumption; simpl. by apply lookup_lt_Some in Ht.
Qed.
#[export] Hint Resolve probe_new_wf push_recent_wf start_timer_wf cancel_timer_wf
  push_demand_wf pick_probe_target_wf : swactor.

Lemma start_probe_for_wf p t : probe_wf p → probe_wf (start_probe_for p t).1.
Proof. unfold start_probe_for; simpl. eauto 6 with swactor. Qed.
#[export] Hint Resolve start_probe_for_wf : swactor.

Lemma maybe_start_probe_wf p ml : probe_wf p → probe_wf (maybe_start_probe p ml).1.
Proof.
  intros Hp. unfold maybe_start_probe. destruct (not_due _ _); [done|].
  destruct (phase p); try done.
  pose proof (pick_probe_target_wf (set_next_probe_at p
    (Some (now p + probe_interval (config p)))) (clone_shallow ml)
    ltac:(eauto with swactor)) as H.
  destruct (pick_probe_target _ _) as [p' [t|]]; simpl in *; eauto 6 with swactor.
Qed.

Lemma check_probe_timeout_wf p ml : probe_wf p → probe_wf (check_probe_timeout p ml).1.
Proof.
  intros Hp. unfold check_probe_timeout.
  destruct (phase p); try done; case_match; simpl; eauto with swactor.
Qed.

Lemma handle_ack_wf p f s : probe_wf p → probe_wf (handle_ack p f s).1.
Proof.
  intros Hp. unfold handle_ack, complete_probe. case_match; simpl; eauto with swactor.
Qed.

Lemma handle_indirect_ack_wf p f s : probe_wf p → probe_wf (handle_indirect_ack p f s).1.
Proof.
  intros Hp. unfold handle_indirect_ack, complete_probe.
  repeat case_match; simpl; eauto with swactor.
Qed.

Lemma enqueue_demand_probe_wf p t : probe_wf p → probe_wf (enqueue_demand_probe p t).
Proof.
  intros Hp. unfold enqueue_demand_probe. case_match; [done|].
  case_match; [done|]. bool_to_prop. by apply push_demand_wf.
Qed.

Lemma handle_send_failed_wf p t ml : probe_wf p → probe_wf (handle_send_failed p t ml).1.
Proof.
  intros Hp. unfold handle_send_failed. case_match; [|done].
  case_decide; [done|]. case_match; [done|]. case_decide; [done|].
  case_match; simpl; eauto with swactor.
Qed.

Lemma maybe_start_demand_probe_wf p :
  probe_wf p → probe_wf (maybe_start_demand_probe p).1.
Proof.
  intros Hp. unfold maybe_start_demand_probe. destruct (phase p); try done.
  destruct (demand_queue p) as [|t rest] eqn:E; [done|].
  apply start_probe_for_wf. destruct Hp as [?? Hnd Hl ?].
  rw E in Hnd, Hl. inv Hnd. split; try assumption; simpl in *. lia.
Qed.

Lemma maybe_safety_sweep_wf p ml : probe_wf p → probe_wf (maybe_safety_sweep p ml).1.
Proof.
  intros Hp. unfold maybe_safety_sweep. destruct (not_due _ _); [done|].
  destruct (probe_mode (config p)) as [|interval]; [done|].
  pose proof (pick_probe_target_wf (set_next_sweep_at p (Some (now p + interval)))
    (clone_shallow ml) ltac:(eauto with swactor)) as H.
  simpl. destruct (phase p); eauto with swactor.
  destruct (pick_probe_target _ _) as [p' [t|]]; simpl in *; eauto with swactor.
Qed.

Lemma maybe_reprobe_dead_wf p ml : probe_wf p → probe_wf (maybe_reprobe_dead p ml).1.
Proof.
  intros Hp. unfold maybe_reprobe_dead. case_match; [done|].
  destruct (not_due _ _); [done|].
  case_match; simpl; eauto 6 with swactor.
Qed.

Lemma expire_one_wf st id : probe_wf st.1.1 → probe_wf (expire_one st id).1.1.
Proof.
  destruct st as [[p ml] a]. simpl. intros Hp.
  repeat case_match; simplify_eq/=; eauto with swactor.
Qed.

Lemma check_suspicion_timeouts_wf p ml :
  probe_wf p → probe_wf (check_suspicion_timeouts p ml).1.1.
Proof.
  intros Hp. unfold check_suspicion_timeouts.
  apply (foldl_invariant' (λ st, probe_wf st.1.1)); [|done].
  intros st id. apply expire_one_wf.
Qed.

Lemma tick_probe_wf p ml : probe_wf p → probe_wf (tick_probe p ml).1.
Proof.
  intros Hp. unfold tick_probe. case_match; [by apply maybe_start_probe_wf|].
  pose proof (maybe_start_demand_probe_wf p Hp) as H1.
  destruct (maybe_start_demand_probe p) as [p1 a1]; simpl in *.
  pose proof (maybe_safety_sweep_wf p1 ml H1).
  by destruct (maybe_safety_sweep p1 ml) as [p2 a2].
Qed.

Lemma step_wf p at_ ev ml : probe_wf p → probe_wf (step p at_ ev ml).1.1.
Proof.
  intros Hp. unfold step. pose proof (set_now_wf p at_ Hp) as Hn.
  destruct ev as [|f s|t s|t].
  - pose proof (set_step_counter_wf _ (step_counter (set_now p at_) +64 1) Hn) as H0.
    pose proof (check_probe_timeout_wf _ ml H0) as H1.
    destruct (check_probe_timeout _ ml) as [p1 a1]; simpl in H1.
    pose proof (check_suspicion_timeouts_wf p1 ml H1) as H2.
    destruct (check_suspicion_timeouts p1 ml) as [[p2 ml2] a2]; simpl in H2.
    pose proof (tick_probe_wf p2 ml2 H2) as H3.
    destruct (tick_probe p2 ml2) as [p3 a3]; simpl in H3.
    pose proof (maybe_reprobe_dead_wf p3 ml2 H3) as H4.
    by destruct (maybe_reprobe_dead p3 ml2) as [p4 a4].
  - pose proof (handle_ack_wf _ f s Hn). by destruct (handle_ack _ f s).
  - pose proof (handle_indirect_ack_wf _ t s Hn). by destruct (handle_indirect_ack _ t s).
  - pose proof (handle_send_failed_wf _ t ml Hn). by destruct (handle_send_failed _ t ml).
Qed.

(** A history of the probe: at each step the owner of the member list may have
    changed it in any way. *)
Definition run_probe (p : SwimProbe) (history : list (N * SwimEvent * MemberList))
    : SwimProbe :=
  foldl (λ p h, (step p h.1.1 h.1.2 h.2).1.1) p history.

(** The probe state stays bounded: whatever events arrive at whatever times, with
    whatever member lists, there is at most one suspicion timer per node, the demand
    queue holds at most [MAX_DEMAND_QUEUE] distinct targets, the history at most
    [PROBE_HISTORY_SIZE] and the rotation index never leaves the order. *)
Theorem probe_stays_bounded c at_ history : probe_wf (run_probe (new c at_) history).
Proof.
  apply (foldl_invariant' probe_wf); [|apply probe_new_wf].
  intros p h. apply step_wf.
Qed.

(** ** Expiry of suspicion timers *)

Lemma is_suspect_true ml id :
  is_suspect ml id = true ↔ ∃ e, get ml id = Some e ∧ me_state e = Suspect.
Proof.
  unfold is_suspect. destruct (get ml id); [|naive_solver].
  rw bool_decide_eq_true. naive_solver.
Qed.

Lemma declare_dead_suspect ml id :
  (declare_dead ml id).2 = is_suspect ml id.
Proof.
  unfold declare_dead, move_state, is_suspect, get.
  destruct (members ml !! id); [|done]. by case_decide; case_bool_decide.
Qed.

Lemma expire_one_eq p ml acts id :
  expire_one (p, ml, acts) id =
    if is_suspect ml id then
      (cancel_suspicion_timer
         (if decide (phase_target (phase p) = Some id) then set_phase p Idle else p) id,
       (declare_dead ml id).1, acts ++ [ActDeclareDead id])
    else (cancel_suspicion_timer p id, ml, acts).
Proof.
  unfold expire_one. rw declare_dead_suspect. by destruct (is_suspect ml id).
Qed.

Definition buried (e : MemberEntry) : MemberEntry :=
  mkMemberEntry (me_node_id e) Dead (me_incarnation e).

(** The members after the suspects among [ids] were declared dead. *)
Definition bury (ml : MemberList) (ids : list NodeId) : MemberList :=
  set_members ml
    (map_imap (λ id e, Some (if decide (id ∈ ids ∧ me_state e = Suspect)
                             then buried e else e)) (members ml)).

Lemma get_bury ml ids id :
  get (bury ml ids) id =
    (λ e, if decide (id ∈ ids ∧ me_state e = Suspect) then buried e else e)
      <$> get ml id.
Proof. unfold get, bury; simpl. rw map_lookup_imap. by destruct (_ !! id). Qed.

Lemma declare_dead_get ml id i :
  get (declare_dead ml id).1 i =
    (λ e, if decide (i = id ∧ me_state e = Suspect) then buried e else e) <$> get ml i.
Proof. apply move_state_get. Qed.

Lemma bury_nil ml : bury ml [] = ml.
Proof.
  apply MemberList_ext; try done. intros i. rw get_bury.
  rw -{2}(option_fmap_id (get ml i)). apply option_fmap_ext. intros e; cbv beta.
  case_decide as Hd; [|done]. by destruct Hd as [?%not_elem_of_nil _].
Qed.

Lemma bury_cons ml id ids : bury (declare_dead ml id).1 ids = bury ml (id :: ids).
Proof.
  destruct (move_state_ids Suspect Dead ml id) as [H1 H2].
  apply MemberList_ext; [done..|]. intros i. rw !get_bury declare_dead_get.
  destruct (get ml i) as [e|]; simpl; [|done]. f_equal.
  repeat case_decide; set_solver.
Qed.

Lemma bury_not_suspect ml id ids :
  is_suspect ml id = false → bury ml (id :: ids) = bury ml ids.
Proof.
  intros Es. apply MemberList_ext; [done..|]. intros i.
  rw !get_bury. destruct (get ml i) as [e|] eqn:Ei; simpl; [|done]. f_equal.
  assert (i = id → me_state e ≠ Suspect).
  { intros -> ?. assert (is_suspect ml id = true); [|congruence].
    apply is_suspect_true. eauto. }
  repeat case_decide; set_solver.
Qed.

Lemma is_suspect_declare_dead ml id i :
  i ≠ id → is_suspect (declare_dead ml id).1 i = is_suspect ml i.
Proof.
  intros Hne. unfold is_suspect. rw declare_dead_get.
  destruct (get ml i); cbn -[decide]; [|done]. by case_decide; [naive_solver|].
Qed.

(** What the loop over the expired timers does. *)
Lemma expire_all p ml acts ids :
  NoDup ids →
  ∃ p', foldl expire_one (p, ml, acts) ids =
      (p', bury ml ids,
       acts ++ (ActDeclareDead <$> filter (λ id, is_suspect ml id = true) ids)) ∧
    suspicion_timers p' =
      filter (λ t, st_node_id t ∉ ids) (suspicion_timers p) ∧
    now p' = now p ∧ config p' = config p ∧ health p' = health p ∧
    (phase p' = phase p ∨
     phase p' = Idle ∧ ∃ x, phase_target (phase p) = Some x ∧ x ∈ ids ∧
       is_suspect ml x = true).
Proof.
  revert p ml acts; induction ids as [|id ids IH]; intros p ml acts Hnd.
  { exists p. rw bury_nil app_nil_r /=. split_and!; auto.
    rw filter_all //. apply Forall_forall. set_solver. }
  inv Hnd. cbn [foldl]. rw expire_one_eq.
  set (p1 := cancel_suspicion_timer
    (if decide (phase_target (phase p) = Some id) then set_phase p Idle else p) id).
  assert (∀ q : SwimProbe, suspicion_timers q = suspicion_timers p →
    filter (λ t, st_node_id t ∉ ids)
      (suspicion_timers (cancel_suspicion_timer q id)) =
    filter (λ t, st_node_id t ∉ id :: ids) (suspicion_timers p)) as Hf.
  { intros q Hq; simpl. rw Hq list_filter_filter. apply list_filter_iff. set_solver. }
  destruct (is_suspect ml id) eqn:Es.
  - destruct (IH p1 (declare_dead ml id).1 (acts ++ [ActDeclareDead id]) ltac:(done))
      as (p' & -> & Ht & Hn & Hc & Hh & Hp).
    assert (now p1 = now p ∧ config p1 = config p ∧ health p1 = health p) as (E1 & E2 & E3).
    { unfold p1. by case_decide. }
    exists p'. rw bury_cons filter_cons_True //. split; [|split; [|split_and!]]; try congruence.
    + rw -assoc /=. do 3 f_equal. f_equal.
      apply filter_ext_in. intros i Hi. by rw is_suspect_declare_dead; [set_solver|].
    + rw Ht. apply Hf. by case_decide.
    + assert (phase p1 = phase p ∨ phase p1 = Idle ∧ phase_target (phase p) = Some id)
        as [E|[E Et]] by (unfold p1; case_decide; auto).
      * rw E in Hp. destruct Hp as [?|(? & x & ? & ? & Hs)]; [auto|]. right.
        split; [done|]. exists x. rw is_suspect_declare_dead in Hs; [set_solver|].
        split_and!; [done|by right|done].
      * right. split; [|exists id; split_and!; [done|by left|done]].
        destruct Hp as [?|[? _]]; congruence.
  - destruct (IH (cancel_suspicion_timer p id) ml acts ltac:(done))
      as (p' & -> & Ht & ? & ? & ? & Hp).
    exists p'. rw filter_cons_False; [by rw Es|].
    rw bury_not_suspect //. split_and!; try done; [by rw Ht; apply Hf|].
    destruct Hp as [?|(? & x & ? & ? & ?)]; [auto|]. right. split; [done|].
    exists x. split_and!; [done|by right|done].
Qed.

(** ** Ticks *)

(** The probe state as [check_suspicion_timeouts] sees it during a tick. *)
Definition ticked (p : SwimProbe) (at_ : N) (ml : MemberList) : SwimProbe :=
  let p := set_now p at_ in
  (check_probe_timeout (set_step_counter p (step_counter p +64 1)) ml).1.

Definition no_death (acts : list SwimAction) : Prop :=
  ∀ id, ActDeclareDead id ∉ acts.

Lemma no_death_app a b : no_death a → no_death b → no_death (a ++ b).
Proof. unfold no_death. set_solver. Qed.

Lemma no_death_cons x a :
  (∀ id, x ≠ ActDeclareDead id) → no_death a → no_death (x :: a).
Proof. unfold no_death. set_solver. Qed.

Lemma no_death_nil : no_death [].
Proof. unfold no_death. set_solver. Qed.
#[export] Hint Resolve no_death_app no_death_cons no_death_nil : swactor.

Lemma check_probe_timeout_no_death p ml : no_death (check_probe_timeout p ml).2.
Proof.
  unfold check_probe_timeout. repeat case_match; simpl; auto with swactor.
  apply no_death_cons; [done|]. intros id. rw list_elem_of_fmap. naive_solver.
Qed.

(** Starting probes only sends pings. *)
Definition pings (acts : list SwimAction) : Prop :=
  Forall (λ a, ∃ to seq, a = ActSendPing to seq) acts.

Lemma pings_no_death acts : pings acts → no_death acts.
Proof. intros Ha id Hin. by destruct (proj1 (Forall_forall _ _) Ha _ Hin) as (? & ? & ?). Qed.

Lemma pings_app a b : pings a → pings b → pings (a ++ b).
Proof. apply Forall_app_2. Qed.

Lemma pings_one to seq : pings [ActSendPing to seq].
Proof. repeat constructor. eauto. Qed.

Lemma pings_nil : pings [].
Proof. constructor. Qed.
#[local] Hint Resolve pings_app pings_one pings_nil : swactor.

Lemma tick_probe_pings p ml : pings (tick_probe p ml).2.
Proof.
  unfold tick_probe, maybe_start_probe, maybe_start_demand_probe, maybe_safety_sweep,
    start_probe_for.
  repeat case_match; simplify_eq/=; auto with swactor.
Qed.

Lemma maybe_reprobe_dead_pings p ml : pings (maybe_reprobe_dead p ml).2.
Proof. unfold maybe_reprobe_dead. repeat case_match; simpl; auto with swactor. Qed.

(** A tick never starts a timer that expires in the same tick. *)
Lemma expired_timers_ticked p at_ ml id :
  0 < suspicion_timeout (config p) →
  id ∈ expired_timers (ticked p at_ ml) ml ↔
  ∃ t, t ∈ suspicion_timers p ∧ st_node_id t = id ∧
    effective_timeout (ticked p at_ ml) ml <= at_ - st_started_at t.
Proof.
  intros Hpos. set (T := effective_timeout (ticked p at_ ml) ml).
  assert (0 < T) as HT.
  { unfold T, effective_timeout, ticked, check_probe_timeout.
    repeat case_match; simpl; rw ?N.max_lt_iff; auto;
    unfold start_suspicion_timer; case_decide; simpl; auto. }
  unfold expired_timers. fold T. rw list_elem_of_fmap.
  assert (now (ticked p at_ ml) = at_) as ->.
  { unfold ticked, check_probe_timeout, start_suspicion_timer.
    by repeat case_match. }
  assert (∀ t, t ∈ suspicion_timers (ticked p at_ ml) →
    t ∈ suspicion_timers p ∨ st_started_at t = at_) as Hin.
  { intros t. unfold ticked, check_probe_timeout, start_suspicion_timer.
    repeat case_match; simplify_eq/=; auto.
    rw elem_of_app list_elem_of_singleton. intros [?| ->]; auto. }
  assert (∀ t, t ∈ suspicion_timers p → t ∈ suspicion_timers (ticked p at_ ml)) as Hsub.
  { intros t. unfold ticked, check_probe_timeout, start_suspicion_timer.
    repeat case_match; simplify_eq/=; auto. set_solver. }
  split.
  - intros (t & -> & [Hle Ht]%list_elem_of_filter). exists t.
    destruct (Hin t Ht) as [?| E]; [done|]. lia.
  - intros (t & Ht & <- & Hle). exists t. split; [done|].
    apply list_elem_of_filter. auto.
Qed.

Lemma expired_timers_nodup p ml : probe_wf p → NoDup (expired_timers p ml).
Proof. intros [Hnd _ _ _ _]. by apply filter_fmap_nodup. Qed.

Lemma ticked_wf p at_ ml : probe_wf p → probe_wf (ticked p at_ ml).
Proof. intros. unfold ticked. apply check_probe_timeout_wf. auto with swactor. Qed.

Lemma step_tick p at_ ml :
  probe_wf p →
  let expired := expired_timers (ticked p at_ ml) ml in
  (step p at_ Tick ml).1.2 = bury ml expired ∧
  ∀ id, ActDeclareDead id ∈ (step p at_ Tick ml).2 ↔
    id ∈ expired ∧ is_suspect ml id = true.
Proof.
  intros Hwf expired. unfold step.
  pose proof (ticked_wf p at_ ml Hwf) as Hwf'. revert expired Hwf'. unfold ticked.
  pose proof (check_probe_timeout_no_death (set_step_counter (set_now p at_)
    (step_counter (set_now p at_) +64 1)) ml) as Hn1.
  destruct (check_probe_timeout _ ml) as [p1 a1]; cbn [fst snd] in *.
  intros Hwf'. set (expired := expired_timers p1 ml) in *. unfold check_suspicion_timeouts.
  destruct (expire_all p1 ml [] expired (expired_timers_nodup p1 ml Hwf'))
    as (p2 & E & _). fold expired. rw E.
  pose proof (pings_no_death _ (tick_probe_pings p2 (bury ml expired))) as Hn3.
  destruct (tick_probe p2 _) as [p3 a3]; cbn [fst snd] in *.
  pose proof (pings_no_death _ (maybe_reprobe_dead_pings p3 (bury ml expired))) as Hn4.
  destruct (maybe_reprobe_dead p3 _) as [p4 a4]; cbn [fst snd] in *.
  split; [done|]. intros id. specialize (Hn1 id); specialize (Hn3 id); specialize (Hn4 id).
  rw !elem_of_app list_elem_of_fmap.
  split.
  - intros [?|[[?|(i & ? & [??]%list_elem_of_filter)]|[?|?]]]; try done;
      [by apply not_elem_of_nil in H|by simplify_eq].
  - intros [??]. right; left; right. exists id. split; [done|].
    by apply list_elem_of_filter.
Qed.

(** Death is declared exactly when it should be: a tick declares [id] dead if and only
    if [id] is currently suspect and carries a suspicion timer at least as old as the
    timeout in force, which is never below the configured one; the tick moves exactly
    those members from [Suspect] to [Dead] and changes nothing else in the member list. *)
Theorem tick_declares_dead p at_ ml id :
  probe_wf p → 0 < suspicion_timeout (config p) →
  let T := effective_timeout (ticked p at_ ml) ml in
  let '(_, ml', acts) := step p at_ Tick ml in
  suspicion_timeout (config p) <= T ∧
  (ActDeclareDead id ∈ acts ↔
     is_suspect ml id = true ∧
     ∃ t, t ∈ suspicion_timers p ∧ st_node_id t = id ∧ T <= at_ - st_started_at t) ∧
  get ml' id = (if decide (ActDeclareDead id ∈ acts) then buried else Datatypes.id) <$> get ml id.
Proof.
  intros Hwf Hpos T. destruct (step_tick p at_ ml Hwf) as [Hm Ha].
  destruct (step p at_ Tick ml) as [[p' ml'] acts]; cbn [fst snd] in *.
  assert (config (ticked p at_ ml) = config p) as Hc.
  { unfold ticked, check_probe_timeout, start_suspicion_timer. by repeat case_match. }
  split.
  { subst T. unfold effective_timeout. rw Hc. case_match; lia. }
  specialize (Ha id). rw (expired_timers_ticked p at_ ml id Hpos) in Ha. fold T in Ha.
  split; [by rw Ha; naive_solver|]. subst ml'. rw get_bury.
  destruct (get ml id) as [e|] eqn:Ee; simpl; [|done].
  assert (is_suspect ml id = true ↔ me_state e = Suspect) as Hs.
  { rw is_suspect_true Ee. naive_solver. }
  rw -(expired_timers_ticked p at_ ml id Hpos) in Ha.
  case_decide; case_decide; try done; naive_solver.
Qed.

(** ** Witnesses *)

Definition example_probe : SwimProbe :=
  set_suspicion_timers (new default_swim_config 0)
    [mkSuspicionTimer 2 (millis 1000); mkSuspicionTimer 3 (millis 1000)].

Lemma example_probe_wf : probe_wf example_probe.
Proof. split; vm_compute; repeat constructor; set_solver. Qed.

Lemma pick_round_complete_witness :
  (picks 2 example_probe example_list).2 ≡ₚ me_node_id <$> alive_members example_list.
Proof.
  apply (pick_round_complete example_probe example_list);
    [apply example_list_wf|vm_compute; lia].
Defined.

Lemma pick_relays_spec_witness : NoDup (pick_relays example_probe example_list 2).
Proof. apply (pick_relays_spec example_probe example_list 2), example_list_wf. Defined.

Lemma tick_declares_dead_witness :
  ActDeclareDead 3 ∈ (step example_probe (millis 50000) Tick example_list).2 ∧
  ActDeclareDead 3 ∉ (step example_probe (millis 45999) Tick example_list).2.
Proof.
  split.
  - pose proof (tick_declares_dead example_probe (millis 50000) example_list 3
      example_probe_wf ltac:(done)) as H.
    destruct (step _ _ _ _) as [[p' ml'] acts]. apply H.
    split; [done|]. exists (mkSuspicionTimer 3 (millis 1000)).
    split; [set_solver|done].
  - pose proof (tick_declares_dead example_probe (millis 45999) example_list 3
      example_probe_wf ltac:(done)) as H.
    destruct (step _ _ _ _) as [[p' ml'] acts]. cbn [snd]. rw (proj1 (proj2 H)).
    intros (_ & t & Ht & _ & Hle). revert Hle. apply elem_of_cons in Ht as [->|Ht]; [done|].
    by apply list_elem_of_singleton in Ht as ->.
Defined.
