(* ===== verification/SwimNode.v ===== *)
(** * The integrated SWIM node

    [crates/distribution/src/swim/node.rs]: the member list, the probe cycle, the
    dissemination queue and the join protocol composed.  Every handler returns
    the node and the actions for the caller to perform.  The observer is a
    trait object whose only method returns nothing: an installed observer is
    the list of what it has been shown. *)

From S2P Require Import Prelude Lww BudgetQueue Types MemberList Dissemination.
From S2P Require Import Lifeguard Probe.
#[local] Open Scope N_scope.

Abbreviation bytes := (list Byte.byte).

Inductive NodeAction :=
  | SendPing (to : NodeId) (sequence : N) (piggyback : bytes)
  | SendPingReq (relay target : NodeId) (sequence : N) (piggyback : bytes)
  | SendAck (to : NodeId) (sequence : N) (piggyback : bytes)
  | ForwardAck (to target : NodeId) (sequence : N) (piggyback : bytes)
  | SendJoinResponse (to : NodeId) (members : list NodeRecord)
  | MembershipChanged (node_id : NodeId) (state : MemberState) (incarnation : N).

Inductive SwimObservation :=
  | Transition (peer : NodeId) (from : option MemberState) (to : MemberState)
      (reason : string)
  | ObsProbeSent (target : NodeId) (sequence : N) (kind : string)
  | ObsProbeAcked (target : NodeId) (sequence : N) (kind : string)
  | ObsProbeTimedOut (target : NodeId) (sequence : N) (kind : string) (budget_ticks : N).

Definition GOSSIP_LAMBDA : nat := 3.
Definition MAX_PIGGYBACK : nat := 6.

(** The bound on [pending_relays]. *)
Definition MAX_RELAYS : nat := 16.

Record SwimNode := mkSwimNode {
  sn_members : MemberList;
  sn_probe : SwimProbe;
  dissemination : DisseminationQueue;
  max_piggyback : nat;
  pending_relays : list (NodeId * NodeId * N);
  observer : option (list SwimObservation);
  clock : N;
}.

Definition node_eta (n : SwimNode) : SwimNode :=
  mkSwimNode (sn_members n) (sn_probe n) (dissemination n) (max_piggyback n)
    (pending_relays n) (observer n) (clock n).

Definition set_sn_members (n : SwimNode) (v : MemberList) : SwimNode :=
  ltac:(update_field node_eta n sn_members v).
Definition set_sn_probe (n : SwimNode) (v : SwimProbe) : SwimNode :=
  ltac:(update_field node_eta n sn_probe v).
Definition set_dissemination (n : SwimNode) (v : DisseminationQueue) : SwimNode :=
  ltac:(update_field node_eta n dissemination v).
Definition set_pending_relays (n : SwimNode) (v : list (NodeId * NodeId * N)) : SwimNode :=
  ltac:(update_field node_eta n pending_relays v).
Definition set_observer_log (n : SwimNode) (v : option (list SwimObservation)) : SwimNode :=
  ltac:(update_field node_eta n observer v).
Definition set_clock (n : SwimNode) (v : N) : SwimNode :=
  ltac:(update_field node_eta n clock v).

Definition new (self_id : NodeId) (config : SwimConfig) (now : N) : SwimNode := {|
  sn_members := MemberList.new self_id;
  sn_probe := Probe.new config now;
  dissemination := Dissemination.new GOSSIP_LAMBDA;
  max_piggyback := MAX_PIGGYBACK;
  pending_relays := [];
  observer := None;
  clock := now;
|}.

(** [set_observer]: a fresh observer has been shown nothing. *)
Definition set_observer (n : SwimNode) : SwimNode := set_observer_log n (Some []).

Definition observe (n : SwimNode) (o : SwimObservation) : SwimNode :=
  match observer n with
  | Some log => set_observer_log n (Some (log ++ [o]))
  | None => n
  end.

Definition observe_transition (n : SwimNode) (peer : NodeId)
    (from : option MemberState) (to : MemberState) (reason : string) : SwimNode :=
  observe n (Transition peer from to reason).

Definition node_self_id (n : SwimNode) : NodeId := self_id (sn_members n).

Definition cluster_size (n : SwimNode) : nat := S (alive_count (sn_members n)).

(** [self.dissemination.enqueue(.., self.cluster_size())]. *)
Definition gossip (n : SwimNode) (u : MembershipUpdate) : SwimNode :=
  set_dissemination n (enqueue (dissemination n) u (cluster_size n)).

(** [self.members.get(&id).map(|e| e.state)]. *)
Definition state_of (n : SwimNode) (id : NodeId) : option MemberState :=
  me_state <$> get (sn_members n) id.

Definition clear_dead_member (n : SwimNode) (node_id : NodeId) : SwimNode :=
  match get (sn_members n) node_id with
  | Some entry =>
      if decide (me_state entry = Dead) then
        set_dissemination (set_sn_members n (remove (sn_members n) node_id).1)
          (purge_node (dissemination n) node_id)
      else n
  | None => n
  end.

Section handlers.
Context `{UpdateCodec}.

(** [self.dissemination.pack_piggyback(self.max_piggyback)]. *)
Definition pack (n : SwimNode) : SwimNode * bytes :=
  let r := pack_piggyback (dissemination n) (max_piggyback n) in
  (set_dissemination n r.1, r.2).

(** ** Gossip *)

Definition apply_membership_update (n : SwimNode) (update : MembershipUpdate)
    : SwimNode * list NodeAction :=
  if mu_node_id update =? self_id (sn_members n) then
    if (bool_decide (mu_state update = Suspect) || bool_decide (mu_state update = Dead))
       && (self_incarnation (sn_members n) <=? mu_incarnation update)
    then
      let '(ml, new_inc) := refute (sn_members n) in
      let n := set_sn_members n ml in
      (gossip n (membership_update (self_id (sn_members n)) Alive new_inc), [])
    else (n, [])
  else
    let prior := state_of n (mu_node_id update) in
    let '(ml, changed) :=
      apply (sn_members n) (mu_node_id update) (mu_state update) (mu_incarnation update) in
    let n := set_sn_members n ml in
    if changed then
      let n := observe_transition n (mu_node_id update) prior (mu_state update) "gossip" in
      let n :=
        if decide (mu_state update = Alive)
        then set_sn_probe n (enqueue_demand_probe (sn_probe n) (mu_node_id update))
        else n in
      let n := gossip n (membership_update (mu_node_id update) (mu_state update)
                           (mu_incarnation update)) in
      (n, [MembershipChanged (mu_node_id update) (mu_state update)
             (mu_incarnation update)])
    else (n, []).

Definition apply_piggyback (n : SwimNode) (piggyback : bytes)
    : SwimNode * list NodeAction :=
  emit_all apply_membership_update n (unpack_piggyback piggyback).

(** ** Probe actions *)

Definition translate_one (n : SwimNode) (pa : SwimAction) : SwimNode * list NodeAction :=
  match pa with
  | ActSendPing to seq =>
      let n := observe n (ObsProbeSent to seq "direct") in
      let n :=
        match get (sn_members n) to with
        | Some entry =>
            if decide (me_state entry = Dead ∨ me_state entry = Suspect)
            then gossip n (membership_update to (me_state entry) (me_incarnation entry))
            else n
        | None => n
        end in
      let '(n, pb) := pack n in
      (n, [SendPing to seq pb])
  | ActSendPingReq relay target seq =>
      let n := observe n (ObsProbeSent target seq "indirect") in
      let '(n, pb) := pack n in
      (n, [SendPingReq relay target seq pb])
  | ActSuspect node_id =>
      let prior := state_of n node_id in
      let '(ml, changed) := suspect (sn_members n) node_id in
      let n := set_sn_members n ml in
      if changed then
        let n := observe_transition n node_id prior Suspect "probe-timeout" in
        let n :=
          match get (sn_members n) node_id with
          | Some entry =>
              gossip n (membership_update node_id Suspect (me_incarnation entry))
          | None => n
          end in
        (n, [MembershipChanged node_id Suspect
               (default 0 (me_incarnation <$> get (sn_members n) node_id))])
      else (n, [])
  | ActDeclareDead node_id =>
      match get (sn_members n) node_id with
      | Some entry =>
          let n := gossip n (membership_update node_id Dead (me_incarnation entry)) in
          let n := observe_transition n node_id (Some Suspect) Dead "suspicion-timeout" in
          (n, [MembershipChanged node_id Dead (me_incarnation entry)])
      | None => (n, [])
      end
  | ActDiag (ProbeAcked target seq kind) =>
      (observe n (ObsProbeAcked target seq kind), [])
  | ActDiag (ProbeTimedOut target seq kind budget_ticks) =>
      (observe n (ObsProbeTimedOut target seq kind budget_ticks), [])
  end.

Definition translate_probe_actions (n : SwimNode) (probe_actions : list SwimAction)
    : SwimNode * list NodeAction :=
  emit_all translate_one n probe_actions.

(** [self.probe.step(..)] followed by the translation of what it returned. *)
Definition step_probe (n : SwimNode) (now : N) (event : SwimEvent)
    : SwimNode * list NodeAction :=
  let '(p, ml, probe_actions) := step (sn_probe n) now event (sn_members n) in
  translate_probe_actions (set_sn_members (set_sn_probe n p) ml) probe_actions.

(** ** Handlers *)

Definition tick (n : SwimNode) (now : N) : SwimNode * list NodeAction :=
  step_probe (set_clock n now) now Tick.

Definition handle_ping (n : SwimNode) (from : NodeId) (seq : N) (piggyback : bytes)
    : SwimNode * list NodeAction :=
  let '(n, actions) := apply_piggyback n piggyback in
  let prior := state_of n from in
  let '(ml, changed) := apply (sn_members n) from Alive 0 in
  let n := set_sn_members n ml in
  let '(n, learned) :=
    if changed then
      (observe_transition n from prior Alive "ping-received",
       [MembershipChanged from Alive 0])
    else (n, []) in
  let '(n, pb) := pack n in
  (n, actions ++ learned ++ [SendAck from seq pb]).

Definition handle_ack (n : SwimNode) (from : NodeId) (seq : N) (piggyback : bytes)
    : SwimNode * list NodeAction :=
  let '(n, actions) := apply_piggyback n piggyback in
  let '(n, probed) := step_probe n (clock n) (AckReceived from seq) in
  match list_find (λ r, r.1.2 = from ∧ r.2 = seq) (pending_relays n) with
  | Some (pos, (requester, target, s)) =>
      let n := set_pending_relays n (delete pos (pending_relays n)) in
      let '(n, pb) := pack n in
      (n, actions ++ probed ++ [ForwardAck requester target s pb])
  | None => (n, actions ++ probed)
  end.

Definition handle_ping_req (n : SwimNode) (from target : NodeId) (seq : N)
    (piggyback : bytes) : SwimNode * list NodeAction :=
  let '(n, actions) := apply_piggyback n piggyback in
  let relays :=
    if (MAX_RELAYS <=? length (pending_relays n))%nat
    then delete 0%nat (pending_relays n) else pending_relays n in
  let n := set_pending_relays n (relays ++ [(from, target, seq)]) in
  let '(n, pb) := pack n in
  (n, actions ++ [SendPing target seq pb]).

Definition report_send_failure (n : SwimNode) (target : NodeId)
    : SwimNode * list NodeAction :=
  step_probe n (clock n) (SendFailed target).

Definition handle_indirect_ack (n : SwimNode) (target : NodeId) (seq : N)
    (piggyback : bytes) : SwimNode * list NodeAction :=
  let '(n, actions) := apply_piggyback n piggyback in
  let '(n, probed) := step_probe n (clock n) (IndirectAckReceived target seq) in
  (n, actions ++ probed).

Definition handle_join_request (n : SwimNode) (from : NodeId)
    : SwimNode * list NodeAction :=
  let prior := state_of n from in
  let '(ml, changed) := apply (sn_members n) from Alive 0 in
  let n := set_sn_members n ml in
  let '(n, actions) :=
    if changed then
      let n := observe_transition n from prior Alive "join-request" in
      (gossip n (membership_update from Alive 0), [MembershipChanged from Alive 0])
    else (n, []) in
  let members :=
    snapshot (sn_members n) ++
      [mkNodeRecord (self_id (sn_members n)) Alive (self_incarnation (sn_members n))] in
  (n, actions ++ [SendJoinResponse from members]).

(** One record of a join response. *)
Definition apply_record (n : SwimNode) (record : NodeRecord)
    : SwimNode * list NodeAction :=
  let n := if decide (nr_state record = Alive)
           then clear_dead_member n (nr_node_id record) else n in
  let prior := state_of n (nr_node_id record) in
  let '(ml, changed) :=
    apply (sn_members n) (nr_node_id record) (nr_state record) (nr_incarnation record) in
  let n := set_sn_members n ml in
  if changed then
    let n := observe_transition n (nr_node_id record) prior (nr_state record)
               "join-response" in
    let n :=
      if decide (nr_state record = Alive ∧ nr_node_id record ≠ self_id (sn_members n))
      then set_sn_probe n (enqueue_demand_probe (sn_probe n) (nr_node_id record))
      else n in
    (n, [MembershipChanged (nr_node_id record) (nr_state record)
           (nr_incarnation record)])
  else (n, []).

Definition handle_join_response (n : SwimNode) (members : list NodeRecord)
    : SwimNode * list NodeAction :=
  emit_all apply_record n members.

Definition leave (n : SwimNode) : SwimNode * list NodeAction :=
  (gossip n (membership_update (self_id (sn_members n)) Dead
               (self_incarnation (sn_members n))), []).

(** ** What reaches a node

    The calls the actor makes, one per message kind. *)

Inductive NodeInput :=
  | InTick (now : N)
  | InPing (from : NodeId) (sequence : N) (piggyback : bytes)
  | InAck (from : NodeId) (sequence : N) (piggyback : bytes)
  | InPingReq (from target : NodeId) (sequence : N) (piggyback : bytes)
  | InIndirectAck (target : NodeId) (sequence : N) (piggyback : bytes)
  | InJoinRequest (from : NodeId)
  | InJoinResponse (members : list NodeRecord)
  | InSendFailed (to : NodeId)
  | InLeave.

Definition handle (n : SwimNode) (i : NodeInput) : SwimNode * list NodeAction :=
  match i with
  | InTick now => tick n now
  | InPing from seq pb => handle_ping n from seq pb
  | InAck from seq pb => handle_ack n from seq pb
  | InPingReq from target seq pb => handle_ping_req n from target seq pb
  | InIndirectAck target seq pb => handle_indirect_ack n target seq pb
  | InJoinRequest from => handle_join_request n from
  | InJoinResponse members => handle_join_response n members
  | InSendFailed to => report_send_failure n to
  | InLeave => leave n
  end.

(** A run: the node's history of inputs. *)
Definition run (n : SwimNode) (inputs : list NodeInput) : SwimNode * list NodeAction :=
  emit_all handle n inputs.
End handlers.

(** ** The node invariant *)

Record node_wf (n : SwimNode) : Prop := {
  nw_members : MemberList.wf (sn_members n);
  nw_probe : probe_wf (sn_probe n);
  nw_dissemination : Dissemination.wf (dissemination n);
  nw_relays : (length (pending_relays n) ≤ MAX_RELAYS)%nat;
}.

Lemma node_new_wf id c now : node_wf (new id c now).
Proof.
  split; simpl; [apply list_new_wf|apply probe_new_wf| |lia].
  apply queue_new_wf. unfold GOSSIP_LAMBDA; lia.
Qed.

Lemma set_sn_members_wf n ml :
  MemberList.wf ml → node_wf n → node_wf (set_sn_members n ml).
Proof. intros ? []; split; assumption. Qed.

Lemma set_sn_probe_wf n p : probe_wf p → node_wf n → node_wf (set_sn_probe n p).
Proof. intros ? []; split; assumption. Qed.

Lemma set_dissemination_wf n q :
  Dissemination.wf q → node_wf n → node_wf (set_dissemination n q).
Proof. intros ? []; split; assumption. Qed.

Lemma set_clock_wf n t : node_wf n → node_wf (set_clock n t).
Proof. intros []; split; assumption. Qed.

Lemma observe_wf n o : node_wf n → node_wf (observe n o).
Proof. intros []; unfold observe; case_match; split; assumption. Qed.

Lemma gossip_wf n u : node_wf n → node_wf (gossip n u).
Proof. intros Hn. apply set_dissemination_wf; [|done]. by apply enqueue_wf, Hn. Qed.

Lemma pack_wf `{UpdateCodec} n : node_wf n → node_wf (pack n).1.
Proof. intros Hn. apply set_dissemination_wf; [|done]. by apply pack_piggyback_wf, Hn. Qed.

Lemma clear_dead_member_wf n id : node_wf n → node_wf (clear_dead_member n id).
Proof.
  intros Hn. unfold clear_dead_member. case_match; [|done]. case_decide; [|done].
  apply set_dissemination_wf; [by apply purge_node_wf, Hn|].
  apply set_sn_members_wf; [|done]. by apply remove_wf, Hn.
Qed.
#[export] Hint Resolve nw_members nw_probe set_sn_members_wf set_sn_probe_wf
  set_clock_wf observe_wf gossip_wf pack_wf clear_dead_member_wf
  enqueue_demand_probe_wf : swactor.

Lemma observe_members n o : sn_members (observe n o) = sn_members n.
Proof. unfold observe. by case_match. Qed.

(** ** The membership stream *)

(** What a subscriber knows of the members, and how it folds the stream. *)
Abbreviation view := (gmap NodeId (MemberState * N)).

Definition announce (v : view) (a : NodeAction) : view :=
  match a with
  | MembershipChanged id s i => <[id := (s, i)]> v
  | _ => v
  end.

Definition view_of (ml : MemberList) : view :=
  (λ e, (me_state e, me_incarnation e)) <$> members ml.

(** Folding the actions of [r] turns the view before into the view after. *)
Definition mirrors (n : SwimNode) (r : SwimNode * list NodeAction) : Prop :=
  foldl announce (view_of (sn_members n)) r.2 = view_of (sn_members r.1).

Record sound (n : SwimNode) (r : SwimNode * list NodeAction) : Prop := {
  so_wf : node_wf r.1;
  so_mirrors : mirrors n r;
  so_self : node_self_id r.1 = node_self_id n;
}.

Lemma sound_seq n r r' :
  sound n r → sound r.1 r' → sound n (r'.1, r.2 ++ r'.2).
Proof.
  intros [? Hm Hs] [? Hm' Hs']. split; [done| |etrans; done].
  unfold mirrors in *; cbn [fst snd]. by rw foldl_app Hm.
Qed.

Lemma sound_emit_all {A} (f : SwimNode → A → SwimNode * list NodeAction) n xs :
  node_wf n → (∀ n x, node_wf n → sound n (f n x)) → sound n (emit_all f n xs).
Proof.
  intros Hn Hf. revert n Hn; induction xs as [|x xs IH]; intros n Hn; simpl.
  - by split.
  - pose proof (Hf n x Hn) as H. apply (sound_seq n (f n x)); [done|].
    apply IH, H.
Qed.

Lemma announce_quiet v acts :
  (∀ id s i, MembershipChanged id s i ∉ acts) → foldl announce v acts = v.
Proof.
  induction acts as [|a acts IH]; intros Ha; simpl; [done|].
  destruct a; simpl; try (apply IH; set_solver). set_solver.
Qed.

(** A handler that leaves the members alone announces nothing. *)
Lemma sound_quiet n n' acts :
  node_wf n' → members (sn_members n') = members (sn_members n) →
  node_self_id n' = node_self_id n →
  (∀ id s i, MembershipChanged id s i ∉ acts) → sound n (n', acts).
Proof.
  intros Hn Hm Hs Ha. split; [done| |done].
  unfold mirrors, view_of; simpl. by rw Hm announce_quiet.
Qed.

Lemma view_of_insert ml id e :
  view_of (set_members ml (<[id := e]> (members ml))) =
    <[id := (me_state e, me_incarnation e)]> (view_of ml).
Proof. unfold view_of; simpl. by rw fmap_insert. Qed.

Lemma apply_view ml id s i :
  MemberList.wf ml →
  view_of (apply ml id s i).1 =
    if (apply ml id s i).2 then <[id := (s, i)]> (view_of ml) else view_of ml.
Proof.
  intros Hwf. unfold apply. repeat case_match; cbn [fst snd]; rw ?view_of_insert //=.
  by bool_to_prop; destruct_and?; subst.
Qed.

(** A handler that merges one claim and announces it when the merge says so. *)
Lemma sound_apply n n' id s i acts :
  node_wf n → node_wf n' →
  sn_members n' = (apply (sn_members n) id s i).1 →
  acts = (if (apply (sn_members n) id s i).2 then [MembershipChanged id s i] else []) →
  sound n (n', acts).
Proof.
  intros Hn Hn' Hm ->. split; [done| |unfold node_self_id; by rw /= Hm apply_self_id].
  unfold mirrors; simpl. rw Hm apply_view; [by apply Hn|]. by case_match.
Qed.

Section soundness.
Context `{UpdateCodec}.

(** Solve the side conditions of the soundness lemmas. *)
Ltac quiet :=
  unfold observe_transition, node_self_id; simpl;
  rw ?observe_members /=; try done; try set_solver; auto 8 with swactor.

Lemma apply_membership_update_sound n u :
  node_wf n → sound n (apply_membership_update n u).
Proof.
  intros Hn. unfold apply_membership_update. case_match eqn:Eself.
  { case_match; apply sound_quiet; try by quiet.
    apply gossip_wf, set_sn_members_wf; [|done]. by apply (refute_wf (sn_members n)), Hn. }
  destruct (apply (sn_members n) _ _ _) as [ml changed] eqn:Ea.
  assert (MemberList.wf ml) as Hml.
  { rw -[ml]/((ml, changed).1) -Ea. auto with swactor. }
  destruct changed; (apply (sound_apply n _ (mu_node_id u) (mu_state u)
    (mu_incarnation u)); [done|..|by rw Ea]); try (rw Ea; case_decide; by quiet).
  - apply gossip_wf. case_decide; quiet.
  - quiet.
  - by rw Ea.
Qed.

Lemma pack_sound n x :
  node_wf n → (∀ id s i, x ≠ MembershipChanged id s i) → sound n ((pack n).1, [x]).
Proof. intros ? Hx. apply sound_quiet; [by apply pack_wf|done..|set_solver]. Qed.

Lemma pack_members n : sn_members (pack n).1 = sn_members n.
Proof. done. Qed.

Lemma apply_piggyback_sound n pb : node_wf n → sound n (apply_piggyback n pb).
Proof. intros. apply sound_emit_all; [done|]. apply apply_membership_update_sound. Qed.

Lemma handle_ping_sound n from seq pb : node_wf n → sound n (handle_ping n from seq pb).
Proof.
  intros Hn. unfold handle_ping.
  pose proof (apply_piggyback_sound n pb Hn) as H1.
  destruct (apply_piggyback n pb) as [n1 a1]; simpl in H1.
  pose proof (so_wf _ _ H1) as Hn1; simpl in Hn1.
  destruct (apply (sn_members n1) _ _ _) as [ml changed] eqn:Ea.
  assert (MemberList.wf ml) as Hml.
  { rw -[ml]/((ml, changed).1) -Ea. auto with swactor. }
  set (r := if changed then _ else _).
  assert (sound n1 r) as H2.
  { subst r. destruct changed;
      (apply (sound_apply n1 _ from Alive 0); [done|..|by rw Ea]); quiet; by rw Ea. }
  pose proof (so_wf _ _ H2) as Hn2. destruct r as [n2 a2]; simpl in Hn2.
  apply (sound_seq n (n1, a1) (_, a2 ++ _)); [done|].
  apply (sound_seq n1 (n2, a2) (_, [_])); [done|].
  by apply (pack_sound n2).
Qed.

(** *** Probe steps *)

Lemma bury_wf ml ids : MemberList.wf ml → MemberList.wf (bury ml ids).
Proof.
  intros Hwf. split.
  - intros i e. change (members (bury ml ids) !! i) with (get (bury ml ids) i).
    rw get_bury. intros (e' & He & ->)%fmap_Some.
    pose proof (wf_key _ Hwf _ _ He). by case_decide.
  - change (get (bury ml ids) (self_id ml) = None).
    rw get_bury. unfold get. by rw wf_self.
Qed.

Lemma step_members p at_ ev ml :
  ev ≠ Tick → (step p at_ ev ml).1.2 = ml ∧ no_death (step p at_ ev ml).2.
Proof.
  destruct ev; [done|..]; intros _; simpl;
    unfold Probe.handle_ack, Probe.handle_indirect_ack, handle_send_failed,
      complete_probe, start_probe_for;
    repeat case_match; simplify_eq/=; auto with swactor.
Qed.

Lemma step_members_wf p at_ ev ml :
  probe_wf p → MemberList.wf ml → MemberList.wf (step p at_ ev ml).1.2.
Proof.
  intros Hp Hml. destruct (decide (ev = Tick)) as [->|Hev].
  - destruct (step_tick p at_ ml Hp) as [-> _]. by apply bury_wf.
  - by destruct (step_members p at_ ev ml Hev) as [-> _].
Qed.

(** A death that the probe has already entered in the member list and whose
    action is still to be translated. *)
Definition dying (ml : MemberList) (acts : list SwimAction) : Prop :=
  ∀ id, ActDeclareDead id ∈ acts → ∃ e, get ml id = Some e ∧ me_state e = Dead.

(** Actions other than [ActSuspect] and [ActDeclareDead] leave the members. *)
Lemma translate_one_quiet n pa :
  node_wf n → (∀ x, pa ≠ ActSuspect x ∧ pa ≠ ActDeclareDead x) →
  let r := translate_one n pa in
  node_wf r.1 ∧ sn_members r.1 = sn_members n ∧
  ∀ id s i, MembershipChanged id s i ∉ r.2.
Proof.
  intros Hn Hpa. destruct pa as [to seq|relay target seq|x|x|diag].
  - cbn [translate_one]. set (n' := match get _ to with Some _ => _ | None => _ end).
    assert (node_wf n' ∧ sn_members n' = sn_members n) as [Hn' Hm].
    { subst n'. repeat case_match; simpl; rw ?observe_members; auto with swactor. }
    split_and!; [by apply (pack_wf n')|exact Hm|set_solver].
  - split_and!; [apply (pack_wf (observe _ _)); auto with swactor| |set_solver].
    by rw /= observe_members.
  - by destruct (Hpa x).
  - by destruct (Hpa x).
  - destruct diag; simpl; rw observe_members; split_and!; auto with swactor; set_solver.
Qed.

(** The actions [acts] remain to be translated and the view [v] lags behind the
    members only on the deaths among them. *)
Record lagging (n : SwimNode) (acts : list SwimAction) (v : view) : Prop := {
  lg_wf : node_wf n;
  lg_dying : dying (sn_members n) acts;
  lg_view id : ActDeclareDead id ∉ acts → v !! id = view_of (sn_members n) !! id;
}.

Lemma lookup_view ml id :
  view_of ml !! id = (λ e, (me_state e, me_incarnation e)) <$> get ml id.
Proof. apply lookup_fmap. Qed.

Lemma translate_suspect n x acts v :
  lagging n (ActSuspect x :: acts) v →
  let r := translate_one n (ActSuspect x) in
  lagging r.1 acts (foldl announce v r.2) ∧ node_self_id r.1 = node_self_id n.
Proof.
  intros [Hn Hd Hv]. cbn [translate_one]. unfold suspect.
  pose proof (move_state_changed Alive Suspect (sn_members n) x) as Hc.
  pose proof (move_state_get Alive Suspect (sn_members n) x) as Hget.
  pose proof (move_state_wf Alive Suspect (sn_members n) x (nw_members _ Hn)) as Hml.
  pose proof (move_state_ids Alive Suspect (sn_members n) x) as [Hid _].
  destruct (move_state Alive Suspect (sn_members n) x) as [ml changed]; cbn [fst snd] in *.
  assert (dying ml acts) as Hd'.
  { intros id Hin. destruct (Hd id) as (e & He & Hs); [by right|].
    exists e. rw Hget He; cbn -[decide]. split; [|done].
    case_decide as Hx; [|done]. destruct Hx; congruence. }
  assert (∀ id, id ≠ x ∨ changed = false → ActDeclareDead id ∉ acts →
    v !! id = view_of ml !! id) as Hv'.
  { intros id Hx Hin. rw (Hv id); [set_solver|]. rw !lookup_view Hget.
    destruct (get (sn_members n) id) as [e|] eqn:E; cbn -[decide]; [|done].
    case_decide as Hdec; [|done]. destruct Hdec as [-> ?].
    destruct Hx as [?| ->]; [done|]. destruct Hc as [_ Hc]. naive_solver. }
  destruct changed; cbn [fst snd]; last first.
  { split; [split|done]; [auto with swactor|done|]. intros; apply Hv'; auto. }
  destruct (proj1 Hc eq_refl) as (e & He & Hs).
  assert (get ml x = Some (mkMemberEntry (me_node_id e) Suspect (me_incarnation e))) as Hx.
  { rw Hget He; cbn -[decide]. by case_decide; [|naive_solver]. }
  unfold observe_transition, node_self_id; rw !observe_members.
  cbn [sn_members set_sn_members]. rw Hx. cbn [gossip set_dissemination sn_members].
  rw !observe_members. cbn [sn_members set_sn_members]. rw Hx /=. split; [split|done].
  - apply gossip_wf. auto with swactor.
  - simpl. by rw observe_members.
  - intros id Hin. simpl. rw observe_members /= lookup_insert.
    case_decide; [subst id; by rw lookup_view Hx|]. by apply Hv'; auto.
Qed.

Lemma translate_dead n x acts v :
  lagging n (ActDeclareDead x :: acts) v →
  let r := translate_one n (ActDeclareDead x) in
  lagging r.1 acts (foldl announce v r.2) ∧ node_self_id r.1 = node_self_id n.
Proof.
  intros [Hn Hd Hv]. destruct (Hd x) as (e & He & Hs); [by left|].
  cbn [translate_one]. rw He. unfold observe_transition, node_self_id; cbn [fst snd].
  rw observe_members. split; [split|done].
  - auto with swactor.
  - rw observe_members. intros id Hin. apply Hd. by right.
  - intros id Hin. rw observe_members /= lookup_insert. case_decide as Hx.
    + subst id. by rw lookup_view He /= Hs.
    + apply Hv. set_solver.
Qed.

Lemma translate_one_lagging n pa acts v :
  lagging n (pa :: acts) v →
  let r := translate_one n pa in
  lagging r.1 acts (foldl announce v r.2) ∧ node_self_id r.1 = node_self_id n.
Proof.
  intros Hl. assert ((∃ x, pa = ActSuspect x ∨ pa = ActDeclareDead x) ∨
    ∀ x, pa ≠ ActSuspect x ∧ pa ≠ ActDeclareDead x) as [(x & [-> | ->])|Hpa]
    by (destruct pa; eauto).
  - by apply translate_suspect.
  - by apply translate_dead.
  - destruct Hl as [Hn Hd Hv]. destruct (translate_one_quiet n pa Hn Hpa) as (? & Hm & Hq).
    cbn zeta. rw (announce_quiet v _ Hq). unfold node_self_id. rw Hm.
    split; [split|done]; [done|..]; rw Hm; intros id Hid; [apply Hd|apply Hv]; set_solver.
Qed.

Lemma translate_lagging n acts v :
  lagging n acts v →
  let r := translate_probe_actions n acts in
  lagging r.1 [] (foldl announce v r.2) ∧ node_self_id r.1 = node_self_id n.
Proof.
  revert n v; induction acts as [|pa acts IH]; intros n v Hl; [done|].
  destruct (translate_one_lagging n pa acts v Hl) as [Hl' Hs].
  destruct (IH _ _ Hl') as [Hl'' Hs']. cbn -[translate_one announce].
  rw foldl_app. split; [done|]. by etrans.
Qed.

(** When the probe returns, the members differ from before exactly by the deaths
    it is about to report. *)
Lemma step_lagging n now ev :
  node_wf n →
  let '(p, ml, acts) := step (sn_probe n) now ev (sn_members n) in
  lagging (set_sn_members (set_sn_probe n p) ml) acts (view_of (sn_members n)).
Proof.
  intros Hn. pose proof (nw_probe _ Hn) as Hp. pose proof (nw_members _ Hn) as Hm.
  pose proof (step_wf (sn_probe n) now ev (sn_members n) Hp) as Hp'.
  pose proof (step_members_wf (sn_probe n) now ev (sn_members n) Hp Hm) as Hml'.
  destruct (decide (ev = Tick)) as [->|Hev].
  - destruct (step_tick (sn_probe n) now (sn_members n) Hp) as [E Ha].
    destruct (step _ _ _ _) as [[p ml] acts]; cbn [fst snd] in *.
    split; [auto with swactor|..]; cbn [sn_members set_sn_members]; rw E.
    + intros id Hin. apply Ha in Hin as [Hin (e & He & Hs)%is_suspect_true].
      exists (buried e). rw get_bury He; cbn -[decide]. by case_decide; [|naive_solver].
    + intros id Hin. rw !lookup_view get_bury.
      destruct (get (sn_members n) id) as [e|] eqn:Ee; cbn -[decide]; [|done].
      case_decide as Hd; [|done]. destruct Hin. apply Ha. destruct Hd.
      split; [done|]. apply is_suspect_true. eauto.
  - destruct (step_members (sn_probe n) now ev (sn_members n) Hev) as [E Ha].
    destruct (step _ _ _ _) as [[p ml] acts]; cbn [fst snd] in *. subst ml.
    split; [auto with swactor| |done]. intros id Hin. by destruct (Ha id).
Qed.

Lemma step_probe_sound n now ev : node_wf n → sound n (step_probe n now ev).
Proof.
  intros Hn. unfold step_probe. pose proof (step_lagging n now ev Hn) as Hl.
  assert (self_id (step (sn_probe n) now ev (sn_members n)).1.2 = node_self_id n) as Hid.
  { destruct (decide (ev = Tick)) as [->|Hev].
    - by destruct (step_tick (sn_probe n) now (sn_members n) (nw_probe _ Hn)) as [-> _].
    - by destruct (step_members (sn_probe n) now ev (sn_members n) Hev) as [-> _]. }
  destruct (step _ _ _ _) as [[p ml] acts]; cbn [fst snd] in Hid.
  destruct (translate_lagging _ _ _ Hl) as [[Hwf _ Hv] Hs].
  split; [done| |by rw Hs]. apply map_eq. intros id. apply Hv. set_solver.
Qed.

Lemma tick_sound n now : node_wf n → sound n (tick n now).
Proof.
  intros Hn. destruct (step_probe_sound (set_clock n now) now Tick
    (set_clock_wf n now Hn)) as [???]. by split.
Qed.

(** *** The handlers *)

Lemma handle_ack_sound n from seq pb : node_wf n → sound n (handle_ack n from seq pb).
Proof.
  intros Hn. unfold handle_ack.
  pose proof (apply_piggyback_sound n pb Hn) as H1.
  destruct (apply_piggyback n pb) as [n1 a1].
  pose proof (step_probe_sound n1 (clock n1) (AckReceived from seq) (so_wf _ _ H1)) as H2.
  destruct (step_probe _ _ _) as [n2 a2].
  destruct (list_find _ _) as [[pos [[req t] s]]|] eqn:Ef;
    [|by apply (sound_seq n (n1, a1) (n2, a2))].
  apply (sound_seq n (n1, a1) (_, a2 ++ _)); [done|].
  apply (sound_seq n1 (n2, a2) (_, [_])); [done|].
  pose proof (so_wf _ _ H2) as Hn2; cbn [fst] in *.
  assert (sound n2 (set_pending_relays n2 (delete pos (pending_relays n2)), [])) as H3.
  { apply sound_quiet; try done; [|set_solver]. destruct Hn2 as [???Hr].
    split; try done; simpl. apply list_find_Some in Ef as (Hpos & _ & _).
    rw length_delete; [by eexists|lia]. }
  apply (sound_seq n2 _ ((pack (set_pending_relays n2 _)).1, [_]) H3). apply pack_sound; [apply H3|done].
Qed.

Lemma handle_ping_req_sound n from target seq pb :
  node_wf n → sound n (handle_ping_req n from target seq pb).
Proof.
  intros Hn. unfold handle_ping_req.
  pose proof (apply_piggyback_sound n pb Hn) as H1.
  destruct (apply_piggyback n pb) as [n1 a1].
  apply (sound_seq n (n1, a1) (_, [_])); [done|].
  pose proof (so_wf _ _ H1) as Hn1; cbn [fst] in *.
  set (relays := if (MAX_RELAYS <=? _)%nat then _ else _).
  assert (sound n1 (set_pending_relays n1 (relays ++ [(from, target, seq)]), [])) as H3.
  { apply sound_quiet; try done; [|set_solver]. destruct Hn1 as [???Hr].
    split; try done; cbn [pending_relays set_pending_relays]. rw length_app. subst relays.
    destruct (MAX_RELAYS <=? length (pending_relays n1))%nat eqn:E; bool_to_prop;
      [|simpl; lia].
    destruct (pending_relays n1); simpl in *; unfold MAX_RELAYS in *; lia. }
  apply (sound_seq n1 _ ((pack (set_pending_relays n1 _)).1, [_]) H3). apply pack_sound; [apply H3|done].
Qed.

Lemma handle_indirect_ack_sound n target seq pb :
  node_wf n → sound n (handle_indirect_ack n target seq pb).
Proof.
  intros Hn. unfold handle_indirect_ack.
  pose proof (apply_piggyback_sound n pb Hn) as H1.
  destruct (apply_piggyback n pb) as [n1 a1].
  pose proof (step_probe_sound n1 (clock n1) (IndirectAckReceived target seq)
    (so_wf _ _ H1)) as H2.
  destruct (step_probe _ _ _) as [n2 a2]. by apply (sound_seq n (n1, a1) (n2, a2)).
Qed.

Lemma handle_join_request_sound n from : node_wf n → sound n (handle_join_request n from).
Proof.
  intros Hn. unfold handle_join_request.
  destruct (apply (sn_members n) _ _ _) as [ml changed] eqn:Ea.
  assert (MemberList.wf ml) as Hml.
  { rw -[ml]/((ml, changed).1) -Ea. auto with swactor. }
  set (r := if changed then _ else _).
  assert (sound n r) as H2.
  { subst r. destruct changed;
      (apply (sound_apply n _ from Alive 0); [done|..|by rw Ea]); quiet; by rw Ea. }
  destruct r as [n2 a2]. apply (sound_seq n (n2, a2) (_, [_])); [done|].
  apply sound_quiet; [apply H2|done|done|set_solver].
Qed.

(** A dead member is removed only by a record that brings it back, so its removal
    needs no announcement of its own. *)
Lemma cleared_apply_view n id s i :
  node_wf n →
  let n1 := if decide (s = Alive) then clear_dead_member n id else n in
  view_of (apply (sn_members n1) id s i).1 =
    if (apply (sn_members n1) id s i).2
    then <[id := (s, i)]> (view_of (sn_members n)) else view_of (sn_members n).
Proof.
  intros Hn. cbn zeta. case_decide; [|by apply apply_view, Hn].
  unfold clear_dead_member. destruct (get (sn_members n) id) as [e|] eqn:E;
    [case_decide|]; try by apply apply_view, Hn.
  unfold get in E. cbn [sn_members set_sn_members set_dissemination remove fst].
  unfold apply; cbn [self_id set_members members].
  destruct (id =? self_id (sn_members n)) eqn:Eid; bool_to_prop.
  { subst id. by rw (wf_self _ (nw_members _ Hn)) in E. }
  rw lookup_delete_eq /=. unfold view_of; simpl.
  by rw fmap_insert fmap_delete insert_delete_eq.
Qed.

Lemma clear_dead_member_self n id : node_self_id (clear_dead_member n id) = node_self_id n.
Proof. unfold clear_dead_member. by repeat case_match. Qed.

Lemma apply_record_sound n r : node_wf n → sound n (apply_record n r).
Proof.
  intros Hn. unfold apply_record.
  pose proof (cleared_apply_view n (nr_node_id r) (nr_state r) (nr_incarnation r) Hn) as Hv.
  cbn zeta in Hv. set (n1 := if decide (nr_state r = Alive) then _ else n) in *.
  assert (node_wf n1 ∧ node_self_id n1 = node_self_id n) as [Hn1 Hs].
  { subst n1. case_decide; [|done]. rw clear_dead_member_self. auto with swactor. }
  pose proof (apply_wf (sn_members n1) (nr_node_id r) (nr_state r) (nr_incarnation r)
    (nw_members _ Hn1)) as Hml.
  pose proof (apply_self_id (sn_members n1) (nr_node_id r) (nr_state r)
    (nr_incarnation r)) as Hid.
  destruct (apply (sn_members n1) _ _ _) as [ml changed]; cbn [fst snd] in *.
  destruct changed.
  - set (n2 := observe_transition _ _ _ _ _).
    assert (node_wf n2 ∧ sn_members n2 = ml) as [Hn2 Hm2].
    { subst n2. unfold observe_transition. rw observe_members. auto with swactor. }
    case_decide; (split; [quiet| |unfold node_self_id; rw /= Hm2 Hid //]);
      unfold mirrors; by rw /= Hm2 Hv.
  - split; [quiet| |by rw -Hs; exact Hid]. unfold mirrors. by rw /= Hv.
Qed.

Lemma handle_join_response_sound n rs : node_wf n → sound n (handle_join_response n rs).
Proof. intros. apply sound_emit_all; [done|]. apply apply_record_sound. Qed.

Lemma leave_sound n : node_wf n → sound n (leave n).
Proof. intros. apply sound_quiet; quiet. Qed.

Lemma handle_sound n i : node_wf n → sound n (handle n i).
Proof.
  intros Hn. destruct i; simpl;
    eauto using tick_sound, handle_ping_sound, handle_ack_sound, handle_ping_req_sound,
      handle_indirect_ack_sound, handle_join_request_sound, handle_join_response_sound,
      step_probe_sound, leave_sound.
Qed.

Lemma run_sound n inputs : node_wf n → sound n (run n inputs).
Proof. intros. apply sound_emit_all; [done|]. apply handle_sound. Qed.
End soundness.

(** ** Observation has no protocol effect *)

Definition unobserved (n : SwimNode) : SwimNode := set_observer_log n None.

(** [f] computes the same on a node whether or not it is observed. *)
Definition oblivious {A} (f : SwimNode → A → SwimNode * list NodeAction) : Prop :=
  ∀ n x, f (unobserved n) x = (unobserved (f n x).1, (f n x).2).

Lemma unobserved_observe n o : unobserved (observe n o) = unobserved n.
Proof. unfold observe. by case_match. Qed.

Lemma emit_all_oblivious {A} (f : SwimNode → A → SwimNode * list NodeAction) :
  oblivious f → oblivious (emit_all f).
Proof.
  intros Hf n xs. revert n; induction xs as [|x xs IH]; intros n; simpl; [done|].
  by rw Hf /= IH.
Qed.

Section oblivious.
Context `{UpdateCodec}.

Lemma apply_membership_update_oblivious : oblivious apply_membership_update.
Proof.
  intros n u. unfold apply_membership_update, observe_transition, observe, gossip.
  simpl. repeat case_match; simplify_eq/=; done.
Qed.

Lemma apply_piggyback_oblivious : oblivious apply_piggyback.
Proof. intros n pb. apply emit_all_oblivious, apply_membership_update_oblivious. Qed.

Lemma translate_one_oblivious : oblivious translate_one.
Proof.
  intros n pa. destruct pa as [to seq|relay target seq|x|x|diag].
  - cbn [translate_one]. rw -(unobserved_observe n (ObsProbeSent to seq "direct")).
    set (n' := observe n _). change (observe (unobserved n') _) with (unobserved n').
    change (sn_members (unobserved n')) with (sn_members n').
    destruct (get (sn_members n') to); [case_decide|]; done.
  - cbn [translate_one]. by rw -(unobserved_observe n (ObsProbeSent target seq "indirect")).
  - cbn [translate_one]. change (state_of (unobserved n) x) with (state_of n x).
    change (sn_members (unobserved n)) with (sn_members n).
    destruct (suspect _ _) as [ml []]; [|done]. unfold observe_transition.
    set (n' := set_sn_members n ml).
    change (set_sn_members (unobserved n) ml) with (unobserved n').
    set (o := Transition _ _ _ _). rw -(unobserved_observe n' o).
    set (n2 := observe n' o). change (observe (unobserved n2) o) with (unobserved n2).
    change (sn_members (unobserved n2)) with (sn_members n2).
    by destruct (get (sn_members n2) x).
  - cbn [translate_one]. change (sn_members (unobserved n)) with (sn_members n).
    destruct (get (sn_members n) x); [|done]. unfold observe_transition.
    by rw unobserved_observe.
  - destruct diag; simpl; by rw unobserved_observe.
Qed.

Lemma step_probe_oblivious n now ev :
  step_probe (unobserved n) now ev =
    (unobserved (step_probe n now ev).1, (step_probe n now ev).2).
Proof.
  unfold step_probe. simpl. destruct (step _ _ _ _) as [[p ml] acts].
  apply (emit_all_oblivious _ translate_one_oblivious (set_sn_members (set_sn_probe n p) ml)).
Qed.

Lemma apply_record_oblivious : oblivious apply_record.
Proof.
  intros n r. unfold apply_record.
  set (n1 := if decide (nr_state r = Alive) then clear_dead_member n _ else n).
  assert ((if decide (nr_state r = Alive)
           then clear_dead_member (unobserved n) (nr_node_id r) else unobserved n) =
          unobserved n1) as ->.
  { subst n1. case_decide; [|done]. unfold clear_dead_member.
    change (sn_members (unobserved n)) with (sn_members n).
    by destruct (get (sn_members n) _); [case_decide|]. }
  change (state_of (unobserved n1) _) with (state_of n1 (nr_node_id r)).
  change (sn_members (unobserved n1)) with (sn_members n1).
  destruct (apply _ _ _ _) as [ml []]; [|done].
  unfold observe_transition, observe; simpl.
  by destruct (observer n1); simpl; case_decide.
Qed.

Lemma handle_oblivious : oblivious handle.
Proof.
  intros n i. destruct i as [now|from seq pb|from seq pb|from t seq pb|t seq pb|from|rs|to|];
    simpl.
  - exact (step_probe_oblivious (set_clock n now) now Tick).
  - unfold handle_ping. rw apply_piggyback_oblivious.
    destruct (apply_piggyback n pb) as [n1 a1]; cbn [fst snd].
    unfold observe_transition.
    change (state_of (unobserved n1) from) with (state_of n1 from).
    change (sn_members (unobserved n1)) with (sn_members n1).
    destruct (apply _ _ _ _) as [ml []]; [|done].
    unfold observe; simpl. by destruct (observer n1).
  - unfold handle_ack. rw apply_piggyback_oblivious.
    destruct (apply_piggyback n pb) as [n1 a1]; cbn [fst snd].
    rw step_probe_oblivious. change (clock (unobserved n1)) with (clock n1).
    destruct (step_probe n1 _ _) as [n2 a2]; cbn [fst snd].
    change (pending_relays (unobserved n2)) with (pending_relays n2).
    by destruct (list_find _ _) as [[pos [[req t] s]]|].
  - unfold handle_ping_req. rw apply_piggyback_oblivious.
    by destruct (apply_piggyback n pb) as [n1 a1].
  - unfold handle_indirect_ack. rw apply_piggyback_oblivious.
    destruct (apply_piggyback n pb) as [n1 a1]; cbn [fst snd].
    rw step_probe_oblivious. by destruct (step_probe n1 _ _).
  - unfold handle_join_request, observe_transition.
    change (state_of (unobserved n) from) with (state_of n from).
    change (sn_members (unobserved n)) with (sn_members n).
    destruct (apply _ _ _ _) as [ml []]; [|done].
    unfold observe; simpl. by destruct (observer n).
  - apply (emit_all_oblivious _ apply_record_oblivious).
  - apply step_probe_oblivious.
  - done.
Qed.
End oblivious.

(** ** Properties of runs *)

(** C16. The membership stream is complete and exact: whatever inputs a node handles, a
    subscriber that folds the [MembershipChanged] actions emitted since the start holds
    exactly the node's member list (every member, state and incarnation), and the node
    never lists itself. *)
Theorem membership_stream_mirrors `{UpdateCodec} id c now inputs :
  let r := run (new id c now) inputs in
  foldl announce ∅ r.2 = view_of (sn_members r.1) ∧
  get (sn_members r.1) id = None.
Proof.
  destruct (run_sound (new id c now) inputs (node_new_wf id c now)) as [Hwf Hm Hs].
  split.
  - unfold mirrors, view_of in Hm; simpl in Hm. by rw fmap_empty in Hm.
  - change (node_self_id (new id c now)) with id in Hs. unfold get.
    rw -[X in _ !! X]Hs. apply wf_self, Hwf.
Qed.

(** Observation has no protocol effect: a node with an observer installed performs the
    same actions as one without, and ends in the same state but for the observer itself. *)
Theorem observer_has_no_effect `{UpdateCodec} n inputs :
  (run (set_observer n) inputs).2 = (run (unobserved n) inputs).2 ∧
  unobserved (run (set_observer n) inputs).1 = (run (unobserved n) inputs).1.
Proof.
  pose proof (emit_all_oblivious _ handle_oblivious (set_observer n) inputs) as E.
  change (unobserved (set_observer n)) with (unobserved n) in E.
  unfold run. by rw E.
Qed.
