(* ===== verification/FailureDetection.v ===== *)
(** * Failure detection and recovery

    What the composition of [swim/node.rs], [swim/probe.rs] and
    [swim/member_list.rs] promises over time: an unresponsive member is declared
    dead within a bounded delay, a false suspicion is refuted end to end, and
    knowledge about members only grows. *)

From S2P Require Import Prelude Lww BudgetQueue Types MemberList Dissemination.
From S2P Require Import Lifeguard Probe SwimNode.
#[local] Open Scope N_scope.

(** ** What a tick leaves alone *)

(** The fields of the probe that target selection does not touch. *)
Record same_core (p p' : SwimProbe) : Prop := {
  sc_config : config p' = config p;
  sc_now : now p' = now p;
  sc_timers : suspicion_timers p' = suspicion_timers p;
  sc_health : health p' = health p;
  sc_phase : phase p ≠ Idle → phase p' = phase p;
}.

Lemma same_core_refl p : same_core p p.
Proof. by split. Qed.

Lemma same_core_trans p q r : same_core p q → same_core q r → same_core p r.
Proof.
  intros [???? H1] [???? H2]. split; try congruence. intros Hp.
  specialize (H1 Hp). rw H2; congruence.
Qed.

Lemma pick_core p ml : same_core p (pick_probe_target p ml).1.
Proof.
  destruct (decide (alive_members ml = [])) as [E|Hne].
  - by rw pick_none.
  - by destruct (pick_probe_target_in_bounds p ml Hne) as (t & _ & ->).
Qed.

Lemma start_probe_core p t : phase p = Idle → same_core p (start_probe_for p t).1.
Proof. intros E. by split. Qed.

Lemma maybe_start_probe_core p ml : same_core p (maybe_start_probe p ml).1.
Proof.
  unfold maybe_start_probe. destruct (not_due _ _); [done|].
  destruct (phase p) eqn:E; try done.
  set (p1 := set_next_probe_at _ _). pose proof (pick_core p1 (clone_shallow ml)) as [].
  destruct (pick_probe_target _ _) as [p2 [t|]]; simpl in *; split; simpl; try done;
    by rw E.
Qed.

Lemma demand_core p : same_core p (maybe_start_demand_probe p).1.
Proof.
  unfold maybe_start_demand_probe. destruct (phase p) eqn:E; try done.
  destruct (demand_queue p); [done|]. by split.
Qed.

Lemma sweep_core p ml : same_core p (maybe_safety_sweep p ml).1.
Proof.
  unfold maybe_safety_sweep. destruct (not_due _ _); [done|].
  destruct (probe_mode _) as [|interval]; [done|].
  set (p1 := set_next_sweep_at _ _). pose proof (pick_core p1 (clone_shallow ml)) as [].
  destruct (phase p1) eqn:E; try by split.
  destruct (pick_probe_target _ _) as [p2 [t|]]; simpl in *; split; simpl; try done;
    by rw E.
Qed.

Lemma tick_probe_core p ml : same_core p (tick_probe p ml).1.
Proof.
  unfold tick_probe. destruct (probe_mode _); [apply maybe_start_probe_core|].
  pose proof (demand_core p) as H1. destruct (maybe_start_demand_probe p) as [p1 a1].
  pose proof (sweep_core p1 ml) as H2. destruct (maybe_safety_sweep p1 ml) as [p2 a2].
  by eapply same_core_trans.
Qed.

Lemma reprobe_core p ml : same_core p (maybe_reprobe_dead p ml).1.
Proof.
  unfold maybe_reprobe_dead, next_sequence. repeat case_match; simplify_eq/=; by split.
Qed.

(** The probe after a tick, from the state [ticked] in which the suspicion timers
    are examined. *)
Lemma tick_frame p at_ ml :
  probe_wf p →
  let q := ticked p at_ ml in
  let p' := (step p at_ Tick ml).1.1 in
  suspicion_timers p' =
    filter (λ t, st_node_id t ∉ expired_timers q ml) (suspicion_timers q) ∧
  config p' = config q ∧ now p' = now q ∧ health p' = health q ∧
  ∀ x, phase_target (phase q) = Some x →
    x ∉ expired_timers q ml ∨ is_suspect ml x = false → phase p' = phase q.
Proof.
  intros Hwf. cbn zeta. unfold step.
  pose proof (ticked_wf p at_ ml Hwf) as Hwf'. unfold ticked in *.
  destruct (check_probe_timeout _ ml) as [q a1]; cbn [fst snd] in *.
  unfold check_suspicion_timeouts.
  destruct (expire_all q ml [] (expired_timers q ml) (expired_timers_nodup q ml Hwf'))
    as (p2 & -> & Ht & Hn & Hc & Hh & Hp).
  pose proof (tick_probe_core p2 (bury ml (expired_timers q ml))) as H3.
  destruct (tick_probe p2 _) as [p3 a3]; cbn [fst snd] in *.
  pose proof (reprobe_core p3 (bury ml (expired_timers q ml))) as H4.
  destruct (maybe_reprobe_dead p3 _) as [p4 a4]; cbn [fst snd] in *.
  destruct (same_core_trans _ _ _ H3 H4) as [E1 E2 E3 E4 E5].
  split_and!; try congruence. intros x Hx Hno.
  destruct Hp as [Hp|(_ & y & Hy & Hin & Hs)].
  - rw E5 //. rw Hp. by destruct (phase q).
  - simplify_eq. destruct Hno; [done|congruence].
Qed.

(** ** What a tick does to one member *)

Section detection.
Context `{UpdateCodec}.

Lemma translate_one_probe n pa : sn_probe (translate_one n pa).1 = sn_probe n.
Proof.
  destruct pa as [| | | |[]]; unfold translate_one, observe_transition, observe, gossip, pack;
    repeat case_match; simplify_eq/=; done.
Qed.

Lemma translate_probe n acts : sn_probe (translate_probe_actions n acts).1 = sn_probe n.
Proof.
  revert n; induction acts as [|pa acts IH]; intros n; [done|].
  etrans; [apply IH|]. apply translate_one_probe.
Qed.

(** Translating actions changes the state of a member only to suspect it. *)
Lemma translate_one_state n pa x :
  node_wf n →
  state_of (translate_one n pa).1 x =
    if decide (pa = ActSuspect x ∧ state_of n x = Some Alive) then Some Suspect
    else state_of n x.
Proof.
  intros Hn. assert ((∃ y, pa = ActSuspect y) ∨ (∃ y, pa = ActDeclareDead y) ∨
    ∀ y, pa ≠ ActSuspect y ∧ pa ≠ ActDeclareDead y) as [[y ->]|[[y ->]|Hpa]]
    by (destruct pa; eauto).
  - assert (members (sn_members (translate_one n (ActSuspect y)).1) =
      members (suspect (sn_members n) y).1) as E.
    { cbn [translate_one]. destruct (suspect _ _) as [ml []]; [|done].
      unfold observe_transition. rw observe_members /=.
      case_match; simpl; rw observe_members //. }
    unfold state_of, get in *. rw E.
    change (members (suspect (sn_members n) y).1 !! x)
      with (get (suspect (sn_members n) y).1 x).
    unfold suspect. rw move_state_get. unfold get.
    destruct (members (sn_members n) !! x) as [e|]; cbn -[decide].
    + case_decide as H1; case_decide as H2; simpl; try done; exfalso.
      * destruct H1. apply H2. split; congruence.
      * destruct H2. apply H1. split; congruence.
    + by case_decide as Hd; [destruct Hd|].
  - cbn [translate_one]. case_decide; [naive_solver|].
    unfold state_of at 2. destruct (get (sn_members n) y); [|done].
    unfold state_of, observe_transition. by rw observe_members.
  - destruct (translate_one_quiet n pa Hn Hpa) as (_ & Hm & _).
    unfold state_of. rw Hm. case_decide as Hd; [|done]. destruct Hd as [-> _].
    by destruct (Hpa x).
Qed.

Lemma translate_state n acts v x :
  lagging n acts v →
  state_of (translate_probe_actions n acts).1 x =
    if decide (ActSuspect x ∈ acts ∧ state_of n x = Some Alive) then Some Suspect
    else state_of n x.
Proof.
  revert n v; induction acts as [|pa acts IH]; intros n v Hl.
  { case_decide as Hd; [|done]. by destruct Hd as [?%not_elem_of_nil _]. }
  pose proof (translate_one_state n pa x (lg_wf _ _ _ Hl)) as E.
  destruct (translate_one_lagging n pa acts v Hl) as [Hl' _].
  cbn -[translate_one decide]. etrans; [apply (IH _ _ Hl')|]. rw E.
  repeat case_decide; set_solver.
Qed.

(** The suspicion the probe raises in a tick. *)
Definition suspected (n : SwimNode) (now : N) (x : NodeId) : bool :=
  bool_decide (ActSuspect x ∈ (step (sn_probe n) now Tick (sn_members n)).2).

Lemma tick_probe_eq n now :
  sn_probe (tick n now).1 = (step (sn_probe n) now Tick (sn_members n)).1.1.
Proof.
  unfold tick, step_probe. cbn [sn_probe sn_members set_clock].
  destruct (step _ _ _ _) as [[p ml] acts]. apply translate_probe.
Qed.

Lemma tick_state n now x :
  node_wf n →
  let q := ticked (sn_probe n) now (sn_members n) in
  state_of (tick n now).1 x =
    match state_of n x with
    | Some Alive => if suspected n now x then Some Suspect else Some Alive
    | Some Suspect =>
        if decide (x ∈ expired_timers q (sn_members n)) then Some Dead else Some Suspect
    | s => s
    end.
Proof.
  intros Hn. cbn zeta. unfold tick, step_probe, suspected.
  pose proof (step_lagging (set_clock n now) now Tick (set_clock_wf n now Hn)) as Hl.
  destruct (step_tick (sn_probe n) now (sn_members n) (nw_probe _ Hn)) as [Hm _].
  cbn [sn_probe sn_members set_clock] in *.
  destruct (step _ _ _ _) as [[p ml] acts]; cbn [fst snd] in *. subst ml.
  rw (translate_state _ _ _ x Hl). unfold state_of; cbn [sn_members set_sn_members].
  rw get_bury. destruct (get (sn_members n) x) as [[i st inc]|]; cbn -[decide].
  - destruct st; repeat case_decide; try case_bool_decide; simpl; naive_solver.
  - by case_decide; [naive_solver|].
Qed.

(** ** Detection time *)

Lemma ticked_core p at_ ml :
  config (ticked p at_ ml) = config p ∧ now (ticked p at_ ml) = at_ ∧
  (health p = None → health (ticked p at_ ml) = None).
Proof.
  unfold ticked, check_probe_timeout, start_suspicion_timer, record_health.
  repeat case_match; simpl; split_and!; try done; by intros ->.
Qed.

(** The timers examined in a tick: those of before, and one for a member whose
    indirect probe has just timed out. *)
Lemma ticked_timers p at_ ml :
  (∀ tm, tm ∈ suspicion_timers p → tm ∈ suspicion_timers (ticked p at_ ml)) ∧
  (∀ tm, tm ∈ suspicion_timers (ticked p at_ ml) →
     tm ∈ suspicion_timers p ∨
     st_started_at tm = at_ ∧ ActSuspect (st_node_id tm) ∈ (step p at_ Tick ml).2).
Proof.
  unfold step, ticked. destruct (check_probe_timeout _ ml) as [q a1] eqn:E; cbn [fst snd].
  destruct (check_suspicion_timeouts q ml) as [[p2 ml2] a2].
  destruct (tick_probe p2 ml2) as [p3 a3]. destruct (maybe_reprobe_dead p3 ml2) as [p4 a4].
  cbn [fst snd]. revert E. unfold check_probe_timeout, start_suspicion_timer.
  repeat case_match; intros; simplify_eq/=; split; try set_solver.
Qed.

(** The setting: no lifeguard, timers started in the past, and no timer left over
    from a suspicion of [x] that was since refuted. *)
Record steady (c : SwimConfig) (x : NodeId) (n : SwimNode) : Prop := {
  sd_wf : node_wf n;
  sd_config : config (sn_probe n) = c;
  sd_health : health (sn_probe n) = None;
  sd_past tm : tm ∈ suspicion_timers (sn_probe n) → st_started_at tm <= now (sn_probe n);
  sd_fresh tm : tm ∈ suspicion_timers (sn_probe n) → st_node_id tm = x →
    state_of n x ≠ Some Alive;
}.

Lemma steady_tick c x n t :
  steady c x n → now (sn_probe n) <= t →
  steady c x (tick n t).1 ∧ now (sn_probe (tick n t).1) = t.
Proof.
  intros [Hwf Hc Hh Hpast Hfresh] Ht.
  destruct (tick_frame (sn_probe n) t (sn_members n) (nw_probe _ Hwf))
    as (E1 & E2 & E3 & E4 & _).
  destruct (ticked_core (sn_probe n) t (sn_members n)) as (C1 & C2 & C3).
  destruct (ticked_timers (sn_probe n) t (sn_members n)) as [_ Htm].
  rw -!tick_probe_eq in E1, E2, E3, E4.
  split; [split|]; try congruence.
  - apply (tick_sound n t Hwf).
  - rw E4. auto.
  - intros tm. rw E1 E3 C2 list_elem_of_filter. intros [_ [?|[-> _]]%Htm]; [|done].
    etrans; [by apply Hpast|done].
  - intros tm. rw E1 list_elem_of_filter tick_state //. intros [_ [Hin|[_ Hs]]%Htm] Hx.
    + specialize (Hfresh _ Hin Hx). repeat case_match; naive_solver.
    + rw Hx in Hs. unfold suspected. rw bool_decide_eq_true_2 //. repeat case_match; naive_solver.
Qed.

Lemma steady_expired c x n t :
  steady c x n → 0 < suspicion_timeout c →
  x ∈ expired_timers (ticked (sn_probe n) t (sn_members n)) (sn_members n) ↔
  ∃ tm, tm ∈ suspicion_timers (sn_probe n) ∧ st_node_id tm = x ∧
    suspicion_timeout c <= t - st_started_at tm.
Proof.
  intros [_ Hc Hh _ _] HT. rw expired_timers_ticked; [by rw Hc|].
  destruct (ticked_core (sn_probe n) t (sn_members n)) as (C1 & _ & C3).
  unfold effective_timeout. by rw (C3 Hh) C1 Hc.
Qed.

(** A timer for [x] that does not expire in the tick survives it. *)
Lemma timer_survives n t tm :
  node_wf n →
  tm ∈ suspicion_timers (ticked (sn_probe n) t (sn_members n)) →
  st_node_id tm ∉ expired_timers (ticked (sn_probe n) t (sn_members n)) (sn_members n) →
  tm ∈ suspicion_timers (sn_probe (tick n t).1).
Proof.
  intros Hwf Hin Hex.
  destruct (tick_frame (sn_probe n) t (sn_members n) (nw_probe _ Hwf)) as (E1 & _).
  rw tick_probe_eq E1. by apply list_elem_of_filter.
Qed.

Definition dead (x : NodeId) (n : SwimNode) : Prop := state_of n x = Some Dead.

(** [x] is suspect with a timer started at [s]. *)
Definition suspect_since (x : NodeId) (n : SwimNode) (s : N) : Prop :=
  state_of n x = Some Suspect ∧
  ∃ tm, tm ∈ suspicion_timers (sn_probe n) ∧ st_node_id tm = x ∧ st_started_at tm = s.

Definition waiting (indirect : bool) : NodeId → N → N → ProbePhase :=
  if indirect then WaitingIndirectAck else WaitingDirectAck.

(** [x] is being probed, directly or indirectly, since [s]. *)
Definition probing (x : NodeId) (n : SwimNode) (indirect : bool) (s : N) : Prop :=
  (state_of n x = Some Alive ∨ state_of n x = Some Suspect) ∧
  ∃ seq, phase (sn_probe n) = waiting indirect x seq s.

Lemma dead_tick x n t : node_wf n → dead x n → dead x (tick n t).1.
Proof. intros Hwf Hd. unfold dead in *. rw tick_state //. by rw Hd. Qed.

Lemma timer_unique p tm tm' :
  probe_wf p → tm ∈ suspicion_timers p → tm' ∈ suspicion_timers p →
  st_node_id tm = st_node_id tm' → tm = tm'.
Proof.
  intros [Hnd _ _ _ _] (i & Hi)%list_elem_of_lookup (j & Hj)%list_elem_of_lookup E.
  assert (i = j) as ->; [|congruence].
  apply (NoDup_lookup _ _ _ (st_node_id tm) Hnd); rw list_lookup_fmap ?Hi ?Hj //=.
  by rw E.
Qed.

Lemma suspect_since_tick c x n t s :
  steady c x n → 0 < suspicion_timeout c → suspect_since x n s →
  if decide (suspicion_timeout c <= t - s) then dead x (tick n t).1
  else suspect_since x (tick n t).1 s.
Proof.
  intros Hst HT (Hs & tm & Hin & Hx & Hat). pose proof (sd_wf _ _ _ Hst) as Hwf.
  assert (x ∈ expired_timers (ticked (sn_probe n) t (sn_members n)) (sn_members n) ↔
    suspicion_timeout c <= t - s) as Hex.
  { rw (steady_expired c) //. split; [|by intros; exists tm; rw Hat].
    intros (tm' & Hin' & Hx' & ?).
    assert (tm' = tm) as ->; [|by rw -Hat].
    apply (timer_unique (sn_probe n)); [apply Hwf|done|done|congruence]. }
  pose proof (tick_state n t x Hwf) as E. cbn zeta in E. rw Hs in E.
  destruct (decide (suspicion_timeout c <= t - s)) as [Hd|Hd].
  - unfold dead. by rw E decide_True // Hex.
  - split; [by rw E decide_False // Hex|]. exists tm. split_and!; try done.
    apply timer_survives; [done|by apply ticked_timers|by rw Hx Hex].
Qed.

Lemma state_of_suspect n x : state_of n x = Some Suspect ↔ is_suspect (sn_members n) x = true.
Proof. rw is_suspect_true. unfold state_of. rw fmap_Some. naive_solver. Qed.

(** A probe in flight at the end of [check_probe_timeout] stays in flight unless
    its target dies. *)
Lemma probing_kept x n t indirect seq s :
  node_wf n → (state_of n x = Some Alive ∨ state_of n x = Some Suspect) →
  phase (ticked (sn_probe n) t (sn_members n)) = waiting indirect x seq s →
  dead x (tick n t).1 ∨ probing x (tick n t).1 indirect s.
Proof.
  intros Hwf Hs Hp.
  destruct (tick_frame (sn_probe n) t (sn_members n) (nw_probe _ Hwf)) as (_ & _ & _ & _ & Hk).
  rw -tick_probe_eq in Hk. pose proof (tick_state n t x Hwf) as E. cbn zeta in E.
  set (q := ticked (sn_probe n) t (sn_members n)) in *.
  assert (x ∈ expired_timers q (sn_members n) ∧ is_suspect (sn_members n) x = true ∨
    (x ∉ expired_timers q (sn_members n) ∨ is_suspect (sn_members n) x = false)) as [[Hx Hsus]|Hno].
  { destruct (decide (x ∈ expired_timers q (sn_members n))), (is_suspect _ x); auto. }
  - left. apply state_of_suspect in Hsus. unfold dead. rw Hsus in E. by rw E decide_True.
  - right. split.
    + destruct Hs as [Hs|Hs]; rw Hs in E; rw E; [destruct (suspected n t x); auto|].
      apply state_of_suspect in Hs. rw decide_False; [|by auto].
      destruct Hno; [done|congruence].
    + exists seq. rw (Hk x) //. rw Hp. by destruct indirect.
Qed.

Lemma probing_waits c x n t indirect s :
  steady c x n → probing x n indirect s → t - s < probe_timeout c →
  dead x (tick n t).1 ∨ probing x (tick n t).1 indirect s.
Proof.
  intros [Hwf Hc _ _ _] (Hs & seq & Hp) Ht. apply (probing_kept x n t indirect seq s); [done..|].
  unfold ticked, check_probe_timeout.
  destruct indirect; simpl; by rw Hp Hc /= (proj2 (N.leb_gt _ _) Ht).
Qed.

Lemma probing_escalates c x n t s :
  steady c x n → probing x n false s → probe_timeout c <= t - s →
  dead x (tick n t).1 ∨ probing x (tick n t).1 true t.
Proof.
  intros [Hwf Hc _ _ _] (Hs & seq & Hp) Ht. apply (probing_kept x n t true seq t); [done..|].
  unfold ticked, check_probe_timeout. simpl. by rw Hp Hc /= (proj2 (N.leb_le _ _) Ht).
Qed.

Lemma indirect_timeout p at_ ml x seq s :
  phase p = WaitingIndirectAck x seq s → probe_timeout (config p) <= at_ - s →
  ActSuspect x ∈ (step p at_ Tick ml).2 ∧
  ∃ tm, tm ∈ suspicion_timers (ticked p at_ ml) ∧ st_node_id tm = x.
Proof.
  intros Hp Ht. unfold step, ticked.
  destruct (check_probe_timeout _ ml) as [q a1] eqn:E; cbn [fst snd].
  destruct (check_suspicion_timeouts q ml) as [[p2 ml2] a2].
  destruct (tick_probe p2 ml2) as [p3 a3]. destruct (maybe_reprobe_dead p3 ml2) as [p4 a4].
  cbn [fst snd]. revert E. unfold check_probe_timeout, start_suspicion_timer.
  cbn [phase set_step_counter set_now config now]. rw Hp (proj2 (N.leb_le _ _) Ht).
  intros [= <- <-]. split; [set_solver|].
  case_decide as Hin; simpl in *.
  - apply list_elem_of_fmap in Hin as (tm & ? & ?). by exists tm.
  - eexists (mkSuspicionTimer x at_). set_solver.
Qed.

Lemma probing_suspects c x n t s :
  steady c x n → now (sn_probe n) <= t → 0 < suspicion_timeout c →
  probing x n true s → probe_timeout c <= t - s →
  dead x (tick n t).1 ∨
  ∃ s', s' <= t ∧ t < s' + suspicion_timeout c ∧ suspect_since x (tick n t).1 s'.
Proof.
  intros Hst Hnow HT (Hs & seq & Hp) Ht. pose proof (sd_wf _ _ _ Hst) as Hwf.
  assert (suspected n t x = true ∧
    ∃ tm, tm ∈ suspicion_timers (ticked (sn_probe n) t (sn_members n)) ∧
      st_node_id tm = x) as (Hsus & tm & Hin & Hx).
  { unfold suspected. rw bool_decide_eq_true. apply (indirect_timeout _ _ _ x seq s); [done|].
    by rw (sd_config _ _ _ Hst). }
  pose proof (tick_state n t x Hwf) as E. cbn zeta in E.
  destruct (decide (x ∈ expired_timers (ticked (sn_probe n) t (sn_members n))
    (sn_members n))) as [Hex|Hex].
  - left. assert (state_of n x = Some Suspect) as Hsu.
    { destruct Hs as [Hs|]; [|done]. apply (steady_expired c) in Hex; [|done..].
      destruct Hex as (tm' & Hin' & Hx' & _). by destruct (sd_fresh _ _ _ Hst tm'). }
    unfold dead. rw Hsu in E. by rw E.
  - right. exists (st_started_at tm). split_and!.
    + destruct (steady_tick c x n t Hst Hnow) as [[_ _ _ Hpast _] En].
      rw -En. apply Hpast. apply timer_survives; [done..|by rw Hx].
    + destruct (ticked_timers (sn_probe n) t (sn_members n)) as [_ Htm].
      destruct (Htm tm Hin) as [Hin'|[Hat _]]; [|lia].
      destruct (decide (t < st_started_at tm + suspicion_timeout c)); [done|].
      destruct Hex. apply (steady_expired c); [done..|]. exists tm. split_and!; [done..|lia].
    + split; [|exists tm; split_and!; try done; apply timer_survives; [done..|by rw Hx]].
      destruct Hs as [Hs|Hs]; rw Hs in E; rw E; [by rw Hsus|done].
Qed.

(** A live member without a timer becomes suspect from now on. *)
Lemma fresh_suspicion c x n t s :
  steady c x n → 0 < suspicion_timeout c → state_of n x = Some Alive →
  probing x n true s → probe_timeout c <= t - s → suspect_since x (tick n t).1 t.
Proof.
  intros Hst HT Ha (_ & seq & Hp) Ht. pose proof (sd_wf _ _ _ Hst) as Hwf.
  destruct (indirect_timeout (sn_probe n) t (sn_members n) x seq s Hp) as (Hs & tm & Hin & Hx).
  { by rw (sd_config _ _ _ Hst). }
  assert (∀ tm', tm' ∈ suspicion_timers (sn_probe n) → st_node_id tm' ≠ x) as Hno.
  { intros tm' Hin' Hx'. by destruct (sd_fresh _ _ _ Hst tm' Hin' Hx'). }
  split.
  - pose proof (tick_state n t x Hwf) as E. cbn zeta in E. rw Ha in E. rw E.
    unfold suspected. by rw bool_decide_eq_true_2.
  - exists tm. split_and!; [|done|].
    + apply timer_survives; [done..|]. rw Hx (steady_expired c) //.
      intros (tm' & Hin' & Hx' & _). by destruct (Hno tm').
    + destruct (ticked_timers (sn_probe n) t (sn_members n)) as [_ Htm].
      destruct (Htm tm Hin) as [?|[? _]]; [|done]. by destruct (Hno tm).
Qed.

(** Ticks follow each other by at most [gap], starting from [t]. *)
Fixpoint paced (gap t : N) (ts : list N) : Prop :=
  match ts with
  | [] => True
  | u :: us => t <= u ∧ u <= t + gap ∧ paced gap u us
  end.

Lemma paced_last gap t ts : paced gap t ts → t <= List.last ts t.
Proof.
  revert t; induction ts as [|u ts IH]; intros t; [done|]. intros (? & ? & Hp).
  specialize (IH u Hp). destruct ts as [|v ts]; [done|].
  change (List.last (u :: v :: ts) t) with (List.last (v :: ts) t).
  rw (last_default_irrelevant v ts t u). by etrans.
Qed.

(** How far the detection of [x] has come: dead, or in a stage that has not run out
    and from which death follows by [deadline]. *)
Definition detecting (c : SwimConfig) (gap : N) (x : NodeId) (deadline : N)
    (n : SwimNode) : Prop :=
  let t := now (sn_probe n) in
  dead x n ∨
  (∃ s, suspect_since x n s ∧ t < s + suspicion_timeout c ∧
     s + suspicion_timeout c + gap <= deadline) ∨
  (∃ s, probing x n true s ∧ t < s + probe_timeout c ∧
     s + probe_timeout c + suspicion_timeout c + 2 * gap <= deadline) ∨
  (∃ s, probing x n false s ∧ t < s + probe_timeout c ∧
     s + 2 * probe_timeout c + suspicion_timeout c + 3 * gap <= deadline).

Lemma detecting_tick c gap x deadline n t :
  steady c x n → 0 < suspicion_timeout c → 0 < probe_timeout c →
  now (sn_probe n) <= t → t <= now (sn_probe n) + gap →
  detecting c gap x deadline n → detecting c gap x deadline (tick n t).1.
Proof.
  intros Hst HT HD Hlo Hhi. destruct (steady_tick c x n t Hst Hlo) as [Hst' En].
  unfold detecting. rw En.
  intros [Hd|[(s & Hs & Hin & Hb)|[(s & Hs & Hin & Hb)|(s & Hs & Hin & Hb)]]].
  - left. by apply dead_tick; [apply Hst|].
  - pose proof (suspect_since_tick c x n t s Hst HT Hs) as H1.
    case_decide; [by left|]. right; left. exists s. split_and!; [done|lia|done].
  - destruct (decide (t - s < probe_timeout c)) as [Hlt|Hge].
    + destruct (probing_waits c x n t true s Hst Hs Hlt); [by left|].
      do 2 right; left. exists s. split_and!; [done|lia|done].
    + destruct (probing_suspects c x n t s Hst Hlo HT Hs ltac:(lia))
        as [?|(s' & Hle & Hlt & Hs')]; [by left|].
      right; left. exists s'. split_and!; [done|done|lia].
  - destruct (decide (t - s < probe_timeout c)) as [Hlt|Hge].
    + destruct (probing_waits c x n t false s Hst Hs Hlt); [by left|].
      do 3 right. exists s. split_and!; [done|lia|done].
    + destruct (probing_escalates c x n t s Hst Hs ltac:(lia)); [by left|].
      do 2 right; left. exists t. split_and!; [done|lia|lia].
Qed.

Lemma detecting_ticks c gap x deadline n ts :
  steady c x n → 0 < suspicion_timeout c → 0 < probe_timeout c →
  paced gap (now (sn_probe n)) ts → detecting c gap x deadline n →
  let n' := (run n (InTick <$> ts)).1 in
  steady c x n' ∧ detecting c gap x deadline n' ∧
  now (sn_probe n') = List.last ts (now (sn_probe n)).
Proof.
  intros Hst HT HD. revert n Hst; induction ts as [|t ts IH]; intros n Hst Hp Hd; [done|].
  destruct Hp as (Hlo & Hhi & Hp). destruct (steady_tick c x n t Hst Hlo) as [Hst' En].
  pose proof (detecting_tick c gap x deadline n t Hst HT HD Hlo Hhi Hd) as Hd'.
  rw -En in Hp. destruct (IH _ Hst' Hp Hd') as (H1 & H2 & H3).
  split; [exact H1|]. split; [exact H2|]. etrans; [exact H3|].
  rw En. destruct ts as [|u ts]; [done|]. exact (last_default_irrelevant u ts t _).
Qed.

(** Suspicion is raised only by an indirect probe that timed out. *)
Lemma suspect_only_after_indirect p at_ ml x :
  probe_wf p → ActSuspect x ∈ (step p at_ Tick ml).2 →
  ∃ seq s, phase p = WaitingIndirectAck x seq s ∧ probe_timeout (config p) <= at_ - s.
Proof.
  intros Hwf. pose proof (ticked_wf p at_ ml Hwf) as Hwf'. revert Hwf'.
  unfold step, ticked. destruct (check_probe_timeout _ ml) as [q a1] eqn:E.
  cbn [fst]. intros Hwf'. unfold check_suspicion_timeouts.
  destruct (expire_all q ml [] _ (expired_timers_nodup q ml Hwf')) as (p2 & -> & _).
  set (ml2 := bury _ _). cbn [app].
  pose proof (tick_probe_pings p2 ml2) as H3. destruct (tick_probe p2 ml2) as [p3 a3].
  pose proof (maybe_reprobe_dead_pings p3 ml2) as H4.
  destruct (maybe_reprobe_dead p3 ml2) as [p4 a4]. cbn [snd] in *.
  rw !elem_of_app. intros [Hin|[Hin|[Hin|Hin]]].
  - revert E Hin. unfold check_probe_timeout; simpl.
    destruct (phase p); [by intros [= <- <-] ?%not_elem_of_nil|..];
      destruct (probe_timeout (config p) <=? at_ - sent_at) eqn:Et; intros [= <- <-];
      try (by intros ?%not_elem_of_nil); bool_to_prop; set_solver.
  - apply list_elem_of_fmap in Hin as (? & ? & _). done.
  - by destruct (proj1 (Forall_forall _ _) H3 _ Hin) as (? & ? & ?).
  - by destruct (proj1 (Forall_forall _ _) H4 _ Hin) as (? & ? & ?).
Qed.

(** The stages of detection with the earliest time each is entered. *)
Definition undetected (c : SwimConfig) (x : NodeId) (sent_at : N) (n : SwimNode) : Prop :=
  (state_of n x = Some Alive ∧ ∃ s, probing x n false s ∧ sent_at <= s) ∨
  (state_of n x = Some Alive ∧ ∃ s, probing x n true s ∧ sent_at + probe_timeout c <= s) ∨
  ∃ s, suspect_since x n s ∧ sent_at + 2 * probe_timeout c <= s.

(** A live member stays alive in a tick in which no indirect probe of it times
    out. *)
Lemma tick_alive c x n t :
  steady c x n → state_of n x = Some Alive →
  (∀ seq s, phase (sn_probe n) = WaitingIndirectAck x seq s → t - s < probe_timeout c) →
  state_of (tick n t).1 x = Some Alive.
Proof.
  intros [Hwf Hc _ _ _] Ha Hph. pose proof (tick_state n t x Hwf) as E.
  cbn zeta in E. rw Ha in E. rw E. unfold suspected. rw bool_decide_eq_false_2 //.
  intros (seq & s & Hp & Hle)%suspect_only_after_indirect; [|apply Hwf].
  rw Hc in Hle. specialize (Hph _ _ Hp). lia.
Qed.

Lemma undetected_tick c x sent_at n t :
  steady c x n → 0 < suspicion_timeout c → 0 < probe_timeout c →
  now (sn_probe n) <= t → t < sent_at + 2 * probe_timeout c + suspicion_timeout c →
  undetected c x sent_at n → undetected c x sent_at (tick n t).1.
Proof.
  intros Hst HT HD Hnow Ht [(Ha & s & Hp & Hs)|[(Ha & s & Hp & Hs)|(s & Hp & Hs)]].
  - assert (state_of (tick n t).1 x = Some Alive) as Ha'.
    { apply (tick_alive c); [done..|]. destruct Hp as (_ & seq & ->). done. }
    destruct (decide (t - s < probe_timeout c)) as [Hlt|Hge].
    + left. split; [done|]. exists s. split; [|done].
      destruct (probing_waits c x n t false s Hst Hp Hlt); [|done]. unfold dead in *. congruence.
    + right; left. split; [done|]. exists t. split; [|lia].
      destruct (probing_escalates c x n t s Hst Hp ltac:(lia)); [|done].
      unfold dead in *. congruence.
  - destruct (decide (t - s < probe_timeout c)) as [Hlt|Hge].
    + assert (state_of (tick n t).1 x = Some Alive) as Ha'.
      { apply (tick_alive c); [done..|]. destruct Hp as (_ & seq & ->). by intros ?? [= <- <-]. }
      right; left. split; [done|]. exists s. split; [|done].
      destruct (probing_waits c x n t true s Hst Hp Hlt); [|done]. unfold dead in *. congruence.
    + right; right. exists t. split; [|lia].
      apply (fresh_suspicion c x n t s); [done..|lia].
  - right; right. exists s. split; [|done].
    pose proof (suspect_since_tick c x n t s Hst HT Hp) as H1.
    rw decide_False in H1; [lia|done].
Qed.

Lemma undetected_ticks c gap x sent_at n ts :
  steady c x n → 0 < suspicion_timeout c → 0 < probe_timeout c →
  paced gap (now (sn_probe n)) ts →
  List.last ts (now (sn_probe n)) < sent_at + 2 * probe_timeout c + suspicion_timeout c →
  undetected c x sent_at n → undetected c x sent_at (run n (InTick <$> ts)).1.
Proof.
  intros Hst HT HD. revert n Hst; induction ts as [|t ts IH]; intros n Hst Hp Hl Hu; [done|].
  destruct Hp as (Hlo & Hhi & Hp). destruct (steady_tick c x n t Hst Hlo) as [Hst' En].
  assert (List.last ts t = List.last (t :: ts) (now (sn_probe n))) as El.
  { destruct ts as [|u ts]; [done|]. exact (last_default_irrelevant u ts t _). }
  apply (IH (tick n t).1); [done|by rw En|by rw En El|].
  apply undetected_tick; try done. pose proof (paced_last gap t ts Hp). lia.
Qed.

(** C15. Without Lifeguard, with timeouts that are not zero and with no suspicion timer
    of [x] left over from an earlier suspicion, failure detection is complete and its
    delay is known: once a direct probe of the live member [x] has been sent at
    [sent_at], is still waited for, and nothing but ticks, at most [gap] apart, reaches
    the node, [x] is not declared dead before two probe timeouts (the direct and the
    indirect phase) and one suspicion timeout have passed, and is declared dead no later
    than three gaps after that. *)
Theorem detection_time c gap x n ts seq sent_at :
  node_wf n → config (sn_probe n) = c → health (sn_probe n) = None →
  (∀ tm, tm ∈ suspicion_timers (sn_probe n) →
     st_started_at tm <= now (sn_probe n) ∧ st_node_id tm ≠ x) →
  0 < suspicion_timeout c → 0 < probe_timeout c →
  state_of n x = Some Alive →
  phase (sn_probe n) = WaitingDirectAck x seq sent_at →
  now (sn_probe n) < sent_at + probe_timeout c →
  paced gap (now (sn_probe n)) ts →
  let delay := 2 * probe_timeout c + suspicion_timeout c in
  let t := List.last ts (now (sn_probe n)) in
  let x_state := state_of (run n (InTick <$> ts)).1 x in
  (t < sent_at + delay → x_state ≠ Some Dead) ∧
  (sent_at + delay + 3 * gap <= t → x_state = Some Dead).
Proof.
  intros Hwf Hc Hh Htm HT HD Hs Hp Hnow Hpaced. cbn zeta.
  assert (steady c x n) as Hst by (split; [done..|apply Htm|by intros tm [_ ?]%Htm]).
  assert (probing x n false sent_at) as Hpr by by split; [left|exists seq].
  split.
  - intros Hlt Hd.
    destruct (undetected_ticks c gap x sent_at n ts Hst HT HD Hpaced ltac:(lia))
      as [[Ha _]|[[Ha _]|(s & [Ha _] & _)]]; try congruence.
    left. split; [done|]. exists sent_at. by split.
  - intros Hge. destruct (detecting_ticks c gap x
      (sent_at + 2 * probe_timeout c + suspicion_timeout c + 3 * gap) n ts Hst HT HD Hpaced)
      as (_ & Hd & Hn).
    { do 3 right. exists sent_at. by split_and!. }
    destruct Hd as [?|[(s & _ & ? & ?)|[(s & _ & ? & ?)|(s & _ & ? & ?)]]]; [done|lia..].
Qed.
End detection.

(** A node 1 that has admitted node 2 and just pinged it. *)
Definition example_node : SwimNode :=
  (@run bit_codec (SwimNode.new 1 default_swim_config 0)
     [InJoinRequest 2; InTick (millis 200)]).1.

Lemma example_node_steady : steady default_swim_config 2 example_node.
Proof.
  assert (suspicion_timers (sn_probe example_node) = []) as E by by vm_compute.
  split.
  - exact (so_wf _ _ (@run_sound bit_codec _ _ (node_new_wf 1 default_swim_config 0))).
  - by vm_compute.
  - by vm_compute.
  - intros tm. rw E. by intros ?%not_elem_of_nil.
  - intros tm. rw E. by intros ?%not_elem_of_nil.
Qed.

Lemma detection_time_witness :
  state_of (@run bit_codec example_node
    (InTick <$> ((λ k, millis 200 + k * millis 15000) <$> [1; 2; 3; 4; 5; 6; 7; 8]))).1 2
  = Some Dead.
Proof.
  apply (@detection_time bit_codec default_swim_config (millis 15000) 2
    example_node _ 1 (millis 200) (sd_wf _ _ _ example_node_steady)).
  3: { intros tm Htm. assert (suspicion_timers (sn_probe example_node) = []) as E by by vm_compute.
       rw E in Htm. by apply not_elem_of_nil in Htm. }
  all: vm_compute; repeat split; done.
Defined.

(** ** A suspicion timer outlives its suspicion

    Node 2 does not answer the probes of node 1 but hears its own suspicion
    through other nodes and refutes it with incarnation 1.  The timer of the first
    suspicion is neither cancelled by the refutation nor restarted by the second
    suspicion. *)

Definition refutation_of_2 : bytes :=
  default [] (@to_vec bit_codec [mkMembershipUpdate 2 Alive 1]).

Definition refuted_history : list NodeInput :=
  [InJoinRequest 2;
   InTick (millis 200);            (* direct probe of 2 *)
   InTick (millis 15200);          (* indirect probe of 2 *)
   InTick (millis 30200);          (* 2 suspected, timer started *)
   InPing 3 7 refutation_of_2;     (* 2 refutes *)
   InTick (millis 30400);          (* direct probe of 2 *)
   InTick (millis 45400);          (* indirect probe of 2 *)
   InTick (millis 60200)].         (* 2 is alive *)

(** The suspicion timeout is not respected after a refutation: a member that is alive at
    one tick is declared dead 15 seconds later, under the default configuration in which
    a node is to stay suspect for 45 seconds. *)
Theorem suspicion_timer_outlives_refutation :
  let n1 := (@run bit_codec (SwimNode.new 1 default_swim_config 0) refuted_history).1 in
  let n2 := (@run bit_codec n1 [InTick (millis 60400); InTick (millis 75200)]).1 in
  (now (sn_probe n1), state_of n1 2) = (millis 60200, Some Alive) ∧
  (now (sn_probe n2), state_of n2 2) = (millis 75200, Some Dead) ∧
  millis 75200 - millis 60200 < suspicion_timeout default_swim_config.
Proof. by vm_compute. Qed.

(** ** Refutation *)

Section refutation.
Context `{C : UpdateCodec}.

Lemma update_other n u x :
  mu_node_id u ≠ x →
  get (sn_members (apply_membership_update n u).1) x = get (sn_members n) x.
Proof.
  intros Hne. unfold apply_membership_update. case_match; [by case_match|].
  assert (get (apply (sn_members n) (mu_node_id u) (mu_state u) (mu_incarnation u)).1 x =
    get (sn_members n) x) as E.
  { unfold apply, get. repeat case_match; simpl; rw ?lookup_insert_ne //. }
  destruct (apply (sn_members n) _ _ _) as [ml []]; [|done].
  unfold observe_transition. case_decide; simpl; by rw observe_members.
Qed.

Lemma updates_other n us x :
  x ∉ mu_node_id <$> us →
  get (sn_members (emit_all apply_membership_update n us).1) x = get (sn_members n) x.
Proof.
  revert n; induction us as [|u us IH]; intros n Hx; [done|]. cbn in Hx |- *.
  apply not_elem_of_cons in Hx as [??]. rw IH //. by apply update_other.
Qed.

(** Gossip with news about [x] takes effect. *)
Lemma update_news n x s i :
  node_wf n → x ≠ node_self_id n →
  (∀ e, get (sn_members n) x = Some e → me_incarnation e < i) →
  get (sn_members (apply_membership_update n (mkMembershipUpdate x s i)).1) x =
    Some (mkMemberEntry x s i).
Proof.
  intros Hn Hx Hnews. unfold apply_membership_update; cbn [mu_node_id mu_state mu_incarnation].
  case_match; bool_to_prop; [done|].
  assert (∃ ml, apply (sn_members n) x s i = (ml, true) ∧
    get ml x = Some (mkMemberEntry x s i)) as (ml & -> & E).
  { unfold apply. case_match; bool_to_prop; [done|]. unfold get in *.
    destruct (members (sn_members n) !! x) as [e|] eqn:Ee.
    - rw (proj2 (N.ltb_lt _ _) (Hnews e eq_refl)). eexists. split; [done|].
      simpl. rw lookup_insert_eq (wf_key _ (nw_members _ Hn) _ _ Ee) //.
    - eexists. split; [done|]. simpl. by rw lookup_insert_eq. }
  unfold observe_transition. case_decide; simpl; by rw observe_members.
Qed.

Lemma updates_news n us x s i :
  node_wf n → x ≠ node_self_id n → NoDup (mu_node_id <$> us) →
  mkMembershipUpdate x s i ∈ us →
  (∀ e, get (sn_members n) x = Some e → me_incarnation e < i) →
  get (sn_members (emit_all apply_membership_update n us).1) x = Some (mkMemberEntry x s i).
Proof.
  intros Hn Hx Hnd (l1 & l2 & ->)%list_elem_of_split Hnews.
  rw fmap_app fmap_cons in Hnd. apply NoDup_app in Hnd as (_ & Hl1 & Hnd2).
  apply NoDup_cons in Hnd2 as [Hl2 _]. cbn [mu_node_id] in Hl2.
  pose proof (sound_emit_all apply_membership_update n l1 Hn
    apply_membership_update_sound) as [Hn1 _ Hs1].
  rw emit_all_app; cbn [fst emit_all]. rw updates_other //.
  apply update_news; [done|by rw Hs1|].
  intros e. rw updates_other; [|apply Hnews]. intros Hin. by destruct (Hl1 x Hin); left.
Qed.

Lemma ack_members n from seq pb :
  sn_members (handle_ack n from seq pb).1 = sn_members (apply_piggyback n pb).1.
Proof.
  unfold handle_ack. destruct (apply_piggyback n pb) as [n1 a1]; cbn [fst].
  assert (sn_members (step_probe n1 (clock n1) (AckReceived from seq)).1 = sn_members n1) as E.
  { unfold step_probe, step, Probe.handle_ack, complete_probe.
    repeat case_match; simplify_eq/=; rw ?observe_members //. }
  destruct (step_probe n1 _ _) as [n2 a2].
  by destruct (list_find _ _) as [[pos [[req t] s]]|].
Qed.

(** What the node gossips about itself is not ahead of its incarnation. *)
Definition self_news_ok (n : SwimNode) : Prop :=
  ∀ u, queued (dissemination n) (node_self_id n) = Some u →
    mu_incarnation u <= self_incarnation (sn_members n).

(** Hearing that it is suspected or dead at its incarnation, a node queues its
    refutation. *)
Lemma refute_queued n s i :
  self_news_ok n → s ≠ Alive →
  self_incarnation (sn_members n) <= i → self_incarnation (sn_members n) < u64_max →
  let u := mkMembershipUpdate (node_self_id n) s i in
  let n' := (apply_membership_update n u).1 in
  let refutation :=
    mkMembershipUpdate (node_self_id n) Alive (self_incarnation (sn_members n) + 1) in
  queued (dissemination n') (node_self_id n) = Some refutation ∧
  (Dissemination.len (dissemination n') ≤ S (Dissemination.len (dissemination n)))%nat ∧
  max_piggyback n' = max_piggyback n ∧ node_self_id n' = node_self_id n.
Proof.
  intros Hok Hs Hi Hmax. cbn zeta. unfold apply_membership_update.
  cbn [mu_node_id mu_state mu_incarnation]. rw N.eqb_refl.
  assert (bool_decide (s = Suspect) || bool_decide (s = Dead) = true) as -> by by destruct s.
  rw (proj2 (N.leb_le _ _) Hi). cbn [andb refute fst].
  assert (self_incarnation (sn_members n) +64 1 = self_incarnation (sn_members n) + 1) as ->.
  { unfold u64_add. apply N.mod_small. unfold u64_max, u64_modulus in *. lia. }
  split_and!; [|apply len_enqueue|done|done].
  unfold gossip; cbn [dissemination set_dissemination sn_members set_sn_members].
  rw queued_enqueue. cbn [mu_node_id membership_update]. rw decide_True //. f_equal.
  unfold lww_pick. destruct (queued (dissemination n) (node_self_id n)) as [m|] eqn:Eq; [|done].
  set (r := membership_update _ _ _). assert (better update_key r m = true) as ->; [|done].
  rw -supersedes_better /supersedes /=. specialize (Hok _ Eq).
  apply orb_true_iff. left. apply N.ltb_lt. lia.
Qed.
End refutation.

(** A false suspicion is refuted end to end: if [b] holds the live node [a] suspect or
    dead at [a]'s incarnation and tells it so in a ping, then [a]'s ack carries the
    refutation (when its other news fits in the same piggyback), and after handling the
    ack [b] holds [a] alive at the next incarnation. *)
Theorem refutation_restores `{C : UpdateCodec} `{!UpdateCodecLaws C} a b e pb seq :
  node_wf a → node_wf b → node_self_id a ≠ node_self_id b →
  get (sn_members b) (node_self_id a) = Some e →
  me_state e ≠ Alive → me_incarnation e = self_incarnation (sn_members a) →
  self_incarnation (sn_members a) < u64_max →
  self_news_ok a → (Dissemination.len (dissemination a) < max_piggyback a)%nat →
  unpack_piggyback pb =
    [mkMembershipUpdate (node_self_id a) (me_state e) (me_incarnation e)] →
  ∃ pb',
    SendAck (node_self_id b) seq pb' ∈ (handle_ping a (node_self_id b) seq pb).2 ∧
    get (sn_members (handle_ack b (node_self_id a) seq pb').1) (node_self_id a) =
      Some (mkMemberEntry (node_self_id a) Alive (self_incarnation (sn_members a) + 1)).
Proof.
  intros Ha Hb Hne He Hs Hinc Hmax Hnews Hlen Hpb.
  set (x := node_self_id a) in *. set (i := self_incarnation (sn_members a)) in *.
  destruct (refute_queued a (me_state e) (me_incarnation e) Hnews Hs ltac:(lia) Hmax)
    as (Hq & Hl & Hmp & _). fold x i in Hq, Hl, Hmp.
  set (a1 := (apply_membership_update a _).1) in *.
  assert ((apply_piggyback a pb).1 = a1) as E1 by by unfold apply_piggyback; rw Hpb.
  pose proof (apply_piggyback_sound a pb Ha) as [Ha1 _ _]. rw E1 in Ha1.
  set (pb' := (pack_piggyback (dissemination a1) (max_piggyback a1)).2).
  exists pb'. split.
  { unfold handle_ping. destruct (apply_piggyback a pb) as [a1' acts]; cbn [fst] in E1.
    subst a1'. destruct (apply (sn_members a1) _ _ _) as [ml []];
      unfold observe_transition, observe; cbn; [destruct (observer a1)|]; cbn;
      rw elem_of_app ?elem_of_cons; auto. }
  rw ack_members. unfold apply_piggyback. rw unpack_pack.
  pose proof (wf_entries _ (nw_dissemination _ Ha1)) as Hqwf.
  assert ((Dissemination.take (dissemination a1) (max_piggyback a1)).2 ≡ₚ
    pd_item <$> entries (dissemination a1)) as Hall by (apply take_everything; lia).
  apply updates_news; [done|done|..].
  - rw Hall -list_fmap_compose. apply Hqwf.
  - rw Hall. by apply (queued_item_Some mu_node_id _ x) in Hq as [_ ?].
  - intros e'. rw He. intros [= <-]. lia.
Qed.

(** Node 1 suspects node 2, which is alive. *)
Definition suspecting_node : SwimNode :=
  (@run bit_codec example_node [InTick (millis 15200); InTick (millis 30200)]).1.

Lemma refutation_restores_witness :
  ∃ pb',
    SendAck 1 7 pb' ∈
      (@handle_ping bit_codec (SwimNode.new 2 default_swim_config 0) 1 7
         (default [] (@to_vec bit_codec [mkMembershipUpdate 2 Suspect 0]))).2 ∧
    get (sn_members (@handle_ack bit_codec suspecting_node 2 7 pb').1) 2 =
      Some (mkMemberEntry 2 Alive 1).
Proof.
  apply (@refutation_restores bit_codec bit_codec_laws
    (SwimNode.new 2 default_swim_config 0) suspecting_node (mkMemberEntry 2 Suspect 0)).
  - apply node_new_wf.
  - apply (so_wf _ _ (@run_sound bit_codec example_node _ (sd_wf _ _ _ example_node_steady))).
  - by vm_compute.
  - by vm_compute.
  - done.
  - by vm_compute.
  - by vm_compute.
  - intros u. by vm_compute.
  - vm_compute. lia.
  - by vm_compute.
Defined.

(** ** Knowledge grows *)

(** An entry carries at least as much news as another of the same node. *)
Definition news_le (e e' : MemberEntry) : Prop :=
  me_incarnation e < me_incarnation e' ∨
  me_incarnation e = me_incarnation e' ∧
  priority (me_state e) <= priority (me_state e').

Definition knows_le (ml ml' : MemberList) : Prop :=
  ∀ x e, get ml x = Some e → ∃ e', get ml' x = Some e' ∧ news_le e e'.

Lemma knows_le_refl ml : knows_le ml ml.
Proof. intros x e He. exists e. split; [done|]. right. lia. Qed.

Lemma knows_le_trans ml1 ml2 ml3 :
  knows_le ml1 ml2 → knows_le ml2 ml3 → knows_le ml1 ml3.
Proof.
  intros H1 H2 x e He. destruct (H1 x e He) as (e' & He' & Hn).
  destruct (H2 x e' He') as (e'' & He'' & Hn'). exists e''. split; [done|].
  unfold news_le in *. lia.
Qed.

#[export] Instance knows_le_preorder : PreOrder knows_le.
Proof. split; [exact knows_le_refl|exact knows_le_trans]. Qed.

Lemma apply_knows ml id s i : knows_le ml (apply ml id s i).1.
Proof.
  intros x e He. unfold apply, get in *. destruct (decide (x = id)) as [->|Hne].
  - repeat case_match; simplify_eq/=; rw ?lookup_insert_eq; eexists; (split; [done|]);
      unfold news_le, state_gt in *; simpl; bool_to_prop; destruct_and?; bool_to_prop; lia.
  - exists e. split; [|unfold news_le; lia].
    repeat case_match; simpl; rw ?lookup_insert_ne //.
Qed.

Lemma suspect_knows ml id : knows_le ml (suspect ml id).1.
Proof.
  intros x e He. unfold suspect. rw move_state_get He; cbn -[decide]. eexists. split; [done|].
  unfold news_le. case_decide as Hd; simpl; [|lia]. destruct Hd as [_ ->]. simpl. lia.
Qed.

Lemma bury_knows ml ids : knows_le ml (bury ml ids).
Proof.
  intros x e He. rw get_bury He; cbn -[decide]. eexists. split; [done|].
  unfold news_le. case_decide as Hd; simpl; [|lia]. destruct Hd as [_ ->]. simpl. lia.
Qed.

Definition grows {A} (f : SwimNode → A → SwimNode * list NodeAction) : Prop :=
  ∀ n x, node_wf n → knows_le (sn_members n) (sn_members (f n x).1).

Section knowledge.
Context `{UpdateCodec}.

Lemma update_grows : grows apply_membership_update.
Proof.
  intros n u _. unfold apply_membership_update. case_match.
  { case_match; [|done]. intros x e He. exists e. split; [exact He|]. unfold news_le; lia. }
  pose proof (apply_knows (sn_members n) (mu_node_id u) (mu_state u) (mu_incarnation u)) as Hk.
  destruct (apply (sn_members n) _ _ _) as [ml []]; [|done].
  unfold observe_transition. case_decide; simpl; by rw observe_members.
Qed.

Lemma piggyback_grows : grows apply_piggyback.
Proof.
  intros n pb Hn. unfold apply_piggyback. revert n Hn.
  induction (unpack_piggyback pb) as [|u us IH]; intros n Hn; [done|]. simpl.
  trans (sn_members (apply_membership_update n u).1); [by apply update_grows|].
  apply IH, so_wf with n. by apply apply_membership_update_sound.
Qed.

Lemma translate_one_grows : grows translate_one.
Proof.
  intros n pa Hn. assert ((∃ y, pa = ActSuspect y) ∨ (∃ y, pa = ActDeclareDead y) ∨
    ∀ y, pa ≠ ActSuspect y ∧ pa ≠ ActDeclareDead y) as [[y ->]|[[y ->]|Hpa]]
    by (destruct pa; eauto).
  - cbn [translate_one]. pose proof (suspect_knows (sn_members n) y) as Hk.
    destruct (suspect _ _) as [ml []]; [|done].
    unfold observe_transition. rw observe_members /=.
    case_match; simpl; by rw observe_members.
  - cbn [translate_one]. destruct (get _ y); [|done].
    unfold observe_transition. by rw observe_members.
  - by destruct (translate_one_quiet n pa Hn Hpa) as (_ & -> & _).
Qed.

Lemma step_probe_grows n now ev :
  node_wf n → knows_le (sn_members n) (sn_members (step_probe n now ev).1).
Proof.
  intros Hn. unfold step_probe. pose proof (step_lagging n now ev Hn) as Hl.
  assert (knows_le (sn_members n) (step (sn_probe n) now ev (sn_members n)).1.2) as Hk.
  { destruct (decide (ev = Tick)) as [->|Hev].
    - destruct (step_tick (sn_probe n) now (sn_members n) (nw_probe _ Hn)) as [-> _].
      apply bury_knows.
    - by destruct (step_members (sn_probe n) now ev (sn_members n) Hev) as [-> _]. }
  destruct (step _ _ _ _) as [[p ml] acts]; cbn [fst snd] in Hk. etrans; [exact Hk|].
  set (n1 := set_sn_members _ _) in *. change ml with (sn_members n1). clearbody n1. clear Hk Hn.
  revert n1 Hl. generalize (view_of (sn_members n)) as v.
  induction acts as [|pa acts IH]; intros v n1 Hl; [done|].
  destruct (translate_one_lagging n1 pa acts v Hl) as [Hl' _].
  etrans; [apply (translate_one_grows n1 pa), Hl|]. exact (IH _ _ Hl').
Qed.

Lemma learn_grows n from reason :
  let r := apply (sn_members n) from Alive 0 in
  knows_le (sn_members n)
    (sn_members (if r.2 then observe_transition (set_sn_members n r.1) from (state_of n from)
                               Alive reason
                 else set_sn_members n r.1)).
Proof.
  cbn zeta. pose proof (apply_knows (sn_members n) from Alive 0) as Hk.
  case_match; unfold observe_transition; by rw ?observe_members.
Qed.
End knowledge.

(** Knowledge about members only grows: whatever a node handles, other than the roster a
    seed sends in answer to a join, every member stays listed and its incarnation never
    decreases, nor its state at the same incarnation. *)
Theorem members_never_regress `{UpdateCodec} n i :
  node_wf n → (∀ rs, i ≠ InJoinResponse rs) →
  knows_le (sn_members n) (sn_members (handle n i).1).
Proof.
  intros Hn Hi.
  destruct i as [now|from seq pb|from seq pb|from t seq pb|t seq pb|from|rs|to|]; simpl.
  - exact (step_probe_grows (set_clock n now) now Tick (set_clock_wf n now Hn)).
  - unfold handle_ping. pose proof (piggyback_grows n pb Hn) as Hk.
    destruct (apply_piggyback n pb) as [n1 a1]; cbn [fst] in Hk.
    pose proof (learn_grows n1 from "ping-received") as Hl. cbn zeta in Hl.
    destruct (apply (sn_members n1) _ _ _) as [ml []]; by etrans.
  - rw ack_members. by apply piggyback_grows.
  - unfold handle_ping_req. pose proof (piggyback_grows n pb Hn) as Hk.
    by destruct (apply_piggyback n pb) as [n1 a1].
  - unfold handle_indirect_ack. pose proof (piggyback_grows n pb Hn) as Hk.
    pose proof (so_wf _ _ (apply_piggyback_sound n pb Hn)) as Hn1.
    destruct (apply_piggyback n pb) as [n1 a1]; cbn [fst] in *.
    pose proof (step_probe_grows n1 (clock n1) (IndirectAckReceived t seq) Hn1) as Hk'.
    destruct (step_probe n1 _ _) as [n2 a2]; by etrans.
  - unfold handle_join_request. pose proof (learn_grows n from "join-request") as Hl.
    cbn zeta in Hl. by destruct (apply (sn_members n) _ _ _) as [ml []].
  - by destruct (Hi rs).
  - by apply step_probe_grows.
  - done.
Qed.

Lemma members_never_regress_witness :
  knows_le (sn_members example_node)
    (sn_members (@handle bit_codec example_node (InTick (millis 15200))).1).
Proof.
  apply (@members_never_regress bit_codec); [apply example_node_steady|done].
Defined.
