(* ===== verification/ActorCtx.v ===== *)
(** * The handle an actor acts through

    The actors of [crates/distribution] act on the world only through
    [Ctx::send] of the runtime.  What an actor sees of it is its own address and,
    per send, whether the message was accepted for routing; what the world sees
    is the sequence of accepted messages.  Which addresses are routable is
    decided by the runtime ([src/delivery.rs], [src/actor.rs]) and is an argument
    of the handlers. *)

From S2P Require Import Prelude.

Record Ctx := mkCtx {
  self_addr : ActorAddress;
  accepts : ActorAddress → bool;
}.

(** [ctx.send(addr, msg)]: the messages accepted, and whether the call is [Ok]. *)
Definition ctx_send {M} (ctx : Ctx) (addr : ActorAddress) (msg : M)
    : list (ActorAddress * M) * bool :=
  if accepts ctx addr then ([(addr, msg)], true) else ([], false).

(** [let _ = ctx.send(addr, msg);] *)
Definition post {M} (ctx : Ctx) (addr : ActorAddress) (msg : M)
    : list (ActorAddress * M) := (ctx_send ctx addr msg).1.

(** The messages posted to one address, in order. *)
Definition inbox {M} (addr : ActorAddress) (posts : list (ActorAddress * M)) : list M :=
  snd <$> filter (λ p, p.1 = addr) posts.

Lemma inbox_app {M} addr (p q : list (ActorAddress * M)) :
  inbox addr (p ++ q) = inbox addr p ++ inbox addr q.
Proof. unfold inbox. by rw filter_app fmap_app. Qed.

Lemma post_accepted {M} ctx addr (msg : M) :
  accepts ctx addr = true → post ctx addr msg = [(addr, msg)].
Proof. unfold post, ctx_send. by intros ->. Qed.

(** ** Peer bindings

    The [PeerDirectory] trait: from a node's identity to the mailbox of its
    actor. *)
Class PeerDirectory := resolve : NodeId → option ActorAddress.
