(* ===== verification/SwimActor.v ===== *)
(** * The SWIM actor and the peer bindings

    [crates/distribution/src/swim/actor.rs]: the actor around [SwimNode], its
    translation of actions to sends and notifications, and the shared peer
    directory with its generations. *)

From S2P Require Import Prelude Lww BudgetQueue Types MemberList Dissemination.
From S2P Require Import Lifeguard Probe SwimNode FailureDetection ActorCtx.
#[local] Open Scope N_scope.

(** ** [SharedPeerDirectory] *)

(** The map behind the lock: node id to generation and address. *)
Abbreviation bindings := (gmap NodeId (N * ActorAddress)).

Definition bind (g : bindings) (node_id : NodeId) (actor_addr : ActorAddress)
    (generation : N) : bindings :=
  match g !! node_id with
  | Some (cur_gen, _) =>
      if generation <=? cur_gen then g else <[node_id := (generation, actor_addr)]> g
  | None => <[node_id := (generation, actor_addr)]> g
  end.

Definition unbind (g : bindings) (node_id : NodeId) : bindings := delete node_id g.

(** [verify] stands for [verify_directory_entry]: the Ed25519 check. *)
Definition register (verify : DirectoryEntry → bool) (g : bindings)
    (entry : DirectoryEntry) : bindings * bool :=
  if verify entry
  then (bind g (de_node_id entry) (de_actor_addr entry) (de_generation entry), true)
  else (g, false).

Definition resolve_binding (g : bindings) : PeerDirectory := λ node, snd <$> g !! node.

(** ** Messages *)

Inductive SwimIn :=
  | Ping (from : NodeId) (sequence : N) (piggyback : bytes)
  | Ack (from : NodeId) (sequence : N) (piggyback : bytes)
  | PingReq (from target : NodeId) (sequence : N) (piggyback : bytes)
  | IndirectAck (target : NodeId) (sequence : N) (piggyback : bytes)
  | JoinRequest (from : NodeId)
  | JoinResponse (members : list NodeRecord)
  | TickAt (now : N)
  | SendFailedTo (to : NodeId)
  | Join (seeds : list NodeId)
  | Leave
  | Subscribe (observer : ActorAddress).

(** The struct [MembershipChanged] sent to subscribers. *)
Record Note := mkNote {
  note_node_id : NodeId;
  note_state : MemberState;
  note_incarnation : N;
}.

Inductive Outgoing :=
  | OutSwim (msg : SwimIn)
  | OutNote (note : Note).

Abbreviation posts := (list (ActorAddress * Outgoing)).

(** ** The actor *)

Record SwimActor := mkSwimActor {
  sa_self_id : NodeId;
  sa_node : SwimNode;
  last_now : N;
  subscribers : list ActorAddress;
}.

Definition set_sa_node (a : SwimActor) (v : SwimNode) : SwimActor :=
  mkSwimActor (sa_self_id a) v (last_now a) (subscribers a).
Definition set_last_now (a : SwimActor) (v : N) : SwimActor :=
  mkSwimActor (sa_self_id a) (sa_node a) v (subscribers a).
Definition set_subscribers (a : SwimActor) (v : list ActorAddress) : SwimActor :=
  mkSwimActor (sa_self_id a) (sa_node a) (last_now a) v.

Definition new (self_id : NodeId) (config : SwimConfig) (now : N) : SwimActor :=
  mkSwimActor self_id (SwimNode.new self_id config now) now [].

Definition with_observer (a : SwimActor) : SwimActor :=
  set_sa_node a (set_observer (sa_node a)).

Section actor.
Context `{UpdateCodec} `{PeerDirectory} (ctx : Ctx).

Definition send_to_node (to : NodeId) (msg : SwimIn) : posts :=
  match resolve to with
  | Some addr =>
      let '(sent, ok) := ctx_send ctx addr (OutSwim msg) in
      if ok then sent
      else sent ++ post ctx (self_addr ctx) (OutSwim (SendFailedTo to))
  | None => post ctx (self_addr ctx) (OutSwim (SendFailedTo to))
  end.

Definition dispatch_one (a : SwimActor) (action : NodeAction) : posts :=
  match action with
  | SendPing to seq pb => send_to_node to (Ping (sa_self_id a) seq pb)
  | SendAck to seq pb => send_to_node to (Ack (sa_self_id a) seq pb)
  | SendPingReq relay target seq pb =>
      send_to_node relay (PingReq (sa_self_id a) target seq pb)
  | ForwardAck to target seq pb => send_to_node to (IndirectAck target seq pb)
  | SendJoinResponse to members => send_to_node to (JoinResponse members)
  | MembershipChanged node_id state incarnation =>
      subscribers a ≫= λ sub, post ctx sub (OutNote (mkNote node_id state incarnation))
  end.

Definition dispatch (a : SwimActor) (actions : list NodeAction) : posts :=
  actions ≫= dispatch_one a.

(** Hand an input to the engine and perform the actions it returns. *)
Definition drive (a : SwimActor) (input : NodeInput) : SwimActor * posts :=
  let '(n, acts) := SwimNode.handle (sa_node a) input in
  let a := set_sa_node a n in
  (a, dispatch a acts).

Definition handle (a : SwimActor) (msg : SwimIn) : SwimActor * posts :=
  match msg with
  | TickAt now => drive (set_last_now a now) (InTick now)
  | Ping from seq pb => drive a (InPing from seq pb)
  | Ack from seq pb => drive a (InAck from seq pb)
  | PingReq from target seq pb => drive a (InPingReq from target seq pb)
  | IndirectAck target seq pb => drive a (InIndirectAck target seq pb)
  | JoinRequest from => drive a (InJoinRequest from)
  | JoinResponse members => drive a (InJoinResponse members)
  | SendFailedTo to => drive a (InSendFailed to)
  | Join seeds => (a, seeds ≫= λ seed, send_to_node seed (JoinRequest (sa_self_id a)))
  | Leave => drive a InLeave
  | Subscribe observer => (set_subscribers a (subscribers a ++ [observer]), [])
  end.
End actor.

(** A history of the actor: each message is handled with the routing table and
    the peer bindings of its moment. *)
Record Turn := mkTurn {
  turn_ctx : Ctx;
  turn_bindings : bindings;
  turn_msg : SwimIn;
}.

Definition take_turn `{UpdateCodec} (a : SwimActor) (t : Turn) : SwimActor * posts :=
  @handle _ (resolve_binding (turn_bindings t)) (turn_ctx t) a (turn_msg t).

Definition run `{UpdateCodec} (a : SwimActor) (turns : list Turn) : SwimActor * posts :=
  emit_all take_turn a turns.

(** ** The binding directory *)

(** The order in which bindings replace each other. *)
Definition binding_key (b : N * ActorAddress) : list N := [b.1].

Lemma better_binding a b : better binding_key a b = (b.1 <? a.1).
Proof.
  unfold better, binding_key. cbn [lex_ltb]. by destruct (b.1 <? a.1), (b.1 =? a.1).
Qed.

(** [bind] is a last-writer-wins merge by generation. *)
Lemma bind_lww g node addr gen k :
  bind g node addr gen !! k =
    if decide (node = k) then Some (lww_pick binding_key (g !! k) (gen, addr))
    else g !! k.
Proof.
  unfold bind, lww_pick.
  destruct (g !! node) as [[cur a]|] eqn:E; [destruct (gen <=? cur) eqn:Hg|];
    case_decide as Hk; try subst k; rw ?E ?lookup_insert_eq ?lookup_insert_ne //=;
    rw better_binding /=; bool_to_prop.
  - by rw (proj2 (N.ltb_ge _ _) Hg).
  - by rw (proj2 (N.ltb_lt _ _) Hg).
Qed.

(** The generations registered for a node by the entries that verify. *)
Definition registered (verify : DirectoryEntry → bool) (entries : list DirectoryEntry)
    : bindings :=
  foldl (λ g e, (register verify g e).1) ∅ entries.

(** A peer binding is authentic and current: whatever entries are registered in whatever
    order, a node is bound to an address exactly when some entry of that node verifies,
    and then to the address of a verified entry whose generation no other verified entry
    of the node exceeds. *)
Theorem registered_authentic verify entries node :
  match registered verify entries !! node with
  | Some (gen, addr) =>
      ∃ e, e ∈ entries ∧ verify e = true ∧ de_node_id e = node ∧
        de_actor_addr e = addr ∧ de_generation e = gen ∧
        ∀ e', e' ∈ entries → verify e' = true → de_node_id e' = node →
          de_generation e' <= gen
  | None => ∀ e, e ∈ entries → de_node_id e = node → verify e = false
  end.
Proof.
  unfold registered. induction entries as [|e entries IH] using rev_ind; simpl.
  { by rw lookup_empty; intros e ?%not_elem_of_nil. }
  rw foldl_app /=. set (g := foldl _ ∅ entries) in *. unfold register at 1.
  destruct (verify e) eqn:Hv; simpl; last first.
  { destruct (g !! node) as [[gen addr]|]; [|set_solver].
    destruct IH as (e0 & ? & ? & ? & ? & ? & Hmax). exists e0. split_and!; [set_solver..|].
    intros e' [?| ->%list_elem_of_singleton]%elem_of_app; [by apply Hmax|congruence]. }
  rw bind_lww. case_decide as Hn; last first.
  { destruct (g !! node) as [[gen addr]|]; [|set_solver].
    destruct IH as (e0 & ? & ? & ? & ? & ? & Hmax). exists e0. split_and!; [set_solver..|].
    intros e' [?| ->%list_elem_of_singleton]%elem_of_app; [by apply Hmax|done]. }
  unfold lww_pick. destruct (g !! node) as [[gen addr]|].
  - destruct IH as (e0 & ? & ? & ? & ? & ? & Hmax). rw better_binding /=.
    destruct (gen <? de_generation e) eqn:Hlt; bool_to_prop.
    + exists e. split_and!; try set_solver. intros e' [Hin| ->%list_elem_of_singleton]%elem_of_app;
        [|done].
      intros Hve He'. specialize (Hmax e' Hin Hve He'). lia.
    + exists e0. split_and!; try set_solver.
  - exists e. split_and!; try set_solver.
    intros e' [Hin| ->%list_elem_of_singleton]%elem_of_app; [|done].
    intros Hve He'. specialize (IH e' Hin He'). congruence.
Qed.

(** ** Subscribers *)

(** The notifications among the messages an address receives. *)
Definition notes (sub : ActorAddress) (ps : posts) : list Note :=
  omap (λ m, match m with OutNote x => Some x | OutSwim _ => None end) (inbox sub ps).

Definition fold_note (v : view) (x : Note) : view :=
  <[note_node_id x := (note_state x, note_incarnation x)]> v.

Lemma notes_app sub p q : notes sub (p ++ q) = notes sub p ++ notes sub q.
Proof. unfold notes. by rw inbox_app omap_app. Qed.

Section stream.
Context `{UpdateCodec} `{PeerDirectory} (ctx : Ctx).

Lemma send_to_node_notes sub to msg : notes sub (send_to_node ctx to msg) = [].
Proof.
  unfold send_to_node, post, ctx_send, notes, inbox.
  repeat case_match; simplify_eq/=; rw ?filter_cons; repeat case_decide; done.
Qed.

Lemma publish_notes sub subs x :
  accepts ctx sub = true →
  notes sub (subs ≫= λ s, post ctx s (OutNote x)) =
    replicate (length (filter (λ s, s = sub) subs)) x.
Proof.
  intros Ha. induction subs as [|s subs IH]; [done|]. cbn [mbind list_bind].
  rw notes_app IH. destruct (decide (s = sub)) as [->|Hne].
  - rw filter_cons_True // post_accepted //. unfold notes, inbox.
    rw filter_cons_True //.
  - rw filter_cons_False //. unfold post, ctx_send. case_match; [|done].
    unfold notes, inbox. rw filter_cons_False //.
Qed.

Lemma fold_note_replicate v x k :
  foldl fold_note v (replicate k x) = if decide (k = 0%nat) then v else fold_note v x.
Proof.
  case_decide as Hk; [by subst k|]. destruct k as [|k]; [done|]. clear Hk. simpl.
  assert (∀ w, fold_note (fold_note w x) x = fold_note w x) as Hid.
  { intros w. unfold fold_note. apply insert_insert_eq. }
  generalize v as w. induction k as [|k IH]; intros w; [done|]. simpl. by rw Hid.
Qed.

(** What a subscriber folds is what the engine announced. *)
Lemma dispatch_fold sub a acts v :
  accepts ctx sub = true → sub ∈ subscribers a →
  foldl fold_note v (notes sub (dispatch ctx a acts)) = foldl announce v acts.
Proof.
  intros Ha Hin. revert v; induction acts as [|act acts IH]; intros v; [done|].
  unfold dispatch in *. cbn [mbind list_bind]. rw notes_app foldl_app IH. simpl. f_equal.
  destruct act; cbn [dispatch_one]; rw ?send_to_node_notes //.
  rw publish_notes // fold_note_replicate. case_decide as E; [|done].
  apply nil_length_inv in E. assert (sub ∈ filter (λ s, s = sub) (subscribers a)) as Hs
    by by apply list_elem_of_filter.
  rw E in Hs. by apply not_elem_of_nil in Hs.
Qed.

Lemma drive_fold sub a i :
  accepts ctx sub = true → sub ∈ subscribers a → node_wf (sa_node a) →
  let r := drive ctx a i in
  node_wf (sa_node r.1) ∧ sub ∈ subscribers r.1 ∧
  foldl fold_note (view_of (sn_members (sa_node a))) (notes sub r.2) =
    view_of (sn_members (sa_node r.1)).
Proof.
  intros Ha Hin Hn. cbn zeta. unfold drive.
  pose proof (handle_sound (sa_node a) i Hn) as [Hn' Hm _].
  destruct (SwimNode.handle (sa_node a) i) as [n acts]; cbn [fst snd] in *.
  split_and!; [done|done|]. by rw dispatch_fold.
Qed.

Lemma notes_joins sub id seeds :
  notes sub (seeds ≫= λ seed, send_to_node ctx seed (JoinRequest id)) = [].
Proof.
  induction seeds as [|s seeds IH]; [done|]. cbn [mbind list_bind].
  by rw notes_app send_to_node_notes.
Qed.

Lemma handle_fold sub a msg :
  accepts ctx sub = true → sub ∈ subscribers a → node_wf (sa_node a) →
  let r := handle ctx a msg in
  node_wf (sa_node r.1) ∧ sub ∈ subscribers r.1 ∧
  foldl fold_note (view_of (sn_members (sa_node a))) (notes sub r.2) =
    view_of (sn_members (sa_node r.1)).
Proof.
  intros Ha Hin Hn. destruct msg; cbn [handle]; try by apply drive_fold.
  - by apply (drive_fold sub (set_last_now a now)).
  - by rw notes_joins.
  - split_and!; [done| |done]. simpl. set_solver.
Qed.
End stream.

(** A subscriber knows the membership: an address that subscribes first and stays
    routable can fold the notifications it receives, from any history of messages,
    routing tables and bindings, into exactly the actor's member list. *)
Theorem subscriber_mirrors `{UpdateCodec} id c now sub first turns :
  turn_msg first = Subscribe sub →
  Forall (λ t, accepts (turn_ctx t) sub = true) turns →
  let r := run (new id c now) (first :: turns) in
  foldl fold_note ∅ (notes sub r.2) = view_of (sn_members (sa_node r.1)).
Proof.
  intros Hf Ht. cbn zeta. unfold run. cbn [emit_all].
  assert (take_turn (new id c now) first = (set_subscribers (new id c now) [sub], [])) as ->.
  { unfold take_turn. by rw Hf. }
  cbn [fst snd app]. set (a := set_subscribers (new id c now) [sub]).
  assert (sub ∈ subscribers a ∧ node_wf (sa_node a) ∧
    view_of (sn_members (sa_node a)) = ∅) as (Hin & Hn & <-).
  { split_and!; [set_solver|apply node_new_wf|apply fmap_empty]. }
  clearbody a. clear Hf first. revert a Hin Hn.
  induction Ht as [|t turns Ha Ht IH]; intros a Hin Hn; [done|].
  pose proof (@handle_fold _ (resolve_binding (turn_bindings t)) (turn_ctx t) sub a
    (turn_msg t) Ha Hin Hn) as (Hn' & Hin' & Hv).
  change (handle (turn_ctx t) a (turn_msg t)) with (take_turn a t) in *.
  cbn [emit_all fst snd]. rw notes_app foldl_app. unfold take_turn at 1. rw Hv.
  by apply (IH (take_turn a t).1).
Qed.

Definition example_turns : list Turn :=
  [mkTurn (mkCtx 100 (λ _, true)) ∅ (JoinRequest 2);
   mkTurn (mkCtx 100 (λ _, true)) {[2 := (1, 200)]} (TickAt (millis 200))].

Lemma subscriber_mirrors_witness :
  let r := @run bit_codec (new 1 default_swim_config 0)
             (mkTurn (mkCtx 100 (λ _, true)) ∅ (Subscribe 300) :: example_turns) in
  foldl fold_note ∅ (notes 300 r.2) = view_of (sn_members (sa_node r.1)).
Proof.
  apply (@subscriber_mirrors bit_codec); [done|]. by repeat constructor.
Defined.

(** ** Send failures *)

(** When a failed send to [to] calls for nothing. *)
Definition nothing_to_probe (p : SwimProbe) (to : NodeId) (ml : MemberList) : Prop :=
  ∀ e, get ml to = Some e → me_state e ≠ Dead →
    is_currently_probing p to = true ∨ to ∈ demand_queue p ∨
    phase p ≠ Idle ∧ (MAX_DEMAND_QUEUE ≤ length (demand_queue p))%nat.

Lemma handle_send_failed_noop p to ml :
  nothing_to_probe p to ml → handle_send_failed p to ml = (p, []).
Proof.
  intros Hn. unfold handle_send_failed, push_demand.
  destruct (get ml to) as [e|] eqn:E; [|done]. specialize (Hn e E).
  case_decide; [done|]. destruct (is_currently_probing p to) eqn:Ep; [done|].
  case_decide; [done|]. destruct Hn as [?|[?|[Hi Hl]]]; [done..|].
  apply Nat.ltb_ge in Hl. by destruct (phase p); rw ?Hl.
Qed.

Lemma handle_send_failed_settles p to ml :
  let p' := (handle_send_failed p to ml).1 in
  nothing_to_probe p' to ml ∧ now p' = now p.
Proof.
  cbn zeta. unfold handle_send_failed, nothing_to_probe.
  destruct (get ml to) as [e|] eqn:E; [|done].
  case_decide; [split; [naive_solver|done]|].
  destruct (is_currently_probing p to) eqn:Ep; [by auto|].
  case_decide; [by auto|].
  assert (phase p = Idle ∨ phase p ≠ Idle ∧
    match phase p with Idle => start_probe_for p to | _ => (push_demand p to, []) end =
      (push_demand p to, [])) as [Hi|[Hi ->]] by (destruct (phase p); auto).
  - rw Hi. split; [|done]. intros _ _ _. left. apply N.eqb_refl.
  - unfold push_demand. cbn [fst].
    destruct (length (demand_queue p) <? MAX_DEMAND_QUEUE)%nat eqn:El; (split; [|done]).
    + intros _ _ _. right; left. simpl. set_solver.
    + intros _ _ _. bool_to_prop. auto.
Qed.

Lemma translate_pings `{UpdateCodec} n acts :
  node_wf n → pings acts →
  let n' := (translate_probe_actions n acts).1 in
  sn_members n' = sn_members n ∧ clock n' = clock n.
Proof.
  intros Hn Ha. revert n Hn; induction Ha as [|pa acts (to & seq & ->) _ IH]; intros n Hn;
    [done|].
  destruct (translate_one_quiet n (ActSendPing to seq) Hn ltac:(done)) as (Hn' & Hm & _).
  destruct (IH _ Hn') as [E1 E2]. split; [etrans; [exact E1|exact Hm]|].
  etrans; [exact E2|]. unfold translate_one, observe, gossip, pack.
  repeat case_match; simplify_eq/=; done.
Qed.

Lemma report_settles `{UpdateCodec} n to :
  node_wf n →
  let n1 := (report_send_failure n to).1 in report_send_failure n1 to = (n1, []).
Proof.
  intros Hn. cbn zeta. set (p := set_now (sn_probe n) (clock n)).
  pose proof (handle_send_failed_settles p to (sn_members n)) as [Hq Hnow].
  assert (pings (handle_send_failed p to (sn_members n)).2) as Hacts.
  { unfold handle_send_failed, start_probe_for. repeat case_match; simpl;
      auto using pings_nil, pings_one. }
  assert (probe_wf (handle_send_failed p to (sn_members n)).1) as Hp'.
  { apply handle_send_failed_wf, set_now_wf, Hn. }
  assert (∃ p' acts, handle_send_failed p to (sn_members n) = (p', acts) ∧
    (report_send_failure n to).1 =
      (translate_probe_actions (set_sn_members (set_sn_probe n p') (sn_members n)) acts).1)
    as (p' & acts & E & ->).
  { unfold report_send_failure, step_probe, step. fold p.
    destruct (handle_send_failed p to (sn_members n)) as [p' acts]. by exists p', acts. }
  rw E in Hq, Hnow, Hacts, Hp'. cbn [fst snd] in *.
  set (n0 := set_sn_members (set_sn_probe n p') (sn_members n)).
  assert (node_wf n0) as Hn0 by (unfold n0; auto with swactor).
  destruct (translate_pings n0 acts Hn0 Hacts) as [Hm Hc].
  pose proof (translate_probe n0 acts) as Hpr.
  set (n1 := (translate_probe_actions n0 acts).1) in *. clearbody n1.
  unfold report_send_failure, step_probe, step. rw Hc Hpr Hm.
  change (clock n0) with (clock n). change (sn_probe n0) with p'.
  change (sn_members n0) with (sn_members n).
  assert (set_now p' (clock n) = p') as ->.
  { change (clock n) with (now p). rw -Hnow. by destruct p'. }
  rw handle_send_failed_noop //. unfold translate_probe_actions; cbn [emit_all].
  f_equal. change p' with (sn_probe n0). change (sn_members n) with (sn_members n0).
  rw -Hpr -Hm. by destruct n1.
Qed.

(** A failed send never feeds on itself: after a node has reacted to a failed send (by
    probing the peer, whose ping may fail in turn, or by queueing it), further reports
    of failed sends to the same peer change nothing and send nothing. *)
Theorem send_failure_absorbed `{UpdateCodec} dir dir' ctx ctx' a to :
  node_wf (sa_node a) →
  let a1 := (@handle _ dir ctx a (SendFailedTo to)).1 in
  @handle _ dir' ctx' a1 (SendFailedTo to) = (a1, []).
Proof.
  intros Hn. cbn zeta. cbn [handle]. unfold drive. cbn [SwimNode.handle].
  pose proof (report_settles (sa_node a) to Hn) as Hs. cbn zeta in Hs.
  destruct (report_send_failure (sa_node a) to) as [n1 acts]; cbn [fst] in *.
  by rw Hs.
Qed.

Lemma send_failure_absorbed_witness :
  let a := set_sa_node (new 1 default_swim_config 0) example_node in
  let a1 := (@handle bit_codec (resolve_binding ∅) (mkCtx 100 (λ _, true)) a
               (SendFailedTo 2)).1 in
  @handle bit_codec (resolve_binding ∅) (mkCtx 100 (λ _, true)) a1 (SendFailedTo 2)
  = (a1, []).
Proof. apply (@send_failure_absorbed bit_codec). apply example_node_steady. Defined.
