(* ===== verification/Registry.v ===== *)
(** * The cluster name registry

    [crates/distribution/src/registry.rs]: names bound to actors, replicated as
    last-writer-wins entries ordered by (timestamp, generation, node id), with
    tombstones, a dissemination queue and an event buffer.  The [HashMap] of
    entries is a [gmap]; where the code iterates it, the order is an argument
    ([HashOrder]). *)

From S2P Require Import Prelude Lww BudgetQueue Types.
#[local] Open Scope N_scope.

Record RegistryConfig := mkRegistryConfig {
  max_events : nat;
  tombstone_ttl : N;
  gc_interval : N;
  dissemination_lambda : nat;
}.

Definition default_registry_config : RegistryConfig := mkRegistryConfig 256 3600 1000 3.

Record RegistryEntry := mkRegistryEntry {
  re_name : string;
  re_actor_addr : ActorAddress;
  re_node_id : NodeId;
  re_timestamp : N;
  re_generation : N;
  re_tombstone : bool;
}.

#[export] Instance RegistryEntry_eq_dec : EqDecision RegistryEntry.
Proof. solve_decision. Defined.

Inductive RegistryEvent :=
  | Registered (name : string) (actor_addr : ActorAddress) (node_id : NodeId)
  | Unregistered (name : string) (previous_addr : ActorAddress).

Record RegistrySnapshot := mkRegistrySnapshot {
  rs_size : nat;
  rs_tombstones : nat;
  rs_entries : list RegistryEntry;
}.

Record ClusterRegistry := mkClusterRegistry {
  entries : gmap string RegistryEntry;
  dissemination : list (pending RegistryEntry);
  clock : N;
  events : list RegistryEvent;
  config : RegistryConfig;
  tick_count : N;
}.

Definition registry_eta (r : ClusterRegistry) : ClusterRegistry :=
  mkClusterRegistry (entries r) (dissemination r) (clock r) (events r) (config r)
    (tick_count r).

Definition set_entries (r : ClusterRegistry) (v : gmap string RegistryEntry) : ClusterRegistry :=
  ltac:(update_field registry_eta r entries v).
Definition set_dissemination (r : ClusterRegistry) (v : list (pending RegistryEntry))
    : ClusterRegistry := ltac:(update_field registry_eta r dissemination v).
Definition set_clock (r : ClusterRegistry) (v : N) : ClusterRegistry :=
  ltac:(update_field registry_eta r clock v).
Definition set_events (r : ClusterRegistry) (v : list RegistryEvent) : ClusterRegistry :=
  ltac:(update_field registry_eta r events v).
Definition set_tick_count (r : ClusterRegistry) (v : N) : ClusterRegistry :=
  ltac:(update_field registry_eta r tick_count v).

Definition new (config : RegistryConfig) : ClusterRegistry :=
  mkClusterRegistry ∅ [] 0 [] config 0.

(** [lww_wins]: higher timestamp, then higher generation, then higher node id. *)
Definition lww_wins (incoming existing : RegistryEntry) : bool :=
  if negb (re_timestamp incoming =? re_timestamp existing)
  then re_timestamp existing <? re_timestamp incoming
  else if negb (re_generation incoming =? re_generation existing)
  then re_generation existing <? re_generation incoming
  else re_node_id existing <? re_node_id incoming.

Definition emit_event (r : ClusterRegistry) (entry : RegistryEntry) : ClusterRegistry :=
  let event :=
    if re_tombstone entry then Unregistered (re_name entry) (re_actor_addr entry)
    else Registered (re_name entry) (re_actor_addr entry) (re_node_id entry) in
  let evs := events r ++ [event] in
  set_events r (drop (length evs - max_events (config r)) evs).

Definition merge (r : ClusterRegistry) (remote : RegistryEntry) : ClusterRegistry * bool :=
  if match entries r !! re_name remote with
     | Some existing => negb (lww_wins remote existing)
     | None => false
     end
  then (r, false)
  else
    let changed :=
      match entries r !! re_name remote with
      | Some existing => bool_decide (existing ≠ remote)
      | None => true
      end in
    let r :=
      if changed then
        let r := emit_event r remote in
        if clock r <=? re_timestamp remote
        then set_clock r (re_timestamp remote +64 1) else r
      else r in
    (set_entries r (<[re_name remote := remote]> (entries r)), changed).

Definition next_generation (r : ClusterRegistry) (name : string) : N :=
  match entries r !! name with
  | Some e => re_generation e +64 1
  | None => 1
  end.

Definition transmit_budget (r : ClusterRegistry) (cluster_size : nat) : nat :=
  gossip_budget (dissemination_lambda (config r)) cluster_size.

(** An entry for a queued name always replaces it. *)
Definition enqueue (r : ClusterRegistry) (entry : RegistryEntry) (cluster_size : nat)
    : ClusterRegistry :=
  set_dissemination r
    (put re_name (λ _ _, true) entry (transmit_budget r cluster_size) (dissemination r)).

Definition merge_and_enqueue (r : ClusterRegistry) (entry : RegistryEntry)
    (cluster_size : nat) : ClusterRegistry :=
  let '(r, merged) := merge r entry in
  if merged then enqueue r entry cluster_size else r.

Definition merge_batch (r : ClusterRegistry) (es : list RegistryEntry)
    (cluster_size : nat) : ClusterRegistry :=
  foldl (λ r e, merge_and_enqueue r e cluster_size) r es.

Definition register (r : ClusterRegistry) (name : string) (actor_addr : ActorAddress)
    (node_id : NodeId) (cluster_size : nat) : ClusterRegistry :=
  let r := set_clock r (clock r +64 1) in
  let generation := next_generation r name in
  merge_and_enqueue r
    (mkRegistryEntry name actor_addr node_id (clock r) generation false) cluster_size.

Definition register_at (r : ClusterRegistry) (name : string) (actor_addr : ActorAddress)
    (node_id : NodeId) (timestamp : N) (cluster_size : nat) : ClusterRegistry :=
  let r := set_clock r (N.max (u64_saturating_add (clock r) 1) timestamp) in
  let generation := next_generation r name in
  merge_and_enqueue r
    (mkRegistryEntry name actor_addr node_id (clock r) generation false) cluster_size.

Definition unregister (r : ClusterRegistry) (name : string) (node_id : NodeId)
    (cluster_size : nat) : ClusterRegistry :=
  let r := set_clock r (clock r +64 1) in
  let generation := next_generation r name in
  let actor_addr := default 0 (re_actor_addr <$> entries r !! name) in
  merge_and_enqueue r
    (mkRegistryEntry name actor_addr node_id (clock r) generation true) cluster_size.

Definition resolve (r : ClusterRegistry) (name : string) : option (ActorAddress * NodeId) :=
  match entries r !! name with
  | Some e => if re_tombstone e then None else Some (re_actor_addr e, re_node_id e)
  | None => None
  end.

Definition take_pending (r : ClusterRegistry) (max_count : nat)
    : ClusterRegistry * list RegistryEntry :=
  let b := take_batch max_count (dissemination r) in
  (set_dissemination r b.1, b.2).

Section iteration.
Context {ord : HashOrder string RegistryEntry}.

(** The loop body of [tombstone_node]; the name was read from the map. *)
Definition tombstone_one (dead_node_id : NodeId) (cluster_size : nat)
    (r : ClusterRegistry) (name : string) : ClusterRegistry :=
  let r := set_clock r (clock r +64 1) in
  let generation := next_generation r name in
  match entries r !! name with
  | Some e =>
      merge_and_enqueue r
        (mkRegistryEntry name (re_actor_addr e) dead_node_id (clock r) generation true)
        cluster_size
  | None => r
  end.

Definition tombstone_node (r : ClusterRegistry) (dead_node_id : NodeId)
    (cluster_size : nat) : ClusterRegistry :=
  let owned :=
    fst <$> filter (λ ke, re_node_id ke.2 = dead_node_id ∧ re_tombstone ke.2 = false)
              (hash_iter (entries r)) in
  foldl (tombstone_one dead_node_id cluster_size) r owned.

Definition re_disseminate_all (r : ClusterRegistry) (cluster_size : nat) : ClusterRegistry :=
  foldl (λ r e, enqueue r e cluster_size) r (snd <$> hash_iter (entries r)).

Definition entries_iter (r : ClusterRegistry) : list RegistryEntry :=
  snd <$> hash_iter (entries r).

Definition snapshot (r : ClusterRegistry) : RegistrySnapshot :=
  let es := sort_by (λ a b, str_le (re_name a) (re_name b)) (entries_iter r) in
  mkRegistrySnapshot (length es) (length (filter (λ e, re_tombstone e = true) es)) es.
End iteration.

(** [u64::is_multiple_of]. *)
Definition is_multiple_of (n d : N) : bool :=
  if d =? 0 then n =? 0 else n mod d =? 0.

Definition gc_tick (r : ClusterRegistry) : ClusterRegistry :=
  let r := set_tick_count r (tick_count r +64 1) in
  if negb (is_multiple_of (tick_count r) (gc_interval (config r))) then r
  else
    let pending_names := re_name ∘ pd_item <$> dissemination r in
    set_entries r
      (filter (λ ne, ¬ (re_tombstone ne.2 = true ∧ ne.1 ∉ pending_names) ∨
                     clock r - re_timestamp ne.2 < tombstone_ttl (config r))
         (entries r)).

Definition drain_events (r : ClusterRegistry) : ClusterRegistry * list RegistryEvent :=
  (set_events r [], events r).

Definition len (r : ClusterRegistry) : nat := size (entries r).

Definition is_empty (r : ClusterRegistry) : bool := (len r =? 0)%nat.

Definition tombstone_count (r : ClusterRegistry) : nat :=
  size (filter (λ ne, re_tombstone ne.2 = true) (entries r)).

(** ** Refinement of the last-writer-wins map *)

Definition re_key (e : RegistryEntry) : list N :=
  [re_timestamp e; re_generation e; re_node_id e].

Lemma lww_wins_better a b : lww_wins a b = better re_key a b.
Proof.
  unfold lww_wins, better, re_key. cbn [lex_ltb].
  destruct (N.eqb_spec (re_timestamp a) (re_timestamp b)) as [E|E]; cbn [negb].
  - rw E N.ltb_irrefl N.eqb_refl /=.
    destruct (N.eqb_spec (re_generation a) (re_generation b)) as [E'|E']; cbn [negb].
    + rw E' N.ltb_irrefl N.eqb_refl /=. by destruct (_ <? _), (_ =? _).
    + rw (proj2 (N.eqb_neq (re_generation b) _)); [done|]. by rw orb_false_r.
  - rw (proj2 (N.eqb_neq (re_timestamp b) _)); [done|]. by rw orb_false_r.
Qed.

(** What [merge] decides. *)
Definition accepts (r : ClusterRegistry) (e : RegistryEntry) : bool :=
  match entries r !! re_name e with
  | Some c => better re_key e c
  | None => true
  end.

Lemma merge_cases r e :
  merge r e =
    if accepts r e then
      let r' := emit_event r e in
      (set_entries (if clock r <=? re_timestamp e then set_clock r' (re_timestamp e +64 1)
                    else r') (<[re_name e := e]> (entries r)), true)
    else (r, false).
Proof.
  unfold merge, accepts. destruct (entries r !! re_name e) as [c|] eqn:E.
  - rw lww_wins_better. destruct (better re_key e c) eqn:Hb; simpl; [|done].
    rw bool_decide_eq_true_2; [intros ->; by rw better_irrefl in Hb|].
    by destruct (clock r <=? re_timestamp e).
  - simpl. by destruct (clock r <=? re_timestamp e).
Qed.

Lemma merge_entries r e :
  entries (merge r e).1 = lww_merge re_key re_name (entries r) e.
Proof.
  rw merge_cases. unfold accepts, lww_merge, lww_pick.
  destruct (entries r !! re_name e) as [c|] eqn:E; [|by destruct (_ <=? _)].
  destruct (better re_key e c); [by destruct (_ <=? _)|]. by rw insert_id.
Qed.

Lemma merge_and_enqueue_entries r e n :
  entries (merge_and_enqueue r e n) = lww_merge re_key re_name (entries r) e.
Proof.
  rw -merge_entries. unfold merge_and_enqueue. by destruct (merge r e) as [r' []].
Qed.

Lemma merge_batch_entries r es n :
  entries (merge_batch r es n) = lww_merges re_key re_name (entries r) es.
Proof.
  unfold merge_batch, lww_merges. revert r; induction es as [|e es IH]; intros r; [done|].
  simpl. by rw IH merge_and_enqueue_entries.
Qed.

(** ** The invariant *)

(** Every entry is stored under its name. *)
Definition named (r : ClusterRegistry) : Prop :=
  ∀ k e, entries r !! k = Some e → re_name e = k.

Lemma merge_and_enqueue_named r e n : named r → named (merge_and_enqueue r e n).
Proof.
  intros Hr k x. rw merge_and_enqueue_entries lww_merge_lookup. case_decide; [|apply Hr].
  intros [= <-]. unfold lww_pick. destruct (entries r !! k) as [c|] eqn:E; [|done].
  case_match; [done|by apply Hr].
Qed.

Lemma merge_batch_named r es n : named r → named (merge_batch r es n).
Proof.
  apply foldl_invariant'. intros. by apply merge_and_enqueue_named.
Qed.

Lemma gc_tick_named r : named r → named (gc_tick r).
Proof.
  intros Hr k e. unfold gc_tick. case_match; [apply Hr|].
  intros [??]%map_lookup_filter_Some. by apply Hr.
Qed.

Lemma tombstone_node_named ord r node n : named r → named (tombstone_node (ord := ord) r node n).
Proof.
  apply foldl_invariant'. intros r' k Hr'. unfold tombstone_one.
  case_match; [by apply merge_and_enqueue_named|done].
Qed.

Lemma re_disseminate_all_entries ord r n :
  entries (re_disseminate_all (ord := ord) r n) = entries r.
Proof.
  unfold re_disseminate_all.
  by apply (foldl_invariant' (λ q, entries q = entries r)).
Qed.

Record wf (r : ClusterRegistry) : Prop := {
  wf_name : named r;
  wf_clock k e : entries r !! k = Some e → re_timestamp e <= clock r;
  wf_queue : queue_wf re_name (dissemination r);
  wf_events : (length (events r) ≤ max_events (config r))%nat;
  wf_lambda : (0 < dissemination_lambda (config r))%nat;
}.

Lemma reg_new_wf c : (0 < dissemination_lambda c)%nat → wf (new c).
Proof.
  split; simpl; try done; [..|apply queue_wf_nil|lia]; by intros k e; rw lookup_empty.
Qed.

Lemma reg_budget_pos r n : wf r → (0 < transmit_budget r n)%nat.
Proof. intros Hr. by apply gossip_budget_pos, Hr. Qed.

Lemma reg_enqueue_wf r e n : wf r → wf (enqueue r e n).
Proof.
  intros Hr. pose proof (reg_budget_pos r n Hr). destruct Hr.
  split; try done. by apply put_wf.
Qed.

Lemma emit_event_bound r e :
  (length (events (emit_event r e)) ≤ max_events (config r))%nat.
Proof. unfold emit_event. cbn [events set_events]. rw length_drop. lia. Qed.

(** Merging an entry whose timestamp leaves room for the clock preserves the
    invariant. *)
Lemma merge_wf r e : wf r → re_timestamp e < u64_max → wf (merge r e).1.
Proof.
  intros Hr Hts. rw merge_cases. destruct (accepts r e); [|done]. cbn zeta.
  assert (re_timestamp e +64 1 = re_timestamp e + 1) as Hadd.
  { unfold u64_add. apply N.mod_small. unfold u64_max, u64_modulus in *. lia. }
  destruct Hr as [Hn Hc Hq He Hl]. split; cbn [fst].
  - intros k x. simpl. rw lookup_insert. case_decide; [by intros [= <-]|apply Hn].
  - intros k x. simpl. rw lookup_insert. intros Hx.
    assert (re_timestamp x = re_timestamp e ∨ re_timestamp x <= clock r) as Hle.
    { case_decide; [by left; injection Hx as ->|right; by eapply Hc]. }
    destruct (clock r <=? re_timestamp e) eqn:Ecl; bool_to_prop; simpl; rw ?Hadd; lia.
  - by destruct (clock r <=? re_timestamp e).
  - pose proof (emit_event_bound r e). by destruct (clock r <=? re_timestamp e).
  - by destruct (clock r <=? re_timestamp e).
Qed.

Lemma merge_and_enqueue_wf r e n :
  wf r → re_timestamp e < u64_max → wf (merge_and_enqueue r e n).
Proof.
  intros Hr Ht. pose proof (merge_wf r e Hr Ht) as Hm. unfold merge_and_enqueue.
  destruct (merge r e) as [r' []]; [by apply reg_enqueue_wf|done].
Qed.

Lemma merge_batch_wf r es n :
  wf r → Forall (λ e, re_timestamp e < u64_max) es → wf (merge_batch r es n).
Proof.
  intros Hr He. apply (foldl_invariant wf _ (λ e, re_timestamp e < u64_max)); try done.
  intros r' e Ht Hr'. by apply merge_and_enqueue_wf.
Qed.

Lemma reg_set_clock_wf r v : wf r → clock r <= v → wf (set_clock r v).
Proof.
  intros [] ?. split; try done. intros k e Hk. simpl. etrans; [by eapply wf_clock0|done].
Qed.

Lemma take_pending_wf r n : wf r → wf (take_pending r n).1.
Proof. intros []. split; try done. by apply take_batch_wf. Qed.

Lemma gc_tick_wf r : wf r → wf (gc_tick r).
Proof.
  intros []. unfold gc_tick. case_match; split; try done; simpl.
  - intros k e [??]%map_lookup_filter_Some. eauto.
  - intros k e [??]%map_lookup_filter_Some. eauto.
Qed.
#[export] Hint Resolve reg_new_wf reg_enqueue_wf merge_and_enqueue_wf merge_batch_wf
  take_pending_wf gc_tick_wf : swactor.

(** ** Replication *)

(** C14. Registries converge: two registries with the same entries that merge the same
    set of remote entries, in any batches, orders and repetitions and at any cluster
    sizes, hold the same entries, provided no two of the merged entries tie on
    (timestamp, generation, node id). *)
Theorem registry_converges r r' es es' n n' :
  entries r = entries r' → (∀ e, e ∈ es ↔ e ∈ es') → distinct_keys re_key re_name es →
  entries (merge_batch r es n) = entries (merge_batch r' es' n').
Proof. intros E Hes Hd. rw !merge_batch_entries E. by apply lww_merges_set. Qed.

Definition entry_a : RegistryEntry := mkRegistryEntry "svc" 10 1 5 1 false.
Definition entry_b : RegistryEntry := mkRegistryEntry "svc" 20 2 5 1 false.

Lemma registry_converges_witness :
  entries (merge_batch (new default_registry_config) [entry_a; entry_b] 3) =
  entries (merge_batch (new default_registry_config) [entry_b; entry_a; entry_b] 9).
Proof.
  apply registry_converges; [done| |].
  - intros e. rw !elem_of_cons. intuition auto.
  - intros a b. rw !elem_of_cons !elem_of_nil. intros [->|[->|[]]] [->|[->|[]]]; done.
Defined.

(** Node 1 registers [svc] and node 2 learns of it.  Then node 2 wrongly declares
    node 1 dead and tombstones its name while node 1 registers [svc] again: both
    writes carry node 1's id, the same timestamp and the same generation. *)
Definition first_write : ClusterRegistry :=
  register (new default_registry_config) "svc" 10 1 2.

Lemma first_write_wf : wf first_write.
Proof.
  apply merge_and_enqueue_wf; [|by vm_compute]. apply reg_set_clock_wf; [|by vm_compute].
  apply reg_new_wf. simpl. lia.
Qed.

Definition owner : ClusterRegistry := register first_write "svc" 12 1 2.

Definition accuser : ClusterRegistry :=
  tombstone_node (ord := default_order _ _)
    (merge_batch (new default_registry_config)
       (entries_iter (ord := default_order _ _) first_write) 2) 1 2.

(** Exchange everything both ways. *)
Definition exchange (r r' : ClusterRegistry) : ClusterRegistry * ClusterRegistry :=
  (merge_batch r (entries_iter (ord := default_order _ _) r') 2,
   merge_batch r' (entries_iter (ord := default_order _ _) r) 2).

(** C37. Entries that tie on (timestamp, generation, node id) break convergence: a
    tombstone written for a node declared dead ties with that node's own next
    registration, and the two registries disagree on the name however often they
    exchange their entries. *)
Theorem registry_tie_diverges k :
  let '(o, a) := Nat.iter k (λ p, exchange p.1 p.2) (owner, accuser) in
  resolve o "svc" = Some (12, 1) ∧ resolve a "svc" = None.
Proof.
  assert (Nat.iter k (λ p, exchange p.1 p.2) (owner, accuser) = (owner, accuser)) as ->.
  { induction k as [|k IH]; [done|]. rw Nat.iter_succ IH. by vm_compute. }
  by vm_compute.
Qed.

(** ** Local writes *)

Lemma u64_succ n : n < u64_max → n +64 1 = n + 1.
Proof. intros. unfold u64_add. apply N.mod_small. unfold u64_max, u64_modulus in *. lia. Qed.

(** A write newer than everything held takes effect. *)
Lemma newer_entry_wins r e n :
  wf r → clock r < re_timestamp e →
  entries (merge_and_enqueue r e n) = <[re_name e := e]> (entries r).
Proof.
  intros Hr Ht. rw merge_and_enqueue_entries. unfold lww_merge, lww_pick.
  destruct (entries r !! re_name e) as [c|] eqn:E; [|done].
  assert (better re_key e c = true) as ->; [|done].
  pose proof (wf_clock _ Hr _ _ E). unfold better, re_key. cbn [lex_ltb].
  by rw (proj2 (N.ltb_lt (re_timestamp c) (re_timestamp e))); [lia|].
Qed.

(** The entry [e] of a local write as the map keeps it. *)
Lemma local_write r ts e n :
  wf r → clock r < ts → re_timestamp e = ts →
  entries (merge_and_enqueue (set_clock r ts) e n) = <[re_name e := e]> (entries r).
Proof.
  intros Hr Hlt He. rw merge_and_enqueue_entries.
  change (entries (set_clock r ts)) with (entries r).
  rw -(merge_and_enqueue_entries r e n). apply newer_entry_wins; [done|lia].
Qed.

Lemma merge_and_enqueue_clock r e n :
  re_timestamp e < u64_max →
  clock (merge_and_enqueue r e n) <= N.max (clock r) (re_timestamp e + 1).
Proof.
  intros Ht. unfold merge_and_enqueue. rw merge_cases. destruct (accepts r e); [|simpl; lia].
  cbn zeta. destruct (clock r <=? re_timestamp e); simpl; rw ?u64_succ //; lia.
Qed.

(** A local write takes effect at once: as long as the logical clock has not reached its
    maximum, a name resolves to what was last registered for it on this node, to nothing
    once it is unregistered, and other names are not affected. *)
Theorem local_writes_take_effect r name addr node ts n :
  wf r → clock r < u64_max →
  resolve (register r name addr node n) name = Some (addr, node) ∧
  resolve (register_at r name addr node ts n) name = Some (addr, node) ∧
  resolve (unregister r name node n) name = None ∧
  ∀ name', name' ≠ name →
    resolve (register r name addr node n) name' = resolve r name' ∧
    resolve (register_at r name addr node ts n) name' = resolve r name' ∧
    resolve (unregister r name node n) name' = resolve r name'.
Proof.
  intros Hr Hc. unfold resolve, register, register_at, unregister.
  assert (clock r < clock r +64 1) by by rw u64_succ //; lia.
  assert (clock r < N.max (u64_saturating_add (clock r) 1) ts).
  { unfold u64_saturating_add. lia. }
  split_and!; [..|intros name' Hne; split_and!];
    rw local_write // ?lookup_insert_eq ?lookup_insert_ne //.
Qed.

Lemma local_writes_take_effect_witness :
  resolve (register (merge_batch (new default_registry_config) [entry_a] 3) "svc" 99 3 3)
    "svc" = Some (99, 3).
Proof.
  refine (proj1 (local_writes_take_effect _ "svc" 99 3 0 3 _ _)); [|by vm_compute].
  apply merge_batch_wf; [apply reg_new_wf; simpl; lia|]. constructor; [by vm_compute|constructor].
Defined.

(** An entry at the last timestamp, as any peer can send it. *)
Definition last_entry : RegistryEntry := mkRegistryEntry "svc" 10 2 u64_max 1 false.

(** At the maximum they are lost: merging an entry with the last timestamp wraps the
    logical clock to zero (the sum that saturates in [register_at] wraps in [merge]),
    and the next registration of that name has no effect at all. *)
Theorem clock_overflow_loses_writes :
  let r := (merge (new default_registry_config) last_entry).1 in
  clock r = 0 ∧ resolve (register r "svc" 20 1 2) "svc" = Some (10, 2).
Proof. by vm_compute. Qed.

(** ** Tombstoning a dead node *)

Definition owned_by (node : NodeId) (e : RegistryEntry) : Prop :=
  re_node_id e = node ∧ re_tombstone e = false.

Lemma tombstone_one_spec r node n name e :
  wf r → clock r + 2 < u64_max → entries r !! name = Some e →
  let r' := tombstone_one node n r name in
  wf r' ∧ clock r' <= clock r + 2 ∧
  ∃ ts g, entries r' =
    <[name := mkRegistryEntry name (re_actor_addr e) node ts g true]> (entries r).
Proof.
  intros Hr Hc He. cbn zeta. unfold tombstone_one.
  change (entries (set_clock r (clock r +64 1))) with (entries r). rw He.
  assert (clock r +64 1 = clock r + 1) as -> by by apply u64_succ; lia.
  cbn [clock set_clock]. set (t := mkRegistryEntry _ _ _ _ _ _).
  split_and!.
  - apply merge_and_enqueue_wf; [apply reg_set_clock_wf; [done|lia]|]. simpl. lia.
  - pose proof (merge_and_enqueue_clock (set_clock r (clock r + 1)) t n) as H1.
    simpl in H1. specialize (H1 ltac:(lia)). lia.
  - eexists _, _. rw (local_write r (clock r + 1) t) //. lia.
Qed.

Lemma tombstone_names_spec r node n names :
  wf r → clock r + 2 * N.of_nat (length names) < u64_max →
  NoDup names → (∀ k, k ∈ names → is_Some (entries r !! k)) →
  let r' := foldl (tombstone_one node n) r names in
  (∀ k, k ∉ names → entries r' !! k = entries r !! k) ∧
  ∀ k, k ∈ names → ∃ e e', entries r !! k = Some e ∧ entries r' !! k = Some e' ∧
    re_tombstone e' = true ∧ re_node_id e' = node ∧ re_actor_addr e' = re_actor_addr e.
Proof.
  revert r; induction names as [|k names IH]; intros r Hr Hc Hnd Hin.
  { split; [done|set_solver]. }
  apply NoDup_cons in Hnd as [Hk Hnd]. cbn [length] in Hc.
  destruct (Hin k) as [e He]; [by left|].
  destruct (tombstone_one_spec r node n k e Hr ltac:(lia) He) as (Hr1 & Hc1 & ts & g & E1).
  simpl. set (r1 := tombstone_one node n r k) in *.
  destruct (IH r1 Hr1 ltac:(lia) Hnd) as [Hout Hins].
  { intros k' Hk'. rw E1 lookup_insert_ne; [set_solver|]. apply Hin. by right. }
  split.
  - intros k' Hk'. rw Hout; [set_solver|]. rw E1 lookup_insert_ne; set_solver.
  - intros k' [->|Hk']%elem_of_cons.
    + exists e. eexists. split; [done|]. rw (Hout k Hk) E1 lookup_insert_eq. by split_and!.
    + destruct (Hins k' Hk') as (e0 & e' & He0 & ?).
      rw E1 lookup_insert_ne in He0; [set_solver|]. by exists e0, e'.
Qed.

(** Declaring a node dead retires exactly its names: whatever the iteration order of the
    map, after [tombstone_node] no live entry of the node remains, each of its live
    names holds a tombstone with the address it had, and every other entry is untouched. *)
Theorem tombstone_node_exact ord r node n :
  wf r → clock r + 2 * N.of_nat (len r) < u64_max →
  let r' := tombstone_node (ord := ord) r node n in
  ∀ k, match entries r !! k with
       | Some e =>
           ∃ e', entries r' !! k = Some e' ∧ ¬ owned_by node e' ∧
             (¬ owned_by node e → e' = e) ∧
             (owned_by node e →
                re_tombstone e' = true ∧ re_actor_addr e' = re_actor_addr e)
       | None => entries r' !! k = None
       end.
Proof.
  intros Hr Hc. cbn zeta. unfold tombstone_node. set (names := fst <$> _).
  assert (∀ k, k ∈ names ↔ ∃ e, entries r !! k = Some e ∧ owned_by node e) as Hnames.
  { intros k. unfold names. rw list_elem_of_fmap. split.
    - intros ([k' e] & -> & [Ho Hin]%list_elem_of_filter). exists e.
      by apply (elem_of_hash_iter ord) in Hin.
    - intros (e & He & Ho). exists (k, e). split; [done|]. apply list_elem_of_filter.
      split; [exact Ho|]. by apply (elem_of_hash_iter ord). }
  assert (NoDup names) as Hnd by apply filter_fmap_nodup, hash_iter_nodup.
  assert (length names ≤ len r)%nat as Hlen.
  { unfold names, len. rw length_fmap -(length_hash_iter ord). apply length_filter. }
  destruct (tombstone_names_spec r node n names Hr ltac:(lia) Hnd) as [Hout Hin].
  { intros k (e & He & _)%Hnames. by eexists. }
  intros k. destruct (decide (k ∈ names)) as [Hk|Hk].
  - destruct (Hin k Hk) as (e & e' & E & -> & Ht & _ & Ha). rw E. exists e'.
    apply Hnames in Hk as (e0 & E0 & Ho). assert (e0 = e) as -> by congruence.
    split_and!; [done| |by intros []|done]. intros [_ ?]. congruence.
  - rw (Hout k Hk). destruct (entries r !! k) as [e|] eqn:E; [|done]. exists e.
    assert (¬ owned_by node e) by (intros Ho; apply Hk, Hnames; eauto). by split_and!.
Qed.

Lemma tombstone_node_exact_witness :
  resolve (tombstone_node (ord := default_order _ _) first_write 1 2) "svc" = None.
Proof.
  pose proof (tombstone_node_exact (default_order _ _) first_write 1 2 first_write_wf
    ltac:(by vm_compute) "svc") as H.
  assert (entries first_write !! "svc" = Some (mkRegistryEntry "svc" 10 1 1 1 false)) as E
    by by vm_compute.
  rw E in H. destruct H as (e' & He' & Hn & _ & Ht). unfold resolve. rw He'.
  destruct Ht as [-> _]; [by split|done].
Defined.

(** ** Garbage collection *)

(** Garbage collection is safe: a GC tick never changes an entry, and removes only
    tombstones that are not waiting to be disseminated and whose age on the logical
    clock has reached the TTL. *)
Theorem gc_tick_safe r k :
  entries (gc_tick r) !! k = entries r !! k ∨
  entries (gc_tick r) !! k = None ∧
  ∃ e, entries r !! k = Some e ∧ re_tombstone e = true ∧
    (∀ p, p ∈ dissemination r → re_name (pd_item p) ≠ k) ∧
    tombstone_ttl (config r) <= clock r - re_timestamp e.
Proof.
  unfold gc_tick. case_match; [by left|]. simpl. rw map_lookup_filter.
  destruct (entries r !! k) as [e|] eqn:E; simpl; [|by left].
  case_guard as Hg; simpl; [by left|]. right. split; [done|]. exists e.
  destruct (decide (re_tombstone e = true ∧ k ∉ re_name ∘ pd_item <$> dissemination r))
    as [[Ht Hp]|Hno]; [|by destruct Hg; left].
  split_and!; [done|done| |].
  - intros p Hin <-. apply Hp. apply list_elem_of_fmap. eauto.
  - apply N.nlt_ge. intros Hlt. apply Hg. by right.
Qed.

(** Tombstones age by writes, not by ticks: as long as nothing is written, a tombstone
    younger than the TTL is kept through any number of GC ticks. *)
Theorem gc_ignores_ticks r ticks :
  (∀ k e, entries r !! k = Some e → clock r - re_timestamp e < tombstone_ttl (config r)) →
  entries (Nat.iter ticks gc_tick r) = entries r.
Proof.
  intros Hy. set (P := λ q, entries q = entries r ∧ clock q = clock r ∧ config q = config r).
  assert (P (Nat.iter ticks gc_tick r)) as [? _]; [|done].
  apply Nat.iter_invariant; [|by unfold P]. intros q (E1 & E2 & E3).
  unfold gc_tick. case_match; [done|]. unfold P; simpl. split_and!; [|done..].
  rw map_filter_id; [|done]. intros k e He. right. rw E2 E3. apply (Hy k). by rw -E1.
Qed.

Lemma gc_ignores_ticks_witness :
  entries (Nat.iter 3000 gc_tick (unregister first_write "svc" 1 2)) =
  entries (unregister first_write "svc" 1 2).
Proof.
  apply gc_ignores_ticks. intros k e.
  assert (entries (unregister first_write "svc" 1 2) =
    {["svc" := mkRegistryEntry "svc" 10 1 3 2 true]}) as -> by by vm_compute.
  intros [<- <-]%lookup_singleton_Some. by vm_compute.
Defined.

(** ** Views of the whole registry *)

Lemma entries_iter_perm ord r :
  entries_iter (ord := ord) r ≡ₚ snd <$> map_to_list (entries r).
Proof. unfold entries_iter. by rw hash_iter_perm. Qed.

Lemma elem_of_entries_iter ord r e :
  named r → e ∈ entries_iter (ord := ord) r ↔ entries r !! re_name e = Some e.
Proof.
  intros Hr. rw entries_iter_perm list_elem_of_fmap. split.
  - intros ([k e'] & -> & Hin%elem_of_map_to_list). by rw (Hr _ _ Hin).
  - intros He. exists (re_name e, e). by rw elem_of_map_to_list.
Qed.

Lemma snapshot_sorted ord r :
  StronglySorted (λ a b, str_le (re_name a) (re_name b))
    (rs_entries (snapshot (ord := ord) r)).
Proof.
  apply sort_by_sorted; intros *; [apply str_le_total|apply str_le_trans].
Qed.

Lemma snapshot_perm ord r : rs_entries (snapshot (ord := ord) r) ≡ₚ snd <$> map_to_list (entries r).
Proof. simpl. by rw sort_by_perm entries_iter_perm. Qed.

Lemma tombstone_count_filter r :
  tombstone_count r =
    length (filter (λ e, re_tombstone e = true) (snd <$> map_to_list (entries r))).
Proof.
  unfold tombstone_count. rw map_filter_alt map_size_list_to_map.
  { apply filter_fmap_nodup, NoDup_fst_map_to_list. }
  induction (map_to_list (entries r)) as [|[k e] l IH]; [done|]. simpl.
  rw !filter_cons /=. case_decide; simpl; by rw IH.
Qed.

Lemma snapshot_order_irrelevant ord ord' r :
  named r → snapshot (ord := ord) r = snapshot (ord := ord') r.
Proof.
  intros Hr.
  assert (rs_entries (snapshot (ord := ord) r) = rs_entries (snapshot (ord := ord') r)) as E.
  { eapply (StronglySorted_unique_strong _); [|apply snapshot_sorted..|].
    - intros a b Ha Hb H1%Is_true_true H2%Is_true_true. simpl in Ha, Hb.
      rw elem_of_sort_by elem_of_entries_iter // in Ha.
      rw elem_of_sort_by elem_of_entries_iter // in Hb.
      rw (str_le_antisym _ _ H1 H2) in Ha. congruence.
    - by rw !snapshot_perm. }
  unfold snapshot in *. simpl in E. by rw E.
Qed.

Lemma entries_iter_names ord r : named r → NoDup (re_name <$> entries_iter (ord := ord) r).
Proof.
  intros Hr. rw entries_iter_perm -list_fmap_compose.
  rw (list_fmap_ext _ fst); [|apply NoDup_fst_map_to_list].
  intros i [k e] Hi%list_elem_of_lookup_2. apply elem_of_map_to_list in Hi. by apply Hr.
Qed.

(** A snapshot is canonical: it lists every entry once, sorted by name, counts them and
    their tombstones, and does not depend on the iteration order of the map. *)
Theorem snapshot_canonical ord ord' r :
  wf r →
  let s := snapshot (ord := ord) r in
  s = snapshot (ord := ord') r ∧
  StronglySorted (λ a b, str_le (re_name a) (re_name b)) (rs_entries s) ∧
  (∀ e, e ∈ rs_entries s ↔ entries r !! re_name e = Some e) ∧
  NoDup (re_name <$> rs_entries s) ∧
  rs_size s = len r ∧ rs_tombstones s = tombstone_count r.
Proof.
  intros Hr%wf_name. cbn zeta.
  split_and!; [by apply snapshot_order_irrelevant|apply snapshot_sorted|..]; simpl.
  - intros e. rw elem_of_sort_by. by apply elem_of_entries_iter.
  - rw sort_by_perm. by apply entries_iter_names.
  - rw length_sort_by entries_iter_perm length_fmap length_map_to_list //.
  - rw tombstone_count_filter. by rw sort_by_perm entries_iter_perm.
Qed.

Lemma snapshot_canonical_witness :
  rs_size (snapshot (ord := default_order _ _) first_write) = len first_write.
Proof.
  destruct (snapshot_canonical (default_order _ _) (default_order _ _) first_write
    first_write_wf) as (_ & _ & _ & _ & Hlen & _). exact Hlen.
Defined.

(** What is queued for a name. *)
Definition queued (r : ClusterRegistry) (name : string) : option RegistryEntry :=
  queued_item re_name (dissemination r) name.

Lemma reg_queued_enqueue r e n name :
  queued (enqueue r e n) name = if decide (re_name e = name) then Some e else queued r name.
Proof.
  unfold queued, enqueue; cbn [dissemination set_dissemination]. rw queued_item_put.
  case_decide; [|done]. by destruct (queued_item _ _ _).
Qed.

Lemma enqueue_all_queued r es n name :
  NoDup (re_name <$> es) →
  queued (foldl (λ r e, enqueue r e n) r es) name =
    match list_find (λ e, re_name e = name) es with
    | Some (_, e) => Some e
    | None => queued r name
    end.
Proof.
  revert r; induction es as [|e es IH]; intros r Hnd; [done|]. simpl.
  apply NoDup_cons in Hnd as [Hni Hnd]. rw IH // reg_queued_enqueue.
  case_decide as He; simpl.
  - destruct (list_find _ es) as [[i e']|] eqn:E; [|done].
    apply list_find_Some in E as (Hi & Hn & _). destruct Hni.
    apply list_elem_of_fmap. exists e'. split; [congruence|]. by eapply list_elem_of_lookup_2.
  - by destruct (list_find _ es) as [[i e']|].
Qed.

(** Anti-entropy is complete: after [re_disseminate_all] every entry of the registry,
    tombstones included, is queued for dissemination in its current version. *)
Theorem re_disseminate_all_complete ord r n name e :
  wf r → entries r !! name = Some e →
  queued (re_disseminate_all (ord := ord) r n) name = Some e.
Proof.
  intros Hr%wf_name He. unfold re_disseminate_all. fold (entries_iter (ord := ord) r).
  rw enqueue_all_queued; [by apply entries_iter_names|].
  destruct (list_find _ _) as [[i e']|] eqn:E.
  - apply list_find_Some in E as (Hi%list_elem_of_lookup_2 & Hn & _).
    apply elem_of_entries_iter in Hi; [|done]. rw Hn in Hi. congruence.
  - apply list_find_None in E. rw Forall_forall in E. destruct (E e); [|by apply Hr].
    apply elem_of_entries_iter; [done|]. by rw (Hr _ _ He).
Qed.

Lemma re_disseminate_all_complete_witness :
  queued (re_disseminate_all (ord := default_order _ _) first_write 5) "svc" =
    Some (mkRegistryEntry "svc" 10 1 1 1 false).
Proof.
  apply re_disseminate_all_complete; [exact first_write_wf|by vm_compute].
Defined.
