(* ===== verification/RegistryActor.v ===== *)
(** * The registry actor

    [crates/distribution/src/registry_actor.rs]: the registry behind its mailbox.
    It disseminates on ticks, follows the membership stream, delivers names
    directly with acknowledgements, and keeps a read mirror and watchers up to
    date.  A watcher is a [Weak] callback: [live w] says whether its owner still
    holds it, and running it is an effect. *)

From S2P Require Import Prelude Lww BudgetQueue Types Registry ActorCtx.
#[local] Open Scope N_scope.

Inductive RegistryDelivery :=
  | Request (reply_to : ActorAddress)
  | Acknowledged (reply_to : ActorAddress) (peer : NodeId).

Record RegistryGossip := mkRegistryGossip {
  rg_entries : list RegistryEntry;
  rg_delivery : option RegistryDelivery;
}.

(** A watcher's callback. *)
Abbreviation Callback := N.

Inductive RegistryIn :=
  | Membership (node_id : NodeId) (state : MemberState)
  | RegisterName (name : string) (actor_addr : ActorAddress)
  | RegisterNameAt (name : string) (actor_addr : ActorAddress) (timestamp : N)
  | DisseminateNameTo (name : string) (peers : list NodeId) (reply_to : ActorAddress)
  | NameAcknowledged (entry : RegistryEntry) (peer : NodeId)
  | UnregisterName (name : string)
  | ResolveName (name : string) (reply : ActorAddress)
  | Gossip (g : RegistryGossip)
  | SyncTo (peer : NodeId)
  | WatchName (name : string) (changed : Callback)
  | Tick.

Inductive RegistryOut :=
  | OutRegistry (msg : RegistryIn)
  | NameResolved (name : string) (binding : option (ActorAddress * NodeId)).

(** What the actor does: post a message or run a callback. *)
Inductive Effect :=
  | Posted (to : ActorAddress) (msg : RegistryOut)
  | Notified (changed : Callback).

Record RegistryActor := mkRegistryActor {
  ra_self_id : NodeId;
  registry : ClusterRegistry;
  alive : gset NodeId;
  fanout_cursor : N;
  view : option RegistrySnapshot;
  watchers : list (string * option RegistryEntry * Callback);
}.

Definition actor_eta (a : RegistryActor) : RegistryActor :=
  mkRegistryActor (ra_self_id a) (registry a) (alive a) (fanout_cursor a) (view a)
    (watchers a).
Definition set_registry (a : RegistryActor) (v : ClusterRegistry) : RegistryActor :=
  ltac:(update_field actor_eta a registry v).
Definition set_alive (a : RegistryActor) (v : gset NodeId) : RegistryActor :=
  ltac:(update_field actor_eta a alive v).
Definition set_fanout_cursor (a : RegistryActor) (v : N) : RegistryActor :=
  ltac:(update_field actor_eta a fanout_cursor v).
Definition set_view (a : RegistryActor) (v : option RegistrySnapshot) : RegistryActor :=
  ltac:(update_field actor_eta a view v).
Definition set_watchers (a : RegistryActor)
    (v : list (string * option RegistryEntry * Callback)) : RegistryActor :=
  ltac:(update_field actor_eta a watchers v).

Definition new (self_id : NodeId) (config : RegistryConfig) : RegistryActor :=
  mkRegistryActor self_id (Registry.new config) ∅ 0 None [].

Definition cluster_size (a : RegistryActor) : nat := S (size (alive a)).

Section actor.
Context {ord : HashOrder string RegistryEntry} `{PeerDirectory} (ctx : Ctx)
  (live : Callback → bool).

Definition with_view (a : RegistryActor) : RegistryActor :=
  set_view a (Some (snapshot (registry a))).

(** [self.registry.entries().find(|entry| entry.name == name)]. *)
Definition find_name (r : ClusterRegistry) (name : string) : option RegistryEntry :=
  snd <$> list_find (λ e, re_name e = name) (entries_iter r).

Definition send (to : ActorAddress) (msg : RegistryOut) : list Effect :=
  (λ p, Posted p.1 p.2) <$> post ctx to msg.

(** [watchers.retain_mut]. *)
Fixpoint retain_watchers (r : ClusterRegistry)
    (ws : list (string * option RegistryEntry * Callback))
    : list (string * option RegistryEntry * Callback) * list Effect :=
  match ws with
  | [] => ([], [])
  | (name, previous, changed) :: ws =>
      let rest := retain_watchers r ws in
      if live changed then
        let current := find_name r name in
        if decide (current = previous)
        then ((name, previous, changed) :: rest.1, rest.2)
        else ((name, current, changed) :: rest.1, Notified changed :: rest.2)
      else rest
  end.

Definition publish (a : RegistryActor) : RegistryActor * list Effect :=
  let a :=
    match view a with
    | Some _ => set_view a (Some (snapshot (registry a)))
    | None => a
    end in
  let '(ws, effects) := retain_watchers (registry a) (watchers a) in
  (set_watchers a ws, effects).

(** [BTreeSet::iter]: the alive peers in ascending order. *)
Definition peers_of (a : RegistryActor) : list NodeId :=
  sort_by N.leb (elements (alive a)).

Definition BATCH : nat := 8.

Definition disseminate (a : RegistryActor) : RegistryActor * list Effect :=
  if decide (alive a = ∅) then (a, [])
  else
    let '(r, es) := take_pending (registry a) BATCH in
    let a := set_registry a r in
    match es with
    | [] => (a, [])
    | _ =>
        let peers := peers_of a in
        match peers !! N.to_nat (fanout_cursor a mod N.of_nat (length peers)) with
        | Some peer =>
            let a := set_fanout_cursor a (fanout_cursor a +64 1) in
            match resolve peer with
            | Some addr =>
                (a, send addr (OutRegistry (Gossip (mkRegistryGossip es None))))
            | None => (a, [])
            end
        | None => (a, []) (* the peer list is not empty *)
        end
    end.

Definition sync_to (a : RegistryActor) (peer : NodeId) : list Effect :=
  match resolve peer with
  | Some addr =>
      chunks BATCH (length (entries_iter (registry a))) (entries_iter (registry a)) ≫=
        λ b, send addr (OutRegistry (Gossip (mkRegistryGossip b None)))
  | None => []
  end.

Definition has_entry (r : ClusterRegistry) (e : RegistryEntry) : bool :=
  bool_decide (e ∈ entries_iter r).

Definition handle_membership (a : RegistryActor) (node_id : NodeId) (state : MemberState)
    : RegistryActor * list Effect :=
  match state with
  | Alive =>
      if decide (node_id ≠ ra_self_id a ∧ node_id ∉ alive a) then
        let a := set_alive a ({[node_id]} ∪ alive a) in
        (set_registry a (re_disseminate_all (registry a) (cluster_size a)), [])
      else (a, [])
  | Dead =>
      let a := set_alive a (alive a ∖ {[node_id]}) in
      let a := set_registry a (tombstone_node (registry a) node_id (cluster_size a)) in
      publish a
  | Suspect => (a, [])
  end.

(** The acknowledgement of one entry of a directed delivery. *)
Definition acknowledge (a : RegistryActor) (reply_to : ActorAddress) (entry : RegistryEntry)
    : list Effect :=
  if negb (re_tombstone entry) && has_entry (registry a) entry then
    match resolve (re_node_id entry) with
    | Some addr =>
        send addr (OutRegistry (Gossip (mkRegistryGossip [entry]
          (Some (Acknowledged reply_to (ra_self_id a))))))
    | None => []
    end
  else [].

(** The acknowledgement as it arrives back at the origin. *)
Definition confirm (a : RegistryActor) (reply_to : ActorAddress) (peer : NodeId)
    (entry : RegistryEntry) : list Effect :=
  if negb (re_tombstone entry) && (re_node_id entry =? ra_self_id a)
     && has_entry (registry a) entry
  then send reply_to (OutRegistry (NameAcknowledged entry peer))
  else [].

Definition handle_gossip (a : RegistryActor) (g : RegistryGossip)
    : RegistryActor * list Effect :=
  let size := cluster_size a in
  match rg_delivery g with
  | Some (Acknowledged reply_to peer) =>
      (a, rg_entries g ≫= confirm a reply_to peer)
  | Some (Request reply_to) =>
      let '(a, effects) := publish (set_registry a (merge_batch (registry a) (rg_entries g) size)) in
      (a, effects ++ (rg_entries g ≫= acknowledge a reply_to))
  | None => publish (set_registry a (merge_batch (registry a) (rg_entries g) size))
  end.

Definition handle (a : RegistryActor) (msg : RegistryIn) : RegistryActor * list Effect :=
  let size := cluster_size a in
  match msg with
  | Membership node_id state => handle_membership a node_id state
  | RegisterName name addr =>
      publish (set_registry a (register (registry a) name addr (ra_self_id a) size))
  | RegisterNameAt name addr ts =>
      publish (set_registry a (register_at (registry a) name addr (ra_self_id a) ts size))
  | DisseminateNameTo name peers reply_to =>
      match list_find (λ e, re_name e = name ∧ re_tombstone e = false ∧
                            re_node_id e = ra_self_id a) (entries_iter (registry a)) with
      | Some (_, entry) =>
          (a, peers ≫= λ peer,
            match resolve peer with
            | Some addr =>
                send addr (OutRegistry (Gossip (mkRegistryGossip [entry]
                                                  (Some (Request reply_to)))))
            | None => []
            end)
      | None => (a, [])
      end
  | UnregisterName name =>
      publish (set_registry a (unregister (registry a) name (ra_self_id a) size))
  | SyncTo peer => (a, sync_to a peer)
  | WatchName name changed =>
      let current := find_name (registry a) name in
      if live changed
      then (set_watchers a (watchers a ++ [(name, current, changed)]), [Notified changed])
      else (a, [])
  | ResolveName name reply =>
      (a, send reply (NameResolved name (Registry.resolve (registry a) name)))
  | Gossip g => handle_gossip a g
  | NameAcknowledged _ _ => (a, [])
  | Tick =>
      let a := set_registry a (gc_tick (registry a)) in
      let '(a, sent) := disseminate a in
      let '(a, effects) := publish a in
      (a, sent ++ effects)
  end.
End actor.

(** A history: each message comes with the iteration order of the map, the peer
    bindings, the routing table and the live watchers of its moment. *)
Record Turn := mkTurn {
  turn_order : HashOrder string RegistryEntry;
  turn_peers : PeerDirectory;
  turn_ctx : Ctx;
  turn_live : Callback → bool;
  turn_msg : RegistryIn;
}.

Definition take_turn (a : RegistryActor) (t : Turn) : RegistryActor * list Effect :=
  @handle (turn_order t) (turn_peers t) (turn_ctx t) (turn_live t) a (turn_msg t).

Definition run (a : RegistryActor) (turns : list Turn) : RegistryActor * list Effect :=
  emit_all take_turn a turns.

(** ** The read mirror *)

(** The mirror shows the registry. *)
Definition mirrored (a : RegistryActor) : Prop :=
  named (registry a) ∧ ∀ ord, view a = Some (snapshot (ord := ord) (registry a)).

Lemma publish_mirrors ord live a :
  named (registry a) → is_Some (view a) → mirrored (@publish ord live a).1.
Proof.
  intros Hn [s Hs]. unfold publish. rw Hs. simpl.
  destruct (retain_watchers live _ _) as [ws effects].
  split; [done|]. intros ord'. simpl. f_equal. by apply snapshot_order_irrelevant.
Qed.

(** A turn that keeps the entries keeps the mirror. *)
Lemma mirrored_same_entries a a' :
  mirrored a → entries (registry a') = entries (registry a) → view a' = view a → mirrored a'.
Proof.
  intros [Hn Hv] E Ev. split.
  - intros k e. rw E. apply Hn.
  - intros ord. rw Ev (Hv ord). unfold snapshot, entries_iter. by rw E.
Qed.

Lemma reg_disseminate_frame dir ctx a :
  entries (registry (@disseminate dir ctx a).1) = entries (registry a) ∧
  view (@disseminate dir ctx a).1 = view a.
Proof.
  unfold disseminate, take_pending. case_decide; [done|].
  destruct (take_batch _ _) as [q [|e es]]; [done|]. cbn [fst snd].
  destruct (_ !! _) as [peer|]; [|done]. by destruct (resolve peer).
Qed.

Lemma take_turn_mirrors a t : mirrored a → mirrored (take_turn a t).1.
Proof.
  intros Hm. pose proof Hm as [Hn Hv].
  assert (is_Some (view a)) as Hs by (rw (Hv (turn_order t)); by eexists).
  unfold take_turn. destruct (turn_msg t); cbn [handle]; try done.
  - unfold handle_membership. destruct state; [case_decide|..]; try done.
    + eapply mirrored_same_entries; [exact Hm| |done].
      simpl. apply re_disseminate_all_entries.
    + apply publish_mirrors; [|done]. simpl. by apply tombstone_node_named.
  - apply publish_mirrors; [|done]. by apply merge_and_enqueue_named.
  - apply publish_mirrors; [|done]. by apply merge_and_enqueue_named.
  - by destruct (list_find _ _) as [[i e]|].
  - apply publish_mirrors; [|done]. by apply merge_and_enqueue_named.
  - unfold handle_gossip. destruct (rg_delivery g) as [[|]|]; [|done|].
    + pose proof (publish_mirrors (turn_order t) (turn_live t) (set_registry a
        (merge_batch (registry a) (rg_entries g) (cluster_size a)))
        (merge_batch_named _ _ _ Hn) Hs) as Hp. by destruct (publish _ _).
    + apply publish_mirrors; [|done]. by apply merge_batch_named.
  - by destruct (turn_live t changed).
  - set (a1 := set_registry a (gc_tick (registry a))).
    destruct (reg_disseminate_frame (turn_peers t) (turn_ctx t) a1) as [E Ev].
    destruct (disseminate _ _) as [a2 sent]; cbn [fst] in E, Ev.
    assert (named (registry a2)) as Hn2.
    { intros k e. rw E. by apply gc_tick_named. }
    pose proof (publish_mirrors (turn_order t) (turn_live t) a2 Hn2
      ltac:(by rw Ev)) as Hp. by destruct (publish _ a2).
Qed.

(** The read mirror is never stale: after any history, a view installed at the start
    equals the snapshot of the registry. *)
Theorem view_mirrors_registry self_id config ord0 ord turns :
  let a := (run (with_view (ord := ord0) (new self_id config)) turns).1 in
  view a = Some (snapshot (ord := ord) (registry a)).
Proof.
  cbn zeta. set (a0 := with_view _). assert (mirrored a0) as Hm.
  { assert (named (registry a0)) by (intros k e; by rw lookup_empty).
    split; [done|]. intros ord'. simpl. f_equal. by apply snapshot_order_irrelevant. }
  clearbody a0. unfold run. revert a0 Hm.
  induction turns as [|t turns IH]; intros a Hm; [apply Hm|]. simpl.
  by apply IH, take_turn_mirrors.
Qed.

(** ** Directed delivery *)

Lemma elem_of_send ctx to msg eff :
  eff ∈ send ctx to msg ↔ accepts ctx to = true ∧ eff = Posted to msg.
Proof.
  unfold send, post, ctx_send. destruct (accepts ctx to); simpl; set_solver.
Qed.

Lemma has_entry_true ord r e :
  named r → has_entry (ord := ord) r e = true ↔ entries r !! re_name e = Some e.
Proof. intros. unfold has_entry. rw bool_decide_eq_true. by apply elem_of_entries_iter. Qed.

Lemma publish_quiet ord live a to msg :
  Posted to msg ∉ (@publish ord live a).2 ∧
  registry (@publish ord live a).1 = registry a ∧
  ra_self_id (@publish ord live a).1 = ra_self_id a.
Proof.
  unfold publish. set (a' := match view a with Some _ => _ | None => a end).
  assert (registry a' = registry a ∧ ra_self_id a' = ra_self_id a) as [Hr Hs]
    by by subst a'; case_match.
  assert (∀ r ws, Posted to msg ∉ (retain_watchers (ord := ord) live r ws).2) as Hq.
  { intros r ws. induction ws as [|[[name prev] w] ws IH]; simpl; [set_solver|].
    destruct (live w); [|done]. case_decide; simpl; set_solver. }
  specialize (Hq (registry a') (watchers a')).
  by destruct (retain_watchers live _ _) as [ws effects].
Qed.

(** What a peer posts when it is handed a name. *)
Lemma handle_request_posts ord dir ctx live a es reply_to eff to msg :
  named (registry a) → eff = Posted to msg →
  let r := @handle_gossip ord dir ctx live a (mkRegistryGossip es (Some (Request reply_to))) in
  registry r.1 = merge_batch (registry a) es (cluster_size a) ∧
  (eff ∈ r.2 ↔ ∃ e, e ∈ es ∧ re_tombstone e = false ∧
     entries (registry r.1) !! re_name e = Some e ∧
     @resolve dir (re_node_id e) = Some to ∧ accepts ctx to = true ∧
     msg = OutRegistry (Gossip (mkRegistryGossip [e]
             (Some (Acknowledged reply_to (ra_self_id a)))))).
Proof.
  intros Hn ->. cbn zeta. unfold handle_gossip; cbn [rg_delivery rg_entries].
  set (a1 := set_registry _ _).
  destruct (publish_quiet ord live a1 to msg) as (Hq & Hr & Hs).
  destruct (publish live a1) as [a2 effects]; cbn [fst snd] in *.
  split; [by rw Hr|]. rw elem_of_app list_elem_of_bind.
  assert (named (registry a2)) as Hn2 by (rw Hr; by apply merge_batch_named).
  split.
  - intros [?|(e & Hin & He)]; [done|]. exists e.
    unfold acknowledge in Hin. destruct (re_tombstone e); [set_solver|]. simpl in Hin.
    destruct (has_entry (registry a2) e) eqn:Hh; [|set_solver].
    apply has_entry_true in Hh; [|done].
    destruct (resolve (re_node_id e)) as [addr|]; [|set_solver].
    apply elem_of_send in Hin as [? [= -> ->]]. by rw Hs.
  - intros (e & He & Ht & Hent & Hres & Hacc & ->). right. exists e. split; [|done].
    unfold acknowledge. rw Ht (proj2 (has_entry_true _ _ _ Hn2) Hent) Hres. simpl.
    apply elem_of_send. by rw Hs.
Qed.

(** Directed delivery is truthful and complete. A peer handed an entry acknowledges it
    to its owner exactly when, after merging, the entry is the live winner for its name
    and the owner can be reached; the owner confirms an acknowledged entry to the
    requester exactly when it is still the owner's own live winner, and an
    acknowledgement never changes the owner's state. *)
Theorem directed_delivery_exact ord dir ctx live a e reply_to peer :
  named (registry a) → re_tombstone e = false →
  let installed := @handle_gossip ord dir ctx live a
                     (mkRegistryGossip [e] (Some (Request reply_to))) in
  (∀ addr, @resolve dir (re_node_id e) = Some addr → accepts ctx addr = true →
     Posted addr (OutRegistry (Gossip (mkRegistryGossip [e]
       (Some (Acknowledged reply_to (ra_self_id a)))))) ∈ installed.2 ↔
     entries (registry installed.1) !! re_name e = Some e) ∧
  let confirmed := @handle_gossip ord dir ctx live a
                     (mkRegistryGossip [e] (Some (Acknowledged reply_to peer))) in
  confirmed.1 = a ∧
  (accepts ctx reply_to = true →
     Posted reply_to (OutRegistry (NameAcknowledged e peer)) ∈ confirmed.2 ↔
     entries (registry a) !! re_name e = Some e ∧ re_node_id e = ra_self_id a).
Proof.
  intros Hn Ht. cbn zeta. split; [|split; [done|]].
  - intros addr Hres Hacc.
    destruct (handle_request_posts ord dir ctx live a [e] reply_to
      (Posted addr (OutRegistry (Gossip (mkRegistryGossip [e]
       (Some (Acknowledged reply_to (ra_self_id a)))))))
      addr _ Hn eq_refl) as [_ Hiff]. rw Hiff. split.
    + by intros (e' & ->%list_elem_of_singleton & _ & ? & _).
    + intros He. exists e. split_and!; try done. set_solver.
  - intros Hacc. unfold handle_gossip; cbn [rg_delivery rg_entries snd].
    rw list_elem_of_bind. rw -(has_entry_true ord) //. split.
    + intros (e' & Hin & ->%list_elem_of_singleton). unfold confirm in Hin.
      rw Ht in Hin. simpl in Hin.
      destruct (re_node_id e =? ra_self_id a) eqn:En; [|set_solver].
      destruct (has_entry (registry a) e) eqn:Hh; [|set_solver].
      split; [done|]. by apply N.eqb_eq.
    + intros [Hh Hs]. exists e. split; [|set_solver]. unfold confirm.
      rw Ht (proj2 (N.eqb_eq _ _) Hs) Hh. simpl. by apply elem_of_send.
Qed.

Lemma directed_delivery_exact_witness :
  let a := new 2 default_registry_config in
  let e := mkRegistryEntry "svc" 10 1 7 1 false in
  Posted 100 (OutRegistry (Gossip (mkRegistryGossip [e] (Some (Acknowledged 50 2)))))
    ∈ (@handle_gossip (default_order _ _) (λ _, Some 100) (mkCtx 200 (λ _, true)) (λ _, true)
         a (mkRegistryGossip [e] (Some (Request 50)))).2.
Proof.
  pose proof (directed_delivery_exact (default_order _ _) (λ _, Some 100)
    (mkCtx 200 (λ _, true)) (λ _, true) (new 2 default_registry_config)
    (mkRegistryEntry "svc" 10 1 7 1 false) 50 2) as H.
  destruct H as [H _]; [intros k e; by rw lookup_empty|done|].
  apply (H 100); by vm_compute.
Defined.

(** ** Dissemination *)

Definition tick_turn (dir : PeerDirectory) : Turn :=
  mkTurn (default_order _ _) dir (mkCtx 100 (λ _, true)) (λ _, true) Tick.

Definition example_actor (dir : PeerDirectory) : RegistryActor :=
  (run (new 1 default_registry_config)
     [mkTurn (default_order _ _) dir (mkCtx 100 (λ _, true)) (λ _, true)
        (Membership 2 Alive);
      mkTurn (default_order _ _) dir (mkCtx 100 (λ _, true)) (λ _, true)
        (RegisterName "svc" 10)]).1.

(** Budget is spent on peers that cannot be reached: when the only alive peer has no
    binding, a queued name is taken from the queue at every tick and handed to nobody;
    after its three transmissions it is gone and the peer, once bound, never hears of
    it. *)
Theorem unbound_peer_burns_budget :
  let unbound : PeerDirectory := (λ _, None) in
  let bound : PeerDirectory := (λ n, if n =? 2 then Some 200 else None) in
  let lost := run (example_actor unbound)
                (replicate 3 (tick_turn unbound) ++ replicate 10 (tick_turn bound)) in
  let heard := run (example_actor bound) [tick_turn bound] in
  lost.2 = [] ∧ Registry.resolve (registry lost.1) "svc" = Some (10, 1) ∧
  length heard.2 = 1%nat.
Proof. by vm_compute. Qed.

(** *** Synchronisation *)

(** What an address receives of the registry gossip among the effects. *)
Definition gossiped (to : ActorAddress) (effects : list Effect) : list RegistryEntry :=
  effects ≫= λ eff,
    match eff with
    | Posted t (OutRegistry (Gossip g)) => if t =? to then rg_entries g else []
    | _ => []
    end.

(** A sync hands the peer every entry, tombstones included. *)
Lemma sync_to_complete ord dir ctx a peer addr :
  @resolve dir peer = Some addr → accepts ctx addr = true →
  gossiped addr (@sync_to ord dir ctx a peer) ≡ₚ snd <$> map_to_list (entries (registry a)).
Proof.
  intros Hr Ha. rw -(entries_iter_perm ord). unfold sync_to. rw Hr.
  set (es := entries_iter (registry a)). rw -{3}(chunks_concat BATCH (length es) es); [unfold BATCH; lia|done|].
  induction (chunks BATCH (length es) es) as [|b bs IH]; [done|]. simpl.
  unfold gossiped in *. rw bind_app IH. unfold send. rw post_accepted //. simpl.
  by rw N.eqb_refl app_nil_r.
Qed.
