(* ===== verification/NodeMetadata.v ===== *)
(** * Node metadata

    [crates/distribution/src/node_metadata.rs] and [node_metadata_actor.rs]: the
    relay URL and name of every node, gossiped with higher-generation-wins, and
    the actor that mirrors the relay URLs for the dial path. *)

From S2P Require Import Prelude Lww BudgetQueue Types ActorCtx.
#[local] Open Scope N_scope.

Record NodeMetadataEntry := mkNodeMetadataEntry {
  nm_node_id : NodeId;
  nm_relay_url : option string;
  nm_node_name : option string;
  nm_generation : N;
}.

#[export] Instance NodeMetadataEntry_eq_dec : EqDecision NodeMetadataEntry.
Proof. solve_decision. Defined.

Record NodeMetadataDisseminator := mkNodeMetadataDisseminator {
  store : gmap NodeId NodeMetadataEntry;
  queue : list (pending NodeMetadataEntry);
  lambda : nat;
  local_generation : N;
}.

Definition new (lambda : nat) : NodeMetadataDisseminator :=
  mkNodeMetadataDisseminator ∅ [] lambda 0.

Definition set_store (d : NodeMetadataDisseminator) (v : gmap NodeId NodeMetadataEntry)
    : NodeMetadataDisseminator :=
  mkNodeMetadataDisseminator v (queue d) (lambda d) (local_generation d).
Definition set_queue (d : NodeMetadataDisseminator) (v : list (pending NodeMetadataEntry))
    : NodeMetadataDisseminator :=
  mkNodeMetadataDisseminator (store d) v (lambda d) (local_generation d).
Definition set_local_generation (d : NodeMetadataDisseminator) (v : N)
    : NodeMetadataDisseminator :=
  mkNodeMetadataDisseminator (store d) (queue d) (lambda d) v.

Definition transmit_budget (d : NodeMetadataDisseminator) (cluster_size : nat) : nat :=
  gossip_budget (lambda d) cluster_size.

Definition enqueue (d : NodeMetadataDisseminator) (entry : NodeMetadataEntry)
    (cluster_size : nat) : NodeMetadataDisseminator :=
  set_queue d
    (put nm_node_id (λ _ _, true) entry (transmit_budget d cluster_size) (queue d)).

Definition set_local (d : NodeMetadataDisseminator) (node_id : NodeId)
    (relay_url node_name : option string) (cluster_size : nat) : NodeMetadataDisseminator :=
  let d := set_local_generation d (local_generation d +64 1) in
  let entry := mkNodeMetadataEntry node_id relay_url node_name (local_generation d) in
  enqueue (set_store d (<[node_id := entry]> (store d))) entry cluster_size.

(** One entry of [apply_incoming]. *)
Definition apply_one (cluster_size : nat) (d : NodeMetadataDisseminator)
    (entry : NodeMetadataEntry) : NodeMetadataDisseminator :=
  let dominated :=
    match store d !! nm_node_id entry with
    | Some existing => nm_generation entry <=? nm_generation existing
    | None => false
    end in
  if dominated then d
  else enqueue (set_store d (<[nm_node_id entry := entry]> (store d))) entry cluster_size.

Definition apply_incoming (d : NodeMetadataDisseminator) (es : list NodeMetadataEntry)
    (cluster_size : nat) : NodeMetadataDisseminator :=
  foldl (apply_one cluster_size) d es.

Definition take_pending (d : NodeMetadataDisseminator) (max_count : nat)
    : NodeMetadataDisseminator * list NodeMetadataEntry :=
  let b := take_batch max_count (queue d) in
  (set_queue d b.1, b.2).

Definition relay_url (d : NodeMetadataDisseminator) (node_id : NodeId) : option string :=
  store d !! node_id ≫= nm_relay_url.

Definition node_name (d : NodeMetadataDisseminator) (node_id : NodeId) : option string :=
  store d !! node_id ≫= nm_node_name.

Definition remove_node (d : NodeMetadataDisseminator) (node_id : NodeId)
    : NodeMetadataDisseminator :=
  set_queue (set_store d (delete node_id (store d)))
    (filter (λ e, nm_node_id (pd_item e) ≠ node_id) (queue d)).

Definition local_version (d : NodeMetadataDisseminator) : N := local_generation d.

Definition peer_version (d : NodeMetadataDisseminator) (node_id : NodeId) : option N :=
  nm_generation <$> store d !! node_id.

Section iteration.
Context {ord : HashOrder NodeId NodeMetadataEntry}.

Definition all_versions (d : NodeMetadataDisseminator) : list (NodeId * N) :=
  (λ ke, (nm_node_id ke.2, nm_generation ke.2)) <$> hash_iter (store d).

Definition re_disseminate_all (d : NodeMetadataDisseminator) (cluster_size : nat)
    : NodeMetadataDisseminator :=
  foldl (λ d e, enqueue d e cluster_size) d (snd <$> hash_iter (store d)).
End iteration.

(** ** The actor *)

Inductive MetadataIn :=
  | Membership (node_id : NodeId) (state : MemberState)
  | SetRelayUrl (url : option string)
  | SetNodeName (name : string)
  | RelayLookup (node : NodeId) (reply : ActorAddress)
  | Gossip (entries : list NodeMetadataEntry)
  | Tick.

Inductive MetadataOut :=
  | OutMetadata (msg : MetadataIn)
  | RelayInfo (node : NodeId) (url : option string).

Record MetadataActor := mkMetadataActor {
  ma_self_id : NodeId;
  metadata : NodeMetadataDisseminator;
  relay_mirror : gmap NodeId string;
  ma_alive : gset NodeId;
  ma_fanout_cursor : N;
  self_relay : option string;
  self_name : option string;
}.

Definition metadata_eta (a : MetadataActor) : MetadataActor :=
  mkMetadataActor (ma_self_id a) (metadata a) (relay_mirror a) (ma_alive a)
    (ma_fanout_cursor a) (self_relay a) (self_name a).
Definition set_metadata (a : MetadataActor) (v : NodeMetadataDisseminator) : MetadataActor :=
  ltac:(update_field metadata_eta a metadata v).
Definition set_relay_mirror (a : MetadataActor) (v : gmap NodeId string) : MetadataActor :=
  ltac:(update_field metadata_eta a relay_mirror v).
Definition set_ma_alive (a : MetadataActor) (v : gset NodeId) : MetadataActor :=
  ltac:(update_field metadata_eta a ma_alive v).
Definition set_ma_fanout_cursor (a : MetadataActor) (v : N) : MetadataActor :=
  ltac:(update_field metadata_eta a ma_fanout_cursor v).
Definition set_self_relay (a : MetadataActor) (v : option string) : MetadataActor :=
  ltac:(update_field metadata_eta a self_relay v).
Definition set_self_name (a : MetadataActor) (v : option string) : MetadataActor :=
  ltac:(update_field metadata_eta a self_name v).

(** [MetadataActor::new]; the shared mirror starts as the caller made it, empty. *)
Definition new_actor (self_id : NodeId) (lambda : nat) : MetadataActor :=
  mkMetadataActor self_id (new lambda) ∅ ∅ 0 None None.

Definition cluster_size (a : MetadataActor) : nat := S (size (ma_alive a)).

Definition METADATA_BATCH : nat := 4.

Section actor.
Context {ord : HashOrder NodeId NodeMetadataEntry} `{PeerDirectory} (ctx : Ctx).

Definition refresh_relay_mirror (a : MetadataActor) : MetadataActor :=
  set_relay_mirror a
    (foldl (λ mirror nv,
       match relay_url (metadata a) nv.1 with
       | Some url => <[nv.1 := url]> mirror
       | None => mirror
       end) ∅ (all_versions (metadata a))).

Definition peers_of (a : MetadataActor) : list NodeId :=
  sort_by N.leb (elements (ma_alive a)).

Definition disseminate (a : MetadataActor) : MetadataActor * list (ActorAddress * MetadataOut) :=
  if decide (ma_alive a = ∅) then (a, [])
  else
    let '(d, es) := take_pending (metadata a) METADATA_BATCH in
    let a := set_metadata a d in
    match es with
    | [] => (a, [])
    | _ =>
        let peers := peers_of a in
        match peers !! N.to_nat (ma_fanout_cursor a mod N.of_nat (length peers)) with
        | Some peer =>
            let a := set_ma_fanout_cursor a (ma_fanout_cursor a +64 1) in
            match resolve peer with
            | Some addr => (a, post ctx addr (OutMetadata (Gossip es)))
            | None => (a, [])
            end
        | None => (a, []) (* the peer list is not empty *)
        end
    end.

Definition publish_local (a : MetadataActor) : MetadataActor :=
  set_metadata a (set_local (metadata a) (ma_self_id a) (self_relay a) (self_name a)
                    (cluster_size a)).

Definition handle (a : MetadataActor) (msg : MetadataIn)
    : MetadataActor * list (ActorAddress * MetadataOut) :=
  match msg with
  | Membership node_id Alive =>
      if decide (node_id ≠ ma_self_id a ∧ node_id ∉ ma_alive a) then
        let a := set_ma_alive a ({[node_id]} ∪ ma_alive a) in
        (set_metadata a (re_disseminate_all (metadata a) (cluster_size a)), [])
      else (a, [])
  | Membership node_id Dead =>
      let a := set_ma_alive a (ma_alive a ∖ {[node_id]}) in
      let a := set_metadata a (remove_node (metadata a) node_id) in
      (refresh_relay_mirror a, [])
  | Membership _ Suspect => (a, [])
  | SetRelayUrl url => (refresh_relay_mirror (publish_local (set_self_relay a url)), [])
  | SetNodeName name => (publish_local (set_self_name a (Some name)), [])
  | RelayLookup node reply =>
      (a, post ctx reply (RelayInfo node (relay_url (metadata a) node)))
  | Gossip es =>
      (refresh_relay_mirror
         (set_metadata a (apply_incoming (metadata a) es (cluster_size a))), [])
  | Tick => disseminate a
  end.
End actor.

(** ** Convergence *)

Definition nm_key (e : NodeMetadataEntry) : list N := [nm_generation e].

Lemma better_metadata a b :
  better nm_key a b = (nm_generation b <? nm_generation a).
Proof.
  unfold better, nm_key. cbn [lex_ltb].
  by destruct (nm_generation b <? nm_generation a), (nm_generation b =? nm_generation a).
Qed.

Lemma apply_one_store n d e : store (apply_one n d e) = lww_merge nm_key nm_node_id (store d) e.
Proof.
  unfold apply_one, lww_merge, lww_pick.
  destruct (store d !! nm_node_id e) as [c|] eqn:E; [|done]. rw better_metadata.
  destruct (nm_generation e <=? nm_generation c) eqn:Hle; bool_to_prop.
  - rw (proj2 (N.ltb_ge _ _) Hle). by rw insert_id.
  - by rw (proj2 (N.ltb_lt _ _) Hle).
Qed.

Lemma apply_incoming_store d es n :
  store (apply_incoming d es n) = lww_merges nm_key nm_node_id (store d) es.
Proof.
  unfold apply_incoming, lww_merges. revert d; induction es as [|e es IH]; intros d; [done|].
  simpl. by rw IH apply_one_store.
Qed.

(** A restarted node loses its own metadata: generations restart at one, so the entry
    gossiped before the restart, still held by any peer, both shadows the new one there
    and replaces it at the node itself. *)
Theorem restart_reverts_metadata x url old peer lambda n :
  1 < nm_generation old → nm_node_id old = x → store peer !! x = Some old →
  let restarted := set_local (new lambda) x url None n in
  (∀ e, e ∈ (take_pending restarted METADATA_BATCH).2 →
     store (apply_incoming peer [e] n) !! x = Some old) ∧
  relay_url (apply_incoming restarted [old] n) x = nm_relay_url old.
Proof.
  intros Hg <- Hp. cbn zeta. split.
  - assert ((take_pending (set_local (new lambda) (nm_node_id old) url None n)
      METADATA_BATCH).2 = [mkNodeMetadataEntry (nm_node_id old) url None 1]) as -> by done.
    intros e ->%list_elem_of_singleton. rw apply_incoming_store; simpl.
    rw lww_merge_lookup decide_True // Hp /lww_pick better_metadata.
    cbn [nm_generation]. by rw (proj2 (N.ltb_ge _ _)); [lia|].
  - unfold relay_url. rw apply_incoming_store; simpl. rw lww_merge_lookup decide_True //.
    unfold set_local; cbn [store enqueue set_queue set_store]. rw lookup_insert_eq.
    rw /lww_pick better_metadata. cbn [nm_generation].
    by rw (proj2 (N.ltb_lt 1 (nm_generation old)) Hg).
Qed.

Lemma restart_reverts_metadata_witness :
  let old := mkNodeMetadataEntry 1 (Some "relay-old"%string) None 2 in
  relay_url (apply_incoming (set_local (new 3) 1 (Some "relay-new"%string) None 2) [old] 2) 1
  = Some "relay-old"%string.
Proof.
  refine (proj2 (restart_reverts_metadata 1 (Some "relay-new"%string)
    (mkNodeMetadataEntry 1 (Some "relay-old"%string) None 2)
    (set_store (new 3) {[1 := mkNodeMetadataEntry 1 (Some "relay-old"%string) None 2]})
    3 2 _ _ _)); by vm_compute.
Defined.

(** ** The relay mirror *)

(** Every entry is stored under its node. *)
Definition indexed (d : NodeMetadataDisseminator) : Prop :=
  ∀ k e, store d !! k = Some e → nm_node_id e = k.

Lemma set_local_indexed d x u nm n : indexed d → indexed (set_local d x u nm n).
Proof.
  intros Hd k e. unfold set_local; simpl. rw lookup_insert. case_decide; [by intros [= <-]|].
  apply Hd.
Qed.

Lemma apply_incoming_indexed d es n : indexed d → indexed (apply_incoming d es n).
Proof.
  apply foldl_invariant'. intros d' e Hd k x. rw apply_one_store lww_merge_lookup.
  case_decide; [|apply Hd]. intros [= <-]. unfold lww_pick.
  destruct (store d' !! k) eqn:E; [|done]. case_match; [done|by apply Hd].
Qed.

Lemma re_disseminate_all_store ord d n :
  store (re_disseminate_all (ord := ord) d n) = store d.
Proof.
  unfold re_disseminate_all. by apply (foldl_invariant' (λ q, store q = store d)).
Qed.

(** The loop of [refresh_relay_mirror] reads off the relay URLs. *)
Lemma refresh_lookup ord a x :
  indexed (metadata a) →
  relay_mirror (refresh_relay_mirror (ord := ord) a) !! x = relay_url (metadata a) x.
Proof.
  intros Hi. unfold refresh_relay_mirror; cbn [relay_mirror set_relay_mirror].
  set (d := metadata a).
  assert (∀ (l : list (NodeId * N)) (m : gmap NodeId string), foldl (λ mirror nv, match relay_url d nv.1 with
      | Some url => <[nv.1 := url]> mirror | None => mirror end) m l !! x =
    if decide (x ∈ l.*1) then from_option Some (m !! x) (relay_url d x) else m !! x) as Hl.
  { intros l. induction l as [|[y v] l IH]; intros m; [done|].
    cbn [foldl fst]. rw IH fmap_cons. cbn [fst].
    destruct (decide (x = y)) as [->|Hne].
    - rw (decide_True (P := y ∈ y :: l.*1)); [by left|].
      destruct (relay_url d y); simpl; rw ?lookup_insert_eq; by case_decide.
    - assert ((match relay_url d y with Some url => <[y := url]> m | None => m end) !! x
        = m !! x) as ->.
      { destruct (relay_url d y); [|done]. rw lookup_insert_ne; [congruence|done]. }
      repeat case_decide; try done; set_solver. }
  rw Hl lookup_empty. case_decide as Hin; [by destruct (relay_url d x)|].
  unfold relay_url. destruct (store d !! x) as [e|] eqn:E; [|done]. destruct Hin.
  unfold all_versions. rw -list_fmap_compose list_elem_of_fmap. exists (x, e). simpl.
  split; [by rw (Hi _ _ E)|]. by apply elem_of_hash_iter.
Qed.

(** The mirror agrees with the store on every node but this one. *)
Definition mirror_ok (a : MetadataActor) : Prop :=
  indexed (metadata a) ∧
  ∀ x, x ≠ ma_self_id a → relay_mirror a !! x = relay_url (metadata a) x.

Lemma refresh_mirror_ok ord a :
  indexed (metadata a) → mirror_ok (refresh_relay_mirror (ord := ord) a).
Proof. intros Hi. split; [done|]. intros x _. exact (refresh_lookup ord a x Hi). Qed.

Lemma handle_mirror_ok ord dir ctx a msg :
  mirror_ok a → mirror_ok (@handle ord dir ctx a msg).1.
Proof.
  intros [Hi Hm]. destruct msg as [x st|url|name|x reply|es|]; cbn [handle].
  - destruct st; [case_decide|done|]; [|done|].
    + split.
      * intros k e. simpl. rw re_disseminate_all_store. apply Hi.
      * intros y Hy. unfold relay_url. simpl. rw re_disseminate_all_store. by apply Hm.
    + apply refresh_mirror_ok. intros k e. simpl. rw lookup_delete.
      case_decide; [done|apply Hi].
  - apply refresh_mirror_ok. by apply set_local_indexed.
  - split; [by apply set_local_indexed|]. intros y Hy. simpl in *. rw Hm //.
    unfold relay_url, set_local; simpl. by rw lookup_insert_ne.
  - done.
  - apply refresh_mirror_ok. by apply apply_incoming_indexed.
  - unfold disseminate, take_pending. case_decide; [done|].
    destruct (take_batch _ _) as [q [|e l]]; [done|]. cbn [fst snd].
    destruct (_ !! _) as [peer|]; [|done]. by destruct (resolve peer).
Qed.

Lemma handle_self_id ord dir ctx a msg :
  ma_self_id (@handle ord dir ctx a msg).1 = ma_self_id a.
Proof.
  destruct msg as [x st|url|name|x reply|es|]; cbn [handle]; try done.
  - destruct st; [by case_decide|done..].
  - unfold disseminate, take_pending. case_decide; [done|].
    destruct (take_batch _ _) as [q [|e l]]; [done|]. cbn [fst snd].
    destruct (_ !! _) as [peer|]; [|done]. by destruct (resolve peer).
Qed.

(** A history: iteration order, peer bindings, routing and message of each turn. *)
Record Turn := mkTurn {
  turn_order : HashOrder NodeId NodeMetadataEntry;
  turn_peers : PeerDirectory;
  turn_ctx : Ctx;
  turn_msg : MetadataIn;
}.

Definition take_turn (a : MetadataActor) (t : Turn) : MetadataActor :=
  (@handle (turn_order t) (turn_peers t) (turn_ctx t) a (turn_msg t)).1.

(** The dial path sees current relay URLs: after any sequence of messages, under any
    iteration orders, bindings and routing, the relay mirror holds for every other node
    exactly the URL in the metadata store. *)
Theorem relay_mirror_current self_id lambda turns x :
  x ≠ self_id →
  let a := foldl take_turn (new_actor self_id lambda) turns in
  relay_mirror a !! x = relay_url (metadata a) x.
Proof.
  intros Hx. cbn zeta.
  assert (mirror_ok (foldl take_turn (new_actor self_id lambda) turns) ∧
    ma_self_id (foldl take_turn (new_actor self_id lambda) turns) = self_id) as [[_ Hm] Hs].
  { apply (foldl_invariant' (λ a, mirror_ok a ∧ ma_self_id a = self_id)).
    - intros a t [Hm <-]. split; [by apply handle_mirror_ok|apply handle_self_id].
    - split; [|done]. split; [by intros k e; rw lookup_empty|done]. }
  apply Hm. by rw Hs.
Qed.

Lemma relay_mirror_current_witness :
  let a := foldl take_turn (new_actor 1 3)
    [mkTurn (default_order _ _) (λ _, None) (mkCtx 100 (λ _, true))
       (Gossip [mkNodeMetadataEntry 2 (Some "relay"%string) None 1])] in
  relay_mirror a !! 2 = relay_url (metadata a) 2.
Proof. by apply relay_mirror_current. Defined.
