(* ===== verification/Directory.v ===== *)
(** * The actor location directory

    [crates/distribution/src/directory_actor.rs]: one signed claim per actor,
    merged by (generation, node id), gossiped while its budget lasts, and
    projected on a route view of the actors whose host is reachable.  The
    signature check [verify] and the routes pinned from outside are arguments;
    the binder's calls and the watchers' wakeups are effects. *)

From S2P Require Import Prelude Lww Types ActorCtx.
#[local] Open Scope N_scope.

Definition FANOUT : N := 3.
Definition MAX_ROUNDS : N := 8.
Definition BATCH : nat := 16.

Abbreviation Callback := N.

Inductive DirectoryIn :=
  | Register (claim : DirectoryEntry)
  | Gossip (claims : list DirectoryEntry)
  | Membership (node_id : NodeId) (state : MemberState)
  | Resolve (actor : ActorAddress) (reply : ActorAddress)
  | Resync
  | SyncTo (peer : NodeId)
  | WatchRoutes (changed : Callback)
  | Tick.

Inductive DirectoryOut :=
  | OutDirectory (msg : DirectoryIn)
  | Located (actor : ActorAddress) (host : option NodeId).

Inductive Effect :=
  | Posted (to : ActorAddress) (msg : DirectoryOut)
  | RemoveRoute (actor : ActorAddress)
  | EnsureRoutable (actor : ActorAddress)
  | Woken (watcher : Callback).

Record DirectoryActor := mkDirectoryActor {
  da_self_id : NodeId;
  map : gmap ActorAddress DirectoryEntry;
  da_alive : gset NodeId;
  hot : gmap ActorAddress N;
  cursor : N;
  route_view : gmap ActorAddress NodeId;
  bound_remote : gset ActorAddress;
  da_watchers : list Callback;
}.

Definition directory_eta (a : DirectoryActor) : DirectoryActor :=
  mkDirectoryActor (da_self_id a) (map a) (da_alive a) (hot a) (cursor a) (route_view a)
    (bound_remote a) (da_watchers a).
Definition set_map (a : DirectoryActor) (v : gmap ActorAddress DirectoryEntry)
    : DirectoryActor := ltac:(update_field directory_eta a map v).
Definition set_da_alive (a : DirectoryActor) (v : gset NodeId) : DirectoryActor :=
  ltac:(update_field directory_eta a da_alive v).
Definition set_hot (a : DirectoryActor) (v : gmap ActorAddress N) : DirectoryActor :=
  ltac:(update_field directory_eta a hot v).
Definition set_cursor (a : DirectoryActor) (v : N) : DirectoryActor :=
  ltac:(update_field directory_eta a cursor v).
Definition set_route_view (a : DirectoryActor) (v : gmap ActorAddress NodeId)
    : DirectoryActor := ltac:(update_field directory_eta a route_view v).
Definition set_bound_remote (a : DirectoryActor) (v : gset ActorAddress) : DirectoryActor :=
  ltac:(update_field directory_eta a bound_remote v).
Definition set_da_watchers (a : DirectoryActor) (v : list Callback) : DirectoryActor :=
  ltac:(update_field directory_eta a da_watchers v).

Definition with_pinned_routes (self_id : NodeId) : DirectoryActor :=
  mkDirectoryActor self_id ∅ ∅ ∅ 0 ∅ ∅ [].

Definition location (a : DirectoryActor) (actor : ActorAddress) : option (NodeId * N) :=
  (λ c, (de_node_id c, de_generation c)) <$> map a !! actor.

(** [u32::BITS - n.leading_zeros()] on a [u32]. *)
Definition bit_length (n : N) : N := N.size (n mod u32_modulus).

Definition budget (a : DirectoryActor) : N :=
  let n := N.of_nat (size (da_alive a) + 1) in
  N.min (N.max (FANOUT * bit_length n) FANOUT) (FANOUT * MAX_ROUNDS).

Section actor.
Context (verify : DirectoryEntry → bool) (pinned : gmap ActorAddress NodeId).
Context {ord : HashOrder ActorAddress DirectoryEntry} {ord_hot : HashOrder ActorAddress N}.
Context `{PeerDirectory} (ctx : Ctx) (live : Callback → bool).

Definition supersedes (claim : DirectoryEntry) (cur : option DirectoryEntry) : bool :=
  match cur with
  | None => true
  | Some cur =>
      (de_generation cur <? de_generation claim)
      || ((de_generation claim =? de_generation cur) && (de_node_id cur <? de_node_id claim))
  end.

Definition merge_one (a : DirectoryActor) (claim : DirectoryEntry) : DirectoryActor * bool :=
  if negb (verify claim) then (a, false)
  else if supersedes claim (map a !! de_actor_addr claim) then
    (set_map (set_hot a (<[de_actor_addr claim := budget a]> (hot a)))
       (<[de_actor_addr claim := claim]> (map a)), true)
  else (a, false).

(** One iteration of the loop of [republish] over the claims. *)
Definition republish_one (a : DirectoryActor)
    (vr : gmap ActorAddress NodeId * gset ActorAddress)
    (ac : ActorAddress * DirectoryEntry) : gmap ActorAddress NodeId * gset ActorAddress :=
  let '(view, remote) := vr in
  let '(actor, claim) := ac in
  match view !! actor with
  | Some _ => (view, remote)
  | None =>
      if de_node_id claim =? da_self_id a then (<[actor := de_node_id claim]> view, remote)
      else if decide (de_node_id claim ∈ da_alive a)
      then (<[actor := de_node_id claim]> view, {[actor]} ∪ remote)
      else (view, remote)
  end.

(** [watchers.retain] with the wakeups. *)
Definition wake_watchers (ws : list Callback) : list Callback * list Effect :=
  (filter (λ w, live w = true) ws, Woken <$> filter (λ w, live w = true) ws).

Definition republish (a : DirectoryActor) (claims_changed : bool)
    : DirectoryActor * list Effect :=
  let remote0 : gset ActorAddress :=
    dom (filter (λ an, an.2 ≠ da_self_id a) pinned) in
  let '(view, remote) :=
    foldl (republish_one a) (pinned, remote0) (hash_iter (map a)) in
  let changed := bool_decide (route_view a ≠ view) in
  let departed := elements (bound_remote a ∖ remote) in
  let joined := elements (remote ∖ bound_remote a) in
  let a := set_bound_remote (set_route_view a view) remote in
  let '(ws, woken) :=
    if changed || claims_changed then wake_watchers (da_watchers a)
    else (da_watchers a, []) in
  (set_da_watchers a ws,
   (RemoveRoute <$> departed) ++ (EnsureRoutable <$> joined) ++ woken).

Definition register (a : DirectoryActor) (claim : DirectoryEntry)
    : DirectoryActor * list Effect :=
  let '(a, changed) := merge_one a claim in
  republish a changed.

Definition merge_batch (a : DirectoryActor) (claims : list DirectoryEntry)
    : DirectoryActor * list Effect :=
  let '(a, changed) :=
    foldl (λ ac c, let '(a, changed) := merge_one ac.1 c in (a, ac.2 || changed))
      (a, false) claims in
  republish a changed.

(** Arm every held claim for dissemination. *)
Definition rearm (a : DirectoryActor) : DirectoryActor :=
  let b := budget a in
  set_hot a (foldl (λ h actor, <[actor := b]> h) (hot a) (hash_iter (map a)).*1).

Definition on_membership (a : DirectoryActor) (node_id : NodeId) (state : MemberState)
    : DirectoryActor * list Effect :=
  let a :=
    match state with
    | Alive =>
        if decide (node_id ≠ da_self_id a ∧ node_id ∉ da_alive a)
        then rearm (set_da_alive a ({[node_id]} ∪ da_alive a)) else a
    | Dead => set_da_alive a (da_alive a ∖ {[node_id]})
    | Suspect => a
    end in
  republish a false.

(** One actor of [take_hot]. *)
Definition take_hot_one (a : DirectoryActor) (actor : ActorAddress)
    : DirectoryActor * list DirectoryEntry :=
  let claims := option_list (map a !! actor) in
  match hot a !! actor with
  | Some owed =>
      let owed := owed - 1 in
      (set_hot a (if owed =? 0 then delete actor (hot a) else <[actor := owed]> (hot a)),
       claims)
  | None => (a, claims)
  end.

Definition take_hot (a : DirectoryActor) (limit : nat)
    : DirectoryActor * list DirectoryEntry :=
  emit_all take_hot_one a (take limit (hash_iter (hot a)).*1).

Definition peers_of (a : DirectoryActor) : list NodeId :=
  sort_by N.leb (elements (da_alive a)).

Definition send (to : ActorAddress) (msg : DirectoryOut) : list Effect :=
  (λ p, Posted p.1 p.2) <$> post ctx to msg.

Definition disseminate (a : DirectoryActor) : DirectoryActor * list Effect :=
  if decide (da_alive a = ∅ ∨ hot a = ∅) then (a, [])
  else
    let peers := peers_of a in
    match peers !! N.to_nat (cursor a mod N.of_nat (length peers)) with
    | Some peer =>
        let a := set_cursor a (cursor a +64 1) in
        let '(a, claims) := take_hot a BATCH in
        match claims with
        | [] => (a, [])
        | _ =>
            match resolve peer with
            | Some addr => (a, send addr (OutDirectory (Gossip claims)))
            | None => (a, [])
            end
        end
    | None => (a, []) (* the peer list is not empty *)
    end.

Definition sync_to (a : DirectoryActor) (peer : NodeId) : list Effect :=
  match resolve peer with
  | Some addr =>
      let claims := (hash_iter (map a)).*2 in
      chunks BATCH (length claims) claims ≫= λ b, send addr (OutDirectory (Gossip b))
  | None => []
  end.

Definition handle (a : DirectoryActor) (msg : DirectoryIn) : DirectoryActor * list Effect :=
  match msg with
  | Register claim => register a claim
  | Gossip claims => merge_batch a claims
  | Membership node_id state => on_membership a node_id state
  | SyncTo peer => (a, sync_to a peer)
  | WatchRoutes changed =>
      let ws := filter (λ w, live w = true) (da_watchers a) in
      if live changed
      then (set_da_watchers a (ws ++ [changed]), [Woken changed])
      else (set_da_watchers a ws, [])
  | Resync => republish (rearm a) false
  | Tick => disseminate a
  | Resolve actor reply => (a, send reply (Located actor (route_view a !! actor)))
  end.
End actor.

(** ** Claims *)

Definition claim_key (c : DirectoryEntry) : list N := [de_generation c; de_node_id c].

Lemma dir_supersedes_better c cur :
  supersedes c cur = match cur with Some d => better claim_key c d | None => true end.
Proof.
  destruct cur as [d|]; [|done]. unfold supersedes, better, claim_key. cbn [lex_ltb].
  rw (N.eqb_sym (de_generation c)).
  by destruct (de_node_id d <? de_node_id c), (de_node_id d =? de_node_id c).
Qed.

Lemma merge_one_map verify a c :
  map (merge_one verify a c).1 =
    if verify c then lww_merge claim_key de_actor_addr (map a) c else map a.
Proof.
  unfold merge_one. destruct (verify c); [|done]. cbn [negb].
  rw dir_supersedes_better /lww_merge /lww_pick.
  destruct (map a !! de_actor_addr c) as [d|] eqn:E; [|done].
  destruct (better claim_key c d); [done|]. by rw insert_id.
Qed.

Definition merge_claims (verify : DirectoryEntry → bool) (a : DirectoryActor)
    (cs : list DirectoryEntry) : DirectoryActor * bool :=
  foldl (λ ac c, let '(a, changed) := merge_one verify ac.1 c in (a, ac.2 || changed))
    (a, false) cs.

Lemma merge_claims_map verify a cs :
  map (merge_claims verify a cs).1 =
    lww_merges claim_key de_actor_addr (map a) (filter (λ c, verify c = true) cs).
Proof.
  unfold merge_claims. generalize false as b. revert a.
  induction cs as [|c cs IH]; intros a b; [done|]. simpl.
  pose proof (merge_one_map verify a c) as E.
  destruct (merge_one verify a c) as [a' ch]; cbn [fst snd] in *. rw IH E.
  destruct (verify c) eqn:Hv; [by rw filter_cons_True|by rw filter_cons_False // Hv].
Qed.

(** A location determines the key of a claim, so ties are harmless. *)
Definition locate (c : DirectoryEntry) : ActorAddress * (NodeId * N) :=
  (de_actor_addr c, (de_node_id c, de_generation c)).

Definition locate_key (l : ActorAddress * (NodeId * N)) : list N := [l.2.2; l.2.1].

Lemma merge_claims_location verify a cs x :
  location (merge_claims verify a cs).1 x =
    snd <$> lww_merges locate_key fst (locate <$> map a)
              (locate <$> filter (λ c, verify c = true) cs) !! x.
Proof.
  unfold location. rw merge_claims_map.
  rw -(lww_merges_fmap claim_key de_actor_addr locate_key fst locate) // lookup_fmap.
  by destruct (lww_merges _ _ _ _ !! x).
Qed.

Lemma republish_map pinned ord live a b :
  map (@republish pinned ord live a b).1 = map a.
Proof.
  unfold republish. destruct (foldl _ _ _) as [view remote].
  by destruct (_ || _); [destruct (wake_watchers _ _)|].
Qed.

(** Directories converge on locations: two directories that hold the same locations and
    receive the same set of claims, in any batches, order and repetition, locate every
    actor on the same host at the same generation, forged claims being ignored. *)
Theorem directory_converges verify pinned pinned' ord ord' live live' a a' cs cs' x :
  (∀ y, location a y = location a' y) → (∀ c, c ∈ cs ↔ c ∈ cs') →
  (∀ y c, map a !! y = Some c → de_actor_addr c = y) →
  (∀ y c, map a' !! y = Some c → de_actor_addr c = y) →
  location (@merge_batch verify pinned ord live a cs).1 x =
  location (@merge_batch verify pinned' ord' live' a' cs').1 x.
Proof.
  intros Hl Hcs Hk Hk'. unfold merge_batch.
  fold (merge_claims verify a cs) (merge_claims verify a' cs').
  transitivity (location (merge_claims verify a cs).1 x).
  { unfold location. destruct (merge_claims verify a cs). by rw republish_map. }
  transitivity (location (merge_claims verify a' cs').1 x); last first.
  { unfold location. destruct (merge_claims verify a' cs'). by rw republish_map. }
  rw !merge_claims_location. f_equal.
  assert (locate <$> map a = locate <$> map a') as ->.
  { apply map_eq. intros y. specialize (Hl y). rw !lookup_fmap. unfold location in Hl.
    destruct (map a !! y) as [c|] eqn:E, (map a' !! y) as [c'|] eqn:E'; simplify_eq/=;
      [|done]. unfold locate. rw (Hk y c E) (Hk' y c' E'). congruence. }
  f_equal. apply lww_merges_set.
  - intros l. rw !list_elem_of_fmap. setoid_rewrite list_elem_of_filter.
    by setoid_rewrite Hcs.
  - intros [y1 [n1 g1]] [y2 [n2 g2]] _ _ Hs [= -> ->]. simpl in Hs. by subst.
Qed.

Lemma directory_converges_witness :
  let c := mkDirectoryEntry 7 2 1 99 in
  let d := mkDirectoryEntry 7 3 1 98 in
  let merged cs := (@merge_batch (λ _, true) ∅ (default_order _ _) (λ _, true)
                      (with_pinned_routes 1) cs).1 in
  location (merged [c; d]) 7 = location (merged [d; c; d]) 7.
Proof.
  apply directory_converges; try done. intros c. rw !elem_of_cons. intuition auto.
Defined.

(** ** Routes *)

Section routes.
Context (pinned : gmap ActorAddress NodeId).

(** A host that can be reached right now. *)
Definition reachable (a : DirectoryActor) (host : NodeId) : bool :=
  (host =? da_self_id a) || bool_decide (host ∈ da_alive a).

(** Where [x] is to be routed: as pinned, or to the host of its claim if that is
    reachable. *)
Definition route_of (a : DirectoryActor) (x : ActorAddress) : option NodeId :=
  match pinned !! x with
  | Some host => Some host
  | None =>
      match map a !! x with
      | Some c => if reachable a (de_node_id c) then Some (de_node_id c) else None
      | None => None
      end
  end.

(** The published state says exactly that, and the binder is asked to route exactly
    the actors routed to other nodes. *)
Definition published (a : DirectoryActor) : Prop :=
  ∀ x, route_view a !! x = route_of a x ∧
       (x ∈ bound_remote a ↔ ∃ host, route_of a x = Some host ∧ host ≠ da_self_id a).

Definition visit (a : DirectoryActor) (c : DirectoryEntry) : option NodeId :=
  if reachable a (de_node_id c) then Some (de_node_id c) else None.

(** The claim makes its actor routed to another node. *)
Definition away (a : DirectoryActor) (c : DirectoryEntry) : bool :=
  negb (de_node_id c =? da_self_id a) && bool_decide (de_node_id c ∈ da_alive a).

Lemma republish_one_spec a view remote y d x :
  let r := republish_one a (view, remote) (y, d) in
  r.1 !! x = (if decide (x = y) then match view !! x with Some h => Some h | None => visit a d end
              else view !! x) ∧
  (x ∈ r.2 ↔ x ∈ remote ∨ x = y ∧ view !! x = None ∧ away a d = true).
Proof.
  cbn zeta. unfold republish_one, visit, reachable, away.
  destruct (view !! y) as [h|] eqn:Ey; cbn [fst snd].
  { case_decide; [subst; rw Ey|]; (split; [done|]); set_solver. }
  destruct (de_node_id d =? da_self_id a); cbn [orb negb andb fst snd].
  { rw lookup_insert. split; [|set_solver]. repeat case_decide; subst; rw ?Ey //. }
  destruct (decide (de_node_id d ∈ da_alive a)) as [Hin|Hin]; cbn [fst snd].
  - rw bool_decide_eq_true_2 // lookup_insert. split; [|set_solver].
    repeat case_decide; subst; rw ?Ey //.
  - rw bool_decide_eq_false_2 //. split; [|set_solver]. case_decide; subst; rw ?Ey //.
Qed.

(** The loop over the claims, each actor visited once. *)
Lemma republish_loop a l view remote x :
  NoDup l.*1 →
  let r := foldl (republish_one a) (view, remote) l in
  r.1 !! x = match view !! x with
             | Some h => Some h
             | None => (snd <$> list_find (λ p, p.1 = x) l) ≫= λ p, visit a p.2
             end ∧
  (x ∈ r.2 ↔ x ∈ remote ∨ view !! x = None ∧ ∃ c, (x, c) ∈ l ∧ away a c = true).
Proof.
  revert view remote; induction l as [|[y d] l IH]; intros view remote Hnd.
  { simpl. split; [by destruct (view !! x)|set_solver]. }
  apply NoDup_cons in Hnd as [Hy Hnd]. cbn [fst] in Hy. cbn [foldl].
  destruct (republish_one_spec a view remote y d x) as [Ev Er].
  destruct (republish_one a (view, remote) (y, d)) as [view1 remote1]; cbn [fst snd] in *.
  destruct (IH view1 remote1 Hnd) as [IHv IHr]. split.
  - rw IHv Ev. cbn [list_find fst]. case_decide as Hx; case_decide as Hx'; try congruence.
    + subst y. simpl. destruct (view !! x); [done|]. destruct (visit a d); [done|].
      destruct (list_find _ l) as [[i [z e]]|] eqn:Ef; [|done].
      apply list_find_Some in Ef as (Hi & Hz & _). simpl in Hz. subst z. destruct Hy.
      apply list_elem_of_fmap. exists (x, e). split; [done|]. by eapply list_elem_of_lookup_2.
    + destruct (view !! x); [done|]. by destruct (list_find _ l) as [[i p]|].
  - rw IHr Er Ev. split.
    + intros [[?|(-> & Hn & Ha)]|(Hv & c & Hc & Ha)]; [by left|right|right].
      * split; [done|]. exists d. split; [by left|done].
      * case_decide as Hx; [|split; [done|]; exists c; split; [by right|done]].
        subst y. destruct Hy. apply list_elem_of_fmap. by exists (x, c).
    + intros [?|(Hv & c & [[= -> ->]|Hc]%elem_of_cons & Ha)]; [by left; left|..].
      * left; right. by split_and!.
      * right. rw decide_False; [|split; [done|]; by exists c].
        intros ->. apply Hy. apply list_elem_of_fmap. by exists (y, c).
Qed.

Lemma find_hash_iter ord (m : gmap ActorAddress DirectoryEntry) x :
  (snd <$> list_find (λ p, p.1 = x) (@hash_iter _ _ _ _ ord m)) =
    (λ c, (x, c)) <$> m !! x.
Proof.
  destruct (list_find _ _) as [[i [y c]]|] eqn:E.
  - apply list_find_Some in E as (Hi%list_elem_of_lookup_2 & Hy & _). simpl in Hy. subst y.
    apply (elem_of_hash_iter ord) in Hi. by rw Hi.
  - destruct (m !! x) as [c|] eqn:Ex; [|done].
    apply list_find_None in E. rw Forall_forall in E.
    by destruct (E (x, c)); [apply elem_of_hash_iter|].
Qed.

Lemma republish_published ord live a changed : published (@republish pinned ord live a changed).1.
Proof.
  unfold republish. set (remote0 := dom _).
  pose proof (λ x, republish_loop a (hash_iter (map a)) pinned remote0 x
    (hash_iter_nodup ord (map a))) as Hl. cbn zeta in Hl.
  destruct (foldl _ _ _) as [view remote]; cbn [fst snd] in Hl.
  destruct (if _ || _ then _ else _) as [ws woken]. intros x. destruct (Hl x) as [Hv Hr].
  cbn [fst route_view bound_remote set_da_watchers set_bound_remote set_route_view].
  rw Hv Hr (find_hash_iter ord). unfold route_of, reachable.
  cbn [map da_self_id da_alive set_da_watchers set_bound_remote set_route_view].
  split.
  - destruct (pinned !! x); [done|]. by destruct (map a !! x).
  - assert (x ∈ remote0 ↔ ∃ h, pinned !! x = Some h ∧ h ≠ da_self_id a) as ->.
    { unfold remote0. rw elem_of_dom. unfold is_Some.
      setoid_rewrite map_lookup_filter_Some. simpl. naive_solver. }
    destruct (pinned !! x) as [h|]; [naive_solver|]. split.
    + intros [(? & ? & _)|(_ & c & Hc & Ha)]; [done|].
      apply (elem_of_hash_iter ord) in Hc. rw Hc. unfold away in Ha. exists (de_node_id c).
      apply andb_true_iff in Ha as [Hn Hi]. apply negb_true_iff, N.eqb_neq in Hn.
      split; [|done]. by rw Hi orb_true_r.
    + intros (h & Hh & Hn). right. split; [done|].
      destruct (map a !! x) as [c|] eqn:Ec; [|done].
      destruct (_ || _) eqn:Er; [|done]. injection Hh as <-. exists c.
      split; [by apply elem_of_hash_iter|]. unfold away.
      rw (proj2 (N.eqb_neq _ _) Hn) in Er. by rw (proj2 (N.eqb_neq _ _) Hn).
Qed.
End routes.

(** What the binder routes, following the actor's calls. *)
Definition follow (bound : gset ActorAddress) (eff : Effect) : gset ActorAddress :=
  match eff with
  | RemoveRoute x => bound ∖ {[x]}
  | EnsureRoutable x => {[x]} ∪ bound
  | _ => bound
  end.

Lemma follow_remove l S : foldl follow S (RemoveRoute <$> l) = S ∖ list_to_set l.
Proof.
  revert S; induction l as [|x l IH]; intros S; cbn; [set_solver|]. rw IH. set_solver.
Qed.

Lemma follow_ensure l S : foldl follow S (EnsureRoutable <$> l) = S ∪ list_to_set l.
Proof.
  revert S; induction l as [|x l IH]; intros S; cbn; [set_solver|]. rw IH. set_solver.
Qed.

Lemma follow_woken l S : foldl follow S (Woken <$> l) = S.
Proof. induction l; done. Qed.

Lemma republish_followed pinned ord live a changed :
  let r := @republish pinned ord live a changed in
  foldl follow (bound_remote a) r.2 = bound_remote r.1.
Proof.
  cbn zeta. unfold republish. destruct (foldl (republish_one a) _ _) as [view remote].
  set (w := if _ || _ then _ else _).
  assert (∀ S, foldl follow S w.2 = S) as Hw.
  { intros S. subst w. case_match; simpl; [apply follow_woken|done]. }
  destruct w as [ws woken]; cbn [fst snd] in *.
  rw !foldl_app follow_remove follow_ensure Hw. simpl.
  apply set_eq. intros x. rw elem_of_union elem_of_difference !elem_of_list_to_set.
  rw !elem_of_elements !elem_of_difference.
  destruct (decide (x ∈ remote)), (decide (x ∈ bound_remote a)); tauto.
Qed.

(** The messages after which the directory republishes its routes. *)
Definition republishes (msg : DirectoryIn) : bool :=
  match msg with
  | Register _ | Gossip _ | Membership _ _ | Resync => true
  | _ => false
  end.

Lemma take_hot_frame ord_hot a limit :
  let a' := (@take_hot ord_hot a limit).1 in
  map a' = map a ∧ da_alive a' = da_alive a ∧ route_view a' = route_view a ∧
  bound_remote a' = bound_remote a ∧ da_self_id a' = da_self_id a.
Proof.
  cbn zeta. unfold take_hot. generalize (take limit (hash_iter (hot a)).*1) as l.
  intros l. revert a. induction l as [|x l IH]; intros a; [done|]. cbn [emit_all fst].
  destruct (IH (take_hot_one a x).1) as (-> & -> & -> & -> & ->).
  unfold take_hot_one. by destruct (hot a !! x).
Qed.

Lemma dir_disseminate_frame ord_hot dir ctx a :
  let r := @disseminate ord_hot dir ctx a in
  map r.1 = map a ∧ da_alive r.1 = da_alive a ∧ route_view r.1 = route_view a ∧
  bound_remote r.1 = bound_remote a ∧ da_self_id r.1 = da_self_id a ∧
  ∀ S, foldl follow S r.2 = S.
Proof.
  cbn zeta. unfold disseminate. case_decide; [done|].
  destruct (_ !! _) as [peer|]; [|done].
  destruct (take_hot_frame ord_hot (set_cursor a (cursor a +64 1)) BATCH) as (?&?&?&?&?).
  destruct (take_hot _ BATCH) as [a' [|c cs]]; cbn [fst snd] in *; [by split_and!|].
  destruct (resolve peer); cbn [fst snd]; [|by split_and!]. split_and!; try done.
  intros S. unfold send, post, ctx_send. by case_match.
Qed.

Lemma posts_unfollowed ctx S to msg : foldl follow S (send ctx to msg) = S.
Proof. unfold send, post, ctx_send. by case_match. Qed.

Lemma merge_claims_bound verify a cs :
  bound_remote (merge_claims verify a cs).1 = bound_remote a.
Proof.
  unfold merge_claims. generalize false as b. revert a.
  induction cs as [|c cs IH]; intros a b; [done|]. simpl.
  destruct (merge_one verify a c) as [a' ch] eqn:E; cbn [fst snd]. rw IH. revert E.
  unfold merge_one. repeat case_match; by intros [= <- <-].
Qed.

(** A step of the actor with the world it runs in: routes are pinned, peers bound,
    addresses routable and watchers alive by others' doing. *)
Record Step := mkStep {
  at_pinned : gmap ActorAddress NodeId;
  at_peers : PeerDirectory;
  at_ctx : Ctx;
  at_live : Callback → bool;
  at_msg : DirectoryIn;
}.

Section histories.
Context (verify : DirectoryEntry → bool).
Context {ord : HashOrder ActorAddress DirectoryEntry} {ord_hot : HashOrder ActorAddress N}.

Definition run_step (a : DirectoryActor) (s : Step) : DirectoryActor * list Effect :=
  handle verify (at_pinned s) (H := at_peers s) (at_ctx s) (at_live s) a (at_msg s).

Lemma run_step_republishes a s :
  republishes (at_msg s) = true → published (at_pinned s) (run_step a s).1.
Proof.
  destruct s as [pinned dir ctx live msg]. cbn. intros Hm.
  destruct msg as [c|cs|x st|x reply| |peer|w|]; try done; unfold run_step; cbn -[republish foldl];
    unfold register, merge_batch, on_membership;
    repeat destruct (merge_one _ _ _); repeat destruct (foldl _ _ _);
    apply republish_published.
Qed.

Lemma run_step_quiet pinned a s :
  republishes (at_msg s) = false → published pinned a → published pinned (run_step a s).1.
Proof.
  destruct s as [pinned' dir ctx live msg]. cbn. intros Hm Hp.
  destruct msg as [c|cs|x st|x reply| |peer|w|]; try done; unfold run_step; cbn -[published disseminate].
  - by destruct (live w).
  - destruct (dir_disseminate_frame ord_hot dir ctx a) as (E1 & E2 & E3 & E4 & E5 & _).
    intros x. unfold route_of, reachable. cbn. rw E1 E2 E3 E4 E5. apply Hp.
Qed.

Lemma run_step_followed a s :
  foldl follow (bound_remote a) (run_step a s).2 = bound_remote (run_step a s).1.
Proof.
  destruct s as [pinned dir ctx live msg]. unfold run_step; cbn.
  assert (∀ a0 b, bound_remote a0 = bound_remote a →
    foldl follow (bound_remote a) (republish pinned live a0 b).2 =
      bound_remote (republish pinned live a0 b).1) as Hrep.
  { intros a0 b <-. apply republish_followed. }
  destruct msg as [c|cs|x st|x reply| |peer|w|]; cbn [handle].
  - unfold register. destruct (merge_one verify a c) as [a0 ch] eqn:E. apply Hrep.
    revert E. unfold merge_one. repeat case_match; by intros [= <- <-].
  - unfold merge_batch. fold (merge_claims verify a cs).
    pose proof (merge_claims_bound verify a cs) as E.
    destruct (merge_claims verify a cs) as [a0 ch]. by apply Hrep.
  - unfold on_membership. apply Hrep. destruct st; [by case_decide|done..].
  - apply posts_unfollowed.
  - by apply Hrep.
  - cbn [snd fst]. unfold sync_to. destruct (resolve peer) as [addr|]; [|done].
    generalize (chunks BATCH (length (hash_iter (map a)).*2) (hash_iter (map a)).*2) as bs.
    induction bs as [|b bs IH]; [done|]. rw bind_cons foldl_app posts_unfollowed. apply IH.
  - by destruct (live w).
  - destruct (dir_disseminate_frame ord_hot dir ctx a) as (_ & _ & _ & E4 & _ & Ef). by rw Ef E4.
Qed.

(** Routing follows claims and membership exactly: once a registration, gossip,
    membership change or resync has been handled, and until the next one, the route view
    sends an actor to its pinned host, or else to the host of its winning claim if that
    host is this node or alive, and to nowhere otherwise. The binder, told only the
    differences since the actor started, routes exactly the actors sent to other nodes. *)
Theorem route_view_exact self hist s quiet :
  republishes (at_msg s) = true → Forall (λ q, republishes (at_msg q) = false) quiet →
  let r := emit_all run_step (with_pinned_routes self) (hist ++ s :: quiet) in
  published (at_pinned s) r.1 ∧ foldl follow ∅ r.2 = bound_remote r.1.
Proof.
  intros Hs Hq. cbn zeta. split.
  - rw emit_all_app. cbn [emit_all fst]. set (a := (run_step _ s).1).
    refine (emit_all_invariant (λ a _, published (at_pinned s) a) run_step a [] quiet _ _).
    + intros a' _ q Hin. apply run_step_quiet. rw Forall_forall in Hq. by apply Hq.
    + by apply run_step_republishes.
  - refine (emit_all_invariant (λ a out, foldl follow ∅ out = bound_remote a) run_step
      (with_pinned_routes self) [] _ _ _); [|done].
    intros a out q _ E. rw foldl_app E. apply run_step_followed.
Qed.
End histories.

Lemma route_view_exact_witness :
  let at_ := mkStep {[ 40 := 4 ]} (λ n, Some (n + 100)) (mkCtx 1 (λ _, true)) (λ _, true) in
  let _ : HashOrder ActorAddress DirectoryEntry := default_order _ _ in
  let _ : HashOrder ActorAddress N := default_order _ _ in
  let r := emit_all (run_step (λ _, true)) (with_pinned_routes 1)
             ([at_ (Membership 2 Alive)] ++
              at_ (Gossip [mkDirectoryEntry 7 2 1 99; mkDirectoryEntry 8 3 1 98]) ::
              [at_ Tick]) in
  published {[ 40 := 4 ]} r.1 ∧ foldl follow ∅ r.2 = bound_remote r.1.
Proof.
  intros at_ ord ord_hot.
  exact (route_view_exact (λ _, true) 1 [at_ (Membership 2 Alive)]
    (at_ (Gossip [mkDirectoryEntry 7 2 1 99; mkDirectoryEntry 8 3 1 98])) [at_ Tick]
    eq_refl (proj2 (Forall_singleton _ (at_ Tick)) eq_refl)).
Defined.

(** ** Well-formed directories *)

Section wellformed.
Context (verify : DirectoryEntry → bool).

(** Held claims are authentic and filed under their actor; a claim waits for gossip
    only while it is held, with a budget in range; peers are other nodes. *)
Record dir_wf (a : DirectoryActor) : Prop := {
  wf_claims x c : map a !! x = Some c → de_actor_addr c = x ∧ verify c = true;
  wf_hot x b : hot a !! x = Some b → 1 ≤ b ≤ FANOUT * MAX_ROUNDS ∧ is_Some (map a !! x);
  wf_alive : da_self_id a ∉ da_alive a;
}.

(** What is gossiped: authentic claims, in batches of bounded size. *)
Definition gossip_wf (e : Effect) : Prop :=
  match e with
  | Posted _ (OutDirectory (Gossip cs)) =>
      (length cs ≤ BATCH)%nat ∧ Forall (λ c, verify c = true) cs
  | _ => True
  end.

Lemma budget_bounds a : FANOUT ≤ budget a ≤ FANOUT * MAX_ROUNDS.
Proof. unfold budget, FANOUT, MAX_ROUNDS. lia. Qed.

Lemma wf_frame a a' :
  map a' = map a → hot a' = hot a → da_alive a' = da_alive a → da_self_id a' = da_self_id a →
  dir_wf a → dir_wf a'.
Proof.
  intros E1 E2 E3 E4 [W1 W2 W3].
  split; [by rw E1|intros x b; rw E1 E2; apply W2|by rw E3 E4].
Qed.

Lemma republish_wf pinned ord live a b :
  dir_wf a → dir_wf (@republish pinned ord live a b).1.
Proof.
  apply wf_frame; unfold republish; destruct (foldl _ _ _) as [v r];
    by destruct (_ || _); [destruct (wake_watchers _ _)|].
Qed.

Lemma merge_one_wf a c : dir_wf a → dir_wf (merge_one verify a c).1.
Proof.
  intros [W1 W2 W3]. unfold merge_one. destruct (verify c) eqn:Hv; [|done]. cbn [negb].
  destruct (supersedes c _); [|done]. split; cbn [fst]; [| |done].
  - intros x d. cbn. rw lookup_insert_Some. intros [[<- <-]|[_ ?]]; auto.
  - intros x b. cbn. rw !lookup_insert_Some lookup_insert_is_Some.
    pose proof (budget_bounds a). unfold FANOUT, MAX_ROUNDS in *.
    intros [[<- <-]|[Hne Hx]]; [split; [lia|by left]|].
    destruct (W2 x b Hx). split; [done|]. by right.
Qed.

Lemma merge_claims_wf a cs : dir_wf a → dir_wf (merge_claims verify a cs).1.
Proof.
  unfold merge_claims. generalize false as ch. revert a.
  induction cs as [|c cs IH]; intros a ch Hwf; [done|]. simpl.
  pose proof (merge_one_wf a c Hwf). destruct (merge_one verify a c). by apply IH.
Qed.

Lemma rearm_wf ord a : dir_wf a → dir_wf (@rearm ord a).
Proof.
  intros [W1 W2 W3]. split; [done| |done]. intros x b. unfold rearm. cbn.
  assert (∀ l (h : gmap ActorAddress N), (∀ y, y ∈ l → is_Some (map a !! y)) →
    (∀ y b, h !! y = Some b → 1 ≤ b ≤ FANOUT * MAX_ROUNDS ∧ is_Some (map a !! y)) →
    ∀ y b, foldl (λ h y, <[y := budget a]> h) h l !! y = Some b →
      1 ≤ b ≤ FANOUT * MAX_ROUNDS ∧ is_Some (map a !! y)) as Hl.
  { induction l as [|z l IH]; intros h Hin Hh; [done|]. cbn. apply IH; [set_solver|].
    intros y c. rw lookup_insert_Some. intros [[<- <-]|[_ ?]]; [|by apply Hh].
    pose proof (budget_bounds a). split; [unfold FANOUT, MAX_ROUNDS in *; lia|].
    apply Hin. by left. }
  apply Hl; [|done]. intros y (p & -> & Hp)%list_elem_of_fmap. destruct p as [y c].
  apply (elem_of_hash_iter ord) in Hp. by exists c.
Qed.

Lemma take_hot_one_wf a x : dir_wf a → dir_wf (take_hot_one a x).1.
Proof.
  intros [W1 W2 W3]. unfold take_hot_one. destruct (hot a !! x) as [b|] eqn:Eb; [|done].
  split; [done| |done]. intros y c. cbn. destruct (W2 x b Eb) as [Hb Hm].
  destruct (N.eqb_spec (b - 1) 0).
  - rw lookup_delete_Some. intros [_ ?]. by apply W2.
  - rw lookup_insert_Some. intros [[<- <-]|[_ ?]]; [|by apply W2]. split; [lia|done].
Qed.

Lemma take_hot_wf ord_hot a limit :
  dir_wf a →
  let r := @take_hot ord_hot a limit in
  dir_wf r.1 ∧ (length r.2 ≤ limit)%nat ∧ Forall (λ c, verify c = true) r.2.
Proof.
  intros Hwf. cbn zeta. unfold take_hot.
  assert (∀ l a, dir_wf a → let r := emit_all take_hot_one a l in
    dir_wf r.1 ∧ (length r.2 ≤ length l)%nat ∧ Forall (λ c, verify c = true) r.2) as Hl.
  { clear a Hwf. induction l as [|x l IH]; intros a Hwf; [done|]. cbn.
    destruct (IH (take_hot_one a x).1) as (H1 & H2 & H3); [by apply take_hot_one_wf|].
    split; [done|]. rw length_app Forall_app.
    assert ((take_hot_one a x).2 = option_list (map a !! x)) as ->.
    { unfold take_hot_one. by destruct (hot a !! x). }
    destruct (map a !! x) as [c|] eqn:Ec; cbn; [|by split; [lia|]].
    split; [lia|]. split; [|done]. constructor; [|done]. by destruct (wf_claims a Hwf x c Ec). }
  destruct (Hl (take limit (hash_iter (hot a)).*1) a Hwf) as (? & ? & ?).
  split; [done|]. split; [|done]. pose proof (length_take (hash_iter (hot a)).*1 limit).
  lia.
Qed.

Lemma chunk_wf n fuel (l c : list DirectoryEntry) :
  Forall (λ c, verify c = true) l → c ∈ chunks n fuel l →
  (length c ≤ n)%nat ∧ Forall (λ c, verify c = true) c.
Proof.
  revert l. induction fuel as [|fuel IH]; intros [|x l] Hl; cbn; [by rw elem_of_nil..|].
  rw elem_of_cons. intros [->|Hc]; [|by eapply IH; [apply Forall_drop|]].
  split; [rw length_take; lia|by apply Forall_take].
Qed.

Lemma send_gossip_wf ctx to cs :
  (length cs ≤ BATCH)%nat → Forall (λ c, verify c = true) cs →
  Forall gossip_wf (send ctx to (OutDirectory (Gossip cs))).
Proof.
  intros. unfold send, post, ctx_send. case_match; [|done]. by constructor.
Qed.

Lemma disseminate_wf ord_hot dir ctx a :
  dir_wf a →
  let r := @disseminate ord_hot dir ctx a in dir_wf r.1 ∧ Forall gossip_wf r.2.
Proof.
  intros Hwf. cbn zeta. unfold disseminate. case_decide; [done|].
  destruct (_ !! _) as [peer|]; [|done].
  destruct (take_hot_wf ord_hot (set_cursor a (cursor a +64 1)) BATCH) as (W & Hn & Hv);
    [by eapply wf_frame; [..|exact Hwf]|].
  destruct (take_hot _ BATCH) as [a' [|c cs]]; cbn [fst snd] in *; [done|].
  destruct (resolve peer); [|done]. split; [done|]. by apply send_gossip_wf.
Qed.

Lemma sync_to_wf ord dir ctx a peer :
  dir_wf a → Forall gossip_wf (@sync_to ord dir ctx a peer).
Proof.
  intros Hwf. unfold sync_to. destruct (resolve peer) as [addr|]; [|done].
  apply Forall_bind, Forall_forall. intros b Hb. eapply chunk_wf in Hb as [Hn Hv].
  { by apply send_gossip_wf. }
  apply Forall_forall. intros c ([x d] & -> & Hx)%list_elem_of_fmap.
  apply (elem_of_hash_iter ord) in Hx. by destruct (wf_claims a Hwf x d Hx).
Qed.

Lemma republish_effects pinned ord live a b :
  Forall gossip_wf (@republish pinned ord live a b).2.
Proof.
  unfold republish. destruct (foldl _ _ _) as [view remote].
  destruct (_ || _); cbn; rw !Forall_app !Forall_fmap; repeat split; try done;
    by apply Forall_true.
Qed.

Lemma on_membership_wf pinned ord live a n st :
  dir_wf a → dir_wf (@on_membership pinned ord live a n st).1.
Proof.
  intros Hwf. apply republish_wf. destruct st; [|done|].
  - case_decide as Hd; [|done]. apply rearm_wf. destruct Hwf as [W1 W2 W3].
    split; [done..|]. cbn. set_solver.
  - destruct Hwf as [W1 W2 W3]. split; [done..|]. cbn. set_solver.
Qed.

Lemma run_step_wf ord ord_hot a s :
  dir_wf a →
  let r := @run_step verify ord ord_hot a s in dir_wf r.1 ∧ Forall gossip_wf r.2.
Proof.
  intros Hwf. cbn zeta. destruct s as [pinned dir ctx live msg]. unfold run_step. cbn.
  destruct msg as [c|cs|x st|x reply| |peer|w|]; cbn [handle].
  - unfold register. pose proof (merge_one_wf a c Hwf).
    destruct (merge_one verify a c). split; [by apply republish_wf|apply republish_effects].
  - unfold merge_batch. fold (merge_claims verify a cs). pose proof (merge_claims_wf a cs Hwf).
    destruct (merge_claims verify a cs).
    split; [by apply republish_wf|apply republish_effects].
  - split; [by apply on_membership_wf|apply republish_effects].
  - split; [done|]. unfold send, post, ctx_send. case_match; by repeat constructor.
  - split; [by apply republish_wf, rearm_wf|apply republish_effects].
  - split; [done|]. by apply sync_to_wf.
  - destruct (live w); (split; [by eapply wf_frame; [..|exact Hwf]|by repeat constructor]).
  - by apply disseminate_wf.
Qed.

(** Whatever a directory is sent, forged claims included, every claim it holds is
    verified and filed under the actor it names, only held claims wait for gossip, with
    between 1 and 24 transmissions left, and every batch of claims it ever posts to a
    peer has at most 16 claims, each of them verified. *)
Theorem directory_authentic ord ord_hot self steps :
  let r := emit_all (@run_step verify ord ord_hot) (with_pinned_routes self) steps in
  dir_wf r.1 ∧ Forall gossip_wf r.2.
Proof.
  refine (emit_all_invariant (λ a out, dir_wf a ∧ Forall gossip_wf out) _
    (with_pinned_routes self) [] steps _ _).
  - intros a out s _ [Hwf Hout]. destruct (run_step_wf ord ord_hot a s Hwf).
    rw Forall_app. by split_and!.
  - split; [|done]. split; [done..|]. cbn. set_solver.
Qed.
End wellformed.
