(* ===== verification/LocationCache.v ===== *)
(** * The location cache

    [crates/distribution/src/cache.rs]: an LRU cache of actor locations.  Recency
    is a stamp drawn from a 64-bit counter, and the entry with the least stamp is
    evicted; the specification is a list, most recently used first. *)

From S2P Require Import Prelude.
#[local] Open Scope N_scope.

Record CacheEntry := mkCacheEntry {
  ce_node_id : NodeId;
  order : N;
}.

Record LocationCache := mkLocationCache {
  entries_ : gmap ActorAddress CacheEntry;
  capacity : nat;
  counter : N;
}.

Definition new (capacity : nat) : LocationCache := mkLocationCache ∅ (max capacity 1) 0.

Definition get (c : LocationCache) (addr : ActorAddress) : LocationCache * option NodeId :=
  match entries_ c !! addr with
  | Some entry =>
      let counter := counter c +64 1 in
      (mkLocationCache (<[addr := mkCacheEntry (ce_node_id entry) counter]> (entries_ c))
         (capacity c) counter, Some (ce_node_id entry))
  | None => (c, None)
  end.

Definition peek (c : LocationCache) (addr : ActorAddress) : option NodeId :=
  ce_node_id <$> entries_ c !! addr.

Definition len (c : LocationCache) : nat := size (entries_ c).
Definition is_empty (c : LocationCache) : bool := Nat.eqb (len c) 0.

(** [iter().min_by_key(..)]: the first of the least elements. *)
Fixpoint min_by_key {A} (key : A → N) (l : list A) : option A :=
  match l with
  | [] => None
  | x :: l =>
      match min_by_key key l with
      | Some y => Some (if key x <=? key y then x else y)
      | None => Some x
      end
  end.

Definition invalidate (c : LocationCache) (addr : ActorAddress) : LocationCache * bool :=
  (mkLocationCache (delete addr (entries_ c)) (capacity c) (counter c),
   bool_decide (is_Some (entries_ c !! addr))).

Definition invalidate_node (c : LocationCache) (node_id : NodeId) : LocationCache * nat :=
  let before := len c in
  let c := mkLocationCache (filter (λ ae, ce_node_id ae.2 ≠ node_id) (entries_ c))
             (capacity c) (counter c) in
  (c, (before - len c)%nat).

Section cache.
Context {ord : HashOrder ActorAddress CacheEntry}.

Definition evict_lru (m : gmap ActorAddress CacheEntry) : gmap ActorAddress CacheEntry :=
  match min_by_key (λ ae : ActorAddress * CacheEntry, order ae.2) (hash_iter m) with
  | Some (addr, _) => delete addr m
  | None => m
  end.

Definition insert (c : LocationCache) (addr : ActorAddress) (node_id : NodeId)
    : LocationCache :=
  let counter := counter c +64 1 in
  let entries :=
    if (Nat.leb (capacity c) (len c)) && bool_decide (entries_ c !! addr = None)
    then evict_lru (entries_ c) else entries_ c in
  mkLocationCache (<[addr := mkCacheEntry node_id counter]> entries) (capacity c) counter.

Definition entries (c : LocationCache) : list (ActorAddress * NodeId) :=
  (λ ae, (ae.1, ce_node_id ae.2)) <$> hash_iter (entries_ c).

(** A caller's use of the cache, with what it is answered. *)
Inductive CacheOp :=
  | Get (addr : ActorAddress)
  | Peek (addr : ActorAddress)
  | Insert (addr : ActorAddress) (node_id : NodeId)
  | Invalidate (addr : ActorAddress)
  | InvalidateNode (node_id : NodeId)
  | Len.

Inductive Answer :=
  | Found (host : option NodeId)
  | Done
  | Removed (was : bool)
  | Count (n : nat).

Definition apply_op (c : LocationCache) (op : CacheOp) : LocationCache * list Answer :=
  match op with
  | Get a => let '(c, r) := get c a in (c, [Found r])
  | Peek a => (c, [Found (peek c a)])
  | Insert a n => (insert c a n, [Done])
  | Invalidate a => let '(c, r) := invalidate c a in (c, [Removed r])
  | InvalidateNode n => let '(c, k) := invalidate_node c n in (c, [Count k])
  | Len => (c, [Count (len c)])
  end.

(** ** The specification *)

Abbreviation Lru := (list (ActorAddress * NodeId)).

Definition lru_find (l : Lru) (a : ActorAddress) : option NodeId :=
  (λ p, p.2.2) <$> list_find (λ p, p.1 = a) l.

Definition lru_remove (l : Lru) (a : ActorAddress) : Lru := filter (λ p, p.1 ≠ a) l.

Definition lru_op (cap : nat) (l : Lru) (op : CacheOp) : Lru * list Answer :=
  match op with
  | Get a =>
      match lru_find l a with
      | Some n => ((a, n) :: lru_remove l a, [Found (Some n)])
      | None => (l, [Found None])
      end
  | Peek a => (l, [Found (lru_find l a)])
  | Insert a n => ((a, n) :: take (cap - 1) (lru_remove l a), [Done])
  | Invalidate a => (lru_remove l a, [Removed (bool_decide (is_Some (lru_find l a)))])
  | InvalidateNode n =>
      let l' := filter (λ p, p.2 ≠ n) l in (l', [Count (length l - length l')])
  | Len => (l, [Count (length l)])
  end.

(** ** The simulation

    The list with the stamps: decreasing, none above the counter. *)

Abbreviation Stamped := (list (ActorAddress * CacheEntry)).

Definition newer (p q : ActorAddress * CacheEntry) : Prop := order q.2 < order p.2.

Definition forget (p : ActorAddress * CacheEntry) : ActorAddress * NodeId :=
  (p.1, ce_node_id p.2).

Record sim (cap : nat) (c : LocationCache) (s : Stamped) : Prop := {
  sim_entries : entries_ c = list_to_map s;
  sim_nodup : NoDup s.*1;
  sim_sorted : StronglySorted newer s;
  sim_counter : Forall (λ p, order p.2 ≤ counter c) s;
  sim_capacity : capacity c = cap;
  sim_bound : (length s ≤ cap)%nat;
}.

Lemma list_to_map_filter (P : ActorAddress * CacheEntry → Prop) `{!∀ p, Decision (P p)} s :
  NoDup s.*1 →
  filter P (list_to_map s : gmap _ CacheEntry) = list_to_map (filter P s).
Proof.
  intros Hnd. apply map_eq. intros x. apply option_eq. intros e.
  rw map_lookup_filter_Some -!elem_of_list_to_map //; [by apply filter_fmap_nodup|].
  rw list_elem_of_filter. naive_solver.
Qed.

Lemma delete_list_to_map (s : Stamped) a :
  NoDup s.*1 →
  delete a (list_to_map s : gmap _ CacheEntry) = list_to_map (filter (λ p, p.1 ≠ a) s).
Proof.
  intros Hnd. rw -list_to_map_filter //. apply map_eq. intros x. apply option_eq. intros e.
  rw lookup_delete_Some map_lookup_filter_Some /=. naive_solver.
Qed.

Lemma find_forget s a :
  NoDup s.*1 →
  lru_find (forget <$> s) a = ce_node_id <$> (list_to_map s : gmap _ CacheEntry) !! a.
Proof.
  unfold lru_find. induction s as [|[b e] s IH]; intros Hnd; [done|].
  apply NoDup_cons in Hnd as [_ Hnd]. cbn. destruct (decide (b = a)) as [->|Hne].
  - by rw lookup_insert_eq.
  - rw lookup_insert_ne // -IH //. by destruct (list_find _ (forget <$> s)) as [[]|].
Qed.

Lemma size_stamped (s : Stamped) : NoDup s.*1 → size (list_to_map s : gmap _ CacheEntry) = length s.
Proof. apply map_size_list_to_map. Qed.

Lemma sorted_filter (P : ActorAddress * CacheEntry → Prop) `{!∀ p, Decision (P p)} s :
  StronglySorted newer s → StronglySorted newer (filter P s).
Proof.
  induction 1 as [|p s Hs IH Hp]; [constructor|]. rw filter_cons. case_decide; [|done].
  constructor; [done|]. rw !Forall_forall in Hp |- *.
  intros q [_ Hq]%list_elem_of_filter. auto.
Qed.

Lemma fmap_forget_filter (P : ActorAddress * NodeId → Prop) `{!∀ p, Decision (P p)} (s : Stamped) :
  filter P (forget <$> s) = forget <$> filter (λ p, P (forget p)) s.
Proof. induction s as [|p s IH]; [done|]. rw fmap_cons !filter_cons. case_decide; cbn; by rw IH. Qed.

Lemma sim_filter cap c s (P : ActorAddress * CacheEntry → Prop) `{!∀ p, Decision (P p)} :
  sim cap c s →
  sim cap (mkLocationCache (filter P (entries_ c)) (capacity c) (counter c)) (filter P s).
Proof.
  intros [He Hnd Hs Hc Hcap Hb]. split; cbn.
  - by rw He list_to_map_filter.
  - by apply filter_fmap_nodup.
  - by apply sorted_filter.
  - rw !Forall_forall in Hc |- *. intros q [_ Hq]%list_elem_of_filter. auto.
  - done.
  - pose proof (length_filter P s). lia.
Qed.

Lemma delete_filter (m : gmap ActorAddress CacheEntry) a :
  delete a m = filter (λ p, p.1 ≠ a) m.
Proof.
  apply map_eq. intros x. apply option_eq. intros e.
  rw lookup_delete_Some map_lookup_filter_Some /=. naive_solver.
Qed.

(** The entry used last gets a stamp above all others. *)
Lemma sim_push cap c s a n :
  sim cap c s → counter c + 1 < u64_modulus → a ∉ s.*1 → (length s < cap)%nat →
  let e := mkCacheEntry n (counter c +64 1) in
  sim cap (mkLocationCache (<[a := e]> (entries_ c)) (capacity c) (counter c +64 1)) ((a, e) :: s).
Proof.
  intros [He Hnd Hs Hc Hcap Hb] Hlt Ha Hlen. cbn zeta. rw u64_add_small //. split; cbn.
  - by rw He.
  - by apply NoDup_cons.
  - constructor; [done|]. eapply Forall_impl; [exact Hc|]. unfold newer. cbn. lia.
  - constructor; [cbn; lia|]. eapply Forall_impl; [exact Hc|]. cbn. lia.
  - done.
  - lia.
Qed.

Lemma min_by_key_unique {A} (key : A → N) l y :
  y ∈ l → (∀ x, x ∈ l → x = y ∨ key y < key x) → min_by_key key l = Some y.
Proof.
  induction l as [|x l IH]; intros Hy Hmin; [by apply elem_of_nil in Hy|]. cbn.
  destruct (Hmin x (list_elem_of_here _ _)) as [->|Hx].
  - destruct (min_by_key key l) as [z|] eqn:Ez; [|done].
    assert (z ∈ l) as Hz.
    { clear -Ez. revert z Ez. induction l as [|w l IH]; intros z; [done|]. cbn.
      destruct (min_by_key key l); [|intros [= ->]; by left].
      case_match; intros [= <-]; [by left|right; by apply IH]. }
    destruct (N.leb_spec (key y) (key z)); [done|].
    destruct (Hmin z) as [->|?]; [by right|lia|lia].
  - apply elem_of_cons in Hy as [->|Hy]; [lia|].
    rw IH; [done|intros z Hz; apply Hmin; by right|].
    destruct (N.leb_spec (key x) (key y)); [lia|done].
Qed.

(** Evicting drops the last of the list. *)
Lemma evict_last s p :
  NoDup (s ++ [p]).*1 → StronglySorted newer (s ++ [p]) →
  evict_lru (list_to_map (s ++ [p])) = list_to_map s.
Proof.
  intros Hnd Hs. unfold evict_lru.
  rw (min_by_key_unique _ _ p).
  - destruct p. rw elem_of_hash_iter. apply elem_of_list_to_map_1; set_solver.
  - intros [x e] Hx. apply (elem_of_hash_iter ord), elem_of_list_to_map_2 in Hx.
    apply elem_of_app in Hx as [Hx|Hx]; [right|left; set_solver].
    by eapply StronglySorted_app_1_elem_of in Hs; [exact Hs|..|left].
  - destruct p as [a e]. rw delete_list_to_map // filter_app.
    rw fmap_app in Hnd. apply NoDup_app in Hnd as (_ & Hd & _).
    rw (filter_all _ s).
    { apply Forall_forall. intros q Hq Eq. apply (Hd q.1); [by apply list_elem_of_fmap_2|].
      rw Eq. by left. }
    rw filter_cons_False; [by intros []|]. by rw app_nil_r.
Qed.

Lemma sim_remove cap c s a :
  sim cap c s →
  sim cap (mkLocationCache (delete a (entries_ c)) (capacity c) (counter c))
    (filter (λ p, p.1 ≠ a) s).
Proof. rw delete_filter. apply sim_filter. Qed.

Lemma removed_fresh (s : Stamped) a : a ∉ (filter (λ p, p.1 ≠ a) s).*1.
Proof. intros ([b e] & -> & [Hne _]%list_elem_of_filter)%list_elem_of_fmap. done. Qed.

Lemma removed_shorter (s : Stamped) a :
  a ∈ s.*1 → (length (filter (λ p, p.1 ≠ a) s) < length s)%nat.
Proof.
  intros ([b e] & -> & Hin)%list_elem_of_fmap. eapply (length_filter_lt _ _ (b, e)); [done|].
  by intros [].
Qed.

Lemma get_sim cap c s a :
  sim cap c s → counter c + 1 < u64_modulus →
  ∃ s', sim cap (get c a).1 s' ∧
    lru_op cap (forget <$> s) (Get a) = (forget <$> s', [Found (get c a).2]) ∧
    counter (get c a).1 ≤ counter c + 1.
Proof.
  intros Hs Hlt. pose proof Hs as [He Hnd Hso Hc Hcap Hb]. unfold get. cbn [lru_op].
  rw (find_forget s a Hnd) -He.
  destruct (entries_ c !! a) as [e|] eqn:Ea; cbn.
  - exists ((a, mkCacheEntry (ce_node_id e) (counter c +64 1)) :: filter (λ p, p.1 ≠ a) s).
    split; [|split; [unfold lru_remove; by rw fmap_forget_filter|rw u64_add_small //; lia]].
    rw -insert_delete_eq. apply (sim_push cap _ _ a _ (sim_remove cap c s a Hs));
      [done|apply removed_fresh|].
    rw He in Ea. apply elem_of_list_to_map_2, (list_elem_of_fmap_2 fst), removed_shorter in Ea.
    cbn in Ea. lia.
  - exists s. split; [done|]. split; [done|lia].
Qed.

Lemma sim_prefix cap c s p :
  sim cap c (s ++ [p]) → sim cap (mkLocationCache (list_to_map s) cap (counter c)) s.
Proof.
  intros [_ Hnd Hso Hc _ Hb]. split; cbn; try done.
  - rw fmap_app in Hnd. by apply NoDup_app in Hnd as [? _].
  - by eapply StronglySorted_app_1_l.
  - by apply Forall_app in Hc as [? _].
  - rw length_app in Hb. cbn in Hb. lia.
Qed.

(** Room is made by dropping the last entry when a new one would not fit. *)
Lemma room_sim cap c s a :
  (0 < cap)%nat → sim cap c s →
  let s' := take (cap - 1) (filter (λ p, p.1 ≠ a) s) in
  sim cap (mkLocationCache (delete a
    (if Nat.leb (capacity c) (len c) && bool_decide (entries_ c !! a = None)
     then evict_lru (entries_ c) else entries_ c)) (capacity c) (counter c)) s' ∧
  (a ∉ s'.*1) ∧ (length s' < cap)%nat.
Proof.
  intros Hcap0 Hs. pose proof Hs as [He Hnd Hso Hc Hcap Hb]. cbn zeta. subst cap.
  split; [|split; [|rw length_take; lia]]; last first.
  { intros Hin. apply (removed_fresh s a).
    rw -(take_drop (capacity c - 1) (filter _ s)) fmap_app elem_of_app. by left. }
  unfold len. rw He size_stamped //.
  destruct (list_to_map s !! a) as [e|] eqn:Ea.
  { rw bool_decide_eq_false_2 // andb_false_r take_ge; [|rw -He; by apply sim_remove].
    apply elem_of_list_to_map_2, (list_elem_of_fmap_2 fst), removed_shorter in Ea.
    cbn in Ea. lia. }
  rw bool_decide_eq_true_2 // andb_true_r.
  assert (filter (λ p, p.1 ≠ a) s = s) as Ef.
  { apply filter_all, Forall_forall. intros p Hp <-. apply not_elem_of_list_to_map_2 in Ea.
    apply Ea. by apply list_elem_of_fmap_2. }
  destruct (Nat.leb_spec (capacity c) (length s)) as [Hfull|Hroom].
  - destruct s as [|p s0 _] using rev_ind; [cbn in *; lia|]. rw evict_last // Ef.
    rw length_app in Hfull Hb. cbn in Hfull, Hb. rw (take_app_length' s0); [lia|].
    rw delete_id; [|by eapply sim_prefix].
    apply not_elem_of_list_to_map_1. apply not_elem_of_list_to_map_2 in Ea.
    rw fmap_app in Ea. set_solver.
  - rw take_ge; [rw Ef; lia|]. rw -He. by apply sim_remove.
Qed.

Lemma insert_sim cap c s a n :
  (0 < cap)%nat → sim cap c s → counter c + 1 < u64_modulus →
  ∃ s', sim cap (insert c a n) s' ∧
    lru_op cap (forget <$> s) (Insert a n) = (forget <$> s', [Done]) ∧
    counter (insert c a n) ≤ counter c + 1.
Proof.
  intros Hcap0 Hs Hlt. destruct (room_sim cap c s a Hcap0 Hs) as (Hr & Ha & Hl).
  eexists. split; [|split].
  - unfold insert. rw -insert_delete_eq. by apply (sim_push cap _ _ a n Hr).
  - cbn. unfold lru_remove. by rw fmap_forget_filter fmap_take.
  - cbn. rw u64_add_small //.
Qed.

Lemma apply_op_sim cap c s op :
  (0 < cap)%nat → sim cap c s → counter c + 1 < u64_modulus →
  ∃ s', sim cap (apply_op c op).1 s' ∧
    lru_op cap (forget <$> s) op = (forget <$> s', (apply_op c op).2) ∧
    counter (apply_op c op).1 ≤ counter c + 1.
Proof.
  intros Hcap0 Hs Hlt. pose proof Hs as [He Hnd Hso Hc Hcap Hb].
  destruct op as [a|a|a n|a|n|]; cbn [apply_op].
  - destruct (get_sim cap c s a Hs Hlt) as (s' & ?). exists s'. by destruct (get c a).
  - exists s. split; [done|]. split; [|cbn; lia]. cbn. by rw find_forget // -He.
  - by apply insert_sim.
  - exists (filter (λ p, p.1 ≠ a) s). split; [by apply sim_remove|]. split; [|cbn; lia].
    cbn. rw find_forget // -He. unfold lru_remove. rw fmap_forget_filter. do 3 f_equal.
    apply bool_decide_ext. by rw fmap_is_Some.
  - exists (filter (λ p, ce_node_id p.2 ≠ n) s).
    split; [by apply (sim_filter cap c s (λ p, ce_node_id p.2 ≠ n))|]. split; [|cbn; lia].
    cbn. rw fmap_forget_filter !length_fmap. unfold len. cbn. rw He list_to_map_filter //.
    rw !size_stamped //. by apply filter_fmap_nodup.
  - exists s. split; [done|]. split; [|cbn; lia]. cbn. unfold len.
    by rw He size_stamped // length_fmap.
Qed.

Lemma ops_sim cap c s ops :
  (0 < cap)%nat → sim cap c s → counter c + N.of_nat (length ops) < u64_modulus →
  ∃ s', sim cap (emit_all apply_op c ops).1 s' ∧
    emit_all (lru_op cap) (forget <$> s) ops = (forget <$> s', (emit_all apply_op c ops).2).
Proof.
  intros Hcap0. revert c s; induction ops as [|op ops IH]; intros c s Hs Hlt.
  { by exists s. }
  cbn [length] in Hlt. cbn [emit_all].
  destruct (apply_op_sim cap c s op Hcap0 Hs) as (s1 & Hs1 & E1 & Hc1); [lia|].
  destruct (IH (apply_op c op).1 s1 Hs1) as (s2 & Hs2 & E2); [lia|].
  exists s2. split; [done|]. rw E1. cbn [fst snd]. by rw E2.
Qed.

(** C33. The cache is an LRU cache: over any sequence of fewer than 2^64 operations it
    answers every lookup, removal and count as the list specification does, where an
    insertion into a full cache drops the entry used longest ago, it never holds more
    entries than its capacity (at least one), and what it holds is the list's content,
    whatever the iteration order of its hash map. *)
Theorem cache_refines_lru cap ops :
  N.of_nat (length ops) < u64_modulus →
  let r := emit_all apply_op (new cap) ops in
  let l := emit_all (lru_op (max cap 1)) [] ops in
  r.2 = l.2 ∧ entries r.1 ≡ₚ l.1 ∧ (len r.1 ≤ max cap 1)%nat.
Proof.
  intros Hlt. cbn zeta.
  destruct (ops_sim (max cap 1) (new cap) [] ops) as (s & Hs & E); [lia| |cbn; lia|].
  { split; cbn; by [constructor|lia]. }
  cbn [fmap list_fmap] in E. rw E. cbn [fst snd].
  destruct Hs as [He Hnd _ _ _ Hb]. split; [done|]. split.
  - unfold entries. rw hash_iter_perm He map_to_list_to_map //.
  - unfold len. by rw He size_stamped.
Qed.
End cache.

Lemma cache_refines_lru_witness :
  let _ : HashOrder ActorAddress CacheEntry := default_order _ _ in
  let ops := [Insert 1 10; Insert 2 20; Get 1; Insert 3 30; Peek 2; Get 3; Len] in
  let r := emit_all apply_op (new 2) ops in
  let l := emit_all (lru_op 2) [] ops in
  r.2 = l.2 ∧ entries r.1 ≡ₚ l.1 ∧ (len r.1 ≤ 2)%nat ∧
  l.2 = [Done; Done; Found (Some 10); Done; Found None; Found (Some 30); Count 2].
Proof.
  intros ord ops r l.
  destruct (cache_refines_lru 2 ops) as (H1 & H2 & H3); [by vm_compute|].
  by split_and!.
Defined.
