(* ===== verification/Channel.v ===== *)
(** * Message channels

    [src/channel.rs]: the channel of worker queues and external inboxes is a bounded
    ring backed by an unbounded overflow queue.  The two queues are [crossbeam]'s and
    the waker is [atomic_waker]'s: interfaces with their documented laws.  Threads
    interleave at the granularity of the operations on them. *)

From S2P Require Import Prelude.

(** ** The queues *)

(** [ArrayQueue]: a bounded FIFO queue whose [push] gives the value back when full. *)
Class ArrayQueue (T : Type) := {
  ring : Type;
  ring_new : nat → ring;
  ring_push : ring → T → ring * option T;
  ring_pop : ring → ring * option T;
  ring_is_empty : ring → bool;
}.

Class ArrayQueueLaws (T : Type) `{ArrayQueue T} := {
  ring_items : ring → list T;
  ring_capacity : ring → nat;
  ring_new_items n : ring_items (ring_new n) = [];
  ring_new_capacity n : ring_capacity (ring_new n) = n;
  ring_push_room q v : length (ring_items q) < ring_capacity q →
    ring_items (ring_push q v).1 = ring_items q ++ [v] ∧ (ring_push q v).2 = None;
  ring_push_full q v : ring_capacity q ≤ length (ring_items q) →
    ring_items (ring_push q v).1 = ring_items q ∧ (ring_push q v).2 = Some v;
  ring_push_capacity q v : ring_capacity (ring_push q v).1 = ring_capacity q;
  ring_pop_items q : ring_items (ring_pop q).1 = tail (ring_items q);
  ring_pop_head q : (ring_pop q).2 = head (ring_items q);
  ring_pop_capacity q : ring_capacity (ring_pop q).1 = ring_capacity q;
  ring_is_empty_spec q : ring_is_empty q = bool_decide (ring_items q = []);
}.

(** [SegQueue]: an unbounded FIFO queue. *)
Class SegQueue (T : Type) := {
  seg : Type;
  seg_new : seg;
  seg_push : seg → T → seg;
  seg_pop : seg → seg * option T;
  seg_is_empty : seg → bool;
}.

Class SegQueueLaws (T : Type) `{SegQueue T} := {
  seg_items : seg → list T;
  seg_new_items : seg_items seg_new = [];
  seg_push_items q v : seg_items (seg_push q v) = seg_items q ++ [v];
  seg_pop_items q : seg_items (seg_pop q).1 = tail (seg_items q);
  seg_pop_head q : (seg_pop q).2 = head (seg_items q);
  seg_is_empty_spec q : seg_is_empty q = bool_decide (seg_items q = []);
}.

(** [AtomicWaker]: [wake] notifies the task last registered, once. *)
Class AtomicWaker := {
  waker : Type;
  waker_new : waker;
  waker_register : waker → waker;
  waker_wake : waker → waker * bool;
}.

Class AtomicWakerLaws `{AtomicWaker} := {
  armed : waker → bool;
  waker_new_armed : armed waker_new = false;
  waker_register_armed w : armed (waker_register w) = true;
  waker_wake_notifies w : (waker_wake w).2 = armed w;
  waker_wake_armed w : armed (waker_wake w).1 = false;
}.

(** ** The channel *)

Section channel.
Context {T : Type} `{AQ : ArrayQueue T} `{SQ : SegQueue T}.

Record HybridChannel := mkHybridChannel {
  hc_ring : ring;
  hc_overflow : seg;
}.

Definition new (capacity : nat) : HybridChannel :=
  mkHybridChannel (ring_new capacity) seg_new.

Definition push (c : HybridChannel) (value : T) : HybridChannel :=
  if negb (seg_is_empty (hc_overflow c))
  then mkHybridChannel (hc_ring c) (seg_push (hc_overflow c) value)
  else
    match ring_push (hc_ring c) value with
    | (r, Some v) => mkHybridChannel r (seg_push (hc_overflow c) v)
    | (r, None) => mkHybridChannel r (hc_overflow c)
    end.

Definition pop (c : HybridChannel) : HybridChannel * option T :=
  match ring_pop (hc_ring c) with
  | (r, Some v) => (mkHybridChannel r (hc_overflow c), Some v)
  | (r, None) =>
      let '(o, v) := seg_pop (hc_overflow c) in (mkHybridChannel r o, v)
  end.

Definition is_empty (c : HybridChannel) : bool :=
  ring_is_empty (hc_ring c) && seg_is_empty (hc_overflow c).

(** ** Threads

    Producers push their values one by one, the consumer pops; each step of a
    thread is one operation on one of the queues. *)

Inductive Pushing :=
  | Outside
  | SawNoOverflow (v : T)
  | MustOverflow (v : T).

Record Producer := mkProducer {
  todo : list T;
  at_ : Pushing;
}.

Record System := mkSystem {
  chan : HybridChannel;
  producers : list Producer;
  mid_pop : bool;        (* the consumer found the ring empty *)
  received : list T;     (* what [pop] returned, in order *)
}.

Inductive Thread := Prod (p : nat) | Cons.

Definition set_producer (s : System) (p : nat) (pr : Producer) (c : HybridChannel) : System :=
  mkSystem c (<[p := pr]> (producers s)) (mid_pop s) (received s).

(** A producer's next step. *)
Definition step_producer (s : System) (p : nat) : System :=
  match producers s !! p with
  | Some (mkProducer todo Outside) =>
      match todo with
      | v :: todo =>
          set_producer s p
            (mkProducer todo
               (if negb (seg_is_empty (hc_overflow (chan s)))
                then MustOverflow v else SawNoOverflow v)) (chan s)
      | [] => s
      end
  | Some (mkProducer todo (SawNoOverflow v)) =>
      match ring_push (hc_ring (chan s)) v with
      | (r, None) =>
          set_producer s p (mkProducer todo Outside) (mkHybridChannel r (hc_overflow (chan s)))
      | (r, Some v) =>
          set_producer s p (mkProducer todo (MustOverflow v))
            (mkHybridChannel r (hc_overflow (chan s)))
      end
  | Some (mkProducer todo (MustOverflow v)) =>
      set_producer s p (mkProducer todo Outside)
        (mkHybridChannel (hc_ring (chan s)) (seg_push (hc_overflow (chan s)) v))
  | None => s
  end.

(** The consumer's next step. *)
Definition step_consumer (s : System) : System :=
  if mid_pop s then
    let '(o, v) := seg_pop (hc_overflow (chan s)) in
    mkSystem (mkHybridChannel (hc_ring (chan s)) o) (producers s) false
      (received s ++ option_list v)
  else
    match ring_pop (hc_ring (chan s)) with
    | (r, Some v) =>
        mkSystem (mkHybridChannel r (hc_overflow (chan s))) (producers s) false
          (received s ++ [v])
    | (r, None) => mkSystem (mkHybridChannel r (hc_overflow (chan s))) (producers s) true (received s)
    end.

Definition step (s : System) (t : Thread) : System :=
  match t with Prod p => step_producer s p | Cons => step_consumer s end.

Definition start (capacity : nat) (work : list (list T)) : System :=
  mkSystem (new capacity) ((λ vs, mkProducer vs Outside) <$> work) false [].

(** ** One thread at a time *)

Context `{!ArrayQueueLaws T} `{!SegQueueLaws T}.

Definition contents (c : HybridChannel) : list T :=
  ring_items (hc_ring c) ++ seg_items (hc_overflow c).

Lemma push_contents c v : contents (push c v) = contents c ++ [v].
Proof.
  unfold push, contents. rw seg_is_empty_spec.
  destruct (seg_items (hc_overflow c)) as [|x o] eqn:Eo; cbn -[ring_push].
  - destruct (decide (length (ring_items (hc_ring c)) < ring_capacity (hc_ring c))) as [Hr|Hr].
    + destruct (ring_push_room _ v Hr) as [Ei Ev].
      destruct (ring_push (hc_ring c) v) as [r []]; cbn in *; [done|]. by rw Ei Eo !app_nil_r.
    + destruct (ring_push_full (hc_ring c) v) as [Ei Ev]; [lia|].
      destruct (ring_push (hc_ring c) v) as [r []]; cbn in *; [|done].
      injection Ev as ->. by rw Ei seg_push_items Eo app_nil_r.
  - by rw seg_push_items Eo assoc.
Qed.

Lemma pop_contents c : contents (pop c).1 = tail (contents c) ∧ (pop c).2 = head (contents c).
Proof.
  unfold pop, contents. pose proof (ring_pop_items (hc_ring c)) as Ei.
  pose proof (ring_pop_head (hc_ring c)) as Eh.
  destruct (ring_pop (hc_ring c)) as [r [v|]]; cbn in *.
  - rw Ei. by destruct (ring_items (hc_ring c)).
  - pose proof (seg_pop_items (hc_overflow c)) as Fi.
    pose proof (seg_pop_head (hc_overflow c)) as Fh.
    destruct (seg_pop (hc_overflow c)) as [o w]; cbn in *. rw Ei Fi.
    by destruct (ring_items (hc_ring c)).
Qed.

(** A queue used by one thread, and what its pops return. *)
Inductive ChannelOp := Push (v : T) | Pop.

Definition apply_op (c : HybridChannel) (op : ChannelOp) : HybridChannel * list (option T) :=
  match op with
  | Push v => (push c v, [])
  | Pop => let '(c, v) := pop c in (c, [v])
  end.

Definition fifo_op (l : list T) (op : ChannelOp) : list T * list (option T) :=
  match op with
  | Push v => (l ++ [v], [])
  | Pop => (tail l, [head l])
  end.

(** Used by one thread at a time, the channel is a FIFO queue: whatever its ring's
    capacity, every pop returns the oldest value not yet popped, across the ring and the
    overflow, and it is empty exactly when nothing is left. *)
Theorem channel_fifo capacity ops :
  let r := emit_all apply_op (new capacity) ops in
  let l := emit_all fifo_op [] ops in
  r.2 = l.2 ∧ contents r.1 = l.1 ∧ is_empty r.1 = bool_decide (l.1 = []).
Proof.
  cbn zeta.
  assert (∀ c, (emit_all apply_op c ops).2 = (emit_all fifo_op (contents c) ops).2 ∧
    contents (emit_all apply_op c ops).1 = (emit_all fifo_op (contents c) ops).1) as H.
  { induction ops as [|op ops IH]; intros c; [done|]. cbn [emit_all fst snd].
    destruct op as [v|]; cbn [apply_op fifo_op fst snd].
    - rw -push_contents. apply IH.
    - destruct (pop_contents c) as [E1 E2]. destruct (pop c) as [c' v]; cbn in *.
      rw -E1 E2. destruct (IH c') as [-> ->]. done. }
  destruct (H (new capacity)) as [H1 H2].
  assert (contents (new capacity) = []) as E0.
  { unfold contents, new. cbn. by rw ring_new_items seg_new_items. }
  rw E0 in H1 H2. split; [done|]. split; [done|]. rw -H2. unfold is_empty, contents.
  rw ring_is_empty_spec seg_is_empty_spec. destruct (ring_items _), (seg_items _); done.
Qed.

(** ** Interleaved threads *)

(** What a producer has not yet put into the channel. *)
Definition unsent (pr : Producer) : list T :=
  match at_ pr with
  | Outside => todo pr
  | SawNoOverflow v | MustOverflow v => v :: todo pr
  end.

Definition everything (s : System) : list T :=
  received s ++ contents (chan s) ++ concat (unsent <$> producers s).

Lemma unsent_update prs p pr pr' moved :
  prs !! p = Some pr → unsent pr = moved ++ unsent pr' →
  concat (unsent <$> prs) ≡ₚ moved ++ concat (unsent <$> <[p := pr']> prs).
Proof.
  intros Hp Hu. rw -{1}(take_drop_middle prs p pr Hp).
  rw (insert_take_drop prs p pr'); [by apply lookup_lt_is_Some|].
  rw !fmap_app !concat_app !fmap_cons. cbn. rw Hu. solve_Permutation.
Qed.

Lemma step_everything s t : everything (step s t) ≡ₚ everything s.
Proof.
  destruct t as [p|]; cbn.
  - unfold step_producer. destruct (producers s !! p) as [[td []]|] eqn:Ep; [| | |done].
    + destruct td as [|v td]; [done|]. unfold everything, set_producer. cbn.
      do 2 f_equiv. symmetry. eapply (unsent_update _ p _ _ []); [exact Ep|].
      by destruct (negb _).
    + destruct (decide (length (ring_items (hc_ring (chan s))) < ring_capacity (hc_ring (chan s))))
        as [Hr|Hr].
      * destruct (ring_push_room _ v Hr) as [Ei Ev].
        destruct (ring_push _ v) as [r []]; cbn in *; [done|].
        unfold everything, contents. cbn. rw Ei (unsent_update _ p _ (mkProducer td Outside) [v] Ep) //.
        solve_Permutation.
      * destruct (ring_push_full (hc_ring (chan s)) v) as [Ei Ev]; [lia|].
        destruct (ring_push _ v) as [r []]; cbn in *; [|done]. injection Ev as ->.
        unfold everything, contents. cbn. rw Ei.
        by rw (unsent_update _ p _ (mkProducer td (MustOverflow v)) [] Ep).
    + unfold everything, contents. cbn. rw seg_push_items.
      rw (unsent_update _ p _ (mkProducer td Outside) [v] Ep) //. solve_Permutation.
  - unfold step_consumer, everything, contents. destruct (mid_pop s).
    + pose proof (seg_pop_items (hc_overflow (chan s))) as Ei.
      pose proof (seg_pop_head (hc_overflow (chan s))) as Eh.
      destruct (seg_pop _) as [o w]; cbn in *. rw Ei Eh.
      destruct (seg_items (hc_overflow (chan s))); cbn; solve_Permutation.
    + pose proof (ring_pop_items (hc_ring (chan s))) as Ei.
      pose proof (ring_pop_head (hc_ring (chan s))) as Eh.
      destruct (ring_pop _) as [r [v|]]; cbn in *; rw Ei.
      * destruct (ring_items (hc_ring (chan s))); [done|]. cbn in *. injection Eh as ->.
        solve_Permutation.
      * by destruct (ring_items (hc_ring (chan s))).
Qed.

Lemma producers_kept s schedule :
  length (producers (foldl step s schedule)) = length (producers s).
Proof.
  revert s; induction schedule as [|t sch IH]; intros s; [done|]. cbn. rw IH.
  destruct t; cbn; unfold step_producer, step_consumer, set_producer;
    repeat case_match; cbn; by rw ?length_insert.
Qed.

Lemma start_everything capacity work : everything (start capacity work) = concat work.
Proof.
  unfold everything, contents, start, new. cbn. rw ring_new_items seg_new_items. cbn.
  f_equal. rw -list_fmap_compose. apply list_fmap_id_ext. done.
Qed.

(** No step interrupts the consumer between its look at the ring and its look at the
    overflow. *)
Fixpoint undisturbed (s : System) (schedule : list Thread) : bool :=
  match schedule with
  | [] => true
  | t :: schedule =>
      (match t with Prod _ => negb (mid_pop s) | Cons => true end)
      && undisturbed (step s t) schedule
  end.

Section per_producer.
Context (owner : T → nat) (work : list (list T)).

Definition of_ (p : nat) (l : list T) : list T := filter (λ v, owner v = p) l.

Lemma of_app p l1 l2 : of_ p (l1 ++ l2) = of_ p l1 ++ of_ p l2.
Proof. apply filter_app. Qed.

Lemma of_own p v : owner v = p → of_ p [v] = [v].
Proof. intros Hv. unfold of_. by rw filter_cons_True. Qed.

Lemma of_other p v : owner v ≠ p → of_ p [v] = [].
Proof. intros Hv. unfold of_. by rw filter_cons_False. Qed.

(** Each producer's values are received, in the channel and unsent in its order; a
    producer that saw no overflow has none of its own there. *)
Record ordered (s : System) : Prop := {
  ord_split p pr vs : producers s !! p = Some pr → work !! p = Some vs →
    of_ p (received s ++ contents (chan s)) ++ unsent pr = vs;
  ord_saw p td v : producers s !! p = Some (mkProducer td (SawNoOverflow v)) →
    of_ p (seg_items (hc_overflow (chan s))) = [];
  ord_owner p pr v : producers s !! p = Some pr → v ∈ unsent pr → owner v = p;
  ord_mid : mid_pop s = true → ring_items (hc_ring (chan s)) = [];
}.

Lemma ordered_producer s q pr pr' c' :
  mid_pop s = false → ordered s → producers s !! q = Some pr →
  of_ q (contents c') ++ unsent pr' = of_ q (contents (chan s)) ++ unsent pr →
  (∀ p, p ≠ q → of_ p (contents c') = of_ p (contents (chan s)) ∧
    of_ p (seg_items (hc_overflow c')) = of_ p (seg_items (hc_overflow (chan s)))) →
  (∀ td v, pr' = mkProducer td (SawNoOverflow v) → of_ q (seg_items (hc_overflow c')) = []) →
  unsent pr' ⊆ unsent pr →
  ordered (set_producer s q pr' c').
Proof.
  intros Hm [Hsplit Hsaw Hown _] Hq Eq Eo Hn Hu. unfold set_producer.
  split; cbn [chan producers mid_pop received]; [| | |congruence].
  - intros p pr1 vs. rw list_lookup_insert_Some of_app -assoc.
    intros [(<- & <- & _)|[Hne Hp]] Hw.
    + rw Eq assoc -of_app. by eapply Hsplit.
    + destruct (Eo p) as [-> _]; [done|]. rw assoc -of_app. by eapply Hsplit.
  - intros p td v. rw list_lookup_insert_Some. intros [(<- & -> & _)|[Hne Hp]].
    + by eapply Hn.
    + destruct (Eo p) as [_ ->]; [done|]. by eapply Hsaw.
  - intros p pr1 v. rw list_lookup_insert_Some. intros [(<- & <- & _)|[_ Hp]] Hv.
    + by eapply Hown, Hu.
    + by eapply Hown.
Qed.

(** Taking the oldest value of the channel keeps everything in order. *)
Lemma ordered_consumer s c' mid' rcv :
  ordered s → rcv ++ contents c' = received s ++ contents (chan s) →
  suffix (seg_items (hc_overflow c')) (seg_items (hc_overflow (chan s))) →
  (mid' = true → ring_items (hc_ring c') = []) →
  ordered (mkSystem c' (producers s) mid' rcv).
Proof.
  intros [Hsplit Hsaw Hown _] Er [k Eo] Hm.
  split; cbn [chan producers mid_pop received]; [| |done|done].
  - intros p pr vs. rw Er. apply Hsplit.
  - intros p td v Hp. specialize (Hsaw p td v Hp). rw Eo of_app in Hsaw.
    by apply app_eq_nil in Hsaw as [_ ?].
Qed.

Lemma step_producer_ordered s q : mid_pop s = false → ordered s → ordered (step_producer s q).
Proof.
  intros Hmid Ho. pose proof Ho as [_ Hsaw Hown _]. unfold step_producer.
  destruct (producers s !! q) as [[td []]|] eqn:Eq; [| | |done].
  - destruct td as [|v td]; [done|]. eapply ordered_producer; try done.
    + by destruct (negb _).
    + intros td' v' [= -> E]. rw seg_is_empty_spec in E.
      destruct (seg_items _); [done|]. by rw bool_decide_eq_false_2 in E.
    + by destruct (negb _).
  - assert (owner v = q) as Hv by (apply (Hown q _ v Eq); by left).
    destruct (decide (length (ring_items (hc_ring (chan s))) < ring_capacity (hc_ring (chan s))))
      as [Hr|Hr].
    + destruct (ring_push_room _ v Hr) as [Ei Ev].
      destruct (ring_push _ v) as [r []]; cbn in *; [done|].
      eapply ordered_producer; try done; unfold contents; cbn; rw ?Ei.
      * rw !of_app (Hsaw q td v Eq) of_own //. by rw !app_nil_r -assoc.
      * intros p Hp. rw !of_app (of_other p v); [congruence|]. by rw app_nil_r.
      * set_solver.
    + destruct (ring_push_full (hc_ring (chan s)) v) as [Ei Ev]; [lia|].
      destruct (ring_push _ v) as [r []]; cbn in *; [|done]. injection Ev as ->.
      eapply ordered_producer; try done; unfold contents; cbn; by rw ?Ei.
  - assert (owner v = q) as Hv by (apply (Hown q _ v Eq); by left).
    eapply ordered_producer; try done; unfold contents; cbn; rw ?seg_push_items.
    + rw !of_app of_own //. by rw -!assoc.
    + intros p Hp. rw !of_app (of_other p v); [congruence|]. by rw !app_nil_r.
    + set_solver.
Qed.

Lemma step_consumer_ordered s : ordered s → ordered (step_consumer s).
Proof.
  intros Ho. pose proof Ho as [_ _ _ Hm]. unfold step_consumer. destruct (mid_pop s).
  - pose proof (seg_pop_items (hc_overflow (chan s))) as Ei.
    pose proof (seg_pop_head (hc_overflow (chan s))) as Eh.
    destruct (seg_pop _) as [o w]; cbn in *.
    apply ordered_consumer; [done| | |done]; unfold contents; cbn; rw Ei ?Eh.
    + rw Hm //. destruct (seg_items (hc_overflow (chan s))); cbn; [by rw app_nil_r|].
      by rw -assoc.
    + destruct (seg_items (hc_overflow (chan s))); [done|]. by eexists [_].
  - pose proof (ring_pop_items (hc_ring (chan s))) as Ei.
    pose proof (ring_pop_head (hc_ring (chan s))) as Eh.
    destruct (ring_pop _) as [r [v|]]; cbn in *;
      (apply ordered_consumer; [done| |done|]; [unfold contents; cbn; rw Ei|]).
    + destruct (ring_items (hc_ring (chan s))); [done|]. cbn in *. injection Eh as ->.
      by rw -assoc.
    + done.
    + by destruct (ring_items (hc_ring (chan s))).
    + intros _. rw Ei. by destruct (ring_items (hc_ring (chan s))).
Qed.

Lemma start_ordered capacity :
  (∀ p vs v, work !! p = Some vs → v ∈ vs → owner v = p) →
  ordered (start capacity work).
Proof.
  intros Hown. split; cbn; unfold contents, new; cbn; rw ?ring_new_items ?seg_new_items; [| | |done].
  - intros p pr vs. rw list_lookup_fmap. by destruct (work !! p); intros [= <-] [= <-].
  - done.
  - intros p pr v. rw list_lookup_fmap. destruct (work !! p) as [vs|] eqn:E; [|done].
    intros [= <-]. by apply Hown.
Qed.

Lemma run_ordered s schedule :
  undisturbed s schedule = true → ordered s → ordered (foldl step s schedule).
Proof.
  revert s; induction schedule as [|t schedule IH]; intros s Hu Ho; [done|]. cbn in *.
  apply andb_true_iff in Hu as [Ht Hu]. apply IH; [done|]. destruct t; cbn.
  - apply step_producer_ordered; [|done]. by apply negb_true_iff.
  - by apply step_consumer_ordered.
Qed.
End per_producer.

(** Under any interleaving of the producers' and the consumer's operations on the two
    queues, every value is received at most once, is still in the channel or is still to
    be pushed: none is lost, duplicated or made up. If no producer gets in between the
    two halves of a [pop], each producer's values are received in the order in which it
    pushed them. *)
Theorem channel_concurrent capacity work schedule (owner : T → nat) :
  (∀ p vs v, work !! p = Some vs → v ∈ vs → owner v = p) →
  let s := foldl step (start capacity work) schedule in
  received s ++ contents (chan s) ++ concat (unsent <$> producers s) ≡ₚ concat work ∧
  (undisturbed (start capacity work) schedule = true →
   ∀ p vs, work !! p = Some vs → filter (λ v, owner v = p) (received s) `prefix_of` vs).
Proof.
  intros Hown. cbn zeta. split.
  - rw -(start_everything capacity work). fold (everything (foldl step (start capacity work) schedule)).
    generalize (start capacity work) as s. induction schedule as [|t sch IH]; intros s; [done|].
    cbn. rw IH. apply step_everything.
  - intros Hu p vs Hp.
    pose proof (run_ordered owner work _ schedule Hu (start_ordered owner work capacity Hown)) as Ho.
    assert (is_Some (producers (foldl step (start capacity work) schedule) !! p)) as [pr Hpr].
    { apply lookup_lt_is_Some. rw producers_kept. cbn. rw length_fmap.
      by eapply lookup_lt_Some. }
    pose proof (ord_split _ _ _ Ho p pr vs Hpr Hp) as E. rw of_app -assoc in E.
    by eexists.
Qed.

Lemma run_cons s t sch : foldl step s (t :: sch) = foldl step (step s t) sch.
Proof. done. Qed.

Lemma ring_pop_nil q :
  ring_items q = [] →
  ∃ q', ring_pop q = (q', None) ∧ ring_items q' = [] ∧ ring_capacity q' = ring_capacity q.
Proof.
  intros E. exists (ring_pop q).1. rw ring_pop_items ring_pop_capacity E.
  split; [|done]. pose proof (ring_pop_head q) as H. rw E in H. by destruct (ring_pop q); cbn in *; subst.
Qed.

Lemma ring_push_ok q v :
  length (ring_items q) < ring_capacity q →
  ∃ q', ring_push q v = (q', None) ∧ ring_items q' = ring_items q ++ [v] ∧
    ring_capacity q' = ring_capacity q.
Proof.
  intros [E1 E2]%(ring_push_room _ v). exists (ring_push q v).1. rw ring_push_capacity E1.
  by destruct (ring_push q v); cbn in *; subst.
Qed.

Lemma ring_push_err q v :
  ring_capacity q ≤ length (ring_items q) →
  ∃ q', ring_push q v = (q', Some v) ∧ ring_items q' = ring_items q.
Proof.
  intros [E1 E2]%(ring_push_full _ v). exists (ring_push q v).1. rw E1.
  by destruct (ring_push q v); cbn in *; subst.
Qed.

(** A producer that gets in between the two halves of a [pop] breaks the order, whatever
    the queues: with a ring of one slot, a consumer that has found the ring empty and
    then sees the overflow receives the second value a single producer pushed before the
    first. *)
Theorem channel_reorders (v1 v2 : T) :
  received (foldl step (start 1 [[v1; v2]])
    [Cons; Prod 0; Prod 0; Prod 0; Prod 0; Prod 0; Cons; Cons]) = [v2; v1].
Proof.
  destruct (ring_pop_nil (ring_new 1)) as (q1 & P1 & I1 & K1); [apply ring_new_items|].
  rw ring_new_capacity in K1.
  destruct (ring_push_ok q1 v1) as (q2 & P2 & I2 & K2); [rw I1 K1; cbn; lia|].
  destruct (ring_push_err q2 v2) as (q3 & P3 & I3); [rw I2 I1 K2 K1; cbn; lia|].
  pose proof (seg_is_empty_spec seg_new) as S0. rw seg_new_items bool_decide_eq_true_2 // in S0.
  pose proof (seg_pop_head (seg_push seg_new v2)) as S1. rw seg_push_items seg_new_items in S1.
  pose proof (ring_pop_head q3) as R3. rw I3 I2 I1 in R3.
  unfold start, new.
  rw run_cons. unfold step, step_consumer. cbn -[foldl]. rw P1.
  rw run_cons. unfold step, step_producer. cbn -[foldl]. rw S0. cbn -[foldl].
  rw run_cons. unfold step, step_producer. cbn -[foldl]. rw P2. cbn -[foldl].
  rw run_cons. unfold step, step_producer. cbn -[foldl]. rw S0. cbn -[foldl].
  rw run_cons. unfold step, step_producer. cbn -[foldl]. rw P3. cbn -[foldl].
  rw run_cons. unfold step, step_producer. cbn -[foldl].
  rw run_cons. unfold step, step_consumer. cbn -[foldl].
  destruct (seg_pop (seg_push seg_new v2)) as [o w]; cbn -[foldl] in *. subst w.
  rw run_cons. unfold step, step_consumer. cbn -[foldl].
  destruct (ring_pop q3) as [r w]; cbn in *. by subst w.
Qed.
End channel.

(** ** The awaitable inbox

    [AsyncInboxQueue]: a sender pushes and then wakes; the receiver polls, registers
    its waker and polls once more before it parks. *)

Section inbox.
Context {T : Type} `{AQ : ArrayQueue T} `{SQ : SegQueue T} `{AW : AtomicWaker}.

Inductive Sending :=
  | Ready
  | SawNone (v : T)
  | Overflowing (v : T)
  | MustWake.

Inductive Receiving :=
  | PollRing | PollOverflow | Register | RepollRing | RepollOverflow | Parked.

Record Inbox := mkInbox {
  queue : HybridChannel;
  inbox_waker : waker;
  senders : list (list T * Sending);
  receiver : Receiving;
  notified : bool;
  delivered : list T;
}.

Definition set_sender (s : Inbox) (p : nat) (sd : list T * Sending) (q : HybridChannel) : Inbox :=
  mkInbox q (inbox_waker s) (<[p := sd]> (senders s)) (receiver s) (notified s) (delivered s).

Definition step_sender (s : Inbox) (p : nat) : Inbox :=
  match senders s !! p with
  | Some (td, st) =>
      match st with
      | Ready =>
          match td with
          | v :: td =>
              set_sender s p
                (td, if negb (seg_is_empty (hc_overflow (queue s)))
                     then Overflowing v else SawNone v) (queue s)
          | [] => s
          end
      | SawNone v =>
          match ring_push (hc_ring (queue s)) v with
          | (r, None) =>
              set_sender s p (td, MustWake) (mkHybridChannel r (hc_overflow (queue s)))
          | (r, Some v) =>
              set_sender s p (td, Overflowing v) (mkHybridChannel r (hc_overflow (queue s)))
          end
      | Overflowing v =>
          set_sender s p (td, MustWake)
            (mkHybridChannel (hc_ring (queue s)) (seg_push (hc_overflow (queue s)) v))
      | MustWake =>
          let '(w, n) := waker_wake (inbox_waker s) in
          mkInbox (queue s) w (<[p := (td, Ready)]> (senders s)) (receiver s)
            (notified s || n) (delivered s)
      end
  | None => s
  end.

(** The receiver takes a value found by a poll, or goes on to [next]. *)
Definition polled (s : Inbox) (q : HybridChannel) (found : option T) (next : Receiving) : Inbox :=
  match found with
  | Some v => mkInbox q (inbox_waker s) (senders s) PollRing (notified s) (delivered s ++ [v])
  | None => mkInbox q (inbox_waker s) (senders s) next (notified s) (delivered s)
  end.

Definition poll_ring (s : Inbox) (next : Receiving) : Inbox :=
  let '(r, v) := ring_pop (hc_ring (queue s)) in
  polled s (mkHybridChannel r (hc_overflow (queue s))) v next.

Definition poll_overflow (s : Inbox) (next : Receiving) : Inbox :=
  let '(o, v) := seg_pop (hc_overflow (queue s)) in
  polled s (mkHybridChannel (hc_ring (queue s)) o) v next.

(** A parked receiver runs again when it has been notified. *)
Definition step_receiver (s : Inbox) : Inbox :=
  match receiver s with
  | PollRing => poll_ring s PollOverflow
  | PollOverflow => poll_overflow s Register
  | Register =>
      mkInbox (queue s) (waker_register (inbox_waker s)) (senders s) RepollRing (notified s)
        (delivered s)
  | RepollRing => poll_ring s RepollOverflow
  | RepollOverflow => poll_overflow s Parked
  | Parked =>
      if notified s
      then mkInbox (queue s) (inbox_waker s) (senders s) PollRing false (delivered s)
      else s
  end.

Definition inbox_step (s : Inbox) (t : Thread) : Inbox :=
  match t with Prod p => step_sender s p | Cons => step_receiver s end.

Definition inbox_start (capacity : nat) (work : list (list T)) : Inbox :=
  mkInbox (new capacity) waker_new ((λ vs, (vs, Ready)) <$> work) PollRing false [].

Context `{!ArrayQueueLaws T} `{!SegQueueLaws T} `{AWL : !AtomicWakerLaws}.

(** A value was pushed by a sender that is about to wake the receiver. *)
Definition waking (s : Inbox) : Prop := ∃ p td, senders s !! p = Some (td, MustWake).

Record wakes (s : Inbox) : Prop := {
  wk_armed : receiver s ∈ [RepollRing; RepollOverflow; Parked] →
    armed (inbox_waker s) = true ∨ notified s = true;
  wk_ring : receiver s = RepollOverflow → ring_items (hc_ring (queue s)) ≠ [] →
    waking s ∨ notified s = true;
  wk_parked : receiver s = Parked → contents (queue s) ≠ [] → waking s ∨ notified s = true;
}.

Lemma waking_set s p sd sd' q :
  senders s !! p = Some sd → sd.2 ≠ MustWake → waking s → waking (set_sender s p sd' q).
Proof.
  intros Hp Hn (p' & td & Hp'). exists p', td. cbn. rw list_lookup_insert_ne; [|done].
  intros ->. rw Hp in Hp'. injection Hp' as ->. done.
Qed.

Lemma pushed_waking s p td q :
  is_Some (senders s !! p) → waking (set_sender s p (td, MustWake) q).
Proof.
  intros Hp. exists p, td. cbn. apply list_lookup_insert_eq. by apply lookup_lt_is_Some.
Qed.

(** A sender's step that leaves what is in the queue alone, or announces a wake. *)
Lemma sender_wakes s p sd sd' q :
  wakes s → senders s !! p = Some sd → sd.2 ≠ MustWake →
  sd'.2 = MustWake ∨
    ring_items (hc_ring q) = ring_items (hc_ring (queue s)) ∧
    seg_items (hc_overflow q) = seg_items (hc_overflow (queue s)) →
  wakes (set_sender s p sd' q).
Proof.
  intros [W1 W2 W3] Hp Hn Hsd. destruct sd' as [td' st].
  assert (∀ P : Prop, (P → waking s ∨ notified s = true) →
    st = MustWake ∨ P → waking (set_sender s p (td', st) q) ∨ notified s = true) as Hk.
  { intros P HP [->|Hx]; [left; apply pushed_waking; by eexists|].
    destruct (HP Hx) as [?|?]; [left; by eapply waking_set|by right]. }
  split; cbn; [done| |].
  - intros Hr Hne. eapply Hk; [apply (W2 Hr)|]. destruct Hsd as [?|[<- _]]; auto.
  - intros Hr Hne. eapply Hk; [apply (W3 Hr)|]. unfold contents in *.
    destruct Hsd as [?|[<- <-]]; auto.
Qed.

Lemma step_sender_wakes s p : wakes s → wakes (step_sender s p).
Proof.
  intros Hw. unfold step_sender.
  destruct (senders s !! p) as [[td st]|] eqn:Ep; [|done].
  destruct st as [|v|v|]; [destruct td as [|v td]; [done|]|..].
  - eapply sender_wakes; [done..|]. by right.
  - destruct (decide (length (ring_items (hc_ring (queue s))) < ring_capacity (hc_ring (queue s))))
      as [Hr|Hr].
    + destruct (ring_push_room _ v Hr) as [Ei Ev].
      destruct (ring_push _ v) as [r []]; cbn in *; [done|].
      eapply sender_wakes; [done..|]. by left.
    + destruct (ring_push_full (hc_ring (queue s)) v) as [Ei Ev]; [lia|].
      destruct (ring_push _ v) as [r []]; cbn in *; [|done]. injection Ev as ->.
      eapply sender_wakes; [done..|]. by right.
  - eapply sender_wakes; [done..|]. by left.
  - pose proof (waker_wake_notifies (inbox_waker s)) as En.
    destruct (waker_wake (inbox_waker s)) as [w n]; cbn in *. subst n.
    destruct Hw as [W1 W2 W3].
    assert (receiver s ∈ [RepollRing; RepollOverflow; Parked] →
      notified s || armed (inbox_waker s) = true) as Hn.
    { intros [->| ->]%W1; [by rw orb_true_r|done]. }
    split; cbn; [intros; right; auto|..]; (intros Hr _; right; apply Hn; rw Hr; set_solver).
Qed.

Lemma step_receiver_wakes s : wakes s → wakes (step_receiver s).
Proof.
  intros [W1 W2 W3]. unfold step_receiver.
  destruct (receiver s) eqn:Er; unfold poll_ring, poll_overflow.
  - destruct (ring_pop _) as [r [v|]]; (split; cbn; [set_solver|done..]).
  - destruct (seg_pop _) as [o [v|]]; (split; cbn; [set_solver|done..]).
  - split; cbn; [|done..]. intros _. left. apply waker_register_armed.
  - pose proof (ring_pop_items (hc_ring (queue s))) as Ei.
    pose proof (ring_pop_head (hc_ring (queue s))) as Eh.
    destruct (ring_pop _) as [r [v|]]; (split; cbn in *; [|try done..]).
    + set_solver.
    + intros _. apply W1. set_solver.
    + intros _. rw Ei. by destruct (ring_items (hc_ring (queue s))).
  - pose proof (seg_pop_items (hc_overflow (queue s))) as Ei.
    pose proof (seg_pop_head (hc_overflow (queue s))) as Eh.
    destruct (seg_pop _) as [o [v|]]; (split; cbn in *; [|try done..]).
    + set_solver.
    + intros _. apply W1. set_solver.
    + intros _. unfold contents. cbn. rw Ei.
      destruct (seg_items (hc_overflow (queue s))); [|done]. cbn. rw app_nil_r. auto.
  - destruct (notified s) eqn:En; [|by split; rw ?Er ?En].
    split; cbn; [set_solver|done..].
Qed.

(** C32. No wakeup is lost: under any interleaving of senders and receiver, a receiver
    that is parked while a value is in its inbox has been notified, or the sender of a
    value is about to notify it. *)
Theorem no_lost_wakeup capacity work schedule :
  let s := foldl inbox_step (inbox_start capacity work) schedule in
  receiver s = Parked → contents (queue s) ≠ [] → waking s ∨ notified s = true.
Proof.
  cbn zeta. assert (wakes (foldl inbox_step (inbox_start capacity work) schedule)) as [_ _ Hp];
    [|done].
  apply foldl_invariant'.
  - intros s []; [apply step_sender_wakes|apply step_receiver_wakes].
  - split; cbn; [set_solver|done..].
Qed.
End inbox.

(** ** The interfaces can be implemented *)

Section queues.
Context (T : Type).

Definition list_ring : ArrayQueue T := {|
  ring := nat * list T;
  ring_new n := (n, []);
  ring_push q v :=
    if decide (length q.2 < q.1) then ((q.1, q.2 ++ [v]), None) else (q, Some v);
  ring_pop q := ((q.1, tail q.2), head q.2);
  ring_is_empty q := bool_decide (length q.2 = 0);
|}.

Definition list_ring_laws : @ArrayQueueLaws T list_ring.
Proof.
  refine {| ring_items := snd : @ring T list_ring → list T; ring_capacity := fst |};
    try done; intros [n l]; cbn.
  - intros v Hl. by rw decide_True.
  - intros v Hl. rw decide_False; [lia|done].
  - intros v. by case_decide.
  - apply bool_decide_ext. by destruct l.
Defined.

Definition list_seg : SegQueue T := {|
  seg := list T;
  seg_new := [];
  seg_push q v := q ++ [v];
  seg_pop q := (tail q, head q);
  seg_is_empty q := bool_decide (length q = 0);
|}.

Definition list_seg_laws : @SegQueueLaws T list_seg.
Proof.
  refine {| seg_items := (λ q, q) : @seg T list_seg → list T |}; try done.
  intros q; cbn. apply bool_decide_ext. by destruct q.
Defined.
End queues.

Definition flag_waker : AtomicWaker := {|
  waker := bool; waker_new := false; waker_register _ := true; waker_wake w := (false, w);
|}.

Definition flag_waker_laws : @AtomicWakerLaws flag_waker.
Proof. by refine {| armed := (λ w, w) : @waker flag_waker → bool |}. Defined.

Lemma channel_fifo_witness :
  let _ := list_ring nat in let _ := list_seg nat in
  let ops := [Push 1; Push 2; Pop; Push 3; Pop; Pop; Pop] in
  (emit_all apply_op (new 1) ops).2 = (emit_all fifo_op [] ops).2.
Proof.
  intros AQ SQ ops.
  exact (proj1 (channel_fifo (AQ := AQ) (SQ := SQ) (ArrayQueueLaws0 := list_ring_laws nat)
    (SegQueueLaws0 := list_seg_laws nat) 1 ops)).
Defined.

Lemma channel_concurrent_witness :
  let AQ := list_ring nat in let SQ := list_seg nat in
  let schedule := [Prod 0; Prod 1; Prod 1; Prod 0; Prod 0; Cons; Prod 1; Prod 1; Cons; Cons] in
  let s := foldl step (start 1 [[0; 2]; [1; 3]]) schedule in
  (∀ p vs, [[0; 2]; [1; 3]] !! p = Some vs →
     filter (λ v, v mod 2 = p) (received s) `prefix_of` vs) ∧ received s = [1; 0].
Proof.
  intros AQ SQ schedule s. split; [|by vm_compute].
  refine (proj2 (channel_concurrent (AQ := AQ) (SQ := SQ) (ArrayQueueLaws0 := list_ring_laws nat)
    (SegQueueLaws0 := list_seg_laws nat) 1 [[0; 2]; [1; 3]] schedule (λ v, v mod 2) _) _).
  - intros [|[|p]] vs v; cbn; [intros [= <-]|intros [= <-]|done]; set_solver.
  - by vm_compute.
Defined.

Lemma channel_reorders_witness :
  let AQ := list_ring nat in let SQ := list_seg nat in
  received (foldl step (start 1 [[1; 2]])
    [Cons; Prod 0; Prod 0; Prod 0; Prod 0; Prod 0; Cons; Cons]) = [2; 1].
Proof.
  intros AQ SQ.
  exact (channel_reorders (AQ := AQ) (SQ := SQ) (ArrayQueueLaws0 := list_ring_laws nat)
    (SegQueueLaws0 := list_seg_laws nat) 1 2).
Defined.

Lemma no_lost_wakeup_witness :
  let AQ := list_ring nat in let SQ := list_seg nat in let AW := flag_waker in
  let schedule := [Cons; Cons; Cons; Cons; Cons; Prod 0; Prod 0; Prod 0] in
  let s := foldl inbox_step (inbox_start 1 [[7]]) schedule in
  waking s ∨ notified s = true.
Proof.
  intros AQ SQ AW schedule s.
  apply (no_lost_wakeup (AQ := AQ) (SQ := SQ) (AW := AW)
    (ArrayQueueLaws0 := list_ring_laws nat) (SegQueueLaws0 := list_seg_laws nat)
    (AWL := flag_waker_laws) 1 [[7]] schedule); by vm_compute.
Defined.
