(* ===== verification/Actor.v ===== *)
(** * Actors

    [src/actor.rs] and [src/extension.rs]: what an actor is to the runtime.  The code of
    the actors is the runtime's client, so it is a parameter: the state of an actor
    object and the messages of its own are types of a [Universe], and a callback of an
    actor is a program in the operations of [Ctx], which the worker interprets. *)

From S2P Require Import Prelude.
#[local] Open Scope N_scope.

(** [TypeId]s, and the opaque values of [stop_with]. *)
Abbreviation TypeId := N.
Abbreviation ExitValue := N.

Inductive ExitReason := Stopped | ExitPanicked | NodeDown | ExitCompleted.
Inductive StopReason := Normal | Panicked | Completed.

#[export] Instance exit_reason_eq : EqDecision ExitReason.
Proof. solve_decision. Defined.
#[export] Instance stop_reason_eq : EqDecision StopReason.
Proof. solve_decision. Defined.

(** An actor that died, why, and the exit value it left. *)
Abbreviation Death := (ActorAddress * StopReason * option ExitValue)%type.

Record ActorExited := mkActorExited {
  ae_addr : ActorAddress;
  ae_reason : ExitReason;
  ae_exit_value : option ExitValue;
}.

Record Down := mkDown {
  down_addr : ActorAddress;
  down_reason : StopReason;
  down_exit_value : option ExitValue;
}.

Record ActorTypeMetadata := mkMetadata {
  actor_type_id : TypeId;
  actor_type_name : string;
  message_type_id : TypeId;
  message_type_name : string;
}.

#[export] Instance exited_eq : EqDecision ActorExited.
Proof. solve_decision. Defined.
#[export] Instance down_eq : EqDecision Down.
Proof. solve_decision. Defined.
#[export] Instance metadata_eq : EqDecision ActorTypeMetadata.
Proof. solve_decision. Defined.

(** ** Capabilities *)

Record CapabilitySet := mkCapabilitySet {
  send_any : gset ActorAddress;
  send_typed : gset (TypeId * ActorAddress);
  can_spawn : bool;
  service_types : gset TypeId;
  monitor_targets : gset ActorAddress;
}.

Definition no_capabilities : CapabilitySet := mkCapabilitySet ∅ ∅ false ∅ ∅.

Definition with_send (c : CapabilitySet) (addr : ActorAddress) : CapabilitySet :=
  mkCapabilitySet ({[addr]} ∪ send_any c) (send_typed c) (can_spawn c) (service_types c)
    (monitor_targets c).
Definition with_send_typed (c : CapabilitySet) (m : TypeId) (addr : ActorAddress)
    : CapabilitySet :=
  mkCapabilitySet (send_any c) ({[(m, addr)]} ∪ send_typed c) (can_spawn c) (service_types c)
    (monitor_targets c).
Definition with_spawn (c : CapabilitySet) : CapabilitySet :=
  mkCapabilitySet (send_any c) (send_typed c) true (service_types c) (monitor_targets c).
Definition with_service (c : CapabilitySet) (s : TypeId) : CapabilitySet :=
  mkCapabilitySet (send_any c) (send_typed c) (can_spawn c) ({[s]} ∪ service_types c)
    (monitor_targets c).
Definition with_monitor (c : CapabilitySet) (addr : ActorAddress) : CapabilitySet :=
  mkCapabilitySet (send_any c) (send_typed c) (can_spawn c) (service_types c)
    ({[addr]} ∪ monitor_targets c).

Definition check_send (c : CapabilitySet) (m : TypeId) (addr : ActorAddress) : bool :=
  bool_decide (addr ∈ send_any c) || bool_decide ((m, addr) ∈ send_typed c).
Definition check_send_addr (c : CapabilitySet) (addr : ActorAddress) : bool :=
  bool_decide (addr ∈ send_any c).
Definition check_spawn (c : CapabilitySet) : bool := can_spawn c.
Definition check_service (c : CapabilitySet) (s : TypeId) : bool :=
  bool_decide (s ∈ service_types c).
Definition check_monitor (c : CapabilitySet) (addr : ActorAddress) : bool :=
  bool_decide (addr ∈ monitor_targets c).

(** ** The environment of an actor

    A map from types to values of that type, of which the runtime itself reads the
    capability set. *)

Inductive EnvValue := Caps (c : CapabilitySet) | Value (v : N).

Abbreviation Environment := (gmap TypeId EnvValue).

(** [TypeId::of::<CapabilitySet>()]. *)
Definition caps_id : TypeId := 0.

Definition capabilities (env : Environment) : option CapabilitySet :=
  match env !! caps_id with Some (Caps c) => Some c | _ => None end.

(** ** Messages *)

Class Universe := {
  Behaviour : Type;     (* the state of an actor object, of any actor type *)
  UserMsg : Type;       (* the values of the message types of the actors *)
  ExtState : Type;      (* the state of the installed runtime extension *)
  Request : Type;       (* requests to the extension of a worker *)
}.

Section universe.
Context `{U : Universe}.

(** A value that implements [Message] ... *)
Inductive Message :=
  | MUser (u : UserMsg)
  | MDown (d : Down)
  | MExited (e : ActorExited).

(** ... the replies of the administration interface ... *)
Inductive AdminError :=
  | ActorNotFound (actor : ActorAddress)
  | AddressMismatch (requested snapshot : ActorAddress)
  | TypeMismatch (expected actual : ActorTypeMetadata)
  | Timeout.

Record ActorStatus := mkActorStatus {
  as_started : bool;
  as_suspended : bool;
  as_stopping : bool;
  as_poisoned : bool;
}.

Record ActorSummary := mkActorSummary {
  address : ActorAddress;
  sum_types : ActorTypeMetadata;
  sum_worker_id : nat;
  sum_parent : option ActorAddress;
  mailbox_depth : nat;
  status : ActorStatus;
  last_message_type : option string;
  messages_handled : N;
}.

Inductive AdminReply :=
  | RList (actors : list ActorSummary)
  | RInspect (r : AdminError + ActorSummary)
  | RState (r : AdminError + (ActorAddress * Behaviour))
  | ROperation (r : AdminError + bool).

(** ... and the sentinels that are no messages. *)
Inductive Payload :=
  | PMessage (m : Message)
  | PReply (r : AdminReply)
  | PStop
  | PStopWith (v : ExitValue)
  | PResume.

(** ** Actor code

    The operations of [Ctx] a callback performs, with how it goes on.  [Ret] and [Panic]
    carry the state the actor is left in, and so does the use of the extension, which
    panics when none is installed. *)

Record SystemInfo := mkSystemInfo {
  si_worker_id : nat;
  si_num_workers : nat;
  si_total_actors : nat;
}.

Inductive Prog :=
  | Ret (b : Behaviour)
  | Panic (b : Behaviour)
  | Send (to : ActorAddress) (m : Message) (k : bool → Prog)
  | StopActor (to : ActorAddress) (k : bool → Prog)
  | Spawn (child : Behaviour) (overrides : Environment) (k : option ActorAddress → Prog)
  | StopSelf (k : Prog)
  | StopWith (v : ExitValue) (k : Prog)
  | SuspendSelf (k : Prog)
  | RequestResume (addr : ActorAddress) (k : Prog)
  | PostRequest (r : Request) (k : Prog)
  | WithExtension (b : Behaviour) (f : ExtState → ExtState) (k : ExtState → Prog)
  | AskSystem (k : SystemInfo → Prog).

(** What a callback can read of its own actor. *)
Record CtxView := mkCtxView {
  self_addr : ActorAddress;
  self_parent_addr : option ActorAddress;
  self_env : Environment;
  self_messages_processed : N;
  self_mailbox_depth : nat;
  self_msg_type_counts : list (string * N);
}.

(** The [ActorInterface] implementations of the program, and of their messages: the
    type of a message, and whether it is the [Incoming] type of an actor. *)
Class ActorInterface := {
  type_of : Message → TypeId;
  incoming : Behaviour → Message → bool;
  metadata : Behaviour → ActorTypeMetadata;
  handle : Behaviour → CtxView → Message → Prog;
  on_start : Behaviour → CtxView → Prog;
  on_stop : Behaviour → CtxView → Prog;
  handle_down : Behaviour → CtxView → Down → Prog;
  on_actor_exit : Behaviour → CtxView → ActorExited → Prog;
}.

(** [Actor<A>::handle_any]: the code to run and the name counted, or [None] on a type
    mismatch. *)
Definition handle_any `{ActorInterface} (b : Behaviour) (ctx : CtxView) (p : Payload)
    : option (Prog * string) :=
  match p with
  | PMessage m =>
      if incoming b m then Some (handle b ctx m, message_type_name (metadata b))
      else
        match m with
        | MDown d => Some (handle_down b ctx d, "swactor::actor::Down"%string)
        | MExited e => Some (on_actor_exit b ctx e, "ActorExited"%string)
        | MUser _ => None
        end
  | _ => None
  end.

Record SpawnRequest := mkSpawnRequest {
  sr_addr : ActorAddress;
  sr_actor : Behaviour;
  sr_parent : option ActorAddress;
  sr_env : Environment;
}.

(** [RuntimeExtension]. *)
Class RuntimeExtension := {
  on_actor_death : ExtState → list Death →
    ExtState * list (ActorAddress * Payload);
  ext_cleanup_dead : ExtState → list ActorAddress → ExtState;
  on_spawn : ExtState → ActorAddress → option ActorAddress → Environment →
    ExtState * Environment;
}.
End universe.
