(* ===== verification/Worker.v ===== *)
(** * Workers

    [src/worker.rs] and [src/delivery.rs]: a worker owns a pool of actors and advances
    them in passes; the state it shares with the other workers and the runtime handles
    is the record [Shared].  Queues are lists, as [Channel] shows the channel to be when
    its operations do not overlap; a pass is one transition.  Randomness is the sequence
    [new_random] of the addresses drawn, and the remote transport the optional function
    [remote_sink].  A pass also says which callbacks of which actors it ran.  What is
    only observed (statistics hooks, timings, traces) is not modelled. *)

From S2P Require Import Prelude Actor.
#[local] Open Scope nat_scope.

Record RuntimeConfig := mkRuntimeConfig {
  actor_message_budget : nat;
  worker_count : nat;
  worker_ingress_budget : nat;
}.

Definition should_skip_actor (poisoned stopping suspended : bool) : bool :=
  poisoned || stopping || suspended.

Definition is_on_stop_eligible (stopping poisoned : bool) : bool := stopping && negb poisoned.

Definition determine_stop_reason (poisoned has_exit_value : bool) : StopReason :=
  if poisoned then Panicked else if has_exit_value then Completed else Normal.

Section worker.
Context `{U : Universe}.

Record Envelope := mkEnvelope { dest : ActorAddress; payload : Payload }.

(** An external inbox: which payloads are of its type, and its queue. *)
Record InboxQueue := mkInboxQueue {
  of_type : Payload → bool;
  inbox_queue : list Payload;
}.

(** [ListActorsAccumulator], by the number of its request. *)
Record ListActorsState := mkListActorsState {
  remaining : nat;
  summaries : list ActorSummary;
  las_reply_to : ActorAddress;
  las_reply : list ActorSummary → Payload;
}.

Inductive AdminCommand :=
  | ListActors (acc : nat)
  | InspectActor (actor reply_to : ActorAddress)
  | GetActorState (actor reply_to : ActorAddress) (expected : ActorTypeMetadata)
  | ReplaceActorState (actor reply_to : ActorAddress) (state : Behaviour)
  | AdminStopActor (actor reply_to : ActorAddress)
  | AdminSuspendActor (actor reply_to : ActorAddress)
  | AdminResumeActor (actor reply_to : ActorAddress).

Record ActorSlot := mkActorSlot {
  mailbox : list Payload;
  actor : Behaviour;
  poisoned : bool;
  stopping : bool;
  started : bool;
  suspended : bool;
  last_msg_type : option string;
  messages_processed : N;
  msg_type_counts : gmap string N;
  parent_addr : option ActorAddress;
  env : Environment;
  exit_value : option ExitValue;
}.

Definition slot_eta (s : ActorSlot) : ActorSlot :=
  mkActorSlot (mailbox s) (actor s) (poisoned s) (stopping s) (started s) (suspended s)
    (last_msg_type s) (messages_processed s) (msg_type_counts s) (parent_addr s) (env s)
    (exit_value s).
Definition set_mailbox (s : ActorSlot) (v : list Payload) : ActorSlot :=
  ltac:(update_field slot_eta s mailbox v).
Definition set_actor (s : ActorSlot) (v : Behaviour) : ActorSlot :=
  ltac:(update_field slot_eta s actor v).
Definition set_poisoned (s : ActorSlot) (v : bool) : ActorSlot :=
  ltac:(update_field slot_eta s poisoned v).
Definition set_stopping (s : ActorSlot) (v : bool) : ActorSlot :=
  ltac:(update_field slot_eta s stopping v).
Definition set_started (s : ActorSlot) (v : bool) : ActorSlot :=
  ltac:(update_field slot_eta s started v).
Definition set_suspended (s : ActorSlot) (v : bool) : ActorSlot :=
  ltac:(update_field slot_eta s suspended v).
Definition set_last_msg_type (s : ActorSlot) (v : option string) : ActorSlot :=
  ltac:(update_field slot_eta s last_msg_type v).
Definition set_messages_processed (s : ActorSlot) (v : N) : ActorSlot :=
  ltac:(update_field slot_eta s messages_processed v).
Definition set_msg_type_counts (s : ActorSlot) (v : gmap string N) : ActorSlot :=
  ltac:(update_field slot_eta s msg_type_counts v).
Definition set_exit_value (s : ActorSlot) (v : option ExitValue) : ActorSlot :=
  ltac:(update_field slot_eta s exit_value v).

(** [RuntimeShared], the queues of every worker included. *)
Record Shared := mkShared {
  config : RuntimeConfig;
  address_map : gmap ActorAddress nat;
  inbox_registry : gmap ActorAddress InboxQueue;
  extension : option ExtState;
  transfers : list (list Envelope);
  spawns : list (list SpawnRequest);
  admins : list (list AdminCommand);
  rr_worker : N;
  censuses : gmap nat ListActorsState;
  remote : list (ActorAddress * Payload);
  drawn : N;
}.

Definition shared_eta (s : Shared) : Shared :=
  mkShared (config s) (address_map s) (inbox_registry s) (extension s) (transfers s)
    (spawns s) (admins s) (rr_worker s) (censuses s) (remote s) (drawn s).
Definition set_address_map (s : Shared) (v : gmap ActorAddress nat) : Shared :=
  ltac:(update_field shared_eta s address_map v).
Definition set_inbox_registry (s : Shared) (v : gmap ActorAddress InboxQueue) : Shared :=
  ltac:(update_field shared_eta s inbox_registry v).
Definition set_extension (s : Shared) (v : option ExtState) : Shared :=
  ltac:(update_field shared_eta s extension v).
Definition set_transfers (s : Shared) (v : list (list Envelope)) : Shared :=
  ltac:(update_field shared_eta s transfers v).
Definition set_spawns (s : Shared) (v : list (list SpawnRequest)) : Shared :=
  ltac:(update_field shared_eta s spawns v).
Definition set_admins (s : Shared) (v : list (list AdminCommand)) : Shared :=
  ltac:(update_field shared_eta s admins v).
Definition set_rr_worker (s : Shared) (v : N) : Shared :=
  ltac:(update_field shared_eta s rr_worker v).
Definition set_censuses (s : Shared) (v : gmap nat ListActorsState) : Shared :=
  ltac:(update_field shared_eta s censuses v).
Definition set_remote (s : Shared) (v : list (ActorAddress * Payload)) : Shared :=
  ltac:(update_field shared_eta s remote v).
Definition set_drawn (s : Shared) (v : N) : Shared :=
  ltac:(update_field shared_eta s drawn v).

(** The queue of one worker, and a push to it. *)
Definition queue_of {A} (qs : list (list A)) (w : nat) : list A := default [] (qs !! w).
Definition push_to {A} (qs : list (list A)) (w : nat) (x : A) : list (list A) :=
  alter (λ q, q ++ [x]) w qs.

(** [WorkerExtension]. *)
Class WorkerExtension := {
  WExt : Type;
  has_pending_work : WExt → bool;
  on_tick : WExt → WExt * list (ActorAddress * Payload);
  handle_request : WExt → Request → WExt;
  gc_dead : WExt → list ActorAddress → WExt;
}.

Record Worker `{WE : WorkerExtension} := mkWorker {
  id : nat;
  pool : gmap ActorAddress ActorSlot;
  worker_ext : option WExt;
  has_backlog : bool;
  deferred_transfers : list Envelope;
  deferred_admin : list AdminCommand;
}.

(** What the handlers of one pass request, kept until they have run. *)
Record Staging := mkStaging {
  pending_local : list (ActorAddress * Payload);
  stop_requests : list ActorAddress;
  stop_with_values : list (ActorAddress * ExitValue);
  suspend_requests : list ActorAddress;
  worker_requests : list Request;
}.

Definition no_staging : Staging := mkStaging [] [] [] [] [].

(** A callback run for an actor, or the report that the last one panicked. *)
Inductive Callback := OnStart | Handled (p : Payload) | Crashed | OnStop.

Section operations.
Context `{AI : !ActorInterface} `{RE : !RuntimeExtension} `{WE : !WorkerExtension}.
Context (new_random : N → ActorAddress).
Context (remote_sink : option (ActorAddress → Payload → bool)).
Context {ord : HashOrder ActorAddress ActorSlot} {ord_types : HashOrder string N}.

(** ** Routing *)

Definition try_deliver (sh : Shared) (addr : ActorAddress) (msg : Payload) : Shared * bool :=
  match inbox_registry sh !! addr with
  | Some ib =>
      (if of_type ib msg
       then set_inbox_registry sh
              (<[addr := mkInboxQueue (of_type ib) (inbox_queue ib ++ [msg])]>
                 (inbox_registry sh))
       else sh, true)
  | None => (sh, false)
  end.

Definition route_nonlocal (sh : Shared) (addr : ActorAddress) (msg : Payload)
    : Shared * bool :=
  match inbox_registry sh !! addr with
  | Some _ => try_deliver sh addr msg
  | None =>
      match remote_sink with
      | Some sink => (set_remote sh (remote sh ++ [(addr, msg)]), sink addr msg)
      | None => try_deliver sh addr msg
      end
  end.

Definition transfer (sh : Shared) (w : nat) (e : Envelope) : Shared :=
  set_transfers sh (push_to (transfers sh) w e).

(** [WorkerContext::send_any]. *)
Definition send_any (wid : nat) (sh : Shared) (st : Staging) (addr : ActorAddress)
    (msg : Payload) : Shared * Staging * bool :=
  match address_map sh !! addr with
  | Some w =>
      if w =? wid then
        (sh, mkStaging (pending_local st ++ [(addr, msg)]) (stop_requests st)
               (stop_with_values st) (suspend_requests st) (worker_requests st), true)
      else (transfer sh w (mkEnvelope addr msg), st, true)
  | None => let '(sh, r) := route_nonlocal sh addr msg in (sh, st, r)
  end.

(** [WorkerContext::spawn_any]. *)
Definition spawn_any (wid : nat) (sh : Shared) (req : SpawnRequest) : Shared :=
  set_spawns (set_address_map sh (<[sr_addr req := wid]> (address_map sh)))
    (push_to (spawns sh) wid req).

(** ** Running a callback *)

Definition system_info (wid : nat) (sh : Shared) : SystemInfo :=
  mkSystemInfo wid (worker_count (config sh)) (size (address_map sh)).

(** [Ctx::send]'s capability check. *)
Definition may_send (v : CtxView) (m : Message) (to : ActorAddress) : bool :=
  match capabilities (self_env v) with
  | Some caps =>
      if decide (to = self_addr v) then true else check_send caps (type_of m) to
  | None => true
  end.

Definition may_stop (v : CtxView) (to : ActorAddress) : bool :=
  match capabilities (self_env v) with
  | Some caps => check_send_addr caps to
  | None => true
  end.

Definition may_spawn (v : CtxView) : bool :=
  match capabilities (self_env v) with Some caps => check_spawn caps | None => true end.

(** Runs a callback to its end: the actor's state, and whether it panicked. *)
Fixpoint run_prog (wid : nat) (v : CtxView) (p : Prog) (sh : Shared) (st : Staging)
    : Shared * Staging * (Behaviour * bool) :=
  match p with
  | Ret b => (sh, st, (b, false))
  | Panic b => (sh, st, (b, true))
  | Send to m k =>
      if may_send v m to then
        let '(sh, st, r) := send_any wid sh st to (PMessage m) in
        run_prog wid v (k r) sh st
      else run_prog wid v (k false) sh st
  | StopActor to k =>
      if may_stop v to then
        let '(sh, st, r) := send_any wid sh st to PStop in run_prog wid v (k r) sh st
      else run_prog wid v (k false) sh st
  | Spawn child overrides k =>
      if may_spawn v then
        let addr := new_random (drawn sh) in
        let sh := set_drawn sh (drawn sh + 1)%N in
        let sh :=
          spawn_any wid sh
            (mkSpawnRequest addr child (Some (self_addr v)) (overrides ∪ self_env v)) in
        run_prog wid v (k (Some addr)) sh st
      else run_prog wid v (k None) sh st
  | StopSelf k =>
      run_prog wid v k sh
        (mkStaging (pending_local st) (stop_requests st ++ [self_addr v])
           (stop_with_values st) (suspend_requests st) (worker_requests st))
  | StopWith x k =>
      run_prog wid v k sh
        (mkStaging (pending_local st) (stop_requests st)
           (stop_with_values st ++ [(self_addr v, x)]) (suspend_requests st)
           (worker_requests st))
  | SuspendSelf k =>
      run_prog wid v k sh
        (mkStaging (pending_local st) (stop_requests st) (stop_with_values st)
           (suspend_requests st ++ [self_addr v]) (worker_requests st))
  | RequestResume addr k =>
      run_prog wid v k sh
        (mkStaging (pending_local st ++ [(addr, PResume)]) (stop_requests st)
           (stop_with_values st) (suspend_requests st) (worker_requests st))
  | PostRequest r k =>
      run_prog wid v k sh
        (mkStaging (pending_local st) (stop_requests st) (stop_with_values st)
           (suspend_requests st) (worker_requests st ++ [r]))
  | WithExtension b f k =>
      match extension sh with
      | Some e => run_prog wid v (k e) (set_extension sh (Some (f e))) st
      | None => (sh, st, (b, true))
      end
  | AskSystem k => run_prog wid v (k (system_info wid sh)) sh st
  end.

(** ** Mailboxes *)

Definition contains (p : gmap ActorAddress ActorSlot) (addr : ActorAddress) : bool :=
  bool_decide (is_Some (p !! addr)).

Definition pool_insert (p : gmap ActorAddress ActorSlot) (req : SpawnRequest)
    : gmap ActorAddress ActorSlot :=
  <[sr_addr req := mkActorSlot [] (sr_actor req) false false false false None 0 ∅
      (sr_parent req) (sr_env req) None]> p.

(** A stop takes effect: what is still queued is discarded. *)
Definition stop_slot (s : ActorSlot) (v : option ExitValue) : ActorSlot :=
  let s := match v with Some x => set_exit_value s (Some x) | None => s end in
  set_mailbox (set_stopping s true) [].

Definition deliver_slot (s : ActorSlot) (msg : Payload) : ActorSlot :=
  if suspended s then
    match msg with
    | PResume => set_suspended s false
    | PStop => stop_slot s None
    | PStopWith v => stop_slot s (Some v)
    | _ => set_mailbox s (mailbox s ++ [msg])
    end
  else set_mailbox s (mailbox s ++ [msg]).

Definition deliver (p : gmap ActorAddress ActorSlot) (addr : ActorAddress) (msg : Payload)
    : gmap ActorAddress ActorSlot * bool :=
  match p !! addr with
  | Some s => (<[addr := deliver_slot s msg]> p, true)
  | None => (p, false)
  end.

(** [route_runtime_message]. *)
Definition route_runtime_message (p : gmap ActorAddress ActorSlot) (sh : Shared)
    (to : ActorAddress) (msg : Payload) : gmap ActorAddress ActorSlot * Shared :=
  if contains p to then ((deliver p to msg).1, sh)
  else
    match address_map sh !! to with
    | Some w => (p, transfer sh w (mkEnvelope to msg))
    | None => (p, (route_nonlocal sh to msg).1)
    end.

(** ** One actor of a pass *)

(** The message types of an actor by decreasing count. *)
Definition type_counts (s : ActorSlot) : list (string * N) :=
  sort_by (λ a b : string * N, (b.2 <=? a.2)%N) (hash_iter (msg_type_counts s)).

Definition ctx_of (addr : ActorAddress) (s : ActorSlot) : CtxView :=
  mkCtxView addr (parent_addr s) (env s) (messages_processed s) (length (mailbox s))
    (type_counts s).

(** [Vec::swap_remove]. *)
Definition swap_remove {A} (l : list A) (i : nat) : list A :=
  match last l with
  | Some x => <[i := x]> (removelast l)
  | None => l
  end.

(** The first exit value an actor requested, taken out of the requests. *)
Definition take_stop_with (st : Staging) (addr : ActorAddress)
    : Staging * option ExitValue :=
  match list_find (λ p, p.1 = addr) (stop_with_values st) with
  | Some (i, (_, v)) =>
      (mkStaging (pending_local st) (stop_requests st) (swap_remove (stop_with_values st) i)
         (suspend_requests st) (worker_requests st), Some v)
  | None => (st, None)
  end.

(** What the actor requested for itself while its callback ran: to stop, to suspend, or
    neither. *)
Inductive Verdict := Stopping | Suspending | Running.

Definition settle (addr : ActorAddress) (st : Staging) (s : ActorSlot)
    : Staging * ActorSlot * Verdict :=
  let has_stop := bool_decide (addr ∈ stop_requests st) in
  let '(st, v) := take_stop_with st addr in
  if has_stop || bool_decide (is_Some v) then (st, stop_slot s v, Stopping)
  else if bool_decide (addr ∈ suspend_requests st)
  then (st, set_suspended s true, Suspending)
  else (st, s, Running).

(** Counts a handled message. *)
Definition count_message (s : ActorSlot) (type_name : string) : ActorSlot :=
  let s := set_last_msg_type s (Some type_name) in
  let s := set_messages_processed s (messages_processed s +64 1) in
  if (size (msg_type_counts s) <? 32) || bool_decide (is_Some (msg_type_counts s !! type_name))
  then set_msg_type_counts s
         (<[type_name := (default 0 (msg_type_counts s !! type_name) +64 1)%N]>
            (msg_type_counts s))
  else s.

Definition poison (s : ActorSlot) : ActorSlot := set_mailbox (set_poisoned s true) [].

(** The state one actor's turn threads. *)
Record Turn := mkTurn {
  t_shared : Shared;
  t_staging : Staging;
  t_slot : ActorSlot;
  t_count : nat;
  t_calls : list Callback;
}.

(** After a callback: what the actor requested takes effect; [true] if it goes on. *)
Definition settle_turn (addr : ActorAddress) (t : Turn) : Turn * bool :=
  let '(st, s, verdict) := settle addr (t_staging t) (t_slot t) in
  (mkTurn (t_shared t) st s (t_count t) (t_calls t),
   match verdict with Running => true | _ => false end).

(** A callback that panicked. *)
Definition crash_turn (t : Turn) : Turn :=
  mkTurn (t_shared t) (t_staging t) (poison (t_slot t)) (t_count t) (t_calls t ++ [Crashed]).

(** The message [msg], already taken from the mailbox, is handled. *)
Definition handle_one (wid : nat) (addr : ActorAddress) (v : CtxView) (msg : Payload)
    (t : Turn) : Turn * bool :=
  let s := t_slot t in
  let calls := t_calls t ++ [Handled msg] in
  match handle_any (actor s) v msg with
  | Some (p, name) =>
      let '(sh, st, (b, panicked)) := run_prog wid v p (t_shared t) (t_staging t) in
      let s := set_actor s b in
      if panicked then (crash_turn (mkTurn sh st s (t_count t) calls), false)
      else settle_turn addr (mkTurn sh st (count_message s name) (S (t_count t)) calls)
  | None => settle_turn addr (mkTurn (t_shared t) (t_staging t) s (S (t_count t)) calls)
  end.

(** The stop sentinels, with the exit value they carry. *)
Definition stop_sentinel (msg : Payload) : option (option ExitValue) :=
  match msg with PStop => Some None | PStopWith x => Some (Some x) | _ => None end.

Definition set_t_slot (t : Turn) (s : ActorSlot) : Turn :=
  mkTurn (t_shared t) (t_staging t) s (t_count t) (t_calls t).

(** The loop over the mailbox, [done] messages into it. *)
Fixpoint handle_messages (wid : nat) (addr : ActorAddress) (budget done : nat) (v : CtxView)
    (box : list Payload) (t : Turn) : Turn :=
  match box with
  | [] => t
  | msg :: box =>
      let t := set_t_slot t (set_mailbox (t_slot t) box) in
      match stop_sentinel msg with
      | Some x => set_t_slot t (stop_slot (t_slot t) x)
      | None =>
          let '(t, go) := handle_one wid addr v msg t in
          if negb go || ((0 <? budget) && (budget <=? S done)) then t
          else handle_messages wid addr budget (S done) v box t
      end
  end.

(** [on_start], once; [true] if the actor goes on to its mailbox. *)
Definition start_actor (wid : nat) (addr : ActorAddress) (v : CtxView) (t : Turn)
    : Turn * bool :=
  let '(sh, st, (b, panicked)) :=
    run_prog wid v (on_start (actor (t_slot t)) v) (t_shared t) (t_staging t) in
  let t := mkTurn sh st (set_started (set_actor (t_slot t) b) true) (t_count t)
             (t_calls t ++ [OnStart]) in
  if panicked then (crash_turn t, false) else settle_turn addr t.

(** One iteration of [tick_all]. *)
Definition tick_actor (wid budget : nat) (addr : ActorAddress) (sh : Shared) (st : Staging)
    (s : ActorSlot) : Turn :=
  let t := mkTurn sh st s 0 [] in
  if should_skip_actor (poisoned s) (stopping s) (suspended s) then
    if poisoned s || stopping s then mkTurn sh st (set_mailbox s []) 0 [] else t
  else
    let v := ctx_of addr s in
    let '(t, go) := if started s then (t, true) else start_actor wid addr v t in
    if go then handle_messages wid addr budget 0 v (mailbox (t_slot t)) t else t.

(** The state of a pass over the pool. *)
Record Pass := mkPass {
  p_pool : gmap ActorAddress ActorSlot;
  p_shared : Shared;
  p_staging : Staging;
  p_count : nat;
  p_calls : list (ActorAddress * Callback);
}.

Definition tick_step (wid budget : nat) (p : Pass) (x : ActorAddress * ActorSlot) : Pass :=
  let '(addr, s) := x in
  let t := tick_actor wid budget addr (p_shared p) (p_staging p) s in
  mkPass (<[addr := t_slot t]> (p_pool p)) (t_shared t) (t_staging t)
    (p_count p + t_count t) (p_calls p ++ (pair addr <$> t_calls t)).

Definition tick_all (wid budget : nat) (p : gmap ActorAddress ActorSlot) (sh : Shared) : Pass :=
  foldl (tick_step wid budget) (mkPass p sh no_staging 0 []) (hash_iter p).

(** ** Removing the dead *)

Definition cleanup_step (wid : nat) (acc : Pass * list Death) (addr : ActorAddress)
    : Pass * list Death :=
  let '(p, dead) := acc in
  match p_pool p !! addr with
  | Some s =>
      let reason := determine_stop_reason (poisoned s) (bool_decide (is_Some (exit_value s))) in
      let dead := dead ++ [(addr, reason, exit_value s)] in
      let pl := delete addr (p_pool p) in
      if is_on_stop_eligible (stopping s) (poisoned s) then
        let v := ctx_of addr s in
        let '(sh, st, _) := run_prog wid v (on_stop (actor s) v) (p_shared p) (p_staging p) in
        (mkPass pl sh st (p_count p) (p_calls p ++ [(addr, OnStop)]), dead)
      else (mkPass pl (p_shared p) (p_staging p) (p_count p) (p_calls p), dead)
  | None => acc
  end.

Definition is_dead (s : ActorSlot) : bool := poisoned s || stopping s.

(** [ActorPool::cleanup_dead]. *)
Definition cleanup_dead (wid : nat) (p : gmap ActorAddress ActorSlot) (sh : Shared)
    : Pass * list Death :=
  foldl (cleanup_step wid) (mkPass p sh no_staging 0 [], [])
    (filter (λ x, is_dead x.2 = true) (hash_iter p)).*1.

(** ** Queues *)

Definition deliver_or_defer_transfer (wid : nat) (p : gmap ActorAddress ActorSlot)
    (sh : Shared) (deferred : list Envelope) (e : Envelope)
    : gmap ActorAddress ActorSlot * list Envelope * bool :=
  if contains p (dest e) then ((deliver p (dest e) (payload e)).1, deferred, true)
  else if decide (address_map sh !! dest e = Some wid) then (p, deferred ++ [e], false)
  else (p, deferred, true).

(** How many of [len] queued items a drain that has [spent] of its [budget] takes. *)
Definition allowance (budget spent len : nat) : nat :=
  if budget =? 0 then len else Nat.min (budget - spent) len.

(** One iteration of [drain_spawns]. *)
Definition install (acc : gmap ActorAddress ActorSlot * Shared) (req : SpawnRequest)
    : gmap ActorAddress ActorSlot * Shared :=
  let '(p, sh) := acc in
  match extension sh with
  | Some e =>
      let '(e, env) := on_spawn e (sr_addr req) (sr_parent req) (sr_env req) in
      (pool_insert p (mkSpawnRequest (sr_addr req) (sr_actor req) (sr_parent req) env),
       set_extension sh (Some e))
  | None => (pool_insert p req, sh)
  end.

Definition drain_spawns (wid budget : nat) (p : gmap ActorAddress ActorSlot) (sh : Shared)
    : gmap ActorAddress ActorSlot * Shared * bool :=
  let q := queue_of (spawns sh) wid in
  let n := allowance budget 0 (length q) in
  let sh := set_spawns sh (<[wid := drop n q]> (spawns sh)) in
  let '(p, sh) := foldl install (p, sh) (take n q) in
  (p, sh, 0 <? n).

(** The loop over the retained transfers: [fuel] iterations at most, and how many of
    them are left.  An envelope that is retained again goes to the back, so the loop ends
    early only when every one has been delivered. *)
Fixpoint drain_deferred (wid : nat) (sh : Shared) (fuel : nat)
    (p : gmap ActorAddress ActorSlot) (deferred : list Envelope) (did_work : bool)
    : gmap ActorAddress ActorSlot * list Envelope * bool * nat :=
  match fuel, deferred with
  | S n, e :: deferred =>
      let '(p, deferred, delivered) := deliver_or_defer_transfer wid p sh deferred e in
      drain_deferred wid sh n p deferred (did_work || delivered)
  | _, _ => (p, deferred, did_work, fuel)
  end.

(** With no budget the loops run until their queue is empty; for the retained transfers
    that takes one iteration each, see [drain_deferred_complete]. *)
Definition drain_transfers (wid budget : nat) (p : gmap ActorAddress ActorSlot)
    (sh : Shared) (deferred : list Envelope)
    : gmap ActorAddress ActorSlot * Shared * list Envelope * bool :=
  let '(p, deferred, did_work, left_) :=
    drain_deferred wid sh (if budget =? 0 then length deferred else budget) p deferred false in
  let q := queue_of (transfers sh) wid in
  let m := if budget =? 0 then length q else Nat.min left_ (length q) in
  let '(p, deferred) :=
    foldl (λ acc e, (deliver_or_defer_transfer wid acc.1 sh acc.2 e).1) (p, deferred)
      (take m q) in
  (p, set_transfers sh (<[wid := drop m q]> (transfers sh)), deferred, did_work || (0 <? m)).

(** ** Administration *)

Definition admin_target (cmd : AdminCommand) : option ActorAddress :=
  match cmd with
  | ListActors _ => None
  | InspectActor a _ | GetActorState a _ _ | ReplaceActorState a _ _
  | AdminStopActor a _ | AdminSuspendActor a _ | AdminResumeActor a _ => Some a
  end.

Definition should_defer_admin_command (wid : nat) (p : gmap ActorAddress ActorSlot)
    (sh : Shared) (cmd : AdminCommand) : bool :=
  match admin_target cmd with
  | Some a => negb (contains p a) && bool_decide (address_map sh !! a = Some wid)
  | None => false
  end.

Definition actor_summary_from_slot (addr : ActorAddress) (s : ActorSlot) (wid : nat)
    : ActorSummary :=
  mkActorSummary addr (metadata (actor s)) wid (parent_addr s) (length (mailbox s))
    (mkActorStatus (started s) (suspended s) (stopping s) (poisoned s))
    (last_msg_type s) (messages_processed s).

Definition actor_summary (p : gmap ActorAddress ActorSlot) (addr : ActorAddress) (wid : nat)
    : AdminError + ActorSummary :=
  match p !! addr with
  | Some s => inr (actor_summary_from_slot addr s wid)
  | None => inl (ActorNotFound addr)
  end.

Definition actor_summaries (p : gmap ActorAddress ActorSlot) (wid : nat) : list ActorSummary :=
  (λ x, actor_summary_from_slot x.1 x.2 wid) <$> hash_iter p.

(** A lifecycle command on the slot of its target. *)
Definition operate (p : gmap ActorAddress ActorSlot) (addr : ActorAddress)
    (f : ActorSlot → ActorSlot) : gmap ActorAddress ActorSlot * (AdminError + bool) :=
  match p !! addr with
  | Some s => (<[addr := f s]> p, inr true)
  | None => (p, inl (ActorNotFound addr))
  end.

Definition stop_actor_admin p addr := operate p addr (λ s, stop_slot s None).
Definition suspend_actor_admin p addr := operate p addr (λ s, set_suspended s true).
Definition resume_actor_admin p addr := operate p addr (λ s, set_suspended s false).

Definition send_admin_reply (sh : Shared) (reply_to : ActorAddress) (r : AdminReply) : Shared :=
  (try_deliver sh reply_to (PReply r)).1.

(** One worker's part of a census; the last one replies. *)
Definition list_actors_part (wid : nat) (p : gmap ActorAddress ActorSlot) (sh : Shared)
    (acc : nat) : Shared :=
  match censuses sh !! acc with
  | Some c =>
      let found := summaries c ++ actor_summaries p wid in
      let left_ := remaining c - 1 in
      if left_ =? 0 then
        let sh := set_censuses sh (delete acc (censuses sh)) in
        match address_map sh !! las_reply_to c with
        | Some w => transfer sh w (mkEnvelope (las_reply_to c) (las_reply c found))
        | None => (try_deliver sh (las_reply_to c) (las_reply c found)).1
        end
      else
        set_censuses sh
          (<[acc := mkListActorsState left_ found (las_reply_to c) (las_reply c)]> (censuses sh))
  | None => sh
  end.

(** Whether an actor is of the type a state request is about. *)
Definition same_type (a b : ActorTypeMetadata) : bool :=
  (actor_type_id a =? actor_type_id b)%N && (message_type_id a =? message_type_id b)%N.

Definition apply_admin_command (wid : nat) (p : gmap ActorAddress ActorSlot) (sh : Shared)
    (cmd : AdminCommand) : gmap ActorAddress ActorSlot * Shared :=
  let op '(p, r) reply_to := (p, send_admin_reply sh reply_to (ROperation r)) in
  match cmd with
  | ListActors acc => (p, list_actors_part wid p sh acc)
  | InspectActor a reply_to =>
      (p, send_admin_reply sh reply_to (RInspect (actor_summary p a wid)))
  | GetActorState a reply_to expected =>
      let r :=
        match p !! a with
        | Some s =>
            if same_type (metadata (actor s)) expected then inr (a, actor s)
            else inl (TypeMismatch expected (metadata (actor s)))
        | None => inl (ActorNotFound a)
        end in
      (p, send_admin_reply sh reply_to (RState r))
  | ReplaceActorState a reply_to b =>
      match p !! a with
      | Some s =>
          if same_type (metadata (actor s)) (metadata b)
          then op (<[a := set_actor s b]> p, inr true) reply_to
          else op (p, inl (TypeMismatch (metadata b) (metadata (actor s)))) reply_to
      | None => op (p, inl (ActorNotFound a)) reply_to
      end
  | AdminStopActor a reply_to => op (stop_actor_admin p a) reply_to
  | AdminSuspendActor a reply_to => op (suspend_actor_admin p a) reply_to
  | AdminResumeActor a reply_to => op (resume_actor_admin p a) reply_to
  end.

Definition apply_or_defer_admin_command (wid : nat) (p : gmap ActorAddress ActorSlot)
    (sh : Shared) (deferred : list AdminCommand) (cmd : AdminCommand)
    : gmap ActorAddress ActorSlot * Shared * list AdminCommand * bool :=
  if should_defer_admin_command wid p sh cmd then (p, sh, deferred ++ [cmd], false)
  else let '(p, sh) := apply_admin_command wid p sh cmd in (p, sh, deferred, true).

Fixpoint drain_deferred_admin (wid fuel : nat) (p : gmap ActorAddress ActorSlot)
    (sh : Shared) (deferred : list AdminCommand) (did_work : bool)
    : gmap ActorAddress ActorSlot * Shared * list AdminCommand * bool * nat :=
  match fuel, deferred with
  | S n, cmd :: deferred =>
      let '(p, sh, deferred, applied) := apply_or_defer_admin_command wid p sh deferred cmd in
      drain_deferred_admin wid n p sh deferred (did_work || applied)
  | _, _ => (p, sh, deferred, did_work, fuel)
  end.

Definition drain_admin (wid budget : nat) (p : gmap ActorAddress ActorSlot) (sh : Shared)
    (deferred : list AdminCommand)
    : gmap ActorAddress ActorSlot * Shared * list AdminCommand * bool :=
  let '(p, sh, deferred, did_work, left_) :=
    drain_deferred_admin wid (if budget =? 0 then length deferred else budget) p sh deferred
      false in
  let q := queue_of (admins sh) wid in
  let m := if budget =? 0 then length q else Nat.min left_ (length q) in
  let sh := set_admins sh (<[wid := drop m q]> (admins sh)) in
  let '(p, sh, deferred) :=
    foldl (λ acc cmd, let '(p, sh, d) := acc in
                      (apply_or_defer_admin_command wid p sh d cmd).1)
      (p, sh, deferred) (take m q) in
  (p, sh, deferred, did_work || (0 <? m)).

(** ** A pass *)

Definition dead_addrs (dead : list Death) : list ActorAddress := (λ d, d.1.1) <$> dead.

(** Messages routed on behalf of the runtime, one by one. *)
Definition route_all (p : gmap ActorAddress ActorSlot) (sh : Shared)
    (msgs : list (ActorAddress * Payload)) : gmap ActorAddress ActorSlot * Shared :=
  foldl (λ acc m, route_runtime_message acc.1 acc.2 m.1 m.2) (p, sh) msgs.

(** Messages staged for actors of this worker, one by one. *)
Definition deliver_staged (wid : nat) (p : gmap ActorAddress ActorSlot) (sh : Shared)
    (deferred : list Envelope) (msgs : list (ActorAddress * Payload))
    : gmap ActorAddress ActorSlot * list Envelope :=
  foldl (λ acc m, (deliver_or_defer_transfer wid acc.1 sh acc.2 (mkEnvelope m.1 m.2)).1)
    (p, deferred) msgs.

(** Phase 9: removal of the dead, their notifications and the messages of [on_stop]. *)
Definition cleanup_dead_actors (wid : nat) (p : gmap ActorAddress ActorSlot) (sh : Shared)
    (wext : option WExt) (deferred : list Envelope)
    : gmap ActorAddress ActorSlot * Shared * option WExt * list Envelope *
      list (ActorAddress * Callback) * bool :=
  let '(pass, dead) := cleanup_dead wid p sh in
  let p := p_pool pass in
  let sh := p_shared pass in
  let had_dead := negb (bool_decide (dead = [])) in
  let '(p, sh) :=
    if had_dead then
      let sh := set_address_map sh (foldl (λ m a, delete a m) (address_map sh) (dead_addrs dead)) in
      match extension sh with
      | Some e =>
          let '(e, notifications) := on_actor_death e dead in
          let sh := set_extension sh (Some (ext_cleanup_dead e (dead_addrs dead))) in
          route_all p sh notifications
      | None => (p, sh)
      end
    else (p, sh) in
  let '(p, deferred) := deliver_staged wid p sh deferred (pending_local (p_staging pass)) in
  (p, sh, (λ x, gc_dead x (dead_addrs dead)) <$> wext, deferred, p_calls pass, had_dead).

Definition has_work (sh : Shared) (w : Worker) : bool :=
  has_backlog w
  || negb (length (queue_of (spawns sh) (id w)) =? 0)
  || negb (length (queue_of (transfers sh) (id w)) =? 0)
  || negb (length (deferred_transfers w) =? 0)
  || negb (length (queue_of (admins sh) (id w)) =? 0)
  || negb (length (deferred_admin w) =? 0)
  || match worker_ext w with Some x => has_pending_work x | None => false end.

Definition tick_worker_ext (wext : option WExt)
    : option WExt * list (ActorAddress * Payload) :=
  match wext with
  | Some x => let '(x, msgs) := on_tick x in (Some x, msgs)
  | None => (None, [])
  end.

(** A pass with work to do: the phases of [try_tick] in their order. *)
Definition run_pass (sh : Shared) (w : Worker)
    : Shared * Worker * list (ActorAddress * Callback) * bool :=
  let wid := id w in
  let ingress := worker_ingress_budget (config sh) in
  (* 1 *)
  let '(p, sh, w1) := drain_spawns wid ingress (pool w) sh in
  (* 2 *)
  let '(p, sh, deferred, w2) := drain_transfers wid ingress p sh (deferred_transfers w) in
  (* 3 *)
  let '(p, sh, admin, w3) := drain_admin wid ingress p sh (deferred_admin w) in
  (* 4 *)
  let '(wext, ext_msgs) := tick_worker_ext (worker_ext w) in
  let '(p, sh) := route_all p sh ext_msgs in
  let w4 := negb (length ext_msgs =? 0) in
  (* 5 *)
  let pass := tick_all wid (actor_message_budget (config sh)) p sh in
  let w5 := 0 <? p_count pass in
  (* 6 *)
  let '(p, sh, w6) := drain_spawns wid ingress (p_pool pass) (p_shared pass) in
  (* 7 *)
  let pending := pending_local (p_staging pass) in
  let w7 := negb (length pending =? 0) in
  let '(p, deferred) := deliver_staged wid p sh deferred pending in
  let wext := (λ x, foldl handle_request x (worker_requests (p_staging pass))) <$> wext in
  (* 9 *)
  let '(p, sh, wext, deferred, stops, w9) :=
    cleanup_dead_actors wid p sh wext deferred in
  let did_work := w1 || w2 || w3 || w4 || w5 || w6 || w7 || w9 in
  (sh, mkWorker _ wid p wext did_work deferred admin, p_calls pass ++ stops, did_work).

Definition try_tick (sh : Shared) (w : Worker)
    : Shared * Worker * list (ActorAddress * Callback) * bool :=
  if has_work sh w then run_pass sh w else (sh, w, [], false).
End operations.
End worker.
