(* ===== verification/Runtime.v ===== *)
(** * The runtime

    [src/runtime.rs] and [src/admin.rs]: the operations of the cloneable [Runtime] handle
    on the shared state, and the hosts that advance the workers.  A history is any
    sequence of handle operations and worker passes, which covers the sequential host
    ([SingleThreadRuntime]) and every schedule of whole passes an engine may choose. *)

From S2P Require Import Prelude Actor Worker.
#[local] Open Scope nat_scope.

Section runtime.
Context `{U : Universe}.
Context `{AI : !ActorInterface} `{RE : !RuntimeExtension} `{WE : !WorkerExtension}.
Context (new_random : N → ActorAddress).
Context (remote_sink : option (ActorAddress → Payload → bool)).
Context {ord : HashOrder ActorAddress ActorSlot} {ord_types : HashOrder string N}.

(** [RuntimeShared::worker_count]: there is one [WorkerStats] per configured worker. *)
Definition num_workers (sh : Shared) : nat := worker_count (config sh).

(** The round-robin cursor is a [usize]. *)
Definition next_worker (sh : Shared) : Shared * nat :=
  (set_rr_worker sh (rr_worker sh +64 1),
   N.to_nat (rr_worker sh mod N.of_nat (num_workers sh))%N).

Definition draw (sh : Shared) : Shared * ActorAddress :=
  (set_drawn sh (drawn sh + 1)%N, new_random (drawn sh)).

(** [Runtime::spawn_with_env]; [Runtime::spawn] is the case of the empty environment. *)
Definition spawn_with_env (sh : Shared) (b : Behaviour) (env : Environment)
    : Shared * ActorAddress :=
  let '(sh, addr) := draw sh in
  let '(sh, w) := next_worker sh in
  (spawn_any w sh (mkSpawnRequest addr b None env), addr).

Definition spawn (sh : Shared) (b : Behaviour) : Shared * ActorAddress :=
  spawn_with_env sh b ∅.

Definition is_local_actor (sh : Shared) (addr : ActorAddress) : bool :=
  bool_decide (is_Some (address_map sh !! addr)).

Definition send_to (sh : Shared) (addr : ActorAddress) (m : Message) : Shared * bool :=
  match address_map sh !! addr with
  | Some w => (transfer sh w (mkEnvelope addr (PMessage m)), true)
  | None => route_nonlocal remote_sink sh addr (PMessage m)
  end.

(** [ExternalSender::send_to]. *)
Definition external_send_to (sh : Shared) (addr : ActorAddress) (m : Message)
    : Shared * bool :=
  match address_map sh !! addr with
  | Some w => (transfer sh w (mkEnvelope addr (PMessage m)), true)
  | None => (sh, false)
  end.

Definition stop_actor (sh : Shared) (addr : ActorAddress) : Shared * bool :=
  match address_map sh !! addr with
  | Some w => (transfer sh w (mkEnvelope addr PStop), true)
  | None => (sh, false)
  end.

Definition deliver_raw (sh : Shared) (addr : ActorAddress) (p : Payload) : Shared * bool :=
  match address_map sh !! addr with
  | Some w => (transfer sh w (mkEnvelope addr p), true)
  | None => try_deliver sh addr p
  end.

Definition new_inbox (sh : Shared) (of_type : Payload → bool) : Shared * ActorAddress :=
  let '(sh, addr) := draw sh in
  (set_inbox_registry sh (<[addr := mkInboxQueue of_type []]> (inbox_registry sh)), addr).

(** [Inbox::try_recv], and its [Drop]. *)
Definition inbox_try_recv (sh : Shared) (addr : ActorAddress) : Shared * option Payload :=
  match inbox_registry sh !! addr with
  | Some ib =>
      (set_inbox_registry sh
         (<[addr := mkInboxQueue (of_type ib) (tail (inbox_queue ib))]> (inbox_registry sh)),
       head (inbox_queue ib))
  | None => (sh, None)
  end.

Definition drop_inbox (sh : Shared) (addr : ActorAddress) : Shared :=
  set_inbox_registry sh (delete addr (inbox_registry sh)).

(** [Runtime::ask]: the inbox of the reply, dropped again if the request is refused. *)
Definition ask (sh : Shared) (addr : ActorAddress) (of_type : Payload → bool)
    (msg_builder : ActorAddress → Message) : Shared * option ActorAddress :=
  let '(sh, inbox) := new_inbox sh of_type in
  let '(sh, ok) := send_to sh addr (msg_builder inbox) in
  if ok then (sh, Some inbox) else (drop_inbox sh inbox, None).

(** ** Administration *)

Definition is_reply (p : Payload) : bool := match p with PReply _ => true | _ => false end.

(** A command for one actor goes to its worker; the reply, or the refusal, to a new
    inbox. *)
Definition admin_command (sh : Shared) (actor : ActorAddress)
    (cmd : ActorAddress → AdminCommand) (refusal : AdminReply) : Shared * ActorAddress :=
  let '(sh, reply_to) := new_inbox sh is_reply in
  (match address_map sh !! actor with
   | Some w => set_admins sh (push_to (admins sh) w (cmd reply_to))
   | None => (try_deliver sh reply_to (PReply refusal)).1
   end, reply_to).

Definition inspect_actor (sh : Shared) (actor : ActorAddress) : Shared * ActorAddress :=
  admin_command sh actor (InspectActor actor) (RInspect (inl (ActorNotFound actor))).

Definition get_actor_state (sh : Shared) (actor : ActorAddress) (expected : ActorTypeMetadata)
    : Shared * ActorAddress :=
  admin_command sh actor (λ r, GetActorState actor r expected)
    (RState (inl (ActorNotFound actor))).

Definition replace_actor_state (sh : Shared) (actor snapshot : ActorAddress) (b : Behaviour)
    : Shared * ActorAddress :=
  if decide (snapshot = actor) then
    admin_command sh actor (λ r, ReplaceActorState actor r b)
      (ROperation (inl (ActorNotFound actor)))
  else
    let '(sh, reply_to) := new_inbox sh is_reply in
    ((try_deliver sh reply_to (PReply (ROperation (inl (AddressMismatch actor snapshot))))).1,
     reply_to).

Definition admin_stop_actor (sh : Shared) (actor : ActorAddress) : Shared * ActorAddress :=
  admin_command sh actor (AdminStopActor actor) (ROperation (inl (ActorNotFound actor))).
Definition admin_suspend_actor (sh : Shared) (actor : ActorAddress) : Shared * ActorAddress :=
  admin_command sh actor (AdminSuspendActor actor) (ROperation (inl (ActorNotFound actor))).
Definition admin_resume_actor (sh : Shared) (actor : ActorAddress) : Shared * ActorAddress :=
  admin_command sh actor (AdminResumeActor actor) (ROperation (inl (ActorNotFound actor))).

(** [start_actor_census]: one command per worker, under a new request number [acc]. *)
Definition start_actor_census (sh : Shared) (acc : nat) (reply_to : ActorAddress)
    (reply : list ActorSummary → Payload) : Shared :=
  set_admins
    (set_censuses sh
       (<[acc := mkListActorsState (num_workers sh) [] reply_to reply]> (censuses sh)))
    ((λ q, q ++ [ListActors acc]) <$> admins sh).

Definition list_actors (sh : Shared) (acc : nat) : Shared * ActorAddress :=
  let '(sh, reply_to) := new_inbox sh is_reply in
  (start_actor_census sh acc reply_to (λ l, PReply (RList l)), reply_to).

Definition list_actors_to (sh : Shared) (acc : nat) (reply_to : ActorAddress)
    (reply : list ActorSummary → Message) : Shared * bool :=
  if is_local_actor sh reply_to
  then (start_actor_census sh acc reply_to (λ l, PMessage (reply l)), true)
  else (sh, false).

(** [ListActorsRequest::cancel], and its [Drop]. *)
Definition cancel_census (sh : Shared) (acc : nat) : Shared :=
  set_censuses sh (delete acc (censuses sh)).

(** ** Construction and hosts *)

Record System := mkSystem {
  shared : Shared;
  workers : list Worker;
}.

(** [RuntimeParts::new], which asserts that there is a worker, and [with_extension]. *)
Definition new_runtime (c : RuntimeConfig) : option System :=
  let n := worker_count c in
  if n =? 0 then None
  else
    Some (mkSystem
      (mkShared c ∅ ∅ None (replicate n []) (replicate n []) (replicate n []) 0 ∅ [] 0)
      ((λ i, mkWorker _ i ∅ None false [] []) <$> seq 0 n)).

Definition with_extension (s : System) (e : ExtState) (worker_extension : nat → option WExt)
    : System :=
  mkSystem (set_extension (shared s) (Some e))
    ((λ w, match worker_extension (id w) with
           | Some x =>
               mkWorker _ (id w) (pool w) (Some x) (has_backlog w) (deferred_transfers w)
                 (deferred_admin w)
           | None => w
           end) <$> workers s).

(** One pass of worker [i]. *)
Definition tick_worker (s : System) (i : nat) : System * list (ActorAddress * Callback) * bool :=
  match workers s !! i with
  | Some w =>
      let '(sh, w, calls, did_work) := try_tick new_random remote_sink (shared s) w in
      (mkSystem sh (<[i := w]> (workers s)), calls, did_work)
  | None => (s, [], false)
  end.

(** [SingleThreadRuntime::try_tick]: every worker once, in order. *)
Definition host_try_tick (s : System) : System * list (ActorAddress * Callback) * bool :=
  foldl (λ acc i, let '(s, calls, did_work) := acc in
                  let '(s, calls', d) := tick_worker s i in
                  (s, calls ++ calls', did_work || d))
    (s, [], false) (seq 0 (length (workers s))).

Definition host_has_work (s : System) : bool := existsb (has_work (shared s)) (workers s).

(** ** Histories *)

Inductive Op :=
  | OpSpawn (b : Behaviour) (env : Environment)
  | OpSend (addr : ActorAddress) (m : Message)
  | OpStop (addr : ActorAddress)
  | OpDeliver (addr : ActorAddress) (p : Payload)
  | OpNewInbox (of_type : Payload → bool)
  | OpRecv (addr : ActorAddress)
  | OpDropInbox (addr : ActorAddress)
  | OpInspect (addr : ActorAddress)
  | OpGetState (addr : ActorAddress) (expected : ActorTypeMetadata)
  | OpReplaceState (addr snapshot : ActorAddress) (b : Behaviour)
  | OpAdminStop (addr : ActorAddress)
  | OpSuspend (addr : ActorAddress)
  | OpResume (addr : ActorAddress)
  | OpList (acc : nat)
  | OpListTo (acc : nat) (addr : ActorAddress) (reply : list ActorSummary → Message)
  | OpCancel (acc : nat)
  | OpTick (i : nat).

(** A handle operation. *)
Definition apply_handle (sh : Shared) (op : Op) : Shared :=
  match op with
  | OpSpawn b env => (spawn_with_env sh b env).1
  | OpSend a m => (send_to sh a m).1
  | OpStop a => (stop_actor sh a).1
  | OpDeliver a p => (deliver_raw sh a p).1
  | OpNewInbox t => (new_inbox sh t).1
  | OpRecv a => (inbox_try_recv sh a).1
  | OpDropInbox a => drop_inbox sh a
  | OpInspect a => (inspect_actor sh a).1
  | OpGetState a t => (get_actor_state sh a t).1
  | OpReplaceState a sn b => (replace_actor_state sh a sn b).1
  | OpAdminStop a => (admin_stop_actor sh a).1
  | OpSuspend a => (admin_suspend_actor sh a).1
  | OpResume a => (admin_resume_actor sh a).1
  | OpList acc => (list_actors sh acc).1
  | OpListTo acc a reply => (list_actors_to sh acc a reply).1
  | OpCancel acc => cancel_census sh acc
  | OpTick _ => sh
  end.

Definition step (s : System) (op : Op) : System * list (ActorAddress * Callback) :=
  match op with
  | OpTick i => (tick_worker s i).1
  | _ => (mkSystem (apply_handle (shared s) op) (workers s), [])
  end.

(** Everything run from the construction on, and the callbacks it made. *)
Definition run (s : System) (ops : list Op) : System * list (ActorAddress * Callback) :=
  emit_all step s ops.
End runtime.
