(* ===== verification/StdExtension.v ===== *)
(** * The standard extension

    [src/std]: the registries of names, watches and groups, the runtime extension that
    keeps them clean when actors die, and the operations on them that the runtime handle
    offers.  The watch and the group registry are both an index and its reverse; a pair
    of maps to sets represents a relation, and the specification is that relation. *)

From S2P Require Import Prelude Actor Worker Runtime.

(** ** Maps to sets *)

Section index.
Context `{Countable K} `{Countable A}.
Implicit Types (m : gmap K (gset A)).

(** [m.entry(k).or_default().insert(a)]. *)
Definition entry_insert m (k : K) (a : A) : gmap K (gset A) :=
  <[k := {[a]} ∪ default ∅ (m !! k)]> m.

(** [if let Some(s) = m.get_mut(k) { s.remove(a); }]. *)
Definition entry_remove m (k : K) (a : A) : gmap K (gset A) := alter (.∖ {[a]}) k m.

(** The same, and the entry goes when its set is empty. *)
Definition entry_prune m (k : K) (a : A) : gmap K (gset A) :=
  match m !! k with
  | Some X => if decide (X ∖ {[a]} = ∅) then delete k m else <[k := X ∖ {[a]}]> m
  | None => m
  end.

Definition at_key m (k : K) : gset A := default ∅ (m !! k).
End index.

(** ** Names *)

Record NameRegistry := mkNameRegistry {
  names : gmap string ActorAddress;
  reverse : gmap ActorAddress string;
}.

Definition register (r : NameRegistry) (name : string) (addr : ActorAddress)
    : NameRegistry * bool :=
  if decide (is_Some (names r !! name)) then (r, false)
  else (mkNameRegistry (<[name := addr]> (names r)) (<[addr := name]> (reverse r)), true).

Definition lookup_name (r : NameRegistry) (name : string) : option ActorAddress :=
  names r !! name.

Definition unregister (r : NameRegistry) (name : string)
    : NameRegistry * option ActorAddress :=
  match names r !! name with
  | Some addr => (mkNameRegistry (delete name (names r)) (delete addr (reverse r)), Some addr)
  | None => (r, None)
  end.

Definition unregister_by_addr (r : NameRegistry) (addr : ActorAddress) : NameRegistry :=
  match reverse r !! addr with
  | Some name => mkNameRegistry (delete name (names r)) (delete addr (reverse r))
  | None => r
  end.

(** ** Watches *)

Record WatchState := mkWatchState {
  watchers : gmap ActorAddress (gset ActorAddress);
  watching : gmap ActorAddress (gset ActorAddress);
}.

Definition watch (r : WatchState) (watcher target : ActorAddress) : WatchState :=
  mkWatchState (entry_insert (watchers r) target watcher)
    (entry_insert (watching r) watcher target).

(** ** Groups *)

Record GroupRegistry := mkGroupRegistry {
  group_map : gmap string (gset ActorAddress);
  memberships : gmap ActorAddress (gset string);
}.

Definition join (r : GroupRegistry) (group : string) (addr : ActorAddress) : GroupRegistry :=
  mkGroupRegistry (entry_insert (group_map r) group addr)
    (entry_insert (memberships r) addr group).

Definition leave (r : GroupRegistry) (group : string) (addr : ActorAddress) : GroupRegistry :=
  mkGroupRegistry (entry_prune (group_map r) group addr)
    (entry_remove (memberships r) addr group).

Section iterating.
Context {ord_addr : HashOrder ActorAddress unit} {ord_name : HashOrder string unit}.
Context {ord_groups : HashOrder string (gset ActorAddress)}.
Context {ord_names : HashOrder string ActorAddress}.

Definition notify_death (r : WatchState) (target : ActorAddress) (reason : ExitReason)
    (exit_value : option ExitValue) : WatchState * list (ActorAddress * ActorExited) :=
  let ws := hash_elems (at_key (watchers r) target) in
  (mkWatchState (delete target (watchers r))
     (foldl (λ m w, entry_remove m w target) (watching r) ws),
   (λ w, (w, mkActorExited target reason exit_value)) <$> ws).

Definition cleanup_watcher (r : WatchState) (watcher : ActorAddress) : WatchState :=
  match watching r !! watcher with
  | Some targets =>
      mkWatchState (foldl (λ m t, entry_prune m t watcher) (watchers r) (hash_elems targets))
        (delete watcher (watching r))
  | None => r
  end.

Definition members (r : GroupRegistry) (group : string) : list ActorAddress :=
  hash_elems (at_key (group_map r) group).

Definition cleanup (r : GroupRegistry) (addr : ActorAddress) : GroupRegistry :=
  match memberships r !! addr with
  | Some gs =>
      mkGroupRegistry (foldl (λ m g, entry_prune m g addr) (group_map r) (hash_elems gs))
        (delete addr (memberships r))
  | None => r
  end.

Definition group_names (r : GroupRegistry) : list string := (hash_iter (group_map r)).*1.

Definition registered_names (r : NameRegistry) : list string := (hash_iter (names r)).*1.

(** ** The extension *)

Record StdExtension := mkStdExtension {
  name_registry : NameRegistry;
  watch_registry : WatchState;
  group_registry : GroupRegistry;
}.

Definition new : StdExtension :=
  mkStdExtension (mkNameRegistry ∅ ∅) (mkWatchState ∅ ∅) (mkGroupRegistry ∅ ∅).

Definition stop_to_exit (reason : StopReason) : ExitReason :=
  match reason with
  | Normal | Completed => ExitCompleted
  | Panicked => ExitPanicked
  end.

Definition std_actor_death (e : StdExtension) (dead : list Death)
    : StdExtension * list (ActorAddress * ActorExited) :=
  let '(w, notes) :=
    emit_all (λ w d, let '(addr, reason, value) := d in
                     notify_death w addr (stop_to_exit reason) value)
      (watch_registry e) dead in
  (mkStdExtension (name_registry e) w (group_registry e), notes).

Definition std_cleanup_one (e : StdExtension) (addr : ActorAddress) : StdExtension :=
  mkStdExtension (unregister_by_addr (name_registry e) addr)
    (cleanup_watcher (watch_registry e) addr) (cleanup (group_registry e) addr).

Definition std_cleanup_dead (e : StdExtension) (dead : list ActorAddress) : StdExtension :=
  foldl std_cleanup_one e dead.
End iterating.

(** ** Indices represent relations *)

Section represents.
Context `{Countable K} `{Countable A}.
Implicit Types (m fwd : gmap K (gset A)) (R : gset (K * A)).

Lemma at_key_insert m k a k' :
  at_key (entry_insert m k a) k' = if decide (k = k') then {[a]} ∪ at_key m k' else at_key m k'.
Proof. unfold at_key, entry_insert. rw lookup_insert. by case_decide as E; [subst|]. Qed.

Lemma at_key_remove m k a k' :
  at_key (entry_remove m k a) k' = if decide (k = k') then at_key m k' ∖ {[a]} else at_key m k'.
Proof.
  unfold at_key, entry_remove. rw lookup_alter. case_decide as E; [subst|done].
  destruct (m !! k') as [X|]; simpl; [done|set_solver].
Qed.

Lemma at_key_prune m k a k' :
  at_key (entry_prune m k a) k' = if decide (k = k') then at_key m k' ∖ {[a]} else at_key m k'.
Proof.
  unfold at_key, entry_prune. destruct (m !! k) as [X|] eqn:E.
  - case_decide as EX; [rw lookup_delete|rw lookup_insert]; case_decide; subst; rw ?E //=.
  - case_decide; subst; rw ?E /=; set_solver.
Qed.

Lemma at_key_prune_all m a l k :
  at_key (foldl (λ m k, entry_prune m k a) m l) k =
    if decide (k ∈ l) then at_key m k ∖ {[a]} else at_key m k.
Proof.
  revert m; induction l as [|k' l IH]; intros m; cbn [foldl].
  { case_decide; set_solver. }
  rw IH at_key_prune. repeat case_decide; set_solver.
Qed.

Lemma at_key_remove_all m a l k :
  at_key (foldl (λ m k, entry_remove m k a) m l) k =
    if decide (k ∈ l) then at_key m k ∖ {[a]} else at_key m k.
Proof.
  revert m; induction l as [|k' l IH]; intros m; cbn [foldl].
  { case_decide; set_solver. }
  rw IH at_key_remove. repeat case_decide; set_solver.
Qed.

Definition no_empty m : Prop := ∀ k, m !! k ≠ Some ∅.

Lemma no_empty_insert m k a : no_empty m → no_empty (entry_insert m k a).
Proof.
  intros Hm k'. unfold entry_insert. rw lookup_insert. case_decide; [|apply Hm].
  intros [=]. set_solver.
Qed.

Lemma no_empty_prune m k a : no_empty m → no_empty (entry_prune m k a).
Proof.
  intros Hm k'. unfold entry_prune. destruct (m !! k) as [X|] eqn:E; [|apply Hm].
  case_decide; [rw lookup_delete|rw lookup_insert]; case_decide; [done|apply Hm|congruence|apply Hm].
Qed.

Lemma no_empty_prune_all m a l : no_empty m → no_empty (foldl (λ m k, entry_prune m k a) m l).
Proof. apply (foldl_invariant' no_empty). intros; by apply no_empty_prune. Qed.
End represents.

(** The two maps hold the relation [R], one by its first component, the other by its
    second. *)
Definition represents `{Countable K} `{Countable A}
    (fwd : gmap K (gset A)) (rev : gmap A (gset K)) (R : gset (K * A)) : Prop :=
  ∀ k a, (a ∈ at_key fwd k ↔ (k, a) ∈ R) ∧ (k ∈ at_key rev a ↔ (k, a) ∈ R).

Section represents_ops.
Context `{Countable K} `{Countable A}.
Context (ordK : HashOrder K unit) (ordA : HashOrder A unit).
Implicit Types (fwd : gmap K (gset A)) (rev : gmap A (gset K)) (R : gset (K * A)).

Lemma represents_insert fwd rev R k a :
  represents fwd rev R →
  represents (entry_insert fwd k a) (entry_insert rev a k) ({[(k, a)]} ∪ R).
Proof.
  intros Hr k' a'. destruct (Hr k' a') as [H1 H2]. rw !at_key_insert.
  split; case_decide; set_solver.
Qed.

Lemma represents_remove fwd rev R k a :
  represents fwd rev R →
  represents (entry_prune fwd k a) (entry_remove rev a k) (R ∖ {[(k, a)]}).
Proof.
  intros Hr k' a'. destruct (Hr k' a') as [H1 H2]. rw at_key_prune at_key_remove.
  split; case_decide; set_solver.
Qed.

(** All pairs of the key [k] go, as when a target dies ... *)
Lemma represents_drop_key fwd rev R k :
  represents fwd rev R →
  represents (delete k fwd)
    (foldl (λ m a, entry_remove m a k) rev (hash_elems (at_key fwd k)))
    (filter (λ p, p.1 ≠ k) R).
Proof.
  intros Hr k' a'. destruct (Hr k' a') as [H1 H2], (Hr k a') as [H3 H4].
  rw at_key_remove_all elem_of_filter /=. split.
  - unfold at_key at 1. rw lookup_delete. case_decide; [set_solver|]. fold (at_key fwd k'). naive_solver.
  - case_decide as Hin; rw elem_of_hash_elems in Hin; set_solver.
Qed.

(** ... and all pairs of the value [a], as when a watcher or a member dies. *)
Lemma represents_drop_val fwd rev R a X :
  rev !! a = Some X →
  represents fwd rev R →
  represents (foldl (λ m k, entry_prune m k a) fwd (hash_elems X)) (delete a rev)
    (filter (λ p, p.2 ≠ a) R).
Proof.
  intros EX Hr k' a'. destruct (Hr k' a') as [H1 H2], (Hr k' a) as [H3 H4].
  assert (at_key rev a = X) as Ea by (unfold at_key; by rw EX).
  rw at_key_prune_all elem_of_filter /=. split.
  - case_decide as Hin; rw elem_of_hash_elems in Hin; set_solver.
  - unfold at_key. rw lookup_delete. case_decide; [set_solver|]. fold (at_key rev a'). naive_solver.
Qed.

Lemma represents_absent_val fwd rev R a :
  rev !! a = None → represents fwd rev R → represents fwd rev (filter (λ p, p.2 ≠ a) R).
Proof.
  intros EX Hr k' a'. destruct (Hr k' a') as [H1 H2]. rw elem_of_filter H1 H2 /=.
  assert ((k', a) ∉ R); [|naive_solver].
  destruct (Hr k' a) as [_ <-]. unfold at_key. rw EX. set_solver.
Qed.
End represents_ops.

(** ** The specification

    A binding of names to addresses, a relation of targets and watchers, and a relation
    of groups and members. *)

Record Spec := mkSpec {
  s_names : gmap string ActorAddress;
  s_watches : gset (ActorAddress * ActorAddress);
  s_groups : gset (string * ActorAddress);
}.

Inductive ExtOp :=
  | Register (name : string) (addr : ActorAddress)
  | WhereIs (name : string)
  | Unregister (name : string)
  | Watch (watcher target : ActorAddress)
  | Join (group : string) (addr : ActorAddress)
  | Leave (group : string) (addr : ActorAddress)
  | Members (group : string)
  | GroupNames
  | RegisteredNames
  | Deaths (dead : list Death).

Inductive Answer :=
  | Accepted (ok : bool)
  | Found (addr : option ActorAddress)
  | Addresses (l : list ActorAddress)
  | Names (l : list string)
  | Notes (l : list (ActorAddress * ActorExited)).

Definition dead_of (dead : list Death) : list ActorAddress := (λ d, d.1.1) <$> dead.

(** The reason that the watchers are given: a panic is announced as one, every other end as completed. *)
Definition announced (reason : StopReason) : ExitReason :=
  match reason with Panicked => ExitPanicked | _ => ExitCompleted end.

(** The notifications owed for one death. *)
Definition notes_for (W : gset (ActorAddress * ActorAddress)) (d : Death)
    : list (ActorAddress * ActorExited) :=
  let '(addr, reason, value) := d in
  (λ p, (p.2, mkActorExited addr (announced reason) value)) <$>
    elements (filter (λ p, p.1 = addr) W).

(** Those owed for a batch: an actor that it names twice is announced once. *)
Fixpoint notes_of (W : gset (ActorAddress * ActorAddress)) (dead : list Death)
    : list (ActorAddress * ActorExited) :=
  match dead with
  | [] => []
  | d :: dead => notes_for W d ++ notes_of (filter (λ p, p.1 ≠ d.1.1) W) dead
  end.

Definition spec_op (s : Spec) (op : ExtOp) : Spec * list Answer :=
  match op with
  | Register name addr =>
      if decide (is_Some (s_names s !! name)) then (s, [Accepted false])
      else (mkSpec (<[name := addr]> (s_names s)) (s_watches s) (s_groups s), [Accepted true])
  | WhereIs name => (s, [Found (s_names s !! name)])
  | Unregister name =>
      (mkSpec (delete name (s_names s)) (s_watches s) (s_groups s), [Found (s_names s !! name)])
  | Watch watcher target =>
      (mkSpec (s_names s) ({[(target, watcher)]} ∪ s_watches s) (s_groups s), [])
  | Join group addr => (mkSpec (s_names s) (s_watches s) ({[(group, addr)]} ∪ s_groups s), [])
  | Leave group addr => (mkSpec (s_names s) (s_watches s) (s_groups s ∖ {[(group, addr)]}), [])
  | Members group => (s, [Addresses (elements (filter (λ p, p.1 = group) (s_groups s))).*2])
  | GroupNames => (s, [Names (elements (set_map (D := gset string) fst (s_groups s)))])
  | RegisteredNames => (s, [Names (elements (dom (s_names s)))])
  | Deaths dead =>
      let gone := dead_of dead in
      (mkSpec (filter (λ na, (na.2 ∉ gone)) (s_names s))
         (filter (λ p, (p.1 ∉ gone) ∧ (p.2 ∉ gone)) (s_watches s))
         (filter (λ p, p.2 ∉ gone) (s_groups s)),
       [Notes (notes_of (s_watches s) dead)])
  end.

(** What the specification is claimed for: an address is given one name at a time. *)
Definition admissible (s : Spec) (op : ExtOp) : bool :=
  match op with
  | Register name addr =>
      bool_decide (is_Some (s_names s !! name)) ||
      bool_decide (map_Forall (λ _ a, a ≠ addr) (s_names s))
  | _ => true
  end.

Fixpoint all_admissible (s : Spec) (ops : list ExtOp) : bool :=
  match ops with
  | [] => true
  | op :: ops => admissible s op && all_admissible (spec_op s op).1 ops
  end.

(** Answers agree up to the iteration order of sets. *)
Definition agrees (a b : Answer) : Prop :=
  match a, b with
  | Accepted x, Accepted y => x = y
  | Found x, Found y => x = y
  | Addresses l, Addresses l' => l ≡ₚ l'
  | Names l, Names l' => l ≡ₚ l'
  | Notes l, Notes l' => l ≡ₚ l'
  | _, _ => False
  end.

Section refinement.
Context {ord_addr : HashOrder ActorAddress unit} {ord_name : HashOrder string unit}.
Context {ord_groups : HashOrder string (gset ActorAddress)}.
Context {ord_names : HashOrder string ActorAddress}.

Definition set_name_registry (e : StdExtension) (r : NameRegistry) : StdExtension :=
  mkStdExtension r (watch_registry e) (group_registry e).
Definition set_watch_registry (e : StdExtension) (r : WatchState) : StdExtension :=
  mkStdExtension (name_registry e) r (group_registry e).
Definition set_group_registry (e : StdExtension) (r : GroupRegistry) : StdExtension :=
  mkStdExtension (name_registry e) (watch_registry e) r.

(** The operations of the handle and of [Ctx], and what the runtime does with a batch of
    the dead. *)
Definition ext_op (e : StdExtension) (op : ExtOp) : StdExtension * list Answer :=
  match op with
  | Register name addr =>
      let '(r, ok) := register (name_registry e) name addr in
      (set_name_registry e r, [Accepted ok])
  | WhereIs name => (e, [Found (lookup_name (name_registry e) name)])
  | Unregister name =>
      let '(r, addr) := unregister (name_registry e) name in
      (set_name_registry e r, [Found addr])
  | Watch watcher target => (set_watch_registry e (watch (watch_registry e) watcher target), [])
  | Join group addr => (set_group_registry e (join (group_registry e) group addr), [])
  | Leave group addr => (set_group_registry e (leave (group_registry e) group addr), [])
  | Members group => (e, [Addresses (members (group_registry e) group)])
  | GroupNames => (e, [Names (group_names (group_registry e))])
  | RegisteredNames => (e, [Names (registered_names (name_registry e))])
  | Deaths dead =>
      let '(e, notes) := std_actor_death e dead in
      (std_cleanup_dead e (dead_of dead), [Notes notes])
  end.

Record refines (e : StdExtension) (s : Spec) : Prop := {
  rf_names : names (name_registry e) = s_names s;
  rf_reverse : ∀ n a, s_names s !! n = Some a ↔ reverse (name_registry e) !! a = Some n;
  rf_watches : represents (watchers (watch_registry e)) (watching (watch_registry e)) (s_watches s);
  rf_groups : represents (group_map (group_registry e)) (memberships (group_registry e)) (s_groups s);
  rf_no_empty : no_empty (group_map (group_registry e));
}.

(** *** Deaths *)

Lemma notes_perm (r : WatchState) W addr reason value :
  represents (watchers r) (watching r) W →
  (notify_death r addr (stop_to_exit reason) value).2 ≡ₚ notes_for W (addr, reason, value).
Proof.
  intros Hr. simpl. rw hash_elems_perm. replace (announced reason) with (stop_to_exit reason) by by destruct reason.
  transitivity ((λ w, (w, mkActorExited addr (stop_to_exit reason) value)) <$>
                  (elements (filter (λ p, p.1 = addr) W)).*2).
  - apply fmap_Permutation, NoDup_Permutation; [apply NoDup_elements| |].
    + apply NoDup_fmap_2_strong; [|apply NoDup_elements].
      intros [x1 y1] [x2 y2]. rw !elem_of_elements !elem_of_filter /=. naive_solver.
    + intros w. destruct (Hr addr w) as [Hw _]. rw elem_of_elements Hw list_elem_of_fmap. split.
      * intros Hin. exists (addr, w). by rw elem_of_elements elem_of_filter.
      * intros ([x y] & -> & Hin). rw elem_of_elements elem_of_filter /= in Hin.
        by destruct Hin as [<- ?].
  - by rw -list_fmap_compose.
Qed.

Lemma notes_for_filter (W : gset (ActorAddress * ActorAddress)) addr dead :
  addr ∉ dead_of dead → dead ≫= notes_for (filter (λ p, p.1 ≠ addr) W) = dead ≫= notes_for W.
Proof.
  induction dead as [|[[a reason] value] dead IH]; [done|].
  unfold dead_of. rw fmap_cons not_elem_of_cons. intros [Ha Hd].
  rw !bind_cons -IH //. f_equal. unfold notes_for. do 2 f_equal.
  apply set_eq. intros p. rw !elem_of_filter. naive_solver.
Qed.

Lemma notes_of_distinct W dead : NoDup (dead_of dead) → notes_of W dead = dead ≫= notes_for W.
Proof.
  revert W. induction dead as [|d dead IH]; intros W Hnd; [done|].
  apply (NoDup_cons d.1.1 (dead_of dead)) in Hnd as [Hni Hnd]. rw bind_cons /= IH // notes_for_filter //.
Qed.

Lemma deaths_notified dead r W :
  represents (watchers r) (watching r) W →
  let x := emit_all (λ w d, let '(addr, reason, value) := d in
                            notify_death w addr (stop_to_exit reason) value) r dead in
  represents (watchers x.1) (watching x.1) (filter (λ p, p.1 ∉ dead_of dead) W) ∧
  x.2 ≡ₚ notes_of W dead.
Proof.
  revert r W; induction dead as [|[[addr reason] value] dead IH]; intros r W Hr.
  { split; [|done]. intros k a. rw elem_of_filter. destruct (Hr k a). set_solver. }
  cbn [emit_all].
  pose proof (represents_drop_key ord_addr _ _ W addr Hr) as Hr1.
  destruct (IH (notify_death r addr (stop_to_exit reason) value).1 _ Hr1) as [Hr2 Hn].
  clear IH. split.
  - intros k a. destruct (Hr2 k a) as [-> ->]. rw !elem_of_filter /= not_elem_of_cons. naive_solver.
  - cbn [fst snd notes_of]. rw Hn.
    by apply Permutation_app; [apply notes_perm|].
Qed.

(** An actor goes from every relation it is in as name owner, watcher or member. *)
Definition drop_actor (s : Spec) (addr : ActorAddress) : Spec :=
  mkSpec (filter (λ na, na.2 ≠ addr) (s_names s)) (filter (λ p, p.2 ≠ addr) (s_watches s))
    (filter (λ p, p.2 ≠ addr) (s_groups s)).

Lemma drop_actors s l :
  foldl drop_actor s l =
    mkSpec (filter (λ na, (na.2 ∉ l)) (s_names s)) (filter (λ p, (p.2 ∉ l)) (s_watches s))
      (filter (λ p, (p.2 ∉ l)) (s_groups s)).
Proof.
  revert s; induction l as [|a l IH]; intros [n w g]; cbn [foldl].
  - f_equal; [|apply set_eq; intros p; rw elem_of_filter; set_solver..].
    symmetry. apply map_filter_id. set_solver.
  - rw IH. unfold drop_actor; cbn [s_names s_watches s_groups]. f_equal.
    + rw map_filter_filter. apply map_filter_ext. intros i x _. cbn. rw not_elem_of_cons. naive_solver.
    + apply set_eq. intros p. rw !elem_of_filter not_elem_of_cons. naive_solver.
    + apply set_eq. intros p. rw !elem_of_filter not_elem_of_cons. naive_solver.
Qed.

Lemma cleanup_names e s addr :
  refines e s →
  let r := unregister_by_addr (name_registry e) addr in
  names r = s_names (drop_actor s addr) ∧
  ∀ n a, s_names (drop_actor s addr) !! n = Some a ↔ reverse r !! a = Some n.
Proof.
  intros [Hn Hrev _ _ _]. unfold unregister_by_addr. cbn [drop_actor s_names].
  assert (∀ n a, filter (λ na, na.2 ≠ addr) (s_names s) !! n = Some a ↔
                 s_names s !! n = Some a ∧ a ≠ addr) as Hf.
  { intros n a. by rw map_lookup_filter_Some. }
  destruct (reverse (name_registry e) !! addr) as [name|] eqn:E; cbn [names reverse].
  - rw Hn. split.
    + apply map_eq. intros n. apply option_eq. intros a. rw Hf lookup_delete.
      apply Hrev in E. case_decide as En; [subst; naive_solver|].
      split; [|naive_solver]. intros Ha. split; [done|intros ->].
      apply Hrev in Ha. apply Hrev in E. congruence.
    + intros n a. rw Hf lookup_delete Hrev. case_decide; naive_solver.
  - rw Hn. split.
    + symmetry. apply map_filter_id. intros n a Ha; cbn. intros ->. apply Hrev in Ha. congruence.
    + intros n a. rw Hf Hrev. split; [naive_solver|]. intros Ha. split; [done|congruence].
Qed.

Lemma cleanup_one_refines e s addr :
  refines e s → refines (std_cleanup_one e addr) (drop_actor s addr).
Proof.
  intros Hr. destruct (cleanup_names e s addr Hr) as [H1 H2]. destruct Hr as [_ _ Hw Hg He].
  split; [exact H1|exact H2|..]; cbn; clear H1 H2.
  - unfold cleanup_watcher. destruct (watching (watch_registry e) !! addr) as [X|] eqn:E; cbn.
    + by apply represents_drop_val.
    + by apply represents_absent_val.
  - unfold cleanup. destruct (memberships (group_registry e) !! addr) as [X|] eqn:E; cbn.
    + by apply represents_drop_val.
    + by apply represents_absent_val.
  - unfold cleanup. case_match; [by apply no_empty_prune_all|done].
Qed.

Lemma deaths_refine e s dead :
  refines e s →
  refines (ext_op e (Deaths dead)).1 (spec_op s (Deaths dead)).1 ∧
  Forall2 agrees (ext_op e (Deaths dead)).2 (spec_op s (Deaths dead)).2.
Proof.
  intros Hr. cbn [ext_op spec_op]. unfold std_actor_death.
  destruct (deaths_notified dead (watch_registry e) (s_watches s) (rf_watches _ _ Hr)) as [Hw Hn].
  destruct (emit_all _ (watch_registry e) dead) as [w notes]. cbn [fst snd] in *.
  split; [|by constructor].
  set (s1 := mkSpec (s_names s) (filter (λ p, (p.1 ∉ dead_of dead)) (s_watches s)) (s_groups s)).
  assert (refines (mkStdExtension (name_registry e) w (group_registry e)) s1) as Hr1.
  { destruct Hr. by split. }
  replace (mkSpec _ _ _) with (foldl drop_actor s1 (dead_of dead)).
  - clear Hw Hn Hr. revert Hr1. generalize (mkStdExtension (name_registry e) w (group_registry e)) s1.
    unfold std_cleanup_dead. induction (dead_of dead) as [|a l IH]; intros e' s' Hr; cbn [foldl]; [done|].
    by apply IH, cleanup_one_refines.
  - rw drop_actors. unfold s1; cbn [s_names s_watches s_groups]. f_equal.
    apply set_eq. intros p. rw !elem_of_filter. naive_solver.
Qed.

(** *** The other operations *)

Lemma register_refines e s name addr :
  refines e s → admissible s (Register name addr) = true →
  refines (ext_op e (Register name addr)).1 (spec_op s (Register name addr)).1 ∧
  Forall2 agrees (ext_op e (Register name addr)).2 (spec_op s (Register name addr)).2.
Proof.
  intros Hr Ha. destruct Hr as [Hn Hrev Hw Hg He]. cbn [ext_op spec_op admissible] in *.
  unfold register. rw Hn. case_decide as Hin; cbn [fst snd].
  { split; [by split|by constructor]. }
  split; [|by constructor]. rw bool_decide_eq_false_2 // bool_decide_eq_true in Ha.
  split; cbn; [done| |done..]. intros n a. rw !lookup_insert.
  apply eq_None_not_Some in Hin. pose proof (Hrev n a) as Hna.
  destruct (decide (name = n)) as [<-|], (decide (addr = a)) as [<-|]; [by split| | |done].
  - split; [congruence|]. intros Hx. apply Hna in Hx. congruence.
  - split; [|congruence]. intros Hx. by destruct (Ha _ _ Hx).
Qed.

Lemma unregister_refines e s name :
  refines e s →
  refines (ext_op e (Unregister name)).1 (spec_op s (Unregister name)).1 ∧
  Forall2 agrees (ext_op e (Unregister name)).2 (spec_op s (Unregister name)).2.
Proof.
  intros [Hn Hrev Hw Hg He]. cbn [ext_op spec_op]. unfold unregister. rw Hn.
  destruct (s_names s !! name) as [addr|] eqn:E; cbn [fst snd]; (split; [|by constructor]).
  - split; cbn; [done| |done..]. intros n a. rw !lookup_delete. pose proof (Hrev n a) as Hna.
    pose proof (proj1 (Hrev _ _) E) as Er.
    destruct (decide (name = n)) as [<-|], (decide (addr = a)) as [<-|]; [done| | |done].
    + split; [done|]. intros Hx. apply Hna in Hx. congruence.
    + split; [|done]. intros Hx. apply Hna in Hx. congruence.
  - by rw delete_id.
Qed.

Lemma members_perm (r : GroupRegistry) G group :
  represents (group_map r) (memberships r) G →
  members r group ≡ₚ (elements (filter (λ p, p.1 = group) G)).*2.
Proof.
  intros Hr. unfold members. rw hash_elems_perm. apply NoDup_Permutation; [apply NoDup_elements| |].
  - apply NoDup_fmap_2_strong; [|apply NoDup_elements].
    intros [x1 y1] [x2 y2]. rw !elem_of_elements !elem_of_filter /=. naive_solver.
  - intros w. destruct (Hr group w) as [Hw _]. rw elem_of_elements Hw list_elem_of_fmap. split.
    + intros Hin. exists (group, w). by rw elem_of_elements elem_of_filter.
    + intros ([x y] & -> & Hin). rw elem_of_elements elem_of_filter /= in Hin.
      by destruct Hin as [<- ?].
Qed.

Lemma group_names_perm (r : GroupRegistry) G :
  represents (group_map r) (memberships r) G → no_empty (group_map r) →
  group_names r ≡ₚ elements (set_map (D := gset string) fst G).
Proof.
  intros Hr He. apply NoDup_Permutation; [apply hash_iter_nodup|apply NoDup_elements|].
  intros g. unfold group_names. rw list_elem_of_fmap elem_of_elements elem_of_map. split.
  - intros ([g' X] & -> & Hin). rw elem_of_hash_iter in Hin.
    destruct (set_choose_L X) as [a Ha]; [intros ->; by apply (He g')|].
    exists (g', a). split; [done|]. destruct (Hr g' a) as [<- _]. unfold at_key. by rw Hin.
  - intros ([g' a] & -> & Hin). destruct (Hr g' a) as [Hga _]. apply Hga in Hin.
    unfold at_key in Hin. cbn.
    destruct (group_map r !! g') as [X|] eqn:E; [|set_solver].
    exists (g', X). by rw elem_of_hash_iter.
Qed.

Lemma registered_names_perm (r : NameRegistry) :
  registered_names r ≡ₚ elements (dom (names r)).
Proof.
  apply NoDup_Permutation; [apply hash_iter_nodup|apply NoDup_elements|].
  intros n. unfold registered_names. rw list_elem_of_fmap elem_of_elements elem_of_dom. split.
  - intros ([n' a] & -> & Hin). rw elem_of_hash_iter in Hin. by eexists.
  - intros [a Ha]. exists (n, a). by rw elem_of_hash_iter.
Qed.

Lemma op_refines e s op :
  refines e s → admissible s op = true →
  refines (ext_op e op).1 (spec_op s op).1 ∧
  Forall2 agrees (ext_op e op).2 (spec_op s op).2.
Proof.
  intros Hr Ha. destruct op; try done.
  - by apply register_refines.
  - split; [done|]. constructor; [|done]. unfold lookup_name. by rw (rf_names _ _ Hr).
  - by apply unregister_refines.
  - destruct Hr. split; [|done]. split; try done. by apply represents_insert.
  - destruct Hr. split; [|done]. split; [done..| |].
    + by apply represents_insert.
    + by apply no_empty_insert.
  - destruct Hr. split; [|done]. split; [done..| |].
    + by apply represents_remove.
    + by apply no_empty_prune.
  - destruct Hr. split; [by split|]. constructor; [|done]. by apply members_perm.
  - destruct Hr. split; [by split|]. constructor; [|done]. by apply group_names_perm.
  - destruct Hr as [Hn Hx Hw Hg He]. split; [by split|]. constructor; [|done].
    cbn [agrees]. rw -Hn. apply registered_names_perm.
  - by apply deaths_refine.
Qed.

(** C34. The standard extension implements its specification: over any sequence of
    registrations, look-ups, watches, group operations and batches of deaths, under any
    iteration orders, every answer is that of a name binding and two relations, provided
    an address is registered under one name at a time. In particular each watcher of an
    actor is notified of its death exactly once, with its exit value, as [Panicked] if
    it panicked and as [Completed] otherwise (an actor that was stopped explicitly is
    thus announced as [Completed], where the documentation of [ExitReason] has
    [Stopped]); and the dead own no name, are in no group and watch nobody. *)
Theorem std_refines ops :
  all_admissible (mkSpec ∅ ∅ ∅) ops = true →
  let r := emit_all ext_op new ops in
  let s := emit_all spec_op (mkSpec ∅ ∅ ∅) ops in
  refines r.1 s.1 ∧ Forall2 agrees r.2 s.2.
Proof.
  assert (refines new (mkSpec ∅ ∅ ∅)) as Hr.
  { split; cbn; [done|intros n a; by rw !lookup_empty| | |intros k; by rw lookup_empty];
      intros k a; unfold at_key; rw !lookup_empty /=; set_solver. }
  revert Hr. generalize new (mkSpec ∅ ∅ ∅).
  induction ops as [|op ops IH]; intros e s Hr Ha; cbn [emit_all all_admissible] in *; [done|].
  apply andb_true_iff in Ha as [Ha Hops]. destruct (op_refines e s op Hr Ha) as [Hr' Hag].
  destruct (IH _ _ Hr' Hops) as [Hr2 Hag2]. split; [exact Hr2|]. by apply Forall2_app.
Qed.
End refinement.

(** ** A history *)

#[local] Instance addr_order : HashOrder ActorAddress unit := default_order _ _.
#[local] Instance name_order : HashOrder string unit := default_order _ _.
#[local] Instance groups_order : HashOrder string (gset ActorAddress) := default_order _ _.
#[local] Instance names_order : HashOrder string ActorAddress := default_order _ _.

(** Actor 5 has a name, a group it shares with 6, and the watchers 6 and 7; it crashes
    together with 7. *)
Definition example_ops : list ExtOp :=
  [Register "svc" 5; Join "workers" 5; Join "workers" 6; Watch 6 5; Watch 7 5; Watch 5 6;
   Deaths [(5, Panicked, None); (7, Completed, Some 1%N)];
   WhereIs "svc"; Members "workers"; GroupNames]%N%string.

Lemma std_refines_witness :
  let r := emit_all ext_op new example_ops in
  let s := emit_all spec_op (mkSpec ∅ ∅ ∅) example_ops in
  refines r.1 s.1 ∧ Forall2 agrees r.2 s.2 ∧
  s.2 = [Accepted true;
         Notes [(6, mkActorExited 5 ExitPanicked None); (7, mkActorExited 5 ExitPanicked None)];
         Found None; Addresses [6]; Names ["workers"]]%N%string.
Proof.
  intros r s. destruct (std_refines example_ops) as [H1 H2]; [by vm_compute|].
  split; [exact H1|]. split; [exact H2|]. by vm_compute.
Defined.

(** A second name outlives its actor: an address registered under two names keeps the
    first of them after its death, since only the last registration is in the reverse
    map, and the name then stays taken. *)
Theorem second_name_outlives_actor :
  (emit_all ext_op new
     [Register "a" 5; Register "b" 5; Deaths [(5, Normal, None)];
      WhereIs "a"; WhereIs "b"; Register "a" 6]%N%string).2 =
  [Accepted true; Accepted true; Notes []; Found (Some 5%N); Found None; Accepted false].
Proof. by vm_compute. Qed.
