(* ===== verification/PassMachine.v ===== *)
(** * A pass as a machine

    What the passes of a worker do to its pool, to the routes and to the actors, as
    atomic steps: an actor is spawned, installed, started, handles a message, crashes,
    is removed.  Every pass is a sequence of such steps ([run_pass_steps]), so what the
    steps preserve every pass preserves. *)

From S2P Require Import Prelude Actor Worker Runtime.
#[local] Open Scope nat_scope.

Section machine.
Context `{U : Universe}.
Context `{AI : !ActorInterface} `{RE : !RuntimeExtension} `{WE : !WorkerExtension}.
Context (new_random : N → ActorAddress).
Context (remote_sink : option (ActorAddress → Payload → bool)).
Context {ord : HashOrder ActorAddress ActorSlot} {ord_types : HashOrder string N}.

(** The pool of the worker, the shared state, the callbacks so far, and the actors
    removed from the pool whose routes are still in place. *)
Record Machine := mkMachine {
  m_pool : gmap ActorAddress ActorSlot;
  m_shared : Shared;
  m_calls : list (ActorAddress * Callback);
  m_dead : list ActorAddress;
}.

(** The routes, and the actors on their way to a pool. *)
Definition same_routes (sh sh' : Shared) : Prop :=
  address_map sh' = address_map sh ∧ spawns sh' = spawns sh ∧ drawn sh' = drawn sh ∧
  config sh' = config sh.

(** The life of the actor is where it was. *)
Definition same_life (s s' : ActorSlot) : Prop :=
  started s' = started s ∧ poisoned s' = poisoned s ∧
  (stopping s = true → stopping s' = true).

Inductive mstep (wid : nat) : Machine → Machine → Prop :=
  | m_quiet p sh sh' l d :
      same_routes sh sh' → mstep wid (mkMachine p sh l d) (mkMachine p sh' l d)
  | m_spawn p sh l d b parent env :
      mstep wid (mkMachine p sh l d)
        (mkMachine p
           (spawn_any wid (set_drawn sh (drawn sh + 1)%N)
              (mkSpawnRequest (new_random (drawn sh)) b parent env)) l d)
  | m_slot p sh l d a s s' :
      p !! a = Some s → same_life s s' →
      mstep wid (mkMachine p sh l d) (mkMachine (<[a := s']> p) sh l d)
  | m_install p sh sh' l d req q env :
      queue_of (spawns sh) wid = req :: q →
      address_map sh' = address_map sh → drawn sh' = drawn sh → config sh' = config sh →
      spawns sh' = <[wid := q]> (spawns sh) →
      mstep wid (mkMachine p sh l d)
        (mkMachine (pool_insert p (mkSpawnRequest (sr_addr req) (sr_actor req) (sr_parent req) env))
           sh' l d)
  | m_start p sh l d a s s' :
      p !! a = Some s → started s = false → poisoned s = false →
      started s' = true → poisoned s' = false →
      mstep wid (mkMachine p sh l d) (mkMachine (<[a := s']> p) sh (l ++ [(a, OnStart)]) d)
  | m_handle p sh l d a s s' m :
      p !! a = Some s → started s = true → poisoned s = false → stopping s = false →
      same_life s s' →
      mstep wid (mkMachine p sh l d) (mkMachine (<[a := s']> p) sh (l ++ [(a, Handled m)]) d)
  | m_crash p sh l d a s s' :
      p !! a = Some s → started s = true → poisoned s = false →
      started s' = true → poisoned s' = true →
      mstep wid (mkMachine p sh l d) (mkMachine (<[a := s']> p) sh (l ++ [(a, Crashed)]) d)
  | m_stop p sh l d a s :
      p !! a = Some s → stopping s = true → poisoned s = false →
      mstep wid (mkMachine p sh l d)
        (mkMachine (delete a p) sh (l ++ [(a, OnStop)]) (d ++ [a]))
  | m_reap p sh l d a s :
      p !! a = Some s → poisoned s = true →
      mstep wid (mkMachine p sh l d) (mkMachine (delete a p) sh l (d ++ [a]))
  | m_unmap p sh l d a :
      mstep wid (mkMachine p sh l (a :: d))
        (mkMachine p (set_address_map sh (delete a (address_map sh))) l d).

Abbreviation msteps wid := (rtc (mstep wid)).

(** ** Callbacks *)

Lemma same_routes_refl sh : same_routes sh sh.
Proof. done. Qed.

Lemma same_routes_trans sh1 sh2 sh3 :
  same_routes sh1 sh2 → same_routes sh2 sh3 → same_routes sh1 sh3.
Proof. intros (?&?&?&?) (?&?&?&?). split_and!; congruence. Qed.

Lemma try_deliver_quiet sh a m : same_routes sh (try_deliver sh a m).1.
Proof. unfold try_deliver. repeat case_match; done. Qed.

Lemma route_nonlocal_quiet sh a m : same_routes sh (route_nonlocal remote_sink sh a m).1.
Proof. unfold route_nonlocal, try_deliver. repeat case_match; done. Qed.

Lemma send_any_quiet wid sh st a m :
  same_routes sh (send_any remote_sink wid sh st a m).1.1.
Proof.
  unfold send_any. pose proof (route_nonlocal_quiet sh a m).
  destruct (route_nonlocal remote_sink sh a m). repeat case_match; done.
Qed.

(** A callback only spawns. *)
Lemma run_prog_steps wid v prog sh st p l d :
  msteps wid (mkMachine p sh l d)
    (mkMachine p (run_prog new_random remote_sink wid v prog sh st).1.1 l d).
Proof.
  revert sh st; induction prog as
    [b|b|to m k IH|to k IH|child ov k IH|k IH|x k IH|k IH|a k IH|r k IH|b f k IH|k IH];
    intros sh st; cbn [run_prog]; [done|done|..].
  - destruct (may_send v m to); [|apply IH]. pose proof (send_any_quiet wid sh st to (PMessage m)).
    destruct (send_any _ _ _ _ _ _) as [[sh' st'] r]. eapply rtc_l; [by apply m_quiet|apply IH].
  - destruct (may_stop v to); [|apply IH]. pose proof (send_any_quiet wid sh st to PStop).
    destruct (send_any _ _ _ _ _ _) as [[sh' st'] r]. eapply rtc_l; [by apply m_quiet|apply IH].
  - destruct (may_spawn v); [|apply IH]. eapply rtc_l; [apply m_spawn|apply IH].
  - apply IH.
  - apply IH.
  - apply IH.
  - apply IH.
  - apply IH.
  - destruct (extension sh); [|done]. eapply rtc_l; [|apply IH]. by apply m_quiet.
  - apply IH.
Qed.

(** ** A turn *)

Lemma m_quiet' wid p sh sh' l d : same_routes sh sh' →
  msteps wid (mkMachine p sh l d) (mkMachine p sh' l d).
Proof. intros. by apply rtc_once, m_quiet. Qed.

Lemma same_life_refl s : same_life s s.
Proof. done. Qed.

Lemma same_life_trans s1 s2 s3 : same_life s1 s2 → same_life s2 s3 → same_life s1 s3.
Proof. intros (?&?&?) (?&?&?). split_and!; [congruence..|auto]. Qed.

Lemma stop_slot_life s x : same_life s (stop_slot s x).
Proof. by destruct x. Qed.

Lemma deliver_slot_life s m : same_life s (deliver_slot s m).
Proof. unfold deliver_slot. by destruct (suspended s), m. Qed.

Lemma count_message_life s name : same_life s (count_message s name).
Proof. unfold count_message. by destruct (_ || _). Qed.

Lemma settle_life addr st s : same_life s (settle addr st s).1.2.
Proof.
  unfold settle. destruct (take_stop_with st addr) as [st' x]. destruct (_ || _); cbn.
  - apply stop_slot_life.
  - by destruct (bool_decide _).
Qed.

Lemma settle_running addr st s :
  (settle addr st s).2 = Running → (settle addr st s).1.2 = s.
Proof.
  unfold settle. destruct (take_stop_with st addr) as [st' x]. destruct (_ || _); [done|].
  by destruct (bool_decide _).
Qed.

Lemma m_slot' wid p sh l d a s s' :
  p !! a = Some s → same_life s s' →
  msteps wid (mkMachine p sh l d) (mkMachine (<[a := s']> p) sh l d).
Proof. intros. by eapply rtc_once, m_slot. Qed.

(** A turn as steps: the slot of the actor changes in the pool as its callbacks run. *)
Definition turn_steps (wid : nat) (addr : ActorAddress) (t t' : Turn) : Prop :=
  ∃ new, t_calls t' = t_calls t ++ new ∧
    ∀ p l d, p !! addr = Some (t_slot t) →
      msteps wid (mkMachine p (t_shared t) l d)
        (mkMachine (<[addr := t_slot t']> p) (t_shared t') (l ++ (pair addr <$> new)) d).

Lemma turn_steps_trans wid addr t1 t2 t3 :
  turn_steps wid addr t1 t2 → turn_steps wid addr t2 t3 → turn_steps wid addr t1 t3.
Proof.
  intros (n1 & E1 & S1) (n2 & E2 & S2). exists (n1 ++ n2). split.
  - by rw E2 E1 assoc.
  - intros p l d Hp. etransitivity; [by apply S1|]. rw fmap_app assoc.
    rw -(insert_insert_eq p addr (t_slot t3) (t_slot t2)). apply S2. apply lookup_insert_eq.
Qed.

(** Nothing happens but to the slot, in ways that do not concern its life. *)
Lemma turn_steps_slot wid addr t t' :
  t_calls t' = t_calls t → same_routes (t_shared t) (t_shared t') →
  same_life (t_slot t) (t_slot t') → turn_steps wid addr t t'.
Proof.
  intros Ec Es El. exists []. split; [by rw app_nil_r|]. intros p l d Hp. cbn. rw app_nil_r.
  etransitivity; [by apply m_quiet'|]. by eapply m_slot'.
Qed.

Lemma settle_turn_steps wid addr t : turn_steps wid addr t (settle_turn addr t).1.
Proof.
  unfold settle_turn. pose proof (settle_life addr (t_staging t) (t_slot t)).
  destruct (settle _ _ _) as [[st s] v]. by apply turn_steps_slot.
Qed.

(** An actor that can handle messages. *)
Definition running (s : ActorSlot) : Prop :=
  started s = true ∧ poisoned s = false ∧ stopping s = false.

Lemma settle_turn_running addr t :
  (settle_turn addr t).2 = true → t_slot (settle_turn addr t).1 = t_slot t.
Proof.
  unfold settle_turn. pose proof (settle_running addr (t_staging t) (t_slot t)).
  destruct (settle _ _ _) as [[st s] []]; cbn in *; auto; done.
Qed.

Lemma crash_turn_steps wid addr t :
  started (t_slot t) = true → poisoned (t_slot t) = false →
  turn_steps wid addr t (crash_turn t).
Proof.
  intros Hst Hpo. exists [Crashed]. split; [done|]. intros p l d Hp. cbn.
  by eapply rtc_once, m_crash.
Qed.

(** The callback of message [msg] runs. *)
Lemma handled_steps wid addr t msg sh st s c :
  running (t_slot t) → same_life (t_slot t) s →
  (∀ p l d, msteps wid (mkMachine p (t_shared t) l d) (mkMachine p sh l d)) →
  turn_steps wid addr t (mkTurn sh st s c (t_calls t ++ [Handled msg])).
Proof.
  intros (Hst & Hpo & Hsp) Hl Hsh. exists [Handled msg]. split; [done|]. intros p l d Hp. cbn.
  etransitivity; [apply Hsh|]. by eapply rtc_once, m_handle.
Qed.

Lemma handle_one_steps wid addr v msg t :
  running (t_slot t) →
  let r := handle_one new_random remote_sink wid addr v msg t in
  turn_steps wid addr t r.1 ∧ (r.2 = true → running (t_slot r.1)).
Proof.
  intros Hr. pose proof Hr as (Hst & Hpo & Hsp). unfold handle_one. cbn zeta.
  destruct (handle_any (actor (t_slot t)) v msg) as [[prog name]|].
  - pose proof (λ p l d, run_prog_steps wid v prog (t_shared t) (t_staging t) p l d) as Hsh.
    destruct (run_prog _ _ _ _ _ _ _) as [[sh st] [b panicked]]; cbn [fst snd] in Hsh.
    destruct panicked.
    + split; [|done]. eapply turn_steps_trans;
        [by eapply (handled_steps wid addr t msg sh st (set_actor (t_slot t) b) (t_count t))|].
      by apply crash_turn_steps.
    + set (t1 := mkTurn _ _ _ _ _). split.
      * eapply turn_steps_trans; [|apply settle_turn_steps]. apply handled_steps; [done| |done].
        apply (count_message_life (set_actor (t_slot t) b)).
      * intros ->%settle_turn_running. cbn. unfold count_message. by destruct (_ || _).
  - set (t1 := mkTurn _ _ _ _ _). split.
    + eapply turn_steps_trans; [|apply settle_turn_steps]. by apply handled_steps.
    + by intros ->%settle_turn_running.
Qed.

Lemma handle_messages_steps wid addr budget n v box t :
  running (t_slot t) →
  turn_steps wid addr t (handle_messages new_random remote_sink wid addr budget n v box t).
Proof.
  revert n t; induction box as [|msg box IH]; intros n t Hr; cbn [handle_messages].
  { by apply turn_steps_slot. }
  set (t0 := set_t_slot t (set_mailbox (t_slot t) box)).
  assert (turn_steps wid addr t t0) as H0 by by apply turn_steps_slot.
  destruct (stop_sentinel msg) as [x|].
  { eapply turn_steps_trans; [done|]. apply turn_steps_slot; [done..|]. apply stop_slot_life. }
  destruct (handle_one_steps wid addr v msg t0 Hr) as [H1 Hr1].
  destruct (handle_one _ _ _ _ _ _ _) as [t1 go]; cbn [fst snd] in *.
  destruct (negb go || _) eqn:Eg.
  - by eapply turn_steps_trans.
  - eapply turn_steps_trans; [done|]. eapply turn_steps_trans; [done|]. apply IH, Hr1.
    by destruct go.
Qed.

Lemma start_actor_steps wid addr v t :
  started (t_slot t) = false → poisoned (t_slot t) = false → stopping (t_slot t) = false →
  let r := start_actor new_random remote_sink wid addr v t in
  turn_steps wid addr t r.1 ∧ (r.2 = true → running (t_slot r.1)).
Proof.
  intros Hst Hpo Hsp. unfold start_actor. cbn zeta.
  pose proof (λ p l d, run_prog_steps wid v (on_start (actor (t_slot t)) v)
    (t_shared t) (t_staging t) p l d) as Hsh.
  destruct (run_prog _ _ _ _ _ _ _) as [[sh st] [b panicked]]; cbn [fst snd] in Hsh.
  set (t1 := mkTurn _ _ _ _ _).
  assert (turn_steps wid addr t t1) as H1.
  { exists [OnStart]. split; [done|]. intros p l d Hp. cbn. etransitivity; [apply Hsh|].
    by eapply rtc_once, m_start. }
  destruct panicked.
  - split; [|done]. eapply turn_steps_trans; [done|]. by apply crash_turn_steps.
  - split; [eapply turn_steps_trans; [done|apply settle_turn_steps]|].
    by intros ->%settle_turn_running.
Qed.

Lemma tick_actor_steps wid budget addr sh st s :
  turn_steps wid addr (mkTurn sh st s 0 [])
    (tick_actor new_random remote_sink wid budget addr sh st s).
Proof.
  unfold tick_actor. destruct (should_skip_actor _ _ _) eqn:Esk.
  { destruct (poisoned s || stopping s); by apply turn_steps_slot. }
  unfold should_skip_actor in Esk.
  apply orb_false_iff in Esk as [[Hpo Hsp]%orb_false_iff Hsu].
  destruct (started s) eqn:Est; [by apply handle_messages_steps|].
  destruct (start_actor_steps wid addr (ctx_of addr s) (mkTurn sh st s 0 []) Est Hpo Hsp)
    as [H1 Hr].
  destruct (start_actor _ _ _ _ _ _) as [t1 []]; cbn [fst snd] in *; [|done].
  eapply turn_steps_trans; [done|]. by apply handle_messages_steps, Hr.
Qed.

(** ** The phases *)

Lemma tick_fold_steps wid budget xs P log d :
  NoDup xs.*1 → (∀ a s, (a, s) ∈ xs → p_pool P !! a = Some s) →
  let P' := foldl (tick_step new_random remote_sink wid budget) P xs in
  msteps wid (mkMachine (p_pool P) (p_shared P) (log ++ p_calls P) d)
    (mkMachine (p_pool P') (p_shared P') (log ++ p_calls P') d).
Proof.
  revert P; induction xs as [|[a s] xs IH]; intros P Hnd Hin; [done|].
  apply NoDup_cons in Hnd as [Ha Hnd]. cbn zeta. cbn [foldl tick_step].
  etransitivity; [|apply IH; [done|]].
  - destruct (tick_actor_steps wid budget a (p_shared P) (p_staging P) s) as (new & Ec & Hs).
    cbn in Ec. cbn [p_pool p_shared p_calls]. rw Ec assoc. apply Hs. apply Hin. by left.
  - intros b s' Hb. cbn [p_pool]. rw lookup_insert_ne; [|apply Hin; by right].
    intros <-. apply Ha. apply list_elem_of_fmap. by exists (a, s').
Qed.

Lemma tick_all_steps wid budget p sh log d :
  let P := tick_all new_random remote_sink wid budget p sh in
  msteps wid (mkMachine p sh log d) (mkMachine (p_pool P) (p_shared P) (log ++ p_calls P) d).
Proof.
  pose proof (tick_fold_steps wid budget (hash_iter p) (mkPass p sh no_staging 0 []) log d
    (hash_iter_nodup ord p)) as Hs. cbn in Hs. rw app_nil_r in Hs. apply Hs.
  intros a s. by rw elem_of_hash_iter.
Qed.

Lemma deliver_steps wid p sh l d a m :
  msteps wid (mkMachine p sh l d) (mkMachine (deliver p a m).1 sh l d).
Proof.
  unfold deliver. destruct (p !! a) as [s|] eqn:E; [|done]. eapply m_slot'; [done|].
  apply deliver_slot_life.
Qed.

Lemma deliver_or_defer_steps wid p sh df e l d :
  msteps wid (mkMachine p sh l d)
    (mkMachine (deliver_or_defer_transfer wid p sh df e).1.1 sh l d).
Proof.
  unfold deliver_or_defer_transfer. destruct (contains p (dest e)); [apply deliver_steps|].
  by case_decide.
Qed.

Lemma route_runtime_steps wid p sh a m l d :
  let r := route_runtime_message remote_sink p sh a m in
  msteps wid (mkMachine p sh l d) (mkMachine r.1 r.2 l d).
Proof.
  cbn zeta. unfold route_runtime_message. destruct (contains p a); [apply deliver_steps|].
  destruct (address_map sh !! a); apply m_quiet'; [done|apply route_nonlocal_quiet].
Qed.

Lemma route_all_steps wid p sh msgs l d :
  let r := route_all remote_sink p sh msgs in
  msteps wid (mkMachine p sh l d) (mkMachine r.1 r.2 l d).
Proof.
  cbn zeta. unfold route_all. revert p sh. induction msgs as [|m msgs IH]; intros p sh; [done|].
  cbn. pose proof (route_runtime_steps wid p sh m.1 m.2 l d) as H1.
  destruct (route_runtime_message _ _ _ _ _) as [p' sh']. etransitivity; [exact H1|apply IH].
Qed.

Lemma deliver_staged_steps wid p sh df msgs l d :
  msteps wid (mkMachine p sh l d) (mkMachine (deliver_staged wid p sh df msgs).1 sh l d).
Proof.
  unfold deliver_staged. revert p df. induction msgs as [|m msgs IH]; intros p df; [done|].
  cbn. pose proof (deliver_or_defer_steps wid p sh df (mkEnvelope m.1 m.2) l d) as H1.
  destruct (deliver_or_defer_transfer _ _ _ _ _) as [[p' df'] b].
  etransitivity; [exact H1|apply IH].
Qed.

(** [n] actors are installed from the front of the queue. *)
Lemma install_steps wid n p sh l d :
  n ≤ length (queue_of (spawns sh) wid) → wid < length (spawns sh) →
  let q := queue_of (spawns sh) wid in
  let r := foldl install (p, set_spawns sh (<[wid := drop n q]> (spawns sh))) (take n q) in
  msteps wid (mkMachine p sh l d) (mkMachine r.1 r.2 l d).
Proof.
  revert p sh; induction n as [|n IH]; intros p sh Hn Hw; cbn zeta.
  - cbn. apply m_quiet'. split_and!; try done. cbn. apply list_insert_id. unfold queue_of.
    destruct (lookup_lt_is_Some_2 _ _ Hw) as [q Hq]. by rw Hq.
  - destruct (queue_of (spawns sh) wid) as [|req q] eqn:Eq; [cbn in Hn; lia|].
    cbn [take drop foldl].
    set (sh1 := set_spawns sh (<[wid := q]> (spawns sh))).
    assert (∃ env ext, install (p, set_spawns sh (<[wid := drop n q]> (spawns sh))) req =
      (pool_insert p (mkSpawnRequest (sr_addr req) (sr_actor req) (sr_parent req) env),
       set_spawns (set_extension sh1 ext) (<[wid := drop n q]> (spawns sh)))) as (env & ext & ->).
    { cbn. destruct (extension sh) as [e|] eqn:Ee.
      - destruct (on_spawn e _ _ _) as [e' env]. by exists env, (Some e').
      - exists (sr_env req), None. destruct req; cbn. f_equal.
        unfold set_spawns, set_extension, sh1. cbn. by rw Ee. }
    set (sh2 := set_extension sh1 ext).
    assert (queue_of (spawns sh2) wid = q) as Eq2.
    { cbn. unfold queue_of. by rw list_lookup_insert_eq. }
    etransitivity.
    { apply rtc_once. apply (m_install wid p sh sh2 l d req q env); try done. }
    assert (<[wid := drop n q]> (spawns sh) = <[wid := drop n q]> (spawns sh2)) as ->.
    { cbn. by rw list_insert_insert_eq. }
    pose proof (IH (pool_insert p (mkSpawnRequest (sr_addr req) (sr_actor req) (sr_parent req) env))
      sh2) as IH'. cbn zeta in IH'. rw Eq2 in IH'. apply IH'; [cbn in Hn; lia|].
    cbn. by rw length_insert.
Qed.

Lemma drain_spawns_steps wid budget p sh l d :
  wid < length (spawns sh) →
  let r := drain_spawns wid budget p sh in
  msteps wid (mkMachine p sh l d) (mkMachine r.1.1 r.1.2 l d).
Proof.
  intros Hw. cbn zeta. unfold drain_spawns.
  pose proof (install_steps wid (allowance budget 0 (length (queue_of (spawns sh) wid))) p sh l d)
    as Hi. cbn zeta in Hi.
  destruct (foldl install _ _) as [p' sh']; cbn [fst snd] in *. apply Hi; [|done].
  unfold allowance. case_match; lia.
Qed.

Lemma drain_deferred_steps wid sh fuel p df b l d :
  msteps wid (mkMachine p sh l d) (mkMachine (drain_deferred wid sh fuel p df b).1.1.1 sh l d).
Proof.
  revert p df b; induction fuel as [|fuel IH]; intros p [|e df] b; try done. cbn [drain_deferred].
  pose proof (deliver_or_defer_steps wid p sh df e l d) as H1.
  destruct (deliver_or_defer_transfer _ _ _ _ _) as [[p' df'] b'].
  etransitivity; [exact H1|apply IH].
Qed.

Lemma drain_transfers_steps wid budget p sh df l d :
  let r := drain_transfers wid budget p sh df in
  msteps wid (mkMachine p sh l d) (mkMachine r.1.1.1 r.1.1.2 l d).
Proof.
  cbn zeta. unfold drain_transfers.
  pose proof (drain_deferred_steps wid sh (if budget =? 0 then length df else budget) p df false l d)
    as H1.
  destruct (drain_deferred _ _ _ _ _ _) as [[[p1 df1] b1] k]; cbn [fst snd] in H1.
  set (m := if budget =? 0 then _ else _). set (q := queue_of _ _).
  assert (∀ es p df, msteps wid (mkMachine p sh l d) (mkMachine
    (foldl (λ acc e, (deliver_or_defer_transfer wid acc.1 sh acc.2 e).1) (p, df) es).1 sh l d)) as H2.
  { induction es as [|e es IH]; intros p0 df0; [done|]. cbn.
    pose proof (deliver_or_defer_steps wid p0 sh df0 e l d) as He.
    destruct (deliver_or_defer_transfer _ _ _ _ _) as [[p' df'] b'].
    etransitivity; [exact He|apply IH]. }
  specialize (H2 (take m q) p1 df1). destruct (foldl _ _ _) as [p2 df2]; cbn [fst snd] in *.
  etransitivity; [exact H1|]. etransitivity; [exact H2|]. by apply m_quiet'.
Qed.

Lemma operate_steps wid p a f sh l d :
  (∀ s, same_life s (f s)) → msteps wid (mkMachine p sh l d) (mkMachine (operate p a f).1 sh l d).
Proof.
  intros Hf. unfold operate. destruct (p !! a) as [s|] eqn:E; [|done]. by eapply m_slot'.
Qed.

Lemma apply_admin_steps wid p sh cmd l d :
  let r := apply_admin_command wid p sh cmd in
  msteps wid (mkMachine p sh l d) (mkMachine r.1 r.2 l d).
Proof.
  cbn zeta. assert (∀ p' sh', same_routes sh sh' →
    msteps wid (mkMachine p sh l d) (mkMachine p' sh l d) →
    msteps wid (mkMachine p sh l d) (mkMachine p' sh' l d)) as Hq.
  { intros p' sh' Hsh Hs. etransitivity; [exact Hs|by apply m_quiet']. }
  assert (∀ a f, (∀ s, same_life s (f s)) →
    msteps wid (mkMachine p sh l d) (mkMachine (operate p a f).1 sh l d)) as Ho.
  { intros. by apply operate_steps. }
  destruct cmd as [acc|a r|a r t|a r b|a r|a r|a r]; cbn [apply_admin_command].
  - apply Hq; [|done]. unfold list_actors_part. destruct (censuses sh !! acc); [|done].
    case_match; [|done]. case_match; [done|]. apply (try_deliver_quiet (set_censuses _ _)).
  - apply Hq; [apply try_deliver_quiet|done].
  - apply Hq; [apply try_deliver_quiet|done].
  - destruct (p !! a) as [s|] eqn:E; [destruct (same_type _ _)|];
      (apply Hq; [apply try_deliver_quiet|]); try done. by eapply m_slot'.
  - specialize (Ho a (λ s, stop_slot s None)). unfold stop_actor_admin.
    destruct (operate _ _ _) as [p' r']. apply Hq; [apply try_deliver_quiet|]. apply Ho.
    intros s. apply stop_slot_life.
  - specialize (Ho a (λ s, set_suspended s true)). unfold suspend_actor_admin.
    destruct (operate _ _ _) as [p' r']. apply Hq; [apply try_deliver_quiet|]. by apply Ho.
  - specialize (Ho a (λ s, set_suspended s false)). unfold resume_actor_admin.
    destruct (operate _ _ _) as [p' r']. apply Hq; [apply try_deliver_quiet|]. by apply Ho.
Qed.

Lemma apply_or_defer_admin_steps wid p sh df cmd l d :
  let r := apply_or_defer_admin_command wid p sh df cmd in
  msteps wid (mkMachine p sh l d) (mkMachine r.1.1.1 r.1.1.2 l d).
Proof.
  cbn zeta. unfold apply_or_defer_admin_command.
  destruct (should_defer_admin_command _ _ _ _); [done|].
  pose proof (apply_admin_steps wid p sh cmd l d) as H1. by destruct (apply_admin_command _ _ _ _).
Qed.

Lemma drain_deferred_admin_steps wid fuel p sh df b l d :
  let r := drain_deferred_admin wid fuel p sh df b in
  msteps wid (mkMachine p sh l d) (mkMachine r.1.1.1.1 r.1.1.1.2 l d).
Proof.
  cbn zeta. revert p sh df b; induction fuel as [|fuel IH]; intros p sh [|cmd df] b; try done.
  cbn [drain_deferred_admin]. pose proof (apply_or_defer_admin_steps wid p sh df cmd l d) as H1.
  destruct (apply_or_defer_admin_command _ _ _ _ _) as [[[p' sh'] df'] b'].
  etransitivity; [exact H1|apply IH].
Qed.

Lemma drain_admin_steps wid budget p sh df l d :
  let r := drain_admin wid budget p sh df in
  msteps wid (mkMachine p sh l d) (mkMachine r.1.1.1 r.1.1.2 l d).
Proof.
  cbn zeta. unfold drain_admin.
  pose proof (drain_deferred_admin_steps wid (if budget =? 0 then length df else budget)
    p sh df false l d) as H1.
  destruct (drain_deferred_admin _ _ _ _ _ _) as [[[[p1 sh1] df1] b1] k]; cbn [fst snd] in H1.
  set (m := if budget =? 0 then _ else _). set (q := queue_of _ _).
  assert (∀ cs p sh df, let r := foldl (λ acc cmd, let '(p, sh, d) := acc in
      (apply_or_defer_admin_command wid p sh d cmd).1) (p, sh, df) cs in
    msteps wid (mkMachine p sh l d) (mkMachine r.1.1 r.1.2 l d)) as H2.
  { induction cs as [|c cs IH]; intros p0 sh0 df0; [done|]. cbn zeta. cbn [foldl].
    pose proof (apply_or_defer_admin_steps wid p0 sh0 df0 c l d) as He.
    destruct (apply_or_defer_admin_command _ _ _ _ _) as [[[p' sh'] df'] b'].
    etransitivity; [exact He|apply IH]. }
  set (sh2 := set_admins sh1 _).
  specialize (H2 (take m q) p1 sh2 df1). cbn zeta in H2.
  destruct (foldl _ _ _) as [[p2 sh3] df2]; cbn [fst snd] in *.
  etransitivity; [exact H1|]. etransitivity; [|exact H2]. by apply m_quiet'.
Qed.

Lemma cleanup_fold_steps wid addrs P dead log :
  NoDup addrs → (∀ a, a ∈ addrs → ∃ s, p_pool P !! a = Some s ∧ is_dead s = true) →
  let r := foldl (cleanup_step new_random remote_sink wid) (P, dead) addrs in
  msteps wid (mkMachine (p_pool P) (p_shared P) (log ++ p_calls P) (dead_addrs dead))
    (mkMachine (p_pool r.1) (p_shared r.1) (log ++ p_calls r.1) (dead_addrs r.2)).
Proof.
  revert P dead; induction addrs as [|a addrs IH]; intros P dead Hnd Hin; [done|].
  apply NoDup_cons in Hnd as [Ha Hnd]. cbn zeta. cbn [foldl cleanup_step].
  destruct (Hin a) as (s & Hs & Hd); [by left|]. rw Hs.
  assert (∀ P1, p_pool P1 = delete a (p_pool P) → ∀ b, b ∈ addrs →
    ∃ s, p_pool P1 !! b = Some s ∧ is_dead s = true) as Hin'.
  { intros P1 -> b Hb. destruct (Hin b) as (s' & Hs' & ?); [by right|]. exists s'.
    split; [|done]. rw lookup_delete_ne //. by intros ->. }
  set (dead1 := dead ++ [_]).
  assert (dead_addrs dead1 = dead_addrs dead ++ [a]) as Ed.
  { unfold dead_addrs, dead1. by rw fmap_app. }
  destruct (is_on_stop_eligible (stopping s) (poisoned s)) eqn:Ee.
  - apply andb_true_iff in Ee as [Hst Hpo%negb_true_iff].
    pose proof (run_prog_steps wid (ctx_of a s) (on_stop (actor s) (ctx_of a s))
      (p_shared P) (p_staging P) (delete a (p_pool P)) (log ++ p_calls P ++ [(a, OnStop)])
      (dead_addrs dead1)) as Hp.
    destruct (run_prog _ _ _ _ _ _ _) as [[sh st] r]; cbn [fst snd] in Hp.
    etransitivity; [|apply IH; [done|by apply Hin']]. cbn [p_pool p_shared p_calls].
    etransitivity; [|exact Hp]. rw Ed assoc. apply rtc_once. by eapply m_stop.
  - etransitivity; [|apply IH; [done|by apply Hin']]. cbn [p_pool p_shared p_calls].
    rw Ed. apply rtc_once. eapply m_reap; [done|]. unfold is_dead in Hd.
    unfold is_on_stop_eligible in Ee. by destruct (poisoned s), (stopping s).
Qed.

Lemma cleanup_dead_steps wid p sh log :
  let r := cleanup_dead new_random remote_sink wid p sh in
  msteps wid (mkMachine p sh log [])
    (mkMachine (p_pool r.1) (p_shared r.1) (log ++ p_calls r.1) (dead_addrs r.2)).
Proof.
  cbn zeta. unfold cleanup_dead. set (addrs := (filter _ _).*1).
  pose proof (cleanup_fold_steps wid addrs (mkPass p sh no_staging 0 []) [] log) as Hs.
  cbn in Hs. rw app_nil_r in Hs. apply Hs.
  - unfold addrs. eapply sublist_NoDup; [apply (hash_iter_nodup ord p)|].
    apply fmap_sublist, sublist_filter.
  - intros a ([b s] & -> & [Hd Hb]%list_elem_of_filter)%list_elem_of_fmap.
    exists s. by rw elem_of_hash_iter in Hb.
Qed.

Lemma unmap_steps wid p sh l ds :
  msteps wid (mkMachine p sh l ds)
    (mkMachine p (set_address_map sh (foldl (λ m a, delete a m) (address_map sh) ds)) l []).
Proof.
  revert sh; induction ds as [|a ds IH]; intros sh; [by apply m_quiet'|].
  eapply rtc_l; [apply m_unmap|]. apply (IH (set_address_map sh (delete a (address_map sh)))).
Qed.

Lemma cleanup_dead_actors_steps wid p sh wext df log :
  let r := cleanup_dead_actors new_random remote_sink wid p sh wext df in
  msteps wid (mkMachine p sh log [])
    (mkMachine r.1.1.1.1.1 r.1.1.1.1.2 (log ++ r.1.2) []).
Proof.
  cbn zeta. unfold cleanup_dead_actors. pose proof (cleanup_dead_steps wid p sh log) as H1.
  destruct (cleanup_dead _ _ _ _ _) as [P dead]; cbn [fst snd] in H1.
  set (l := log ++ p_calls P) in *.
  set (r := if negb _ then _ else _).
  assert (msteps wid (mkMachine (p_pool P) (p_shared P) l (dead_addrs dead))
    (mkMachine r.1 r.2 l [])) as H2.
  { subst r. case_bool_decide as Ed; cbn [negb].
    - subst dead. by apply m_quiet'.
    - set (sh1 := set_address_map _ _).
      assert (msteps wid (mkMachine (p_pool P) (p_shared P) l (dead_addrs dead))
        (mkMachine (p_pool P) sh1 l [])) as Hu by apply unmap_steps.
      etransitivity; [exact Hu|]. destruct (extension sh1) as [e|]; [|done].
      destruct (on_actor_death e dead) as [e' notes].
      etransitivity; [|apply route_all_steps]. by apply m_quiet'. }
  destruct r as [p2 sh2]; cbn [fst snd] in H2.
  pose proof (deliver_staged_steps wid p2 sh2 df (pending_local (p_staging P)) l []) as H3.
  destruct (deliver_staged _ _ _ _ _) as [p3 df3]; cbn [fst snd] in *.
  etransitivity; [exact H1|]. etransitivity; [exact H2|exact H3].
Qed.

Lemma msteps_spawns_length wid m m' :
  msteps wid m m' → length (spawns (m_shared m')) = length (spawns (m_shared m)).
Proof.
  induction 1 as [|m1 m2 m3 Hs _ IH]; [done|]. rw IH.
  destruct Hs; cbn in *; unfold same_routes in *; destruct_and?; try done; try congruence.
  - unfold push_to. by rw length_alter.
  - match goal with E : spawns _ = _ |- _ => rw E end. apply length_insert.
Qed.

Lemma msteps_config wid m m' :
  msteps wid m m' → config (m_shared m') = config (m_shared m).
Proof.
  induction 1 as [|m1 m2 m3 Hs _ IH]; [done|]. rw IH.
  destruct Hs; cbn in *; unfold same_routes in *; destruct_and?; done.
Qed.

(** Every pass is a sequence of steps. *)
Lemma run_pass_steps sh w log :
  id w < length (spawns sh) →
  let r := run_pass new_random remote_sink sh w in
  id r.1.1.2 = id w ∧
  msteps (id w) (mkMachine (pool w) sh log [])
    (mkMachine (pool r.1.1.2) r.1.1.1 (log ++ r.1.2) []).
Proof.
  intros Hw. cbn zeta. unfold run_pass. set (wid := id w) in *. set (ib := worker_ingress_budget _).
  pose proof (drain_spawns_steps wid ib (pool w) sh log [] Hw) as S1.
  destruct (drain_spawns wid ib (pool w) sh) as [[p1 sh1] b1]; cbn [fst snd] in S1.
  pose proof (drain_transfers_steps wid ib p1 sh1 (deferred_transfers w) log []) as S2.
  destruct (drain_transfers _ _ _ _ _) as [[[p2 sh2] df] b2]; cbn [fst snd] in S2.
  pose proof (drain_admin_steps wid ib p2 sh2 (deferred_admin w) log []) as S3.
  destruct (drain_admin _ _ _ _ _) as [[[p3 sh3] da] b3]; cbn [fst snd] in S3.
  destruct (tick_worker_ext _) as [wext ext_msgs].
  pose proof (route_all_steps wid p3 sh3 ext_msgs log []) as S4.
  destruct (route_all _ _ _ _) as [p4 sh4]; cbn [fst snd] in S4.
  pose proof (tick_all_steps wid (actor_message_budget (config sh4)) p4 sh4 log []) as S5.
  cbn zeta in S5. set (P := tick_all _ _ _ _ _ _) in *.
  assert (msteps wid (mkMachine (pool w) sh log [])
    (mkMachine (p_pool P) (p_shared P) (log ++ p_calls P) [])) as S15.
  { etransitivity; [exact S1|]. etransitivity; [exact S2|]. etransitivity; [exact S3|].
    etransitivity; [exact S4|exact S5]. }
  assert (wid < length (spawns (p_shared P))) as Hw5.
  { apply msteps_spawns_length in S15. cbn in S15. lia. }
  pose proof (drain_spawns_steps wid ib (p_pool P) (p_shared P) (log ++ p_calls P) [] Hw5) as S6.
  destruct (drain_spawns _ _ _ _) as [[p6 sh6] b6]; cbn [fst snd] in S6.
  pose proof (deliver_staged_steps wid p6 sh6 df (pending_local (p_staging P))
    (log ++ p_calls P) []) as S7.
  destruct (deliver_staged _ _ _ _ _) as [p7 df7]; cbn [fst snd] in S7.
  set (wext' := _ <$> wext).
  pose proof (cleanup_dead_actors_steps wid p7 sh6 wext' df7 (log ++ p_calls P)) as S9.
  destruct (cleanup_dead_actors _ _ _ _ _ _ _) as [[[[[p9 sh9] we9] df9] stops] b9];
    cbn [fst snd] in *. split; [done|]. cbn [pool]. rw assoc.
  etransitivity; [exact S15|]. etransitivity; [exact S6|].
  etransitivity; [exact S7|exact S9].
Qed.

Lemma try_tick_steps sh w log :
  id w < length (spawns sh) →
  let r := try_tick new_random remote_sink sh w in
  id r.1.1.2 = id w ∧
  msteps (id w) (mkMachine (pool w) sh log [])
    (mkMachine (pool r.1.1.2) r.1.1.1 (log ++ r.1.2) []).
Proof.
  intros Hw. unfold try_tick. destruct (has_work sh w); [by apply run_pass_steps|].
  cbn. by rw app_nil_r.
Qed.
End machine.
