(* ===== verification/DemoActors.v ===== *)
(** * A small cast of actors

    Concrete actor code for the witnesses of the theorems about the runtime, all of which
    hold for arbitrary actors. *)

From S2P Require Import Prelude Actor Worker Runtime.
#[local] Open Scope nat_scope.

(** A plain actor panics on message 13 and stops itself on message 7; a burst spawns
    children when it starts and sends the last of them a list of messages. *)
Inductive Demo :=
  | Plain
  | Burst (children : nat) (msgs : list N).

#[export] Instance demo_universe : Universe :=
  {| Behaviour := Demo; UserMsg := N; ExtState := unit; Request := unit |}.

Fixpoint send_each (to : ActorAddress) (msgs : list N) (b : Demo) : Prog :=
  match msgs with
  | [] => Ret b
  | m :: msgs => Send to (MUser m) (λ _, send_each to msgs b)
  end.

Fixpoint burst (children : nat) (msgs : list N) (b : Demo) : Prog :=
  match children with
  | 0 => Ret b
  | S n =>
      Spawn Plain ∅ (λ child,
        if n =? 0
        then match child with Some a => send_each a msgs b | None => Ret b end
        else burst n msgs b)
  end.

Definition demo_handle (b : Demo) (m : Message) : Prog :=
  match m with
  | MUser 13%N => Panic b
  | MUser 7%N => StopSelf (Ret b)
  | _ => Ret b
  end.

Definition demo_metadata (b : Demo) : ActorTypeMetadata :=
  mkMetadata (match b with Plain => 1 | Burst _ _ => 2 end)%N "Demo"%string 3%N "u64"%string.

#[export] Instance demo_actors : ActorInterface := {|
  type_of _ := 3%N;
  incoming _ m := match m with MUser _ => true | _ => false end;
  metadata := demo_metadata;
  handle b _ m := demo_handle b m;
  on_start b _ := match b with Burst n ms => burst n ms b | Plain => Ret b end;
  on_stop b _ := Ret b;
  handle_down b _ _ := Ret b;
  on_actor_exit b _ _ := Ret b;
|}.

#[export] Instance demo_extension : RuntimeExtension := {|
  on_actor_death e _ := (e, []);
  ext_cleanup_dead e _ := e;
  on_spawn e _ _ env := (e, env);
|}.

#[export] Instance demo_worker_extension : WorkerExtension := {|
  WExt := unit;
  has_pending_work _ := false;
  on_tick x := (x, []);
  handle_request x _ := x;
  gc_dead x _ := x;
|}.

#[export] Instance demo_order : HashOrder ActorAddress ActorSlot := default_order _ _.
#[export] Instance demo_order_types : HashOrder string N := default_order _ _.

(** The number of an address is its position in the sequence drawn. *)
Definition demo_random (n : N) : ActorAddress := n.

#[export] Instance demo_random_inj : Inj (=) (=) demo_random.
Proof. by intros x y. Qed.

Definition demo_config (ingress : nat) : RuntimeConfig := mkRuntimeConfig 64 1 ingress.

Definition demo_system (ingress : nat) : System :=
  default (mkSystem (mkShared (demo_config ingress) ∅ ∅ None [] [] [] 0 ∅ [] 0) [])
    (new_runtime (demo_config ingress)).

Definition demo_run (ingress : nat) (ops : list Op)
    : System * list (ActorAddress * Callback) :=
  run demo_random None (demo_system ingress) ops.

(** An actor is spawned, handles message 1, and stops itself on message 7. *)
Definition demo_life : list Op :=
  [OpSpawn Plain ∅; OpSend 0%N (MUser 1%N); OpSend 0%N (MUser 7%N); OpTick 0; OpTick 0].

(** It crashes on message 13 before message 1 is handled. *)
Definition demo_crash : list Op :=
  [OpSpawn Plain ∅; OpSend 0%N (MUser 13%N); OpSend 0%N (MUser 1%N); OpTick 0; OpTick 0].

(** Two actors, of which one stops itself; two more passes reap it. *)
Definition demo_settled : list Op :=
  OpSpawn Plain ∅ :: demo_life ++ [OpTick 0; OpTick 0].
