(* ===== verification/RuntimeLife.v ===== *)
(** * Routes and lives

    What holds of a runtime after any history: a route leads to exactly the actors that
    are in the pool of a worker or on their way to it, and the callbacks of an actor come
    in the order of its life.  Both are invariants of the steps of [PassMachine]. *)

From S2P Require Import Prelude Actor Worker Runtime PassMachine.
#[local] Open Scope nat_scope.

Section life.
Context `{U : Universe}.
Context `{AI : !ActorInterface} `{RE : !RuntimeExtension} `{WE : !WorkerExtension}.
Context (new_random : N → ActorAddress) `{!Inj (=) (=) new_random}.
Context (remote_sink : option (ActorAddress → Payload → bool)).
Context {ord : HashOrder ActorAddress ActorSlot} {ord_types : HashOrder string N}.

(** The callbacks of one actor. *)
Definition calls_of (a : ActorAddress) (log : list (ActorAddress * Callback)) : list Callback :=
  snd <$> filter (λ c, c.1 = a) log.

Definition is_handled (c : Callback) : Prop := ∃ m, c = Handled m.

(** The callbacks of an actor's life: it may be stopped before it starts; otherwise it
    starts once, handles messages, and ends with a crash or a stop, if at all. *)
Definition lifecycle (t : list Callback) : Prop :=
  t = [] ∨ t = [OnStop] ∨
  ∃ hs, Forall is_handled hs ∧
    (t = OnStart :: hs ∨ t = OnStart :: hs ++ [Crashed] ∨ t = OnStart :: hs ++ [OnStop]).

(** The callbacks an actor in the pool has had. *)
Definition slot_trace (s : ActorSlot) (t : list Callback) : Prop :=
  started s = false ∧ poisoned s = false ∧ t = [] ∨
  started s = true ∧ ∃ hs, Forall is_handled hs ∧
    t = OnStart :: hs ++ (if poisoned s then [Crashed] else []).

(** The actors on their way to the pool of worker [j]. *)
Definition spawning (j : nat) (sh : Shared) : list ActorAddress :=
  sr_addr <$> queue_of (spawns sh) j.

Definition pools_with (pools : nat → gmap ActorAddress ActorSlot) (wid : nat)
    (p : gmap ActorAddress ActorSlot) (j : nat) : gmap ActorAddress ActorSlot :=
  if j =? wid then p else pools j.

(** The invariant, while worker [wid] is in a pass in which the actors [dead] have left
    its pool. *)
Record live (pools : nat → gmap ActorAddress ActorSlot) (wid : nat) (m : Machine) : Prop := {
  live_map a j : address_map (m_shared m) !! a = Some j ↔
    is_Some (pools_with pools wid (m_pool m) j !! a) ∨ a ∈ spawning j (m_shared m) ∨
    j = wid ∧ a ∈ m_dead m;
  live_drawn a j : address_map (m_shared m) !! a = Some j →
    ∃ k, (k < drawn (m_shared m))%N ∧ a = new_random k;
  live_queue j : NoDup (spawning j (m_shared m));
  live_dead : NoDup (m_dead m);
  live_apart j a : is_Some (pools_with pools wid (m_pool m) j !! a) → a ∉ spawning j (m_shared m);
  live_gone a : a ∈ m_dead m → m_pool m !! a = None ∧ a ∉ spawning wid (m_shared m);
  live_trace j a s : pools_with pools wid (m_pool m) j !! a = Some s →
    slot_trace s (calls_of a (m_calls m));
  live_new j a : a ∈ spawning j (m_shared m) → calls_of a (m_calls m) = [];
  live_undrawn a : (∀ k, (k < drawn (m_shared m))%N → a ≠ new_random k) →
    calls_of a (m_calls m) = [];
  live_cycle a : lifecycle (calls_of a (m_calls m));
  live_size : wid < length (spawns (m_shared m));
}.

Lemma calls_of_app a l1 l2 : calls_of a (l1 ++ l2) = calls_of a l1 ++ calls_of a l2.
Proof. unfold calls_of. by rw filter_app fmap_app. Qed.

Lemma calls_of_own a evs : calls_of a (pair a <$> evs) = evs.
Proof.
  unfold calls_of. induction evs as [|e evs IH]; [done|].
  rw fmap_cons filter_cons_True // fmap_cons. by f_equal.
Qed.

Lemma calls_of_other a b evs : a ≠ b → calls_of b (pair a <$> evs) = [].
Proof.
  intros Hne. unfold calls_of. induction evs as [|e evs IH]; [done|].
  by rw fmap_cons filter_cons_False.
Qed.

Lemma slot_trace_lifecycle s t : slot_trace s t → lifecycle t.
Proof.
  intros [(_ & _ & ->)|(_ & hs & Hhs & ->)]; [by left|]. right; right. exists hs.
  split; [done|]. destruct (poisoned s); [by right; left|]. rw app_nil_r. by left.
Qed.

Lemma pools_with_own pools wid p : pools_with pools wid p wid = p.
Proof. unfold pools_with. by rw Nat.eqb_refl. Qed.

Lemma pools_with_other pools wid p j : j ≠ wid → pools_with pools wid p j = pools j.
Proof. intros Hj. unfold pools_with. by apply Nat.eqb_neq in Hj as ->. Qed.

(** No actor is in two places. *)
Lemma live_unique pools wid m a i j :
  live pools wid m →
  is_Some (pools_with pools wid (m_pool m) i !! a) →
  is_Some (pools_with pools wid (m_pool m) j !! a) ∨ a ∈ spawning j (m_shared m) → i = j.
Proof.
  intros Hl Hi Hj.
  assert (address_map (m_shared m) !! a = Some i) as Ei by (apply (live_map _ _ _ Hl); auto).
  assert (address_map (m_shared m) !! a = Some j) as Ej.
  { apply (live_map _ _ _ Hl). tauto. }
  congruence.
Qed.

(** Callbacks of an actor in the pool of the worker. *)
Lemma live_calls pools wid m a s s' evs :
  live pools wid m → m_pool m !! a = Some s →
  (∀ t, slot_trace s t → slot_trace s' (t ++ evs)) →
  live pools wid
    (mkMachine (<[a := s']> (m_pool m)) (m_shared m) (m_calls m ++ (pair a <$> evs)) (m_dead m)).
Proof.
  intros Hl Hs Ht. pose proof Hl as [Hmap Hdr Hq Hd Hap Hg Htr Hn Hu Hc Hsz].
  set (p' := <[a := s']> (m_pool m)).
  assert (∀ j b, is_Some (pools_with pools wid p' j !! b) ↔
    is_Some (pools_with pools wid (m_pool m) j !! b)) as Hp.
  { intros j b. unfold pools_with. case_match; [|done]. unfold p'.
    destruct (decide (a = b)) as [<-|]; [rw lookup_insert_eq Hs|by rw lookup_insert_ne].
    split; by eexists. }
  assert (∀ b, b ≠ a → calls_of b (m_calls m ++ (pair a <$> evs)) = calls_of b (m_calls m)) as Ho.
  { intros b Hb. rw calls_of_app calls_of_other; [congruence|]. by rw app_nil_r. }
  assert (calls_of a (m_calls m ++ (pair a <$> evs)) = calls_of a (m_calls m) ++ evs) as Ea.
  { by rw calls_of_app calls_of_own. }
  assert (slot_trace s' (calls_of a (m_calls m) ++ evs)) as Ha.
  { apply Ht. apply (Htr wid). by rw pools_with_own. }
  assert (is_Some (pools_with pools wid (m_pool m) wid !! a)) as Hin by (rw pools_with_own; by eexists).
  split; cbn [m_pool m_shared m_calls m_dead]; try done.
  - intros b j. rw Hmap Hp //.
  - intros j b. rw Hp. apply Hap.
  - intros b Hb. destruct (Hg b Hb) as [E ?]. split; [|done]. unfold p'.
    rw lookup_insert_ne //. intros <-. congruence.
  - intros j b s1. destruct (decide (b = a)) as [->|Hb].
    + destruct (decide (j = wid)) as [->|Hj].
      * rw pools_with_own /p' lookup_insert_eq. intros [= <-]. by rw Ea.
      * intros Hj'. destruct Hj. symmetry. eapply (live_unique pools wid m a); [done..|].
        left. rw -Hp. by eexists.
    + rw Ho //. unfold pools_with, p'. case_match eqn:Ej; [|by intros; eapply (Htr j);
        unfold pools_with; rw Ej].
      rw lookup_insert_ne //. intros. apply (Htr wid). by rw pools_with_own.
  - intros j b Hb. rw Ho; [|by eapply Hn]. intros ->.
    assert (wid = j) as <- by (eapply (live_unique pools wid m a); [done..|by right]).
    by eapply Hap.
  - intros b Hb. rw Ho; [|by apply Hu]. intros ->.
    destruct (Hdr a wid) as (k & Hk & ->); [apply Hmap; by left|]. by eapply Hb.
  - intros b. destruct (decide (b = a)) as [->|Hb]; [|by rw Ho].
    rw Ea. by eapply slot_trace_lifecycle.
Qed.

(** An actor leaves the pool. *)
Lemma live_remove pools wid m a s evs :
  live pools wid m → m_pool m !! a = Some s →
  (∀ t, slot_trace s t → lifecycle (t ++ evs)) →
  live pools wid
    (mkMachine (delete a (m_pool m)) (m_shared m) (m_calls m ++ (pair a <$> evs))
       (m_dead m ++ [a])).
Proof.
  intros Hl Hs Ht. pose proof Hl as [Hmap Hdr Hq Hd Hap Hg Htr Hn Hu Hc Hsz].
  set (p' := delete a (m_pool m)).
  assert (is_Some (pools_with pools wid (m_pool m) wid !! a)) as Hin by (rw pools_with_own; by eexists).
  assert (∀ b, b ≠ a → calls_of b (m_calls m ++ (pair a <$> evs)) = calls_of b (m_calls m)) as Ho.
  { intros b Hb. rw calls_of_app calls_of_other; [congruence|]. by rw app_nil_r. }
  assert (∀ j b s1, pools_with pools wid p' j !! b = Some s1 →
    pools_with pools wid (m_pool m) j !! b = Some s1 ∧ b ≠ a) as Hp.
  { intros j b s1. unfold pools_with, p'. case_match eqn:Ej.
    - rw lookup_delete_Some. intros [? ?]. by split.
    - intros Hb. split; [done|]. intros ->. apply Nat.eqb_neq in Ej.
      assert (wid = j); [|done]. eapply (live_unique pools wid m a); [done..|].
      left. by rw pools_with_other. }
  split; cbn [m_pool m_shared m_calls m_dead]; try done.
  - intros b j. rw Hmap elem_of_app list_elem_of_singleton. split.
    + intros [[s1 Hb]|[Hb|[-> Hb]]]; [|tauto|tauto].
      destruct (decide (b = a)) as [->|Hba].
      * assert (wid = j) as <-; [|tauto]. eapply (live_unique pools wid m a); [done..|].
        left. by exists s1.
      * left. exists s1. unfold pools_with, p' in *. case_match; [|done].
        by rw lookup_delete_ne.
    + intros [[s1 [Hb _]%Hp]|[Hb|[-> [Hb| ->]]]]; [left; by exists s1|tauto|tauto|tauto].
  - apply NoDup_app. split; [done|]. split; [|apply NoDup_singleton].
    intros b Hb ->%list_elem_of_singleton. destruct (Hg a Hb) as [E _]. congruence.
  - intros j b [s1 [Hb _]%Hp]. apply Hap. by exists s1.
  - intros b [Hb| ->%list_elem_of_singleton]%elem_of_app.
    + destruct (Hg b Hb) as [E ?]. split; [|done]. unfold p'. by rw lookup_delete_None; right.
    + split; [apply lookup_delete_eq|]. by apply Hap.
  - intros j b s1 [Hb Hba]%Hp. rw Ho //. by eapply Htr.
  - intros j b Hb. rw Ho; [|by eapply Hn]. intros ->.
    assert (wid = j) as <- by (eapply (live_unique pools wid m a); [done..|by right]).
    by eapply Hap.
  - intros b Hb. rw Ho; [|by apply Hu]. intros ->.
    destruct (Hdr a wid) as (k & Hk & ->); [apply Hmap; by left|]. by eapply Hb.
  - intros b. destruct (decide (b = a)) as [->|Hb]; [|by rw Ho].
    rw calls_of_app calls_of_own. apply Ht, (Htr wid). by rw pools_with_own.
Qed.

(** Nothing happens to the routes; addresses may be drawn. *)
Lemma live_quiet pools wid p sh sh' l d :
  address_map sh' = address_map sh → spawns sh' = spawns sh → (drawn sh ≤ drawn sh')%N →
  live pools wid (mkMachine p sh l d) → live pools wid (mkMachine p sh' l d).
Proof.
  intros Em Es Ed [Hmap Hdr Hq Hd Hap Hg Htr Hn Hu Hc Hsz].
  cbn [m_pool m_shared m_calls m_dead] in *.
  assert (∀ j, spawning j sh' = spawning j sh) as Esp by (intros; unfold spawning; by rw Es).
  split; cbn [m_pool m_shared m_calls m_dead].
  - intros. rw Em Esp. apply Hmap.
  - intros a j. rw Em. intros (k & ? & ?)%Hdr. exists k. split; [lia|done].
  - intros j. rw Esp. apply Hq.
  - done.
  - intros j a. rw Esp. apply Hap.
  - intros a. rw Esp. apply Hg.
  - done.
  - intros j a. rw Esp. apply Hn.
  - intros a Ha. apply Hu. intros k Hk. apply Ha. lia.
  - done.
  - by rw Es.
Qed.

Lemma queue_push {A} (qs : list (list A)) w x j :
  w < length qs → queue_of (push_to qs w x) j = queue_of qs j ++ (if j =? w then [x] else []).
Proof.
  intros Hw. unfold queue_of, push_to. destruct (Nat.eqb_spec j w) as [->|Hj].
  - rw list_lookup_alter_eq. by destruct (lookup_lt_is_Some_2 _ _ Hw) as [q ->].
  - rw list_lookup_alter_ne // app_nil_r //.
Qed.

Lemma spawning_push wid j sh req :
  wid < length (spawns sh) →
  spawning j (spawn_any wid sh req) =
    spawning j sh ++ (if j =? wid then [sr_addr req] else []).
Proof.
  intros Hw. unfold spawning, spawn_any. cbn [spawns set_spawns set_address_map].
  rw queue_push // fmap_app. by case_match.
Qed.

(** An actor is spawned at a new address. *)
Lemma live_spawn pools wid p sh l d b parent env :
  live pools wid (mkMachine p sh l d) →
  live pools wid (mkMachine p (spawn_any wid (set_drawn sh (drawn sh + 1)%N)
    (mkSpawnRequest (new_random (drawn sh)) b parent env)) l d).
Proof.
  intros [Hmap Hdr Hq Hd Hap Hg Htr Hn Hu Hc Hsz]. cbn [m_pool m_shared m_calls m_dead] in *. set (a := new_random (drawn sh)).
  set (sh' := spawn_any _ _ _).
  assert (∀ j, spawning j sh' = spawning j sh ++ (if j =? wid then [a] else [])) as Esp.
  { intros j. by apply (spawning_push wid j (set_drawn sh _)). }
  assert (address_map sh !! a = None) as Ea.
  { destruct (address_map sh !! a) as [j|] eqn:E; [|done].
    destruct (Hdr a j E) as (k & Hk & Ek). apply (inj new_random) in Ek. lia. }
  assert (∀ b j, b ∈ spawning j sh' ↔ b ∈ spawning j sh ∨ j = wid ∧ b = a) as Hin.
  { intros x j. rw Esp elem_of_app. case_match eqn:Ej.
    - apply Nat.eqb_eq in Ej. rw list_elem_of_singleton. tauto.
    - apply Nat.eqb_neq in Ej. rw elem_of_nil. tauto. }
  assert (∀ j, (a ∉ spawning j sh) ∧ ¬ is_Some (pools_with pools wid p j !! a)) as Hno.
  { intros j. split; intros Hj; (assert (address_map sh !! a = Some j); [apply Hmap; tauto|congruence]). }
  assert (a ∉ d) as Had.
  { intros Hd'. assert (address_map sh !! a = Some wid); [apply Hmap; tauto|congruence]. }
  split; cbn [m_pool m_shared m_calls m_dead]; try done.
  - intros x j. rw Hin. cbn. rw lookup_insert_Some. rw (Hmap x j).
    destruct (decide (x = a)) as [->|Hx]; [|naive_solver].
    destruct (Hno j) as [? ?]. naive_solver.
  - intros x j. cbn. rw lookup_insert_Some. intros [[<- _]|[_ Hx]].
    + exists (drawn sh). split; [lia|done].
    + destruct (Hdr x j Hx) as (k & ? & ?). exists k. split; [lia|done].
  - intros j. rw Esp. apply NoDup_app. split; [apply Hq|]. split.
    + intros x Hx Hx'. case_match; [|by apply elem_of_nil in Hx'].
      apply list_elem_of_singleton in Hx' as ->. by destruct (Hno j).
    + case_match; [apply NoDup_singleton|constructor].
  - intros j x Hx [Hx'|[-> ->]]%Hin; [by eapply Hap|]. by destruct (Hno wid).
  - intros x Hx. destruct (Hg x Hx) as [? ?]. split; [done|].
    intros [?|[_ ->]]%Hin; done.
  - intros j x [Hx|[-> ->]]%Hin; [by eapply Hn|]. apply Hu. intros k Hk Ek.
    apply (inj new_random) in Ek. lia.
  - intros x Hx. apply Hu. intros k Hk. apply Hx. cbn. lia.
  - cbn. unfold push_to. by rw length_alter.
Qed.

(** The next actor of the queue enters the pool. *)
Lemma live_install pools wid p sh sh' l d req q env :
  queue_of (spawns sh) wid = req :: q →
  address_map sh' = address_map sh → drawn sh' = drawn sh →
  spawns sh' = <[wid := q]> (spawns sh) →
  live pools wid (mkMachine p sh l d) →
  live pools wid (mkMachine
    (pool_insert p (mkSpawnRequest (sr_addr req) (sr_actor req) (sr_parent req) env)) sh' l d).
Proof.
  intros Eq Em Ed Es [Hmap Hdr Hq Hd Hap Hg Htr Hn Hu Hc Hsz]. cbn [m_pool m_shared m_calls m_dead] in *. set (a := sr_addr req).
  set (p' := pool_insert p (mkSpawnRequest a (sr_actor req) (sr_parent req) env)).
  assert (spawning wid sh = a :: (sr_addr <$> q)) as Ew by (unfold spawning; by rw Eq).
  assert (∀ j, spawning j sh' = if j =? wid then sr_addr <$> q else spawning j sh) as Esp.
  { intros j. unfold spawning, queue_of. rw Es. destruct (Nat.eqb_spec j wid) as [->|Hj].
    - by rw list_lookup_insert_eq.
    - by rw list_lookup_insert_ne. }
  assert (NoDup (a :: (sr_addr <$> q))) as [Haq Hndq]%NoDup_cons by (rw -Ew; apply Hq).
  assert (address_map sh !! a = Some wid) as Ea.
  { apply Hmap. right; left. rw Ew. by left. }
  assert (∀ j x, is_Some (pools_with pools wid p' j !! x) ↔
    is_Some (pools_with pools wid p j !! x) ∨ j = wid ∧ x = a) as Hp.
  { intros j x. unfold pools_with, p', pool_insert. destruct (Nat.eqb_spec j wid) as [->|Hj].
    - rw lookup_insert_is_Some. cbn. fold a. destruct (decide (a = x)); naive_solver.
    - naive_solver. }
  assert (∀ j x, x ∈ spawning j sh' → x ∈ spawning j sh ∧ (j = wid → x ≠ a)) as Hsub.
  { intros j x. rw Esp. destruct (Nat.eqb_spec j wid) as [->|Hj]; [|done].
    intros Hx. split; [rw Ew; by right|]. intros _ ->. done. }
  split; cbn [m_pool m_shared m_calls m_dead]; try done.
  - intros x j. rw Em Hmap Hp Esp. destruct (Nat.eqb_spec j wid) as [->|Hj]; [|tauto].
    rw Ew elem_of_cons. tauto.
  - intros x j. rw Em Ed. apply Hdr.
  - intros j. rw Esp. case_match; [done|apply Hq].
  - intros j x [Hx|[-> ->]]%Hp [Hx' Hne]%Hsub; [by eapply Hap|]. by apply Hne.
  - intros x Hx. destruct (Hg x Hx) as [E Hs']. split; [|by intros [? _]%Hsub].
    unfold p', pool_insert. rw lookup_insert_ne //. intros <-. apply Hs'. cbn. fold a. rw Ew. by left.
  - intros j x s. unfold pools_with, p', pool_insert. destruct (Nat.eqb_spec j wid) as [->|Hj].
    + rw lookup_insert_Some. cbn. fold a. intros [[<- <-]|[_ Hx]].
      * left. split_and!; [done..|]. apply (Hn wid). rw Ew. by left.
      * apply (Htr wid). by rw pools_with_own.
    + intros Hx. apply (Htr j). by rw pools_with_other.
  - intros j x [Hx _]%Hsub. by eapply Hn.
  - intros x. rw Ed. apply Hu.
  - rw Es length_insert. done.
Qed.

(** The route of a dead actor is removed. *)
Lemma live_unmap pools wid p sh l a d :
  live pools wid (mkMachine p sh l (a :: d)) →
  live pools wid (mkMachine p (set_address_map sh (delete a (address_map sh))) l d).
Proof.
  intros [Hmap Hdr Hq Hd Hap Hg Htr Hn Hu Hc Hsz]. cbn [m_pool m_shared m_calls m_dead] in *.
  apply NoDup_cons in Hd as [Had Hd].
  assert (address_map sh !! a = Some wid) as Ea by (apply Hmap; right; right; split; [done|by left]).
  destruct (Hg a) as [Ep Eq]; [by left|].
  split; cbn; try done.
  - intros x j. rw lookup_delete_Some Hmap elem_of_cons. split; [naive_solver|].
    intros Hx. split; [|tauto]. intros <-.
    assert (address_map sh !! a = Some j) as Ej by (apply Hmap; rw elem_of_cons; tauto).
    assert (j = wid) as -> by congruence. rw pools_with_own Ep in Hx.
    destruct Hx as [[? ?]|[?|[_ ?]]]; done.
  - intros x j [_ Hx]%lookup_delete_Some. by eapply Hdr.
  - intros x Hx. apply Hg. by right.
Qed.

Lemma mstep_live pools wid m m' :
  mstep new_random wid m m' → live pools wid m → live pools wid m'.
Proof.
  intros Hm Hl. destruct Hm.
  - destruct H as (? & ? & Ed & _). eapply live_quiet; [..|done]; [done..|]. by rw Ed.
  - by apply live_spawn.
  - pose proof (live_calls pools wid _ a s s' [] Hl H) as Hc. cbn in Hc. rw app_nil_r in Hc.
    apply Hc. intros t. rw app_nil_r. unfold slot_trace. destruct H0 as (-> & -> & _). done.
  - by eapply live_install.
  - apply (live_calls pools wid _ a s s' [OnStart] Hl H).
    intros t [(_ & _ & ->)|[? _]]; [|congruence]. right. split; [done|]. exists [].
    by rw H3.
  - apply (live_calls pools wid _ a s s' [Handled m] Hl H).
    intros t [[? _]|(_ & hs & Hhs & ->)]; [congruence|]. right. destruct H3 as (-> & -> & _).
    split; [done|]. exists (hs ++ [Handled m]). rw H1 !app_nil_r. split; [|done].
    apply Forall_app. split; [done|]. constructor; [by eexists|done].
  - apply (live_calls pools wid _ a s s' [Crashed] Hl H).
    intros t [[? _]|(_ & hs & Hhs & ->)]; [congruence|]. right.
    split; [done|]. exists hs. rw H1 H3 app_nil_r. done.
  - apply (live_remove pools wid _ a s [OnStop] Hl H).
    intros t [(_ & _ & ->)|(_ & hs & Hhs & ->)]; [by right; left|]. right; right.
    exists hs. rw H1 app_nil_r. split; [done|]. by right; right.
  - pose proof (live_remove pools wid _ a s [] Hl H) as Hc. cbn in Hc. rw app_nil_r in Hc.
    apply Hc. intros t. rw app_nil_r. apply slot_trace_lifecycle.
  - by apply live_unmap.
Qed.

(** ** Whole runtimes *)

Definition pools_of (s : System) (j : nat) : gmap ActorAddress ActorSlot :=
  match workers s !! j with Some w => pool w | None => ∅ end.

Record sys_live (s : System) (log : list (ActorAddress * Callback)) : Prop := {
  sys_ids i w : workers s !! i = Some w → id w = i;
  sys_some : 0 < length (workers s);
  sys_spawns : length (spawns (shared s)) = length (workers s);
  sys_count : num_workers (shared s) = length (workers s);
  sys_live_at wid : wid < length (workers s) →
    live (pools_of s) wid (mkMachine (pools_of s wid) (shared s) log []);
}.

Lemma pools_with_id pools wid j : pools_with pools wid (pools wid) j = pools j.
Proof. unfold pools_with. by destruct (Nat.eqb_spec j wid) as [->|]. Qed.

(** Between passes the invariant is the same seen from every worker. *)
Lemma live_rebase pools pools' i wid p sh l :
  live pools i (mkMachine p sh l []) → (∀ j, pools' j = pools_with pools i p j) →
  wid < length (spawns sh) → live pools' wid (mkMachine (pools' wid) sh l []).
Proof.
  intros [Hmap Hdr Hq Hd Hap Hg Htr Hn Hu Hc Hsz] Ep Hw.
  cbn [m_pool m_shared m_calls m_dead] in *.
  split; cbn [m_pool m_shared m_calls m_dead]; try done.
  - intros a j. rw Hmap pools_with_id Ep elem_of_nil. naive_solver.
  - intros j a. rw pools_with_id Ep. apply Hap.
  - intros a Ha%elem_of_nil. done.
  - intros j a s. rw pools_with_id Ep. apply Htr.
Qed.

Lemma msteps_live pools wid m m' :
  rtc (mstep new_random wid) m m' → live pools wid m → live pools wid m'.
Proof. induction 1; eauto using mstep_live. Qed.

(** A handle operation keeps the invariant if it leaves the routes alone. *)
Lemma sys_live_quiet s sh' log :
  sys_live s log → address_map sh' = address_map (shared s) →
  spawns sh' = spawns (shared s) → (drawn (shared s) ≤ drawn sh')%N →
  config sh' = config (shared s) → sys_live (mkSystem sh' (workers s)) log.
Proof.
  intros [Hi H0 Hs Hc Hl] Em Es Ed Ec. split; cbn; try done.
  - by rw Es.
  - unfold num_workers. rw Ec. apply Hc.
  - intros wid Hw. eapply live_quiet; [done..|]. by apply Hl.
Qed.

Lemma next_worker_lt sh : 0 < num_workers sh → (next_worker sh).2 < num_workers sh.
Proof.
  intros Hn. unfold next_worker. cbn [snd].
  pose proof (N.mod_lt (rr_worker sh) (N.of_nat (num_workers sh)) ltac:(lia)). lia.
Qed.

Lemma spawn_with_env_live s log b env :
  sys_live s log →
  sys_live (mkSystem (spawn_with_env new_random (shared s) b env).1 (workers s)) log.
Proof.
  intros Hl. pose proof Hl as [Hi H0 Hs Hc _].
  set (w := (next_worker (shared s)).2).
  assert (w < length (workers s)) as Hw.
  { rw -Hc. apply next_worker_lt. lia. }
  set (sh1 := (next_worker (shared s)).1).
  assert (sys_live (mkSystem sh1 (workers s)) log) as [_ _ Hs1 Hc1 Hl1]
    by (apply sys_live_quiet; try done; cbn; lia).
  assert ((spawn_with_env new_random (shared s) b env).1 =
    spawn_any w (set_drawn sh1 (drawn sh1 + 1)%N)
      (mkSpawnRequest (new_random (drawn sh1)) b None env)) as -> by done.
  pose proof (live_spawn _ w _ _ _ _ b None env (Hl1 w Hw)) as Hlw.
  split; cbn [shared workers]; try done.
  - cbn. unfold push_to. by rw length_alter.
  - intros wid Hwid. eapply (live_rebase _ _ w); [exact Hlw| |].
    + intros j. by rw pools_with_id.
    + cbn. unfold push_to. rw length_alter. by rw Hs.
Qed.

Lemma apply_handle_live s log op :
  sys_live s log →
  sys_live (mkSystem (apply_handle new_random remote_sink (shared s) op) (workers s)) log.
Proof.
  intros Hl. set (sh := shared s).
  assert (∀ sh', same_routes sh sh' → sys_live (mkSystem sh' (workers s)) log) as Hq.
  { intros sh' (? & ? & Ed & ?). apply sys_live_quiet; try done. by rw Ed. }
  assert (∀ sh', same_routes (set_drawn sh (drawn sh + 1)%N) sh' →
    sys_live (mkSystem sh' (workers s)) log) as Hd.
  { intros sh' (? & ? & Ed & ?). apply sys_live_quiet; try done.
    rw Ed. cbn [drawn set_drawn]. unfold sh. lia. }
  assert (∀ a cmd r, sys_live (mkSystem (admin_command new_random sh a cmd r).1 (workers s)) log)
    as Ha.
  { intros a cmd r. apply Hd. unfold admin_command. cbn [new_inbox draw fst].
    case_match; [done|]. by eapply same_routes_trans; [|apply try_deliver_quiet]. }
  destruct op; cbn [apply_handle]; try (by apply Ha).
  - by apply spawn_with_env_live.
  - apply Hq. unfold send_to. case_match; [done|]. apply route_nonlocal_quiet.
  - apply Hq. unfold stop_actor. by case_match.
  - apply Hq. unfold deliver_raw. case_match; [done|]. apply try_deliver_quiet.
  - by apply Hd.
  - apply Hq. unfold inbox_try_recv. by case_match.
  - by apply Hq.
  - unfold replace_actor_state. case_decide; [apply Ha|]. apply Hd.
    by eapply same_routes_trans; [|apply try_deliver_quiet].
  - by apply Hd.
  - apply Hq. unfold list_actors_to. by case_match.
  - by apply Hq.
  - by apply Hq.
Qed.

Lemma tick_worker_live s log i :
  sys_live s log →
  let r := tick_worker new_random remote_sink s i in sys_live r.1.1 (log ++ r.1.2).
Proof.
  intros Hl. pose proof Hl as [Hi H0 Hs Hc Hlw]. cbn zeta. unfold tick_worker.
  destruct (workers s !! i) as [w|] eqn:Ew; [|by rw app_nil_r].
  pose proof (Hi i w Ew) as Eid. pose proof (lookup_lt_Some _ _ _ Ew) as Hlt.
  destruct (try_tick_steps new_random remote_sink (shared s) w log) as [Eid' Hst];
    [rw Eid Hs; done|].
  destruct (try_tick _ _ _ _) as [[[sh' w'] calls] did]; cbn [fst snd] in *.
  assert (pools_of s i = pool w) as Epw by (unfold pools_of; by rw Ew).
  pose proof (msteps_spawns_length _ _ _ _ Hst) as Elen. cbn in Elen.
  pose proof (msteps_config _ _ _ _ Hst) as Ecfg. cbn in Ecfg.
  rw Eid in Hst. specialize (Hlw i Hlt). rw Epw in Hlw.
  pose proof (msteps_live _ _ _ _ Hst Hlw) as Hl'.
  split; cbn [shared workers].
  - intros j wj. rw list_lookup_insert_Some. intros [(<- & <- & _)|[_ ?]]; [|by apply Hi].
    by rw Eid' Eid.
  - by rw length_insert.
  - rw length_insert. congruence.
  - rw length_insert. unfold num_workers. rw Ecfg. apply Hc.
  - intros wid. rw length_insert. intros Hwid. eapply live_rebase; [exact Hl'| |lia].
    intros j. unfold pools_of, pools_with. cbn. destruct (Nat.eqb_spec j i) as [->|Hj].
    + by rw list_lookup_insert_eq.
    + by rw list_lookup_insert_ne.
Qed.

Lemma run_live s log ops :
  sys_live s log →
  let r := run new_random remote_sink s ops in sys_live r.1 (log ++ r.2).
Proof.
  intros Hl. cbn zeta. unfold run.
  apply (emit_all_invariant sys_live (step new_random remote_sink)); [|done].
  intros s' out op _ Hl'. destruct op as [| | | | | | | | | | | | | | | |i]; cbn [step fst snd];
    try (rw app_nil_r; by apply apply_handle_live).
  pose proof (tick_worker_live s' out i Hl'). by destruct (tick_worker _ _ s' i) as [[]].
Qed.

(** A runtime as constructed, with or without an extension. *)
Definition initial (s : System) : Prop :=
  ∃ c s0, new_runtime c = Some s0 ∧ (s = s0 ∨ ∃ e wx, s = with_extension s0 e wx).

Lemma new_runtime_live c s : new_runtime c = Some s → sys_live s [].
Proof.
  unfold new_runtime. destruct (Nat.eqb_spec (worker_count c) 0) as [|Hn]; [done|].
  intros [= <-].
  assert (∀ i w, ((λ i, mkWorker WE i ∅ None false [] []) <$> seq 0 (worker_count c)) !! i = Some w →
    w = mkWorker WE i ∅ None false [] []) as Hw.
  { intros i w. rw list_lookup_fmap. destruct (seq _ _ !! i) as [k|] eqn:Ek; [|done].
    apply lookup_seq in Ek as [-> _]. by intros [= <-]. }
  assert (∀ j, pools_of (mkSystem (mkShared c ∅ ∅ None (replicate (worker_count c) [])
    (replicate (worker_count c) []) (replicate (worker_count c) []) 0 ∅ [] 0)
    ((λ i, mkWorker WE i ∅ None false [] []) <$> seq 0 (worker_count c))) j = ∅) as Hp.
  { intros j. unfold pools_of. cbn [workers].
    destruct (_ !! j) as [w|] eqn:Ew; [|done]. by apply Hw in Ew as ->. }
  assert (∀ j, spawning j (mkShared c ∅ ∅ None (replicate (worker_count c) [])
    (replicate (worker_count c) []) (replicate (worker_count c) []) 0 ∅ [] 0) = []) as Hq.
  { intros j. unfold spawning, queue_of. cbn [spawns].
    destruct (replicate _ _ !! j) as [q|] eqn:Eq; [|done].
    by apply lookup_replicate_1 in Eq as [-> _]. }
  split; cbn [shared workers].
  - by intros i w ->%Hw.
  - rw length_fmap length_seq. lia.
  - cbn. by rw length_replicate length_fmap length_seq.
  - by rw length_fmap length_seq.
  - intros wid. rw length_fmap length_seq. intros Hwid.
    split; cbn [m_pool m_shared m_calls m_dead]; try done.
    + intros a j. rw pools_with_id Hp Hq lookup_empty lookup_empty !elem_of_nil.
      split; [done|]. intros [[? ?]|[?|[_ ?]]]; done.
    + intros j. rw Hq. constructor.
    + constructor.
    + intros j a. rw Hq. intros _ ?%elem_of_nil. done.
    + by intros a ?%elem_of_nil.
    + intros j a s. by rw pools_with_id Hp lookup_empty.
    + intros a. by left.
    + cbn. by rw length_replicate.
Qed.

Lemma initial_live s : initial s → sys_live s [].
Proof.
  intros (c & s0 & Hs0%new_runtime_live & [->|(e & wx & ->)]); [done|].
  pose proof Hs0 as [Hi H0 Hs Hc Hl].
  assert (∀ j, pools_of (with_extension s0 e wx) j = pools_of s0 j) as Hp.
  { intros j. unfold pools_of, with_extension. cbn. rw list_lookup_fmap.
    destruct (workers s0 !! j) as [w|]; [|done]. cbn. by case_match. }
  split; unfold with_extension; cbn [shared workers].
  - intros i w. rw list_lookup_fmap. destruct (workers s0 !! i) as [w0|] eqn:Ew; [|done].
    intros [= <-]. rw -(Hi i w0 Ew). by case_match.
  - by rw length_fmap.
  - rw length_fmap. apply Hs.
  - rw length_fmap. apply Hc.
  - intros wid. rw length_fmap. intros Hwid.
    eapply (live_rebase (pools_of s0) _ wid wid (pools_of s0 wid)).
    + apply (live_quiet _ _ _ (shared s0)); [done..|by apply Hl].
    + intros j. by rw pools_with_id -Hp.
    + cbn. lia.
Qed.

(** C1. Actors live as documented: over any history of handle operations and worker
    passes, with any actor code, extensions and iteration orders, the callbacks of every
    actor are a life. It starts at most once and before anything else it does, handles
    messages only between its start and its end, is stopped at most once, last, and
    never after a crash. *)
Theorem callbacks_in_order s ops a :
  initial s → lifecycle (calls_of a (run new_random remote_sink s ops).2).
Proof.
  intros Hs. pose proof (run_live s [] ops (initial_live s Hs)) as [_ H0 _ _ Hl].
  apply (live_cycle _ _ _ (Hl 0 H0)).
Qed.

(** C4. Routes are exact: after any history an address is routed to a worker exactly if
    the actor is in that worker's pool or waits to be installed there, and not both; no
    other worker has it. *)
Theorem routes_exact s ops a j :
  initial s →
  let s' := (run new_random remote_sink s ops).1 in
  (address_map (shared s') !! a = Some j ↔
     is_Some (pools_of s' j !! a) ∨ a ∈ spawning j (shared s')) ∧
  ¬ (is_Some (pools_of s' j !! a) ∧ a ∈ spawning j (shared s')).
Proof.
  intros Hs. cbn zeta. pose proof (run_live s [] ops (initial_live s Hs)) as [_ H0 _ _ Hl].
  destruct (Hl 0 H0) as [Hmap _ _ _ Hap _ _ _ _ _ _]. cbn [m_pool m_shared m_dead] in *.
  split.
  - rw Hmap pools_with_id elem_of_nil. naive_solver.
  - intros [Hp Hq]. apply (Hap j a); [by rw pools_with_id|done].
Qed.
End life.

From S2P Require Import DemoActors.

Lemma demo_initial ingress : initial (demo_system ingress).
Proof. exists (demo_config ingress). eexists. split; [done|by left]. Qed.

Lemma callbacks_in_order_witness :
  lifecycle (calls_of 0%N (demo_run 2 demo_life).2) ∧
  calls_of 0%N (demo_run 2 demo_life).2 =
    [OnStart; Handled (PMessage (MUser 1%N)); Handled (PMessage (MUser 7%N)); OnStop] ∧
  lifecycle (calls_of 0%N (demo_run 2 demo_crash).2) ∧
  calls_of 0%N (demo_run 2 demo_crash).2 =
    [OnStart; Handled (PMessage (MUser 13%N)); Crashed].
Proof.
  split; [apply (callbacks_in_order demo_random None _ demo_life), demo_initial|].
  split; [by vm_compute|].
  split; [apply (callbacks_in_order demo_random None _ demo_crash), demo_initial|].
  by vm_compute.
Defined.

Lemma routes_exact_witness :
  let s := (demo_run 2 (take 4 demo_life)).1 in
  let s' := (demo_run 2 (OpSpawn Plain ∅ :: demo_life)).1 in
  (address_map (shared s) !! 0%N = Some 0 ↔
     is_Some (pools_of s 0 !! 0%N) ∨ 0%N ∈ spawning 0 (shared s)) ∧
  address_map (shared s') !! 1%N = Some 0.
Proof.
  intros s s'. split; [|by vm_compute].
  exact (proj1 (routes_exact demo_random None (demo_system 2) (take 4 demo_life) 0%N 0
    (demo_initial 2))).
Defined.
