(* ===== verification/RuntimeProgress.v ===== *)
(** * Progress and fairness

    What a pass achieves: every actor that can run gets its share of messages in the
    order of its mailbox, a worker that reports no work has nothing left to run, and with
    an unlimited ingress budget the messages arrive in order. *)

From S2P Require Import Prelude Actor Worker Runtime PassMachine RuntimeLife.
#[local] Open Scope nat_scope.

Section progress.
Context `{U : Universe}.
Context `{AI : !ActorInterface} `{RE : !RuntimeExtension} `{WE : !WorkerExtension}.
Context (new_random : N → ActorAddress).
Context (remote_sink : option (ActorAddress → Payload → bool)).
Context {ord : HashOrder ActorAddress ActorSlot} {ord_types : HashOrder string N}.

(** The messages handled, of a list of callbacks. *)
Definition handled (cs : list Callback) : list Payload :=
  omap (λ c, match c with Handled m => Some m | _ => None end) cs.

Lemma handled_app cs1 cs2 : handled (cs1 ++ cs2) = handled cs1 ++ handled cs2.
Proof. apply omap_app. Qed.

(** ** A turn *)

Lemma settle_turn_frame addr t :
  t_calls (settle_turn addr t).1 = t_calls t ∧ t_count (settle_turn addr t).1 = t_count t.
Proof. unfold settle_turn. by destruct (settle _ _ _) as [[st s] v]. Qed.

Lemma handle_one_calls wid addr v msg t :
  let r := handle_one new_random remote_sink wid addr v msg t in
  ∃ end_, t_calls r.1 = t_calls t ++ Handled msg :: end_ ∧ handled end_ = [] ∧
    (t_count r.1 = S (t_count t) ∨ poisoned (t_slot r.1) = true ∧ r.2 = false).
Proof.
  cbn zeta. unfold handle_one. destruct (handle_any _ _ _) as [[prog name]|].
  - destruct (run_prog _ _ _ _ _ _ _) as [[sh st] [b panicked]]. destruct panicked.
    + exists [Crashed]. cbn. rw -assoc. split; [done|]. split; [done|]. by right.
    + exists []. destruct (settle_turn_frame addr (mkTurn sh st
        (count_message (set_actor (t_slot t) b) name) (S (t_count t)) (t_calls t ++ [Handled msg])))
        as [-> ->]. cbn. split; [done|]. split; [done|]. by left.
  - exists []. set (t1 := mkTurn _ _ _ _ _). destruct (settle_turn_frame addr t1) as [-> ->].
    cbn. split; [done|]. split; [done|]. by left.
Qed.

(** The loop handles a prefix of the mailbox, within the budget. *)
Lemma handle_messages_prefix wid addr budget n v box t :
  let t' := handle_messages new_random remote_sink wid addr budget n v box t in
  ∃ new, t_calls t' = t_calls t ++ new ∧ handled new `prefix_of` box ∧
    (0 < budget → n < budget → length (handled new) ≤ budget - n).
Proof.
  cbn zeta. revert n t; induction box as [|msg box IH]; intros n t; cbn [handle_messages].
  { exists []. rw app_nil_r. split; [done|]. split; [done|]. cbn. lia. }
  destruct (stop_sentinel msg) as [x|].
  { exists []. rw app_nil_r. split; [done|]. split; [apply prefix_nil|]. cbn. lia. }
  set (t0 := set_t_slot _ _).
  destruct (handle_one_calls wid addr v msg t0) as (end_ & Ec & Eh & _).
  destruct (handle_one _ _ _ _ _ _ t0) as [t1 go]; cbn [fst snd] in *.
  destruct (negb go || _) eqn:Eg.
  - exists (Handled msg :: end_). split; [done|]. cbn. fold (handled end_). rw Eh.
    split; [apply prefix_cons, prefix_nil|]. cbn. lia.
  - destruct (IH (S n) t1) as (new & En & Hp & Hb). exists (Handled msg :: end_ ++ new).
    split; [rw En Ec -assoc; done|]. cbn. fold (handled (end_ ++ new)). rw handled_app Eh. cbn.
    split; [by apply prefix_cons|]. intros Hb0 Hn.
    apply orb_false_iff in Eg as [_ Eg]. apply andb_false_iff in Eg.
    assert (S n < budget).
    { destruct Eg as [Eg|Eg]; [apply Nat.ltb_ge in Eg; lia|apply Nat.leb_gt in Eg; lia]. }
    specialize (Hb Hb0 ltac:(lia)). lia.
Qed.

Lemma handle_messages_first wid addr budget n v msg box t :
  stop_sentinel msg = None →
  ∃ new, t_calls (handle_messages new_random remote_sink wid addr budget n v (msg :: box) t) =
    t_calls t ++ Handled msg :: new.
Proof.
  intros Hm. cbn [handle_messages]. rw Hm. set (t0 := set_t_slot _ _).
  destruct (handle_one_calls wid addr v msg t0) as (end_ & Ec & _ & _).
  destruct (handle_one _ _ _ _ _ _ t0) as [t1 go]; cbn [fst snd] in *.
  destruct (negb go || _); [by eexists|].
  destruct (handle_messages_prefix wid addr budget (S n) v box t1) as (new & En & _).
  exists (end_ ++ new). by rw En Ec -assoc.
Qed.

Lemma start_actor_calls wid addr v t :
  let r := start_actor new_random remote_sink wid addr v t in
  (∃ end_, t_calls r.1 = t_calls t ++ OnStart :: end_ ∧ handled end_ = []) ∧
  (r.2 = true → mailbox (t_slot r.1) = mailbox (t_slot t)).
Proof.
  cbn zeta. unfold start_actor.
  destruct (run_prog _ _ _ _ _ _ _) as [[sh st] [b panicked]]. destruct panicked.
  - split; [|done]. exists [Crashed]. cbn. by rw -assoc.
  - set (t1 := mkTurn _ _ _ _ _). destruct (settle_turn_frame addr t1) as [E _]. split.
    + exists []. by rw E.
    + by intros ->%settle_turn_running.
Qed.

Lemma tick_actor_calls wid budget addr sh st s :
  let t := tick_actor new_random remote_sink wid budget addr sh st s in
  handled (t_calls t) `prefix_of` mailbox s ∧
  (0 < budget → length (handled (t_calls t)) ≤ budget).
Proof.
  cbn zeta. unfold tick_actor. destruct (should_skip_actor _ _ _).
  { case_match; cbn; (split; [apply prefix_nil|lia]). }
  destruct (started s).
  - destruct (handle_messages_prefix wid addr budget 0 (ctx_of addr s) (mailbox s)
      (mkTurn sh st s 0 [])) as (new & En & Hp & Hb). cbn [t_slot].
    rw En. split; [done|]. intros Hb0. specialize (Hb Hb0 Hb0).
    cbn [t_calls app]. lia.
  - destruct (start_actor_calls wid addr (ctx_of addr s) (mkTurn sh st s 0 []))
      as [(end_ & Ec & Eh) Hm].
    destruct (start_actor _ _ _ _ _ _) as [t1 go]; cbn [fst snd] in *. cbn in Ec, Hm.
    destruct go.
    + destruct (handle_messages_prefix wid addr budget 0 (ctx_of addr s) (mailbox (t_slot t1)) t1)
        as (new & En & Hp & Hb). rw En Ec. cbn. fold (handled (end_ ++ new)).
      rw handled_app Eh. cbn [app]. rw Hm // in Hp. split; [done|].
      intros Hb0. specialize (Hb Hb0 Hb0). lia.
    + rw Ec. cbn. fold (handled end_). rw Eh. split; [apply prefix_nil|cbn; lia].
Qed.

Lemma tick_actor_first wid budget addr sh st s msg box :
  should_skip_actor (poisoned s) (stopping s) (suspended s) = false → started s = true →
  mailbox s = msg :: box → stop_sentinel msg = None →
  ∃ new, t_calls (tick_actor new_random remote_sink wid budget addr sh st s) = Handled msg :: new.
Proof.
  intros Hsk Hst Hm Hn. unfold tick_actor. rw Hsk Hst. cbn [t_slot]. rw Hm.
  destruct (handle_messages_first wid addr budget 0 (ctx_of addr s) msg box
    (mkTurn sh st s 0 [])) as (new & En); [done|]. by exists new.
Qed.

(** ** All turns *)

(** The turn of actor [a], whose slot is [s], in a pass that ends as [P]. *)
Definition turn_of (wid budget : nat) (a : ActorAddress) (s : ActorSlot) (P : Pass) : Prop :=
  ∃ sh st, let t := tick_actor new_random remote_sink wid budget a sh st s in
    p_pool P !! a = Some (t_slot t) ∧ calls_of a (p_calls P) = t_calls t ∧
    t_count t ≤ p_count P.

Lemma tick_fold_frame wid budget xs P a :
  a ∉ xs.*1 →
  let P' := foldl (tick_step new_random remote_sink wid budget) P xs in
  p_pool P' !! a = p_pool P !! a ∧ calls_of a (p_calls P') = calls_of a (p_calls P) ∧
  p_count P ≤ p_count P'.
Proof.
  revert P; induction xs as [|[b s] xs IH]; intros P Ha; [done|]. cbn [foldl].
  rw fmap_cons not_elem_of_cons in Ha. destruct Ha as [Hab Ha]. cbn [fst] in Hab.
  destruct (IH (tick_step new_random remote_sink wid budget P (b, s)) Ha) as (E1 & E2 & Hc).
  cbn zeta. rw E1 E2. cbn [tick_step p_pool p_calls p_count] in *.
  rw lookup_insert_ne // calls_of_app calls_of_other //. rw app_nil_r. split_and!; [done..|lia].
Qed.

Lemma tick_fold_turns wid budget xs P a s :
  NoDup xs.*1 → (a, s) ∈ xs → calls_of a (p_calls P) = [] →
  turn_of wid budget a s (foldl (tick_step new_random remote_sink wid budget) P xs).
Proof.
  revert P; induction xs as [|[b s'] xs IH]; intros P Hnd Hin Hc; [by apply elem_of_nil in Hin|].
  apply NoDup_cons in Hnd as [Hb Hnd]. cbn [foldl].
  destruct (decide (a = b)) as [<-|Hne].
  - apply elem_of_cons in Hin as [[= <-]|Hin].
    + exists (p_shared P), (p_staging P).
      destruct (tick_fold_frame wid budget xs (tick_step new_random remote_sink wid budget P (a, s))
        a Hb) as (E1 & E2 & Hcount). cbn zeta. rw E1 E2.
      cbn [tick_step p_pool p_calls p_count] in *.
      rw lookup_insert_eq calls_of_app calls_of_own Hc. split_and!; [done..|lia].
    + destruct Hb. apply list_elem_of_fmap. by exists (a, s).
  - apply elem_of_cons in Hin as [[= -> _]|Hin]; [done|]. apply IH; [done..|].
    cbn [tick_step p_calls]. rw calls_of_app Hc calls_of_other //. 
Qed.

Lemma tick_all_turns wid budget p sh a s :
  p !! a = Some s → turn_of wid budget a s (tick_all new_random remote_sink wid budget p sh).
Proof.
  intros Hs. apply tick_fold_turns; [apply (hash_iter_nodup ord p)| |done].
  by rw elem_of_hash_iter.
Qed.

(** A pass is fair and in order: whatever the actors do, the messages an actor handles
    in a pass are a prefix of its mailbox, at most the configured budget of them, and an
    actor that is started and neither suspended nor dead handles its next message,
    however full the mailboxes of the others are. *)
Theorem pass_fair wid budget p sh a s :
  p !! a = Some s →
  let cs := calls_of a (p_calls (tick_all new_random remote_sink wid budget p sh)) in
  handled cs `prefix_of` mailbox s ∧
  (0 < budget → length (handled cs) ≤ budget) ∧
  (∀ msg box, should_skip_actor (poisoned s) (stopping s) (suspended s) = false →
     started s = true → mailbox s = msg :: box → stop_sentinel msg = None →
     head cs = Some (Handled msg)).
Proof.
  intros Hs. cbn zeta. destruct (tick_all_turns wid budget p sh a s Hs) as (sh' & st & _ & -> & _).
  destruct (tick_actor_calls wid budget a sh' st s) as [Hp Hb]. split; [done|]. split; [done|].
  intros msg box Hsk Hst Hm Hn.
  by destruct (tick_actor_first wid budget a sh' st s msg box Hsk Hst Hm Hn) as [new ->].
Qed.

(** ** Quiet passes *)

(** An actor with nothing to do until something happens to it. *)
Definition idle (s : ActorSlot) : Prop :=
  suspended s = true ∨ started s = true ∧ mailbox s = [].

Lemma handle_messages_mono wid addr budget n v box t :
  t_count t ≤ t_count (handle_messages new_random remote_sink wid addr budget n v box t).
Proof.
  revert n t. induction box as [|m box IH]; intros n t; [done|].
  cbn [handle_messages]. destruct (stop_sentinel m); [done|]. set (t0 := set_t_slot _ _).
  assert (t_count t ≤ t_count (handle_one new_random remote_sink wid addr v m t0).1) as H1.
  { unfold handle_one. destruct (handle_any _ _ _) as [[prog name]|];
      [destruct (run_prog _ _ _ _ _ _ _) as [[sh st] [b []]]; [done|]|];
      (rw (proj2 (settle_turn_frame _ _)); cbn; lia). }
  destruct (handle_one _ _ _ _ _ _ t0) as [t1 go]; cbn [fst] in H1.
  destruct (negb go || _); [done|]. specialize (IH (S n) t1). lia.
Qed.

Lemma handle_messages_idle wid addr budget n v t :
  started (t_slot t) = true →
  let t' := handle_messages new_random remote_sink wid addr budget n v (mailbox (t_slot t)) t in
  t_count t < t_count t' ∨ is_dead (t_slot t') = true ∨
  started (t_slot t') = true ∧ mailbox (t_slot t') = [].
Proof.
  cbn zeta. intros Hst. destruct (mailbox (t_slot t)) as [|msg box] eqn:Hm; cbn [handle_messages].
  { by right; right. }
  destruct (stop_sentinel msg) as [x|].
  { right; left. cbn. unfold is_dead. destruct x; cbn; by rw orb_true_r. }
  set (t0 := set_t_slot _ _).
  destruct (handle_one_calls wid addr v msg t0) as (end_ & _ & _ & Hc).
  destruct (handle_one _ _ _ _ _ _ t0) as [t1 go]; cbn [fst snd] in *.
  change (t_count t0) with (t_count t) in Hc. destruct Hc as [Hc|[Hc ->]].
  - left. destruct (negb go || _); [lia|].
    pose proof (handle_messages_mono wid addr budget (S n) v box t1). lia.
  - right; left. cbn. unfold is_dead. by rw Hc.
Qed.

Lemma start_actor_idle wid addr v t :
  let r := start_actor new_random remote_sink wid addr v t in
  t_count r.1 = t_count t ∧
  if r.2 then started (t_slot r.1) = true
  else is_dead (t_slot r.1) = true ∨ suspended (t_slot r.1) = true.
Proof.
  cbn zeta. unfold start_actor.
  destruct (run_prog _ _ _ _ _ _ _) as [[sh st] [b []]].
  - split; [done|]. by left.
  - unfold settle_turn, settle. cbn [t_staging t_slot].
    destruct (take_stop_with st addr) as [st' x]. destruct (_ || _); cbn.
    + split; [done|]. left. unfold is_dead. destruct x; cbn; by rw orb_true_r.
    + destruct (bool_decide _); cbn; [|done]. split; [done|]. by right.
Qed.

(** A turn that handles no message leaves its actor idle or dead. *)
Lemma tick_actor_idle wid budget addr sh st s :
  let t := tick_actor new_random remote_sink wid budget addr sh st s in
  t_count t = 0 → is_dead (t_slot t) = false → idle (t_slot t).
Proof.
  cbn zeta. unfold tick_actor, idle. destruct (should_skip_actor _ _ _) eqn:Esk.
  { unfold should_skip_actor in Esk. fold (is_dead s). destruct (is_dead s) eqn:Ed; cbn.
    - intros _. unfold is_dead in *. cbn. congruence.
    - unfold is_dead in Ed. rw Ed in Esk. by left. }
  destruct (started s) eqn:Est.
  - destruct (handle_messages_idle wid addr budget 0 (ctx_of addr s) (mkTurn sh st s 0 []))
      as [?|[?|?]]; [done|cbn in *; lia|cbn in *; congruence|]. by right.
  - destruct (start_actor_idle wid addr (ctx_of addr s) (mkTurn sh st s 0 [])) as [Hc Hi].
    destruct (start_actor _ _ _ _ _ _) as [t1 []]; cbn [fst snd] in *.
    + destruct (handle_messages_idle wid addr budget 0 (ctx_of addr s) t1)
        as [?|[?|?]]; [done|cbn in *; lia|cbn in *; congruence|]. by right.
    + intros _ Hd. destruct Hi as [?|?]; [congruence|by left].
Qed.

(** ** Phases that do no work *)

Lemma drain_spawns_quiet wid budget p sh :
  let r := drain_spawns wid budget p sh in r.2 = false → r.1.1 = p.
Proof.
  cbn zeta. unfold drain_spawns. set (n := allowance _ _ _).
  destruct (foldl _ _ _) as [p' sh'] eqn:E. cbn [fst snd]. intros Hn%Nat.ltb_ge.
  assert (n = 0) as Hn0 by lia. rw Hn0 in E. cbn in E. by injection E as <- <-.
Qed.

Lemma deliver_or_defer_quiet wid p sh df e :
  let r := deliver_or_defer_transfer wid p sh df e in r.2 = false → r.1.1 = p.
Proof.
  cbn zeta. unfold deliver_or_defer_transfer. destruct (contains p (dest e)); [done|].
  by case_decide.
Qed.

Lemma drain_deferred_quiet wid sh fuel p df b :
  let r := drain_deferred wid sh fuel p df b in r.1.2 = false → b = false ∧ r.1.1.1 = p.
Proof.
  cbn zeta. revert p df b; induction fuel as [|fuel IH]; intros p [|e df] b; try done.
  cbn [drain_deferred]. pose proof (deliver_or_defer_quiet wid p sh df e) as Hq.
  destruct (deliver_or_defer_transfer _ _ _ _ _) as [[p' df'] d]; cbn [fst snd] in *.
  intros [[-> Hd]%orb_false_iff ->]%IH. auto.
Qed.

Lemma drain_transfers_quiet wid budget p sh df :
  let r := drain_transfers wid budget p sh df in r.2 = false → r.1.1.1 = p.
Proof.
  cbn zeta. unfold drain_transfers.
  pose proof (drain_deferred_quiet wid sh (if budget =? 0 then length df else budget) p df false) as Hq.
  destruct (drain_deferred _ _ _ _ _ _) as [[[p1 df1] b1] k]; cbn [fst snd] in Hq.
  set (m := if budget =? 0 then _ else _).
  destruct (foldl _ _ _) as [p2 df2] eqn:E. cbn [fst snd].
  intros [-> Hm]%orb_false_iff.
  apply Nat.ltb_ge in Hm. assert (m = 0) as Hm0 by lia. rw Hm0 in E. cbn in E.
  injection E as <- <-. by apply Hq.
Qed.

Lemma apply_or_defer_admin_quiet wid p sh df cmd :
  let r := apply_or_defer_admin_command wid p sh df cmd in r.2 = false → r.1.1.1 = p.
Proof.
  cbn zeta. unfold apply_or_defer_admin_command.
  destruct (should_defer_admin_command _ _ _ _); [done|]. by destruct (apply_admin_command _ _ _ _).
Qed.

Lemma drain_deferred_admin_quiet wid fuel p sh df b :
  let r := drain_deferred_admin wid fuel p sh df b in
  r.1.2 = false → b = false ∧ r.1.1.1.1 = p.
Proof.
  cbn zeta. revert p sh df b; induction fuel as [|fuel IH]; intros p sh [|cmd df] b; try done.
  cbn [drain_deferred_admin]. pose proof (apply_or_defer_admin_quiet wid p sh df cmd) as Hq.
  destruct (apply_or_defer_admin_command _ _ _ _ _) as [[[p' sh'] df'] d]; cbn [fst snd] in *.
  intros [[-> Hd]%orb_false_iff ->]%IH. auto.
Qed.

Lemma drain_admin_quiet wid budget p sh df :
  let r := drain_admin wid budget p sh df in r.2 = false → r.1.1.1 = p.
Proof.
  cbn zeta. unfold drain_admin.
  pose proof (drain_deferred_admin_quiet wid (if budget =? 0 then length df else budget) p sh df
    false) as Hq.
  destruct (drain_deferred_admin _ _ _ _ _ _) as [[[[p1 sh1] df1] b1] k]; cbn [fst snd] in Hq.
  set (m := if budget =? 0 then _ else _).
  destruct (foldl _ _ _) as [[p2 sh2] df2] eqn:E. cbn [fst snd].
  intros [-> Hm]%orb_false_iff.
  apply Nat.ltb_ge in Hm. assert (m = 0) as Hm0 by lia. rw Hm0 in E. cbn in E.
  injection E as <- <- <-. by apply Hq.
Qed.

Lemma cleanup_fold_dead wid addrs acc :
  ∃ more, (foldl (cleanup_step new_random remote_sink wid) acc addrs).2 = acc.2 ++ more.
Proof.
  revert acc; induction addrs as [|a addrs IH]; intros acc; [exists []; by rw app_nil_r|].
  cbn [foldl]. destruct (IH (cleanup_step new_random remote_sink wid acc a)) as [more ->].
  assert (∃ more, (cleanup_step new_random remote_sink wid acc a).2 = acc.2 ++ more) as [more' ->].
  { destruct acc as [P dead]. unfold cleanup_step. destruct (p_pool P !! a); [|exists []; by rw app_nil_r].
    destruct (is_on_stop_eligible _ _); [destruct (run_prog _ _ _ _ _ _ _) as [[]]|]; by eexists. }
  exists (more' ++ more). by rw assoc.
Qed.

(** When nobody is dead, removing the dead does nothing. *)
Lemma cleanup_dead_quiet wid p sh :
  let r := cleanup_dead new_random remote_sink wid p sh in
  r.2 = [] → r.1 = mkPass p sh no_staging 0 [] ∧ ∀ a s, p !! a = Some s → is_dead s = false.
Proof.
  cbn zeta. unfold cleanup_dead. set (xs := filter _ _).
  assert (∀ a s, (a, s) ∈ xs ↔ p !! a = Some s ∧ is_dead s = true) as Hx.
  { intros a s. unfold xs. rw list_elem_of_filter elem_of_hash_iter. naive_solver. }
  generalize xs, Hx. clear xs Hx. intros [|[a s] xs] Hx.
  - intros _. split; [done|]. intros a s Hs. destruct (is_dead s) eqn:Ed; [|done].
    assert ((a, s) ∈ ([] : list (ActorAddress * ActorSlot))) as Hin by by apply Hx.
    by apply elem_of_nil in Hin.
  - destruct (proj1 (Hx a s)) as [Hs _]; [by left|]. rw fmap_cons. cbn [fst foldl].
    set (acc := cleanup_step _ _ _ _ _).
    destruct (cleanup_fold_dead wid xs.*1 acc) as [more ->]. intros [E0 _]%app_eq_nil.
    revert E0. unfold acc, cleanup_step. cbn. rw Hs.
    destruct (is_on_stop_eligible _ _); [destruct (run_prog _ _ _ _ _ _ _) as [[]]|]; done.
Qed.

Lemma cleanup_dead_actors_quiet wid p sh wext df :
  let r := cleanup_dead_actors new_random remote_sink wid p sh wext df in
  r.2 = false → r.1.1.1.1.1 = p ∧ ∀ a s, p !! a = Some s → is_dead s = false.
Proof.
  cbn zeta. unfold cleanup_dead_actors. pose proof (cleanup_dead_quiet wid p sh) as Hq.
  destruct (cleanup_dead _ _ _ _ _) as [P dead]; cbn [fst snd] in Hq.
  case_bool_decide as Ed; cbn [negb].
  - destruct (Hq Ed) as [-> Hd]. by cbn.
  - destruct (match extension _ with Some _ => _ | None => _ end) as [p2 sh2].
    by destruct (deliver_staged _ _ _ _ _).
Qed.

(** A pass that reports no work leaves every actor idle. *)
Lemma run_pass_quiet sh w :
  let r := run_pass new_random remote_sink sh w in
  r.2 = false → ∀ a s, pool r.1.1.2 !! a = Some s → idle s.
Proof.
  cbn zeta. unfold run_pass. set (wid := id w). set (ib := worker_ingress_budget _).
  pose proof (drain_spawns_quiet wid ib (pool w) sh) as Q1.
  destruct (drain_spawns wid ib (pool w) sh) as [[p1 sh1] b1]; cbn [fst snd] in Q1.
  pose proof (drain_transfers_quiet wid ib p1 sh1 (deferred_transfers w)) as Q2.
  destruct (drain_transfers _ _ _ _ _) as [[[p2 sh2] df] b2]; cbn [fst snd] in Q2.
  pose proof (drain_admin_quiet wid ib p2 sh2 (deferred_admin w)) as Q3.
  destruct (drain_admin _ _ _ _ _) as [[[p3 sh3] da] b3]; cbn [fst snd] in Q3.
  destruct (tick_worker_ext _) as [wext ext_msgs].
  destruct (route_all remote_sink p3 sh3 ext_msgs) as [p4 sh4] eqn:E4.
  set (P := tick_all _ _ _ _ _ _).
  pose proof (drain_spawns_quiet wid ib (p_pool P) (p_shared P)) as Q6.
  destruct (drain_spawns _ _ _ _) as [[p6 sh6] b6]; cbn [fst snd] in Q6.
  destruct (deliver_staged _ _ _ _ _) as [p7 df7] eqn:E7.
  set (wext' := _ <$> wext).
  pose proof (cleanup_dead_actors_quiet wid p7 sh6 wext' df7) as Q9.
  destruct (cleanup_dead_actors _ _ _ _ _ _ _) as [[[[[p9 sh9] we9] df9] stops] b9];
    cbn [fst snd pool] in *.
  intros (((((((_ & _)%orb_false_iff & _)%orb_false_iff & _)%orb_false_iff & W5)%orb_false_iff
    & W6)%orb_false_iff & W7)%orb_false_iff & W9)%orb_false_iff.
  destruct (Q9 W9) as [-> Hd]. apply Nat.ltb_ge in W5. apply negb_false_iff, Nat.eqb_eq in W7.
  apply length_zero_iff_nil in W7. rw W7 in E7. injection E7 as <- <-.
  rw (Q6 W6) in Hd |- *. intros a s Hs.
  destruct (p4 !! a) as [s0|] eqn:Es0.
  - destruct (tick_all_turns wid (actor_message_budget (config sh4)) p4 sh4 a s0 Es0)
      as (sh' & st & Ep & _ & Hc). fold P in Ep, Hc. rw Hs in Ep. injection Ep as ->.
    apply tick_actor_idle; [lia|]. by apply (Hd a).
  - assert (a ∉ (hash_iter p4).*1) as Ha.
    { intros ([b s'] & -> & Hb)%list_elem_of_fmap. rw elem_of_hash_iter in Hb. cbn in *. congruence. }
    destruct (tick_fold_frame wid (actor_message_budget (config sh4)) (hash_iter p4)
      (mkPass p4 sh4 no_staging 0 []) a Ha) as [E _]. cbn in E. fold P in E.
    change (p_pool P !! a = p4 !! a) in E. congruence.
Qed.

Lemma run_pass_backlog sh w :
  let r := run_pass new_random remote_sink sh w in has_backlog r.1.1.2 = r.2.
Proof.
  cbn zeta. unfold run_pass.
  repeat match goal with |- context [let '(_, _) := ?x in _] => destruct x end. done.
Qed.

Lemma initial_pools s j : initial s → pools_of s j = ∅.
Proof.
  intros (c & s0 & Hs0 & Hs).
  assert (∀ j, pools_of s0 j = ∅) as Hp.
  { revert Hs0. unfold new_runtime. case_match; [done|]. intros [= <-] k.
    unfold pools_of. cbn [workers]. rw list_lookup_fmap. by destruct (seq _ _ !! k). }
  destruct Hs as [->|(e & wx & ->)]; [done|]. unfold pools_of, with_extension in *. cbn.
  rw list_lookup_fmap. specialize (Hp j). destruct (workers s0 !! j) as [w|]; [|done]. cbn.
  by case_match.
Qed.

(** A worker sleeps only when there is nothing to do: after any history, if a worker
    reports no work, then its queues are empty and every actor it owns is suspended, or
    started with an empty mailbox. Nothing that was accepted is forgotten. *)
Theorem sleeping_worker_idle s ops i w :
  initial s →
  let s' := (run new_random remote_sink s ops).1 in
  workers s' !! i = Some w → has_work (shared s') w = false →
  queue_of (spawns (shared s')) (id w) = [] ∧ queue_of (transfers (shared s')) (id w) = [] ∧
  deferred_transfers w = [] ∧ queue_of (admins (shared s')) (id w) = [] ∧
  deferred_admin w = [] ∧ ∀ a sl, pool w !! a = Some sl → idle sl.
Proof.
  intros Hs. cbn zeta.
  assert (∀ i w, workers (run new_random remote_sink s ops).1 !! i = Some w →
    has_backlog w = false → ∀ a sl, pool w !! a = Some sl → idle sl) as Hi.
  { refine (emit_all_invariant (λ s' (_ : list (ActorAddress * Callback)), ∀ i w,
      workers s' !! i = Some w → has_backlog w = false → ∀ a sl, pool w !! a = Some sl → idle sl)
      (step new_random remote_sink) s [] ops _ _).
    - intros s1 _ op _ IH. destruct op as [| | | | | | | | | | | | | | | |k]; try exact IH.
      cbn [step fst]. unfold tick_worker. destruct (workers s1 !! k) as [wk|] eqn:Ek; [|done].
      unfold try_tick. destruct (has_work (shared s1) wk).
      + assert (has_backlog (run_pass new_random remote_sink (shared s1) wk).1.1.2 =
          (run_pass new_random remote_sink (shared s1) wk).2) as Eb by apply run_pass_backlog.
        pose proof (run_pass_quiet (shared s1) wk) as Hq.
        destruct (run_pass _ _ _ _) as [[[sh' w'] calls] did]; cbn [fst snd workers] in *.
        intros j wj. rw list_lookup_insert_Some. intros [(<- & <- & _)|[_ ?]]; [|by eapply IH].
        rw Eb. apply Hq.
      + cbn. intros j wj. rw list_lookup_insert_Some. intros [(<- & <- & _)|[_ ?]]; by eapply IH.
    - intros j wj Hj _ a sl Ha.
      assert (pools_of s j = ∅) as Ep by by apply initial_pools.
      unfold pools_of in Ep. rw Hj in Ep. rw Ep in Ha. done. }
  intros Hw. unfold has_work. intros ((((((Hb & H1)%orb_false_iff & H2)%orb_false_iff
    & H3)%orb_false_iff & H4)%orb_false_iff & H5)%orb_false_iff & _)%orb_false_iff.
  apply negb_false_iff, Nat.eqb_eq, length_zero_iff_nil in H1, H2, H3, H4, H5.
  split_and!; try done. by eapply Hi.
Qed.
End progress.

From S2P Require Import DemoActors.

Lemma pass_fair_witness :
  let msgs := (λ m, PMessage (MUser m)) <$> [1; 2; 3]%N in
  let slot := mkActorSlot msgs Plain false false true false None 0 ∅ None ∅ None in
  let P := tick_all demo_random None 0 2 {[ 5%N := slot ]} (shared (demo_system 2)) in
  handled (calls_of 5%N (p_calls P)) `prefix_of` msgs ∧
  length (handled (calls_of 5%N (p_calls P))) ≤ 2 ∧
  head (calls_of 5%N (p_calls P)) = Some (Handled (PMessage (MUser 1%N))).
Proof.
  intros msgs slot P.
  destruct (pass_fair demo_random None 0 2 {[ 5%N := slot ]} (shared (demo_system 2)) 5%N slot)
    as (H1 & H2 & H3); [apply lookup_singleton_eq|].
  split; [exact H1|]. split; [apply H2; lia|].
  exact (H3 (PMessage (MUser 1%N)) (tail msgs) eq_refl eq_refl eq_refl eq_refl).
Defined.

Lemma sleeping_worker_idle_witness :
  let s := (demo_run 2 demo_settled).1 in
  ∃ w, workers s !! 0 = Some w ∧ has_work (shared s) w = false ∧
    (∀ a sl, pool w !! a = Some sl → idle sl) ∧ size (pool w) = 1.
Proof.
  intros s. destruct (workers s !! 0) as [w|] eqn:E; [|by vm_compute in E].
  exists w. split; [done|].
  assert (has_work (shared s) w = false ∧ size (pool w) = 1) as [Hw Hp].
  { vm_compute in E. injection E as <-. by vm_compute. }
  split; [done|]. split; [|done].
  destruct (sleeping_worker_idle demo_random None (demo_system 2) demo_settled 0 w) as (_ & _ & _ & _ & _ & Hi);
    [apply demo_initial|done|done|exact Hi].
Defined.

(** ** The order of messages

    With an unlimited ingress budget a worker puts everything it has accepted into the
    mailboxes, in order.  With a limited one, the default, it does not: transfers retained
    for an actor that is not installed yet are rotated, and overtaken. *)

Section order.
Context `{U : Universe}.
Context `{AI : !ActorInterface} `{RE : !RuntimeExtension} `{WE : !WorkerExtension}.
Context (new_random : N → ActorAddress) `{!Inj (=) (=) new_random}.
Context (remote_sink : option (ActorAddress → Payload → bool)).
Context {ord : HashOrder ActorAddress ActorSlot} {ord_types : HashOrder string N}.

(** The envelopes, each into the mailbox of its actor. *)
Definition deliver_all (p : gmap ActorAddress ActorSlot) (es : list Envelope)
    : gmap ActorAddress ActorSlot :=
  foldl (λ p e, (deliver p (dest e) (payload e)).1) p es.

(** Every address of this worker is installed. *)
Definition all_installed (wid : nat) (p : gmap ActorAddress ActorSlot) (sh : Shared) : Prop :=
  ∀ a, address_map sh !! a = Some wid → is_Some (p !! a).

Lemma deliver_dom p a m b : is_Some ((deliver p a m).1 !! b) ↔ is_Some (p !! b).
Proof.
  unfold deliver. destruct (p !! a) as [s|] eqn:E; [|done]. cbn.
  rw lookup_insert_is_Some. destruct (decide (a = b)) as [->|]; [rw E|naive_solver].
  split; [by eexists|by left].
Qed.

Lemma deliver_or_defer_installed wid p sh df e :
  all_installed wid p sh →
  deliver_or_defer_transfer wid p sh df e = ((deliver p (dest e) (payload e)).1, df, true).
Proof.
  intros Hi. unfold deliver_or_defer_transfer, contains. case_bool_decide as Hc; [done|].
  rw decide_False; [intros Hm; by apply Hc, Hi|].
  unfold deliver. destruct (p !! dest e) eqn:E; [|done]. destruct Hc. by eexists.
Qed.

Lemma all_installed_deliver wid p sh a m :
  all_installed wid p sh → all_installed wid (deliver p a m).1 sh.
Proof. intros Hi b Hb. apply deliver_dom. by apply Hi. Qed.

(** The loop over the retained transfers ends after one iteration each: more iterations
    would change nothing. *)
Lemma drain_deferred_complete wid sh p df b n :
  all_installed wid p sh →
  drain_deferred wid sh (length df + n) p df b =
    (deliver_all p df, [], b || negb (length df =? 0), n).
Proof.
  revert p b; induction df as [|e df IH]; intros p b Hi; cbn [length Nat.add drain_deferred].
  { destruct n; cbn; by rw orb_false_r. }
  rw deliver_or_defer_installed //. rw IH; [by apply all_installed_deliver|].
  f_equal; f_equal. by destruct b.
Qed.

Lemma drain_queue_complete wid sh p df es :
  all_installed wid p sh →
  foldl (λ acc e, (deliver_or_defer_transfer wid acc.1 sh acc.2 e).1) (p, df) es =
    (deliver_all p es, df).
Proof.
  revert p; induction es as [|e es IH]; intros p Hi; [done|]. cbn [foldl fst snd].
  rw deliver_or_defer_installed //. cbn [fst]. rw IH; [by apply all_installed_deliver|done].
Qed.

Lemma drain_spawns_unlimited wid p sh :
  wid < length (spawns sh) →
  queue_of (spawns (drain_spawns wid 0 p sh).1.2) wid = [].
Proof.
  intros Hw. unfold drain_spawns, allowance. cbn [Nat.eqb].
  set (q := queue_of (spawns sh) wid).
  assert (∀ reqs p sh, spawns (foldl install (p, sh) reqs).2 = spawns sh) as Hi.
  { clear. induction reqs as [|r reqs IH]; intros p sh; [done|]. cbn [foldl install].
    destruct (extension sh) as [e|]; [destruct (on_spawn _ _ _ _)|]; by rw IH. }
  destruct (foldl install _ _) as [p' sh'] eqn:E.
  specialize (Hi (take (length q) q) p (set_spawns sh (<[wid := drop (length q) q]> (spawns sh)))).
  rw E in Hi. cbn [fst snd] in *. rw Hi. cbn. unfold queue_of.
  rw list_lookup_insert_eq //. cbn. by rw drop_all.
Qed.

(** With an unlimited ingress budget nothing accepted is left behind or reordered: after
    any history, the drains of a pass install every waiting actor and then deliver the
    retained transfers and the transfer queue, in that order, into the mailboxes,
    leaving both empty; the loop over the retained transfers, which has no bound in the
    code, ends after one iteration for each. *)
Theorem unlimited_ingress_in_order s ops i w n :
  initial s →
  let s' := (run new_random remote_sink s ops).1 in
  workers s' !! i = Some w →
  let '(p1, sh1, _) := drain_spawns i 0 (pool w) (shared s') in
  let '(p2, sh2, deferred, _) := drain_transfers i 0 p1 sh1 (deferred_transfers w) in
  p2 = deliver_all p1 (deferred_transfers w ++ queue_of (transfers sh1) i) ∧
  deferred = [] ∧ queue_of (transfers sh2) i = [] ∧
  (drain_deferred i sh1 (length (deferred_transfers w) + n) p1 (deferred_transfers w) false).1.1 =
    (deliver_all p1 (deferred_transfers w), []).
Proof.
  intros Hs. cbn zeta. intros Hw.
  pose proof (run_live new_random remote_sink s [] ops (initial_live new_random s Hs))
    as [Hi H0 Hsp Hc Hl].
  pose proof (lookup_lt_Some _ _ _ Hw) as Hlt. specialize (Hl i Hlt).
  set (s' := (run new_random remote_sink s ops).1) in *.
  assert (pools_of s' i = pool w) as Ep by (unfold pools_of; by rw Hw). rw Ep in Hl.
  assert (i < length (spawns (shared s'))) as Hlen by (rw Hsp; done).
  pose proof (drain_spawns_steps new_random i 0 (pool w) (shared s')
    ([] ++ (run new_random remote_sink s ops).2) [] Hlen) as Hst.
  pose proof (drain_spawns_unlimited i (pool w) (shared s') Hlen) as Hq.
  destruct (drain_spawns i 0 (pool w) (shared s')) as [[p1 sh1] b1]; cbn [fst snd] in *.
  pose proof (msteps_live new_random _ _ _ _ Hst Hl) as [Hmap _ _ _ _ _ _ _ _ _ _].
  cbn [m_pool m_shared m_dead] in Hmap.
  assert (all_installed i p1 sh1) as Hall.
  { intros a Ha%Hmap. unfold spawning in Ha. rw Hq pools_with_own !elem_of_nil in Ha. naive_solver. }
  assert (all_installed i (deliver_all p1 (deferred_transfers w)) sh1) as Hall2.
  { unfold deliver_all. apply foldl_invariant'; [|done].
    intros. by apply all_installed_deliver. }
  unfold drain_transfers. cbn [Nat.eqb].
  pose proof (drain_deferred_complete i sh1 p1 (deferred_transfers w) false 0 Hall) as Hd.
  rw Nat.add_0_r in Hd. rw Hd. rw take_ge // drain_queue_complete //.
  rw (drain_deferred_complete i sh1 p1 (deferred_transfers w) false n Hall).
  split_and!; try done.
  - unfold deliver_all. by rw foldl_app.
  - unfold queue_of. cbn [transfers set_transfers].
    destruct (decide (i < length (transfers sh1))) as [Hti|Hti].
    + rw list_lookup_insert_eq //. cbn. by rw drop_all.
    + rw lookup_ge_None_2 //. rw length_insert. lia.
Qed.
End order.


(** With the default ingress budget the order of sends is lost: an actor that spawns
    2049 children and sends the last of them the messages 1, 2 and 3, one after the
    other, has them handled in the order 2, 3, 1. *)
Theorem retained_transfers_reordered :
  calls_of 2049%N
    (demo_run 1024 (OpSpawn (Burst 2049 [1; 2; 3]%N) ∅ :: replicate 3 (OpTick 0))).2 =
  [OnStart; Handled (PMessage (MUser 2%N)); Handled (PMessage (MUser 3%N));
   Handled (PMessage (MUser 1%N))].
Proof. by vm_compute. Qed.

Lemma unlimited_ingress_in_order_witness :
  let s := (demo_run 0 (take 3 demo_life)).1 in
  let w := mkWorker demo_worker_extension 0 ∅ None false [] [] in
  workers s !! 0 = Some w ∧
  let '(p1, sh1, _) := drain_spawns 0 0 (pool w) (shared s) in
  let '(p2, _, deferred, _) := drain_transfers 0 0 p1 sh1 (deferred_transfers w) in
  p2 = deliver_all p1 (queue_of (transfers sh1) 0) ∧ deferred = [].
Proof.
  intros s w. split; [by vm_compute|].
  pose proof (unlimited_ingress_in_order demo_random None (demo_system 0) (take 3 demo_life) 0 w 0
    (demo_initial 0)) as Hu. cbn zeta in Hu.
  specialize (Hu ltac:(by vm_compute)).
  change (run demo_random None (demo_system 0) (take 3 demo_life)).1 with s in Hu.
  destruct (drain_spawns 0 0 (pool w) (shared s)) as [[p1 sh1] b1].
  destruct (drain_transfers 0 0 p1 sh1 (deferred_transfers w)) as [[[p2 sh2] df] b2].
  destruct Hu as (H1 & H2 & _). by split.
Defined.
