(* ===== verification/StdRuntime.v ===== *)
(** * The standard extension in the runtime

    [src/std/extension.rs] as the [RuntimeExtension] the workers call, and the
    publication to groups of [src/std/runtime_ext.rs]: death notices arrive in the
    mailboxes of the watchers, and a publication reaches every member. *)

From S2P Require Import Prelude Actor Worker Runtime StdExtension.
#[local] Open Scope nat_scope.

Section std_runtime.
Context (B M R : Type).
Context {ord_addr : HashOrder ActorAddress unit} {ord_name : HashOrder string unit}.

(** Any actors and messages, with the standard extension installed. *)
#[local] Instance std_universe : Universe :=
  {| Behaviour := B; UserMsg := M; ExtState := StdExtension; Request := R |}.

#[local] Instance std_extension : RuntimeExtension := {|
  on_actor_death e dead :=
    let '(e, notes) := std_actor_death e dead in
    (e, (λ n, (n.1, PMessage (MExited n.2))) <$> notes);
  ext_cleanup_dead := std_cleanup_dead;
  on_spawn e _ _ env := (e, env);
|}.

Context `{AI : !ActorInterface} `{WE : !WorkerExtension}.
Context (new_random : N → ActorAddress).
Context (remote_sink : option (ActorAddress → Payload → bool)).
Context {ord : HashOrder ActorAddress ActorSlot} {ord_types : HashOrder string N}.

(** [RuntimeGroups::publish_to], which panics without the extension. *)
Definition publish_to (sh : Shared) (group : string) (m : Message) : option (Shared * nat) :=
  match extension sh with
  | Some e =>
      Some (foldl (λ acc a, let '(sh, ok) := send_to remote_sink acc.1 a m in
                            (sh, if ok then S acc.2 else acc.2))
              (sh, 0) (members (group_registry e) group))
  | None => None
  end.

(** ** Messages on behalf of the runtime *)

Definition for_actor (a : ActorAddress) (msgs : list (ActorAddress * Payload)) : list Payload :=
  (filter (λ m, m.1 = a) msgs).*2.

Lemma deliver_lookup p b m a :
  (deliver p b m).1 !! a =
    if decide (b = a) then (λ s, deliver_slot s m) <$> p !! a else p !! a.
Proof.
  unfold deliver. destruct (p !! b) as [s|] eqn:E; cbn [fst].
  - rw lookup_insert. case_decide; [subst; by rw E|done].
  - case_decide; [subst; by rw E|done].
Qed.

Lemma for_actor_cons a b m msgs :
  for_actor a ((b, m) :: msgs) = (if decide (b = a) then [m] else []) ++ for_actor a msgs.
Proof. unfold for_actor. rw filter_cons /=. by case_decide. Qed.

(** Whatever is routed reaches an actor of the pool in order. *)
Lemma route_all_pool p sh msgs a s :
  p !! a = Some s →
  (route_all remote_sink p sh msgs).1 !! a = Some (foldl deliver_slot s (for_actor a msgs)).
Proof.
  unfold route_all. revert p sh s; induction msgs as [|[b m] msgs IH]; intros p sh s Ha; [done|].
  cbn [foldl fst snd]. rw for_actor_cons foldl_app.
  destruct (route_runtime_message remote_sink p sh b m) as [p' sh'] eqn:E.
  assert (p' !! a = Some (if decide (b = a) then deliver_slot s m else s)) as Hp.
  { unfold route_runtime_message, contains in E. destruct (decide (b = a)) as [Hba|Hba].
    - subst b. rw bool_decide_eq_true_2 in E; [by rw Ha|]. injection E as <- _.
      by rw deliver_lookup Ha decide_True.
    - case_bool_decide; [|repeat case_match; by simplify_eq].
      injection E as <- _. by rw deliver_lookup decide_False. }
  by rw (IH _ _ _ Hp); case_decide.
Qed.

Lemma deliver_staged_pool wid p sh df msgs a s :
  p !! a = Some s →
  (deliver_staged wid p sh df msgs).1 !! a = Some (foldl deliver_slot s (for_actor a msgs)).
Proof.
  unfold deliver_staged. revert p df s; induction msgs as [|[b m] msgs IH]; intros p df s Ha; [done|].
  cbn [foldl fst snd]. rw for_actor_cons foldl_app.
  destruct (deliver_or_defer_transfer wid p sh df (mkEnvelope b m)) as [[p' df'] ok] eqn:E.
  assert (p' !! a = Some (if decide (b = a) then deliver_slot s m else s)) as Hp.
  { unfold deliver_or_defer_transfer, contains in E. cbn [dest payload] in E. destruct (decide (b = a)) as [Hba|Hba].
    - subst b. rw bool_decide_eq_true_2 in E; [by rw Ha|]. injection E as <- _ _.
      by rw deliver_lookup Ha decide_True.
    - case_bool_decide; [|case_decide; by simplify_eq].
      injection E as <- _ _. by rw deliver_lookup decide_False. }
  by rw (IH _ _ _ Hp); case_decide.
Qed.

(** ** Death notices *)

(** The notices an actor is owed for a batch of the dead. *)
Definition notices (W : gset (ActorAddress * ActorAddress)) (dead : list Death) (a : ActorAddress)
    : list Payload :=
  (λ d : Death, PMessage (MExited (mkActorExited d.1.1 (announced d.1.2) d.2))) <$>
    filter (λ d : Death, (d.1.1, a) ∈ W) dead.

#[local] Instance for_actor_proper a : Proper ((≡ₚ) ==> (≡ₚ)) (for_actor a).
Proof. intros l l' Hl. unfold for_actor. by rw Hl. Qed.

Lemma for_actor_app a l l' : for_actor a (l ++ l') = for_actor a l ++ for_actor a l'.
Proof. unfold for_actor. by rw filter_app fmap_app. Qed.

Lemma notes_for_actor W d a :
  for_actor a ((λ n, (n.1, PMessage (MExited n.2))) <$> notes_for W d) ≡ₚ
    if decide ((d.1.1, a) ∈ W)
    then [PMessage (MExited (mkActorExited d.1.1 (announced d.1.2) d.2))] else [].
Proof.
  destruct d as [[t reason] value]. cbn [fst snd notes_for].
  transitivity ((λ _, PMessage (MExited (mkActorExited t (announced reason) value))) <$>
                  filter (λ p, p.2 = a) (elements (filter (λ p, p.1 = t) W))).
  { generalize (elements (filter (λ p, p.1 = t) W)). intros l.
    induction l as [|p l IH]; [done|]. rw !fmap_cons for_actor_cons filter_cons /= IH. by case_decide. }
  transitivity ((λ _, PMessage (MExited (mkActorExited t (announced reason) value))) <$>
                  (if decide ((t, a) ∈ W) then [(t, a)] else [])); [|by case_decide].
  apply fmap_Permutation, NoDup_Permutation.
  - apply NoDup_filter, NoDup_elements.
  - case_decide; repeat constructor. set_solver.
  - intros [x y]. rw list_elem_of_filter elem_of_elements elem_of_filter /=.
    case_decide; set_solver.
Qed.

Lemma notices_of_notes W dead a notes :
  notes ≡ₚ dead ≫= notes_for W →
  for_actor a ((λ n, (n.1, PMessage (MExited n.2))) <$> notes) ≡ₚ notices W dead a.
Proof.
  intros Hn. rw (for_actor_proper a _ _ (fmap_Permutation _ _ _ Hn)). unfold notices.
  clear Hn. induction dead as [|d dead IH]; [done|].
  rw bind_cons fmap_app for_actor_app notes_for_actor filter_cons IH. by case_decide.
Qed.
(** What a worker removes: the dead of its pool, each once and with the reason and value
    of its slot. *)
Definition death_of (a : ActorAddress) (s : ActorSlot) : Death :=
  (a, determine_stop_reason (poisoned s) (bool_decide (is_Some (exit_value s))), exit_value s).

Lemma cleanup_fold_result wid xs P dead :
  NoDup xs.*1 → (∀ a s, (a, s) ∈ xs → p_pool P !! a = Some s) →
  let r := foldl (cleanup_step new_random remote_sink wid) (P, dead) xs.*1 in
  r.2 = dead ++ ((λ x, death_of x.1 x.2) <$> xs) ∧
  ∀ b, b ∉ xs.*1 → p_pool r.1 !! b = p_pool P !! b.
Proof.
  revert P dead; induction xs as [|[a s] xs IH]; intros P dead Hnd Hin; [by rw app_nil_r|].
  rw fmap_cons in Hnd. apply NoDup_cons in Hnd as [Ha Hnd]. rw !fmap_cons. cbn [foldl fst snd].
  destruct (cleanup_step new_random remote_sink wid (P, dead) a) as [P1 dead1] eqn:E.
  assert (dead1 = dead ++ [death_of a s] ∧ p_pool P1 = delete a (p_pool P)) as [-> Ep].
  { unfold cleanup_step in E. rw (Hin a s) in E; [by left|].
    destruct (is_on_stop_eligible _ _); [destruct (run_prog _ _ _ _ _ _ _) as [[]]|]; by simplify_eq. }
  destruct (IH P1 (dead ++ [death_of a s]) Hnd) as [E1 E2].
  { intros b t Hb. rw Ep lookup_delete_ne; [|apply Hin; by right].
    intros ->. apply Ha. apply list_elem_of_fmap. by exists (b, t). }
  cbn zeta. rw E1 -assoc. split; [done|]. intros b. rw not_elem_of_cons. intros [Hb1 Hb2].
  rw E2 // Ep lookup_delete_ne //.
Qed.

Lemma cleanup_dead_result wid p sh :
  let r := cleanup_dead new_random remote_sink wid p sh in
  NoDup (dead_of r.2) ∧
  (∀ d, d ∈ r.2 ↔ ∃ s, p !! d.1.1 = Some s ∧ is_dead s = true ∧ d = death_of d.1.1 s) ∧
  ∀ a s, p !! a = Some s → is_dead s = false → p_pool r.1 !! a = Some s.
Proof.
  cbn zeta. unfold cleanup_dead. set (xs := filter _ _).
  assert (∀ a s, (a, s) ∈ xs ↔ p !! a = Some s ∧ is_dead s = true) as Hx.
  { intros a s. unfold xs. rw list_elem_of_filter elem_of_hash_iter. by split; intros [??]. }
  assert (NoDup xs.*1) as Hnd.
  { eapply sublist_NoDup; [apply (hash_iter_nodup ord p)|]. apply fmap_sublist, sublist_filter. }
  destruct (cleanup_fold_result wid xs (mkPass p sh no_staging 0 []) [] Hnd) as [E1 E2].
  { intros a s Has. by apply Hx in Has as [??]. }
  rw E1. split_and!.
  - unfold dead_of. by rw /= -list_fmap_compose.
  - intros d. cbn [app]. rw list_elem_of_fmap. split.
    + intros ([a s] & -> & Hin). exists s. cbn [fst snd death_of]. by apply Hx in Hin as [??].
    + intros (s & Hs & Hd & E). exists (d.1.1, s). split; [done|]. by apply Hx.
  - intros a s Hs Hd. rw E2 //. rw list_elem_of_fmap. intros ([b t] & -> & Hin).
    apply Hx in Hin as [??]. cbn in *. congruence.
Qed.

(** Watchers learn of deaths: when a worker removes the dead of its pool, every
    surviving actor of the pool finds in its mailbox exactly one [ActorExited] for each
    of them it watched, with the reason and the exit value the dead actor left, followed
    by what the [on_stop] callbacks sent it in the order they sent it. The removed are
    exactly the actors that were stopping or had crashed. *)
Theorem death_notices_delivered wid p sh wext df a s e W :
  let r := cleanup_dead new_random remote_sink wid p sh in
  p !! a = Some s → is_dead s = false → extension (p_shared r.1) = Some e →
  represents (watchers (watch_registry e)) (watching (watch_registry e)) W →
  (∀ d, d ∈ r.2 ↔ ∃ t, p !! d.1.1 = Some t ∧ is_dead t = true ∧ d = death_of d.1.1 t) ∧
  ∃ notes, notes ≡ₚ notices W r.2 a ∧
    (cleanup_dead_actors new_random remote_sink wid p sh wext df).1.1.1.1.1 !! a =
      Some (foldl deliver_slot s (notes ++ for_actor a (pending_local (p_staging r.1)))).
Proof.
  intros r Hs Hd He HW. unfold cleanup_dead_actors.
  destruct (cleanup_dead_result wid p sh) as (Hnd & Hdead & Hlive). fold r in Hnd, Hdead, Hlive.
  specialize (Hlive a s Hs Hd). split; [done|]. fold r. destruct r as [P dead]. cbn [fst snd] in *.
  case_bool_decide as Ed; cbn [negb].
  - subst dead. exists []. split; [done|].
    pose proof (deliver_staged_pool wid (p_pool P) (p_shared P) df (pending_local (p_staging P)) a s Hlive) as Hf.
    by destruct (deliver_staged _ _ _ _ _) as [p' df'].
  - cbn [extension set_address_map shared_eta]. unfold shared_eta. cbn [extension]. rw He.
    cbn [on_actor_death std_extension]. unfold std_actor_death.
    destruct (deaths_notified dead (watch_registry e) W HW) as [_ Hn]. rw notes_of_distinct // in Hn.
    destruct (emit_all _ _ _) as [w notes]. cbn [snd] in Hn.
    set (msgs := _ <$> notes). set (sh1 := set_extension _ _).
    exists (for_actor a msgs). split; [by apply notices_of_notes|].
    pose proof (route_all_pool (p_pool P) sh1 msgs a s Hlive) as Hra.
    destruct (route_all remote_sink (p_pool P) sh1 msgs) as [p2 sh2].
    pose proof (deliver_staged_pool wid p2 sh2 df (pending_local (p_staging P)) a _ Hra) as Hds.
    destruct (deliver_staged _ _ _ _ _) as [p' df']. cbn [fst] in *. by rw Hds foldl_app.
Qed.

End std_runtime.

(** ** A worker with a watcher *)

#[local] Instance still_universe : Universe := std_universe unit N unit.

#[local] Instance still_actors : ActorInterface := {|
  type_of _ := 0%N;
  incoming _ _ := true;
  metadata _ := mkMetadata 0%N "still" 0%N "N";
  handle b _ _ := Ret b;
  on_start b _ := Ret b;
  on_stop b ctx := Send 2%N (MUser 9%N) (λ _, Ret b);
  handle_down b _ _ := Ret b;
  on_actor_exit b _ _ := Ret b;
|}.

#[local] Instance no_worker_extension : WorkerExtension := {|
  WExt := unit;
  has_pending_work _ := false;
  on_tick x := (x, []);
  handle_request x _ := x;
  gc_dead x _ := x;
|}.

#[local] Instance pool_order : HashOrder ActorAddress ActorSlot :=
  default_order _ _.
#[local] Instance types_order : HashOrder string N := default_order _ _.
#[local] Instance address_order : HashOrder ActorAddress unit := default_order _ _.
#[local] Instance string_order : HashOrder string unit := default_order _ _.

(** Actor 1 stops with the value 3; actor 2 watches it, and gets its last message. *)
Definition still_slot (stopping : bool) (v : option ExitValue)
    : ActorSlot :=
  mkActorSlot [] () false stopping true false None 0 ∅ None ∅ v.

Definition still_pool : gmap ActorAddress ActorSlot :=
  {[ 1%N := still_slot true (Some 3%N); 2%N := still_slot false None ]}.

Definition still_extension : StdExtension :=
  set_watch_registry StdExtension.new (watch (mkWatchState ∅ ∅) 2%N 1%N).

Definition still_shared : Shared :=
  mkShared (mkRuntimeConfig 64 1 0) {[ 1%N := 0; 2%N := 0 ]} ∅ (Some still_extension)
    [[]] [[]] [[]] 0 ∅ [] 0.

Lemma death_notices_delivered_witness :
  (cleanup_dead_actors (RE := std_extension unit N unit) (λ n, n) None 0 still_pool still_shared
     None []).1.1.1.1.1 !! 2%N =
  Some (set_mailbox (still_slot false None)
          [PMessage (MExited (mkActorExited 1%N ExitCompleted (Some 3%N)));
           PMessage (MUser 9%N)]).
Proof.
  assert (represents (watchers (watch_registry still_extension))
            (watching (watch_registry still_extension)) {[(1%N, 2%N)]}) as HW.
  { replace {[(1%N, 2%N)]} with ({[(1%N, 2%N)]} ∪ ∅ : gset (ActorAddress * ActorAddress));
      [|set_solver].
    apply represents_insert. intros k a. unfold at_key. rw !lookup_empty /=. set_solver. }
  destruct (death_notices_delivered unit N unit (λ n, n) None 0 still_pool still_shared None []
    2%N (still_slot false None) still_extension {[(1%N, 2%N)]}) as (_ & notes & Hn & ->);
    [by vm_compute|done|by vm_compute|exact HW|].
  assert (notices unit N unit {[(1%N, 2%N)]}
    (cleanup_dead (λ n, n) None 0 still_pool still_shared).2 2%N =
    [PMessage (MExited (mkActorExited 1%N ExitCompleted (Some 3%N)))]) as En by by vm_compute.
  rw En in Hn. apply Permutation_singleton_r in Hn as ->. by vm_compute.
Defined.
