(* ===== verification/Memory.v ===== *)
(** * Shared memory and programs over it

    The arena is one region of bytes that several processes map.  A routine that works on
    the region is a [prog]: the tree of its loads and stores, one node per access, so that
    accesses of two routines can be interleaved.  An 8-byte load or store stands for an
    access to an [AtomicU64]; a longer one for a [copy_nonoverlapping]. *)

From S2P Require Import Prelude.
#[local] Open Scope N_scope.

(** ** Bytes *)

(** [to_le_bytes] and [from_le_bytes]. *)
Fixpoint le_bytes (n : nat) (v : N) : list N :=
  match n with
  | O => []
  | S n => v mod 256 :: le_bytes n (v / 256)
  end.

Fixpoint le_value (bs : list N) : N :=
  match bs with
  | [] => 0
  | b :: bs => b + 256 * le_value bs
  end.

(** The region, by offset. *)
Definition Mem := N → N.

Definition mread (m : Mem) (pos n : N) : list N :=
  (λ i, m (pos + N.of_nat i)) <$> seq 0 (N.to_nat n).

Definition mwrite (m : Mem) (pos : N) (bs : list N) : Mem := λ x,
  if (pos <=? x) && (x <? pos + N.of_nat (length bs))
  then bs !!! N.to_nat (x - pos) else m x.

(** ** Programs *)

Inductive prog (A : Type) :=
  | Ret (a : A)
  | Load (pos n : N) (k : list N → prog A)
  | Store (pos : N) (bs : list N) (k : prog A)
  | Abort.
Arguments Ret {A} a.
Arguments Load {A} pos n k.
Arguments Store {A} pos bs k.
Arguments Abort {A}.

#[global] Instance prog_ret : MRet prog := λ A a, Ret a.
#[global] Instance prog_bind : MBind prog := λ A B f, fix go p :=
  match p with
  | Ret a => f a
  | Load pos n k => Load pos n (λ bs, go (k bs))
  | Store pos bs k => Store pos bs (go k)
  | Abort => Abort
  end.

(** The [?] operator and [map_err] on fallible programs. *)
Definition try_bind {E A B} (p : prog (E + A)) (f : A → prog (E + B)) : prog (E + B) :=
  r ← p;
  match r with
  | inl e => Ret (inl e)
  | inr a => f a
  end.

Definition map_err {E F A} (f : E → F) (p : prog (E + A)) : prog (F + A) :=
  r ← p;
  Ret (match r with inl e => inl (f e) | inr a => inr a end).

Notation "x '<-?' p ; q" := (try_bind p (λ x, q))
  (at level 100, p at next level, q at level 200, right associativity,
   format "x  <-?  p ; '//' q") : swactor_scope.
Notation "p ;? q" := (try_bind p (λ _ : unit, q))
  (at level 100, q at level 200, right associativity, format "p ;? '//' q") : swactor_scope.

Definition load (pos n : N) : prog (list N) := Load pos n Ret.
Definition load_value (pos n : N) : prog N := Load pos n (λ bs, Ret (le_value bs)).
Definition store (pos : N) (bs : list N) : prog unit := Store pos bs (Ret tt).

(** [assert_eq!]. *)
Definition check_that (b : bool) : prog unit := if b then Ret tt else Abort.

(** One access, and a program run alone.  [None] is a panic. *)
Definition prog_step {A} (p : prog A) (m : Mem) : prog A * Mem :=
  match p with
  | Load pos n k => (k (mread m pos n), m)
  | Store pos bs k => (k, mwrite m pos bs)
  | _ => (p, m)
  end.

Fixpoint exec {A} (p : prog A) (m : Mem) : option (A * Mem) :=
  match p with
  | Ret a => Some (a, m)
  | Load pos n k => exec (k (mread m pos n)) m
  | Store pos bs k => exec k (mwrite m pos bs)
  | Abort => None
  end.

(** Every access is inside [[lo, hi)] and the result satisfies [Q], whatever the loads
    return. *)
Fixpoint confines {A} (lo hi : N) (Q : A → Prop) (p : prog A) : Prop :=
  match p with
  | Ret a => Q a
  | Load pos n k => lo ≤ pos ∧ pos + n ≤ hi ∧
                    ∀ bs, length bs = N.to_nat n → confines lo hi Q (k bs)
  | Store pos bs k => lo ≤ pos ∧ pos + N.of_nat (length bs) ≤ hi ∧ confines lo hi Q k
  | Abort => True
  end.

Definition confined {A} (lo hi : N) (p : prog A) : Prop := confines lo hi (λ _, True) p.

(** At most [k] accesses, whatever the loads return. *)
Fixpoint within {A} (k : nat) (p : prog A) : Prop :=
  match p, k with
  | Load _ _ f, S k => ∀ bs, within k (f bs)
  | Store _ _ p, S k => within k p
  | Load _ _ _, O | Store _ _ _, O => False
  | _, _ => True
  end.

(** ** Lemmas *)

Lemma length_le_bytes n v : length (le_bytes n v) = n.
Proof. elim: n v => //= n IH v. by rw IH. Qed.

Lemma le_value_bytes n v : v < 256 ^ N.of_nat n → le_value (le_bytes n v) = v.
Proof.
  elim: n v => [|n IH] v; first by simpl; lia.
  rw Nat2N.inj_succ N.pow_succ_r' => Hv /=.
  rw IH; first by apply N.Div0.div_lt_upper_bound; lia.
  rw N.add_comm. by rw -N.div_mod.
Qed.

Lemma le_value_bytes_mod n v : le_value (le_bytes n v) = v mod 256 ^ N.of_nat n.
Proof.
  elim: n v => [|n IH] v; first by rw N.mod_1_r.
  rw Nat2N.inj_succ N.pow_succ_r' /= IH N.Div0.mod_mul_r; lia.
Qed.

Lemma length_mread m pos n : length (mread m pos n) = N.to_nat n.
Proof. by rw /mread length_fmap length_seq. Qed.

Lemma lookup_mread m pos n i :
  (i < N.to_nat n)%nat → mread m pos n !! i = Some (m (pos + N.of_nat i)).
Proof. move=> Hi. rw /mread list_lookup_fmap lookup_seq_lt //. Qed.

(** Two reads are the same when the bytes are. *)
Lemma mread_ext m1 m2 pos1 pos2 n :
  (∀ i, i < n → m1 (pos1 + i) = m2 (pos2 + i)) → mread m1 pos1 n = mread m2 pos2 n.
Proof.
  move=> H. rw /mread. apply list_fmap_ext => i x /lookup_seq [-> Hi]. apply H. lia.
Qed.

Lemma mread_app m pos n1 n2 : mread m pos (n1 + n2) = mread m pos n1 ++ mread m (pos + n1) n2.
Proof.
  rw /mread N2Nat.inj_add seq_app fmap_app. f_equal.
  rw -(Nat.add_0_r (0 + N.to_nat n1)) -fmap_add_seq -list_fmap_compose.
  apply list_fmap_ext => i x _ /=. f_equal. lia.
Qed.

Lemma mwrite_out m pos bs x :
  ¬ (pos ≤ x ∧ x < pos + N.of_nat (length bs)) → mwrite m pos bs x = m x.
Proof.
  move=> H. rw /mwrite. case: (N.leb_spec pos x) => ? //=.
  case: (N.ltb_spec x (pos + N.of_nat (length bs))) => ? //. lia.
Qed.

Lemma mwrite_in m pos bs i b : bs !! i = Some b → mwrite m pos bs (pos + N.of_nat i) = b.
Proof.
  move=> H. have ? := lookup_lt_Some _ _ _ H. rw /mwrite.
  have -> : (pos <=? pos + N.of_nat i) = true by apply N.leb_le; lia.
  have -> : (pos + N.of_nat i <? pos + N.of_nat (length bs)) = true by apply N.ltb_lt; lia.
  cbn. have -> : N.to_nat (pos + N.of_nat i - pos) = i by lia.
  by apply list_lookup_total_correct.
Qed.

Lemma mwrite_nil m pos x : mwrite m pos [] x = m x.
Proof. apply mwrite_out => /=. lia. Qed.

Lemma mread_mwrite_same m pos bs n :
  n = N.of_nat (length bs) → mread (mwrite m pos bs) pos n = bs.
Proof.
  move=> ->. apply list_eq => i. case: (decide (i < length bs)%nat) => Hi.
  - rw lookup_mread; first lia. have [b Hb] := lookup_lt_is_Some_2 bs i Hi.
    by rw (mwrite_in _ _ _ _ b).
  - rw lookup_ge_None_2; first by rw length_mread; lia.
    rw lookup_ge_None_2 //. lia.
Qed.

Lemma mread_mwrite_other m pos bs pos' n :
  pos' + n ≤ pos ∨ pos + N.of_nat (length bs) ≤ pos' →
  mread (mwrite m pos bs) pos' n = mread m pos' n.
Proof. move=> H. apply mread_ext => i Hi. apply mwrite_out. lia. Qed.

Lemma exec_bind {A B} (p : prog A) (f : A → prog B) m :
  exec (p ≫= f) m = '(a, m') ← exec p m; exec (f a) m'.
Proof. elim: p m => [a|pos n k IH|pos bs k IH|] m //=. Qed.

Lemma confines_bind {A B} lo hi (Q : A → Prop) (Q' : B → Prop) (p : prog A) (f : A → prog B) :
  confines lo hi Q p → (∀ a, Q a → confines lo hi Q' (f a)) → confines lo hi Q' (p ≫= f).
Proof.
  move=> Hp Hf. elim: p Hp => [a|pos n k IH|pos bs k IH|] //=.
  - apply Hf.
  - move=> [H1 [H2 H3]]. split; [done|]. split; [done|]. move=> bs Hl. by apply IH, H3.
  - move=> [H1 [H2 H3]]. split; [done|]. split; [done|]. by apply IH.
Qed.

Lemma confined_bind {A B} lo hi (p : prog A) (f : A → prog B) :
  confined lo hi p → (∀ a, confined lo hi (f a)) → confined lo hi (p ≫= f).
Proof. move=> Hp Hf. apply: confines_bind Hp _ => a _. apply Hf. Qed.

Lemma within_mono {A} (p : prog A) k1 k2 : (k1 ≤ k2)%nat → within k1 p → within k2 p.
Proof.
  elim: p k1 k2 => [a|pos n f IH|pos bs p IH|] [|k1] [|k2] Hk //=; try lia.
  - move=> H bs. apply (IH _ k1); [lia|done].
  - move=> H. apply (IH k1); [lia|done].
Qed.

Lemma within_bind {A B} k1 k2 (p : prog A) (f : A → prog B) :
  within k1 p → (∀ a, within k2 (f a)) → within (k1 + k2) (p ≫= f).
Proof.
  move=> Hp Hf. elim: p k1 Hp => [a|pos n g IH|pos bs p IH|] k1 Hp.
  - apply (within_mono _ k2); [lia|apply Hf].
  - destruct k1 => //= bs. by apply IH.
  - destruct k1 => //=. by apply IH.
  - by destruct k1, k2.
Qed.
