(* ===== verification/ByteRing.v ===== *)
(** * Byte rings

    [crates/data-plane/src/byte_ring.rs]: the protocol by which one producer and one
    consumer move a stream of bytes through a ring of the arena.  Every routine is a
    program over the shared region ([Memory]): the header is read again at each use, in
    the order the code reads it, so an endpoint can be run beside its peer.  The offset of
    the ring in the region stands for the [header] pointer. *)

From S2P Require Import Prelude Memory.
#[local] Open Scope N_scope.

(** The wrapping difference of a release build. *)
Definition u64_sub (a b : N) : N := (a + u64_modulus - b) mod u64_modulus.

(** ** Layout of the header *)

Definition RING_MAGIC : N := le_value [83; 87; 82; 71].
Definition RING_VERSION : N := 1.
Definition DATA_OFFSET : N := 128.
Definition OFF_MAGIC : N := 0.
Definition OFF_VERSION : N := 4.
Definition OFF_RESERVED : N := 6.
Definition OFF_CAPACITY : N := 8.
Definition OFF_GENERATION : N := 16.
Definition OFF_COMMIT : N := 24.
Definition OFF_CONSUME : N := 32.
Definition OFF_TERMINAL : N := 40.
Definition RECORD_HEADER_LEN : N := 5.

(** The header [install] writes: the cursors and the mark are zero. *)
Definition header_image (capacity generation : N) : list N :=
  le_bytes 4 RING_MAGIC ++ le_bytes 2 RING_VERSION ++ le_bytes 2 0 ++
  le_bytes 8 capacity ++ le_bytes 8 generation ++ replicate 104 0.

(** ** Data *)

Record RingHandle := mkRingHandle {
  offset : N;
  capacity : N;
  generation : N;
  lease_id : N;
}.

Inductive Role := Producer | Consumer.
#[export] Instance Role_eq_dec : EqDecision Role.
Proof. solve_decision. Defined.

Inductive PeerTermination := Closed | PathReplaced.

Record Reservation := mkReservation {
  r_start : N;
  r_len : N;
  r_generation : N;
}.

Inductive RecordKind := Data | Eof | Fault.
#[export] Instance RecordKind_eq_dec : EqDecision RecordKind.
Proof. solve_decision. Defined.

Definition to_byte (k : RecordKind) : N :=
  match k with Data => 1 | Eof => 2 | Fault => 3 end.

Definition from_byte (byte : N) : option RecordKind :=
  match byte with 1 => Some Data | 2 => Some Eof | 3 => Some Fault | _ => None end.

Record RecordMeta := mkRecordMeta { meta_kind : RecordKind; meta_len : N }.

Record RecordCursor := mkRecordCursor {
  c_kind : RecordKind;
  payload_start : N;
  payload_len : N;
  record_start : N;
  record_len : N;
  c_generation : N;
}.

(** A pinned record holds the fields of a cursor, and whether it was released. *)
Record PinnedRecord := mkPinnedRecord { pinned : RecordCursor; released : bool }.

Record WritableRecord := mkWritableRecord {
  reservation : Reservation;
  w_payload_start : N;
  w_payload_len : N;
}.

Inductive HeaderError :=
  | BadMagic (found : N)
  | UnsupportedVersion (found supported : N)
  | ReservedBytesNotZero (at_ : N)
  | CapacityMismatch (header handle : N)
  | GenerationMismatch (header handle : N)
  | CommitBelowConsume (commit consume : N)
  | ReadableExceedsCapacity (commit consume capacity : N).

Inductive RecordError :=
  | LengthExceedsCapacity (len capacity : N)
  | InvalidKind (byte : N)
  | LengthExceedsWire (len : N).

Inductive FlowError :=
  | InsufficientSpace (requested free : N)
  | BeyondCommitted (requested readable : N)
  | StaleReservation (reservation ring : N)
  | RoleViolation (operation : string) (role : Role)
  | Corrupt (e : HeaderError)
  | PinnedRecordMoved (expected found : N)
  | BadRecord (e : RecordError)
  | InvalidPeerTermination (found : N).

Record Endpoint := mkEndpoint { header : N; info : RingHandle; role : Role }.
Record RingProbe := mkRingProbe { p_header : N; p_info : RingHandle }.

Definition probe (e : Endpoint) : RingProbe := mkRingProbe (header e) (info e).

(** ** Field access *)

Definition field_u16 (e : Endpoint) (off : N) : prog N := load_value (header e + off) 2.
Definition field_u32 (e : Endpoint) (off : N) : prog N := load_value (header e + off) 4.
Definition field_u64 (e : Endpoint) (off : N) : prog N := load_value (header e + off) 8.
Definition commit_cursor (e : Endpoint) : prog N := field_u64 e OFF_COMMIT.
Definition consume_cursor (e : Endpoint) : prog N := field_u64 e OFF_CONSUME.
Definition store_u64 (e : Endpoint) (off v : N) : prog unit := store (header e + off) (le_bytes 8 v).

(** ** Validation *)

Definition validate_fixed (e : Endpoint) : prog (HeaderError + unit) :=
  magic ← field_u32 e OFF_MAGIC;
  if negb (magic =? RING_MAGIC) then Ret (inl (BadMagic magic)) else
  version ← field_u16 e OFF_VERSION;
  if negb (version =? RING_VERSION)
  then Ret (inl (UnsupportedVersion version RING_VERSION)) else
  reserved ← field_u16 e OFF_RESERVED;
  if negb (reserved =? 0) then Ret (inl (ReservedBytesNotZero OFF_RESERVED)) else
  cap ← field_u64 e OFF_CAPACITY;
  if negb (cap =? capacity (info e))
  then Ret (inl (CapacityMismatch cap (capacity (info e)))) else
  Ret (inr tt).

Definition validate_generation (e : Endpoint) (expected : N) : prog (HeaderError + unit) :=
  g ← field_u64 e OFF_GENERATION;
  Ret (if negb (g =? expected) then inl (GenerationMismatch g expected) else inr tt).

Definition validate_cursors (e : Endpoint) : prog (HeaderError + unit) :=
  commit ← commit_cursor e;
  consume ← consume_cursor e;
  Ret (if commit <? consume then inl (CommitBelowConsume commit consume)
       else if capacity (info e) <? commit - consume
            then inl (ReadableExceedsCapacity commit consume (capacity (info e)))
            else inr tt).

Definition check (e : Endpoint) (operation : string) (r : Role) : prog (FlowError + unit) :=
  if decide (role e = r) then
    map_err Corrupt (validate_fixed e) ;?
    map_err Corrupt (validate_cursors e)
  else Ret (inl (RoleViolation operation (role e))).

(** ** Wrapped copies

    The two spans of a range of the stream: up to the end of the data region, and from
    its start.  A ring of capacity zero divides by zero. *)

Definition data_ptr (e : Endpoint) : N := header e + DATA_OFFSET.

Definition spans (e : Endpoint) (stream_pos len : N) : (N * N) * (N * N) :=
  let start := stream_pos mod capacity (info e) in
  let first := N.min len (capacity (info e) - start) in
  ((data_ptr e + start, first), (data_ptr e, len - first)).

Definition copy_into (e : Endpoint) (stream_pos : N) (bytes : list N) : prog unit :=
  check_that (negb (capacity (info e) =? 0));;
  let '((p1, n1), (p2, n2)) := spans e stream_pos (N.of_nat (length bytes)) in
  store p1 (take (N.to_nat n1) bytes);;
  store p2 (drop (N.to_nat n1) bytes).

(** [copy_out], [copy_into_slice], and reading the slices of [read_spans]. *)
Definition copy_out (e : Endpoint) (stream_pos len : N) : prog (list N) :=
  check_that (negb (capacity (info e) =? 0));;
  let '((p1, n1), (p2, n2)) := spans e stream_pos len in
  first ← load p1 n1;
  second ← load p2 n2;
  Ret (first ++ second).

(** ** Producer side *)

Definition stale_check (e : Endpoint) (held : N) : prog (FlowError + unit) :=
  g ← field_u64 e OFF_GENERATION;
  Ret (if negb (g =? held) then inl (StaleReservation held g) else inr tt).

(** [check], then the generation of the handle. *)
Definition check_current (e : Endpoint) (operation : string) (r : Role)
    : prog (FlowError + unit) :=
  check e operation r ;?
  map_err Corrupt (validate_generation e (generation (info e))).

Definition reserve (e : Endpoint) (len : N) : prog (FlowError + Reservation) :=
  check_current e "reserve" Producer ;?
  commit ← commit_cursor e;
  consume ← consume_cursor e;
  let used := u64_sub commit consume in
  let free := u64_sub (capacity (info e)) used in
  Ret (if free <? len then inl (InsufficientSpace len free)
       else inr (mkReservation commit len (generation (info e)))).

Definition writable_payload_capacity (e : Endpoint) : prog (FlowError + N) :=
  check_current e "writable_payload_capacity" Producer ;?
  commit ← commit_cursor e;
  consume ← consume_cursor e;
  let used := u64_sub commit consume in
  Ret (inr (u64_sub (capacity (info e)) used - RECORD_HEADER_LEN)).

Definition write (e : Endpoint) (r : Reservation) (bytes : list N) : prog (FlowError + unit) :=
  check e "write" Producer ;?
  stale_check e (r_generation r) ;?
  check_that (r_len r =? N.of_nat (length bytes));;
  copy_into e (r_start r) bytes;;
  Ret (inr tt).

Definition commit (e : Endpoint) (r : Reservation) : prog (FlowError + unit) :=
  check e "commit" Producer ;?
  stale_check e (r_generation r) ;?
  commit ← commit_cursor e;
  check_that (r_start r =? commit);;
  store_u64 e OFF_COMMIT (commit +64 r_len r);;
  Ret (inr tt).

Definition prefix (k : RecordKind) (len : N) : list N :=
  to_byte k :: le_bytes 4 (len mod u32_modulus).

Definition reserve_record (e : Endpoint) (k : RecordKind) (len : N)
    : prog (FlowError + WritableRecord) :=
  if u32_max <? len then Ret (inl (BadRecord (LengthExceedsWire len))) else
  if capacity (info e) <? RECORD_HEADER_LEN + len
  then Ret (inl (BadRecord (LengthExceedsCapacity len (capacity (info e))))) else
  r <-? reserve e (RECORD_HEADER_LEN + len);
  copy_into e (r_start r) (prefix k len);;
  Ret (inr (mkWritableRecord r (r_start r +64 RECORD_HEADER_LEN) len)).

(** [WritableRecord::spans_mut] lends the two spans of the payload; [fill] writes them. *)
Definition fill (e : Endpoint) (w : WritableRecord) (bytes : list N) : prog unit :=
  check_that (w_payload_len w =? N.of_nat (length bytes));;
  copy_into e (w_payload_start w) bytes.

Definition commit_record (e : Endpoint) (w : WritableRecord) : prog (FlowError + unit) :=
  commit e (reservation w).

Definition send_record (e : Endpoint) (k : RecordKind) (bytes : list N)
    : prog (FlowError + unit) :=
  let len := N.of_nat (length bytes) in
  if capacity (info e) <? RECORD_HEADER_LEN + len
  then Ret (inl (BadRecord (LengthExceedsCapacity len (capacity (info e))))) else
  r <-? reserve e (RECORD_HEADER_LEN + len);
  copy_into e (r_start r) (prefix k len);;
  copy_into e (r_start r +64 RECORD_HEADER_LEN) bytes;;
  commit e r.

(** ** Consumer side *)

Definition readable (e : Endpoint) : prog (FlowError + N) :=
  check e "readable" Consumer ;?
  commit ← commit_cursor e;
  consume ← consume_cursor e;
  Ret (inr (u64_sub commit consume)).

Definition read (e : Endpoint) (len : N) : prog (FlowError + list N) :=
  check e "read" Consumer ;?
  commit ← commit_cursor e;
  consume ← consume_cursor e;
  let readable := u64_sub commit consume in
  if readable <? len then Ret (inl (BeyondCommitted len readable)) else
  bytes ← copy_out e consume len;
  Ret (inr bytes).

Definition consume (e : Endpoint) (len : N) : prog (FlowError + unit) :=
  check e "consume" Consumer ;?
  commit ← commit_cursor e;
  consume ← consume_cursor e;
  let readable := u64_sub commit consume in
  if readable <? len then Ret (inl (BeyondCommitted len readable)) else
  store_u64 e OFF_CONSUME (consume +64 len);;
  Ret (inr tt).

(** The next complete record, as [next_record_meta], [peek_record], [record_cursor] and
    [recv_record] find it once they have checked the header: [None] while fewer bytes than
    the record takes are committed. *)
Definition next_record (e : Endpoint) : prog (FlowError + option (RecordKind * N * N)) :=
  commit ← commit_cursor e;
  consume ← consume_cursor e;
  let readable := u64_sub commit consume in
  if readable <? RECORD_HEADER_LEN then Ret (inr None) else
  prefix ← copy_out e consume RECORD_HEADER_LEN;
  match from_byte (prefix !!! 0%nat) with
  | None => Ret (inl (BadRecord (InvalidKind (prefix !!! 0%nat))))
  | Some k =>
      let len := le_value (drop 1 prefix) in
      if capacity (info e) <? RECORD_HEADER_LEN + len
      then Ret (inl (BadRecord (LengthExceedsCapacity len (capacity (info e))))) else
      if readable <? RECORD_HEADER_LEN + len then Ret (inr None)
      else Ret (inr (Some (k, len, consume)))
  end.

Definition next_record_meta (e : Endpoint) : prog (FlowError + option RecordMeta) :=
  check_current e "next_record_meta" Consumer ;?
  r <-? next_record e;
  Ret (inr ((λ '(k, len, _), mkRecordMeta k len) <$> r)).

Definition cursor_at (e : Endpoint) (k : RecordKind) (len consume : N) : RecordCursor :=
  mkRecordCursor k (consume +64 RECORD_HEADER_LEN) len consume (RECORD_HEADER_LEN + len)
    (generation (info e)).

Definition peek_record (e : Endpoint) : prog (FlowError + option PinnedRecord) :=
  check_current e "peek_record" Consumer ;?
  r <-? next_record e;
  Ret (inr ((λ '(k, len, c), mkPinnedRecord (cursor_at e k len c) false) <$> r)).

Definition record_cursor (e : Endpoint) : prog (FlowError + option RecordCursor) :=
  check_current e "record_cursor" Consumer ;?
  r <-? next_record e;
  Ret (inr ((λ '(k, len, c), cursor_at e k len c) <$> r)).

(** The record of a cursor is still the first of the ring. *)
Definition still_first (e : Endpoint) (operation : string) (c : RecordCursor)
    : prog (FlowError + unit) :=
  check e operation Consumer ;?
  stale_check e (c_generation c) ;?
  consume ← consume_cursor e;
  Ret (if negb (consume =? record_start c)
       then inl (PinnedRecordMoved (record_start c) consume) else inr tt).

Definition release_inner (e : Endpoint) (c : RecordCursor) : prog (FlowError + unit) :=
  still_first e "release_record" c ;?
  store_u64 e OFF_CONSUME (record_start c +64 record_len c);;
  Ret (inr tt).

(** [PinnedRecord::release] and its [Drop]. *)
Definition release (e : Endpoint) (p : PinnedRecord)
    : prog (FlowError + unit) := release_inner e (pinned p).

Definition drop_pinned (e : Endpoint) (p : PinnedRecord) : prog unit :=
  if released p then Ret tt else release_inner e (pinned p);; Ret tt.

(** Reading the slices of [PinnedRecord::spans]. *)
Definition read_pinned (e : Endpoint) (p : PinnedRecord) : prog (list N) :=
  copy_out e (payload_start (pinned p)) (payload_len (pinned p)).

Definition copy_record_range (e : Endpoint) (c : RecordCursor) (off len : N)
    : prog (FlowError + list N) :=
  still_first e "copy_record_range" c ;?
  if payload_len c <? off then Ret (inl (BeyondCommitted off (payload_len c))) else
  let count := N.min len (payload_len c - off) in
  bytes ← copy_out e (payload_start c +64 off) count;
  Ret (inr bytes).

Definition release_record_cursor (e : Endpoint) (c : RecordCursor) : prog (FlowError + unit) :=
  still_first e "release_record_cursor" c ;?
  store_u64 e OFF_CONSUME (record_start c +64 record_len c);;
  Ret (inr tt).

Definition recv_record (e : Endpoint) : prog (FlowError + option (RecordKind * list N)) :=
  check e "recv_record" Consumer ;?
  r <-? next_record e;
  match r with
  | None => Ret (inr None)
  | Some (k, len, consume) =>
      payload ← copy_out e (consume +64 RECORD_HEADER_LEN) len;
      store_u64 e OFF_CONSUME ((consume +64 RECORD_HEADER_LEN) +64 len);;
      Ret (inr (Some (k, payload)))
  end.

(** ** Observers *)

Definition peer_termination (e : Endpoint) : prog (FlowError + option PeerTermination) :=
  map_err Corrupt (validate_fixed e) ;?
  map_err Corrupt (validate_generation e (generation (info e))) ;?
  found ← field_u64 e OFF_TERMINAL;
  Ret (match found with
       | 0 => inr None
       | 1 => inr (Some Closed)
       | 2 => inr (Some PathReplaced)
       | _ => inl (InvalidPeerTermination found)
       end).

Definition positions (e : Endpoint) : prog (FlowError + N * N) :=
  map_err Corrupt (validate_fixed e) ;?
  map_err Corrupt (validate_generation e (generation (info e))) ;?
  map_err Corrupt (validate_cursors e) ;?
  commit ← commit_cursor e;
  consume ← consume_cursor e;
  Ret (inr (commit, consume)).

Definition probe_positions (p : RingProbe) : prog (FlowError + N * N) :=
  g ← load_value (p_header p + OFF_GENERATION) 8;
  if negb (g =? generation (p_info p))
  then Ret (inl (StaleReservation (generation (p_info p)) g)) else
  commit ← load_value (p_header p + OFF_COMMIT) 8;
  consume ← load_value (p_header p + OFF_CONSUME) 8;
  Ret (if commit <? consume then inl (Corrupt (CommitBelowConsume commit consume))
       else if capacity (p_info p) <? commit - consume
            then inl (Corrupt (ReadableExceedsCapacity commit consume (capacity (p_info p))))
            else inr (commit, consume)).

Definition has_data (p : RingProbe) : prog bool :=
  r ← probe_positions p;
  Ret (match r with inr (commit, consume) => consume <? commit | inl _ => false end).

Definition has_capacity (p : RingProbe) : prog bool :=
  r ← probe_positions p;
  Ret (match r with
       | inr (commit, consume) => commit - consume <? capacity (p_info p)
       | inl _ => false
       end).

Lemma u64_sub_small a b : b ≤ a → a ≤ u64_max → u64_sub a b = a - b.
Proof.
  rw /u64_sub /u64_max => H1 H2.
  have -> : a + u64_modulus - b = a - b + 1 * u64_modulus by rw /u64_modulus; lia.
  rw N.Div0.mod_add N.mod_small // /u64_modulus. lia.
Qed.
