(* ===== verification/RingStream.v ===== *)
(** * What a byte ring promises

    The stream that a ring of [byte_ring.rs] carries: the bytes ever committed, how many of
    them the consumer took, and the mark of the host.  Each call of the producer's and of the
    consumer's endpoint has a meaning on the stream that happens at once ([producer_spec],
    [consumer_spec]).  [System] is the ring in memory with the two endpoints as threads
    whose accesses interleave in any order; [SpecRun] are the histories of calls and
    returns that the atomic stream allows. *)

From S2P Require Import Prelude Memory ByteRing.
#[local] Open Scope N_scope.

(** ** The stream *)

Record Stream := mkStream { log : list N; taken : N; term : N }.

Definition committed (s : Stream) : N := N.of_nat (length (log s)).
Definition queue (s : Stream) : list N := drop (N.to_nat (taken s)) (log s).
Definition used (s : Stream) : N := committed s - taken s.

Definition append (s : Stream) (bs : list N) : Stream := mkStream (log s ++ bs) (taken s) (term s).
Definition advance (s : Stream) (n : N) : Stream := mkStream (log s) (taken s + n) (term s).
Definition marked (s : Stream) (t : N) : Stream := mkStream (log s) (taken s) (N.max (term s) t).

Definition frame (k : RecordKind) (bs : list N) : list N :=
  prefix k (N.of_nat (length bs)) ++ bs.

(** ** Calls *)

(** The producer sends a record at once, or reserves it, writes the spans and commits or
    abandons it, or uses the byte interface. *)
Inductive ProducerOp :=
  | SendRecord (k : RecordKind) (bytes : list N)
  | WriteRecord (k : RecordKind) (bytes : list N) (keep : bool)
  | SendBytes (bytes : list N)
  | WritableCapacity
  | ProducerPositions
  | ProducerPeer.

(** The consumer receives a record, or pins it, reads its spans and releases it, or reads
    ranges of it through a cursor and releases that, or uses the byte interface. *)
Inductive ConsumerOp :=
  | RecvRecord
  | PinRecord
  | CursorRecord (ranges : list (N * N))
  | NextMeta
  | Readable
  | ReadBytes (len : N)
  | ConsumeBytes (len : N)
  | ConsumerPositions
  | ConsumerPeer.

Inductive Response :=
  | Unit
  | Count (n : N)
  | Bytes (bs : list N)
  | Pair (a b : N)
  | Peer (t : option PeerTermination)
  | Meta (r : option RecordMeta)
  | Record_ (r : option (RecordKind * list N))
  | Parts (r : option (RecordKind * list (list N))).

Abbreviation Res := (FlowError + Response)%type.

Definition respond {A} (f : A → Response) (p : prog (FlowError + A)) : prog Res :=
  a <-? p; Ret (inr (f a)).

Definition producer_prog (e : Endpoint) (op : ProducerOp) : prog Res :=
  match op with
  | SendRecord k bytes => respond (λ _, Unit) (send_record e k bytes)
  | WriteRecord k bytes keep =>
      w <-? reserve_record e k (N.of_nat (length bytes));
      fill e w bytes;;
      if keep : bool then respond (λ _, Unit) (commit_record e w) else Ret (inr Unit)
  | SendBytes bytes =>
      r <-? reserve e (N.of_nat (length bytes));
      write e r bytes ;?
      respond (λ _, Unit) (commit e r)
  | WritableCapacity => respond Count (writable_payload_capacity e)
  | ProducerPositions => respond (λ p, Pair p.1 p.2) (positions e)
  | ProducerPeer => respond Peer (peer_termination e)
  end.

Fixpoint copy_ranges (e : Endpoint) (c : RecordCursor) (ranges : list (N * N))
    : prog (FlowError + list (list N)) :=
  match ranges with
  | [] => Ret (inr [])
  | (off, len) :: ranges =>
      part <-? copy_record_range e c off len;
      parts <-? copy_ranges e c ranges;
      Ret (inr (part :: parts))
  end.

Definition consumer_prog (e : Endpoint) (op : ConsumerOp) : prog Res :=
  match op with
  | RecvRecord => respond Record_ (recv_record e)
  | PinRecord =>
      r <-? peek_record e;
      match r with
      | None => Ret (inr (Record_ None))
      | Some p =>
          bytes ← read_pinned e p;
          release e p ;?
          Ret (inr (Record_ (Some (c_kind (pinned p), bytes))))
      end
  | CursorRecord ranges =>
      r <-? record_cursor e;
      match r with
      | None => Ret (inr (Parts None))
      | Some c =>
          parts <-? copy_ranges e c ranges;
          release_record_cursor e c ;?
          Ret (inr (Parts (Some (c_kind c, parts))))
      end
  | NextMeta => respond Meta (next_record_meta e)
  | Readable => respond Count (readable e)
  | ReadBytes len => respond Bytes (read e len)
  | ConsumeBytes len => respond (λ _, Unit) (consume e len)
  | ConsumerPositions => respond (λ p, Pair p.1 p.2) (positions e)
  | ConsumerPeer => respond Peer (peer_termination e)
  end.

(** ** Their meaning on the stream *)

(** [frame bytes] is appended when it fits beside the bytes not yet taken. *)
Definition offer (cap : N) (s : Stream) (bytes : list N) (keep : bool) : Stream * Res :=
  let n := N.of_nat (length bytes) in
  if cap - used s <? n then (s, inl (InsufficientSpace n (cap - used s)))
  else (if keep then append s bytes else s, inr Unit).

Definition peer_of (s : Stream) : Res :=
  match term s with
  | 0 => inr (Peer None)
  | 1 => inr (Peer (Some Closed))
  | 2 => inr (Peer (Some PathReplaced))
  | t => inl (InvalidPeerTermination t)
  end.

Definition producer_spec (cap : N) (op : ProducerOp) (s : Stream) : Stream * Res :=
  match op with
  | SendRecord k bytes =>
      let len := N.of_nat (length bytes) in
      if cap <? RECORD_HEADER_LEN + len
      then (s, inl (BadRecord (LengthExceedsCapacity len cap)))
      else offer cap s (frame k bytes) true
  | WriteRecord k bytes keep =>
      let len := N.of_nat (length bytes) in
      if u32_max <? len then (s, inl (BadRecord (LengthExceedsWire len))) else
      if cap <? RECORD_HEADER_LEN + len
      then (s, inl (BadRecord (LengthExceedsCapacity len cap)))
      else offer cap s (frame k bytes) keep
  | SendBytes bytes => offer cap s bytes true
  | WritableCapacity => (s, inr (Count (cap - used s - RECORD_HEADER_LEN)))
  | ProducerPositions => (s, inr (Pair (committed s) (taken s)))
  | ProducerPeer => (s, peer_of s)
  end.

(** The record at the head of the queue. *)
Definition parse (cap : N) (q : list N) : FlowError + option (RecordKind * list N) :=
  let n := N.of_nat (length q) in
  if n <? RECORD_HEADER_LEN then inr None else
  match from_byte (q !!! 0%nat) with
  | None => inl (BadRecord (InvalidKind (q !!! 0%nat)))
  | Some k =>
      let len := le_value (take 4 (drop 1 q)) in
      if cap <? RECORD_HEADER_LEN + len
      then inl (BadRecord (LengthExceedsCapacity len cap)) else
      if n <? RECORD_HEADER_LEN + len then inr None
      else inr (Some (k, take (N.to_nat len) (drop 5 q)))
  end.

Definition slice (payload : list N) (range : N * N) : FlowError + list N :=
  let n := N.of_nat (length payload) in
  if n <? range.1 then inl (BeyondCommitted range.1 n)
  else inr (take (N.to_nat range.2) (drop (N.to_nat range.1) payload)).

Fixpoint slices (payload : list N) (ranges : list (N * N)) : FlowError + list (list N) :=
  match ranges with
  | [] => inr []
  | range :: ranges =>
      match slice payload range with
      | inl e => inl e
      | inr part =>
          match slices payload ranges with
          | inl e => inl e
          | inr parts => inr (part :: parts)
          end
      end
  end.

(** The head record is taken when [f] answers for it. *)
Definition take_record (cap : N) (s : Stream) (none : Response)
    (f : RecordKind → list N → Res) : Stream * Res :=
  match parse cap (queue s) with
  | inl e => (s, inl e)
  | inr None => (s, inr none)
  | inr (Some (k, payload)) =>
      match f k payload with
      | inl e => (s, inl e)
      | inr r => (advance s (RECORD_HEADER_LEN + N.of_nat (length payload)), inr r)
      end
  end.

Definition consumer_spec (cap : N) (op : ConsumerOp) (s : Stream) : Stream * Res :=
  match op with
  | RecvRecord | PinRecord =>
      take_record cap s (Record_ None) (λ k payload, inr (Record_ (Some (k, payload))))
  | CursorRecord ranges =>
      take_record cap s (Parts None) (λ k payload,
        match slices payload ranges with
        | inl e => inl e
        | inr parts => inr (Parts (Some (k, parts)))
        end)
  | NextMeta =>
      (s, match parse cap (queue s) with
          | inl e => inl e
          | inr r => inr (Meta ((λ '(k, p), mkRecordMeta k (N.of_nat (length p))) <$> r))
          end)
  | Readable => (s, inr (Count (used s)))
  | ReadBytes len =>
      (s, if used s <? len then inl (BeyondCommitted len (used s))
          else inr (Bytes (take (N.to_nat len) (queue s))))
  | ConsumeBytes len =>
      if used s <? len then (s, inl (BeyondCommitted len (used s)))
      else (advance s len, inr Unit)
  | ConsumerPositions => (s, inr (Pair (committed s) (taken s)))
  | ConsumerPeer => (s, peer_of s)
  end.

(** ** Histories *)

Inductive Event :=
  | ProducerCall (op : ProducerOp)
  | ProducerReturn (op : ProducerOp) (r : Res)
  | ConsumerCall (op : ConsumerOp)
  | ConsumerReturn (op : ConsumerOp) (r : Res)
  | Marked (t : N)
  | Panicked (r : Role).

(** ** The ring with its two threads *)

Record System := mkSystem {
  mem : Mem;
  pthread : option (ProducerOp * prog Res);
  cthread : option (ConsumerOp * prog Res);
}.

Inductive Pick :=
  | StartProducer (op : ProducerOp)
  | RunProducer
  | StartConsumer (op : ConsumerOp)
  | RunConsumer
  | MarkPeer (t : PeerTermination).

Definition mark_value (t : PeerTermination) : N :=
  match t with Closed => 1 | PathReplaced => 2 end.

(** The [fetch_max] of [mark_peer_terminated_mapped]. *)
Definition fetch_max (m : Mem) (pos v : N) : Mem :=
  mwrite m pos (le_bytes 8 (N.max (le_value (mread m pos 8)) v)).

Section System.
Variable h : RingHandle.

Definition producer : Endpoint := mkEndpoint (offset h) h Producer.
Definition consumer : Endpoint := mkEndpoint (offset h) h Consumer.

(** One choice of the scheduler: a thread that is idle is called, or a thread that runs
    makes its next access or returns. *)
Definition pick (c : Pick) (s : System) : System * list Event :=
  match c, pthread s, cthread s with
  | StartProducer op, None, _ =>
      (mkSystem (mem s) (Some (op, producer_prog producer op)) (cthread s), [ProducerCall op])
  | RunProducer, Some (op, Ret r), _ =>
      (mkSystem (mem s) None (cthread s), [ProducerReturn op r])
  | RunProducer, Some (op, Abort), _ => (s, [Panicked Producer])
  | RunProducer, Some (op, p), _ =>
      let (p, m) := prog_step p (mem s) in (mkSystem m (Some (op, p)) (cthread s), [])
  | StartConsumer op, _, None =>
      (mkSystem (mem s) (pthread s) (Some (op, consumer_prog consumer op)), [ConsumerCall op])
  | RunConsumer, _, Some (op, Ret r) =>
      (mkSystem (mem s) (pthread s) None, [ConsumerReturn op r])
  | RunConsumer, _, Some (op, Abort) => (s, [Panicked Consumer])
  | RunConsumer, _, Some (op, p) =>
      let (p, m) := prog_step p (mem s) in (mkSystem m (pthread s) (Some (op, p)), [])
  | MarkPeer t, _, _ =>
      (mkSystem (fetch_max (mem s) (offset h + OFF_TERMINAL) (mark_value t)) (pthread s)
         (cthread s), [Marked (mark_value t)])
  | _, _, _ => (s, [])
  end.

Fixpoint run (choices : list Pick) (s : System) : System * list Event :=
  match choices with
  | [] => (s, [])
  | c :: choices =>
      let (s, t1) := pick c s in
      let (s, t2) := run choices s in (s, t1 ++ t2)
  end.

(** ** The stream with its two clients *)

Inductive Status (Op : Type) := Idle | Called (op : Op) | Done (op : Op) (r : Res).
Arguments Idle {Op}.
Arguments Called {Op} op.
Arguments Done {Op} op r.

Record Spec := mkSpec {
  stream : Stream;
  pstatus : Status ProducerOp;
  cstatus : Status ConsumerOp;
}.

(** A call takes effect at one moment between its call and its return. *)
Inductive SpecStep : Spec → list Event → Spec → Prop :=
  | producer_call s c op :
      SpecStep (mkSpec s Idle c) [ProducerCall op] (mkSpec s (Called op) c)
  | producer_effect s c op s' r :
      producer_spec (capacity h) op s = (s', r) →
      SpecStep (mkSpec s (Called op) c) [] (mkSpec s' (Done op r) c)
  | producer_return s c op r :
      SpecStep (mkSpec s (Done op r) c) [ProducerReturn op r] (mkSpec s Idle c)
  | consumer_call s p op :
      SpecStep (mkSpec s p Idle) [ConsumerCall op] (mkSpec s p (Called op))
  | consumer_effect s p op s' r :
      consumer_spec (capacity h) op s = (s', r) →
      SpecStep (mkSpec s p (Called op)) [] (mkSpec s' p (Done op r))
  | consumer_return s p op r :
      SpecStep (mkSpec s p (Done op r)) [ConsumerReturn op r] (mkSpec s p Idle)
  | host_mark s p c t :
      SpecStep (mkSpec s p c) [Marked t] (mkSpec (marked s t) p c).

Inductive SpecRun : Spec → list Event → Spec → Prop :=
  | spec_done a : SpecRun a [] a
  | spec_next a t1 b t2 c : SpecRun a t1 b → SpecStep b t2 c → SpecRun a (t1 ++ t2) c.

End System.
Arguments Idle {Op}.
Arguments Called {Op} op.
Arguments Done {Op} op r.

Lemma length_prefix k n : length (prefix k n) = 5%nat.
Proof. done. Qed.

Lemma length_frame k bs : N.of_nat (length (frame k bs)) = RECORD_HEADER_LEN + N.of_nat (length bs).
Proof. rw /frame length_app length_prefix /RECORD_HEADER_LEN. lia. Qed.
