(* ===== verification/RingLogic.v ===== *)
(** * Reasoning about an endpoint beside its peer

    [represents] relates the bytes of a ring of the arena to the stream it carries.  [wp]
    is the weakest precondition of a program that runs while the others only do what its
    rely allows: each of its stores keeps the guarantee, and it takes effect on the stream at
    exactly one access.  The lemmas here hold for both endpoints. *)

From S2P Require Import Prelude Memory ByteRing RingStream.
#[local] Open Scope N_scope.

Section Represents.
Variable h : RingHandle.

(** Where byte [p] of the stream lies. *)
Definition cell (p : N) : N := offset h + DATA_OFFSET + p mod capacity h.

Definition field (m : Mem) (off n v : N) : Prop := le_value (mread m (offset h + off) n) = v.

(** The ring at [h] in memory [m] carries the stream [s]. *)
Record represents (s : Stream) (m : Mem) : Prop := {
  rep_magic : field m OFF_MAGIC 4 RING_MAGIC;
  rep_version : field m OFF_VERSION 2 RING_VERSION;
  rep_reserved : field m OFF_RESERVED 2 0;
  rep_capacity : field m OFF_CAPACITY 8 (capacity h);
  rep_generation : field m OFF_GENERATION 8 (generation h);
  rep_commit : field m OFF_COMMIT 8 (committed s);
  rep_consume : field m OFF_CONSUME 8 (taken s);
  rep_term : field m OFF_TERMINAL 8 (term s);
  rep_mark : term s ≤ 2;
  rep_nonempty : 0 < capacity h;
  rep_width : capacity h ≤ u64_max;
  rep_order : taken s ≤ committed s;
  rep_room : committed s ≤ taken s + capacity h;
  rep_fits : committed s ≤ u64_max;
  rep_bytes p b : taken s ≤ N.of_nat p → log s !! p = Some b → m (cell (N.of_nat p)) = b;
}.

(** What the peer of the producer may do, and what the peer of the consumer may do: the
    host's mark changes nothing but [term]. *)
Definition producer_rely (s : Stream) (m : Mem) (s' : Stream) (m' : Mem) : Prop :=
  represents s' m' ∧ log s' = log s ∧ taken s ≤ taken s' ∧
  ∀ p, m' (cell p) = m (cell p).

Definition consumer_rely (s : Stream) (m : Mem) (s' : Stream) (m' : Mem) : Prop :=
  represents s' m' ∧ log s `prefix_of` log s' ∧ taken s' = taken s.

(** A ring whose header was just written carries the empty stream. *)
Lemma represents_fresh m :
  0 < capacity h → capacity h ≤ u64_max → generation h ≤ u64_max →
  mread m (offset h) DATA_OFFSET = header_image (capacity h) (generation h) →
  represents (mkStream [] 0 0) m.
Proof.
  move=> Hc Hw Hg Hm.
  have Hf (off n : nat) v bs : (off + n ≤ 128)%nat →
    take n (drop off (header_image (capacity h) (generation h))) = bs → le_value bs = v →
    field m (N.of_nat off) (N.of_nat n) v.
  { move=> Hon <- <-. have H128 : N.to_nat DATA_OFFSET = 128%nat by []. rw -Hm /field. f_equal. apply list_eq => i.
    case: (decide (i < n)%nat) => Hi.
    - rw lookup_mread; first lia. rw lookup_take_lt // lookup_drop lookup_mread; first lia.
      do 2 f_equal. lia.
    - rw !lookup_ge_None_2 ?length_take ?length_drop ?length_mread //; lia. }
  have H8 v : v ≤ u64_max → le_value (le_bytes 8 v) = v.
  { move=> Hv. apply le_value_bytes. rw /u64_max in Hv. lia. }
  split => //; try (by apply N.le_0_l).
  - by apply (Hf 0 4)%nat with (bs := le_bytes 4 RING_MAGIC); [lia|..].
  - by apply (Hf 4 2)%nat with (bs := le_bytes 2 RING_VERSION); [lia|..].
  - by apply (Hf 6 2)%nat with (bs := le_bytes 2 0); [lia|..].
  - by apply (Hf 8 8)%nat with (bs := le_bytes 8 (capacity h)); [lia|done|apply H8].
  - by apply (Hf 16 8)%nat with (bs := le_bytes 8 (generation h)); [lia|done|apply H8].
  - by apply (Hf 24 8)%nat with (bs := replicate 8 0); [lia|..].
  - by apply (Hf 32 8)%nat with (bs := replicate 8 0); [lia|..].
  - by apply (Hf 40 8)%nat with (bs := replicate 8 0); [lia|..].
Qed.

End Represents.

(** ** Weakest preconditions *)

Section Wp.
Variables R G : Stream → Mem → Stream → Mem → Prop.
Variable spec : Stream → Stream * Res.

(** The effect on the stream is still to come ([None]) or has happened with a response. *)
Definition lin (s : Stream) (st : option Res) (s' : Stream) (st' : option Res) : Prop :=
  (s' = s ∧ st' = st) ∨ (st = None ∧ ∃ r, spec s = (s', r) ∧ st' = Some r).

Fixpoint wp {A} (p : prog A) (Q : A → option Res → Stream → Mem → Prop) (st : option Res)
    (s : Stream) (m : Mem) : Prop :=
  match p with
  | Ret a => Q a st s m
  | Load pos n k =>
      ∃ st', lin s st s st' ∧
        ∀ s' m', R s m s' m' → wp (k (mread m pos n)) Q st' s' m'
  | Store pos bs k =>
      ∃ s1 st', lin s st s1 st' ∧ G s m s1 (mwrite m pos bs) ∧
        ∀ s' m', R s1 (mwrite m pos bs) s' m' → wp k Q st' s' m'
  | Abort => False
  end.

(** A call is right when it has taken effect, with its response, by the time it returns. *)
Definition answers (r : Res) (st : option Res) (s : Stream) (m : Mem) : Prop :=
  lin s st s (Some r).

Lemma lin_none s st : lin s st s st.
Proof. by left. Qed.

Lemma wp_mono {A} (p : prog A) (Q Q' : A → option Res → Stream → Mem → Prop) st s m :
  (∀ a st s m, Q a st s m → Q' a st s m) → wp p Q st s m → wp p Q' st s m.
Proof.
  move=> HQ. elim: p st s m => [a|pos n k IH|pos bs k IH|] st s m //=.
  - by apply HQ.
  - move=> [st' [Hl Hw]]. exists st'. split; [done|]. move=> s' m' HR. by apply IH, Hw.
  - move=> [s1 [st' [Hl [HG Hw]]]]. exists s1, st'. split; [done|split; [done|]].
    move=> s' m' HR. by apply IH, Hw.
Qed.

Lemma wp_bind {A B} (p : prog A) (f : A → prog B) Q st s m :
  wp p (λ a, wp (f a) Q) st s m → wp (p ≫= f) Q st s m.
Proof.
  elim: p st s m => [a|pos n k IH|pos bs k IH|] st s m //=.
  - move=> [st' [Hl Hw]]. exists st'. split; [done|]. move=> s' m' HR. by apply IH, Hw.
  - move=> [s1 [st' [Hl [HG Hw]]]]. exists s1, st'. split; [done|split; [done|]].
    move=> s' m' HR. by apply IH, Hw.
Qed.

Lemma wp_try {E A B} (p : prog (E + A)) (f : A → prog (E + B)) Q st s m :
  wp p (λ r, match r with inl e => Q (inl e) | inr a => wp (f a) Q end) st s m →
  wp (try_bind p f) Q st s m.
Proof.
  move=> Hp. apply wp_bind. apply: wp_mono Hp => -[e|a] ??? //.
Qed.

Lemma wp_map_err {E F A} (g : E → F) (p : prog (E + A)) Q st s m :
  wp p (λ r, Q (match r with inl e => inl (g e) | inr a => inr a end)) st s m →
  wp (map_err g p) Q st s m.
Proof. move=> Hp. by apply wp_bind. Qed.

(** ** Programs that yield a value and nothing else *)

Variable h : RingHandle.
Hypothesis R_rep : ∀ s m s' m', R s m s' m' → represents h s' m'.
Hypothesis R_refl : ∀ s m, represents h s m → R s m s m.
Hypothesis R_trans : ∀ s1 m1 s2 m2 s3 m3, R s1 m1 s2 m2 → R s2 m2 s3 m3 → R s1 m1 s3 m3.
Hypothesis R_snap : ∀ s m s' m', represents h s m → R s m s' m' →
  taken s' ≤ committed s ∧ committed s ≤ taken s' + capacity h.

Definition quiet {A} (p : prog A) (v : A) : Prop := ∀ Q st s m,
  represents h s m → (∀ s' m', R s m s' m' → Q v st s' m') → wp p Q st s m.

Lemma quiet_ret {A} (a : A) : quiet (Ret a) a.
Proof. move=> Q st s m Hr HQ /=. apply HQ. by apply R_refl. Qed.

Lemma quiet_bind {A B} (p : prog A) (f : A → prog B) a b :
  quiet p a → quiet (f a) b → quiet (p ≫= f) b.
Proof.
  move=> Hp Hf Q st s m Hr HQ. apply wp_bind, Hp => // s1 m1 H1.
  apply Hf; [by apply: R_rep H1|]. move=> s2 m2 H2. apply HQ. by apply: R_trans H1 H2.
Qed.

Lemma quiet_try {E A B} (p : prog (E + A)) (f : A → prog (E + B)) a b :
  quiet p (inr a) → quiet (f a) b → quiet (try_bind p f) b.
Proof. move=> Hp Hf. by apply (quiet_bind _ _ (inr a)). Qed.

Lemma quiet_map_err {E F A} (g : E → F) (p : prog (E + A)) (a : A) :
  quiet p (inr a) → quiet (map_err g p) (inr a).
Proof. move=> Hp. apply (quiet_bind _ _ (inr a)); [done|apply quiet_ret]. Qed.

Lemma quiet_load pos n v :
  (∀ s m, represents h s m → le_value (mread m pos n) = v) → quiet (load_value pos n) v.
Proof.
  move=> Hv Q st s m Hr HQ /=. exists st. split; [apply lin_none|]. move=> s' m' HR.
  rw (Hv s m) //. by apply HQ.
Qed.

(** A load that takes effect, or not, depending on what it reads. *)
Lemma wp_load_lin pos n Q st s m :
  (∃ st', lin s st s st' ∧ ∀ s' m', R s m s' m' → Q (le_value (mread m pos n)) st' s' m') →
  wp (load_value pos n) Q st s m.
Proof. done. Qed.

(** ** The checks *)

Variable e : Endpoint.
Hypothesis at_ring : header e = offset h ∧ info e = h.

Lemma quiet_fixed : quiet (validate_fixed e) (inr tt).
Proof using R_rep R_refl R_trans at_ring.
  move: at_ring => [Hh Hi]. rw /validate_fixed /field_u32 /field_u16 /field_u64 Hh Hi.
  have Hf off n v : (∀ s m, represents h s m → field h m off n v) →
    quiet (load_value (offset h + off) n) v by move=> H; apply quiet_load.
  eapply quiet_bind; [apply Hf => s m; apply rep_magic|]. rw N.eqb_refl; cbn [negb].
  eapply quiet_bind; [apply Hf => s m; apply rep_version|]. rw N.eqb_refl; cbn [negb].
  eapply quiet_bind; [apply Hf => s m; apply rep_reserved|]. rw N.eqb_refl; cbn [negb].
  eapply quiet_bind; [apply Hf => s m; apply rep_capacity|]. rw N.eqb_refl; cbn [negb].
  apply quiet_ret.
Qed.

Lemma quiet_generation : quiet (validate_generation e (generation h)) (inr tt).
Proof using R_rep R_refl R_trans at_ring.
  move: at_ring => [Hh Hi]. rw /validate_generation /field_u64 Hh.
  eapply quiet_bind; [apply quiet_load => s m; apply rep_generation|].
  rw N.eqb_refl. apply quiet_ret.
Qed.

Lemma quiet_stale : quiet (stale_check e (generation h)) (inr tt).
Proof using R_rep R_refl R_trans at_ring.
  move: at_ring => [Hh Hi]. rw /stale_check /field_u64 Hh.
  eapply quiet_bind; [apply quiet_load => s m; apply rep_generation|].
  rw N.eqb_refl. apply quiet_ret.
Qed.

Lemma quiet_cursors : quiet (validate_cursors e) (inr tt).
Proof using R_rep R_refl R_trans R_snap at_ring.
  move: at_ring => [Hh Hi] Q st s m Hr HQ.
  rw /validate_cursors /commit_cursor /consume_cursor /field_u64 Hh Hi.
  apply wp_bind, wp_load_lin. exists st. split; [apply lin_none|]. move=> s1 m1 H1.
  rw (rep_commit _ _ _ Hr). apply wp_bind, wp_load_lin. exists st.
  split; [apply lin_none|]. move=> s2 m2 H2; cbn [wp].
  rw (rep_consume _ _ _ (R_rep _ _ _ _ H1)).
  have [Hs1 Hs2] := R_snap _ _ _ _ Hr H1.
  have -> : (committed s <? taken s1) = false by apply N.ltb_ge.
  have -> : (capacity h <? committed s - taken s1) = false by apply N.ltb_ge; lia.
  apply HQ. by apply: R_trans H1 H2.
Qed.

Lemma quiet_check op r : role e = r → quiet (check e op r) (inr tt).
Proof using R_rep R_refl R_trans R_snap at_ring.
  move=> Hr. rw /check decide_True //.
  apply (quiet_try _ _ tt); apply quiet_map_err; [apply quiet_fixed|apply quiet_cursors].
Qed.

Lemma quiet_check_current op r : role e = r → quiet (check_current e op r) (inr tt).
Proof using R_rep R_refl R_trans R_snap at_ring.
  move=> Hr. apply (quiet_try _ _ tt); [by apply quiet_check|].
  move: at_ring => [Hh ->]. apply quiet_map_err, quiet_generation.
Qed.

(** The value a quiet program yields is passed on. *)
Lemma wp_quiet {A B} (p : prog A) (f : A → prog B) a Q st s m :
  quiet p a → represents h s m →
  (∀ s' m', R s m s' m' → wp (f a) Q st s' m') → wp (p ≫= f) Q st s m.
Proof. move=> Hp Hr Hf. by apply wp_bind, Hp. Qed.

Lemma wp_quiet_try {E A B} (p : prog (E + A)) (f : A → prog (E + B)) a Q st s m :
  quiet p (inr a) → represents h s m →
  (∀ s' m', R s m s' m' → wp (f a) Q st s' m') → wp (try_bind p f) Q st s m.
Proof. move=> Hp Hr Hf. by apply wp_bind, Hp. Qed.

(** The checks of the observers. *)
Lemma wp_identified {A} (f : prog (FlowError + A)) Q st s m :
  represents h s m → (∀ s' m', R s m s' m' → wp f Q st s' m') →
  wp (map_err Corrupt (validate_fixed e) ;?
      map_err Corrupt (validate_generation e (generation h)) ;? f) Q st s m.
Proof using R_rep R_refl R_trans at_ring.
  move=> Hr Hf. apply (wp_quiet_try _ _ tt) => //; first by apply quiet_map_err, quiet_fixed.
  move=> s1 m1 H1. apply (wp_quiet_try _ _ tt); [|by apply: R_rep H1|].
  - by apply quiet_map_err, quiet_generation.
  - move=> s2 m2 H2. apply Hf. by apply: R_trans H1 H2.
Qed.

(** The mark of the host, read at once. *)
Lemma wp_peer Q s m :
  (∀ s, spec s = (s, peer_of s)) → represents h s m →
  (∀ r st s' m', answers r st s' m' → Q r st s' m') →
  wp (respond Peer (peer_termination e)) Q None s m.
Proof using R_rep R_refl R_trans at_ring.
  move=> Hspec Hr HQ. move: (at_ring) => [Hh Hi]. apply wp_try. rw /peer_termination Hi.
  apply wp_identified => // s1 m1 /R_rep Hr1. apply wp_bind. rw /field_u64 Hh.
  eexists. split; first by right; split; [done|]; eexists; split; [apply Hspec|].
  move=> s3 m3 _. rw (rep_term _ _ _ Hr1). cbn [wp]. rw /peer_of.
  by destruct (term s1) as [|[?|[?|?|]|]]; apply HQ; left.
Qed.

End Wp.
