(* ===== verification/RingProducer.v ===== *)
(** * The producer's endpoint beside the consumer

    Each call of the producer's endpoint ([byte_ring.rs]), with the consumer and the host
    running between any two of its accesses, takes effect on the stream exactly once, as
    [producer_spec] says. *)

From S2P Require Import Prelude Memory ByteRing RingStream RingLogic.
#[local] Open Scope N_scope.

Section Producer.
Variable h : RingHandle.

(** ** Cells *)

Lemma mod_offset pos i c : c ≠ 0 → pos mod c + i < c → (pos + i) mod c = pos mod c + i.
Proof. move=> Hc Hi. rw -N.Div0.add_mod_idemp_l. by apply N.mod_small. Qed.

Lemma mod_window p q c : c ≠ 0 → p mod c = q mod c → p ≤ q → q < p + c → p = q.
Proof.
  move=> Hc Hm H1 H2. have Hp := N.div_mod p c Hc. have Hq := N.div_mod q c Hc.
  move: Hm Hp Hq. move: (p / c) (q / c) (p mod c) (q mod c) => a b r r' -> Hp Hq.
  have [Hab|[Hab|Hab]] := N.lt_trichotomy a b; nia.
Qed.

(** The bytes [bs] lie in the cells from position [pos] on. *)
Definition written (m : Mem) (pos : N) (bs : list N) : Prop :=
  ∀ i b, bs !! i = Some b → m (cell h (pos + N.of_nat i)) = b.

Lemma written_app m pos bs1 bs2 :
  written m pos bs1 → written m (pos + N.of_nat (length bs1)) bs2 → written m pos (bs1 ++ bs2).
Proof.
  move=> H1 H2 i b /lookup_app_Some [|[Hi Hb]]; first by apply H1.
  rw -(H2 _ _ Hb). do 2 f_equal. lia.
Qed.

Lemma written_ext m m' pos bs :
  (∀ q, pos ≤ q → q < pos + N.of_nat (length bs) → m' (cell h q) = m (cell h q)) →
  written m pos bs → written m' pos bs.
Proof.
  move=> Hm Hw i b Hb. have ? := lookup_lt_Some _ _ _ Hb. rw Hm; [lia..|]. by apply Hw.
Qed.

(** ** Stores into the data region *)

(** A store that does not pass the end of the data region. *)
Definition unwrapped (pos : N) (bs : list N) : Prop :=
  pos mod capacity h + N.of_nat (length bs) ≤ capacity h.

Lemma field_store_data m pos bs off n v :
  off + n ≤ DATA_OFFSET → field h m off n v → field h (mwrite m (cell h pos) bs) off n v.
Proof.
  move=> Ho Hf. rw /field mread_mwrite_other //. left. rw /cell.
  move: (pos mod capacity h) => start. lia.
Qed.

Lemma store_written m pos bs :
  capacity h ≠ 0 → unwrapped pos bs → written (mwrite m (cell h pos) bs) pos bs.
Proof.
  move=> Hc Hu i b Hb. have Hi := lookup_lt_Some _ _ _ Hb.
  rw -(mwrite_in m (cell h pos) bs i b Hb). f_equal. rw /cell mod_offset //.
  - rw /unwrapped in Hu. lia.
  - lia.
Qed.

Lemma store_elsewhere m pos bs q :
  capacity h ≠ 0 → unwrapped pos bs → q < pos → pos + N.of_nat (length bs) ≤ q + capacity h →
  mwrite m (cell h pos) bs (cell h q) = m (cell h q).
Proof.
  move=> Hc Hu Hq Hw. apply mwrite_out. rw /cell /unwrapped in Hu |- * => -[H1 H2].
  have Hi : q mod capacity h = pos mod capacity h + (q mod capacity h - pos mod capacity h) by lia.
  move: Hi. rw -mod_offset //; first by lia.
  move=> Hi. have := mod_window _ _ _ Hc Hi. lia.
Qed.

Lemma represents_store_data s m pos bs :
  represents h s m → unwrapped pos bs → committed s ≤ pos →
  pos + N.of_nat (length bs) ≤ taken s + capacity h →
  represents h s (mwrite m (cell h pos) bs).
Proof.
  move=> Hr Hu Hp Hw. have Hc := rep_nonempty _ _ _ Hr.
  split; try (by case: Hr); try (by apply field_store_data; [|case: Hr]).
  move=> p b Htp Hb. have Hlt := lookup_lt_Some _ _ _ Hb. rw /committed in Hp.
  rw store_elsewhere //; [lia..|]. by apply (rep_bytes _ _ _ Hr).
Qed.

(** The commit cursor moves over bytes that were written. *)
Lemma represents_commit s m bs :
  represents h s m → written m (committed s) bs →
  committed s + N.of_nat (length bs) ≤ taken s + capacity h →
  committed s + N.of_nat (length bs) ≤ u64_max →
  represents h (append s bs)
    (mwrite m (offset h + OFF_COMMIT) (le_bytes 8 (committed s + N.of_nat (length bs)))).
Proof.
  move=> Hr Hw Hroom Hfit.
  have Hlen : committed (append s bs) = committed s + N.of_nat (length bs)
    by rw /committed /= length_app; lia.
  have Hother off n v : off + n ≤ OFF_COMMIT ∨ OFF_COMMIT + 8 ≤ off → field h m off n v →
    field h (mwrite m (offset h + OFF_COMMIT)
      (le_bytes 8 (committed s + N.of_nat (length bs)))) off n v.
  { move=> Ho Hf. rw /field mread_mwrite_other // length_le_bytes. lia. }
  split; rw ?Hlen; try (by apply Hother; [by (left + right)|case: Hr]); try (by case: Hr).
  - rw /field mread_mwrite_same ?length_le_bytes // le_value_bytes //.
    rw /u64_max in Hfit. lia.
  - cbn. have := rep_order _ _ _ Hr. lia.
  - move=> p b Htp Hb. rw mwrite_out.
    + rw length_le_bytes /cell /DATA_OFFSET /OFF_COMMIT.
      move: (N.of_nat p mod capacity h) => x. lia.
    + move: Hb => /lookup_app_Some [Hb|[Hge Hb]]; first by apply (rep_bytes _ _ _ Hr).
      rw -(Hw _ _ Hb) /committed. do 2 f_equal. lia.
Qed.

(** ** The producer's rely *)

Abbreviation R := (producer_rely h).
Abbreviation G := (consumer_rely h).

Lemma prely_rep s m s' m' : R s m s' m' → represents h s' m'.
Proof. by case. Qed.

Lemma prely_refl s m : represents h s m → R s m s m.
Proof. move=> Hr. split; [done|]. by split; [|split]. Qed.

Lemma prely_trans s1 m1 s2 m2 s3 m3 : R s1 m1 s2 m2 → R s2 m2 s3 m3 → R s1 m1 s3 m3.
Proof.
  move=> [H1 [H2 [H3 H4]]] [H5 [H6 [H7 H8]]]. split; [done|]. split; [congruence|].
  split; [lia|]. move=> p. by rw H8.
Qed.

Lemma prely_snap s m s' m' :
  represents h s m → R s m s' m' →
  taken s' ≤ committed s ∧ committed s ≤ taken s' + capacity h.
Proof.
  move=> Hr [Hr' [Hlog [Ht _]]]. have := rep_order _ _ _ Hr'. have := rep_room _ _ _ Hr'.
  rw /committed Hlog. lia.
Qed.

(** ** Copying into the free part *)

Variable spec : Stream → Stream * Res.
Abbreviation W := (wp R G spec).

Lemma represents_ext s m m' : (∀ x, m' x = m x) → represents h s m → represents h s m'.
Proof.
  move=> Hx Hr.
  have Hf off n v : field h m off n v → field h m' off n v.
  { rw /field => <-. f_equal. apply mread_ext => i _. apply Hx. }
  split; try (by apply Hf; case: Hr); try (by case: Hr).
  move=> p b Hp Hb. rw Hx. by apply (rep_bytes _ _ _ Hr).
Qed.

Lemma wp_store_span pos bs Q st s m :
  represents h s m → unwrapped pos bs → committed s ≤ pos →
  pos + N.of_nat (length bs) ≤ taken s + capacity h →
  (∀ s' m', R s (mwrite m (cell h pos) bs) s' m' → Q tt st s' m') →
  W (store (cell h pos) bs) Q st s m.
Proof.
  move=> Hr Hu Hp Hw HQ. exists s, st. split; [apply lin_none|]. split; last done.
  split; [by apply represents_store_data|]. by split.
Qed.

(** What a copy of [bs] to [pos] leaves: the bytes are in place, and those the producer
    wrote before them still are. *)
Definition copied (s : Stream) (m : Mem) (pos : N) (bs : list N) (s' : Stream) (m' : Mem) : Prop :=
  represents h s' m' ∧ log s' = log s ∧ taken s ≤ taken s' ∧ written m' pos bs ∧
  ∀ q, committed s ≤ q → q < pos → m' (cell h q) = m (cell h q).

Lemma copied_span s m pos bs s' m' :
  represents h s m → unwrapped pos bs → pos + N.of_nat (length bs) ≤ taken s + capacity h →
  R s (mwrite m (cell h pos) bs) s' m' → copied s m pos bs s' m'.
Proof.
  move=> Hr Hu Hw [Hr' [Hlog [Ht Hm]]]. have Hc := rep_nonempty _ _ _ Hr.
  split; [done|split; [done|split; [done|split]]].
  - apply (written_ext (mwrite m (cell h pos) bs)) => //. apply store_written => //. lia.
  - move=> q Hq1 Hq2. have Ho := rep_order _ _ _ Hr. by rw Hm store_elsewhere //; lia.
Qed.

Lemma copied_nil s m pos s' m' : R s m s' m' → copied s m pos [] s' m'.
Proof.
  move=> [Hr [Hlog [Ht Hm]]]. do 3 (split; [done|]). by split.
Qed.

Lemma copied_app s m pos bs1 bs2 s1 m1 s2 m2 :
  committed s ≤ pos → copied s m pos bs1 s1 m1 →
  copied s1 m1 (pos + N.of_nat (length bs1)) bs2 s2 m2 → copied s m pos (bs1 ++ bs2) s2 m2.
Proof.
  move=> Hp [Hr1 [Hlog1 [Ht1 [Hw1 Hm1]]]] [Hr2 [Hlog2 [Ht2 [Hw2 Hm2]]]].
  have Hcom : committed s1 = committed s by rw /committed Hlog1.
  split; [done|]. split; [congruence|]. split; [lia|]. split.
  - apply written_app; last done. apply: written_ext Hw1 => q H1 H2. apply Hm2; lia.
  - move=> q H1 H2. rw Hm2; [lia..|]. by apply Hm1.
Qed.

Lemma wp_store_none pos Q st s m :
  represents h s m → (∀ s' m', R s m s' m' → Q tt st s' m') → W (store pos []) Q st s m.
Proof.
  move=> Hr HQ. exists s, st. split; [apply lin_none|]. split.
  - split; [|by split]. apply: (represents_ext _ m) => // x. apply mwrite_nil.
  - move=> s' m' [Hr' [Hlog [Ht Hm]]]. apply HQ.
    split; [done|split; [done|split; [done|]]]. move=> p. by rw Hm mwrite_nil.
Qed.

Variable e : Endpoint.
Hypothesis at_ring : header e = offset h ∧ info e = h.

Lemma wp_copy_into pos bs Q st s m :
  represents h s m → committed s ≤ pos → pos + N.of_nat (length bs) ≤ taken s + capacity h →
  (∀ s' m', copied s m pos bs s' m' → Q tt st s' m') → W (copy_into e pos bs) Q st s m.
Proof using at_ring.
  move: at_ring => [Hh Hi] Hr Hp Hw HQ. have Hc := rep_nonempty _ _ _ Hr.
  have Ho := rep_order _ _ _ Hr. rw /copy_into /spans /data_ptr Hh Hi.
  have -> : (capacity h =? 0) = false by apply N.eqb_neq; lia. cbn [negb check_that].
  have Hmod := N.mod_lt pos (capacity h) ltac:(lia).
  set first := N.min _ _. apply wp_bind. cbn [wp]. apply wp_bind.
  have Hfirst : first ≤ capacity h - pos mod capacity h ∧ first ≤ N.of_nat (length bs)
    by rw /first; lia.
  have Hl1 : length (take (N.to_nat first) bs) = N.to_nat first by rw length_take; lia.
  have Hu : unwrapped pos (take (N.to_nat first) bs) by rw /unwrapped Hl1; lia.
  apply wp_store_span => //; first by rw Hl1; lia.
  move=> s1 m1 /copied_span H1. have {}H1 := H1 Hr Hu ltac:(rw Hl1; lia).
  have [Hr1 [Hlog1 [Ht1 _]]] := H1.
  have Hcom : committed s1 = committed s by rw /committed Hlog1.
  rw -{1}(take_drop (N.to_nat first) bs) in HQ.
  have [Hall|Hpart] := N.le_gt_cases (N.of_nat (length bs)) first.
  - rw (drop_ge bs) in HQ *; [lia..|]. apply wp_store_none => // s2 m2 H2.
    apply HQ, (copied_app _ _ _ _ _ _ _ _ _ Hp H1), copied_nil, H2.
  - have Hend : (pos + first) mod capacity h = 0.
    { rw -N.Div0.add_mod_idemp_l. have -> : pos mod capacity h + first = capacity h
        by rw /first; lia. by apply N.Div0.mod_same. }
    have Hcell : offset h + DATA_OFFSET = cell h (pos + first) by rw /cell Hend; lia.
    have Hl2 : length (drop (N.to_nat first) bs) = (length bs - N.to_nat first)%nat
      by rw length_drop.
    have Hu2 : unwrapped (pos + first) (drop (N.to_nat first) bs)
      by rw /unwrapped Hend Hl2; lia.
    rw {1}Hcell. apply wp_store_span => //; [lia|rw Hl2; lia|].
    move=> s2 m2 /copied_span H2. have {}H2 := H2 Hr1 Hu2 ltac:(rw Hl2; lia).
    apply HQ, (copied_app _ _ _ _ _ _ _ _ _ Hp H1).
    by have -> : pos + N.of_nat (length (take (N.to_nat first) bs)) = pos + first
      by rw Hl1; lia.
Qed.

(** ** Reserving and committing *)

Hypothesis is_producer : role e = Producer.

Lemma quiet_commit_cursor n Q st s m :
  represents h s m → committed s = n →
  (∀ s' m', R s m s' m' → Q n st s' m') → W (commit_cursor e) Q st s m.
Proof using at_ring.
  move: at_ring => [Hh _] Hr <- HQ. rw /commit_cursor /field_u64 Hh.
  apply wp_load_lin. exists st. split; [apply lin_none|]. by rw (rep_commit _ _ _ Hr).
Qed.

(** The load of the consumer's cursor is where a call without room takes effect. *)
Lemma wp_consume_cursor Q st s m :
  represents h s m →
  (∃ st', lin spec s st s st' ∧ ∀ s' m', R s m s' m' → Q (taken s) st' s' m') →
  W (consume_cursor e) Q st s m.
Proof using at_ring.
  move: at_ring => [Hh _] Hr HQ. rw /consume_cursor /field_u64 Hh.
  apply wp_load_lin. by rw (rep_consume _ _ _ Hr).
Qed.

(** The checks, then the two cursors as one snapshot. *)
Lemma wp_snapshot {A} op (f : N → N → prog (FlowError + A)) Q s m :
  represents h s m →
  (∀ s1 m1, R s m s1 m1 → represents h s1 m1 →
    ∃ st', lin spec s1 None s1 st' ∧
      ∀ s2 m2, R s1 m1 s2 m2 → W (f (committed s1) (taken s1)) Q st' s2 m2) →
  W (check_current e op Producer ;?
     commit ← commit_cursor e; consume ← consume_cursor e; f commit consume) Q None s m.
Proof using at_ring is_producer.
  move=> Hr Hf. apply (wp_quiet_try _ _ _ h _ _ tt) => //.
  { apply (quiet_check_current R G spec h); eauto using prely_rep, prely_refl, prely_trans, prely_snap. }
  move=> s1 m1 H1. have Hr1 := prely_rep _ _ _ _ H1. apply wp_bind.
  apply (quiet_commit_cursor (committed s1)) => // s2 m2 H2. apply wp_bind.
  have Hr2 := prely_rep _ _ _ _ H2. apply wp_consume_cursor => //.
  have [st' [Hl Hw]] := Hf s2 m2 (prely_trans _ _ _ _ _ _ H1 H2) Hr2.
  exists st'. split; [done|]. move: H2 => [_ [Hlog _]].
  have -> : committed s1 = committed s2 by rw /committed Hlog. done.
Qed.

Lemma free_small s m : represents h s m →
  u64_sub (committed s) (taken s) = used s ∧ u64_sub (capacity h) (used s) = capacity h - used s.
Proof.
  move=> [] *. rw /used. split; apply u64_sub_small; lia.
Qed.

(** A reservation for [bytes] takes effect at once when there is no room. *)
Lemma wp_reserve_offer {A} bytes keep (f : Reservation → prog (FlowError + A)) Q s m :
  (∀ s, spec s = offer (capacity h) s bytes keep) → represents h s m →
  (∀ err st s m, answers spec (inl err) st s m → Q (inl err) st s m) →
  (∀ s1 m1, represents h s1 m1 → log s1 = log s →
     N.of_nat (length bytes) ≤ capacity h - used s1 →
     W (f (mkReservation (committed s1) (N.of_nat (length bytes)) (generation h))) Q None s1 m1) →
  W (try_bind (reserve e (N.of_nat (length bytes))) f) Q None s m.
Proof using at_ring is_producer.
  move=> Hspec Hr Herr Hf. move: (at_ring) => [Hh Hi]. apply wp_try. rw /reserve Hi.
  apply wp_snapshot => // s1 m1 H1 Hr1. have [-> ->] := free_small _ _ Hr1.
  have Hs := Hspec s1. rw /offer in Hs.
  case: (N.ltb_spec (capacity h - used s1) (N.of_nat (length bytes))) Hs => Hlt Hs.
  - eexists. split; first by right; split; [done|]; eexists; split; [apply Hs|].
    move=> s2 m2 H2; cbn [wp]. apply Herr. by left.
  - exists None. split; [apply lin_none|]. move=> s2 m2 [Hr2 [Hlog2 [Ht2 _]]]; cbn [wp].
    move: H1 => [_ [Hlog1 _]].
    have -> : committed s1 = committed s2 by rw /committed Hlog2.
    apply Hf => //; [congruence|]. rw /used /committed Hlog2 in Hlt *. lia.
Qed.

Lemma wp_commit bytes Q s m :
  (∀ s, spec s = offer (capacity h) s bytes true) → represents h s m →
  written m (committed s) bytes → N.of_nat (length bytes) ≤ capacity h - used s →
  committed s + capacity h ≤ u64_max →
  (∀ s m, Q (inr tt) (Some (inr Unit)) s m) →
  W (commit e (mkReservation (committed s) (N.of_nat (length bytes)) (generation h))) Q None s m.
Proof using at_ring is_producer.
  move=> Hspec Hr Hw Hroom Hfit Hf. move: (at_ring) => [Hh Hi].
  have Hc s' m' : R s m s' m' → committed s' = committed s ∧ written m' (committed s) bytes ∧
    N.of_nat (length bytes) ≤ capacity h - used s'.
  { move=> [_ [Hlog [Ht Hm]]]. rw /used /committed Hlog in Hroom *.
    split; [done|]. split; [by apply: written_ext Hw|lia]. }
  apply (wp_quiet_try _ _ _ h _ _ tt) => //.
  { apply (quiet_check R G spec h); eauto using prely_rep, prely_refl, prely_trans, prely_snap. }
  move=> s1 m1 H1. have Hr1 := prely_rep _ _ _ _ H1.
  apply (wp_quiet_try _ _ _ h _ _ tt) => //.
  { apply (quiet_stale R G spec h); eauto using prely_rep, prely_refl, prely_trans. }
  move=> s2 m2 H2. have Hr2 := prely_rep _ _ _ _ H2.
  have H02 := prely_trans _ _ _ _ _ _ H1 H2. have [Hc2 _] := Hc _ _ H02.
  apply wp_bind, (quiet_commit_cursor (committed s)) => // s3 m3 H3.
  have Hr3 := prely_rep _ _ _ _ H3. have [Hc3 [Hw3 Hroom3]] := Hc _ _ (prely_trans _ _ _ _ _ _ H02 H3).
  cbn [r_start r_len r_generation]. rw N.eqb_refl. cbn [check_that]. apply wp_bind. cbn [wp].
  apply wp_bind. rw -Hc3 in Hw3 Hfit *.
  have Hle := rep_order _ _ _ Hr3. have Hrm := rep_room _ _ _ Hr3. rw /used in Hroom3.
  rw u64_add_small; first by rw /u64_max /u64_modulus in Hfit *; lia.
  have Hx := represents_commit s3 m3 bytes Hr3 Hw3 ltac:(lia) ltac:(lia).
  exists (append s3 bytes), (Some (inr Unit)). split; [|split].
  - right. split; [done|]. exists (inr Unit). split; [|done]. rw Hspec /offer.
    have -> : (capacity h - used s3 <? N.of_nat (length bytes)) = false
      by apply N.ltb_ge; rw /used; lia. done.
  - rw Hh. split; [done|]. split; [by apply prefix_app_r|done].
  - move=> s4 m4 _. apply Hf.
Qed.

(** ** The calls *)

(** The two copies of a frame. *)
Lemma wp_copy_prefix k (bytes : list N) Q s m :
  represents h s m → RECORD_HEADER_LEN + N.of_nat (length bytes) ≤ capacity h - used s →
  (∀ s' m', copied s m (committed s) (prefix k (N.of_nat (length bytes))) s' m' → Q tt None s' m') →
  W (copy_into e (committed s) (prefix k (N.of_nat (length bytes)))) Q None s m.
Proof using at_ring.
  move=> Hr Hroom HQ. have Ho := rep_order _ _ _ Hr. have Hm := rep_room _ _ _ Hr.
  apply wp_copy_into => //. rw length_prefix /used /RECORD_HEADER_LEN in Hroom *. lia.
Qed.

Lemma wp_copy_payload k (bytes : list N) Q s m s1 m1 :
  represents h s m → RECORD_HEADER_LEN + N.of_nat (length bytes) ≤ capacity h - used s →
  committed s + capacity h ≤ u64_max →
  copied s m (committed s) (prefix k (N.of_nat (length bytes))) s1 m1 →
  (∀ s' m', copied s m (committed s) (frame k bytes) s' m' → Q tt None s' m') →
  W (copy_into e (committed s +64 RECORD_HEADER_LEN) bytes) Q None s1 m1.
Proof using at_ring.
  move=> Hr Hroom Hfit H1 HQ. have Ho := rep_order _ _ _ Hr. have Hm := rep_room _ _ _ Hr.
  have [Hr1 [Hlog [Ht _]]] := H1. have Hc : committed s1 = committed s by rw /committed Hlog.
  rw /used in Hroom.
  rw u64_add_small; first by rw /u64_modulus /u64_max /RECORD_HEADER_LEN in Hfit Hroom *; lia.
  apply wp_copy_into => //; [rw Hc; lia|lia|]. move=> s2 m2 H2. apply HQ.
  apply: copied_app H1 _; [lia|]. by rw length_prefix.
Qed.

Lemma copied_room s m bs s' m' n :
  copied s m (committed s) bs s' m' → n ≤ capacity h - used s →
  represents h s' m' ∧ committed s' = committed s ∧ written m' (committed s') bs ∧
  n ≤ capacity h - used s'.
Proof.
  move=> [Hr [Hlog [Ht [Hw _]]]]. rw /used. have Hc : committed s' = committed s
    by rw /committed Hlog. rw Hc => ?.
  split; [done|]. split; [done|]. split; [done|lia].
Qed.

Lemma wp_send k bytes s m :
  (∀ s, spec s = offer (capacity h) s (frame k bytes) true) →
  represents h s m → committed s + capacity h ≤ u64_max →
  RECORD_HEADER_LEN + N.of_nat (length bytes) ≤ capacity h →
  W (respond (λ _, Unit) (send_record e k bytes)) (answers spec) None s m.
Proof using at_ring is_producer.
  move=> Hspec Hr Hfit Hsize. move: (at_ring) => [Hh Hi]. apply wp_try.
  rw /send_record Hi. have -> : (capacity h <? RECORD_HEADER_LEN + N.of_nat (length bytes)) = false
    by apply N.ltb_ge. rw -(length_frame k).
  apply: (wp_reserve_offer (frame k bytes) true) => // s1 m1 Hr1 Hlog1 Hroom.
  cbn [r_start]. have Hc1 : committed s1 = committed s by rw /committed Hlog1.
  apply wp_bind, wp_copy_prefix => //; first by rw -(length_frame k).
  move=> s1' m1' H1. apply wp_bind. apply: (wp_copy_payload k) H1 _ => //;
    [by rw -(length_frame k)|by rw Hc1|].
  move=> s2 m2 /copied_room H2. have {H2} [Hr2 [Hc2 [Hw2 Hroom2]]] := H2 _ Hroom.
  rw -Hc2. apply wp_commit => //; [lia|]. by left.
Qed.

Lemma wp_write k bytes keep s m :
  (∀ s, spec s = offer (capacity h) s (frame k bytes) keep) →
  represents h s m → committed s + capacity h ≤ u64_max →
  RECORD_HEADER_LEN + N.of_nat (length bytes) ≤ capacity h → N.of_nat (length bytes) ≤ u32_max →
  W (producer_prog e (WriteRecord k bytes keep)) (answers spec) None s m.
Proof using at_ring is_producer.
  move=> Hspec Hr Hfit Hsize Hwire. move: (at_ring) => [Hh Hi]. apply wp_try.
  rw /reserve_record Hi.
  have -> : (u32_max <? N.of_nat (length bytes)) = false by apply N.ltb_ge.
  have -> : (capacity h <? RECORD_HEADER_LEN + N.of_nat (length bytes)) = false
    by apply N.ltb_ge. rw -(length_frame k).
  apply: (wp_reserve_offer (frame k bytes) keep) => // s1 m1 Hr1 Hlog1 Hroom.
  cbn [r_start]. have Hc1 : committed s1 = committed s by rw /committed Hlog1.
  apply wp_bind, wp_copy_prefix => //; first by rw -(length_frame k).
  move=> s1' m1' H1. cbn [wp]. apply wp_bind. rw /fill. cbn [w_payload_len w_payload_start].
  rw N.eqb_refl. cbn [check_that]. apply wp_bind; cbn [wp].
  apply: (wp_copy_payload k) H1 _ => //; [by rw -(length_frame k)|by rw Hc1|].
  move=> s2 m2 /copied_room H2. have {H2} [Hr2 [Hc2 [Hw2 Hroom2]]] := H2 _ Hroom.
  case: keep Hspec => Hspec.
  - apply wp_try. rw /commit_record. cbn [reservation]. rw -Hc2.
    apply wp_commit => //; [lia|]. by left.
  - cbn [wp]. right. split; [done|]. exists (inr Unit). split; [|done].
    rw Hspec /offer. by have -> : (capacity h - used s2 <? N.of_nat (length (frame k bytes))) = false
      by apply N.ltb_ge.
Qed.

Lemma wp_send_bytes bytes s m :
  (∀ s, spec s = offer (capacity h) s bytes true) →
  represents h s m → committed s + capacity h ≤ u64_max →
  W (producer_prog e (SendBytes bytes)) (answers spec) None s m.
Proof using at_ring is_producer.
  move=> Hspec Hr Hfit. move: (at_ring) => [Hh Hi].
  apply: (wp_reserve_offer bytes true) => // s1 m1 Hr1 Hlog1 Hroom.
  have Hc1 : committed s1 = committed s by rw /committed Hlog1.
  apply wp_try, (wp_quiet_try _ _ _ h _ _ tt) => //.
  { apply (quiet_check R G spec h); eauto using prely_rep, prely_refl, prely_trans, prely_snap. }
  move=> s2 m2 H2. apply (wp_quiet_try _ _ _ h _ _ tt); [|by apply: prely_rep H2|].
  { apply (quiet_stale R G spec h); eauto using prely_rep, prely_refl, prely_trans. }
  move=> s3 m3 H3. have [Hr3 [Hlog3 [Ht3 _]]] := prely_trans _ _ _ _ _ _ H2 H3.
  have Hc3 : committed s3 = committed s1 by rw /committed Hlog3.
  cbn [r_len r_start]. rw N.eqb_refl. cbn [check_that]. apply wp_bind; cbn [wp].
  have Ho := rep_order _ _ _ Hr3. have Hm := rep_room _ _ _ Hr3. have Ho1 := rep_order _ _ _ Hr1.
  rw /used in Hroom. rw -Hc3 in Hroom *.
  apply wp_bind, wp_copy_into => //; first lia. move=> s4 m4 /copied_room H4.
  have {H4} [Hr4 [Hc4 [Hw4 Hroom4]]] := H4 (N.of_nat (length bytes)) ltac:(rw /used; lia).
  cbn [wp]. apply wp_try. rw -Hc4. apply wp_commit => //; [lia|]. by left.
Qed.

Lemma wp_writable_capacity s m :
  (∀ s, spec s = (s, inr (Count (capacity h - used s - RECORD_HEADER_LEN)))) →
  represents h s m → W (producer_prog e WritableCapacity) (answers spec) None s m.
Proof using at_ring is_producer.
  move=> Hspec Hr. move: (at_ring) => [Hh Hi]. apply wp_try. rw /writable_payload_capacity Hi.
  apply wp_snapshot => // s1 m1 H1 Hr1. have [-> ->] := free_small _ _ Hr1.
  eexists. split; first by right; split; [done|]; eexists; split; [apply Hspec|].
  move=> s2 m2 _. by left.
Qed.

Lemma wp_producer_positions s m :
  (∀ s, spec s = (s, inr (Pair (committed s) (taken s)))) →
  represents h s m → W (producer_prog e ProducerPositions) (answers spec) None s m.
Proof using at_ring.
  move=> Hspec Hr. move: (at_ring) => [Hh Hi]. apply wp_try. rw /positions Hi.
  apply (wp_identified R G spec h); eauto using prely_rep, prely_refl, prely_trans.
  move=> s2 m2 /prely_rep Hr2. apply (wp_quiet_try _ _ _ h _ _ tt) => //.
  { apply quiet_map_err; eauto using prely_rep, prely_refl, prely_trans.
    apply quiet_cursors; eauto using prely_rep, prely_refl, prely_trans, prely_snap. }
  move=> s3 m3 /prely_rep Hr3. apply wp_bind, (quiet_commit_cursor (committed s3)) => //.
  move=> s4 m4 [Hr4 [Hlog _]]. apply wp_bind, wp_consume_cursor => //.
  eexists. split; first by right; split; [done|]; eexists; split; [apply Hspec|].
  move=> s5 m5 _. cbn. left. split; [done|]. rw /committed Hlog. done.
Qed.

End Producer.

(** Every call of the producer takes effect once and answers as the stream says. *)
Lemma producer_correct h op s m :
  represents h s m → committed s + capacity h ≤ u64_max →
  wp (producer_rely h) (consumer_rely h) (producer_spec (capacity h) op)
    (producer_prog (producer h) op) (answers (producer_spec (capacity h) op)) None s m.
Proof.
  have Hat : header (producer h) = offset h ∧ info (producer h) = h by [].
  have Hrole : role (producer h) = Producer by [].
  move=> Hr Hfit. case: op => [k bytes|k bytes keep|bytes|||].
  - have [Hbig|Hok] := N.lt_ge_cases (capacity h) (RECORD_HEADER_LEN + N.of_nat (length bytes)).
    + rw /producer_prog /send_record. cbn [info producer producer_spec].
      have Hb := proj2 (N.ltb_lt _ _) Hbig. rw Hb. right. split; [done|].
      exists (inl (BadRecord (LengthExceedsCapacity (N.of_nat (length bytes)) (capacity h)))).
      cbn. by rw Hb.
    + apply wp_send => // s'. cbn [producer_spec].
      by have -> := proj2 (N.ltb_ge _ _) Hok.
  - have [Hwire|Hwire] := N.lt_ge_cases u32_max (N.of_nat (length bytes));
    have [Hbig|Hok] := N.lt_ge_cases (capacity h) (RECORD_HEADER_LEN + N.of_nat (length bytes));
    [| | |apply wp_write => // s'; cbn [producer_spec]].
    1-2: have Hb := proj2 (N.ltb_lt _ _) Hwire.
    3: have Hb := proj2 (N.ltb_lt _ _) Hbig; have Hw := proj2 (N.ltb_ge _ _) Hwire.
    4: by have -> := proj2 (N.ltb_ge _ _) Hwire; have -> := proj2 (N.ltb_ge _ _) Hok.
    1-2: rw /producer_prog /reserve_record Hb; right; split; [done|]; eexists; cbn; by rw Hb.
    rw /producer_prog /reserve_record Hw; cbn [info producer]; rw Hb.
    right; split; [done|]; eexists; cbn; by rw Hw Hb.
  - by apply wp_send_bytes.
  - by apply wp_writable_capacity.
  - by apply wp_producer_positions.
  - apply (wp_peer _ _ _ h); eauto using prely_rep, prely_refl, prely_trans.
Qed.
