(* ===== verification/RingConsumer.v ===== *)
(** * The consumer's endpoint beside the producer

    Each call of the consumer's endpoint ([byte_ring.rs]), with the producer and the host
    running between any two of its accesses, takes effect on the stream exactly once, as
    [consumer_spec] says. *)

From S2P Require Import Prelude Memory ByteRing RingStream RingLogic RingProducer.
#[local] Open Scope N_scope.

Section Consumer.
Variable h : RingHandle.

Abbreviation R := (consumer_rely h).
Abbreviation G := (producer_rely h).

(** ** The consumer's rely *)

Lemma crely_rep s m s' m' : R s m s' m' → represents h s' m'.
Proof. by case. Qed.

Lemma crely_refl s m : represents h s m → R s m s m.
Proof. move=> Hr. split; [done|]. by split. Qed.

Lemma crely_trans s1 m1 s2 m2 s3 m3 : R s1 m1 s2 m2 → R s2 m2 s3 m3 → R s1 m1 s3 m3.
Proof.
  move=> [H1 [H2 H3]] [H4 [H5 H6]]. split; [done|]. split; [by etrans|congruence].
Qed.

Lemma crely_snap s m s' m' :
  represents h s m → R s m s' m' →
  taken s' ≤ committed s ∧ committed s ≤ taken s' + capacity h.
Proof.
  move=> Hr [_ [_ ->]]. have := rep_order _ _ _ Hr. have := rep_room _ _ _ Hr. lia.
Qed.

(** ** Bytes of the stream *)

Definition sub (s : Stream) (pos n : N) : list N :=
  take (N.to_nat n) (drop (N.to_nat pos) (log s)).

Lemma length_sub s pos n : pos + n ≤ committed s → length (sub s pos n) = N.to_nat n.
Proof. rw /sub /committed length_take length_drop. lia. Qed.

Lemma prefix_committed s s' : log s `prefix_of` log s' → committed s ≤ committed s'.
Proof. rw /committed => /prefix_length. lia. Qed.

Lemma sub_prefix s s' pos n :
  log s `prefix_of` log s' → pos + n ≤ committed s → sub s' pos n = sub s pos n.
Proof.
  move=> [x Hx] Hn. rw /committed in Hn. rw /sub Hx drop_app_le; [lia|].
  rw take_app_le // length_drop. lia.
Qed.

Lemma sub_app s pos n1 n2 : sub s pos (n1 + n2) = sub s pos n1 ++ sub s (pos + n1) n2.
Proof.
  rw /sub !N2Nat.inj_add -take_take_drop drop_drop. by do 2 f_equal.
Qed.

Lemma sub_queue s n : sub s (taken s) n = take (N.to_nat n) (queue s).
Proof. done. Qed.

Lemma sub_queue_from s off n :
  sub s (taken s + off) n = take (N.to_nat n) (drop (N.to_nat off) (queue s)).
Proof. rw /sub /queue drop_drop. do 2 f_equal. lia. Qed.

Lemma length_queue s m : represents h s m → N.of_nat (length (queue s)) = used s.
Proof. move=> /rep_order. rw /queue /used /committed length_drop. lia. Qed.

(** A span of the data region that holds committed bytes. *)
Lemma mread_cells s m pos n :
  represents h s m → taken s ≤ pos → pos + n ≤ committed s →
  pos mod capacity h + n ≤ capacity h → mread m (cell h pos) n = sub s pos n.
Proof.
  move=> Hr Hp Hn Hu. have Hc := rep_nonempty _ _ _ Hr. apply list_eq => i.
  case: (decide (i < N.to_nat n)%nat) => Hi; last first.
  { rw !lookup_ge_None_2 ?length_mread ?length_sub //; lia. }
  rw lookup_mread // /sub lookup_take_lt // lookup_drop.
  have [b Hb] : is_Some (log s !! (N.to_nat pos + i)%nat)
    by apply lookup_lt_is_Some; rw /committed in Hn; lia.
  rw Hb. f_equal. rw -(rep_bytes _ _ _ Hr _ _ _ Hb); first lia.
  have -> : N.of_nat (N.to_nat pos + i) = pos + N.of_nat i by lia.
  f_equal. rw /cell mod_offset //; lia.
Qed.

(** The consume cursor moves over bytes that were committed. *)
Lemma represents_consume s m n :
  represents h s m → n ≤ used s →
  represents h (advance s n)
    (mwrite m (offset h + OFF_CONSUME) (le_bytes 8 (taken s + n))).
Proof.
  move=> Hr Hn. have Ho := rep_order _ _ _ Hr. have Hf := rep_fits _ _ _ Hr. rw /used in Hn.
  have Hother off k v : off + k ≤ OFF_CONSUME ∨ OFF_CONSUME + 8 ≤ off → field h m off k v →
    field h (mwrite m (offset h + OFF_CONSUME) (le_bytes 8 (taken s + n))) off k v.
  { move=> Hoff Hv. rw /field mread_mwrite_other // length_le_bytes. lia. }
  have Hc : committed (advance s n) = committed s by [].
  split; rw ?Hc; try (by apply Hother; [by (left + right)|case: Hr]); try (by case: Hr).
  - rw /field mread_mwrite_same ?length_le_bytes // le_value_bytes //.
    rw /u64_max in Hf. lia.
  - cbn. lia.
  - cbn. have := rep_room _ _ _ Hr. lia.
  - move=> p b Htp Hb. cbn in Htp, Hb. rw mwrite_out.
    + rw length_le_bytes /cell /DATA_OFFSET /OFF_CONSUME.
      move: (N.of_nat p mod capacity h) => x. lia.
    + apply (rep_bytes _ _ _ Hr) => //. lia.
Qed.

Lemma store_header_cell m off v p :
  off + 8 ≤ DATA_OFFSET → mwrite m (offset h + off) (le_bytes 8 v) (cell h p) = m (cell h p).
Proof.
  move=> Ho. apply mwrite_out. rw length_le_bytes /cell. move: (p mod capacity h) => x. lia.
Qed.

(** ** Records of the queue *)

(** The head of the queue is the complete record [k], [payload]. *)
Definition headed (s : Stream) (k : RecordKind) (payload : list N) : Prop :=
  parse (capacity h) (queue s) = inr (Some (k, payload)).

Lemma parse_inv cap q k p :
  parse cap q = inr (Some (k, p)) →
  from_byte (q !!! 0%nat) = Some k ∧ N.of_nat (length p) = le_value (take 4 (drop 1 q)) ∧
  p = take (length p) (drop 5 q) ∧ (5 + length p ≤ length q)%nat ∧
  RECORD_HEADER_LEN + N.of_nat (length p) ≤ cap.
Proof.
  rw /parse /RECORD_HEADER_LEN. case: N.ltb_spec => // Hn. case Hk: (from_byte _) => [k'|] //.
  case: N.ltb_spec => // Hcap. case: N.ltb_spec => // Hlen [<- <-].
  have Hl : length (take (N.to_nat (le_value (take 4 (drop 1 q)))) (drop 5 q)) =
    N.to_nat (le_value (take 4 (drop 1 q))) by rw length_take length_drop; lia.
  rw Hl N2Nat.id. repeat split => //; lia.
Qed.

Lemma parse_app cap q x k p :
  parse cap q = inr (Some (k, p)) → parse cap (q ++ x) = inr (Some (k, p)).
Proof.
  move=> Hp. have [Hk [Hl [Hpay [Hlen Hcap]]]] := parse_inv _ _ _ _ Hp.
  rw /parse length_app /RECORD_HEADER_LEN in Hcap *.
  have -> : (N.of_nat (length q + length x) <? 5) = false by apply N.ltb_ge; lia.
  rw lookup_total_app_l; first lia. rw Hk drop_app_le; first lia.
  rw take_app_le; first by rw length_drop; lia. rw -Hl.
  have -> : (cap <? 5 + N.of_nat (length p)) = false by apply N.ltb_ge.
  have -> : (N.of_nat (length q + length x) <? 5 + N.of_nat (length p)) = false
    by apply N.ltb_ge; lia.
  rw drop_app_le; first lia. rw take_app_le; first by rw length_drop; lia.
  by rw Nat2N.id -Hpay.
Qed.

Lemma queue_grows s m s' m' : represents h s m → R s m s' m' → ∃ x, queue s' = queue s ++ x.
Proof.
  move=> Hr [_ [[x Hx] Ht]]. exists x. rw /queue Ht Hx drop_app_le //.
  have := rep_order _ _ _ Hr. rw /committed. lia.
Qed.

Lemma headed_stable s m s' m' k p :
  represents h s m → R s m s' m' → headed s k p → headed s' k p.
Proof.
  move=> Hr HR. have [x Hx] := queue_grows _ _ _ _ Hr HR. rw /headed Hx. apply parse_app.
Qed.

Lemma headed_fits s m k p :
  represents h s m → headed s k p →
  RECORD_HEADER_LEN + N.of_nat (length p) ≤ used s ∧
  taken s + RECORD_HEADER_LEN + N.of_nat (length p) ≤ committed s ∧
  ∀ off n, off + n ≤ N.of_nat (length p) →
    sub s (taken s + RECORD_HEADER_LEN + off) n = take (N.to_nat n) (drop (N.to_nat off) p).
Proof.
  move=> Hr /parse_inv [_ [_ [Hpay [Hlen _]]]]. have Hq := length_queue _ _ Hr.
  have Ho := rep_order _ _ _ Hr. rw /used in Hq *. rw /RECORD_HEADER_LEN.
  split; [lia|]. split; [lia|]. move=> off n Hn.
  rw -N.add_assoc sub_queue_from {1}Hpay N2Nat.inj_add -drop_drop.
  rw skipn_firstn_comm take_take. f_equal. lia.
Qed.

(** ** Loads *)

Variable spec : Stream → Stream * Res.
Abbreviation W := (wp R G spec).
Variable e : Endpoint.
Hypothesis at_ring : header e = offset h ∧ info e = h.

Lemma wp_copy_out pos n Q st s m :
  represents h s m → taken s ≤ pos → pos + n ≤ committed s →
  (∀ s' m', R s m s' m' → Q (sub s pos n) st s' m') → W (copy_out e pos n) Q st s m.
Proof using at_ring.
  move: at_ring => [Hh Hi] Hr Hp Hn HQ. have Hc := rep_nonempty _ _ _ Hr.
  have Hroom := rep_room _ _ _ Hr. rw /copy_out /spans /data_ptr Hh Hi.
  have -> : (capacity h =? 0) = false by apply N.eqb_neq; lia. cbn [negb check_that].
  have Hmod := N.mod_lt pos (capacity h) ltac:(lia).
  set first := N.min _ _. apply wp_bind; cbn [wp]. apply wp_bind.
  have Hfirst : first ≤ capacity h - pos mod capacity h ∧ first ≤ n by rw /first; lia.
  exists st. split; [apply lin_none|]. move=> s1 m1 H1. have Hr1 := crely_rep _ _ _ _ H1.
  have -> : offset h + DATA_OFFSET + pos mod capacity h = cell h pos by [].
  rw (mread_cells s) //; [lia..|]. apply wp_bind. exists st. split; [apply lin_none|].
  move=> s2 m2 H2. cbn [wp]. move: (H1) => [_ [Hlog1 Ht1]].
  have -> : mread m1 (offset h + DATA_OFFSET) (n - first) = sub s (pos + first) (n - first).
  { have [Hall|Hpart] := N.le_gt_cases n first.
    - have -> : n - first = 0 by lia. done.
    - have Hend : (pos + first) mod capacity h = 0.
      { rw -N.Div0.add_mod_idemp_l. have -> : pos mod capacity h + first = capacity h
          by rw /first; lia. by apply N.Div0.mod_same. }
      have -> : offset h + DATA_OFFSET = cell h (pos + first) by rw /cell Hend; lia.
      rw (mread_cells s1) //; last by apply sub_prefix => //; lia.
      + lia. + have := prefix_committed _ _ Hlog1. lia. + lia. }
  rw -sub_app. have -> : first + (n - first) = n by lia. apply HQ. by apply: crely_trans H1 H2.
Qed.

(** The two cursors as one snapshot, taken when the producer's is loaded. *)
Lemma wp_cursors {A} (f : N → N → prog A) Q s m :
  represents h s m →
  (∃ st', lin spec s None s st' ∧
     ∀ s2 m2, R s m s2 m2 → W (f (committed s) (taken s)) Q st' s2 m2) →
  W (commit ← commit_cursor e; consume ← consume_cursor e; f commit consume) Q None s m.
Proof using at_ring.
  move: at_ring => [Hh _] Hr [st' [Hl Hf]]. rw /commit_cursor /consume_cursor /field_u64 Hh.
  apply wp_bind, wp_load_lin. rw (rep_commit _ _ _ Hr). exists st'. split; [done|].
  move=> s1 m1 H1. have Hr1 := crely_rep _ _ _ _ H1. apply wp_bind, wp_load_lin.
  rw (rep_consume _ _ _ Hr1). exists st'. split; [apply lin_none|]. move=> s2 m2 H2.
  have -> : taken s1 = taken s by move: H1 => [_ [_ ->]].
  apply Hf. by apply: crely_trans H1 H2.
Qed.

Lemma used_small s m : represents h s m → u64_sub (committed s) (taken s) = used s.
Proof. move=> [] *. apply u64_sub_small; lia. Qed.

(** ** The next record *)

Definition found (s : Stream) : FlowError + option (RecordKind * N * N) :=
  match parse (capacity h) (queue s) with
  | inl err => inl err
  | inr None => inr None
  | inr (Some (k, p)) => inr (Some (k, N.of_nat (length p), taken s))
  end.

(** [found] on the bytes the code looks at. *)
Lemma found_eq s m : represents h s m →
  found s =
    if used s <? RECORD_HEADER_LEN then inr None else
    let prefix := sub s (taken s) RECORD_HEADER_LEN in
    match from_byte (prefix !!! 0%nat) with
    | None => inl (BadRecord (InvalidKind (prefix !!! 0%nat)))
    | Some k =>
        let len := le_value (drop 1 prefix) in
        if capacity h <? RECORD_HEADER_LEN + len
        then inl (BadRecord (LengthExceedsCapacity len (capacity h))) else
        if used s <? RECORD_HEADER_LEN + len then inr None
        else inr (Some (k, len, taken s))
    end.
Proof.
  move=> Hr. rw /found /parse (length_queue _ _ Hr) sub_queue /RECORD_HEADER_LEN.
  case: N.ltb_spec => // Hn. have Hq := length_queue _ _ Hr.
  have -> : take (N.to_nat 5) (queue s) !!! 0%nat = queue s !!! 0%nat.
  { rw !list_lookup_total_alt lookup_take_lt //. lia. }
  rw skipn_firstn_comm. change (N.to_nat 5 - 1)%nat with 4%nat.
  case: (from_byte _) => [k|] //. case: N.ltb_spec => // Hcap. case: N.ltb_spec => // Hlen.
  rw length_take length_drop. do 4 f_equal. lia.
Qed.

Lemma wp_next_record Q s m :
  represents h s m →
  (∃ st', lin spec s None s st' ∧ ∀ s2 m2, R s m s2 m2 → Q (found s) st' s2 m2) →
  W (next_record e) Q None s m.
Proof using at_ring.
  move=> Hr [st' [Hl HQ]]. move: (at_ring) => [Hh Hi]. apply wp_cursors => //.
  exists st'. split; [done|]. move=> s1 m1 H1. rw (used_small _ _ Hr) Hi.
  rw (found_eq _ _ Hr) in HQ. case: N.ltb_spec HQ => Hn HQ; first by apply HQ.
  have Hr1 := crely_rep _ _ _ _ H1. move: (H1) => [_ [Hlog Ht]].
  have Ho := rep_order _ _ _ Hr. rw /used in Hn.
  have Hle := prefix_committed _ _ Hlog.
  apply wp_bind, wp_copy_out => //; [lia|lia|]. move=> s2 m2 H2.
  have {HQ} := HQ _ _ (crely_trans _ _ _ _ _ _ H1 H2). cbv zeta.
  rw (sub_prefix s s1) //; first lia.
  case: (from_byte _) => [k|] //. case: N.ltb_spec => // _. by case: N.ltb_spec.
Qed.

(** For a call that takes the record when it can answer for it, the load of the producer's
    cursor is where it takes effect if it cannot. *)
Lemma wp_take none f Q s m :
  (∀ s, spec s = take_record (capacity h) s none f) → represents h s m →
  (∀ err st s m, answers spec (inl err) st s m → Q (inl err) st s m) →
  (∀ st s m, answers spec (inr none) st s m → Q (inr None) st s m) →
  (∀ s1 m1 k p st, represents h s1 m1 → headed s1 k p →
     match f k p with inl err => answers spec (inl err) st s1 m1 | inr _ => st = None end →
     Q (inr (Some (k, N.of_nat (length p), taken s1))) st s1 m1) →
  W (next_record e) Q None s m.
Proof using at_ring.
  move=> Hspec Hr Herr Hnone Hsome. apply wp_next_record => //.
  have Hs := Hspec s. rw /take_record in Hs. rw /found.
  have Hlin r : spec s = (s, r) → lin spec s None s (Some r).
  { move=> Hr'. right. split; [done|]. by exists r. }
  case Hp: (parse (capacity h) (queue s)) Hs => [err|[[k p]|]] Hs.
  - eexists. split; [by apply Hlin, Hs|]. move=> s2 m2 _.
    apply Herr. by left.
  - case Hf: (f k p) Hs => [err|r] Hs.
    + eexists. split; [by apply Hlin, Hs|]. move=> s2 m2 H2.
      have -> : taken s = taken s2 by move: H2 => [_ [_ ->]].
      apply Hsome; [by apply: crely_rep H2|by apply: headed_stable H2 _|].
      rw Hf. by left.
    + exists None. split; [apply lin_none|]. move=> s2 m2 H2.
      have -> : taken s = taken s2 by move: H2 => [_ [_ ->]].
      apply Hsome; [by apply: crely_rep H2|by apply: headed_stable H2 _|]. by rw Hf.
  - eexists. split; [by apply Hlin, Hs|]. move=> s2 m2 _.
    apply Hnone. by left.
Qed.

(** Releasing the record is where it is taken. *)
Lemma wp_release none f k p r Q s m :
  (∀ s, spec s = take_record (capacity h) s none f) → represents h s m → headed s k p →
  f k p = inr r → (∀ s' m', Q tt (Some (inr r)) s' m') →
  W (store_u64 e OFF_CONSUME (taken s + (RECORD_HEADER_LEN + N.of_nat (length p)))) Q None s m.
Proof using at_ring.
  move=> Hspec Hr Hp Hf HQ. move: (at_ring) => [Hh _].
  have [Hu [Hc _]] := headed_fits _ _ _ _ Hr Hp. rw /store_u64 Hh.
  eexists (advance s (RECORD_HEADER_LEN + N.of_nat (length p))), _. split; [|split].
  - right. split; [done|]. eexists. split; [|done]. rw Hspec /take_record.
    rw /headed in Hp. by rw Hp Hf.
  - split; [by apply represents_consume|]. split; [done|]. split; [cbn; lia|].
    move=> q. by apply store_header_cell.
  - move=> s' m' _. apply HQ.
Qed.

Lemma wp_still_first op c Q st s m :
  role e = Consumer → represents h s m → c_generation c = generation h →
  record_start c = taken s → (∀ s' m', R s m s' m' → Q (inr tt) st s' m') →
  W (still_first e op c) Q st s m.
Proof using at_ring.
  move=> Hrole Hr Hg Hst HQ. move: (at_ring) => [Hh _].
  apply (wp_quiet_try _ _ _ h _ _ tt) => //.
  { apply (quiet_check R G spec h); eauto using crely_rep, crely_refl, crely_trans, crely_snap. }
  move=> s1 m1 H1. rw Hg. apply (wp_quiet_try _ _ _ h _ _ tt); [|by apply: crely_rep H1|].
  { apply (quiet_stale R G spec h); eauto using crely_rep, crely_refl, crely_trans. }
  move=> s2 m2 H2. have H02 := crely_trans _ _ _ _ _ _ H1 H2. have Hr2 := crely_rep _ _ _ _ H02.
  rw /consume_cursor /field_u64 Hh. apply wp_bind, wp_load_lin. exists st.
  split; [apply lin_none|]. move=> s3 m3 H3. cbn [wp]. rw (rep_consume _ _ _ Hr2) Hst.
  have -> : taken s2 = taken s by move: H02 => [_ [_ ->]].
  rw N.eqb_refl. apply HQ. by apply: crely_trans H02 H3.
Qed.

(** ** The payload of the head record *)

Lemma positions_small s m k p off :
  represents h s m → headed s k p → off ≤ N.of_nat (length p) →
  taken s +64 RECORD_HEADER_LEN = taken s + RECORD_HEADER_LEN ∧
  (taken s + RECORD_HEADER_LEN) +64 off = taken s + RECORD_HEADER_LEN + off ∧
  taken s +64 (RECORD_HEADER_LEN + off) = taken s + (RECORD_HEADER_LEN + off).
Proof.
  move=> Hr Hp Hoff. have [_ [Hc _]] := headed_fits _ _ _ _ Hr Hp.
  have Hf := rep_fits _ _ _ Hr. rw /u64_max in Hf.
  by rw !u64_add_small /u64_modulus; lia.
Qed.

Lemma wp_copy_range k p off n Q st s m :
  represents h s m → headed s k p → off + n ≤ N.of_nat (length p) →
  (∀ s' m', R s m s' m' → Q (take (N.to_nat n) (drop (N.to_nat off) p)) st s' m') →
  W (copy_out e (taken s + RECORD_HEADER_LEN + off) n) Q st s m.
Proof using at_ring.
  move=> Hr Hp Hn HQ. have [_ [Hc Hs]] := headed_fits _ _ _ _ Hr Hp.
  apply wp_copy_out => //; [lia|lia|]. move=> s' m' H'. rw Hs //. by apply HQ.
Qed.

Lemma wp_copy_whole k p Q st s m :
  represents h s m → headed s k p → (∀ s' m', R s m s' m' → Q p st s' m') →
  W (copy_out e (taken s + RECORD_HEADER_LEN) (N.of_nat (length p))) Q st s m.
Proof using at_ring.
  move=> Hr Hp HQ. rw -(N.add_0_r (taken s + RECORD_HEADER_LEN)).
  apply (wp_copy_range k p 0) => // s' m' H'. rw take_ge; last by apply HQ.
  rw length_drop. lia.
Qed.

Hypothesis is_consumer : role e = Consumer.

Lemma wp_copy_record_range k p off n Q st s m :
  represents h s m → headed s k p → (∀ s' m', R s m s' m' → Q (slice p (off, n)) st s' m') →
  W (copy_record_range e (cursor_at e k (N.of_nat (length p)) (taken s)) off n) Q st s m.
Proof using at_ring is_consumer.
  move: (at_ring) => [Hh Hi] Hr Hp HQ. apply wp_try, wp_still_first => //; first by cbn; rw Hi.
  move=> s1 m1 H1. have Hr1 := crely_rep _ _ _ _ H1. have Hp1 := headed_stable _ _ _ _ _ _ Hr H1 Hp.
  have Ht1 : taken s1 = taken s by move: H1 => [_ [_ ->]].
  rw -Ht1 /cursor_at. cbn [payload_len payload_start].
  rw /slice in HQ. cbn [fst snd] in HQ.
  case: N.ltb_spec HQ => Hoff HQ; first by apply HQ.
  have [-> [-> _]] := positions_small _ _ _ _ off Hr1 Hp1 Hoff.
  apply wp_bind, (wp_copy_range k p) => //; first lia. move=> s2 m2 H2. cbn [wp].
  have -> : take (N.to_nat (N.min n (N.of_nat (length p) - off))) (drop (N.to_nat off) p) =
    take (N.to_nat n) (drop (N.to_nat off) p).
  { rw N2Nat.inj_min -take_take (take_ge (drop _ _)) // length_drop. lia. }
  apply HQ. by apply: crely_trans H1 H2.
Qed.

Lemma wp_copy_ranges k p ranges Q st s m :
  represents h s m → headed s k p → (∀ s' m', R s m s' m' → Q (slices p ranges) st s' m') →
  W (copy_ranges e (cursor_at e k (N.of_nat (length p)) (taken s)) ranges) Q st s m.
Proof using at_ring is_consumer.
  elim: ranges Q st s m => [|[off n] ranges IH] Q st s m Hr Hp HQ.
  { cbn. by apply HQ, crely_refl. }
  cbn [copy_ranges]. cbn [slices] in HQ. apply wp_try, wp_copy_record_range => //.
  move=> s1 m1 H1. have Hr1 := crely_rep _ _ _ _ H1. have Hp1 := headed_stable _ _ _ _ _ _ Hr H1 Hp.
  have Ht1 : taken s1 = taken s by move: H1 => [_ [_ ->]].
  case: (slice p (off, n)) HQ => [err|part] HQ; first by apply HQ.
  apply wp_try. rw -Ht1. apply IH => // s2 m2 H2.
  have H02 := crely_trans _ _ _ _ _ _ H1 H2.
  case: (slices p ranges) HQ => [err|parts] HQ; by apply HQ.
Qed.

(** ** The calls *)

Definition whole (k : RecordKind) (p : list N) : Res := inr (Record_ (Some (k, p))).

Lemma wp_recv s m :
  (∀ s, spec s = take_record (capacity h) s (Record_ None) whole) → represents h s m →
  W (consumer_prog e RecvRecord) (answers spec) None s m.
Proof using at_ring is_consumer.
  move=> Hspec Hr. move: (at_ring) => [Hh Hi].
  apply wp_try, (wp_quiet_try _ _ _ h _ _ tt) => //.
  { apply (quiet_check R G spec h); eauto using crely_rep, crely_refl, crely_trans, crely_snap. }
  move=> s1 m1 /crely_rep Hr1. apply wp_try, (wp_take _ _ _ _ _ Hspec) => //.
  move=> s2 m2 k p st Hr2 Hp ->. cbv beta iota. apply wp_bind.
  have [-> [-> _]] := positions_small _ _ _ _ (N.of_nat (length p)) Hr2 Hp ltac:(lia).
  apply (wp_copy_whole k) => // s3 m3 H3. have Hr3 := crely_rep _ _ _ _ H3.
  have Hp3 := headed_stable _ _ _ _ _ _ Hr2 H3 Hp.
  have -> : taken s2 = taken s3 by move: H3 => [_ [_ ->]].
  rw -N.add_assoc. apply wp_bind.
  apply (wp_release _ _ k p (Record_ (Some (k, p))) _ _ _ Hspec) => // s4 m4. by left.
Qed.

Lemma wp_pin s m :
  (∀ s, spec s = take_record (capacity h) s (Record_ None) whole) → represents h s m →
  W (consumer_prog e PinRecord) (answers spec) None s m.
Proof using at_ring is_consumer.
  move=> Hspec Hr. move: (at_ring) => [Hh Hi].
  apply wp_try, (wp_quiet_try _ _ _ h _ _ tt) => //.
  { apply (quiet_check_current R G spec h); eauto using crely_rep, crely_refl, crely_trans, crely_snap. }
  move=> s1 m1 /crely_rep Hr1. apply wp_try, (wp_take _ _ _ _ _ Hspec) => //.
  move=> s2 m2 k p st Hr2 Hp ->. cbn [wp fmap option_fmap option_map]. apply wp_bind.
  rw /read_pinned /release /release_inner /cursor_at.
  cbn [pinned payload_start payload_len record_start record_len c_kind].
  have [-> [_ ->]] := positions_small _ _ _ _ (N.of_nat (length p)) Hr2 Hp ltac:(lia).
  apply (wp_copy_whole k) => // s3 m3 H3. have Hr3 := crely_rep _ _ _ _ H3.
  have Hp3 := headed_stable _ _ _ _ _ _ Hr2 H3 Hp.
  have Ht3 : taken s3 = taken s2 by move: H3 => [_ [_ ->]].
  apply wp_try, wp_try, wp_still_first => //; first by cbn; rw Hi.
  move=> s4 m4 H4. have Ht4 : taken s4 = taken s2 by move: H4 => [_ [_ ->]].
  rw -Ht4. apply wp_bind, (wp_release _ _ k p (Record_ (Some (k, p))) _ _ _ Hspec) => //.
  - by apply: crely_rep H4.
  - by apply: headed_stable H4 Hp3.
  - by left.
Qed.

Definition parts_of (ranges : list (N * N)) (k : RecordKind) (p : list N) : Res :=
  match slices p ranges with
  | inl err => inl err
  | inr parts => inr (Parts (Some (k, parts)))
  end.

Lemma wp_cursor ranges s m :
  (∀ s, spec s = take_record (capacity h) s (Parts None) (parts_of ranges)) → represents h s m →
  W (consumer_prog e (CursorRecord ranges)) (answers spec) None s m.
Proof using at_ring is_consumer.
  move=> Hspec Hr. move: (at_ring) => [Hh Hi].
  apply wp_try, (wp_quiet_try _ _ _ h _ _ tt) => //.
  { apply (quiet_check_current R G spec h); eauto using crely_rep, crely_refl, crely_trans, crely_snap. }
  move=> s1 m1 /crely_rep Hr1. apply wp_try, (wp_take _ _ _ _ _ Hspec) => //.
  move=> s2 m2 k p st Hr2 Hp Hst. cbn [wp fmap option_fmap option_map].
  apply wp_try, wp_copy_ranges => // s3 m3 H3. have Hr3 := crely_rep _ _ _ _ H3.
  have Hp3 := headed_stable _ _ _ _ _ _ Hr2 H3 Hp.
  rw /parts_of in Hst. case Hs: (slices p ranges) Hst => [err|parts] Hst.
  { move: Hst => [[_ <-]|[-> _]]; first by left. right. split; [done|].
    exists (inl err). split; [|done]. rw Hspec /take_record /parts_of.
    rw /headed in Hp3. by rw Hp3 Hs. }
  rw Hst. apply wp_try, wp_try, wp_still_first => //; [by cbn; rw Hi|by move: H3 => [_ [_ ->]]|].
  move=> s4 m4 H4. have Hp4 := headed_stable _ _ _ _ _ _ Hr3 H4 Hp3. rw /cursor_at.
  cbn [record_start record_len].
  have [_ [_ ->]] := positions_small _ _ _ _ (N.of_nat (length p)) Hr2 Hp ltac:(lia).
  have -> : taken s2 = taken s4 by move: H3 H4 => [_ [_ <-]] [_ [_ <-]].
  apply wp_bind, (wp_release _ _ k p (Parts (Some (k, parts))) _ _ _ Hspec) => //.
  - by apply: crely_rep H4.
  - by rw /parts_of Hs.
  - by left.
Qed.

Lemma wp_next_meta s m :
  (∀ s, spec s = consumer_spec (capacity h) NextMeta s) → represents h s m →
  W (consumer_prog e NextMeta) (answers spec) None s m.
Proof using at_ring is_consumer.
  move=> Hspec Hr. move: (at_ring) => [Hh Hi].
  apply wp_try, (wp_quiet_try _ _ _ h _ _ tt) => //.
  { apply (quiet_check_current R G spec h); eauto using crely_rep, crely_refl, crely_trans, crely_snap. }
  move=> s1 m1 /crely_rep Hr1. apply wp_try, wp_next_record => //.
  eexists. split; first by right; split; [done|]; eexists; split; [apply Hspec|].
  move=> s2 m2 _. rw /found. by case: (parse _ _) => [err|[[k p]|]]; left.
Qed.

(** The byte calls. *)
Lemma wp_byte_call {A} op (f : N → N → prog (FlowError + A)) Q s m :
  represents h s m →
  (∀ s1 m1, R s m s1 m1 → represents h s1 m1 →
    ∃ st', lin spec s1 None s1 st' ∧
      ∀ s2 m2, R s1 m1 s2 m2 → W (f (committed s1) (taken s1)) Q st' s2 m2) →
  W (check e op Consumer ;?
     commit ← commit_cursor e; consume ← consume_cursor e; f commit consume) Q None s m.
Proof using at_ring is_consumer.
  move=> Hr Hf. apply (wp_quiet_try _ _ _ h _ _ tt) => //.
  { apply (quiet_check R G spec h); eauto using crely_rep, crely_refl, crely_trans, crely_snap. }
  move=> s1 m1 H1. have Hr1 := crely_rep _ _ _ _ H1. apply wp_cursors => //. by apply Hf.
Qed.

Lemma wp_readable s m :
  (∀ s, spec s = consumer_spec (capacity h) Readable s) → represents h s m →
  W (consumer_prog e Readable) (answers spec) None s m.
Proof using at_ring is_consumer.
  move=> Hspec Hr. apply wp_try, wp_byte_call => // s1 m1 _ Hr1. rw (used_small _ _ Hr1).
  eexists. split; first by right; split; [done|]; eexists; split; [apply Hspec|].
  move=> s2 m2 _. by left.
Qed.

Lemma wp_read len s m :
  (∀ s, spec s = consumer_spec (capacity h) (ReadBytes len) s) → represents h s m →
  W (consumer_prog e (ReadBytes len)) (answers spec) None s m.
Proof using at_ring is_consumer.
  move=> Hspec Hr. apply wp_try, wp_byte_call => // s1 m1 _ Hr1. rw (used_small _ _ Hr1).
  eexists. split; first by right; split; [done|]; eexists; split; [apply Hspec|].
  move=> s2 m2 [Hr2 [Hlog Ht]]. case: N.ltb_spec => Hlen; first by left.
  have Ho := rep_order _ _ _ Hr1. rw /used in Hlen. have Hle := prefix_committed _ _ Hlog.
  apply wp_bind, wp_copy_out => //; [lia|lia|].
  move=> s3 m3 _. rw (sub_prefix s1) //; first lia. by left.
Qed.

Lemma wp_consume len s m :
  (∀ s, spec s = consumer_spec (capacity h) (ConsumeBytes len) s) → represents h s m →
  W (consumer_prog e (ConsumeBytes len)) (answers spec) None s m.
Proof using at_ring is_consumer.
  move=> Hspec Hr. move: (at_ring) => [Hh _].
  apply wp_try, wp_byte_call => // s1 m1 _ Hr1. rw (used_small _ _ Hr1).
  have Hs := Hspec s1. cbn [consumer_spec] in Hs. case: N.ltb_spec Hs => Hlen Hs.
  { eexists. split; first by right; split; [done|]; eexists; split; [apply Hs|].
    move=> s2 m2 _. by left. }
  exists None. split; [apply lin_none|]. move=> s2 m2 [Hr2 [Hlog Ht]].
  have Ho := rep_order _ _ _ Hr2. have Hf := rep_fits _ _ _ Hr2.
  have Hlen2 : len ≤ used s2.
  { rw /used Ht in Hlen *. have := prefix_committed _ _ Hlog. lia. }
  rw -Ht u64_add_small; first by rw /used /u64_max /u64_modulus in Hlen2 Hf *; lia.
  apply wp_bind. rw /store_u64 Hh. exists (advance s2 len), (Some (inr Unit)). split; [|split].
  - right. split; [done|]. eexists. split; [|done]. rw Hspec. cbn [consumer_spec].
    by have -> := proj2 (N.ltb_ge _ _) Hlen2.
  - split; [by apply represents_consume|]. split; [done|]. split; [cbn; lia|].
    move=> q. by apply store_header_cell.
  - move=> s3 m3 _. by left.
Qed.

Lemma wp_consumer_positions s m :
  (∀ s, spec s = consumer_spec (capacity h) ConsumerPositions s) → represents h s m →
  W (consumer_prog e ConsumerPositions) (answers spec) None s m.
Proof using at_ring is_consumer.
  move=> Hspec Hr. move: (at_ring) => [Hh Hi]. apply wp_try. rw /positions Hi.
  apply (wp_identified R G spec h); eauto using crely_rep, crely_refl, crely_trans.
  move=> s2 m2 /crely_rep Hr2. apply (wp_quiet_try _ _ _ h _ _ tt) => //.
  { apply quiet_map_err; eauto using crely_rep, crely_refl, crely_trans.
    apply quiet_cursors; eauto using crely_rep, crely_refl, crely_trans, crely_snap. }
  move=> s3 m3 /crely_rep Hr3. apply wp_cursors => //.
  eexists. split; first by right; split; [done|]; eexists; split; [apply Hspec|].
  move=> s5 m5 _. by left.
Qed.

End Consumer.

(** Every call of the consumer takes effect once and answers as the stream says. *)
Lemma consumer_correct h op s m :
  represents h s m →
  wp (consumer_rely h) (producer_rely h) (consumer_spec (capacity h) op)
    (consumer_prog (consumer h) op) (answers (consumer_spec (capacity h) op)) None s m.
Proof.
  have Hat : header (consumer h) = offset h ∧ info (consumer h) = h by [].
  have Hrole : role (consumer h) = Consumer by [].
  move=> Hr. case: op => [||ranges|||len|len||].
  - by apply wp_recv.
  - by apply wp_pin.
  - by apply wp_cursor.
  - by apply wp_next_meta.
  - by apply wp_readable.
  - by apply wp_read.
  - by apply wp_consume.
  - by apply wp_consumer_positions.
  - apply (wp_peer _ _ _ h); eauto using crely_rep, crely_refl, crely_trans.
Qed.
