(* ===== verification/RingAtomic.v ===== *)
(** * A byte ring under every interleaving

    Whatever order the accesses of the producer, the consumer and the host take, the ring of
    [byte_ring.rs] behaves as the stream of [RingStream] on which each call happens at
    once; so the records the consumer gets are those the producer sent, in order. *)

From S2P Require Import Prelude Memory ByteRing RingStream RingLogic RingProducer RingConsumer.
#[local] Open Scope N_scope.

(** ** Histories *)

(** The bytes a call commits when it succeeds. *)
Definition size (op : ProducerOp) : N :=
  match op with
  | SendRecord k bytes => N.of_nat (length (frame k bytes))
  | WriteRecord k bytes true => N.of_nat (length (frame k bytes))
  | SendBytes bytes => N.of_nat (length bytes)
  | _ => 0
  end.

(** The bytes committed in a history. *)
Fixpoint accepted (tr : list Event) : N :=
  match tr with
  | ProducerReturn op (inr _) :: tr => size op + accepted tr
  | _ :: tr => accepted tr
  | [] => 0
  end.

Lemma accepted_app t1 t2 : accepted (t1 ++ t2) = accepted t1 + accepted t2.
Proof. elim: t1 => [|[?|? [?|?]|?|? ?|?|?] t1 IH] //=. lia. Qed.

Lemma spec_run_one h a t b : SpecStep h a t b → SpecRun h a t b.
Proof. move=> H. apply: (spec_next h a [] a) H. constructor. Qed.

Lemma spec_run_trans h a t1 b t2 c : SpecRun h a t1 b → SpecRun h b t2 c → SpecRun h a (t1 ++ t2) c.
Proof.
  move=> H1 H2. elim: H2 H1 => [a' H1|a' t' b' t'' c' H' IH Hs H1]; first by rw app_nil_r.
  rw app_assoc. apply: spec_next Hs. by apply IH.
Qed.

Lemma spec_run_no_panic h a t b r : SpecRun h a t b → Panicked r ∉ t.
Proof.
  elim => [a'|a' t1 b' t2 c' _ IH Hstep]; first by apply not_elem_of_nil.
  rw not_elem_of_app. split; [done|].
  by case: Hstep => *; rw ?list_elem_of_singleton; try apply not_elem_of_nil.
Qed.

(** ** Simulation *)

Section Simulation.
Variable h : RingHandle.

Definition producer_sim (s : Stream) (m : Mem) (th : option (ProducerOp * prog Res))
    (st : Status ProducerOp) : Prop :=
  let right op p r := ∀ s' m', producer_rely h s m s' m' →
    wp (producer_rely h) (consumer_rely h) (producer_spec (capacity h) op) p
      (answers (producer_spec (capacity h) op)) r s' m' in
  match th, st with
  | None, Idle => True
  | Some (op, p), Called op' => op' = op ∧ right op p None
  | Some (op, p), Done op' r => op' = op ∧ right op p (Some r)
  | _, _ => False
  end.

Definition consumer_sim (s : Stream) (m : Mem) (th : option (ConsumerOp * prog Res))
    (st : Status ConsumerOp) : Prop :=
  let right op p r := ∀ s' m', consumer_rely h s m s' m' →
    wp (consumer_rely h) (producer_rely h) (consumer_spec (capacity h) op) p
      (answers (consumer_spec (capacity h) op)) r s' m' in
  match th, st with
  | None, Idle => True
  | Some (op, p), Called op' => op' = op ∧ right op p None
  | Some (op, p), Done op' r => op' = op ∧ right op p (Some r)
  | _, _ => False
  end.

(** The ring and its threads are where the stream and its clients are. *)
Definition simulates (sys : System) (a : Spec) : Prop :=
  represents h (stream a) (mem sys) ∧
  producer_sim (stream a) (mem sys) (pthread sys) (pstatus a) ∧
  consumer_sim (stream a) (mem sys) (cthread sys) (cstatus a).

Lemma producer_sim_rely s m s' m' th st :
  producer_rely h s m s' m' → producer_sim s m th st → producer_sim s' m' th st.
Proof.
  move=> HR. case: th => [[op p]|]; case: st => [|op'|op' r] //= [-> Hw];
    split => // s2 m2 H2; apply Hw; by apply: prely_trans HR H2.
Qed.

Lemma consumer_sim_rely s m s' m' th st :
  consumer_rely h s m s' m' → consumer_sim s m th st → consumer_sim s' m' th st.
Proof.
  move=> HR. case: th => [[op p]|]; case: st => [|op'|op' r] //= [-> Hw];
    split => // s2 m2 H2; apply Hw; by apply: crely_trans HR H2.
Qed.

(** What a call that is under way has done so far. *)
Definition outcome {Op} (op : Op) (st : option Res) : Status Op :=
  match st with None => Called op | Some r => Done op r end.

Lemma producer_lin op s c st s1 st1 :
  lin (producer_spec (capacity h) op) s st s1 st1 →
  SpecRun h (mkSpec s (outcome op st) c) [] (mkSpec s1 (outcome op st1) c).
Proof.
  move=> [[-> ->]|[-> [r [Hs ->]]]]; first by constructor.
  apply spec_run_one. by constructor.
Qed.

Lemma consumer_lin op s p st s1 st1 :
  lin (consumer_spec (capacity h) op) s st s1 st1 →
  SpecRun h (mkSpec s p (outcome op st)) [] (mkSpec s1 p (outcome op st1)).
Proof.
  move=> [[-> ->]|[-> [r [Hs ->]]]]; first by constructor.
  apply spec_run_one. by constructor.
Qed.

Lemma producer_sim_inv s m op p st :
  represents h s m → producer_sim s m (Some (op, p)) st →
  ∃ r, st = outcome op r ∧
    wp (producer_rely h) (consumer_rely h) (producer_spec (capacity h) op) p
      (answers (producer_spec (capacity h) op)) r s m.
Proof.
  move=> Hr. have HR := prely_refl _ _ _ Hr. case: st => [|op'|op' r] //= [-> Hw];
    [exists None|exists (Some r)]; (split; [done|]); by apply Hw.
Qed.

Lemma consumer_sim_inv s m op p st :
  represents h s m → consumer_sim s m (Some (op, p)) st →
  ∃ r, st = outcome op r ∧
    wp (consumer_rely h) (producer_rely h) (consumer_spec (capacity h) op) p
      (answers (consumer_spec (capacity h) op)) r s m.
Proof.
  move=> Hr. have HR := crely_refl _ _ _ Hr. case: st => [|op'|op' r] //= [-> Hw];
    [exists None|exists (Some r)]; (split; [done|]); by apply Hw.
Qed.

Lemma producer_sim_intro s m op p st :
  (∀ s' m', producer_rely h s m s' m' →
    wp (producer_rely h) (consumer_rely h) (producer_spec (capacity h) op) p
      (answers (producer_spec (capacity h) op)) st s' m') →
  producer_sim s m (Some (op, p)) (outcome op st).
Proof. by case: st. Qed.

Lemma consumer_sim_intro s m op p st :
  (∀ s' m', consumer_rely h s m s' m' →
    wp (consumer_rely h) (producer_rely h) (consumer_spec (capacity h) op) p
      (answers (consumer_spec (capacity h) op)) st s' m') →
  consumer_sim s m (Some (op, p)) (outcome op st).
Proof. by case: st. Qed.

(** An access or the return of the producer. *)
Lemma run_producer_simulates sys a sys' t :
  simulates sys a → pick h RunProducer sys = (sys', t) →
  ∃ b, SpecRun h a t b ∧ simulates sys' b.
Proof.
  move: sys a => [m pth cth] [s pst cst] [/= Hr [Hp Hc]].
  case: pth Hp => [[op p]|] Hp; last first.
  { move=> [<- <-]. eexists. split; [constructor|]. by split. }
  have {Hp} [r [-> Hw]] := producer_sim_inv _ _ _ _ _ Hr Hp.
  case: p Hw => [x|pos n k|pos bs k|] //= Hw; move=> [<- <-].
  - exists (mkSpec s Idle cst). split; last by split; [|split].
    apply (spec_next h _ [] (mkSpec s (outcome op (Some x)) cst)); last by constructor.
    by apply producer_lin.
  - have [st' [Hl Hn]] := Hw. exists (mkSpec s (outcome op st') cst).
    split; [by apply producer_lin|]. split; [done|]. split; [|done].
    by apply producer_sim_intro.
  - have [s1 [st' [Hl [HG Hn]]]] := Hw. exists (mkSpec s1 (outcome op st') cst).
    split; [by apply producer_lin|]. split; [by case: HG|]. split.
    + by apply producer_sim_intro.
    + by apply: consumer_sim_rely HG Hc.
Qed.

Lemma run_consumer_simulates sys a sys' t :
  simulates sys a → pick h RunConsumer sys = (sys', t) →
  ∃ b, SpecRun h a t b ∧ simulates sys' b.
Proof.
  move: sys a => [m pth cth] [s pst cst] [/= Hr [Hp Hc]].
  case: cth Hc => [[op p]|] Hc; last first.
  { move=> [<- <-]. eexists. split; [constructor|]. by split. }
  have {Hc} [r [-> Hw]] := consumer_sim_inv _ _ _ _ _ Hr Hc.
  case: p Hw => [x|pos n k|pos bs k|] //= Hw; move=> [<- <-].
  - exists (mkSpec s pst Idle). split; last by split; [|split].
    apply (spec_next h _ [] (mkSpec s pst (outcome op (Some x)))); last by constructor.
    by apply consumer_lin.
  - have [st' [Hl Hn]] := Hw. exists (mkSpec s pst (outcome op st')).
    split; [by apply consumer_lin|]. split; [done|]. split; [done|].
    by apply consumer_sim_intro.
  - have [s1 [st' [Hl [HG Hn]]]] := Hw. exists (mkSpec s1 pst (outcome op st')).
    split; [by apply consumer_lin|]. split; [by case: HG|]. split.
    + by apply: producer_sim_rely HG Hp.
    + by apply consumer_sim_intro.
Qed.

(** The host's mark. *)
Lemma represents_mark s m t :
  represents h s m → t ≤ 2 →
  represents h (marked s t) (fetch_max m (offset h + OFF_TERMINAL) t).
Proof.
  move=> Hr Ht. have Hm := rep_mark _ _ _ Hr. rw /fetch_max (rep_term _ _ _ Hr).
  have Hother off n v : off + n ≤ OFF_TERMINAL → field h m off n v →
    field h (mwrite m (offset h + OFF_TERMINAL) (le_bytes 8 (N.max (term s) t))) off n v.
  { move=> Ho Hf. rw /field mread_mwrite_other // length_le_bytes. lia. }
  split; try (by apply Hother; [|case: Hr]); try (by case: Hr).
  - rw /field mread_mwrite_same ?length_le_bytes // le_value_bytes //.
    apply N.max_lub_lt; [by apply: N.le_lt_trans Hm _|by apply: N.le_lt_trans Ht _].
  - cbn. lia.
  - move=> p b Hp Hb. rw store_header_cell //. by apply (rep_bytes _ _ _ Hr).
Qed.

Lemma mark_simulates t sys a :
  simulates sys a → ∃ b, SpecRun h a [Marked (mark_value t)] b ∧
    simulates (pick h (MarkPeer t) sys).1 b.
Proof.
  move: sys a => [m pth cth] [s pst cst] [/= Hr [Hp Hc]].
  have Hr' := represents_mark _ _ (mark_value t) Hr ltac:(by case: t).
  eexists. split; first by apply spec_run_one; constructor.
  split; [done|]. split.
  - apply: producer_sim_rely Hp. split; [done|]. split; [done|]. split; [done|].
    move=> p. by apply store_header_cell.
  - apply: consumer_sim_rely Hc. split; [done|]. by split.
Qed.

Lemma start_producer_simulates op sys a sys' t :
  simulates sys a → committed (stream a) + capacity h ≤ u64_max ∨ pstatus a ≠ Idle →
  pick h (StartProducer op) sys = (sys', t) → ∃ b, SpecRun h a t b ∧ simulates sys' b.
Proof.
  move: sys a => [m pth cth] [s pst cst] [/= Hr [Hp Hc]] Hfit.
  case: pth Hp => [[op' p]|] Hp [<- <-]; first by eexists; split; [constructor|].
  case: pst Hp Hfit => //= _ [Hfit|] //. exists (mkSpec s (Called op) cst).
  split; [by apply spec_run_one; constructor|]. split; [done|]. split; [|done].
  split; [done|]. move=> s' m' [Hr' [Hlog _]]. apply producer_correct => //.
  by rw /committed Hlog.
Qed.

Lemma start_consumer_simulates op sys a sys' t :
  simulates sys a → pick h (StartConsumer op) sys = (sys', t) →
  ∃ b, SpecRun h a t b ∧ simulates sys' b.
Proof.
  move: sys a => [m pth cth] [s pst cst] [/= Hr [Hp Hc]].
  case: cth Hc => [[op' p]|] Hc.
  { case: pth Hp => [[??]|] Hp [<- <-]; by eexists; split; [constructor|]. }
  have Hgo : ∃ b, SpecRun h (mkSpec s pst cst) [ConsumerCall op] b ∧
    simulates (mkSystem m pth (Some (op, consumer_prog (consumer h) op))) b.
  { case: cst Hc => //= _. exists (mkSpec s pst (Called op)).
    split; [by apply spec_run_one; constructor|]. split; [done|]. split; [done|].
    split; [done|]. move=> s' m' [Hr' _]. by apply consumer_correct. }
  by case: pth Hp Hgo => [[??]|] Hp Hgo [<- <-].
Qed.

(** Committed bytes are those of the sends that returned and of the one that took effect. *)
Definition pending_bytes (st : Status ProducerOp) : N :=
  match st with Done op (inr _) => size op | _ => 0 end.

Lemma offer_committed s bytes keep s' r :
  offer (capacity h) s bytes keep = (s', r) →
  committed s' = committed s +
    (if keep then match r with inr _ => N.of_nat (length bytes) | _ => 0 end else 0).
Proof.
  rw /offer. case: N.ltb_spec => _ [<- <-]; case: keep => //=; try lia.
  rw /committed /= length_app. lia.
Qed.

Lemma producer_spec_committed op s s' r :
  producer_spec (capacity h) op s = (s', r) →
  committed s' = committed s + pending_bytes (Done op r).
Proof.
  have Hsame (x y : Stream * Res) : x = y → x.1 = y.1 by move=> ->.
  case: op => [k bytes|k bytes keep|bytes|||]; cbn [producer_spec].
  - case: N.ltb_spec => _; [move=> [<- <-] /=; lia|]. move=> /offer_committed ->. by case: r.
  - do 2 (case: N.ltb_spec => _; [by move=> [<- <-] /=; lia|]). move=> /offer_committed ->.
    by case: keep; case: r.
  - move=> /offer_committed ->. by case: r.
  - move=> [<- <-] /=. lia.
  - move=> [<- <-] /=. lia.
  - move=> [<- <-] /=. rw /peer_of. case: (term s) => [|[?|[?|?|]|]] /=; lia.
Qed.

Lemma consumer_spec_log op s s' r : consumer_spec (capacity h) op s = (s', r) → log s' = log s.
Proof.
  case: op => [||ranges|||len|len||]; cbn [consumer_spec]; rw /take_record.
  all: repeat case_match; by move=> [<- _].
Qed.

Lemma spec_run_committed a t b :
  SpecRun h a t b →
  committed (stream b) + pending_bytes (pstatus a) =
    committed (stream a) + accepted t + pending_bytes (pstatus b).
Proof.
  elim => [a'|a' t1 b' t2 c' Hrun IH Hstep]; first by cbn; lia.
  rw accepted_app. move: IH. case: Hstep => /=.
  - lia.
  - move=> s c op s' r /producer_spec_committed /=. lia.
  - move=> s c op [e|r] /=; lia.
  - lia.
  - move=> s p op s' r /consumer_spec_log Hlog. rw /committed Hlog. lia.
  - lia.
  - move=> s p c v. have -> : committed (marked s v) = committed s by []. lia.
Qed.

Lemma pick_simulates c sys a sys' t :
  simulates sys a → committed (stream a) + capacity h ≤ u64_max ∨ pstatus a ≠ Idle →
  pick h c sys = (sys', t) → ∃ b, SpecRun h a t b ∧ simulates sys' b.
Proof.
  move=> Hsim Hfit. case: c => [op||op||t'].
  - by apply start_producer_simulates.
  - by apply run_producer_simulates.
  - by apply start_consumer_simulates.
  - by apply run_consumer_simulates.
  - have [b [Hrun Hb]] := mark_simulates t' _ _ Hsim. cbn => -[<- <-]. by exists b.
Qed.

Lemma run_simulates choices sys a0 t0 a sys' t :
  pstatus a0 = Idle → SpecRun h a0 t0 a → simulates sys a →
  run h choices sys = (sys', t) →
  committed (stream a0) + accepted (t0 ++ t) + capacity h ≤ u64_max →
  ∃ b, SpecRun h a0 (t0 ++ t) b ∧ simulates sys' b.
Proof.
  move=> Hidle. elim: choices sys t0 a t => [|c choices IH] sys t0 a t Hrun Hsim /=.
  { move=> [<- <-] _. exists a. by rw app_nil_r. }
  case Hpick: (pick h c sys) => [sys1 t1]. case Hrest: (run h choices sys1) => [sys2 t2].
  move=> [Hsys <-] Hfit. subst sys2.
  have Hroom : committed (stream a) + capacity h ≤ u64_max ∨ pstatus a ≠ Idle.
  { have Hc := spec_run_committed _ _ _ Hrun. rw Hidle in Hc. rw !accepted_app in Hfit.
    case Hst: (pstatus a) Hc => [|op|op r] /= Hc; [left; lia|by right..]. }
  have [b [Hb Hsimb]] := pick_simulates _ _ _ _ _ Hsim Hroom Hpick.
  rw app_assoc in Hfit *. apply: (IH sys1 _ b) => //. by apply: spec_run_trans Hrun Hb.
Qed.

End Simulation.

(** C2. Whatever order the accesses of the two endpoints and the host's marks take, the
    calls and returns of a ring are a history of the stream, each call taking effect at
    one moment between its call and its return: the producer's calls fail exactly when
    the bytes do not fit, with the exact free space, and the consumer's see exactly the
    committed bytes not yet taken. No thread panics. The ring stays in a state that
    represents the stream. The cursors are 64-bit: the bytes committed, plus one ring,
    stay below 2^64. *)
Theorem ring_linearizable h s m choices sys tr :
  represents h s m → run h choices (mkSystem m None None) = (sys, tr) →
  committed s + accepted tr + capacity h ≤ u64_max →
  ∃ a, SpecRun h (mkSpec s Idle Idle) tr a ∧ represents h (stream a) (mem sys) ∧
    (Panicked Producer ∉ tr) ∧ (Panicked Consumer ∉ tr).
Proof.
  move=> Hr Hrun Hfit.
  have [b [Hb [Hrb _]]] := run_simulates h choices (mkSystem m None None) (mkSpec s Idle Idle) []
    (mkSpec s Idle Idle) sys tr eq_refl (spec_done _ _) ltac:(by split; [|split]) Hrun Hfit.
  exists b. do 2 (split; [done|]).
  by split; apply: spec_run_no_panic Hb.
Qed.

(** ** An execution

    A ring of 16 bytes, where the accesses of the two threads interleave: a receive sees the
    ring before the first record is committed, a record does not fit until the consumer took
    others, and is then wrapped around the end of the data region. *)

Definition sample_ring : RingHandle := mkRingHandle 0 16 1 9.
Definition sample_mem : Mem := mwrite (λ _, 0) 0 (header_image 16 1).

Definition turns (p c : nat) : list Pick := replicate p RunProducer ++ replicate c RunConsumer.

Definition sample_choices : list Pick :=
  [StartProducer (SendRecord Data [7; 8; 9])] ++ turns 15 0 ++ [StartConsumer RecvRecord] ++
  turns 3 7 ++ turns 6 8 ++ [StartConsumer PinRecord] ++ turns 0 5 ++
  [StartProducer (WriteRecord Fault [1; 2; 3; 4; 5; 6] true)] ++ turns 9 3 ++ turns 3 9 ++
  [StartProducer (SendRecord Eof [4])] ++ turns 4 1 ++ turns 30 30 ++
  [StartConsumer RecvRecord] ++ turns 0 30 ++ [MarkPeer Closed; StartConsumer ConsumerPeer] ++
  turns 0 10 ++ [StartProducer (WriteRecord Fault [1; 2; 3; 4; 5; 6] true)] ++ turns 30 0 ++
  [StartConsumer PinRecord] ++ turns 0 30.

Definition sample_run : System * list Event :=
  run sample_ring sample_choices (mkSystem sample_mem None None).

Lemma sample_represents : represents sample_ring (mkStream [] 0 0) sample_mem.
Proof. apply represents_fresh; [by vm_compute..|]. by vm_compute. Qed.

Lemma ring_linearizable_witness :
  ∃ a, SpecRun sample_ring (mkSpec (mkStream [] 0 0) Idle Idle) sample_run.2 a ∧
    represents sample_ring (stream a) (mem sample_run.1) ∧
    (Panicked Producer ∉ sample_run.2) ∧ (Panicked Consumer ∉ sample_run.2).
Proof.
  apply (ring_linearizable sample_ring (mkStream [] 0 0) sample_mem sample_choices).
  - apply sample_represents.
  - apply surjective_pairing.
  - by vm_compute.
Defined.
