(* ===== verification/RingRecords.v ===== *)
(** * Records through a byte ring

    When the two endpoints of a ring of [byte_ring.rs] exchange records, in any interleaving,
    the consumer gets the records the producer sent, each once and in order, and those it has
    not got are in the ring. *)

From S2P Require Import Prelude Memory ByteRing RingStream RingLogic RingProducer RingConsumer RingAtomic.
#[local] Open Scope N_scope.

Abbreviation Rec := (RecordKind * list N)%type.

(** The record a call commits when it succeeds. *)
Definition record_of (op : ProducerOp) : option Rec :=
  match op with
  | SendRecord k bytes | WriteRecord k bytes true => Some (k, bytes)
  | _ => None
  end.

Definition sent_by (ev : Event) : list Rec :=
  match ev with ProducerReturn op (inr _) => option_list (record_of op) | _ => [] end.

(** What a call that takes a record shows of it: all, or, through a cursor, its kind and some ranges. *)
Inductive Taking :=
  | Whole (r : Rec)
  | Ranges (k : RecordKind) (ranges : list (N * N)) (parts : list (list N)).

Definition shows (v : Taking) (r : Rec) : Prop :=
  match v with
  | Whole r' => r' = r
  | Ranges k ranges parts => k = r.1 ∧ slices r.2 ranges = inr parts
  end.

Definition received_by (ev : Event) : list Taking :=
  match ev with
  | ConsumerReturn _ (inr (Record_ (Some r))) => [Whole r]
  | ConsumerReturn (CursorRecord ranges) (inr (Parts (Some (k, parts)))) => [Ranges k ranges parts]
  | _ => []
  end.

Definition sent (tr : list Event) : list Rec := tr ≫= sent_by.
Definition received (tr : list Event) : list Taking := tr ≫= received_by.

(** The record of the producer's call that has not returned. *)
Definition in_flight (tr : list Event) : option Rec :=
  foldl (λ cur ev, match ev with
                   | ProducerCall op => record_of op
                   | ProducerReturn _ _ => None
                   | _ => cur
                   end) None tr.

(** Calls of the record interface, on a ring of capacity [cap]; [send_record] of more bytes than the
    32-bit length field can carry is left out, unless the ring is too small for them anyway. *)
Definition record_send (cap : N) (op : ProducerOp) : bool :=
  match op with
  | SendRecord _ bytes =>
      (N.of_nat (length bytes) <=? u32_max) || (cap <? RECORD_HEADER_LEN + N.of_nat (length bytes))
  | SendBytes _ => false
  | _ => true
  end.

Definition record_take (op : ConsumerOp) : bool :=
  match op with ConsumeBytes _ => false | _ => true end.

Definition record_event (cap : N) (ev : Event) : bool :=
  match ev with
  | ProducerCall op => record_send cap op
  | ConsumerCall op => record_take op
  | _ => true
  end.

Definition framed (r : Rec) : list N := frame r.1 r.2.
Definition stream_of (rs : list Rec) : list N := rs ≫= framed.

Section Records.
Variable h : RingHandle.

Definition fits (r : Rec) : Prop :=
  N.of_nat (length r.2) ≤ u32_max ∧ RECORD_HEADER_LEN + N.of_nat (length r.2) ≤ capacity h.

Lemma parse_framed r x : fits r → parse (capacity h) (framed r ++ x) = inr (Some r).
Proof.
  case: r => k bs [/= Hw Hc]. rw /parse /framed; cbn [fst snd].
  set len := N.of_nat (length bs) in Hw, Hc |- *.
  have Hn : N.of_nat (length (frame k bs ++ x)) = 5 + len + N.of_nat (length x).
  { rw length_app Nat2N.inj_add length_frame. rw /RECORD_HEADER_LEN /len. lia. }
  rw Hn /RECORD_HEADER_LEN in Hc *.
  have -> : (5 + len + N.of_nat (length x) <? 5) = false by apply N.ltb_ge; lia.
  have -> : (frame k bs ++ x) !!! 0%nat = to_byte k by [].
  have -> : from_byte (to_byte k) = Some k by case: k {Hn}.
  have -> : take 4 (drop 1 (frame k bs ++ x)) = le_bytes 4 (len mod u32_modulus) by [].
  have -> : le_value (le_bytes 4 (len mod u32_modulus)) = len.
  { rw N.mod_small; first by rw /u32_max /u32_modulus in Hw *; lia.
    apply le_value_bytes. rw /u32_max in Hw. lia. }
  have -> : (capacity h <? 5 + len) = false by apply N.ltb_ge.
  have -> : (5 + len + N.of_nat (length x) <? 5 + len) = false by apply N.ltb_ge; lia.
  have -> : drop 5 (frame k bs ++ x) = bs ++ x by [].
  by rw /len Nat2N.id take_app_length.
Qed.

Definition done_record (st : Status ProducerOp) : list Rec :=
  match st with Done op (inr _) => option_list (record_of op) | _ => [] end.

Definition done_received (st : Status ConsumerOp) : list Taking :=
  match st with Done op r => received_by (ConsumerReturn op r) | _ => [] end.

Lemma offer_record s k bs keep s' r :
  RECORD_HEADER_LEN + N.of_nat (length bs) ≤ capacity h → N.of_nat (length bs) ≤ u32_max →
  offer (capacity h) s (frame k bs) keep = (s', r) →
  let rs := match r with inr _ => if keep then [(k, bs)] else [] | inl _ => [] end in
  taken s' = taken s ∧ log s' = log s ++ stream_of rs ∧ Forall fits rs.
Proof.
  move=> Hc Hw. rw /offer. have Hf : Forall fits [(k, bs)] by constructor.
  case: N.ltb_spec => _ [<- <-]; case: keep; cbn [log taken append];
    (split; [done|]); (split; [|done]); by rw /= ?app_nil_r.
Qed.

(** What a call of the producer does to the records of the stream. *)
Lemma producer_effect_record op s s' r :
  record_send (capacity h) op = true → producer_spec (capacity h) op s = (s', r) →
  taken s' = taken s ∧ log s' = log s ++ stream_of (done_record (Done op r)) ∧
  Forall fits (done_record (Done op r)).
Proof.
  have Hno rr : done_record (Done op rr) = [] →
    taken s = taken s ∧ log s = log s ++ stream_of (done_record (Done op rr)) ∧
    Forall fits (done_record (Done op rr)).
  { move=> ->. split; [done|]. split; [by rw app_nil_r|done]. }
  case: op Hno => [k bs|k bs keep|bs|||] Hno Hs; cbn [producer_spec] => //.
  - case: N.ltb_spec => Hc; first by move=> [<- <-]; apply Hno.
    have {}Hs : N.of_nat (length bs) ≤ u32_max.
    { move: Hs => /= /orb_prop [/N.leb_le //|/N.ltb_lt]. lia. }
    move=> /(offer_record _ _ _ _ _ _ Hc Hs). by case: r.
  - case: N.ltb_spec => Hw; first by move=> [<- <-]; apply Hno.
    case: N.ltb_spec => Hc; first by move=> [<- <-]; apply Hno.
    move=> /(offer_record _ _ _ _ _ _ Hc Hw). by case: r; case: keep {Hno Hs}.
  - move=> [<- <-]. by apply Hno.
  - move=> [<- <-]. by apply Hno.
  - move=> [<- <-]. apply Hno. by case: (peer_of s).
Qed.

(** What a call of the consumer does to them. *)
Lemma consumer_effect_record op s s' r :
  record_take op = true → consumer_spec (capacity h) op s = (s', r) →
  log s' = log s ∧
  ((done_received (Done op r) = [] ∧ taken s' = taken s) ∨
   ∃ rec v, done_received (Done op r) = [v] ∧ shows v rec ∧ parse (capacity h) (queue s) = inr (Some rec) ∧
     taken s' = taken s + N.of_nat (length (framed rec))).
Proof.
  move=> Hs Hspec. split; first by apply: consumer_spec_log Hspec.
  move: op Hs Hspec => [||ranges|||len|len||] //= _; rw /take_record.
  1-2: case Hp: (parse _ _) => [err|[[k p]|]] [<- <-]; [by left| |by left];
    right; exists (k, p); eexists; do 3 (split; [done|]); by rw /framed length_frame.
  1: case Hp: (parse _ _) => [err|[[k p]|]]; [by move=> [<- <-]; left| |by move=> [<- <-]; left].
  1: case Hsl: (slices p ranges) => [err|parts] [<- <-]; [by left|right];
    exists (k, p); eexists; do 3 (split; [done|]); by rw /framed length_frame.
  all: move=> [<- <-]; left; (split; [|done]); rw ?/peer_of; by repeat case_match.
Qed.

(** The records of the stream, against the history: those sent and the one of a call that took
    effect are in it, and the first of them were received. *)
Definition accounted (tr : list Event) (a : Spec) : Prop :=
  ∃ rs n, log (stream a) = stream_of rs ∧ Forall fits rs ∧ (n ≤ length rs)%nat ∧
    taken (stream a) = N.of_nat (length (stream_of (take n rs))) ∧
    rs = sent tr ++ done_record (pstatus a) ∧
    Forall2 shows (received tr ++ done_received (cstatus a)) (take n rs).

(** The clients' statuses, against the history. *)
Definition tracked (tr : list Event) (a : Spec) : Prop :=
  match pstatus a with
  | Idle => in_flight tr = None
  | Called op | Done op _ => in_flight tr = record_of op ∧ record_send (capacity h) op = true
  end ∧
  match cstatus a with Idle => True | Called op | Done op _ => record_take op = true end.

Lemma in_flight_snoc tr ev :
  in_flight (tr ++ [ev]) =
    match ev with
    | ProducerCall op => record_of op
    | ProducerReturn _ _ => None
    | _ => in_flight tr
    end.
Proof. by rw /in_flight foldl_app. Qed.

Lemma spec_run_tracked a t b :
  SpecRun h a t b → tracked [] a → forallb (record_event (capacity h)) t = true → tracked t b.
Proof.
  elim => [a'|a' t1 b' t2 c' _ IH Hstep] Ha //. rw forallb_app => /andb_prop [Ht1 Ht2].
  have {IH} [Hp Hc] := IH Ha Ht1. rw /tracked in Hp Hc *.
  case: Hstep Hp Hc Ht2 => [s c op|s c op s' r ?|s c op r|s p op|s p op s' r ?|s p op r|s p c v]
    /= Hp Hc Ht2; rw ?app_nil_r ?in_flight_snoc; split => //; by move: Ht2; rw andb_true_r.
Qed.

Lemma stream_of_app l1 l2 : stream_of (l1 ++ l2) = stream_of l1 ++ stream_of l2.
Proof. by rw /stream_of bind_app. Qed.

(** The queue is the stream of the records not yet taken. *)
Lemma queue_records s rs n :
  log s = stream_of rs → taken s = N.of_nat (length (stream_of (take n rs))) →
  queue s = stream_of (drop n rs).
Proof.
  move=> Hl Ht. rw /queue Hl Ht Nat2N.id -{2}(take_drop n rs) stream_of_app.
  by rw drop_app_length.
Qed.

Lemma parse_records rs r :
  Forall fits rs → parse (capacity h) (stream_of rs) = inr (Some r) → ∃ rest, rs = r :: rest.
Proof.
  case: rs => [|r' rest] Hf //. apply Forall_cons_1 in Hf as [Hf _].
  rw /stream_of bind_cons parse_framed // => -[<-]. by exists rest.
Qed.

Lemma sent_records_app t1 t2 : sent (t1 ++ t2) = sent t1 ++ sent t2.
Proof. by rw /sent bind_app. Qed.

Lemma received_records_app t1 t2 : received (t1 ++ t2) = received t1 ++ received t2.
Proof. by rw /received bind_app. Qed.

Lemma parse_head rs n s rec :
  log s = stream_of rs → taken s = N.of_nat (length (stream_of (take n rs))) → Forall fits rs →
  parse (capacity h) (queue s) = inr (Some rec) → take (S n) rs = take n rs ++ [rec] ∧ (S n ≤ length rs)%nat.
Proof.
  move=> Hl Ht Hf Hparse. rw (queue_records _ _ _ Hl Ht) in Hparse.
  have [rest Hrest] := parse_records _ _ (Forall_drop _ n _ Hf) Hparse.
  have Hlook : rs !! n = Some rec by rw -(Nat.add_0_r n) -lookup_drop Hrest.
  split; [by apply take_S_r|by apply lookup_lt_Some in Hlook].
Qed.

Lemma consumer_step_accounted tr op s s' p r :
  record_take op = true → consumer_spec (capacity h) op s = (s', r) →
  accounted tr (mkSpec s p (Called op)) → accounted tr (mkSpec s' p (Done op r)).
Proof.
  move=> Hop Hspec [rs [n [Hl [Hf [Hn [Ht [Hs Hr]]]]]]].
  cbn [stream pstatus cstatus done_received] in Hl, Ht, Hs, Hr. rw app_nil_r in Hr.
  have [Hlog [[Hd Htk]|[rec [v [Hd [Hv [Hparse Htk]]]]]]] := consumer_effect_record _ _ _ _ Hop Hspec.
  { exists rs, n. cbn [stream pstatus cstatus]. rw Hlog Htk Hd app_nil_r.
    by repeat (split; [done|]). }
  have [Htake Hn'] := parse_head _ _ _ _ Hl Ht Hf Hparse.
  exists rs, (S n). cbn [stream pstatus cstatus]. rw Hlog Hd Htake stream_of_app.
  do 3 (split; [done|]). split; [|split; [done|]].
  - rw Htk Ht length_app {3}/stream_of bind_cons app_nil_r. lia.
  - apply Forall2_app; [done|by constructor].
Qed.

Lemma spec_run_accounted a t b :
  SpecRun h a t b → tracked [] a → forallb (record_event (capacity h)) t = true → accounted [] a → accounted t b.
Proof.
  elim => [a'|a' t1 b' t2 c' Hrun IH Hstep] Htr //. rw forallb_app => /andb_prop [Ht1 Ht2] Ha.
  have [Hp Hc] := spec_run_tracked _ _ _ Hrun Htr Ht1.
  have {IH} Hacc := IH Htr Ht1 Ha.
  case: Hstep Hp Hc Ht2 Hacc =>
    [s c op|s c op s' r Hspec|s c op r|s p op|s p op s' r Hspec|s p op r|s p c v]
    /= Hp Hc Ht2 Hacc; last (by move: Hacc; rw /accounted sent_records_app received_records_app !app_nil_r).
  - by move: Hacc; rw /accounted sent_records_app received_records_app /= !app_nil_r.
  - rw app_nil_r. move: Hacc => [rs [n [Hl [Hf [Hn [Ht [Hs Hr]]]]]]].
    have [Htk [Hlog Hfr]] := producer_effect_record _ _ _ _ (proj2 Hp) Hspec.
    cbn [stream pstatus cstatus] in Hl, Ht, Hs, Hr. rw app_nil_r in Hs.
    exists (rs ++ done_record (Done op r)), n. cbn [stream pstatus cstatus].
    rw Hlog Htk Hl stream_of_app Hs take_app_le; first by rw -Hs.
    rw -Hs. split; [done|]. split; [by apply Forall_app|]. split; [rw length_app; lia|]. done.
  - move: Hacc {Ht2}. rw /accounted sent_records_app received_records_app /= app_nil_r.
    by case: r => x; rw ?app_nil_r.
  - by move: Hacc; rw /accounted sent_records_app received_records_app /= !app_nil_r.
  - rw app_nil_r. by apply: consumer_step_accounted Hspec Hacc.
  - move: Hacc {Ht2}. rw /accounted sent_records_app received_records_app /= !app_nil_r.
    case: r => [x|[|?|?|? ?|?|?|[x|]|?]] //=; by rw ?app_nil_r.
Qed.

End Records.

(** C12. Exactly-once, in-order delivery through the record interface. In any
    interleaving of its calls on a fresh ring, cursors and pins included and with no use
    of the byte interface besides, the records the consumer took are the first of those
    the producer sent, a send that has not returned counting last: each call that takes
    one shows it whole, or, through a cursor, its kind and the ranges asked for. When
    both endpoints are idle, the records sent and not taken are exactly the bytes
    waiting in the ring. Assumed are that no record longer than the 32-bit length field
    is sent with [send_record] where the ring has room for it, and that all bytes ever
    accepted, and a ring's worth more, can be counted in 64 bits. *)
Theorem records_exactly_once h m choices sys tr :
  represents h (mkStream [] 0 0) m → run h choices (mkSystem m None None) = (sys, tr) →
  accepted tr + capacity h ≤ u64_max → forallb (record_event (capacity h)) tr = true →
  ∃ got, Forall2 shows (received tr) got ∧ got `prefix_of` sent tr ++ option_list (in_flight tr) ∧
  (pthread sys = None → cthread sys = None →
   ∃ rest s, sent tr = got ++ rest ∧ represents h s (mem sys) ∧ queue s = stream_of rest).
Proof.
  move=> Hr Hrun Hfit Hev. set a0 := mkSpec (mkStream [] 0 0) Idle Idle.
  have [b [Hb [Hrb [Hpb Hcb]]]] := run_simulates h choices (mkSystem m None None) a0 [] a0 sys tr
    eq_refl (spec_done _ _) ltac:(by split; [|split]) Hrun Hfit. cbn [app] in Hb.
  have [Hp Hc] := spec_run_tracked h _ _ _ Hb ltac:(by split) Hev.
  have [rs [n [Hl [Hf [Hn [Ht [Hs Hr']]]]]]] := spec_run_accounted h _ _ _ Hb ltac:(by split) Hev
    ltac:(by exists [], 0%nat; repeat (split; [by constructor|])).
  apply Forall2_app_inv_l in Hr' as (got & more & Hgot & Hmore & Htake).
  exists got. split; [done|]. split.
  - trans rs.
    + exists (more ++ drop n rs). by rw app_assoc -Htake take_drop.
    + rw Hs. apply prefix_app. case Hst: (pstatus b) Hp => [|op|op [?|?]] //=; try by move=> *; apply prefix_nil.
      by move=> [-> _].
  - move=> Ep Ec. exists (drop n rs), (stream b). rw Ep in Hpb. rw Ec in Hcb.
    have Hidle : pstatus b = Idle by case: (pstatus b) Hpb.
    have Hidle' : cstatus b = Idle by case: (cstatus b) Hcb.
    rw Hidle /= app_nil_r in Hs. rw Hidle' /= in Hmore. apply Forall2_nil_inv_l in Hmore as ->.
    rw app_nil_r in Htake.
    split; [by rw -Htake take_drop -Hs|]. split; [done|]. by apply queue_records.
Qed.

(** The sample run, and a record that is read through a cursor. *)
Definition cursor_run : System * list Event :=
  run sample_ring
    (sample_choices ++ [StartProducer (SendRecord Data [5; 6; 7])] ++ turns 30 0 ++
     [StartConsumer (CursorRecord [(1, 2)])] ++ turns 0 40) (mkSystem sample_mem None None).

Lemma records_exactly_once_witness :
  received cursor_run.2 = [Whole (Data, [7; 8; 9]); Whole (Eof, [4]); Whole (Fault, [1; 2; 3; 4; 5; 6]);
                           Ranges Data [(1, 2)] [[6; 7]]] ∧
  ∃ got, Forall2 shows (received cursor_run.2) got ∧
    ∃ rest s, sent cursor_run.2 = got ++ rest ∧
      represents sample_ring s (mem cursor_run.1) ∧ queue s = stream_of rest.
Proof.
  split; [by vm_compute|].
  destruct (records_exactly_once sample_ring sample_mem
    (sample_choices ++ [StartProducer (SendRecord Data [5; 6; 7])] ++ turns 30 0 ++
     [StartConsumer (CursorRecord [(1, 2)])] ++ turns 0 40) cursor_run.1 cursor_run.2)
    as (got & H1 & _ & H2).
  - apply sample_represents.
  - apply surjective_pairing.
  - by vm_compute.
  - by vm_compute.
  - exists got. split; [exact H1|]. apply H2; by vm_compute.
Defined.
