(* ===== verification/RingSafety.v ===== *)
(** * What an endpoint may touch

    The containment property of [byte_ring.rs] ("arbitrary header bytes yield typed errors or
    bounded access"): the accesses of every call stay inside the ring whatever the loads
    return, so also when the peer rewrites the header while the call runs; and there are
    boundedly many of them.  Calls of the byte interface longer than the ring are the exception. *)

From S2P Require Import Prelude Memory ByteRing RingStream.
#[local] Open Scope N_scope.

Section Contained.
Variable h : RingHandle.
Variable e : Endpoint.
Hypothesis at_ring : header e = offset h ∧ info e = h.

Abbreviation inside_ring := (confined (offset h) (offset h + DATA_OFFSET + capacity h)).

Lemma confined_try {E A B} (p : prog (E + A)) (f : A → prog (E + B)) :
  inside_ring p → (∀ a, inside_ring (f a)) → inside_ring (try_bind p f).
Proof. move=> Hp Hf. apply confined_bind => // -[err|a] //=. Qed.

Lemma confined_map_err {E F A} (g : E → F) (p : prog (E + A)) :
  inside_ring p → inside_ring (map_err g p).
Proof. move=> Hp. by apply confined_bind. Qed.

Lemma confined_load_value off n : off + n ≤ DATA_OFFSET → inside_ring (load_value (offset h + off) n).
Proof. move=> Ho. split; [lia|]. by split; [lia|]. Qed.

Lemma confined_store_u64 off v : off + 8 ≤ DATA_OFFSET → inside_ring (store_u64 e off v).
Proof using at_ring.
  move=> Ho. move: at_ring => [Hh _]. rw /store_u64 Hh /store /confined. cbn [confines].
  rw length_le_bytes. split; [lia|]. by split; [lia|].
Qed.

(** The two spans of at most [capacity] bytes. *)
Lemma spans_inside pos n p1 n1 p2 n2 :
  n ≤ capacity h → capacity h ≠ 0 → spans e pos n = ((p1, n1), (p2, n2)) →
  n1 + n2 = n ∧ offset h ≤ p1 ∧ p1 + n1 ≤ offset h + DATA_OFFSET + capacity h ∧
  offset h ≤ p2 ∧ p2 + n2 ≤ offset h + DATA_OFFSET + capacity h.
Proof using at_ring.
  move: at_ring => [Hh Hi] Hn Hc. rw /spans /data_ptr Hh Hi => -[<- <- <- <-].
  move: (N.mod_lt pos (capacity h) Hc). move: (pos mod capacity h) => x. lia.
Qed.

Lemma confined_copy_into pos bs :
  N.of_nat (length bs) ≤ capacity h → inside_ring (copy_into e pos bs).
Proof using at_ring.
  move=> Hn. rw /copy_into. move: (at_ring) => [_ Hi]. rw Hi.
  case: (N.eqb_spec (capacity h) 0) => Hc //. apply confined_bind => // _.
  case Hspans: (spans e pos _) => [[p1 n1] [p2 n2]].
  have [Hs [H1 [H2 [H3 H4]]]] := spans_inside _ _ _ _ _ _ Hn Hc Hspans.
  apply confined_bind.
  - split; [lia|]. rw length_take. by split; [lia|].
  - move=> _. split; [lia|]. rw length_drop. by split; [lia|].
Qed.

Lemma confined_copy_out pos n : n ≤ capacity h → inside_ring (copy_out e pos n).
Proof using at_ring.
  move=> Hn. rw /copy_out. move: (at_ring) => [_ Hi]. rw Hi.
  case: (N.eqb_spec (capacity h) 0) => Hc //. apply confined_bind => // _.
  case Hspans: (spans e pos _) => [[p1 n1] [p2 n2]].
  have [Hs [H1 [H2 [H3 H4]]]] := spans_inside _ _ _ _ _ _ Hn Hc Hspans.
  apply confined_bind; [by split; [lia|]; split; [lia|]|]. move=> bs1.
  by apply confined_bind; [split; [lia|]; split; [lia|]|].
Qed.

Lemma confined_field off : off + 8 ≤ DATA_OFFSET → inside_ring (field_u64 e off).
Proof using at_ring.
  move: at_ring => [Hh _] Ho. rw /field_u64 Hh. by apply confined_load_value.
Qed.

Lemma confined_fixed : inside_ring (validate_fixed e).
Proof using at_ring.
  move: at_ring => [Hh _]. rw /validate_fixed /field_u32 /field_u16 Hh.
  do 3 (apply confined_bind; [by apply confined_load_value|]; move=> ?; case: negb => //).
  apply confined_bind; [by apply confined_field|]. move=> ?. by case: negb.
Qed.

Lemma confined_generation g : inside_ring (validate_generation e g).
Proof using at_ring. apply confined_bind; [by apply confined_field|done]. Qed.

Lemma confined_stale g : inside_ring (stale_check e g).
Proof using at_ring. apply confined_bind; [by apply confined_field|done]. Qed.

Lemma confined_cursors : inside_ring (validate_cursors e).
Proof using at_ring.
  apply confined_bind; [by apply confined_field|]. move=> ?.
  apply confined_bind; [by apply confined_field|done].
Qed.

Lemma confined_check op r : inside_ring (check e op r).
Proof using at_ring.
  rw /check. case: decide => // _.
  apply confined_try; [apply confined_map_err, confined_fixed|].
  move=> _. apply confined_map_err, confined_cursors.
Qed.

Lemma confined_check_current op r : inside_ring (check_current e op r).
Proof using at_ring.
  apply confined_try; [apply confined_check|]. move=> _.
  apply confined_map_err, confined_generation.
Qed.

(** The two cursors, then [f]. *)
Lemma confined_snapshot {A} (f : N → N → prog A) :
  (∀ a b, inside_ring (f a b)) →
  inside_ring (commit ← commit_cursor e; consume ← consume_cursor e; f commit consume).
Proof using at_ring.
  move=> Hf. apply confined_bind; [by apply confined_field|]. move=> a.
  by apply confined_bind; [by apply confined_field|].
Qed.

Lemma confined_reserve n : inside_ring (reserve e n).
Proof using at_ring.
  apply confined_try; [apply confined_check_current|]. move=> _. by apply confined_snapshot.
Qed.

Lemma confined_commit r : inside_ring (commit e r).
Proof using at_ring.
  apply confined_try; [apply confined_check|]. move=> _.
  apply confined_try; [apply confined_stale|]. move=> _.
  apply confined_bind; [by apply confined_field|]. move=> c.
  apply confined_bind; [by rw /check_that; case: (_ =? _)|]. move=> _.
  by apply confined_bind; [by apply confined_store_u64|].
Qed.

Lemma confined_still_first op c : inside_ring (still_first e op c).
Proof using at_ring.
  apply confined_try; [apply confined_check|]. move=> _.
  apply confined_try; [apply confined_stale|]. move=> _.
  by apply confined_bind; [by apply confined_field|].
Qed.

(** A record that is found fits in the ring. *)
Definition fits_ring (r : FlowError + option (RecordKind * N * N)) : Prop :=
  match r with inr (Some (_, len, _)) => RECORD_HEADER_LEN + len ≤ capacity h | _ => True end.

Lemma confines_next_record :
  RECORD_HEADER_LEN ≤ capacity h →
  confines (offset h) (offset h + DATA_OFFSET + capacity h) fits_ring (next_record e).
Proof using at_ring.
  move=> Hc. move: (at_ring) => [_ Hi]. rw /next_record Hi.
  apply: confines_bind; [by apply confined_field|]. move=> a _.
  apply: confines_bind; [by apply confined_field|]. move=> b _.
  case: N.ltb_spec => // _. apply: confines_bind; [by apply confined_copy_out|].
  move=> pre _. case: (from_byte _) => [k|] //. case: N.ltb_spec => // Hle.
  by case: N.ltb_spec.
Qed.

Lemma confined_next_record {A} (f : option (RecordKind * N * N) → prog (FlowError + A)) :
  RECORD_HEADER_LEN ≤ capacity h → inside_ring (f None) →
  (∀ k len c, RECORD_HEADER_LEN + len ≤ capacity h → inside_ring (f (Some (k, len, c)))) →
  inside_ring (try_bind (next_record e) f).
Proof using at_ring.
  move=> Hc Hn Hs. apply: confines_bind; [by apply confines_next_record|].
  move=> [err|[[[k len] c]|]] //= Hle. by apply Hs.
Qed.

(** ** The calls *)

Lemma confined_respond {A} (f : A → Response) p : inside_ring p → inside_ring (respond f p).
Proof. move=> Hp. by apply confined_try. Qed.

(** A call of the byte interface is no longer than the ring; the others check it themselves. *)
Definition producer_bounded (op : ProducerOp) : Prop :=
  match op with SendBytes bytes => N.of_nat (length bytes) ≤ capacity h | _ => True end.

(** A ring with no room for the header of a record carries none. *)
Definition consumer_bounded (op : ConsumerOp) : Prop :=
  match op with
  | ReadBytes len => len ≤ capacity h
  | RecvRecord | PinRecord | CursorRecord _ | NextMeta => RECORD_HEADER_LEN ≤ capacity h
  | _ => True
  end.

Lemma confined_prefix pos k n m :
  RECORD_HEADER_LEN + n ≤ capacity h → inside_ring (copy_into e pos (prefix k m)).
Proof using at_ring.
  move=> Hn. apply confined_copy_into. rw /RECORD_HEADER_LEN in Hn.
  have -> : length (prefix k m) = 5%nat by []. lia.
Qed.

Lemma producer_confined op : producer_bounded op → inside_ring (producer_prog e op).
Proof using at_ring.
  move: (at_ring) => [_ Hi]. case: op => [k bytes|k bytes keep|bytes|||] Hb.
  - apply confined_respond. rw /send_record Hi. case: N.ltb_spec => // Hn.
    apply confined_try; [apply confined_reserve|]. move=> r.
    apply confined_bind; [by apply: confined_prefix Hn|]. move=> _.
    apply confined_bind; [apply confined_copy_into; lia|]. move=> _. apply confined_commit.
  - rw /producer_prog /reserve_record Hi. case: N.ltb_spec => // Hw. case: N.ltb_spec => // Hn.
    apply confined_try.
    + apply confined_try; [apply confined_reserve|]. move=> r.
      by apply confined_bind; [by apply: confined_prefix Hn|].
    + move=> w. apply confined_bind.
      * apply confined_bind; [by rw /check_that; case: (_ =? _)|]. move=> _.
        apply confined_copy_into. lia.
      * move=> _. case: keep {Hb} => //. apply confined_respond, confined_commit.
  - apply confined_try; [apply confined_reserve|]. move=> r.
    apply confined_try; last by move=> _; apply confined_respond, confined_commit.
    apply confined_try; [apply confined_check|]. move=> _.
    apply confined_try; [apply confined_stale|]. move=> _.
    apply confined_bind; [by rw /check_that; case: (_ =? _)|]. move=> _.
    by apply confined_bind; [by apply confined_copy_into|].
  - apply confined_respond, confined_try; [apply confined_check_current|]. move=> _.
    by apply confined_snapshot.
  - apply confined_respond, confined_try; [apply confined_map_err, confined_fixed|]. move=> _.
    apply confined_try; [apply confined_map_err, confined_generation|]. move=> _.
    apply confined_try; [apply confined_map_err, confined_cursors|]. move=> _.
    by apply confined_snapshot.
  - apply confined_respond, confined_try; [apply confined_map_err, confined_fixed|]. move=> _.
    apply confined_try; [apply confined_map_err, confined_generation|]. move=> _.
    by apply confined_bind; [by apply confined_field|].
Qed.

Lemma confined_release op c v :
  inside_ring (still_first e op c ;? store_u64 e OFF_CONSUME v;; Ret (inr tt)).
Proof using at_ring.
  apply confined_try; [apply confined_still_first|]. move=> _.
  by apply confined_bind; [by apply confined_store_u64|].
Qed.

Lemma confined_ranges k len c ranges :
  RECORD_HEADER_LEN + len ≤ capacity h → inside_ring (copy_ranges e (cursor_at e k len c) ranges).
Proof using at_ring.
  move=> Hle. elim: ranges => [|[off n] ranges IH] //. apply confined_try.
  - apply confined_try; [apply confined_still_first|]. move=> _.
    case: N.ltb_spec => // Hoff. cbn [payload_len cursor_at].
    apply confined_bind; [|done]. apply confined_copy_out. lia.
  - move=> part. by apply confined_try.
Qed.

(** A cursor to a record that was found. *)
Definition cursor_fits (c : RecordCursor) : Prop :=
  ∃ k len pos, c = cursor_at e k len pos ∧ RECORD_HEADER_LEN + len ≤ capacity h.

Lemma confines_found {A} op (f : RecordCursor → A) :
  RECORD_HEADER_LEN ≤ capacity h →
  confines (offset h) (offset h + DATA_OFFSET + capacity h)
    (λ r : FlowError + option A, match r with
          | inr (Some x) => ∃ c, x = f c ∧ cursor_fits c
          | _ => True
          end)
    (check_current e op Consumer ;?
     r <-? next_record e;
     Ret (inr ((λ '(k, len, c), f (cursor_at e k len c)) <$> r))).
Proof using at_ring.
  move=> Hc. apply: confines_bind; [apply confined_check_current|]. move=> [err|[]] _ //.
  apply: confines_bind; [by apply confines_next_record|].
  move=> [err|[[[k len] c]|]] //= Hle. exists (cursor_at e k len c). split; [done|].
  by exists k, len, c.
Qed.

Lemma consumer_confined op : consumer_bounded op → inside_ring (consumer_prog e op).
Proof using at_ring.
  case: op => [||ranges|||len|len||] Hb.
  - apply confined_respond, confined_try; [apply confined_check|]. move=> _.
    apply confined_next_record => // k len c Hle.
    apply confined_bind; [by apply confined_copy_out; lia|]. move=> bs.
    by apply confined_bind; [by apply confined_store_u64|].
  - apply: confines_bind; first by apply (confines_found _ (λ c, mkPinnedRecord c false)).
    move=> [err|[p|]] // [c [-> [k [len [pos [-> Hle]]]]]]. cbv beta iota.
    apply confined_bind; [apply confined_copy_out; cbn; lia|]. move=> bs.
    by apply confined_try; [apply confined_release|].
  - apply: confines_bind; first by apply (confines_found _ id).
    move=> [err|[p|]] // [c [-> [k [len [pos [-> Hle]]]]]]. cbv beta iota.
    apply confined_try; [by apply confined_ranges|]. move=> parts.
    by apply confined_try; [apply confined_release|].
  - apply confined_respond, confined_try; [apply confined_check_current|]. move=> _.
    by apply confined_next_record.
  - apply confined_respond, confined_try; [apply confined_check|]. move=> _.
    by apply confined_snapshot.
  - apply confined_respond, confined_try; [apply confined_check|]. move=> _.
    apply confined_snapshot => a b. case: N.ltb_spec => // _.
    by apply confined_bind; [by apply confined_copy_out|].
  - apply confined_respond, confined_try; [apply confined_check|]. move=> _.
    apply confined_snapshot => a b. case: N.ltb_spec => // _.
    by apply confined_bind; [by apply confined_store_u64|].
  - apply confined_respond, confined_try; [apply confined_map_err, confined_fixed|]. move=> _.
    apply confined_try; [apply confined_map_err, confined_generation|]. move=> _.
    apply confined_try; [apply confined_map_err, confined_cursors|]. move=> _.
    by apply confined_snapshot.
  - apply confined_respond, confined_try; [apply confined_map_err, confined_fixed|]. move=> _.
    apply confined_try; [apply confined_map_err, confined_generation|]. move=> _.
    by apply confined_bind; [by apply confined_field|].
Qed.

End Contained.

(** C30. Containment. Whatever bytes the loads of a call return - a header of arbitrary
    bytes, or one the peer rewrites while the call runs - every access of the call lies
    inside the ring. The calls that read or write records check their length against the
    handle, so for them this needs nothing but room for one record header; the byte
    calls need a length of at most the capacity. *)
Theorem ring_contained h :
  (∀ op, producer_bounded h op →
     confined (offset h) (offset h + DATA_OFFSET + capacity h) (producer_prog (producer h) op)) ∧
  (∀ op, consumer_bounded h op →
     confined (offset h) (offset h + DATA_OFFSET + capacity h) (consumer_prog (consumer h) op)).
Proof. split=> op; [by apply producer_confined|by apply consumer_confined]. Qed.

Definition small_ring : RingHandle := mkRingHandle 0 16 1 9.

Lemma ring_contained_witness :
  confined 0 144 (producer_prog (producer small_ring) (SendBytes [1; 2; 3])) ∧
  confined 0 144 (consumer_prog (consumer small_ring) RecvRecord) ∧
  confined 0 144 (consumer_prog (consumer small_ring) (ReadBytes 16)).
Proof.
  destruct (ring_contained small_ring) as [Hp Hc].
  split; [|split]; [apply Hp|apply Hc|apply Hc]; by vm_compute.
Defined.

(** The bound on the byte calls is needed: [read] validates the cursors and then loads
    them again, so a peer that moves the commit cursor in between makes a read longer
    than the ring leave it. *)
Theorem read_escapes :
  ¬ confined (offset small_ring) (offset small_ring + DATA_OFFSET + capacity small_ring)
      (consumer_prog (consumer small_ring) (ReadBytes 300)).
Proof.
  intros H.
  destruct H as (_ & _ & H). specialize (H (le_bytes 4 RING_MAGIC) eq_refl).
  destruct H as (_ & _ & H). specialize (H (le_bytes 2 RING_VERSION) eq_refl).
  destruct H as (_ & _ & H). specialize (H (le_bytes 2 0) eq_refl).
  destruct H as (_ & _ & H). specialize (H (le_bytes 8 16) eq_refl).
  destruct H as (_ & _ & H). specialize (H (le_bytes 8 0) eq_refl).
  destruct H as (_ & _ & H). specialize (H (le_bytes 8 0) eq_refl).
  destruct H as (_ & _ & H). specialize (H (le_bytes 8 1000) eq_refl).
  destruct H as (_ & _ & H). specialize (H (le_bytes 8 0) eq_refl).
  destruct H as (_ & _ & H). specialize (H (replicate 16 0) eq_refl).
  destruct H as (_ & H & _). by vm_compute in H.
Qed.

(** ** Number of accesses *)

Section Bounded.
Variable e : Endpoint.

Lemma within_try {E A B} k1 k2 (p : prog (E + A)) (f : A → prog (E + B)) :
  within k1 p → (∀ a, within k2 (f a)) → within (k1 + k2) (try_bind p f).
Proof. move=> Hp Hf. apply within_bind => // -[err|a] //. by case: k2 {Hf}. Qed.

Lemma within_map_err {E F A} (g : E → F) k (p : prog (E + A)) : within k p → within k (map_err g p).
Proof. move=> Hp. rw -(Nat.add_0_r k). by apply within_bind. Qed.

Lemma within_fixed : within 4 (validate_fixed e).
Proof.
  apply (within_bind 1 3) => // a. case: negb => //. apply (within_bind 1 2) => // b.
  case: negb => //. apply (within_bind 1 1) => // c. case: negb => //.
  apply (within_bind 1 0) => // d. by case: negb.
Qed.

Lemma within_check op r : within 6 (check e op r).
Proof.
  rw /check. case: decide => // _. apply (within_try 4 2).
  - apply within_map_err, within_fixed.
  - move=> _. by apply within_map_err.
Qed.

Lemma within_check_current op r : within 7 (check_current e op r).
Proof. apply (within_try 6 1); [apply within_check|]. move=> _. by apply within_map_err. Qed.

Lemma within_copy_into pos bs : within 2 (copy_into e pos bs).
Proof. rw /copy_into. by case: (_ =? 0). Qed.

Lemma within_copy_out pos n : within 2 (copy_out e pos n).
Proof. rw /copy_out. by case: (_ =? 0). Qed.

Lemma within_reserve n : within 9 (reserve e n).
Proof. apply (within_try 7 2); [apply within_check_current|]. by move=> _ ? ?. Qed.

Lemma within_commit r : within 9 (commit e r).
Proof.
  apply (within_try 6 3); [apply within_check|]. move=> _. apply (within_try 1 2) => //.
  move=> _. apply (within_bind 1 1) => // c. rw /check_that. by case: (_ =? _).
Qed.

Lemma within_still_first op c : within 8 (still_first e op c).
Proof.
  apply (within_try 6 2); [apply within_check|]. move=> _. by apply (within_try 1 1).
Qed.

Lemma within_next_record : within 4 (next_record e).
Proof.
  apply (within_bind 1 3) => // a. apply (within_bind 1 2) => // b.
  cbv zeta. case: N.ltb_spec => // _.
  apply (within_bind 2 0); [apply within_copy_out|]. move=> pre. case: (from_byte _) => // k.
  cbv zeta. case: N.ltb_spec => // _. by case: N.ltb_spec.
Qed.

Lemma within_release op c v :
  within 9 (still_first e op c ;? store_u64 e OFF_CONSUME v;; Ret (inr tt)).
Proof. by apply (within_try 8 1); [apply within_still_first|]. Qed.

Lemma within_ranges c ranges : within (10 * length ranges) (copy_ranges e c ranges).
Proof.
  elim: ranges => [|[off n] ranges IH] //. have -> : (10 * length ((off, n) :: ranges) =
    10 + (10 * length ranges + 0))%nat by cbn; lia.
  apply within_try; last by move=> part; apply within_try.
  apply (within_try 8 2); [apply within_still_first|]. move=> _. case: (_ <? _) => //.
  by apply (within_bind 2 0); [apply within_copy_out|].
Qed.

Lemma within_found {A} op (f : option (RecordKind * N * N) → A) :
  within 11 (check_current e op Consumer ;? r <-? next_record e; Ret (inr (f r))).
Proof.
  apply (within_try 7 4); [apply within_check_current|]. move=> _.
  by apply (within_try 4 0); [apply within_next_record|].
Qed.

Lemma producer_within op : within 27 (producer_prog e op).
Proof.
  case: op => [k bytes|k bytes keep|bytes|||].
  - apply (within_try 27 0); [|done]. rw /send_record. case: (_ <? _) => //.
    apply (within_try 9 18); [apply within_reserve|]. move=> r.
    apply (within_bind 2 16); [apply within_copy_into|]. move=> _.
    apply (within_bind 2 14); [apply within_copy_into|]. move=> _.
    by apply (within_mono _ 9); [lia|apply within_commit].
  - apply (within_try 11 16).
    + rw /reserve_record. do 2 (case: (_ <? _) => //).
      apply (within_try 9 2); [apply within_reserve|]. move=> r.
      by apply (within_bind 2 0); [apply within_copy_into|].
    + move=> w. apply (within_bind 2 14).
      * apply (within_bind 0 2); [by rw /check_that; case: (_ =? _)|]. move=> _.
        apply within_copy_into.
      * move=> _. case: keep => //. apply (within_mono _ 9); [lia|].
        by apply (within_try 9 0); [apply within_commit|].
  - apply (within_try 9 18); [apply within_reserve|]. move=> r. apply (within_try 9 9).
    + apply (within_try 6 3); [apply within_check|]. move=> _. apply (within_try 1 2) => // _.
      apply (within_bind 0 2); [by rw /check_that; case: (_ =? _)|]. move=> _.
      by apply (within_bind 2 0); [apply within_copy_into|].
    + move=> _. by apply (within_try 9 0); [apply within_commit|].
  - apply (within_try 27 0); [|done]. apply (within_try 7 20); [apply within_check_current|].
    by move=> _ ? ?.
  - apply (within_try 27 0); [|done]. apply (within_try 4 23).
    { apply within_map_err, within_fixed. }
    move=> _. apply (within_try 1 22); [by apply within_map_err|]. move=> _.
    by apply (within_try 2 20); [by apply within_map_err|].
  - apply (within_try 27 0); [|done]. apply (within_try 4 23).
    { apply within_map_err, within_fixed. }
    move=> _. by apply (within_try 1 22); [by apply within_map_err|].
Qed.

(** The accesses a call of the consumer takes. *)
Definition consumer_accesses (op : ConsumerOp) : nat :=
  match op with CursorRecord ranges => 22 + 10 * length ranges | _ => 22 end.

Lemma consumer_within op : within (consumer_accesses op) (consumer_prog e op).
Proof.
  case: op => [||ranges|||len|len||]; cbn [consumer_accesses].
  - apply (within_try 22 0); [|done]. apply (within_try 6 16); [apply within_check|]. move=> _.
    apply (within_try 4 12); [apply within_next_record|]. move=> [[[k n] c]|] //.
    by apply (within_bind 2 10); [apply within_copy_out|].
  - apply (within_try 11 11); [apply within_found|]. move=> [p|] //.
    apply (within_bind 2 9); [apply within_copy_out|]. move=> bs.
    by apply (within_try 9 0); [apply within_release|].
  - have -> : (22 + 10 * length ranges = 11 + (10 * length ranges + 11))%nat by lia.
    apply within_try; [apply within_found|]. move=> [c|]; last by case: length.
    apply within_try; [apply within_ranges|]. move=> parts.
    by apply (within_try 9 2); [apply within_release|].
  - apply (within_try 22 0); [|done]. apply (within_mono _ 11); [lia|apply within_found].
  - apply (within_try 22 0); [|done]. apply (within_try 6 16); [apply within_check|]. by move=> _ ? ?.
  - apply (within_try 22 0); [|done]. apply (within_try 6 16); [apply within_check|]. move=> _.
    apply (within_bind 1 15) => // a. apply (within_bind 1 14) => // b. cbv zeta.
    case: N.ltb_spec => // _. by apply (within_bind 2 12); [apply within_copy_out|].
  - apply (within_try 22 0); [|done]. apply (within_try 6 16); [apply within_check|]. move=> _.
    apply (within_bind 1 15) => // a. apply (within_bind 1 14) => // b. cbv zeta.
    by case: N.ltb_spec.
  - apply (within_try 22 0); [|done]. apply (within_try 4 18).
    { apply within_map_err, within_fixed. }
    move=> _. apply (within_try 1 17); [by apply within_map_err|]. move=> _.
    by apply (within_try 2 15); [by apply within_map_err|].
  - apply (within_try 22 0); [|done]. apply (within_try 4 18).
    { apply within_map_err, within_fixed. }
    move=> _. by apply (within_try 1 17); [by apply within_map_err|].
Qed.

End Bounded.

(** Every call returns after a bounded number of its own accesses, whatever the peer
    does in the meantime and whatever the memory holds: no call waits or retries. *)
Theorem ring_wait_free e :
  (∀ op, within 27 (producer_prog e op)) ∧
  (∀ op, within (consumer_accesses op) (consumer_prog e op)).
Proof. split=> op; [apply producer_within|apply consumer_within]. Qed.
