(* ===== verification/RingFence.v ===== *)
(** * The generation fence

    Property P10 of [crates/data-plane/src/byte_ring.rs]: an endpoint whose ring was replaced
    by one of another generation must not act on it.  The calls of the producer, those of the
    consumer that pin or inspect records, and the calls on what is held from before keep it;
    [recv_record], [read], [consume] and the spans of a writable record do not look at the
    generation. *)

From S2P Require Import Prelude Memory ByteRing RingStream RingLogic RingAtomic.
#[local] Open Scope N_scope.

(** A program that only loads. *)
Fixpoint reads {A} (p : prog A) : Prop :=
  match p with
  | Ret _ => True
  | Load _ _ k => ∀ bs, reads (k bs)
  | _ => False
  end.

Lemma exec_reads {A} (p : prog A) m : reads p → ∃ a, exec p m = Some (a, m).
Proof. elim: p m => [a|pos n k IH|pos bs k IH|] m //= H; [by exists a|by apply IH]. Qed.

Lemma reads_bind {A B} (p : prog A) (f : A → prog B) :
  reads p → (∀ a, reads (f a)) → reads (p ≫= f).
Proof. elim: p => [a|pos n k IH|pos bs k IH|] //= H Hf. move=> bs. by apply IH. Qed.

Section Fence.
Variables (h : RingHandle) (r : Role) (m : Mem).
Let e := mkEndpoint (offset h) h r.
Hypothesis replaced : le_value (mread m (offset h + OFF_GENERATION) 8) ≠ generation h.

Lemma reads_fixed : reads (validate_fixed e).
Proof.
  apply reads_bind => // a. case: negb => //. apply reads_bind => // b. case: negb => //.
  apply reads_bind => // c. case: negb => //. apply reads_bind => // d. by case: negb.
Qed.

Lemma reads_check op x : reads (check e op x).
Proof.
  rw /check. case: decide => // _. apply reads_bind; first by apply reads_bind; [apply reads_fixed|].
  by move=> [err|[]].
Qed.

Lemma exec_generation :
  exec (map_err Corrupt (validate_generation e (generation h))) m =
    Some (inl (Corrupt (GenerationMismatch (le_value (mread m (offset h + OFF_GENERATION) 8))
      (generation h))), m).
Proof using replaced. cbn -[mread le_value N.add]. by rw (proj2 (N.eqb_neq _ _) replaced). Qed.

(** The call [p] fails and leaves the memory alone. *)
Definition rejected {A} (p : prog (FlowError + A)) : Prop := ∃ err, exec p m = Some (inl err, m).

Lemma rejected_try {A B} (p : prog (FlowError + A)) (f : A → prog (FlowError + B)) :
  rejected p → rejected (try_bind p f).
Proof. move=> [err He]. exists err. by rw /try_bind exec_bind He. Qed.

Lemma rejected_after {A} (p : prog (FlowError + unit)) (f : prog (FlowError + A)) :
  reads p → rejected f → rejected (p ;? f).
Proof.
  move=> Hp [err Hf]. have [[err'|[]] He] := exec_reads p m Hp.
  - exists err'. by rw /try_bind exec_bind He.
  - exists err. by rw /try_bind exec_bind He.
Qed.

Lemma rejected_current op x : rejected (check_current e op x).
Proof using replaced.
  apply rejected_after; [apply reads_check|]. eexists. apply exec_generation.
Qed.

Lemma rejected_observer {A} (f : prog (FlowError + A)) :
  rejected (map_err Corrupt (validate_fixed e) ;?
            map_err Corrupt (validate_generation e (generation h)) ;? f).
Proof using replaced.
  apply rejected_after; first by apply reads_bind; [apply reads_fixed|].
  apply rejected_try. eexists. apply exec_generation.
Qed.

(** What is held since before the replacement: a reservation, a cursor. *)
Lemma rejected_stale {A} op x held (f : prog (FlowError + A)) :
  held = generation h → rejected (check e op x ;? stale_check e held ;? f).
Proof using replaced.
  move=> ->. apply rejected_after; [apply reads_check|]. apply rejected_try. eexists.
  cbn -[mread le_value N.add]. by rw (proj2 (N.eqb_neq _ _) replaced).
Qed.

Lemma rejected_reserve n : rejected (reserve e n).
Proof using replaced. apply rejected_try, rejected_current. Qed.

End Fence.

(** The calls of the consumer that look at the generation. *)
Definition fenced (op : ConsumerOp) : bool :=
  match op with
  | PinRecord | CursorRecord _ | NextMeta | ConsumerPositions | ConsumerPeer => true
  | _ => false
  end.

(** C36. The generation fence: while the header at an endpoint's offset carries another
    generation than its handle, whatever else the memory holds, every call of the
    producer and every fenced call of the consumer fails and writes nothing. So do the
    calls on what is held since before the ring was replaced: writing and committing a
    reservation, committing a writable record, reading and releasing through a cursor,
    and releasing a pinned record; dropping one writes nothing. Not fenced are
    [recv_record], [read], [consume] and [readable], and the spans that a writable
    record lends. *)
Theorem generation_fence h m :
  le_value (mread m (offset h + OFF_GENERATION) 8) ≠ generation h →
  (∀ op, rejected m (producer_prog (producer h) op)) ∧
  (∀ op, fenced op = true → rejected m (consumer_prog (consumer h) op)) ∧
  (∀ r, r_generation r = generation h →
     (∀ bytes, rejected m (write (producer h) r bytes)) ∧
     rejected m (commit (producer h) r) ∧
     (∀ start len, rejected m (commit_record (producer h) (mkWritableRecord r start len)))) ∧
  (∀ c, c_generation c = generation h →
     (∀ off len, rejected m (copy_record_range (consumer h) c off len)) ∧
     rejected m (release_record_cursor (consumer h) c) ∧
     (∀ done, rejected m (release (consumer h) (mkPinnedRecord c done)) ∧
        exec (drop_pinned (consumer h) (mkPinnedRecord c done)) m = Some (tt, m))).
Proof.
  move=> Hg. split; [|split; [|split]].
  - move=> op. case: op => [k bytes|k bytes keep|bytes|||].
    + apply rejected_try. rw /send_record. case: (_ <? _); first by eexists.
      by apply rejected_try, (rejected_reserve h Producer).
    + apply rejected_try. rw /reserve_record. do 2 (case: (_ <? _); first by eexists).
      by apply rejected_try, (rejected_reserve h Producer).
    + by apply rejected_try, (rejected_reserve h Producer).
    + by apply rejected_try, rejected_try, (rejected_current h Producer).
    + by apply rejected_try, (rejected_observer h Producer).
    + by apply rejected_try, (rejected_observer h Producer).
  - move=> op. case: op => [||ranges|||len|len||] // _.
    + by apply rejected_try, rejected_try, (rejected_current h Consumer).
    + by apply rejected_try, rejected_try, (rejected_current h Consumer).
    + by apply rejected_try, rejected_try, (rejected_current h Consumer).
    + by apply rejected_try, (rejected_observer h Consumer).
    + by apply rejected_try, (rejected_observer h Consumer).
  - move=> r Hr. split; [|split]; move=> *; by apply (rejected_stale h Producer).
  - move=> c Hc. have Hfirst op : rejected m (still_first (consumer h) op c) by apply (rejected_stale h Consumer).
    have Hrel : rejected m (release_inner (consumer h) c) by apply rejected_try.
    split; [|split; [|move=> done; split]]; [by move=> *; apply rejected_try|by apply rejected_try|done|].
    case: done => //. move: Hrel => [err He]. rw /drop_pinned; cbn [released pinned]. by rw exec_bind He.
Qed.

(** The ring of [sample_ring] replaced by one of the next generation. *)
Definition next_ring : RingHandle := mkRingHandle 0 16 2 10.
Definition next_mem : Mem := mwrite (λ _, 0) 0 (header_image 16 2).

(** A record was reserved before the replacement. *)
Definition held_record : WritableRecord := mkWritableRecord (mkReservation 0 6 1) 5 1.

Lemma generation_fence_witness :
  rejected next_mem (producer_prog (producer sample_ring) (SendRecord Data [1])) ∧
  rejected next_mem (commit_record (producer sample_ring) held_record).
Proof.
  destruct (generation_fence sample_ring next_mem) as (H1 & _ & H2 & _); [by vm_compute|].
  split; [apply H1|]. destruct (H2 (mkReservation 0 6 1) eq_refl) as (_ & _ & H). exact (H 5 1).
Defined.

(** Its memory once its producer sent a record. *)
Definition next_mem_sent : Mem :=
  match exec (producer_prog (producer next_ring) (SendRecord Data [5; 6])) next_mem with
  | Some (_, m) => m
  | None => next_mem
  end.

(** [recv_record] is not fenced: the consumer of the replaced ring takes the record that
    the new ring's producer sent, and the new ring's consumer finds nothing. *)
Theorem stale_consumer_takes :
  generation sample_ring ≠ generation next_ring ∧
  match exec (consumer_prog (consumer sample_ring) RecvRecord) next_mem_sent with
  | Some (r, m) => r = inr (Record_ (Some (Data, [5; 6]))) ∧
      (fst <$> exec (consumer_prog (consumer next_ring) RecvRecord) m) = Some (inr (Record_ None))
  | None => False
  end.
Proof. split; [done|]. by vm_compute. Qed.

(** The spans of a writable record are not fenced: filling one that was reserved before the ring was
    replaced overwrites a record of the new ring that its consumer has not read. *)
Theorem stale_spans_overwrite :
  rejected next_mem_sent (commit_record (producer sample_ring) held_record) ∧
  match exec (fill (producer sample_ring) held_record [9]) next_mem_sent with
  | Some (_, m) =>
      (fst <$> exec (consumer_prog (consumer next_ring) RecvRecord) m)
        = Some (inr (Record_ (Some (Data, [9; 6]))))
  | None => False
  end.
Proof. split; [eexists|]; by vm_compute. Qed.

(** [write] does not look at the commit cursor: a reservation, which is [Copy], can be
    written through again after it was committed, and then changes bytes the consumer
    has not read yet. *)
Theorem late_write_overwrites :
  let p := producer sample_ring in
  match exec (r <-? reserve p 3; write p r [1; 2; 3] ;? commit p r ;? write p r [9; 9; 9])
          sample_mem with
  | Some (r, m) => r = inr tt ∧
      (fst <$> exec (consumer_prog (consumer sample_ring) (ReadBytes 3)) m) =
        Some (inr (Bytes [9; 9; 9]))
  | None => False
  end.
Proof. by vm_compute. Qed.
