(* ===== verification/Arena.v ===== *)
(** * The arena

    [crates/data-plane/src/arena.rs]: the allocator that leases ranges of a shared memory
    region to rings, queues the requests that do not fit yet, and serves them in order
    when ranges are released.  Offsets, sizes and counters are 64-bit; whether the
    operating system provides the region is the argument [backing] of [boot]. *)

From S2P Require Import Prelude.
#[local] Open Scope N_scope.

(** ** Checked arithmetic *)

Definition checked_add (a b : N) : option N := if a + b <=? u64_max then Some (a + b) else None.
Definition checked_mul (a b : N) : option N := if a * b <=? u64_max then Some (a * b) else None.

(** The loop of [gcd]; two iterations halve [right], so 129 are enough for 64 bits. *)
Fixpoint gcd_loop (fuel : nat) (left right : N) : N :=
  match fuel with
  | O => left
  | S fuel => if right =? 0 then left else gcd_loop fuel right (left mod right)
  end.

Definition gcd (left right : N) : N := gcd_loop 129 left right.

Definition lcm (left right : N) : option N :=
  if (left =? 0) || (right =? 0) then None else checked_mul (left / gcd left right) right.

Definition align_up (value alignment : N) : option N :=
  if alignment =? 0 then None
  else
    let remainder := value mod alignment in
    if remainder =? 0 then Some value else checked_add value (alignment - remainder).

(** ** Data *)

Abbreviation RingId := N.
Abbreviation LeaseRequestId := N.

Record ArenaConfig := mkArenaConfig {
  node_id : N;
  reservation_ceiling : N;
  base_alignment : N;
}.

Record RingSpec := mkRingSpec {
  header_bytes : N;
  spec_data_bytes : N;
  spec_alignment : N;
}.

Record LeaseRing := mkLeaseRing {
  lr_request_id : LeaseRequestId;
  ring_spec : RingSpec;
}.

Record RingLayout := mkRingLayout {
  start_offset : N;
  header_offset : N;
  data_offset : N;
  end_offset : N;
  data_bytes : N;
  alignment : N;
}.

Record RingLease := mkRingLease {
  request_id : LeaseRequestId;
  ring_id : RingId;
  lease_node_id : N;
  layout : RingLayout;
  requested_alignment : N;
}.

Inductive ArenaRequest :=
  | RequestLease (request : LeaseRing)
  | CancelLease (id : LeaseRequestId)
  | ReleaseRing (id : RingId) (verified : bool)
  | Shutdown.

Inductive ArenaFault :=
  | InvalidReservationCeiling
  | InvalidBaseAlignment
  | BackingUnavailable.

Inductive RingLeaseRejection := CannotFitWithinCeiling | ArenaShuttingDown.
Inductive RingReleaseRejection := MissingQuiescenceProof | UnknownRingId.

Inductive ArenaEvent :=
  | RingLeased (lease : RingLease)
  | RingLeaseQueued (id : LeaseRequestId)
  | RingLeaseRejected (id : LeaseRequestId) (reason : RingLeaseRejection)
  | RingReleased (id : RingId) (start_offset end_offset : N)
  | RingReleaseRejected (id : RingId) (reason : RingReleaseRejection)
  | CancelledFreshLeaseReleased (id : LeaseRequestId).

Inductive ArenaState := Ready | ShuttingDown.

Record FreeRange := mkFreeRange { start : N; end_ : N }.

Record QueuedLease := mkQueuedLease { request : LeaseRing; cancelled : bool }.

Record ArenaManager := mkArenaManager {
  config : ArenaConfig;
  state : ArenaState;
  next_ring_id : N;
  free_ranges : list FreeRange;
  pending : list QueuedLease;
  live_order : list RingLease;
  live_index : gmap RingId nat;
  allocation_failures_total : N;
  release_failures_total : N;
}.

Definition arena_eta (m : ArenaManager) : ArenaManager :=
  mkArenaManager (config m) (state m) (next_ring_id m) (free_ranges m) (pending m)
    (live_order m) (live_index m) (allocation_failures_total m) (release_failures_total m).

Definition set_state (m : ArenaManager) (v : ArenaState) : ArenaManager :=
  ltac:(update_field arena_eta m state v).
Definition set_next_ring_id (m : ArenaManager) (v : N) : ArenaManager :=
  ltac:(update_field arena_eta m next_ring_id v).
Definition set_free_ranges (m : ArenaManager) (v : list FreeRange) : ArenaManager :=
  ltac:(update_field arena_eta m free_ranges v).
Definition set_pending (m : ArenaManager) (v : list QueuedLease) : ArenaManager :=
  ltac:(update_field arena_eta m pending v).
Definition set_live_order (m : ArenaManager) (v : list RingLease) : ArenaManager :=
  ltac:(update_field arena_eta m live_order v).
Definition set_live_index (m : ArenaManager) (v : gmap RingId nat) : ArenaManager :=
  ltac:(update_field arena_eta m live_index v).
Definition set_allocation_failures (m : ArenaManager) (v : N) : ArenaManager :=
  ltac:(update_field arena_eta m allocation_failures_total v).
Definition set_release_failures (m : ArenaManager) (v : N) : ArenaManager :=
  ltac:(update_field arena_eta m release_failures_total v).

(** ** Operations *)

Definition boot (backing : bool) (c : ArenaConfig) : ArenaFault + ArenaManager :=
  if reservation_ceiling c =? 0 then inl InvalidReservationCeiling
  else if base_alignment c =? 0 then inl InvalidBaseAlignment
  else if negb backing then inl BackingUnavailable
  else inr (mkArenaManager c Ready 1 [mkFreeRange 0 (reservation_ceiling c)] [] [] ∅ 0 0).

Definition request_layout_at (c : ArenaConfig) (spec : RingSpec) (range_start : N)
    : option RingLayout :=
  alignment ← lcm (base_alignment c) (spec_alignment spec);
  start_offset ← align_up range_start alignment;
  let header_offset := start_offset in
  after_header ← checked_add header_offset (header_bytes spec);
  data_offset ← align_up after_header alignment;
  end_offset ← checked_add data_offset (spec_data_bytes spec);
  if reservation_ceiling c <? end_offset then None
  else Some (mkRingLayout start_offset header_offset data_offset end_offset
               (spec_data_bytes spec) alignment).

(** The free range that holds the layout is replaced by what is left on its two sides. *)
Definition split (range : FreeRange) (l : RingLayout) : list FreeRange :=
  (if start range <? start_offset l then [mkFreeRange (start range) (start_offset l)] else []) ++
  (if end_offset l <? end_ range then [mkFreeRange (end_offset l) (end_ range)] else []).

(** The first range the request fits in. *)
Fixpoint first_fit (c : ArenaConfig) (spec : RingSpec) (ranges : list FreeRange)
    : option (list FreeRange * RingLayout) :=
  match ranges with
  | [] => None
  | range :: ranges =>
      let later := (λ p : list FreeRange * RingLayout, (range :: p.1, p.2)) <$>
                     first_fit c spec ranges in
      match request_layout_at c spec (start range) with
      | Some l => if end_ range <? end_offset l then later else Some (split range l ++ ranges, l)
      | None => later
      end
  end.

(** The range is taken before the next ring id is drawn, which fails at the last id. *)
Definition try_allocate (m : ArenaManager) (r : LeaseRing) : ArenaManager * option RingLease :=
  match first_fit (config m) (ring_spec r) (free_ranges m) with
  | Some (free, l) =>
      let m := set_free_ranges m free in
      match checked_add (next_ring_id m) 1 with
      | Some next =>
          let id := next_ring_id m in
          let lease := mkRingLease (lr_request_id r) id (node_id (config m)) l
                         (spec_alignment (ring_spec r)) in
          let m := set_next_ring_id m next in
          let m := set_live_index m (<[id := length (live_order m)]> (live_index m)) in
          (set_live_order m (live_order m ++ [lease]), Some lease)
      | None => (m, None)
      end
  | None => (m, None)
  end.

Definition fail_allocation (m : ArenaManager) : ArenaManager :=
  set_allocation_failures m (u64_saturating_add (allocation_failures_total m) 1).
Definition fail_release (m : ArenaManager) : ArenaManager :=
  set_release_failures m (u64_saturating_add (release_failures_total m) 1).

Definition lease_ring (m : ArenaManager) (r : LeaseRing) : ArenaManager * list ArenaEvent :=
  let id := lr_request_id r in
  match state m with
  | ShuttingDown => (fail_allocation m, [RingLeaseRejected id ArenaShuttingDown])
  | Ready =>
      match request_layout_at (config m) (ring_spec r) 0 with
      | None => (fail_allocation m, [RingLeaseRejected id CannotFitWithinCeiling])
      | Some _ =>
          let queued m :=
            (set_pending m (pending m ++ [mkQueuedLease r false]), [RingLeaseQueued id]) in
          if bool_decide (pending m = []) then
            match try_allocate m r with
            | (m, Some lease) => (m, [RingLeased lease])
            | (m, None) => queued m
            end
          else queued m
      end
  end.

Definition cancel_lease (m : ArenaManager) (id : LeaseRequestId) : ArenaManager :=
  set_pending m
    ((λ p, if lr_request_id (request p) =? id then mkQueuedLease (request p) true else p)
       <$> pending m).

(** Adjacent ranges are joined and empty ones dropped; [last] is the range last kept. *)
Fixpoint coalesce (last : option FreeRange) (ranges : list FreeRange) : list FreeRange :=
  match ranges with
  | [] => option_list last
  | range :: ranges =>
      if start range =? end_ range then coalesce last ranges
      else
        match last with
        | Some p =>
            if start range <=? end_ p
            then coalesce (Some (mkFreeRange (start p) (N.max (end_ p) (end_ range)))) ranges
            else p :: coalesce (Some range) ranges
        | None => coalesce (Some range) ranges
        end
  end.

Definition start_le (a b : FreeRange) : bool := start a <=? start b.

Definition insert_free_range (m : ArenaManager) (range : FreeRange) : ArenaManager :=
  set_free_ranges m (coalesce None (sort_by start_le (free_ranges m ++ [range]))).

Definition index_of (live : list RingLease) : gmap RingId nat :=
  foldl (λ ix il, <[ring_id il.2 := il.1]> ix) ∅ (imap pair live).

Definition rebuild_live_index (m : ArenaManager) : ArenaManager :=
  set_live_index m (index_of (live_order m)).

(** The loop over the queue, which stops at the first request that still does not fit. *)
Fixpoint retry (m : ArenaManager) (queue : list QueuedLease)
    : ArenaManager * list ArenaEvent :=
  match queue with
  | [] => (set_pending m [], [])
  | p :: queue =>
      if cancelled p then
        let '(m, evs) := retry m queue in
        (m, CancelledFreshLeaseReleased (lr_request_id (request p)) :: evs)
      else
        match try_allocate m (request p) with
        | (m, Some lease) =>
            let '(m, evs) := retry m queue in (m, RingLeased lease :: evs)
        | (m, None) => (set_pending m (p :: queue), [])
        end
  end.

Definition retry_pending_leases (m : ArenaManager) : ArenaManager * list ArenaEvent :=
  retry m (pending m).

Definition release_ring (m : ArenaManager) (id : RingId) (verified : bool)
    : ArenaManager * list ArenaEvent :=
  match live_index m !! id with
  | None => (fail_release m, [RingReleaseRejected id UnknownRingId])
  | Some index =>
      if negb verified then (fail_release m, [RingReleaseRejected id MissingQuiescenceProof])
      else
        match live_order m !! index with
        | Some lease =>
            let m := rebuild_live_index (set_live_order m (delete index (live_order m))) in
            let l := layout lease in
            let m := insert_free_range m (mkFreeRange (start_offset l) (end_offset l)) in
            let released := RingReleased id (start_offset l) (end_offset l) in
            match state m with
            | Ready => let '(m, evs) := retry_pending_leases m in (m, released :: evs)
            | ShuttingDown => (m, [released])
            end
        | None => (m, [])
        end
  end.

Definition shutdown (m : ArenaManager) : ArenaManager * list ArenaEvent :=
  (set_pending (set_state m ShuttingDown) [],
   (λ p, if cancelled p then CancelledFreshLeaseReleased (lr_request_id (request p))
         else RingLeaseRejected (lr_request_id (request p)) ArenaShuttingDown) <$> pending m).

Definition handle_request (m : ArenaManager) (r : ArenaRequest)
    : ArenaManager * list ArenaEvent :=
  match r with
  | RequestLease r => lease_ring m r
  | CancelLease id => (cancel_lease m id, [])
  | ReleaseRing id verified => release_ring m id verified
  | Shutdown => shutdown m
  end.

Definition lookup_lease (m : ArenaManager) (id : RingId) : option RingLease :=
  live_index m !! id ≫= λ index, live_order m !! index.

(** [sample], but for the time of day. *)
Record ArenaSnapshot := mkArenaSnapshot {
  capacity_bytes : N;
  live_bytes : N;
  free_bytes : N;
  active_leases : N;
  pending_leases : N;
  largest_free_range_bytes : N;
}.

Definition range_len (r : FreeRange) : N := end_ r - start r.

Definition sample (m : ArenaManager) : ArenaSnapshot :=
  let free_bytes := foldl (λ s r, s +64 range_len r) 0 (free_ranges m) in
  mkArenaSnapshot (reservation_ceiling (config m)) (reservation_ceiling (config m) - free_bytes)
    free_bytes (N.of_nat (length (live_order m)))
    (N.of_nat (length (filter (λ p, cancelled p = false) (pending m))))
    (foldl (λ s r, N.max s (range_len r)) 0 (free_ranges m)).

(** ** Arithmetic *)

Lemma gcd_loop_spec k fuel l r :
  r < 2 ^ N.of_nat k → (2 * k + 1 ≤ fuel)%nat → gcd_loop fuel l r = N.gcd l r.
Proof.
  revert fuel l r; induction k as [|k IH]; intros fuel l r Hr Hf.
  - destruct fuel as [|fuel]; [lia|]. simpl. assert (r = 0) as -> by (simpl in Hr; lia).
    by rw N.eqb_refl N.gcd_0_r.
  - destruct fuel as [|[|fuel]]; [lia..|]. simpl.
    destruct (N.eqb_spec r 0) as [->|Hr0]; [by rw N.gcd_0_r|].
    rw (N.gcd_comm l) -(N.Lcm0.gcd_mod l r) (N.gcd_comm (l mod r)).
    pose proof (N.mod_upper_bound l r Hr0) as H1. set (r1 := l mod r) in *.
    destruct (N.eqb_spec r1 0) as [->|Hr1]; [by rw N.gcd_0_r|].
    rw (N.gcd_comm r) -(N.Lcm0.gcd_mod r r1) (N.gcd_comm (r mod r1)). apply IH; [|lia].
    pose proof (N.mod_upper_bound r r1 Hr1) as H2.
    assert (r = r1 * (r / r1) + r mod r1) as Hd by (apply N.div_mod; done).
    assert (1 <= r / r1) by (apply N.div_le_lower_bound; lia).
    rw Nat2N.inj_succ N.pow_succ_r' in Hr. nia.
Qed.

Lemma gcd_spec l r : r <= u64_max → gcd l r = N.gcd l r.
Proof. intros Hr. apply (gcd_loop_spec 64); [|lia]. unfold u64_max in Hr. simpl. lia. Qed.

Lemma checked_add_Some a b c : checked_add a b = Some c ↔ c = a + b ∧ a + b <= u64_max.
Proof.
  unfold checked_add. destruct (N.leb_spec (a + b) u64_max).
  - split; [by intros [= <-]|by intros [-> _]].
  - split; [done|lia].
Qed.

Lemma lcm_spec a b c : b <= u64_max → lcm a b = Some c → 0 < c ∧ (a | c) ∧ (b | c).
Proof.
  unfold lcm, checked_mul. intros Hb. destruct (N.eqb_spec a 0), (N.eqb_spec b 0); try done. cbn [orb].
  destruct (N.leb_spec (a / gcd a b * b) u64_max); [|done]. intros [= <-]. rw gcd_spec //.
  destruct (N.gcd_divide_l a b) as [x Hx], (N.gcd_divide_r a b) as [y Hy].
  set (g := N.gcd a b) in *. assert (g ≠ 0) by (intros E0; rw E0 in Hx; lia).
  assert (a / g = x) as -> by (rw Hx; by apply N.div_mul).
  split_and!; [nia| |by exists x]. exists y. nia.
Qed.

Lemma align_up_spec v a w :
  align_up v a = Some w →
  0 < a ∧ v <= w ∧ (a | w) ∧ ∀ w', v <= w' → (a | w') → w <= w'.
Proof.
  unfold align_up. destruct (N.eqb_spec a 0) as [|Ha]; [done|].
  pose proof (N.div_mod v a Ha) as Hd. pose proof (N.mod_upper_bound v a Ha) as Hm.
  destruct (N.eqb_spec (v mod a) 0) as [E|E].
  - intros [= <-]. split_and!; [lia|lia| |lia]. exists (v / a). lia.
  - intros [-> _]%checked_add_Some. split_and!; [lia|lia|exists (v / a + 1); lia|].
    intros w' Hw [q ->]. assert (v ≠ q * a) by (intros ->; by rw N.Div0.mod_mul in E).
    assert (v / a < q); [|nia]. apply N.Div0.div_lt_upper_bound. lia.
Qed.

(** ** Layouts *)

(** A layout serves a request for [spec] in an arena of configuration [c]. *)
Record layout_ok (c : ArenaConfig) (spec : RingSpec) (l : RingLayout) : Prop := {
  lo_base_aligned : (base_alignment c | alignment l);
  lo_spec_aligned : (spec_alignment spec | alignment l);
  lo_start : (alignment l | start_offset l);
  lo_header : header_offset l = start_offset l;
  lo_data : (alignment l | data_offset l);
  lo_header_fits : start_offset l + header_bytes spec <= data_offset l;
  lo_data_fits : end_offset l = data_offset l + spec_data_bytes spec;
  lo_bytes : data_bytes l = spec_data_bytes spec;
  lo_ceiling : end_offset l <= reservation_ceiling c;
}.

Lemma layout_at_inv c spec s l :
  request_layout_at c spec s = Some l →
  lcm (base_alignment c) (spec_alignment spec) = Some (alignment l) ∧
  align_up s (alignment l) = Some (start_offset l) ∧ header_offset l = start_offset l ∧
  align_up (start_offset l + header_bytes spec) (alignment l) = Some (data_offset l) ∧
  end_offset l = data_offset l + spec_data_bytes spec ∧ data_bytes l = spec_data_bytes spec ∧
  end_offset l <= reservation_ceiling c ∧ end_offset l <= u64_max.
Proof.
  unfold request_layout_at. intros H.
  destruct (lcm _ _) as [a|] eqn:E0; [|done]. cbn [mbind option_bind] in H.
  destruct (align_up s a) as [st|] eqn:E1; [|done]. cbn [mbind option_bind] in H.
  destruct (checked_add st _) as [ah|] eqn:E2; [|done]. cbn [mbind option_bind] in H.
  destruct (align_up ah a) as [d|] eqn:E3; [|done]. cbn [mbind option_bind] in H.
  destruct (checked_add d _) as [e|] eqn:E4; [|done]. cbn [mbind option_bind] in H.
  destruct (N.ltb_spec (reservation_ceiling c) e); [done|]. injection H as <-. cbn.
  apply checked_add_Some in E2 as [-> _], E4 as [-> ?]. by split_and!.
Qed.

Lemma layout_at_bounds c spec s l :
  request_layout_at c spec s = Some l →
  s <= start_offset l ∧ start_offset l <= end_offset l ∧ end_offset l <= reservation_ceiling c.
Proof.
  intros (_ & E1%align_up_spec & _ & E3%align_up_spec & ? & _ & ? & _)%layout_at_inv. lia.
Qed.

Lemma layout_at_ok c spec s l :
  spec_alignment spec <= u64_max → request_layout_at c spec s = Some l → layout_ok c spec l.
Proof.
  intros Ha (E0 & E1 & ? & E3 & ? & ? & ? & _)%layout_at_inv.
  apply lcm_spec in E0 as (_ & ? & ?); [|done].
  apply align_up_spec in E1 as (_ & ? & ? & _), E3 as (_ & ? & ? & _). by split.
Qed.
