(* ===== verification/ArenaSafety.v ===== *)
(** * What the arena guarantees

    The ranges of an arena, free and leased, partition it: every byte below the ceiling is
    in exactly one of them, after any history of requests.  Requests are served in the
    order they were made, and none waits for nothing. *)

From S2P Require Import Prelude Arena.
#[local] Open Scope N_scope.

(** Reads of the fields of an updated record. *)
Ltac arena_simpl :=
  cbn [config state next_ring_id free_ranges pending live_order live_index
       set_state set_next_ring_id set_free_ranges set_pending set_live_order set_live_index
       set_allocation_failures set_release_failures fail_allocation fail_release
       arena_eta ring_id layout fst] in *.

(** ** Counting ranges *)

Definition holds (b : N) (r : FreeRange) : bool := (start r <=? b) && (b <? end_ r).

(** How many of the ranges hold byte [b]. *)
Definition cnt (b : N) (l : list FreeRange) : nat := length (filter (λ r, holds b r = true) l).

Lemma cnt_cons b r l : cnt b (r :: l) = ((if holds b r then 1 else 0) + cnt b l)%nat.
Proof. unfold cnt. rw filter_cons. by destruct (holds b r). Qed.

Lemma cnt_app b l l' : cnt b (l ++ l') = (cnt b l + cnt b l')%nat.
Proof. unfold cnt. by rw filter_app length_app. Qed.

#[export] Instance cnt_perm b : Proper ((≡ₚ) ==> eq) (cnt b).
Proof. intros l l' Hl. unfold cnt. by rw Hl. Qed.

Lemma holds_spec b r : holds b r = true ↔ start r <= b < end_ r.
Proof. unfold holds. rw andb_true_iff N.leb_le N.ltb_lt. done. Qed.

Lemma holds_empty b r : end_ r <= start r → holds b r = false.
Proof. intros Hr. destruct (holds b r) eqn:E; [|done]. apply holds_spec in E. lia. Qed.

Lemma cnt_in b r l : r ∈ l → holds b r = true → (1 ≤ cnt b l)%nat.
Proof.
  intros Hr Hb. unfold cnt. destruct (filter _ l) eqn:E; [|simpl; lia].
  assert (r ∈ filter (λ r, holds b r = true) l) as Hin by by apply list_elem_of_filter.
  rw E in Hin. by apply elem_of_nil in Hin.
Qed.

(** The range a layout takes out of a free range, and what is left. *)
Definition layout_range (l : RingLayout) : FreeRange := mkFreeRange (start_offset l) (end_offset l).

Lemma cnt_split b range l :
  start range <= start_offset l → start_offset l <= end_offset l → end_offset l <= end_ range →
  (cnt b (split range l) + cnt b [layout_range l] = cnt b [range])%nat.
Proof.
  intros H1 H2 H3. unfold split. rw cnt_app.
  assert (∀ x y, cnt b (if x <? y then [mkFreeRange x y] else []) =
                 if (x <=? b) && (b <? y) then 1%nat else 0%nat) as Hc.
  { intros x y. destruct (N.ltb_spec x y); [by rw cnt_cons Nat.add_0_r|].
    destruct (N.leb_spec x b), (N.ltb_spec b y); simpl; (done || lia). }
  rw !Hc !cnt_cons /holds /=.
  repeat match goal with |- context [?x <=? ?y] => destruct (N.leb_spec x y) end;
  repeat match goal with |- context [?x <? ?y] => destruct (N.ltb_spec x y) end; simpl; lia.
Qed.

Lemma first_fit_cnt c spec ranges free l b :
  first_fit c spec ranges = Some (free, l) →
  (cnt b free + cnt b [layout_range l] = cnt b ranges)%nat.
Proof.
  revert free; induction ranges as [|range ranges IH]; intros free H; [done|]. cbn [first_fit] in H.
  assert (∀ o, (λ p : list FreeRange * RingLayout, (range :: p.1, p.2)) <$> o = Some (free, l) →
    o = first_fit c spec ranges →
    (cnt b free + cnt b [layout_range l] = cnt b (range :: ranges))%nat) as Hlater.
  { intros [[free' l']|] Ho E; [|done]. injection Ho as <- <-. cbn [fst snd].
    rw !(cnt_cons b range). specialize (IH free' (eq_sym E)). lia. }
  destruct (request_layout_at c spec (start range)) as [l'|] eqn:El; [|by eapply Hlater].
  destruct (N.ltb_spec (end_ range) (end_offset l')); [by eapply Hlater|].
  injection H as <- <-. apply layout_at_bounds in El as (? & ? & _).
  rw cnt_app. pose proof (cnt_split b range l' ltac:(lia) ltac:(lia) ltac:(lia)) as Hs.
  rw (cnt_cons b range ranges). rw (cnt_cons b range []) in Hs.
  change (cnt b []) with 0%nat in Hs. lia.
Qed.

Lemma first_fit_layout c spec ranges free l :
  first_fit c spec ranges = Some (free, l) → ∃ s, request_layout_at c spec s = Some l.
Proof.
  revert free; induction ranges as [|range ranges IH]; intros free H; [done|]. cbn [first_fit] in H.
  destruct (first_fit c spec ranges) as [[free' l']|] eqn:E; cbn in H.
  - destruct (request_layout_at c spec (start range)) as [l''|] eqn:El; [case_match|];
      simplify_eq; eauto.
  - destruct (request_layout_at c spec (start range)) as [l''|] eqn:El; [case_match|];
      simplify_eq; eauto.
Qed.

(** ** Sorted ranges *)

(** Nonempty ranges in ascending order from [lo] on, [gap] apart. *)
Fixpoint ordered (gap lo : N) (l : list FreeRange) : Prop :=
  match l with
  | [] => True
  | r :: l => lo <= start r ∧ start r < end_ r ∧ ordered gap (end_ r + gap) l
  end.

Lemma ordered_weaken gap lo lo' l : lo' <= lo → ordered gap lo l → ordered gap lo' l.
Proof. destruct l; simpl; [done|]. intros ? (?&?&?). split_and!; [lia|done..]. Qed.

Lemma ordered_no_gap gap lo l : ordered gap lo l → ordered 0 lo l.
Proof.
  revert lo; induction l as [|r l IH]; intros lo; simpl; [done|]. intros (?&?&?).
  split_and!; [done..|]. apply IH. eapply ordered_weaken; [|done]. lia.
Qed.

Lemma ordered_bounds gap lo l r : ordered gap lo l → r ∈ l → lo <= start r ∧ start r < end_ r.
Proof.
  revert lo; induction l as [|r' l IH]; intros lo; [by intros _ ?%elem_of_nil|].
  simpl. intros (?&?&?) [->|Hr]%elem_of_cons; [done|]. destruct (IH _ H1 Hr). lia.
Qed.

Lemma first_fit_ordered c spec ranges free l lo :
  ordered 0 lo ranges → first_fit c spec ranges = Some (free, l) → ordered 0 lo free.
Proof.
  revert free lo; induction ranges as [|range ranges IH]; intros free lo Ho H; [done|].
  cbn [first_fit ordered] in *. destruct Ho as (H1 & H2 & H3).
  assert (∀ o, (λ p : list FreeRange * RingLayout, (range :: p.1, p.2)) <$> o = Some (free, l) →
    o = first_fit c spec ranges → ordered 0 lo free) as Hlater.
  { intros [[free' l']|] Eo E; [|done]. injection Eo as <- <-. cbn. split_and!; [done..|].
    by apply IH. }
  destruct (request_layout_at c spec (start range)) as [l'|] eqn:El; [|by eapply Hlater].
  destruct (N.ltb_spec (end_ range) (end_offset l')); [by eapply Hlater|].
  injection H as <- <-. apply layout_at_bounds in El as (? & ? & _). unfold split.
  destruct (N.ltb_spec (start range) (start_offset l'));
    destruct (N.ltb_spec (end_offset l') (end_ range)); simpl; repeat split; try lia;
    (eapply ordered_weaken; [|exact H3]; lia).
Qed.

Lemma cnt_below gap lo l b : ordered gap lo l → b < lo → cnt b l = 0%nat.
Proof.
  revert lo; induction l as [|r l IH]; intros lo; [done|]. simpl. intros (?&?&Ho) Hb.
  rw cnt_cons (IH _ Ho); [lia|]. destruct (holds b r) eqn:E; [|done]. apply holds_spec in E. lia.
Qed.

(** What is known of the range last kept and of the ranges still to come. *)
Definition before (lo : N) (last : option FreeRange) (l : list FreeRange) : Prop :=
  match last with
  | Some p => lo <= start p ∧ start p < end_ p ∧ Forall (λ r, start p <= start r) l
  | None => Forall (λ r, lo <= start r) l
  end.

Lemma before_tail lo last r l : before lo last (r :: l) → before lo last l.
Proof. destruct last; simpl; [intros (?&?&?%Forall_cons_1)|intros ?%Forall_cons_1]; tauto. Qed.

Lemma holds_join b p r :
  start p < end_ p → end_ p = start r → start r <= end_ r →
  (if holds b (mkFreeRange (start p) (N.max (end_ p) (end_ r))) then 1 else 0)%nat =
  ((if holds b p then 1 else 0) + (if holds b r then 1 else 0))%nat.
Proof.
  intros H1 H2 H3. unfold holds; simpl.
  repeat match goal with |- context [?x <=? ?y] => destruct (N.leb_spec x y) end;
  repeat match goal with |- context [?x <? ?y] => destruct (N.ltb_spec x y) end; simpl; lia.
Qed.

Lemma coalesce_spec l last lo :
  StronglySorted start_le l → Forall (λ r, start r <= end_ r) l →
  before lo last l → (∀ b, cnt b (option_list last ++ l) ≤ 1)%nat →
  ordered 1 lo (coalesce last l) ∧ ∀ b, cnt b (coalesce last l) = cnt b (option_list last ++ l).
Proof.
  revert last lo; induction l as [|r l IH]; intros last lo Hs Hw Hb Hc.
  { rw app_nil_r. cbn [coalesce]. split; [|done]. destruct last; simpl in *; tauto. }
  apply Forall_cons_1 in Hw as [Hr Hw]. pose proof (before_tail _ _ _ _ Hb) as Hb'.
  inversion Hs as [|? ? Hs' Hle]; subst. cbn [coalesce].
  assert (Forall (λ r', start r <= start r') l) as Hge.
  { eapply Forall_impl; [exact Hle|]. intros r' Hr'. apply N.leb_le, Is_true_true, Hr'. }
  destruct (N.eqb_spec (start r) (end_ r)) as [E|E].
  { assert (∀ b, cnt b (option_list last ++ r :: l) = cnt b (option_list last ++ l)) as Hskip.
    { intros b. rw !cnt_app cnt_cons holds_empty; [lia|done]. }
    destruct (IH last lo Hs' Hw Hb') as [H1 H2]; [intros b; by rw -Hskip|].
    split; [done|]. intros b. by rw H2 Hskip. }
  destruct last as [p|].
  - destruct Hb as (Hlo & Hp & Hstart%Forall_cons_1). destruct Hstart as [Hpr _].
    destruct (N.leb_spec (start r) (end_ p)) as [Hj|Hj].
    + assert (end_ p = start r) as Ej.
      { destruct (decide (end_ p = start r)) as [|Hne]; [done|]. specialize (Hc (start r)).
        simpl in Hc. rw !cnt_cons in Hc.
        assert (holds (start r) p = true) as E1 by (apply holds_spec; lia).
        assert (holds (start r) r = true) as E2 by (apply holds_spec; lia).
        rw E1 E2 in Hc. lia. }
      assert (∀ b, cnt b (option_list (Some p) ++ r :: l) =
        cnt b (mkFreeRange (start p) (N.max (end_ p) (end_ r)) :: l)) as Hjoin.
      { intros b. simpl. rw !cnt_cons holds_join //. lia. }
      destruct (IH (Some (mkFreeRange (start p) (N.max (end_ p) (end_ r)))) lo Hs' Hw) as [H1 H2].
      * cbn. split_and!; [done|lia|]. eapply Forall_impl; [exact Hge|]. simpl. lia.
      * intros b. simpl. by rw -Hjoin.
      * split; [done|]. intros b. by rw H2 Hjoin.
    + destruct (IH (Some r) (end_ p + 1) Hs' Hw) as [H1 H2].
      * cbn. split_and!; [lia|lia|done].
      * intros b. specialize (Hc b). simpl in Hc |- *. rw cnt_cons in Hc. lia.
      * split; [by cbn|]. intros b. rw cnt_cons H2. simpl. by rw !cnt_cons.
  - apply Forall_cons_1 in Hb as [Hlo _].
    destruct (IH (Some r) lo Hs' Hw) as [H1 H2]; [by split_and!; [|lia|]|exact Hc|].
    by split.
Qed.

(** How many ranges are to hold byte [b] of an arena of [C] bytes. *)
Definition inside (C b : N) : nat := if b <? C then 1%nat else 0%nat.

(** Ranges with gaps between them that hold exactly the bytes of the arena are one. *)
Lemma ordered_whole l C :
  0 < C → ordered 1 0 l → (∀ b, cnt b l = inside C b) →
  l = [mkFreeRange 0 C].
Proof.
  unfold inside. intros HC Ho Hc. destruct l as [|r l].
  { specialize (Hc 0). rw (proj2 (N.ltb_lt 0 C)) // in Hc. }
  destruct Ho as (_ & Hr & Ho).
  assert (start r = 0) as Er.
  { specialize (Hc 0). rw (proj2 (N.ltb_lt 0 C)) // in Hc. rw cnt_cons (cnt_below _ _ _ _ Ho) in Hc; [lia|].
    destruct (holds 0 r) eqn:E; [|done]. apply holds_spec in E. lia. }
  assert (C <= end_ r) as Hle.
  { destruct (N.leb_spec C (end_ r)) as [|Hlt]; [done|]. specialize (Hc (end_ r)).
    rw (proj2 (N.ltb_lt _ _) Hlt) cnt_cons (cnt_below _ _ _ _ Ho) in Hc; [lia|].
    destruct (holds (end_ r) r) eqn:E; [|done]. apply holds_spec in E. lia. }
  assert (end_ r <= C) as Hge.
  { destruct (N.leb_spec (end_ r) C) as [|Hlt]; [done|]. specialize (Hc (end_ r - 1)).
    rw (proj2 (N.ltb_ge _ _)) in Hc; [lia|].
    assert (holds (end_ r - 1) r = true) as E1 by (apply holds_spec; lia).
    rw cnt_cons E1 in Hc. lia. }
  destruct l as [|r' l]; [destruct r; simpl in *; f_equal; f_equal; lia|].
  destruct Ho as (? & ? & _). specialize (Hc (start r')).
  rw (proj2 (N.ltb_ge _ _)) in Hc; [lia|].
  assert (holds (start r') r' = true) as E1 by (apply holds_spec; lia).
  rw !cnt_cons E1 in Hc. lia.
Qed.

(** ** The index of the live leases *)

Lemma index_of_snoc live l :
  index_of (live ++ [l]) = <[ring_id l := length live]> (index_of live).
Proof. unfold index_of. rw imap_app foldl_app /= Nat.add_0_r. done. Qed.

Lemma index_of_lookup live id i :
  index_of live !! id = Some i → ∃ l, live !! i = Some l ∧ ring_id l = id.
Proof.
  revert i; induction live as [|l live IH] using rev_ind; intros i; [done|].
  rw index_of_snoc lookup_insert. case_decide as E.
  - intros [= <-]. exists l. by rw list_lookup_middle.
  - intros (l' & Hl & Hid)%IH. exists l'. split; [|done]. by apply lookup_app_l_Some.
Qed.

Lemma index_of_complete live l i :
  NoDup (ring_id <$> live) → live !! i = Some l → index_of live !! ring_id l = Some i.
Proof.
  revert i; induction live as [|l' live IH] using rev_ind; intros i Hnd Hl; [done|].
  rw fmap_app in Hnd. apply NoDup_app in Hnd as (Hnd & Hdis & _).
  rw index_of_snoc lookup_insert. apply lookup_app_Some in Hl as [Hl|[Hi Hl]].
  - rw decide_False; [|by apply IH]. intros E. apply (Hdis (ring_id l)); [|simpl; rw -E; by left].
    apply list_elem_of_fmap. exists l. split; [done|]. by eapply list_elem_of_lookup_2.
  - apply list_lookup_singleton_Some in Hl as [Hi' <-]. rw decide_True //. f_equal. lia.
Qed.

(** ** The invariant *)

Definition leased_ranges (m : ArenaManager) : list FreeRange :=
  (λ l, layout_range (layout l)) <$> live_order m.

(** What holds of the memory ... *)
Record core_ok (m : ArenaManager) : Prop := {
  co_ceiling : 0 < reservation_ceiling (config m);
  co_partition b :
    cnt b (free_ranges m ++ leased_ranges m) = inside (reservation_ceiling (config m)) b;
  co_ordered : ordered 0 0 (free_ranges m);
  co_whole : live_order m = [] → free_ranges m = [mkFreeRange 0 (reservation_ceiling (config m))];
  co_layouts : Forall (λ r, start r <= end_ r) (leased_ranges m);
  co_unique : NoDup (ring_id <$> live_order m);
  co_fresh : Forall (λ l, ring_id l < next_ring_id m) (live_order m);
  co_index : live_index m = index_of (live_order m);
}.

Definition fits (c : ArenaConfig) (p : QueuedLease) : Prop :=
  is_Some (request_layout_at c (ring_spec (request p)) 0).

(** ... and of the queue, when at most [n] ring ids have been asked for. *)
Record queue_ok (n : N) (m : ArenaManager) : Prop := {
  qo_fits : Forall (fits (config m)) (pending m);
  qo_waiting : pending m ≠ [] → live_order m ≠ [];
  qo_shutdown : state m = ShuttingDown → pending m = [];
  qo_ids : next_ring_id m + N.of_nat (length (pending m)) <= 1 + n;
}.

Lemma try_allocate_Some m r m' lease :
  core_ok m → try_allocate m r = (m', Some lease) →
  core_ok m' ∧ config m' = config m ∧ state m' = state m ∧ pending m' = pending m ∧
  next_ring_id m' = next_ring_id m + 1 ∧ live_order m' = live_order m ++ [lease] ∧
  request_id lease = lr_request_id r ∧
  ∃ s, request_layout_at (config m) (ring_spec r) s = Some (layout lease).
Proof.
  intros Hm. unfold try_allocate.
  destruct (first_fit _ _ _) as [[free l]|] eqn:Ef; [|done]. cbn [next_ring_id set_free_ranges arena_eta].
  destruct (checked_add _ 1) as [next|] eqn:En; [|done]. apply checked_add_Some in En as [-> _].
  intros [= <- <-]. split; [|pose proof (first_fit_layout _ _ _ _ _ Ef); by cbn].
  pose proof (first_fit_ordered _ _ _ _ _ _ (co_ordered _ Hm) Ef) as Ho.
  pose proof (λ b, first_fit_cnt _ _ _ _ _ b Ef) as Hc.
  apply first_fit_layout in Ef as [s Hl]. apply layout_at_bounds in Hl as (_ & Hle & _).
  destruct Hm. split; unfold leased_ranges; arena_simpl; try done.
  - intros b. rw -co_partition0. unfold leased_ranges. rw fmap_app !cnt_app.
    specialize (Hc b). cbn [fmap list_fmap layout]. lia.
  - by destruct (live_order m).
  - rw fmap_app. apply Forall_app. split; [done|]. by repeat constructor.
  - rw fmap_app. apply NoDup_app. split_and!; [done| |apply NoDup_singleton].
    intros x (l' & -> & Hl')%list_elem_of_fmap [=]%list_elem_of_singleton.
    rw Forall_forall in co_fresh0. specialize (co_fresh0 _ Hl'). lia.
  - apply Forall_app. split; [|repeat constructor; cbn; lia].
    eapply Forall_impl; [exact co_fresh0|]. cbn. lia.
  - by rw index_of_snoc co_index0.
Qed.

Lemma try_allocate_None m r m' :
  next_ring_id m < u64_max → try_allocate m r = (m', None) →
  m' = m ∧ first_fit (config m) (ring_spec r) (free_ranges m) = None.
Proof.
  intros Hn. unfold try_allocate. destruct (first_fit _ _ _) as [[free l]|] eqn:Ef; [|by intros [= ->]].
  cbn [next_ring_id set_free_ranges arena_eta]. unfold checked_add.
  rw (proj2 (N.leb_le _ _)); [lia|]. done.
Qed.

(** In an arena with nothing leased, whatever was queued fits. *)
Lemma whole_fits m p :
  core_ok m → live_order m = [] → fits (config m) p →
  first_fit (config m) (ring_spec (request p)) (free_ranges m) ≠ None.
Proof.
  intros Hm Hl [l Hf]. rw (co_whole _ Hm Hl). cbn [first_fit start end_]. rw Hf.
  apply layout_at_bounds in Hf as (_ & _ & Hle). by rw (proj2 (N.ltb_ge _ _) Hle).
Qed.

Lemma retry_ok n m queue :
  core_ok m → Forall (fits (config m)) queue →
  next_ring_id m + N.of_nat (length queue) <= 1 + n → n < u64_max →
  let m' := (retry m queue).1 in
  core_ok m' ∧ config m' = config m ∧ state m' = state m ∧
  Forall (fits (config m)) (pending m') ∧ (pending m' ≠ [] → live_order m' ≠ []) ∧
  next_ring_id m' + N.of_nat (length (pending m')) <= 1 + n.
Proof.
  revert m; induction queue as [|p queue IH]; intros m Hm Hf Hid Hn; cbn [retry].
  { split; [by destruct Hm|]. by arena_simpl. }
  apply Forall_cons_1 in Hf as [Hp Hf]. cbn [length] in Hid.
  destruct (cancelled p).
  { specialize (IH m Hm Hf ltac:(lia) Hn). by destruct (retry m queue). }
  destruct (try_allocate m (request p)) as [m1 [lease|]] eqn:E.
  - destruct (try_allocate_Some _ _ _ _ Hm E) as (Hm1 & Ec & Es & _ & Enx & _).
    rw -Ec in Hf. specialize (IH m1 Hm1 Hf ltac:(lia) Hn). rw Ec Es in IH.
    by destruct (retry m1 queue).
  - apply try_allocate_None in E as [-> Ef]; [|lia]. cbn zeta. arena_simpl.
    split; [by destruct Hm|]. split_and!; [done..| | |]; [by constructor| |cbn [fst]; arena_simpl; cbn [length]; lia].
    intros _ Hl. by eapply whole_fits.
Qed.

Lemma start_le_total a b : start_le a b = false → start_le b a = true.
Proof. unfold start_le. rw N.leb_nle N.leb_le. lia. Qed.
Lemma start_le_trans a b c : start_le a b = true → start_le b c = true → start_le a c = true.
Proof. unfold start_le. rw !N.leb_le. lia. Qed.

Lemma release_core m index lease :
  core_ok m → live_order m !! index = Some lease →
  core_ok (insert_free_range (rebuild_live_index (set_live_order m (delete index (live_order m))))
             (layout_range (layout lease))).
Proof.
  intros Hm Hl. pose proof (delete_Permutation _ _ _ Hl) as Hp.
  set (r := layout_range (layout lease)). unfold insert_free_range.
  set (sorted := sort_by start_le _).
  assert (∀ b, cnt b sorted = cnt b (free_ranges m ++ [r])) as Hcs.
  { intros b. unfold sorted. by rw sort_by_perm. }
  assert (∀ b, cnt b (free_ranges m ++ leased_ranges m) =
    cnt b (free_ranges m ++ [r]) + cnt b ((λ l, layout_range (layout l)) <$> delete index (live_order m)))%nat
    as Hall.
  { intros b. unfold leased_ranges. rw {1}Hp fmap_cons !cnt_app !(cnt_cons b (layout_range _)).
    fold r. change (cnt b []) with 0%nat. lia. }
  destruct Hm. rw /leased_ranges Hp fmap_cons in co_layouts0.
  apply Forall_cons_1 in co_layouts0 as [Hr Hlay].
  destruct (coalesce_spec sorted None 0) as [Ho Hc].
  - apply sort_by_sorted; [exact start_le_total|exact start_le_trans].
  - unfold sorted. rw sort_by_perm. apply Forall_app. split; [|by repeat constructor].
    apply Forall_forall. intros r' Hr'. pose proof (ordered_bounds _ _ _ _ co_ordered0 Hr'). lia.
  - cbn. apply Forall_forall. lia.
  - intros b. cbn [option_list app]. rw Hcs. specialize (Hall b). rw co_partition0 in Hall.
    unfold inside in Hall. destruct (b <? _); lia.
  - assert (∀ b, cnt b (coalesce None sorted ++
              ((λ l, layout_range (layout l)) <$> delete index (live_order m))) =
            inside (reservation_ceiling (config m)) b) as Hpart.
    { intros b. rw cnt_app Hc /= Hcs -Hall. done. }
    split; unfold leased_ranges, rebuild_live_index; arena_simpl; try done.
    + by eapply ordered_no_gap.
    + intros E. apply ordered_whole; [done..|]. intros b. rw -Hpart E app_nil_r //.
    + rw Hp fmap_cons in co_unique0. by apply NoDup_cons in co_unique0 as [_ ?].
    + rw Hp in co_fresh0. by apply Forall_cons_1 in co_fresh0 as [_ ?].
Qed.

(** ** Histories *)

Definition asked (r : ArenaRequest) : N := match r with RequestLease _ => 1 | _ => 0 end.

Lemma lease_ring_ok n m r :
  core_ok m → queue_ok n m → n + 1 < u64_max →
  let m' := (lease_ring m r).1 in core_ok m' ∧ queue_ok (n + 1) m' ∧ config m' = config m.
Proof.
  intros Hm Hq Hn. pose proof Hq as [Hf Hw Hs Hi]. unfold lease_ring.
  destruct (state m) eqn:Es.
  2: { split; [by destruct Hm|]. split; [|done]. split; arena_simpl; [done|done|by rw Es|lia]. }
  destruct (request_layout_at _ _ 0) as [l|] eqn:El.
  2: { split; [by destruct Hm|]. split; [|done]. split; arena_simpl; [done|done|by rw Es|lia]. }
  assert (∀ m1, m1 = m → live_order m ≠ [] →
    let m' := set_pending m1 (pending m1 ++ [mkQueuedLease r false]) in
    core_ok m' ∧ queue_ok (n + 1) m' ∧ config m' = config m) as Hqueued.
  { intros ? -> Hl. split; [by destruct Hm|]. split; [|done]. split; arena_simpl; [|done|by rw Es|].
    - apply Forall_app. split; [done|]. repeat constructor. by exists l.
    - rw length_app /=. lia. }
  case_bool_decide as Ep.
  - destruct (try_allocate m r) as [m1 [lease|]] eqn:E.
    + destruct (try_allocate_Some _ _ _ _ Hm E) as (Hm1 & Ec & Est & Epe & Enx & _).
      split; [done|]. split; [|done]. rw Ep in Epe Hi. split; cbn [fst]; rw ?Epe; [done..|].
      rw Enx. simpl in *. lia.
    + apply try_allocate_None in E as [-> Ef]; [|lia]. apply Hqueued; [done|]. intros Hl.
      apply (whole_fits m (mkQueuedLease r false) Hm Hl); [by exists l|done].
  - apply Hqueued; [done|]. by apply Hw.
Qed.

Lemma release_ring_ok n m id v :
  core_ok m → queue_ok n m → n < u64_max →
  let m' := (release_ring m id v).1 in core_ok m' ∧ queue_ok n m' ∧ config m' = config m.
Proof.
  intros Hm Hq Hn. pose proof Hq as [Hf Hw Hs Hi]. unfold release_ring.
  assert (∀ m', m' = fail_release m → core_ok m' ∧ queue_ok n m' ∧ config m' = config m) as Hfail.
  { intros ? ->. split; [by destruct Hm|]. by split. }
  destruct (live_index m !! id) as [index|] eqn:Ei; [|by apply Hfail].
  destruct v; [|by apply Hfail]. cbn [negb].
  rw (co_index _ Hm) in Ei. apply index_of_lookup in Ei as (lease & Hl & _). rw Hl.
  pose proof (release_core m index lease Hm Hl) as Hm1.
  change (mkFreeRange (start_offset (layout lease)) (end_offset (layout lease)))
    with (layout_range (layout lease)).
  set (m1 := insert_free_range _ _) in *.
  assert (config m1 = config m ∧ state m1 = state m ∧ pending m1 = pending m ∧
          next_ring_id m1 = next_ring_id m) as (Ec & Est & Ep & En) by done.
  rw Est. destruct (state m) eqn:Es.
  - pose proof (retry_ok n m1 (pending m1) Hm1) as Hr. rw Ec Ep En in Hr.
    specialize (Hr Hf Hi Hn). unfold retry_pending_leases. rw Ep.
    destruct (retry m1 (pending m)) as [m2 evs]; cbn [fst] in *.
    destruct Hr as (Hm2 & Ec2 & Es2 & Hf2 & Hw2 & Hi2). split; [done|].
    split; [|by rw Ec2]. split; rw ?Ec2 //. by rw Es2 Est.
  - split; [done|]. split; [|done]. cbn [fst]. specialize (Hs eq_refl).
    split; rw ?Ec ?Ep ?En ?Hs //. rw Hs in Hi. done.
Qed.

Lemma handle_request_ok n m r :
  core_ok m → queue_ok n m → n + asked r < u64_max →
  let m' := (handle_request m r).1 in
  core_ok m' ∧ queue_ok (n + asked r) m' ∧ config m' = config m.
Proof.
  intros Hm Hq Hn. destruct r as [r|id|id v|]; cbn [handle_request asked] in *.
  - by apply lease_ring_ok.
  - pose proof Hq as [Hf Hw Hs Hi]. split; [by destruct Hm|]. split; [|done].
    rw N.add_0_r. split; cbn [fst]; unfold cancel_lease; arena_simpl.
    + apply Forall_fmap. eapply Forall_impl; [exact Hf|]. intros p. simpl. by case_match.
    + intros Hp. apply Hw. intros E. by rw E in Hp.
    + intros E. by rw (Hs E).
    + by rw length_fmap.
  - rw N.add_0_r in Hn |- *. by apply release_ring_ok.
  - pose proof Hq as [Hf Hw Hs Hi]. split; [by destruct Hm|]. split; [|done].
    rw N.add_0_r. split; cbn [fst shutdown]; arena_simpl; [done..|]. simpl. lia.
Qed.

Lemma history_ok reqs m n :
  core_ok m → queue_ok n m → n + N.of_nat (length reqs) < u64_max →
  let m' := (emit_all handle_request m reqs).1 in
  core_ok m' ∧ queue_ok (n + N.of_nat (length reqs)) m' ∧ config m' = config m.
Proof.
  revert m n; induction reqs as [|r reqs IH]; intros m n Hm Hq Hn; cbn [emit_all length fst].
  { by rw N.add_0_r. }
  cbn [length] in Hn. assert (asked r <= 1) by (destruct r; simpl; lia).
  destruct (handle_request_ok n m r Hm Hq ltac:(lia)) as (Hm1 & Hq1 & Ec1).
  assert (queue_ok (n + 1) (handle_request m r).1) as Hq1'.
  { destruct Hq1 as [? ? ? Hi]. split; [done..|]. lia. }
  destruct (IH _ (n + 1) Hm1 Hq1' ltac:(lia)) as (Hm2 & Hq2 & Ec2).
  split; [done|]. split; [|by rw Ec2].
  by replace (n + N.of_nat (S (length reqs))) with (n + 1 + N.of_nat (length reqs)) by lia.
Qed.

Lemma boot_ok backing c m :
  boot backing c = inr m →
  core_ok m ∧ queue_ok 0 m ∧ config m = c ∧ live_order m = [] ∧ pending m = [].
Proof.
  unfold boot. destruct (N.eqb_spec (reservation_ceiling c) 0); [done|].
  destruct (base_alignment c =? 0); [done|]. destruct backing; [|done]. intros [= <-].
  split; [|split; [|done]]; split; arena_simpl; try done; try (by constructor).
  - lia.
  - intros b. unfold leased_ranges. cbn [live_order fmap list_fmap app].
    rw cnt_cons /holds /inside. cbn [start end_]. rw (proj2 (N.leb_le 0 b)); [lia|]. by destruct (b <? _).
  - cbn. lia.
Qed.

(** The index finds the live leases. *)
Lemma lookup_live m id l : core_ok m → lookup_lease m id = Some l ↔ l ∈ live_order m ∧ ring_id l = id.
Proof.
  intros Hm. unfold lookup_lease. rw (co_index _ Hm). split.
  - destruct (index_of _ !! id) as [i|] eqn:E; [|done]. cbn. intros Hl.
    apply index_of_lookup in E as (l' & Hl' & Hid). simplify_eq.
    split; [by eapply list_elem_of_lookup_2|done].
  - intros [[i Hi]%list_elem_of_lookup <-].
    by rw (index_of_complete _ _ _ (co_unique _ Hm) Hi).
Qed.

(** Two live leases share no byte. *)
Lemma live_disjoint m l1 l2 x :
  core_ok m → l1 ∈ live_order m → l2 ∈ live_order m → ring_id l1 ≠ ring_id l2 →
  holds x (layout_range (layout l1)) = true → holds x (layout_range (layout l2)) = true → False.
Proof.
  move=> Hm H1 H2 Hne Hh1 Hh2.
  apply list_elem_of_split in H1 as [a [b Hab]]. have Hp := co_partition _ Hm x.
  rw cnt_app /leased_ranges Hab fmap_app fmap_cons cnt_app cnt_cons Hh1 in Hp.
  have Hin : layout_range (layout l2) ∈ ((λ l, layout_range (layout l)) <$> (a ++ b)).
  { apply list_elem_of_fmap. exists l2. split; [done|]. rw Hab in H2.
    move: H2. rw !elem_of_app elem_of_cons. move=> [?|[?|?]]; [by left|by subst|by right]. }
  have Hc := cnt_in _ _ _ Hin Hh2. rw fmap_app cnt_app in Hc. rw /inside in Hp.
  case: (x <? _) Hp; lia.
Qed.

(** ** Where leases come from *)

(** A lease serves the request [r]. *)
Definition serves (c : ArenaConfig) (r : LeaseRing) (l : RingLease) : Prop :=
  request_id l = lr_request_id r ∧
  ∃ s, request_layout_at c (ring_spec r) s = Some (layout l).

Record sourced (R : LeaseRing → Prop) (m : ArenaManager) : Prop := {
  so_live : Forall (λ l, ∃ r, R r ∧ serves (config m) r l) (live_order m);
  so_pending : Forall (λ p, R (request p)) (pending m);
}.

Lemma try_allocate_live m r :
  let x := try_allocate m r in
  config x.1 = config m ∧ pending x.1 = pending m ∧
  live_order x.1 = live_order m ++ option_list x.2 ∧
  ∀ l, x.2 = Some l → serves (config m) r l.
Proof.
  unfold try_allocate. destruct (first_fit _ _ _) as [[free l]|] eqn:Ef; cbn [fst snd].
  2: { split_and!; [done..|by rw app_nil_r|done]. }
  arena_simpl. destruct (checked_add _ 1); cbn [fst snd]; split_and!; try done.
  - intros l' [= <-]. split; [done|]. by eapply first_fit_layout.
  - by rw app_nil_r.
Qed.

Lemma try_allocate_sourced R m r :
  sourced R m → R r → sourced R (try_allocate m r).1.
Proof.
  intros [Hl Hp] Hr. destruct (try_allocate_live m r) as (Ec & Ep & El & Hs).
  split; rw ?Ec ?Ep ?El //. apply Forall_app. split; [done|].
  destruct (try_allocate m r).2 as [l|]; repeat constructor. exists r. auto.
Qed.

Lemma retry_sourced R m queue :
  Forall (λ p, R (request p)) queue → sourced R m → sourced R (retry m queue).1.
Proof.
  intros Hq. revert m. induction Hq as [|p queue Hp Hq IH]; intros m Hm; cbn [retry].
  { destruct Hm. by split. }
  destruct (cancelled p).
  { specialize (IH m Hm). by destruct (retry m queue). }
  pose proof (try_allocate_sourced R m (request p) Hm Hp) as Hm1.
  destruct (try_allocate m (request p)) as [m1 [lease|]]; cbn [fst] in *.
  - specialize (IH m1 Hm1). by destruct (retry m1 queue).
  - destruct Hm1. split; arena_simpl; [done|]. by constructor.
Qed.

Lemma handle_request_sourced R m r :
  sourced R m → (∀ l, r = RequestLease l → R l) → sourced R (handle_request m r).1.
Proof.
  intros Hm Hr. pose proof Hm as [Hl Hp]. destruct r as [r|id|id v|]; cbn [handle_request].
  - specialize (Hr r eq_refl). unfold lease_ring.
    pose proof (try_allocate_sourced R m r Hm Hr) as Hm1.
    assert (∀ m1, sourced R m1 →
      sourced R (set_pending m1 (pending m1 ++ [mkQueuedLease r false]))) as Hqueued.
    { intros m1 [Hl1 Hp1]. split; arena_simpl; [done|]. apply Forall_app. by repeat constructor. }
    destruct (state m); [|by split]. destruct (request_layout_at _ _ _); [|by split].
    case_bool_decide; [|by apply Hqueued].
    destruct (try_allocate m r) as [m1 [lease|]]; cbn [fst] in *; [done|by apply Hqueued].
  - split; unfold cancel_lease; arena_simpl; [done|]. apply Forall_fmap.
    eapply Forall_impl; [exact Hp|]. intros p. simpl. by case_match.
  - unfold release_ring. destruct (live_index m !! id) as [index|]; [|by split].
    destruct v; [|by split]. cbn [negb]. destruct (live_order m !! index) as [lease|] eqn:El; [|done].
    set (m1 := insert_free_range _ _).
    assert (sourced R m1) as Hm1.
    { split; [|done]. change (live_order m1) with (delete index (live_order m)).
      rw (delete_Permutation _ _ _ El) in Hl. by apply Forall_cons_1 in Hl as [_ ?]. }
    destruct (state m1); [|done]. unfold retry_pending_leases.
    pose proof (retry_sourced R m1 (pending m1) (so_pending _ _ Hm1) Hm1) as Hm2.
    by destruct (retry m1 (pending m1)).
  - split; cbn [fst shutdown]; arena_simpl; [done|constructor].
Qed.

(** C27. Leases never overlap and nothing is lost: after any history of fewer than [2^64
    - 1] requests, every byte below the ceiling is in exactly one range, free or leased,
    and no range reaches beyond it; every live lease serves a request that was made,
    with header and data inside its range and aligned to both the arena's and the
    requested alignment; and the index finds exactly the live leases. *)
Theorem arena_partition backing c m0 reqs :
  boot backing c = inr m0 → N.of_nat (length reqs) < u64_max →
  (∀ r, RequestLease r ∈ reqs → spec_alignment (ring_spec r) <= u64_max) →
  let m := (emit_all handle_request m0 reqs).1 in
  (∀ b, cnt b (free_ranges m ++ leased_ranges m) = inside (reservation_ceiling c) b) ∧
  (∀ l, l ∈ live_order m → ∃ r, RequestLease r ∈ reqs ∧
     request_id l = lr_request_id r ∧ layout_ok c (ring_spec r) (layout l)) ∧
  (∀ id l, lookup_lease m id = Some l ↔ l ∈ live_order m ∧ ring_id l = id).
Proof.
  intros Hb Hn Hal m. destruct (boot_ok _ _ _ Hb) as (Hm0 & Hq0 & Ec0 & El0 & Ep0).
  destruct (history_ok reqs m0 0 Hm0 Hq0 Hn) as (Hm & _ & Ec). fold m in Hm, Ec.
  assert (sourced (λ r, RequestLease r ∈ reqs) m) as [Hsrc _].
  { apply (emit_all_invariant (λ m _, sourced (λ r, RequestLease r ∈ reqs) m) handle_request m0 []).
    - intros m' _ r Hr Hm'. apply handle_request_sourced; [done|]. by intros l ->.
    - split; rw ?El0 ?Ep0; constructor. }
  rw Ec0 in Ec. split_and!.
  - intros b. by rw (co_partition _ Hm) Ec.
  - intros l Hl. rw Forall_forall in Hsrc. destruct (Hsrc l Hl) as (r & Hr & Hid & s & Hlay).
    exists r. rw Ec in Hlay. split_and!; [done..|]. eapply layout_at_ok; [by apply Hal|done].
  - intros id l. by apply lookup_live.
Qed.

(** Nobody waits for nothing: after any history, if a request is waiting then some ring
    is leased, whose release retries the queue; with every ring released the queue is
    empty and the whole arena is one free range again. *)
Theorem waiting_implies_leased backing c m0 reqs :
  boot backing c = inr m0 → N.of_nat (length reqs) < u64_max →
  let m := (emit_all handle_request m0 reqs).1 in
  live_order m = [] →
  pending m = [] ∧ free_ranges m = [mkFreeRange 0 (reservation_ceiling c)].
Proof.
  intros Hb Hn m Hl. destruct (boot_ok _ _ _ Hb) as (Hm0 & Hq0 & Ec0 & El0 & Ep0).
  destruct (history_ok reqs m0 0 Hm0 Hq0 Hn) as (Hm & Hq & Ec). fold m in Hm, Hq, Ec.
  rw Ec0 in Ec. split; [|by rw (co_whole _ Hm Hl) Ec].
  destruct (pending m) eqn:E; [done|]. exfalso. apply (qo_waiting _ _ Hq); [by rw E|done].
Qed.

(** ** The order of service *)

Definition answered (e : ArenaEvent) : option LeaseRequestId :=
  match e with
  | RingLeased l => Some (request_id l)
  | RingLeaseRejected id _ | CancelledFreshLeaseReleased id => Some id
  | _ => None
  end.

Definition granted (e : ArenaEvent) : option LeaseRequestId :=
  match e with RingLeased l => Some (request_id l) | _ => None end.

Definition requested (r : ArenaRequest) : list LeaseRequestId :=
  match r with RequestLease r => [lr_request_id r] | _ => [] end.

Definition waiting (queue : list QueuedLease) : list LeaseRequestId :=
  (λ p, lr_request_id (request p)) <$> queue.

Lemma granted_answered evs : omap granted evs `sublist_of` omap answered evs.
Proof.
  induction evs as [|e evs IH]; [done|].
  destruct e; simpl; (done || by apply sublist_skip || by apply sublist_cons).
Qed.

Lemma retry_answers m queue :
  let x := retry m queue in omap answered x.2 ++ waiting (pending x.1) = waiting queue.
Proof.
  revert m; induction queue as [|p queue IH]; intros m; cbn [retry]; [done|].
  destruct (cancelled p).
  { specialize (IH m). destruct (retry m queue); simpl in *. by rw IH. }
  destruct (try_allocate_live m (request p)) as (_ & _ & _ & Hs).
  destruct (try_allocate m (request p)) as [m1 [lease|]]; [|done].
  destruct (Hs lease eq_refl) as [Hid _].
  specialize (IH m1). destruct (retry m1 queue); simpl in *. by rw IH Hid.
Qed.

Lemma handle_request_answers m r :
  let x := handle_request m r in
  omap answered x.2 ++ waiting (pending x.1) ≡ₚ waiting (pending m) ++ requested r ∧
  omap granted x.2 ++ waiting (pending x.1) `sublist_of` waiting (pending m) ++ requested r.
Proof.
  assert (∀ x : ArenaManager * list ArenaEvent,
    omap answered x.2 ++ waiting (pending x.1) = waiting (pending m) ++ requested r →
    omap answered x.2 ++ waiting (pending x.1) ≡ₚ waiting (pending m) ++ requested r ∧
    omap granted x.2 ++ waiting (pending x.1) `sublist_of` waiting (pending m) ++ requested r) as Heq.
  { intros x E. rw -E. split; [done|]. apply sublist_app; [apply granted_answered|done]. }
  destruct r as [r|id|id v|]; cbn [handle_request requested].
  - unfold lease_ring.
    assert (∀ m1, pending m1 = pending m →
      [lr_request_id r] ++ waiting (pending m1) ≡ₚ waiting (pending m) ++ [lr_request_id r] ∧
      waiting (pending m1) `sublist_of` waiting (pending m) ++ [lr_request_id r]) as Hrej.
    { intros m1 ->. split; [by rw Permutation_app_comm|]. by apply sublist_inserts_r. }
    destruct (state m); [|by apply (Hrej (fail_allocation m))].
    destruct (request_layout_at _ _ _); [|by apply (Hrej (fail_allocation m))].
    destruct (try_allocate_live m r) as (_ & Ep & _ & Hs).
    case_bool_decide as E0; [|apply Heq; cbn; unfold waiting; by rw fmap_app].
    destruct (try_allocate m r) as [m1 [lease|]]; apply Heq; cbn in *.
    + destruct (Hs lease eq_refl) as [-> _]. by rw Ep E0.
    + unfold waiting. by rw Ep fmap_app.
  - apply Heq. rw app_nil_r. unfold waiting, cancel_lease; cbn. rw -list_fmap_compose.
    apply list_fmap_ext. intros i p _. simpl. by case_match.
  - unfold release_ring. rw app_nil_r.
    assert (∀ x : ArenaManager * list ArenaEvent,
      omap answered x.2 ++ waiting (pending x.1) = waiting (pending m) →
      omap answered x.2 ++ waiting (pending x.1) ≡ₚ waiting (pending m) ∧
      omap granted x.2 ++ waiting (pending x.1) `sublist_of` waiting (pending m)) as Heq'.
    { intros x E. specialize (Heq x). rw app_nil_r in Heq. auto. }
    destruct (live_index m !! id) as [index|]; [|by apply Heq'].
    destruct v; [|by apply Heq']. cbn [negb].
    destruct (live_order m !! index) as [lease|]; [|by apply Heq'].
    set (m1 := insert_free_range _ _). apply Heq'. change (pending m) with (pending m1).
    destruct (state m1); [|done]. pose proof (retry_answers m1 (pending m1)) as Hr.
    unfold retry_pending_leases. by destruct (retry m1 (pending m1)).
  - apply Heq. rw app_nil_r. cbn. rw app_nil_r. unfold waiting. clear Heq.
    induction (pending m) as [|p queue IH]; [done|]. simpl. destruct (cancelled p); simpl; f_equal; exact IH.
Qed.

(** Requests are served first come, first served, and each is answered once: over any
    history, the requests granted, followed by those still waiting, are in the order in
    which they were made, and every request made is granted, rejected, dropped as
    cancelled, or waiting, exactly once. *)
Theorem served_in_order backing c m0 reqs :
  boot backing c = inr m0 →
  let x := emit_all handle_request m0 reqs in
  omap granted x.2 ++ waiting (pending x.1) `sublist_of` reqs ≫= requested ∧
  omap answered x.2 ++ waiting (pending x.1) ≡ₚ reqs ≫= requested.
Proof.
  intros (_ & _ & _ & _ & Ep0)%boot_ok. cbn zeta.
  assert (∀ m, omap granted (emit_all handle_request m reqs).2 ++
                 waiting (pending (emit_all handle_request m reqs).1)
               `sublist_of` waiting (pending m) ++ (reqs ≫= requested) ∧
               omap answered (emit_all handle_request m reqs).2 ++
                 waiting (pending (emit_all handle_request m reqs).1)
               ≡ₚ waiting (pending m) ++ (reqs ≫= requested)) as Hgen.
  { induction reqs as [|r reqs IH]; intros m; cbn [emit_all]; [by rw app_nil_r|].
    destruct (handle_request_answers m r) as [H1 H2].
    destruct (handle_request m r) as [m1 evs]; cbn [fst snd] in *. destruct (IH m1) as [H3 H4].
    rw !omap_app bind_cons assoc -(assoc app (omap granted evs)) -(assoc app (omap answered evs)).
    split; [|by rw -H1 H4 assoc].
    etransitivity; [apply sublist_app; [reflexivity|exact H3]|].
    rw assoc. by apply sublist_app. }
  specialize (Hgen m0). by rw Ep0 in Hgen.
Qed.

(** ** Accounting *)

(** The number of pairs of a byte below [n] and a range that holds it. *)
Fixpoint held (n : nat) (l : list FreeRange) : nat :=
  match n with O => 0 | S n => cnt (N.of_nat n) l + held n l end.

Definition bytes (l : list FreeRange) : N := foldr (λ r s, range_len r + s) 0 l.

Lemma held_one n r :
  start r <= end_ r →
  held n [r] = (Nat.min n (N.to_nat (end_ r)) - Nat.min n (N.to_nat (start r)))%nat.
Proof.
  intros Hr. induction n as [|n IH]; [done|]. cbn [held]. rw IH cnt_cons /holds.
  change (cnt _ []) with 0%nat.
  destruct (N.leb_spec (start r) (N.of_nat n)), (N.ltb_spec (N.of_nat n) (end_ r)); cbn [andb]; lia.
Qed.

Lemma held_cons n r l : held n (r :: l) = (held n [r] + held n l)%nat.
Proof.
  induction n as [|n IH]; [done|]. cbn [held]. rw IH (cnt_cons _ r l) (cnt_cons _ r []).
  change (cnt _ []) with 0%nat. lia.
Qed.

Lemma held_bytes C l :
  Forall (λ r, start r <= end_ r ∧ (end_ r <= C ∨ start r = end_ r)) l → N.of_nat (held (N.to_nat C) l) = bytes l.
Proof.
  induction 1 as [|r l [H1 H2] _ IH]; [by induction (N.to_nat C)|].
  rw held_cons Nat2N.inj_add IH held_one //.
  change (bytes (r :: l)) with (range_len r + bytes l). unfold range_len. lia.
Qed.

Lemma bytes_app l l' : bytes (l ++ l') = bytes l + bytes l'.
Proof.
  induction l as [|r l IH]; [done|]. change (range_len r + bytes (l ++ l') = range_len r + bytes l + bytes l').
  rw IH. lia.
Qed.

Lemma partition_bytes C l :
  Forall (λ r, start r <= end_ r) l → (∀ b, cnt b l = inside C b) → bytes l = C.
Proof.
  intros Hw Hc.
  rw -(held_bytes C).
  - apply Forall_forall. intros r Hr. rw Forall_forall in Hw. pose proof (Hw r Hr). split; [done|].
    destruct (N.leb_spec (end_ r) C) as [|Hlt]; [by left|]. right.
    destruct (decide (start r = end_ r)) as [|Hne]; [done|].
    pose proof (cnt_in (N.max (start r) C) r l Hr) as Hin. rw Hc /inside in Hin.
    rw (proj2 (N.ltb_ge _ _)) in Hin; [lia|]. rw (proj2 (holds_spec _ _)) in Hin; [lia|].
    specialize (Hin eq_refl). lia.
  - clear Hw. assert (∀ n, (n ≤ N.to_nat C)%nat → held n l = n) as Hh.
    { induction n as [|n IH]; intros Hn; [done|]. cbn [held]. rw IH; [lia|].
      rw Hc /inside (proj2 (N.ltb_lt _ _)); lia. }
    rw Hh; lia.
Qed.

Lemma sum_ranges l s :
  s + bytes l <= u64_max → foldl (λ s r, s +64 range_len r) s l = s + bytes l.
Proof.
  revert s; induction l as [|r l IH]; intros s Hs; [simpl; lia|].
  change (bytes (r :: l)) with (range_len r + bytes l) in *. cbn [foldl].
  assert (s +64 range_len r = s + range_len r) as ->.
  { apply u64_add_small. unfold u64_modulus. unfold u64_max in Hs. lia. }
  rw IH; lia.
Qed.

(** The arena's figures are exact: after any history, the bytes reported free and those
    reported live add up to the capacity, and the live ones are the sizes of the leased
    ranges; the 64-bit sum does not wrap. *)
Theorem sample_exact backing c m0 reqs :
  boot backing c = inr m0 → N.of_nat (length reqs) < u64_max →
  reservation_ceiling c <= u64_max →
  let m := (emit_all handle_request m0 reqs).1 in
  capacity_bytes (sample m) = reservation_ceiling c ∧
  free_bytes (sample m) = bytes (free_ranges m) ∧
  live_bytes (sample m) = bytes (leased_ranges m) ∧
  live_bytes (sample m) + free_bytes (sample m) = capacity_bytes (sample m).
Proof.
  intros Hb Hn HC m. destruct (boot_ok _ _ _ Hb) as (Hm0 & Hq0 & Ec0 & _).
  destruct (history_ok reqs m0 0 Hm0 Hq0 Hn) as (Hm & _ & Ec). fold m in Hm, Ec. rw Ec0 in Ec.
  assert (bytes (free_ranges m) + bytes (leased_ranges m) = reservation_ceiling c) as Hsum.
  { rw -bytes_app. apply partition_bytes.
    - apply Forall_app. split; [|apply Hm]. apply Forall_forall. intros r Hr.
      pose proof (ordered_bounds _ _ _ _ (co_ordered _ Hm) Hr). lia.
    - intros b. by rw (co_partition _ Hm) Ec. }
  unfold sample. cbn [capacity_bytes free_bytes live_bytes].
  rw sum_ranges; [lia|]. rw Ec. lia.
Qed.

(** ** A history *)

(** Two rings fill an arena of 1024 bytes; a third request waits until the first ring is
    released, and a fourth, which would fit at once, waits behind it. *)
Definition example_config : ArenaConfig := mkArenaConfig 7 1024 64.

Definition example_requests : list ArenaRequest :=
  [RequestLease (mkLeaseRing 1 (mkRingSpec 128 256 96));
   RequestLease (mkLeaseRing 2 (mkRingSpec 128 128 64));
   RequestLease (mkLeaseRing 3 (mkRingSpec 128 300 64));
   RequestLease (mkLeaseRing 4 (mkRingSpec 64 0 64));
   RequestLease (mkLeaseRing 5 (mkRingSpec 128 4096 64));
   ReleaseRing 1 true].

Definition example_arena : ArenaManager :=
  mkArenaManager example_config Ready 1 [mkFreeRange 0 1024] [] [] ∅ 0 0.

Lemma arena_partition_witness :
  let x := emit_all handle_request example_arena example_requests in
  (∀ b, cnt b (free_ranges x.1 ++ leased_ranges x.1) = inside 1024 b) ∧
  omap answered x.2 = [1; 2; 5; 3; 4] ∧ omap granted x.2 = [1; 2; 3; 4] ∧
  length (live_order x.1) = 3%nat.
Proof.
  intros x. split; [|by vm_compute].
  apply (arena_partition true example_config example_arena example_requests);
    [by vm_compute|by vm_compute|].
  intros r Hr. unfold example_requests in Hr. repeat (apply elem_of_cons in Hr as [[= ->]|Hr]; [done|]).
  repeat (apply elem_of_cons in Hr as [[=]|Hr]). by apply elem_of_nil in Hr.
Defined.

Lemma waiting_implies_leased_witness :
  let m := (emit_all handle_request example_arena
              (example_requests ++ [ReleaseRing 2 true; ReleaseRing 3 true; ReleaseRing 4 true])).1 in
  pending m = [] ∧ free_ranges m = [mkFreeRange 0 1024].
Proof.
  intros m. apply (waiting_implies_leased true example_config example_arena
    (example_requests ++ [ReleaseRing 2 true; ReleaseRing 3 true; ReleaseRing 4 true])); by vm_compute.
Defined.

Lemma served_in_order_witness :
  let x := emit_all handle_request example_arena example_requests in
  omap granted x.2 ++ waiting (pending x.1) `sublist_of` example_requests ≫= requested ∧
  omap answered x.2 ++ waiting (pending x.1) ≡ₚ [1; 2; 3; 4; 5].
Proof.
  intros x. destruct (served_in_order true example_config example_arena example_requests) as [H1 H2];
    [by vm_compute|]. split; [exact H1|exact H2].
Defined.

Lemma sample_exact_witness :
  let m := (emit_all handle_request example_arena example_requests).1 in
  live_bytes (sample m) = bytes (leased_ranges m) ∧ live_bytes (sample m) = 748 ∧
  live_bytes (sample m) + free_bytes (sample m) = 1024.
Proof.
  intros m.
  destruct (sample_exact true example_config example_arena example_requests) as (H1 & H2 & H3 & H4);
    [by vm_compute..|]. split; [exact H3|]. split; [by vm_compute|].
  rw H1 in H4. exact H4.
Defined.
