(* ===== verification/RingInstall.v ===== *)
(** * Installing and attaching byte rings

    [install], [attach], [attach_mapped] and [mark_peer_terminated_mapped] of
    [crates/data-plane/src/byte_ring.rs], on the arena of [arena.rs], and the calls of the
    arena's owner in [host.rs] that lease and release the ring of a stream.  What [pwrite]
    does is a parameter: the number of bytes it wrote. *)

From S2P Require Import Prelude Memory ByteRing RingStream RingLogic RingProducer RingConsumer RingSafety.
From S2P Require Import Arena ArenaSafety.
#[local] Open Scope N_scope.

Definition ZERO_CHUNK : N := 4096.

Record ByteRingSpec := mkByteRingSpec {
  s_capacity : N;
  s_generation : N;
  s_alignment : N;
  s_request_id : N;
}.

Inductive InstallError :=
  | ZeroCapacity
  | ZeroGeneration
  | ZeroAlignment
  | LeaseRejected (reason : RingLeaseRejection)
  | LeaseQueued
  | UnexpectedLeaseOutcome
  | IoError.

Inductive AttachError :=
  | OutOfBounds (end_ arena_len : N)
  | HeaderInvalid (e : HeaderError).

(** [byte_ring::lease_ring]. *)
Definition lease_for_ring (m : ArenaManager) (request_id : N) (spec : RingSpec)
    : ArenaManager * (InstallError + RingLease) :=
  let '(m, events) := handle_request m (RequestLease (mkLeaseRing request_id spec)) in
  (m, match events with
      | [RingLeased lease] => inr lease
      | [RingLeaseRejected _ reason] => inl (LeaseRejected reason)
      | [RingLeaseQueued _] => inl LeaseQueued
      | _ => inl UnexpectedLeaseOutcome
      end).

Section Install.
Variable pwrite : N → list N → N.

(** [ArenaBacking::write_at]. *)
Definition write_arena (off : N) (bytes : list N) : prog (InstallError + unit) :=
  let written := pwrite off bytes in
  Store off (take (N.to_nat written) bytes)
    (Ret (if written =? N.of_nat (length bytes) then inr tt else inl IoError)).

(** The loop that zeroes the data region; [fuel] is its number of chunks. *)
Fixpoint zero_data (fuel : nat) (off data_end : N) : prog (InstallError + unit) :=
  if data_end <=? off then Ret (inr tt)
  else
    match fuel with
    | O => Ret (inr tt)
    | S fuel =>
        let take := N.min (data_end - off) ZERO_CHUNK in
        write_arena off (replicate (N.to_nat take) 0) ;?
        zero_data fuel (off + take) data_end
    end.

Definition chunks (n : N) : nat := N.to_nat (n / ZERO_CHUNK + 1).

Definition write_ring (spec : ByteRingSpec) (lease : RingLease) : prog (InstallError + RingHandle) :=
  let data_start := start_offset (layout lease) + DATA_OFFSET in
  let data_end := end_offset (layout lease) in
  zero_data (chunks (data_end - data_start)) data_start data_end ;?
  write_arena (start_offset (layout lease)) (header_image (s_capacity spec) (s_generation spec)) ;?
  Ret (inr (mkRingHandle (start_offset (layout lease)) (s_capacity spec) (s_generation spec)
              (ring_id lease))).

Definition install (m : ArenaManager) (spec : ByteRingSpec)
    : ArenaManager * prog (InstallError + RingHandle) :=
  if s_capacity spec =? 0 then (m, Ret (inl ZeroCapacity)) else
  if s_generation spec =? 0 then (m, Ret (inl ZeroGeneration)) else
  if s_alignment spec =? 0 then (m, Ret (inl ZeroAlignment)) else
  let '(m, r) := lease_for_ring m (s_request_id spec)
                   (mkRingSpec DATA_OFFSET (s_capacity spec) (s_alignment spec)) in
  (m, match r with
      | inl err => Ret (inl err)
      | inr lease => write_ring spec lease
      end).

End Install.

(** The validation that [attach] and [attach_mapped] share. *)
Definition open_endpoint (h : RingHandle) (r : Role) : prog (AttachError + Endpoint) :=
  let e := mkEndpoint (offset h) h r in
  map_err HeaderInvalid (validate_fixed e) ;?
  map_err HeaderInvalid (validate_generation e (generation h)) ;?
  map_err HeaderInvalid (validate_cursors e) ;?
  Ret (inr e).

(** [attach]: [region_ptr] checks again, against the length of the mapping. *)
Definition attach (arena_len backing_len : N) (h : RingHandle) (r : Role)
    : prog (AttachError + Endpoint) :=
  match checked_add (offset h) DATA_OFFSET ≫= λ v, checked_add v (capacity h) with
  | None => Ret (inl (OutOfBounds u64_max arena_len))
  | Some end_ =>
      if arena_len <? end_ then Ret (inl (OutOfBounds end_ arena_len)) else
      match checked_add (offset h) (DATA_OFFSET + capacity h) with
      | Some region_end =>
          if backing_len <? region_end then Ret (inl (OutOfBounds end_ arena_len))
          else open_endpoint h r
      | None => Ret (inl (OutOfBounds end_ arena_len))
      end
  end.

(** [MappedArena::checked_range]. *)
Definition checked_range (len off length : N) : option (N * N) :=
  end_ ← checked_add off length;
  if len <? end_ then None else Some (off, end_).

Definition mapped_range (len : N) (h : RingHandle) : AttachError + (N * N) :=
  match checked_add DATA_OFFSET (capacity h) with
  | None => inl (OutOfBounds u64_max len)
  | Some total =>
      match checked_range len (offset h) total with
      | None => inl (OutOfBounds (u64_saturating_add (offset h) total) len)
      | Some range => inr range
      end
  end.

Definition attach_mapped (len : N) (h : RingHandle) (r : Role) : prog (AttachError + Endpoint) :=
  match mapped_range len h with
  | inl err => Ret (inl err)
  | inr _ => open_endpoint h r
  end.

(** [mark_peer_terminated_mapped], up to its [fetch_max]: the value to store. *)
Definition mark_peer_terminated_mapped (len : N) (h : RingHandle) (t : PeerTermination) (m : Mem)
    : AttachError + Mem :=
  let e := mkEndpoint (offset h) h Producer in
  match mapped_range len h with
  | inl err => inl err
  | inr _ =>
      match exec (map_err HeaderInvalid (validate_fixed e) ;?
                  map_err HeaderInvalid (validate_generation e (generation h))) m with
      | Some (inl err, _) => inl err
      | _ => inr (fetch_max m (offset h + OFF_TERMINAL) (mark_value t))
      end
  end.

(** ** Memory outside a program's reach *)

Lemma exec_outside {A} lo hi (p : prog A) m a m' :
  confined lo hi p → exec p m = Some (a, m') → ∀ x, ¬ (lo ≤ x ∧ x < hi) → m' x = m x.
Proof.
  rw /confined. elim: p m => [b|pos n k IH|pos bs k IH|] m //=.
  - by move=> _ [_ <-].
  - move=> [H1 [H2 H3]]. apply IH. apply H3. apply length_mread.
  - move=> [H1 [H2 H3]] He x Hx. rw (IH _ H3 He) //. apply mwrite_out. lia.
Qed.

Lemma represents_agree h s m m' :
  (∀ x, offset h ≤ x → x < offset h + DATA_OFFSET + capacity h → m' x = m x) →
  represents h s m → represents h s m'.
Proof.
  move=> Hx Hr.
  have Hf off n v : off + n ≤ DATA_OFFSET → field h m off n v → field h m' off n v.
  { move=> Ho. rw /field => <-. f_equal. apply mread_ext => i Hi. apply Hx; lia. }
  split; try (by apply Hf; [|case: Hr]); try (by case: Hr).
  move=> p b Hp Hb. have Hc := rep_nonempty _ _ _ Hr. rw Hx.
  - rw /cell. move: (N.of_nat p mod capacity h) => x. lia.
  - rw /cell. move: (N.mod_lt (N.of_nat p) (capacity h) ltac:(lia)).
    move: (N.of_nat p mod capacity h) => x. lia.
  - by apply (rep_bytes _ _ _ Hr).
Qed.

(** The ring of [h] is in the live lease that [h] names. *)
Definition housed (m : ArenaManager) (h : RingHandle) (l : RingLease) : Prop :=
  l ∈ live_order m ∧ ring_id l = lease_id h ∧ start_offset (layout l) = offset h ∧
  offset h + DATA_OFFSET + capacity h ≤ end_offset (layout l).

Lemma housed_apart m h1 h2 l1 l2 x :
  core_ok m → housed m h1 l1 → housed m h2 l2 → lease_id h1 ≠ lease_id h2 →
  offset h2 ≤ x → x < offset h2 + DATA_OFFSET + capacity h2 →
  ¬ (offset h1 ≤ x ∧ x < offset h1 + DATA_OFFSET + capacity h1).
Proof.
  move=> Hm [H1 [I1 [S1 E1]]] [H2 [I2 [S2 E2]]] Hne Ha Hb [Hc Hd].
  apply (live_disjoint m l1 l2 x) => //; [by rw I1 I2|by apply holds_spec; cbn; lia..].
Qed.

(** Rings of one arena do not interfere: after any history of requests, a call on one
    ring, in whatever state the memory is, leaves every other ring carrying the stream
    it carried. *)
Theorem rings_isolated backing c m0 reqs h1 h2 l1 l2 s mem :
  boot backing c = inr m0 → N.of_nat (length reqs) < u64_max →
  let m := (emit_all handle_request m0 reqs).1 in
  housed m h1 l1 → housed m h2 l2 → lease_id h1 ≠ lease_id h2 →
  represents h2 s mem →
  (∀ op r mem', producer_bounded h1 op →
     exec (producer_prog (producer h1) op) mem = Some (r, mem') → represents h2 s mem') ∧
  (∀ op r mem', consumer_bounded h1 op →
     exec (consumer_prog (consumer h1) op) mem = Some (r, mem') → represents h2 s mem').
Proof.
  move=> Hb Hn m H1 H2 Hne Hr. have [Hm0 [Hq0 _]] := boot_ok _ _ _ Hb.
  have [Hm _] := history_ok reqs m0 0 Hm0 Hq0 Hn.
  have Hgo (p : prog Res) r mem' :
    confined (offset h1) (offset h1 + DATA_OFFSET + capacity h1) p →
    exec p mem = Some (r, mem') → represents h2 s mem'.
  { move=> Hp He. apply: (represents_agree _ _ mem) Hr => x Ha Hx.
    apply (exec_outside _ _ _ _ _ _ Hp He). by apply: housed_apart H1 H2 Hne Ha Hx. }
  split=> op r mem' Hop He; apply: Hgo He; [by apply producer_confined|by apply consumer_confined].
Qed.

(** ** Installing *)

(** [pwrite] on a range inside the backing file writes all of it. *)
Definition writes_all (pwrite : N → list N → N) (len : N) : Prop :=
  ∀ off bs, off + N.of_nat (length bs) ≤ len → pwrite off bs = N.of_nat (length bs).

Lemma exec_write_arena pwrite len off bs m :
  writes_all pwrite len → off + N.of_nat (length bs) ≤ len →
  exec (write_arena pwrite off bs) m = Some (inr tt, mwrite m off bs).
Proof.
  move=> Hw Hle. rw /write_arena /=. by rw (Hw off bs) // N.eqb_refl Nat2N.id take_ge.
Qed.

Lemma exec_zero_data pwrite len fuel off data_end m :
  writes_all pwrite len → data_end ≤ len → data_end - off ≤ N.of_nat fuel * ZERO_CHUNK →
  ∃ m', exec (zero_data pwrite fuel off data_end) m = Some (inr tt, m') ∧
    (∀ x, ¬ (off ≤ x ∧ x < data_end) → m' x = m x) ∧
    (∀ x, off ≤ x → x < data_end → m' x = 0).
Proof.
  move=> Hw Hle. elim: fuel off m => [|fuel IH] off m Hf; cbn [zero_data].
  { case: N.leb_spec => Ho; exists m; repeat split => //; lia. }
  case: N.leb_spec => Ho; first by exists m; repeat split => //; lia.
  cbv zeta. rw /try_bind exec_bind. set n := N.min _ _.
  have Hn : 0 < n ∧ n ≤ data_end - off ∧ (n = data_end - off ∨ n = ZERO_CHUNK).
  { rw /n /ZERO_CHUNK. lia. }
  have Hlen : N.of_nat (length (replicate (N.to_nat n) 0)) = n by rw length_replicate; lia.
  rw (exec_write_arena _ len) //; first by rw Hlen; lia.
  cbn [mbind option_bind].
  have [m' [He [Hout Hin]]] := IH (off + n) (mwrite m off (replicate (N.to_nat n) 0)) ltac:(lia).
  exists m'. split; [done|]. split=> x.
  - move=> Hx. rw Hout; first by lia. apply mwrite_out. rw Hlen. lia.
  - move=> Ha Hb. have [Hx|Hx] := N.lt_ge_cases x (off + n).
    + rw Hout; first lia. have -> : x = off + N.of_nat (N.to_nat (x - off)) by lia.
      apply mwrite_in. apply lookup_replicate_2. lia.
    + by apply Hin.
Qed.

Lemma exec_write_ring pwrite len spec lease m :
  writes_all pwrite len → end_offset (layout lease) ≤ len → len ≤ u64_max →
  0 < s_capacity spec → s_generation spec ≤ u64_max →
  start_offset (layout lease) + DATA_OFFSET + s_capacity spec ≤ end_offset (layout lease) →
  let h := mkRingHandle (start_offset (layout lease)) (s_capacity spec) (s_generation spec)
             (ring_id lease) in
  ∃ m', exec (write_ring pwrite spec lease) m = Some (inr h, m') ∧
    represents h (mkStream [] 0 0) m' ∧
    ∀ x, ¬ (start_offset (layout lease) ≤ x ∧ x < end_offset (layout lease)) → m' x = m x.
Proof.
  move=> Hw Hend Hlen Hc Hg Hfit h. rw /write_ring /try_bind exec_bind.
  set start := start_offset (layout lease) in Hfit h *. set end_ := end_offset (layout lease) in Hend Hfit *.
  have Hfuel : end_ - (start + DATA_OFFSET) ≤
    N.of_nat (chunks (end_ - (start + DATA_OFFSET))) * ZERO_CHUNK.
  { rw /chunks N2Nat.id. have := N.div_mod (end_ - (start + DATA_OFFSET)) ZERO_CHUNK ltac:(done).
    have := N.mod_lt (end_ - (start + DATA_OFFSET)) ZERO_CHUNK ltac:(done). lia. }
  have [m1 [-> [Hout _]]] := exec_zero_data pwrite len _ (start + DATA_OFFSET) end_ m Hw Hend Hfuel.
  cbn [mbind option_bind]. rw exec_bind.
  have Hl : N.of_nat (length (header_image (s_capacity spec) (s_generation spec))) = DATA_OFFSET by [].
  rw (exec_write_arena _ len) //; first by rw Hl; lia. cbn [mbind option_bind exec].
  eexists. split; [done|]. split.
  - apply represents_fresh => //; first by cbn; lia.
    cbn [offset capacity generation h]. by apply mread_mwrite_same.
  - move=> x Hx. rw mwrite_out; first by rw Hl; lia. apply Hout. lia.
Qed.

Lemma exec_open h r s m :
  represents h s m → exec (open_endpoint h r) m = Some (inr (mkEndpoint (offset h) h r), m).
Proof.
  move=> [] Hmagic Hver Hres Hcap Hgen Hcom Hcon _ _ _ _ Hord Hroom _ _.
  rw /field in Hmagic, Hver, Hres, Hcap, Hgen, Hcom, Hcon. rw /open_endpoint.
  cbn -[N.add le_value mread]. rw Hmagic N.eqb_refl. cbn -[N.add le_value mread].
  rw Hver N.eqb_refl. cbn -[N.add le_value mread]. rw Hres N.eqb_refl.
  cbn -[N.add le_value mread]. rw Hcap N.eqb_refl. cbn -[N.add le_value mread].
  rw Hgen N.eqb_refl. cbn -[N.add le_value mread]. rw Hcom Hcon.
  have -> : (committed s <? taken s) = false by apply N.ltb_ge.
  by have -> : (capacity h <? committed s - taken s) = false by apply N.ltb_ge; lia.
Qed.

(** What leasing for a ring does to the arena. *)
Lemma lease_for_ring_ok n m id spec m' r :
  core_ok m → queue_ok n m → n + 1 < u64_max → lease_for_ring m id spec = (m', r) →
  config m' = config m ∧ core_ok m' ∧
  match r with
  | inr lease => live_order m' = live_order m ++ [lease] ∧
      ∃ s, request_layout_at (config m) spec s = Some (layout lease)
  | inl err => live_order m' = live_order m ∧ err ≠ IoError ∧ err ≠ UnexpectedLeaseOutcome
  end.
Proof.
  move=> Hm Hq Hn. rw /lease_for_ring. cbn [handle_request].
  have [Hm' [_ Hc']] := lease_ring_ok n m (mkLeaseRing id spec) Hm Hq Hn.
  rw /lease_ring in Hm' Hc' |- *. move: Hm' Hc'. cbn [lr_request_id ring_spec].
  case: (state m); last by move=> ? ? [<- <-].
  case: (request_layout_at (config m) spec 0) => [l|]; last by move=> ? ? [<- <-].
  case: (bool_decide _); last by move=> ? ? [<- <-].
  case Ha: (try_allocate m _) => [m1 [lease|]] /= Hm' Hc' [<- <-].
  - have [_ [_ [_ [_ [_ [Hl [_ Hs]]]]]]] := try_allocate_Some _ _ _ _ Hm Ha.
    split; [done|]. by split; [|split].
  - have Hi := qo_ids _ _ Hq. apply try_allocate_None in Ha as [-> _]; [done|lia].
Qed.

(** C31. A ring that was installed is ready: if [install] leases a range, the ring
    carries the empty stream, either endpoint attaches to it, it lies inside a new lease
    of its own, and no byte of another lease was changed; otherwise it reports why and
    changed no byte of memory and no lease. It relies on [pwrite] writing all of a range
    inside the file. *)
Theorem install_ready backing c m0 reqs pwrite mem spec :
  boot backing c = inr m0 → N.of_nat (length reqs) + 1 < u64_max →
  writes_all pwrite (reservation_ceiling c) → reservation_ceiling c ≤ u64_max →
  s_generation spec ≤ u64_max →
  let m := (emit_all handle_request m0 reqs).1 in
  let m' := (install pwrite m spec).1 in
  match exec (install pwrite m spec).2 mem with
  | Some (inr h, mem') =>
      represents h (mkStream [] 0 0) mem' ∧ capacity h = s_capacity spec ∧
      (∃ l, live_order m' = live_order m ++ [l] ∧ housed m' h l) ∧
      (∀ r, exec (attach (reservation_ceiling c) (reservation_ceiling c) h r) mem' =
              Some (inr (mkEndpoint (offset h) h r), mem')) ∧
      (∀ l x, l ∈ live_order m → holds x (layout_range (layout l)) = true → mem' x = mem x)
  | Some (inl err, mem') =>
      mem' = mem ∧ live_order m' = live_order m ∧ err ≠ IoError ∧ err ≠ UnexpectedLeaseOutcome
  | None => False
  end.
Proof.
  move=> Hb Hn Hw Hwide Hg m m'. have [Hm0 [Hq0 [Hc0 _]]] := boot_ok _ _ _ Hb.
  have [Hm [Hq Hcm]] := history_ok reqs m0 0 Hm0 Hq0 ltac:(lia). rw Hc0 in Hcm.
  rw /m' /install. case: (N.eqb_spec (s_capacity spec) 0) => [//|Hcap].
  case: (_ =? 0) => //. case: (_ =? 0) => //.
  case Hlease: (lease_for_ring _ _ _) => [m1 [err|lease]];
    have [Hc1 [Hm1 Hrest]] := lease_for_ring_ok _ _ _ _ _ _ Hm Hq ltac:(lia) Hlease; cbn [fst snd].
  { by split. }
  move: Hrest => [Hlive [s Hs]]. rw Hcm in Hs.
  have [_ [_ [_ [Hal [Hend [_ [Hceil _]]]]]]] := layout_at_inv _ _ _ _ Hs.
  apply align_up_spec in Hal as [_ [Hal _]]. cbn [header_bytes spec_data_bytes] in Hal, Hend.
  have [mem' [-> [Hrep Hout]]] := exec_write_ring pwrite _ spec lease mem Hw Hceil Hwide
    ltac:(lia) Hg ltac:(lia).
  have Hin : lease ∈ live_order m1 by rw Hlive; apply elem_of_app; right; apply list_elem_of_singleton.
  split; [done|]. split; [done|]. split.
  { exists lease. split; [done|]. split; [done|]. split; [done|]. split; [done|]. cbn. lia. }
  split.
  - move=> r. rw /attach. cbn [offset capacity].
    have Hadd x y : x + y ≤ reservation_ceiling c → checked_add x y = Some (x + y).
    { move=> Hxy. apply checked_add_Some. lia. }
    rw Hadd; first lia. cbn [mbind option_bind]. rw !Hadd; [lia..|].
    do 2 (case: N.ltb_spec => [?|_]; first lia). by apply exec_open with (s := mkStream [] 0 0).
  - move=> l x Hl Hx. apply Hout => -[Ha Hb'].
    apply (live_disjoint m1 l lease x) => //; [by rw Hlive; apply elem_of_app; left| |].
    + move=> Heq. have := co_unique _ Hm1. rw Hlive fmap_app. move=> /NoDup_app [_ [Hd _]].
      apply (Hd (ring_id l)); [by apply list_elem_of_fmap; exists l|].
      rw Heq. apply list_elem_of_singleton. done.
    + by apply holds_spec.
Qed.

(** ** The host's allocator

    [ArenaAllocatorActor] of [host.rs]: the calls that lease the ring of a stream and release
    it, with the counters they draw from. *)

Record Allocator := mkAllocator {
  arena : ArenaManager;
  next_request_id : N;
  next_generation : N;
}.

Inductive DataPlaneError :=
  | ArenaExhausted
  | RequestIdExhausted
  | GenerationExhausted
  | InstallationFailed (e : InstallError)
  | LeaseNotLive
  | HandleMismatch
  | ReleaseRejected.

Section Allocator.
Variable pwrite : N → list N → N.

Definition allocate_stream (a : Allocator) (capacity : N)
    : Allocator * prog (DataPlaneError + RingHandle) :=
  match checked_add (next_request_id a) 1 with
  | None => (a, Ret (inl RequestIdExhausted))
  | Some next =>
      match checked_add (next_generation a) 1 with
      | None => (mkAllocator (arena a) next (next_generation a), Ret (inl GenerationExhausted))
      | Some next_gen =>
          let '(m, p) := install pwrite (arena a)
            (mkByteRingSpec capacity (next_generation a) 64 (next_request_id a)) in
          (mkAllocator m next next_gen,
           map_err (λ err, match err with
                           | LeaseRejected _ | LeaseQueued => ArenaExhausted
                           | err => InstallationFailed err
                           end) p)
      end
  end.

Definition release_stream (a : Allocator) (ring : RingHandle) : Allocator * (DataPlaneError + unit) :=
  match lookup_lease (arena a) (lease_id ring) with
  | None => (a, inl LeaseNotLive)
  | Some allocation =>
      if negb (start_offset (layout allocation) =? offset ring) ||
         negb (data_bytes (layout allocation) =? capacity ring)
      then (a, inl HandleMismatch)
      else
        let '(m, events) := handle_request (arena a) (ReleaseRing (lease_id ring) true) in
        (mkAllocator m (next_request_id a) (next_generation a),
         match events with
         | [RingReleased _ _ _] => inr tt
         | _ => inl ReleaseRejected
         end)
  end.

End Allocator.

Lemma release_quiet m id index l :
  pending m = [] → live_index m !! id = Some index → live_order m !! index = Some l →
  ∃ m', release_ring m id true =
      (m', [RingReleased id (start_offset (layout l)) (end_offset (layout l))]) ∧
    live_order m' = delete index (live_order m) ∧ live_index m' = index_of (live_order m').
Proof.
  move=> Hp Hi Hl. rw /release_ring Hi Hl. cbn [negb]. set m1 := insert_free_range _ _.
  have Hp1 : pending m1 = [] by []. case: (state m1); [rw /retry_pending_leases Hp1|]; by eexists.
Qed.

Lemma delete_live m index l :
  NoDup (ring_id <$> live_order m) → live_order m !! index = Some l →
  ∀ l', l' ∈ delete index (live_order m) ↔ l' ∈ live_order m ∧ ring_id l' ≠ ring_id l.
Proof.
  move=> Hnd Hl l'. have Hp := delete_Permutation _ _ _ Hl. rw {1}Hp in Hnd. rw {2}Hp elem_of_cons.
  cbn [fmap list_fmap] in Hnd. apply NoDup_cons in Hnd as [Hni _]. split.
  - move=> Hin. split; [by right|]. move=> He. apply Hni. rw -He. apply list_elem_of_fmap. by exists l'.
  - by move=> [[->|]].
Qed.

(** While no request is queued, the ring of a stream is released exactly once: for a
    handle whose lease is live, [release_stream] succeeds, frees that lease and no
    other, and a second release of the handle fails. *)
Theorem stream_released backing c m0 reqs h l i g :
  boot backing c = inr m0 → N.of_nat (length reqs) < u64_max →
  let m := (emit_all handle_request m0 reqs).1 in
  pending m = [] → housed m h l → data_bytes (layout l) = capacity h →
  let x := release_stream (mkAllocator m i g) h in
  x.2 = inr tt ∧
  (∀ l', l' ∈ live_order (arena x.1) ↔ l' ∈ live_order m ∧ ring_id l' ≠ lease_id h) ∧
  (release_stream x.1 h).2 = inl LeaseNotLive.
Proof.
  move=> Hb Hn m Hpend [Hin [Hid [Hst Hend]]] Hdata.
  have [Hm0 [Hq0 _]] := boot_ok _ _ _ Hb. have [Hm _] := history_ok reqs m0 0 Hm0 Hq0 Hn.
  rw -/m in Hm. have [index Hl] := list_elem_of_lookup_1 _ _ Hin.
  have Hix : live_index m !! lease_id h = Some index.
  { rw (co_index _ Hm) -Hid. by apply index_of_complete; [apply (co_unique _ Hm)|]. }
  have [m' [Hrel [Hlive Hidx]]] := release_quiet _ _ _ _ Hpend Hix Hl.
  have Hrs : release_stream (mkAllocator m i g) h = (mkAllocator m' i g, inr tt).
  { rw /release_stream /lookup_lease. cbn [arena]. rw Hix. cbn [mbind option_bind]. rw Hl Hst Hdata.
    rw !N.eqb_refl. cbn [negb orb handle_request]. by rw Hrel. }
  have Hdel := delete_live _ _ _ (co_unique _ Hm) Hl. rw -Hlive Hid in Hdel.
  rw Hrs. cbn [fst snd arena]. split; [done|]. split; [done|].
  rw /release_stream /lookup_lease. cbn [arena].
  case Hlk: (live_index m' !! lease_id h) => [j|] //. rw Hidx in Hlk.
  apply index_of_lookup in Hlk as [l' [Hl' Hid']]. apply list_elem_of_lookup_2 in Hl'.
  by apply Hdel in Hl' as [_ Hne].
Qed.

(** ** Executions *)

Definition full_pwrite (off : N) (bs : list N) : N := N.of_nat (length bs).

Lemma full_pwrite_all n : writes_all full_pwrite n.
Proof. done. Qed.

Definition two_rings : list ArenaRequest :=
  [RequestLease (mkLeaseRing 1 (mkRingSpec 128 16 64)); RequestLease (mkLeaseRing 2 (mkRingSpec 128 16 64))].

Lemma install_ready_witness :
  let x := install full_pwrite (emit_all handle_request example_arena two_rings).1
             (mkByteRingSpec 32 7 64 3) in
  match exec x.2 (λ _, 1) with
  | Some (inr h, mem') => represents h (mkStream [] 0 0) mem' ∧ offset h = 384
  | _ => False
  end.
Proof.
  intros x.
  pose proof (install_ready true example_config example_arena two_rings full_pwrite (λ _, 1)
    (mkByteRingSpec 32 7 64 3) eq_refl ltac:(by vm_compute) (full_pwrite_all _) ltac:(by vm_compute)
    ltac:(by vm_compute)) as H. cbv zeta in H. fold x in H.
  assert (match exec x.2 (λ _, 1) with Some (inr h, _) => offset h =? 384 | _ => false end = true)
    as Hok by by vm_compute.
  destruct (exec x.2 (λ _, 1)) as [[[err|h] mem']|]; [done| |done].
  split; [by destruct H|by apply N.eqb_eq].
Defined.

(** Two rings installed next to each other. *)
Definition ring_at (off id : N) : RingHandle := mkRingHandle off 16 1 id.
Definition lease_at (off id : N) : RingLease :=
  mkRingLease id id 7 (mkRingLayout off off (off + 128) (off + 144) 16 64) 64.
Definition two_mem : Mem :=
  mwrite (mwrite (λ _, 0) 0 (header_image 16 1)) 192 (header_image 16 1).

Lemma housed_at off id :
  lease_at off id ∈ live_order (emit_all handle_request example_arena two_rings).1 →
  housed (emit_all handle_request example_arena two_rings).1 (ring_at off id) (lease_at off id).
Proof. move=> Hin. split; [done|]. split; [done|]. split; [done|]. cbn. rw /DATA_OFFSET. lia. Qed.

Lemma rings_isolated_witness :
  ∃ r mem', exec (producer_prog (producer (ring_at 0 1)) (SendRecord Data [1; 2; 3])) two_mem =
      Some (r, mem') ∧ r = inr Unit ∧ represents (ring_at 192 2) (mkStream [] 0 0) mem'.
Proof.
  assert (Hin : live_order (emit_all handle_request example_arena two_rings).1 =
    [lease_at 0 1; lease_at 192 2]) by by vm_compute.
  assert (Hr : represents (ring_at 192 2) (mkStream [] 0 0) two_mem).
  { apply represents_fresh; [by vm_compute..|]. by vm_compute. }
  destruct (rings_isolated true example_config example_arena two_rings (ring_at 0 1) (ring_at 192 2)
    (lease_at 0 1) (lease_at 192 2) (mkStream [] 0 0) two_mem) as [H _]; [done|by vm_compute| | |done|done|].
  - apply housed_at. rw Hin. by left.
  - apply housed_at. rw Hin. by right; left.
  - assert (match exec (producer_prog (producer (ring_at 0 1)) (SendRecord Data [1; 2; 3])) two_mem
      with Some (inr Unit, _) => true | _ => false end = true) as Hok by by vm_compute.
    destruct (exec _ two_mem) as [[r mem']|] eqn:E; [|done].
    exists r, mem'. split; [done|]. split; [by destruct r as [|[]]|].
    eapply (H (SendRecord Data [1; 2; 3])); [done|exact E].
Defined.

Lemma stream_released_witness :
  let x := release_stream (mkAllocator (emit_all handle_request example_arena two_rings).1 3 3)
             (ring_at 0 1) in
  x.2 = inr tt ∧ (release_stream x.1 (ring_at 0 1)).2 = inl LeaseNotLive.
Proof.
  intros x.
  destruct (stream_released true example_config example_arena two_rings (ring_at 0 1) (lease_at 0 1)
    3 3) as [H1 [_ H2]]; [done|by vm_compute|by vm_compute| |done|by split].
  apply housed_at.
  assert (live_order (emit_all handle_request example_arena two_rings).1 =
    [lease_at 0 1; lease_at 192 2]) as -> by by vm_compute.
  by left.
Defined.

(** An arena of 256 bytes, in which the ring of one stream fits and a second does not. *)
Definition tight_allocator : Allocator :=
  mkAllocator (mkArenaManager (mkArenaConfig 7 256 64) Ready 1 [mkFreeRange 0 256] [] [] ∅ 0 0) 1 1.

(** A stream refused for lack of room spoils the next release: [allocate_stream] answers
    [ArenaExhausted] but leaves the request queued in the arena, where releasing the
    first ring grants it. So [release_stream] reports that the arena rejected the
    release, and the room is held by a lease that nobody asked to keep. *)
Theorem refused_stream_spoils_release :
  let '(a1, p1) := allocate_stream full_pwrite tight_allocator 64 in
  let '(a2, p2) := allocate_stream full_pwrite a1 64 in
  match exec p1 (λ _, 0) with
  | Some (inr ring, mem1) =>
      (fst <$> exec p2 mem1) = Some (inl ArenaExhausted) ∧
      let '(a3, r) := release_stream a2 ring in
      r = inl ReleaseRejected ∧
      (request_id <$> live_order (arena a3)) = [2] ∧
      let '(_, p4) := allocate_stream full_pwrite a3 64 in
      (fst <$> exec p4 mem1) = Some (inl ArenaExhausted)
  | _ => False
  end.
Proof. vm_compute. repeat split. Qed.
