(* ===== verification/NodeModel.v ===== *)
(** * Nodes of a cluster

    [crates/provisioning/src/node.rs]: what a run asks for, the facts known of a node, and the
    commands that change them.  A [SystemTime] is its nanoseconds since the epoch.  Of an [f64] the
    code asks whether it is finite and whether two are equal, so a finite one is a name of its
    value. *)

From stdpp Require Import pretty.
From S2P Require Import Prelude.
#[local] Open Scope N_scope.

Abbreviation SystemTime := N (only parsing).
Abbreviation RunId := N (only parsing).
Abbreviation LogicalNodeId := string (only parsing).
Abbreviation BootstrapSessionId := N (only parsing).

Inductive F64 := Finite (value : N) | NonFinite.
#[export] Instance F64_eq_dec : EqDecision F64.
Proof. solve_decision. Defined.

Definition is_finite (x : F64) : bool := match x with Finite _ => true | NonFinite => false end.

Record ProviderMount := mkProviderMount {
  host_path : string;
  container_path : string;
  readonly : bool;
}.
#[export] Instance ProviderMount_eq_dec : EqDecision ProviderMount.
Proof. solve_decision. Defined.

Record DesiredNodeShape := mkDesiredNodeShape {
  image : string;
  disk_gb : N;
  gpu_name : option string;
  min_gpu_ram_mb : option N;
  min_down_mbps : option F64;
  min_up_mbps : option F64;
  min_reliability : option F64;
  require_verified : bool;
  provider_labels : gmap string string;
}.
#[export] Instance DesiredNodeShape_eq_dec : EqDecision DesiredNodeShape.
Proof. solve_decision. Defined.

Record BootSpec := mkBootSpec {
  ssh_user : string;
  verify_commands : list string;
  start_swactor_command : string;
  stdout_sources : list string;
  stderr_sources : list string;
  env : list (string * string);
  args : list string;
  mounts : list ProviderMount;
}.
#[export] Instance BootSpec_eq_dec : EqDecision BootSpec.
Proof. solve_decision. Defined.

Record SwarmJoinTemplate := mkSwarmJoinTemplate {
  t_orch_swactor_addr : string;
  t_join_token_ref : string;
}.
#[export] Instance SwarmJoinTemplate_eq_dec : EqDecision SwarmJoinTemplate.
Proof. solve_decision. Defined.

Record SwarmJoinSpec := mkSwarmJoinSpec {
  orch_swactor_addr : string;
  join_token_ref : string;
  expected_logical_node_id : LogicalNodeId;
}.
#[export] Instance SwarmJoinSpec_eq_dec : EqDecision SwarmJoinSpec.
Proof. solve_decision. Defined.

Record RunNodeGroupSpec := mkRunNodeGroupSpec {
  g_run_id : RunId;
  g_group_id : string;
  g_role : string;
  count : N;
  g_provider : string;
  g_shape : DesiredNodeShape;
  g_boot : BootSpec;
  g_swarm_join : SwarmJoinTemplate;
}.
#[export] Instance RunNodeGroupSpec_eq_dec : EqDecision RunNodeGroupSpec.
Proof. solve_decision. Defined.

Record LogicalNodeSpec := mkLogicalNodeSpec {
  s_run_id : RunId;
  logical_node_id : LogicalNodeId;
  s_group_id : string;
  s_role : string;
  provider : string;
  shape : DesiredNodeShape;
  boot : BootSpec;
  swarm_join : SwarmJoinSpec;
}.
#[export] Instance LogicalNodeSpec_eq_dec : EqDecision LogicalNodeSpec.
Proof. solve_decision. Defined.

Definition node_of_group (g : RunNodeGroupSpec) (index : N) : LogicalNodeSpec :=
  let id := g_group_id g +:+ "-" +:+ pretty index in
  mkLogicalNodeSpec (g_run_id g) id (g_group_id g) (g_role g) (g_provider g) (g_shape g) (g_boot g)
    (mkSwarmJoinSpec (t_orch_swactor_addr (g_swarm_join g)) (t_join_token_ref (g_swarm_join g)) id).

Definition expand_node_group (g : RunNodeGroupSpec) : list LogicalNodeSpec :=
  (λ i, node_of_group g (N.of_nat i)) <$> seq 0 (N.to_nat (count g)).

Inductive NodeStage :=
  | New | LeaseRequested | LeaseCreated | EndpointKnown | BootstrapRunning | SwactorJoined
  | HandedOff | Dormant | Failed | Destroyed.
#[export] Instance NodeStage_eq_dec : EqDecision NodeStage.
Proof. solve_decision. Defined.

Inductive BootstrapStage :=
  | Created | SshConnecting | SshReady | StdoutStreaming | BootChecking | SwactorStarting
  | WaitingForSwactorJoin | Converged | Closed | SshConnectFailed | BootCheckFailed
  | StartFailed | SwactorJoinFailed | StreamError | Cancelled.
#[export] Instance BootstrapStage_eq_dec : EqDecision BootstrapStage.
Proof. solve_decision. Defined.

Record DestroyHandle := mkDestroyHandle {
  dh_provider : string;
  dh_lease_id : string;
  dh_contract_id : string;
}.
#[export] Instance DestroyHandle_eq_dec : EqDecision DestroyHandle.
Proof. solve_decision. Defined.

Record LeaseFacts := mkLeaseFacts {
  l_provider : string;
  lease_id : string;
  provider_contract_id : string;
  offer_id : option string;
  destroy_handle : DestroyHandle;
  provider_metadata : gmap string string;
}.
#[export] Instance LeaseFacts_eq_dec : EqDecision LeaseFacts.
Proof. solve_decision. Defined.

Record SshEndpoint := mkSshEndpoint { host : string; port : N; user : string; auth_ref : string }.
#[export] Instance SshEndpoint_eq_dec : EqDecision SshEndpoint.
Proof. solve_decision. Defined.

Record BootstrapFacts := mkBootstrapFacts {
  session_id : BootstrapSessionId;
  last_stage : BootstrapStage;
  last_stdout_seq : option N;
  last_stderr_seq : option N;
  last_observed_at : SystemTime;
}.

Record SwactorFacts := mkSwactorFacts {
  swactor_id : string;
  joined_at : SystemTime;
  handed_off_at : option SystemTime;
}.

Record NodeRecord := mkNodeRecord {
  n_id : LogicalNodeId;
  n_run_id : RunId;
  n_group_id : string;
  n_role : string;
  desired : LogicalNodeSpec;
  stage : NodeStage;
  ready : bool;
  lease : option LeaseFacts;
  connection : option SshEndpoint;
  bootstrap : option BootstrapFacts;
  swactor : option SwactorFacts;
  failed_reason : option string;
  failed_at : option SystemTime;
  destroyed_at : option SystemTime;
}.

Definition record_eta (r : NodeRecord) : NodeRecord :=
  mkNodeRecord (n_id r) (n_run_id r) (n_group_id r) (n_role r) (desired r) (stage r) (ready r)
    (lease r) (connection r) (bootstrap r) (swactor r) (failed_reason r) (failed_at r)
    (destroyed_at r).

Definition set_stage (r : NodeRecord) (v : NodeStage) : NodeRecord :=
  ltac:(update_field record_eta r stage v).
Definition set_ready (r : NodeRecord) (v : bool) : NodeRecord :=
  ltac:(update_field record_eta r ready v).
Definition set_lease (r : NodeRecord) (v : option LeaseFacts) : NodeRecord :=
  ltac:(update_field record_eta r lease v).
Definition set_connection (r : NodeRecord) (v : option SshEndpoint) : NodeRecord :=
  ltac:(update_field record_eta r connection v).
Definition set_bootstrap (r : NodeRecord) (v : option BootstrapFacts) : NodeRecord :=
  ltac:(update_field record_eta r bootstrap v).
Definition set_swactor (r : NodeRecord) (v : option SwactorFacts) : NodeRecord :=
  ltac:(update_field record_eta r swactor v).
Definition set_failed_reason (r : NodeRecord) (v : option string) : NodeRecord :=
  ltac:(update_field record_eta r failed_reason v).
Definition set_failed_at (r : NodeRecord) (v : option SystemTime) : NodeRecord :=
  ltac:(update_field record_eta r failed_at v).
Definition set_destroyed_at (r : NodeRecord) (v : option SystemTime) : NodeRecord :=
  ltac:(update_field record_eta r destroyed_at v).

Definition from_spec (spec : LogicalNodeSpec) : NodeRecord :=
  mkNodeRecord (logical_node_id spec) (s_run_id spec) (s_group_id spec) (s_role spec) spec New
    false None None None None None None None.

Record CreateLeaseResult := mkCreateLeaseResult {
  r_lease : LeaseFacts;
  r_endpoint : option SshEndpoint;
}.

Record BootstrapObservation := mkBootstrapObservation {
  o_stage : BootstrapStage;
  o_stdout_seq : option N;
  o_stderr_seq : option N;
  o_marker : option string;
}.

Record BootstrapSessionSpec := mkBootstrapSessionSpec {
  b_run_id : RunId;
  b_node_id : LogicalNodeId;
  b_lease_id : string;
  b_ssh : SshEndpoint;
  b_boot : BootSpec;
  b_swarm_join : SwarmJoinSpec;
  b_telemetry : string;
}.
#[export] Instance BootstrapSessionSpec_eq_dec : EqDecision BootstrapSessionSpec.
Proof. solve_decision. Defined.

Inductive NodeManagerCommand :=
  | CreateLease (spec : LogicalNodeSpec)
  | LookupEndpoint (lease : LeaseFacts)
  | StartBootstrap (spec : BootstrapSessionSpec)
  | BootstrapConvergenceObserved (session : BootstrapSessionId) (swactor : string)
  | CancelBootstrap (session : BootstrapSessionId)
  | DestroyLease (handle : DestroyHandle).
#[export] Instance NodeManagerCommand_eq_dec : EqDecision NodeManagerCommand.
Proof. solve_decision. Defined.
