(* ===== verification/Reconciler.v ===== *)
(** * The cluster reconciler

    [crates/provisioning/src/reconciler.rs]: a desired shape is expanded into node
    specifications, each node is compared with what is known of it, and one action per node
    follows.  [reconcile] and [reconcile_node] decide, [observe] folds what happened into a node,
    and the [ClusterDriver] owns the state and runs passes.

    [SystemTime] and [Duration] are nanoseconds in [N] with the range checks of the standard
    library ([i64] seconds since the epoch, [u64] seconds of a duration).  A [BTreeMap] is a
    [gmap] iterated in key order. *)

From stdpp Require Import pretty.
From S2P Require Import Prelude NodeModel.
#[local] Open Scope N_scope.

Abbreviation Result A E := (A + E)%type (only parsing).
Abbreviation Ok := inl (only parsing).
Abbreviation Err := inr (only parsing).

Abbreviation Duration := N (only parsing).
Abbreviation NodeAttemptId := N (only parsing).
Abbreviation ShapeError := string (only parsing).

Definition second : N := 1000000000.
Definition time_max : SystemTime := 9223372036854775807 * second + 999999999.
Definition duration_max : Duration := u64_max * second + 999999999.

Definition time_add (t : SystemTime) (d : Duration) : option SystemTime :=
  if t + d <=? time_max then Some (t + d) else None.

Definition duration_mul (d : Duration) (n : N) : option Duration :=
  if d * n <=? duration_max then Some (d * n) else None.

Definition duration_add (a b : Duration) : option Duration :=
  if a + b <=? duration_max then Some (a + b) else None.

Definition u64_rotate_left (x k : N) : N :=
  N.lor (N.shiftl x k mod u64_modulus) (N.shiftr x (64 - k)).

Definition u64_succ (x : N) : option N := if x + 1 <=? u64_max then Some (x + 1) else None.

Definition u32_saturating_succ (x : N) : N := N.min (x + 1) u32_max.

(** ** The desired shape *)

Record ClusterShape := mkClusterShape {
  run_id : RunId;
  generation : N;
  groups : list RunNodeGroupSpec;
}.
#[export] Instance ClusterShape_eq_dec : EqDecision ClusterShape.
Proof. solve_decision. Defined.

Fixpoint check_finite (group_id : string) (fields : list (string * option F64)) : Result unit ShapeError :=
  match fields with
  | [] => Ok tt
  | (field, value) :: rest =>
      if match value with Some value => negb (is_finite value) | None => false end
      then Err ("node group " +:+ group_id +:+ " has non-finite " +:+ field)
      else check_finite group_id rest
  end.

Fixpoint insert_nodes (nodes : gmap LogicalNodeId LogicalNodeSpec) (specs : list LogicalNodeSpec)
    : Result (gmap LogicalNodeId LogicalNodeSpec) ShapeError :=
  match specs with
  | [] => Ok nodes
  | node :: rest =>
      let id := logical_node_id node in
      match nodes !! id with
      | Some _ => Err ("duplicate logical node " +:+ id)
      | None => insert_nodes (<[id := node]> nodes) rest
      end
  end.

Fixpoint expand_groups (run : RunId) (group_ids : gset string)
    (nodes : gmap LogicalNodeId LogicalNodeSpec) (groups : list RunNodeGroupSpec)
    : Result (gmap LogicalNodeId LogicalNodeSpec) ShapeError :=
  match groups with
  | [] => Ok nodes
  | group :: rest =>
      if negb (bool_decide (g_run_id group = run))
      then Err ("group " +:+ g_group_id group +:+ " belongs to run " +:+ pretty (g_run_id group)
                +:+ ", expected " +:+ pretty run)
      else if bool_decide (g_group_id group ∈ group_ids)
      then Err ("duplicate node group " +:+ g_group_id group)
      else
        _ <-! check_finite (g_group_id group)
                [("min_down_mbps", min_down_mbps (g_shape group));
                 ("min_up_mbps", min_up_mbps (g_shape group));
                 ("min_reliability", min_reliability (g_shape group))];
        nodes <-! insert_nodes nodes (expand_node_group group);
        expand_groups run ({[g_group_id group]} ∪ group_ids) nodes rest
  end.

Definition expand (shape : ClusterShape) : Result (gmap LogicalNodeId LogicalNodeSpec) ShapeError :=
  expand_groups (run_id shape) ∅ ∅ (groups shape).

(** ** Operations and managed nodes *)

Record OperationId := mkOperationId { op_attempt : NodeAttemptId; sequence : N }.
#[export] Instance OperationId_eq_dec : EqDecision OperationId.
Proof. solve_decision. Defined.
#[export] Instance OperationId_countable : Countable OperationId.
Proof.
  by apply (inj_countable' (λ o, (op_attempt o, sequence o)) (λ p, mkOperationId p.1 p.2)); intros [].
Defined.

Inductive NodeIntent := Active | Deleting.
#[export] Instance NodeIntent_eq_dec : EqDecision NodeIntent.
Proof. solve_decision. Defined.

Inductive OperationKind :=
  | KCreateLease | KLookupEndpoint | KStartBootstrap | KBootstrapConvergenceObserved
  | KCancelBootstrap | KDestroyLease.
#[export] Instance OperationKind_eq_dec : EqDecision OperationKind.
Proof. solve_decision. Defined.

Definition for_command (command : NodeManagerCommand) : OperationKind :=
  match command with
  | CreateLease _ => KCreateLease
  | LookupEndpoint _ => KLookupEndpoint
  | StartBootstrap _ => KStartBootstrap
  | BootstrapConvergenceObserved _ _ => KBootstrapConvergenceObserved
  | CancelBootstrap _ => KCancelBootstrap
  | DestroyLease _ => KDestroyLease
  end.

Record PendingOperation := mkPendingOperation {
  p_id : OperationId;
  p_kind : OperationKind;
  deadline : SystemTime;
}.

Record PlannedOperation := mkPlannedOperation {
  po_node : LogicalNodeId;
  po_operation : OperationId;
  po_kind : OperationKind;
  po_deadline : SystemTime;
}.

Record RetryState := mkRetryState {
  consecutive_failures : N;
  next_effect_at : option SystemTime;
  restart_at : option SystemTime;
  last_error : option string;
  ambiguous_operation : option OperationKind;
}.

Definition retry_default : RetryState := mkRetryState 0 None None None None.

Definition retry_eta (r : RetryState) : RetryState :=
  mkRetryState (consecutive_failures r) (next_effect_at r) (restart_at r) (last_error r)
    (ambiguous_operation r).
Definition set_consecutive_failures (r : RetryState) (v : N) : RetryState :=
  ltac:(update_field retry_eta r consecutive_failures v).
Definition set_next_effect_at (r : RetryState) (v : option SystemTime) : RetryState :=
  ltac:(update_field retry_eta r next_effect_at v).
Definition set_restart_at (r : RetryState) (v : option SystemTime) : RetryState :=
  ltac:(update_field retry_eta r restart_at v).
Definition set_last_error (r : RetryState) (v : option string) : RetryState :=
  ltac:(update_field retry_eta r last_error v).
Definition set_ambiguous_operation (r : RetryState) (v : option OperationKind) : RetryState :=
  ltac:(update_field retry_eta r ambiguous_operation v).

Record ManagedNode := mkManagedNode {
  attempt : NodeAttemptId;
  intent : NodeIntent;
  record : NodeRecord;
  active_bootstrap : option BootstrapSessionId;
  pending : option PendingOperation;
  next_operation_sequence : N;
  retry : RetryState;
}.

Definition node_eta (n : ManagedNode) : ManagedNode :=
  mkManagedNode (attempt n) (intent n) (record n) (active_bootstrap n) (pending n)
    (next_operation_sequence n) (retry n).
Definition set_intent (n : ManagedNode) (v : NodeIntent) : ManagedNode :=
  ltac:(update_field node_eta n intent v).
Definition set_record (n : ManagedNode) (v : NodeRecord) : ManagedNode :=
  ltac:(update_field node_eta n record v).
Definition set_active_bootstrap (n : ManagedNode) (v : option BootstrapSessionId) : ManagedNode :=
  ltac:(update_field node_eta n active_bootstrap v).
Definition set_pending (n : ManagedNode) (v : option PendingOperation) : ManagedNode :=
  ltac:(update_field node_eta n pending v).
Definition set_next_operation_sequence (n : ManagedNode) (v : N) : ManagedNode :=
  ltac:(update_field node_eta n next_operation_sequence v).
Definition set_retry (n : ManagedNode) (v : RetryState) : ManagedNode :=
  ltac:(update_field node_eta n retry v).

Definition managed_new (attempt : NodeAttemptId) (desired : LogicalNodeSpec) : ManagedNode :=
  mkManagedNode attempt Active (from_spec desired) None None 1 retry_default.

Record ClusterState := mkClusterState {
  observed_generation : N;
  next_attempt_id : N;
  nodes : gmap LogicalNodeId ManagedNode;
}.

Definition cluster_default : ClusterState := mkClusterState 0 1 ∅.

(** ** Decisions *)

Record PlannedEffect := mkPlannedEffect {
  e_node : LogicalNodeId;
  operation : OperationId;
  command : NodeManagerCommand;
}.
#[export] Instance PlannedEffect_eq_dec : EqDecision PlannedEffect.
Proof. solve_decision. Defined.

Inductive NodeAction :=
  | ActInsert (attempt : NodeAttemptId) (desired : LogicalNodeSpec)
  | ActBeginDelete (node : LogicalNodeId) (expected_attempt : NodeAttemptId)
  | ActMarkDestroyed (node : LogicalNodeId) (expected_attempt : NodeAttemptId)
  | ActRestart (node : LogicalNodeId) (expected_attempt new_attempt : NodeAttemptId)
      (desired : LogicalNodeSpec)
  | ActReap (node : LogicalNodeId) (expected_attempt : NodeAttemptId)
  | ActDispatch (effect : PlannedEffect).

Record ReconcilePlan := mkReconcilePlan {
  actions : list NodeAction;
  plan_generation : N;
  plan_requeue_at : option SystemTime;
}.

Inductive NodeDecisionAction :=
  | DecBeginDelete
  | DecMarkDestroyed
  | DecRestart (spec : LogicalNodeSpec)
  | DecReap
  | DecDispatch (command : NodeManagerCommand).

Record NodeDecision := mkNodeDecision {
  dec_action : option NodeDecisionAction;
  dec_requeue_at : option SystemTime;
}.

Definition act (action : NodeDecisionAction) : NodeDecision := mkNodeDecision (Some action) None.
Definition wait (requeue_at : option SystemTime) : NodeDecision := mkNodeDecision None requeue_at.

Definition start_bootstrap_command (record : NodeRecord) : option NodeManagerCommand :=
  lease ← lease record;
  ssh ← connection record;
  Some (StartBootstrap (mkBootstrapSessionSpec (n_run_id record) (n_id record) (lease_id lease) ssh
    (boot (desired record)) (swarm_join (desired record))
    ("run/" +:+ pretty (n_run_id record) +:+ "/node/" +:+ n_id record +:+ "/bootstrap"))).

(** [if let Some(at) = time && now < at] *)
Definition not_yet (time : option SystemTime) (now : SystemTime) : option SystemTime :=
  match time with
  | Some at_ => if now <? at_ then Some at_ else None
  | None => None
  end.

Definition reconcile_destroyed (node : ManagedNode) (desired : option LogicalNodeSpec)
    (now : SystemTime) : NodeDecision :=
  match desired with
  | None => act DecReap
  | Some spec =>
      match not_yet (restart_at (retry node)) now with
      | Some restart_at => wait (Some restart_at)
      | None => act (DecRestart spec)
      end
  end.

Definition reconcile_deleting (node : ManagedNode) (now : SystemTime) : NodeDecision :=
  match not_yet (next_effect_at (retry node)) now with
  | Some next_effect_at => wait (Some next_effect_at)
  | None =>
      let settle :=
        match active_bootstrap node, lease (record node) with
        | None, None => act DecMarkDestroyed
        | Some session_id, _ => act (DecDispatch (CancelBootstrap session_id))
        | None, Some lease => act (DecDispatch (DestroyLease (destroy_handle lease)))
        end in
      match ambiguous_operation (retry node) with
      | Some KCreateLease => act (DecDispatch (CreateLease (desired (record node))))
      | Some KStartBootstrap =>
          match start_bootstrap_command (record node) with
          | Some command => act (DecDispatch command)
          | None => settle
          end
      | _ => settle
      end
  end.

Definition reconcile_active (node : ManagedNode) (now : SystemTime) : NodeDecision :=
  match not_yet (next_effect_at (retry node)) now with
  | Some next_effect_at => wait (Some next_effect_at)
  | None =>
      if ready (record node)
         && bool_decide (stage (record node) = HandedOff ∨ stage (record node) = Dormant)
      then wait None
      else
        match lease (record node) with
        | None => act (DecDispatch (CreateLease (desired (record node))))
        | Some lease =>
            match connection (record node) with
            | None => act (DecDispatch (LookupEndpoint lease))
            | Some _ =>
                if bool_decide (stage (record node) = SwactorJoined)
                then
                  match active_bootstrap node, swactor (record node) with
                  | Some session_id, Some swactor =>
                      act (DecDispatch (BootstrapConvergenceObserved session_id (swactor_id swactor)))
                  | _, _ => wait None
                  end
                else if bool_decide (is_Some (active_bootstrap node))
                        || bool_decide (stage (record node) = BootstrapRunning)
                then wait None
                else
                  match start_bootstrap_command (record node) with
                  | Some command => act (DecDispatch command)
                  | None => wait None (* excluded: lease and connection are present *)
                  end
            end
        end
  end.

Definition reconcile_node (node : ManagedNode) (wanted : option LogicalNodeSpec) (now : SystemTime)
    : NodeDecision :=
  if bool_decide (stage (record node) = Destroyed) then reconcile_destroyed node wanted now
  else if bool_decide (intent node = Active)
          && (bool_decide (wanted ≠ Some (desired (record node)))
              || bool_decide (stage (record node) = Failed))
  then act DecBeginDelete
  else
    match pending node with
    | Some pending => wait (Some (deadline pending))
    | None =>
        if bool_decide (intent node = Deleting) then reconcile_deleting node now
        else reconcile_active node now
    end.

Definition allocate_attempt (next : N) : Result (NodeAttemptId * N) ShapeError :=
  match u64_succ next with
  | Some next' => Ok (next, next')
  | None => Err "node attempt allocator exhausted"
  end.

Definition earliest (l r : option SystemTime) : option SystemTime :=
  match l, r with
  | Some l, Some r => Some (N.min l r)
  | Some value, None | None, Some value => Some value
  | None, None => None
  end.

Definition keys_in_order {V} (m : gmap string V) : list string :=
  sort_by str_le (elements (dom m)).

(** The action of one decision; [Restart] allocates an attempt. *)
Definition node_action (id : LogicalNodeId) (node : ManagedNode) (action : NodeDecisionAction)
    (next : N) : Result (NodeAction * N) ShapeError :=
  match action with
  | DecBeginDelete => Ok (ActBeginDelete id (attempt node), next)
  | DecMarkDestroyed => Ok (ActMarkDestroyed id (attempt node), next)
  | DecRestart spec =>
      new <-! allocate_attempt next;
      Ok (ActRestart id (attempt node) new.1 spec, new.2)
  | DecReap => Ok (ActReap id (attempt node), next)
  | DecDispatch command =>
      Ok (ActDispatch (mkPlannedEffect id
            (mkOperationId (attempt node) (next_operation_sequence node)) command), next)
  end.

Fixpoint reconcile_keys (observed : gmap LogicalNodeId ManagedNode)
    (wanted : gmap LogicalNodeId LogicalNodeSpec) (now : SystemTime) (keys : list LogicalNodeId)
    (next : N) : Result (list NodeAction * option SystemTime) ShapeError :=
  match keys with
  | [] => Ok ([], None)
  | id :: keys =>
      match observed !! id, wanted !! id with
      | None, Some spec =>
          new <-! allocate_attempt next;
          rest <-! reconcile_keys observed wanted now keys new.2;
          Ok (ActInsert new.1 spec :: rest.1, rest.2)
      | Some node, spec =>
          let decision := reconcile_node node spec now in
          match dec_action decision with
          | None =>
              rest <-! reconcile_keys observed wanted now keys next;
              Ok (rest.1, earliest (dec_requeue_at decision) rest.2)
          | Some action =>
              step <-! node_action id node action next;
              rest <-! reconcile_keys observed wanted now keys step.2;
              Ok (step.1 :: rest.1, earliest (dec_requeue_at decision) rest.2)
          end
      | None, None => reconcile_keys observed wanted now keys next
      end
  end.

Definition reconcile (observed : ClusterState) (shape : ClusterShape) (now : SystemTime)
    : Result ReconcilePlan ShapeError :=
  wanted <-! expand shape;
  let keys := sort_by str_le (elements (dom (nodes observed) ∪ dom wanted)) in
  plan <-! reconcile_keys (nodes observed) wanted now keys (next_attempt_id observed);
  Ok (mkReconcilePlan plan.1 (generation shape) plan.2).

(** ** Retries *)

Record RetryPolicy := mkRetryPolicy {
  initial_delay : Duration;
  max_delay : Duration;
  jitter : Duration;
  operation_timeout : Duration;
  endpoint_probe_interval : Duration;
}.

Definition policy_default : RetryPolicy :=
  mkRetryPolicy (1 * second) (60 * second) 0 (120 * second) (2 * second).

Definition delay_for_failure (policy : RetryPolicy) (failures : N) : Duration :=
  let exponent := N.min (failures - 1) 31 in
  let multiplier := N.shiftl 1 exponent in
  N.min (default (max_delay policy) (duration_mul (initial_delay policy) multiplier))
    (max_delay policy).

Definition sampled_retry_delay (policy : RetryPolicy) (attempt : NodeAttemptId) (failures : N)
    : Duration :=
  let base := delay_for_failure policy failures in
  let jitter_nanos := jitter policy in
  if jitter_nanos =? 0 then base
  else
    let mixed :=
      u64_rotate_left (u64_add (u64_mul attempt 11400714819323198485) failures) 17 in
    let sampled := mixed mod (jitter_nanos + 1) in
    default duration_max (duration_add base sampled).

(** ** Observations *)

Inductive EffectFailureDisposition := Definite | Ambiguous.
#[export] Instance EffectFailureDisposition_eq_dec : EqDecision EffectFailureDisposition.
Proof. solve_decision. Defined.

Record EffectError := mkEffectError { reason : string; disposition : EffectFailureDisposition }.

Inductive OperationOutcome :=
  | OLeaseCreated (result : CreateLeaseResult)
  | OEndpointLookup (endpoint : option SshEndpoint)
  | OBootstrapStarted (session_id : BootstrapSessionId)
  | OBootstrapConvergenceAccepted
  | OBootstrapCancelled
  | OLeaseDestroyed.

Definition outcome_kind (outcome : OperationOutcome) : OperationKind :=
  match outcome with
  | OLeaseCreated _ => KCreateLease
  | OEndpointLookup _ => KLookupEndpoint
  | OBootstrapStarted _ => KStartBootstrap
  | OBootstrapConvergenceAccepted => KBootstrapConvergenceObserved
  | OBootstrapCancelled => KCancelBootstrap
  | OLeaseDestroyed => KDestroyLease
  end.

Record ExecutorResult := mkExecutorResult {
  res_node : LogicalNodeId;
  res_operation : OperationId;
  res_result : Result OperationOutcome EffectError;
}.

Inductive NodeObservation :=
  | ObsOperationSucceeded (operation : OperationId) (outcome : OperationOutcome)
  | ObsOperationFailed (operation : OperationId) (error : EffectError)
  | ObsBootstrapObserved (session_id : BootstrapSessionId) (observation : BootstrapObservation)
  | ObsBootstrapFailed (session_id : BootstrapSessionId) (reason : string)
  | ObsSwactorJoined (session_id : BootstrapSessionId) (swactor_id : string)
  | ObsBootstrapClosed (session_id : BootstrapSessionId).

Definition is_bootstrap_failure (stage : BootstrapStage) : bool :=
  match stage with
  | SshConnectFailed | BootCheckFailed | StartFailed | SwactorJoinFailed | StreamError => true
  | _ => false
  end.

(** [{stage:?}] *)
Definition bootstrap_stage_debug (stage : BootstrapStage) : string :=
  match stage with
  | Created => "Created" | SshConnecting => "SshConnecting" | SshReady => "SshReady"
  | StdoutStreaming => "StdoutStreaming" | BootChecking => "BootChecking"
  | SwactorStarting => "SwactorStarting" | WaitingForSwactorJoin => "WaitingForSwactorJoin"
  | Converged => "Converged" | Closed => "Closed" | SshConnectFailed => "SshConnectFailed"
  | BootCheckFailed => "BootCheckFailed" | StartFailed => "StartFailed"
  | SwactorJoinFailed => "SwactorJoinFailed" | StreamError => "StreamError"
  | Cancelled => "Cancelled"
  end.

Definition mark_attempt_failed (node : ManagedNode) (reason : string) (now : SystemTime)
    (policy : RetryPolicy) : ManagedNode :=
  let failures := u32_saturating_succ (consecutive_failures (retry node)) in
  let node := set_retry node (mkRetryState failures None
    (time_add now (sampled_retry_delay policy (attempt node) failures)) (Some reason) None) in
  set_record node (set_failed_at (set_failed_reason (set_ready (set_stage (record node) Failed)
    false) (Some reason)) (Some now)).

Definition record_failure (node : ManagedNode) (kind : OperationKind) (error : EffectError)
    (now : SystemTime) (policy : RetryPolicy) : ManagedNode :=
  let ambiguous :=
    match disposition error, kind with
    | Ambiguous, (KCreateLease | KStartBootstrap) => Some kind
    | _, _ => None
    end in
  let node := set_retry node (set_ambiguous_operation (retry node) ambiguous) in
  if bool_decide (kind = KBootstrapConvergenceObserved)
     || bool_decide (kind = KStartBootstrap) && bool_decide (disposition error = Definite)
  then mark_attempt_failed node (reason error) now policy
  else
    let failures := u32_saturating_succ (consecutive_failures (retry node)) in
    let node := set_retry node
      (set_last_error (set_consecutive_failures (retry node) failures) (Some (reason error))) in
    if bool_decide (intent node = Deleting) && bool_decide (ambiguous = None)
       && negb (bool_decide (kind = KCancelBootstrap ∨ kind = KDestroyLease))
    then set_retry node (set_next_effect_at (retry node) None)
    else set_retry node (set_next_effect_at (retry node)
           (time_add now (sampled_retry_delay policy (attempt node) failures))).

Definition finish_bootstrap (node : ManagedNode) (now : SystemTime) (policy : RetryPolicy)
    : ManagedNode :=
  match swactor (record node) with
  | None => mark_attempt_failed node "bootstrap closed before swactor convergence" now policy
  | Some facts =>
      let facts := mkSwactorFacts (swactor_id facts) (joined_at facts) (Some now) in
      let node := set_active_bootstrap node None in
      let node := set_record node
        (set_ready (set_stage (set_swactor (record node) (Some facts)) Dormant)
          (bool_decide (intent node = Active))) in
      set_retry node retry_default
  end.

Definition observe_outcome (node : ManagedNode) (outcome : OperationOutcome) (now : SystemTime)
    (policy : RetryPolicy) : ManagedNode :=
  match outcome with
  | OLeaseCreated result =>
      let leased := set_lease (record node) (Some (r_lease result)) in
      match r_endpoint result with
      | Some endpoint =>
          set_record node (set_stage (set_connection leased (Some endpoint)) EndpointKnown)
      | None => set_record node (set_stage leased LeaseCreated)
      end
  | OEndpointLookup (Some endpoint) =>
      set_record node (set_stage (set_connection (record node) (Some endpoint)) EndpointKnown)
  | OEndpointLookup None =>
      set_retry node (set_next_effect_at (retry node) (time_add now (endpoint_probe_interval policy)))
  | OBootstrapStarted session_id =>
      let node := set_active_bootstrap node (Some session_id) in
      set_record node (set_stage (set_bootstrap (record node)
        (Some (mkBootstrapFacts session_id Created None None now))) BootstrapRunning)
  | OBootstrapConvergenceAccepted => node
  | OBootstrapCancelled =>
      let facts := (λ f, mkBootstrapFacts (session_id f) Cancelled (last_stdout_seq f)
                           (last_stderr_seq f) now) <$> bootstrap (record node) in
      set_active_bootstrap (set_record node (set_bootstrap (record node) facts)) None
  | OLeaseDestroyed =>
      set_record node (set_connection (set_lease (record node) None) None)
  end.

Definition observe_bootstrap (node : ManagedNode) (session : BootstrapSessionId)
    (observation : BootstrapObservation) (now : SystemTime) (policy : RetryPolicy) : ManagedNode :=
  let stage := o_stage observation in
  let facts := default (mkBootstrapFacts session stage None None now) (bootstrap (record node)) in
  let facts := mkBootstrapFacts (session_id facts) stage
    (match o_stdout_seq observation with Some s => Some s | None => last_stdout_seq facts end)
    (match o_stderr_seq observation with Some s => Some s | None => last_stderr_seq facts end)
    now in
  let node := set_record node (set_bootstrap (record node) (Some facts)) in
  if is_bootstrap_failure stage
  then mark_attempt_failed node ("bootstrap stage " +:+ bootstrap_stage_debug stage) now policy
  else
    match stage with
    | Converged | Closed => finish_bootstrap node now policy
    | Cancelled => set_active_bootstrap node None
    | _ => node
    end.

Definition observe (node : ManagedNode) (observation : NodeObservation) (now : SystemTime)
    (policy : RetryPolicy) : ManagedNode :=
  let session_event k :=
    if bool_decide (stage (record node) = Failed) then node else k in
  match observation with
  | ObsOperationSucceeded operation outcome =>
      match pending node with
      | Some p =>
          if bool_decide (p_id p = operation) && bool_decide (p_kind p = outcome_kind outcome) then
            let node := set_pending node None in
            let node := set_retry node
              (set_ambiguous_operation (set_next_effect_at (retry node) None) None) in
            observe_outcome node outcome now policy
          else node
      | None => node
      end
  | ObsOperationFailed operation error =>
      match pending node with
      | Some p =>
          if bool_decide (p_id p = operation)
          then record_failure (set_pending node None) (p_kind p) error now policy
          else node
      | None => node
      end
  | ObsBootstrapObserved session observation => session_event
      (if bool_decide (active_bootstrap node = Some session)
       then observe_bootstrap node session observation now policy else node)
  | ObsBootstrapFailed session reason => session_event
      (if bool_decide (active_bootstrap node = Some session)
       then mark_attempt_failed node reason now policy else node)
  | ObsSwactorJoined session swactor_id => session_event
      (if bool_decide (active_bootstrap node = Some session)
       then set_record node (set_stage
              (set_swactor (record node) (Some (mkSwactorFacts swactor_id now None))) SwactorJoined)
       else node)
  | ObsBootstrapClosed session => session_event
      (if bool_decide (active_bootstrap node = Some session)
       then finish_bootstrap node now policy else node)
  end.

Definition observation_matches (node : ManagedNode) (observation : NodeObservation) : bool :=
  match observation with
  | ObsOperationSucceeded operation outcome =>
      match pending node with
      | Some p => bool_decide (p_id p = operation) && bool_decide (p_kind p = outcome_kind outcome)
      | None => false
      end
  | ObsOperationFailed operation _ =>
      match pending node with Some p => bool_decide (p_id p = operation) | None => false end
  | ObsBootstrapObserved session _ | ObsBootstrapFailed session _ | ObsSwactorJoined session _
  | ObsBootstrapClosed session =>
      bool_decide (stage (record node) ≠ Failed)
      && bool_decide (active_bootstrap node = Some session)
  end.

(** ** The driver *)

Inductive DriverError :=
  | Shape (error : ShapeError)
  | RunChanged (expected supplied : RunId)
  | GenerationRegressed (current supplied : N)
  | ShapeChangedWithoutGeneration (generation : N)
  | ReentrantPass
  | AttemptAllocatorMismatch
  | OperationSequenceExhausted.

Record ClusterDriver := mkClusterDriver {
  state : ClusterState;
  d_desired : ClusterShape;
  expanded_desired : gmap LogicalNodeId LogicalNodeSpec;
  policy : RetryPolicy;
  queued : bool;
  processing : bool;
  dirty : bool;
  requeue_at : option SystemTime;
}.

Definition driver_eta (d : ClusterDriver) : ClusterDriver :=
  mkClusterDriver (state d) (d_desired d) (expanded_desired d) (policy d) (queued d) (processing d)
    (dirty d) (requeue_at d).
Definition set_state (d : ClusterDriver) (v : ClusterState) : ClusterDriver :=
  ltac:(update_field driver_eta d state v).
Definition set_queued (d : ClusterDriver) (v : bool) : ClusterDriver :=
  ltac:(update_field driver_eta d queued v).
Definition set_processing (d : ClusterDriver) (v : bool) : ClusterDriver :=
  ltac:(update_field driver_eta d processing v).
Definition set_dirty (d : ClusterDriver) (v : bool) : ClusterDriver :=
  ltac:(update_field driver_eta d dirty v).
Definition set_requeue_at (d : ClusterDriver) (v : option SystemTime) : ClusterDriver :=
  ltac:(update_field driver_eta d requeue_at v).

Definition set_nodes (d : ClusterDriver) (v : gmap LogicalNodeId ManagedNode) : ClusterDriver :=
  set_state d (mkClusterState (observed_generation (state d)) (next_attempt_id (state d)) v).
Definition set_next_attempt_id (d : ClusterDriver) (v : N) : ClusterDriver :=
  set_state d (mkClusterState (observed_generation (state d)) v (nodes (state d))).
Definition set_observed_generation (d : ClusterDriver) (v : N) : ClusterDriver :=
  set_state d (mkClusterState v (next_attempt_id (state d)) (nodes (state d))).

Definition driver_new (shape : ClusterShape) (policy : RetryPolicy)
    : Result ClusterDriver DriverError :=
  match expand shape with
  | inr error => Err (Shape error)
  | inl expanded =>
      Ok (mkClusterDriver cluster_default shape expanded policy true false false None)
  end.

Definition trigger (d : ClusterDriver) : ClusterDriver :=
  if processing d then set_dirty d true else set_queued d true.

Definition update_desired (d : ClusterDriver) (shape : ClusterShape)
    : ClusterDriver * Result unit DriverError :=
  if negb (bool_decide (run_id shape = run_id (d_desired d)))
  then (d, Err (RunChanged (run_id (d_desired d)) (run_id shape)))
  else if generation shape <? generation (d_desired d)
  then (d, Err (GenerationRegressed (generation (d_desired d)) (generation shape)))
  else
    match expand shape with
    | inr error => (d, Err (Shape error))
    | inl expanded =>
        if (generation shape =? generation (d_desired d))
           && negb (bool_decide (shape = d_desired d))
        then (d, Err (ShapeChangedWithoutGeneration (generation shape)))
        else
          (trigger (mkClusterDriver (state d) shape expanded (policy d) (queued d) (processing d)
             (dirty d) (requeue_at d)), Ok tt)
    end.

Definition trigger_if_due (d : ClusterDriver) (now : SystemTime) : ClusterDriver * bool :=
  match requeue_at d with
  | Some deadline =>
      if deadline <=? now then (trigger (set_requeue_at d None), true) else (d, false)
  | None => (d, false)
  end.

Definition pending_operations_due (d : ClusterDriver) (now : SystemTime) : list PlannedOperation :=
  omap (λ id,
    managed ← nodes (state d) !! id;
    p ← pending managed;
    if deadline p <=? now then Some (mkPlannedOperation id (p_id p) (p_kind p) (deadline p))
    else None)
  (keys_in_order (nodes (state d))).

Definition apply_observation (d : ClusterDriver) (node : LogicalNodeId) (att : NodeAttemptId)
    (observation : NodeObservation) (now : SystemTime) : ClusterDriver * bool :=
  match nodes (state d) !! node with
  | None => (d, false)
  | Some managed =>
      if negb (bool_decide (attempt managed = att)) || negb (observation_matches managed observation)
      then (d, false)
      else
        let managed := observe managed observation now (policy d) in
        (trigger (set_nodes d (<[node := managed]> (nodes (state d)))), true)
  end.

Definition operation_timed_out (d : ClusterDriver) (op : PlannedOperation) (why : string)
    (now : SystemTime) : ClusterDriver * bool :=
  apply_observation d (po_node op) (op_attempt (po_operation op))
    (ObsOperationFailed (po_operation op) (mkEffectError why Ambiguous)) now.

Definition apply_executor_result (d : ClusterDriver) (result : ExecutorResult) (now : SystemTime)
    : ClusterDriver * bool :=
  let observation :=
    match res_result result with
    | inl outcome => ObsOperationSucceeded (res_operation result) outcome
    | inr error => ObsOperationFailed (res_operation result) error
    end in
  apply_observation d (res_node result) (op_attempt (res_operation result)) observation now.

Definition submission_failed (d : ClusterDriver) (effect : PlannedEffect) (why : string)
    (now : SystemTime) : ClusterDriver * bool :=
  apply_observation d (e_node effect) (op_attempt (operation effect))
    (ObsOperationFailed (operation effect) (mkEffectError why Definite)) now.

Definition allocated_attempt (action : NodeAction) : option NodeAttemptId :=
  match action with
  | ActInsert attempt _ => Some attempt
  | ActRestart _ _ new_attempt _ => Some new_attempt
  | _ => None
  end.

Definition current_node (d : ClusterDriver) (id : LogicalNodeId) (att : NodeAttemptId)
    : option ManagedNode :=
  match nodes (state d) !! id with
  | Some node => if bool_decide (attempt node = att) then Some node else None
  | None => None
  end.

Definition put_node (d : ClusterDriver) (id : LogicalNodeId) (node : ManagedNode) : ClusterDriver :=
  set_nodes d (<[id := node]> (nodes (state d))).

Definition begin_delete (managed : ManagedNode) : ManagedNode :=
  let managed := set_intent managed Deleting in
  let managed := set_record managed (set_ready (record managed) false) in
  match ambiguous_operation (retry managed) with
  | None => set_retry managed (set_next_effect_at (retry managed) None)
  | Some _ => managed
  end.

Definition mark_destroyed (managed : ManagedNode) (now : SystemTime) : ManagedNode :=
  set_record managed (set_destroyed_at (set_ready (set_stage (record managed) Destroyed) false)
    (Some now)).

Definition dispatched (managed : ManagedNode) (effect : PlannedEffect) (deadline : SystemTime)
    (next_sequence : N) : ManagedNode :=
  let managed := set_pending managed
    (Some (mkPendingOperation (operation effect) (for_command (command effect)) deadline)) in
  let managed := set_next_operation_sequence managed next_sequence in
  match command effect with
  | CreateLease _ => set_record managed (set_stage (record managed) LeaseRequested)
  | _ => managed
  end.

Definition apply_action (d : ClusterDriver) (action : NodeAction) (now : SystemTime)
    : ClusterDriver * Result (option PlannedEffect) DriverError :=
  let stale := (set_dirty d true, Ok None) in
  match action with
  | ActInsert att desired =>
      if negb (att =? next_attempt_id (state d))
         || bool_decide (is_Some (nodes (state d) !! logical_node_id desired))
      then stale
      else
        match u64_succ (next_attempt_id (state d)) with
        | None => (d, Err AttemptAllocatorMismatch)
        | Some next =>
            (set_dirty (put_node (set_next_attempt_id d next) (logical_node_id desired)
               (managed_new att desired)) true, Ok None)
        end
  | ActBeginDelete node expected =>
      match current_node d node expected with
      | None => stale
      | Some managed => (set_dirty (put_node d node (begin_delete managed)) true, Ok None)
      end
  | ActMarkDestroyed node expected =>
      match current_node d node expected with
      | None => stale
      | Some managed =>
          if bool_decide (is_Some (pending managed)) || bool_decide (is_Some (active_bootstrap managed))
             || bool_decide (is_Some (lease (record managed)))
          then stale
          else (set_dirty (put_node d node (mark_destroyed managed now)) true, Ok None)
      end
  | ActRestart node expected new desired =>
      if negb (new =? next_attempt_id (state d)) then stale
      else
        match nodes (state d) !! node with
        | None => stale
        | Some old =>
            if negb (bool_decide (attempt old = expected))
               || negb (bool_decide (stage (record old) = Destroyed))
            then stale
            else
              match u64_succ (next_attempt_id (state d)) with
              | None => (d, Err AttemptAllocatorMismatch)
              | Some next =>
                  let replacement := managed_new new desired in
                  let replacement := set_retry replacement (set_consecutive_failures
                    (retry replacement) (consecutive_failures (retry old))) in
                  (set_dirty (put_node (set_next_attempt_id d next) node replacement) true, Ok None)
              end
        end
  | ActReap node expected =>
      match nodes (state d) !! node with
      | Some managed =>
          if bool_decide (attempt managed = expected)
             && bool_decide (stage (record managed) = Destroyed)
          then (set_nodes d (delete node (nodes (state d))), Ok None)
          else stale
      | None => stale
      end
  | ActDispatch effect =>
      match current_node d (e_node effect) (op_attempt (operation effect)) with
      | None => stale
      | Some managed =>
          if bool_decide (is_Some (pending managed))
             || negb (next_operation_sequence managed =? sequence (operation effect))
          then stale
          else
            let deadline := default now (time_add now (operation_timeout (policy d))) in
            match u64_succ (next_operation_sequence managed) with
            | None => (d, Err OperationSequenceExhausted)
            | Some next =>
                let d := put_node d (e_node effect) (dispatched managed effect deadline next) in
                (set_requeue_at d (earliest (requeue_at d) (Some deadline)), Ok (Some effect))
            end
      end
  end.

(** The loop of [run_pass] over the planned actions: the effects to submit, or the error that
    ended it. *)
Fixpoint apply_actions (d : ClusterDriver) (valid : bool) (acts : list NodeAction) (now : SystemTime)
    : ClusterDriver * Result (list PlannedEffect) DriverError :=
  match acts with
  | [] => (d, Ok [])
  | action :: rest =>
      let mismatch :=
        match allocated_attempt action with
        | Some att => negb valid || negb (att =? next_attempt_id (state d))
        | None => false
        end in
      if mismatch then apply_actions (set_dirty d true) false rest now
      else
        match apply_action d action now with
        | (d, inr error) => (d, Err error)
        | (d, inl effect) =>
            match apply_actions d valid rest now with
            | (d, inl effects) => (d, Ok (option_list effect ++ effects))
            | (d, inr error) => (d, Err error)
            end
        end
  end.

Definition run_pass (d : ClusterDriver) (now : SystemTime)
    : ClusterDriver * Result (list PlannedEffect) DriverError :=
  match reconcile (state d) (d_desired d) now with
  | inr error => (d, Err (Shape error))
  | inl plan =>
      let d := set_requeue_at d (plan_requeue_at plan) in
      match apply_actions d true (actions plan) now with
      | (d, inl effects) => (set_observed_generation d (plan_generation plan), Ok effects)
      | (d, inr error) => (d, Err error)
      end
  end.

Section Drive.
(** [EffectExecutor]: a state and its [submit]. *)
Context {E : Type} (submit : E → PlannedEffect → E * Result unit string).

Fixpoint submit_all (d : ClusterDriver) (x : E) (effects : list PlannedEffect) (now : SystemTime)
    : ClusterDriver * E * N :=
  match effects with
  | [] => (d, x, 0)
  | effect :: rest =>
      match submit x effect with
      | (x, inl _) => let '(d, x, n) := submit_all d x rest now in (d, x, N.min (n + 1) u64_max)
      | (x, inr error) =>
          let d := (submission_failed d effect ("executor submission failed: " +:+ error) now).1 in
          submit_all d x rest now
      end
  end.

Definition end_pass (d : ClusterDriver) : ClusterDriver :=
  let d := set_processing d false in
  if dirty d then set_queued (set_dirty d false) true else d.

Definition drive_next (d : ClusterDriver) (now : SystemTime) (x : E)
    : ClusterDriver * E * Result N DriverError :=
  if processing d then (d, x, Err ReentrantPass)
  else if negb (queued d) then (d, x, Ok 0)
  else
    let d := set_processing (set_queued d false) true in
    match run_pass d now with
    | (d, inl effects) =>
        let '(d, x, submitted) := submit_all d x effects now in
        (end_pass d, x, Ok submitted)
    | (d, inr error) => (end_pass d, x, Err error)
    end.

(** [None]: the loop has not ended within [fuel] passes. *)
Fixpoint drive_until_blocked (fuel : nat) (d : ClusterDriver) (now : SystemTime) (x : E)
    (submitted : N) : option (ClusterDriver * E * Result N DriverError) :=
  if negb (queued d) then Some (d, x, Ok submitted)
  else
    match fuel with
    | O => None
    | S fuel =>
        match drive_next d now x with
        | (d, x, inr error) => Some (d, x, Err error)
        | (d, x, inl n) => drive_until_blocked fuel d now x (N.min (submitted + n) u64_max)
        end
    end.
End Drive.

Definition is_converged (d : ClusterDriver) : bool :=
  (observed_generation (state d) =? generation (d_desired d))
  && bool_decide (size (nodes (state d)) = size (expanded_desired d))
  && forallb (λ '(id, spec),
       match nodes (state d) !! id with
       | Some node =>
           bool_decide (intent node = Active) && bool_decide (desired (record node) = spec)
           && ready (record node) && negb (bool_decide (is_Some (pending node)))
       | None => false
       end) (map_to_list (expanded_desired d)).
