(* ===== verification/EffectExecutor.v ===== *)
(** * The idempotent effect executor

    [crates/provisioning/src/executor.rs]: a ledger that accepts each operation once, hands it to
    a blocking spawner, and publishes its result on a channel.  The ledger's mutex makes every
    function here one step.  [tasks] is the work handed to the spawner and not finished yet: the
    closures of [spawn_effect].  The spawner and the backend are other code: the first is a
    parameter, the second an argument of [finish], the answer it gave. *)

From stdpp Require Import pretty.
From S2P Require Import Prelude NodeModel Reconciler.
#[local] Open Scope N_scope.

Inductive LedgerState := Running | Queued | Completed.
#[export] Instance LedgerState_eq_dec : EqDecision LedgerState.
Proof. solve_decision. Defined.

Record LedgerEntry := mkLedgerEntry {
  effect : PlannedEffect;
  l_state : LedgerState;
  result : option ExecutorResult;
}.

Definition entry_running (e : PlannedEffect) : LedgerEntry := mkLedgerEntry e Running None.
Definition entry_queued (e : PlannedEffect) : LedgerEntry := mkLedgerEntry e Queued None.
Definition entry_completed (e : PlannedEffect) (r : ExecutorResult) : LedgerEntry :=
  mkLedgerEntry e Completed (Some r).

Record AttemptResources := mkAttemptResources { lease_live : bool; bootstrap_live : bool }.

Record Executor := mkExecutor {
  operations : gmap OperationId LedgerEntry;
  in_flight_by_attempt : gmap NodeAttemptId OperationId;
  running_by_attempt : gmap NodeAttemptId OperationId;
  queued_by_attempt : gmap NodeAttemptId OperationId;
  resources : gmap NodeAttemptId AttemptResources;
  results : list ExecutorResult;
  tasks : list PlannedEffect;
}.

Definition executor_eta (x : Executor) : Executor :=
  mkExecutor (operations x) (in_flight_by_attempt x) (running_by_attempt x) (queued_by_attempt x)
    (resources x) (results x) (tasks x).
Definition set_operations (x : Executor) (v : gmap OperationId LedgerEntry) : Executor :=
  ltac:(update_field executor_eta x operations v).
Definition set_in_flight (x : Executor) (v : gmap NodeAttemptId OperationId) : Executor :=
  ltac:(update_field executor_eta x in_flight_by_attempt v).
Definition set_running (x : Executor) (v : gmap NodeAttemptId OperationId) : Executor :=
  ltac:(update_field executor_eta x running_by_attempt v).
Definition set_queued_by (x : Executor) (v : gmap NodeAttemptId OperationId) : Executor :=
  ltac:(update_field executor_eta x queued_by_attempt v).
Definition set_resources (x : Executor) (v : gmap NodeAttemptId AttemptResources) : Executor :=
  ltac:(update_field executor_eta x resources v).
Definition set_results (x : Executor) (v : list ExecutorResult) : Executor :=
  ltac:(update_field executor_eta x results v).
Definition set_tasks (x : Executor) (v : list PlannedEffect) : Executor :=
  ltac:(update_field executor_eta x tasks v).

Definition executor_new : Executor := mkExecutor ∅ ∅ ∅ ∅ ∅ [] [].

Inductive ExecutorOperationStatus := SUnknown | SInFlight | SCompleted.

Definition operation_status (x : Executor) (op : OperationId) : ExecutorOperationStatus :=
  match operations x !! op with
  | None => SUnknown
  | Some entry => if bool_decide (l_state entry = Completed) then SCompleted else SInFlight
  end.

(** [if map.get(&attempt) == Some(&operation) { map.remove(&attempt) }] *)
Definition remove_if (m : gmap NodeAttemptId OperationId) (op : OperationId)
    : gmap NodeAttemptId OperationId :=
  if bool_decide (m !! op_attempt op = Some op) then delete (op_attempt op) m else m.

Definition send (x : Executor) (r : ExecutorResult) : Executor := set_results x (results x ++ [r]).

Definition drain_results (x : Executor) : Executor * list ExecutorResult :=
  (set_results x [], results x).

Definition expire (x : Executor) (op : OperationId) (why : string) : Executor * bool :=
  match operations x !! op with
  | Some entry =>
      if bool_decide (l_state entry = Completed) then (x, false)
      else
        let r := mkExecutorResult (e_node (effect entry)) op (Err (mkEffectError why Ambiguous)) in
        let x := set_operations x (<[op := entry_completed (effect entry) r]> (operations x)) in
        let x := set_in_flight x (remove_if (in_flight_by_attempt x) op) in
        let x := set_queued_by x (remove_if (queued_by_attempt x) op) in
        (send x r, true)
  | None => (x, false)
  end.

Definition attempt_resources (x : Executor) (att : NodeAttemptId) : AttemptResources :=
  default (mkAttemptResources false false) (resources x !! att).

Definition update_resources (x : Executor) (att : NodeAttemptId) (outcome : OperationOutcome)
    : Executor :=
  let r := attempt_resources x att in
  let r :=
    match outcome with
    | OLeaseCreated _ => mkAttemptResources true (bootstrap_live r)
    | OBootstrapStarted _ => mkAttemptResources (lease_live r) true
    | OBootstrapCancelled => mkAttemptResources (lease_live r) false
    | OLeaseDestroyed => mkAttemptResources false false
    | OEndpointLookup _ | OBootstrapConvergenceAccepted => r
    end in
  set_resources x (<[att := r]> (resources x)).

Definition promote_queued (x : Executor) (att : NodeAttemptId) : Executor * option PlannedEffect :=
  match queued_by_attempt x !! att with
  | None => (x, None)
  | Some op =>
      let x := set_queued_by x (delete att (queued_by_attempt x)) in
      match operations x !! op with
      | None => (x, None)
      | Some entry =>
          if bool_decide (l_state entry = Queued)
          then (set_operations x (<[op := entry_running (effect entry)]> (operations x)),
                Some (effect entry))
          else (x, None)
      end
  end.

(** The entry of [e]'s operation is still the running [e]. *)
Definition is_current (x : Executor) (e : PlannedEffect) : bool :=
  match operations x !! operation e with
  | Some entry => bool_decide (l_state entry = Running) && bool_decide (effect entry = e)
  | None => false
  end.

Definition record_spawn_failure (x : Executor) (e : PlannedEffect) (why : string)
    : Executor * option ExecutorResult * option PlannedEffect :=
  let op := operation e in
  let r := if is_current x e
           then Some (mkExecutorResult (e_node e) op (Err (mkEffectError why Definite)))
           else None in
  let x := match r with
           | Some r => set_operations x (<[op := entry_completed e r]> (operations x))
           | None => x
           end in
  let x := set_in_flight x (remove_if (in_flight_by_attempt x) op) in
  let x := set_running x (remove_if (running_by_attempt x) op) in
  let '(x, next) := promote_queued x (op_attempt op) in
  (x, r, next).

(** What the backend's [execute] did: panicked, or returned. *)
Inductive BackendAnswer :=
  | Panicked (why : string)
  | Answered (answer : Result OperationOutcome EffectError).

(** [{:?}] *)
Definition kind_debug (kind : OperationKind) : string :=
  match kind with
  | KCreateLease => "CreateLease" | KLookupEndpoint => "LookupEndpoint"
  | KStartBootstrap => "StartBootstrap"
  | KBootstrapConvergenceObserved => "BootstrapConvergenceObserved"
  | KCancelBootstrap => "CancelBootstrap" | KDestroyLease => "DestroyLease"
  end.

Definition checked_answer (e : PlannedEffect) (answer : BackendAnswer)
    : Result OperationOutcome EffectError :=
  let expected := for_command (command e) in
  match answer with
  | Panicked why => Err (mkEffectError ("effect backend panicked: " +:+ why) Definite)
  | Answered (inr error) => Err error
  | Answered (inl outcome) =>
      if bool_decide (outcome_kind outcome = expected) then Ok outcome
      else Err (mkEffectError ("executor returned " +:+ kind_debug (outcome_kind outcome) +:+ " for "
                  +:+ kind_debug expected) Definite)
  end.

Section Executor.
(** [BlockingEffectSpawner::spawn_blocking], given the work it already holds. *)
Context (spawn_blocking : list PlannedEffect → PlannedEffect → Result unit string).

Definition spawn_effect (x : Executor) (e : PlannedEffect) : Executor * Result unit string :=
  match spawn_blocking (tasks x) e with
  | inl _ => (set_tasks x (tasks x ++ [e]), Ok tt)
  | inr error => (x, Err error)
  end.

(** One queued operation per attempt: the recursion ends after the second call. *)
Fixpoint spawn_promoted (fuel : nat) (x : Executor) (e : PlannedEffect) : Executor :=
  match spawn_effect x e with
  | (x, inl _) => x
  | (x, inr error) =>
      let '(x, r, next) := record_spawn_failure x e ("blocking effect submission failed: " +:+ error) in
      let x := match r with Some r => send x r | None => x end in
      match next, fuel with
      | Some next, S fuel => spawn_promoted fuel x next
      | _, _ => x
      end
  end.

Definition ledger_accept (x : Executor) (e : PlannedEffect) : Executor * Result bool string :=
  let op := operation e in
  let att := op_attempt op in
  match in_flight_by_attempt x !! att with
  | Some in_flight =>
      (x, Err ("attempt " +:+ pretty att +:+ " already has operation "
               +:+ pretty (sequence in_flight) +:+ " in flight"))
  | None =>
      let accepted x entry :=
        let x := set_operations x (<[op := entry]> (operations x)) in
        set_in_flight x (<[att := op]> (in_flight_by_attempt x)) in
      match running_by_attempt x !! att with
      | Some _ =>
          match queued_by_attempt x !! att with
          | Some _ =>
              (x, Err ("attempt " +:+ pretty att +:+ " already has an adoption operation queued"))
          | None =>
              (accepted (set_queued_by x (<[att := op]> (queued_by_attempt x))) (entry_queued e),
               Ok false)
          end
      | None =>
          (accepted (set_running x (<[att := op]> (running_by_attempt x))) (entry_running e),
           Ok true)
      end
  end.

Definition undo_accept (x : Executor) (e : PlannedEffect) : Executor :=
  let op := operation e in
  let x := if is_current x e then set_operations x (delete op (operations x)) else x in
  let x := set_in_flight x (remove_if (in_flight_by_attempt x) op) in
  set_running x (remove_if (running_by_attempt x) op).

Definition submit (x : Executor) (e : PlannedEffect) : Executor * Result unit string :=
  match operations x !! operation e with
  | Some entry =>
      if negb (bool_decide (effect entry = e))
      then (x, Err ("operation identity for attempt " +:+ pretty (op_attempt (operation e))
                    +:+ " sequence " +:+ pretty (sequence (operation e))
                    +:+ " was reused with different input"))
      else
        match result entry with
        | Some r => (send x r, Ok tt)
        | None => (x, Ok tt)
        end
  | None =>
      match ledger_accept x e with
      | (x, inr error) => (x, Err error)
      | (x, inl false) => (x, Ok tt)
      | (x, inl true) =>
          match spawn_effect x e with
          | (x, inl _) => (x, Ok tt)
          | (x, inr error) =>
              (undo_accept x e, Err ("blocking effect submission failed: " +:+ error))
          end
      end
  end.

(** The closure of [spawn_effect] from the backend's return on: the [i]-th task ends. *)
Definition finish (x : Executor) (i : nat) (answer : BackendAnswer) : Executor :=
  match tasks x !! i with
  | None => x
  | Some submitted =>
      let x := set_tasks x (delete i (tasks x)) in
      let op := operation submitted in
      let r := mkExecutorResult (e_node submitted) op (checked_answer submitted answer) in
      let publish := is_current x submitted in
      let x :=
        if publish then
          let x := set_operations x (<[op := entry_completed submitted r]> (operations x)) in
          let x := set_in_flight x (remove_if (in_flight_by_attempt x) op) in
          match res_result r with
          | inl outcome => update_resources x (op_attempt op) outcome
          | inr _ => x
          end
        else x in
      let x := set_running x (remove_if (running_by_attempt x) op) in
      let '(x, next) := promote_queued x (op_attempt op) in
      let x := if publish then send x r else x in
      match next with
      | Some next => spawn_promoted 1 x next
      | None => x
      end
  end.
End Executor.
