(* ===== verification/ReconcilerPass.v ===== *)
(** * A reconcile pass, node by node

    [reconcile] plans over all nodes at once and [run_pass] then applies the plan to the live
    state, revalidating every action.  Here it is shown that a pass is one independent step per
    node, [pass_node]: nothing planned is refused, every allocated attempt is fresh and used once,
    and the timer the driver keeps is the earliest any node waits for. *)

From S2P Require Import Prelude NodeModel Reconciler.
#[local] Open Scope N_scope.

(** ** What expansion produces *)

Definition named (m : gmap LogicalNodeId LogicalNodeSpec) : Prop :=
  map_Forall (λ id spec, logical_node_id spec = id) m.

Lemma insert_nodes_named specs m m' : named m → insert_nodes m specs = inl m' → named m'.
Proof.
  elim: specs m => [|s specs IH] m Hm /=; first by intros [= <-].
  case_match; first done. apply IH. by apply map_Forall_insert_2.
Qed.

Lemma expand_groups_named run gs : ∀ ids m m', named m → expand_groups run ids m gs = inl m' → named m'.
Proof.
  elim: gs => [|g gs IH] ids m m' Hm; cbn [expand_groups]; first by intros [= <-].
  do 4 (case_match; [|try done]; try done). intros. eapply IH; [|done]. by eapply insert_nodes_named.
Qed.

Lemma expand_named shape m : expand shape = inl m → named m.
Proof. apply expand_groups_named, map_Forall_empty. Qed.

(** ** The step of one node *)

Record NodeStep := mkNodeStep {
  after : option ManagedNode;
  emitted : option PlannedEffect;
  again : bool;            (* the pass marks the driver dirty *)
  timer : option SystemTime;
}.

Definition replacement (att : NodeAttemptId) (spec : LogicalNodeSpec) (old : ManagedNode)
    : ManagedNode :=
  let fresh := managed_new att spec in
  set_retry fresh (set_consecutive_failures (retry fresh) (consecutive_failures (retry old))).

Definition effect_of (id : LogicalNodeId) (n : ManagedNode) (c : NodeManagerCommand)
    : PlannedEffect :=
  mkPlannedEffect id (mkOperationId (attempt n) (next_operation_sequence n)) c.

Definition op_deadline (pol : RetryPolicy) (now : SystemTime) : SystemTime :=
  default now (time_add now (operation_timeout pol)).

Definition pass_node (pol : RetryPolicy) (now : SystemTime) (att : NodeAttemptId)
    (id : LogicalNodeId) (node : option ManagedNode) (wanted : option LogicalNodeSpec) : NodeStep :=
  match node, wanted with
  | None, None => mkNodeStep None None false None
  | None, Some spec => mkNodeStep (Some (managed_new att spec)) None true None
  | Some n, _ =>
      match dec_action (reconcile_node n wanted now) with
      | None => mkNodeStep (Some n) None false (dec_requeue_at (reconcile_node n wanted now))
      | Some DecBeginDelete => mkNodeStep (Some (begin_delete n)) None true None
      | Some DecMarkDestroyed => mkNodeStep (Some (mark_destroyed n now)) None true None
      | Some (DecRestart spec) => mkNodeStep (Some (replacement att spec n)) None true None
      | Some DecReap => mkNodeStep None None false None
      | Some (DecDispatch c) =>
          let e := effect_of id n c in
          mkNodeStep
            (Some (dispatched n e (op_deadline pol now) (next_operation_sequence n + 1)))
            (Some e) false (Some (op_deadline pol now))
      end
  end.

(** The step takes a fresh attempt. *)
Definition allocates (now : SystemTime) (node : option ManagedNode) (wanted : option LogicalNodeSpec)
    : bool :=
  match node, wanted with
  | None, Some _ => true
  | Some n, _ =>
      match dec_action (reconcile_node n wanted now) with Some (DecRestart _) => true | _ => false end
  | None, None => false
  end.

(** ** Decisions carry no timer, and name only what they may *)

Lemma decision_timer n w now a :
  dec_action (reconcile_node n w now) = Some a → dec_requeue_at (reconcile_node n w now) = None.
Proof.
  unfold reconcile_node, reconcile_destroyed, reconcile_deleting, reconcile_active.
  by repeat case_match.
Qed.

Lemma decides_restart n w now spec :
  dec_action (reconcile_node n w now) = Some (DecRestart spec) →
  stage (record n) = Destroyed ∧ w = Some spec.
Proof.
  unfold reconcile_node, reconcile_destroyed, reconcile_deleting, reconcile_active.
  repeat case_match; simpl; intros; simplify_eq; by repeat case_bool_decide.
Qed.

Lemma decides_reap n w now :
  dec_action (reconcile_node n w now) = Some DecReap → stage (record n) = Destroyed ∧ w = None.
Proof.
  unfold reconcile_node, reconcile_destroyed, reconcile_deleting, reconcile_active.
  repeat case_match; simpl; intros; simplify_eq; by repeat case_bool_decide.
Qed.

Lemma decides_mark_destroyed n w now :
  dec_action (reconcile_node n w now) = Some DecMarkDestroyed →
  pending n = None ∧ active_bootstrap n = None ∧ lease (record n) = None ∧ intent n = Deleting
  ∧ ambiguous_operation (retry n) ≠ Some KCreateLease.
Proof.
  unfold reconcile_node, reconcile_destroyed, reconcile_deleting, reconcile_active.
  repeat case_match; simpl; intros; simplify_eq; by repeat case_bool_decide.
Qed.

Lemma decides_dispatch n w now c :
  dec_action (reconcile_node n w now) = Some (DecDispatch c) →
  pending n = None ∧ stage (record n) ≠ Destroyed.
Proof.
  unfold reconcile_node, reconcile_destroyed, reconcile_deleting, reconcile_active.
  repeat case_match; simpl; intros; simplify_eq; by repeat case_bool_decide.
Qed.

(** ** One planned action, applied *)

(** [d] after the step [st] of node [id], with [next] the next attempt. *)
Definition stepped (d : ClusterDriver) (id : LogicalNodeId) (st : NodeStep) (next : N)
    : ClusterDriver :=
  mkClusterDriver
    (mkClusterState (observed_generation (state d)) next
       (partial_alter (λ _, after st) id (nodes (state d))))
    (d_desired d) (expanded_desired d) (policy d) (queued d) (processing d)
    (dirty d || again st) (earliest (requeue_at d) (timer st)).

Lemma earliest_none r : earliest r None = r.
Proof. by destruct r. Qed.

Lemma current_node_lookup d id n : nodes (state d) !! id = Some n → current_node d id (attempt n) = Some n.
Proof. unfold current_node => ->. by rw bool_decide_true. Qed.

Lemma u64_succ_some x y : u64_succ x = Some y → y = x + 1 ∧ x < u64_max.
Proof. unfold u64_succ. case: N.leb_spec; intros; simplify_eq. lia. Qed.

Lemma apply_insert d spec now att d1 eff :
  nodes (state d) !! logical_node_id spec = None → att = next_attempt_id (state d) →
  apply_action d (ActInsert att spec) now = (d1, inl eff) →
  d1 = stepped d (logical_node_id spec)
         (pass_node (policy d) now att (logical_node_id spec) None (Some spec)) (att + 1)
  ∧ eff = None.
Proof.
  intros Hn -> . unfold apply_action. rw N.eqb_refl Hn. cbn [negb orb].
  rw bool_decide_false; first by intros [].
  case_match eqn:Hs; intros; simplify_eq.
  apply u64_succ_some in Hs as [-> _]. unfold stepped; cbn.
  by rw orb_true_r earliest_none.
Qed.

Lemma apply_decided d id n w now a act0 next d1 eff :
  nodes (state d) !! id = Some n →
  dec_action (reconcile_node n w now) = Some a →
  node_action id n a (next_attempt_id (state d)) = inl (act0, next) →
  apply_action d act0 now = (d1, inl eff) →
  let st := pass_node (policy d) now (next_attempt_id (state d)) id (Some n) w in
  d1 = stepped d id st next ∧ eff = emitted st
  ∧ allocated_attempt act0 ∈ [None; Some (next_attempt_id (state d))]
  ∧ (next = if allocates now (Some n) w then next_attempt_id (state d) + 1
            else next_attempt_id (state d)).
Proof.
  intros Hn Ha Hact Happ. unfold pass_node, allocates. rw Ha.
  destruct a as [| |spec| |c]; cbn [node_action] in Hact.
  - simplify_eq. cbn [apply_action] in Happ. rw (current_node_lookup d id n Hn) in Happ.
    simplify_eq. unfold stepped; cbn. rw orb_true_r earliest_none. set_solver.
  - simplify_eq. apply decides_mark_destroyed in Ha as (Hp & Hb & Hl & _).
    cbn [apply_action] in Happ. rw (current_node_lookup d id n Hn) Hp Hb Hl in Happ.
    cbn in Happ. simplify_eq. unfold stepped; cbn. rw orb_true_r earliest_none. set_solver.
  - apply decides_restart in Ha as [Hst ->]. unfold allocate_attempt in Hact.
    case_match eqn:Hs; simplify_eq. case_match eqn:Hs'; simplify_eq.
    cbn [apply_action fst snd] in Happ. rw N.eqb_refl Hn in Happ. cbn [negb] in Happ.
    rw !bool_decide_true // Hs' in Happ. cbn in Happ. simplify_eq.
    apply u64_succ_some in Hs' as [-> _].
    unfold stepped; cbn. rw orb_true_r earliest_none. set_solver.
  - simplify_eq. apply decides_reap in Ha as [Hst ->].
    cbn [apply_action] in Happ. rw Hn !bool_decide_true // in Happ. cbn in Happ. simplify_eq.
    unfold stepped; cbn. rw orb_false_r earliest_none. set_solver.
  - simplify_eq. apply decides_dispatch in Ha as [Hp _].
    cbn [apply_action e_node operation op_attempt sequence] in Happ.
    rw (current_node_lookup d id n Hn) Hp N.eqb_refl in Happ. cbn [is_Some negb orb] in Happ.
    rw bool_decide_false in Happ; first by intros []. cbn [orb] in Happ.
    case_match eqn:Hs; simplify_eq. apply u64_succ_some in Hs as [-> _].
    unfold stepped; cbn. rw orb_false_r. set_solver.
Qed.

(** ** A pass *)

Definition covers (r : option SystemTime) (t : SystemTime) : Prop := ∃ r', r = Some r' ∧ r' ≤ t.

Lemma covers_earliest_l r s t : covers r t → covers (earliest r s) t.
Proof. intros (r' & -> & ?). destruct s; eexists; split; [done|lia|done|lia]. Qed.
Lemma covers_earliest_r r s t : covers s t → covers (earliest r s) t.
Proof. intros (r' & -> & ?). destruct r; eexists; split; [done|lia|done|lia]. Qed.
Lemma covers_refl t : covers (Some t) t.
Proof. exists t. split; [done|lia]. Qed.

(** [d'] is [d] after the step of every node among [keys]; [alloc] is the attempt each step that
    takes one was given. *)
Record Passed (wanted : gmap LogicalNodeId LogicalNodeSpec) (now : SystemTime)
    (keys : list LogicalNodeId) (rq : option SystemTime) (alloc : LogicalNodeId → NodeAttemptId)
    (d d' : ClusterDriver) (effs : list PlannedEffect) : Prop := mkPassed {
  ps_step := λ id, pass_node (policy d) now (alloc id) id (nodes (state d) !! id) (wanted !! id);
  ps_in : ∀ id, id ∈ keys → nodes (state d') !! id = after (ps_step id);
  ps_out : ∀ id, id ∉ keys → nodes (state d') !! id = nodes (state d) !! id;
  ps_effects : effs = omap (λ id, emitted (ps_step id)) keys;
  ps_dirty : dirty d' = dirty d || existsb (λ id, again (ps_step id)) keys;
  ps_keeps : ∀ t, covers (requeue_at d) t → covers (requeue_at d') t;
  ps_timer : ∀ id t, id ∈ keys → timer (ps_step id) = Some t → covers rq t ∨ covers (requeue_at d') t;
  ps_next : next_attempt_id (state d) ≤ next_attempt_id (state d');
  ps_alloc : ∀ id, id ∈ keys → allocates now (nodes (state d) !! id) (wanted !! id) = true →
    next_attempt_id (state d) ≤ alloc id < next_attempt_id (state d');
  ps_fresh : ∀ id id', id ∈ keys → id' ∈ keys →
    allocates now (nodes (state d) !! id) (wanted !! id) = true →
    allocates now (nodes (state d) !! id') (wanted !! id') = true → alloc id = alloc id' → id = id';
  ps_frame : d_desired d' = d_desired d ∧ expanded_desired d' = expanded_desired d
    ∧ policy d' = policy d ∧ queued d' = queued d ∧ processing d' = processing d
    ∧ observed_generation (state d') = observed_generation (state d);
}.

Lemma passed_nil wanted now rq alloc d : Passed wanted now [] rq alloc d d [].
Proof.
  split; try done; try set_solver; try lia. by rw orb_false_r.
Qed.

(** A first step of [id], then a pass over the others; [r] is the timer in between. *)
Lemma passed_cons wanted now keys rq rq' alloc d d' effs id st next r :
  let att := next_attempt_id (state d) in
  st = pass_node (policy d) now att id (nodes (state d) !! id) (wanted !! id) →
  next = (if allocates now (nodes (state d) !! id) (wanted !! id) then att + 1 else att) →
  id ∉ keys →
  Passed wanted now keys rq alloc (set_requeue_at (stepped d id st next) r) d' effs →
  (∀ t, covers rq t → covers rq' t) →
  (∀ t, covers (requeue_at d) t → covers r t) →
  (∀ t, timer st = Some t → covers rq' t ∨ covers r t) →
  Passed wanted now (id :: keys) rq' (λ k, if decide (k = id) then att else alloc k) d d'
    (option_list (emitted st) ++ effs).
Proof.
  intros att Est Enext Hid [Hstep Hin Hout He Hd Hk Ht Hnx Hal Hfr Hframe] Hrq Hr Hrt.
  assert (Hst : ∀ k, k ∈ keys → Hstep k = pass_node (policy d) now
      (if decide (k = id) then att else alloc k) k (nodes (state d) !! k) (wanted !! k)).
  { intros k Hk'. unfold Hstep, stepped; cbn. rw (decide_False (P := k = id)); first by intros ->.
    by rw lookup_partial_alter_ne; [intros ->|]. }
  assert (Hne : ∀ k, k ∈ keys →
      nodes (state (set_requeue_at (stepped d id st next) r)) !! k = nodes (state d) !! k).
  { intros k Hk'. cbn. by rw lookup_partial_alter_ne; [intros ->|]. }
  assert (Hatt : att ≤ next) by (rw Enext; case_match; lia).
  split; cbn in *.
  - intros k [->|Hk']%elem_of_cons.
    + rw Hout // lookup_partial_alter_eq // decide_True //. by rw Est.
    + rw Hin // Hst //.
  - intros k [? ?]%not_elem_of_cons. rw Hout // lookup_partial_alter_ne //.
  - rw decide_True // -Est. destruct (emitted st); cbn; rw He;
      [f_equal|]; apply list_omap_ext, Forall2_same_length_lookup_2; try done;
      intros ??? Hx Hy; simplify_eq; by rw Hst; [eapply list_elem_of_lookup_2|].
  - rw Hd decide_True // -Est orb_assoc. f_equal.
    clear -Hst. induction keys as [|k keys IH]; [done|]. cbn. rw Hst; first set_solver.
    f_equal. apply IH. set_solver.
  - intros t Hc. by apply Hk, Hr.
  - intros k t [->|Hk']%elem_of_cons.
    + rw decide_True // -Est => Et. destruct (Hrt t Et); auto.
    + rw -Hst // => Et. destruct (Ht k t Hk' Et); auto.
  - lia.
  - intros k [->|Hk']%elem_of_cons Hall.
    + rw decide_True // in Enext |- *. rw Hall in Enext. unfold att in *. lia.
    + rw decide_False; first by intros ->. rw -(Hne k Hk') in Hall. specialize (Hal k Hk' Hall). lia.
  - intros k k' [->|Hk']%elem_of_cons [->|Hk'']%elem_of_cons Ha Ha'; try done.
    + rw decide_True // decide_False; first by intros ->. rw Ha in Enext.
      rw -(Hne k' Hk'') in Ha'. specialize (Hal k' Hk'' Ha'). lia.
    + rw decide_False; first by intros ->. rw decide_True //. rw Ha' in Enext.
      rw -(Hne k Hk') in Ha. specialize (Hal k Hk' Ha). lia.
    + rw !decide_False; [by intros ->|by intros ->|].
      rw -(Hne k Hk') in Ha. rw -(Hne k' Hk'') in Ha'. by apply Hfr.
  - done.
Qed.

(** The first step applied an action. *)
Lemma passed_act wanted now keys rq rq' alloc d d' effs id w st next :
  let att := next_attempt_id (state d) in
  w = nodes (state d) !! id →
  st = pass_node (policy d) now att id w (wanted !! id) →
  next = (if allocates now w (wanted !! id) then att + 1 else att) →
  id ∉ keys →
  Passed wanted now keys rq alloc (stepped d id st next) d' effs →
  (∀ t, covers rq t → covers rq' t) →
  Passed wanted now (id :: keys) rq' (λ k, if decide (k = id) then att else alloc k) d d'
    (option_list (emitted st) ++ effs).
Proof.
  intros att -> Est Enext Hid HP Hrq.
  apply (passed_cons _ _ _ rq _ _ _ _ _ _ _ next (earliest (requeue_at d) (timer st)));
    [done..| |].
  - intros t. apply covers_earliest_l.
  - intros t Et. right. apply covers_earliest_r. rw Et. apply covers_refl.
Qed.

(** The node decides to wait: the driver is unchanged. *)
Lemma stepped_wait d id n w now att :
  nodes (state d) !! id = Some n → dec_action (reconcile_node n w now) = None →
  set_requeue_at (stepped d id (pass_node (policy d) now att id (Some n) w)
    (next_attempt_id (state d))) (requeue_at d) = d.
Proof.
  intros Hn Ha. unfold pass_node, stepped, set_requeue_at. rw Ha. cbn.
  rw partial_alter_id //. rw orb_false_r. by destruct d as [[] ].
Qed.

Lemma stepped_none d id now att :
  nodes (state d) !! id = None →
  set_requeue_at (stepped d id (pass_node (policy d) now att id None None)
    (next_attempt_id (state d))) (requeue_at d) = d.
Proof.
  intros Hn. unfold pass_node, stepped, set_requeue_at. cbn.
  rw partial_alter_id //. rw orb_false_r. by destruct d as [[] ].
Qed.

Lemma node_action_alloc id n a next act0 next' :
  node_action id n a next = inl (act0, next') →
  allocated_attempt act0 = None ∨ allocated_attempt act0 = Some next.
Proof.
  destruct a; cbn; intros; simplify_eq; auto.
  unfold allocate_attempt in *. repeat case_match; simplify_eq; auto.
Qed.

(** A planned action is applied, never skipped as a mismatch. *)
Lemma apply_actions_cons d act0 acts now d' effs :
  allocated_attempt act0 = None ∨ allocated_attempt act0 = Some (next_attempt_id (state d)) →
  apply_actions d true (act0 :: acts) now = (d', inl effs) →
  ∃ d1 eff effs', apply_action d act0 now = (d1, inl eff) ∧
    apply_actions d1 true acts now = (d', inl effs') ∧ effs = option_list eff ++ effs'.
Proof.
  intros Hal. cbn [apply_actions].
  assert (match allocated_attempt act0 with
          | Some att => negb true || negb (att =? next_attempt_id (state d))
          | None => false end = false) as ->.
  { destruct Hal as [->| ->]; [done|]. by rw N.eqb_refl. }
  repeat case_match; intros; simplify_eq. eauto 6.
Qed.

Lemma reconcile_applied wanted now obs : named wanted → ∀ keys d acts rq d' effs,
  NoDup keys → (∀ id, id ∈ keys → nodes (state d) !! id = obs !! id) →
  reconcile_keys obs wanted now keys (next_attempt_id (state d)) = inl (acts, rq) →
  apply_actions d true acts now = (d', inl effs) →
  ∃ alloc, Passed wanted now keys rq alloc d d' effs.
Proof.
  intros Hnamed. induction keys as [|id keys IH]; intros d acts rq d' effs Hnd Hobs Hplan Happ.
  { injection Hplan as <- <-. cbn in Happ. simplify_eq. exists (λ _, 0). apply passed_nil. }
  apply NoDup_cons in Hnd as [Hid Hnd].
  cbn [reconcile_keys] in Hplan.
  assert (Hobs' : ∀ st next k, k ∈ keys → nodes (state (stepped d id st next)) !! k = obs !! k).
  { intros. cbn. rw lookup_partial_alter_ne; first by intros ->. apply Hobs. set_solver. }
  assert (Hn : nodes (state d) !! id = obs !! id) by (apply Hobs; set_solver).
  destruct (obs !! id) as [n|] eqn:Eo; [|destruct (wanted !! id) as [spec|] eqn:Ew].
  - destruct (dec_action (reconcile_node n (wanted !! id) now)) as [a|] eqn:Ha.
    + destruct (node_action id n a _) as [[act0 next]|] eqn:Hact; [|done]. cbn [fst snd] in Hplan.
      destruct (reconcile_keys obs wanted now keys next) as [[acts' rq']|] eqn:Hrest; [|done].
      injection Hplan as <- <-. cbn [fst snd].
      apply apply_actions_cons in Happ as (d1 & eff & effs' & Hstep & Happ & ->);
        last by eapply node_action_alloc.
      destruct (apply_decided d id n _ now a act0 next d1 eff Hn Ha Hact Hstep)
        as (-> & -> & _ & Enext).
      destruct (IH _ _ _ _ _ Hnd (Hobs' _ _) Hrest Happ) as [alloc HP].
      eexists. eapply passed_act; [exact (eq_sym Hn)|exact eq_refl|exact Enext|exact Hid|exact HP|].
      intros t. apply covers_earliest_r.
    + destruct (reconcile_keys obs wanted now keys _) as [[acts' rq']|] eqn:Hrest; [|done].
      injection Hplan as <- <-. cbn [fst snd].
      destruct (IH d _ _ _ _ Hnd ltac:(set_solver) Hrest Happ) as [alloc HP].
      eexists. rw -(stepped_wait d id n (wanted !! id) now (next_attempt_id (state d)) Hn Ha) in HP.
      change effs with (option_list None ++ effs).
      replace None with (emitted (pass_node (policy d) now (next_attempt_id (state d)) id
        (nodes (state d) !! id) (wanted !! id))); last by rw Hn; cbn; rw Ha.
      eapply passed_cons; [done|by rw Hn; cbn; rw Ha|done|by rw Hn| | |].
      * intros t. apply covers_earliest_r.
      * done.
      * intros t. rw Hn. cbn. rw Ha. cbn. intros ->. left. apply covers_earliest_l, covers_refl.
  - unfold allocate_attempt in Hplan. destruct (u64_succ _) eqn:Hs; [|done]. cbn [fst snd] in Hplan.
    destruct (reconcile_keys obs wanted now keys _) as [[acts' rq']|] eqn:Hrest; [|done].
    injection Hplan as <- <-. cbn [fst snd].
    apply apply_actions_cons in Happ as (d1 & eff & effs' & Hstep & Happ & ->); last by right.
    pose proof (Hnamed id spec Ew) as <-.
    apply apply_insert in Hstep as [-> ->]; [|done..].
    apply u64_succ_some in Hs as [-> _].
    destruct (IH _ _ _ _ _ Hnd (Hobs' _ _) Hrest Happ) as [alloc HP].
    eexists.
    eapply (passed_act wanted now keys rq' rq' alloc d d' effs' _ None
      (pass_node _ now (next_attempt_id (state d)) _ None (Some spec)));
      [done|by rw Ew|by rw Ew|exact Hid|exact HP|done].
  - destruct (IH d _ _ _ _ Hnd ltac:(set_solver) Hplan Happ) as [alloc HP].
    eexists. rw -(stepped_none d id now (next_attempt_id (state d)) Hn) in HP.
    eapply (passed_cons wanted now keys rq rq alloc d d' effs id
      (pass_node (policy d) now (next_attempt_id (state d)) id None None));
      [by rw Hn Ew|by rw Hn Ew|exact Hid|exact HP|done..].
Qed.

(** ** The whole pass *)

(** The shape the driver holds is the one it expanded. *)
Definition shaped (d : ClusterDriver) : Prop := expand (d_desired d) = inl (expanded_desired d).

Definition node_step (now : SystemTime) (alloc : LogicalNodeId → NodeAttemptId) (d : ClusterDriver)
    (id : LogicalNodeId) : NodeStep :=
  pass_node (policy d) now (alloc id) id (nodes (state d) !! id) (expanded_desired d !! id).

Definition takes_attempt (now : SystemTime) (d : ClusterDriver) (id : LogicalNodeId) : bool :=
  allocates now (nodes (state d) !! id) (expanded_desired d !! id).

Record Pass (now : SystemTime) (alloc : LogicalNodeId → NodeAttemptId) (d d' : ClusterDriver)
    (effs : list PlannedEffect) : Prop := mkPass {
  pass_nodes : ∀ id, nodes (state d') !! id = after (node_step now alloc d id);
  pass_effects : ∀ e, e ∈ effs ↔ ∃ id, emitted (node_step now alloc d id) = Some e;
  pass_effects_nodup : NoDup (e_node <$> effs);
  pass_dirty : dirty d' = true ↔ dirty d = true ∨ ∃ id, again (node_step now alloc d id) = true;
  pass_timer : ∀ id t, timer (node_step now alloc d id) = Some t → covers (requeue_at d') t;
  pass_next : next_attempt_id (state d) ≤ next_attempt_id (state d');
  pass_alloc : ∀ id, takes_attempt now d id = true →
    next_attempt_id (state d) ≤ alloc id < next_attempt_id (state d');
  pass_fresh : ∀ id id', takes_attempt now d id = true → takes_attempt now d id' = true →
    alloc id = alloc id' → id = id';
  pass_frame : d_desired d' = d_desired d ∧ expanded_desired d' = expanded_desired d
    ∧ policy d' = policy d ∧ queued d' = queued d ∧ processing d' = processing d
    ∧ observed_generation (state d') = generation (d_desired d);
}.

Lemma emitted_node pol now att id n w e :
  emitted (pass_node pol now att id n w) = Some e → e_node e = id.
Proof. unfold pass_node. by repeat case_match; cbn; intros; simplify_eq. Qed.

Lemma emitted_nodup (f : LogicalNodeId → option PlannedEffect) keys :
  (∀ id e, f id = Some e → e_node e = id) → NoDup keys → NoDup (e_node <$> omap f keys).
Proof.
  intros Hf. induction 1 as [|id keys Hid _ IH]; cbn; first constructor.
  destruct (f id) as [e|] eqn:He; [|done]. cbn. constructor; [|done].
  rw (Hf id e He). intros (e' & Heq & (id' & Hin & He')%list_elem_of_omap)%list_elem_of_fmap.
  apply Hf in He'. congruence.
Qed.

Lemma run_pass_spec d now d' effs :
  shaped d → run_pass d now = (d', inl effs) → ∃ alloc, Pass now alloc d d' effs.
Proof.
  unfold shaped, run_pass, reconcile. intros Hs. rw Hs.
  set keys := sort_by str_le _.
  destruct (reconcile_keys _ _ _ _ _) as [[acts rq]|] eqn:Hplan; [|done]. cbn [fst snd].
  cbn [plan_requeue_at actions plan_generation].
  destruct (apply_actions _ _ _ _) as [d1 [effs'|]] eqn:Happ; [|done]. intros; simplify_eq.
  pose proof (sort_by_perm str_le (elements (dom (nodes (state d)) ∪ dom (expanded_desired d)))) as Hperm.
  fold keys in Hperm.
  assert (Hnd : NoDup keys) by (rw Hperm; apply NoDup_elements).
  destruct (reconcile_applied (expanded_desired d) now (nodes (state d)) (expand_named _ _ Hs) keys
    (set_requeue_at d rq) acts rq d1 effs Hnd) as [alloc [step Hin Hout He Hd Hk Ht Hnx Hal Hfr Hframe]];
    [done..|].
  assert (Hkeys : ∀ id, id ∉ keys →
      nodes (state d) !! id = None ∧ expanded_desired d !! id = None).
  { intros id. rw Hperm elem_of_elements not_elem_of_union !not_elem_of_dom. done. }
  assert (Habsent : ∀ id, id ∉ keys → node_step now alloc d id = mkNodeStep None None false None).
  { intros id [E1 E2]%Hkeys. unfold node_step. by rw E1 E2. }
  assert (Htakes : ∀ id, takes_attempt now d id = true → id ∈ keys).
  { intros id. destruct (decide (id ∈ keys)) as [|[E1 E2]%Hkeys]; [done|].
    unfold takes_attempt. by rw E1 E2. }
  exists alloc. split; cbn; try done.
  - intros id. destruct (decide (id ∈ keys)) as [|Hid]; [by apply Hin|].
    rw Hout // Habsent //=. by apply Hkeys.
  - intros e. rw He list_elem_of_omap. split; [intros (id & _ & ?); by exists id|].
    intros [id Hid]. exists id. split; [|done].
    destruct (decide (id ∈ keys)) as [|E]; [done|]. by rw Habsent in Hid.
  - rw He. apply emitted_nodup; [|done]. intros id e. apply emitted_node.
  - rw Hd orb_true_iff existsb_exists. apply or_iff_compat_l. split.
    + intros (id & _ & ?). by exists id.
    + intros [id Hid]. exists id. split; [|done]. apply list_elem_of_In.
      destruct (decide (id ∈ keys)) as [|E]; [done|]. by rw Habsent in Hid.
  - intros id t Et. destruct (decide (id ∈ keys)) as [Hid|E]; last by rw Habsent in Et.
    destruct (Ht id t Hid Et) as [|]; auto.
  - intros id Hid. by apply Hal; [apply Htakes|].
  - intros id id' Hid Hid'. by apply Hfr; [apply Htakes|apply Htakes| |].
  - destruct Hframe as (? & ? & ? & ? & ? & ?). done.
Qed.

(** ** A pass fails only when a counter is used up *)

(** The attempts a pass may take, and every node's operation sequence, still fit [u64]. *)
Definition roomy (d : ClusterDriver) : Prop :=
  next_attempt_id (state d) + N.of_nat (size (dom (nodes (state d)) ∪ dom (expanded_desired d))) ≤ u64_max
  ∧ ∀ id n, nodes (state d) !! id = Some n → next_operation_sequence n < u64_max.

Lemma u64_succ_room x : x < u64_max → u64_succ x = Some (x + 1).
Proof. intros. unfold u64_succ. case: N.leb_spec; [done|lia]. Qed.

Lemma node_action_room id n a next :
  next < u64_max → ∃ act0 next', node_action id n a next = inl (act0, next') ∧ next' ≤ next + 1.
Proof.
  intros Hn. destruct a; cbn; eauto with lia.
  unfold allocate_attempt. rw u64_succ_room //. eexists _, _. split; [done|]. cbn. lia.
Qed.

Lemma reconcile_keys_room obs wanted now keys : ∀ next,
  next + N.of_nat (length keys) ≤ u64_max → ∃ r, reconcile_keys obs wanted now keys next = inl r.
Proof.
  elim: keys => [|id keys IH] next Hroom; first by eexists. cbn [reconcile_keys].
  cbn [length] in Hroom.
  assert (Hrest : ∀ next', next' ≤ next + 1 → ∃ r, reconcile_keys obs wanted now keys next' = inl r)
    by (intros; apply IH; lia).
  destruct (obs !! id) as [n|]; [|destruct (wanted !! id)].
  - destruct (dec_action _) as [a|].
    + destruct (node_action_room id n a next) as (act0 & next' & -> & Hle); [lia|].
      destruct (Hrest next' Hle) as [r Hr]. cbn [snd]. rw Hr. by eexists.
    + destruct (Hrest next) as [r ->]; [lia|]. by eexists.
  - unfold allocate_attempt. rw u64_succ_room; [lia|]. cbn [fst snd].
    destruct (Hrest (next + 1)) as [r ->]; [lia|]. by eexists.
  - apply Hrest. lia.
Qed.

Lemma apply_action_room d id n a now act0 next :
  nodes (state d) !! id = Some n → next_attempt_id (state d) < u64_max →
  next_operation_sequence n < u64_max →
  node_action id n a (next_attempt_id (state d)) = inl (act0, next) →
  ∃ d1 eff, apply_action d act0 now = (d1, inl eff).
Proof.
  intros Hn Hnext Hseq Hact. destruct a; cbn [node_action] in Hact.
  3: { unfold allocate_attempt in Hact. rw u64_succ_room // in Hact. simplify_eq.
       cbn [apply_action fst snd]. rw N.eqb_refl Hn u64_succ_room //. cbn [negb].
       case_match; eauto. }
  all: simplify_eq; cbn [apply_action e_node operation op_attempt sequence].
  all: rw ?(current_node_lookup d id n Hn) ?Hn ?(u64_succ_room (next_operation_sequence n)) //;
    repeat case_match; eauto.
Qed.

Lemma apply_actions_room wanted now obs : named wanted → ∀ keys d acts rq,
  NoDup keys → (∀ id, id ∈ keys → nodes (state d) !! id = obs !! id) →
  (∀ id n, obs !! id = Some n → next_operation_sequence n < u64_max) →
  next_attempt_id (state d) + N.of_nat (length keys) ≤ u64_max →
  reconcile_keys obs wanted now keys (next_attempt_id (state d)) = inl (acts, rq) →
  ∃ d' effs, apply_actions d true acts now = (d', inl effs).
Proof.
  intros Hnamed. induction keys as [|id keys IH]; intros d acts rq Hnd Hobs Hseq Hroom Hplan.
  { injection Hplan as <- <-. by eexists _, _. }
  apply NoDup_cons in Hnd as [Hid Hnd]. cbn [reconcile_keys] in Hplan. cbn [length] in Hroom.
  assert (Hobs' : ∀ st next k, k ∈ keys → nodes (state (stepped d id st next)) !! k = obs !! k).
  { intros. cbn. rw lookup_partial_alter_ne; first by intros ->. apply Hobs. set_solver. }
  assert (Hn : nodes (state d) !! id = obs !! id) by (apply Hobs; set_solver).
  assert (Hcons : ∀ act0 acts' d1 eff,
      allocated_attempt act0 = None ∨ allocated_attempt act0 = Some (next_attempt_id (state d)) →
      apply_action d act0 now = (d1, inl eff) →
      (∃ d' effs, apply_actions d1 true acts' now = (d', inl effs)) →
      ∃ d' effs, apply_actions d true (act0 :: acts') now = (d', inl effs)).
  { intros act0 acts' d1 eff Hal H1 (d' & effs & H2). cbn [apply_actions].
    assert (match allocated_attempt act0 with
            | Some att => negb true || negb (att =? next_attempt_id (state d))
            | None => false end = false) as ->.
    { destruct Hal as [->| ->]; [done|]. by rw N.eqb_refl. }
    rw H1 H2. by eexists _, _. }
  destruct (obs !! id) as [n|] eqn:Eo; [|destruct (wanted !! id) as [spec|] eqn:Ew].
  - destruct (dec_action (reconcile_node n (wanted !! id) now)) as [a|] eqn:Ha.
    + destruct (node_action_room id n a (next_attempt_id (state d)))
        as (act0 & next & Hact & Hle); [lia|]. rw Hact in Hplan. cbn [fst snd] in Hplan.
      destruct (reconcile_keys obs wanted now keys next) as [[acts' rq']|] eqn:Hrest; [|done].
      injection Hplan as <- <-. cbn [fst].
      destruct (apply_action_room d id n a now act0 next Hn) as (d1 & eff & Hstep);
        [lia|by eapply Hseq|done|].
      eapply Hcons; [by eapply node_action_alloc|exact Hstep|].
      destruct (apply_decided d id n _ now a act0 next d1 eff Hn Ha Hact Hstep) as (-> & _).
      apply (IH _ _ rq' Hnd (Hobs' _ _) Hseq); [|done]. cbn. lia.
    + destruct (reconcile_keys obs wanted now keys _) as [[acts' rq']|] eqn:Hrest; [|done].
      injection Hplan as <- <-. apply (IH d _ rq' Hnd); [set_solver|done|lia|done].
  - unfold allocate_attempt in Hplan. rw u64_succ_room in Hplan; [lia|]. cbn [fst snd] in Hplan.
    destruct (reconcile_keys obs wanted now keys _) as [[acts' rq']|] eqn:Hrest; [|done].
    injection Hplan as <- <-. cbn [fst]. pose proof (Hnamed id spec Ew) as <-.
    assert (Hstep : ∃ d1 eff, apply_action d (ActInsert (next_attempt_id (state d)) spec) now = (d1, inl eff)).
    { cbn [apply_action]. rw u64_succ_room; [lia|]. case_match; eauto. }
    destruct Hstep as (d1 & eff & Hstep).
    eapply Hcons; [by right|exact Hstep|].
    apply apply_insert in Hstep as [-> _]; [|done..].
    apply (IH _ _ rq' Hnd (Hobs' _ _) Hseq); [|done]. cbn. lia.
  - apply (IH d _ rq Hnd); [set_solver|done|lia|done].
Qed.

Lemma run_pass_room d now : shaped d → roomy d → ∃ d' effs, run_pass d now = (d', inl effs).
Proof.
  intros Hs [Hnext Hseq]. unfold shaped in Hs. unfold run_pass, reconcile. rw Hs.
  set keys := sort_by str_le _.
  pose proof (sort_by_perm str_le (elements (dom (nodes (state d)) ∪ dom (expanded_desired d)))) as Hperm.
  fold keys in Hperm.
  assert (Hlen : length keys = size (dom (nodes (state d)) ∪ dom (expanded_desired d)))
    by (by rw Hperm).
  destruct (reconcile_keys_room (nodes (state d)) (expanded_desired d) now keys
    (next_attempt_id (state d))) as [[acts rq] Hplan]; [by rw Hlen|]. rw Hplan. cbn [fst snd].
  cbn [plan_requeue_at actions].
  destruct (apply_actions_room (expanded_desired d) now (nodes (state d)) (expand_named _ _ Hs) keys
    (set_requeue_at d rq) acts rq) as (d' & effs & ->); try done.
  - rw Hperm. apply NoDup_elements.
  - cbn. by rw Hlen.
  - by eexists _, _.
Qed.

(** ** Observations keep a node's identity *)

Definition same_identity (n n' : ManagedNode) : Prop :=
  attempt n' = attempt n ∧ next_operation_sequence n' = next_operation_sequence n.

Lemma finish_bootstrap_identity n now pol : same_identity n (finish_bootstrap n now pol).
Proof. unfold finish_bootstrap. by destruct (swactor (record n)). Qed.

Lemma observe_bootstrap_identity n s o now pol : same_identity n (observe_bootstrap n s o now pol).
Proof.
  unfold observe_bootstrap. cbv zeta. set m := set_record n _.
  assert (Hm : same_identity n m) by done. clearbody m.
  case_match; first done.
  case_match; try done.
  all: unfold same_identity; destruct Hm as [<- <-]; apply finish_bootstrap_identity.
Qed.

Lemma record_failure_identity n k e now pol : same_identity n (record_failure n k e now pol).
Proof. unfold record_failure. cbv zeta. case_match; [done|]. by case_match. Qed.

Lemma observe_outcome_identity n o now pol : same_identity n (observe_outcome n o now pol).
Proof. by destruct o as [[l [|]]|[|]| | | |]. Qed.

Lemma observe_frame n obs now pol : same_identity n (observe n obs now pol).
Proof.
  destruct obs; cbn [observe].
  1: destruct (pending n); [|done]; case_match; [|done];
     apply (observe_outcome_identity (set_retry (set_pending n None) _)).
  1: destruct (pending n); [|done]; case_match; [|done];
     apply (record_failure_identity (set_pending n None)).
  all: do 2 (case_match; try done).
  - apply observe_bootstrap_identity.
  - apply finish_bootstrap_identity.
Qed.
