(* ===== verification/ReconcilerLive.v ===== *)
(** * The driver neither loops nor sleeps through work

    [drive_until_blocked] ends, with any executor, after a number of passes that does not depend
    on the cluster; and a driver that is not queued has nothing to do until the time it asked to
    be woken at. *)

From S2P Require Import Prelude NodeModel Reconciler ReconcilerPass.
#[local] Open Scope N_scope.

(** ** Waiting *)

(** A node that waits gets something to do only when its timer runs out. *)
Lemma wait_until n w now now' :
  dec_action (reconcile_node n w now) = None → now ≤ now' →
  dec_action (reconcile_node n w now') ≠ None →
  ∃ t, dec_requeue_at (reconcile_node n w now) = Some t ∧ t ≤ now'.
Proof.
  assert (Hyet : ∀ o t, not_yet o now = Some t → now ≤ now' →
      t ≤ now' ∨ not_yet o now' = not_yet o now).
  { intros [o|] t; cbn; [|done]. case: N.ltb_spec; [|done]. intros ? [= <-] ?.
    case: N.ltb_spec; [by right|by left]. }
  assert (Hpast : ∀ o, not_yet o now = None → now ≤ now' → not_yet o now' = None).
  { intros [o|]; cbn; [|done]. case: N.ltb_spec; [done|]. intros ? _ ?. case: N.ltb_spec; [lia|done]. }
  intros Hd Hle Hd'. revert Hd Hd'. unfold reconcile_node.
  case_match.
  { unfold reconcile_destroyed. destruct w as [spec|]; [|done].
    destruct (not_yet (restart_at (retry n)) now) as [t|] eqn:E; [|done]. cbn. intros _.
    destruct (Hyet _ _ E Hle) as [|E']; [eauto|]. rw E' E. done. }
  case_match; first done.
  case_match; first done.
  case_match.
  - unfold reconcile_deleting. destruct (not_yet (next_effect_at (retry n)) now) as [t|] eqn:E.
    + cbn. intros _. destruct (Hyet _ _ E Hle) as [|E']; [eauto|]. rw E' E. done.
    + rw (Hpast _ E Hle). done.
  - unfold reconcile_active. destruct (not_yet (next_effect_at (retry n)) now) as [t|] eqn:E.
    + cbn. intros _. destruct (Hyet _ _ E Hle) as [|E']; [eauto|]. rw E' E. done.
    + rw (Hpast _ E Hle). done.
Qed.

(** The node is not to be deleted, and what it waits for is a pending operation. *)
Definition not_begin (n : ManagedNode) (w : option LogicalNodeSpec) : Prop :=
  stage (record n) ≠ Destroyed
  ∧ (intent n = Active → w = Some (desired (record n)) ∧ stage (record n) ≠ Failed).

Lemma not_begin_node n w now :
  not_begin n w → reconcile_node n w now =
    match pending n with
    | Some p => wait (Some (deadline p))
    | None => match intent n with
              | Deleting => reconcile_deleting n now
              | Active => reconcile_active n now
              end
    end.
Proof.
  intros [Hs Ha]. unfold reconcile_node. rw bool_decide_false //.
  destruct (intent n) eqn:Ei; cbn.
  - destruct (Ha eq_refl) as [-> Hf].
    rw (bool_decide_false (Some _ ≠ Some _)); first by intros [].
    by rw (bool_decide_false (_ = Failed)).
  - done.
Qed.

Lemma dispatch_not_begin n w now c :
  dec_action (reconcile_node n w now) = Some (DecDispatch c) → not_begin n w.
Proof.
  unfold reconcile_node. case_bool_decide as Hs.
  { unfold reconcile_destroyed. by repeat case_match. }
  destruct (bool_decide (intent n = Active) && _) eqn:Hb; [done|]. intros _. split; [done|].
  intros Hi. rw bool_decide_true // in Hb. cbn in Hb.
  apply orb_false_iff in Hb as [Hw%bool_decide_eq_false Hf%bool_decide_eq_false].
  split; [|done]. by apply dec_stable.
Qed.

Lemma dispatched_record n e dl s :
  desired (record (dispatched n e dl s)) = desired (record n)
  ∧ intent (dispatched n e dl s) = intent n
  ∧ (stage (record n) ≠ Destroyed → stage (record (dispatched n e dl s)) ≠ Destroyed)
  ∧ (stage (record n) ≠ Failed → stage (record (dispatched n e dl s)) ≠ Failed)
  ∧ lease (record (dispatched n e dl s)) = lease (record n)
  ∧ active_bootstrap (dispatched n e dl s) = active_bootstrap n
  ∧ retry (dispatched n e dl s) = retry n ∧ attempt (dispatched n e dl s) = attempt n.
Proof. unfold dispatched. by case_match. Qed.

Lemma dispatched_waits n w now c e dl s :
  dec_action (reconcile_node n w now) = Some (DecDispatch c) → not_begin (dispatched n e dl s) w.
Proof.
  intros [H1 H2]%dispatch_not_begin.
  destruct (dispatched_record n e dl s) as (E1 & E2 & E3 & E4 & _).
  split; [by apply E3|]. rw E1 E2. intros [? ?]%H2. split; [done|]. by apply E4.
Qed.

(** ** Submission *)

Definition same_frame (d d' : ClusterDriver) : Prop :=
  d_desired d' = d_desired d ∧ expanded_desired d' = expanded_desired d ∧ policy d' = policy d
  ∧ queued d' = queued d ∧ processing d' = processing d ∧ requeue_at d' = requeue_at d.

(** What the submissions of a pass do to one node: nothing, or its operation has failed. *)
Definition submission_of (d : ClusterDriver) (now : SystemTime) (effs : list PlannedEffect)
    (d' : ClusterDriver) (id : LogicalNodeId) : Prop :=
  nodes (state d') !! id = nodes (state d) !! id
  ∨ dirty d' = true ∧ ∃ e n why, e ∈ effs ∧ e_node e = id ∧ nodes (state d) !! id = Some n
    ∧ nodes (state d') !! id
      = Some (observe n (ObsOperationFailed (operation e) (mkEffectError why Definite)) now (policy d)).

Lemma submission_failed_spec d e why now :
  processing d = true → let d' := (submission_failed d e why now).1 in
  same_frame d d' ∧ (dirty d = true → dirty d' = true)
  ∧ (∀ id, id ≠ e_node e → nodes (state d') !! id = nodes (state d) !! id)
  ∧ submission_of d now [e] d' (e_node e).
Proof.
  intros Hp. unfold submission_failed, apply_observation.
  destruct (nodes (state d) !! e_node e) as [n|] eqn:Hn.
  2: { split; [done|]. split; [done|]. split; [done|]. by left. }
  destruct (negb _ || negb _); [split; [done|]; split; [done|]; split; [done|]; by left|].
  cbn. unfold trigger. cbn. rw Hp. cbn. split; [done|]. split; [done|]. split.
  - intros id Hid. by rw lookup_insert_ne.
  - right. split; [done|]. exists e, n, why. rw lookup_insert_eq. split; [set_solver|]. done.
Qed.

Lemma submit_all_spec {E} (submit : E → PlannedEffect → E * (unit + string)) now effs :
  NoDup (e_node <$> effs) → ∀ d x d' x' k,
  processing d = true → submit_all submit d x effs now = (d', x', k) →
  same_frame d d' ∧ (dirty d = true → dirty d' = true) ∧ (effs = [] → d' = d)
  ∧ ∀ id, submission_of d now effs d' id.
Proof.
  elim: effs => [|e effs IH] Hnd d x d' x' k Hp /=.
  { intros [= <- _ _]. split; [done|]. split; [done|]. split; [done|]. by left. }
  cbn in Hnd. apply NoDup_cons in Hnd as [Hne Hnd].
  assert (Hmono : ∀ d1 id, submission_of d now effs d1 id → submission_of d now (e :: effs) d1 id).
  { intros d1 id [|(? & e' & n & why & ? & ?)]; [by left|]. right. split; [done|].
    exists e', n, why. split; [by apply elem_of_cons; right|done]. }
  destruct (submit x e) as [x1 [[]|error]].
  - destruct (submit_all submit d x1 effs now) as [[d1 x2] k'] eqn:Hall. intros [= <- _ _].
    destruct (IH Hnd d x1 d1 x2 k' Hp Hall) as (? & ? & _ & Hs).
    split; [done|]. split; [done|]. split; [done|]. intros id. by apply Hmono.
  - destruct (submission_failed_spec d e ("executor submission failed: " +:+ error) now Hp)
      as (Hf & Hd & Hoth & Hmine).
    intros Hall.
    assert (Hp1 : processing (submission_failed d e ("executor submission failed: " +:+ error) now).1
      = true) by (by destruct Hf as (_ & _ & _ & _ & -> & _)).
    destruct (IH Hnd _ x1 d' x' k Hp1 Hall) as (Hf' & Hd' & _ & Hs).
    destruct Hf as (F1 & F2 & F3 & F4 & F5 & F6), Hf' as (G1 & G2 & G3 & G4 & G5 & G6).
    split; [repeat split; congruence|]. split; [auto|]. split; [done|]. intros id.
    destruct (decide (id = e_node e)) as [->|Hid].
    + assert (Hkeep : nodes (state d') !! e_node e
        = nodes (state (submission_failed d e ("executor submission failed: " +:+ error) now).1) !! e_node e).
      { destruct (Hs (e_node e)) as [|(_ & e' & _ & _ & He' & Een & _)]; [done|].
        destruct Hne. rw -Een. apply list_elem_of_fmap. eauto. }
      destruct Hmine as [Eq|(Hdd & e' & n & why & He' & Een & Hn & Eq)].
      * left. congruence.
      * apply list_elem_of_singleton in He' as ->.
        right. split; [auto|]. exists e, n, why. split; [by apply elem_of_cons; left|]. split; [done|].
        split; [done|]. congruence.
    + destruct (Hs id) as [Eq|(Hdd & e' & n & why & He' & Een & Hn & Eq)].
      * left. rw Eq. by apply Hoth.
      * right. split; [done|]. exists e', n, why. split; [by apply elem_of_cons; right|]. split; [done|].
        split; [by rw -Hoth|]. by rw -F3.
Qed.

(** ** One call of [drive_next] *)

Definition resting (d : ClusterDriver) : Prop :=
  shaped d ∧ processing d = false ∧ dirty d = false.

Record Driven (now : SystemTime) (alloc : LogicalNodeId → NodeAttemptId) (d d' : ClusterDriver)
    : Prop := mkDriven {
  dr_node : ∀ id, let st := node_step now alloc d id in
    nodes (state d') !! id = after st
    ∨ queued d' = true ∧ ∃ e n why, emitted st = Some e ∧ after st = Some n
      ∧ nodes (state d') !! id
        = Some (observe n (ObsOperationFailed (operation e) (mkEffectError why Definite)) now (policy d));
  dr_again : ∀ id, again (node_step now alloc d id) = true → queued d' = true;
  dr_idle : (∀ id, again (node_step now alloc d id) = false ∧ emitted (node_step now alloc d id) = None) →
    queued d' = false;
  dr_timer : ∀ id t, timer (node_step now alloc d id) = Some t → covers (requeue_at d') t;
  dr_rest : resting d';
  dr_frame : d_desired d' = d_desired d ∧ expanded_desired d' = expanded_desired d ∧ policy d' = policy d
    ∧ observed_generation (state d') = generation (d_desired d);
}.

Lemma end_pass_fields d :
  state (end_pass d) = state d ∧ d_desired (end_pass d) = d_desired d
  ∧ expanded_desired (end_pass d) = expanded_desired d ∧ policy (end_pass d) = policy d
  ∧ requeue_at (end_pass d) = requeue_at d ∧ processing (end_pass d) = false
  ∧ dirty (end_pass d) = false ∧ queued (end_pass d) = dirty d || queued d.
Proof. unfold end_pass. cbn. by destruct (dirty d) eqn:?. Qed.

Lemma submit_all_generation {E} (submit : E → PlannedEffect → E * (unit + string)) effs now :
  ∀ d x d' x' k, submit_all submit d x effs now = (d', x', k) →
  observed_generation (state d') = observed_generation (state d).
Proof.
  elim: effs => [|e effs IH] d x d' x' k /=; first by intros [= <- _ _].
  destruct (submit x e) as [x1 [|error]].
  - destruct (submit_all submit d x1 effs now) as [[d1 x2] k'] eqn:Hall. intros [= <- _ _]. by eapply IH.
  - intros Hall%IH. rw Hall. unfold submission_failed, apply_observation.
    destruct (nodes (state d) !! e_node e); [|done]. case_match; [done|].
    cbn. unfold trigger. by case_match.
Qed.

Lemma drive_next_spec {E} (submit : E → PlannedEffect → E * (unit + string)) d now x d' x' k :
  resting d → queued d = true → drive_next submit d now x = (d', x', inl k) →
  ∃ alloc, Driven now alloc d d'.
Proof.
  intros (Hs & Hp & Hd) Hq. unfold drive_next. rw Hp Hq. cbn [negb].
  set d1 := set_processing (set_queued d false) true.
  destruct (run_pass d1 now) as [d2 [effs|]] eqn:Hrun; [|done].
  destruct (submit_all submit d2 x effs now) as [[d3 x3] k3] eqn:Hsub. intros [= <- _ _].
  destruct (run_pass_spec d1 now d2 effs Hs Hrun) as [alloc [P1 P2 P3 P4 P5 _ _ _ P9]].
  destruct P9 as (Q1 & Q2 & Q3 & Q4 & Q5 & Q6).
  destruct (submit_all_spec submit now effs P3 d2 x d3 x3 k3 Q5 Hsub)
    as ((F1 & F2 & F3 & F4 & F5 & F6) & Hdirty & Hnil & Hsubs).
  destruct (end_pass_fields d3) as (E1 & E2 & E3 & E4 & E5 & E6 & E7 & E8).
  pose proof (submit_all_generation submit effs now d2 x d3 x3 k3 Hsub) as Hgen.
  change (∀ id, nodes (state d2) !! id = after (node_step now alloc d id)) in P1.
  change (∀ e, e ∈ effs ↔ ∃ id, emitted (node_step now alloc d id) = Some e) in P2.
  change (dirty d2 = true ↔ dirty d = true ∨ ∃ id, again (node_step now alloc d id) = true) in P4.
  change (∀ id t, timer (node_step now alloc d id) = Some t → covers (requeue_at d2) t) in P5.
  exists alloc. split.
  - intros id st. rw E1 E8. destruct (Hsubs id) as [->|(-> & e & n & why & He & Een & Hn & Eq)].
    + left. apply P1.
    + right. split; [done|]. exists e, n, why. split; [|by rw -P1 -Q3].
      apply P2 in He as [id' He']. assert (id' = id) as -> by
        (rw -Een; symmetry; by eapply emitted_node). done.
  - intros id Hag. rw E8. rw Hdirty //. apply P4. eauto.
  - intros Hall. assert (Hnone : effs = []).
    { destruct effs as [|e effs]; [done|]. destruct (P2 e) as [P2' _].
      destruct P2' as [id He]; [set_solver|]. destruct (Hall id) as [_ ?]. congruence. }
    rw E8 (Hnil Hnone) Q4. destruct (dirty d2) eqn:Hd2; [|done].
    destruct P4 as [P4 _]. destruct (P4 eq_refl) as [|[id Hag]]; [congruence|].
    destruct (Hall id) as [? _]. congruence.
  - intros id t Ht. rw E5 F6. by eapply P5.
  - unfold resting, shaped. by rw E2 E3 E6 E7 F1 F2 Q1 Q2.
  - rw E1 E2 E3 E4 F1 F2 F3 Q1 Q2 Q3 Hgen Q6. done.
Qed.

(** ** A driver that is not queued *)

(** The node would be acted on by a pass at [now]. *)
Definition restless (d : ClusterDriver) (id : LogicalNodeId) (now : SystemTime) : Prop :=
  match nodes (state d) !! id, expanded_desired d !! id with
  | None, None => False
  | None, Some _ => True
  | Some n, w => dec_action (reconcile_node n w now) ≠ None
  end.

Definition armed (t : SystemTime) (d : ClusterDriver) : Prop :=
  resting d ∧ (queued d = false → ∀ id now', t ≤ now' → restless d id now' → covers (requeue_at d) now').

Lemma reconcile_restless obs wanted now keys : ∀ next acts rq,
  reconcile_keys obs wanted now keys next = inl (acts, rq) → acts ≠ [] →
  ∃ id, match obs !! id, wanted !! id with
        | None, None => False
        | None, Some _ => True
        | Some n, w => dec_action (reconcile_node n w now) ≠ None
        end.
Proof.
  elim: keys => [|id keys IH] next acts rq /=; first by intros [= <- _].
  destruct (obs !! id) as [n|] eqn:Ho; [|destruct (wanted !! id) eqn:Hw].
  - destruct (dec_action _) eqn:Ha.
    + intros _ _. exists id. by rw Ho Ha.
    + destruct (reconcile_keys _ _ _ _ _) as [[acts' rq']|] eqn:Hr; [|done].
      intros [= <- _]. by eapply IH.
  - intros _ _. exists id. by rw Ho Hw.
  - apply IH.
Qed.

Lemma driven_armed now alloc d d' : Driven now alloc d d' → armed now d'.
Proof.
  intros [D1 D2 _ D4 D5 (_ & E2 & E3 & _)]. split; [done|]. intros Hq id now' Hle Hr.
  unfold restless in Hr. rw E2 in Hr.
  destruct (D1 id) as [Hn|[? _]]; [|congruence]. specialize (D2 id). specialize (D4 id).
  unfold node_step, pass_node in Hn, D2, D4. rw Hn in Hr.
  destruct (nodes (state d) !! id) as [n|].
  2: { destruct (expanded_desired d !! id); cbn in *; [by rw D2 in Hq|done]. }
  destruct (dec_action (reconcile_node n (expanded_desired d !! id) now)) as [[| | | |c]|] eqn:Ha;
    cbn in Hr, D2, D4; try (by rw D2 in Hq).
  - apply decides_reap in Ha as [_ Hw]. by rw Hw in Hr.
  - pose proof (dispatched_waits n _ now c (effect_of id n c) (op_deadline (policy d) now)
      (next_operation_sequence n + 1) Ha) as Hnb.
    rw (not_begin_node _ _ now' Hnb) in Hr.
    unfold dispatched in Hr. by destruct c.
  - destruct (wait_until n _ now now' Ha Hle Hr) as (t & Ht & Htn).
    destruct (D4 t Ht) as (r & -> & ?). exists r. split; [done|lia].
Qed.

Inductive DriverOp :=
  | DUpdate (shape : ClusterShape)
  | DObserve (node : LogicalNodeId) (att : NodeAttemptId) (observation : NodeObservation)
      (now : SystemTime)
  | DTrigger (now : SystemTime)
  | DDrive (now : SystemTime).

(** A pass at [now] would act. *)
Definition work_due (d : ClusterDriver) (now : SystemTime) : bool :=
  match reconcile (state d) (d_desired d) now with
  | inl plan => match actions plan with [] => false | _ => true end
  | inr _ => false
  end.

Section DriverRuns.
Context {E : Type} (submit : E → PlannedEffect → E * Result unit string).

Definition driver_step (s : ClusterDriver * E) (op : DriverOp) : ClusterDriver * E :=
  let '(d, x) := s in
  match op with
  | DUpdate shape => ((update_desired d shape).1, x)
  | DObserve node att observation now => ((apply_observation d node att observation now).1, x)
  | DTrigger now => ((trigger_if_due d now).1, x)
  | DDrive now => (drive_next submit d now x).1
  end.

(** Passes are run at times that do not go back from [t], and none ends in an error. *)
Fixpoint timely (s : ClusterDriver * E) (t : SystemTime) (ops : list DriverOp) : bool :=
  match ops with
  | [] => true
  | DDrive now :: rest =>
      (t <=? now)
      && match (drive_next submit s.1 now s.2).2 with inl _ => true | inr _ => false end
      && timely (driver_step s (DDrive now)) now rest
  | op :: rest => timely (driver_step s op) t rest
  end.

Definition last_drive (t : SystemTime) (ops : list DriverOp) : SystemTime :=
  foldl (λ t op, match op with DDrive now => now | _ => t end) t ops.

Lemma trigger_resting d : resting d → resting (trigger d) ∧ queued (trigger d) = true.
Proof. unfold trigger. intros (Hs & Hp & Hd). rw Hp. done. Qed.

Lemma trigger_armed t d : resting d → armed t (trigger d).
Proof. intros [Hr Hq]%trigger_resting. split; [done|]. by rw Hq. Qed.

Lemma update_armed t d shape : armed t d → armed t (update_desired d shape).1.
Proof.
  intros Ha. unfold update_desired. case_match; [done|]. case_match; [done|].
  case_match; [|done]. case_match; [done|]. apply trigger_armed. by destruct Ha as [(? & ? & ?) _].
Qed.

Lemma observe_armed t d node att obs now :
  armed t d → armed t (apply_observation d node att obs now).1.
Proof.
  intros Ha. unfold apply_observation. case_match; [|done]. case_match; [done|].
  apply trigger_armed. by destruct Ha as [(? & ? & ?) _].
Qed.

Lemma due_armed t d now : armed t d → armed t (trigger_if_due d now).1.
Proof.
  intros Ha. unfold trigger_if_due. case_match; [|done]. case_match; [|done].
  apply trigger_armed. by destruct Ha as [(? & ? & ?) _].
Qed.

Lemma drive_armed t d x now k :
  t ≤ now → armed t d → (drive_next submit d now x).2 = inl k → armed now (drive_next submit d now x).1.1.
Proof.
  intros Hle [Hr Ha] Hk. destruct (queued d) eqn:Hq.
  - destruct (drive_next submit d now x) as [[d' x'] r] eqn:Hd. cbn in Hk |- *. subst r.
    destruct (drive_next_spec submit d now x d' x' k Hr Hq Hd) as [alloc HD]. by eapply driven_armed.
  - unfold drive_next. destruct (Hr) as (_ & -> & _). rw Hq. cbn. split; [done|]. intros _ id now' ? ?.
    apply (Ha eq_refl id now'); [lia|done].
Qed.

Lemma timely_armed ops : ∀ s t, armed t s.1 → timely s t ops = true →
  armed (last_drive t ops) (foldl driver_step s ops).1.
Proof.
  elim: ops => [//|op ops IH] [d x] t Ha. cbn [timely last_drive foldl].
  destruct op as [shape|node att obs now|now|now].
  - apply IH. by apply update_armed.
  - apply IH. by apply observe_armed.
  - apply IH. by apply due_armed.
  - intros [[Hle%N.leb_le Hk]%andb_prop Hrest]%andb_prop. apply IH; [|done].
    cbn in Hk |- *. case_match eqn:E'; [|done]. by eapply drive_armed.
Qed.

Lemma new_armed shape pol d : driver_new shape pol = inl d → armed 0 d.
Proof. unfold driver_new. case_match; [|done]. by intros [= <-]. Qed.

(** No work is slept through. For every executor and every sequence of shape changes,
    observations, timer checks and passes, a driver that is not queued after it is one
    whose next pass, at any time from the last one on, would do nothing, or whose timer
    has run out by then, so that [trigger_if_due] queues it. *)
Theorem blocked_misses_nothing shape pol d x ops now :
  driver_new shape pol = inl d → timely (d, x) 0 ops = true →
  let d' := (foldl driver_step (d, x) ops).1 in
  queued d' = false → last_drive 0 ops ≤ now → work_due d' now = true →
  (trigger_if_due d' now).2 = true ∧ queued (trigger_if_due d' now).1 = true.
Proof.
  intros Hd Ht d' Hq Hle Hwork.
  destruct (timely_armed ops (d, x) 0 (new_armed _ _ _ Hd) Ht) as [(Hs & Hp & _) Harm]. fold d' in Hs, Hp, Harm.
  unfold work_due, reconcile in Hwork. rw Hs in Hwork.
  destruct (reconcile_keys _ _ _ _ _) as [[acts rq]|] eqn:Hk; [|done]. cbn in Hwork.
  assert (Hacts : acts ≠ []) by (by intros ->).
  destruct (reconcile_restless _ _ _ _ _ _ _ Hk Hacts) as [id Hid].
  destruct (Harm Hq id now Hle Hid) as (r & Er & Hr). unfold trigger_if_due.
  rw Er. apply N.leb_le in Hr as ->. cbn. unfold trigger. cbn. by rw Hp.
Qed.
End DriverRuns.

(** ** The loop of passes ends *)

(** Retries wait, and the clock has room for the longest wait. *)
Definition patient (pol : RetryPolicy) (now : SystemTime) : bool :=
  (0 <? initial_delay pol) && (0 <? max_delay pol)
  && (now + max_delay pol + jitter pol <=? time_max).

Lemma delay_bounds pol f :
  0 < initial_delay pol → 0 < max_delay pol → 0 < delay_for_failure pol f ≤ max_delay pol.
Proof.
  intros Hi Hm. unfold delay_for_failure, duration_mul.
  set k := N.shiftl 1 _. assert (0 < k).
  { unfold k. rw N.shiftl_1_l. apply N.neq_0_lt_0. by apply N.pow_nonzero. }
  clearbody k. case_match; cbn; nia.
Qed.

Lemma retry_later pol now att f :
  patient pol now = true →
  ∃ t, time_add now (sampled_retry_delay pol att f) = Some t ∧ now < t.
Proof.
  intros [[Hi%N.ltb_lt Hm%N.ltb_lt]%andb_prop Ht%N.leb_le]%andb_prop.
  destruct (delay_bounds pol f Hi Hm) as [Hd1 Hd2].
  enough (0 < sampled_retry_delay pol att f ≤ max_delay pol + jitter pol) as [H1 H2].
  { unfold time_add. case: N.leb_spec; [|lia]. intros _. eexists. split; [done|lia]. }
  unfold sampled_retry_delay. case: N.eqb_spec => [->|Hj]; [lia|]. cbv zeta.
  set m := _ mod (jitter pol + 1).
  assert (m ≤ jitter pol).
  { enough (m < jitter pol + 1) by lia. apply N.mod_lt. lia. }
  clearbody m. unfold duration_add. unfold time_max, duration_max, u64_max, second in *.
  case: N.leb_spec; cbn; lia.
Qed.

(** An upper bound on the passes after which the node is left alone, at a fixed time. *)
Definition rank (n : ManagedNode) (w : option LogicalNodeSpec) (now : SystemTime) : nat :=
  match dec_action (reconcile_node n w now) with
  | None => 0
  | Some DecReap => 1
  | Some (DecRestart _) => 2
  | Some DecMarkDestroyed => 3
  | Some DecBeginDelete => 5
  | Some (DecDispatch c) =>
      match intent n, for_command c with
      | Deleting, KCreateLease => 4
      | Deleting, KStartBootstrap => 2
      | Active, (KStartBootstrap | KBootstrapConvergenceObserved) => 6
      | _, _ => 1
      end
  end%nat.

Definition rank_at (d : ClusterDriver) (now : SystemTime) (id : LogicalNodeId) : nat :=
  match nodes (state d) !! id, expanded_desired d !! id with
  | None, None => 0
  | None, Some _ => 2
  | Some n, w => rank n w now
  end%nat.

Lemma rank_bound d now id : (rank_at d now id ≤ 6)%nat.
Proof. unfold rank_at, rank. repeat case_match; lia. Qed.

(** A node that is being deleted and has nothing in doubt. *)
Lemma deleting_command n now c :
  dec_action (reconcile_deleting n now) = Some (DecDispatch c) →
  ambiguous_operation (retry n) = None →
  for_command c = KCancelBootstrap ∨ for_command c = KDestroyLease.
Proof.
  unfold reconcile_deleting. cbv zeta. intros Hd Ha. rw Ha in Hd.
  repeat case_match; cbn in *; simplify_eq; auto.
Qed.

Lemma deleting_action n now :
  match dec_action (reconcile_deleting n now) with
  | None | Some DecMarkDestroyed => True
  | Some (DecDispatch c) => for_command c ≠ KLookupEndpoint ∧ for_command c ≠ KBootstrapConvergenceObserved
  | _ => False
  end.
Proof.
  unfold reconcile_deleting. cbv zeta.
  repeat case_match; cbn in *; simplify_eq; try done.
  all: match goal with H : start_bootstrap_command _ = Some _ |- _ => revert H end.
  all: unfold start_bootstrap_command; destruct (lease _); [|done]; destruct (connection _); [|done].
  all: cbn; by intros [= <-].
Qed.

Lemma rank_deleting n w now : not_begin n w → intent n = Deleting → (rank n w now ≤ 4)%nat.
Proof.
  intros Hnb Hi. unfold rank. rw (not_begin_node n w now Hnb) Hi.
  pose proof (deleting_action n now) as Ha.
  destruct (pending n); cbn; [lia|].
  destruct (dec_action (reconcile_deleting n now)) as [[| | | |c]|]; try done; try lia.
  destruct (for_command c); lia.
Qed.

(** ... and it has a lease, or nothing was ever created for it. *)
Lemma rank_settling n w now :
  not_begin n w → intent n = Deleting → ambiguous_operation (retry n) = None →
  (rank n w now ≤ 3)%nat ∧ (is_Some (lease (record n)) → (rank n w now ≤ 1)%nat).
Proof.
  intros Hnb Hi Hamb. unfold rank. rw (not_begin_node n w now Hnb) Hi.
  pose proof (deleting_action n now) as Ha. pose proof (deleting_command n now) as Hc.
  destruct (pending n); cbn; [lia|].
  destruct (dec_action (reconcile_deleting n now)) as [[| | | |c]|] eqn:Hd; try done; try lia.
  - split; [lia|]. intros [l Hl]. revert Hd. unfold reconcile_deleting. rw Hamb Hl.
    by repeat case_match.
  - destruct (Hc c eq_refl Hamb) as [->| ->]; split; [lia|intros _; lia|lia|intros _; lia].
Qed.

Lemma rank_waiting n w now t :
  not_begin n w → next_effect_at (retry n) = Some t → now < t → rank n w now = 0%nat.
Proof.
  intros Hnb Ht Hlt. unfold rank. rw (not_begin_node n w now Hnb).
  assert (Hy : not_yet (next_effect_at (retry n)) now = Some t).
  { rw Ht. cbn. by apply N.ltb_lt in Hlt as ->. }
  destruct (pending n); [done|]. unfold reconcile_deleting, reconcile_active. rw Hy.
  by destruct (intent n).
Qed.

Lemma rank_pending n w now : not_begin n w → is_Some (pending n) → rank n w now = 0%nat.
Proof. intros Hnb [p Hp]. unfold rank. by rw (not_begin_node n w now Hnb) Hp. Qed.

Lemma rank_dispatch n w now c :
  dec_action (reconcile_node n w now) = Some (DecDispatch c) →
  rank n w now = match intent n, for_command c with
      | Deleting, KCreateLease => 4
      | Deleting, KStartBootstrap => 2
      | Active, (KStartBootstrap | KBootstrapConvergenceObserved) => 6
      | _, _ => 1
      end%nat
  ∧ (intent n = Deleting →
     (for_command c ≠ KLookupEndpoint ∧ for_command c ≠ KBootstrapConvergenceObserved)
     ∧ (for_command c = KStartBootstrap → is_Some (lease (record n)))).
Proof.
  intros Hd. unfold rank. rw Hd. split; [done|]. intros Hi.
  pose proof (dispatch_not_begin n w now c Hd) as Hnb. rw (not_begin_node n w now Hnb) Hi in Hd.
  pose proof (deleting_action n now) as Ha. destruct (pending n); [done|]. rw Hd in Ha. split; [done|].
  revert Hd. unfold reconcile_deleting. cbv zeta. clear.
  repeat case_match; cbn; intros; simplify_eq; cbn in *; try done.
  unfold start_bootstrap_command in *. by destruct (lease (record n)).
Qed.

(** A definite failure: the attempt fails, the node is left for its deletion, or it waits. *)
Lemma definite_failure m k why now pol :
  let m' := record_failure m k (mkEffectError why Definite) now pol in
  match k, intent m with
  | (KStartBootstrap | KBootstrapConvergenceObserved), _ => stage (record m') = Failed
  | (KCreateLease | KLookupEndpoint), Deleting => stage (record m') = stage (record m)
  | _, _ => stage (record m') = stage (record m)
      ∧ next_effect_at (retry m') = time_add now (sampled_retry_delay pol (attempt m)
          (u32_saturating_succ (consecutive_failures (retry m))))
  end
  ∧ desired (record m') = desired (record m) ∧ intent m' = intent m ∧ pending m' = pending m
  ∧ lease (record m') = lease (record m) ∧ ambiguous_operation (retry m') = None.
Proof. destruct m as [att int rec act pend seq ret], k, int; done. Qed.

Lemma failed_submission n w now c id dl s why pol :
  patient pol now = true → dec_action (reconcile_node n w now) = Some (DecDispatch c) →
  (rank (observe (dispatched n (effect_of id n c) dl s)
     (ObsOperationFailed (operation (effect_of id n c)) (mkEffectError why Definite)) now pol) w now
   < rank n w now)%nat.
Proof.
  intros Hpat Hd. destruct (rank_dispatch n w now c Hd) as [-> Hdel].
  pose proof (dispatched_waits n w now c (effect_of id n c) dl s Hd) as [Hs Hw].
  destruct (dispatched_record n (effect_of id n c) dl s) as (E1 & E2 & _ & _ & E5 & _).
  assert (Hpend : pending (dispatched n (effect_of id n c) dl s)
    = Some (mkPendingOperation (operation (effect_of id n c)) (for_command c) dl))
    by (unfold dispatched; by destruct c).
  cbn [observe]. rw Hpend. cbn [p_id p_kind]. rw bool_decide_true //.
  set m := dispatched n _ dl s in Hs, Hw, E1, E2, E5 |- *. clearbody m.
  destruct (definite_failure (set_pending m None) (for_command c) why now pol)
    as (F1 & F2 & F3 & F4 & F5 & F6).
  set m' := record_failure _ _ _ _ _ in F1, F2, F3, F4, F5, F6 |- *. clearbody m'.
  cbn in F1, F2, F3, F4, F5.
  destruct (retry_later pol now (attempt m)
    (u32_saturating_succ (consecutive_failures (retry m))) Hpat) as (t & Ht & Hlt). rw Ht in F1.
  assert (Hwait : stage (record m') = stage (record m) ∧ next_effect_at (retry m') = Some t →
      rank m' w now = 0%nat).
  { intros [G1 G2]. apply (rank_waiting _ _ _ t); [|done|done]. split; [by rw G1|]. by rw F2 F3 G1. }
  rw -E2 in Hdel |- *. destruct (intent m) eqn:Ei.
  - assert (Hfail : stage (record m') = Failed → rank m' w now = 5%nat).
    { intros G. unfold rank, reconcile_node. rw G F3 (bool_decide_false (Failed = Destroyed)) //.
      by rw (bool_decide_true (Active = Active)) // (bool_decide_true (Failed = Failed)) // orb_true_r. }
    destruct (for_command c); try (by rw Hwait //; lia); rw Hfail //; lia.
  - destruct (Hdel eq_refl) as [[Hin1 Hin2] Hlease].
    assert (Hset : stage (record m') ≠ Destroyed → (rank m' w now ≤ 3)%nat
        ∧ (is_Some (lease (record m')) → (rank m' w now ≤ 1)%nat)).
    { intros G. apply rank_settling; [|done|done]. split; [done|]. by rw F3. }
    destruct (for_command c); try done.
    + destruct Hset as [? _]; [by rw F1|]. lia.
    + destruct Hset as [_ Hle]; [by rw F1|]. rw F5 E5 in Hle. specialize (Hle (Hlease eq_refl)). lia.
    + rw Hwait //. lia.
    + rw Hwait //. lia.
Qed.

Lemma rank_decreases now alloc d d' id :
  patient (policy d) now = true → Driven now alloc d d' →
  (rank_at d' now id ≤ pred (rank_at d now id))%nat.
Proof.
  intros Hpat [D1 _ _ _ _ (_ & E2 & _)]. unfold rank_at at 1. rw E2.
  specialize (D1 id). unfold node_step, pass_node in D1. unfold rank_at.
  destruct (nodes (state d) !! id) as [n|].
  2: { destruct (expanded_desired d !! id) as [spec|] eqn:Hw; cbn in D1.
       - destruct D1 as [->|(_ & ? & ? & ? & ? & _)]; [|done]. unfold rank, reconcile_node. cbn.
         rw (bool_decide_false (Some spec ≠ Some spec)); [by intros []|done].
       - by destruct D1 as [->|(_ & ? & ? & ? & ? & _)]. }
  unfold rank at 2.
  destruct (dec_action (reconcile_node n (expanded_desired d !! id) now)) as [[| |spec| |c]|] eqn:Ha;
    cbn [after emitted] in D1.
  all: try (destruct D1 as [D1|(_ & ? & ? & ? & ? & _)]; [|done]; rw D1).
  - apply rank_deleting; unfold not_begin, begin_delete; case_match; cbn; try done.
    all: split; [|done]; intros Hs; unfold reconcile_node in Ha; rw bool_decide_true // in Ha;
      unfold reconcile_destroyed in Ha; by repeat case_match.
  - unfold rank, reconcile_node. cbn. unfold reconcile_destroyed. repeat case_match; cbn in *; simplify_eq; lia.
  - apply decides_restart in Ha as [_ Hw]. rw Hw. unfold rank, reconcile_node. cbn.
    rw (bool_decide_false (Some spec ≠ Some spec)); [by intros []|done].
  - apply decides_reap in Ha as [_ Hw]. by rw Hw.
  - pose proof (dispatched_waits n _ now c (effect_of id n c) (op_deadline (policy d) now)
      (next_operation_sequence n + 1) Ha) as Hnb.
    destruct D1 as [->|(_ & e & m & why & [= <-] & [= <-] & ->)].
    + rw rank_pending //; [|lia]. unfold dispatched. by destruct c.
    + pose proof (failed_submission n _ now c id (op_deadline (policy d) now)
        (next_operation_sequence n + 1) why (policy d) Hpat Ha) as Hlt.
      unfold rank at 2 in Hlt. rw Ha in Hlt. lia.
  - unfold rank. by rw Ha.
Qed.

(** A pass over nodes that are all left alone ends the loop. *)
Lemma driven_idle now alloc d d' :
  (∀ id, rank_at d now id = 0%nat) → Driven now alloc d d' → queued d' = false.
Proof.
  intros Hr [_ _ D3 _ _ _]. apply D3. intros id. specialize (Hr id).
  unfold rank_at, rank in Hr. unfold node_step, pass_node.
  destruct (nodes (state d) !! id) as [n|]; [|by destruct (expanded_desired d !! id)].
  destruct (dec_action _) as [[| | | |c]|]; try done.
  exfalso. repeat case_match; lia.
Qed.

Section Loop.
Context {E : Type} (submit : E → PlannedEffect → E * Result unit string) (now : SystemTime).

Definition loop_ended (r : ClusterDriver * E * Result N DriverError) : Prop :=
  match r with (d, _, inl _) => queued d = false | (_, _, inr _) => True end.

Lemma drive_loop k : ∀ d x n, resting d → patient (policy d) now = true →
  (∀ id, (rank_at d now id ≤ k)%nat) →
  ∃ r, drive_until_blocked submit (S k) d now x n = Some r ∧ loop_ended r.
Proof.
  elim: k => [|k IH] d x n Hrest Hpat Hrank; cbn [drive_until_blocked].
  - destruct (queued d) eqn:Hq; cbn [negb]; last by eexists.
    destruct (drive_next submit d now x) as [[d' x'] [m|e]] eqn:Hd; last by eexists.
    destruct (drive_next_spec submit d now x d' x' m Hrest Hq Hd) as [alloc HD].
    assert (Hidle : queued d' = false).
    { apply (driven_idle now alloc d); [|done]. intros id. specialize (Hrank id). lia. }
    rw Hidle. by eexists.
  - destruct (queued d) eqn:Hq; cbn [negb]; last by eexists.
    destruct (drive_next submit d now x) as [[d' x'] [m|e]] eqn:Hd; last by eexists.
    destruct (drive_next_spec submit d now x d' x' m Hrest Hq Hd) as [alloc HD].
    apply IH; [by apply HD|by destruct (dr_frame _ _ _ _ HD) as (_ & _ & -> & _)|].
    intros id. specialize (Hrank id). pose proof (rank_decreases now alloc d d' id Hpat HD). lia.
Qed.

(** C35. [drive_until_blocked] ends: from every state the driver reaches by passes that
    do not fail, at times that do not go back, with every executor, and if retries wait
    and the clock has room for the longest wait, at most seven passes are run whatever
    the number of nodes, and the loop ends with the driver no longer queued or with the
    error of a pass. *)
Theorem drive_until_blocked_ends shape pol d x0 ops x n :
  driver_new shape pol = inl d → timely submit (d, x0) 0 ops = true →
  let d' := (foldl (driver_step submit) (d, x0) ops).1 in
  patient (policy d') now = true →
  ∃ r, drive_until_blocked submit 7 d' now x n = Some r ∧ loop_ended r.
Proof.
  intros Hd Ht d' Hpat.
  destruct (timely_armed submit ops (d, x0) 0 (new_armed _ _ _ Hd) Ht) as [Hr _].
  apply drive_loop; [done|done|]. intros id. apply rank_bound.
Qed.
End Loop.

(** ** A session that is cancelled by itself *)

(** A session that reports [Cancelled] on its own strands an active node: the session is
    forgotten but the stage stays [BootstrapRunning], so the node is neither ready nor
    failed, a pass at any later time decides to wait without a timer, and no observation
    whatever applies to it any more. Only a change of its specification moves it. *)
Theorem cancelled_session_strands n session o now pol :
  intent n = Active → stage (record n) = BootstrapRunning → pending n = None →
  next_effect_at (retry n) = None → is_Some (lease (record n)) → is_Some (connection (record n)) →
  active_bootstrap n = Some session → o_stage o = Cancelled →
  let n' := observe n (ObsBootstrapObserved session o) now pol in
  stage (record n') = BootstrapRunning ∧ ready (record n') = ready (record n)
  ∧ (∀ now', reconcile_node n' (Some (desired (record n))) now' = wait None)
  ∧ ∀ obs, observation_matches n' obs = false.
Proof.
  intros Hi Hs Hp Hn [l Hl] [c Hc] Ha Ho. cbn [observe]. rw Hs Ha.
  rw (bool_decide_true (Some session = Some session)) //. unfold observe_bootstrap. rw Ho. cbn.
  split; [done|]. split; [done|]. split.
  - intros now'. rw not_begin_node.
    { split; cbn; [by rw Hs|]. intros _. by rw Hs. }
    cbn. rw Hp Hi. unfold reconcile_active. cbn. rw Hn Hl Hc Hs. by rw andb_false_r.
  - intros obs. destruct obs; cbn; rw ?Hp //; by rw andb_false_r.
Qed.

(** ** A sample cluster *)

Module SampleCluster.
Definition node_shape : DesiredNodeShape :=
  mkDesiredNodeShape "worker:latest" 40 None None None None (Some (Finite 0)) true ∅.
Definition boot_spec : BootSpec := mkBootSpec "root" ["true"] "swactor" [] [] [] [] [].
Definition group (name : string) (count : N) : RunNodeGroupSpec :=
  mkRunNodeGroupSpec 1 name "worker" count "vast" node_shape boot_spec
    (mkSwarmJoinTemplate "10.0.0.1:4040" "token").
Definition cluster (gen : N) (gs : list RunNodeGroupSpec) : ClusterShape := mkClusterShape 1 gen gs.

Definition driver_of (shape : ClusterShape) : ClusterDriver :=
  match driver_new shape policy_default with
  | inl d => d
  | inr _ => mkClusterDriver cluster_default (cluster 1 []) ∅ policy_default false false false None
  end.
Definition at_ (seconds : N) : SystemTime := seconds * second.

(** Executors without state: one that accepts, one that refuses. *)
Definition accept (x : unit) (_ : PlannedEffect) : unit * Result unit string := (x, inl tt).
Definition refuse (x : unit) (_ : PlannedEffect) : unit * Result unit string := (x, inr "stopped").

Definition running : ManagedNode :=
  let endpoint := mkSshEndpoint "10.0.0.2" 22 "root" "key" in
  let lease := mkLeaseFacts "vast" "L1" "C1" None (mkDestroyHandle "vast" "L1" "C1") ∅ in
  let n := managed_new 1 (node_of_group (group "gpu" 1) 0) in
  set_active_bootstrap (set_record n (set_stage (set_connection (set_lease (record n) (Some lease))
    (Some endpoint)) BootstrapRunning)) (Some 7).
End SampleCluster.
Import SampleCluster.

Lemma blocked_misses_nothing_witness :
  let d := driver_of (cluster 1 [group "gpu" 2]) in
  let d' := (foldl (driver_step refuse) (d, tt) [DDrive (at_ 0); DDrive (at_ 0); DDrive (at_ 0)]).1 in
  queued d' = false ∧ (trigger_if_due d' (at_ 1)).2 = true ∧ queued (trigger_if_due d' (at_ 1)).1 = true.
Proof.
  intros d d'. split; [by vm_compute|].
  apply (blocked_misses_nothing refuse (cluster 1 [group "gpu" 2]) policy_default d tt
    [DDrive (at_ 0); DDrive (at_ 0); DDrive (at_ 0)] (at_ 1)); by vm_compute.
Defined.

Lemma drive_until_blocked_ends_witness :
  ∃ r, drive_until_blocked refuse 7 (driver_of (cluster 1 [group "gpu" 2])) (at_ 3) tt 0 = Some r
    ∧ loop_ended r.
Proof.
  apply (drive_until_blocked_ends refuse (at_ 3) (cluster 1 [group "gpu" 2]) policy_default
    (driver_of (cluster 1 [group "gpu" 2])) tt [] tt 0); by vm_compute.
Defined.

Lemma cancelled_session_strands_witness :
  let o := mkBootstrapObservation Cancelled None None None in
  let n' := observe running (ObsBootstrapObserved 7 o) (at_ 9) policy_default in
  stage (record n') = BootstrapRunning ∧ ready (record n') = ready (record running)
  ∧ (∀ now', reconcile_node n' (Some (desired (record running))) now' = wait None)
  ∧ ∀ obs, observation_matches n' obs = false.
Proof.
  apply (cancelled_session_strands running 7 (mkBootstrapObservation Cancelled None None None) (at_ 9)
    policy_default); done.
Defined.
