(* ===== verification/ReconcilerConverge.v ===== *)
(** * The cluster converges

    With an executor that accepts work and an environment that grants every request and starts
    every session, a driver reaches the shape it was last given in a number of rounds that depends
    on neither the shape nor the state the cluster was in: nodes that are no longer wanted, or
    wanted differently, are cancelled, destroyed and reaped, and missing ones are created, leased,
    bootstrapped and handed off.  A round is the order of [poll] in [xtask/src/demo/feed.rs]: the
    timer, a pass, and then the answers to what is pending. *)

From S2P Require Import Prelude NodeModel Reconciler ReconcilerPass ReconcilerLive.
#[local] Open Scope N_scope.

Section Service.
(** What the environment answers: any lease, endpoint, session and peer. *)
Context (grant : LogicalNodeId → NodeAttemptId → CreateLeaseResult)
  (endpoint : LogicalNodeId → SshEndpoint)
  (session : LogicalNodeId → NodeAttemptId → BootstrapSessionId)
  (peer : LogicalNodeId → string).

Definition good_outcome (id : LogicalNodeId) (n : ManagedNode) (kind : OperationKind)
    : OperationOutcome :=
  match kind with
  | KCreateLease => OLeaseCreated (grant id (attempt n))
  | KLookupEndpoint => OEndpointLookup (Some (endpoint id))
  | KStartBootstrap => OBootstrapStarted (session id (attempt n))
  | KBootstrapConvergenceObserved => OBootstrapConvergenceAccepted
  | KCancelBootstrap => OBootstrapCancelled
  | KDestroyLease => OLeaseDestroyed
  end.

(** The pending operation succeeds, and an accepted convergence closes the session; a running
    session joins. *)
Definition respond (id : LogicalNodeId) (n : ManagedNode) : list NodeObservation :=
  match pending n, active_bootstrap n with
  | Some p, active =>
      ObsOperationSucceeded (p_id p) (good_outcome id n (p_kind p)) ::
      match p_kind p, active with
      | KBootstrapConvergenceObserved, Some s => [ObsBootstrapClosed s]
      | _, _ => []
      end
  | None, Some s =>
      if bool_decide (stage (record n) = BootstrapRunning) then [ObsSwactorJoined s (peer id)] else []
  | None, None => []
  end.

Definition answer_node (now : SystemTime) (d : ClusterDriver) (id : LogicalNodeId) : ClusterDriver :=
  match nodes (state d) !! id with
  | None => d
  | Some n => foldl (λ d obs, (apply_observation d id (attempt n) obs now).1) d (respond id n)
  end.

Definition answer_all (now : SystemTime) (d : ClusterDriver) : ClusterDriver :=
  foldl (answer_node now) d (keys_in_order (nodes (state d))).

Section Rounds.
Context {E : Type} (submit : E → PlannedEffect → E * Result unit string).

Definition round (now : SystemTime) (s : ClusterDriver * E) : Result (ClusterDriver * E) DriverError :=
  let '(d, x) := s in
  match drive_next submit (trigger_if_due d now).1 now x with
  | (_, _, inr error) => Err error
  | (d, x, inl _) => Ok (answer_all now d, x)
  end.

Fixpoint rounds (k : nat) (now : SystemTime) (s : ClusterDriver * E)
    : Result (ClusterDriver * E) DriverError :=
  match k with
  | O => Ok s
  | S k => s <-! round now s; rounds k now s
  end.
End Rounds.

(** ** One node *)

(** The effect of one observation on its own node, as [apply_observation] has it. *)
Definition observed (now : SystemTime) (pol : RetryPolicy) (n : ManagedNode) (obs : NodeObservation)
    : ManagedNode :=
  if observation_matches n obs then observe n obs now pol else n.

Definition answered (now : SystemTime) (pol : RetryPolicy) (id : LogicalNodeId) (n : ManagedNode)
    : ManagedNode :=
  foldl (observed now pol) n (respond id n).

(** Between rounds nothing is pending and no timer is set. *)
Definition calm (n : ManagedNode) : Prop :=
  pending n = None ∧ next_effect_at (retry n) = None ∧ restart_at (retry n) = None
  ∧ ambiguous_operation (retry n) = None.

(** What a node at a given stage of its life has. *)
Definition staged (n : ManagedNode) : Prop :=
  match stage (record n) with
  | New => lease (record n) = None ∧ connection (record n) = None ∧ active_bootstrap n = None
  | LeaseCreated => is_Some (lease (record n)) ∧ connection (record n) = None ∧ active_bootstrap n = None
  | EndpointKnown =>
      is_Some (lease (record n)) ∧ is_Some (connection (record n)) ∧ active_bootstrap n = None
  | BootstrapRunning =>
      is_Some (lease (record n)) ∧ is_Some (connection (record n)) ∧ is_Some (active_bootstrap n)
  | SwactorJoined =>
      is_Some (lease (record n)) ∧ is_Some (connection (record n)) ∧ is_Some (active_bootstrap n)
      ∧ is_Some (swactor (record n))
  | Dormant => is_Some (lease (record n)) ∧ ready (record n) = true ∧ active_bootstrap n = None
  | _ => False
  end.

Record steady (n : ManagedNode) : Prop := mkSteady {
  st_calm : calm n;
  st_bare : lease (record n) = None → active_bootstrap n = None;
  st_active : intent n = Active → staged n;
  st_dead : stage (record n) = Destroyed → lease (record n) = None;
}.

(** Rounds a node is away from where it should be. *)
Definition distance (o : option ManagedNode) (w : option LogicalNodeSpec) : nat :=
  match o, w with
  | None, None => 0
  | None, Some _ => 6
  | Some n, _ =>
      if bool_decide (stage (record n) = Destroyed)
      then match w with None => 1 | Some _ => 6 end
      else
        match intent n with
        | Deleting =>
            match active_bootstrap n, lease (record n) with
            | Some _, _ => 9
            | None, Some _ => 8
            | None, None => 7
            end
        | Active =>
            if negb (bool_decide (w = Some (desired (record n)))) then 10
            else
              match stage (record n) with
              | New => 5
              | LeaseCreated => 4
              | EndpointKnown => 3
              | BootstrapRunning => 2
              | SwactorJoined => 1
              | _ => 0
              end
        end
  end%nat.

#[local] Arguments distance : simpl never.

(** ** The round of one node *)

Lemma good_kind id n k : outcome_kind (good_outcome id n k) = k.
Proof. by destruct k. Qed.

(** The node after its pending operation has succeeded. *)
Definition succeeded (now : SystemTime) (pol : RetryPolicy) (id : LogicalNodeId) (n : ManagedNode)
    (k : OperationKind) : ManagedNode :=
  let m := set_pending n None in
  observe_outcome (set_retry m (set_ambiguous_operation (set_next_effect_at (retry m) None) None))
    (good_outcome id n k) now pol.

Lemma observed_success now pol id n p :
  pending n = Some p →
  observed now pol n (ObsOperationSucceeded (p_id p) (good_outcome id n (p_kind p)))
  = succeeded now pol id n (p_kind p).
Proof.
  intros Hp. unfold observed. cbn [observation_matches observe]. rw Hp good_kind.
  by rw !bool_decide_true.
Qed.

Lemma answered_pending now pol id n p :
  pending n = Some p → p_kind p ≠ KBootstrapConvergenceObserved →
  answered now pol id n = succeeded now pol id n (p_kind p).
Proof.
  intros Hp Hk. unfold answered, respond. rw Hp. cbn [foldl]. rw (observed_success now pol id n p Hp).
  by destruct (p_kind p).
Qed.

Lemma answered_idle now pol id n :
  pending n = None → (active_bootstrap n = None ∨ stage (record n) ≠ BootstrapRunning) →
  answered now pol id n = n.
Proof.
  intros Hp Ha. unfold answered, respond. rw Hp. destruct (active_bootstrap n); [|done].
  rw bool_decide_false //. by destruct Ha.
Qed.

Definition joined (now : SystemTime) (id : LogicalNodeId) (n : ManagedNode) : ManagedNode :=
  set_record n (set_stage (set_swactor (record n) (Some (mkSwactorFacts (peer id) now None)))
    SwactorJoined).

Lemma answered_running now pol id n s :
  pending n = None → active_bootstrap n = Some s → stage (record n) = BootstrapRunning →
  answered now pol id n = joined now id n.
Proof.
  intros Hp Ha Hs. unfold answered, respond. rw Hp Ha Hs. rw bool_decide_true //. cbn [foldl].
  unfold observed. cbn [observation_matches observe]. rw Ha Hs.
  rw (bool_decide_true (Some s = Some s)) // (bool_decide_true (BootstrapRunning ≠ Failed)) //.
Qed.

Lemma calm_yet n now : calm n → not_yet (next_effect_at (retry n)) now = None
  ∧ not_yet (restart_at (retry n)) now = None.
Proof. by intros (_ & -> & -> & _). Qed.

Lemma dispatched_eq n id c dl s :
  calm n →
  let e := effect_of id n c in
  let m := dispatched n e dl s in
  pending m = Some (mkPendingOperation (operation e) (for_command c) dl)
  ∧ ∀ now pol k, succeeded now pol id m k
    = observe_outcome (set_record (set_next_operation_sequence n s) (record m)) (good_outcome id n k) now pol.
Proof.
  intros (Hp & Hn & _ & Ha). destruct n as [att int rec act pend seq [cf nx rs le am]].
  cbn in *. subst. by destruct c.
Qed.

(** The node [after] a step, answered. *)
Definition progressed (now : SystemTime) (pol : RetryPolicy) (att : NodeAttemptId)
    (id : LogicalNodeId) (o : option ManagedNode) (w : option LogicalNodeSpec) : option ManagedNode :=
  answered now pol id <$> after (pass_node pol now att id o w).

Definition closer (o o' : option ManagedNode) (w : option LogicalNodeSpec) : Prop :=
  (∀ n, o' = Some n → steady n) ∧ (distance o' w ≤ pred (distance o w))%nat.

Lemma progressed_dispatch now pol att id n w c :
  calm n → dec_action (reconcile_node n w now) = Some (DecDispatch c) →
  for_command c ≠ KBootstrapConvergenceObserved →
  let s := next_operation_sequence n + 1 in
  progressed now pol att id (Some n) w
  = Some (observe_outcome (set_record (set_next_operation_sequence n s)
      (record (dispatched n (effect_of id n c) (op_deadline pol now) s)))
      (good_outcome id n (for_command c)) now pol).
Proof.
  intros Hc Hd Hk. unfold progressed, pass_node. rw Hd. cbn [after fmap option_fmap option_map].
  destruct (dispatched_eq n id c (op_deadline pol now) (next_operation_sequence n + 1) Hc) as [Hp He].
  by rw (answered_pending _ _ _ _ _ Hp) // He.
Qed.

Lemma progressed_wait now pol att id n w :
  dec_action (reconcile_node n w now) = None →
  progressed now pol att id (Some n) w = Some (answered now pol id n).
Proof. intros Hd. unfold progressed, pass_node. by rw Hd. Qed.

(** An active node of the wanted shape. *)
Lemma active_decision n w now :
  calm n → w = Some (desired (record n)) → intent n = Active → staged n →
  reconcile_node n w now =
    match stage (record n) with
    | New => act (DecDispatch (CreateLease (desired (record n))))
    | LeaseCreated =>
        match lease (record n) with Some l => act (DecDispatch (LookupEndpoint l)) | None => wait None end
    | EndpointKnown =>
        match start_bootstrap_command (record n) with
        | Some c => act (DecDispatch c) | None => wait None end
    | SwactorJoined =>
        match active_bootstrap n, swactor (record n) with
        | Some s, Some f => act (DecDispatch (BootstrapConvergenceObserved s (swactor_id f)))
        | _, _ => wait None
        end
    | _ => wait None
    end.
Proof.
  intros Hc Hw Hi Hst. destruct (calm_yet n now Hc) as [Hy _]. destruct (Hc) as (Hp & _).
  assert (Hnb : not_begin n w).
  { split; [|intros _; split; [done|]]; unfold staged in Hst; by destruct (stage (record n)). }
  rw (not_begin_node n w now Hnb) Hp Hi. unfold reconcile_active. rw Hy. unfold staged in Hst.
  destruct (stage (record n)); try done.
  - destruct Hst as [-> _]. rw andb_false_r //.
  - destruct Hst as ([l ->] & -> & _). by rw andb_false_r.
  - destruct Hst as ([l ->] & [c ->] & ->). by rw andb_false_r.
  - destruct Hst as ([l ->] & [c ->] & [s ->]). by rw andb_false_r.
  - destruct Hst as ([l ->] & [c ->] & [s ->] & [f ->]). by rw andb_false_r.
  - destruct Hst as (_ & -> & _). done.
Qed.

(** The session of a joined node is told, and closed. *)
Lemma progressed_handoff now pol att id n w s f :
  calm n → active_bootstrap n = Some s → swactor (record n) = Some f → stage (record n) = SwactorJoined →
  intent n = Active → is_Some (lease (record n)) →
  dec_action (reconcile_node n w now)
    = Some (DecDispatch (BootstrapConvergenceObserved s (swactor_id f))) →
  ∃ n', progressed now pol att id (Some n) w = Some n' ∧ steady n' ∧ intent n' = Active
    ∧ stage (record n') = Dormant ∧ desired (record n') = desired (record n).
Proof.
  intros Hc Has Hf Hst Hi Hl Hd. unfold progressed, pass_node. rw Hd.
  cbn [after fmap option_fmap option_map].
  destruct (dispatched_eq n id (BootstrapConvergenceObserved s (swactor_id f)) (op_deadline pol now)
    (next_operation_sequence n + 1) Hc) as [Hp He].
  unfold answered, respond. rw Hp. cbn [foldl p_kind for_command].
  rw (observed_success _ _ _ _ _ Hp) He.
  change (active_bootstrap (dispatched _ _ _ _)) with (active_bootstrap n).
  change (record (dispatched _ _ _ _)) with (record n). rw Has. cbn [foldl for_command p_kind good_outcome observe_outcome].
  set m := set_record (set_next_operation_sequence n (next_operation_sequence n + 1)) (record n).
  assert (Hm : observed now pol m (ObsBootstrapClosed s) = finish_bootstrap m now pol).
  { unfold observed. cbn [observation_matches observe].
    change (stage (record m)) with (stage (record n)). change (active_bootstrap m) with (active_bootstrap n).
    rw Has Hst (bool_decide_true (Some s = Some s)) //. }
  eexists. split; [by rw Hm|]. unfold finish_bootstrap.
  change (swactor (record m)) with (swactor (record n)). rw Hf. cbn.
  split; [|done]. split; [|done| |done].
  - by destruct Hc.
  - intros _. split; [done|]. cbn. by rw Hi.
Qed.

Lemma round_active now pol att id n w :
  steady n → w = Some (desired (record n)) → intent n = Active →
  closer (Some n) (progressed now pol att id (Some n) w) w.
Proof.
  intros [Hc Hb Ha Hdead] Hw Hi. specialize (Ha Hi).
  pose proof (active_decision n w now Hc Hw Hi Ha) as Hdec. unfold staged in Ha.
  assert (Hdist : ∀ m, desired (record m) = desired (record n) → intent m = Active →
      stage (record m) ≠ Destroyed → distance (Some m) w = match stage (record m) with
        | New => 5 | LeaseCreated => 4 | EndpointKnown => 3 | BootstrapRunning => 2
        | SwactorJoined => 1 | _ => 0 end%nat).
  { intros m Em Im Sm. unfold distance. rw bool_decide_false // Im Em.
    by rw (bool_decide_true (w = _)). }
  assert (Hself : distance (Some n) w = match stage (record n) with
        | New => 5 | LeaseCreated => 4 | EndpointKnown => 3 | BootstrapRunning => 2
        | SwactorJoined => 1 | _ => 0 end%nat).
  { apply Hdist; [done|done|]. by intros E; rw E in Ha. }
  unfold closer. rw Hself. destruct (stage (record n)) eqn:Hst; try done.
  - rw (progressed_dispatch now pol att id n w _ Hc ltac:(by rw Hdec)) //. cbn.
    destruct Hc as (? & ? & ? & ?), Ha as (? & ? & ?).
    destruct (grant id (attempt n)) as [l [c|]]; cbn; rw Hdist //; (split; [|cbn; lia]);
      intros ? [= <-]; by split.
  - destruct Ha as ([l Hl] & Hcn & Hab). rw Hl in Hdec.
    rw (progressed_dispatch now pol att id n w _ Hc ltac:(by rw Hdec)) //. cbn.
    destruct Hc as (? & ? & ? & ?). rw Hdist //. split; [|cbn; lia]. intros ? [= <-]. split; cbn; by rw ?Hl.
  - destruct Ha as ([l Hl] & [c Hcn] & Hab). unfold start_bootstrap_command in Hdec. rw Hl Hcn in Hdec.
    rw (progressed_dispatch now pol att id n w _ Hc ltac:(by rw Hdec)) //. cbn.
    destruct Hc as (? & ? & ? & ?). rw Hdist //. split; [|cbn; lia]. intros ? [= <-]. split; cbn; by rw ?Hl.
  - destruct Ha as ([l Hl] & [c Hcn] & [s Hs]).
    rw (progressed_wait now pol att id n w ltac:(by rw Hdec)) (answered_running _ _ _ _ s) //; [by destruct Hc|].
    destruct Hc as (? & ? & ? & ?). rw Hdist //. split; [|cbn; lia]. intros ? [= <-]. split; cbn; by rw ?Hl.
  - destruct Ha as (Hl & [c Hcn] & [s Hs] & [f Hf]). rw Hs Hf in Hdec.
    destruct (progressed_handoff now pol att id n w s f Hc Hs Hf Hst Hi Hl ltac:(by rw Hdec))
      as (n' & -> & Hn' & In' & Sn' & Dn').
    rw Hdist //; [by rw Sn'|]. rw Sn'. split; [|lia]. by intros ? [= <-].
  - destruct Ha as (Hl & Hr & Hab).
    rw (progressed_wait now pol att id n w ltac:(by rw Hdec)) answered_idle; [by destruct Hc|by left|].
    rw Hself. split; [|lia]. intros ? [= <-]. split; [done|done| |by rw Hst].
    intros _. unfold staged. by rw Hst.
Qed.

(** A node to be deleted: the pass says so, and a session that runs may still join. *)
Lemma round_doomed now pol att id n w :
  steady n → stage (record n) ≠ Destroyed → intent n = Active → w ≠ Some (desired (record n)) →
  closer (Some n) (progressed now pol att id (Some n) w) w.
Proof.
  intros [Hc Hb Ha _] Hnd Hi Hw. specialize (Ha Hi).
  assert (Hd : dec_action (reconcile_node n w now) = Some DecBeginDelete).
  { unfold reconcile_node. rw bool_decide_false //. by rw (bool_decide_true (intent n = Active)) //
      (bool_decide_true (w ≠ _)). }
  unfold closer, progressed, pass_node. rw Hd. cbn [after fmap option_fmap option_map].
  assert (Hdist : distance (Some n) w = 10%nat).
  { unfold distance. rw bool_decide_false // Hi. by rw (bool_decide_false (w = _)). }
  rw Hdist. destruct (Hc) as (Hp & Hn & Hr & Hamb).
  assert (Hdel : ∀ m, intent m = Deleting → stage (record m) ≠ Destroyed → calm m →
      lease (record m) = lease (record n) → active_bootstrap m = active_bootstrap n →
      steady m ∧ (distance (Some m) w ≤ 9)%nat).
  { intros m Im Sm Cm Lm Am. split; [split; try done; [by rw Lm Am|by rw Im]|].
    unfold distance. rw bool_decide_false // Im. repeat case_match; lia. }
  assert (Hb' : ∃ m, begin_delete n = m ∧ intent m = Deleting ∧ calm m ∧ stage (record m) = stage (record n)
    ∧ lease (record m) = lease (record n) ∧ active_bootstrap m = active_bootstrap n).
  { eexists. split; [done|]. unfold begin_delete. cbn. rw Hamb. done. }
  destruct Hb' as (m & -> & Im & Cm & Sm & Lm & Am).
  destruct (decide (is_Some (active_bootstrap m) ∧ stage (record m) = BootstrapRunning)) as [[[s Hs] Hrun]|Hno].
  - rw (answered_running _ _ _ _ s) //; [by destruct Cm|].
    destruct (Hdel (joined now id m)) as [? ?]; [done..|]. split; [|done]. by intros ? [= <-].
  - rw answered_idle; [by destruct Cm| |].
    + destruct (active_bootstrap m) eqn:E; [|by left]. right. intros Hrun. by destruct Hno.
    + destruct (Hdel m) as [? ?]; [done|by rw Sm|done..|]. split; [|done]. by intros ? [= <-].
Qed.

Lemma round_deleting now pol att id n w :
  steady n → stage (record n) ≠ Destroyed → intent n = Deleting →
  closer (Some n) (progressed now pol att id (Some n) w) w.
Proof.
  intros [Hc Hb _ _] Hnd Hi. destruct (calm_yet n now Hc) as [Hy _]. destruct (Hc) as (Hp & Hn & Hr & Hamb).
  assert (Hdec : reconcile_node n w now = reconcile_deleting n now).
  { rw not_begin_node; [by split; [|rw Hi]|]. by rw Hp Hi. }
  unfold reconcile_deleting in Hdec. rw Hy Hamb in Hdec. cbv zeta in Hdec.
  assert (Hself : distance (Some n) w = match active_bootstrap n, lease (record n) with
      | Some _, _ => 9 | None, Some _ => 8 | None, None => 7 end%nat).
  { unfold distance. by rw bool_decide_false // Hi. }
  unfold closer. rw Hself.
  destruct (active_bootstrap n) as [s|] eqn:Ha; [|destruct (lease (record n)) as [l|] eqn:Hl].
  - rw (progressed_dispatch now pol att id n w _ Hc ltac:(by rw Hdec)) //. cbn.
    destruct (lease (record n)) as [l|] eqn:Hl; [|by specialize (Hb eq_refl)]. split.
    + intros ? [= <-]. split; cbn; try done. by rw Hi.
    + unfold distance. cbn. rw bool_decide_false // Hi Hl. lia.
  - rw (progressed_dispatch now pol att id n w _ Hc ltac:(by rw Hdec)) //. cbn. split.
    + intros ? [= <-]. split; cbn; try done. by rw Hi.
    + unfold distance. cbn. rw bool_decide_false // Hi Ha. lia.
  - unfold progressed, pass_node. rw Hdec. cbn [after dec_action act fmap option_fmap option_map].
    rw answered_idle; [done|by left|]. split.
    + intros ? [= <-]. split; cbn; try done. by rw Hi.
    + unfold distance. cbn. rw bool_decide_true //. destruct w; lia.
Qed.

Lemma fresh_steady att spec cf :
  let n := set_retry (managed_new att spec) (set_consecutive_failures retry_default cf) in
  (∀ now pol id, answered now pol id n = n) ∧ steady n ∧ distance (Some n) (Some spec) = 5%nat.
Proof.
  split; [done|]. split; [done|]. unfold distance. cbn.
  by rw (bool_decide_true (Some spec = Some spec)).
Qed.

(** Every node comes closer in every round. *)
Lemma node_round now pol att id o w :
  (∀ n, o = Some n → steady n) → closer o (progressed now pol att id o w) w.
Proof.
  intros Hs. destruct o as [n|].
  2: { destruct w as [spec|]; [|done]. destruct (fresh_steady att spec 0) as (E1 & E2 & E3).
       unfold progressed, closer. cbn [pass_node after fmap option_fmap option_map].
       change (managed_new att spec) with
         (set_retry (managed_new att spec) (set_consecutive_failures retry_default 0)).
       rw E1 E3. split; [by intros ? [= <-]|]. cbn. unfold distance. lia. }
  specialize (Hs n eq_refl).
  destruct (decide (stage (record n) = Destroyed)) as [Hd|Hnd].
  - destruct (calm_yet n now) as [_ Hy]; [by destruct Hs|].
    unfold progressed, pass_node, reconcile_node. rw (bool_decide_true (_ = Destroyed)) //.
    unfold reconcile_destroyed. destruct w as [spec|]; last by split; [|apply Nat.le_0_l]. rw Hy.
    cbn [dec_action act after fmap option_fmap option_map]. unfold replacement.
    destruct (fresh_steady att spec (consecutive_failures (retry n))) as (E1 & E2 & E3).
    change (retry (managed_new att spec)) with retry_default. rw E1. unfold closer. rw E3.
    split; [by intros ? [= <-]|]. unfold distance. by rw bool_decide_true.
  - destruct (intent n) eqn:Hi; [|by apply round_deleting].
    destruct (decide (w = Some (desired (record n)))); [by apply round_active|by apply round_doomed].
Qed.

(** ** The answers of a round *)

Lemma observed_attempt now pol n obs : attempt (observed now pol n obs) = attempt n.
Proof. unfold observed. case_match; [apply observe_frame|done]. Qed.

(** Everything but the nodes and the request for another pass is the same. *)
Definition same_plan (d d' : ClusterDriver) : Prop :=
  d_desired d' = d_desired d ∧ expanded_desired d' = expanded_desired d ∧ policy d' = policy d
  ∧ observed_generation (state d') = observed_generation (state d).

Lemma same_plan_trans d1 d2 d3 : same_plan d1 d2 → same_plan d2 d3 → same_plan d1 d3.
Proof. intros (? & ? & ? & ?) (? & ? & ? & ?). repeat split; congruence. Qed.

Lemma apply_observation_node d id n obs now :
  nodes (state d) !! id = Some n →
  let d' := (apply_observation d id (attempt n) obs now).1 in
  nodes (state d') = <[id := observed now (policy d) n obs]> (nodes (state d)) ∧ same_plan d d'.
Proof.
  intros Hn. unfold apply_observation, observed. rw Hn bool_decide_true //. cbn [negb orb].
  destruct (observation_matches n obs); cbn [negb fst].
  - unfold trigger. by case_match.
  - split; [by rw insert_id|done].
Qed.

Lemma answer_node_spec now id n obss : ∀ d m,
  attempt m = attempt n → nodes (state d) !! id = Some m →
  let d' := foldl (λ d obs, (apply_observation d id (attempt n) obs now).1) d obss in
  nodes (state d') = <[id := foldl (observed now (policy d)) m obss]> (nodes (state d)) ∧ same_plan d d'.
Proof.
  elim: obss => [|obs obss IH] d m Ha Hm; cbn [foldl]; first by rw insert_id.
  rw -Ha. destruct (apply_observation_node d id m obs now Hm) as [E1 E2].
  set d1 := (apply_observation d id (attempt m) obs now).1 in E1, E2 |- *.
  destruct (IH d1 (observed now (policy d) m obs)) as [E3 E4].
  - by rw observed_attempt.
  - by rw E1 lookup_insert_eq.
  - rw Ha. split; [|by eapply same_plan_trans]. rw E3 E1 insert_insert_eq.
    by destruct E2 as (_ & _ & -> & _).
Qed.

Lemma answer_nodes_spec now keys : NoDup keys → ∀ d,
  let d' := foldl (answer_node now) d keys in
  same_plan d d' ∧ ∀ id, nodes (state d') !! id =
    if decide (id ∈ keys) then answered now (policy d) id <$> nodes (state d) !! id
    else nodes (state d) !! id.
Proof.
  induction 1 as [|k keys Hk _ IH] => d; cbn [foldl]; first by split; [|done].
  assert (H1 : same_plan d (answer_node now d k) ∧
      ∀ id, nodes (state (answer_node now d k)) !! id =
        if decide (id = k) then answered now (policy d) id <$> nodes (state d) !! id
        else nodes (state d) !! id).
  { unfold answer_node. destruct (nodes (state d) !! k) as [n|] eqn:Hn.
    - destruct (answer_node_spec now k n (respond k n) d n eq_refl Hn) as [-> Hs]. split; [done|].
      intros id. case_decide as E; [subst; by rw lookup_insert_eq Hn|by rw lookup_insert_ne].
    - split; [done|]. intros id. case_decide as E; [subst; by rw Hn|done]. }
  destruct H1 as [Hs H1]. destruct (IH (answer_node now d k)) as [Hs' H2].
  split; [by eapply same_plan_trans|]. intros id. rw H2 H1.
  destruct Hs as (_ & _ & -> & _).
  destruct (decide (id = k)) as [->|Hne].
  - rw decide_False // decide_True //. by left.
  - destruct (decide (id ∈ keys)); [rw decide_True //; by right|].
    rw decide_False //. by intros [|]%elem_of_cons.
Qed.

Lemma answer_all_spec now d :
  same_plan d (answer_all now d)
  ∧ ∀ id, nodes (state (answer_all now d)) !! id = answered now (policy d) id <$> nodes (state d) !! id.
Proof.
  unfold answer_all, keys_in_order.
  pose proof (sort_by_perm str_le (elements (dom (nodes (state d))))) as Hperm.
  destruct (answer_nodes_spec now (sort_by str_le (elements (dom (nodes (state d)))))) with (d := d)
    as [Hs Hn]; [rw Hperm; apply NoDup_elements|].
  split; [done|]. intros id. rw Hn. case_decide as E; [done|].
  rw Hperm elem_of_elements not_elem_of_dom in E. by rw E.
Qed.

Lemma answer_all_armed now t d : armed t d → armed t (answer_all now d).
Proof.
  unfold answer_all. apply foldl_invariant' => d' id Ha. unfold answer_node.
  destruct (nodes (state d') !! id) as [n|]; [|done].
  apply (foldl_invariant' (armed t)); [|done]. intros d2 obs. apply observe_armed.
Qed.

(** ** Rounds *)

Section Accepting.
Context {E : Type} (submit : E → PlannedEffect → E * Result unit string).
Hypothesis submit_accepts : ∀ x e, (submit x e).2 = inl tt.

Lemma submit_all_accepting d now effs : ∀ x, ∃ x' k, submit_all submit d x effs now = (d, x', k).
Proof using submit_accepts.
  elim: effs => [|e effs IH] x; cbn [submit_all]; first by eexists _, _.
  pose proof (submit_accepts x e) as Hs. destruct (submit x e) as [x1 r]. cbn in Hs. subst r.
  destruct (IH x1) as (x' & k & ->). by eexists _, _.
Qed.

Lemma drive_accepting d now x :
  resting d → queued d = true → roomy d →
  ∃ d' x' k alloc, drive_next submit d now x = (d', x', inl k) ∧ armed now d'
    ∧ (d_desired d' = d_desired d ∧ expanded_desired d' = expanded_desired d ∧ policy d' = policy d
       ∧ observed_generation (state d') = generation (d_desired d))
    ∧ ∀ id, nodes (state d') !! id = after (node_step now alloc d id).
Proof using submit_accepts.
  intros Hr Hq Hroom. destruct (Hr) as (Hs & Hp & Hd).
  set d1 := set_processing (set_queued d false) true.
  destruct (run_pass_room d1 now Hs Hroom) as (d2 & effs & Hrun).
  destruct (submit_all_accepting d2 now effs x) as (x' & k & Hsub).
  assert (Hnext : drive_next submit d now x = (end_pass d2, x', inl k)).
  { unfold drive_next. rw Hp Hq. cbn [negb]. fold d1. by rw Hrun Hsub. }
  destruct (run_pass_spec d1 now d2 effs Hs Hrun) as [alloc HP].
  destruct (drive_next_spec submit d now x _ _ k Hr Hq Hnext) as [alloc' HD].
  exists (end_pass d2), x', k, alloc. split; [done|]. split; [by eapply driven_armed|].
  split; [by destruct HD|]. intros id. destruct (end_pass_fields d2) as (-> & _).
  apply (pass_nodes _ _ _ _ _ HP).
Qed.

(** What holds between rounds. *)
Record settled (t : SystemTime) (d : ClusterDriver) : Prop := mkSettled {
  se_armed : armed t d;
  se_steady : ∀ id n, nodes (state d) !! id = Some n → steady n;
  se_generation : queued d = false → observed_generation (state d) = generation (d_desired d);
}.

(** A node that is not to be acted on is as a pass would leave it. *)
Lemma restful_step now alloc d id :
  ¬ restless d id now → after (node_step now alloc d id) = nodes (state d) !! id.
Proof.
  unfold restless, node_step, pass_node. intros Hr.
  destruct (nodes (state d) !! id) as [n|]; [|by destruct (expanded_desired d !! id); [destruct Hr|]].
  destruct (dec_action _); [by destruct Hr|done].
Qed.

Lemma round_spec t now d x :
  settled t d → t ≤ now → roomy d →
  ∃ d' x', round submit now (d, x) = inl (d', x') ∧ settled now d'
    ∧ d_desired d' = d_desired d ∧ expanded_desired d' = expanded_desired d
    ∧ observed_generation (state d') = generation (d_desired d)
    ∧ ∀ id, (distance (nodes (state d') !! id) (expanded_desired d !! id)
             ≤ pred (distance (nodes (state d) !! id) (expanded_desired d !! id)))%nat.
Proof using submit_accepts.
  intros [Ha Hs Hg] Hle Hroom. unfold round. set d0 := (trigger_if_due d now).1.
  assert (H0 : resting d0 ∧ state d0 = state d ∧ d_desired d0 = d_desired d
    ∧ expanded_desired d0 = expanded_desired d ∧ policy d0 = policy d
    ∧ (queued d0 = false → d0 = d ∧ queued d = false ∧ ∀ id, ¬ restless d id now)).
  { destruct (Ha) as [(Sh & Pr & Di) Harm]. unfold d0, trigger_if_due.
    destruct (requeue_at d) as [r|] eqn:Hr; [destruct (N.leb_spec r now)|]; cbn.
    - unfold trigger. cbn. by rw Pr.
    - do 5 (split; [done|]). intros Hq. split; [done|]. split; [done|]. intros id Hid.
      destruct (Harm Hq id now Hle Hid) as (r' & Er & ?). simplify_eq. lia.
    - do 5 (split; [done|]). intros Hq. split; [done|]. split; [done|]. intros id Hid.
      destruct (Harm Hq id now Hle Hid) as (r' & Er & ?). done. }
  clearbody d0. destruct H0 as (Hr0 & Es & Ed & Ee & Ep & Hnq).
  assert (Hdrive : ∃ d1 x1 k alloc, drive_next submit d0 now x = (d1, x1, inl k) ∧ armed now d1
    ∧ (d_desired d1 = d_desired d ∧ expanded_desired d1 = expanded_desired d ∧ policy d1 = policy d
       ∧ observed_generation (state d1) = generation (d_desired d))
    ∧ ∀ id, nodes (state d1) !! id = after (node_step now alloc d id)).
  { destruct (queued d0) eqn:Hq.
    - destruct (drive_accepting d0 now x Hr0 Hq) as (d1 & x1 & k & alloc & H1 & H2 & (F1 & F2 & F3 & F4) & H4).
      { unfold roomy. by rw Es Ee. }
      exists d1, x1, k, alloc. split; [done|]. split; [done|]. split; [repeat split; congruence|].
      intros id. rw H4. unfold node_step. by rw Es Ee Ep.
    - destruct (Hnq eq_refl) as (-> & Hqd & Hrest). exists d, x, 0, (λ _, 0).
      split; [unfold drive_next; destruct Hr0 as (_ & -> & _); by rw Hqd|].
      split; [split; [done|]; intros ? id now' ? ?; destruct Ha as [_ Harm]; apply (Harm Hqd id); [lia|done]|].
      split; [do 3 (split; [done|]); by apply Hg|]. intros id. by rw restful_step. }
  destruct Hdrive as (d1 & x1 & k & alloc & -> & Ha1 & (F1 & F2 & F3 & F4) & Hn1).
  destruct (answer_all_spec now d1) as [(G1 & G2 & G3 & G4) Hn2].
  exists (answer_all now d1), x1. split; [done|].
  assert (Hclose : ∀ id, closer (nodes (state d) !! id) (nodes (state (answer_all now d1)) !! id)
      (expanded_desired d !! id)).
  { intros id. rw Hn2 Hn1 F3. apply node_round. intros n. apply Hs. }
  split; [|split; [congruence|split; [congruence|split; [congruence|intros id; apply Hclose]]]].
  split; [by apply answer_all_armed|intros id n; apply (Hclose id)|congruence].
Qed.

#[local] Instance roomy_dec d : Decision (roomy d).
Proof.
  unfold roomy. apply and_dec; [apply _|].
  change (Decision (map_Forall (λ _ n, next_operation_sequence n < u64_max) (nodes (state d)))). apply _.
Defined.

Lemma distance_bound o w : (distance o w ≤ 10)%nat.
Proof. unfold distance. repeat case_match; lia. Qed.

(** The history of a cluster: rounds, and new shapes. *)
Inductive HistoryOp :=
  | HRound (now : SystemTime)
  | HUpdate (shape : ClusterShape).

Definition history_step (s : ClusterDriver * E) (op : HistoryOp) : ClusterDriver * E :=
  match op with
  | HRound now => match round submit now s with inl s' => s' | inr _ => s end
  | HUpdate shape => ((update_desired s.1 shape).1, s.2)
  end.

(** Times do not go back, the last one is at most [until], and no counter is used up. *)
Fixpoint sane (t until : SystemTime) (s : ClusterDriver * E) (h : list HistoryOp) : bool :=
  match h with
  | [] => t <=? until
  | op :: h =>
      match op with
      | HRound now => (t <=? now) && bool_decide (roomy s.1) && sane now until (history_step s op) h
      | HUpdate _ => sane t until (history_step s op) h
      end
  end.

(** Some counter is used up after [j] rounds. *)
Definition exhausted_within (k : nat) (now : SystemTime) (s : ClusterDriver * E) : Prop :=
  ∃ j d x, (j < k)%nat ∧ rounds submit j now s = inl (d, x) ∧ ¬ roomy d.

Lemma rounds_spec now k : ∀ t d x, settled t d → t ≤ now →
  (∀ id, (distance (nodes (state d) !! id) (expanded_desired d !! id) ≤ k)%nat) →
  exhausted_within k now (d, x) ∨
  ∃ d' x', rounds submit k now (d, x) = inl (d', x') ∧ settled (if k is O then t else now) d'
    ∧ (∀ id, distance (nodes (state d') !! id) (expanded_desired d' !! id) = 0%nat)
    ∧ (k ≠ 0%nat → observed_generation (state d') = generation (d_desired d')).
Proof using submit_accepts.
  elim: k => [|k IH] t d x Hs Hle Hd.
  { right. exists d, x. split; [done|]. split; [done|]. split; [|done]. intros id. specialize (Hd id). lia. }
  destruct (decide (roomy d)) as [Hroom|Hfull]; last by left; exists 0%nat, d, x; split; [lia|].
  destruct (round_spec t now d x Hs Hle Hroom) as (d1 & x1 & Hround & Hs1 & Ed & Ee & Eg & Hdist).
  destruct (IH now d1 x1 Hs1) as [(j & d2 & x2 & Hj & Hr & Hf)|(d' & x' & Hr & Hs' & H0 & Hg)]; [lia| | |].
  - intros id. rw Ee. specialize (Hd id). specialize (Hdist id). lia.
  - left. exists (S j), d2, x2. split; [lia|]. cbn [rounds]. by rw Hround.
  - right. exists d', x'. split; [cbn [rounds]; by rw Hround|]. split; [by destruct k|]. split; [done|].
    intros _. destruct k; [|by apply Hg]. cbn in Hr. simplify_eq. congruence.
Qed.

(** Nodes that are where they should be make a converged cluster. *)
Lemma distances_converged t d :
  settled t d → (∀ id, distance (nodes (state d) !! id) (expanded_desired d !! id) = 0%nat) →
  observed_generation (state d) = generation (d_desired d) → is_converged d = true.
Proof.
  intros [_ Hst _] Hd Hg. unfold is_converged. rw Hg N.eqb_refl. cbn [andb].
  assert (Hnode : ∀ id n, nodes (state d) !! id = Some n →
      expanded_desired d !! id = Some (desired (record n)) ∧ intent n = Active
      ∧ ready (record n) = true ∧ pending n = None).
  { intros id n Hn. specialize (Hd id). destruct (Hst id n Hn) as [(Hp & _) _ Ha _]. rw Hn in Hd.
    unfold distance in Hd. destruct (bool_decide (stage (record n) = Destroyed)) eqn:Hs; [by case_match|].
    destruct (intent n) eqn:Hi; last by repeat case_match.
    destruct (bool_decide (expanded_desired d !! id = Some (desired (record n)))) eqn:Hw; [|done].
    apply bool_decide_eq_true in Hw. cbn in Hd. split; [done|]. split; [done|]. split; [|done].
    specialize (Ha eq_refl). unfold staged in Ha. destruct (stage (record n)); try done. by destruct Ha as (_ & ? & _). }
  assert (Hdom : dom (nodes (state d)) = dom (expanded_desired d)).
  { apply set_eq. intros id. rw !elem_of_dom. split.
    - intros [n Hn]. destruct (Hnode id n Hn) as [-> _]. done.
    - intros [spec Hw]. specialize (Hd id). rw Hw in Hd.
      destruct (nodes (state d) !! id) as [n|]; [done|]. by unfold distance in Hd. }
  rw bool_decide_true; [by rw -!size_dom Hdom|]. cbn [andb]. apply forallb_forall.
  intros [id spec] Hin%list_elem_of_In%elem_of_map_to_list.
  assert (is_Some (nodes (state d) !! id)) as [n Hn] by (apply elem_of_dom; rw Hdom; by apply elem_of_dom).
  rw Hn. destruct (Hnode id n Hn) as (Hw & Hi & Hr & Hp). rw Hi Hr Hp.
  rw (bool_decide_true (desired (record n) = spec)); [congruence|]. done.
Qed.

Lemma new_settled shape pol d : driver_new shape pol = inl d → settled 0 d.
Proof.
  intros Hd. split; [by eapply new_armed|..].
  all: unfold driver_new in Hd; case_match; [|done]; simplify_eq; done.
Qed.

Lemma update_settled t d shape : settled t d → settled t (update_desired d shape).1.
Proof.
  intros [Ha Hs Hg]. split; [by apply update_armed|..]; unfold update_desired.
  all: do 2 (case_match; [done|]); case_match; [|done]; case_match; [done|].
  - cbn. unfold trigger. by case_match.
  - cbn. unfold trigger. cbn. destruct Ha as [(_ & -> & _) _]. done.
Qed.

Lemma history_settled until h : ∀ t s, settled t s.1 → sane t until s h = true →
  ∃ t', t' ≤ until ∧ settled t' (foldl history_step s h).1.
Proof using submit_accepts.
  elim: h => [|op h IH] t [d x] Hs; cbn [sane foldl].
  { intros Ht%N.leb_le. by exists t. }
  destruct op as [now|shape].
  - intros [[Hle%N.leb_le Hroom%bool_decide_eq_true]%andb_prop Hh]%andb_prop. eapply IH; [|done].
    cbn [history_step fst]. by destruct (round_spec t now d x Hs Hle Hroom) as (d' & x' & -> & ? & _).
  - intros Hh. eapply IH; [|done]. by apply update_settled.
Qed.

(** C6. The cluster converges. Take any driver, and any history of rounds and changes of
    the desired shape, so that nodes of any specification are in any phase of creation
    or deletion. If submissions are accepted and the environment answers every pending
    operation with success and lets sessions join, then ten rounds later the cluster is
    converged, whatever the shapes and the number of nodes; unless one of the [u64]
    counters is used up. *)
Theorem cluster_converges shape pol d x h now :
  driver_new shape pol = inl d → sane 0 now (d, x) h = true →
  let s := foldl history_step (d, x) h in
  exhausted_within 10 now s
  ∨ ∃ d' x', rounds submit 10 now s = inl (d', x') ∧ is_converged d' = true.
Proof using submit_accepts.
  intros Hd Hh s. destruct (history_settled now h 0 (d, x) (new_settled _ _ _ Hd) Hh) as (t & Hle & Hs).
  fold s in Hs. destruct s as [d1 x1].
  destruct (rounds_spec now 10 t d1 x1 Hs Hle) as [|(d' & x' & Hr & Hs' & H0 & Hg)];
    [intros id; apply distance_bound|by left|].
  right. exists d', x'. split; [done|]. eapply distances_converged; [done|done|]. by apply Hg.
Qed.
End Accepting.
End Service.

(** ** A sample history *)

Module SampleRounds.
Import SampleCluster.
Definition lease_of (id : LogicalNodeId) : LeaseFacts :=
  mkLeaseFacts "vast" id id None (mkDestroyHandle "vast" id id) ∅.
Definition endpoint (id : LogicalNodeId) : SshEndpoint := mkSshEndpoint id 22 "root" "key".
(** Leases of odd attempts come with an endpoint, the others must be looked up. *)
Definition grant (id : LogicalNodeId) (att : NodeAttemptId) : CreateLeaseResult :=
  mkCreateLeaseResult (lease_of id) (if N.odd att then Some (endpoint id) else None).
Definition session (id : LogicalNodeId) (att : NodeAttemptId) : BootstrapSessionId := att.
Definition peer (id : LogicalNodeId) : string := id.

(** The group shrinks while its nodes boot, and another is added. *)
Definition resize : list HistoryOp :=
  [HRound (at_ 0); HRound (at_ 1); HRound (at_ 2); HRound (at_ 3); HRound (at_ 4);
   HUpdate (cluster 2 [group "gpu" 1; group "cpu" 2]); HRound (at_ 5)].
End SampleRounds.

Lemma cluster_converges_witness :
  let s := foldl (history_step SampleRounds.grant SampleRounds.endpoint SampleRounds.session
    SampleRounds.peer SampleCluster.accept)
    (SampleCluster.driver_of (SampleCluster.cluster 1 [SampleCluster.group "gpu" 2]), tt)
    SampleRounds.resize in
  is_converged s.1 = false
  ∧ (exhausted_within SampleRounds.grant SampleRounds.endpoint SampleRounds.session
       SampleRounds.peer SampleCluster.accept 10 (SampleCluster.at_ 6) s
     ∨ ∃ d' x', rounds SampleRounds.grant SampleRounds.endpoint SampleRounds.session
       SampleRounds.peer SampleCluster.accept 10 (SampleCluster.at_ 6) s = inl (d', x')
       ∧ is_converged d' = true).
Proof.
  intros s. split; [by vm_compute|].
  apply (cluster_converges SampleRounds.grant SampleRounds.endpoint SampleRounds.session
    SampleRounds.peer SampleCluster.accept (λ _ _, eq_refl)
    (SampleCluster.cluster 1 [SampleCluster.group "gpu" 2]) policy_default
    (SampleCluster.driver_of (SampleCluster.cluster 1 [SampleCluster.group "gpu" 2])) tt
    SampleRounds.resize (SampleCluster.at_ 6)); by vm_compute.
Defined.
