(* ===== verification/ProvisionWorld.v ===== *)
(** * The reconciler at work

    The composition of the driver ([Reconciler]), the executor ([EffectExecutor]) and a provider
    that holds leases.  [crates/provisioning] leaves the loop that joins the first two to its
    caller; its steps are those of the supervisor of [xtask/src/demo/feed.rs] ([poll]): deliver an
    executor result, classify due operations, fire a due timer, run a pass.  In between the
    provider acts: a running operation may create or destroy the lease of its attempt at any
    moment, and ends with some answer.

    [honest] is the documented obligation of an [EffectBackend].  [spares_promoted] and [pass_succeeds]
    are no obligations of anybody: they name the runs for which the guarantees are proved, and the
    supervisor does leave the first of them. *)

From S2P Require Import Prelude NodeModel Reconciler EffectExecutor.
#[local] Open Scope N_scope.

Record World := mkWorld {
  driver : ClusterDriver;
  executor : Executor;
  leases : gset NodeAttemptId;   (* attempts with a live lease at the provider *)
}.

Definition effect_attempt (e : PlannedEffect) : NodeAttemptId := op_attempt (operation e).

Inductive WorldOp :=
  | WUpdate (shape : ClusterShape)
  | WObserve (node : LogicalNodeId) (att : NodeAttemptId) (observation : NodeObservation)
      (now : SystemTime)
  | WDeliver (now : SystemTime)
  | WClassify (now : SystemTime)
  | WTrigger (now : SystemTime)
  | WDrive (now : SystemTime)
  | WTouch (task : nat)
  | WFinish (task : nat) (answer : BackendAnswer).

(** Bootstrap sessions report by themselves; operation results come through the executor. *)
Definition session_event (observation : NodeObservation) : bool :=
  match observation with
  | ObsOperationSucceeded _ _ | ObsOperationFailed _ _ => false
  | _ => true
  end.

(** The running task's command reaches the provider. *)
Definition touch (e : PlannedEffect) (ls : gset NodeAttemptId) : gset NodeAttemptId :=
  match command e with
  | CreateLease _ => ls ∪ {[effect_attempt e]}
  | DestroyLease _ => ls ∖ {[effect_attempt e]}
  | _ => ls
  end.

Definition classify_op (now : SystemTime) (dx : ClusterDriver * Executor) (op : PlannedOperation)
    : ClusterDriver * Executor :=
  let '(d, x) := dx in
  match operation_status x (po_operation op) with
  | SUnknown => ((operation_timed_out d op "executor lost pending operation" now).1, x)
  | SInFlight =>
      (d, (expire x (po_operation op) "executor operation timed out with an ambiguous outcome").1)
  | SCompleted => (d, x)
  end.

Definition classify (d : ClusterDriver) (x : Executor) (now : SystemTime)
    : ClusterDriver * Executor :=
  foldl (classify_op now) (d, x) (pending_operations_due d now).

Section World.
Context (spawn_blocking : list PlannedEffect → PlannedEffect → Result unit string).

Definition world_step (w : World) (op : WorldOp) : World :=
  let d := driver w in
  let x := executor w in
  match op with
  | WUpdate shape => mkWorld (update_desired d shape).1 x (leases w)
  | WObserve node att observation now =>
      if session_event observation
      then mkWorld (apply_observation d node att observation now).1 x (leases w)
      else w
  | WDeliver now =>
      match results x with
      | [] => w
      | r :: rest => mkWorld (apply_executor_result d r now).1 (set_results x rest) (leases w)
      end
  | WClassify now =>
      let '(d, x) := classify d x now in mkWorld d x (leases w)
  | WTrigger now => mkWorld (trigger_if_due d now).1 x (leases w)
  | WDrive now =>
      let '(d, x, _) := drive_next (submit spawn_blocking) d now x in mkWorld d x (leases w)
  | WTouch i =>
      match tasks x !! i with
      | Some e => mkWorld d x (touch e (leases w))
      | None => w
      end
  | WFinish i answer => mkWorld d (finish spawn_blocking x i answer) (leases w)
  end.

Definition world_run (w : World) (ops : list WorldOp) : World := foldl world_step w ops.

(** *** Conditions on a run *)

(** The backend: a definite failure to create means the attempt has no lease, and a destroyed lease is
    gone (an [EffectBackend] adopts by attempt, and destroys idempotently). *)
Definition backend_honest (ls : gset NodeAttemptId) (e : PlannedEffect) (answer : BackendAnswer)
    : bool :=
  match command e, checked_answer e answer with
  | CreateLease _, inr error =>
      negb (bool_decide (disposition error = Definite) && bool_decide (effect_attempt e ∈ ls))
  | DestroyLease _, inl _ => negb (bool_decide (effect_attempt e ∈ ls))
  | _, _ => true
  end.

(** The operation is not one that was queued behind another and then promoted, and runs now. *)
Definition expirable (x : Executor) (op : OperationId) : bool :=
  match operations x !! op with
  | Some entry =>
      bool_decide (l_state entry ≠ Running)
      || bool_decide (running_by_attempt x !! op_attempt op = Some op)
  | None => true
  end.

Definition honest (w : World) (op : WorldOp) : bool :=
  match op with
  | WFinish i answer =>
      match tasks (executor w) !! i with
      | Some e => backend_honest (leases w) e answer
      | None => true
      end
  | _ => true
  end.

(** No promoted operation is timed out while it runs: the supervisor times out every operation that is
    due, so that this is a condition on the run; without it a lease can be lost
    ([promoted_expiry_leaks]). *)
Definition spares_promoted (w : World) (op : WorldOp) : bool :=
  match op with
  | WClassify now =>
      forallb (λ o, expirable (executor w) (po_operation o)) (pending_operations_due (driver w) now)
  | _ => true
  end.

(** The pass does not fail. *)
Definition pass_succeeds (w : World) (op : WorldOp) : bool :=
  match op with
  | WDrive now =>
      match (drive_next (submit spawn_blocking) (driver w) now (executor w)).2 with
      | inl _ => true
      | inr _ => false
      end
  | _ => true
  end.

(** The condition holds at every step of a run. *)
Fixpoint throughout (P : World → WorldOp → bool) (w : World) (ops : list WorldOp) : bool :=
  match ops with
  | [] => true
  | op :: ops => P w op && throughout P (world_step w op) ops
  end.
End World.

Definition world_new (d : ClusterDriver) : World := mkWorld d executor_new ∅.

(** ** What holds of every managed node *)

(** A lease may be on its way: one is being asked for, or the answer was lost. *)
Definition claimed (n : ManagedNode) : Prop :=
  (∃ p, pending n = Some p ∧ p_kind p = KCreateLease)
  ∨ ambiguous_operation (retry n) = Some KCreateLease.

Definition covered (n : ManagedNode) : Prop := is_Some (lease (record n)) ∨ claimed n.

Record node_ok (n : ManagedNode) : Prop := mkNodeOk {
  ok_bare : lease (record n) = None → active_bootstrap n = None;
  ok_pending : ∀ p, pending n = Some p → p_kind p = KCreateLease ↔ lease (record n) = None;
  ok_ambiguous : ambiguous_operation (retry n) = Some KCreateLease → lease (record n) = None;
  ok_id : ∀ p, pending n = Some p →
    op_attempt (p_id p) = attempt n ∧ sequence (p_id p) < next_operation_sequence n;
  ok_destroying : ∀ p, pending n = Some p → p_kind p = KDestroyLease → active_bootstrap n = None;
  ok_destroyed : stage (record n) = Destroyed →
    pending n = None ∧ lease (record n) = None ∧ ambiguous_operation (retry n) ≠ Some KCreateLease;
}.

Lemma covered_not_destroyed n : node_ok n → covered n → stage (record n) ≠ Destroyed.
Proof.
  intros Hok Hc Hs. destruct (ok_destroyed n Hok Hs) as (Hp & Hl & Ha).
  destruct Hc as [[? ?]|[(p & ? & ?)|?]]; congruence.
Qed.
