(* ===== verification/ProvisionNode.v ===== *)
(** * A managed node, step by step

    What a pass and an observation do to one node: [node_ok] is kept, and a node that covers a
    lease keeps covering it until the lease is known to be gone. *)

From S2P Require Import Prelude NodeModel Reconciler ReconcilerPass EffectExecutor ProvisionWorld.
#[local] Open Scope N_scope.

Lemma managed_new_ok att spec : node_ok (managed_new att spec).
Proof. by split. Qed.

Lemma replacement_ok att spec old : node_ok (replacement att spec old).
Proof. by split. Qed.

Lemma begin_delete_fields n :
  attempt (begin_delete n) = attempt n ∧ pending (begin_delete n) = pending n
  ∧ lease (record (begin_delete n)) = lease (record n)
  ∧ active_bootstrap (begin_delete n) = active_bootstrap n
  ∧ next_operation_sequence (begin_delete n) = next_operation_sequence n
  ∧ stage (record (begin_delete n)) = stage (record n)
  ∧ ambiguous_operation (retry (begin_delete n)) = ambiguous_operation (retry n).
Proof. unfold begin_delete. by case_match eqn:E. Qed.

(** Everything a lease depends on is the same. *)
Definition same_claim (n n' : ManagedNode) : Prop :=
  attempt n' = attempt n ∧ pending n' = pending n ∧ lease (record n') = lease (record n)
  ∧ next_operation_sequence n' = next_operation_sequence n
  ∧ (ambiguous_operation (retry n') = Some KCreateLease
     ↔ ambiguous_operation (retry n) = Some KCreateLease).

Lemma same_claim_claimed n n' : same_claim n n' → claimed n' ↔ claimed n.
Proof. unfold claimed. by intros (_ & -> & _ & _ & ->). Qed.

Lemma same_claim_covered n n' : same_claim n n' → covered n' ↔ covered n.
Proof.
  intros Hs. unfold covered. rw (same_claim_claimed n n' Hs). by destruct Hs as (_ & _ & -> & _).
Qed.

Lemma begin_delete_same n : same_claim n (begin_delete n).
Proof.
  unfold same_claim. destruct (begin_delete_fields n) as (-> & -> & -> & ? & -> & ? & ->). done.
Qed.

Lemma begin_delete_ok n : node_ok n → node_ok (begin_delete n).
Proof.
  intros [H1 H2 H3 H4 H5 H6].
  destruct (begin_delete_fields n) as (E1 & E2 & E3 & E4 & E5 & E6 & E7).
  by split; rw ?E1 ?E2 ?E3 ?E4 ?E5 ?E6 ?E7.
Qed.

Lemma mark_destroyed_ok n now :
  node_ok n → pending n = None → lease (record n) = None →
  ambiguous_operation (retry n) ≠ Some KCreateLease → node_ok (mark_destroyed n now).
Proof. intros [H1 H2 H3 H4 H5 H6] Hp Hl Ha. by split. Qed.

(** ** Dispatch *)

Lemma start_command_some r c :
  start_bootstrap_command r = Some c → ∃ s, c = StartBootstrap s ∧ is_Some (lease r).
Proof.
  unfold start_bootstrap_command. destruct (lease r); [|done]. destruct (connection r); [|done].
  cbn. intros [= <-]. eauto.
Qed.

(** A command other than [CreateLease] needs a lease, and [CreateLease] is what a node without
    one, or with a claim, dispatches. *)
Lemma dispatch_command n w now c :
  node_ok n → dec_action (reconcile_node n w now) = Some (DecDispatch c) →
  (for_command c = KCreateLease ↔ lease (record n) = None)
  ∧ (for_command c = KDestroyLease → active_bootstrap n = None)
  ∧ (claimed n → for_command c = KCreateLease).
Proof.
  intros Hok Hd. destruct (decides_dispatch _ _ _ _ Hd) as [Hp _].
  assert (Hcl : claimed n → lease (record n) = None).
  { intros [(p & ? & ?)|Ha]; [congruence|by apply (ok_ambiguous n Hok)]. }
  assert (Hbare := ok_bare n Hok). assert (Hamb := ok_ambiguous n Hok).
  enough ((for_command c = KCreateLease ↔ lease (record n) = None)
    ∧ (for_command c = KDestroyLease → active_bootstrap n = None)) as [H1 H2].
  { split; [done|]. split; [done|]. intros ?%Hcl. by apply H1. }
  revert Hd. unfold reconcile_node, reconcile_destroyed. rw Hp.
  case_match; first by repeat case_match.
  case_match; first done.
  case_match.
  - unfold reconcile_deleting. case_match; first done. cbv zeta.
    repeat case_match; cbn; intros; simplify_eq; cbn; try done;
      try (split; [split; intros; by [|auto|congruence]|done]).
    all: try match goal with H : start_bootstrap_command _ = Some _ |- _ =>
      apply start_command_some in H as (? & -> & [? E]); cbn; rw E; done end.
    all: try by (destruct (lease (record n)) eqn:?; [by cbn|]; specialize (Hbare eq_refl); congruence).
    all: try by (split; [split; [done|by intros; apply Hamb]|done]).
  - unfold reconcile_active. repeat case_match; cbn; intros; simplify_eq; cbn; try done.
    all: match goal with H : start_bootstrap_command _ = Some _ |- _ =>
      apply start_command_some in H as (? & -> & [? E]); cbn; done end.
Qed.

Lemma dispatched_fields n e dl s :
  attempt (dispatched n e dl s) = attempt n
  ∧ pending (dispatched n e dl s)
    = Some (mkPendingOperation (operation e) (for_command (command e)) dl)
  ∧ lease (record (dispatched n e dl s)) = lease (record n)
  ∧ active_bootstrap (dispatched n e dl s) = active_bootstrap n
  ∧ next_operation_sequence (dispatched n e dl s) = s
  ∧ retry (dispatched n e dl s) = retry n
  ∧ (stage (record n) ≠ Destroyed → stage (record (dispatched n e dl s)) ≠ Destroyed).
Proof. unfold dispatched. by case_match. Qed.

Lemma dispatched_ok id n c dl :
  node_ok n → stage (record n) ≠ Destroyed →
  (for_command c = KCreateLease ↔ lease (record n) = None) →
  (for_command c = KDestroyLease → active_bootstrap n = None) →
  node_ok (dispatched n (effect_of id n c) dl (next_operation_sequence n + 1)).
Proof.
  intros [H1 H2 H3 H4 H5 H6] Hst Hc Hd.
  destruct (dispatched_fields n (effect_of id n c) dl (next_operation_sequence n + 1))
    as (E1 & E2 & E3 & E4 & E5 & E6 & E7).
  split; rw ?E1 ?E2 ?E3 ?E4 ?E5 ?E6; try done.
  - intros p [= <-]. done.
  - intros p [= <-]. cbn. split; [done|lia].
  - intros p [= <-]. done.
  - intros Hs. by destruct (E7 Hst).
Qed.

(** How a node may change in a pass that allocates attempts from [next] on and emits [em]. *)
Record evolves (next : N) (em : option PlannedEffect) (id : LogicalNodeId)
    (o o' : option ManagedNode) : Prop := mkEvolves {
  ev_pending : ∀ n p, o = Some n → pending n = Some p →
    ∃ n', o' = Some n' ∧ attempt n' = attempt n ∧ pending n' = Some p;
  ev_claimed : ∀ n, o = Some n → claimed n →
    ∃ n', o' = Some n' ∧ attempt n' = attempt n ∧ claimed n';
  ev_covered : ∀ n, o = Some n → covered n →
    ∃ n', o' = Some n' ∧ attempt n' = attempt n ∧ covered n';
  ev_origin : ∀ n', o' = Some n' →
    (∃ n, o = Some n ∧ attempt n = attempt n'
       ∧ next_operation_sequence n ≤ next_operation_sequence n')
    ∨ next ≤ attempt n';
  ev_new : ∀ n' p, o' = Some n' → pending n' = Some p →
    (∃ n, o = Some n ∧ attempt n = attempt n' ∧ pending n = Some p) ∨ is_Some em;
  ev_emit : ∀ e, em = Some e → ∃ n n' p, o = Some n ∧ o' = Some n' ∧ attempt n' = attempt n
    ∧ pending n = None ∧ pending n' = Some p ∧ p_id p = operation e
    ∧ p_kind p = for_command (command e) ∧ e_node e = id
    ∧ operation e = mkOperationId (attempt n) (next_operation_sequence n);
}.

(** Nothing was dispatched, the node is there, and its claim is the same. *)
Lemma evolves_same next id n n' : same_claim n n' → evolves next None id (Some n) (Some n').
Proof.
  intros Hs. destruct (Hs) as (Ea & Ep & El & Eq & _).
  split; try done.
  - intros ? p [= <-] ?. exists n'. by rw Ep.
  - intros ? [= <-] ?. exists n'. by rw (same_claim_claimed n n' Hs).
  - intros ? [= <-] ?. exists n'. by rw (same_claim_covered n n' Hs).
  - intros ? [= <-]. left. exists n. by rw Ea Eq.
  - intros ? p [= <-] ?. left. exists n. by rw -Ep Ea.
Qed.

(** The node covers nothing and is gone, or is another attempt. *)
Lemma evolves_drop next id o o' :
  (∀ n, o = Some n → ¬ covered n ∧ pending n = None) →
  (∀ n', o' = Some n' → next ≤ attempt n' ∧ pending n' = None) →
  evolves next None id o o'.
Proof.
  intros Ho Ho'. split; try done.
  - intros n p E ?. destruct (Ho n E). congruence.
  - intros n E ?. destruct (Ho n E) as [[] _]. by right.
  - intros n E ?. by destruct (Ho n E).
  - intros n' E. right. by apply Ho'.
  - intros n' p E ?. destruct (Ho' n' E). congruence.
Qed.

Lemma evolves_dispatch next id n c dl :
  pending n = None → (claimed n → for_command c = KCreateLease) →
  evolves next (Some (effect_of id n c)) id (Some n)
    (Some (dispatched n (effect_of id n c) dl (next_operation_sequence n + 1))).
Proof.
  intros Hp Hc.
  destruct (dispatched_fields n (effect_of id n c) dl (next_operation_sequence n + 1))
    as (E1 & E2 & E3 & E4 & E5 & E6 & E7).
  assert (Hcl : claimed n →
      claimed (dispatched n (effect_of id n c) dl (next_operation_sequence n + 1))).
  { intros ?%Hc. left. by rw E2; eexists. }
  split.
  - intros ? p [= <-]. congruence.
  - intros ? [= <-] ?. eauto.
  - intros ? [= <-] Hcov. eexists. split; [done|]. split; [done|]. unfold covered. rw E3.
    destruct Hcov; [by left|right; auto].
  - intros ? [= <-]. left. exists n. rw E1 E5. split; [done|]. split; [done|lia].
  - by right.
  - intros ? [= <-]. eexists n, _, _. split; [done|]. split; [done|]. by rw E1 E2.
Qed.

Lemma pass_node_evolves pol now next att id o w :
  (∀ n, o = Some n → node_ok n) →
  (allocates now o w = true → next ≤ att) →
  let st := pass_node pol now att id o w in
  evolves next (emitted st) id o (after st) ∧ (∀ n', after st = Some n' → node_ok n').
Proof.
  intros Hok Hal. destruct o as [n|]; cbn [pass_node allocates] in *.
  2: { destruct w; cbn; (split; [apply evolves_drop; try done|]); intros; simplify_eq.
       - by split; [apply Hal|].
       - apply managed_new_ok. }
  specialize (Hok n eq_refl).
  destruct (dec_action (reconcile_node n w now)) as [[| |spec| |c]|] eqn:Ha; cbn.
  - split; [apply evolves_same, begin_delete_same|]. intros ? [= <-]. by apply begin_delete_ok.
  - apply decides_mark_destroyed in Ha as (Hp & _ & Hl & _ & Hamb).
    split; [by apply evolves_same|]. intros ? [= <-]. by apply mark_destroyed_ok.
  - apply decides_restart in Ha as [Hs _]. split.
    + apply evolves_drop; intros ? [= <-].
      * split; [|by apply ok_destroyed]. intros Hc. by apply covered_not_destroyed in Hc.
      * by split; [apply Hal|].
    + intros ? [= <-]. apply replacement_ok.
  - apply decides_reap in Ha as [Hs _]. split; [|done].
    apply evolves_drop; [|done]. intros ? [= <-].
    split; [|by apply ok_destroyed]. intros Hc. by apply covered_not_destroyed in Hc.
  - destruct (dispatch_command n w now c Hok Ha) as (H1 & H2 & H3).
    apply decides_dispatch in Ha as [Hp Hs].
    split; [by apply evolves_dispatch|]. intros ? [= <-]. by apply dispatched_ok.
  - split; [by apply evolves_same|]. by intros ? [= <-].
Qed.

(** ** Observations *)

(** An event of a live session: the node has a lease, and keeps it. *)
Lemma mark_attempt_failed_same n why now pol :
  is_Some (lease (record n)) → node_ok n →
  same_claim n (mark_attempt_failed n why now pol) ∧ node_ok (mark_attempt_failed n why now pol).
Proof.
  intros [l Hl] [H1 H2 H3 H4 H5 H6].
  assert (ambiguous_operation (retry n) ≠ Some KCreateLease) by (intros ?%H3; congruence).
  split; [done|]. by split.
Qed.

Lemma finish_bootstrap_same n now pol :
  is_Some (lease (record n)) → node_ok n →
  same_claim n (finish_bootstrap n now pol) ∧ node_ok (finish_bootstrap n now pol).
Proof.
  intros [l Hl] Hok. unfold finish_bootstrap.
  destruct (swactor (record n)); [|by apply mark_attempt_failed_same].
  destruct (Hok) as [H1 H2 H3 H4 H5 H6].
  assert (ambiguous_operation (retry n) ≠ Some KCreateLease) by (intros ?%H3; congruence).
  split; [done|]. by split.
Qed.

(** Only facts about the session, or the session itself, are changed. *)
Lemma observe_bootstrap_same n session o now pol :
  active_bootstrap n = Some session → is_Some (lease (record n)) → node_ok n →
  same_claim n (observe_bootstrap n session o now pol)
  ∧ node_ok (observe_bootstrap n session o now pol).
Proof.
  intros Ha Hl Hok. unfold observe_bootstrap. cbv zeta. set m := set_record n _.
  assert (Hm : same_claim n m ∧ node_ok m).
  { destruct Hok. by split. }
  clearbody m. destruct Hm as [Hs Hm].
  assert (Hl' : is_Some (lease (record m))) by (by destruct Hs as (_ & _ & -> & _)).
  assert (Htr : ∀ m', same_claim m m' ∧ node_ok m' → same_claim n m' ∧ node_ok m').
  { intros m' [Hm' ?]. split; [|done]. destruct Hs as (? & ? & ? & ? & ?), Hm' as (? & ? & ? & ? & ?).
    split; [congruence|]. split; [congruence|]. split; [congruence|]. split; [congruence|]. tauto. }
  case_match; first by apply Htr, mark_attempt_failed_same.
  case_match; try done; try by apply Htr, finish_bootstrap_same.
  split; [done|]. destruct Hm. by split.
Qed.

Lemma observe_session n obs now pol :
  session_event obs = true → observation_matches n obs = true → node_ok n →
  same_claim n (observe n obs now pol) ∧ node_ok (observe n obs now pol).
Proof.
  intros Hs Hm Hok.
  assert (Hlease : ∀ s, active_bootstrap n = Some s → is_Some (lease (record n))).
  { intros s Ha. destruct (lease (record n)) eqn:E; [done|].
    apply (ok_bare n Hok) in E. congruence. }
  destruct obs; cbn [session_event observation_matches observe] in *; try done;
    apply andb_prop in Hm as [Hf%bool_decide_eq_true Ha%bool_decide_eq_true];
    rw (bool_decide_false (stage (record n) = Failed)) // (bool_decide_true (active_bootstrap n = _)) //;
    pose proof (Hlease _ Ha) as Hl.
  - by apply observe_bootstrap_same.
  - by apply mark_attempt_failed_same.
  - destruct Hok as [H1 H2 H3 H4 H5 H6]. split; [done|]. by split.
  - by apply finish_bootstrap_same.
Qed.

(** ** Operation results *)

(** A node with nothing pending that is not destroyed. *)
Lemma idle_ok n :
  pending n = None → stage (record n) ≠ Destroyed →
  (lease (record n) = None → active_bootstrap n = None) →
  (ambiguous_operation (retry n) = Some KCreateLease → lease (record n) = None) → node_ok n.
Proof. intros Hp Hs Hb Ha. split; try done; rw Hp; done. Qed.

Lemma idle_claimed n :
  pending n = None → claimed n ↔ ambiguous_operation (retry n) = Some KCreateLease.
Proof. intros Hp. unfold claimed. rw Hp. split; [by intros [(? & ? & _)|]|by right]. Qed.

Lemma observe_success n p outcome now pol :
  node_ok n → pending n = Some p → p_kind p = outcome_kind outcome →
  let n' := observe n (ObsOperationSucceeded (p_id p) outcome) now pol in
  node_ok n' ∧ pending n' = None ∧ ¬ claimed n'
  ∧ (lease (record n') = None → outcome = OLeaseDestroyed).
Proof.
  intros Hok Hp Hk. cbn [observe]. rw Hp !bool_decide_true //. cbn [andb].
  assert (Hst : stage (record n) ≠ Destroyed).
  { intros Hs. destruct (ok_destroyed n Hok Hs). congruence. }
  assert (Hbare := ok_bare n Hok).
  assert (Hl : outcome_kind outcome ≠ KCreateLease → lease (record n) ≠ None).
  { rw -Hk (ok_pending n Hok p Hp). done. }
  assert (Hd : outcome = OLeaseDestroyed → active_bootstrap n = None).
  { intros ->. by apply (ok_destroying n Hok p). }
  clear Hok Hk. unfold observe_outcome.
  destruct outcome as [[l [|]]|[|]| | | |]; cbn in Hl, Hd |- *;
    (split; [apply idle_ok; cbn; try done; intros; solve [auto | by destruct Hl]|]);
    (split; [done|]); (split; [by rw idle_claimed|cbn; first [done | intros; by destruct Hl]]).
Qed.

Lemma observe_failure n p error now pol :
  node_ok n → pending n = Some p →
  let n' := observe n (ObsOperationFailed (p_id p) error) now pol in
  node_ok n' ∧ pending n' = None ∧ lease (record n') = lease (record n)
  ∧ (claimed n' ↔ p_kind p = KCreateLease ∧ disposition error = Ambiguous).
Proof.
  intros Hok Hp. cbn [observe]. rw Hp bool_decide_true //.
  assert (Hst : stage (record n) ≠ Destroyed).
  { intros Hs. destruct (ok_destroyed n Hok Hs). congruence. }
  assert (Hbare := ok_bare n Hok).
  assert (Hl := ok_pending n Hok p Hp). clear Hok.
  destruct (p_kind p), (disposition error) eqn:Ed, (intent n) eqn:Ei;
    unfold record_failure, mark_attempt_failed; rw Ed; cbn; rw ?Ei; cbn;
    (split; [apply idle_ok; cbn; try done; intros; solve [auto | by apply Hl]|]); (split; [done|]); (split; [done|]);
    rw idle_claimed //; cbn; split; by [|intros []].
Qed.
