(* ===== verification/ProvisionLedger.v ===== *)
(** * The ledger against the nodes

    The invariant that ties the executor's ledger, the tasks it runs and the provider's leases to
    the managed nodes, and its preservation by every step of the executor and of the driver. *)

From S2P Require Import Prelude NodeModel Reconciler ReconcilerPass EffectExecutor ProvisionWorld ProvisionNode.
#[local] Open Scope N_scope.

Abbreviation Nodes := (gmap LogicalNodeId ManagedNode) (only parsing).

(** Every node is well formed, and attempts are distinct and below the allocator. *)
Record cluster_ok (ns : Nodes) (next : N) : Prop := mkClusterOk {
  co_node : ∀ id n, ns !! id = Some n → node_ok n;
  co_below : ∀ id n, ns !! id = Some n → attempt n < next;
  co_distinct : ∀ id id' n n', ns !! id = Some n → ns !! id' = Some n' →
    attempt n = attempt n' → id = id';
}.

(** [r] settles its operation: the backend answered, and the answer is not in doubt. *)
Definition settled (r : ExecutorResult) : Prop :=
  match res_result r with inl _ => True | inr e => disposition e = Definite end.

(** Where a task stands: the running operation of its attempt, or one promoted from the queue. *)
Definition physically (x : Executor) (op : OperationId) : Prop :=
  running_by_attempt x !! op_attempt op = Some op
  ∨ running_by_attempt x !! op_attempt op = None ∧ in_flight_by_attempt x !! op_attempt op = Some op.

(** The pending operation [p] of [n] and the effect that asks for it. *)
Definition asks (id : LogicalNodeId) (n : ManagedNode) (p : PendingOperation) (e : PlannedEffect)
    : Prop :=
  e_node e = id ∧ operation e = p_id p ∧ for_command (command e) = p_kind p
  ∧ op_attempt (operation e) = attempt n.

(** The result [r] of the pending operation [p] of [n]. *)
Record answers (x : Executor) (ls : gset NodeAttemptId) (id : LogicalNodeId) (n : ManagedNode)
    (p : PendingOperation) (r : ExecutorResult) : Prop := mkAnswers {
  an_node : res_node r = id;
  an_kind : ∀ o, res_result r = inl o → outcome_kind o = p_kind p;
  an_quiet : settled r → ∀ e, e ∈ tasks x → effect_attempt e ≠ attempt n;
  an_refused : p_kind p = KCreateLease → ∀ e, res_result r = inr e → disposition e = Definite →
    attempt n ∉ ls;
  an_gone : p_kind p = KDestroyLease → ∀ o, res_result r = inl o → attempt n ∉ ls;
}.

(** [unsent]: effects a pass has decided and not yet submitted. *)
Record ledger_ok (unsent : list PlannedEffect) (ns : Nodes) (next : N) (x : Executor)
    (ls : gset NodeAttemptId) : Prop := mkLedgerOk {
  lo_ops : ∀ op en, operations x !! op = Some en →
    op_attempt op < next ∧ operation (effect en) = op
    ∧ ∀ id n, ns !! id = Some n → attempt n = op_attempt op →
        sequence op < next_operation_sequence n;
  lo_open : ∀ op en, operations x !! op = Some en → l_state en ≠ Completed →
    in_flight_by_attempt x !! op_attempt op = Some op
    ∧ (l_state en = Queued ↔ queued_by_attempt x !! op_attempt op = Some op);
  lo_in_flight : ∀ a op, in_flight_by_attempt x !! a = Some op →
    op_attempt op = a ∧ ∃ id n p en, ns !! id = Some n ∧ attempt n = a ∧ pending n = Some p
      ∧ operations x !! op = Some en ∧ l_state en ≠ Completed ∧ asks id n p (effect en);
  lo_queued : ∀ a op, queued_by_attempt x !! a = Some op →
    in_flight_by_attempt x !! a = Some op ∧ is_Some (running_by_attempt x !! a);
  lo_tasks : ∀ e, e ∈ tasks x → physically x (operation e)
    ∧ ∃ en, operations x !! operation e = Some en ∧ effect en = e ∧ l_state en ≠ Queued;
  lo_single : NoDup (effect_attempt <$> tasks x);
  lo_unsent_single : NoDup (effect_attempt <$> unsent);
  lo_unsent : ∀ e, e ∈ unsent → operations x !! operation e = None
    ∧ ∃ id n p, ns !! id = Some n ∧ pending n = Some p ∧ asks id n p e;
  lo_pending : ∀ id n p, ns !! id = Some n → pending n = Some p →
    in_flight_by_attempt x !! attempt n = Some (p_id p)
    ∨ (∃ r, r ∈ results x ∧ res_operation r = p_id p)
    ∨ (∃ e, e ∈ unsent ∧ operation e = p_id p);
  lo_results : ∀ r, r ∈ results x →
    (∃ en, operations x !! res_operation r = Some en ∧ l_state en = Completed)
    ∧ ∀ id n p, ns !! id = Some n → pending n = Some p → res_operation r = p_id p →
        answers x ls id n p r;
  lo_create : ∀ e, e ∈ tasks x → for_command (command e) = KCreateLease →
    ∃ id n, ns !! id = Some n ∧ attempt n = effect_attempt e ∧ claimed n;
  lo_leases : ∀ a, a ∈ ls → ∃ id n, ns !! id = Some n ∧ attempt n = a ∧ covered n;
}.

Lemma owner_unique ns next id id' n n' :
  cluster_ok ns next → ns !! id = Some n → ns !! id' = Some n' → attempt n = attempt n' →
  id = id' ∧ n = n'.
Proof.
  intros Hc H1 H2 Ha. assert (id = id') as -> by (by eapply co_distinct). by simplify_eq.
Qed.

(** ** Steps of the nodes *)

(** The nodes change as a pass or a session event changes them; [em] is what is emitted. *)
Lemma ledger_evolve ns ns' next next' x ls (em : LogicalNodeId → option PlannedEffect) effs :
  cluster_ok ns next → cluster_ok ns' next' → next ≤ next' →
  (∀ id, evolves next (em id) id (ns !! id) (ns' !! id)) →
  (∀ e, e ∈ effs ↔ ∃ id, em id = Some e) → NoDup (e_node <$> effs) →
  ledger_ok [] ns next x ls → ledger_ok effs ns' next' x ls.
Proof.
  intros Hc Hc' Hle Hev Heffs Hnd [L1 L2 L3 L4 L5 L6 _ _ L9 L10 L11 L12].
  assert (Hown : ∀ id n' op en, ns' !! id = Some n' → operations x !! op = Some en →
      attempt n' = op_attempt op →
      ∃ n, ns !! id = Some n ∧ attempt n = attempt n'
        ∧ next_operation_sequence n ≤ next_operation_sequence n').
  { intros id n' op en Hn' Hop Ha. destruct (ev_origin _ _ _ _ _ (Hev id) n' Hn') as [|]; [done|].
    destruct (L1 op en Hop) as [? _]. lia. }
  split; try done.
  - intros op en Hop. destruct (L1 op en Hop) as (? & ? & Hseq). split; [lia|]. split; [done|].
    intros id n' Hn' Ha. destruct (Hown id n' op en Hn' Hop Ha) as (n & Hn & Ea & Es).
    specialize (Hseq id n Hn ltac:(congruence)). lia.
  - intros a op Hin. destruct (L3 a op Hin) as (? & id & n & p & en & Hn & Ha & Hp & Hop & Hst & Hask).
    split; [done|]. destruct (ev_pending _ _ _ _ _ (Hev id) n p Hn Hp) as (n' & Hn' & Ha' & Hp').
    exists id, n', p, en. split; [done|]. split; [congruence|]. do 3 (split; [done|]).
    destruct Hask as (? & ? & ? & ?). split; [done|]. split; [done|]. split; [done|congruence].
  - apply NoDup_fmap_2_strong; [|by eapply NoDup_fmap_1].
    intros e1 e2 [id1 H1]%Heffs [id2 H2]%Heffs Heq.
    destruct (ev_emit _ _ _ _ _ (Hev id1) e1 H1) as (n1 & _ & _ & Hn1 & _ & _ & _ & _ & _ & _ & _ & E1).
    destruct (ev_emit _ _ _ _ _ (Hev id2) e2 H2) as (n2 & _ & _ & Hn2 & _ & _ & _ & _ & _ & _ & _ & E2).
    unfold effect_attempt in Heq. rw E1 E2 in Heq. cbn in Heq.
    destruct (owner_unique ns next id1 id2 n1 n2 Hc Hn1 Hn2 Heq) as [-> _]. congruence.
  - intros e [id He]%Heffs.
    destruct (ev_emit _ _ _ _ _ (Hev id) e He)
      as (n & n' & p & Hn & Hn' & Ha & Hp & Hp' & Eid & Ek & En & Eop).
    split.
    + destruct (operations x !! operation e) as [en|] eqn:Hop; [|done].
      destruct (L1 _ _ Hop) as (_ & _ & Hseq). rw Eop in Hseq.
      by destruct (N.lt_irrefl _ (Hseq id n Hn eq_refl)).
    + exists id, n', p. split; [done|]. split; [done|]. split; [done|]. split; [done|].
      split; [done|]. by rw Eop Ha.
  - intros id n' p Hn' Hp'. destruct (ev_new _ _ _ _ _ (Hev id) n' p Hn' Hp') as [(n & Hn & Ha & Hp)|[e He]].
    + rw -Ha. destruct (L9 id n p Hn Hp) as [|[|(? & []%elem_of_nil & _)]]; auto.
    + right; right. exists e. split; [apply Heffs; eauto|].
      destruct (ev_emit _ _ _ _ _ (Hev id) e He) as (? & n2 & p2 & _ & ? & _ & _ & ? & ? & _).
      congruence.
  - intros r Hr. destruct (L10 r Hr) as [(en & Hop & Hst) Hans]. split; [eauto|].
    intros id n' p Hn' Hp' Er.
    destruct (ev_new _ _ _ _ _ (Hev id) n' p Hn' Hp') as [(n & Hn & Ha & Hp)|[e He]].
    + destruct (Hans id n p Hn Hp Er) as [A1 A2 A3 A4 A5]. by split; rw -?Ha.
    + destruct (ev_emit _ _ _ _ _ (Hev id) e He)
        as (n & n2 & p2 & Hn & ? & Ha & _ & ? & Eid & _ & _ & Eop). simplify_eq.
      destruct (L1 _ _ Hop) as (_ & _ & Hseq). rw Er Eid Eop in Hseq.
      by destruct (N.lt_irrefl _ (Hseq id n Hn eq_refl)).
  - intros e He Hk. destruct (L11 e He Hk) as (id & n & Hn & Ha & Hcl).
    destruct (ev_claimed _ _ _ _ _ (Hev id) n Hn Hcl) as (n' & ? & ? & ?).
    exists id, n'. split; [done|]. split; [congruence|done].
  - intros a Ha. destruct (L12 a Ha) as (id & n & Hn & Ea & Hcov).
    destruct (ev_covered _ _ _ _ _ (Hev id) n Hn Hcov) as (n' & ? & ? & ?).
    exists id, n'. split; [done|]. split; [congruence|done].
Qed.

(** ** Steps of the executor *)

Lemma remove_if_other m op a : a ≠ op_attempt op → remove_if m op !! a = m !! a.
Proof. intros Ha. unfold remove_if. case_match; [|done]. by rw lookup_delete_ne. Qed.

Lemma remove_if_some m op a o :
  remove_if m op !! a = Some o → m !! a = Some o ∧ (a = op_attempt op → o ≠ op).
Proof.
  unfold remove_if. case_bool_decide as E.
  - intros [Hne Hm]%lookup_delete_Some. done.
  - intros Hm. split; [done|]. intros ->. congruence.
Qed.

Lemma remove_if_hit m op : m !! op_attempt op = Some op → remove_if m op !! op_attempt op = None.
Proof. intros E. unfold remove_if. rw bool_decide_true //. by rw lookup_delete_eq. Qed.

Lemma remove_if_miss m op a o : m !! a = Some o → o ≠ op → remove_if m op !! a = Some o.
Proof.
  intros Hm Hne. unfold remove_if. case_bool_decide as E; [|done].
  rw lookup_delete_ne //. intros <-. congruence.
Qed.

Lemma remove_if_none m op a : m !! a = None → remove_if m op !! a = None.
Proof. intros Hm. unfold remove_if. case_match; [|done]. by rw lookup_delete_None; right. Qed.

(** The one operation of an attempt that is in flight is the pending one of its node. *)
Lemma in_flight_pending U ns next x ls id n op :
  cluster_ok ns next → ledger_ok U ns next x ls → ns !! id = Some n →
  in_flight_by_attempt x !! attempt n = Some op →
  ∃ p en, pending n = Some p ∧ p_id p = op ∧ operations x !! op = Some en
    ∧ l_state en ≠ Completed ∧ asks id n p (effect en).
Proof.
  intros Hc Hl Hn Hin.
  destruct (lo_in_flight _ _ _ _ _ Hl _ _ Hin) as (_ & id' & n' & p & en & Hn' & Ha & Hp & Hop & Hst & Hask).
  destruct (owner_unique ns next id' id n' n Hc Hn' Hn Ha) as [-> ->].
  exists p, en. split; [done|]. split; [|done].
  destruct Hask as (_ & <- & _). by destruct (lo_ops _ _ _ _ _ Hl _ _ Hop) as (_ & -> & _).
Qed.

Lemma unsent_idle e U ns next x ls id n p :
  cluster_ok ns next → ledger_ok (e :: U) ns next x ls →
  ns !! id = Some n → pending n = Some p → asks id n p e →
  in_flight_by_attempt x !! attempt n = None
  ∧ queued_by_attempt x !! attempt n = None
  ∧ (running_by_attempt x !! attempt n = None → ∀ t, t ∈ tasks x → effect_attempt t ≠ attempt n).
Proof.
  intros Hc Hl Hn Hp (_ & Eop & _).
  assert (Hin : in_flight_by_attempt x !! attempt n = None).
  { destruct (in_flight_by_attempt x !! attempt n) as [op|] eqn:Hin; [|done].
    destruct (in_flight_pending _ _ _ _ _ id n op Hc Hl Hn Hin) as (p' & en & Hp' & Ep & Hop & _).
    destruct (lo_unsent _ _ _ _ _ Hl e) as [Hnone _]; [set_solver|]. congruence. }
  split; [done|]. split.
  - destruct (queued_by_attempt x !! attempt n) as [op|] eqn:Hq; [|done].
    apply (lo_queued _ _ _ _ _ Hl) in Hq as [? _]. congruence.
  - intros Hr t Ht Ha. destruct (lo_tasks _ _ _ _ _ Hl t Ht) as [[|[_ ?]] _];
      unfold effect_attempt in Ha; congruence.
Qed.

(** The ledger after an effect is accepted as running ([q = false]) or queued. *)
Definition accepted (q : bool) (x : Executor) (e : PlannedEffect) : Executor :=
  let a := effect_attempt e in
  mkExecutor (<[operation e := if q then entry_queued e else entry_running e]> (operations x))
    (<[a := operation e]> (in_flight_by_attempt x))
    (if q then running_by_attempt x else <[a := operation e]> (running_by_attempt x))
    (if q then <[a := operation e]> (queued_by_attempt x) else queued_by_attempt x)
    (resources x) (results x) (if q then tasks x else tasks x ++ [e]).

Lemma submit_accepts spawn e U ns next x ls :
  (∀ ts e, spawn ts e = inl tt) → cluster_ok ns next → ledger_ok (e :: U) ns next x ls →
  ∃ q, submit spawn x e = (accepted q x e, inl tt)
    ∧ (q = true ↔ is_Some (running_by_attempt x !! effect_attempt e)).
Proof.
  intros Hspawn Hc Hl. destruct (lo_unsent _ _ _ _ _ Hl e) as (Hop & id & n & p & Hn & Hp & Hask); [set_solver|].
  destruct (unsent_idle _ _ _ _ _ _ _ _ _ Hc Hl Hn Hp Hask) as (Hin & Hq & _).
  destruct Hask as (_ & _ & _ & Ha). unfold submit, ledger_accept, spawn_effect, effect_attempt.
  rw Hop Ha Hin. destruct (running_by_attempt x !! attempt n) as [o|] eqn:Hr.
  - rw Hq. exists true. by unfold accepted, effect_attempt; rw Ha.
  - rw Hspawn. exists false. unfold accepted, effect_attempt. rw Ha. split; [done|].
    split; [done|by intros []].
Qed.

Lemma accepted_ok q e U ns next x ls :
  cluster_ok ns next → ledger_ok (e :: U) ns next x ls →
  (q = true ↔ is_Some (running_by_attempt x !! effect_attempt e)) →
  ledger_ok U ns next (accepted q x e) ls.
Proof.
  intros Hc Hl Hq. destruct (lo_unsent _ _ _ _ _ Hl e) as (Hop & id & n & p & Hn & Hp & Hask); [set_solver|].
  destruct (unsent_idle _ _ _ _ _ _ _ _ _ Hc Hl Hn Hp Hask) as (Hin & Hqn & Hnt).
  destruct (Hask) as (Een & Eop & Ek & Ha). fold (effect_attempt e) in Ha. rw -Ha in Hin Hqn Hnt.
  destruct Hl as [L1 L2 L3 L4 L5 L6 L7 L8 L9 L10 L11 L12].
  assert (Hne : ∀ op en, operations x !! op = Some en → l_state en ≠ Completed →
      op_attempt op ≠ effect_attempt e).
  { intros op en Hop' Hst Heq. destruct (L2 op en Hop' Hst) as [? _]. congruence. }
  assert (Hfree : q = false → running_by_attempt x !! effect_attempt e = None).
  { intros ->. apply eq_None_not_Some. intros Hs. by apply Hq in Hs. }
  cbn in L7. apply NoDup_cons in L7 as [Hun L7].
  assert (Htask : ∀ t, t ∈ tasks (accepted q x e) → t ∈ tasks x ∨ t = e ∧ q = false).
  { intros t. destruct q; cbn; [by left|]. rw elem_of_app list_elem_of_singleton. naive_solver. }
  split; cbn.
  - intros op en. rw lookup_insert_Some. intros [[<- <-]|[_ Hop']]; [|by apply L1].
    assert (operation (effect (if q then entry_queued e else entry_running e)) = operation e) as ->
      by (by destruct q).
    destruct (ok_id n (co_node _ _ Hc _ _ Hn) p Hp) as [_ Hs].
    split; [|split; [done|]].
    + fold (effect_attempt e). rw Ha. by eapply co_below.
    + intros id' n' Hn' Ha'. fold (effect_attempt e) in Ha'. rw Ha in Ha'.
      destruct (owner_unique ns next id' id n' n Hc Hn' Hn Ha') as [-> ->]. by rw Eop.
  - intros op en. rw lookup_insert_Some. intros [[<- <-]|[Hdiff Hop']] Hst.
    + rw lookup_insert_eq. split; [done|]. destruct q; cbn.
      * by rw lookup_insert_eq.
      * unfold effect_attempt in Hqn. rw Hqn. done.
    + destruct (L2 op en Hop' Hst) as [H1 H2]. pose proof (Hne op en Hop' Hst).
      rw lookup_insert_ne //. split; [done|]. destruct q; [|done]. by rw lookup_insert_ne.
  - intros a op. rw lookup_insert_Some. intros [[<- <-]|[Hdiff Hin']].
    + split; [done|]. exists id, n, p. eexists. split; [done|]. split; [done|]. split; [done|].
      rw lookup_insert_eq. split; [done|]. by destruct q.
    + destruct (L3 a op Hin') as (Ea & id' & n' & p' & en & ? & ? & ? & Hop' & ? & ?).
      split; [done|]. exists id', n', p', en. do 3 (split; [done|]). split; [|done].
      rw lookup_insert_ne //. intros <-. congruence.
  - intros a op. destruct q; last first.
    { intros Hq'. destruct (L4 a op Hq') as [H1 H2]. assert (a ≠ effect_attempt e) by congruence.
      rw !lookup_insert_ne //. }
    rw lookup_insert_Some. intros [[<- <-]|[Hdiff Hq']].
    + rw lookup_insert_eq. split; [done|]. by apply Hq.
    + rw lookup_insert_ne //. by apply L4.
  - intros t [Ht|[-> ->]]%Htask.
    + destruct (L5 t Ht) as (Hph & en & Hop' & Een' & Hst).
      assert (operation t ≠ operation e) by congruence.
      split; [|exists en; by rw lookup_insert_ne].
      unfold physically in *; cbn.
      destruct q; [destruct Hph as [|[Hr Hi]]; [by left|right]|].
      * rw lookup_insert_ne; [congruence|done].
      * assert (effect_attempt t ≠ effect_attempt e) by (by apply Hnt; [apply Hfree|]).
        rw !lookup_insert_ne //.
    + split; [left; cbn; by rw lookup_insert_eq|]. eexists. rw lookup_insert_eq. done.
  - destruct q; [done|]. rw fmap_app. apply NoDup_app. split; [done|].
    split; [|apply NoDup_singleton]. cbn.
    intros a (t & -> & Ht)%list_elem_of_fmap. rw list_elem_of_singleton. by apply Hnt; [apply Hfree|].
  - done.
  - intros e' He'. destruct (L8 e') as [Hop' Hown]; [set_solver|]. split; [|done].
    rw lookup_insert_ne //. intros Heq. apply Hun. unfold effect_attempt. rw Heq.
    apply list_elem_of_fmap. eauto.
  - intros id' n' p' Hn' Hp'. destruct (L9 id' n' p' Hn' Hp') as [Hi|[Hr|(e' & He' & Eo)]].
    + left. rw lookup_insert_ne //. congruence.
    + auto.
    + apply elem_of_cons in He' as [->|He']; [|right; right; eauto]. left.
      destruct (ok_id n' (co_node _ _ Hc _ _ Hn') p' Hp') as [Ea _].
      unfold effect_attempt. rw -Ea -Eo. by rw lookup_insert_eq.
  - intros r Hr. destruct (L10 r Hr) as [(en & Hop' & Hst) Hans]. split.
    + exists en. rw lookup_insert_ne //. congruence.
    + intros id' n' p' Hn' Hp' Er. destruct (Hans id' n' p' Hn' Hp' Er) as [A1 A2 A3 A4 A5].
      split; try done. intros Hset t [Ht|[-> ->]]%Htask; [by apply A3|].
      intros Heq. rw Ha in Heq.
      destruct (owner_unique ns next id id' n n' Hc Hn Hn' Heq) as [-> ->].
      congruence.
  - intros t [Ht|[-> _]]%Htask Hk; [by apply L11|].
    exists id, n. split; [done|]. split; [done|]. left. exists p. by rw -Ek.
  - done.
Qed.

(** The ledger after [op] was given up as ambiguous, or answered by a task that ended: [r] is
    published, and the entry closed. *)
Definition closed_with (x : Executor) (en : LedgerEntry) (r : ExecutorResult) : Executor :=
  let op := res_operation r in
  mkExecutor (<[op := entry_completed (effect en) r]> (operations x))
    (delete (op_attempt op) (in_flight_by_attempt x)) (running_by_attempt x)
    (delete (op_attempt op) (queued_by_attempt x)) (resources x) (results x ++ [r]) (tasks x).

Lemma open_entry U ns next x ls op en :
  ledger_ok U ns next x ls → operations x !! op = Some en → l_state en ≠ Completed →
  in_flight_by_attempt x !! op_attempt op = Some op
  ∧ remove_if (in_flight_by_attempt x) op = delete (op_attempt op) (in_flight_by_attempt x)
  ∧ remove_if (queued_by_attempt x) op = delete (op_attempt op) (queued_by_attempt x).
Proof.
  intros Hl Hop Hst. destruct (lo_open _ _ _ _ _ Hl op en Hop Hst) as [Hin _].
  split; [done|]. split; [by unfold remove_if; rw bool_decide_true|].
  unfold remove_if. case_bool_decide as Hq; [done|].
  symmetry. apply delete_id. destruct (queued_by_attempt x !! op_attempt op) as [o|] eqn:E; [|done].
  destruct (lo_queued _ _ _ _ _ Hl _ _ E) as [? _]. congruence.
Qed.

(** No task other than those that are [physically] there after the entry is closed. *)
Lemma closed_with_ok U ns next x ls en r :
  cluster_ok ns next → ledger_ok U ns next x ls →
  operations x !! res_operation r = Some en → l_state en ≠ Completed →
  res_node r = e_node (effect en) →
  (∀ t, t ∈ tasks x → operation t = res_operation r →
     running_by_attempt x !! op_attempt (operation t) = Some (operation t)) →
  (∀ o, res_result r = inl o → outcome_kind o = for_command (command (effect en))) →
  (settled r → ∀ t, t ∈ tasks x → effect_attempt t ≠ op_attempt (res_operation r)) →
  (for_command (command (effect en)) = KCreateLease → ∀ e, res_result r = inr e →
     disposition e = Definite → op_attempt (res_operation r) ∉ ls) →
  (for_command (command (effect en)) = KDestroyLease → ∀ o, res_result r = inl o →
     op_attempt (res_operation r) ∉ ls) →
  ledger_ok U ns next (closed_with x en r) ls.
Proof.
  intros Hc Hl Hop Hst Hnode Hrun Hkind Hquiet Href Hgone.
  destruct (open_entry _ _ _ _ _ _ _ Hl Hop Hst) as (Hin & _).
  set (op := res_operation r) in *. set (a := op_attempt op) in *.
  destruct (lo_in_flight _ _ _ _ _ Hl _ _ Hin)
    as (_ & id & n & p & en' & Hn & Ha & Hp & Hop' & _ & Een & Eop & Ek & _).
  assert (en' = en) as -> by congruence. clear Hop'.
  destruct Hl as [L1 L2 L3 L4 L5 L6 L7 L8 L9 L10 L11 L12].
  destruct (L1 op en Hop) as (_ & Eeff & _).
  split; cbn; fold op; fold a.
  - intros o e. rw lookup_insert_Some. intros [[<- <-]|[_ Ho]]; [|by apply L1]. by apply (L1 op en).
  - intros o e. rw lookup_insert_Some. intros [[<- <-]|[Hd Ho]] Hs; [by destruct Hs|].
    destruct (L2 o e Ho Hs) as [H1 H2].
    assert (op_attempt o ≠ a) by (intros E; unfold a in *; congruence).
    by rw !lookup_delete_ne.
  - intros a' o [Hne Hi]%lookup_delete_Some. destruct (L3 a' o Hi) as (Ea & id' & n' & p' & e & ? & ? & ? & Ho & ? & ?).
    split; [done|]. exists id', n', p', e. do 3 (split; [done|]). split; [|done].
    rw lookup_insert_ne //. intros E. apply Hne. by rw -Ea -E.
  - intros a' o [Hne Hq]%lookup_delete_Some. rw lookup_delete_ne //. by apply L4.
  - intros t Ht. destruct (L5 t Ht) as (Hph & e & Ho & Et & Hs). split.
    + destruct Hph as [|[Hr Hi]]; [by left|]. destruct (decide (operation t = op)) as [Eq|Hne].
      * left. by apply Hrun.
      * right. cbn; fold op; fold a. split; [done|]. rw lookup_delete_ne //. congruence.
    + destruct (decide (operation t = op)) as [Eq|Hne].
      * rw Eq lookup_insert_eq. eexists. split; [done|]. cbn. split; [congruence|done].
      * rw lookup_insert_ne //. eauto.
  - done.
  - done.
  - intros e He. destruct (L8 e He) as [Ho ?]. split; [|done]. rw lookup_insert_ne //. congruence.
  - intros id' n' p' Hn' Hp'. destruct (decide (p_id p' = op)) as [Eq|Hne].
    + right; left. exists r. split; [set_solver|done].
    + destruct (L9 id' n' p' Hn' Hp') as [Hi|[(r' & ? & ?)|]]; [left|right; left|by right; right].
      * rw lookup_delete_ne //. intros E. congruence.
      * exists r'. split; [set_solver|done].
  - intros r'. rw elem_of_app list_elem_of_singleton. intros [Hr| ->].
    + destruct (L10 r' Hr) as [(e & Ho & Hs) Hans]. split.
      * exists e. rw lookup_insert_ne //. congruence.
      * intros id' n' p' Hn' Hp' Er. destruct (Hans id' n' p' Hn' Hp' Er). by split.
    + fold op. rw lookup_insert_eq. split; [by eexists|]. intros id' n' p' Hn' Hp' Er.
      destruct (ok_id n' (co_node _ _ Hc _ _ Hn') p' Hp') as [Ea _]. rw -Er in Ea. fold a in Ea.
      destruct (owner_unique ns next id' id n' n Hc Hn' Hn ltac:(congruence)) as [-> ->].
      assert (p' = p) as -> by congruence.
      split; rw -?Ek; try done; rw -?Ea; try done. congruence.
  - done.
  - done.
Qed.

Lemma expire_ok U ns next x ls op why :
  cluster_ok ns next → ledger_ok U ns next x ls → expirable x op = true →
  ledger_ok U ns next (expire x op why).1 ls.
Proof.
  intros Hc Hl Hexp. unfold expire. destruct (operations x !! op) as [en|] eqn:Hop; [|done].
  case_bool_decide as Hst; [done|].
  destruct (open_entry _ _ _ _ _ _ _ Hl Hop Hst) as (Hin & E1 & E2). cbn. rw E1 E2.
  apply (closed_with_ok U ns next x ls en
    (mkExecutorResult (e_node (effect en)) op (inr (mkEffectError why Ambiguous)))); try done.
  - intros t Ht Et. cbn in Et. unfold expirable in Hexp. rw Hop in Hexp.
    destruct (lo_tasks _ _ _ _ _ Hl t Ht) as (_ & en' & Hop' & _ & Hq). rw Et in Hop'.
    assert (en' = en) as -> by congruence.
    apply orb_true_iff in Hexp as [Hx%bool_decide_eq_true|Hx%bool_decide_eq_true]; [|by rw Et].
    by destruct Hx, (l_state en).
  - by intros _ e [= <-].
Qed.

Lemma expire_expirable x op why o : expirable x o = true → expirable (expire x op why).1 o = true.
Proof.
  unfold expire. destruct (operations x !! op) as [en|] eqn:Hop; [|done].
  case_bool_decide; [done|]. unfold expirable. cbn.
  destruct (decide (o = op)) as [->|]; [by rw lookup_insert_eq|by rw lookup_insert_ne].
Qed.

Definition drop_task (x : Executor) (i : nat) : Executor := set_tasks x (delete i (tasks x)).

Lemma drop_task_ok U ns next x ls i :
  ledger_ok U ns next x ls → ledger_ok U ns next (drop_task x i) ls.
Proof.
  intros [L1 L2 L3 L4 L5 L6 L7 L8 L9 L10 L11 L12].
  assert (Hsub : ∀ t, t ∈ delete i (tasks x) → t ∈ tasks x).
  { intros t Ht. eapply elem_of_sublist; [done|apply sublist_delete]. }
  split; cbn; try done.
  - intros t Ht. by apply L5, Hsub.
  - eapply sublist_NoDup; [apply L6|]. apply fmap_sublist, sublist_delete.
  - intros r Hr. destruct (L10 r Hr) as [? Hans]. split; [done|]. intros id n p Hn Hp Er.
    destruct (Hans id n p Hn Hp Er) as [A1 A2 A3 A4 A5]. split; cbn; auto.
  - intros t Ht. by apply L11, Hsub.
Qed.

(** The task [e] that was dropped was the only one of its attempt. *)
Lemma dropped_alone U ns next x ls i e t :
  ledger_ok U ns next x ls → tasks x !! i = Some e → t ∈ delete i (tasks x) →
  effect_attempt t ≠ effect_attempt e.
Proof.
  intros Hl He Ht Heq. pose proof (lo_single _ _ _ _ _ Hl) as Hnd.
  rw (delete_Permutation _ _ _ He) in Hnd. cbn in Hnd. apply NoDup_cons in Hnd as [Hnot _].
  apply Hnot. rw -Heq. apply list_elem_of_fmap. eauto.
Qed.

Lemma resources_ok U ns next x ls v :
  ledger_ok U ns next x ls → ledger_ok U ns next (set_resources x v) ls.
Proof.
  intros [L1 L2 L3 L4 L5 L6 L7 L8 L9 L10 L11 L12]. split; try done.
  intros r Hr. destruct (L10 r Hr) as [? Hans]. split; [done|]. intros id n p Hn Hp Er.
  by destruct (Hans id n p Hn Hp Er).
Qed.

(** The attempt's slot is free again, and what was queued behind it runs. *)
Definition release (x : Executor) (a : NodeAttemptId) : Executor :=
  match queued_by_attempt x !! a with
  | Some o =>
      match operations x !! o with
      | Some en =>
          mkExecutor (<[o := entry_running (effect en)]> (operations x)) (in_flight_by_attempt x)
            (delete a (running_by_attempt x)) (delete a (queued_by_attempt x)) (resources x)
            (results x) (tasks x ++ [effect en])
      | None => x
      end
  | None => set_running x (delete a (running_by_attempt x))
  end.

Lemma release_idle_ok U ns next x ls a :
  ledger_ok U ns next x ls → queued_by_attempt x !! a = None →
  (∀ t, t ∈ tasks x → effect_attempt t ≠ a) →
  ledger_ok U ns next (set_running x (delete a (running_by_attempt x))) ls.
Proof.
  intros [L1 L2 L3 L4 L5 L6 L7 L8 L9 L10 L11 L12] Hq Ht. split; cbn; try done.
  - intros a' o Hq'. destruct (L4 a' o Hq') as [? ?]. rw lookup_delete_ne //. congruence.
  - intros t Hin. destruct (L5 t Hin) as [Hph ?]. split; [|done]. unfold physically in *; cbn.
    rw lookup_delete_ne //. intros E. by destruct (Ht t Hin).
  - intros r Hr. destruct (L10 r Hr) as [? Hans]. split; [done|]. intros id n p Hn Hp Er.
    by destruct (Hans id n p Hn Hp Er).
Qed.

Lemma release_ok U ns next x ls a :
  cluster_ok ns next → ledger_ok U ns next x ls →
  (∀ t, t ∈ tasks x → effect_attempt t ≠ a) → ledger_ok U ns next (release x a) ls.
Proof.
  intros Hc Hl Ht. unfold release. destruct (queued_by_attempt x !! a) as [o|] eqn:Hq;
    [|by apply release_idle_ok].
  destruct (lo_queued _ _ _ _ _ Hl a o Hq) as [Hin Hrun].
  destruct (lo_in_flight _ _ _ _ _ Hl a o Hin)
    as (Ea & id & n & p & en & Hn & Ha & Hp & Hop & Hst & Hask). rw Hop.
  destruct Hl as [L1 L2 L3 L4 L5 L6 L7 L8 L9 L10 L11 L12].
  destruct (L1 o en Hop) as (_ & Eeff & _). destruct (L2 o en Hop Hst) as [_ Hqst].
  rw Ea in Hqst. apply Hqst in Hq as Hqd.
  assert (Hother : ∀ t, t ∈ tasks x → operation t ≠ o).
  { intros t Hin' E. apply (Ht t Hin'). unfold effect_attempt. by rw E. }
  split; cbn.
  - intros o' e. rw lookup_insert_Some. intros [[<- <-]|[_ Ho]]; [|by apply L1]. by apply (L1 o en).
  - intros o' e. rw lookup_insert_Some. intros [[<- <-]|[Hd Ho]] Hs.
    + rw Ea. split; [done|]. cbn. by rw lookup_delete_eq.
    + destruct (L2 o' e Ho Hs) as [H1 H2]. split; [done|].
      rw lookup_delete_ne //. intros E. congruence.
  - intros a' o' Hi. destruct (L3 a' o' Hi) as (Ea' & id' & n' & p' & e & Hn' & Ha' & Hp' & Ho & Hs & Hask').
    split; [done|]. exists id', n', p'. destruct (decide (o' = o)) as [->|Hne].
    + rw lookup_insert_eq. eexists. do 3 (split; [done|]). split; [done|]. split; [done|].
      by assert (e = en) as <- by congruence.
    + rw lookup_insert_ne //. by exists e.
  - intros a' o' [Hne Hq']%lookup_delete_Some. rw lookup_delete_ne //. by apply L4.
  - intros t. rw elem_of_app list_elem_of_singleton. intros [Hin'| ->].
    + destruct (L5 t Hin') as (Hph & e & Ho & Et & Hs). split.
      * unfold physically in *; cbn. rw lookup_delete_ne //. intros E. by destruct (Ht t Hin').
      * exists e. rw lookup_insert_ne //. intros E. by destruct (Hother t Hin').
    + rw Eeff lookup_insert_eq. split; [|by eexists]. right. cbn. by rw Ea lookup_delete_eq.
  - rw fmap_app. apply NoDup_app. split; [done|]. split; [|apply NoDup_singleton].
    intros b (t & -> & Hin')%list_elem_of_fmap. cbn. rw list_elem_of_singleton.
    unfold effect_attempt at 2. rw Eeff Ea. by apply Ht.
  - done.
  - intros e He. destruct (L8 e He) as [Ho ?]. split; [|done]. rw lookup_insert_ne //. congruence.
  - done.
  - intros r Hr. destruct (L10 r Hr) as [(e & Ho & Hs) Hans]. split.
    + exists e. rw lookup_insert_ne //. intros E. congruence.
    + intros id' n' p' Hn' Hp' Er. destruct (Hans id' n' p' Hn' Hp' Er) as [A1 A2 A3 A4 A5].
      split; try done. cbn. intros Hset t. rw elem_of_app list_elem_of_singleton.
      intros [Hin'| ->]; [by apply A3|]. unfold effect_attempt. rw Eeff Ea -Ha. intros E.
      destruct (owner_unique ns next id id' n n' Hc Hn Hn' E) as [-> ->].
      destruct Hask as (_ & Eo & _). congruence.
  - intros t. rw elem_of_app list_elem_of_singleton. intros [Hin'| ->] Hk; [by apply L11|].
    destruct Hask as (_ & _ & Ek & Ea'). exists id, n. split; [done|]. split; [done|].
    left. exists p. by rw -Ek.
  - done.
Qed.

(** ** The end of a task *)

(** [finish], with a spawner that accepts: publish if the entry is still running, then release. *)
Lemma finish_eq spawn U ns next x ls i e ans :
  (∀ ts e, spawn ts e = inl tt) → ledger_ok U ns next x ls → tasks x !! i = Some e →
  ∃ x1, finish spawn x i ans = release x1 (effect_attempt e)
    ∧ (x1 = drop_task x i
       ∨ ∃ en v, operations x !! operation e = Some en ∧ l_state en = Running ∧ effect en = e
         ∧ x1 = set_resources (closed_with (drop_task x i) en
                  (mkExecutorResult (e_node e) (operation e) (checked_answer e ans))) v).
Proof.
  intros Hspawn Hl He. pose proof (list_elem_of_lookup_2 _ _ _ He) as Hin.
  destruct (lo_tasks _ _ _ _ _ Hl e Hin) as (Hph & en & Hop & Een & Hnq).
  assert (Hrun : remove_if (running_by_attempt x) (operation e)
      = delete (effect_attempt e) (running_by_attempt x)).
  { unfold remove_if, effect_attempt. case_bool_decide; [done|].
    rw delete_id //. by destruct Hph as [|[? _]]. }
  unfold finish. rw He. cbv zeta. unfold is_current. cbn [operations set_tasks]. rw Hop.
  case_bool_decide as Hst; cbn [andb].
  - rw bool_decide_true //. destruct (lo_open _ _ _ _ _ Hl _ _ Hop) as [_ Hqd]; [by rw Hst|].
    destruct (open_entry _ _ _ _ _ _ _ Hl Hop) as (Hinf & E1 & E2); [by rw Hst|].
    assert (Hq : queued_by_attempt x !! effect_attempt e = None).
    { destruct (queued_by_attempt x !! effect_attempt e) as [o|] eqn:Hq; [|done].
      destruct (lo_queued _ _ _ _ _ Hl _ _ Hq) as [Hi _]. unfold effect_attempt in *.
      assert (o = operation e) as -> by congruence. apply Hqd in Hq. congruence. }
    set r := mkExecutorResult (e_node e) (operation e) (checked_answer e ans).
    exists (set_resources (closed_with (drop_task x i) en r)
      (match checked_answer e ans with
       | inl o => resources (update_resources x (effect_attempt e) o)
       | inr _ => resources x end)).
    split; last by right; exists en; eexists.
    unfold release, closed_with. cbn. rw lookup_delete_eq Een -E2 -E1 -Hrun.
    assert (Hq' : remove_if (queued_by_attempt x) (operation e) = queued_by_attempt x)
      by (rw E2 delete_id //).
    rw Hq'. destruct (checked_answer e ans) as [o|er]; unfold promote_queued; cbn;
      fold (effect_attempt e); rw Hq; done.
  - exists (drop_task x i). split; [|by left].
    unfold release, promote_queued. cbn. rw Hrun. fold (effect_attempt e).
    destruct (queued_by_attempt x !! effect_attempt e) as [o|] eqn:Hq; [|done].
    destruct (lo_queued _ _ _ _ _ Hl _ _ Hq) as [Hi _].
    destruct (lo_in_flight _ _ _ _ _ Hl _ _ Hi) as (Ea & _ & _ & _ & en' & _ & _ & _ & Hop' & Hs' & _).
    destruct (lo_open _ _ _ _ _ Hl _ _ Hop' Hs') as [_ Hqd]. rw Ea in Hqd.
    rw Hop' bool_decide_true; [by apply Hqd|]. cbn. unfold spawn_effect. by rw Hspawn.
Qed.

Lemma checked_kind e ans o :
  checked_answer e ans = inl o → outcome_kind o = for_command (command e).
Proof.
  unfold checked_answer. destruct ans as [|[o'|]]; [done| |done].
  case_bool_decide; [|done]. by intros [= <-].
Qed.

Lemma finish_ok spawn U ns next x ls i ans :
  (∀ ts e, spawn ts e = inl tt) → cluster_ok ns next → ledger_ok U ns next x ls →
  (∀ e, tasks x !! i = Some e → backend_honest ls e ans = true) →
  ledger_ok U ns next (finish spawn x i ans) ls.
Proof.
  intros Hspawn Hc Hl Hh. destruct (tasks x !! i) as [e|] eqn:He; last by unfold finish; rw He.
  specialize (Hh e eq_refl). unfold backend_honest in Hh.
  destruct (finish_eq spawn _ _ _ _ _ _ _ ans Hspawn Hl He) as (x1 & -> & Hx1).
  pose proof (λ t, dropped_alone _ _ _ _ _ _ _ t Hl He) as Halone.
  destruct Hx1 as [->|(en & v & Hop & Hst & Een & ->)].
  { apply release_ok; [done|by apply drop_task_ok|]. intros t. apply Halone. }
  apply release_ok; [done| |intros t; apply Halone].
  apply resources_ok, closed_with_ok; cbn; try done.
  - by apply drop_task_ok.
  - by rw Hst.
  - by rw Een.
  - intros t Ht Et. destruct (Halone t Ht). unfold effect_attempt. by rw Et.
  - rw Een. apply checked_kind.
  - rw Een. intros Hk er Ec Hd. destruct (command e); try done. rw Ec in Hh.
    rw bool_decide_true // in Hh. by apply negb_true_iff, bool_decide_eq_false in Hh.
  - rw Een. intros Hk o Ec. destruct (command e); try done. rw Ec in Hh.
    by apply negb_true_iff, bool_decide_eq_false in Hh.
Qed.

Lemma touch_ok U ns next x ls i e :
  ledger_ok U ns next x ls → tasks x !! i = Some e → ledger_ok U ns next x (touch e ls).
Proof.
  intros Hl He. pose proof (list_elem_of_lookup_2 _ _ _ He) as Hin.
  destruct Hl as [L1 L2 L3 L4 L5 L6 L7 L8 L9 L10 L11 L12].
  assert (Hkeep : ∀ a, a ∈ touch e ls → a ∈ ls ∨ a = effect_attempt e).
  { intros a. unfold touch. case_match; set_solver. }
  split; try done.
  - intros r Hr. destruct (L10 r Hr) as [? Hans]. split; [done|]. intros id n p Hn Hp Er.
    destruct (Hans id n p Hn Hp Er) as [A1 A2 A3 A4 A5]. split; try done.
    + intros Hk er Ec Hd [|Ea]%Hkeep; [by eapply A4|]. apply (A3 ltac:(by unfold settled; rw Ec) e Hin).
      done.
    + intros Hk o Ec [|Ea]%Hkeep; [by eapply A5|]. apply (A3 ltac:(by unfold settled; rw Ec) e Hin).
      done.
  - intros a Ha. unfold touch in Ha. destruct (command e) eqn:Hcmd; try by apply L12.
    + apply elem_of_union in Ha as [|Ha%elem_of_singleton]; [by apply L12|]. subst a.
      destruct (L11 e Hin) as (id & n & ? & ? & ?); [by rw Hcmd|].
      exists id, n. split; [done|]. split; [done|]. by right.
    + apply L12. set_solver.
Qed.

(** ** The delivery of a result *)

(** The observation a result stands for, as [apply_executor_result] makes it. *)
Definition observation_of (r : ExecutorResult) : NodeObservation :=
  match res_result r with
  | inl outcome => ObsOperationSucceeded (res_operation r) outcome
  | inr error => ObsOperationFailed (res_operation r) error
  end.

Lemma matches_pending n r :
  observation_matches n (observation_of r) = true →
  ∃ p, pending n = Some p ∧ p_id p = res_operation r.
Proof.
  unfold observation_of. destruct (res_result r); cbn; destruct (pending n) as [p|]; try done.
  - intros [?%bool_decide_eq_true _]%andb_prop. eauto.
  - intros ?%bool_decide_eq_true. eauto.
Qed.

Lemma answers_matches x ls id n p r :
  answers x ls id n p r → pending n = Some p → p_id p = res_operation r →
  observation_matches n (observation_of r) = true.
Proof.
  intros Ha Hp Eid. unfold observation_of. destruct (res_result r) as [o|] eqn:Er; cbn; rw Hp.
  - rw !bool_decide_true //. symmetry. by eapply an_kind.
  - by rw bool_decide_true.
Qed.

Lemma answered_node x ls id n p r now pol :
  node_ok n → pending n = Some p → p_id p = res_operation r → answers x ls id n p r →
  let n' := observe n (observation_of r) now pol in
  node_ok n' ∧ pending n' = None
  ∧ (claimed n → settled r ∨ claimed n') ∧ (covered n → attempt n ∉ ls ∨ covered n').
Proof.
  intros Hok Hp Eid [A1 A2 A3 A4 A5]. unfold observation_of, settled. rw -Eid.
  destruct (res_result r) as [o|er] eqn:Er.
  - destruct (observe_success n p o now pol Hok Hp) as (H1 & H2 & H3 & H4); [by rw (A2 o)|].
    split; [done|]. split; [done|]. split; [by left|]. intros _.
    destruct (lease (record (observe n (ObsOperationSucceeded (p_id p) o) now pol))) as [l|] eqn:El.
    + right. left. by rw El.
    + left. rw (H4 eq_refl) in A2 A5. eapply A5; [|done]. by rw -(A2 _ eq_refl).
  - destruct (observe_failure n p er now pol Hok Hp) as (H1 & H2 & H3 & H4).
    split; [done|]. split; [done|].
    assert (Hamb : lease (record n) = None → disposition er = Definite ∧ p_kind p = KCreateLease
        ∨ claimed (observe n (ObsOperationFailed (p_id p) er) now pol)).
    { intros Hl%(ok_pending n Hok p Hp). destruct (disposition er) eqn:Ed; [by left|].
      right. by apply H4. }
    split.
    + intros Hcl. assert (Hl : lease (record n) = None).
      { destruct Hcl as [(p' & Hp' & Hk)|Ha]; [|by apply (ok_ambiguous n Hok)].
        by apply (ok_pending n Hok p'). }
      destruct (Hamb Hl) as [[? _]|]; by [left|right].
    + intros _. destruct (lease (record n)) as [l|] eqn:El; [right; left; by rw H3|].
      destruct (Hamb eq_refl) as [[Hd Hk]|]; [left; by eapply A4|by right; right].
Qed.

Lemma cluster_insert ns next id n n' :
  cluster_ok ns next → ns !! id = Some n → attempt n' = attempt n → node_ok n' →
  cluster_ok (<[id := n']> ns) next.
Proof.
  intros [C1 C2 C3] Hn Ha Hok. split.
  - intros id' m [[<- <-]|[_ ?]]%lookup_insert_Some; [done|by eapply C1].
  - intros id' m [[<- <-]|[_ ?]]%lookup_insert_Some; [rw Ha|]; by eapply C2.
  - intros i j m m' [[<- <-]|[? Hi]]%lookup_insert_Some [[<- <-]|[? Hj]]%lookup_insert_Some E; try done.
    + rw Ha in E. by eapply C3.
    + rw Ha in E. by eapply C3.
    + by eapply C3.
Qed.

(** A result nobody waits for. *)
Lemma stale_ok ns next x ls r rest :
  ledger_ok [] ns next x ls → results x = r :: rest →
  (∀ id n p, ns !! id = Some n → pending n = Some p → p_id p ≠ res_operation r) →
  ledger_ok [] ns next (set_results x rest) ls.
Proof.
  intros [L1 L2 L3 L4 L5 L6 L7 L8 L9 L10 L11 L12] Hres Hno. split; cbn; try done.
  - intros id n p Hn Hp. destruct (L9 id n p Hn Hp) as [|[(r' & Hr & Er)|]]; auto.
    right; left. rw Hres in Hr. apply elem_of_cons in Hr as [->|Hr]; [|eauto].
    by destruct (Hno id n p Hn Hp).
  - intros r' Hr. destruct (L10 r') as [? Hans]; [rw Hres; set_solver|]. split; [done|].
    intros id n p Hn Hp Er. by destruct (Hans id n p Hn Hp Er).
Qed.

Lemma deliver_ok ns next x ls r rest n p now pol :
  cluster_ok ns next → ledger_ok [] ns next x ls → results x = r :: rest →
  ns !! res_node r = Some n → pending n = Some p → p_id p = res_operation r →
  let n' := observe n (observation_of r) now pol in
  ledger_ok [] (<[res_node r := n']> ns) next (set_results x rest) ls
  ∧ cluster_ok (<[res_node r := n']> ns) next.
Proof.
  intros Hc Hl Hres Hn Hp Eid n'.
  assert (Hin : r ∈ results x) by (rw Hres; set_solver).
  destruct (lo_results _ _ _ _ _ Hl r Hin) as [(en & Hop & Hst) Hans].
  specialize (Hans _ n p Hn Hp (eq_sym Eid)).
  destruct (answered_node x ls _ n p r now pol (co_node _ _ Hc _ _ Hn) Hp Eid Hans)
    as (Hok' & Hp' & Hcl & Hcov). fold n' in Hok', Hp', Hcl, Hcov.
  destruct (observe_frame n (observation_of r) now pol) as [Ha Hs]. fold n' in Ha, Hs.
  split; last by eapply cluster_insert.
  destruct Hl as [L1 L2 L3 L4 L5 L6 L7 L8 L9 L10 L11 L12].
  assert (Hmine : ∀ id m q, ns !! id = Some m → pending m = Some q → p_id q = res_operation r → id = res_node r).
  { intros id m q Hm Hq E. eapply (co_distinct _ _ Hc); [done..|].
    destruct (ok_id m (co_node _ _ Hc _ _ Hm) q Hq), (ok_id n (co_node _ _ Hc _ _ Hn) p Hp). congruence. }
  (* an operation or lease of another node *)
  assert (Helse : ∀ (P : ManagedNode → Prop) a, (∃ id m, ns !! id = Some m ∧ attempt m = a ∧ P m) →
      (a = attempt n → P n → P n') → ∃ id m, <[res_node r := n']> ns !! id = Some m ∧ attempt m = a ∧ P m).
  { intros P a (id & m & Hm & Ea & HP) Hmy. exists id. destruct (decide (id = res_node r)) as [->|Hne].
    - assert (m = n) as -> by congruence. exists n'. rw lookup_insert_eq. split; [done|].
      split; [congruence|]. by apply Hmy.
    - exists m. by rw lookup_insert_ne. }
  split; cbn; try done.
  - intros op e Ho. destruct (L1 op e Ho) as (? & ? & Hseq). split; [done|]. split; [done|].
    intros id m [[<- <-]|[_ Hm]]%lookup_insert_Some; [rw Ha Hs|]; by eapply Hseq.
  - intros a op Hi. destruct (L3 a op Hi) as (? & id & m & q & e & Hm & Ea & Hq & Ho & Hst' & Hask).
    split; [done|]. exists id, m, q, e. split; [|done]. rw lookup_insert_ne //. intros <-.
    assert (m = n) as -> by congruence. destruct Hask as (_ & Eo & _). destruct (L1 op e Ho) as (_ & E & _).
    congruence.
  - by intros e ?%elem_of_nil.
  - intros id m q [[<- <-]|[Hne Hm]]%lookup_insert_Some Hq; [congruence|].
    destruct (L9 id m q Hm Hq) as [|[(r' & Hr & Er)|]]; auto. right; left.
    rw Hres in Hr. apply elem_of_cons in Hr as [->|Hr]; [|eauto]. by destruct Hne; symmetry; eapply Hmine.
  - intros r' Hr. destruct (L10 r') as [? Hans']; [rw Hres; set_solver|]. split; [done|].
    intros id m q [[<- <-]|[_ Hm]]%lookup_insert_Some Hq Er; [congruence|].
    by destruct (Hans' id m q Hm Hq Er).
  - intros e He Hk. apply Helse; [by apply L11|]. intros Ea Hc'.
    destruct (Hcl Hc') as [Hset|]; [|done]. by destruct (an_quiet _ _ _ _ _ _ Hans Hset e He).
  - intros a Hls. apply Helse; [by apply L12|]. intros -> Hc'. by destruct (Hcov Hc').
Qed.
