(* ===== verification/ProvisionSafety.v ===== *)
(** * No lease is lost

    The invariant of the reconciler at work, and what follows from it: a lease the provider holds
    always belongs to a node that still knows of it, every attempt has at most one operation at
    the backend, and no operation the driver waits for is ever forgotten by the executor.  The
    last section has the two ways the guarantee is lost. *)

From S2P Require Import Prelude NodeModel Reconciler ReconcilerPass ReconcilerLive EffectExecutor ProvisionWorld ProvisionNode ProvisionLedger.
#[local] Open Scope N_scope.

Record world_ok (w : World) : Prop := mkWorldOk {
  wo_shaped : shaped (driver w);
  wo_idle : processing (driver w) = false ∧ dirty (driver w) = false;
  wo_cluster : cluster_ok (nodes (state (driver w))) (next_attempt_id (state (driver w)));
  wo_ledger : ledger_ok [] (nodes (state (driver w))) (next_attempt_id (state (driver w)))
    (executor w) (leases w);
}.

Lemma trigger_fields d :
  nodes (state (trigger d)) = nodes (state d)
  ∧ next_attempt_id (state (trigger d)) = next_attempt_id (state d)
  ∧ d_desired (trigger d) = d_desired d ∧ expanded_desired (trigger d) = expanded_desired d
  ∧ policy (trigger d) = policy d ∧ processing (trigger d) = processing d
  ∧ (processing d = false → dirty (trigger d) = dirty d).
Proof. unfold trigger. by case_match. Qed.

(** [trigger] and the executor-side fields leave the invariant alone. *)
Lemma world_ok_triggered d x ls :
  world_ok (mkWorld d x ls) → world_ok (mkWorld (trigger d) x ls).
Proof.
  intros [H1 [H2 H2'] H3 H4]. cbn in *.
  destruct (trigger_fields d) as (E1 & E2 & E3 & E4 & _ & E6 & E7).
  split; cbn; rw ?E1 ?E2 //.
  - unfold shaped. by rw E3 E4.
  - rw E6 E7 //.
Qed.

(** ** The pass *)

Lemma pass_node_attempt pol now att id o w n' :
  after (pass_node pol now att id o w) = Some n' →
  (∃ n, o = Some n ∧ attempt n' = attempt n) ∨ allocates now o w = true ∧ attempt n' = att.
Proof.
  unfold pass_node, allocates. destruct o as [n|].
  - destruct (dec_action _) as [[| | | |c]|]; cbn; intros [= <-]; eauto.
    + left. exists n. split; [done|]. apply begin_delete_fields.
    + left. exists n. split; [done|]. apply dispatched_fields.
  - destruct w; cbn; intros [= <-]. auto.
Qed.

Lemma pass_cluster now alloc d d' effs :
  cluster_ok (nodes (state d)) (next_attempt_id (state d)) → Pass now alloc d d' effs →
  cluster_ok (nodes (state d')) (next_attempt_id (state d'))
  ∧ ∀ id, evolves (next_attempt_id (state d)) (emitted (node_step now alloc d id)) id
      (nodes (state d) !! id) (nodes (state d') !! id).
Proof.
  intros [C1 C2 C3] [P1 _ _ _ _ P6 P7 P8 _].
  assert (Hstep : ∀ id, evolves (next_attempt_id (state d)) (emitted (node_step now alloc d id)) id
      (nodes (state d) !! id) (nodes (state d') !! id)
    ∧ ∀ n', nodes (state d') !! id = Some n' → node_ok n').
  { intros id. rw P1. apply pass_node_evolves; [intros n; apply C1|]. intros Ht. by apply P7. }
  assert (Hatt : ∀ id n', nodes (state d') !! id = Some n' →
      (∃ n, nodes (state d) !! id = Some n ∧ attempt n' = attempt n)
      ∨ takes_attempt now d id = true ∧ attempt n' = alloc id).
  { intros id n'. rw P1. apply pass_node_attempt. }
  split; [|intros id; apply Hstep]. split.
  - intros id n' Hn'. by eapply Hstep.
  - intros id n' Hn'. destruct (Hatt id n' Hn') as [(n & Hn & ->)|[Ht ->]].
    + specialize (C2 id n Hn). lia.
    + by apply P7.
  - intros i j n n' Hi Hj Ha.
    destruct (Hatt i n Hi) as [(m & Hm & E)|[Ht E]], (Hatt j n' Hj) as [(m' & Hm' & E')|[Ht' E']].
    + apply (C3 i j m m'); congruence.
    + specialize (C2 i m Hm). specialize (P7 j Ht'). lia.
    + specialize (C2 j m' Hm'). specialize (P7 i Ht). lia.
    + apply P8; congruence.
Qed.

Lemma submit_all_ok spawn d ls now : (∀ ts e, spawn ts e = inl tt) →
  cluster_ok (nodes (state d)) (next_attempt_id (state d)) → ∀ effs x,
  ledger_ok effs (nodes (state d)) (next_attempt_id (state d)) x ls →
  ∃ x' k, submit_all (submit spawn) d x effs now = (d, x', k)
    ∧ ledger_ok [] (nodes (state d)) (next_attempt_id (state d)) x' ls.
Proof.
  intros Hspawn Hc. elim => [|e effs IH] x Hl; first by eexists _, _.
  destruct (submit_accepts spawn e effs _ _ x ls Hspawn Hc Hl) as (q & Hsub & Hq).
  destruct (IH (accepted q x e)) as (x' & k & Hall & Hl'); first by eapply accepted_ok.
  cbn [submit_all]. rw Hsub Hall. by eexists _, _.
Qed.

Lemma drive_ok spawn w now : (∀ ts e, spawn ts e = inl tt) → world_ok w →
  pass_succeeds spawn w (WDrive now) = true → world_ok (world_step spawn w (WDrive now)).
Proof.
  intros Hspawn [H1 [H2 H2'] H3 H4]. destruct w as [d x ls]. cbn in *. unfold drive_next. rw H2.
  destruct (queued d) eqn:Hqd; cbn [negb]; last done.
  set d1 := set_processing (set_queued d false) true.
  destruct (run_pass d1 now) as [d2 [effs|]] eqn:Hrun; [|done].
  destruct (run_pass_spec d1 now d2 effs H1 Hrun) as [alloc HP].
  destruct (pass_cluster now alloc d1 d2 effs H3 HP) as [Hc' Hev].
  destruct (HP) as [P1 P2 P3 _ _ P6 _ _ (P9 & P10 & _)].
  pose proof (ledger_evolve _ _ _ _ x ls _ effs H3 Hc' P6 Hev P2 P3 H4) as Hl.
  destruct (submit_all_ok spawn d2 ls now Hspawn Hc' effs x Hl) as (x' & k & -> & Hl'). intros _.
  assert (He : ∀ d, nodes (state (end_pass d)) = nodes (state d)
    ∧ next_attempt_id (state (end_pass d)) = next_attempt_id (state d)
    ∧ d_desired (end_pass d) = d_desired d ∧ expanded_desired (end_pass d) = expanded_desired d
    ∧ processing (end_pass d) = false ∧ dirty (end_pass d) = false).
  { intros d'. unfold end_pass. cbn. by destruct (dirty d') eqn:?. }
  destruct (He d2) as (E1 & E2 & E3 & E4 & E5 & E6).
  split; cbn; rw ?E1 ?E2 //. unfold shaped. by rw E3 E4 P9 P10.
Qed.

(** ** The other steps *)

Lemma session_ok d x ls node att obs now :
  session_event obs = true → world_ok (mkWorld d x ls) →
  world_ok (mkWorld (apply_observation d node att obs now).1 x ls).
Proof.
  intros Hs Hw. unfold apply_observation.
  destruct (nodes (state d) !! node) as [n|] eqn:Hn; [|done].
  destruct (negb _ || negb _) eqn:Hg; [done|].
  apply orb_false_iff in Hg as [_ Hm%negb_false_iff].
  destruct Hw as [H1 H2 H3 H4]. cbn in *.
  destruct (observe_session n obs now (policy d) Hs Hm (co_node _ _ H3 _ _ Hn)) as [Hsame Hok].
  apply world_ok_triggered. split; cbn; try done.
  - eapply cluster_insert; [done|done|apply Hsame|done].
  - eapply (ledger_evolve _ _ _ _ _ _ (λ _, None)); [done| |done| | | |done].
    + eapply cluster_insert; [done|done|apply Hsame|done].
    + intros id. destruct (decide (id = node)) as [->|Hne].
      * rw lookup_insert_eq Hn. by apply evolves_same.
      * rw lookup_insert_ne //. destruct (nodes (state d) !! id) as [m|]; [by apply evolves_same|].
        by apply evolves_drop.
    + intros e. split; [by intros ?%elem_of_nil|by intros [? [=]]].
    + constructor.
Qed.

Lemma deliver_step_ok d x ls r rest now :
  results x = r :: rest → world_ok (mkWorld d x ls) →
  world_ok (mkWorld (apply_executor_result d r now).1 (set_results x rest) ls).
Proof.
  intros Hres Hw. destruct (Hw) as [H1 H2 H3 H4]. cbn in *.
  unfold apply_executor_result. fold (observation_of r).
  assert (Hstale : (∀ id n p, nodes (state d) !! id = Some n → pending n = Some p →
      p_id p ≠ res_operation r) → world_ok (mkWorld d (set_results x rest) ls)).
  { intros Hno. split; cbn; try done. by eapply stale_ok. }
  assert (Hsel : ∀ id n p, nodes (state d) !! id = Some n → pending n = Some p →
      p_id p = res_operation r → id = res_node r ∧ attempt n = op_attempt (res_operation r)
        ∧ observation_matches n (observation_of r) = true).
  { intros id n p Hn Hp Eid.
    destruct (lo_results _ _ _ _ _ H4 r) as [_ Hans]; [rw Hres; set_solver|].
    specialize (Hans id n p Hn Hp (eq_sym Eid)).
    destruct (ok_id n (co_node _ _ H3 _ _ Hn) p Hp) as [Ea _].
    split; [by rw (an_node _ _ _ _ _ _ Hans)|]. split; [congruence|]. by eapply answers_matches. }
  unfold apply_observation. destruct (nodes (state d) !! res_node r) as [n|] eqn:Hn.
  2: { apply Hstale. intros id m q Hm Hq E. destruct (Hsel id m q Hm Hq E) as [-> _]. congruence. }
  destruct (negb _ || negb _) eqn:Hg.
  { apply Hstale. intros id m q Hm Hq E. destruct (Hsel id m q Hm Hq E) as (-> & Ea & Hm').
    assert (m = n) as -> by congruence. by rw bool_decide_true // Hm' in Hg. }
  apply orb_false_iff in Hg as [_ Hm%negb_false_iff].
  destruct (matches_pending n r Hm) as (p & Hp & Eid).
  destruct (deliver_ok _ _ x ls r rest n p now (policy d) H3 H4 Hres Hn Hp Eid) as [Hl Hc].
  by apply world_ok_triggered.
Qed.

Lemma due_pending d now op :
  op ∈ pending_operations_due d now →
  ∃ n p, nodes (state d) !! po_node op = Some n ∧ pending n = Some p ∧ p_id p = po_operation op.
Proof.
  intros (id & _ & Hop)%list_elem_of_omap. destruct (nodes (state d) !! id) as [n|] eqn:Hn; [|done].
  cbn in Hop. destruct (pending n) as [p|] eqn:Hp; [|done]. cbn in Hop. case_match; [|done].
  simplify_eq. by exists n, p.
Qed.

Lemma pending_known U ns next x ls id n p :
  ledger_ok U ns next x ls → U = [] → cluster_ok ns next → ns !! id = Some n → pending n = Some p →
  is_Some (operations x !! p_id p).
Proof.
  intros Hl -> Hc Hn Hp. destruct (lo_pending _ _ _ _ _ Hl id n p Hn Hp) as [Hi|[(r & Hr & <-)|(e & ?%elem_of_nil & _)]].
  - by destruct (lo_in_flight _ _ _ _ _ Hl _ _ Hi) as (_ & ? & ? & ? & en & _ & _ & _ & -> & _).
  - by destruct (lo_results _ _ _ _ _ Hl r Hr) as [(en & -> & _) _].
  - done.
Qed.

Lemma classify_ok d x ls now :
  world_ok (mkWorld d x ls) →
  forallb (λ o, expirable x (po_operation o)) (pending_operations_due d now) = true →
  ∃ x', classify d x now = (d, x') ∧ world_ok (mkWorld d x' ls).
Proof.
  unfold classify. pose proof (due_pending d now) as Hdue. revert Hdue.
  generalize (pending_operations_due d now) => ops. elim: ops x => [|op ops IH] x Hdue Hw Hexp.
  { by exists x. }
  cbn in Hexp. apply andb_prop in Hexp as [He Hexp].
  destruct (Hw) as [H1 H2 H3 H4]. cbn in *.
  destruct (Hdue op) as (n & p & Hn & Hp & Eop); [set_solver|].
  destruct (pending_known _ _ _ _ _ _ _ _ H4 eq_refl H3 Hn Hp) as [en Hen]. rw Eop in Hen.
  unfold operation_status. rw Hen. case_bool_decide as Hst.
  - apply IH; [|done|done]. set_solver.
  - apply IH; first set_solver.
    + split; try done. by apply expire_ok.
    + apply forallb_forall. intros o Ho. apply expire_expirable.
      by eapply (proj1 (forallb_forall _ _) Hexp).
Qed.

Lemma step_ok spawn w op : (∀ ts e, spawn ts e = inl tt) → world_ok w →
  honest w op = true → spares_promoted w op = true → pass_succeeds spawn w op = true →
  world_ok (world_step spawn w op).
Proof.
  intros Hspawn Hw Hh Hp Hs. destruct op as [shape|node att obs now|now|now|now|now|i|i ans].
  - destruct w as [d x ls]. cbn. unfold update_desired.
    case_match; [done|]. case_match; [done|]. case_match eqn:He; [|done]. case_match; [done|].
    destruct Hw as [W1 W2 W3 W4]. by apply world_ok_triggered.
  - destruct w as [d x ls]. cbn. case_match eqn:Hev; [|done]. by apply session_ok.
  - destruct w as [d x ls]. cbn. case_match eqn:Hres; [done|]. by apply deliver_step_ok.
  - destruct w as [d x ls]. cbn in *. by destruct (classify_ok d x ls now Hw Hp) as (x' & -> & ?).
  - destruct w as [d x ls]. cbn. unfold trigger_if_due. case_match; [|done]. case_match; [|done].
    apply world_ok_triggered. by destruct Hw.
  - by apply drive_ok.
  - destruct w as [d x ls]. cbn. case_match eqn:Ht; [|done]. destruct Hw as [H1 H2 H3 H4].
    split; try done. by eapply touch_ok.
  - destruct w as [d x ls]. cbn in *. destruct Hw as [H1 H2 H3 H4]. split; try done. cbn.
    apply finish_ok; try done. intros e He. by rw He in Hh.
Qed.

Lemma run_ok spawn ops : (∀ ts e, spawn ts e = inl tt) → ∀ w, world_ok w →
  throughout spawn honest w ops = true → throughout spawn spares_promoted w ops = true →
  throughout spawn (pass_succeeds spawn) w ops = true → world_ok (world_run spawn w ops).
Proof.
  intros Hspawn. elim: ops => [//|op ops IH] w Hw /= /andb_prop [? ?] /andb_prop [? ?] /andb_prop [? ?].
  apply IH; [|done..]. by apply step_ok.
Qed.

Lemma new_ok shape pol d : driver_new shape pol = inl d → world_ok (world_new d).
Proof.
  unfold driver_new. case_match eqn:He; [|done]. intros [= <-].
  split; [done|done|..]; cbn.
  - split; intros *; by rw lookup_empty.
  - split; cbn; try (intros *; by rw lookup_empty); try by [constructor|intros * ?%elem_of_nil].
    set_solver.
Qed.

(** ** The guarantees *)

Section Guarantees.
Context (spawn_blocking : list PlannedEffect → PlannedEffect → Result unit string).
Context (shape : ClusterShape) (pol : RetryPolicy) (d : ClusterDriver) (ops : list WorldOp).

(** C5. No lease is lost, in every run in which the spawner accepts work, the backend is
    honest (a definite failure to create leaves no lease, and a destroyed lease is
    gone), no pass of the driver fails, and no operation that was queued behind another
    and then promoted is timed out while it runs. Whatever the shape changes, failures,
    lost answers, session events and timeouts of other operations, and in whatever
    order, an attempt that has a live lease at the provider is the attempt of a node the
    driver still manages, that is not destroyed, and that has the lease on record or has
    the request for it open; so once every node has been removed no lease is left. The
    last condition is one the supervisor does not keep: it times out whatever is due. *)
Theorem no_lease_leaks :
  (∀ ts e, spawn_blocking ts e = inl tt) → driver_new shape pol = inl d →
  throughout spawn_blocking honest (world_new d) ops = true →
  throughout spawn_blocking spares_promoted (world_new d) ops = true →
  throughout spawn_blocking (pass_succeeds spawn_blocking) (world_new d) ops = true →
  let w := world_run spawn_blocking (world_new d) ops in
  (∀ a, a ∈ leases w → ∃ id n, nodes (state (driver w)) !! id = Some n ∧ attempt n = a
     ∧ stage (record n) ≠ Destroyed ∧ covered n)
  ∧ (nodes (state (driver w)) = ∅ → leases w = ∅).
Proof.
  intros Hspawn Hd Hh Hspare Hs w.
  pose proof (run_ok spawn_blocking ops Hspawn _ (new_ok _ _ _ Hd) Hh Hspare Hs) as [_ _ Hc Hl]. fold w in Hc, Hl.
  split.
  - intros a Ha. destruct (lo_leases _ _ _ _ _ Hl a Ha) as (id & n & Hn & Ea & Hcov).
    exists id, n. split; [done|]. split; [done|]. split; [|done].
    apply covered_not_destroyed; [by eapply co_node|done].
  - intros Hempty. apply set_eq. intros a. split; [|set_solver]. intros Ha.
    destruct (lo_leases _ _ _ _ _ Hl a Ha) as (id & n & Hn & _). by rw Hempty lookup_empty in Hn.
Qed.

(** The executor runs at most one operation of an attempt at a time and loses none: in
    every such run the tasks at the backend belong to distinct attempts, and an
    operation a node waits for is in flight in the ledger or its result is on the
    channel. *)
Theorem operations_accounted :
  (∀ ts e, spawn_blocking ts e = inl tt) → driver_new shape pol = inl d →
  throughout spawn_blocking honest (world_new d) ops = true →
  throughout spawn_blocking spares_promoted (world_new d) ops = true →
  throughout spawn_blocking (pass_succeeds spawn_blocking) (world_new d) ops = true →
  let w := world_run spawn_blocking (world_new d) ops in
  NoDup (effect_attempt <$> tasks (executor w))
  ∧ ∀ id n p, nodes (state (driver w)) !! id = Some n → pending n = Some p →
      operation_status (executor w) (p_id p) = SInFlight
      ∨ ∃ r, r ∈ results (executor w) ∧ res_operation r = p_id p ∧ res_node r = id.
Proof.
  intros Hspawn Hd Hh Hspare Hs w.
  pose proof (run_ok spawn_blocking ops Hspawn _ (new_ok _ _ _ Hd) Hh Hspare Hs) as [_ _ Hc Hl]. fold w in Hc, Hl.
  split; [by eapply lo_single|]. intros id n p Hn Hp.
  destruct (lo_pending _ _ _ _ _ Hl id n p Hn Hp) as [Hi|[(r & Hr & Er)|(e & []%elem_of_nil & _)]].
  - left. destruct (in_flight_pending _ _ _ _ _ id n _ Hc Hl Hn Hi) as (_ & en & _ & _ & Hop & Hst & _).
    unfold operation_status. by rw Hop bool_decide_false.
  - right. exists r. split; [done|]. split; [done|].
    destruct (lo_results _ _ _ _ _ Hl r Hr) as [_ Hans].
    by destruct (Hans id n p Hn Hp Er).
Qed.
End Guarantees.

(** ** Runs *)

Module Sample.
Import SampleCluster.
Definition d0 : ClusterDriver := driver_of (cluster 1 [group "gpu" 1]).
Definition w0 : World := world_new d0.

Definition accepts (_ : list PlannedEffect) (_ : PlannedEffect) : Result unit string := inl tt.
Definition handle : DestroyHandle := mkDestroyHandle "vast" "L1" "C1".
Definition granted : BackendAnswer := Answered (inl (OLeaseCreated
  (mkCreateLeaseResult (mkLeaseFacts "vast" "L1" "C1" None handle ∅) None))).
Definition failed (d : EffectFailureDisposition) : BackendAnswer :=
  Answered (inr (mkEffectError "provider" d)).

(** A node is wanted; its lease is created but the answer is late and the request times out. *)
Definition lost_answer : list WorldOp :=
  [WDrive (at_ 0); WDrive (at_ 0); WTouch 0; WClassify (at_ 120); WDeliver (at_ 120)].
(** The cluster is torn down: the request is repeated behind the first, the lease adopted and
    destroyed, the node reaped. *)
Definition teardown : list WorldOp :=
  [WUpdate (cluster 2 []); WDrive (at_ 120); WDrive (at_ 120); WTrigger (at_ 121); WDrive (at_ 121);
   WFinish 0 granted; WFinish 0 granted; WDeliver (at_ 125); WDrive (at_ 125);
   WTouch 0; WFinish 0 (Answered (inl OLeaseDestroyed)); WDeliver (at_ 130);
   WDrive (at_ 130); WDrive (at_ 130)].
End Sample.

Lemma no_lease_leaks_witness :
  (let w := world_run Sample.accepts Sample.w0 (Sample.lost_answer ++ take 5 Sample.teardown) in
   1 ∈ leases w ∧ ∃ id n, nodes (state (driver w)) !! id = Some n ∧ attempt n = 1
     ∧ stage (record n) ≠ Destroyed ∧ covered n)
  ∧ leases (world_run Sample.accepts Sample.w0 (Sample.lost_answer ++ Sample.teardown)) = ∅.
Proof.
  split; [split; [by vm_compute|]|].
  - destruct (no_lease_leaks Sample.accepts (SampleCluster.cluster 1 [SampleCluster.group "gpu" 1]) policy_default
      Sample.d0 (Sample.lost_answer ++ take 5 Sample.teardown)) as [H _];
      [done|by vm_compute..|]. apply H. by vm_compute.
  - destruct (no_lease_leaks Sample.accepts (SampleCluster.cluster 1 [SampleCluster.group "gpu" 1]) policy_default
      Sample.d0 (Sample.lost_answer ++ Sample.teardown)) as [_ H];
      [done|by vm_compute..|]. apply H. by vm_compute.
Defined.

Lemma operations_accounted_witness :
  let w := world_run Sample.accepts Sample.w0 (Sample.lost_answer ++ take 5 Sample.teardown) in
  length (tasks (executor w)) = 1%nat ∧ NoDup (effect_attempt <$> tasks (executor w))
  ∧ ∀ id n p, nodes (state (driver w)) !! id = Some n → pending n = Some p →
      operation_status (executor w) (p_id p) = SInFlight
      ∨ ∃ r, r ∈ results (executor w) ∧ res_operation r = p_id p ∧ res_node r = id.
Proof.
  split; [by vm_compute|].
  apply (operations_accounted Sample.accepts (SampleCluster.cluster 1 [SampleCluster.group "gpu" 1]) policy_default
    Sample.d0 (Sample.lost_answer ++ take 5 Sample.teardown)); [done|by vm_compute..].
Defined.

(** ** How a lease is lost *)

Module Leaks.
(** The spawner refuses work while a request of the same kind was answered ambiguously: the
    second submission fails. *)
Definition refuses (ts : list PlannedEffect) (e : PlannedEffect) : Result unit string :=
  if sequence (operation e) =? 2 then inr "runtime is shutting down" else inl tt.

Definition refused_run : list WorldOp :=
  [WDrive (SampleCluster.at_ 0); WDrive (SampleCluster.at_ 0); WTouch 0; WFinish 0 (Sample.failed Ambiguous);
   WDeliver (SampleCluster.at_ 1); WUpdate (SampleCluster.cluster 2 []); WDrive (SampleCluster.at_ 1);
   WTrigger (SampleCluster.at_ 2); WDrive (SampleCluster.at_ 2); WDrive (SampleCluster.at_ 2); WDrive (SampleCluster.at_ 2)].

(** An operation is queued behind a timed-out one, promoted when that ends, and times out in
    turn; the third request runs beside it, is refused, and the node is removed.  Then the second
    reaches the provider. *)
Definition promoted_run : list WorldOp :=
  [WDrive (SampleCluster.at_ 0); WDrive (SampleCluster.at_ 0); WClassify (SampleCluster.at_ 120);
   WDeliver (SampleCluster.at_ 120); WDrive (SampleCluster.at_ 120); WTrigger (SampleCluster.at_ 121);
   WDrive (SampleCluster.at_ 121); WFinish 0 (Sample.failed Ambiguous);
   WClassify (SampleCluster.at_ 241); WDeliver (SampleCluster.at_ 241); WUpdate (SampleCluster.cluster 2 []);
   WDrive (SampleCluster.at_ 241); WDrive (SampleCluster.at_ 241); WTrigger (SampleCluster.at_ 243); WDrive (SampleCluster.at_ 243);
   WFinish 1 (Sample.failed Definite); WDeliver (SampleCluster.at_ 244);
   WDrive (SampleCluster.at_ 244); WDrive (SampleCluster.at_ 244); WTouch 0; WFinish 0 Sample.granted].
End Leaks.

(** A submission failure while an answer is in doubt loses the lease:
    [submission_failed] reports a definite failure and [record_failure] then clears
    [ambiguous_operation], so a node being deleted is taken to have no lease. Here every
    answer of the backend is honest; the run ends with no node managed and a live lease. *)
Theorem refused_submission_leaks :
  let w := world_run Leaks.refuses Sample.w0 Leaks.refused_run in
  throughout Leaks.refuses honest Sample.w0 Leaks.refused_run = true
  ∧ throughout Leaks.refuses spares_promoted Sample.w0 Leaks.refused_run = true
  ∧ throughout Leaks.refuses (pass_succeeds Leaks.refuses) Sample.w0 Leaks.refused_run = true
  ∧ nodes (state (driver w)) = ∅ ∧ leases w = {[1]}.
Proof. by vm_compute. Qed.

(** C38. [promote_queued] does not record the promoted operation as running, so when it
    times out the next request of the attempt runs beside it: two tasks of one attempt
    at the backend, and a lease created after the node was removed. The spawner accepts
    everything and every answer of the backend is honest. *)
Theorem promoted_expiry_leaks :
  let w k := world_run Sample.accepts Sample.w0 (take k Leaks.promoted_run) in
  (effect_attempt <$> tasks (executor (w 15%nat))) = [1; 1]
  ∧ (∀ k i ans, Leaks.promoted_run !! k = Some (WFinish i ans) →
       honest (w k) (WFinish i ans) = true)
  ∧ nodes (state (driver (w 21%nat))) = ∅ ∧ leases (w 21%nat) = {[1]}.
Proof.
  split; [by vm_compute|]. split; [|by vm_compute].
  intros k i ans Hk.
  do 21 (destruct k as [|k]; [try discriminate Hk; injection Hk as <- <-; by vm_compute|]).
  discriminate Hk.
Qed.
