(* ===== verification/ProcessIdentity.v ===== *)
(** * The identity of a process

    [PaidProcessIdentity] of [crates/provisioning/src/paid_admission.rs]: a process is its id, the
    tick it started at and the boot it belongs to, read from the files of [/proc].  What those files
    hold is the argument [Proc]; the parsing is the code's.  Text is the string of its bytes; white
    space is that of ASCII, which is all the kernel writes after the name of a process. *)

From Stdlib Require Import Ascii.
From stdpp Require Import pretty.
From S2P Require Import Prelude.
#[local] Open Scope N_scope.

Inductive IoErrorKind := NotFound | OtherIo.

(** What [read_to_string] answers for [/proc/<pid>/stat] and for the file of the boot id. *)
Record Proc := mkProc {
  stat_file : N → string + IoErrorKind;
  boot_id_file : string + IoErrorKind;
}.

(** ** Text *)

Definition is_whitespace (a : Ascii.ascii) : bool :=
  let n := Ascii.N_of_ascii a in (n =? 32) || ((9 <=? n) && (n <=? 13)).

Definition is_digit (a : Ascii.ascii) : bool :=
  let n := Ascii.N_of_ascii a in (48 <=? n) && (n <=? 57).

(** [s.rsplit_once(") ")] past the separator: what follows its last occurrence. *)
Fixpoint after_last_name (s : string) : option string :=
  match s with
  | EmptyString => None
  | String c rest =>
      match after_last_name rest with
      | Some fields => Some fields
      | None =>
          match c, rest with
          | ")"%char, String " "%char fields => Some fields
          | _, _ => None
          end
      end
  end.

(** [split_whitespace]: [word] is the word being read, reversed. *)
Fixpoint words_from (word : list Ascii.ascii) (s : string) : list (list Ascii.ascii) :=
  let close := match word with [] => [] | _ => [reverse word] end in
  match s with
  | EmptyString => close
  | String c rest => if is_whitespace c then close ++ words_from [] rest else words_from (c :: word) rest
  end.
Definition split_whitespace (s : string) : list (list Ascii.ascii) := words_from [] s.

Fixpoint digits_value (acc : N) (s : list Ascii.ascii) : option N :=
  match s with
  | [] => Some acc
  | c :: rest =>
      if is_digit c then
        let acc := acc * 10 + (Ascii.N_of_ascii c - 48) in
        if acc <=? u64_max then digits_value acc rest else None
      else None
  end.

(** [str::parse::<u64>]: digits with an optional sign, checked. *)
Definition parse_u64 (s : list Ascii.ascii) : option N :=
  let digits := match s with "+"%char :: rest => rest | _ => s end in
  match digits with [] => None | _ => digits_value 0 digits end.

Fixpoint trim_start (s : list Ascii.ascii) : list Ascii.ascii :=
  match s with
  | c :: rest => if is_whitespace c then trim_start rest else s
  | [] => []
  end.
Definition trim (s : string) : string :=
  String.string_of_list_ascii
    (reverse (trim_start (reverse (trim_start (String.list_ascii_of_string s))))).

(** ** Identities *)

Record PaidProcessIdentity := mkPaidProcessIdentity {
  pid : N;
  start_ticks : N;
  boot_id : string;
}.
#[export] Instance PaidProcessIdentity_eq_dec : EqDecision PaidProcessIdentity.
Proof. solve_decision. Defined.

Definition io_error (e : IoErrorKind) : string := "paid admission storage".

Definition read (proc : Proc) (p : N) : PaidProcessIdentity + string :=
  match stat_file proc p with
  | inr e => inr (io_error e)
  | inl stat =>
      match after_last_name stat with
      | None => inr "malformed cleanup process identity"
      | Some rest =>
          let fields := split_whitespace rest in
          if match fields with [] => true | state :: _ => bool_decide (state ∈ [["Z"%char]; ["X"%char]]) end
          then inr "cleanup process is not running"
          else
            match fields !! 19%nat with
            | None => inr "cleanup process start identity is absent"
            | Some word =>
                match parse_u64 word with
                | None => inr "cleanup process start identity"
                | Some ticks =>
                    match boot_id_file proc with
                    | inr e => inr (io_error e)
                    | inl boot => inl (mkPaidProcessIdentity p ticks (trim boot))
                    end
                end
            end
      end
  end.

Definition is_live (proc : Proc) (identity : PaidProcessIdentity) : bool :=
  match read proc (pid identity) with
  | inl found => bool_decide (found = identity)
  | inr _ => false
  end.

Definition incarnation_present (proc : Proc) (identity : PaidProcessIdentity) : bool :=
  match stat_file proc (pid identity) with
  | inr NotFound => false
  | inr OtherIo => true
  | inl stat =>
      match after_last_name stat with
      | None => true
      | Some fields =>
          match split_whitespace fields !! 19%nat ≫= parse_u64 with
          | None => true
          | Some ticks =>
              match boot_id_file proc with
              | inr _ => true
              | inl boot => (ticks =? start_ticks identity) && bool_decide (trim boot = boot_id identity)
              end
          end
      end
  end.

(** ** Reading what the kernel writes *)

Fixpoint free_of (c : ascii) (s : string) : bool :=
  match s with
  | EmptyString => true
  | String a rest => negb (bool_decide (a = c)) && free_of c rest
  end.

(** The line of [/proc/<pid>/stat]: the id, the name in parentheses, and the fields. *)
Definition stat_line (p : N) (name : string) (fields : list string) : string :=
  pretty p +:+ " (" +:+ name +:+ ") " +:+ String.concat " " fields +:+ String "010" "".

Fixpoint plain (s : string) : bool :=
  match s with
  | EmptyString => true
  | String c rest => negb (is_whitespace c) && negb (bool_decide (c = ")"%char)) && plain rest
  end.
Definition is_word (s : string) : bool := negb (bool_decide (s = "")) && plain s.

Lemma str_app_cons c (s t : string) : String c s +:+ t = String c (s +:+ t).
Proof. done. Qed.

Lemma after_last_name_none s : free_of ")" s = true → after_last_name s = None.
Proof.
  induction s as [|c s IH]; [done|]. cbn [free_of after_last_name]. intros [Hc Hs]%andb_true_iff.
  rw (IH Hs). bool_to_prop. destruct c as [[] [] [] [] [] [] [] []]; try done.
Qed.

Lemma after_last_name_app s rest :
  free_of ")" rest = true → after_last_name (s +:+ ") " +:+ rest) = Some rest.
Proof.
  intros Hf. induction s as [|c s IH].
  - change ("" +:+ ") " +:+ rest) with (String ")" (String " " rest)).
    by rw /= (after_last_name_none _ Hf).
  - rw str_app_cons. cbn [after_last_name]. by rw IH.
Qed.

Lemma str_app_assoc (a b c : string) : (a +:+ b) +:+ c = a +:+ b +:+ c.
Proof. induction a as [|x a IH]; [done|]. by rw !str_app_cons IH. Qed.

Lemma free_of_app c s t : free_of c (s +:+ t) = free_of c s && free_of c t.
Proof. induction s as [|a s IH]; [done|]. rw str_app_cons /= IH andb_assoc //. Qed.

Lemma words_from_plain word w rest :
  plain w = true →
  words_from word (w +:+ rest) = words_from (reverse (String.list_ascii_of_string w) ++ word) rest.
Proof.
  revert word. induction w as [|c w IH]; intros word Hw; [done|].
  cbn [plain] in Hw. bool_to_prop.
  rw str_app_cons.
  cbn [words_from String.list_ascii_of_string]. rw H IH //. by rw reverse_cons -app_assoc.
Qed.

Lemma plain_free w : plain w = true → free_of ")" w = true.
Proof.
  induction w as [|c w IH]; [done|]. cbn [plain free_of]. intros. bool_to_prop.
  rw bool_decide_false // IH //.
Qed.

Lemma words_from_space word rest :
  words_from word (" " +:+ rest)
  = match word with [] => [] | _ => [reverse word] end ++ words_from [] rest.
Proof. done. Qed.

Lemma split_words words :
  forallb is_word words = true →
  split_whitespace (String.concat " " words +:+ String "010" "")
  = String.list_ascii_of_string <$> words.
Proof.
  rw /split_whitespace. induction words as [|w words IH]; [done|].
  cbn [forallb]. intros [Hw Hws]%andb_true_iff. rw /is_word in Hw. bool_to_prop.
  assert (String.list_ascii_of_string w ≠ []) as Hne by (by destruct w).
  assert (reverse (String.list_ascii_of_string w) ≠ []) as Hrev.
  { intros E. apply Hne. by rw -(reverse_involutive (String.list_ascii_of_string w)) E. }
  destruct words as [|w' words].
  - cbn [String.concat]. rw words_from_plain // app_nil_r /=.
    destruct (reverse _) eqn:E; [done|]. by rw -E reverse_involutive.
  - change (String.concat " " (w :: w' :: words)) with (w +:+ " " +:+ String.concat " " (w' :: words)).
    rw str_app_assoc words_from_plain // app_nil_r.
    rw (words_from_space _ (String.concat " " (w' :: words) +:+ String "010" "")) (IH Hws).
    destruct (reverse _) eqn:E; [done|]. by rw -E reverse_involutive.
Qed.

Lemma digit_char d : d < 10 →
  is_digit (pretty_N_char d) = true ∧ N_of_ascii (pretty_N_char d) - 48 = d
  ∧ pretty_N_char d ≠ "+"%char.
Proof.
  intros Hd.
  assert (d = 0 ∨ d = 1 ∨ d = 2 ∨ d = 3 ∨ d = 4 ∨ d = 5 ∨ d = 6 ∨ d = 7 ∨ d = 8 ∨ d = 9)
    as Hcases by lia.
  by destruct Hcases as [->|[->|[->|[->|[->|[->|[->|[->|[->| ->]]]]]]]]].
Qed.

Lemma digits_value_digit acc d rest : d < 10 → acc * 10 + d ≤ u64_max →
  digits_value acc (pretty_N_char d :: rest) = digits_value (acc * 10 + d) rest.
Proof.
  intros Hd Hmax. destruct (digit_char d Hd) as (Hdig & Hval & _). cbn [digits_value].
  by rw Hdig Hval (proj2 (N.leb_le _ _) Hmax).
Qed.

Lemma digits_value_go n s : 0 < n → n ≤ u64_max →
  digits_value 0 (String.list_ascii_of_string (pretty_N_go n s))
  = digits_value n (String.list_ascii_of_string s).
Proof.
  revert s. induction (N.lt_wf_0 n) as [n _ IH]. intros s Hpos Hmax.
  rw pretty_N_go_step; [lia|].
  pose proof (N.mod_lt n 10 ltac:(done)). pose proof (N.div_mod n 10 ltac:(done)) as Hdm.
  destruct (decide (n < 10)) as [Hlt|Hge].
  - rw N.div_small // pretty_N_go_0. cbn [String.list_ascii_of_string].
    rw (N.mod_small n 10 Hlt) digits_value_digit //.
  - assert (n `div` 10 * 10 + n `mod` 10 = n) as E by lia.
    rw IH; [apply N.div_lt; lia|apply N.div_str_pos; lia|by transitivity n; [apply N.Div0.div_le_upper_bound; lia|]|].
    cbn [String.list_ascii_of_string]. rw digits_value_digit; [done|by rw E|by rw E].
Qed.

Lemma pretty_go_head n s : 0 < n → ∃ d rest, d < 10 ∧ pretty_N_go n s = String (pretty_N_char d) rest.
Proof.
  revert s. induction (N.lt_wf_0 n) as [n _ IH]. intros s Hpos.
  rw pretty_N_go_step; [lia|]. pose proof (N.mod_lt n 10 ltac:(done)).
  destruct (decide (n < 10)) as [Hlt|Hge].
  - rw N.div_small // pretty_N_go_0. eauto.
  - apply IH; [apply N.div_lt; lia|apply N.div_str_pos; lia].
Qed.

(** Parsing a 64-bit number as it is printed. *)
Lemma parse_pretty n : n ≤ u64_max → parse_u64 (String.list_ascii_of_string (pretty n)) = Some n.
Proof.
  intros Hmax. destruct (decide (n = 0)) as [->|Hn]; [done|].
  assert (pretty n = pretty_N_go n "") as -> by (by rw /pretty /pretty_N decide_False).
  destruct (pretty_go_head n "" ltac:(lia)) as (d & rest & Hd & E).
  assert (digits_value 0 (String.list_ascii_of_string (pretty_N_go n "")) = Some n) as Hv
    by (rw digits_value_go //; lia).
  rw E in Hv |- *. cbn [String.list_ascii_of_string] in Hv |- *.
  destruct (digit_char d Hd) as (_ & _ & Hplus). rw /parse_u64.
  destruct (pretty_N_char d) as [[] [] [] [] [] [] [] []]; try exact Hv. by destruct Hplus.
Qed.

Lemma free_of_fields fields :
  forallb is_word fields = true → free_of ")" (String.concat " " fields +:+ String "010" "") = true.
Proof.
  rw free_of_app andb_true_r. induction fields as [|w fields IH]; [done|].
  cbn [forallb]. intros [Hw Hws]%andb_true_iff. specialize (IH Hws).
  apply andb_true_iff in Hw as [_ Hw%plain_free].
  destruct fields as [|w' fields]; [done|].
  change (String.concat " " (w :: w' :: fields)) with (w +:+ " " +:+ String.concat " " (w' :: fields)).
  by rw !free_of_app Hw IH.
Qed.

Lemma stat_line_fields p name fields :
  forallb is_word fields = true →
  split_whitespace <$> after_last_name (stat_line p name fields)
  = Some (String.list_ascii_of_string <$> fields).
Proof.
  intros Hf. rw /stat_line. rw -!str_app_assoc. rw (str_app_assoc _ (String.concat _ _)).
  rw (str_app_assoc _ ") "). rw after_last_name_app; [by apply free_of_fields|]. by rw /= split_words.
Qed.

(** No process can pass for another by its name: whatever bytes the name holds,
    parentheses, spaces and digits included, what is read from the line the kernel
    writes for a process is its own start; a process is live exactly if it is that
    incarnation and not a zombie, and present if it is that incarnation. *)
Theorem identity_beyond_name proc p name fields state ticks boot i :
  forallb is_word fields = true → fields !! 0%nat = Some state → fields !! 19%nat = Some (pretty ticks) →
  ticks ≤ u64_max → stat_file proc p = inl (stat_line p name fields) → boot_id_file proc = inl boot →
  pid i = p →
  is_live proc i = bool_decide (i = mkPaidProcessIdentity p ticks (trim boot))
                   && negb (bool_decide (state = "Z" ∨ state = "X"))
  ∧ incarnation_present proc i = bool_decide (i = mkPaidProcessIdentity p ticks (trim boot)).
Proof.
  intros Hw H0 H19 Hmax Hstat Hboot Hp.
  pose proof (stat_line_fields p name fields Hw) as Hf.
  rw /is_live /incarnation_present /read Hp Hstat Hboot.
  destruct (after_last_name _) as [rest|]; [|done]. injection Hf as ->.
  rw list_lookup_fmap H19 /= parse_pretty //. split.
  - destruct fields as [|st fields]; [done|]. injection H0 as ->. cbn [fmap list_fmap].
    assert (∀ w, String.list_ascii_of_string state = String.list_ascii_of_string w ↔ state = w) as Hinj.
    { intros w. split; [|by intros ->]. intros E.
      by rw -(String.string_of_list_ascii_of_string state) E String.string_of_list_ascii_of_string. }
    pose proof (Hinj "Z") as HZ. pose proof (Hinj "X") as HX. cbn in HZ, HX.
    assert (String.list_ascii_of_string state ∈ [["Z"%char]; ["X"%char]] ↔ state = "Z" ∨ state = "X")
      as Hzx by (rw !elem_of_cons elem_of_nil; tauto).
    rw (bool_decide_ext _ _ Hzx). case_bool_decide; [by rw andb_false_r|].
    rw andb_true_r. apply bool_decide_ext. split; by intros ->.
  - destruct i as [q tk b]. cbn in Hp |- *. subst q.
    destruct (N.eqb_spec ticks tk) as [->|Hne]; cbn [andb].
    + apply bool_decide_ext. split; [by intros ->|congruence].
    + symmetry. apply bool_decide_false. congruence.
Qed.

(** A concrete line, with a name made to deceive. *)
Lemma identity_beyond_name_witness :
  let fields := ["S"; "1"; "2"; "3"; "4"; "5"; "6"; "7"; "8"; "9"; "10"; "11"; "12"; "13"; "14"; "15";
                 "16"; "17"; "18"; "777"; "0"]%string in
  let name := "x) Z 1 2 3 4 5 6 7 8 9 10 11 12 13 14 15 16 17 18 42 " in
  let proc := mkProc (λ _, inl (stat_line 9 name fields)) (inl (String.append "b00t" (String "010" ""))) in
  is_live proc (mkPaidProcessIdentity 9 777 "b00t") = true
  ∧ is_live proc (mkPaidProcessIdentity 9 42 "b00t") = false.
Proof.
  intros fields name proc. split;
    [destruct (identity_beyond_name proc 9 name fields "S" 777 (String.append "b00t" (String "010" ""))
       (mkPaidProcessIdentity 9 777 "b00t")) as [-> _]
    |destruct (identity_beyond_name proc 9 name fields "S" 777 (String.append "b00t" (String "010" ""))
       (mkPaidProcessIdentity 9 42 "b00t")) as [-> _]]; by vm_compute.
Defined.

Lemma live_is_present proc i : is_live proc i = true → incarnation_present proc i = true.
Proof.
  rw /is_live /incarnation_present /read.
  destruct (stat_file _ _) as [stat|]; [|done]. destruct (after_last_name stat); [|done].
  match goal with |- context [if ?b then inr "cleanup process is not running" else _] => destruct b end; [done|].
  destruct (_ !! 19%nat); [|done]. cbn. destruct (parse_u64 _); [|done].
  destruct (boot_id_file proc); [|done]. intros E%bool_decide_eq_true. rw -E /=.
  by rw N.eqb_refl bool_decide_true.
Qed.
