(* ===== verification/PaidAdmission.v ===== *)
(** * Admission of paid machines

    [crates/provisioning/src/paid_admission.rs]: the durable record that decides whether a process
    may create or start a paid machine.  [Snapshot]'s transitions are here; the file it lives in and
    the methods are in [PaidStore].

    What the system shows a call (the clock, [/proc], whether another process holds a lock) is the
    argument [Sys]; the calls of one transaction see the same.  A [BTreeMap] is a [gmap]; the loops of
    [validate] stop at the first entry that fails and report one message each. *)

From stdpp Require Import pretty.
From S2P Require Import Prelude ProcessIdentity.
#[local] Open Scope N_scope.

Abbreviation Result A := (A + string)%type (only parsing).
Abbreviation Ok := inl (only parsing).
Abbreviation Err := inr (only parsing).

Definition PAID_CLEANUP_RESERVE_MS : N := 5 * 60 * 1000.
Definition ORCHESTRATOR_RECOVERY_LIMIT_MS : N := 10 * 60 * 1000.

(** ** The record *)

Record PaidNodeAdmission := mkPaidNodeAdmission {
  node_id : N;
  offer_id : N;
  host_id : N;
  label : string;
}.
#[export] Instance PaidNodeAdmission_eq_dec : EqDecision PaidNodeAdmission.
Proof. solve_decision. Defined.

Inductive PaidAdmissionMode := Selecting | Preparing | Prepared | CleanupOnly.
#[export] Instance PaidAdmissionMode_eq_dec : EqDecision PaidAdmissionMode.
Proof. solve_decision. Defined.

Record PaidCreateReservation := mkPaidCreateReservation {
  attempt_id : N;
  reserved_unix_ms : N;
}.

Record PaidBootstrapReservation := mkPaidBootstrapReservation {
  b_reserved_unix_ms : N;
}.

Record PaidRetainedDeployment := mkPaidRetainedDeployment {
  artifact_digest : string;
  d_contracts : gmap N N;
  d_runner : PaidProcessIdentity;
  d_orchestrator : option PaidProcessIdentity;
  bootstraps : gmap N PaidBootstrapReservation;
}.

Record PaidCleanupLimits := mkPaidCleanupLimits {
  maximum_cost_microusd : N;
  hourly_price_microusd : N;
}.

Record PaidCleanupOwnership := mkPaidCleanupOwnership {
  runner : PaidProcessIdentity;
  owner : option PaidProcessIdentity;
  supervisor : option PaidProcessIdentity;
  orchestrator : option PaidProcessIdentity;
  orchestrator_recovery_until_unix_ms : option N;
  limits : PaidCleanupLimits;
  started_unix_ms : N;
  stop_unix_ms : N;
  heartbeat_unix_ms : N;
  retained_development_fixture : bool;
  complete : bool;
  spending_stopped : bool;
  orchestrator_shutdown_pending : bool;
}.

Record PaidAdmissionSnapshot := mkPaidAdmissionSnapshot {
  schema_version : N;
  run_id : N;
  nodes : list PaidNodeAdmission;
  contracts : gmap N N;
  create_reservations : gmap N PaidCreateReservation;
  rejected_creates : gset N;
  initial_bootstraps : gmap N PaidBootstrapReservation;
  retained_deployments : gmap string PaidRetainedDeployment;
  mode : PaidAdmissionMode;
  deadline_unix_ms : N;
  cleanup : option PaidCleanupOwnership;
  discovered_contracts : gmap N string;
  accounting_errors : gset string;
  recovery_contract_ids : gset N;
  recovery_labels : gset string;
}.

(** [DeploymentIdentity] of [crates/myelin-control-contract]. *)
Record DeploymentIdentity := mkDeploymentIdentity {
  identity_artifact_digest : string;
  deployment_generation : string;
}.

Definition ownership_eta (o : PaidCleanupOwnership) : PaidCleanupOwnership :=
  mkPaidCleanupOwnership (runner o) (owner o) (supervisor o) (orchestrator o)
    (orchestrator_recovery_until_unix_ms o) (limits o) (started_unix_ms o) (stop_unix_ms o)
    (heartbeat_unix_ms o) (retained_development_fixture o) (complete o) (spending_stopped o)
    (orchestrator_shutdown_pending o).
Definition set_runner (o : PaidCleanupOwnership) (v : PaidProcessIdentity) : PaidCleanupOwnership :=
  ltac:(update_field ownership_eta o runner v).
Definition set_owner (o : PaidCleanupOwnership) (v : option PaidProcessIdentity) : PaidCleanupOwnership :=
  ltac:(update_field ownership_eta o owner v).
Definition set_supervisor (o : PaidCleanupOwnership) (v : option PaidProcessIdentity)
    : PaidCleanupOwnership :=
  ltac:(update_field ownership_eta o supervisor v).
Definition set_orchestrator (o : PaidCleanupOwnership) (v : option PaidProcessIdentity)
    : PaidCleanupOwnership :=
  ltac:(update_field ownership_eta o orchestrator v).
Definition set_recovery (o : PaidCleanupOwnership) (v : option N) : PaidCleanupOwnership :=
  ltac:(update_field ownership_eta o orchestrator_recovery_until_unix_ms v).
Definition set_heartbeat (o : PaidCleanupOwnership) (v : N) : PaidCleanupOwnership :=
  ltac:(update_field ownership_eta o heartbeat_unix_ms v).
Definition set_retained (o : PaidCleanupOwnership) (v : bool) : PaidCleanupOwnership :=
  ltac:(update_field ownership_eta o retained_development_fixture v).
Definition set_complete (o : PaidCleanupOwnership) (v : bool) : PaidCleanupOwnership :=
  ltac:(update_field ownership_eta o complete v).
Definition set_spending_stopped (o : PaidCleanupOwnership) (v : bool) : PaidCleanupOwnership :=
  ltac:(update_field ownership_eta o spending_stopped v).
Definition set_shutdown_pending (o : PaidCleanupOwnership) (v : bool) : PaidCleanupOwnership :=
  ltac:(update_field ownership_eta o orchestrator_shutdown_pending v).

Definition snapshot_eta (s : PaidAdmissionSnapshot) : PaidAdmissionSnapshot :=
  mkPaidAdmissionSnapshot (schema_version s) (run_id s) (nodes s) (contracts s)
    (create_reservations s) (rejected_creates s) (initial_bootstraps s) (retained_deployments s)
    (mode s) (deadline_unix_ms s) (cleanup s) (discovered_contracts s) (accounting_errors s)
    (recovery_contract_ids s) (recovery_labels s).
Definition set_schema_version (s : PaidAdmissionSnapshot) (v : N) : PaidAdmissionSnapshot :=
  ltac:(update_field snapshot_eta s schema_version v).
Definition set_nodes (s : PaidAdmissionSnapshot) (v : list PaidNodeAdmission) : PaidAdmissionSnapshot :=
  ltac:(update_field snapshot_eta s nodes v).
Definition set_contracts (s : PaidAdmissionSnapshot) (v : gmap N N) : PaidAdmissionSnapshot :=
  ltac:(update_field snapshot_eta s contracts v).
Definition set_create_reservations (s : PaidAdmissionSnapshot) (v : gmap N PaidCreateReservation)
    : PaidAdmissionSnapshot :=
  ltac:(update_field snapshot_eta s create_reservations v).
Definition set_rejected_creates (s : PaidAdmissionSnapshot) (v : gset N) : PaidAdmissionSnapshot :=
  ltac:(update_field snapshot_eta s rejected_creates v).
Definition set_initial_bootstraps (s : PaidAdmissionSnapshot) (v : gmap N PaidBootstrapReservation)
    : PaidAdmissionSnapshot :=
  ltac:(update_field snapshot_eta s initial_bootstraps v).
Definition set_retained_deployments (s : PaidAdmissionSnapshot)
    (v : gmap string PaidRetainedDeployment) : PaidAdmissionSnapshot :=
  ltac:(update_field snapshot_eta s retained_deployments v).
Definition set_mode (s : PaidAdmissionSnapshot) (v : PaidAdmissionMode) : PaidAdmissionSnapshot :=
  ltac:(update_field snapshot_eta s mode v).
Definition set_cleanup (s : PaidAdmissionSnapshot) (v : option PaidCleanupOwnership)
    : PaidAdmissionSnapshot :=
  ltac:(update_field snapshot_eta s cleanup v).
Definition set_discovered_contracts (s : PaidAdmissionSnapshot) (v : gmap N string)
    : PaidAdmissionSnapshot :=
  ltac:(update_field snapshot_eta s discovered_contracts v).
Definition set_accounting_errors (s : PaidAdmissionSnapshot) (v : gset string) : PaidAdmissionSnapshot :=
  ltac:(update_field snapshot_eta s accounting_errors v).
Definition set_recovery_contract_ids (s : PaidAdmissionSnapshot) (v : gset N) : PaidAdmissionSnapshot :=
  ltac:(update_field snapshot_eta s recovery_contract_ids v).
Definition set_recovery_labels (s : PaidAdmissionSnapshot) (v : gset string) : PaidAdmissionSnapshot :=
  ltac:(update_field snapshot_eta s recovery_labels v).

(** ** The system around a call *)

(** The calls on the file system that can fail, in the order [initialize] and [update] make them. *)
Inductive IoStep :=
  IoStatState | IoCreateLock | IoLock | IoSyncLock | IoSyncLockParent | IoOpenState | IoStatTemporary | IoRemoveTemporary | IoCreateTemporary | IoWrite | IoFlush
  | IoSync | IoRename | IoSyncParent.

Record Sys := mkSys {
  proc : Proc;
  process_id : N;
  since_epoch_ns : Z;  (** [SystemTime::now()], negative before the epoch *)
  owner_lock_held : Result bool;
  supervisor_lock_held : Result bool;
  claim_owner_lock : Result unit;
  claim_supervisor_lock : Result unit;
  io : IoStep → option string;
}.

Definition unix_ms (sys : Sys) : Result N :=
  if (since_epoch_ns sys <? 0)%Z then Err "paid admission clock"
  else
    let ms := Z.to_N (since_epoch_ns sys) / 1000000 in
    if ms <=? u64_max then Ok ms else Err "paid admission clock".

Definition current (sys : Sys) : Result PaidProcessIdentity := read (proc sys) (process_id sys).

Definition live (sys : Sys) (p : PaidProcessIdentity) : bool := is_live (proc sys) p.
Definition some_live (sys : Sys) (p : option PaidProcessIdentity) : bool :=
  match p with Some p => live sys p | None => false end.

Definition live_at (sys : Sys) (o : PaidCleanupOwnership) (now : N) : bool :=
  negb (complete o)
  && (now <? stop_unix_ms o)
  && (started_unix_ms o <=? now)
  && (heartbeat_unix_ms o <=? now)
  && (now - heartbeat_unix_ms o <=? 30000)
  && some_live sys (owner o).

(** [self.cleanup.as_ref().filter(|owner| owner.live_at(now))] *)
Definition live_cleanup (sys : Sys) (s : PaidAdmissionSnapshot) (now : N) : option PaidCleanupOwnership :=
  o ← cleanup s; if live_at sys o now then Some o else None.

(** ** Validation *)

Definition is_alphanumeric (n : N) : bool :=
  ((48 <=? n) && (n <=? 57)) || ((65 <=? n) && (n <=? 90)) || ((97 <=? n) && (n <=? 122)).
Definition is_hexdigit (n : N) : bool :=
  ((48 <=? n) && (n <=? 57)) || ((65 <=? n) && (n <=? 70)) || ((97 <=? n) && (n <=? 102)).

Definition valid_label (l : string) : bool :=
  negb (bool_decide (l = "")) && Nat.leb (String.length l) 128
  && forallb (λ byte, is_alphanumeric byte || (byte =? 45)) (str_bytes l).

Fixpoint strip_prefix (prefix s : string) : option string :=
  match prefix, s with
  | EmptyString, _ => Some s
  | String a prefix, String b s => if bool_decide (a = b) then strip_prefix prefix s else None
  | _, EmptyString => None
  end.

Definition validate_deployment_identity (digest generation : string) : Result unit :=
  if match strip_prefix "sha256:" digest with
     | None => true
     | Some digest =>
         negb (Nat.eqb (String.length digest) 64) || negb (forallb is_hexdigit (str_bytes digest))
     end
     || bool_decide (generation = "")
     || negb (forallb (λ byte, is_alphanumeric byte || (byte =? 45) || (byte =? 95) || (byte =? 46))
                (str_bytes generation))
  then Err "invalid retained deployment identity" else Ok tt.

Fixpoint distinct_nodes (ids offers hosts : gset N) (labels : gset string)
    (l : list PaidNodeAdmission) : bool :=
  match l with
  | [] => true
  | node :: l =>
      if (offer_id node =? 0) || (host_id node =? 0) || negb (valid_label (label node))
         || bool_decide (node_id node ∈ ids) || bool_decide (offer_id node ∈ offers)
         || bool_decide (host_id node ∈ hosts) || bool_decide (label node ∈ labels)
      then false
      else distinct_nodes ({[node_id node]} ∪ ids) ({[offer_id node]} ∪ offers)
             ({[host_id node]} ∪ hosts) ({[label node]} ∪ labels) l
  end.

Definition validate_nodes (l : list PaidNodeAdmission) : Result unit :=
  if negb (Nat.eqb (length l) 5) then Err "paid admission requires exactly five selected nodes"
  else if distinct_nodes ∅ ∅ ∅ ∅ l then Ok tt
  else Err "paid admission requires distinct nodes, offers, hosts, and nonempty labels".

(** The checks on the phase: a record without nodes owns nothing. *)
Definition validate_phase (s : PaidAdmissionSnapshot) : Result unit :=
  match nodes s with
  | [] =>
      if negb (bool_decide (mode s = Selecting ∨ mode s = CleanupOnly))
         || bool_decide (cleanup s = None)
         || negb (bool_decide (contracts s = ∅))
         || negb (bool_decide (create_reservations s = ∅))
         || negb (bool_decide (rejected_creates s = ∅))
         || negb (bool_decide (initial_bootstraps s = ∅))
         || negb (bool_decide (retained_deployments s = ∅))
      then Err "invalid acquisition-free paid admission state"
      else if bool_decide (mode s = Selecting)
              && (negb (bool_decide (discovered_contracts s = ∅))
                  || negb (bool_decide (accounting_errors s = ∅))
                  || negb (bool_decide (recovery_contract_ids s = ∅))
                  || negb (bool_decide (recovery_labels s = ∅))
                  || match cleanup s with
                     | None => false
                     | Some o =>
                         complete o || spending_stopped o || retained_development_fixture o
                         || negb (bool_decide (orchestrator_recovery_until_unix_ms o = None))
                         || orchestrator_shutdown_pending o
                     end)
      then Err "presearch paid admission already entered recovery"
      else Ok tt
  | l =>
      _ <-! validate_nodes l;
      if bool_decide (mode s = Selecting) then Err "selecting paid admission cannot own provider nodes"
      else Ok tt
  end.

Definition valid_limits (s : PaidAdmissionSnapshot) (o : PaidCleanupOwnership) : bool :=
  negb ((deadline_unix_ms s <? stop_unix_ms o)
        || (stop_unix_ms o <=? started_unix_ms o)
        || (maximum_cost_microusd (limits o) =? 0)
        || (hourly_price_microusd (limits o) =? 0)
        || (orchestrator_shutdown_pending o
            && (negb (bool_decide (mode s = CleanupOnly))
                || bool_decide (orchestrator o = None)
                || complete o || spending_stopped o || retained_development_fixture o))).

Definition has_node (s : PaidAdmissionSnapshot) (id : N) : bool :=
  existsb (λ node, node_id node =? id) (nodes s).

(** Entries of a map with string keys, in key order. *)
Definition string_entries {V} (m : gmap string V) : list (string * V) :=
  sort_by (λ a b, str_le a.1 b.1) (map_to_list m).

Fixpoint validate_retained (s : PaidAdmissionSnapshot) (l : list (string * PaidRetainedDeployment))
    : Result unit :=
  match l with
  | [] => Ok tt
  | (generation, deployment) :: l =>
      _ <-! validate_deployment_identity (artifact_digest deployment) generation;
      if negb (bool_decide (d_contracts deployment = contracts s))
         || negb (Nat.eqb (size (d_contracts deployment)) 5)
         || negb (bool_decide (map_Forall (λ node reservation,
              is_Some (d_contracts deployment !! node)
              ∧ b_reserved_unix_ms reservation < deadline_unix_ms s) (bootstraps deployment)))
      then Err "invalid retained paid deployment scope"
      else validate_retained s l
  end.

Definition validate (s : PaidAdmissionSnapshot) : Result unit :=
  if negb (schema_version s =? 3) then Err "unsupported paid admission schema" else
  _ <-! validate_phase s;
  if deadline_unix_ms s =? 0 then Err "paid admission deadline is absent" else
  if bool_decide (0 ∈ recovery_contract_ids s)
     || negb (bool_decide (set_Forall (λ l, valid_label l = true) (recovery_labels s)))
  then Err "invalid durable recovery ownership scope" else
  if match cleanup s with Some o => negb (valid_limits s o) | None => false end
  then Err "invalid immutable paid cleanup limits" else
  if negb (bool_decide (map_Forall (λ id reservation,
       has_node s id = true ∧ reserved_unix_ms reservation < deadline_unix_ms s) (create_reservations s)))
  then Err "invalid paid create reservation" else
  if negb (bool_decide (set_Forall (λ id,
       is_Some (create_reservations s !! id) ∧ contracts s !! id = None) (rejected_creates s)))
  then Err "paid create rejection contradicts ownership accounting" else
  if negb (bool_decide (map_Forall (λ id contract,
       is_Some (create_reservations s !! id) ∧ contract ≠ 0) (contracts s)))
     || negb (bool_decide (NoDup (btree_values (contracts s))))
  then Err "invalid or duplicated paid contract mapping" else
  if negb (bool_decide (map_Forall (λ id reservation,
       is_Some (contracts s !! id) ∧ b_reserved_unix_ms reservation < deadline_unix_ms s)
       (initial_bootstraps s)))
  then Err "invalid paid bootstrap reservation" else
  _ <-! validate_retained s (string_entries (retained_deployments s));
  if bool_decide (mode s = Prepared)
     && (negb (Nat.eqb (size (contracts s)) 5) || negb (Nat.eqb (size (initial_bootstraps s)) 5))
  then Err "prepared paid admission is incomplete" else
  Ok tt.

(** ** What the record says *)

Definition known_contract_ids (s : PaidAdmissionSnapshot) : gset N :=
  list_to_set (btree_values (contracts s)) ∪ dom (discovered_contracts s) ∪ recovery_contract_ids s.

Definition unresolved (s : PaidAdmissionSnapshot) (node : PaidNodeAdmission) : bool :=
  bool_decide (is_Some (create_reservations s !! node_id node))
  && bool_decide (contracts s !! node_id node = None)
  && negb (bool_decide (node_id node ∈ rejected_creates s)).

Definition unresolved_create_labels (s : PaidAdmissionSnapshot) : gset string :=
  list_to_set (label <$> filter (λ node, unresolved s node = true) (nodes s)).

Definition cleanup_labels (s : PaidAdmissionSnapshot) : gset string :=
  list_to_set (label <$> nodes s) ∪ recovery_labels s.

Definition new_snapshot (run_id : N) (nodes : list PaidNodeAdmission) (mode : PaidAdmissionMode)
    (deadline_unix_ms : N) (cleanup : option PaidCleanupOwnership) : PaidAdmissionSnapshot :=
  mkPaidAdmissionSnapshot 3 run_id nodes ∅ ∅ ∅ ∅ ∅ mode deadline_unix_ms cleanup ∅ ∅ ∅ ∅.

Definition new_cleanup_ownership (runner : PaidProcessIdentity) (limits : PaidCleanupLimits)
    (deadline_unix_ms now : N) : Result PaidCleanupOwnership :=
  if (maximum_cost_microusd limits =? 0) || (hourly_price_microusd limits =? 0)
  then Err "paid cleanup requires positive financial limits"
  else
    let financial_ms :=
      N.min (maximum_cost_microusd limits * 3600000 / hourly_price_microusd limits) u64_max in
    let spending_deadline := N.min (u64_saturating_add now financial_ms) deadline_unix_ms in
    let stop_unix_ms := spending_deadline - PAID_CLEANUP_RESERVE_MS in
    if stop_unix_ms <=? now then Err "paid ceilings cannot cover the five-minute cleanup reserve"
    else Ok (mkPaidCleanupOwnership runner None None None None limits now stop_unix_ms 0
               false false false false).

(** ** The transactions

    Each definition is the closure a method hands to [update], or the part of it that is a function of
    its own; [sys] and [now] are what it sees of the system.  The second component says whether a
    closure that returned [Ok] set the flag its method looks at afterwards ([rejected],
    [rejected_selecting], [accounting_failed]). *)

Definition Changed := (PaidAdmissionSnapshot * bool)%type.
Definition changed (s : PaidAdmissionSnapshot) : Result Changed := Ok (s, false).

(** [state.mode = CleanupOnly] together with the updates of the ownership that accompany it. *)
Definition close_admission (f : PaidCleanupOwnership → PaidCleanupOwnership) (s : PaidAdmissionSnapshot)
    : PaidAdmissionSnapshot :=
  set_cleanup (set_mode s CleanupOnly) (f <$> cleanup s).

Definition tick_change (sys : Sys) (identity : PaidProcessIdentity) (s : PaidAdmissionSnapshot) (now : N)
    : Result Changed :=
  match cleanup s with
  | None => Err "cleanup ownership is absent"
  | Some o =>
      if negb (bool_decide (owner o = Some identity)) then Err "cleanup owner incarnation changed"
      else
        let clock_reversed := (now <? started_unix_ms o) || (now <? heartbeat_unix_ms o) in
        let o := set_heartbeat o now in
        let automatic_cleanup :=
          (stop_unix_ms o <=? now)
          || clock_reversed
          || match supervisor o with Some p => negb (live sys p) | None => false end
          || match orchestrator_recovery_until_unix_ms o with
             | Some until => (until <=? now) || negb (live sys (runner o))
             | None => false
             end
          || (negb (retained_development_fixture o)
              && (negb (live sys (runner o))
                  || (bool_decide (orchestrator_recovery_until_unix_ms o = None)
                      && match orchestrator o with
                         | Some p =>
                             if orchestrator_shutdown_pending o
                             then negb (incarnation_present (proc sys) p)
                             else negb (live sys p)
                         | None => false
                         end))) in
        if automatic_cleanup
        then changed (set_cleanup (set_mode s CleanupOnly) (Some (set_shutdown_pending o false)))
        else changed (set_cleanup s (Some o))
  end.

Definition install_cleanup_ownership_change (runner : PaidProcessIdentity) (limits : PaidCleanupLimits)
    (s : PaidAdmissionSnapshot) (now : N) : Result Changed :=
  match cleanup s with
  | Some _ => Err "paid cleanup ownership and limits cannot be replaced"
  | None =>
      ownership <-! new_cleanup_ownership runner limits (deadline_unix_ms s) now;
      let s := if bool_decide (create_reservations s = ∅) then s else set_mode s CleanupOnly in
      changed (set_cleanup s (Some ownership))
  end.

Definition claim_cleanup_owner_change (identity : PaidProcessIdentity) (s : PaidAdmissionSnapshot)
    (now : N) : Result Changed :=
  match cleanup s with
  | None => changed (set_mode s CleanupOnly)
  | Some o =>
      let s := if negb (bool_decide (owner o = None)) || (stop_unix_ms o <=? now)
               then close_admission (λ o, set_shutdown_pending (set_retained o false) false) s else s in
      changed (set_cleanup s ((λ o, set_heartbeat (set_owner o (Some identity)) now) <$> cleanup s))
  end.

Definition claim_cleanup_supervisor_change (identity : PaidProcessIdentity) (s : PaidAdmissionSnapshot)
    : Result Changed :=
  match cleanup s with
  | None => Err "cleanup supervisor requires original immutable limits"
  | Some o =>
      let s := if negb (bool_decide (supervisor o = None)) || negb (bool_decide (owner o = None))
               then close_admission (λ o, set_shutdown_pending (set_retained o false) false) s else s in
      changed (set_cleanup s ((λ o, set_supervisor o (Some identity)) <$> cleanup s))
  end.

Definition begin_cleanup_shutdown_change (sys : Sys) (current_runner : PaidProcessIdentity)
    (s : PaidAdmissionSnapshot) (now : N) : Result Changed :=
  match live_cleanup sys s now with
  | None => Err "cleanup shutdown requires live original ownership"
  | Some o =>
      if negb (bool_decide (runner o = current_runner))
      then Err "cleanup shutdown requires the original runner"
      else changed (close_admission (λ o,
        set_shutdown_pending (set_spending_stopped (set_complete (set_retained o false) false) false)
          (negb (bool_decide (orchestrator o = None)))) s)
  end.

Definition release_cleanup_change (sys : Sys) (current_runner : PaidProcessIdentity)
    (s : PaidAdmissionSnapshot) : Result Changed :=
  if negb (bool_decide (mode s = CleanupOnly))
  then Err "cleanup release requires prior durable deny-only shutdown"
  else
    match cleanup s with
    | None => Err "cleanup release requires original ownership"
    | Some o =>
        if negb (bool_decide (runner o = current_runner))
        then Err "cleanup release requires the original runner"
        else if negb (orchestrator_shutdown_pending o) then changed s
        else if match orchestrator o with Some p => incarnation_present (proc sys) p | None => false end
        then Err "provider cleanup is held until the orchestrator is reaped"
        else changed (set_cleanup s (Some (set_shutdown_pending o false)))
    end.

Definition request_cleanup_change (s : PaidAdmissionSnapshot) : Result Changed :=
  changed (close_admission (λ o, set_spending_stopped (set_complete o false) false) s).

Definition include_cleanup_ownership_change (ids : gset N) (labels : gset string)
    (s : PaidAdmissionSnapshot) : Result Changed :=
  if bool_decide (0 ∈ ids) || negb (bool_decide (set_Forall (λ l, valid_label l = true) labels))
  then Err "invalid exact durable runner cleanup ownership"
  else changed (set_recovery_labels
                  (set_recovery_contract_ids s (recovery_contract_ids s ∪ ids))
                  (recovery_labels s ∪ labels)).

Definition binding_denied (s : PaidAdmissionSnapshot) (o : PaidCleanupOwnership)
    (identity current_runner : PaidProcessIdentity) (now : N) : bool :=
  bool_decide (mode s = CleanupOnly)
  || (negb (retained_development_fixture o) && negb (bool_decide (runner o = current_runner)))
  || match orchestrator_recovery_until_unix_ms o with Some until => until <=? now | None => false end
  || (match orchestrator o with Some old => negb (bool_decide (old = identity)) | None => false end
      && bool_decide (orchestrator_recovery_until_unix_ms o = None)
      && negb (retained_development_fixture o)).

Definition bind_deployment (identity current_runner : PaidProcessIdentity)
    (deployment : PaidRetainedDeployment) : PaidRetainedDeployment :=
  if bool_decide (d_runner deployment = current_runner) && bool_decide (d_orchestrator deployment = None)
  then mkPaidRetainedDeployment (artifact_digest deployment) (d_contracts deployment)
         (d_runner deployment) (Some identity) (bootstraps deployment)
  else deployment.

Definition bind_orchestrator_change (sys : Sys) (identity current_runner : PaidProcessIdentity)
    (s : PaidAdmissionSnapshot) (now : N) : Result Changed :=
  match live_cleanup sys s now with
  | None =>
      if bool_decide (mode s = Selecting) then Ok (set_mode s CleanupOnly, true)
      else Err "orchestrator binding requires a live cleanup owner"
  | Some o =>
      if binding_denied s o identity current_runner now then
        if bool_decide (mode s = Selecting)
        then Ok (close_admission (λ o, set_retained o false) s, true)
        else Err "orchestrator rebinding lacks a live authorized transition"
      else
        let s := set_retained_deployments s
          (bind_deployment identity current_runner <$> retained_deployments s) in
        changed (set_cleanup s (Some
          (set_retained (set_recovery (set_orchestrator (set_runner o current_runner) (Some identity))
             None) false)))
  end.

Definition bind_selected_nodes_change (sys : Sys) (selected : list PaidNodeAdmission)
    (current_runner : PaidProcessIdentity) (s : PaidAdmissionSnapshot) (now : N) : Result Changed :=
  if negb (bool_decide (mode s = Selecting))
     || negb (bool_decide (nodes s = []))
     || negb (bool_decide (contracts s = ∅))
     || negb (bool_decide (create_reservations s = ∅))
     || negb (bool_decide (rejected_creates s = ∅))
     || negb (bool_decide (initial_bootstraps s = ∅))
     || negb (bool_decide (retained_deployments s = ∅))
     || negb (bool_decide (discovered_contracts s = ∅))
     || negb (bool_decide (accounting_errors s = ∅))
     || negb (bool_decide (recovery_contract_ids s = ∅))
     || negb (bool_decide (recovery_labels s = ∅))
  then Err "selected paid offers can be bound exactly once"
  else
    let owner_live :=
      match cleanup s with
      | None => false
      | Some o =>
          live_at sys o now && bool_decide (runner o = current_runner) && live sys (runner o)
          && bool_decide (orchestrator_recovery_until_unix_ms o = None)
          && some_live sys (supervisor o) && some_live sys (orchestrator o)
          && negb (spending_stopped o)
      end in
    if (deadline_unix_ms s <=? now) || negb owner_live
    then Ok (close_admission (λ o, set_shutdown_pending (set_retained o false) false) s, true)
    else changed (set_mode (set_nodes s selected) Preparing).

Definition begin_orchestrator_recovery_change (sys : Sys) (current_runner : PaidProcessIdentity)
    (s : PaidAdmissionSnapshot) (now : N) : Result Changed :=
  match live_cleanup sys s now with
  | None => Err "orchestrator recovery requires a live cleanup owner"
  | Some o =>
      if negb (bool_decide (mode s = Prepared))
         || negb (bool_decide (runner o = current_runner))
         || negb (bool_decide (orchestrator_recovery_until_unix_ms o = None))
         || negb (some_live sys (orchestrator o))
      then Err "formal recovery requires a live prepared orchestrator and runner"
      else changed (set_cleanup s (Some (set_recovery o
             (Some (N.min (u64_saturating_add now ORCHESTRATOR_RECOVERY_LIMIT_MS) (stop_unix_ms o))))))
  end.

Definition retain_development_fixture_change (sys : Sys) (explicitly_authorized : bool)
    (s : PaidAdmissionSnapshot) (now : N) : Result Changed :=
  if negb explicitly_authorized || negb (bool_decide (mode s = Prepared))
  then Err "retention requires explicit development authorization and prepared admission"
  else
    match live_cleanup sys s now with
    | None => Err "retention requires a live cleanup owner"
    | Some o =>
        if negb (some_live sys (supervisor o)) then Err "retention requires a live restart supervisor"
        else changed (set_cleanup s (Some (set_retained o true)))
    end.

Definition authorize_retained_deployment_change (sys : Sys) (explicitly_authorized : bool)
    (deployment : DeploymentIdentity) (current_runner : PaidProcessIdentity)
    (s : PaidAdmissionSnapshot) (now : N) : Result Changed :=
  match live_cleanup sys s now with
  | None => Err "retained deployment requires a live cleanup owner"
  | Some o =>
      if negb explicitly_authorized
         || negb (bool_decide (mode s = Prepared))
         || negb (retained_development_fixture o)
         || negb (bool_decide (orchestrator_recovery_until_unix_ms o = None))
         || match orchestrator o with Some p => live sys p | None => true end
         || (negb (bool_decide (runner o = current_runner)) && live sys (runner o))
         || negb (some_live sys (supervisor o))
         || bool_decide (is_Some (retained_deployments s !! deployment_generation deployment))
         || negb (bool_decide (map_Forall (λ _ prior, d_orchestrator prior ≠ None)
                                 (retained_deployments s)))
      then Err "retained deployment lacks an explicit quiescent fresh generation transition"
      else changed (set_retained_deployments s
             (<[deployment_generation deployment :=
                  mkPaidRetainedDeployment (identity_artifact_digest deployment) (contracts s)
                    current_runner None ∅]> (retained_deployments s)))
  end.

Definition reserve_retained_bootstrap_change (sys : Sys) (run node contract : N)
    (deployment : DeploymentIdentity) (current_orchestrator : PaidProcessIdentity)
    (s : PaidAdmissionSnapshot) (now : N) : Result Changed :=
  match live_cleanup sys s now with
  | None => Err "retained bootstrap requires a live cleanup owner"
  | Some o =>
      if negb (bool_decide (mode s = Prepared))
         || negb (run_id s =? run)
         || negb (live sys (runner o))
         || negb (bool_decide (orchestrator o = Some current_orchestrator))
         || negb (bool_decide (orchestrator_recovery_until_unix_ms o = None))
      then Err "retained bootstrap is outside its bound generation transition"
      else
        match retained_deployments s !! deployment_generation deployment with
        | Some authorization =>
            if bool_decide (artifact_digest authorization = identity_artifact_digest deployment)
               && bool_decide (d_runner authorization = runner o)
               && bool_decide (d_orchestrator authorization = Some current_orchestrator)
               && bool_decide (d_contracts authorization !! node = Some contract)
            then
              match bootstraps authorization !! node with
              | Some _ => Err "retained generation bootstrap slot is permanently consumed"
              | None =>
                  changed (set_retained_deployments s
                    (<[deployment_generation deployment :=
                         mkPaidRetainedDeployment (artifact_digest authorization)
                           (d_contracts authorization) (d_runner authorization)
                           (d_orchestrator authorization)
                           (<[node := mkPaidBootstrapReservation now]> (bootstraps authorization))]>
                       (retained_deployments s)))
              end
            else Err "retained bootstrap has no exact deployment authorization"
        | None => Err "retained bootstrap has no exact deployment authorization"
        end
  end.

Definition discover (s : PaidAdmissionSnapshot) (contract : N) (l : string) : Result PaidAdmissionSnapshot :=
  match List.find (λ node, bool_decide (label node = l)) (nodes s) with
  | None =>
      if negb (bool_decide (l ∈ recovery_labels s))
      then Err "cleanup discovery escaped exact authorized labels"
      else Ok (set_accounting_errors
                 (set_discovered_contracts s (<[contract := l]> (discovered_contracts s)))
                 ({["unmapped durable runner label " +:+ l]} ∪ accounting_errors s))
  | Some node =>
      let s := set_discovered_contracts s (<[contract := l]> (discovered_contracts s)) in
      if bool_decide (create_reservations s !! node_id node = None)
         || bool_decide (node_id node ∈ rejected_creates s)
         || match contracts s !! node_id node with Some old => negb (old =? contract) | None => false end
         || negb (bool_decide (map_Forall (λ id old, id = node_id node ∨ old ≠ contract) (contracts s)))
      then Ok (set_accounting_errors s
                 ({["ambiguous owned contract " +:+ pretty contract +:+ " for node " +:+ pretty (node_id node)]}
                  ∪ accounting_errors s))
      else Ok (set_contracts s (<[node_id node := contract]> (contracts s)))
  end.

Fixpoint discover_all (s : PaidAdmissionSnapshot) (l : list (N * string)) : Result PaidAdmissionSnapshot :=
  match l with
  | [] => Ok s
  | (contract, lab) :: l => s <-! discover s contract lab; discover_all s l
  end.

Definition reconcile_cleanup_discovery_change (discovered : gmap N string) (s : PaidAdmissionSnapshot)
    : Result Changed :=
  s <-! discover_all s (btree_entries discovered); changed s.

Definition record_accounting_error_change (error : string) (s : PaidAdmissionSnapshot) : Result Changed :=
  changed (set_accounting_errors s ({[error]} ∪ accounting_errors s)).

(** The condition under which both receipts of a cleanup are refused. *)
Definition cleanup_unproved (absent_ids : gset N) (s : PaidAdmissionSnapshot) : bool :=
  negb (bool_decide (mode s = CleanupOnly))
  || match cleanup s with Some o => orchestrator_shutdown_pending o | None => false end
  || negb (bool_decide (unresolved_create_labels s = ∅))
  || negb (bool_decide (known_contract_ids s ⊆ absent_ids)).

Definition record_cleanup_absence_change (absent_ids : gset N) (s : PaidAdmissionSnapshot)
    : Result Changed :=
  if cleanup_unproved absent_ids s
  then Err "cleanup cannot stop discovery without exact absence and resolved acceptance"
  else changed (set_cleanup s ((λ o, set_spending_stopped o true) <$> cleanup s)).

Definition complete_cleanup_change (absent_ids : gset N) (s : PaidAdmissionSnapshot) : Result Changed :=
  if cleanup_unproved absent_ids s
  then Err "paid cleanup lacks exact absence or authoritative acquisition accounting"
  else
    let accounting_failed := negb (bool_decide (accounting_errors s = ∅)) in
    Ok (set_cleanup s
          ((λ o, set_complete (set_spending_stopped o true) (negb accounting_failed)) <$> cleanup s),
        accounting_failed).

Definition reserve_create_change (run node attempt offer : N) (lab : string) (s : PaidAdmissionSnapshot)
    (now : N) : Result Changed :=
  if negb (run =? run_id s) then Err "paid create run identity mismatch"
  else
    match List.find (λ n, node_id n =? node) (nodes s) with
    | None => Err "paid create node was not selected"
    | Some n =>
        if negb (offer_id n =? offer) || negb (bool_decide (label n = lab))
        then Err "paid create offer or label differs from selected topology"
        else if bool_decide (is_Some (create_reservations s !! node))
        then Err "paid create slot is permanently consumed"
        else changed (set_create_reservations s
               (<[node := mkPaidCreateReservation attempt now]> (create_reservations s)))
    end.

Definition record_create_rejection_change (node : N) (s : PaidAdmissionSnapshot) : Result Changed :=
  if bool_decide (create_reservations s !! node = None) || bool_decide (is_Some (contracts s !! node))
  then Err "paid create rejection requires an unresolved consumed slot"
  else changed (set_rejected_creates s ({[node]} ∪ rejected_creates s)).

Definition record_contract_change (node contract : N) (s : PaidAdmissionSnapshot) : Result Changed :=
  if (contract =? 0) || bool_decide (create_reservations s !! node = None)
  then Err "paid contract requires a consumed create slot and nonzero id"
  else if bool_decide (node ∈ rejected_creates s)
  then Err "paid contract contradicts a definitive create rejection"
  else
    match contracts s !! node with
    | Some existing =>
        if existing =? contract then changed s else Err "paid contract mapping cannot change"
    | None =>
        if negb (bool_decide (map_Forall (λ _ existing, existing ≠ contract) (contracts s)))
        then Err "paid contract is already assigned to another node"
        else changed (set_contracts s (<[node := contract]> (contracts s)))
    end.

Definition reserve_bootstrap_change (run node : N) (s : PaidAdmissionSnapshot) (now : N)
    : Result Changed :=
  if negb (run_id s =? run) || bool_decide (contracts s !! node = None)
  then Err "paid bootstrap requires the exact run and a known contract"
  else
    match initial_bootstraps s !! node with
    | Some _ => Err "paid initial bootstrap slot is permanently consumed"
    | None =>
        changed (set_initial_bootstraps s
          (<[node := mkPaidBootstrapReservation now]> (initial_bootstraps s)))
    end.

Definition seal_prepared_change (s : PaidAdmissionSnapshot) : Result Changed :=
  if negb (Nat.eqb (size (contracts s)) 5) || negb (Nat.eqb (size (initial_bootstraps s)) 5)
  then Err "paid preparation needs five contracts and five initial bootstraps"
  else changed (set_mode s Prepared).

Definition enter_cleanup_only_change (s : PaidAdmissionSnapshot) : Result Changed :=
  changed (close_admission (λ o, set_shutdown_pending o false) s).

(** ** The transactions by name *)

Inductive Change :=
| Tick (identity : PaidProcessIdentity)
| InstallCleanupOwnership (new_runner : PaidProcessIdentity) (new_limits : PaidCleanupLimits)
| ClaimCleanupOwner (identity : PaidProcessIdentity)
| ClaimCleanupSupervisor (identity : PaidProcessIdentity)
| BeginCleanupShutdown (current_runner : PaidProcessIdentity)
| ReleaseCleanup (current_runner : PaidProcessIdentity)
| RequestCleanup
| IncludeCleanupOwnership (ids : gset N) (labels : gset string)
| BindOrchestrator (identity current_runner : PaidProcessIdentity)
| BindSelectedNodes (selected : list PaidNodeAdmission) (current_runner : PaidProcessIdentity)
| BeginOrchestratorRecovery (current_runner : PaidProcessIdentity)
| RetainDevelopmentFixture (explicitly_authorized : bool)
| AuthorizeRetainedDeployment (explicitly_authorized : bool) (deployment : DeploymentIdentity)
    (current_runner : PaidProcessIdentity)
| ReserveRetainedBootstrap (run node contract : N) (deployment : DeploymentIdentity)
    (current_orchestrator : PaidProcessIdentity)
| ReconcileCleanupDiscovery (discovered : gmap N string)
| RecordAccountingError (error : string)
| RecordCleanupAbsence (absent_ids : gset N)
| CompleteCleanup (absent_ids : gset N)
| ReserveCreate (run node attempt offer : N) (lab : string)
| RecordCreateRejection (node : N)
| RecordContract (node contract : N)
| ReserveBootstrap (run node : N)
| SealPrepared
| EnterCleanupOnly.

Definition perform (sys : Sys) (c : Change) (s : PaidAdmissionSnapshot) (now : N) : Result Changed :=
  match c with
  | Tick identity => tick_change sys identity s now
  | InstallCleanupOwnership r l => install_cleanup_ownership_change r l s now
  | ClaimCleanupOwner identity => claim_cleanup_owner_change identity s now
  | ClaimCleanupSupervisor identity => claim_cleanup_supervisor_change identity s
  | BeginCleanupShutdown r => begin_cleanup_shutdown_change sys r s now
  | ReleaseCleanup r => release_cleanup_change sys r s
  | RequestCleanup => request_cleanup_change s
  | IncludeCleanupOwnership ids labels => include_cleanup_ownership_change ids labels s
  | BindOrchestrator identity r => bind_orchestrator_change sys identity r s now
  | BindSelectedNodes selected r => bind_selected_nodes_change sys selected r s now
  | BeginOrchestratorRecovery r => begin_orchestrator_recovery_change sys r s now
  | RetainDevelopmentFixture b => retain_development_fixture_change sys b s now
  | AuthorizeRetainedDeployment b deployment r =>
      authorize_retained_deployment_change sys b deployment r s now
  | ReserveRetainedBootstrap run node contract deployment p =>
      reserve_retained_bootstrap_change sys run node contract deployment p s now
  | ReconcileCleanupDiscovery discovered => reconcile_cleanup_discovery_change discovered s
  | RecordAccountingError error => record_accounting_error_change error s
  | RecordCleanupAbsence absent => record_cleanup_absence_change absent s
  | CompleteCleanup absent => complete_cleanup_change absent s
  | ReserveCreate run node attempt offer lab => reserve_create_change run node attempt offer lab s now
  | RecordCreateRejection node => record_create_rejection_change node s
  | RecordContract node contract => record_contract_change node contract s
  | ReserveBootstrap run node => reserve_bootstrap_change run node s now
  | SealPrepared => seal_prepared_change s
  | EnterCleanupOnly => enter_cleanup_only_change s
  end.

(** The first argument of [update]: the transactions that admit provider work. *)
Definition admits_work (c : Change) : bool :=
  match c with ReserveCreate _ _ _ _ _ | ReserveBootstrap _ _ | SealPrepared => true | _ => false end.
