(* ===== verification/PaidStore.v ===== *)
(** * The durable admission record

    The storage and the methods of [PaidFixtureAdmission]
    ([crates/provisioning/src/paid_admission.rs]).  A state is a file that is replaced by renaming a
    synced temporary over it; which renames a loss of power can undo is explicit in [Disk].  The lock
    file makes [update] one transition; a method is a program of such transitions and of looks at the
    system, between which other processes act.

    How [serde_json] writes a record is the interface [SnapshotFormat]. *)

From S2P Require Import Prelude ProcessIdentity PaidAdmission.
#[local] Open Scope N_scope.

(** [serde_json::to_writer] and [from_reader] on the derived implementations. *)
Class SnapshotFormat := {
  Json : Type;
  to_writer : PaidAdmissionSnapshot → Json;
  from_reader : Json → Result PaidAdmissionSnapshot;
  reads_back s : from_reader (to_writer s) = Ok s;
}.

Section Store.
Context {F : SnapshotFormat}.

(** ** The directory *)

Inductive Contents := Partial | Whole (json : Json).

Record File := mkFile {
  contents : Contents;
  synced : bool;  (** [sync_all] returned *)
}.

(** [older] are the entries the state's name may have again after a loss of power: those it had since
    the directory was last synced.  The lock is the file identity of [.lock]. *)
Record Disk := mkDisk {
  state_file : option File;
  older : list (option File);
  temporary : option File;
  lock_file : option N;
  lock_durable : bool;
}.

Definition empty_disk : Disk := mkDisk None [] None None false.

Definition disk_eta (d : Disk) : Disk :=
  mkDisk (state_file d) (older d) (temporary d) (lock_file d) (lock_durable d).
Definition set_state_file (d : Disk) (v : option File) : Disk := ltac:(update_field disk_eta d state_file v).
Definition set_older (d : Disk) (v : list (option File)) : Disk := ltac:(update_field disk_eta d older v).
Definition set_temporary (d : Disk) (v : option File) : Disk := ltac:(update_field disk_eta d temporary v).
Definition set_lock_file (d : Disk) (v : option N) : Disk := ltac:(update_field disk_eta d lock_file v).
Definition set_lock_durable (d : Disk) (v : bool) : Disk := ltac:(update_field disk_eta d lock_durable v).

(** A call of the operating system that changes the directory unless it fails. *)
Definition attempt (sys : Sys) (step : IoStep) (failed done : Disk) (k : Disk → Disk * Result unit)
    : Disk * Result unit :=
  match io sys step with Some e => (failed, Err e) | None => k done end.

(** [sync_parent]: the names in the directory are durable. *)
Definition sync_directory (d : Disk) : Disk :=
  set_lock_durable (set_older d []) true.

Definition persist (sys : Sys) (s : PaidAdmissionSnapshot) (d : Disk) : Disk * Result unit :=
  let create d :=
    if bool_decide (is_Some (temporary d)) then (d, Err "paid admission storage")
    else
      attempt sys IoCreateTemporary d (set_temporary d (Some (mkFile Partial false))) (λ d,
      attempt sys IoWrite d (set_temporary d (Some (mkFile (Whole (to_writer s)) false))) (λ d,
      attempt sys IoFlush d d (λ d,
      attempt sys IoSync d
        (set_temporary d ((λ f, mkFile (contents f) true) <$> temporary d)) (λ d,
      attempt sys IoRename d
        (set_temporary (set_state_file (set_older d (state_file d :: older d)) (temporary d)) None) (λ d,
      attempt sys IoSyncParent d (sync_directory d) (λ d, (d, Ok tt))))))) in
  if bool_decide (is_Some (temporary d)) && bool_decide (io sys IoStatTemporary = None)
  then attempt sys IoRemoveTemporary d (set_temporary d None) create
  else create d.

Definition lock (sys : Sys) (handle : N) (d : Disk) : Result unit :=
  match io sys IoLock with
  | Some e => Err e
  | None =>
      match lock_file d with
      | None => Err "paid admission storage"
      | Some inode =>
          if negb (inode =? handle) then Err "paid admission lock inode changed" else Ok tt
      end
  end.

Definition migrate (s : PaidAdmissionSnapshot) : PaidAdmissionSnapshot :=
  if schema_version s <=? 2 then set_mode (set_schema_version s 3) CleanupOnly else s.

Definition load (sys : Sys) (d : Disk) : Result PaidAdmissionSnapshot :=
  match io sys IoOpenState with
  | Some e => Err e
  | None =>
      match state_file d with
      | None => Err "paid admission storage"
      | Some f =>
          match contents f with
          | Partial => Err "decode paid admission"
          | Whole json =>
              s <-! from_reader json;
              let s := migrate s in
              _ <-! validate s;
              Ok s
          end
      end
  end.

(** The checks of [update] on a transaction that admits work: let it pass, refuse it, or refuse it
    and make the refusal durable. *)
Inductive Gate := Pass | Refuse (e : string) | Close (e : string).

Definition work_gate (sys : Sys) (s : PaidAdmissionSnapshot) (now : N) : Gate :=
  let owner_live :=
    match cleanup s with
    | None => false
    | Some o =>
        live_at sys o now && live sys (runner o)
        && bool_decide (orchestrator_recovery_until_unix_ms o = None)
        && some_live sys (orchestrator o)
    end in
  if negb (bool_decide (mode s = Preparing)) then Refuse "paid admission is permanently deny-only"
  else if deadline_unix_ms s <=? now then Close "paid preparation deadline expired"
  else if negb owner_live
  then Close "paid work denied: durable cleanup owner is absent, stale or expired"
  else
    match owner_lock_held sys with
    | inr e => Refuse e
    | inl true => Pass
    | inl false => Close "paid work denied: durable cleanup owner is absent, stale or expired"
    end.

(** [change(&mut state, now)?; state.validate()?; self.persist(&state)] *)
Definition commit (sys : Sys) (c : Change) (s : PaidAdmissionSnapshot) (now : N) (d : Disk)
    : Disk * Result bool :=
  match perform sys c s now with
  | inr e => (d, Err e)
  | inl (s, flag) =>
      match validate s with
      | inr e => (d, Err e)
      | inl _ => let (d, r) := persist sys s d in (d, _ <-! r; Ok flag)
      end
  end.

Definition update (sys : Sys) (handle : N) (c : Change) (d : Disk) : Disk * Result bool :=
  match lock sys handle d with
  | inr e => (d, Err e)
  | inl _ =>
      match load sys d with
      | inr e => (d, Err e)
      | inl s =>
          match unix_ms sys with
          | inr e => (d, Err e)
          | inl now =>
              match (if admits_work c then work_gate sys s now else Pass) with
              | Refuse e => (d, Err e)
              | Close e =>
                  let (d, r) := persist sys (close_admission (λ o, set_shutdown_pending o false) s) d in
                  (d, _ <-! r; Err e)
              | Pass => commit sys c s now d
              end
          end
      end
  end.

Definition snapshot (sys : Sys) (handle : N) (d : Disk) : Result PaidAdmissionSnapshot :=
  _ <-! lock sys handle d; load sys d.

(** [initialize]: the new lock file gets the identity [inode]. *)
Definition initialize (sys : Sys) (inode : N) (s : PaidAdmissionSnapshot) (d : Disk) : Disk * Result unit :=
  match validate s with
  | inr e => (d, Err e)
  | inl _ =>
      attempt sys IoStatState d d (λ d,
      if bool_decide (is_Some (state_file d)) then (d, Err "paid admission state already exists")
      else if bool_decide (is_Some (lock_file d)) then (d, Err "paid admission storage")
      else
        attempt sys IoCreateLock d (set_lock_durable (set_lock_file d (Some inode)) false) (λ d,
        attempt sys IoLock d d (λ d,
        attempt sys IoSyncLock d d (λ d,
        attempt sys IoSyncLockParent d (sync_directory d) (λ d,
        persist sys s d)))))
  end.

Definition create (sys : Sys) (inode run : N) (selected : list PaidNodeAdmission) (deadline : N)
    (d : Disk) : Disk * Result unit :=
  match (_ <-! validate_nodes selected; unix_ms sys) with
  | inr e => (d, Err e)
  | inl now =>
      if deadline <=? now then (d, Err "paid admission requires a future deadline")
      else initialize sys inode (new_snapshot run selected Preparing deadline None) d
  end.

Definition create_cleanup_only (sys : Sys) (inode run deadline : N) (r : PaidProcessIdentity)
    (l : PaidCleanupLimits) (d : Disk) : Disk * Result unit :=
  match unix_ms sys with
  | inr e => (d, Err e)
  | inl now =>
      if deadline <=? now then (d, Err "paid admission requires a future deadline")
      else
        match new_cleanup_ownership r l deadline now with
        | inr e => (d, Err e)
        | inl o => initialize sys inode (new_snapshot run [] Selecting deadline (Some o)) d
        end
  end.

Definition open (sys : Sys) (d : Disk) : Result N :=
  match lock_file d with
  | None => Err "paid admission storage"
  | Some handle => _ <-! snapshot sys handle d; Ok handle
  end.

(** A loss of power: the state's name has one of the entries it may have, and what was not synced is
    damaged.  Whether what is not durable is still there is [keep_temporary] and [keep_lock]. *)
Definition damaged (f : File) : File := if synced f then f else mkFile Partial true.

Definition power_loss (choice : nat) (keep_temporary keep_lock : bool) (d : Disk) : Disk :=
  mkDisk (damaged <$> default (state_file d) (older d !! choice)) []
    (if keep_temporary then damaged <$> temporary d else None)
    (if lock_durable d || keep_lock then lock_file d else None) true.
End Store.
