(* ===== verification/PaidMethods.v ===== *)
(** * The methods of the admission record

    The public methods of [PaidFixtureAdmission] and [PaidCleanupOwner]
    ([crates/provisioning/src/paid_admission.rs]) as programs.  A node of a program is a look at the
    system, a locked read of the record or one locked transaction; between two nodes other processes
    may do anything. *)

From S2P Require Import Prelude ProcessIdentity PaidAdmission PaidStore.
#[local] Open Scope N_scope.

Inductive prog (A : Type) :=
| Ret (a : A)
| Look (B : Type) (f : Sys → B) (k : B → prog A)
| Snapshot (k : Result PaidAdmissionSnapshot → prog A)
| Update (c : Change) (k : Result bool → prog A).
Arguments Ret {A} _.
Arguments Look {A B} _ _.
Arguments Snapshot {A} _.
Arguments Update {A} _ _.

Fixpoint bind {A B} (p : prog A) (q : A → prog B) : prog B :=
  match p with
  | Ret a => q a
  | Look f k => Look f (λ b, bind (k b) q)
  | Snapshot k => Snapshot (λ r, bind (k r) q)
  | Update c k => Update c (λ r, bind (k r) q)
  end.

Definition try_bind {A B} (p : prog (Result A)) (q : A → prog (Result B)) : prog (Result B) :=
  bind p (λ r, match r with inl a => q a | inr e => Ret (Err e) end).
#[local] Notation "x <-? p ; q" := (try_bind p (λ x, q))
  (at level 100, p at next level, q at level 200, right associativity).

Definition look {B} (f : Sys → B) : prog B := Look f Ret.
Definition take_snapshot : prog (Result PaidAdmissionSnapshot) := Snapshot Ret.
Definition transact (c : Change) : prog (Result bool) := Update c Ret.
Definition fail {A} (e : string) : prog (Result A) := Ret (Err e).
Definition ok : prog (Result unit) := Ret (Ok tt).

(** A method that is one transaction whose flag it does not use. *)
Definition just (c : Change) : prog (Result unit) := _ <-? transact c; ok.

Definition require_live_cleanup_owner : prog (Result unit) :=
  let refuse := fail "paid work requires a live independent cleanup owner at original expiry" in
  s <-? take_snapshot;
  is_live <-? look (λ sys, Ok match cleanup s with
                             | Some o => live_at sys o (match unix_ms sys with inl t => t | inr _ => u64_max end)
                             | None => false
                             end);
  if is_live then
    active <-? look owner_lock_held;
    if active && bool_decide (mode s = Preparing ∨ mode s = Prepared) then ok else refuse
  else refuse.

Definition install_cleanup_ownership (r : PaidProcessIdentity) (l : PaidCleanupLimits) : prog (Result unit) :=
  just (InstallCleanupOwnership r l).

Definition claim_cleanup_owner : prog (Result PaidProcessIdentity) :=
  _ <-? look claim_owner_lock;
  identity <-? look current;
  _ <-? transact (ClaimCleanupOwner identity);
  Ret (Ok identity).

Definition claim_cleanup_supervisor : prog (Result unit) :=
  _ <-? look claim_supervisor_lock;
  identity <-? look current;
  just (ClaimCleanupSupervisor identity).

Definition tick (identity : PaidProcessIdentity) : prog (Result bool) :=
  _ <-? transact (Tick identity);
  s <-? take_snapshot;
  Ret (Ok (bool_decide (mode s = CleanupOnly)
           && match cleanup s with Some o => negb (orchestrator_shutdown_pending o) | None => true end)).

Definition begin_cleanup_shutdown : prog (Result unit) :=
  _ <-? require_live_cleanup_owner;
  r <-? look current;
  just (BeginCleanupShutdown r).

Definition release_cleanup_after_orchestrator_stopped : prog (Result unit) :=
  r <-? look current; just (ReleaseCleanup r).

Definition request_cleanup : prog (Result unit) := just RequestCleanup.

Definition include_cleanup_ownership (ids : gset N) (labels : gset string) : prog (Result unit) :=
  just (IncludeCleanupOwnership ids labels).

Definition enter_cleanup_only : prog (Result unit) := just EnterCleanupOnly.

Definition bind_orchestrator (p : N) : prog (Result unit) :=
  s <-? take_snapshot;
  let selecting := bool_decide (mode s = Selecting) in
  _ <-? (if selecting then
           active <-? look owner_lock_held;
           if active : bool then ok
           else _ <-? enter_cleanup_only; fail "orchestrator binding requires a live cleanup owner"
         else require_live_cleanup_owner);
  bind (look (λ sys, read (proc sys) p)) (λ found,
  match found with
  | inr e => if selecting then _ <-? enter_cleanup_only; fail e else fail e
  | inl identity =>
      r <-? look current;
      rejected_selecting <-? transact (BindOrchestrator identity r);
      if rejected_selecting : bool then fail "orchestrator binding closed presearch acquisition" else ok
  end).

Definition bind_selected_nodes (selected : list PaidNodeAdmission) : prog (Result unit) :=
  _ <-? Ret (validate_nodes selected);
  owner_active <-? look owner_lock_held;
  supervised <-? (if owner_active : bool then look supervisor_lock_held else Ret (Ok false));
  if negb (owner_active && supervised) then
    _ <-? enter_cleanup_only;
    fail "selected offers require live cleanup ownership and restart supervision"
  else
    r <-? look current;
    rejected <-? transact (BindSelectedNodes selected r);
    if rejected : bool then fail "selected offers require the original live cleanup ownership" else ok.

Definition begin_orchestrator_recovery : prog (Result unit) :=
  _ <-? require_live_cleanup_owner;
  r <-? look current;
  just (BeginOrchestratorRecovery r).

Definition retain_development_fixture (explicitly_authorized : bool) : prog (Result unit) :=
  _ <-? require_live_cleanup_owner;
  supervised <-? look supervisor_lock_held;
  if negb supervised then fail "retention requires an independent restart supervisor"
  else just (RetainDevelopmentFixture explicitly_authorized).

Definition authorize_retained_deployment (explicitly_authorized : bool) (deployment : DeploymentIdentity)
    : prog (Result unit) :=
  _ <-? Ret (validate_deployment_identity (identity_artifact_digest deployment)
               (deployment_generation deployment));
  _ <-? require_live_cleanup_owner;
  supervised <-? look supervisor_lock_held;
  if negb supervised then fail "retained deployment requires restart supervision"
  else
    r <-? look current;
    just (AuthorizeRetainedDeployment explicitly_authorized deployment r).

Definition reserve_retained_bootstrap (run node contract : N) (deployment : DeploymentIdentity)
    : prog (Result unit) :=
  _ <-? require_live_cleanup_owner;
  p <-? look current;
  just (ReserveRetainedBootstrap run node contract deployment p).

Definition reconcile_cleanup_discovery (discovered : gmap N string) : prog (Result unit) :=
  just (ReconcileCleanupDiscovery discovered).

Definition record_cleanup_accounting_error (error : string) : prog (Result unit) :=
  just (RecordAccountingError error).

Definition record_cleanup_absence (absent : gset N) : prog (Result unit) :=
  just (RecordCleanupAbsence absent).

Definition complete_cleanup (absent : gset N) : prog (Result unit) :=
  accounting_failed <-? transact (CompleteCleanup absent);
  if accounting_failed : bool then fail "paid cleanup lacks authoritative acquisition accounting" else ok.

Definition reserve_create (run node attempt offer : N) (lab : string) : prog (Result unit) :=
  just (ReserveCreate run node attempt offer lab).

Definition record_create_rejection (node : N) : prog (Result unit) := just (RecordCreateRejection node).

Definition record_contract (node contract : N) : prog (Result unit) := just (RecordContract node contract).

Definition reserve_bootstrap (run node : N) : prog (Result unit) := just (ReserveBootstrap run node).

Definition seal_prepared : prog (Result unit) := just SealPrepared.
