(* ===== verification/PaidRecord.v ===== *)
(** * What a transaction may change

    The transactions of [paid_admission.rs] only add to the record: slots stay consumed, contracts stay
    known, limits and deadlines do not move, and the mode only goes forward ([evolves]).  What they
    store passes [validate], so the record can always be loaded again. *)

From S2P Require Import Prelude ProcessIdentity PaidAdmission PaidStore.
#[local] Open Scope N_scope.

(** ** Growth *)

Definition mode_rank (m : PaidAdmissionMode) : nat :=
  match m with Selecting => 0 | Preparing => 1 | Prepared => 2 | CleanupOnly => 3 end.

(** The part of an ownership that is fixed when it is installed. *)
Definition same_terms (o o' : PaidCleanupOwnership) : Prop :=
  limits o' = limits o ∧ started_unix_ms o' = started_unix_ms o ∧ stop_unix_ms o' = stop_unix_ms o.

Definition deployment_grows (d d' : PaidRetainedDeployment) : Prop :=
  artifact_digest d' = artifact_digest d ∧ d_contracts d' = d_contracts d ∧ d_runner d' = d_runner d
  ∧ (∀ p, d_orchestrator d = Some p → d_orchestrator d' = Some p) ∧ bootstraps d ⊆ bootstraps d'.

Record evolves (s s' : PaidAdmissionSnapshot) : Prop := mkEvolves {
  ev_run : run_id s' = run_id s;
  ev_deadline : deadline_unix_ms s' = deadline_unix_ms s;
  ev_nodes : nodes s ≠ [] → nodes s' = nodes s;
  ev_create : create_reservations s ⊆ create_reservations s';
  ev_contracts : contracts s ⊆ contracts s';
  ev_rejected : rejected_creates s ⊆ rejected_creates s';
  ev_bootstraps : initial_bootstraps s ⊆ initial_bootstraps s';
  ev_discovered : dom (discovered_contracts s) ⊆ dom (discovered_contracts s');
  ev_errors : accounting_errors s ⊆ accounting_errors s';
  ev_recovery : recovery_contract_ids s ⊆ recovery_contract_ids s'
                ∧ recovery_labels s ⊆ recovery_labels s';
  ev_retained : ∀ g d, retained_deployments s !! g = Some d →
                ∃ d', retained_deployments s' !! g = Some d' ∧ deployment_grows d d';
  ev_mode : (mode_rank (mode s) ≤ mode_rank (mode s'))%nat;
  ev_cleanup : ∀ o, cleanup s = Some o → ∃ o', cleanup s' = Some o' ∧ same_terms o o';
}.

Lemma same_terms_refl o : same_terms o o.
Proof. done. Qed.

Lemma deployment_grows_refl d : deployment_grows d d.
Proof. by repeat split. Qed.

Lemma deployment_grows_trans d1 d2 d3 :
  deployment_grows d1 d2 → deployment_grows d2 d3 → deployment_grows d1 d3.
Proof.
  intros (?&?&?&Ho1&Hb1) (?&?&?&Ho2&Hb2). repeat split; try congruence; [by intros p ?%Ho1%Ho2|].
  by etrans.
Qed.

#[export] Instance evolves_refl : Reflexive evolves.
Proof.
  intros s. split; try done; [by intros g d ->; eauto using deployment_grows_refl
                             |by intros o ->; eauto using same_terms_refl].
Qed.

#[export] Instance evolves_trans : Transitive evolves.
Proof.
  intros s1 s2 s3 [] []. split; try congruence; try (by etrans).
  - intros Hn. rw ev_nodes1; [by rw ev_nodes0|]. auto.
  - destruct ev_recovery0, ev_recovery1. split; by etrans.
  - intros g d Hd. destruct (ev_retained0 g d Hd) as (d' & Hd' & G).
    destruct (ev_retained1 g d' Hd') as (d'' & Hd'' & G'). eauto using deployment_grows_trans.
  - intros o Ho. destruct (ev_cleanup0 o Ho) as (o' & Ho' & T).
    destruct (ev_cleanup1 o' Ho') as (o'' & Ho'' & T'). exists o''. split; [done|].
    rw /same_terms in T T' |- *. destruct T as (?&?&?), T' as (?&?&?). repeat split; congruence.
Qed.

(** The updates the transactions are made of. *)
Section Updates.
Context (s : PaidAdmissionSnapshot).

Lemma ev_set_mode m : (mode_rank (mode s) ≤ mode_rank m)%nat → evolves s (set_mode s m).
Proof. intros. destruct (evolves_refl s). by split. Qed.

Lemma ev_set_cleanup o o' : cleanup s = Some o → same_terms o o' → evolves s (set_cleanup s (Some o')).
Proof.
  intros Ho T. destruct (evolves_refl s). split; try done.
  intros x Hx. rw Ho in Hx. injection Hx as <-. cbn. eauto.
Qed.

Lemma ev_fmap_cleanup f :
  (∀ o, same_terms o (f o)) → evolves s (set_cleanup s (f <$> cleanup s)).
Proof.
  intros T. destruct (evolves_refl s). split; try done. intros x Hx. rw /= Hx /=. eauto.
Qed.

Lemma ev_close f : (∀ o, same_terms o (f o)) → evolves s (close_admission f s).
Proof.
  intros T. rw /close_admission. destruct (evolves_refl s). split; try done.
  - cbn. destruct (mode s); cbn; lia.
  - intros x Hx. rw /= Hx /=. eauto.
Qed.
End Updates.

(** Follow the branches of a closure that returned [Ok]. *)
Ltac head_case H :=
  match type of H with
  | (match ?x with _ => _ end) = _ => destruct x eqn:?; try discriminate H
  end.
Ltac follow H := repeat head_case H; rw /changed in H; simplify_eq H.

Lemma live_cleanup_some sys s now o :
  live_cleanup sys s now = Some o → cleanup s = Some o ∧ live_at sys o now = true.
Proof.
  rw /live_cleanup. destruct (cleanup s) as [o'|]; [|done]. cbn.
  destruct (live_at sys o' now) eqn:E; [|done]. by intros [= <-].
Qed.

(** A discovered contract is mapped to its node, or noted as an error. *)
Lemma discover_cases s contract l s' :
  discover s contract l = Ok s' →
  let d := set_discovered_contracts s (<[contract := l]> (discovered_contracts s)) in
  (∃ e, s' = (set_accounting_errors d ({[e]} ∪ accounting_errors s)))
  ∨ ∃ node, node ∈ nodes s ∧ label node = l ∧ is_Some (create_reservations s !! node_id node)
      ∧ (node_id node ∉ rejected_creates s)
      ∧ (∀ old, contracts s !! node_id node = Some old → old = contract)
      ∧ (∀ id, contracts s !! id = Some contract → id = node_id node)
      ∧ s' = set_contracts d (<[node_id node := contract]> (contracts s)).
Proof.
  intros H d. rw /discover in H. head_case H.
  - match type of H with (if ?b then _ else _) = _ => destruct b eqn:Hb end; injection H as <-; [eauto|].
    right. exists p. apply find_some in Heqo as [Hin Hl]. bool_to_prop. cbn in *.
    split; [by apply list_elem_of_In|]. split; [done|]. split; [by apply not_eq_None_Some|].
    split; [done|]. split; [|split; [|done]].
    + intros old Ho. match goal with H : match contracts s !! _ with _ => _ end = _ |- _ => rw Ho in H end.
      by bool_to_prop.
    + intros id Hid. by destruct (H0 id contract Hid).
  - head_case H. injection H as <-. eauto.
Qed.

Lemma discover_evolves s contract l s' : discover s contract l = Ok s' → evolves s s'.
Proof.
  intros [[e ->]|(node & _ & _ & _ & _ & Hold & _ & ->)]%discover_cases;
    destruct (evolves_refl s); split; try done; cbn; try (rw dom_insert_L; apply union_subseteq_r).
  - apply union_subseteq_r.
  - apply map_subseteq_spec. intros id c Hc.
    destruct (decide (id = node_id node)) as [->|]; [|by rw lookup_insert_ne].
    rw lookup_insert_eq. f_equal. symmetry. eauto.
Qed.

Lemma discover_all_evolves l s s' : discover_all s l = Ok s' → evolves s s'.
Proof.
  revert s. induction l as [|[contract lab] l IH]; cbn; intros s H; [by injection H as <-|].
  head_case H. etrans; [by eapply discover_evolves|eauto].
Qed.

Lemma close_owned_evolves s f g :
  (∀ o, same_terms o (f o)) → (∀ o, same_terms o (g o)) → ∀ b : bool,
  evolves s (let s := if b then close_admission f s else s in set_cleanup s (g <$> cleanup s)).
Proof. intros Hf Hg []; [etrans; [by apply (ev_close s f)|]|]; by apply ev_fmap_cleanup. Qed.

Lemma bind_deployment_grows p r d : deployment_grows d (bind_deployment p r d).
Proof.
  rw /bind_deployment. destruct (_ && _) eqn:E; [|apply deployment_grows_refl]. bool_to_prop.
  repeat split; try done. cbn. congruence.
Qed.

Lemma ev_set_retained s m :
  (∀ g d, retained_deployments s !! g = Some d → ∃ d', m !! g = Some d' ∧ deployment_grows d d') →
  evolves s (set_retained_deployments s m).
Proof. intros. destruct (evolves_refl s). by split. Qed.

Lemma ev_insert_retained s g d :
  (∀ old, retained_deployments s !! g = Some old → deployment_grows old d) →
  evolves s (set_retained_deployments s (<[g := d]> (retained_deployments s))).
Proof.
  intros Hold. apply ev_set_retained. intros g' d' Hd'. destruct (decide (g' = g)) as [->|].
  - exists d. rw lookup_insert_eq. eauto.
  - exists d'. by rw lookup_insert_ne.
Qed.

Section Growth.
Context (sys : Sys) (s : PaidAdmissionSnapshot) (now : N) (s' : PaidAdmissionSnapshot) (flag : bool).

Lemma tick_evolves p : tick_change sys p s now = Ok (s', flag) → evolves s s'.
Proof.
  rw /tick_change. intros H. do 2 head_case H.
  match type of H with (if ?b then _ else _) = _ => destruct b end; injection H as <- <-.
  - etrans; [apply (ev_set_mode s CleanupOnly); destruct (mode s); cbn; lia|]. by eapply ev_set_cleanup.
  - by eapply ev_set_cleanup.
Qed.

Lemma install_evolves r l : install_cleanup_ownership_change r l s now = Ok (s', flag) → evolves s s'.
Proof.
  rw /install_cleanup_ownership_change. intros H. do 2 head_case H. injection H as <- <-.
  assert (cleanup s = None) as Hc by done.
  case_bool_decide; destruct (evolves_refl s); split; try done; cbn; try (by rw Hc).
  destruct (mode s); cbn; lia.
Qed.

Lemma bind_orchestrator_evolves p r : bind_orchestrator_change sys p r s now = Ok (s', flag) → evolves s s'.
Proof.
  rw /bind_orchestrator_change. intros H. head_case H.
  - apply live_cleanup_some in Heqo as [Ho _]. head_case H; [head_case H|]; injection H as <- <-.
    + by apply ev_close.
    + etrans; [|eapply ev_set_cleanup; [exact Ho|done]].
      apply ev_set_retained. intros g d Hd. rw lookup_fmap Hd. eauto using bind_deployment_grows.
  - head_case H. injection H as <- <-. apply ev_set_mode. destruct (mode s); cbn; lia.
Qed.

Lemma bind_nodes_evolves l r : bind_selected_nodes_change sys l r s now = Ok (s', flag) → evolves s s'.
Proof.
  rw /bind_selected_nodes_change. intros H. head_case H. bool_to_prop.
  head_case H; injection H as <- <-; [by apply ev_close|].
  assert (mode s = Selecting) as Hm by done. assert (nodes s = []) as Hn by done.
  destruct (evolves_refl s). split; try done. cbn. rw Hm. cbn. lia.
Qed.
End Growth.

(** Every transaction only adds to the record. *)
Lemma perform_evolves sys c s now s' flag :
  (admits_work c = true → mode s = Preparing) → perform sys c s now = Ok (s', flag) → evolves s s'.
Proof.
  intros Hgate. destruct c; cbn [perform]; intros H.
  - by eapply tick_evolves.
  - by eapply install_evolves.
  - rw /claim_cleanup_owner_change in H. head_case H; injection H as <- <-.
    + by apply close_owned_evolves.
    + apply ev_set_mode. destruct (mode s); cbn; lia.
  - rw /claim_cleanup_supervisor_change in H. head_case H. injection H as <- <-. by apply close_owned_evolves.
  - rw /begin_cleanup_shutdown_change in H. do 2 head_case H. injection H as <- <-. by apply ev_close.
  - rw /release_cleanup_change in H. repeat head_case H; injection H as <- <-; [done|by eapply ev_set_cleanup..].
  - injection H as <- <-. by apply ev_close.
  - rw /include_cleanup_ownership_change in H. head_case H. injection H as <- <-.
    destruct (evolves_refl s). split; try done. cbn. split; apply union_subseteq_l.
  - by eapply bind_orchestrator_evolves.
  - by eapply bind_nodes_evolves.
  - rw /begin_orchestrator_recovery_change in H. do 2 head_case H. injection H as <- <-.
    apply live_cleanup_some in Heqo as [Ho _]. by eapply ev_set_cleanup.
  - rw /retain_development_fixture_change in H. do 3 head_case H. injection H as <- <-.
    apply live_cleanup_some in Heqo as [Ho _]. by eapply ev_set_cleanup.
  - rw /authorize_retained_deployment_change in H. do 2 head_case H. injection H as <- <-.
    bool_to_prop. apply ev_insert_retained. intros old Hold. destruct H1. eauto.
  - rw /reserve_retained_bootstrap_change in H. do 5 head_case H. injection H as <- <-.
    apply ev_insert_retained. intros old Hold. rw Heqo0 in Hold. injection Hold as <-.
    repeat split; try done. cbn. by apply insert_subseteq.
  - rw /reconcile_cleanup_discovery_change in H. head_case H. injection H as <- <-.
    by eapply discover_all_evolves.
  - injection H as <- <-. destruct (evolves_refl s). split; try done. cbn. apply union_subseteq_r.
  - rw /record_cleanup_absence_change in H. head_case H. injection H as <- <-. by apply ev_fmap_cleanup.
  - rw /complete_cleanup_change in H. head_case H. injection H as <- <-. by apply ev_fmap_cleanup.
  - rw /reserve_create_change in H. do 4 head_case H. injection H as <- <-. bool_to_prop.
    destruct (evolves_refl s). split; try done. cbn. apply insert_subseteq. by apply eq_None_not_Some.
  - rw /record_create_rejection_change in H. head_case H. injection H as <- <-.
    destruct (evolves_refl s). split; try done. cbn. apply union_subseteq_r.
  - rw /record_contract_change in H. repeat head_case H; injection H as <- <-; [done|]. destruct (evolves_refl s). split; try done. cbn. by apply insert_subseteq.
  - rw /reserve_bootstrap_change in H. do 2 head_case H. injection H as <- <-.
    destruct (evolves_refl s). split; try done. cbn. by apply insert_subseteq.
  - rw /seal_prepared_change in H. head_case H. injection H as <- <-. apply ev_set_mode. rw Hgate //. cbn. lia.
  - injection H as <- <-. by apply ev_close.
Qed.

(** ** Well-formed records *)

Definition deployment_ok (s : PaidAdmissionSnapshot) (g : string) (d : PaidRetainedDeployment) : Prop :=
  validate_deployment_identity (artifact_digest d) g = Ok tt ∧ d_contracts d = contracts s
  ∧ size (d_contracts d) = 5%nat
  ∧ map_Forall (λ node reservation, is_Some (d_contracts d !! node)
                 ∧ b_reserved_unix_ms reservation < deadline_unix_ms s) (bootstraps d).

Record Valid (s : PaidAdmissionSnapshot) : Prop := mkValid {
  va_schema : schema_version s = 3;
  va_phase : validate_phase s = Ok tt;
  va_deadline : deadline_unix_ms s ≠ 0;
  va_recovery : (0 ∉ recovery_contract_ids s) ∧ set_Forall (λ l, valid_label l = true) (recovery_labels s);
  va_limits : ∀ o, cleanup s = Some o → valid_limits s o = true;
  va_create : map_Forall (λ id r, has_node s id = true ∧ reserved_unix_ms r < deadline_unix_ms s)
                (create_reservations s);
  va_rejected : set_Forall (λ id, is_Some (create_reservations s !! id) ∧ contracts s !! id = None)
                  (rejected_creates s);
  va_contracts : map_Forall (λ id c, is_Some (create_reservations s !! id) ∧ c ≠ 0) (contracts s);
  va_distinct : ∀ i j c, contracts s !! i = Some c → contracts s !! j = Some c → i = j;
  va_bootstraps : map_Forall (λ id r, is_Some (contracts s !! id)
                    ∧ b_reserved_unix_ms r < deadline_unix_ms s) (initial_bootstraps s);
  va_retained : map_Forall (deployment_ok s) (retained_deployments s);
  va_prepared : mode s = Prepared → size (contracts s) = 5%nat ∧ size (initial_bootstraps s) = 5%nat;
}.

Lemma NoDup_btree_values (m : gmap N N) :
  NoDup (btree_values m) ↔ ∀ i j c, m !! i = Some c → m !! j = Some c → i = j.
Proof.
  rw /btree_values. split.
  - intros Hnd i j c Hi Hj. apply elem_of_btree_entries in Hi, Hj.
    apply list_elem_of_lookup_1 in Hi as [x Hx], Hj as [y Hy].
    assert (x = y) as ->; [|by rw Hx in Hy; injection Hy].
    eapply (NoDup_lookup _ x y c Hnd); by rw list_lookup_fmap ?Hx ?Hy.
  - intros Hinj. pose proof (btree_entries_nodup m) as Hk.
    assert (∀ e, e ∈ btree_entries m → m !! e.1 = Some e.2) as Hin
      by (intros [i x]; apply elem_of_btree_entries).
    induction (btree_entries m) as [|[i c] l IH]; [constructor|].
    apply NoDup_cons in Hk as [Hi Hk]. cbn. constructor.
    + intros [[j c'] [-> Hj]]%list_elem_of_fmap. apply Hi.
      pose proof (Hin (i, c') ltac:(left)) as H1. pose proof (Hin (j, c') ltac:(by right)) as H2.
      cbn in *. rw (Hinj _ _ _ H1 H2). apply list_elem_of_fmap. by exists (j, c').
    + apply IH; [done|]. intros e He. apply Hin. by right.
Qed.

Lemma validate_retained_ok s l :
  validate_retained s l = Ok tt ↔ ∀ g d, (g, d) ∈ l → deployment_ok s g d.
Proof.
  induction l as [|[g d] l IH]; cbn; [split; [by intros _ ? ? ?%elem_of_nil|done]|].
  destruct (validate_deployment_identity _ _) as [[]|e] eqn:Hid.
  - match goal with |- context [if ?b then _ else _] => destruct b eqn:Hb end.
    + split; [done|]. intros Hall. destruct (Hall g d ltac:(left)) as (_ & H1 & H2 & H3).
      by rw (bool_decide_true (d_contracts d = contracts s) H1) H2 bool_decide_true in Hb.
    + rw IH. bool_to_prop. split.
      * intros Hl g' d' [[= -> ->]|]%elem_of_cons; [by rw /deployment_ok; split_and!|eauto].
      * intros Hl g' d' ?. apply Hl. by right.
  - split; [done|]. intros Hall. destruct (Hall g d ltac:(left)) as [H1 _]. by rw Hid in H1.
Qed.

Lemma elem_of_string_entries {V} (m : gmap string V) g d : (g, d) ∈ string_entries m ↔ m !! g = Some d.
Proof. by rw /string_entries elem_of_sort_by elem_of_map_to_list. Qed.

Lemma guard_ok {A} (b : bool) (e : string) (k : Result A) (a : A) :
  (if b then Err e else k) = Ok a ↔ b = false ∧ k = Ok a.
Proof. destruct b; naive_solver. Qed.

Lemma then_ok {A} (r : Result unit) (k : Result A) (a : A) :
  (_ <-! r; k) = Ok a ↔ r = Ok tt ∧ k = Ok a.
Proof. destruct r as [[]|]; naive_solver. Qed.

(** [validate] decides [Valid]. *)
Lemma validate_ok s : validate s = Ok tt ↔ Valid s.
Proof.
  rw /validate !(guard_ok, then_ok) validate_retained_ok.
  rw !(orb_false_iff, negb_false_iff, bool_decide_eq_true, bool_decide_eq_false, N.eqb_eq, N.eqb_neq).
  rw NoDup_btree_values. split.
  - intros (?&?&?&[]&Hl&?&?&[]&?&Hr&Hp&_). split; try done.
    + intros o Ho. rw Ho in Hl. by apply negb_false_iff in Hl.
    + intros g d Hd. apply Hr. by apply elem_of_string_entries.
    + intros Hm. rw Hm /= in Hp. by bool_to_prop.
  - intros []. destruct va_recovery0. split_and!; try done.
    + destruct (cleanup s) as [o|]; [|done]. rw va_limits0 //.
    + intros g d ?%elem_of_string_entries. by apply va_retained0.
    + case_bool_decide as Hm; [|done]. by destruct (va_prepared0 Hm) as [-> ->].
Qed.

Definition quiet (o : PaidCleanupOwnership) : Prop :=
  complete o = false ∧ spending_stopped o = false ∧ retained_development_fixture o = false
  ∧ orchestrator_recovery_until_unix_ms o = None ∧ orchestrator_shutdown_pending o = false.

(** A record without nodes has consumed nothing, and while it is selecting nothing has happened. *)
Definition acquisition_free (s : PaidAdmissionSnapshot) : Prop :=
  (mode s = Selecting ∨ mode s = CleanupOnly) ∧ is_Some (cleanup s) ∧ contracts s = ∅
  ∧ create_reservations s = ∅ ∧ rejected_creates s = ∅ ∧ initial_bootstraps s = ∅
  ∧ retained_deployments s = ∅
  ∧ (mode s = Selecting → discovered_contracts s = ∅ ∧ accounting_errors s = ∅
       ∧ recovery_contract_ids s = ∅ ∧ recovery_labels s = ∅ ∧ ∀ o, cleanup s = Some o → quiet o).

Lemma phase_ok s :
  validate_phase s = Ok tt ↔
  match nodes s with
  | [] => acquisition_free s
  | l => validate_nodes l = Ok tt ∧ mode s ≠ Selecting
  end.
Proof.
  rw /validate_phase. destruct (nodes s) as [|n l].
  - rw !guard_ok !(orb_false_iff, negb_false_iff, bool_decide_eq_true, bool_decide_eq_false).
    rw /acquisition_free. split.
    + intros (((((((Hm & Hc) & H1) & H2) & H3) & H4) & H5) & Hs & _). split_and!; try done.
      { by apply not_eq_None_Some. }
      intros Hsel. rw Hsel bool_decide_true //= in Hs. bool_to_prop. split_and!; try done.
      intros o Ho. match goal with H : match cleanup s with _ => _ end = _ |- _ => rw Ho in H end.
      by bool_to_prop.
    + intros (Hm & Hc & H1 & H2 & H3 & H4 & H5 & Hs). split_and!; try done.
      { by apply not_eq_None_Some. }
      case_bool_decide as Hsel; [|done]. destruct (Hs Hsel) as (H6 & H7 & H8 & H9 & Ho).
      rw H6 H7 H8 H9 !bool_decide_true //=. destruct (cleanup s) as [o|]; [|done].
      destruct (Ho o eq_refl) as (-> & -> & -> & -> & ->). done.
  - rw then_ok guard_ok bool_decide_eq_false. naive_solver.
Qed.

Definition pending_ok (s : PaidAdmissionSnapshot) (o : PaidCleanupOwnership) : Prop :=
  orchestrator_shutdown_pending o = true →
  mode s = CleanupOnly ∧ orchestrator o ≠ None ∧ complete o = false ∧ spending_stopped o = false
  ∧ retained_development_fixture o = false.

Lemma valid_limits_ok s o :
  valid_limits s o = true ↔
  (stop_unix_ms o ≤ deadline_unix_ms s ∧ started_unix_ms o < stop_unix_ms o
   ∧ maximum_cost_microusd (limits o) ≠ 0 ∧ hourly_price_microusd (limits o) ≠ 0)
  ∧ pending_ok s o.
Proof.
  rw /valid_limits negb_true_iff /pending_ok
    !(orb_false_iff, N.ltb_ge, N.leb_gt, N.eqb_neq, andb_false_iff).
  rw !(orb_false_iff, negb_false_iff, bool_decide_eq_true, bool_decide_eq_false).
  destruct (orchestrator_shutdown_pending o); naive_solver.
Qed.

(** Changes of the mode and of the ownership alone. *)
Lemma valid_owner s m c :
  Valid s → (m = mode s ∨ m = CleanupOnly) → (is_Some (cleanup s) → is_Some c) →
  (mode s = Selecting → m = Selecting → ∀ o, cleanup s = Some o → quiet o → ∀ o', c = Some o' → quiet o') →
  (∀ o', c = Some o' → (∃ o, cleanup s = Some o ∧ same_terms o o')
                       ∧ pending_ok (set_mode s m) o') →
  Valid (set_cleanup (set_mode s m) c).
Proof.
  intros [] Hm Hsome Hq Hc. split; try done.
  - apply phase_ok. apply phase_ok in va_phase0. cbn. destruct (nodes s) as [|n l].
    + destruct va_phase0 as (Hmode & Hcl & H1 & H2 & H3 & H4 & H5 & Hs).
      split_and!; cbn; try done; [destruct Hm as [->| ->]; tauto|auto|].
      intros ->. destruct Hm as [Hm|]; [|done]. destruct (Hs (eq_sym Hm)) as (H6 & H7 & H8 & H9 & Ho).
      split_and!; try done. intros o' Ho'. destruct Hcl as [o Hcl]. eauto.
    + cbn. destruct va_phase0 as [? Hns]. split; [done|]. by destruct Hm as [->| ->].
  - intros o' Ho'. destruct (Hc o' Ho') as [(o & Ho & El & Es & Et) Hp]. apply valid_limits_ok.
    destruct (proj1 (valid_limits_ok s o) (va_limits0 o Ho)) as [Ht _]. cbn. rw El Es Et. by split.
  - cbn. intros ->. destruct Hm as [Hm|]; [|done]. by apply va_prepared0.
Qed.

Lemma valid_set_cleanup s o o' :
  Valid s → cleanup s = Some o → same_terms o o' → (quiet o → quiet o') → pending_ok s o' →
  Valid (set_cleanup s (Some o')).
Proof.
  intros Hv Ho Ht Hq Hp. assert (set_cleanup s (Some o') = set_cleanup (set_mode s (mode s)) (Some o'))
    as -> by (by destruct s). apply valid_owner; try done; [by left| |].
  - intros _ _ x Hx Hqx y [= <-]. rw Ho in Hx. injection Hx as <-. auto.
  - intros y [= <-]. split; [eauto|]. by destruct s.
Qed.

Lemma valid_pending s o : Valid s → cleanup s = Some o → pending_ok s o.
Proof. intros Hv Ho. by apply (proj1 (valid_limits_ok s o) (va_limits s Hv o Ho)). Qed.

Lemma valid_close s f :
  Valid s → (∀ o, same_terms o (f o)) →
  (∀ o, pending_ok s o → pending_ok (set_mode s CleanupOnly) (f o)) → Valid (close_admission f s).
Proof.
  intros Hv Ht Hp. apply valid_owner; try done; [by right|by destruct (cleanup s)|].
  intros o' Ho'. destruct (cleanup s) as [o|] eqn:Ho; [|done]. injection Ho' as <-.
  split; [eauto|]. apply Hp. by eapply valid_pending.
Qed.

(** Selected nodes stay as they were validated. *)
Lemma phase_with_nodes s s' :
  Valid s → nodes s ≠ [] → nodes s' = nodes s → (mode s' = mode s ∨ mode s' ≠ Selecting) →
  validate_phase s' = Ok tt.
Proof.
  intros [_ Hph%phase_ok] Hn En Hm. apply phase_ok. rw En. destruct (nodes s); [done|].
  destruct Hph as [? ?]. split; [done|]. destruct Hm as [->|]; done.
Qed.

Lemma valid_has_nodes s id : Valid s → is_Some (create_reservations s !! id) → nodes s ≠ [].
Proof.
  intros Hv [r Hr]. destruct (va_create s Hv id r Hr) as [Hn _]. rw /has_node in Hn. by destruct (nodes s).
Qed.

Lemma valid_size5_nodes s : Valid s → size (contracts s) = 5%nat → nodes s ≠ [].
Proof.
  intros Hv H5. destruct (map_choose (contracts s)) as (id & c & Hc).
  { intros E. by rw E map_size_empty in H5. }
  eapply valid_has_nodes; [done|]. by apply (va_contracts s Hv id c Hc).
Qed.

(** The nodes of a record are five, with distinct ids, offers and labels. *)
Lemma distinct_nodes_spec ids offers hosts labels l :
  distinct_nodes ids offers hosts labels l = true →
  NoDup (node_id <$> l) ∧ NoDup (offer_id <$> l) ∧ NoDup (label <$> l)
  ∧ ∀ n, n ∈ l → (node_id n ∉ ids) ∧ (offer_id n ∉ offers) ∧ (label n ∉ labels).
Proof.
  revert ids offers hosts labels. induction l as [|n l IH]; cbn; intros ids offers hosts labels H.
  { split_and!; [constructor..|]. by intros ? ?%elem_of_nil. }
  head_case H. bool_to_prop. destruct (IH _ _ _ _ H) as (Hi & Ho & Hl & Hall).
  split_and!; [constructor; [|done]..|].
  - intros (m & E & (Hm & _ & _)%Hall)%list_elem_of_fmap. apply Hm. rw E elem_of_union elem_of_singleton. by left.
  - intros (m & E & (_ & Hm & _)%Hall)%list_elem_of_fmap. apply Hm. rw E elem_of_union elem_of_singleton. by left.
  - intros (m & E & (_ & _ & Hm)%Hall)%list_elem_of_fmap. apply Hm. rw E elem_of_union elem_of_singleton. by left.
  - intros m [->|Hm]%elem_of_cons; [done|]. destruct (Hall m Hm) as (H1' & H2' & H3').
    rw !elem_of_union in H1' H2' H3'. tauto.
Qed.

Lemma validate_nodes_spec l :
  validate_nodes l = Ok tt →
  length l = 5%nat ∧ NoDup (node_id <$> l) ∧ NoDup (offer_id <$> l) ∧ NoDup (label <$> l).
Proof.
  rw /validate_nodes. intros H. do 2 head_case H. bool_to_prop.
  by destruct (distinct_nodes_spec _ _ _ _ _ Heqb0) as (? & ? & ? & _).
Qed.
