(* ===== verification/PaidValid.v ===== *)
(** * Transactions keep the record well formed

    Every transaction of [paid_admission.rs] takes a record that passes [validate] to one that passes
    it, so the second validation in [update] never refuses a change that its closure has made. *)

From S2P Require Import Prelude ProcessIdentity PaidAdmission PaidStore PaidRecord.
#[local] Open Scope N_scope.

(** What the methods check before the transaction, and the phase in which recovery may be recorded. *)
Definition well_called (c : Change) (s : PaidAdmissionSnapshot) : Prop :=
  match c with
  | BindSelectedNodes l _ => validate_nodes l = Ok tt
  | AuthorizeRetainedDeployment _ d _ =>
      validate_deployment_identity (identity_artifact_digest d) (deployment_generation d) = Ok tt
  | IncludeCleanupOwnership _ _ | RecordAccountingError _ => mode s ≠ Selecting
  | ReconcileCleanupDiscovery discovered => discovered !! 0 = None
  | _ => True
  end.

Lemma bind_deployment_keeps p r d :
  artifact_digest (bind_deployment p r d) = artifact_digest d
  ∧ d_contracts (bind_deployment p r d) = d_contracts d
  ∧ bootstraps (bind_deployment p r d) = bootstraps d.
Proof. rw /bind_deployment. by destruct (bool_decide _ && bool_decide _). Qed.

Section Preservation.
Context (sys : Sys) (s : PaidAdmissionSnapshot) (now : N) (s' : PaidAdmissionSnapshot) (flag : bool).
Context (Hv : Valid s).

(** Without selected nodes there is an ownership. *)
Lemma unowned_nodes : cleanup s = None → nodes s ≠ [] ∧ mode s ≠ Selecting.
Proof.
  intros Hc. pose proof (proj1 (phase_ok s) (va_phase s Hv)) as Hph.
  destruct (nodes s); [|by destruct Hph]. destruct Hph as (_ & [o Ho] & _). by rw Hc in Ho.
Qed.

Lemma tick_valid p : tick_change sys p s now = Ok (s', flag) → Valid s'.
Proof.
  rw /tick_change. intros H. do 2 head_case H.
  match type of H with (if ?b then _ else _) = _ => destruct b end; injection H as <- <-.
  - apply valid_owner; try done; [by right|]. intros ? [= <-]. split; [|done]. eexists. by split; [done|].
  - eapply valid_set_cleanup; [done..|]. exact (valid_pending s _ Hv Heqo).
Qed.

Lemma install_valid r l : install_cleanup_ownership_change r l s now = Ok (s', flag) → Valid s'.
Proof.
  rw /install_cleanup_ownership_change. intros H. head_case H. destruct (unowned_nodes Heqo) as [Hn Hm].
  head_case H. rw /new_cleanup_ownership in Heqs0. do 2 head_case Heqs0. injection Heqs0 as <-.
  bool_to_prop. assert (∀ m, m = mode s ∨ m = CleanupOnly → Valid (set_cleanup (set_mode s m)
    (Some (mkPaidCleanupOwnership r None None None None l now
       (N.min (u64_saturating_add now (N.min (maximum_cost_microusd l * 3600000 / hourly_price_microusd l)
          u64_max)) (deadline_unix_ms s) - PAID_CLEANUP_RESERVE_MS) 0 false false false false)))) as Hall.
  { intros m Hcase. destruct Hv. split; try done.
    - apply (phase_with_nodes s); try done. right. by destruct Hcase as [->| ->].
    - intros o [= <-]. apply valid_limits_ok. cbn. split; [|done]. split_and!; try done. lia.
    - cbn. intros ->. destruct Hcase as [E|]; [|done]. by apply va_prepared. }
  injection H as <- <-. case_bool_decide.
  - specialize (Hall (mode s) ltac:(by left)). by destruct s.
  - apply Hall. by right.
Qed.

Lemma close_owned_valid f g b :
  (∀ o, same_terms o (f o) ∧ orchestrator_shutdown_pending (f o) = false) →
  (∀ o, same_terms o (g o) ∧ (quiet o → quiet (g o)) ∧ ∀ s, pending_ok s o → pending_ok s (g o)) →
  is_Some (cleanup s) →
  Valid (let s := if b : bool then close_admission f s else s in set_cleanup s (g <$> cleanup s)).
Proof.
  intros Hf Hg [o Ho].
  assert (Valid (if b then close_admission f s else s)) as Hv'.
  { destruct b; [|done]. apply valid_close; [done|by intros o'; destruct (Hf o')|].
    intros o' _ E. by rw (proj2 (Hf o')) in E. }
  assert (∃ o', cleanup (if b then close_admission f s else s) = Some o') as [o' Ho'].
  { destruct b; cbn; rw Ho /=; eauto. }
  cbn zeta. rw Ho'. destruct (Hg o') as (? & ? & Hp). eapply valid_set_cleanup; [done..|].
  apply Hp. by eapply valid_pending.
Qed.

Lemma claim_owner_valid p : claim_cleanup_owner_change p s now = Ok (s', flag) → Valid s'.
Proof.
  rw /claim_cleanup_owner_change. intros H. head_case H; injection H as <- <-.
  - by apply close_owned_valid.
  - destruct (unowned_nodes Heqo) as [Hn Hm]. assert (set_mode s CleanupOnly =
      set_cleanup (set_mode s CleanupOnly) None) as -> by (destruct s; cbn in *; by subst).
    apply valid_owner; try done; [by right|by rw Heqo].
Qed.

Lemma claim_supervisor_valid p : claim_cleanup_supervisor_change p s = Ok (s', flag) → Valid s'.
Proof.
  rw /claim_cleanup_supervisor_change. intros H. head_case H; injection H as <- <-.
  by apply close_owned_valid.
Qed.

Lemma begin_shutdown_valid r : begin_cleanup_shutdown_change sys r s now = Ok (s', flag) → Valid s'.
Proof.
  rw /begin_cleanup_shutdown_change. intros H. do 2 head_case H. injection H as <- <-.
  apply valid_close; [done..|]. intros o _ Hp. cbn in Hp |- *. bool_to_prop. done.
Qed.

Lemma release_valid r : release_cleanup_change sys r s = Ok (s', flag) → Valid s'.
Proof.
  rw /release_cleanup_change. intros H. repeat head_case H; injection H as <- <-; try done.
  all: eapply valid_set_cleanup; try done; by intros (?&?&?&?&?).
Qed.

Lemma request_valid : request_cleanup_change s = Ok (s', flag) → Valid s'.
Proof.
  intros [= <- _]. apply valid_close; [done..|]. intros o Hp Hpend.
  destruct (Hp Hpend) as (? & ? & ? & ? & ?). done.
Qed.

Lemma bind_orchestrator_valid p r : bind_orchestrator_change sys p r s now = Ok (s', flag) → Valid s'.
Proof.
  rw /bind_orchestrator_change. intros H. head_case H.
  - apply live_cleanup_some in Heqo as [Ho _].
    destruct (binding_denied _ _ _ _ _) eqn:Hd; [head_case H; injection H as <- <-|injection H as <- <-].
    + apply valid_close; [done..|]. intros o Hp Hpend. destruct (Hp Hpend) as (? & ? & ? & ? & ?). done.
    + rw /binding_denied in Hd. bool_to_prop.
      assert (Valid (set_retained_deployments s (bind_deployment p r <$> retained_deployments s))) as Hv'.
      { destruct Hv. split; try done.
        - apply phase_ok. apply phase_ok in va_phase. cbn. destruct (nodes s); [|done].
          destruct va_phase as (? & ? & ? & ? & ? & ? & E & ?). split_and!; try done. cbn. by rw E fmap_empty.
        - cbn. intros g d Hg. apply lookup_fmap_Some in Hg as (d0 & <- & Hd0).
          destruct (va_retained g d0 Hd0) as (? & ? & ? & ?). rw /deployment_ok.
          by destruct (bind_deployment_keeps p r d0) as (-> & -> & ->). }
      eapply (valid_set_cleanup _ _ _ Hv' Ho); [done| |].
      * intros (?&?&?&?&?). done.
      * intros Hpend. destruct (valid_pending s _ Hv Ho Hpend) as (? & _). done.
  - head_case H. injection H as <- <-. bool_to_prop. rw /live_cleanup in Heqo.
    assert (set_mode s CleanupOnly = set_cleanup (set_mode s CleanupOnly) (cleanup s)) as ->
      by (by destruct s). apply valid_owner; try done; [by right|].
    intros o Ho. split; [by exists o|]. intros Hpend. destruct (valid_pending s _ Hv Ho Hpend) as (? & _). congruence.
Qed.

Lemma bind_nodes_valid l r :
  validate_nodes l = Ok tt → bind_selected_nodes_change sys l r s now = Ok (s', flag) → Valid s'.
Proof.
  rw /bind_selected_nodes_change. intros Hl H. head_case H. bool_to_prop.
  head_case H; injection H as <- <-; [by apply valid_close|].
  assert (mode s = Selecting) as Hm by done. destruct Hv. split; try done.
  - apply phase_ok. cbn. rw phase_ok in va_phase. destruct l; [done|]. by split.
  - intros o Ho. apply valid_limits_ok. destruct (proj1 (valid_limits_ok s o) (va_limits o Ho)) as [? Hp].
    split; [done|]. intros Hpend. destruct (Hp Hpend) as (? & _). congruence.
  - cbn. intros i x Hi. assert (create_reservations s = ∅) as E by done. by rw E lookup_empty in Hi.
Qed.

Lemma recovery_valid r : begin_orchestrator_recovery_change sys r s now = Ok (s', flag) → Valid s'.
Proof.
  rw /begin_orchestrator_recovery_change. intros H. do 2 head_case H. injection H as <- <-. bool_to_prop.
  apply live_cleanup_some in Heqo as [Ho _]. assert (mode s = Prepared) as Hm by done.
  assert (set_cleanup s = set_cleanup (set_mode s (mode s))) as -> by (by destruct s).
  apply valid_owner; try done; [by left|by rw Hm|]. intros o' [= <-]. split; [by eexists; split|].
  intros Hpend. destruct (valid_pending s _ Hv Ho Hpend) as (? & _). congruence.
Qed.

Lemma retain_valid b : retain_development_fixture_change sys b s now = Ok (s', flag) → Valid s'.
Proof.
  rw /retain_development_fixture_change. intros H. do 3 head_case H. injection H as <- <-. bool_to_prop.
  apply live_cleanup_some in Heqo as [Ho _]. assert (mode s = Prepared) as Hm by done.
  assert (set_cleanup s = set_cleanup (set_mode s (mode s))) as -> by (by destruct s).
  apply valid_owner; try done; [by left|by rw Hm|]. intros o' [= <-]. split; [by eexists; split|].
  intros Hpend. destruct (valid_pending s _ Hv Ho Hpend) as (? & _). congruence.
Qed.

Lemma live_before_deadline o : cleanup s = Some o → live_at sys o now = true → now < deadline_unix_ms s.
Proof.
  intros Ho Hl. rw /live_at in Hl. bool_to_prop.
  destruct (proj1 (valid_limits_ok s o) (va_limits s Hv o Ho)) as [(? & _) _]. lia.
Qed.

(** New deployments, or old ones with one more slot consumed, do not touch the rest. *)
Lemma deployment_valid g d :
  mode s = Prepared → deployment_ok s g d →
  Valid (set_retained_deployments s (<[g := d]> (retained_deployments s))).
Proof.
  intros Hm Hd. destruct (va_prepared s Hv Hm) as [H5 _].
  pose proof (valid_size5_nodes s Hv H5) as Hn.
  destruct Hv. split; try done.
  - apply (phase_with_nodes s); try done. by left.
  - cbn. by apply map_Forall_insert_2.
Qed.

Lemma authorize_valid b d r :
  validate_deployment_identity (identity_artifact_digest d) (deployment_generation d) = Ok tt →
  authorize_retained_deployment_change sys b d r s now = Ok (s', flag) → Valid s'.
Proof.
  rw /authorize_retained_deployment_change. intros Hd H. do 2 head_case H. injection H as <- <-. bool_to_prop.
  assert (mode s = Prepared) as Hm by done. apply deployment_valid; [done|].
  rw /deployment_ok /=. split_and!; try done. by destruct (va_prepared s Hv Hm).
Qed.

Lemma reserve_retained_valid run node contract d p :
  reserve_retained_bootstrap_change sys run node contract d p s now = Ok (s', flag) → Valid s'.
Proof.
  rw /reserve_retained_bootstrap_change. intros H. do 5 head_case H. injection H as <- <-. bool_to_prop.
  apply live_cleanup_some in Heqo as [Ho Hl]. pose proof (live_before_deadline _ Ho Hl) as Hnow.
  destruct (va_retained s Hv _ _ Heqo0) as (? & ? & ? & ?). apply deployment_valid; [done|].
  rw /deployment_ok /=. split_and!; try done. apply map_Forall_insert_2; [|done]. cbn. split; [|done].
  match goal with H : d_contracts _ !! node = Some _ |- _ => by rw H end.
Qed.

(** With all five contracts known there is no slot without one. *)
Lemma contracts_full id :
  size (contracts s) = 5%nat → is_Some (create_reservations s !! id) → is_Some (contracts s !! id).
Proof.
  intros H5 Hid. pose proof (valid_has_nodes s id Hv Hid) as Hn.
  pose proof (proj1 (phase_ok s) (va_phase s Hv)) as Hph.
  assert (validate_nodes (nodes s) = Ok tt) as (Hlen & Hnd & _)%validate_nodes_spec
    by (destruct (nodes s); [done|by destruct Hph]).
  assert (∀ i, is_Some (create_reservations s !! i) → i ∈ node_id <$> nodes s) as Hin.
  { intros i [r Hr]. destruct (va_create s Hv i r Hr) as [Hhas _].
    apply existsb_exists in Hhas as (n & Hn' & E). apply N.eqb_eq in E. subst i.
    apply list_elem_of_fmap. exists n. split; [done|]. by apply list_elem_of_In. }
  assert (dom (contracts s) = list_to_set (node_id <$> nodes s)) as E.
  { apply set_subseteq_size_eq.
    - intros i [c Hc]%elem_of_dom. apply elem_of_list_to_set, Hin. by apply (va_contracts s Hv i c).
    - rw size_list_to_set // length_fmap Hlen size_dom H5 //. }
  apply elem_of_dom. rw E. by apply elem_of_list_to_set, Hin.
Qed.

Lemma contract_valid id c :
  is_Some (create_reservations s !! id) → id ∉ rejected_creates s → contracts s !! id = None → c ≠ 0 →
  (∀ j, contracts s !! j ≠ Some c) → Valid (set_contracts s (<[id := c]> (contracts s))).
Proof.
  intros Hid Hrej Hnone Hc Hnew. pose proof (valid_has_nodes s id Hv Hid) as Hn.
  assert (size (contracts s) ≠ 5%nat) as Hsize.
  { intros H5. destruct (contracts_full id H5 Hid). congruence. }
  destruct Hv. split; try done.
  - apply (phase_with_nodes s); try done. by left.
  - cbn. intros i Hi. destruct (va_rejected i Hi). split; [done|]. rw lookup_insert_ne //. by intros ->.
  - cbn. by apply map_Forall_insert_2.
  - cbn. intros i j x Hi Hj. rw !lookup_insert_Some in Hi Hj. naive_solver.
  - cbn. intros i r Hr. destruct (va_bootstraps i r Hr). split; [|done].
    destruct (decide (i = id)) as [->|]; [by rw lookup_insert_eq|by rw lookup_insert_ne].
  - cbn. intros g d Hd. destruct (va_retained g d Hd) as (? & E & ? & ?). congruence.
  - cbn. intros Hm. by destruct (va_prepared Hm).
Qed.

(** Outside of the selection, what was discovered and noted is free to grow. *)
Lemma notes_valid discovered errors ids labels :
  mode s ≠ Selecting → (0 ∉ ids) → set_Forall (λ l, valid_label l = true) labels →
  Valid (set_recovery_labels (set_recovery_contract_ids
           (set_accounting_errors (set_discovered_contracts s discovered) errors) ids) labels).
Proof.
  intros Hm Hids Hlabels. destruct Hv. split; try done.
  apply phase_ok. apply phase_ok in va_phase. cbn. destruct (nodes s); [|done].
  destruct va_phase as (? & ? & ? & ? & ? & ? & ? & _). split_and!; done.
Qed.

Lemma selecting_empty : mode s = Selecting → nodes s = [] ∧ recovery_labels s = ∅.
Proof.
  intros Hm. pose proof (proj1 (phase_ok s) (va_phase s Hv)) as Hph.
  destruct (nodes s); [|by destruct Hph]. destruct Hph as (_ & _ & _ & _ & _ & _ & _ & Hs).
  by destruct (Hs Hm) as (_ & _ & _ & ? & _).
Qed.


Lemma receipt_valid absent f :
  cleanup_unproved absent s = false →
  (∀ o, same_terms o (f o) ∧ orchestrator_shutdown_pending (f o) = orchestrator_shutdown_pending o) →
  Valid (set_cleanup s (f <$> cleanup s)).
Proof.
  intros Hu Hf. rw /cleanup_unproved in Hu. bool_to_prop. assert (mode s = CleanupOnly) as Hm by done.
  destruct (cleanup s) as [o|] eqn:Ho; [|by destruct s; cbn in *; subst].
  assert (set_cleanup s = set_cleanup (set_mode s (mode s))) as -> by (by destruct s).
  destruct (Hf o) as [Ht Hp]. apply valid_owner; try done; [by left|by rw Hm|].
  intros o' [= <-]. split; [by exists o|]. intros Hpend. congruence.
Qed.

Lemma absence_valid absent : record_cleanup_absence_change absent s = Ok (s', flag) → Valid s'.
Proof.
  rw /record_cleanup_absence_change. intros H. head_case H. injection H as <- <-.
  by eapply receipt_valid.
Qed.

Lemma complete_valid absent : complete_cleanup_change absent s = Ok (s', flag) → Valid s'.
Proof.
  rw /complete_cleanup_change. intros H. head_case H. injection H as <- <-. by eapply receipt_valid.
Qed.

Lemma reserve_create_valid run node att offer lab :
  mode s = Preparing ∧ now < deadline_unix_ms s →
  reserve_create_change run node att offer lab s now = Ok (s', flag) → Valid s'.
Proof.
  intros [Hm Hnow]. rw /reserve_create_change. intros H. do 4 head_case H. injection H as <- <-. bool_to_prop.
  apply find_some in Heqo as [Hin E]. bool_to_prop. subst node.
  assert (nodes s ≠ []) as Hn by (by intros En; rw En in Hin).
  destruct Hv. split; try done.
  - apply (phase_with_nodes s); try done. by left.
  - cbn. apply map_Forall_insert_2; [|done]. split; [|done]. apply existsb_exists. exists p.
    split; [done|]. apply N.eqb_refl.
  - cbn. intros i Hi. destruct (va_rejected i Hi) as [[r Hr] ?]. split; [|done].
    destruct (decide (i = node_id p)) as [->|]; [by rw lookup_insert_eq|by rw lookup_insert_ne].
  - cbn. intros i c Hc. destruct (va_contracts i c Hc) as [? ?]. split; [|done].
    destruct (decide (i = node_id p)) as [->|]; [by rw lookup_insert_eq|by rw lookup_insert_ne].
Qed.

Lemma rejection_valid node : record_create_rejection_change node s = Ok (s', flag) → Valid s'.
Proof.
  rw /record_create_rejection_change. intros H. head_case H. injection H as <- <-. bool_to_prop.
  assert (is_Some (create_reservations s !! node)) as Hr by (by apply not_eq_None_Some).
  pose proof (valid_has_nodes s node Hv Hr) as Hn.
  destruct Hv. split; try done.
  - apply (phase_with_nodes s); try done. by left.
  - cbn. apply set_Forall_union; [|done]. apply set_Forall_singleton. split; [done|]. by apply eq_None_not_Some.
Qed.

Lemma record_contract_valid node contract :
  record_contract_change node contract s = Ok (s', flag) → Valid s'.
Proof.
  rw /record_contract_change. intros H. repeat head_case H; injection H as <- <-; [done|]. bool_to_prop.
  apply contract_valid; try done; [by apply not_eq_None_Some|].
  intros j Hj. match goal with H : map_Forall _ _ |- _ => by apply (H j contract Hj) end.
Qed.

Lemma reserve_bootstrap_valid run node :
  mode s = Preparing ∧ now < deadline_unix_ms s →
  reserve_bootstrap_change run node s now = Ok (s', flag) → Valid s'.
Proof.
  intros [Hm Hnow]. rw /reserve_bootstrap_change. intros H. do 2 head_case H. injection H as <- <-. bool_to_prop.
  assert (is_Some (contracts s !! node)) as [c Hc] by (by apply not_eq_None_Some).
  destruct (va_contracts s Hv node c Hc) as [Hr _]. pose proof (valid_has_nodes s node Hv Hr) as Hn.
  destruct Hv. split; try done.
  - apply (phase_with_nodes s); try done. by left.
  - cbn. by apply map_Forall_insert_2.
  - cbn. congruence.
Qed.

Lemma seal_valid :
  size (contracts s) = 5%nat → size (initial_bootstraps s) = 5%nat → mode s = Preparing ∧ now < deadline_unix_ms s →
  Valid (set_mode s Prepared).
Proof.
  intros H5 H5' [Hm _]. pose proof (valid_size5_nodes s Hv H5) as Hn. destruct Hv. split; try done.
  - apply (phase_with_nodes s); try done. by right.
  - intros o Ho. apply valid_limits_ok. destruct (proj1 (valid_limits_ok s o) (va_limits o Ho)) as [? Hp].
    split; [done|]. intros Hpend. destruct (Hp Hpend) as (? & _). congruence.
Qed.
End Preservation.

Lemma discover_valid s contract l x : Valid s → contract ≠ 0 → discover s contract l = Ok x → Valid x.
Proof.
  intros Hv Hc H.
  assert (mode s ≠ Selecting) as Hm.
  { intros Hm. destruct (selecting_empty s Hv Hm) as [En El]. rw /discover En El /= bool_decide_false // in H. }
  assert (∀ d e, Valid (set_accounting_errors (set_discovered_contracts s d) e)) as Hnotes.
  { intros d e. pose proof (va_recovery s Hv) as [? ?].
    pose proof (notes_valid s Hv d e (recovery_contract_ids s) (recovery_labels s)) as Hx. by apply Hx. }
  apply discover_cases in H as [[e ->]|(node & Hin & Hl & Hr & Hrej & Hold & Huniq & ->)]; [apply Hnotes|].
  specialize (Hnotes (<[contract := l]> (discovered_contracts s)) (accounting_errors s)).
  destruct (contracts s !! node_id node) as [old|] eqn:Ho.
  - rw (insert_id (contracts s)); [rw Ho; f_equal; eauto|]. by destruct s.
  - assert (set_contracts (set_discovered_contracts s (<[contract := l]> (discovered_contracts s)))
      = set_contracts (set_accounting_errors (set_discovered_contracts s
          (<[contract := l]> (discovered_contracts s))) (accounting_errors s))) as -> by (by destruct s).
    apply (contract_valid _ Hnotes); try done. intros j Hj.
    pose proof (Huniq j Hj) as ->. cbn in Hj. congruence.
Qed.

Lemma discover_all_valid l s x :
  Valid s → (∀ c lab, (c, lab) ∈ l → c ≠ 0) → discover_all s l = Ok x → Valid x.
Proof.
  revert s. induction l as [|[c lab] l IH]; cbn; intros s Hv Hl H; [by injection H as <-|].
  head_case H. eapply IH; [|by intros c' lab' ?; apply (Hl c' lab'); right|done].
  eapply discover_valid; [done| |done]. apply (Hl c lab). by left.
Qed.

(** A transaction that its gate admits keeps the record well formed. *)
Lemma perform_valid sys c s now s' flag :
  Valid s → well_called c s → (admits_work c = true → mode s = Preparing ∧ now < deadline_unix_ms s) →
  perform sys c s now = Ok (s', flag) → Valid s'.
Proof.
  intros Hv Hw Hgate. destruct c; cbn [perform well_called] in *; intros H.
  - by eapply tick_valid.
  - by eapply install_valid.
  - by eapply claim_owner_valid.
  - by eapply claim_supervisor_valid.
  - by eapply begin_shutdown_valid.
  - by eapply release_valid.
  - by eapply request_valid.
  - rw /include_cleanup_ownership_change in H. head_case H. injection H as <- <-. bool_to_prop.
    pose proof (va_recovery s Hv) as [? ?].
    assert (Valid (set_recovery_labels (set_recovery_contract_ids (set_accounting_errors
      (set_discovered_contracts s (discovered_contracts s)) (accounting_errors s))
      (recovery_contract_ids s ∪ ids)) (recovery_labels s ∪ labels))) as Hx; [|by destruct s].
    apply notes_valid; [done|done|set_solver|by apply set_Forall_union].
  - by eapply bind_orchestrator_valid.
  - by eapply bind_nodes_valid.
  - by eapply recovery_valid.
  - by eapply retain_valid.
  - by eapply authorize_valid.
  - by eapply reserve_retained_valid.
  - rw /reconcile_cleanup_discovery_change in H. head_case H. injection H as <- <-.
    eapply discover_all_valid; [done| |done]. intros c lab Hin%elem_of_btree_entries ->. by rw Hw in Hin.
  - injection H as <- <-. pose proof (va_recovery s Hv) as [? ?].
    pose proof (notes_valid s Hv (discovered_contracts s) ({[error]} ∪ accounting_errors s)
      (recovery_contract_ids s) (recovery_labels s)) as Hx. apply Hx in Hw; by destruct s.
  - by eapply absence_valid.
  - by eapply complete_valid.
  - by eapply reserve_create_valid; [done|apply Hgate|].
  - by eapply rejection_valid.
  - by eapply record_contract_valid.
  - by eapply reserve_bootstrap_valid; [done|apply Hgate|].
  - rw /seal_prepared_change in H. head_case H. injection H as <- <-. bool_to_prop. by eapply seal_valid, Hgate.
  - injection H as <- <-. by apply valid_close.
Qed.
