(* ===== verification/PaidWorld.v ===== *)
(** * Paid machines, crashes and all

    The admission record in its world: processes that run transactions in any order and may die at any
    call of the operating system, losses of power, and the provider, which creates a machine for a
    create request that was admitted, at most one.  A process that dies inside [update] leaves the
    directory as an error of the call it died in would, so the errors of [Sys] cover it.

    A history is a list of steps; a method of [PaidMethods] run among other processes is one. *)

From S2P Require Import Prelude ProcessIdentity PaidAdmission PaidStore PaidMethods PaidRecord PaidValid.
#[local] Open Scope N_scope.

Section World.
Context {F : SnapshotFormat}.

(** An admitted create: [reserve_create] returned [Ok] at that time. *)
Record Grant := mkGrant {
  g_node : N;
  g_offer : N;
  g_label : string;
  g_time : N;
}.

Record World := mkWorld {
  disk : Disk;
  grants : list Grant;
  machines : gmap N N;  (** the contract the provider made for a node *)
  refused : gset N;     (** nodes whose create the provider rejected *)
  running : gset N;     (** contracts that cost money *)
}.

Definition world_new : World := mkWorld empty_disk [] ∅ ∅ ∅.

Inductive Step :=
| Create (sys : Sys) (inode run : N) (selected : list PaidNodeAdmission) (deadline : N)
| CreateCleanupOnly (sys : Sys) (inode run deadline : N) (r : PaidProcessIdentity) (l : PaidCleanupLimits)
| Transact (sys : Sys) (handle : N) (c : Change)
| PowerLoss (choice : nat) (keep_temporary keep_lock : bool)
| RemoveState
| ProviderCreates (node contract : N)
| ProviderRejects (node : N)
| ProviderDeletes (contract : N).

Definition grant_of (sys : Sys) (c : Change) (r : Result bool) : list Grant :=
  match c, r, unix_ms sys with
  | ReserveCreate _ node _ offer lab, inl _, inl now => [mkGrant node offer lab now]
  | _, _, _ => []
  end.

Definition set_disk (w : World) (d : Disk) : World :=
  mkWorld d (grants w) (machines w) (refused w) (running w).

(** The provider answers a create request once, and only one that was made. *)
Definition unanswered (w : World) (node : N) : bool :=
  bool_decide (node ∈ g_node <$> grants w) && bool_decide (machines w !! node = None)
  && negb (bool_decide (node ∈ refused w)).

Definition world_step (w : World) (step : Step) : World :=
  match step with
  | Create sys inode run selected deadline =>
      set_disk w (create sys inode run selected deadline (disk w)).1
  | CreateCleanupOnly sys inode run deadline r l =>
      set_disk w (create_cleanup_only sys inode run deadline r l (disk w)).1
  | Transact sys handle c =>
      let (d, r) := update sys handle c (disk w) in
      mkWorld d (grants w ++ grant_of sys c r) (machines w) (refused w) (running w)
  | PowerLoss choice keep_temporary keep_lock =>
      set_disk w (power_loss choice keep_temporary keep_lock (disk w))
  | RemoveState =>
      set_disk w (set_state_file (set_older (disk w) (state_file (disk w) :: older (disk w))) None)
  | ProviderCreates node contract =>
      if unanswered w node
      then mkWorld (disk w) (grants w) (<[node := contract]> (machines w)) (refused w)
             ({[contract]} ∪ running w)
      else w
  | ProviderRejects node =>
      if unanswered w node
      then mkWorld (disk w) (grants w) (machines w) ({[node]} ∪ refused w) (running w) else w
  | ProviderDeletes contract =>
      mkWorld (disk w) (grants w) (machines w) (refused w) (running w ∖ {[contract]})
  end.

Definition world_run (w : World) (steps : list Step) : World := foldl world_step w steps.

(** A method of the process that holds [handle], with what the others do before each of its steps and
    what the system shows it there. *)
Fixpoint run {A} (handle : N) (p : prog A) (schedule : list (list Step * Sys)) (w : World)
    : World * option A :=
  match p, schedule with
  | Ret a, _ => (w, Some a)
  | _, [] => (w, None)
  | Look f k, (others, sys) :: schedule => run handle (k (f sys)) schedule (world_run w others)
  | Snapshot k, (others, sys) :: schedule =>
      let w := world_run w others in run handle (k (snapshot sys handle (disk w))) schedule w
  | Update c k, (others, sys) :: schedule =>
      let w := world_run w others in
      run handle (k (update sys handle c (disk w)).2) schedule (world_step w (Transact sys handle c))
  end.

(** ** Storage *)

Definition stored (s : PaidAdmissionSnapshot) : File := mkFile (Whole (to_writer s)) true.
Definition entries (d : Disk) : list (option File) := state_file d :: older d.

(** What is left of [persist]: nothing changed, or the new file is in place, and on success nothing
    older can come back. *)
Lemma persist_spec sys s d d' r :
  persist sys s d = (d', r) →
  lock_file d' = lock_file d ∧ (lock_durable d = true → lock_durable d' = true)
  ∧ ((entries d' = entries d ∧ ∃ e, r = Err e)
     ∨ (state_file d' = Some (stored s) ∧ older d' = entries d ∧ ∃ e, r = Err e)
     ∨ (state_file d' = Some (stored s) ∧ older d' = [] ∧ r = Ok tt)).
Proof.
  rw /persist /attempt. intros H.
  repeat (match type of H with
          | (if ?b then _ else _) = _ => destruct b
          | (match ?x with _ => _ end) = _ => destruct x
          end; cbn in H); injection H as <- <-; split_and!; try done; eauto 10.
Qed.

(** The record that [update] writes: what the closure made of the loaded one, or the refusal. *)
Inductive writes (sys : Sys) (c : Change) (s : PaidAdmissionSnapshot) (now : N)
    : PaidAdmissionSnapshot → option bool → Prop :=
| writes_change s' flag :
    (admits_work c = true → work_gate sys s now = Pass) → perform sys c s now = Ok (s', flag) →
    Valid s' → writes sys c s now s' (Some flag)
| writes_refusal :
    admits_work c = true → mode s = Preparing →
    writes sys c s now (close_admission (λ o, set_shutdown_pending o false) s) None.

Lemma update_spec sys handle c d d' r :
  update sys handle c d = (d', r) →
  lock_file d' = lock_file d ∧ (lock_durable d = true → lock_durable d' = true)
  ∧ ((entries d' = entries d ∧ ∃ e, r = Err e)
     ∨ ∃ s now s' flag, load sys d = Ok s ∧ unix_ms sys = Ok now ∧ writes sys c s now s' flag
         ∧ state_file d' = Some (stored s') ∧ (older d' = entries d ∨ older d' = [])
         ∧ match r with inl b => flag = Some b ∧ older d' = [] | inr _ => True end).
Proof.
  rw /update. intros H.
  destruct (lock sys handle d); [|by injection H as <- <-; eauto 10].
  destruct (load sys d) as [s|] eqn:Hload; [|by injection H as <- <-; eauto 10].
  destruct (unix_ms sys) as [now|] eqn:Hnow; [|by injection H as <- <-; eauto 10].
  destruct (if admits_work c then work_gate sys s now else Pass) eqn:Hgate.
  - rw /commit in H. destruct (perform sys c s now) as [[s' flag]|] eqn:Hp; [|by injection H as <- <-; eauto 10].
    destruct (validate s') as [[]|] eqn:Hv; [|by injection H as <- <-; eauto 10].
    destruct (persist sys s' d) as [d1 r1] eqn:Hper. injection H as <- <-.
    assert (writes sys c s now s' (Some flag)) as Hw.
    { apply writes_change; [|done|by apply validate_ok]. intros E. by rw E in Hgate. }
    destruct (persist_spec _ _ _ _ _ Hper) as (? & ? & [[? [e ->]]|[(? & ? & e & ->)|(? & ? & ->)]]);
      split_and!; try done; [left; eauto|right..]; exists s, now, s', (Some flag); split_and!; eauto.
  - injection H as <- <-. eauto 10.
  - destruct (admits_work c) eqn:Ha; [|done]. assert (mode s = Preparing) as Hm.
    { rw /work_gate in Hgate. head_case Hgate. by bool_to_prop. }
    destruct (persist _ _ d) as [d1 r1] eqn:Hper. injection H as <- <-.
    pose proof (writes_refusal sys c s now Ha Hm) as Hw.
    destruct (persist_spec _ _ _ _ _ Hper) as (? & ? & [[? [e' ->]]|[(? & ? & e' & ->)|(? & ? & ->)]]);
      split_and!; try done; [left; eauto|right..]; eexists s, now, _, None; split_and!; eauto.
Qed.

(** ** Invariants of the stored records *)

(** Every record that is or may again be the state is well formed and satisfies [P], and a directory
    that has held one has its lock for good. *)
Record disk_ok (P : PaidAdmissionSnapshot → Prop) (d : Disk) : Prop := mkDiskOk {
  dk_entries : ∀ f, Some f ∈ entries d → ∃ s, f = stored s ∧ Valid s ∧ P s;
  dk_lock : (∃ f, Some f ∈ entries d) → is_Some (lock_file d) ∧ lock_durable d = true;
}.

Lemma load_stored sys d s : Valid s → state_file d = Some (stored s) → io sys IoOpenState = None →
  load sys d = Ok s.
Proof.
  intros Hv Hs Hio. rw /load Hio Hs /= reads_back /migrate (va_schema s Hv) /=.
  by rw (proj2 (validate_ok s) Hv).
Qed.

Lemma load_ok P sys d s : disk_ok P d → load sys d = Ok s →
  Valid s ∧ P s ∧ state_file d = Some (stored s).
Proof.
  intros [Hd _] Hl. rw /load in Hl. destruct (io sys IoOpenState) eqn:Hio; [done|].
  destruct (state_file d) as [f|] eqn:Hf; [|done].
  destruct (Hd f ltac:(rw /entries Hf; left)) as (s0 & -> & Hv & Hp).
  rw /= reads_back /migrate (va_schema s0 Hv) /= (proj2 (validate_ok s0) Hv) in Hl.
  by injection Hl as <-.
Qed.

Lemma disk_update P sys handle c d d' r :
  disk_ok P d → update sys handle c d = (d', r) →
  (∀ s now s' flag, load sys d = Ok s → unix_ms sys = Ok now → Valid s → P s →
     writes sys c s now s' flag → P s') → disk_ok P d'.
Proof.
  intros Hd Hu Hstep. destruct (update_spec _ _ _ _ _ _ Hu) as (El & Ed & [[Ee _]|Hw]).
  - destruct Hd as [H1 H2]. split; rw Ee // El. intros Hf. destruct (H2 Hf). auto.
  - destruct Hw as (s & now & s' & flag & Hl & Hnow & Hw & Hs & Hold & _).
    destruct (load_ok _ _ _ _ Hd Hl) as (Hv & Hp & Hst).
    assert (Valid s') as Hv'.
    { destruct Hw as [|Ha Hm]; [done|]. by apply valid_close. }
    destruct Hd as [H1 H2]. assert (∃ f, Some f ∈ entries d) as Hex.
    { exists (stored s). rw /entries Hst. left. }
    split; [|intros _; destruct (H2 Hex); rw El; auto].
    intros f Hf. rw /entries Hs elem_of_cons in Hf. destruct Hf as [[= ->]|Hf]; [eauto|].
    destruct Hold as [E|E]; rw E in Hf; [auto|by apply elem_of_nil in Hf].
Qed.

Lemma disk_empty P : disk_ok P empty_disk.
Proof.
  assert (¬ ∃ f, Some f ∈ entries empty_disk) as Hno.
  { intros [f Hf]. rw /entries /= elem_of_cons in Hf. by destruct Hf as [|Hf%elem_of_nil]. }
  split; [intros f Hf; destruct Hno; eauto|done].
Qed.

(** A directory that has held a record is not initialized again. *)
Lemma disk_initialize P sys inode s d d' r :
  disk_ok P d → (lock_file d = None → P s) → initialize sys inode s d = (d', r) →
  disk_ok P d'.
Proof.
  intros Hd Hp'. rw /initialize /attempt. intros H.
  destruct (validate s) as [[]|] eqn:Hv; [|by injection H as <- <-]. apply validate_ok in Hv.
  destruct (io sys IoStatState); [by injection H as <- <-|].
  case_bool_decide as Hs; [by injection H as <- <-|].
  case_bool_decide as Hl; [by injection H as <- <-|].
  assert (P s) as Hp by (by apply Hp', eq_None_not_Some).
  assert (¬ ∃ f, Some f ∈ entries d) as Hno by (intros Hf; by destruct (dk_lock _ _ Hd Hf)).
  destruct (io sys IoCreateLock); [by injection H as <- <-|].
  assert (∀ d1, entries d1 = entries d → disk_ok P d1) as Hsame.
  { intros d1 E. split; rw E; [intros f Hf; destruct Hno; eauto|done]. }
  destruct (io sys IoLock); [injection H as <- <-; by apply Hsame|].
  destruct (io sys IoSyncLock); [injection H as <- <-; by apply Hsame|].
  destruct (io sys IoSyncLockParent); [injection H as <- <-; by apply Hsame|].
  assert (∀ f, Some f ∉ entries (sync_directory (set_lock_durable (set_lock_file d (Some inode)) false)))
    as Hnone.
  { intros f Hf. apply Hno. exists f. rw /entries /= !elem_of_cons in Hf |- *.
    destruct Hf as [|Hf%elem_of_nil]; [by left|done]. }
  destruct (persist_spec _ _ _ _ _ H) as (El & Ed & [[E _]|[(Es & Eo & _)|(Es & Eo & _)]]).
  - split; [intros f Hf; rw E in Hf; by destruct (Hnone f)|]. intros _. rw El. auto.
  - split; [|rw El; auto]. intros f Hf. rw /entries Es Eo elem_of_cons in Hf.
    destruct Hf as [[= ->]|Hf]; [eauto|by destruct (Hnone f)].
  - split; [|rw El; auto]. intros f Hf. rw /entries Es Eo elem_of_cons in Hf.
    destruct Hf as [[= ->]|Hf%elem_of_nil]; [eauto|done].
Qed.

Lemma initialize_sealed sys inode s d : is_Some (lock_file d) → (initialize sys inode s d).1 = d.
Proof.
  intros Hl. rw /initialize /attempt. destruct (validate s); [|done]. destruct (io sys IoStatState); [done|].
  case_bool_decide; [done|]. by rw bool_decide_true.
Qed.

Lemma disk_power_loss P choice kt kl d : disk_ok P d → disk_ok P (power_loss choice kt kl d).
Proof.
  intros [H1 H2].
  assert (∀ f, Some f ∈ entries (power_loss choice kt kl d) → Some f ∈ entries d) as Hsub.
  { intros f Hf. rw /entries /= elem_of_cons in Hf. destruct Hf as [Hf|Hf%elem_of_nil]; [|done].
    assert (default (state_file d) (older d !! choice) ∈ entries d) as Hin.
    { destruct (older d !! choice) eqn:E; [right; by eapply list_elem_of_lookup_2|left]. }
    destruct (default (state_file d) (older d !! choice)) as [f0|]; [|done]. injection Hf as ->.
    by destruct (H1 f0 Hin) as (s & -> & _). }
  split; [eauto|]. intros [f Hf]. destruct H2 as [Hl Hdur]; [eauto|]. by rw /power_loss /= Hdur.
Qed.

Lemma disk_remove P d : disk_ok P d → disk_ok P (set_state_file (set_older d (state_file d :: older d)) None).
Proof.
  intros [H1 H2].
  assert (∀ f, Some f ∈ entries (set_state_file (set_older d (state_file d :: older d)) None) →
               Some f ∈ entries d) as Hsub.
  { intros f Hf. rw /entries /= elem_of_cons in Hf. by destruct Hf as [|]. }
  split; [eauto|]. intros [f Hf]. apply H2. eauto.
Qed.

Lemma disk_weaken (P Q : PaidAdmissionSnapshot → Prop) d :
  (∀ s, Valid s → P s → Q s) → disk_ok P d → disk_ok Q d.
Proof. intros HPQ [H1 H2]. split; [|done]. intros f Hf. destruct (H1 f Hf) as (s & ? & ? & ?). eauto. Qed.

Lemma writes_evolves sys c s now s' flag : writes sys c s now s' flag → evolves s s'.
Proof.
  intros [x fl Hg Hp _|]; [|by apply ev_close]. eapply perform_evolves; [|done]. intros Ha.
  specialize (Hg Ha). rw /work_gate in Hg. head_case Hg. by bool_to_prop.
Qed.

(** ** Steps *)

Definition sealed (d : Disk) : Prop := is_Some (lock_file d) ∧ lock_durable d = true.

(** The records a directory can be initialized with. *)
Inductive fresh : PaidAdmissionSnapshot → Prop :=
| fresh_selected run l deadline : fresh (new_snapshot run l Preparing deadline None)
| fresh_selecting run deadline r l now o :
    new_cleanup_ownership r l deadline now = Ok o → fresh (new_snapshot run [] Selecting deadline (Some o)).

Lemma step_disk P w step :
  disk_ok P (disk w) → (lock_file (disk w) = None → ∀ s, fresh s → P s) →
  (∀ sys handle c s now s' flag, step = Transact sys handle c → load sys (disk w) = Ok s →
     unix_ms sys = Ok now → Valid s → P s → writes sys c s now s' flag → P s') →
  disk_ok P (disk (world_step w step)).
Proof.
  intros Hd Hf Hstep. destruct step; cbn [world_step]; try (by cbn); try (by case_match).
  - cbn. rw /create. destruct (_ <-! validate_nodes selected; unix_ms sys) as [now|]; [|done].
    destruct (deadline <=? now); [done|]. destruct (initialize _ _ _ (disk w)) as [d' r] eqn:Hi.
    eapply disk_initialize; [done| |done]. intros Hn. apply (Hf Hn). constructor.
  - cbn. rw /create_cleanup_only. destruct (unix_ms sys) as [now|]; [|done].
    destruct (deadline <=? now); [done|]. destruct (new_cleanup_ownership _ _ _ _) as [o|] eqn:Ho; [|done].
    destruct (initialize _ _ _ (disk w)) as [d' r0] eqn:Hi.
    eapply disk_initialize; [done| |done]. intros Hn. apply (Hf Hn). by econstructor.
  - destruct (update sys handle c (disk w)) as [d' r] eqn:Hu. cbn. eapply disk_update; [done..|].
    intros s now s' flag. by eapply Hstep.
  - by apply disk_power_loss.
  - by apply disk_remove.
Qed.

Lemma step_sealed w step : sealed (disk w) → sealed (disk (world_step w step)).
Proof.
  intros [Hl Hdur]. destruct step; cbn [world_step]; try (by cbn); try (by case_match).
  - cbn. rw /create. destruct (_ <-! validate_nodes selected; unix_ms sys) as [now|]; [|done].
    destruct (deadline <=? now); [done|]. by rw initialize_sealed.
  - cbn. rw /create_cleanup_only. destruct (unix_ms sys) as [now|]; [|done].
    destruct (deadline <=? now); [done|]. destruct (new_cleanup_ownership _ _ _ _) as [o|]; [|done].
    by rw initialize_sealed.
  - destruct (update sys handle c (disk w)) as [d' r] eqn:Hu. cbn.
    destruct (update_spec _ _ _ _ _ _ Hu) as (El & Ed & _). split; [by rw El|auto].
  - by rw /sealed /= Hdur.
Qed.
End World.

(** ** A small paid run

    A concrete run of [PaidWorld] for the witnesses: a runner (process 1), a cleanup owner (2), its
    supervisor (3) and an orchestrator (4) select five offers, create two machines, of which the
    provider rejects one, lose power, and clean up. *)

(** Records stored as they are. *)
#[local] Instance plain_format : SnapshotFormat := {|
  Json := PaidAdmissionSnapshot;
  to_writer := id;
  from_reader := inl;
  reads_back _ := eq_refl;
|}.

Module PaidSample.
Definition stat_fields : list string :=
  ["S"; "1"; "2"; "3"; "4"; "5"; "6"; "7"; "8"; "9"; "10"; "11"; "12"; "13"; "14"; "15"; "16"; "17"; "18";
   "777"]%string.

(** The processes in [alive] run. *)
Definition proc_of (alive : list N) : Proc :=
  mkProc (λ p, if bool_decide (p ∈ alive) then inl (stat_line p "node" stat_fields) else inr NotFound)
    (inl "b00t"%string).

Definition identity_of (p : N) : PaidProcessIdentity := mkPaidProcessIdentity p 777 "b00t".

Definition sys_at (self ms : N) (alive : list N) : Sys :=
  mkSys (proc_of alive) self (Z.of_N (ms * 1000000)) (Ok true) (Ok true) (Ok tt) (Ok tt) (λ _, None).

(** The same, but the directory cannot be synced after the rename. *)
Definition failing_sync (self ms : N) (alive : list N) : Sys :=
  mkSys (proc_of alive) self (Z.of_N (ms * 1000000)) (Ok true) (Ok true) (Ok tt) (Ok tt)
    (λ step, match step with IoSyncParent => Some "io"%string | _ => None end).

Definition everyone : list N := [1; 2; 3; 4].
Definition at_ (ms : N) : Sys := sys_at 1 ms everyone.

Definition selected : list PaidNodeAdmission :=
  [mkPaidNodeAdmission 1 11 21 "n-1"; mkPaidNodeAdmission 2 12 22 "n-2"; mkPaidNodeAdmission 3 13 23 "n-3";
   mkPaidNodeAdmission 4 14 24 "n-4"; mkPaidNodeAdmission 5 15 25 "n-5"].

Definition inode : N := 42.
Definition step (ms : N) (c : Change) : Step := Transact (at_ ms) inode c.

Definition setup : list Step :=
  [CreateCleanupOnly (at_ 1000000) inode 7 10000000 (identity_of 1) (mkPaidCleanupLimits 1000000 500000);
   step 1000001 (ClaimCleanupSupervisor (identity_of 3));
   step 1000002 (ClaimCleanupOwner (identity_of 2));
   step 1000003 (BindOrchestrator (identity_of 4) (identity_of 1));
   step 1000004 (BindSelectedNodes selected (identity_of 1))].

Definition creating : list Step :=
  setup ++
  [step 1000010 (ReserveCreate 7 1 0 11 "n-1"); ProviderCreates 1 901;
   Transact (failing_sync 1 1000011 everyone) inode (ReserveCreate 7 3 0 13 "n-3");
   PowerLoss 0 true true;
   step 1000012 (ReserveCreate 7 2 0 12 "n-2"); ProviderRejects 2;
   step 1000013 (RecordContract 1 901)].

Definition cleaning : list Step :=
  creating ++
  [step 1000014 (RecordCreateRejection 2); step 1000015 EnterCleanupOnly; ProviderDeletes 901].
Definition cleaned : list Step := cleaning ++ [step 1000016 (CompleteCleanup {[901]})].

(** All five machines created and started, an orchestrator restart under way, and then the shutdown. *)
Definition acquire (n : N) : list Step :=
  [step 1000010 (ReserveCreate 7 n 0 (10 + n) (default EmptyString (label <$> selected !! (N.to_nat n - 1)%nat)));
   ProviderCreates n (900 + n); step 1000011 (RecordContract n (900 + n)); step 1000012 (ReserveBootstrap 7 n)].

Definition shutting_down : list Step :=
  setup ++ mjoin (acquire <$> [1; 2; 3; 4; 5]) ++
  [step 1000020 SealPrepared; step 1000021 (BeginOrchestratorRecovery (identity_of 1));
   step 1000022 (BeginCleanupShutdown (identity_of 1))].

Definition end_of (steps : list Step) : World := world_run world_new steps.
Definition record_of (steps : list Step) : PaidAdmissionSnapshot :=
  match load (at_ 1000020) (disk (end_of steps)) with
  | inl s => s
  | inr _ => new_snapshot 0 [] Selecting 0 None
  end.
Definition ownership_of (steps : list Step) : PaidCleanupOwnership :=
  match cleanup (record_of steps) with
  | Some o => o
  | None => mkPaidCleanupOwnership (identity_of 0) None None None None (mkPaidCleanupLimits 0 0) 0 0 0
              false false false false
  end.
End PaidSample.
