(* ===== verification/PaidSafety.v ===== *)
(** * What the admission of paid machines guarantees

    After every history of [PaidWorld], whatever fails or crashes in it: at most five machines are
    created, none twice, all within the time and money that were set; what a transaction has
    acknowledged is never lost; the record can always be read; and when the cleanup is recorded as
    complete, no machine is left and none can follow. *)

From S2P Require Import Prelude ProcessIdentity PaidAdmission PaidStore PaidMethods PaidRecord PaidValid PaidWorld.
#[local] Open Scope N_scope.

(** ** What a transaction leaves alone *)

(** Unfold a transaction and follow its branches. *)
Ltac open_change H :=
  cbn [perform] in H;
  unfold tick_change, install_cleanup_ownership_change, claim_cleanup_owner_change,
    claim_cleanup_supervisor_change, begin_cleanup_shutdown_change, release_cleanup_change,
    request_cleanup_change, include_cleanup_ownership_change, bind_orchestrator_change,
    bind_selected_nodes_change, begin_orchestrator_recovery_change, retain_development_fixture_change,
    authorize_retained_deployment_change, reserve_retained_bootstrap_change,
    record_accounting_error_change, record_cleanup_absence_change, complete_cleanup_change,
    reserve_create_change, record_create_rejection_change, record_contract_change,
    reserve_bootstrap_change, seal_prepared_change, enter_cleanup_only_change, changed in H;
  repeat head_case H; injection H as <- <-.

Lemma discover_all_frame l s s' :
  discover_all s l = Ok s' →
  cleanup s' = cleanup s ∧ rejected_creates s' = rejected_creates s
  ∧ create_reservations s' = create_reservations s ∧ nodes s' = nodes s.
Proof.
  revert s. induction l as [|[c lab] l IH]; cbn; intros s H; [by injection H as <-|].
  head_case H. destruct (IH _ H) as (-> & -> & -> & ->).
  by apply discover_cases in Heqs0 as [[e ->]|(n & _ & _ & _ & _ & _ & _ & ->)].
Qed.

Lemma frame_reservations sys c s now s' flag :
  perform sys c s now = Ok (s', flag) →
  create_reservations s' = create_reservations s
  ∨ ∃ run node att offer lab, c = ReserveCreate run node att offer lab
      ∧ create_reservations s' = <[node := mkPaidCreateReservation att now]> (create_reservations s).
Proof.
  intros Hp. destruct c; try (open_change Hp; cbn; repeat case_match; by left).
  - rw /= /reconcile_cleanup_discovery_change in Hp. head_case Hp. injection Hp as <- <-. left.
    by destruct (discover_all_frame _ _ _ Heqs0) as (_ & _ & ? & _).
  - open_change Hp. right. eauto 10.
Qed.

Lemma frame_rejected sys c s now s' flag :
  perform sys c s now = Ok (s', flag) →
  rejected_creates s' = rejected_creates s
  ∨ ∃ node, c = RecordCreateRejection node ∧ rejected_creates s' = {[node]} ∪ rejected_creates s.
Proof.
  intros Hp. destruct c; try (open_change Hp; cbn; repeat case_match; by left).
  - rw /= /reconcile_cleanup_discovery_change in Hp. head_case Hp. injection Hp as <- <-. left.
    by destruct (discover_all_frame _ _ _ Heqs0) as (_ & ? & _).
  - open_change Hp. right. eauto.
Qed.

Lemma frame_contracts sys c s now s' flag :
  perform sys c s now = Ok (s', flag) →
  contracts s' = contracts s
  ∨ (∃ node k, c = RecordContract node k ∧ contracts s' = <[node := k]> (contracts s))
  ∨ ∃ discovered, c = ReconcileCleanupDiscovery discovered.
Proof.
  intros Hp. destruct c; try (open_change Hp; cbn; repeat case_match; by left).
  - eauto.
  - open_change Hp; [by left|]. right. left. eauto.
Qed.

Lemma frame_installs sys c s now s' flag o' :
  perform sys c s now = Ok (s', flag) →
  cleanup s = None → cleanup s' = Some o' →
  ∃ r l, new_cleanup_ownership r l (deadline_unix_ms s) now = Ok o' ∧ deadline_unix_ms s' = deadline_unix_ms s.
Proof.
  intros Hp Hn Hs. assert (live_cleanup sys s now = None) as Hl by (by rw /live_cleanup Hn).
  destruct c;
    try (open_change Hp; rw /close_admission /= ?Hn in Hs; repeat case_match; cbn in *; congruence).
  - cbn [perform] in Hp. unfold install_cleanup_ownership_change in Hp. rw Hn in Hp.
    destruct (new_cleanup_ownership _ _ _ _) as [o|] eqn:Ho; [|done]. injection Hp as <- <-.
    cbn in Hs. injection Hs as <-. exists new_runner, new_limits. split; [done|]. by case_bool_decide.
  - rw /= /reconcile_cleanup_discovery_change in Hp. head_case Hp. injection Hp as <- <-.
    destruct (discover_all_frame _ _ _ Heqs0) as (E & _). congruence.
Qed.

(** The receipts of a cleanup: spending has stopped, or more, the accounts are settled. *)
Definition receipt (o : PaidCleanupOwnership) : bool := complete o || spending_stopped o.

(** A property of the ownership that a change does not establish. *)
Definition no_new (f : PaidCleanupOwnership → bool) (s s' : PaidAdmissionSnapshot) : Prop :=
  ∀ o', cleanup s' = Some o' → f o' = true → ∃ o, cleanup s = Some o ∧ f o = true.

Lemma no_new_same f s s' : cleanup s' = cleanup s → no_new f s s'.
Proof. intros E o' Ho' Hr. rw E in Ho'. eauto. Qed.

Lemma no_new_fmap f s s' g :
  cleanup s' = g <$> cleanup s → (∀ o, f (g o) = true → f o = true) → no_new f s s'.
Proof. intros E Hf o' Ho'. rw E in Ho'. destruct (cleanup s); [|done]. injection Ho' as <-. eauto. Qed.

Lemma no_new_some f s s' o o1 :
  cleanup s = Some o → cleanup s' = Some o1 → (f o1 = true → f o = true) → no_new f s s'.
Proof. intros E E' Hr o' Ho'. rw E' in Ho'. injection Ho' as <-. eauto. Qed.

Ltac solve_no_new Hp :=
  left; open_change Hp; repeat match goal with
    | H : live_cleanup _ _ _ = Some _ |- _ => apply live_cleanup_some in H as [H _]
    end; first [by apply no_new_same
               |eapply no_new_some; [eassumption|reflexivity|first [exact (λ H, H)|done]]
               |eapply no_new_fmap; [reflexivity|first [exact (λ _ H, H)|done]]].

Lemma frame_receipt sys c s now s' flag :
  perform sys c s now = Ok (s', flag) →
  no_new receipt s s'
  ∨ ∃ absent, (c = CompleteCleanup absent ∨ c = RecordCleanupAbsence absent)
      ∧ cleanup_unproved absent s = false.
Proof.
  intros Hp. destruct c;
    try (solve_no_new Hp).
  - left. open_change Hp. intros o' [= <-] Hr. rw /new_cleanup_ownership in Heqs0. do 2 head_case Heqs0.
    by injection Heqs0 as <-.
  - left. open_change Hp; [|by apply no_new_same].
    destruct (_ || _); by eapply no_new_some; [eassumption|cbn; rw ?Heqo; reflexivity|].
  - left. open_change Hp.
    destruct (_ || _); by eapply no_new_some; [eassumption|cbn; rw ?Heqo; reflexivity|].
  - left. rw /= /reconcile_cleanup_discovery_change in Hp. head_case Hp. injection Hp as <- <-.
    apply no_new_same. by destruct (discover_all_frame _ _ _ Heqs0) as (? & _).
  - right. cbn [perform] in Hp. rw /record_cleanup_absence_change in Hp. head_case Hp. eauto.
  - right. cbn [perform] in Hp. rw /complete_cleanup_change in Hp. head_case Hp. eauto.
Qed.

Lemma frame_pending sys c s now s' flag :
  perform sys c s now = Ok (s', flag) →
  no_new orchestrator_shutdown_pending s s'
  ∨ ∃ o, cleanup s = Some o ∧ now < stop_unix_ms o.
Proof.
  intros Hp. destruct c; try (solve_no_new Hp).
  - left. open_change Hp. intros o' [= <-] Hr. rw /new_cleanup_ownership in Heqs0. do 2 head_case Heqs0.
    by injection Heqs0 as <-.
  - left. open_change Hp; [|by apply no_new_same].
    destruct (_ || _); by eapply no_new_some; [eassumption|cbn; rw ?Heqo; reflexivity|].
  - left. open_change Hp.
    destruct (_ || _); by eapply no_new_some; [eassumption|cbn; rw ?Heqo; reflexivity|].
  - right. cbn [perform] in Hp. rw /begin_cleanup_shutdown_change in Hp. head_case Hp.
    apply live_cleanup_some in Heqo as [Ho Hl]. rw /live_at in Hl. bool_to_prop. eauto.
  - left. rw /= /reconcile_cleanup_discovery_change in Hp. head_case Hp. injection Hp as <- <-.
    apply no_new_same. by destruct (discover_all_frame _ _ _ Heqs0) as (? & _).
Qed.

Section Safety.
Context {F : SnapshotFormat}.

Lemma run_invariant (I : World → Prop) w steps :
  I w → (∀ w step, I w → I (world_step w step)) → I (world_run w steps).
Proof. intros Hi Hs. by apply (foldl_invariant' I). Qed.

(** ** Money and time *)

(** Running from the start to the end of the cleanup reserve costs no more than was allowed, and the
    reserve ends before the deadline. *)
Definition within_limits (s : PaidAdmissionSnapshot) : Prop :=
  ∀ o, cleanup s = Some o →
    (stop_unix_ms o + PAID_CLEANUP_RESERVE_MS - started_unix_ms o) * hourly_price_microusd (limits o)
      ≤ maximum_cost_microusd (limits o) * 3600000
    ∧ stop_unix_ms o + PAID_CLEANUP_RESERVE_MS ≤ deadline_unix_ms s.

Lemma new_ownership_within r l deadline now o :
  new_cleanup_ownership r l deadline now = Ok o →
  (stop_unix_ms o + PAID_CLEANUP_RESERVE_MS - started_unix_ms o) * hourly_price_microusd (limits o)
    ≤ maximum_cost_microusd (limits o) * 3600000
  ∧ stop_unix_ms o + PAID_CLEANUP_RESERVE_MS ≤ deadline.
Proof.
  rw /new_cleanup_ownership. intros H. do 2 head_case H. injection H as <-. bool_to_prop. cbn.
  set (price := hourly_price_microusd l) in *. set (cost := maximum_cost_microusd l * 3600000) in *.
  set (spend := N.min _ deadline) in *.
  assert (spend - PAID_CLEANUP_RESERVE_MS + PAID_CLEANUP_RESERVE_MS = spend) as -> by lia.
  split; [|lia]. assert (spend - now ≤ cost / price) as Hle.
  { unfold spend, u64_saturating_add. generalize (cost / price). intros q. lia. }
 
  etrans; [by apply N.mul_le_mono_r|]. rw N.mul_comm. by apply N.Div0.mul_div_le.
Qed.

Lemma writes_within sys c s now s' flag :
  within_limits s → writes sys c s now s' flag → within_limits s'.
Proof.
  intros Hw Hwr o' Ho'. pose proof (writes_evolves _ _ _ _ _ _ Hwr) as Hev.
  destruct (cleanup s) as [o|] eqn:Ho.
  - destruct (ev_cleanup _ _ Hev o Ho) as (x & Hx & El & Es & Et). rw Ho' in Hx. injection Hx as <-.
    rw El Es Et (ev_deadline _ _ Hev). by apply Hw.
  - destruct Hwr as [x fl _ Hp _|]; [|by rw /close_admission /= Ho in Ho'].
    destruct (frame_installs _ _ _ _ _ _ _ Hp Ho Ho') as (r & l & Hnew & ->).
    by eapply new_ownership_within.
Qed.

Lemma limits_hold steps : disk_ok within_limits (disk (world_run world_new steps)).
Proof.
  apply (run_invariant (λ w, disk_ok within_limits (disk w))); [apply disk_empty|]. intros w step Hd.
  apply step_disk; [done| |].
  - intros _ s [run l deadline|run deadline r l now o Ho] o' Ho'; [done|]. injection Ho' as <-.
    by eapply new_ownership_within.
  - intros sys handle c s now s' flag _ _ _ _. apply writes_within.
Qed.

(** ** Slots *)

Definition fits (g : Grant) (l : list PaidNodeAdmission) : Prop :=
  ∃ n, n ∈ l ∧ node_id n = g_node g ∧ offer_id n = g_offer g ∧ label n = g_label g.

Definition timely (g : Grant) (s : PaidAdmissionSnapshot) : Prop :=
  ∃ o, cleanup s = Some o ∧ started_unix_ms o ≤ g_time g < stop_unix_ms o.

(** An admitted create occupies its slot in every record that may be the state. *)
Definition slots (gs : list Grant) (selected : list PaidNodeAdmission) (s : PaidAdmissionSnapshot) : Prop :=
  ∀ g, g ∈ gs → nodes s = selected ∧ is_Some (create_reservations s !! g_node g) ∧ timely g s.

Record grants_ok (w : World) : Prop := mkGrantsOk {
  go_distinct : NoDup (g_node <$> grants w);
  go_slots : ∃ selected,
    (grants w ≠ [] → validate_nodes selected = Ok tt ∧ sealed (disk w))
    ∧ (∀ g, g ∈ grants w → fits g selected) ∧ disk_ok (slots (grants w) selected) (disk w);
}.

Lemma slots_evolve gs selected s s' :
  Valid s → evolves s s' → slots gs selected s → slots gs selected s'.
Proof.
  intros Hv Hev Hs g Hg. destruct (Hs g Hg) as (Hn & [r Hr] & o & Ho & Ht).
  destruct (ev_cleanup _ _ Hev o Ho) as (o' & Ho' & El & Es & Et).
  split_and!.
  - rw (ev_nodes _ _ Hev) //. by eapply valid_has_nodes.
  - exists r. by eapply lookup_weaken, ev_create.
  - exists o'. by rw Es Et.
Qed.

Lemma grants_ok_same w step :
  grants_ok w → grants (world_step w step) = grants w → grants_ok (world_step w step).
Proof.
  intros [Hnd (sel & Hne & Hfit & Hd)] E. split; rw E //. exists sel. split_and!; [|done|].
  - intros Hg. destruct (Hne Hg). split; [done|by apply step_sealed].
  - apply step_disk; [done| |].
    + intros Hl s _ g Hg. destruct Hne as [_ [[x Hx] _]]; [by intros E'; rw E' in Hg; apply elem_of_nil in Hg|].
      by rw Hl in Hx.
    + intros sys handle c s now s' flag _ _ _ Hv Hs Hw. eapply slots_evolve; [done| |done].
      by eapply writes_evolves.
Qed.

Lemma disk_single (P : PaidAdmissionSnapshot → Prop) d s :
  state_file d = Some (stored s) → older d = [] → sealed d → Valid s → P s → disk_ok P d.
Proof.
  intros Hs Ho Hl Hv Hp. split; [|done]. intros f Hf. rw /entries Hs Ho elem_of_cons in Hf.
  destruct Hf as [[= ->]|Hf%elem_of_nil]; [eauto|done].
Qed.

Lemma work_gate_pass sys s now :
  work_gate sys s now = Pass →
  mode s = Preparing ∧ now < deadline_unix_ms s
  ∧ ∃ o, cleanup s = Some o ∧ live_at sys o now = true ∧ live sys (runner o) = true
      ∧ some_live sys (orchestrator o) = true ∧ orchestrator_recovery_until_unix_ms o = None
      ∧ owner_lock_held sys = Ok true.
Proof.
  rw /work_gate. intros H. do 3 head_case H. bool_to_prop. destruct (cleanup s) as [o|]; [|done].
  bool_to_prop. destruct (owner_lock_held sys) as [[]|]; try done. split_and!; try done. exists o. by split_and!.
Qed.

(** A create that was admitted: the record before and after. *)
Lemma granted_spec sys handle c d d' b g gs :
  update sys handle c d = (d', Ok b) → grant_of sys c (Ok b) = g :: gs →
  gs = [] ∧ ∃ s s', load sys d = Ok s ∧ Valid s' ∧ state_file d' = Some (stored s') ∧ older d' = []
    ∧ evolves s s' ∧ create_reservations s !! g_node g = None
    ∧ is_Some (create_reservations s' !! g_node g) ∧ nodes s' = nodes s ∧ contracts s' = contracts s
    ∧ rejected_creates s' = rejected_creates s ∧ cleanup s' = cleanup s
    ∧ fits g (nodes s) ∧ timely g s ∧ mode s = Preparing.
Proof.
  intros Hu Hg. destruct (update_spec _ _ _ _ _ _ Hu) as (_ & _ & [[_ [e He]]|Hw]); [done|].
  destruct Hw as (s & now & s' & flag & Hl & Hnow & Hwr & Hst & _ & Ef & Ho). subst flag.
  pose proof (writes_evolves _ _ _ _ _ _ Hwr) as Hev. inversion Hwr as [? ? Hgate Hp Hv Hs' Hfl|]. subst.
  rw /grant_of Hnow in Hg. destruct c; try done. injection Hg as <- <-. split; [done|]. exists s, s'.
  destruct (work_gate_pass _ _ _ (Hgate eq_refl)) as (Hm & _ & o & Hc & Hlive & _).
  rw /live_at in Hlive. cbn [perform] in Hp. rw /reserve_create_change in Hp. do 4 head_case Hp.
  injection Hp as <- <-. bool_to_prop. apply find_some in Heqo0 as [Hin E]. bool_to_prop. cbn.
  split_and!; try done.
  - by apply eq_None_not_Some.
  - by rw lookup_insert_eq.
  - exists p. split_and!; try done. by apply list_elem_of_In.
  - exists o. by split_and!.
Qed.

Lemma grants_ok_step w step : grants_ok w → grants_ok (world_step w step).
Proof.
  intros Hok. destruct step; try (by apply grants_ok_same; [done|cbn; repeat case_match]).
  cbn [world_step]. destruct (update sys handle c (disk w)) as [d' r] eqn:Hu.
  destruct (grant_of sys c r) as [|g gs] eqn:Hg.
  { assert (world_step w (Transact sys handle c)
      = mkWorld d' (grants w ++ []) (machines w) (refused w) (running w)) as <- by (by rw /= Hu Hg).
    apply grants_ok_same; [done|]. by rw /= Hu Hg /= app_nil_r. }
  destruct r as [b|e]; [|by rw /grant_of in Hg; destruct c].
  destruct (granted_spec _ _ _ _ _ _ _ _ Hu Hg) as (-> & s & s' & Hl & Hv' & Hst & Hold & Hev & Hnone
    & Hres & En & _ & _ & Ec & Hfit & Htime & _).
  destruct Hok as [Hnd (sel & Hne & Hfits & Hd)]. destruct (load_ok _ _ _ _ Hd Hl) as (Hv & Hslots & Hst0).
  assert (grants w ≠ [] → nodes s = sel) as Hsel.
  { intros Hg0. destruct (grants w) as [|g0 ?]; [done|]. by destruct (Hslots g0 ltac:(left)). }
  assert (sealed (disk w)) as Hseal.
  { apply (dk_lock _ _ Hd). exists (stored s). rw /entries Hst0. left. }
  assert (sealed d') as Hseal'.
  { destruct (update_spec _ _ _ _ _ _ Hu) as (El & Ed & _), Hseal. split; [by rw El|auto]. }
  split; cbn [grants].
  - rw fmap_app. apply NoDup_app. split; [done|]. split; [|apply NoDup_singleton].
    intros n (g0 & -> & Hg0)%list_elem_of_fmap E%list_elem_of_singleton.
    destruct (Hslots g0 Hg0) as (_ & [x Hx] & _). congruence.
  - exists (nodes s). split_and!.
    + intros _. split; [|done]. pose proof (proj1 (phase_ok s) (va_phase s Hv)) as Hph.
      destruct Hfit as (n & Hn & _). destruct (nodes s); [by apply elem_of_nil in Hn|by destruct Hph].
    + intros g0 [Hg0| ->%list_elem_of_singleton]%elem_of_app; [|done].
      rw Hsel; [by intros E; rw E in Hg0; apply elem_of_nil in Hg0|]. by apply Hfits.
    + eapply disk_single; [done..|]. cbn [grants]. intros g0 [Hg0| ->%list_elem_of_singleton]%elem_of_app.
      * destruct (slots_evolve _ _ _ _ Hv Hev Hslots g0 Hg0) as (_ & ? & ?). by rw En.
      * split_and!; [done..|]. rw /timely Ec. done.
Qed.

Lemma grants_hold steps : grants_ok (world_run world_new steps).
Proof.
  apply (run_invariant grants_ok); [|intros; by apply grants_ok_step].
  split; [constructor|]. exists []. split_and!; [done|by intros g ?%elem_of_nil|apply disk_empty].
Qed.

(** An element of a list is determined by a key without repetition. *)
Lemma key_inj {A B} (f : A → B) l x y : NoDup (f <$> l) → x ∈ l → y ∈ l → f x = f y → x = y.
Proof.
  intros Hnd [i Hi]%list_elem_of_lookup_1 [j Hj]%list_elem_of_lookup_1 E.
  assert (i = j) as ->; [|congruence].
  eapply (NoDup_lookup _ i j (f x) Hnd); by rw list_lookup_fmap ?Hi ?Hj /= ?E.
Qed.

(** C7. At most five machines are ever requested, each for a different node and a
    different offer: whatever the processes, their crashes, losses of power and failures
    of the file system, and even if the record is removed. *)
Theorem creates_bounded steps :
  let w := world_run world_new steps in
  (length (grants w) ≤ 5)%nat ∧ NoDup (g_node <$> grants w) ∧ NoDup (g_offer <$> grants w).
Proof.
  intros w. destruct (grants_hold steps) as [Hnd (sel & Hne & Hfit & _)]. fold w in Hnd, Hne, Hfit.
  destruct (decide (grants w = [])) as [E|E]; [rw E; split_and!; [cbn; lia|constructor..]|].
  destruct (Hne E) as [(Hlen & Hids & Hoffers & _)%validate_nodes_spec _]. split_and!; [|done|].
  - rw -(length_fmap g_node) -Hlen -(length_fmap node_id sel). apply submseteq_length, NoDup_submseteq; [done|].
    intros n (g & -> & (m & Hm & <- & _)%Hfit)%list_elem_of_fmap. apply list_elem_of_fmap. eauto.
  - clear Hne Hlen E. induction (grants w) as [|g gs IH]; [constructor|]. cbn in Hnd |- *.
    apply NoDup_cons in Hnd as [Hg Hnd]. constructor; [|apply IH; [done|]; intros g' ?; apply Hfit; by right].
    intros (g' & Eo & Hg')%list_elem_of_fmap. apply Hg.
    destruct (Hfit g ltac:(left)) as (m & Hm & En & Em & _).
    destruct (Hfit g' ltac:(by right)) as (m' & Hm' & En' & Em' & _).
    assert (m = m') as -> by (eapply (key_inj offer_id); [done..|congruence]).
    apply list_elem_of_fmap. exists g'. split; [congruence|done].
Qed.

(** C29. No machine is requested outside the time that was bought: the ownership in the
    record bounds the cost of running every machine from its start to the end of the
    cleanup reserve, and each request was made between the start and the stop it sets. *)
Theorem spending_within_limits steps sys s o :
  let w := world_run world_new steps in
  load sys (disk w) = Ok s → cleanup s = Some o →
  (stop_unix_ms o + PAID_CLEANUP_RESERVE_MS - started_unix_ms o) * hourly_price_microusd (limits o)
    ≤ maximum_cost_microusd (limits o) * 3600000
  ∧ stop_unix_ms o + PAID_CLEANUP_RESERVE_MS ≤ deadline_unix_ms s
  ∧ ∀ g, g ∈ grants w → started_unix_ms o ≤ g_time g < stop_unix_ms o.
Proof.
  intros w Hl Ho. destruct (load_ok _ _ _ _ (limits_hold steps) Hl) as (_ & Hw & _).
  destruct (Hw o Ho) as [? ?]. split_and!; [done..|]. intros g Hg.
  destruct (grants_hold steps) as [_ (sel & _ & _ & Hd)].
  destruct (load_ok _ _ _ _ Hd Hl) as (_ & Hs & _). destruct (Hs g Hg) as (_ & _ & o' & Ho' & Ht).
  rw Ho in Ho'. by injection Ho' as <-.
Qed.

(** ** Permanence *)

(** The record is never left unreadable: what the state's name refers to, after any failure, can be
    loaded and passes [validate]. *)
Theorem state_always_loads steps sys :
  let w := world_run world_new steps in
  is_Some (state_file (disk w)) → io sys IoOpenState = None →
  ∃ s, load sys (disk w) = Ok s ∧ validate s = Ok tt.
Proof.
  intros w [f Hf] Hio. destruct (dk_entries _ _ (limits_hold steps) f) as (s & -> & Hv & _).
  { fold w. rw /entries Hf. left. }
  exists s. split; [by apply load_stored|by apply validate_ok].
Qed.

(** C28. What a transaction has acknowledged is permanent: once [update] returned [Ok],
    every record that is loaded later, after any crashes, evolves from the one it wrote. *)
Theorem acknowledged_is_permanent before after sys sys1 sys2 handle c flag s s' :
  let w := world_run world_new before in
  (update sys handle c (disk w)).2 = Ok flag →
  let w1 := world_step w (Transact sys handle c) in
  load sys1 (disk w1) = Ok s → load sys2 (disk (world_run w1 after)) = Ok s' → evolves s s'.
Proof.
  intros w Hu w1 Hl Hl'. destruct (update sys handle c (disk w)) as [d' r] eqn:E. cbn in Hu. subst r.
  assert (disk w1 = d') as Ed by (by rw /w1 /= E).
  pose proof (limits_hold before) as Hok. fold w in Hok.
  destruct (update_spec _ _ _ _ _ _ E) as (_ & _ & [[_ [e He]]|Hw]); [done|].
  destruct Hw as (s0 & now & s1 & fl & _ & _ & _ & Hst & _ & _ & Hold).
  assert (disk_ok within_limits (disk w1)) as Hok1.
  { apply step_disk; [done| |].
    - intros Hnl s2 Hf2. destruct Hf2; [by intros ? ?|]. intros o' Ho'. injection Ho' as <-.
      by eapply new_ownership_within.
    - intros ? ? ? ? ? ? ? _ _ _ _. apply writes_within. }
  destruct (load_ok _ _ _ _ Hok1 Hl) as (Hv & _ & Hs). rw Ed Hst in Hs.
  assert (sealed d') as Hseal.
  { rw -Ed. apply (dk_lock _ _ Hok1). eexists. rw /entries Ed Hst. left. }
  assert (disk_ok (evolves s) (disk w1) ∧ sealed (disk w1)) as Hinv.
  { rw Ed. split; [|done]. eapply disk_single; [by rw Hst|done..]. }
  assert (disk_ok (evolves s) (disk (world_run w1 after))) as Hlast; [|by apply (load_ok _ _ _ _ Hlast Hl')].
  apply (run_invariant (λ w, disk_ok (evolves s) (disk w) ∧ sealed (disk w)) w1 after Hinv).
  intros w2 step [Hd2 Hs2]. split; [|by apply step_sealed].
  apply step_disk; [done|by intros Hnl; destruct Hs2 as [[x Hx] _]; rw Hnl in Hx|].
  intros ? ? ? ? ? ? ? _ _ _ _ Hev Hwr. etrans; [done|by eapply writes_evolves].
Qed.

(** ** The end of a cleanup *)

(** What the callers owe: a recorded contract or rejection is the provider's answer for that node, a
    discovered contract is the one of the node its label names, and contracts reported absent do not
    run. *)
Definition honest (w : World) (step : Step) : bool :=
  match step with
  | Transact _ _ (RecordContract node contract) => bool_decide (machines w !! node = Some contract)
  | Transact _ _ (RecordCreateRejection node) => bool_decide (node ∈ refused w)
  | Transact sys _ (ReconcileCleanupDiscovery discovered) =>
      match load sys (disk w) with
      | inl s => bool_decide (map_Forall (λ contract lab,
          Forall (λ n, label n = lab → machines w !! node_id n = Some contract) (nodes s)) discovered)
      | inr _ => true
      end
  | Transact _ _ (CompleteCleanup absent) | Transact _ _ (RecordCleanupAbsence absent) =>
      bool_decide (absent ∩ running w = ∅)
  | _ => true
  end.

Fixpoint honest_run (w : World) (steps : list Step) : bool :=
  match steps with
  | [] => true
  | step :: steps => honest w step && honest_run (world_step w step) steps
  end.

(** Every admitted create has been answered, and no machine runs. *)
Definition settled (w : World) : Prop :=
  ∀ g, g ∈ grants w →
    (∃ contract, machines w !! g_node g = Some contract ∧ (contract ∉ running w)) ∨ g_node g ∈ refused w.

Definition accounted (w : World) (s : PaidAdmissionSnapshot) : Prop :=
  contracts s ⊆ machines w ∧ rejected_creates s ⊆ refused w
  ∧ ∀ o, cleanup s = Some o → receipt o = true → mode s = CleanupOnly ∧ settled w.

Record provider_ok (w : World) : Prop := mkProviderOk {
  pr_granted : ∀ n c, machines w !! n = Some c → n ∈ g_node <$> grants w;
  pr_answer : ∀ n, n ∈ refused w → machines w !! n = None;
  pr_running : ∀ k, k ∈ running w → ∃ n, machines w !! n = Some k;
  pr_accounted : disk_ok (accounted w) (disk w);
}.

Lemma settled_answered w n : settled w → n ∈ g_node <$> grants w → unanswered w n = false.
Proof.
  intros Hs (g & -> & Hg)%list_elem_of_fmap. rw /unanswered.
  destruct (Hs g Hg) as [(c & Hc & _)|Hr].
  - by rw Hc andb_false_r.
  - by rw (bool_decide_true (g_node g ∈ refused w)) // andb_false_r.
Qed.

Lemma unanswered_spec w n : unanswered w n = true →
  n ∈ g_node <$> grants w ∧ machines w !! n = None ∧ (n ∉ refused w).
Proof. rw /unanswered. intros. by bool_to_prop. Qed.

(** A provider's step answers a create no complete record can be waiting for. *)
Lemma provider_accounted w w' :
  disk w' = disk w → machines w ⊆ machines w' → refused w ⊆ refused w' →
  (settled w → settled w') → disk_ok (accounted w) (disk w) → disk_ok (accounted w') (disk w').
Proof.
  intros -> Hm Hr Hs. apply disk_weaken. intros s _ (H1 & H2 & H3).
  split_and!; [by etrans..|]. intros o Ho Hc. destruct (H3 o Ho Hc). auto.
Qed.

Lemma discover_contracts w s contract lab s' :
  discover s contract lab = Ok s' →
  (∀ n, n ∈ nodes s → label n = lab → machines w !! node_id n = Some contract) →
  contracts s ⊆ machines w → contracts s' ⊆ machines w.
Proof.
  intros [[e ->]|(n & Hn & Hl & _ & _ & _ & _ & ->)]%discover_cases Hh Hsub; [done|]. cbn.
  apply insert_subseteq_l; [|done]. eauto.
Qed.

Lemma discover_all_contracts w l s s' :
  discover_all s l = Ok s' →
  (∀ contract lab n, (contract, lab) ∈ l → n ∈ nodes s → label n = lab →
     machines w !! node_id n = Some contract) →
  contracts s ⊆ machines w → contracts s' ⊆ machines w.
Proof.
  revert s. induction l as [|[k lab] l IH]; cbn; intros s H Hh Hsub; [by injection H as <-|].
  head_case H. eapply IH; [done| |].
  - intros k' lab' n Hk Hn. apply Hh; [by right|].
    by apply discover_cases in Heqs0 as [[e ->]|(x & _ & _ & _ & _ & _ & _ & ->)].
  - eapply discover_contracts; [done| |done]. intros n Hn Hlab. eapply Hh; [left|..]; done.
Qed.

Lemma stored_inj s s' : stored s = stored s' → s = s'.
Proof. intros [= E]. pose proof (reads_back s) as H. rw E reads_back in H. by injection H. Qed.

Lemma disk_both (P Q : PaidAdmissionSnapshot → Prop) d :
  disk_ok P d → disk_ok Q d → disk_ok (λ s, P s ∧ Q s) d.
Proof.
  intros [H1 H2] [H3 _]. split; [|done]. intros f Hf.
  destruct (H1 f Hf) as (s & Es & Hv & Hp), (H3 f Hf) as (s' & Es' & _ & Hq).
  exists s. split_and!; [done..|]. rw Es in Es'. by rw (stored_inj _ _ Es').
Qed.

(** No create is unanswered in a record whose cleanup is proved, and no contract in it runs. *)
Lemma proved_settled w sel s absent :
  Valid s → slots (grants w) sel s → contracts s ⊆ machines w → rejected_creates s ⊆ refused w →
  cleanup_unproved absent s = false → absent ∩ running w = ∅ → mode s = CleanupOnly ∧ settled w.
Proof.
  intros Hv Hs Hc Hr Hu Ha. rw /cleanup_unproved in Hu. bool_to_prop. split; [done|]. intros g Hg.
  assert (unresolved_create_labels s = ∅) as Hnone by assumption.
  assert (known_contract_ids s ⊆ absent) as Hknown_absent by assumption.
  destruct (Hs g Hg) as (_ & Hres & _). destruct Hres as [x Hx].
  destruct (va_create s Hv _ _ Hx) as [Hhas _]. apply existsb_exists in Hhas as (n & Hn & E).
  apply N.eqb_eq in E. rw -list_elem_of_In in Hn.
  assert (unresolved s n = false) as Hun.
  { apply not_true_iff_false. intros Hun. assert (label n ∈ unresolved_create_labels s) as Hin; [|by rw Hnone in Hin].
    apply elem_of_list_to_set, list_elem_of_fmap. exists n. split; [done|]. by apply list_elem_of_filter. }
  rw /unresolved E (bool_decide_true (is_Some _)) /= in Hun; [by eexists|].
  destruct (contracts s !! g_node g) as [k|] eqn:Hk.
  - left. exists k. split; [by eapply lookup_weaken|]. intros Hrun.
    assert (k ∈ known_contract_ids s) as Hknown; [|set_solver].
    apply elem_of_union_l, elem_of_union_l, elem_of_list_to_set, elem_of_btree_values. eauto.
  - right. rw bool_decide_true //= in Hun. bool_to_prop. by apply Hr.
Qed.

Lemma writes_accounted w sel sys handle c s now s' flag :
  load sys (disk w) = Ok s → honest w (Transact sys handle c) = true → Valid s →
  slots (grants w) sel s → accounted w s → writes sys c s now s' flag → accounted w s'.
Proof.
  intros Hl Hh Hv Hs (Hc & Hr & Hrec) Hw. pose proof (writes_evolves _ _ _ _ _ _ Hw) as Hev.
  destruct Hw as [s' fl _ Hp _|Ha Hm].
  - split_and!.
    + destruct (frame_contracts _ _ _ _ _ _ Hp) as [->|[(n & k & -> & ->)|[d ->]]]; [done| |].
      * cbn in Hh. bool_to_prop. by apply insert_subseteq_l.
      * cbn [honest] in Hh. rw Hl in Hh. bool_to_prop. cbn [perform] in Hp.
        rw /reconcile_cleanup_discovery_change in Hp. head_case Hp. injection Hp as <- <-.
        eapply discover_all_contracts; [done| |done].
        intros k lab n Hk%elem_of_btree_entries Hn. by apply (proj1 (Forall_forall _ _) (Hh k lab Hk)).
    + destruct (frame_rejected _ _ _ _ _ _ Hp) as [->|(n & -> & ->)]; [done|].
      cbn in Hh. bool_to_prop. set_solver.
    + intros o' Ho' Hro. destruct (frame_receipt _ _ _ _ _ _ Hp) as [Hno|(absent & Hwhich & Hu)].
      * destruct (Hno o' Ho' Hro) as (o & Ho & Hr'). destruct (Hrec o Ho Hr') as [Hm Hset].
        split; [|done]. pose proof (ev_mode _ _ Hev) as Hle. rw Hm in Hle. destruct (mode s'); cbn in Hle; done || lia.
      * assert (absent ∩ running w = ∅) as Habs by (destruct Hwhich as [->| ->]; cbn in Hh; by bool_to_prop).
        destruct (proved_settled _ _ _ _ Hv Hs Hc Hr Hu Habs) as [Hm Hset]. split; [|done].
        pose proof (ev_mode _ _ Hev) as Hle. rw Hm in Hle. destruct (mode s'); cbn in Hle; done || lia.
  - split_and!; [done..|]. intros o' Ho' Hro. cbn in Ho'. destruct (cleanup s) as [o|] eqn:Ho; [|done].
    injection Ho' as <-. split; [done|]. by destruct (Hrec o eq_refl Hro).
Qed.

Lemma fresh_accounted w s : fresh s → accounted w s.
Proof.
  intros [run l deadline|run deadline r l now o Ho]; split_and!; try done; try apply map_empty_subseteq.
  intros o' [= <-] Hr. rw /new_cleanup_ownership in Ho. do 2 head_case Ho. by injection Ho as <-.
Qed.

Lemma settled_running w running' :
  running' ⊆ running w → settled w → settled (mkWorld (disk w) (grants w) (machines w) (refused w) running').
Proof. intros Hsub Hs g Hg. destruct (Hs g Hg) as [(k & Hk & Hr)|]; [left; exists k; set_solver|by right]. Qed.

Lemma provider_ok_transact w sys handle c :
  grants_ok w → provider_ok w → honest w (Transact sys handle c) = true →
  provider_ok (world_step w (Transact sys handle c)).
Proof.
  intros Hg [Hgr Hans Hrun Hacc] Hh. destruct (go_slots _ Hg) as (sel & Hne & Hfit & Hd).
  assert (disk_ok (accounted w) (disk (world_step w (Transact sys handle c)))) as Hstep.
  { eapply (disk_weaken (λ s, accounted w s ∧ slots (grants w) sel s)); [by intros s _ []|].
    apply step_disk; [by apply disk_both| |].
    - intros Hl s Hf. split; [by apply fresh_accounted|]. intros g Hgin.
      destruct Hne as [_ [[x Hx] _]]; [by intros E; rw E in Hgin; apply elem_of_nil in Hgin|]. congruence.
    - intros sys' handle' c' s now s' flag [= <- <- <-] Hl _ Hv [Ha Hs] Hw. split.
      + by eapply writes_accounted.
      + eapply slots_evolve; [done| |done]. by eapply writes_evolves. }
  cbn [world_step] in Hstep |- *. destruct (update sys handle c (disk w)) as [d' r] eqn:Hu.
  cbn in Hstep. split; cbn [grants machines refused running disk]; [|done|done|].
  { intros n k Hk. rw fmap_app. apply elem_of_app. left. eauto. }
  destruct (grant_of sys c r) as [|g gs] eqn:Hgr'; [by rw app_nil_r|].
  destruct r as [b|e]; [|by rw /grant_of in Hgr'; destruct c].
  destruct (granted_spec _ _ _ _ _ _ _ _ Hu Hgr') as (-> & s & s' & Hl & Hv' & Hst & Hold & Hev & _
    & _ & _ & Ec & Er & Eo & _ & _ & Hprep).
  destruct (load_ok _ _ _ _ Hacc Hl) as (Hv & (Hc & Hrj & Hrec) & _).
  assert (sealed d') as Hseal. { apply (dk_lock _ _ Hstep). eexists. rw /entries Hst. left. }
  eapply disk_single; [done..|]. rw /accounted Ec Er Eo. split_and!; [done..|]. intros o Ho Hro.
  destruct (Hrec o Ho Hro) as [Hm _]. congruence.
Qed.

Lemma provider_ok_step w step :
  grants_ok w → provider_ok w → honest w step = true → provider_ok (world_step w step).
Proof.
  intros Hg Hp Hh.
  assert (∀ step, (∀ sys h c, step ≠ Transact sys h c) → disk_ok (accounted w) (disk (world_step w step))) as Hdisk.
  { intros st Hst. apply step_disk; [by destruct Hp|by intros _ s; apply fresh_accounted|].
    intros sys h c s now s' flag ->. by destruct (Hst sys h c). }
  destruct Hp as [Hgr Hans Hrun Hacc]. destruct step; cbn [world_step].
  - split; [done..|]. by apply (Hdisk (Create sys inode run selected deadline)).
  - split; [done..|]. by apply (Hdisk (CreateCleanupOnly sys inode run deadline r l)).
  - by apply provider_ok_transact.
  - split; [done..|]. by apply (Hdisk (PowerLoss choice keep_temporary keep_lock)).
  - split; [done..|]. by apply (Hdisk RemoveState).
  - destruct (unanswered w node) eqn:Hun; [|done]. destruct (unanswered_spec _ _ Hun) as (Hin & Hm & Hr).
    split.
    + cbn. intros n k Hk. apply lookup_insert_Some in Hk as [[-> _]|[_ Hk]]; eauto.
    + cbn. intros n Hn. rw lookup_insert_ne; [set_solver|auto].
    + cbn. intros k [->%elem_of_singleton|[n Hn]%Hrun]%elem_of_union; [exists node; by rw lookup_insert_eq|].
      exists n. rw lookup_insert_ne; [congruence|done].
    + eapply provider_accounted; [..|exact Hacc]; cbn; try done; [by apply insert_subseteq|].
      intros Hs. by rw (settled_answered w node Hs Hin) in Hun.
  - destruct (unanswered w node) eqn:Hun; [|done]. destruct (unanswered_spec _ _ Hun) as (Hin & Hm & Hr).
    split; [done| |done|].
    + cbn. intros n Hn. apply elem_of_union in Hn as [->%elem_of_singleton|Hn]; auto.
    + eapply provider_accounted; [..|exact Hacc]; cbn; try done; [set_solver|].
      intros Hs. by rw (settled_answered w node Hs Hin) in Hun.
  - split; [done..| |].
    + cbn. intros k [Hk _]%elem_of_difference. auto.
    + eapply provider_accounted; [..|exact Hacc]; try done. apply settled_running. set_solver.
Qed.

Lemma honest_holds steps :
  honest_run world_new steps = true → grants_ok (world_run world_new steps) ∧ provider_ok (world_run world_new steps).
Proof.
  assert (grants_ok world_new ∧ provider_ok world_new) as Hinit.
  { split; [apply (grants_hold [])|]. split; [by intros n k Hk|by intros n ?|by intros k ?|apply disk_empty]. }
  revert Hinit. generalize world_new as w.
  induction steps as [|step steps IH]; intros w [Hg Hp] Hh; [done|].
  cbn in Hh |- *. apply andb_true_iff in Hh as [Hh Hhs]. apply IH; [|done].
  split; [by apply grants_ok_step|by apply provider_ok_step].
Qed.

Lemma honest_run_app w l l' : honest_run w (l ++ l') = honest_run w l && honest_run (world_run w l) l'.
Proof. revert w. induction l as [|x l IH]; intros w; [done|]. cbn. by rw IH andb_assoc. Qed.

Lemma settled_nothing_runs w : provider_ok w → settled w → running w = ∅.
Proof.
  intros Hp Hs. apply set_eq. intros k. split; [|set_solver]. intros Hk.
  destruct (pr_running _ Hp k Hk) as [n Hn]. pose proof (pr_granted _ Hp n k Hn) as Hin.
  apply list_elem_of_fmap in Hin as (g & -> & Hg). destruct (Hs g Hg) as [(k' & Hk' & Hr)|Hr]; [congruence|].
  by rw (pr_answer _ Hp _ Hr) in Hn.
Qed.

(** While the record says that the cleanup is complete, or that spending has stopped, no machine runs,
    and every create that was admitted has been answered.  The record may not be durable yet. *)
Theorem complete_record_settles steps sys s o :
  honest_run world_new steps = true →
  let w := world_run world_new steps in
  load sys (disk w) = Ok s → cleanup s = Some o → complete o || spending_stopped o = true →
  running w = ∅
  ∧ (∀ g, g ∈ grants w → is_Some (machines w !! g_node g) ∨ g_node g ∈ refused w)
  ∧ mode s = CleanupOnly.
Proof.
  intros Hh w Hl Ho Hc. destruct (honest_holds steps Hh) as [Hg Hp]. fold w in Hg, Hp.
  destruct (load_ok _ _ _ _ (pr_accounted _ Hp) Hl) as (_ & (_ & _ & Hrec) & _).
  destruct (Hrec o Ho Hc) as [Hm Hset]. split_and!; [by apply settled_nothing_runs| |done].
  intros g Hgin. destruct (Hset g Hgin) as [(k & -> & _)|Hr]; [by left|by right].
Qed.

(** What no step changes once the record is one of a cleanup, for good, and every create is answered. *)
Record closed (w : World) : Prop := mkClosed {
  cl_disk : disk_ok (λ s, mode s = CleanupOnly) (disk w);
  cl_sealed : sealed (disk w);
  cl_settled : settled w;
  cl_running : running w = ∅;
}.

Lemma closed_unanswered w n : closed w → unanswered w n = false.
Proof.
  intros Hc. destruct (unanswered w n) eqn:Hu; [|done]. destruct (unanswered_spec _ _ Hu) as [Hin _].
  by rw (settled_answered w n (cl_settled _ Hc) Hin) in Hu.
Qed.

Lemma closed_step w step :
  closed w → closed (world_step w step)
  ∧ grants (world_step w step) = grants w ∧ machines (world_step w step) = machines w
  ∧ refused (world_step w step) = refused w.
Proof.
  intros Hc. pose proof Hc as [Hd Hseal Hset Hrun].
  assert (disk_ok (λ s, mode s = CleanupOnly) (disk (world_step w step))) as Hd'.
  { apply step_disk; [done|by intros Hnl; destruct Hseal as [[x Hx] _]; rw Hnl in Hx|].
    intros ? ? ? s ? s' ? _ _ _ _ Hm Hw. pose proof (ev_mode _ _ (writes_evolves _ _ _ _ _ _ Hw)) as Hle.
    rw Hm in Hle. destruct (mode s'); cbn in Hle; done || lia. }
  pose proof (step_sealed w step Hseal) as Hseal'.
  destruct step; cbn [world_step] in Hd', Hseal' |- *; rw ?(closed_unanswered w _ Hc);
    try (split; [split; done|done]); try done.
  - destruct (update sys handle c (disk w)) as [d' r] eqn:Hu. cbn in Hd', Hseal' |- *.
    assert (grant_of sys c r = []) as Hg; [|rw Hg app_nil_r; by split; [split|]].
    destruct (grant_of sys c r) as [|g gs] eqn:Hg; [done|].
    destruct r as [b|e]; [|by rw /grant_of in Hg; destruct c].
    destruct (granted_spec _ _ _ _ _ _ _ _ Hu Hg) as (_ & s & s' & Hl & _ & _ & _ & _ & _ & _ & _ & _ & _ & _ & _ & _ & Hm).
    destruct (load_ok _ _ _ _ Hd Hl) as (_ & Hm' & _). congruence.
  - split; [|done]. split; [done..| |by cbn; rw Hrun; set_solver]. apply settled_running; [set_solver|done].
Qed.

Lemma closed_run w steps :
  closed w → closed (world_run w steps)
  ∧ grants (world_run w steps) = grants w ∧ machines (world_run w steps) = machines w
  ∧ refused (world_run w steps) = refused w.
Proof.
  revert w. induction steps as [|step steps IH]; intros w Hc; [done|]. cbn [world_run foldl].
  destruct (closed_step w step Hc) as (Hc1 & <- & <- & <-). by apply IH.
Qed.

Lemma proof_checked sys c absent s now s' flag :
  c = CompleteCleanup absent ∨ c = RecordCleanupAbsence absent → perform sys c s now = Ok (s', flag) →
  cleanup_unproved absent s = false.
Proof.
  intros [->| ->] Hp; cbn [perform] in Hp.
  - rw /complete_cleanup_change in Hp. by head_case Hp.
  - rw /record_cleanup_absence_change in Hp. by head_case Hp.
Qed.

(** The transaction that ends a cleanup, acknowledged, closes the account. *)
Lemma acknowledged_closes w sys handle c absent flag :
  grants_ok w → provider_ok w → honest w (Transact sys handle c) = true →
  c = CompleteCleanup absent ∨ c = RecordCleanupAbsence absent →
  (update sys handle c (disk w)).2 = Ok flag → closed (world_step w (Transact sys handle c)).
Proof.
  intros Hg Hp Hh Hwhich Hok. pose proof (provider_ok_transact w sys handle c Hg Hp Hh) as Hp1.
  destruct (go_slots _ Hg) as (sel & _ & _ & Hd). cbn [world_step] in Hp1 |- *.
  destruct (update sys handle c (disk w)) as [d' r] eqn:Hu. cbn in Hok. subst r.
  assert (grant_of sys c (Ok flag) = []) as Hnone by (by destruct Hwhich as [->| ->]; rw /grant_of).
  rw Hnone app_nil_r in Hp1 |- *.
  destruct (update_spec _ _ _ _ _ _ Hu) as (_ & _ & [[_ [e He]]|Hw]); [done|].
  destruct Hw as (s & now & s' & fl & Hl & _ & Hw & Hst & _ & Efl & Hold). subst fl.
  pose proof (writes_evolves _ _ _ _ _ _ Hw) as Hev. inversion Hw as [? ? _ Hperf Hv' Es Ef|]. subst.
  destruct (load_ok _ _ _ _ Hd Hl) as (Hv & Hslots & _).
  destruct (load_ok _ _ _ _ (pr_accounted _ Hp) Hl) as (_ & (Hc & Hr & _) & _).
  assert (absent ∩ running w = ∅) as Habs by (destruct Hwhich as [->| ->]; cbn in Hh; by bool_to_prop).
  destruct (proved_settled _ _ _ _ Hv Hslots Hc Hr (proof_checked _ _ _ _ _ _ _ Hwhich Hperf) Habs) as [Hm Hset].
  assert (sealed d') as Hseal. { apply (dk_lock _ _ (pr_accounted _ Hp1)). eexists. rw /entries Hst. left. }
  split; cbn; [|done|done|by apply (settled_nothing_runs _ Hp1)].
  eapply disk_single; [done..|]. cbn. pose proof (ev_mode _ _ Hev) as Hle. rw Hm in Hle.
  destruct (mode s'); cbn in Hle; done || lia.
Qed.

(** C11. A cleanup that was acknowledged leaves nothing, for good: if the callers are
    [honest] up to then, and [complete_cleanup] or [record_cleanup_absence] has returned
    [Ok], then no machine runs and every create that was admitted has been answered by
    the provider; and whatever follows, losses of power included, no other create is
    admitted and no machine runs again. *)
Theorem cleanup_leaves_nothing before after sys handle c absent flag :
  honest_run world_new (before ++ [Transact sys handle c]) = true →
  c = CompleteCleanup absent ∨ c = RecordCleanupAbsence absent →
  (update sys handle c (disk (world_run world_new before))).2 = Ok flag →
  let w1 := world_step (world_run world_new before) (Transact sys handle c) in
  let w2 := world_run w1 after in
  (∀ g, g ∈ grants w1 → is_Some (machines w1 !! g_node g) ∨ g_node g ∈ refused w1)
  ∧ running w1 = ∅ ∧ running w2 = ∅
  ∧ grants w2 = grants w1 ∧ machines w2 = machines w1.
Proof.
  intros Hh Hwhich Hok w1 w2. rw honest_run_app /= andb_true_r in Hh. apply andb_true_iff in Hh as [Hh Hh1].
  destruct (honest_holds before Hh) as [Hg Hp].
  pose proof (acknowledged_closes _ sys handle c absent flag Hg Hp Hh1 Hwhich Hok) as Hc. fold w1 in Hc.
  destruct (closed_run w1 after Hc) as (Hc2 & Eg & Em & _).
  split_and!; [|apply Hc|apply Hc2|done|done].
  intros g Hgin. destruct (cl_settled _ Hc g Hgin) as [(k & -> & _)|Hr]; [by left|by right].
Qed.
End Safety.

(** ** The sample run *)

#[local] Existing Instance plain_format.

Lemma spending_within_limits_witness :
  started_unix_ms (PaidSample.ownership_of PaidSample.creating) = 1000000
  ∧ stop_unix_ms (PaidSample.ownership_of PaidSample.creating) = 7900000
  ∧ ∀ g, g ∈ grants (PaidSample.end_of PaidSample.creating) →
      started_unix_ms (PaidSample.ownership_of PaidSample.creating) ≤ g_time g
      < stop_unix_ms (PaidSample.ownership_of PaidSample.creating).
Proof.
  split; [by vm_compute|]. split; [by vm_compute|].
  destruct (spending_within_limits PaidSample.creating (PaidSample.at_ 1000020)
    (PaidSample.record_of PaidSample.creating) (PaidSample.ownership_of PaidSample.creating))
    as (_ & _ & H); [by vm_compute..|exact H].
Defined.

Lemma state_always_loads_witness :
  ∃ s, load (PaidSample.at_ 1000020) (disk (PaidSample.end_of PaidSample.creating)) = Ok s
       ∧ validate s = Ok tt.
Proof.
  apply (state_always_loads PaidSample.creating); [|done]. apply (bool_decide_eq_true_1 _). by vm_compute.
Defined.

Lemma acknowledged_is_permanent_witness :
  let reserve := PaidSample.step 1000010 (ReserveCreate 7 1 0 11 "n-1") in
  let crashes := [PowerLoss 0 false false; PowerLoss 3 true false] in
  evolves (PaidSample.record_of (PaidSample.setup ++ [reserve]))
    (PaidSample.record_of (PaidSample.setup ++ reserve :: crashes)).
Proof.
  intros reserve crashes.
  apply (acknowledged_is_permanent PaidSample.setup crashes (PaidSample.at_ 1000010)
           (PaidSample.at_ 1000020) (PaidSample.at_ 1000020) PaidSample.inode
           (ReserveCreate 7 1 0 11 "n-1") false); by vm_compute.
Defined.

(** The cleanup of the sample run, a loss of power, and another create that is asked for. *)
Lemma cleanup_leaves_nothing_witness :
  let w1 := world_step (PaidSample.end_of PaidSample.cleaning) (PaidSample.step 1000016 (CompleteCleanup {[901]})) in
  let after := [PowerLoss 1 false false; PaidSample.step 1000017 (ReserveCreate 7 3 0 13 "n-3");
                ProviderCreates 3 903] in
  grants w1 ≠ [] ∧ running (world_run w1 after) = ∅ ∧ grants (world_run w1 after) = grants w1.
Proof.
  intros w1 after. split; [by vm_compute|].
  destruct (cleanup_leaves_nothing PaidSample.cleaning after (PaidSample.at_ 1000016) PaidSample.inode
    (CompleteCleanup {[901]}) {[901]} false) as (_ & _ & H2 & H3 & _);
    [by vm_compute|by left|by vm_compute|]. split; [exact H2|exact H3].
Defined.

(** ** Methods at work

    The methods of [PaidMethods] among other processes: whatever they do is a history, so the
    guarantees of [PaidSafety] hold of them; a change that a method makes is never refused by the
    second validation; and the cleanup owner is told to stop spending when the time has come.  The
    last section has a barrier that outlives its reason. *)

(** Well-formedness is kept: a record that passes [validate] still does after every
    transaction, so the validation of [update] before it stores a record refuses nothing
    that the closure of a method has made. [well_called] is what the methods check
    before the transaction; without it, recording recovery in the selecting phase and a
    discovered contract with id zero are what is refused. *)
Theorem transactions_stay_valid sys c s now s' flag :
  validate s = Ok tt → well_called c s → (admits_work c = true → work_gate sys s now = Pass) →
  perform sys c s now = Ok (s', flag) → validate s' = Ok tt.
Proof.
  intros Hv%validate_ok Hw Hg Hp. apply validate_ok. eapply perform_valid; [done..| |done].
  intros Ha. by destruct (work_gate_pass _ _ _ (Hg Ha)) as (? & ? & _).
Qed.

Lemma transactions_stay_valid_witness :
  let s := PaidSample.record_of PaidSample.setup in
  ∃ s', perform (PaidSample.at_ 1000010) (ReserveCreate 7 1 0 11 "n-1") s 1000010 = Ok (s', false)
        ∧ validate s' = Ok tt.
Proof.
  intros s. destruct (perform (PaidSample.at_ 1000010) (ReserveCreate 7 1 0 11 "n-1") s 1000010)
    as [[s' []]|] eqn:Hp; [by vm_compute in Hp| |by vm_compute in Hp].
  exists s'. split; [done|].
  apply (transactions_stay_valid (PaidSample.at_ 1000010) (ReserveCreate 7 1 0 11 "n-1") s 1000010 s' false);
    [by vm_compute|done|by intros _; vm_compute|exact Hp].
Defined.

Section Progress.
Context {F : SnapshotFormat}.

Lemma world_run_app w l1 l2 : world_run w (l1 ++ l2) = world_run (world_run w l1) l2.
Proof. by rw /world_run foldl_app. Qed.

(** A method that runs among other processes is a history of transactions. *)
Lemma run_is_history {A} handle (p : prog A) schedule w :
  ∃ steps, (run handle p schedule w).1 = world_run w steps.
Proof.
  revert schedule w. induction p as [a|B f k IH|k IH|c k IH]; intros [|[others sys] schedule] w;
    try (by exists []); cbn [run].
  - destruct (IH (f sys) schedule (world_run w others)) as [steps ->].
    exists (others ++ steps). by rw world_run_app.
  - destruct (IH (snapshot sys handle (disk (world_run w others))) schedule (world_run w others)) as [steps ->].
    exists (others ++ steps). by rw world_run_app.
  - destruct (IH (update sys handle c (disk (world_run w others))).2 schedule
                (world_step (world_run w others) (Transact sys handle c))) as [steps ->].
    exists (others ++ Transact sys handle c :: steps). by rw world_run_app.
Qed.

(** ** The stop *)

(** What the others may do while the owner looks: transactions at a time past the stop. *)
Definition past (stop : N) (step : Step) : bool :=
  match step with
  | Transact sys _ _ => match unix_ms sys with inl now => stop <=? now | inr _ => true end
  | ProviderCreates _ _ | ProviderRejects _ | ProviderDeletes _ => true
  | _ => false
  end.

(** Closed, and nothing holds the deletion back. *)
Definition released (stop : N) (s : PaidAdmissionSnapshot) : Prop :=
  mode s = CleanupOnly ∧ ∃ o, cleanup s = Some o ∧ stop_unix_ms o = stop
    ∧ orchestrator_shutdown_pending o = false.

Lemma writes_released stop sys c s now s' flag :
  stop ≤ now → released stop s → writes sys c s now s' flag → released stop s'.
Proof.
  intros Hnow (Hm & o & Ho & Est & Hpend) Hw. pose proof (writes_evolves _ _ _ _ _ _ Hw) as Hev.
  split; [pose proof (ev_mode _ _ Hev) as Hle; rw Hm in Hle; destruct (mode s'); cbn in Hle; done || lia|].
  destruct (ev_cleanup _ _ Hev o Ho) as (o' & Ho' & _ & _ & Et). exists o'. split_and!; [done|congruence|].
  apply not_true_iff_false. intros Hp'.
  destruct Hw as [s' fl _ Hp _|_ Hprep]; [|congruence].
  destruct (frame_pending _ _ _ _ _ _ Hp) as [Hno|(x & Hx & Hlt)].
  - destruct (Hno o' Ho' Hp') as (x & Hx & Hxp). congruence.
  - rw Ho in Hx. injection Hx as <-. lia.
Qed.

Definition no_failures (sys : Sys) : Prop := ∀ step, io sys step = None.

Lemma persist_succeeds sys s d : no_failures sys → (persist sys s d).2 = Ok tt.
Proof.
  intros Hio. rw /persist /attempt !Hio (bool_decide_true (None = None)) // andb_true_r.
  by case_bool_decide.
Qed.

Lemma update_succeeds sys handle c d s now s' flag :
  no_failures sys → lock_file d = Some handle → load sys d = Ok s → unix_ms sys = Ok now →
  admits_work c = false → perform sys c s now = Ok (s', flag) → Valid s' →
  (update sys handle c d).2 = Ok flag.
Proof.
  intros Hio Hl Hs Hnow Ha Hp Hv. rw /update /lock Hio Hl N.eqb_refl /= Hs Hnow Ha /commit Hp.
  rw (proj2 (validate_ok s') Hv). pose proof (persist_succeeds sys s' d Hio) as Hper.
  destruct (persist sys s' d) as [d' r]. cbn in Hper. by subst r.
Qed.

(** The record stays in place while only transactions run. *)
Lemma past_present stop w steps :
  forallb (past stop) steps = true → is_Some (state_file (disk w)) →
  is_Some (state_file (disk (world_run w steps))) ∧ lock_file (disk (world_run w steps)) = lock_file (disk w).
Proof.
  revert w. induction steps as [|step steps IH]; intros w Hp Hf; [done|].
  cbn in Hp |- *. apply andb_true_iff in Hp as [Hp Hps].
  assert (is_Some (state_file (disk (world_step w step)))
          ∧ lock_file (disk (world_step w step)) = lock_file (disk w)) as [Hf' El].
  { destruct step; try done; cbn [world_step]; try (by case_match).
    destruct (update sys handle c (disk w)) as [d' r] eqn:Hu. cbn.
    destruct (update_spec _ _ _ _ _ _ Hu) as (El & _ & [[E _]|Hw]); split; try done.
    - rw /entries in E. by injection E as -> _.
    - destruct Hw as (? & ? & ? & ? & _ & _ & _ & -> & _). done. }
  destruct (IH _ Hps Hf') as [? E]. split; [done|]. rw -El. exact E.
Qed.

Lemma past_released stop w steps :
  forallb (past stop) steps = true → disk_ok (released stop) (disk w) → sealed (disk w) →
  disk_ok (released stop) (disk (world_run w steps)).
Proof.
  revert w. induction steps as [|step steps IH]; intros w Hp Hd Hs; [done|].
  cbn in Hp |- *. apply andb_true_iff in Hp as [Hp Hps]. apply IH; [done| |by apply step_sealed].
  apply step_disk; [done|by intros Hnl; destruct Hs as [[x Hx] _]; rw Hnl in Hx|].
  intros sys handle c s now s' flag -> _ Hnow _ Hr Hw. cbn in Hp. rw Hnow in Hp. bool_to_prop.
  by eapply writes_released.
Qed.

(** A transaction of the owner at or after the stop closes the record and releases the cleanup. *)
Lemma tick_at_stop w sys handle identity s o now :
  disk_ok within_limits (disk w) → no_failures sys → lock_file (disk w) = Some handle →
  load sys (disk w) = Ok s → cleanup s = Some o → owner o = Some identity →
  unix_ms sys = Ok now → stop_unix_ms o ≤ now →
  let w' := world_step w (Transact sys handle (Tick identity)) in
  (update sys handle (Tick identity) (disk w)).2 = Ok false ∧ disk_ok (released (stop_unix_ms o)) (disk w')
  ∧ sealed (disk w') ∧ is_Some (state_file (disk w')) ∧ lock_file (disk w') = Some handle.
Proof.
  intros Hok Hio Hlock Hl Ho Hown Hnow Hstop w'. destruct (load_ok _ _ _ _ Hok Hl) as (Hv & _ & Hst).
  set (o1 := set_shutdown_pending (set_heartbeat o now) false).
  set (s' := set_cleanup (set_mode s CleanupOnly) (Some o1)).
  assert (perform sys (Tick identity) s now = Ok (s', false)) as Hp.
  { cbn [perform]. rw /tick_change Ho bool_decide_true //=. by rw (proj2 (N.leb_le _ _) Hstop). }
  assert (Valid s') as Hv' by (by eapply tick_valid).
  pose proof (update_succeeds _ _ (Tick identity) _ _ _ _ _ Hio Hlock Hl Hnow eq_refl Hp Hv') as Hu.
  destruct (update sys handle (Tick identity) (disk w)) as [d' r] eqn:E. cbn in Hu. subst r.
  destruct (update_spec _ _ _ _ _ _ E) as (El & Edur & [[_ [e He]]|Hw]); [done|].
  destruct Hw as (s0 & now0 & s1 & fl & Hl0 & Hnow0 & Hwr & Hs1 & _ & -> & Hold).
  rw Hl in Hl0. injection Hl0 as <-. rw Hnow in Hnow0. injection Hnow0 as <-.
  inversion Hwr as [? ? _ Hp1 _ E1 E2|]. subst. rw Hp in Hp1. injection Hp1 as <-.
  assert (disk w' = d') as -> by (by rw /w' /= E).
  assert (sealed d') as Hseal.
  { destruct (dk_lock _ _ Hok) as [? ?]; [exists (stored s); rw /entries Hst; left|].
    split; [by rw El Hlock|auto]. }
  split_and!; [done| |done|by rw Hs1|by rw El].
  eapply disk_single; [done..|]. split; [done|]. by exists o1.
Qed.

(** The owner is told to stop: when the cleanup owner runs [tick] at or after the stop
    of its ownership and no call of the operating system fails, [tick] returns true,
    whatever happened before and whatever other processes do before each of its two
    steps. *)
Theorem stop_is_signalled before others1 others2 sys1 sys2 handle identity s o now :
  let w := world_run world_new before in
  let w1 := world_run w others1 in
  no_failures sys1 → no_failures sys2 → lock_file (disk w1) = Some handle →
  load sys1 (disk w1) = Ok s → cleanup s = Some o → owner o = Some identity →
  unix_ms sys1 = Ok now → stop_unix_ms o ≤ now → forallb (past (stop_unix_ms o)) others2 = true →
  (run handle (tick identity) [(others1, sys1); (others2, sys2)] w).2 = Some (Ok true).
Proof.
  intros w w1 Hio1 Hio2 Hlock Hl Ho Hown Hnow Hstop Hpast.
  assert (disk_ok within_limits (disk w1)) as Hok.
  { rw /w1 /w -world_run_app. apply limits_hold. }
  destruct (tick_at_stop _ _ _ _ _ _ _ Hok Hio1 Hlock Hl Ho Hown Hnow Hstop) as (Hu & Hrel & Hseal & Hf & El).
  set (w2 := world_step w1 (Transact sys1 handle (Tick identity))) in *.
  destruct (past_present _ _ _ Hpast Hf) as [[f Hf2] El2].
  pose proof (past_released _ _ _ Hpast Hrel Hseal) as Hrel2.
  destruct (dk_entries _ _ Hrel2 f) as (s2 & -> & Hv2 & Hm2 & o2 & Ho2 & _ & Hpend2).
  { rw /entries Hf2. left. }
  cbn [run tick try_bind bind transact take_snapshot]. fold w1. rw Hu. cbn [run try_bind bind]. fold w2.
  rw /snapshot /lock Hio2 El2 El N.eqb_refl /= (load_stored _ _ _ Hv2 Hf2 (Hio2 IoOpenState)).
  cbn [run]. by rw Hm2 Ho2 Hpend2.
Qed.
End Progress.

#[local] Existing Instance plain_format.

Lemma stop_is_signalled_witness :
  (run PaidSample.inode (tick (PaidSample.identity_of 2))
     [([], PaidSample.at_ 7900000); ([PaidSample.step 7900001 RequestCleanup], PaidSample.at_ 7900002)]
     (PaidSample.end_of PaidSample.creating)).2 = Some (Ok true).
Proof.
  apply (stop_is_signalled PaidSample.creating [] [PaidSample.step 7900001 RequestCleanup]
           (PaidSample.at_ 7900000) (PaidSample.at_ 7900002) PaidSample.inode (PaidSample.identity_of 2)
           (PaidSample.record_of PaidSample.creating) (PaidSample.ownership_of PaidSample.creating) 7900000);
    [done..| | | | | | |]; by vm_compute.
Defined.

(** ** A barrier without its reason *)

(** [tick] is documented to withhold deletion only while, among others, the bound orchestrator remains
    live.  During an orchestrator restart it does not look: here the orchestrator is gone, all the
    others are as they were, and [tick] still returns false. *)
Theorem barrier_outlives_orchestrator :
  let w := PaidSample.end_of PaidSample.shutting_down in
  let sys := PaidSample.sys_at 2 1000023 [1; 2; 3] in
  let o := PaidSample.ownership_of PaidSample.shutting_down in
  orchestrator o = Some (PaidSample.identity_of 4)
  ∧ incarnation_present (proc sys) (PaidSample.identity_of 4) = false
  ∧ orchestrator_shutdown_pending o = true
  ∧ (run PaidSample.inode (tick (PaidSample.identity_of 2)) [([], sys); ([], sys)] w).2 = Some (Ok false).
Proof. by vm_compute. Qed.
