(* ===== verification/LogicalPath.v ===== *)
(** * Logical data paths

    [DataPath] and [SessionAccess] ([crates/data-plane/src/path.rs]): the names of the namespace and
    what a session may read and write.  Strings are their bytes.  The source compares paths as text;
    [starts_with_segments] says that it compares them segment by segment. *)

From Stdlib Require Import Ascii.
From S2P Require Import Prelude.

(** ** Text *)

Definition slash : ascii := "/"%char.

(** [str::split('/')] *)
Fixpoint split (s : string) : list string :=
  match s with
  | EmptyString => [""%string]
  | String c s =>
      if bool_decide (c = slash) then ""%string :: split s
      else match split s with [] => [String c EmptyString] | seg :: rest => String c seg :: rest end
  end.

(** [contains] of a character. *)
Fixpoint contains (c : ascii) (s : string) : bool :=
  match s with EmptyString => false | String d s => bool_decide (c = d) || contains c s end.

(** [str::strip_prefix] *)
Fixpoint strip_prefix (prefix s : string) : option string :=
  match prefix, s with
  | EmptyString, _ => Some s
  | String c prefix, String d s => if bool_decide (c = d) then strip_prefix prefix s else None
  | String _ _, EmptyString => None
  end.

Definition starts_with_slash (s : string) : bool :=
  match s with String c _ => bool_decide (c = slash) | EmptyString => false end.

Definition string_tail (s : string) : string :=
  match s with String _ s => s | EmptyString => EmptyString end.

(** ** Paths *)

Inductive DataPathError :=
| NotAbsolute | EmptySegment | DotSegment | Nul | RootNotData | InvalidExecutionId.

#[export] Instance DataPathError_eq_dec : EqDecision DataPathError.
Proof. solve_decision. Defined.

(** The loop over the segments. *)
Fixpoint check_segments (segments : list string) : option DataPathError :=
  match segments with
  | [] => None
  | segment :: rest =>
      if bool_decide (segment = ""%string) then Some EmptySegment
      else if bool_decide (segment = "."%string) || bool_decide (segment = ".."%string)
      then Some DotSegment
      else check_segments rest
  end.

Definition check_path (path : string) : option DataPathError :=
  if negb (starts_with_slash path) then Some NotAbsolute
  else if bool_decide (path = "/"%string) then Some RootNotData
  else if contains zero path then Some Nul
  else check_segments (split (string_tail path)).

(** The field of [DataPath] is private: a value was accepted by [parse]. *)
Definition DataPath : Type := { path : string | check_path path = None }.

Definition as_str (p : DataPath) : string := `p.

Definition parse (path : string) : DataPath + DataPathError :=
  match check_path path as r return check_path path = r → DataPath + DataPathError with
  | None => λ H, inl (path ↾ H)
  | Some e => λ _, inr e
  end eq_refl.

Definition starts_with (p prefix : DataPath) : bool :=
  bool_decide (as_str p = as_str prefix)
  || match strip_prefix (as_str prefix) (as_str p) with
     | Some suffix => starts_with_slash suffix
     | None => false
     end.

(** ** Sessions *)

Record SessionAccess := mkSessionAccess {
  execution_id : string;
  read_prefixes : list DataPath;
  write_prefixes : list DataPath;
}.

Definition validate_session (a : SessionAccess) : unit + DataPathError :=
  let id := execution_id a in
  if bool_decide (id = ""%string) || contains slash id || bool_decide (id = "."%string)
     || bool_decide (id = ".."%string) || contains zero id
  then inr InvalidExecutionId
  else inl tt.

Definition resolve_session (a : SessionAccess) (logical : DataPath) : DataPath + DataPathError :=
  _ <-! validate_session a;
  let resolved :=
    if bool_decide (as_str logical = "/runs/self"%string)
    then ("/runs/" +:+ execution_id a)%string
    else match strip_prefix "/runs/self/" (as_str logical) with
         | Some suffix => ("/runs/" +:+ execution_id a +:+ "/" +:+ suffix)%string
         | None => as_str logical
         end in
  parse resolved.

Definition can_read (a : SessionAccess) (p : DataPath) : bool :=
  existsb (starts_with p) (read_prefixes a).

Definition can_write (a : SessionAccess) (p : DataPath) : bool :=
  existsb (starts_with p) (write_prefixes a).

(** ** Facts *)

#[export] Instance check_path_pi path : ProofIrrel (check_path path = None).
Proof. apply _. Qed.

#[export] Instance DataPath_eq_dec : EqDecision DataPath.
Proof.
  intros p q. destruct (decide (`p = `q)) as [H|H]; [left|right; congruence].
  by apply sig_eq_pi; [apply _|].
Defined.

Lemma parse_as_str p : parse (as_str p) = inl p.
Proof.
  destruct p as [s H]. rw /parse /=.
  generalize (eq_refl (check_path s)).
  generalize (check_path s) at 2 3 as r. intros [e|] H'; [congruence|].
  f_equal. apply sig_eq_pi; [apply _|done].
Qed.

#[export] Instance DataPath_countable : Countable DataPath.
Proof.
  refine (inj_countable as_str (λ s, match parse s with inl p => Some p | inr _ => None end) _).
  intros p. by rw parse_as_str.
Defined.

Lemma parse_ok s p : parse s = inl p → as_str p = s.
Proof.
  rw /parse. generalize (eq_refl (check_path s)).
  generalize (check_path s) at 2 3 as r. intros [e|] H'; [done|]. by injection 1 as <-.
Qed.

Lemma parse_iff s : check_path s = None ↔ ∃ p, parse s = inl p.
Proof.
  split; [intros H; exists (s ↾ H); apply (parse_as_str (s ↾ H))|].
  intros [p Hp]. apply parse_ok in Hp as <-. by destruct p.
Qed.

(** *** Segments *)

Definition segments (p : DataPath) : list string := split (string_tail (as_str p)).

Lemma split_nonempty s : split s ≠ [].
Proof. destruct s as [|c s]; [done|]. cbn. by case_bool_decide; [|destruct (split s)]. Qed.

Lemma split_inj s t : split s = split t → s = t.
Proof.
  revert t. induction s as [|c s IH]; intros [|d t]; cbn; try done.
  - case_bool_decide; [by destruct (split t) eqn:E; [apply split_nonempty in E|]|].
    by destruct (split t).
  - case_bool_decide; [by destruct (split s) eqn:E; [apply split_nonempty in E|]|].
    by destruct (split s).
  - pose proof (split_nonempty s). pose proof (split_nonempty t).
    repeat case_bool_decide; subst; destruct (split s) eqn:Es, (split t) eqn:Et; try done;
      injection 1; intros; subst; f_equal; apply IH; rw Et; congruence.
Qed.

(** The text after a prefix that ends at a separator, or the whole. *)
Lemma split_app_slash s t : split (s +:+ String slash t)%string = split s ++ split t.
Proof.
  induction s as [|c s IH]; [done|].
  change (String c s +:+ String slash t)%string with (String c (s +:+ String slash t)).
  cbn [split]. rw IH. case_bool_decide; [done|].
  destruct (split s) eqn:E; [by apply split_nonempty in E|done].
Qed.

Lemma strip_prefix_spec prefix s suffix :
  strip_prefix prefix s = Some suffix ↔ s = (prefix +:+ suffix)%string.
Proof.
  revert s. induction prefix as [|c prefix IH]; intros s; cbn.
  - split; [by intros [= <-]|by intros ->].
  - change (String c prefix +:+ suffix)%string with (String c (prefix +:+ suffix)).
    destruct s as [|d s]; [done|]. case_bool_decide.
    + subst. rw IH. split; [by intros ->|by intros [= ->]].
    + split; [done|congruence].
Qed.

Lemma split_app_inv s a b :
  split s = a ++ b → a ≠ [] → b ≠ [] →
  ∃ s1 s2, s = (s1 +:+ String slash s2)%string ∧ split s1 = a ∧ split s2 = b.
Proof.
  revert a. induction s as [|c s IH]; intros a H Ha Hb; cbn in H.
  { destruct a as [|x [|y a]]; [done| |done]. by destruct b. }
  case_bool_decide as Hc.
  - destruct a as [|x a]; [done|]. injection H as <- H. subst c.
    destruct (decide (a = [])) as [->|Hn]; [by exists ""%string, s|].
    destruct (IH a H Hn Hb) as (s1&s2&->&<-&<-). by exists (String slash s1), s2.
  - destruct (split s) as [|seg rest] eqn:E; [by apply split_nonempty in E|].
    destruct a as [|x a]; [done|]. injection H as <- ->.
    destruct (IH (seg :: a) eq_refl ltac:(done) Hb) as (s1&s2&->&E1&<-).
    exists (String c s1), s2. split_and!; [done| |done].
    cbn. by rw bool_decide_false // E1.
Qed.

Lemma as_str_cons p : as_str p = String slash (string_tail (as_str p)).
Proof.
  destruct p as [[|c s] H]; cbn; [done|]. revert H. rw /check_path /=.
  case_bool_decide; by [subst|].
Qed.

Lemma segments_inj p q : segments p = segments q → p = q.
Proof.
  intros H%split_inj. apply sig_eq_pi; [apply _|].
  change (as_str p = as_str q). by rw as_str_cons H -as_str_cons.
Qed.

Lemma check_segments_ok l :
  check_segments l = None ↔ Forall (λ s, s ≠ "" ∧ s ≠ "." ∧ s ≠ "..")%string l.
Proof.
  induction l as [|s l IH]; cbn; [done|]. rw Forall_cons -IH.
  repeat case_bool_decide; cbn; naive_solver.
Qed.

Lemma contains_app c s t : contains c (s +:+ t)%string = contains c s || contains c t.
Proof.
  induction s as [|d s IH]; [done|].
  change (String d s +:+ t)%string with (String d (s +:+ t)). cbn. by rw IH orb_assoc.
Qed.

Lemma split_single s : contains slash s = false → split s = [s].
Proof.
  induction s as [|c s IH]; cbn; [done|]. intros [Hc Hs]%orb_false_iff.
  apply bool_decide_eq_false in Hc. rw bool_decide_false; [congruence|]. by rw IH.
Qed.

Lemma check_path_ok s :
  check_path (String slash s) = None ↔ contains zero s = false ∧ check_segments (split s) = None.
Proof.
  rw /check_path /=. case_bool_decide as Hs.
  - injection Hs as ->. cbn. naive_solver.
  - destruct (contains zero s); naive_solver.
Qed.

(** Equal or followed by a separator is: the segments are a prefix. *)
Lemma starts_with_prefix p q : starts_with p q = true ↔ segments q `prefix_of` segments p.
Proof.
  rw /starts_with orb_true_iff bool_decide_eq_true. split.
  - intros [H|H]; [by rw /segments H|].
    destruct (strip_prefix _ _) as [t|] eqn:E; [|done].
    apply strip_prefix_spec in E. destruct t as [|c t]; [done|]. cbn in H. case_bool_decide; [|done].
    subst c. exists (split t). rw /segments {1}E {1}as_str_cons -split_app_slash. done.
  - intros [k Hk]. destruct (decide (k = [])) as [->|Hn].
    { left. rw app_nil_r in Hk. by apply segments_inj in Hk as ->. }
    right. destruct (split_app_inv _ _ _ Hk (split_nonempty _) Hn) as (s1&s2&E&E1&_).
    apply split_inj in E1 as ->.
    assert (strip_prefix (as_str q) (as_str p) = Some (String slash s2)) as ->; [|done].
    apply strip_prefix_spec. by rw as_str_cons E {2}as_str_cons.
Qed.

(** What [resolve] does to the segments. *)
Definition resolve_segments (id : string) (l : list string) : list string :=
  match l with
  | r :: s :: rest =>
      if bool_decide (r = "runs"%string) && bool_decide (s = "self"%string) then r :: id :: rest else l
  | _ => l
  end.

Lemma resolve_segments_other id p :
  as_str p ≠ "/runs/self"%string → strip_prefix "/runs/self/" (as_str p) = None →
  resolve_segments id (segments p) = segments p.
Proof.
  intros H1 H2. destruct (segments p) as [|r [|s rest]] eqn:E; [done..|]. cbn.
  do 2 (case_bool_decide; [subst|done]).
  exfalso. destruct (decide (rest = [])) as [->|Hr].
  - apply H1. rw as_str_cons. change "/runs/self"%string with (String slash "runs/self").
    f_equal. by apply split_inj, E.
  - destruct (split_app_inv (string_tail (as_str p)) ["runs"; "self"]%string rest E ltac:(done) Hr)
      as (s1&s2&E1&E2&_).
    assert (s1 = "runs/self"%string) as -> by by apply split_inj; rw E2.
    assert (strip_prefix "/runs/self/" (as_str p) = Some s2) as E3; [|congruence].
    apply strip_prefix_spec. rw as_str_cons E1. done.
Qed.

(** A path built from parts that were accepted is accepted. *)
Lemma parse_built s l :
  split s = l → contains zero s = false → check_segments l = None →
  ∃ p, parse (String slash s) = inl p ∧ segments p = l.
Proof.
  intros <- H1 H2. destruct (proj1 (parse_iff (String slash s))) as [p Hp]; [by apply check_path_ok|].
  exists p. by rw /segments (parse_ok _ _ Hp).
Qed.

Lemma path_parts p :
  contains zero (string_tail (as_str p)) = false ∧ check_segments (segments p) = None.
Proof. apply check_path_ok. rw -as_str_cons. by destruct p. Qed.

Lemma validate_session_ok a :
  validate_session a = inl tt →
  contains slash (execution_id a) = false ∧ contains zero (execution_id a) = false
  ∧ (execution_id a ≠ "" ∧ execution_id a ≠ "." ∧ execution_id a ≠ "..")%string.
Proof. rw /validate_session. case_match eqn:E; [done|]. by bool_to_prop. Qed.

Lemma resolve_valid a logical :
  validate_session a = inl tt →
  ∃ p, resolve_session a logical = inl p
       ∧ segments p = resolve_segments (execution_id a) (segments logical).
Proof.
  intros Hv. rw /resolve_session Hv. apply validate_session_ok in Hv as (Hs&Hz&Hd).
  destruct (path_parts logical) as [Hz' Hd'].
  case_bool_decide as H1; [|destruct (strip_prefix _ _) as [t|] eqn:E].
  - apply (parse_built ("runs/" +:+ execution_id a)%string).
    + rw (split_app_slash "runs") (split_single (execution_id a)) // /segments H1. done.
    + by rw contains_app Hz.
    + rw /segments H1. apply check_segments_ok. by rw /= !Forall_cons.
  - apply strip_prefix_spec in E. rw /segments E in Hd' |- *. rw E in Hz'. cbn in Hz'.
    apply (parse_built ("runs/" +:+ execution_id a +:+ String slash t)%string).
    + rw (split_app_slash "runs") (split_app_slash (execution_id a)) (split_single (execution_id a)) //.
    + by rw !contains_app Hz.
    + apply check_segments_ok in Hd'. do 2 apply Forall_cons_1 in Hd' as [_ Hd'].
      apply check_segments_ok. by rw /= !Forall_cons.
  - exists logical. by rw parse_as_str resolve_segments_other.
Qed.

Lemma can_prefix l p :
  existsb (starts_with p) l = true ↔ ∃ q, q ∈ l ∧ segments q `prefix_of` segments p.
Proof.
  rw existsb_exists. setoid_rewrite list_elem_of_In. by setoid_rewrite starts_with_prefix.
Qed.

(** A session with a proper identifier can name every path; its own runs are those under
    its identifier, and it is granted a path exactly when the segments of a granted
    prefix lead to it. *)
Theorem session_paths a logical :
  match validate_session a with
  | inr e => resolve_session a logical = inr e
  | inl _ =>
      ∃ p, resolve_session a logical = inl p
           ∧ segments p = resolve_segments (execution_id a) (segments logical)
           ∧ (can_read a p = true ↔ ∃ q, q ∈ read_prefixes a ∧ segments q `prefix_of` segments p)
           ∧ (can_write a p = true ↔ ∃ q, q ∈ write_prefixes a ∧ segments q `prefix_of` segments p)
  end.
Proof.
  destruct (validate_session a) as [[]|e] eqn:Hv; [|by rw /resolve_session Hv].
  destruct (resolve_valid a logical Hv) as (p&Hp&Hs).
  exists p. split_and!; [done..| |]; apply can_prefix.
Qed.
