(* ===== verification/NamespaceStore.v ===== *)
(** * Durable state of the namespace

    [NamespaceStore] and the records it keeps ([crates/data-plane/src/namespace_store.rs]).  A commit
    writes a temporary file, syncs it, renames it over the state and syncs the directory; [Disk] keeps
    the entries that a loss of power can bring back.  A commit can fail at every call, and one that
    fails after the renaming has replaced the state although the caller is told of an error.

    How [serde_json] writes a snapshot is the interface [NamespaceFormat].  The counters that
    [commit_metrics] reports decide nothing and are left out. *)

From Stdlib Require Import Ascii.
From stdpp Require Import pretty.
From S2P Require Import Prelude LogicalPath.
#[local] Open Scope N_scope.

(** ** Records *)

(** The 16 bytes, as the number they spell. *)
Abbreviation OperationId := N (only parsing).

Inductive SourceRecovery :=
| FromFile (path : list N)  (** the bytes of a [PathBuf] *)
| FromActor (actor : ActorAddress) (node : N) (owner : option ActorAddress).

Record PersistedBinding := mkBinding {
  b_length : N;
  b_revision : N;
  b_recovery : SourceRecovery;
}.

(** [MutationRequest] *)
Inductive MutationRequest :=
| MRegister (path : DataPath) (length : N) (recovery : SourceRecovery)
| MBindStream (path : DataPath)
| MUnregister (path : DataPath)
| MRename (source destination : DataPath) (replace : bool).

(** [MutationReceipt]: its one field, the revision. *)
Abbreviation MutationReceipt := N (only parsing).

Inductive MutationRejection :=
| RPathNotFound (path : DataPath)
| RPathExists (path : DataPath)
| RStreamActive (path : DataPath)
| RPathReplaced (path : DataPath).

Inductive PersistedMutationResult :=
| Committed (receipt : MutationReceipt)
| Rejected (rejection : MutationRejection).

Record PersistedOperation := mkOperation {
  o_request : MutationRequest;
  o_result : PersistedMutationResult;
}.

Record StreamIncarnation := mkIncarnation {
  i_epoch : N;
  i_revision : N;
}.

Record NamespaceSnapshot := mkSnapshot {
  schema_version : N;
  authority_epoch : N;
  next_revision : N;
  bindings : gmap DataPath PersistedBinding;
  stream_nodes : gmap DataPath N;
  operations : gmap OperationId PersistedOperation;
  retirements : list ActorAddress;
  stream_retirements : list (ActorAddress * StreamIncarnation);
}.

#[export] Instance SourceRecovery_eq_dec : EqDecision SourceRecovery.
Proof. solve_decision. Defined.
#[export] Instance MutationRequest_eq_dec : EqDecision MutationRequest.
Proof. solve_decision. Defined.
#[export] Instance StreamIncarnation_eq_dec : EqDecision StreamIncarnation.
Proof. solve_decision. Defined.

Definition snapshot_eta (s : NamespaceSnapshot) : NamespaceSnapshot :=
  mkSnapshot (schema_version s) (authority_epoch s) (next_revision s) (bindings s) (stream_nodes s)
    (operations s) (retirements s) (stream_retirements s).
Definition set_authority_epoch s v : NamespaceSnapshot := ltac:(update_field snapshot_eta s authority_epoch v).
Definition set_next_revision s v : NamespaceSnapshot := ltac:(update_field snapshot_eta s next_revision v).
Definition set_bindings s v : NamespaceSnapshot := ltac:(update_field snapshot_eta s bindings v).
Definition set_stream_nodes s v : NamespaceSnapshot := ltac:(update_field snapshot_eta s stream_nodes v).
Definition set_operations s v : NamespaceSnapshot := ltac:(update_field snapshot_eta s operations v).
Definition set_retirements s v : NamespaceSnapshot := ltac:(update_field snapshot_eta s retirements v).
Definition set_stream_retirements s v : NamespaceSnapshot :=
  ltac:(update_field snapshot_eta s stream_retirements v).

Definition SCHEMA_VERSION : N := 1.

(** [NamespaceSnapshot::default] *)
Definition default_snapshot : NamespaceSnapshot :=
  mkSnapshot SCHEMA_VERSION 0 1 ∅ ∅ ∅ [] [].

Inductive NamespaceStoreError :=
| Io (reason : string)
| Corrupt (reason : string)
| UnsupportedSchema (found supported : N)
| RevisionExhausted
| AuthorityEpochExhausted.

(** [Display for NamespaceStoreError] *)
Definition store_error_text (e : NamespaceStoreError) : string :=
  match e with
  | Io reason => "namespace storage I/O failed: " +:+ reason
  | Corrupt reason => "namespace storage is corrupt: " +:+ reason
  | UnsupportedSchema found supported =>
      "unsupported namespace schema " +:+ pretty found +:+ "; supported schema is " +:+ pretty supported
  | RevisionExhausted => "namespace revision exhausted"
  | AuthorityEpochExhausted => "namespace authority epoch exhausted"
  end%string.

(** [values().any(f)] *)
Definition any_value `{Countable K} {V} (f : V → bool) (m : gmap K V) : bool :=
  existsb f ((map_to_list m).*2).

Definition out_of_range (next revision : N) : bool := (revision =? 0) || (next <=? revision).

Definition validate (s : NamespaceSnapshot) : unit + NamespaceStoreError :=
  if negb (schema_version s =? SCHEMA_VERSION)
  then inr (UnsupportedSchema (schema_version s) SCHEMA_VERSION)
  else if next_revision s =? 0 then inr (Corrupt "next namespace revision is zero")
  else if any_value (λ b, out_of_range (next_revision s) (b_revision b)) (bindings s)
          || any_value (out_of_range (next_revision s)) (stream_nodes s)
  then inr (Corrupt "binding revision is outside the committed revision range")
  else if any_value (λ o, match o_result o with
                          | Committed revision => out_of_range (next_revision s) revision
                          | Rejected _ => false
                          end) (operations s)
  then inr (Corrupt "operation revision is outside the committed revision range")
  else inl tt.

(** [checked_add(1).filter(|next| *next != 0)] on a [u64]; a sum that did not overflow passes the filter. *)
Definition checked_succ (n : N) : option N :=
  if u64_max <=? n then None else Some (n + 1).

(** ** Identifiers as text *)

Definition hex_digit (n : N) : ascii :=
  ascii_of_N (if n <? 10 then 48 + n else 87 + n).

(** [format!("{:032x}")]: the lowest [width] digits, the highest first. *)
Fixpoint hex_digits (width : nat) (n : N) : string :=
  match width with
  | O => ""
  | S width => (hex_digits width (n / 16) +:+ String (hex_digit (n mod 16)) "")%string
  end.

(** [char::to_digit(16)] *)
Definition hex_value (c : ascii) : option N :=
  let n := N_of_ascii c in
  if (48 <=? n) && (n <=? 57) then Some (n - 48)
  else if (97 <=? n) && (n <=? 102) then Some (n - 87)
  else if (65 <=? n) && (n <=? 70) then Some (n - 55)
  else None.

Fixpoint hex_number (acc : N) (s : string) : option N :=
  match s with
  | EmptyString => Some acc
  | String c s =>
      match hex_value c with
      | Some d =>
          let acc := acc * 16 + d in
          if 2 ^ 128 <=? acc then None else hex_number acc s
      | None => None
      end
  end.

(** [u128::from_str_radix(_, 16)]: a sign is accepted in front of digits. *)
Definition from_str_radix (s : string) : option N :=
  match s with
  | EmptyString => None
  | String c rest =>
      if bool_decide (c = "+"%char)
      then match rest with EmptyString => None | _ => hex_number 0 rest end
      else hex_number 0 s
  end.

Definition serialize_operation_id (id : OperationId) : string := hex_digits 32 id.

Definition deserialize_operation_id (encoded : string) : option OperationId :=
  if bool_decide (String.length encoded = 32%nat) then from_str_radix encoded else None.

(** ** The file *)

(** [serde_json::to_vec] and [from_slice]; the first fails on a path that is not UTF-8. *)
Class NamespaceFormat := {
  Bytes : Type;
  to_vec : NamespaceSnapshot → Bytes + string;
  from_slice : Bytes → NamespaceSnapshot + string;
  reads_back s bytes : to_vec s = inl bytes → from_slice bytes = inl s;
}.

Section Store.
Context {F : NamespaceFormat}.

Inductive Contents := Partial | Whole (bytes : Bytes).

Record File := mkFile {
  contents : Contents;
  synced : bool;  (** [sync_all] returned *)
}.

(** [older] are the entries the state's name may have again after a loss of power: those it had since
    the directory was last synced. *)
Record Disk := mkDisk {
  state_file : option File;
  older : list (option File);
  temporary : option File;
}.

Definition empty_disk : Disk := mkDisk None [] None.

(** The calls of the operating system in [persist_with_failpoint]; the failpoints of the tests are
    failures of [IoRename] and [IoSyncParent]. *)
Inductive IoStep := IoPath | IoCreateDir | IoCreate | IoWrite | IoSync | IoRename | IoSyncParent.

#[export] Instance IoStep_eq_dec : EqDecision IoStep.
Proof. solve_decision. Defined.

(** What goes wrong in one commit: the call, its error, and whether the temporary stays. *)
Record Fault := mkFault {
  at_step : IoStep;
  reason : string;
  keeps_temporary : bool;
}.

Definition fails (fault : option Fault) (step : IoStep) : option NamespaceStoreError :=
  match fault with
  | Some f => if bool_decide (at_step f = step) then Some (Io (reason f)) else None
  | None => None
  end.

(** [if write_result.is_err() { let _ = fs::remove_file(&temporary); }] *)
Definition clean_up (fault : option Fault) (d : Disk) : Disk :=
  if default false (keeps_temporary <$> fault) then d
  else mkDisk (state_file d) (older d) None.

Definition persist (fault : option Fault) (s : NamespaceSnapshot) (d : Disk)
    : (unit + NamespaceStoreError) * Disk :=
  let attempt step (d' : Disk) k :=
    match fails fault step with Some e => (inr e, clean_up fault d') | None => k d' end in
  match fails fault IoPath, fails fault IoCreateDir, to_vec s with
  | Some e, _, _ => (inr e, d)
  | _, Some e, _ => (inr e, d)
  | _, _, inr e => (inr (Corrupt e), d)
  | None, None, inl bytes =>
      attempt IoCreate d (λ d,
      let d := mkDisk (state_file d) (older d) (Some (mkFile Partial false)) in
      attempt IoWrite d (λ d,
      let d := mkDisk (state_file d) (older d) (Some (mkFile (Whole bytes) false)) in
      attempt IoSync d (λ d,
      let d := mkDisk (state_file d) (older d) (Some (mkFile (Whole bytes) true)) in
      attempt IoRename d (λ d,
      let d := mkDisk (temporary d) (state_file d :: older d) None in
      attempt IoSyncParent d (λ d,
      (inl tt, mkDisk (state_file d) [] None))))))
  end.

(** [NamespaceStore]: the path is fixed, the snapshot is what it holds. *)
Definition commit (fault : option Fault) (next : NamespaceSnapshot) (held : NamespaceSnapshot) (d : Disk)
    : (unit + NamespaceStoreError) * NamespaceSnapshot * Disk :=
  match validate next with
  | inr e => (inr e, held, d)
  | inl _ =>
      let '(r, d) := persist fault next d in
      match r with inl _ => (inl tt, next, d) | inr e => (inr e, held, d) end
  end.

(** [open], which meets an error of its own or the file. *)
Definition open (error : option string) (d : Disk) : NamespaceSnapshot + NamespaceStoreError :=
  match error with
  | Some e => inr (Io e)
  | None =>
      match state_file d with
      | None => inl default_snapshot
      | Some (mkFile Partial _) => inr (Corrupt "unfinished")
      | Some (mkFile (Whole bytes) _) =>
          match from_slice bytes with
          | inr e => inr (Corrupt e)
          | inl s => _ <-! validate s; inl s
          end
      end
  end.

Definition advance_authority_epoch (fault : option Fault) (held : NamespaceSnapshot) (d : Disk)
    : (N + NamespaceStoreError) * NamespaceSnapshot * Disk :=
  match checked_succ (authority_epoch held) with
  | None => (inr AuthorityEpochExhausted, held, d)
  | Some epoch =>
      let '(r, held, d) := commit fault (set_authority_epoch held epoch) held d in
      (_ <-! r; inl (authority_epoch held), held, d)
  end.

(** A loss of power: the name of the state has one of the entries that were not yet superseded
    durably, and a file that was not synced may be cut. *)
Definition settle (cut : bool) (f : File) : File :=
  if cut && negb (synced f) then mkFile Partial true else mkFile (contents f) true.

Definition power_loss (choice : nat) (cut keep : bool) (d : Disk) : Disk :=
  mkDisk (settle cut <$> default (state_file d) ((state_file d :: older d) !! choice)) []
    (if keep then settle cut <$> temporary d else None).

(** ** What the store promises *)

(** The snapshot an entry of the directory gives back. *)
Definition gives (e : option File) (s : NamespaceSnapshot) : Prop :=
  (e = None ∧ s = default_snapshot)
  ∨ ∃ bytes, e = Some (mkFile (Whole bytes) true) ∧ to_vec s = inl bytes.

Definition entries (d : Disk) : list (option File) := state_file d :: older d.

(** Whatever happens to the machine now, a directory that starts next finds a snapshot with [P]. *)
Definition recoverable (P : NamespaceSnapshot → Prop) (d : Disk) : Prop :=
  Forall (λ e, ∃ s, gives e s ∧ validate s = inl tt ∧ P s) (entries d).

Lemma recoverable_impl (P Q : NamespaceSnapshot → Prop) d :
  (∀ s, P s → Q s) → recoverable P d → recoverable Q d.
Proof. intros H Hd. eapply Forall_impl; [exact Hd|]. naive_solver. Qed.

Lemma persist_cases fault s d r d' :
  persist fault s d = (r, d') →
  (∃ e, r = inr e ∧ entries d' = entries d)
  ∨ ∃ bytes, to_vec s = inl bytes ∧ state_file d' = Some (mkFile (Whole bytes) true)
      ∧ ((∃ e, r = inr e ∧ older d' = entries d) ∨ (r = inl tt ∧ older d' = [])).
Proof.
  rw /persist /clean_up. intros H.
  repeat (match type of H with
          | (if ?b then _ else _) = _ => destruct b
          | (match ?x with _ => _ end) = _ => destruct x eqn:?
          end; cbn in H);
    injection H as <- <-; try destruct (default false _); cbn; eauto 10.
Qed.

(** A commit that fails leaves what is held; the file may have been replaced.  One that succeeds has
    left nothing else to find. *)
Lemma commit_spec fault next held d r held' d' :
  commit fault next held d = (r, held', d') →
  (∀ P : NamespaceSnapshot → Prop, P next → recoverable P d → recoverable P d')
  ∧ ((∃ e, r = inr e ∧ held' = held) ∨ (r = inl tt ∧ held' = next ∧ recoverable (eq next) d')).
Proof.
  rw /commit. intros H. destruct (validate next) as [[]|e] eqn:Hv.
  2: { injection H as <- <- <-. eauto. }
  destruct (persist fault next d) as [r1 d1] eqn:Hp.
  apply persist_cases in Hp as [(e&->&He)|(bytes&Hb&Hs&[(e&->&He)|[-> He]])];
    injection H as <- <- <-; rw /recoverable.
  - split; [by rw He|eauto].
  - split; [|eauto]. intros P HP Hd. rw /entries Hs He. constructor; [|done].
    exists next. split_and!; [by right; eauto|done..].
  - rw /entries Hs He. split; [intros P HP _|right; split_and!; [done..|]];
      (constructor; [|done]); exists next; (split_and!; [by right; eauto|done..]).
Qed.

Lemma open_gives error d s :
  open error d = inl s → ∀ P, recoverable P d → P s ∧ validate s = inl tt.
Proof.
  rw /open. intros H P [Hd _]%Forall_cons_1. destruct Hd as (s'&Hg&Hv&HP).
  destruct error; [done|]. destruct Hg as [[E ->]|(bytes&E&Hb)]; rw E in H.
  - by injection H as <-.
  - rw (reads_back _ _ Hb) Hv in H. by injection H as <-.
Qed.

(** An entry that was written can be read. *)
Lemma open_total P d : recoverable P d → ∃ s, open None d = inl s.
Proof.
  intros [(s&Hg&Hv&_) _]%Forall_cons_1. exists s. rw /open.
  destruct Hg as [[-> ->]|(bytes&->&Hb)]; [done|]. by rw (reads_back _ _ Hb) Hv.
Qed.

Lemma power_loss_recoverable P choice cut keep d :
  recoverable P d → recoverable P (power_loss choice cut keep d).
Proof.
  intros Hd. rw /recoverable /entries /=. constructor; [|done].
  assert (∃ s, gives (default (state_file d) (entries d !! choice)) s ∧ validate s = inl tt ∧ P s)
    as (s&Hg&Hv&HP).
  { destruct (entries d !! choice) eqn:E; cbn.
    - by eapply Forall_lookup_1 in Hd.
    - by apply Forall_cons_1 in Hd as [? _]. }
  exists s. split_and!; [|done..].
  destruct Hg as [[E ->]|(bytes&E&Hb)]; rw /entries in E; rw E /=; [by left|].
  right. exists bytes. by rw /settle andb_false_r.
Qed.

Lemma empty_disk_recoverable (P : NamespaceSnapshot → Prop) :
  P default_snapshot → recoverable P empty_disk.
Proof. intros H. constructor; [|done]. exists default_snapshot. split; [by left|done]. Qed.

End Store.

Lemma any_value_false `{Countable K} {V} (f : V → bool) (m : gmap K V) :
  any_value f m = false ↔ ∀ k v, m !! k = Some v → f v = false.
Proof.
  rw /any_value -not_true_iff_false existsb_exists. split.
  - intros Hn k v Hk. apply not_true_iff_false. intros Hv. apply Hn. exists v. split; [|done].
    apply list_elem_of_In, list_elem_of_fmap. exists (k, v). split; [done|].
    by apply elem_of_map_to_list.
  - intros Hf (v&Hv&Hv'). apply list_elem_of_In, list_elem_of_fmap in Hv as ([k v']&->&Hk).
    apply elem_of_map_to_list in Hk. by rw (Hf _ _ Hk) in Hv'.
Qed.

Lemma out_of_range_false next r : out_of_range next r = false ↔ 0 < r < next.
Proof. rw /out_of_range orb_false_iff N.eqb_neq N.leb_gt. lia. Qed.

Lemma validate_iff s :
  validate s = inl tt ↔
  schema_version s = SCHEMA_VERSION ∧ next_revision s ≠ 0
  ∧ (∀ p b, bindings s !! p = Some b → 0 < b_revision b < next_revision s)
  ∧ (∀ p r, stream_nodes s !! p = Some r → 0 < r < next_revision s)
  ∧ (∀ id q r, operations s !! id = Some (mkOperation q (Committed r)) → 0 < r < next_revision s).
Proof.
  setoid_rewrite <-out_of_range_false. rw /validate.
  destruct (N.eqb_spec (schema_version s) SCHEMA_VERSION); [|naive_solver]. cbn [negb].
  destruct (N.eqb_spec (next_revision s) 0); [naive_solver|].
  destruct (any_value _ (bindings s)) eqn:E1; cbn [orb].
  { split; [done|]. intros (_&_&H&_). apply not_false_iff_true in E1. destruct E1.
    apply any_value_false. naive_solver. }
  destruct (any_value _ (stream_nodes s)) eqn:E2.
  { split; [done|]. intros (_&_&_&H&_). apply not_false_iff_true in E2. destruct E2.
    apply any_value_false. naive_solver. }
  destruct (any_value _ (operations s)) eqn:E3.
  { split; [done|]. intros (_&_&_&_&H). apply not_false_iff_true in E3. destruct E3.
    apply any_value_false. intros k [q [r|]]; cbn; naive_solver. }
  rw any_value_false in E1. rw any_value_false in E2. rw any_value_false in E3.
  split; [intros _|done]. split_and!; [done..|intros; by eapply E1|intros; by eapply E2|].
  intros id q r H. by apply (E3 _ _ H).
Qed.

(** ** Identifiers read back *)

Lemma hex_value_digit n : n < 16 → hex_value (hex_digit n) = Some n.
Proof.
  intros H.
  assert (Hall : Forall (λ n, hex_value (hex_digit n) = Some n) (N.of_nat <$> seq 0 16)) by by repeat constructor.
  rw Forall_forall in Hall. apply Hall, list_elem_of_fmap. exists (N.to_nat n).
  rw N2Nat.id elem_of_seq. lia.
Qed.

Lemma hex_number_snoc acc s c :
  hex_number acc (s +:+ String c "")%string =
  match hex_number acc s with Some v => hex_number v (String c "") | None => None end.
Proof.
  revert acc. induction s as [|d s IH]; intros acc; [done|].
  change (String d s +:+ String c "")%string with (String d (s +:+ String c "")).
  cbn [hex_number]. destruct (hex_value d); [|done]. case_match; [done|]. apply IH.
Qed.

Lemma hex_number_digits width n :
  n < 2 ^ 128 → n < 16 ^ N.of_nat width → hex_number 0 (hex_digits width n) = Some n.
Proof.
  revert n. induction width as [|width IH]; intros n Hn Hw.
  { cbn in Hw. by replace n with 0 by lia. }
  rw Nat2N.inj_succ N.pow_succ_r' in Hw. cbn [hex_digits].
  pose proof (N.div_mod n 16 ltac:(done)) as Hdm. pose proof (N.mod_lt n 16 ltac:(done)).
  assert (n / 16 < 2 ^ 128 ∧ n / 16 < 16 ^ N.of_nat width) as [? ?].
  { split; [|by apply N.Div0.div_lt_upper_bound].
    eapply N.le_lt_trans; [|exact Hn]. by apply N.Div0.div_le_upper_bound; lia. }
  rw hex_number_snoc IH //. cbn [hex_number]. rw hex_value_digit //.
  replace (n / 16 * 16 + n mod 16) with n by lia. by rw (proj2 (N.leb_gt _ _) Hn).
Qed.

Lemma string_length_snoc s c : String.length (s +:+ String c "")%string = S (String.length s).
Proof.
  induction s as [|d s IH]; [done|].
  change (String d s +:+ String c "")%string with (String d (s +:+ String c "")). cbn. by rw IH.
Qed.

Lemma hex_digits_length width n : String.length (hex_digits width n) = width.
Proof.
  revert n. induction width as [|width IH]; intros n; [done|].
  cbn [hex_digits]. by rw string_length_snoc IH.
Qed.

Lemma hex_digit_not_plus n : n < 16 → hex_digit n ≠ "+"%char.
Proof. intros H E. pose proof (hex_value_digit n H) as Hv. by rw E in Hv. Qed.

Lemma hex_digits_head width n c s : hex_digits width n = String c s → c ≠ "+"%char.
Proof.
  revert n c s. induction width as [|width IH]; intros n c s; cbn [hex_digits]; [done|].
  destruct (hex_digits width (n / 16)) as [|d t] eqn:E.
  - injection 1 as <- _. apply hex_digit_not_plus, N.mod_lt. done.
  - intros [= <- _]. by eapply IH.
Qed.

(** The identifier of an operation is stored as 32 digits and read back. *)
Theorem operation_id_reads_back id :
  id < 2 ^ 128 → deserialize_operation_id (serialize_operation_id id) = Some id.
Proof.
  intros H. rw /deserialize_operation_id /serialize_operation_id bool_decide_true; [by rw hex_digits_length|].
  rw /from_str_radix. destruct (hex_digits 32 id) as [|c s] eqn:E.
  { pose proof (hex_digits_length 32 id) as Hl. by rw E in Hl. }
  rw bool_decide_false; [by eapply hex_digits_head|]. rw -E. by apply hex_number_digits.
Qed.
