(* ===== verification/NamespaceDirectory.v ===== *)
(** * The namespace directory

    [DataDirectoryActor] ([crates/data-plane/src/namespace.rs]): the one authority over the paths of
    the data plane.  Mutations are logged under the identifier their client chose, so that a frame that
    was lost or sent twice is answered as the first one was; sources that lost their path and stream
    endpoints that were displaced are told until they acknowledge.

    A handler takes the state [St]: the actor, the disk, what will go wrong in the commits to come and
    what was sent.  The iteration order of a [HashMap] and the routes are those of [Env]; a [BTreeMap]
    iterates in the order of the path's text. *)

From Stdlib Require Import Ascii.
From stdpp Require Import pretty.
From S2P Require Import Prelude LogicalPath NamespaceStore.
#[local] Open Scope N_scope.

(** ** Messages *)

Inductive EntryKind := Blob | Stream.
Inductive StreamRole := Source | Sink.

#[export] Instance EntryKind_eq_dec : EqDecision EntryKind.
Proof. solve_decision. Defined.
#[export] Instance StreamRole_eq_dec : EqDecision StreamRole.
Proof. solve_decision. Defined.

Abbreviation DirectoryRequestId := N (only parsing).

Record BlobBinding := mkBlobBinding {
  bb_source : ActorAddress;
  bb_source_node : N;
  bb_owner : option ActorAddress;
  bb_length : N;
  bb_revision : N;
}.

Record NamespaceNode := mkNamespaceNode {
  n_kind : EntryKind;
  n_revision : N;
  n_active : bool;
}.

Record StreamMatch := mkStreamMatch {
  m_incarnation : StreamIncarnation;
  m_source : ActorAddress;
  m_source_descriptor : list N;
  m_sink_descriptor : list N;
  m_sink : ActorAddress;
  m_revision : N;
}.

Inductive NamespaceError :=
| PathNotFound (path : DataPath)
| PathExists (path : DataPath)
| WrongEntryType (path : DataPath) (expected found : EntryKind)
| PathReplaced (path : DataPath)
| DuplicateStreamRole (path : DataPath) (role : StreamRole)
| StaleIncarnation (path : DataPath) (incarnation : StreamIncarnation)
| OperationConflict (operation : OperationId)
| StreamActive (path : DataPath)
| Storage (reason : string)
| SourceRecoveryFailed (reason : string)
| DirectoryUnavailable (reason : string)
| Protocol (reason : string).

Definition entry_kind_debug (k : EntryKind) : string :=
  match k with Blob => "Blob" | Stream => "Stream" end.
Definition stream_role_debug (r : StreamRole) : string :=
  match r with Source => "Source" | Sink => "Sink" end.

(** [{:02x?}] of the bytes of an identifier, the last [n] of them. *)
Fixpoint bytes_debug (n : nat) (id : N) : string :=
  match n with
  | O => ""
  | S O => hex_digits 2 (id mod 256)
  | S n => bytes_debug n (id / 256) +:+ ", " +:+ hex_digits 2 (id mod 256)
  end%string.

(** [Display for NamespaceError] *)
Definition namespace_error_text (e : NamespaceError) : string :=
  match e with
  | PathNotFound path => "data path not found: " +:+ as_str path
  | PathExists path => "data path already exists: " +:+ as_str path
  | WrongEntryType path expected found =>
      "data path " +:+ as_str path +:+ " has entry kind " +:+ entry_kind_debug found
      +:+ ", expected " +:+ entry_kind_debug expected
  | PathReplaced path => "pending data path was replaced: " +:+ as_str path
  | DuplicateStreamRole path role =>
      "stream path " +:+ as_str path +:+ " already has a " +:+ stream_role_debug role
  | StaleIncarnation path i =>
      "stream path " +:+ as_str path +:+ " no longer names incarnation " +:+ pretty (i_epoch i)
      +:+ ":" +:+ pretty (i_revision i)
  | OperationConflict operation =>
      "namespace operation ID [" +:+ bytes_debug 16 operation +:+ "] was reused for a different request"
  | StreamActive path => "stream path " +:+ as_str path +:+ " has active or pending endpoints"
  | Storage reason => "namespace persistence failed: " +:+ reason
  | SourceRecoveryFailed reason => "namespace source recovery failed: " +:+ reason
  | DirectoryUnavailable reason => "namespace directory is unavailable: " +:+ reason
  | Protocol reason => "namespace protocol failed: " +:+ reason
  end%string.

(** [From<NamespaceStoreError>] *)
Definition from_store (e : NamespaceStoreError) : NamespaceError := Storage (store_error_text e).

Record StreamOpenRequest := mkOpen {
  s_request_id : DirectoryRequestId;
  s_path : DataPath;
  s_role : StreamRole;
  s_endpoint : ActorAddress;
  s_replace : bool;
  s_ensure : bool;
  s_expected_revision : option N;
  s_descriptor : list N;
  s_operation_id : OperationId;
  s_reply_to : ActorAddress;
}.

Inductive DataDirectoryIn :=
| Register (request_id : DirectoryRequestId) (path : DataPath) (source : ActorAddress)
    (source_node length : N) (recovery : SourceRecovery) (operation_id : OperationId)
    (reservation : option OperationId) (reply_to : ActorAddress)
| Resolve (request_id : DirectoryRequestId) (path : DataPath) (reply_to : ActorAddress)
| Lookup (request_id : DirectoryRequestId) (path : DataPath) (reply_to : ActorAddress)
| ReserveBlob (request_id : DirectoryRequestId) (path : DataPath) (operation_id : OperationId)
    (reply_to : ActorAddress)
| ReleaseBlobReservation (request_id : DirectoryRequestId) (path : DataPath)
    (operation_id : OperationId) (reply_to : ActorAddress)
| Unregister (request_id : DirectoryRequestId) (path : DataPath) (operation_id : OperationId)
    (reply_to : ActorAddress)
| Rename (request_id : DirectoryRequestId) (source destination : DataPath) (replace : bool)
    (operation_id : OperationId) (reply_to : ActorAddress)
| OpenStream (request : StreamOpenRequest)
| CancelStream (request_id : DirectoryRequestId) (path : DataPath) (operation_id : OperationId)
    (reply_to : option ActorAddress)
| CloseStream (request_id : DirectoryRequestId) (path : DataPath) (incarnation : StreamIncarnation)
    (reply_to : ActorAddress)
| SourceRetired (source : ActorAddress)
| StreamDisplaced (endpoint : ActorAddress) (incarnation : StreamIncarnation)
| RetryRetirements
| RetirementRouteChanged (target : ActorAddress).

(** [DataDirectoryOut]: every answer carries the request and the epoch; the rest is the result. *)
Inductive DirectoryResult :=
| Registered (result : MutationReceipt + NamespaceError)
| Resolved (result : BlobBinding + NamespaceError)
| LookedUp (result : NamespaceNode + NamespaceError)
| BlobReserved (result : unit + NamespaceError)
| BlobReservationReleased (result : unit + NamespaceError)
| Unregistered (result : MutationReceipt + NamespaceError)
| Renamed (result : MutationReceipt + NamespaceError)
| StreamOpened (result : StreamMatch + NamespaceError)
| StreamClosed (result : unit + NamespaceError)
| StreamCancelled (result : unit + NamespaceError).

Record DataDirectoryOut := mkOut {
  out_request_id : DirectoryRequestId;
  out_authority_epoch : N;
  out_result : DirectoryResult;
}.

Inductive Message :=
| Retire (reply_to : option ActorAddress)  (** [BlobSourceIn::Retire] *)
| Displaced (incarnation : StreamIncarnation) (reply_to : option ActorAddress)
    (** [HostStreamIn::Displaced] *)
| DirectoryReply (out : DataDirectoryOut).  (** [NamespaceClientIn::DirectoryReply] *)

(** ** State *)

Inductive RuntimeSource :=
| Available (actor : ActorAddress) (node : N) (owner : option ActorAddress)
| Unavailable (reason : string).

Record PendingStream := mkPending {
  p_role : StreamRole;
  p_endpoint : ActorAddress;
  p_operation_id : OperationId;
  p_request_id : DirectoryRequestId;
  p_descriptor : list N;
  p_reply_to : ActorAddress;
  p_revision : N;
  p_opened_from_revision : option N;
}.

Record ActiveStream := mkActive {
  a_binding : StreamMatch;
  a_source_operation : OperationId;
  a_sink_operation : OperationId;
}.

Inductive RuntimeStream := Pending (pending : PendingStream) | Active (active : ActiveStream).

Record StreamReplacementFence := mkFence {
  f_incarnation : StreamIncarnation;
  f_endpoints : gset ActorAddress;
  f_old : option ActiveStream;
  f_requests : list StreamOpenRequest;
}.

Record PendingStreamDisplacement := mkDisplacement {
  d_incarnation : StreamIncarnation;
  d_acknowledged : bool;
}.

(** Of [RetirementRetry] the engine and the sender make the timer; only whether there are routes is
    read again. *)
Record RetirementRetry := mkRetry { has_routes : bool }.

Record DataDirectoryActor := mkDirectory {
  snapshot : NamespaceSnapshot;  (** the store *)
  sources : gmap DataPath RuntimeSource;
  streams : gmap DataPath RuntimeStream;
  blob_reservations : gmap DataPath OperationId;
  pending_retirements : gset ActorAddress;
  pending_stream_displacements : gmap ActorAddress PendingStreamDisplacement;
  stream_replacement_fences : gmap DataPath StreamReplacementFence;
  directory_epoch : N;
  retire_retry : option RetirementRetry;
  retirement_watches : gset ActorAddress;
  retirement_retry_queue : list ActorAddress;
  retirement_timer : bool;
}.

Definition directory_eta (d : DataDirectoryActor) : DataDirectoryActor :=
  mkDirectory (snapshot d) (sources d) (streams d) (blob_reservations d) (pending_retirements d)
    (pending_stream_displacements d) (stream_replacement_fences d) (directory_epoch d)
    (retire_retry d) (retirement_watches d) (retirement_retry_queue d) (retirement_timer d).
Definition set_snapshot d v : DataDirectoryActor := ltac:(update_field directory_eta d snapshot v).
Definition set_sources d v : DataDirectoryActor := ltac:(update_field directory_eta d sources v).
Definition set_streams d v : DataDirectoryActor := ltac:(update_field directory_eta d streams v).
Definition set_blob_reservations d v : DataDirectoryActor :=
  ltac:(update_field directory_eta d blob_reservations v).
Definition set_pending_retirements d v : DataDirectoryActor :=
  ltac:(update_field directory_eta d pending_retirements v).
Definition set_displacements d v : DataDirectoryActor :=
  ltac:(update_field directory_eta d pending_stream_displacements v).
Definition set_fences d v : DataDirectoryActor :=
  ltac:(update_field directory_eta d stream_replacement_fences v).
Definition set_watches d v : DataDirectoryActor := ltac:(update_field directory_eta d retirement_watches v).
Definition set_queue d v : DataDirectoryActor := ltac:(update_field directory_eta d retirement_retry_queue v).
Definition set_timer d v : DataDirectoryActor := ltac:(update_field directory_eta d retirement_timer v).

(** What the actor finds around it while it handles one message. *)
Record Env := mkEnv {
  self_addr : ActorAddress;
  is_routable : ActorAddress → bool;  (** [HostRouteRegistrar] *)
  watch_route : ActorAddress → bool;  (** a watch is granted *)
  hash_order : list ActorAddress → list ActorAddress;
  hash_order_all l : hash_order l ≡ₚ l;
}.

(** The order in which a [BTreeMap] iterates. *)
Definition entry_le {A} (x y : DataPath * A) : Prop := String.leb (as_str x.1) (as_str y.1) = true.

#[export] Instance entry_le_dec {A} : RelDecision (@entry_le A).
Proof. intros x y. rw /entry_le. apply _. Defined.

Definition ordered {A} (m : gmap DataPath A) : list (DataPath * A) :=
  merge_sort entry_le (map_to_list m).

Section Directory.
Context {F : NamespaceFormat}.

Record St := mkSt {
  dir : DataDirectoryActor;
  disk : Disk;
  faults : list (option Fault);  (** of the commits to come; none when the list ends *)
  sent : list (ActorAddress * Message);
}.

Definition with_dir (s : St) (d : DataDirectoryActor) : St := mkSt d (disk s) (faults s) (sent s).

Definition send (s : St) (target : ActorAddress) (m : Message) : St :=
  mkSt (dir s) (disk s) (faults s) (sent s ++ [(target, m)]).

(** [self.store.commit(next)] *)
Definition store_commit (s : St) (next : NamespaceSnapshot) : (unit + NamespaceStoreError) * St :=
  let '(r, held, d) := commit (default None (head (faults s))) next (snapshot (dir s)) (disk s) in
  (r, mkSt (set_snapshot (dir s) held) d (tail (faults s)) (sent s)).

(** ** Retirement *)

Definition routes_watched (d : DataDirectoryActor) : bool :=
  match retire_retry d with Some retry => has_routes retry | None => false end.

Definition watch_retirement (env : Env) (s : St) (target : ActorAddress) : St :=
  if bool_decide (target ∈ retirement_watches (dir s)) then s
  else if routes_watched (dir s) && watch_route env target
  then with_dir s (set_watches (dir s) ({[target]} ∪ retirement_watches (dir s)))
  else s.

(** [PendingStreamDisplacement::retry]: true once the acknowledged displacement is durably done. *)
Definition displacement_retry (env : Env) (s : St) (endpoint : ActorAddress)
    (p : PendingStreamDisplacement) : bool * St :=
  if negb (d_acknowledged p)
  then (false, send s endpoint (Displaced (d_incarnation p) (Some (self_addr env))))
  else
    let held := snapshot (dir s) in
    let '(r, s) := store_commit s (set_stream_retirements held
      (filter (λ known, known.1 ≠ endpoint) (stream_retirements held))) in
    (match r with inl _ => true | inr _ => false end, s).

Definition queue_retirement (env : Env) (s : St) (source : ActorAddress) : St :=
  let d := dir s in
  let s :=
    if bool_decide (source ∈ pending_retirements d) then s
    else with_dir s (set_queue (set_pending_retirements d ({[source]} ∪ pending_retirements d))
                       (retirement_retry_queue d ++ [source])) in
  send (watch_retirement env s source) source (Retire (Some (self_addr env))).

Definition confirm_retirement (s : St) (source : ActorAddress) : (unit + NamespaceError) * St :=
  if negb (bool_decide (source ∈ pending_retirements (dir s))) then (inl tt, s)
  else
    let held := snapshot (dir s) in
    let '(r, s) := store_commit s (set_retirements held
      (filter (λ retired, retired ≠ source) (retirements held))) in
    match r with
    | inr e => (inr (from_store e), s)
    | inl _ =>
        let d := dir s in
        (inl tt, with_dir s (set_watches (set_pending_retirements d (pending_retirements d ∖ {[source]}))
                               (retirement_watches d ∖ {[source]})))
    end.

(** ** The log of operations *)

Definition rejection_error (r : MutationRejection) : NamespaceError :=
  match r with
  | RPathNotFound path => PathNotFound path
  | RPathExists path => PathExists path
  | RStreamActive path => StreamActive path
  | RPathReplaced path => PathReplaced path
  end.

Definition replay (d : DataDirectoryActor) (operation_id : OperationId) (request : MutationRequest)
    : option (MutationReceipt + NamespaceError) :=
  (λ o : PersistedOperation,
     if negb (bool_decide (o_request o = request)) then inr (OperationConflict operation_id)
     else match o_result o with
          | Committed receipt => inl receipt
          | Rejected rejection => inr (rejection_error rejection)
          end) <$> operations (snapshot d) !! operation_id.

Definition log (held : NamespaceSnapshot) (operation_id : OperationId) (request : MutationRequest)
    (result : PersistedMutationResult) : NamespaceSnapshot :=
  set_operations held (<[operation_id := mkOperation request result]> (operations held)).

Definition reject (s : St) (operation_id : OperationId) (request : MutationRequest)
    (rejection : MutationRejection) : NamespaceError * St :=
  let '(r, s) := store_commit s (log (snapshot (dir s)) operation_id request (Rejected rejection)) in
  match r with inr e => (from_store e, s) | inl _ => (rejection_error rejection, s) end.

Definition rejected (s : St) (operation_id : OperationId) (request : MutationRequest)
    (rejection : MutationRejection) : (MutationReceipt + NamespaceError) * St :=
  let '(e, s) := reject s operation_id request rejection in (inr e, s).

Definition record_stream_participant (s : St) (path : DataPath) (operation_id : OperationId)
    (revision : N) : (unit + NamespaceError) * St :=
  let request := MBindStream path in
  match operations (snapshot (dir s)) !! operation_id with
  | Some existing =>
      if bool_decide (o_request existing = request) then (inl tt, s)
      else (inr (OperationConflict operation_id), s)
  | None =>
      let '(r, s) := store_commit s (log (snapshot (dir s)) operation_id request (Committed revision)) in
      (match r with inl _ => inl tt | inr e => inr (from_store e) end, s)
  end.

(** [if let Some(retired) = retired && !next.retirements.contains(&retired)] *)
Definition push_retired (retired : option ActorAddress) (held : NamespaceSnapshot) : NamespaceSnapshot :=
  set_retirements held
    (match retired with
     | Some actor =>
         if bool_decide (actor ∈ retirements held) then retirements held else retirements held ++ [actor]
     | None => retirements held
     end).

(** ** Streams *)

Definition bind_stream (s : St) (path : DataPath) (operation_id : OperationId)
    (retired : option ActorAddress) : (MutationReceipt + NamespaceError) * St :=
  let request := MBindStream path in
  match replay (dir s) operation_id request with
  | Some replayed => (replayed, s)
  | None =>
      if bool_decide (is_Some (blob_reservations (dir s) !! path))
      then rejected s operation_id request (RPathExists path)
      else
        let held := snapshot (dir s) in
        let revision := next_revision held in
        match checked_succ revision with
        | None => (inr (from_store RevisionExhausted), s)
        | Some next_revision =>
            let next := set_next_revision held next_revision in
            let next := set_bindings next (delete path (bindings next)) in
            let next := set_stream_nodes next (<[path := revision]> (stream_nodes next)) in
            let next := push_retired retired next in
            let next := log next operation_id request (Committed revision) in
            let '(r, s) := store_commit s next in
            match r with
            | inr e => (inr (from_store e), s)
            | inl _ =>
                (inl revision, with_dir s (set_sources (dir s) (delete path (sources (dir s)))))
            end
        end
  end.

Definition reply (s : St) (request_id : DirectoryRequestId) (reply_to : ActorAddress)
    (result : DirectoryResult) : St :=
  send s reply_to (DirectoryReply (mkOut request_id (directory_epoch (dir s)) result)).

Definition send_stream_result (s : St) (request_id : DirectoryRequestId) (reply_to : ActorAddress)
    (result : StreamMatch + NamespaceError) : St :=
  reply s request_id reply_to (StreamOpened result).

(** The error of a commit is only printed by the callers, so none is returned. *)
Definition queue_stream_displacement (env : Env) (s : St) (endpoint : ActorAddress)
    (incarnation : StreamIncarnation) : St :=
  let d := dir s in
  if match pending_stream_displacements d !! endpoint with
     | Some known => bool_decide (d_incarnation known = incarnation)
     | None => false
     end
  then s
  else
    let held := snapshot d in
    let '(r, s) := store_commit s (set_stream_retirements held
      (filter (λ known, known.1 ≠ endpoint) (stream_retirements held) ++ [(endpoint, incarnation)])) in
    match r with
    | inr _ => s
    | inl _ =>
        let s := with_dir s (set_displacements (dir s)
          (<[endpoint := mkDisplacement incarnation false]> (pending_stream_displacements (dir s)))) in
        send (watch_retirement env s endpoint) endpoint (Displaced incarnation (Some (self_addr env)))
    end.

Definition displace_stream (env : Env) (s : St) (path : DataPath) : St :=
  match streams (dir s) !! path with
  | None => s
  | Some (Pending pending) =>
      let s := with_dir s (set_streams (dir s) (delete path (streams (dir s)))) in
      send_stream_result s (p_request_id pending) (p_reply_to pending) (inr (PathReplaced path))
  | Some (Active active) =>
      let s := with_dir s (set_streams (dir s) (delete path (streams (dir s)))) in
      let b := a_binding active in
      queue_stream_displacement env
        (queue_stream_displacement env s (m_source b) (m_incarnation b)) (m_sink b) (m_incarnation b)
  end.

(** [active] was taken out of the streams by the caller. *)
Definition begin_stream_replacement (env : Env) (s : St) (request : StreamOpenRequest)
    (active : ActiveStream) : St :=
  let path := s_path request in
  let incarnation := m_incarnation (a_binding active) in
  let endpoints : gset ActorAddress := {[m_source (a_binding active); m_sink (a_binding active)]} in
  let order := hash_order env (elements endpoints) in
  let held := snapshot (dir s) in
  let next := set_stream_retirements held
    (foldl (λ l endpoint, filter (λ known, known.1 ≠ endpoint) l ++ [(endpoint, incarnation)])
       (stream_retirements held) order) in
  let '(r, s) := store_commit s next in
  match r with
  | inr e =>
      let s := with_dir s (set_streams (dir s) (<[path := Active active]> (streams (dir s)))) in
      send_stream_result s (s_request_id request) (s_reply_to request) (inr (from_store e))
  | inl _ =>
      let s := foldl (λ s endpoint,
        watch_retirement env (with_dir s (set_displacements (dir s)
          (<[endpoint := mkDisplacement incarnation false]> (pending_stream_displacements (dir s)))))
          endpoint) s order in
      let s := with_dir s (set_fences (dir s)
        (<[path := mkFence incarnation endpoints (Some active) [request]]>
           (stream_replacement_fences (dir s)))) in
      foldl (λ s endpoint, send s endpoint (Displaced incarnation (Some (self_addr env)))) s order
  end.

(** The answer to a participant of the displaced stream. *)
Definition old_reply (fence : StreamReplacementFence) (request : StreamOpenRequest)
    : option (StreamMatch + NamespaceError) :=
  match f_old fence with
  | None => None
  | Some old =>
      if bool_decide (s_operation_id request = a_source_operation old)
         || bool_decide (s_operation_id request = a_sink_operation old)
      then
        let expected :=
          match s_role request with
          | Source => (a_source_operation old, m_source (a_binding old))
          | Sink => (a_sink_operation old, m_sink (a_binding old))
          end in
        if bool_decide (expected = (s_operation_id request, s_endpoint request))
        then Some (inl (a_binding old))
        else Some (inr (OperationConflict (s_operation_id request)))
      else None
  end.

Definition same_open (known request : StreamOpenRequest) : bool :=
  bool_decide (s_operation_id known = s_operation_id request)
  && bool_decide (s_role known = s_role request)
  && bool_decide (s_endpoint known = s_endpoint request).

(** [iter_mut().find(..)]: the first known copy is replaced, or the request is appended. *)
Fixpoint hold_request (request : StreamOpenRequest) (l : list StreamOpenRequest) : list StreamOpenRequest :=
  match l with
  | [] => [request]
  | known :: l => if same_open known request then request :: l else known :: hold_request request l
  end.

Definition hold_stream_open_for_fence (s : St) (request : StreamOpenRequest)
    (fence : StreamReplacementFence) : St :=
  match old_reply fence request with
  | Some result => send_stream_result s (s_request_id request) (s_reply_to request) result
  | None =>
      with_dir s (set_fences (dir s)
        (<[s_path request := mkFence (f_incarnation fence) (f_endpoints fence) (f_old fence)
                               (hold_request request (f_requests fence))]>
           (stream_replacement_fences (dir s))))
  end.

Definition has_operation (st : option RuntimeStream) (operation_id : OperationId) : bool :=
  match st with
  | Some (Pending pending) => bool_decide (p_operation_id pending = operation_id)
  | Some (Active active) =>
      bool_decide (a_source_operation active = operation_id)
      || bool_decide (a_sink_operation active = operation_id)
  | None => false
  end.

(** The first test of [open_stream]: an operation of the log that is no longer current. *)
Definition replay_refuses (d : DataDirectoryActor) (request : StreamOpenRequest) : option NamespaceError :=
  match replay d (s_operation_id request) (MBindStream (s_path request)) with
  | None => None
  | Some (inr e) => Some e
  | Some (inl receipt) =>
      if has_operation (streams d !! s_path request) (s_operation_id request) then None
      else Some (StaleIncarnation (s_path request) (mkIncarnation (directory_epoch d) receipt))
  end.

(** The tests of an open that does not create its node. *)
Definition entry_refuses (d : DataDirectoryActor) (request : StreamOpenRequest) : option NamespaceError :=
  if s_ensure request then None
  else
    let path := s_path request in
    match stream_nodes (snapshot d) !! path with
    | None =>
        Some (if bool_decide (is_Some (bindings (snapshot d) !! path))
              then WrongEntryType path Stream Blob else PathNotFound path)
    | Some current =>
        let pending_from_expected :=
          match streams d !! path with
          | Some (Pending pending) =>
              bool_decide (p_opened_from_revision pending = s_expected_revision request)
          | _ => false
          end in
        if negb (bool_decide (s_expected_revision request = Some current)) && negb pending_from_expected
        then Some (PathReplaced path) else None
    end.

Definition set_stream (s : St) (path : DataPath) (st : RuntimeStream) : St :=
  with_dir s (set_streams (dir s) (<[path := st]> (streams (dir s)))).
Definition remove_stream (s : St) (path : DataPath) : St :=
  with_dir s (set_streams (dir s) (delete path (streams (dir s)))).

Definition repeat_pending (s : St) (request : StreamOpenRequest) (pending : PendingStream) : St :=
  if negb (bool_decide (p_role pending = s_role request))
     || negb (bool_decide (p_endpoint pending = s_endpoint request))
  then send_stream_result s (s_request_id request) (s_reply_to request)
         (inr (OperationConflict (s_operation_id request)))
  else set_stream s (s_path request) (Pending
    (mkPending (p_role pending) (p_endpoint pending) (p_operation_id pending) (s_request_id request)
       (p_descriptor pending) (s_reply_to request) (p_revision pending) (p_opened_from_revision pending))).

(** The second endpoint arrives. *)
Definition match_streams (s : St) (request : StreamOpenRequest) (pending : PendingStream) : St :=
  let path := s_path request in
  let role := s_role request in
  let answer s := send_stream_result s (s_request_id request) (s_reply_to request) in
  let s := remove_stream s path in
  if bool_decide (p_role pending = role)
  then answer (set_stream s path (Pending pending)) (inr (DuplicateStreamRole path role))
  else
    let '(r, s) := record_stream_participant s path (s_operation_id request) (p_revision pending) in
    match r with
    | inr e => answer (set_stream s path (Pending pending)) (inr e)
    | inl _ =>
        let '(source, sink, source_descriptor, sink_descriptor, source_operation, sink_operation) :=
          match role with
          | Source => (s_endpoint request, p_endpoint pending, s_descriptor request,
                       p_descriptor pending, s_operation_id request, p_operation_id pending)
          | Sink => (p_endpoint pending, s_endpoint request, p_descriptor pending,
                     s_descriptor request, p_operation_id pending, s_operation_id request)
          end in
        let binding :=
          mkStreamMatch (mkIncarnation (directory_epoch (dir s)) (p_revision pending)) source
            source_descriptor sink_descriptor sink (p_revision pending) in
        let s := send_stream_result s (p_request_id pending) (p_reply_to pending) (inl binding) in
        let s := answer s (inl binding) in
        set_stream s path (Active (mkActive binding source_operation sink_operation))
    end.

Definition available_actor (source : option RuntimeSource) : option ActorAddress :=
  match source with Some (Available actor _ _) => Some actor | _ => None end.

(** The first endpoint arrives. *)
Definition bind_first (env : Env) (s : St) (request : StreamOpenRequest) : St :=
  let path := s_path request in
  let retired := available_actor (sources (dir s) !! path) in
  let '(r, s) := bind_stream s path (s_operation_id request) retired in
  match r with
  | inr e => send_stream_result s (s_request_id request) (s_reply_to request) (inr e)
  | inl receipt =>
      let s := match retired with Some actor => queue_retirement env s actor | None => s end in
      set_stream s path (Pending
        (mkPending (s_role request) (s_endpoint request) (s_operation_id request) (s_request_id request)
           (s_descriptor request) (s_reply_to request) receipt
           (if s_ensure request then None else s_expected_revision request)))
  end.

(** [open_stream] after a replaced pending stream is out of the way. *)
Definition open_vacant (env : Env) (s : St) (request : StreamOpenRequest) : St :=
  let path := s_path request in
  let answer := send_stream_result s (s_request_id request) (s_reply_to request) in
  match streams (dir s) !! path with
  | Some (Pending pending) => match_streams s request pending
  | Some (Active _) => answer (inr (DuplicateStreamRole path (s_role request)))
  | None =>
      if bool_decide (is_Some (bindings (snapshot (dir s)) !! path)) && negb (s_replace request)
      then answer (inr (WrongEntryType path Stream Blob))
      else bind_first env s request
  end.

Definition open_unfenced (env : Env) (s : St) (request : StreamOpenRequest) : St :=
  let path := s_path request in
  let answer := send_stream_result s (s_request_id request) (s_reply_to request) in
  match replay_refuses (dir s) request with
  | Some e => answer (inr e)
  | None =>
  match entry_refuses (dir s) request with
  | Some e => answer (inr e)
  | None =>
  match streams (dir s) !! path with
  | Some (Pending pending) =>
      if bool_decide (p_operation_id pending = s_operation_id request)
      then repeat_pending s request pending
      else
        let compatible := negb (bool_decide (p_role pending = s_role request)) in
        open_vacant env (if s_replace request && negb compatible then displace_stream env s path else s)
          request
  | Some (Active active) =>
      if bool_decide (a_source_operation active = s_operation_id request)
         || bool_decide (a_sink_operation active = s_operation_id request)
      then answer (inl (a_binding active))
      else if s_replace request
      then begin_stream_replacement env (remove_stream s path) request active
      else open_vacant env s request
  | None => open_vacant env s request
  end end end.

Definition open_stream (env : Env) (s : St) (request : StreamOpenRequest) : St :=
  match stream_replacement_fences (dir s) !! s_path request with
  | Some fence => hold_stream_open_for_fence s request fence
  | None => open_unfenced env s request
  end.

(** ** Fences *)

Definition fence_ready (d : DataDirectoryActor) (fence : StreamReplacementFence) : bool :=
  forallb (λ endpoint,
    match pending_stream_displacements d !! endpoint with
    | None => true
    | Some pending => negb (bool_decide (d_incarnation pending = f_incarnation fence))
    end) (elements (f_endpoints fence)).

Definition resume_fence (env : Env) (s : St) (path : DataPath) : St :=
  match stream_replacement_fences (dir s) !! path with
  | None => s
  | Some fence =>
      foldl (open_stream env)
        (with_dir s (set_fences (dir s) (delete path (stream_replacement_fences (dir s)))))
        (f_requests fence)
  end.

Definition resume_stream_replacement_fences (env : Env) (s : St) : St :=
  let ready := filter (λ x, fence_ready (dir s) x.2 = true) (ordered (stream_replacement_fences (dir s))) in
  foldl (resume_fence env) s ready.*1.

(** The displacement of one endpoint is retried, and forgotten once it is done: the first step of
    [retry_retirement] and the closure that [retry_retirements] passes to [retain]. *)
Definition retain_displacement (env : Env) (s : St) (endpoint : ActorAddress) : St :=
  match pending_stream_displacements (dir s) !! endpoint with
  | None => s
  | Some pending =>
      let '(finished, s) := displacement_retry env s endpoint pending in
      if finished
      then with_dir s (set_watches
             (set_displacements (dir s) (delete endpoint (pending_stream_displacements (dir s))))
             (retirement_watches (dir s) ∖ {[endpoint]}))
      else s
  end.

Definition retry_retirement (env : Env) (s : St) (target : ActorAddress) : St :=
  let s := retain_displacement env s target in
  let s := resume_stream_replacement_fences env s in
  let routable := negb (routes_watched (dir s)) || is_routable env target in
  if routable && bool_decide (target ∈ pending_retirements (dir s))
  then send s target (Retire (Some (self_addr env)))
  else s.

Definition RETIREMENT_RETRY_BATCH : nat := 32.

(** The loop of [retry_retirements] over the front of the queue; [examine] are the entries it may still
    look at. *)
Fixpoint retry_queue (env : Env) (s : St) (examine sent_count : nat) : St :=
  match examine with
  | O => s
  | S examine =>
      if bool_decide (sent_count < RETIREMENT_RETRY_BATCH)%nat then
        match retirement_retry_queue (dir s) with
        | [] => s
        | source :: rest =>
            if negb (bool_decide (source ∈ pending_retirements (dir s)))
            then retry_queue env (with_dir s (set_queue (dir s) rest)) examine sent_count
            else
              let s := with_dir s (set_queue (dir s) (rest ++ [source])) in
              if routes_watched (dir s) && negb (is_routable env source)
              then retry_queue env s examine sent_count
              else retry_queue env (send s source (Retire (Some (self_addr env)))) examine
                     (S sent_count)
        end
      else s
  end.

Definition retry_retirements (env : Env) (s : St) : St :=
  let endpoints := (map_to_list (pending_stream_displacements (dir s))).*1 in
  let s := foldl (retain_displacement env) s (hash_order env endpoints) in
  let s := retry_queue env s (length (retirement_retry_queue (dir s))) 0 in
  resume_stream_replacement_fences env s.

Definition confirm_stream_displacement (env : Env) (s : St) (endpoint : ActorAddress)
    (incarnation : StreamIncarnation) : St :=
  match pending_stream_displacements (dir s) !! endpoint with
  | None => s
  | Some pending =>
      if negb (bool_decide (d_incarnation pending = incarnation)) then s
      else
        retry_retirement env
          (with_dir s (set_displacements (dir s)
             (<[endpoint := mkDisplacement (d_incarnation pending) true]>
                (pending_stream_displacements (dir s))))) endpoint
  end.

Definition cancel_stream (s : St) (path : DataPath) (operation_id : OperationId)
    : (unit + NamespaceError) * St :=
  let '(r, s) :=
    if bool_decide (is_Some (operations (snapshot (dir s)) !! operation_id)) then (inl tt, s)
    else store_commit s
           (log (snapshot (dir s)) operation_id (MBindStream path) (Rejected (RPathReplaced path))) in
  match r with
  | inr e => (inr (from_store e), s)
  | inl _ =>
      let s :=
        match streams (dir s) !! path with
        | Some (Pending pending) =>
            if bool_decide (p_operation_id pending = operation_id) then remove_stream s path else s
        | _ => s
        end in
      let retain fence :=
        mkFence (f_incarnation fence) (f_endpoints fence) (f_old fence)
          (filter (λ request, s_operation_id request ≠ operation_id) (f_requests fence)) in
      (inl tt, with_dir s (set_fences (dir s) (alter retain path (stream_replacement_fences (dir s)))))
  end.

Definition close_stream (s : St) (path : DataPath) (incarnation : StreamIncarnation)
    : (unit + NamespaceError) * St :=
  let d := dir s in
  let active_matches :=
    match streams d !! path with
    | Some (Active active) => bool_decide (m_incarnation (a_binding active) = incarnation)
    | _ => false
    end in
  if active_matches then (inl tt, remove_stream s path)
  else
    let already_closed :=
      negb (bool_decide (is_Some (streams d !! path)))
      && (i_epoch incarnation =? directory_epoch d)
      && bool_decide (stream_nodes (snapshot d) !! path = Some (i_revision incarnation)) in
    if already_closed then (inl tt, s) else (inr (StaleIncarnation path incarnation), s).

(** ** Blobs *)

Definition is_bound (held : NamespaceSnapshot) (path : DataPath) : bool :=
  bool_decide (is_Some (bindings held !! path)) || bool_decide (is_Some (stream_nodes held !! path)).

Definition reserve_blob (s : St) (path : DataPath) (operation_id : OperationId)
    : (unit + NamespaceError) * St :=
  if is_bound (snapshot (dir s)) path then (inr (PathExists path), s)
  else
    match blob_reservations (dir s) !! path with
    | Some existing =>
        if existing =? operation_id then (inl tt, s) else (inr (PathExists path), s)
    | None =>
        (inl tt, with_dir s (set_blob_reservations (dir s)
                               (<[path := operation_id]> (blob_reservations (dir s)))))
    end.

Definition release_blob_reservation (s : St) (path : DataPath) (operation_id : OperationId)
    : (unit + NamespaceError) * St :=
  match blob_reservations (dir s) !! path with
  | Some existing =>
      if existing =? operation_id
      then (inl tt, with_dir s (set_blob_reservations (dir s) (delete path (blob_reservations (dir s)))))
      else (inr (OperationConflict operation_id), s)
  | None => (inl tt, s)
  end.

Definition recovery_owner (recovery : SourceRecovery) : option ActorAddress :=
  match recovery with FromActor _ _ owner => owner | FromFile _ => None end.

Record BlobRegistration := mkRegistration {
  r_path : DataPath;
  r_source : ActorAddress;
  r_source_node : N;
  r_length : N;
  r_recovery : SourceRecovery;
  r_operation_id : OperationId;
  r_reservation : option OperationId;
  r_retired : option ActorAddress;
}.

(** The reservation a registration must present, if the path has one. *)
Definition reservation_refuses (d : DataDirectoryActor) (path : DataPath)
    (reservation : option OperationId) : option MutationRejection :=
  match blob_reservations d !! path with
  | Some existing =>
      if bool_decide (Some existing = reservation) then None else Some (RPathExists path)
  | None => if bool_decide (is_Some reservation) then Some (RPathReplaced path) else None
  end.

Definition register (s : St) (g : BlobRegistration) : (MutationReceipt + NamespaceError) * St :=
  let path := r_path g in
  let request := MRegister path (r_length g) (r_recovery g) in
  match replay (dir s) (r_operation_id g) request with
  | Some replayed => (replayed, s)
  | None =>
  match reservation_refuses (dir s) path (r_reservation g) with
  | Some rejection => rejected s (r_operation_id g) request rejection
  | None =>
      let held := snapshot (dir s) in
      let revision := next_revision held in
      match checked_succ revision with
      | None => (inr (from_store RevisionExhausted), s)
      | Some next_revision =>
          let next := set_next_revision held next_revision in
          let next := set_stream_nodes next (delete path (stream_nodes next)) in
          let next := set_bindings next
            (<[path := mkBinding (r_length g) revision (r_recovery g)]> (bindings next)) in
          let next := push_retired (r_retired g) next in
          let next := log next (r_operation_id g) request (Committed revision) in
          let '(r, s) := store_commit s next in
          match r with
          | inr e => (inr (from_store e), s)
          | inl _ =>
              let s :=
                if bool_decide (is_Some (r_reservation g))
                then with_dir s (set_blob_reservations (dir s) (delete path (blob_reservations (dir s))))
                else s in
              (inl revision, with_dir s (set_sources (dir s)
                (<[path := Available (r_source g) (r_source_node g) (recovery_owner (r_recovery g))]>
                   (sources (dir s)))))
          end
      end
  end end.

Definition resolve (d : DataDirectoryActor) (path : DataPath) : BlobBinding + NamespaceError :=
  if bool_decide (is_Some (stream_nodes (snapshot d) !! path))
  then inr (WrongEntryType path Blob Stream)
  else
    match bindings (snapshot d) !! path with
    | None => inr (PathNotFound path)
    | Some persisted =>
        match sources d !! path with
        | Some (Available actor node owner) =>
            inl (mkBlobBinding actor node owner (b_length persisted) (b_revision persisted))
        | Some (Unavailable reason) => inr (SourceRecoveryFailed reason)
        | None =>
            inr (SourceRecoveryFailed
                   ("binding " +:+ as_str path +:+ " has no recovered runtime source"))
        end
    end.

Definition lookup_node (d : DataDirectoryActor) (path : DataPath) : NamespaceNode + NamespaceError :=
  if bool_decide (is_Some (blob_reservations d !! path)) then inr (PathExists path)
  else
    match bindings (snapshot d) !! path, stream_nodes (snapshot d) !! path with
    | Some binding, None => inl (mkNamespaceNode Blob (b_revision binding) false)
    | None, Some revision =>
        inl (mkNamespaceNode Stream revision (bool_decide (is_Some (streams d !! path))))
    | None, None => inr (PathNotFound path)
    | Some _, Some _ =>
        inr (Storage ("data path " +:+ as_str path +:+ " is bound as both blob and stream"))
    end.

Definition unregister (s : St) (path : DataPath) (operation_id : OperationId)
    (retired : option ActorAddress) : (MutationReceipt + NamespaceError) * St :=
  let request := MUnregister path in
  match replay (dir s) operation_id request with
  | Some replayed => (replayed, s)
  | None =>
      if bool_decide (is_Some (blob_reservations (dir s) !! path))
      then rejected s operation_id request (RPathExists path)
      else if negb (is_bound (snapshot (dir s)) path)
      then rejected s operation_id request (RPathNotFound path)
      else
        let held := snapshot (dir s) in
        let revision := next_revision held in
        match checked_succ revision with
        | None => (inr (from_store RevisionExhausted), s)
        | Some next_revision =>
            let next := set_next_revision held next_revision in
            let next := set_bindings next (delete path (bindings next)) in
            let next := set_stream_nodes next (delete path (stream_nodes next)) in
            let next := push_retired retired next in
            let next := log next operation_id request (Committed revision) in
            let '(r, s) := store_commit s next in
            match r with
            | inr e => (inr (from_store e), s)
            | inl _ => (inl revision, with_dir s (set_sources (dir s) (delete path (sources (dir s)))))
            end
        end
  end.

(** The rejections of [rename], in the order of its tests. *)
Definition rename_refuses (d : DataDirectoryActor) (source destination : DataPath) (replace : bool)
    : option MutationRejection :=
  let reserved path := bool_decide (is_Some (blob_reservations d !! path)) in
  let active path := bool_decide (is_Some (streams d !! path)) in
  if negb (is_bound (snapshot d) source) then Some (RPathNotFound source)
  else if reserved source || reserved destination
  then Some (RPathExists (if reserved source then source else destination))
  else if active source then Some (RStreamActive source)
  else if active destination then Some (RStreamActive destination)
  else if negb (bool_decide (source = destination)) && is_bound (snapshot d) destination && negb replace
  then Some (RPathExists destination)
  else None.

(** The source that loses [destination] when [source] moves there. *)
Definition destination_retired (d : DataDirectoryActor) (source destination : DataPath)
    : option ActorAddress :=
  if bool_decide (source = destination) then None else available_actor (sources d !! destination).

(** The snapshot that [rename] commits, before the retirement and the log. *)
Definition move_node (held : NamespaceSnapshot) (source destination : DataPath) (revision : N)
    : NamespaceSnapshot :=
  let source_binding := bindings held !! source in
  let source_stream := stream_nodes held !! source in
  let left_bindings := delete destination (delete source (bindings held)) in
  let left_streams := delete destination (delete source (stream_nodes held)) in
  set_stream_nodes
    (set_bindings held
       (match source_binding with
        | Some b => <[destination := mkBinding (b_length b) revision (b_recovery b)]> left_bindings
        | None => left_bindings
        end))
    (match source_binding, source_stream with
     | None, Some _ => <[destination := revision]> left_streams
     | _, _ => left_streams
     end).

Definition rename (s : St) (source destination : DataPath) (replace : bool) (operation_id : OperationId)
    : (MutationReceipt + NamespaceError) * St :=
  let request := MRename source destination replace in
  match replay (dir s) operation_id request with
  | Some replayed => (replayed, s)
  | None =>
  match rename_refuses (dir s) source destination replace with
  | Some rejection => rejected s operation_id request rejection
  | None =>
      let held := snapshot (dir s) in
      let revision := next_revision held in
      match checked_succ revision with
      | None => (inr (from_store RevisionExhausted), s)
      | Some next_revision =>
          let next := move_node (set_next_revision held next_revision) source destination revision in
          let next := push_retired (destination_retired (dir s) source destination) next in
          let next := log next operation_id request (Committed revision) in
          let '(r, s) := store_commit s next in
          match r with
          | inr e => (inr (from_store e), s)
          | inl _ =>
              let source_runtime := sources (dir s) !! source in
              let left := delete source (sources (dir s)) in
              let left := if bool_decide (source = destination) then left else delete destination left in
              let moved :=
                match source_runtime with Some x => <[destination := x]> left | None => left end in
              (inl revision, with_dir s (set_sources (dir s) moved))
          end
      end
  end end.

(** ** The actor *)

Definition queue_retired (env : Env) (s : St) (retired : option ActorAddress)
    (result : MutationReceipt + NamespaceError) : St :=
  match result, retired with
  | inl _, Some actor => queue_retirement env s actor
  | _, _ => s
  end.

Definition logged (s : St) (operation_id : OperationId) : bool :=
  bool_decide (is_Some (operations (snapshot (dir s)) !! operation_id)).

Definition handle (env : Env) (s : St) (message : DataDirectoryIn) : St :=
  match message with
  | Register request_id path source source_node length recovery operation_id reservation reply_to =>
      let retired :=
        if logged s operation_id then None
        else match sources (dir s) !! path with
             | Some (Available actor _ _) =>
                 if negb (bool_decide (actor = source)) then Some actor else None
             | _ => None
             end in
      let '(result, s) := register s
        (mkRegistration path source source_node length recovery operation_id reservation retired) in
      let s := queue_retired env s retired result in
      let s := match result with inl _ => displace_stream env s path | inr _ => s end in
      reply s request_id reply_to (Registered result)
  | Resolve request_id path reply_to => reply s request_id reply_to (Resolved (resolve (dir s) path))
  | Lookup request_id path reply_to => reply s request_id reply_to (LookedUp (lookup_node (dir s) path))
  | ReserveBlob request_id path operation_id reply_to =>
      let '(result, s) := reserve_blob s path operation_id in
      reply s request_id reply_to (BlobReserved result)
  | ReleaseBlobReservation request_id path operation_id reply_to =>
      let '(result, s) := release_blob_reservation s path operation_id in
      reply s request_id reply_to (BlobReservationReleased result)
  | Unregister request_id path operation_id reply_to =>
      if bool_decide (is_Some (streams (dir s) !! path))
      then reply s request_id reply_to (Unregistered (inr (WrongEntryType path Blob Stream)))
      else
        let retired :=
          if logged s operation_id then None else available_actor (sources (dir s) !! path) in
        let '(result, s) := unregister s path operation_id retired in
        reply (queue_retired env s retired result) request_id reply_to (Unregistered result)
  | Rename request_id source destination replace operation_id reply_to =>
      let retired :=
        if logged s operation_id then None else destination_retired (dir s) source destination in
      let '(result, s) := rename s source destination replace operation_id in
      reply (queue_retired env s retired result) request_id reply_to (Renamed result)
  | OpenStream request => open_stream env s request
  | CancelStream request_id path operation_id reply_to =>
      let '(result, s) := cancel_stream s path operation_id in
      match reply_to with
      | Some reply_to => reply s request_id reply_to (StreamCancelled result)
      | None => s
      end
  | CloseStream request_id path incarnation reply_to =>
      let '(result, s) := close_stream s path incarnation in
      reply s request_id reply_to (StreamClosed result)
  | SourceRetired source => (confirm_retirement s source).2
  | RetryRetirements => retry_retirements env s
  | RetirementRouteChanged target => retry_retirement env s target
  | StreamDisplaced endpoint incarnation => confirm_stream_displacement env s endpoint incarnation
  end.

Definition on_start (env : Env) (s : St) : St :=
  let d := dir s in
  let s :=
    if bool_decide (is_Some (retire_retry d)) then with_dir s (set_timer d true) else s in
  let targets := hash_order env (elements (pending_retirements d))
                 ++ hash_order env (map_to_list (pending_stream_displacements d)).*1 in
  retry_retirements env (foldl (watch_retirement env) s targets).

(** *** Recovery *)

(** The plug-in that starts the source of a binding again: it is asked once per path. *)
Definition Recoverer := DataPath → SourceRecovery → N → (ActorAddress * N) + NamespaceError.

Definition recover_sources (recover_source : Recoverer) (held : NamespaceSnapshot)
    : gmap DataPath RuntimeSource :=
  map_imap (λ path b, Some
    (match recover_source path (b_recovery b) (b_length b) with
     | inl (actor, node) => Available actor node (recovery_owner (b_recovery b))
     | inr e => Unavailable (namespace_error_text e)
     end)) (bindings held).

(** The fences of the displacements that were not acknowledged. *)
Definition recover_fence (held : NamespaceSnapshot) (fences : gmap DataPath StreamReplacementFence)
    (x : ActorAddress * StreamIncarnation) : gmap DataPath StreamReplacementFence :=
  match list_find (λ node, node.2 = i_revision x.2) (ordered (stream_nodes held)) with
  | None => fences
  | Some (_, (path, _)) =>
      let fence := default (mkFence x.2 ∅ None []) (fences !! path) in
      let fence :=
        if bool_decide (f_incarnation fence = x.2)
        then mkFence (f_incarnation fence) ({[x.1]} ∪ f_endpoints fence) (f_old fence) (f_requests fence)
        else fence in
      <[path := fence]> fences
  end.

Definition recover (env : Env) (open_error : option string) (fault : option Fault)
    (retry : option RetirementRetry) (recover_source : Recoverer) (d : Disk)
    : (DataDirectoryActor + NamespaceError) * Disk :=
  match open open_error d with
  | inr e => (inr (from_store e), d)
  | inl held =>
      let pending : gset ActorAddress := list_to_set (retirements held) in
      let displacements :=
        foldl (λ m x, <[x.1 := mkDisplacement x.2 false]> m) ∅ (stream_retirements held) in
      let fences := foldl (recover_fence held) ∅ (stream_retirements held) in
      let '(r, held', d) := advance_authority_epoch fault held d in
      match r with
      | inr e => (inr (from_store e), d)
      | inl epoch =>
          (inl (mkDirectory held' (recover_sources recover_source held) ∅ ∅ pending displacements
                  fences epoch retry ∅ (hash_order env (elements pending)) false), d)
      end
  end.

End Directory.
