(* ===== verification/NamespaceMoves.v ===== *)
(** * What the directory may do

    The abstract specification of the namespace directory: the moves that a message may cause, each of
    them atomic.  A move changes the durable snapshot at most once; a commit that fails leaves the
    directory as it was, but the snapshot of the move may be the one a restart finds.

    [NamespaceRefine] shows that every handler is a sequence of such moves; the safety properties are
    proved of the moves. *)

From S2P Require Import Prelude LogicalPath NamespaceStore NamespaceDirectory.
#[local] Open Scope N_scope.

(** ** The namespace as one map *)

Inductive Entry :=
| EBlob (length revision : N) (recovery : SourceRecovery)
| EStream (revision : N).

Definition blob_entry (b : PersistedBinding) : Entry := EBlob (b_length b) (b_revision b) (b_recovery b).

Definition view (x : NamespaceSnapshot) : gmap DataPath Entry :=
  (blob_entry <$> bindings x) ∪ (EStream <$> stream_nodes x).

Definition entry_revision (e : Entry) : N :=
  match e with EBlob _ revision _ => revision | EStream revision => revision end.

Definition with_revision (revision : N) (e : Entry) : Entry :=
  match e with EBlob length _ recovery => EBlob length revision recovery | EStream _ => EStream revision end.

(** ** The snapshots of the mutations *)

Definition bound_snapshot (held : NamespaceSnapshot) (path : DataPath) (id : OperationId)
    (retired : option ActorAddress) : NamespaceSnapshot :=
  let revision := next_revision held in
  let next := set_next_revision held (revision + 1) in
  let next := set_bindings next (delete path (bindings next)) in
  let next := set_stream_nodes next (<[path := revision]> (stream_nodes next)) in
  log (push_retired retired next) id (MBindStream path) (Committed revision).

Definition registered_snapshot (held : NamespaceSnapshot) (path : DataPath) (length : N)
    (recovery : SourceRecovery) (id : OperationId) (retired : option ActorAddress) : NamespaceSnapshot :=
  let revision := next_revision held in
  let next := set_next_revision held (revision + 1) in
  let next := set_stream_nodes next (delete path (stream_nodes next)) in
  let next := set_bindings next (<[path := mkBinding length revision recovery]> (bindings next)) in
  log (push_retired retired next) id (MRegister path length recovery) (Committed revision).

Definition unregistered_snapshot (held : NamespaceSnapshot) (path : DataPath) (id : OperationId)
    (retired : option ActorAddress) : NamespaceSnapshot :=
  let revision := next_revision held in
  let next := set_next_revision held (revision + 1) in
  let next := set_bindings next (delete path (bindings next)) in
  let next := set_stream_nodes next (delete path (stream_nodes next)) in
  log (push_retired retired next) id (MUnregister path) (Committed revision).

Definition renamed_snapshot (held : NamespaceSnapshot) (source destination : DataPath) (replace : bool)
    (id : OperationId) (retired : option ActorAddress) : NamespaceSnapshot :=
  let revision := next_revision held in
  let next := move_node (set_next_revision held (revision + 1)) source destination revision in
  log (push_retired retired next) id (MRename source destination replace) (Committed revision).

(** [retain] and [push], for each endpoint. *)
Definition displace_all (incarnation : StreamIncarnation) (endpoints : list ActorAddress)
    (l : list (ActorAddress * StreamIncarnation)) : list (ActorAddress * StreamIncarnation) :=
  foldl (λ l endpoint, filter (λ known, known.1 ≠ endpoint) l ++ [(endpoint, incarnation)]) l endpoints.

#[global] Arguments displace_all : simpl never.

Definition displaced_snapshot (incarnation : StreamIncarnation) (endpoints : list ActorAddress)
    (held : NamespaceSnapshot) : NamespaceSnapshot :=
  set_stream_retirements held (displace_all incarnation endpoints (stream_retirements held)).

(** ** The volatile side *)

(** A retired source is pending from now on. *)
Definition enlist (retired : option ActorAddress) (d : DataDirectoryActor) : DataDirectoryActor :=
  let fresh := match retired with Some a => negb (bool_decide (a ∈ pending_retirements d)) | None => false end in
  set_queue (set_pending_retirements d (from_option singleton ∅ retired ∪ pending_retirements d))
    (retirement_retry_queue d ++ (if fresh then option_list retired else [])).

Definition displaced (incarnation : StreamIncarnation) (endpoints : list ActorAddress)
    (m : gmap ActorAddress PendingStreamDisplacement) : gmap ActorAddress PendingStreamDisplacement :=
  foldl (λ m endpoint, <[endpoint := mkDisplacement incarnation false]> m) m endpoints.

Definition moved_sources (source destination : DataPath) (m : gmap DataPath RuntimeSource)
    : gmap DataPath RuntimeSource :=
  let left := delete source m in
  let left := if bool_decide (source = destination) then left else delete destination left in
  match m !! source with Some x => <[destination := x]> left | None => left end.

Definition first_pending (request : StreamOpenRequest) (revision : N) : PendingStream :=
  mkPending (s_role request) (s_endpoint request) (s_operation_id request) (s_request_id request)
    (s_descriptor request) (s_reply_to request) revision
    (if s_ensure request then None else s_expected_revision request).

(** The stream of a waiting endpoint and the one that joins it. *)
Definition joined (epoch : N) (request : StreamOpenRequest) (pending : PendingStream) : ActiveStream :=
  let incarnation := mkIncarnation epoch (p_revision pending) in
  match s_role request with
  | Source =>
      mkActive (mkStreamMatch incarnation (s_endpoint request) (s_descriptor request)
                  (p_descriptor pending) (p_endpoint pending) (p_revision pending))
        (s_operation_id request) (p_operation_id pending)
  | Sink =>
      mkActive (mkStreamMatch incarnation (p_endpoint pending) (p_descriptor pending)
                  (s_descriptor request) (s_endpoint request) (p_revision pending))
        (p_operation_id pending) (s_operation_id request)
  end.

Definition with_requests (l : list StreamOpenRequest) (f : StreamReplacementFence) : StreamReplacementFence :=
  mkFence (f_incarnation f) (f_endpoints f) (f_old f) l.

(** The source that a registration of another one replaces. *)
Definition replaced_source (d : DataDirectoryActor) (path : DataPath) (source : ActorAddress)
    : option ActorAddress :=
  match available_actor (sources d !! path) with
  | Some actor => if bool_decide (actor = source) then None else Some actor
  | None => None
  end.

(** The messages that end a stream that is open: a close of its generation, and the registration of a
    blob in its place. *)
Definition ends_stream (path : DataPath) (incarnation : StreamIncarnation) (msg : DataDirectoryIn) : Prop :=
  match msg with
  | CloseStream _ p i _ => p = path ∧ i = incarnation
  | Register _ p _ _ _ _ _ _ _ => p = path
  | _ => False
  end.

(** ** The moves *)

Section Moves.
Context (msg : DataDirectoryIn).

Abbreviation unlogged d id := (operations (snapshot d) !! id = None) (only parsing).

Inductive move (d : DataDirectoryActor) : DataDirectoryActor → Prop :=
(** Bookkeeping of the retries: a tick looks at the front of the queue and puts it back, unless it
    waits for nothing any more. *)
| mv_watch watches timer : move d (set_timer (set_watches d watches) timer)
| mv_rotate a rest :
    msg = RetryRetirements → retirement_retry_queue d = a :: rest →
    move d (set_queue d (if bool_decide (a ∈ pending_retirements d) then rest ++ [a] else rest))
(** A request is refused for good. *)
| mv_refuse id request rejection :
    unlogged d id →
    move d (set_snapshot d (log (snapshot d) id request (Rejected rejection)))
(** The mutations of the namespace. *)
| mv_register request_id path source node length recovery id reservation reply_to :
    msg = Register request_id path source node length recovery id reservation reply_to →
    unlogged d id → reservation_refuses d path reservation = None →
    next_revision (snapshot d) < u64_max →
    let retired := replaced_source d path source in
    move d (set_streams (enlist retired (set_sources (set_blob_reservations (set_snapshot d
              (registered_snapshot (snapshot d) path length recovery id retired))
              (if bool_decide (is_Some reservation) then delete path (blob_reservations d)
               else blob_reservations d))
              (<[path := Available source node (recovery_owner recovery)]> (sources d))))
              (delete path (streams d)))
| mv_unregister request_id path id reply_to :
    msg = Unregister request_id path id reply_to →
    unlogged d id → blob_reservations d !! path = None → streams d !! path = None →
    is_bound (snapshot d) path = true → next_revision (snapshot d) < u64_max →
    let retired := available_actor (sources d !! path) in
    move d (enlist retired (set_sources (set_snapshot d
              (unregistered_snapshot (snapshot d) path id retired)) (delete path (sources d))))
| mv_rename request_id source destination replace id reply_to :
    msg = Rename request_id source destination replace id reply_to →
    unlogged d id → rename_refuses d source destination replace = None →
    next_revision (snapshot d) < u64_max →
    let retired := destination_retired d source destination in
    move d (enlist retired (set_sources (set_snapshot d
              (renamed_snapshot (snapshot d) source destination replace id retired))
              (moved_sources source destination (sources d))))
| mv_reserve path id :
    is_bound (snapshot d) path = false → blob_reservations d !! path = None →
    move d (set_blob_reservations d (<[path := id]> (blob_reservations d)))
| mv_release request_id path id reply_to :
    msg = ReleaseBlobReservation request_id path id reply_to → blob_reservations d !! path = Some id →
    move d (set_blob_reservations d (delete path (blob_reservations d)))
(** Streams. *)
| mv_bind request :
    let path := s_path request in
    let id := s_operation_id request in
    unlogged d id → streams d !! path = None → stream_replacement_fences d !! path = None →
    blob_reservations d !! path = None → next_revision (snapshot d) < u64_max →
    let retired := available_actor (sources d !! path) in
    move d (set_streams (enlist retired (set_sources (set_snapshot d
              (bound_snapshot (snapshot d) path id retired)) (delete path (sources d))))
              (<[path := Pending (first_pending request (next_revision (snapshot d)))]> (streams d)))
| mv_join request pending :
    let path := s_path request in
    let id := s_operation_id request in
    unlogged d id → streams d !! path = Some (Pending pending) → p_role pending ≠ s_role request →
    move d (set_streams (set_snapshot d
              (log (snapshot d) id (MBindStream path) (Committed (p_revision pending))))
              (<[path := Active (joined (directory_epoch d) request pending)]> (streams d)))
| mv_repeat path pending request_id reply_to :
    streams d !! path = Some (Pending pending) →
    move d (set_streams d (<[path := Pending
              (mkPending (p_role pending) (p_endpoint pending) (p_operation_id pending) request_id
                 (p_descriptor pending) reply_to (p_revision pending) (p_opened_from_revision pending))]>
              (streams d)))
| mv_drop path :
    (∀ active, streams d !! path = Some (Active active) → ends_stream path (m_incarnation (a_binding active)) msg) →
    move d (set_streams d (delete path (streams d)))
(** Displacement. *)
| mv_displace endpoint incarnation :
    i_epoch incarnation = directory_epoch d →
    (∀ path f, stream_replacement_fences d !! path = Some f → f_incarnation f ≠ incarnation) →
    move d (set_displacements (set_snapshot d
              (displaced_snapshot incarnation [endpoint] (snapshot d)))
              (displaced incarnation [endpoint] (pending_stream_displacements d)))
| mv_fence request active endpoints :
    let path := s_path request in
    let incarnation := m_incarnation (a_binding active) in
    streams d !! path = Some (Active active) → stream_replacement_fences d !! path = None →
    endpoints ≡ₚ elements ({[m_source (a_binding active); m_sink (a_binding active)]} : gset ActorAddress) →
    move d (set_fences (set_displacements (set_streams (set_snapshot d
              (displaced_snapshot incarnation endpoints (snapshot d))) (delete path (streams d)))
              (displaced incarnation endpoints (pending_stream_displacements d)))
              (<[path := mkFence incarnation {[m_source (a_binding active); m_sink (a_binding active)]}
                           (Some active) [request]]> (stream_replacement_fences d)))
| mv_requests path fence l :
    stream_replacement_fences d !! path = Some fence → Forall (λ r, s_path r = path) l →
    move d (set_fences d (<[path := with_requests l fence]> (stream_replacement_fences d)))
| mv_resume path fence :
    stream_replacement_fences d !! path = Some fence → fence_ready d fence = true →
    move d (set_fences d (delete path (stream_replacement_fences d)))
| mv_acknowledge endpoint pending :
    msg = StreamDisplaced endpoint (d_incarnation pending) →
    pending_stream_displacements d !! endpoint = Some pending →
    move d (set_displacements d (<[endpoint := mkDisplacement (d_incarnation pending) true]>
              (pending_stream_displacements d)))
| mv_forget endpoint pending :
    pending_stream_displacements d !! endpoint = Some pending → d_acknowledged pending = true →
    move d (set_displacements (set_snapshot d (set_stream_retirements (snapshot d)
              (filter (λ known, known.1 ≠ endpoint) (stream_retirements (snapshot d)))))
              (delete endpoint (pending_stream_displacements d)))
(** Retirement. *)
| mv_retired source :
    msg = SourceRetired source → source ∈ pending_retirements d →
    move d (set_pending_retirements (set_snapshot d (set_retirements (snapshot d)
              (filter (λ retired, retired ≠ source) (retirements (snapshot d)))))
              (pending_retirements d ∖ {[source]})).

End Moves.

(** ** Moves and the disk *)

Section Steps.
Context {F : NamespaceFormat}.

(** Where [next] was written, and whether it is known to be all there is. *)
Definition written (next : NamespaceSnapshot) (d d' : Disk) : Prop :=
  ∀ P : NamespaceSnapshot → Prop, P next → recoverable P d → recoverable P d'.

(** The endpoints that a move displaces are told so with it. *)
Definition announces (d d' : DataDirectoryActor) (l : list (ActorAddress * Message)) : Prop :=
  ∀ e i, pending_stream_displacements d' !! e = Some (mkDisplacement i false) →
    pending_stream_displacements d !! e = Some (mkDisplacement i false)
    ∨ ∃ reply_to, (e, Displaced i reply_to) ∈ l.

(** The streams that the directory knows: those in use, and those behind a fence. *)
Definition current (d : DataDirectoryActor) (b : StreamMatch) : Prop :=
  (∃ p a, streams d !! p = Some (Active a) ∧ a_binding a = b)
  ∨ (∃ p f a, stream_replacement_fences d !! p = Some f ∧ f_old f = Some a ∧ a_binding a = b).

(** The stream that a message says was opened. *)
Definition opens (m : Message) : option StreamMatch :=
  match m with DirectoryReply (mkOut _ _ (StreamOpened (inl b))) => Some b | _ => None end.

Inductive step (msg : DataDirectoryIn) (s : St) : St → Prop :=
| step_send target m : (∀ b, opens m = Some b → current (dir s) b) → step msg s (send s target m)
| step_volatile d :
    move msg (dir s) d → snapshot d = snapshot (dir s) → announces (dir s) d [] →
    step msg s (with_dir s d)
| step_fails d disk' rest :
    move msg (dir s) d → written (snapshot d) (disk s) disk' →
    step msg s (mkSt (dir s) disk' rest (sent s))
| step_commits d disk' rest l :
    move msg (dir s) d → written (snapshot d) (disk s) disk' → recoverable (eq (snapshot d)) disk' →
    announces (dir s) d l → Forall (λ x, opens x.2 = None) l →
    step msg s (mkSt d disk' rest (sent s ++ l)).

End Steps.
