(* ===== verification/NamespaceInv.v ===== *)
(** * The directory's invariant

    [wf] is what every snapshot of the namespace satisfies, in memory and on disk: a path is a blob or a
    stream but not both, a revision is given out once, and the lists of the unfinished retirements have
    no duplicates.  [Vol] ties the volatile fields to the snapshot.  Both are kept by every move. *)

From S2P Require Import Prelude LogicalPath NamespaceStore NamespaceDirectory NamespaceMoves.
#[local] Open Scope N_scope.

(** ** Snapshots *)

Record wf (x : NamespaceSnapshot) : Prop := {
  wf_apart p b r : bindings x !! p = Some b → stream_nodes x !! p = Some r → False;
  wf_revisions p q e f :
    view x !! p = Some e → view x !! q = Some f → entry_revision e = entry_revision f → p = q;
  wf_log id1 id2 q1 q2 r :
    operations x !! id1 = Some (mkOperation q1 (Committed r)) →
    operations x !! id2 = Some (mkOperation q2 (Committed r)) →
    id1 = id2 ∨ (q1 = q2 ∧ ∃ p, q1 = MBindStream p);
  wf_retirements : NoDup (retirements x);
  wf_displaced : NoDup (stream_retirements x).*1;
  wf_displaced_epoch e i : (e, i) ∈ stream_retirements x → i_epoch i <= authority_epoch x;
}.

(** What time does to a snapshot under one authority. *)
Record ext (x y : NamespaceSnapshot) : Prop := {
  ext_epoch : authority_epoch y = authority_epoch x;
  ext_revision : next_revision x <= next_revision y;
  ext_log : operations x ⊆ operations y;
}.

#[export] Instance ext_preorder : PreOrder ext.
Proof.
  split; [by intros x; split|]. intros x y z [] []. split; [congruence|lia|by etrans].
Qed.

Lemma view_lookup x p :
  view x !! p =
  match bindings x !! p with Some b => Some (blob_entry b) | None => EStream <$> stream_nodes x !! p end.
Proof.
  rw /view lookup_union !lookup_fmap. by destruct (bindings x !! p), (stream_nodes x !! p).
Qed.

Lemma view_bound held p id retired :
  view (bound_snapshot held p id retired) = <[p := EStream (next_revision held)]> (view held).
Proof.
  apply map_eq. intros q. rw lookup_insert !view_lookup /= lookup_delete lookup_insert.
  by case_decide.
Qed.

Lemma view_registered held p length recovery id retired :
  view (registered_snapshot held p length recovery id retired) =
  <[p := EBlob length (next_revision held) recovery]> (view held).
Proof.
  apply map_eq. intros q. rw lookup_insert !view_lookup /= lookup_delete lookup_insert.
  by case_decide.
Qed.

Lemma view_unregistered held p id retired :
  view (unregistered_snapshot held p id retired) = delete p (view held).
Proof.
  apply map_eq. intros q. rw lookup_delete !view_lookup /= !lookup_delete. by case_decide.
Qed.

Lemma view_renamed held p q replace id retired :
  view (renamed_snapshot held p q replace id retired) =
  match view held !! p with
  | Some e => <[q := with_revision (next_revision held) e]> (delete p (view held))
  | None => delete q (delete p (view held))
  end.
Proof.
  apply map_eq. intros k. rw view_lookup /= (view_lookup held p).
  destruct (bindings held !! p) eqn:E1; [|destruct (stream_nodes held !! p) eqn:E2]; cbn;
    rw ?lookup_insert ?lookup_delete ?view_lookup;
    repeat case_decide; done.
Qed.

(** *** Snapshots stay well-formed *)

Lemma view_range x p e :
  validate x = inl tt → view x !! p = Some e → 0 < entry_revision e < next_revision x.
Proof.
  intros (_&_&Hb&Hs&_)%validate_iff. rw view_lookup.
  destruct (bindings x !! p) as [b|] eqn:E; [intros [= <-]; by eapply Hb|].
  destruct (stream_nodes x !! p) as [r|] eqn:E'; [intros [= <-]; by eapply Hs|done].
Qed.

(** A map of entries with one more, of a revision that is not used. *)
Lemma revisions_insert (V V' : gmap DataPath Entry) p r :
  (∀ q e, V !! q = Some e → entry_revision e < r) →
  (∀ q q' e f, V !! q = Some e → V !! q' = Some f → entry_revision e = entry_revision f → q = q') →
  (∀ q e, V' !! q = Some e → V !! q = Some e ∨ (q = p ∧ entry_revision e = r)) →
  ∀ q q' e f, V' !! q = Some e → V' !! q' = Some f → entry_revision e = entry_revision f → q = q'.
Proof.
  intros Hr HV H' q q' e f [He|[-> He]]%H' [Hf|[-> Hf]]%H' Heq; [by eapply HV| | |done].
  - apply Hr in He. lia.
  - apply Hr in Hf. lia.
Qed.

Lemma log_insert x id request result :
  validate x = inl tt → wf x → operations x !! id = None →
  (∀ r, result = Committed r →
     r = next_revision x
     ∨ ∃ p, request = MBindStream p
         ∧ ∀ id' q, operations x !! id' = Some (mkOperation q (Committed r)) → q = MBindStream p) →
  ∀ id1 id2 q1 q2 r,
    <[id := mkOperation request result]> (operations x) !! id1 = Some (mkOperation q1 (Committed r)) →
    <[id := mkOperation request result]> (operations x) !! id2 = Some (mkOperation q2 (Committed r)) →
    id1 = id2 ∨ (q1 = q2 ∧ ∃ p, q1 = MBindStream p).
Proof.
  intros (_&_&_&_&Hv)%validate_iff Hwf Hid Hres id1 id2 q1 q2 r.
  assert (Hnew : ∀ id' q, operations x !! id' = Some (mkOperation q (Committed r)) →
    result = Committed r → ∃ p, request = MBindStream p ∧ q = MBindStream p).
  { intros id' q Hq ->. destruct (Hres r eq_refl) as [->|(p&->&Hp)].
    - apply Hv in Hq. lia.
    - eauto. }
  rw !lookup_insert. repeat case_decide; subst; [by left| | |by apply Hwf].
  - intros [= -> ->] H2. destruct (Hnew _ _ H2 eq_refl) as (p&->&->). eauto.
  - intros H1 [= -> ->]. destruct (Hnew _ _ H1 eq_refl) as (p&->&->). eauto.
Qed.

Lemma push_retired_NoDup retired x : NoDup (retirements x) → NoDup (retirements (push_retired retired x)).
Proof.
  intros H. cbn. destruct retired as [a|]; [|done]. case_bool_decide; [done|].
  apply NoDup_app. split_and!; [done| |apply NoDup_singleton]. set_solver.
Qed.

(** A mutation of the namespace: one entry more at most, under the next revision. *)
Lemma wf_mutation x y p id request :
  validate x = inl tt → wf x → operations x !! id = None →
  (∀ q b r, bindings y !! q = Some b → stream_nodes y !! q = Some r → False) →
  (∀ q e, view y !! q = Some e →
     view x !! q = Some e ∨ (q = p ∧ entry_revision e = next_revision x)) →
  operations y = <[id := mkOperation request (Committed (next_revision x))]> (operations x) →
  NoDup (retirements y) → stream_retirements y = stream_retirements x →
  authority_epoch y = authority_epoch x →
  wf y.
Proof.
  intros Hv Hwf Hid Hapart Hview Hops Hret Hdis Hep. split.
  - done.
  - eapply (revisions_insert (view x)); [|apply Hwf|done].
    intros q e He. by apply (view_range _ _ _ Hv He).
  - rw Hops. apply (log_insert x id); [done..|]. intros r [= <-]. by left.
  - done.
  - rw Hdis. apply Hwf.
  - rw Hdis Hep. apply Hwf.
Qed.

Lemma wf_rest x y :
  wf x → bindings y = bindings x → stream_nodes y = stream_nodes x →
  (∀ id1 id2 q1 q2 r,
    operations y !! id1 = Some (mkOperation q1 (Committed r)) →
    operations y !! id2 = Some (mkOperation q2 (Committed r)) →
    id1 = id2 ∨ (q1 = q2 ∧ ∃ p, q1 = MBindStream p)) →
  NoDup (retirements y) → NoDup (stream_retirements y).*1 →
  (∀ e i, (e, i) ∈ stream_retirements y → i_epoch i <= authority_epoch y) →
  wf y.
Proof.
  intros Hwf Hb Hs Hlog ???. assert (Hview : view y = view x) by by rw /view Hb Hs.
  split; [rw Hb Hs|rw Hview|..]; try done; apply Hwf.
Qed.

Lemma displaced_in i l es e j :
  (e, j) ∈ displace_all i es l ↔ (e ∈ es ∧ j = i) ∨ ((e ∉ es) ∧ (e, j) ∈ l).
Proof.
  rw /displace_all. revert l. induction es as [|e' es IH]; intros l; cbn.
  { set_solver. }
  rw IH elem_of_app list_elem_of_filter list_elem_of_singleton /= elem_of_cons.
  destruct (decide (e = e')) as [->|]; [|naive_solver].
  destruct (decide (e' ∈ es)); naive_solver.
Qed.

Lemma displaced_NoDup i l es : NoDup l.*1 → NoDup (displace_all i es l).*1.
Proof.
  rw /displace_all. revert l. induction es as [|e es IH]; intros l Hl; cbn; [done|]. apply IH.
  rw fmap_app NoDup_app /=. split_and!; [by apply filter_fmap_nodup| |apply NoDup_singleton].
  intros a Ha. apply list_elem_of_fmap in Ha as ([k j]&->&Hk).
  apply list_elem_of_filter in Hk as [Hk _]. cbn in *. set_solver.
Qed.

Lemma displaced_lookup i es m e :
  displaced i es m !! e = if decide (e ∈ es) then Some (mkDisplacement i false) else m !! e.
Proof.
  rw /displaced. revert m. induction es as [|e' es IH]; intros m; cbn; [done|].
  rw IH. destruct (decide (e ∈ es)); [by rw decide_True; [by right|]|].
  rw lookup_insert. case_decide; [subst; by rw decide_True; [by left|]|].
  rw decide_False; [|done]. set_solver.
Qed.

(** ** The directory *)

Definition stream_revision (st : RuntimeStream) : N :=
  match st with Pending pending => p_revision pending | Active active => m_revision (a_binding active) end.

(** The stream at [p]: its node has its revision, its operations are logged under it, and its endpoints
    were told its incarnation. *)
Record stream_ok (d : DataDirectoryActor) (p : DataPath) (st : RuntimeStream) : Prop := {
  st_node : stream_nodes (snapshot d) !! p = Some (stream_revision st);
  st_log id :
    has_operation (Some st) id = true →
    operations (snapshot d) !! id = Some (mkOperation (MBindStream p) (Committed (stream_revision st)));
  st_incarnation active :
    st = Active active → m_incarnation (a_binding active) = mkIncarnation (directory_epoch d) (stream_revision st);
}.

Record Vol (d : DataDirectoryActor) : Prop := {
  v_epoch : authority_epoch (snapshot d) = directory_epoch d;
  v_sources p : is_Some (sources d !! p) ↔ is_Some (bindings (snapshot d) !! p);
  v_retired a : a ∈ pending_retirements d ↔ a ∈ retirements (snapshot d);
  v_queue a : a ∈ pending_retirements d → a ∈ retirement_retry_queue d;
  v_displaced e i :
    (e, i) ∈ stream_retirements (snapshot d) ↔
    ∃ b, pending_stream_displacements d !! e = Some (mkDisplacement i b);
  v_streams p st : streams d !! p = Some st → stream_ok d p st;
  v_fenced p f : stream_replacement_fences d !! p = Some f → streams d !! p = None;
  v_dead p f q st :
    stream_replacement_fences d !! p = Some f → streams d !! q = Some st →
    f_incarnation f ≠ mkIncarnation (directory_epoch d) (stream_revision st);
  v_past p f :
    stream_replacement_fences d !! p = Some f → i_epoch (f_incarnation f) = directory_epoch d →
    i_revision (f_incarnation f) < next_revision (snapshot d);
  v_requests p f :
    stream_replacement_fences d !! p = Some f → Forall (λ r, s_path r = p) (f_requests f);
  v_reserved p : is_Some (blob_reservations d !! p) → is_bound (snapshot d) p = false;
}.

(** A directory whose snapshot is sound and whose volatile side fits. *)
Record Good (d : DataDirectoryActor) : Prop := {
  g_valid : validate (snapshot d) = inl tt;
  g_wf : wf (snapshot d);
  g_vol : Vol d;
}.

Lemma is_bound_view x p : is_bound x p = bool_decide (is_Some (view x !! p)).
Proof.
  rw /is_bound view_lookup. destruct (bindings x !! p), (stream_nodes x !! p); done.
Qed.

Lemma stream_nodes_view x p r :
  wf x → stream_nodes x !! p = Some r ↔ view x !! p = Some (EStream r).
Proof.
  intros Hwf. rw view_lookup. destruct (bindings x !! p) as [b|] eqn:E.
  - split; [|done]. intros H. by destruct (wf_apart _ Hwf _ _ _ E H).
  - destruct (stream_nodes x !! p); cbn; naive_solver.
Qed.

(** Two streams have two revisions. *)
Lemma stream_revision_inj d p q st st' :
  Good d → streams d !! p = Some st → streams d !! q = Some st' →
  stream_revision st = stream_revision st' → p = q.
Proof.
  intros [Hv Hwf HV] Hp Hq He. apply (v_streams _ HV) in Hp as [Hp _ _], Hq as [Hq _ _].
  apply stream_nodes_view in Hp, Hq; [|done..]. by apply (wf_revisions _ Hwf _ _ _ _ Hp Hq).
Qed.

Lemma stream_revision_range d p st :
  Good d → streams d !! p = Some st → 0 < stream_revision st < next_revision (snapshot d).
Proof.
  intros [Hv Hwf HV] Hp. apply (v_streams _ HV) in Hp as [Hp _ _].
  apply validate_iff in Hv as (_&_&_&Hs&_). by eapply Hs.
Qed.

(** *** Every move keeps the snapshot well-formed *)

Lemma move_ext msg d d' : move msg d d' → ext (snapshot d) (snapshot d').
Proof.
  destruct 1; split; cbn; try done; try lia; try (by apply insert_subseteq).
Qed.

Lemma wf_bound x p id retired :
  validate x = inl tt → wf x → operations x !! id = None → wf (bound_snapshot x p id retired).
Proof.
  intros Hv Hwf Hid. eapply (wf_mutation x _ p id); try done.
  - intros q b r. cbn. rw lookup_delete lookup_insert. case_decide; [done|apply Hwf].
  - intros q e. rw view_bound lookup_insert. case_decide; [intros [= <-]; subst; by right|by left].
  - apply push_retired_NoDup, Hwf.
Qed.

Lemma wf_registered x p length recovery id retired :
  validate x = inl tt → wf x → operations x !! id = None →
  wf (registered_snapshot x p length recovery id retired).
Proof.
  intros Hv Hwf Hid. eapply (wf_mutation x _ p id); try done.
  - intros q b r. cbn. rw lookup_delete lookup_insert. case_decide; [done|apply Hwf].
  - intros q e. rw view_registered lookup_insert.
    case_decide; [intros [= <-]; subst; by right|by left].
  - apply push_retired_NoDup, Hwf.
Qed.

Lemma wf_unregistered x p id retired :
  validate x = inl tt → wf x → operations x !! id = None → wf (unregistered_snapshot x p id retired).
Proof.
  intros Hv Hwf Hid. eapply (wf_mutation x _ p id); try done.
  - intros q b r. cbn. rw !lookup_delete. case_decide; [done|apply Hwf].
  - intros q e. rw view_unregistered lookup_delete. case_decide; [done|by left].
  - apply push_retired_NoDup, Hwf.
Qed.

Lemma wf_renamed x p q replace id retired :
  validate x = inl tt → wf x → operations x !! id = None → wf (renamed_snapshot x p q replace id retired).
Proof.
  intros Hv Hwf Hid. eapply (wf_mutation x _ q id); try done.
  - intros k b r. cbn.
    destruct (bindings x !! p) eqn:E1; [|destruct (stream_nodes x !! p) eqn:E2];
      rw ?lookup_insert ?lookup_delete; repeat case_decide; try done; apply Hwf.
  - intros k e. rw view_renamed. destruct (view x !! p) as [f|].
    + rw lookup_insert lookup_delete.
      repeat case_decide; try done; try by left. intros [= <-]. subst. right. split; [done|by destruct f].
    + rw !lookup_delete. repeat case_decide; try done. by left.
  - apply push_retired_NoDup, Hwf.
Qed.

Lemma move_wf msg d d' : Good d → move msg d d' → wf (snapshot d').
Proof.
  intros HG. pose proof HG as [Hv Hwf HV]. destruct 1; try exact Hwf.
  - (* refuse *) eapply wf_rest; try done; [|apply Hwf..]. by apply log_insert.
  - by apply wf_registered.
  - by apply wf_unregistered.
  - by apply wf_renamed.
  - by apply wf_bound.
  - (* join *) eapply wf_rest; try done; [|apply Hwf..].
    apply log_insert; try done. intros r [= <-]. right. exists path. split; [done|].
    intros id' q Hq. pose proof (v_streams _ HV _ _ H0) as [_ Hlog _].
    specialize (Hlog (p_operation_id pending) (bool_decide_eq_true_2 _ eq_refl)).
    destruct (wf_log _ Hwf _ _ _ _ _ Hq Hlog) as [->|[-> _]]; [|done]. rw Hlog in Hq. by injection Hq.
  - (* displace *) eapply wf_rest; try done; [apply Hwf..| |].
    + apply displaced_NoDup, Hwf.
    + intros e i. cbn. rw displaced_in. intros [[_ ->]|[_ Hi]]; [rw (v_epoch _ HV); lia|].
      by eapply (wf_displaced_epoch _ Hwf).
  - (* fence *) eapply wf_rest; try done; [apply Hwf..| |].
    + apply displaced_NoDup, Hwf.
    + intros e i. cbn. rw displaced_in. intros [[_ ->]|[_ Hi]]; [|by eapply (wf_displaced_epoch _ Hwf)].
      pose proof (v_streams _ HV _ _ H) as [_ _ Hi]. rw /incarnation (Hi _ eq_refl) (v_epoch _ HV) /=. lia.
  - (* forget *) eapply wf_rest; try done; [apply Hwf..| |].
    + apply filter_fmap_nodup, Hwf.
    + intros e i Hi. cbn in Hi. apply list_elem_of_filter in Hi as [_ Hi]. by eapply (wf_displaced_epoch _ Hwf).
  - (* retired *) eapply wf_rest; try done; [apply Hwf| |apply Hwf..]. by apply NoDup_filter, Hwf.
Qed.

(** *** Every move keeps the volatile side in step *)

Lemma stream_ok_mono d d' p st :
  stream_ok d p st → stream_nodes (snapshot d') !! p = stream_nodes (snapshot d) !! p →
  operations (snapshot d) ⊆ operations (snapshot d') → directory_epoch d' = directory_epoch d →
  stream_ok d' p st.
Proof.
  intros [Hn Hl Hi] En Eo Ee. split; [congruence| |by rw Ee].
  intros id Hid. eapply lookup_weaken; [by apply Hl|done].
Qed.

Lemma push_retired_in a retired x :
  a ∈ retirements (push_retired retired x) ↔ retired = Some a ∨ a ∈ retirements x.
Proof.
  cbn. destruct retired as [b|]; [|naive_solver]. case_bool_decide; [naive_solver|].
  rw elem_of_app list_elem_of_singleton. naive_solver.
Qed.

Lemma enlist_in a retired d :
  a ∈ pending_retirements (enlist retired d) ↔ retired = Some a ∨ a ∈ pending_retirements d.
Proof. cbn. destruct retired; cbn; set_solver. Qed.

Lemma enlist_queue retired d :
  (∀ a, a ∈ pending_retirements d → a ∈ retirement_retry_queue d) →
  ∀ a, a ∈ pending_retirements (enlist retired d) → a ∈ retirement_retry_queue (enlist retired d).
Proof.
  intros Hq a. rw enlist_in. cbn. rw elem_of_app. destruct retired as [b|]; [|naive_solver].
  destruct (decide (b ∈ pending_retirements d)).
  - rw bool_decide_true //. naive_solver.
  - rw bool_decide_false //=. rw list_elem_of_singleton. naive_solver.
Qed.

Lemma moved_sources_lookup p q m k :
  moved_sources p q m !! k = if decide (k = q) then m !! p else if decide (k = p) then None else m !! k.
Proof.
  rw /moved_sources. destruct (m !! p) eqn:E; case_bool_decide; subst;
    rw ?lookup_insert !lookup_delete; repeat case_decide; subst; congruence.
Qed.

Lemma moved_bindings_lookup x p q r k :
  bindings (move_node x p q r) !! k =
  if decide (k = q) then (λ b, mkBinding (b_length b) r (b_recovery b)) <$> bindings x !! p
  else if decide (k = p) then None else bindings x !! k.
Proof.
  cbn. destruct (bindings x !! p) eqn:E;
    rw ?lookup_insert !lookup_delete; repeat case_decide; subst; cbn; congruence.
Qed.

Lemma move_sources_vol msg d d' :
  Good d → move msg d d' →
  ∀ p, is_Some (sources d' !! p) ↔ is_Some (bindings (snapshot d') !! p).
Proof.
  intros [Hv Hwf HV]. pose proof (v_sources _ HV) as Hs.
  destruct 1; intros p; cbn; try apply Hs.
  - rw !lookup_insert. case_decide; [by split; eauto|apply Hs].
  - rw !lookup_delete. case_decide; [|apply Hs]. split; by intros [].
  - rw moved_sources_lookup moved_bindings_lookup. repeat case_decide; [|by split; intros []|apply Hs].
    by rw fmap_is_Some.
  - rw !lookup_delete. case_decide; [|apply Hs]. split; by intros [].
Qed.

Lemma move_retired_vol msg d d' :
  Good d → move msg d d' →
  (∀ a, a ∈ pending_retirements d' ↔ a ∈ retirements (snapshot d'))
  ∧ ∀ a, a ∈ pending_retirements d' → a ∈ retirement_retry_queue d'.
Proof.
  intros [Hv Hwf HV]. pose proof (v_retired _ HV) as Hr. pose proof (v_queue _ HV) as Hq.
  assert (Henlist : ∀ retired x d0, retirements x = retirements (snapshot d) →
    pending_retirements d0 = pending_retirements d → retirement_retry_queue d0 = retirement_retry_queue d →
    (∀ a, a ∈ pending_retirements (enlist retired d0) ↔ a ∈ retirements (push_retired retired x))
    ∧ ∀ a, a ∈ pending_retirements (enlist retired d0) → a ∈ retirement_retry_queue (enlist retired d0)).
  { intros retired x d0 E1 E2 E3. split; [|apply enlist_queue; by rw E2 E3].
    intros a. by rw enlist_in push_retired_in E1 E2 Hr. }
  destruct 1; try done; try exact (conj Hr Hq); try (by apply Henlist).
  - split; [done|]. cbn. intros b Hb. apply Hq in Hb as Hin. rw H0 in Hin.
    case_bool_decide; set_solver.
  - cbn. split; [|set_solver]. intros a. rw list_elem_of_filter -Hr. set_solver.
Qed.

Lemma move_displaced_vol msg d d' :
  Good d → move msg d d' →
  ∀ e i, (e, i) ∈ stream_retirements (snapshot d') ↔
         ∃ b, pending_stream_displacements d' !! e = Some (mkDisplacement i b).
Proof.
  intros [Hv Hwf HV]. pose proof (v_displaced _ HV) as Hd.
  assert (Hdis : ∀ j es e i, (e, i) ∈ displace_all j es (stream_retirements (snapshot d)) ↔
    ∃ b, displaced j es (pending_stream_displacements d) !! e = Some (mkDisplacement i b)).
  { intros j es e i. rw displaced_in displaced_lookup Hd. case_decide; naive_solver. }
  destruct 1; intros e i; try exact (Hd e i); try apply Hdis; cbn.
  - rw Hd lookup_insert. case_decide; [subst|done].
    destruct pending as [j b]. cbn. rw H0. naive_solver.
  - rw list_elem_of_filter Hd /= lookup_delete. case_decide; naive_solver.
Qed.

Lemma rename_allowed d p q replace :
  rename_refuses d p q replace = None →
  is_bound (snapshot d) p = true
  ∧ blob_reservations d !! p = None ∧ blob_reservations d !! q = None
  ∧ streams d !! p = None ∧ streams d !! q = None
  ∧ (p = q ∨ is_bound (snapshot d) q = false ∨ replace = true).
Proof.
  rw /rename_refuses. intros H. rw !eq_None_not_Some.
  repeat match type of H with (if ?b then _ else _) = _ => destruct b eqn:?; [done|] end.
  bool_to_prop. split_and!; try done.
  match goal with Hb : andb _ _ = false |- _ => apply andb_false_iff in Hb as [Hb|Hb] end;
    [|right; right; by apply negb_false_iff].
  match goal with Hb : andb _ _ = false |- _ => apply andb_false_iff in Hb as [Hb|Hb] end;
    [left; by bool_to_prop|by right; left].
Qed.

Lemma moved_streams_lookup x p q r k :
  wf x → k ≠ p → k ≠ q → stream_nodes (move_node x p q r) !! k = stream_nodes x !! k.
Proof.
  intros Hwf Hp Hq. cbn. destruct (bindings x !! p); [|destruct (stream_nodes x !! p)];
    rw ?lookup_insert_ne // !lookup_delete_ne //.
Qed.

Lemma move_streams_vol msg d d' :
  Good d → move msg d d' → ∀ p st, streams d' !! p = Some st → stream_ok d' p st.
Proof.
  intros HG Hm. pose proof HG as [Hv Hwf HV]. pose proof (v_streams _ HV) as Hs.
  pose proof (move_ext _ _ _ Hm) as [_ _ Hlog].
  destruct Hm; intros p st; cbn in Hlog |- *;
    try (by intros Hp; eapply stream_ok_mono; [by apply Hs|..]).
  - rw lookup_delete. case_decide; [done|]. intros Hp.
    eapply stream_ok_mono; [by apply Hs| |done..]. cbn. by rw lookup_delete_ne.
  - intros Hp. eapply stream_ok_mono; [by apply Hs| |done..]. cbn. rw lookup_delete_ne //. congruence.
  - apply rename_allowed in H1 as (_&_&_&Hsrc&Hdst&_).
    intros Hp. eapply stream_ok_mono; [by apply Hs| |done..].
    apply (moved_streams_lookup (set_next_revision (snapshot d) _)); [|congruence..].
    by eapply wf_rest; try done; apply Hwf.
  - rw lookup_insert. case_decide as Hp.
    + intros [= <-]. split; cbn; [by rw Hp lookup_insert_eq| |done].
      intros id' Hid%bool_decide_eq_true. rw -Hid -Hp. by apply lookup_insert_eq.
    + intros Hst. eapply stream_ok_mono; [by apply Hs| |done..]. cbn. by rw lookup_insert_ne.
  - rw lookup_insert. case_decide as Hp.
    2: { intros Hst. by eapply stream_ok_mono; [by apply Hs|..]. }
    intros [= <-]. subst p. destruct (Hs _ _ H0) as [Hn Hl _]. cbn in Hn.
    specialize (Hl (p_operation_id pending) (bool_decide_eq_true_2 _ eq_refl)). cbn in Hl.
    assert (Hrev : stream_revision (Active (joined (directory_epoch d) request pending)) = p_revision pending)
      by (rw /joined; by destruct (s_role request)).
    split; rw ?Hrev; [done| |].
    + intros id' Hid. cbn. rw lookup_insert. case_decide; [done|].
      assert (p_operation_id pending = id') as <-; [|done].
      revert Hid. rw /joined. destruct (s_role request); cbn; repeat case_bool_decide; done.
    + intros a [= <-]. rw /joined. by destruct (s_role request).
  - rw lookup_insert. case_decide as Hp; [|intros Hst; by eapply stream_ok_mono; [by apply Hs|..]].
    intros [= <-]. subst p. by destruct (Hs _ _ H) as [Hn Hl _].
  - rw lookup_delete. case_decide; [done|]. intros Hst. by eapply stream_ok_mono; [by apply Hs|..].
  - rw lookup_delete. case_decide; [done|]. intros Hst. by eapply stream_ok_mono; [by apply Hs|..].
Qed.

(** The streams a move may leave: those there were, the same under a new revision at most. *)
Lemma move_streams_from msg d d' :
  Good d → move msg d d' → ∀ p st, streams d' !! p = Some st →
  (∀ id, has_operation (Some st) id = true → is_Some (operations (snapshot d) !! id) →
     has_operation (streams d !! p) id = true)
  ∧ ((∃ st', streams d !! p = Some st' ∧ stream_revision st' = stream_revision st)
     ∨ (stream_revision st = next_revision (snapshot d) ∧ stream_replacement_fences d !! p = None)).
Proof.
  intros HG Hm. assert (Hold : ∀ p st, streams d !! p = Some st →
    (∀ id, has_operation (Some st) id = true → is_Some (operations (snapshot d) !! id) →
       has_operation (streams d !! p) id = true)
    ∧ ((∃ st', streams d !! p = Some st' ∧ stream_revision st' = stream_revision st)
       ∨ (stream_revision st = next_revision (snapshot d) ∧ stream_replacement_fences d !! p = None))).
  { intros p st Hp. rw Hp. eauto. }
  destruct Hm; intros p st; cbn; try exact (Hold p st);
    try (rw lookup_delete; case_decide; [done|exact (Hold p st)]);
    rw lookup_insert; (case_decide as Hp; [intros [= <-]; subst p|exact (Hold p st)]).
  - split; [|by right]. intros id' Hid [o Ho]. apply bool_decide_eq_true in Hid.
    rw -Hid in Ho. change (operations (snapshot d) !! id = Some o) in Ho. congruence.
  - rw H0. split; [|left; exists (Pending pending); split; [done|rw /joined; by destruct (s_role request)]].
    intros id' Hid [o Ho]. assert (id' ≠ id) by (intros ->; congruence).
    revert Hid. rw /joined. destruct (s_role request); cbn; repeat case_bool_decide; done.
  - rw H. split; [done|]. left. by exists (Pending pending).
Qed.

Lemma move_fences_vol msg d d' :
  Good d → move msg d d' →
  (∀ p f, stream_replacement_fences d' !! p = Some f → streams d' !! p = None)
  ∧ (∀ p f, stream_replacement_fences d' !! p = Some f → Forall (λ r, s_path r = p) (f_requests f)).
Proof.
  intros HG Hm. pose proof HG as [Hv Hwf HV].
  pose proof (v_fenced _ HV) as Hf. pose proof (v_requests _ HV) as Hr.
  destruct Hm; cbn; (split; [|try exact Hr]); try exact Hf; intros p f.
  - intros H'%Hf. rw lookup_delete. by case_decide.
  - intros H'. rw lookup_insert. case_decide; [congruence|by eapply Hf].
  - intros H'%Hf. rw lookup_insert. case_decide; [congruence|done].
  - intros H'%Hf. rw lookup_insert. case_decide; [congruence|done].
  - intros H'%Hf. rw lookup_delete. by case_decide.
  - rw lookup_insert lookup_delete. case_decide; [done|apply Hf].
  - rw lookup_insert. case_decide; [|apply Hr]. intros [= <-]. subst. by repeat constructor.
  - rw lookup_insert. case_decide; [|apply Hf]. intros [= <-]. subst. by eapply Hf.
  - rw lookup_insert. case_decide; [|apply Hr]. intros [= <-]. by subst.
  - rw lookup_delete. case_decide; [done|apply Hf].
  - rw lookup_delete. case_decide; [done|apply Hr].
Qed.

Lemma move_epoch msg d d' : move msg d d' → directory_epoch d' = directory_epoch d.
Proof. by destruct 1. Qed.

(** The fences a move may leave: those there were, and one of a stream that just ended. *)
Lemma move_fences_from msg d d' p f :
  move msg d d' → stream_replacement_fences d' !! p = Some f →
  (∃ f', stream_replacement_fences d !! p = Some f'
         ∧ f_incarnation f' = f_incarnation f ∧ f_endpoints f' = f_endpoints f)
  ∨ (∃ a, streams d !! p = Some (Active a) ∧ f_incarnation f = m_incarnation (a_binding a)
          ∧ streams d' = delete p (streams d)).
Proof.
  destruct 1; cbn; try (by eauto).
  - rw lookup_insert. case_decide; [|by eauto]. intros [= <-]. subst. right. by eauto.
  - rw lookup_insert. case_decide; [|by eauto]. intros [= <-]. subst. left. by eauto.
  - rw lookup_delete. case_decide; [done|by eauto].
Qed.

Lemma move_dead_vol msg d d' p f :
  Good d → move msg d d' → stream_replacement_fences d' !! p = Some f →
  (∀ q st, streams d' !! q = Some st →
     f_incarnation f ≠ mkIncarnation (directory_epoch d') (stream_revision st))
  ∧ (i_epoch (f_incarnation f) = directory_epoch d' → i_revision (f_incarnation f) < next_revision (snapshot d')).
Proof.
  intros HG Hm Hf. pose proof HG as [Hv Hwf HV]. rw (move_epoch _ _ _ Hm).
  pose proof (move_ext _ _ _ Hm) as [_ Hrev _].
  destruct (move_fences_from _ _ _ _ _ Hm Hf) as [(f'&Hf'&<-&_)|(a&Ha&->&Hs)]; split.
  - intros q st Hst. destruct (move_streams_from _ _ _ HG Hm _ _ Hst) as [_ [(st'&Hst'&<-)|[-> _]]].
    + by eapply v_dead.
    + intros E. pose proof (v_past _ HV _ _ Hf') as Hp. rw E in Hp. cbn in Hp. specialize (Hp eq_refl). lia.
  - intros He. pose proof (v_past _ HV _ _ Hf' He). lia.
  - rw Hs. intros q st. rw lookup_delete. case_decide as Hq; [done|]. intros Hst E. apply Hq.
    eapply stream_revision_inj; [done..|].
    rw (st_incarnation _ _ _ (v_streams _ HV _ _ Ha) _ eq_refl) in E. by injection E.
  - intros _. rw (st_incarnation _ _ _ (v_streams _ HV _ _ Ha) _ eq_refl). cbn [i_revision].
    pose proof (stream_revision_range _ _ _ HG Ha). lia.
Qed.

Lemma move_reserved_vol msg d d' :
  Good d → move msg d d' →
  ∀ p, is_Some (blob_reservations d' !! p) → is_bound (snapshot d') p = false.
Proof.
  intros [Hv Hwf HV] Hm. pose proof (v_reserved _ HV) as Hr.
  assert (Hview : ∀ x p, view x !! p = view (snapshot d) !! p →
    is_Some (blob_reservations d !! p) → is_bound x p = false).
  { intros x p E Hp. rw is_bound_view E -is_bound_view. by apply Hr. }
  destruct Hm; intros p; cbn [blob_reservations snapshot enlist set_queue set_pending_retirements
    set_streams set_sources set_blob_reservations set_snapshot]; try exact (Hr p).
  - intros Hp. assert (p ≠ path) as Hne.
    { intros ->. revert H1 Hp. rw /reservation_refuses. destruct (blob_reservations d !! path) eqn:E.
      - case_bool_decide; [subst|done]. cbn. rw lookup_delete_eq. by intros _ [].
      - case_bool_decide; [done|]. rw E. by intros _ []. }
    apply Hview; [by rw view_registered lookup_insert_ne|].
    revert Hp. case_bool_decide; [by rw lookup_delete_ne|done].
  - intros Hp. apply Hview; [|done]. rw view_unregistered lookup_delete_ne; [|done].
    intros ->. rw H1 in Hp. by destruct Hp.
  - apply rename_allowed in H1 as (_&Hs&Hd&_). intros Hp. apply Hview; [|done].
    assert (source ≠ p ∧ destination ≠ p) as [??].
    { split; intros ->; destruct Hp; congruence. }
    rw view_renamed. case_match; rw ?lookup_insert_ne ?lookup_delete_ne //.
  - rw lookup_insert. case_decide; [by subst|apply Hr].
  - rw lookup_delete. case_decide; [by intros []|apply Hr].
  - intros Hp. apply Hview; [|done]. rw view_bound lookup_insert_ne; [|done].
    intros <-. change (is_Some (blob_reservations d !! path)) in Hp. rw H2 in Hp. by destruct Hp.
Qed.

Lemma move_good msg d d' :
  Good d → move msg d d' → validate (snapshot d') = inl tt → Good d'.
Proof.
  intros HG Hm Hv'. split; [done|by eapply move_wf|].
  pose proof (λ p f, move_dead_vol msg d d' p f HG Hm) as Hdead.
  destruct (move_retired_vol _ _ _ HG Hm), (move_fences_vol _ _ _ HG Hm). split; try done.
  - rw (ext_epoch _ _ (move_ext _ _ _ Hm)) (move_epoch _ _ _ Hm). apply HG.
  - by eapply move_sources_vol.
  - by eapply move_displaced_vol.
  - by eapply move_streams_vol.
  - intros p f q st Hf. by eapply Hdead.
  - intros p f Hf. by eapply Hdead.
  - by eapply move_reserved_vol.
Qed.
