(* ===== verification/NamespaceRefine.v ===== *)
(** * The handlers are sequences of moves

    Every handler of the directory, from a state that satisfies the invariant, is a sequence of the
    atomic moves of [NamespaceMoves], commits that fail included.  The invariant of [NamespaceInv]
    follows for the states of the actor and for every snapshot that a restart can find. *)

From S2P Require Import Prelude LogicalPath NamespaceStore NamespaceDirectory NamespaceMoves NamespaceInv.
#[local] Open Scope N_scope.

Section Refine.
Context {F : NamespaceFormat}.

(** ** The invariant of the actor and its disk *)

Record Inv (s : St) : Prop := {
  inv_good : Good (dir s);
  inv_disk : recoverable (λ x, wf x ∧ ext (snapshot (dir s)) x) (disk s);
}.

Lemma recoverable_eq next d : recoverable (eq next) d → validate next = inl tt.
Proof. intros [(s&_&Hv&->) _]%Forall_cons_1. done. Qed.

Lemma step_inv msg s s' : Inv s → step msg s s' → Inv s'.
Proof.
  intros [HG Hd] Hs. destruct Hs as [target m|d Hm E _|d disk' rest Hm Hw|d disk' rest l Hm Hw He _].
  - by split.
  - split; [|by rw /= E]. eapply move_good; [done..|]. rw E. apply HG.
  - split; [done|]. apply Hw; [|done]. split; [by eapply move_wf|by eapply move_ext].
  - split; cbn; [eapply move_good; [done..|by eapply recoverable_eq]|].
    eapply recoverable_impl; [|done]. intros x <-. split; [by eapply move_wf|done].
Qed.

Lemma steps_inv msg s s' : Inv s → rtc (step msg) s s' → Inv s'.
Proof. intros HI. induction 1; [done|]. eauto using step_inv. Qed.

(** ** A commit *)

Lemma set_snapshot_id d : set_snapshot d (snapshot d) = d.
Proof. by destruct d. Qed.
Lemma with_dir_id s : with_dir s (dir s) = s.
Proof. by destruct s. Qed.

Lemma store_commit_spec s next r s' :
  store_commit s next = (r, s') →
  ∃ disk' rest, written next (disk s) disk'
    ∧ ((∃ e, r = inr e ∧ s' = mkSt (dir s) disk' rest (sent s))
       ∨ (r = inl tt ∧ s' = mkSt (set_snapshot (dir s) next) disk' rest (sent s)
          ∧ recoverable (eq next) disk' )).
Proof.
  rw /store_commit. destruct (commit _ _ _ _) as [[r1 held] d1] eqn:E. intros [= <- <-].
  apply commit_spec in E as [Hw Hr]. exists d1, (tail (faults s)). split; [done|].
  destruct Hr as [(e&->&->)|(->&->&He)]; [left|by right].
  exists e. by rw set_snapshot_id.
Qed.

Lemma announces_same d d' l :
  pending_stream_displacements d' = pending_stream_displacements d → announces d d' l.
Proof. intros E e i. rw E. by left. Qed.

Lemma steps_commit msg s d disk' rest :
  move msg (dir s) d → written (snapshot d) (disk s) disk' → recoverable (eq (snapshot d)) disk' →
  announces (dir s) d [] → rtc (step msg) s (mkSt d disk' rest (sent s)).
Proof. intros. rw -(app_nil_r (sent s)). by apply rtc_once, step_commits; try apply Forall_nil. Qed.

(** A commit is a move that fails or succeeds; [d] is the directory once the move is complete. *)
Lemma commit_steps msg s d next r s' :
  store_commit s next = (r, s') → move msg (dir s) d → snapshot d = next → announces (dir s) d [] →
  (∃ e disk' rest, r = inr e ∧ s' = mkSt (dir s) disk' rest (sent s) ∧ rtc (step msg) s s')
  ∨ (∃ disk' rest, r = inl tt ∧ s' = mkSt (set_snapshot (dir s) next) disk' rest (sent s)
       ∧ rtc (step msg) s (mkSt d disk' rest (sent s))).
Proof.
  intros Hc Hm <- Ha. apply store_commit_spec in Hc as (disk'&rest&Hw&[(e&->&->)|(->&->&He)]); [left|right].
  - exists e, disk', rest. split_and!; [done..|]. by eapply rtc_once, step_fails.
  - exists disk', rest. split_and!; [done..|]. by apply steps_commit.
Qed.

(** ** Bookkeeping *)

Lemma steps_send msg s target m :
  (∀ b, opens m = Some b → current (dir s) b) → rtc (step msg) s (send s target m).
Proof. intros. by apply rtc_once, step_send. Qed.

Lemma steps_reply msg s request_id reply_to r :
  (∀ b, r = StreamOpened (inl b) → current (dir s) b) → rtc (step msg) s (reply s request_id reply_to r).
Proof.
  intros Hr. apply steps_send. intros b. cbn. destruct r as [| | | | | | |[]| |]; try done.
  intros [= ->]. by apply Hr.
Qed.

Lemma steps_volatile msg s d :
  move msg (dir s) d → snapshot d = snapshot (dir s) →
  pending_stream_displacements d = pending_stream_displacements (dir s) → rtc (step msg) s (with_dir s d).
Proof. intros. by eapply rtc_once, step_volatile; [..|apply announces_same]. Qed.

Lemma steps_watches msg s w : rtc (step msg) s (with_dir s (set_watches (dir s) w)).
Proof.
  apply (steps_volatile msg s (set_timer (set_watches (dir s) w) (retirement_timer (dir s))));
    [apply mv_watch|done..].
Qed.

(** A commit that displaces endpoints and tells them. *)
Lemma steps_announce msg s d disk' rest l w :
  move msg (dir s) d → written (snapshot d) (disk s) disk' → recoverable (eq (snapshot d)) disk' →
  announces (dir s) d l → Forall (λ x, opens x.2 = None) l →
  rtc (step msg) s (mkSt (set_watches d w) disk' rest (sent s ++ l)).
Proof.
  intros Hm Hw He Ha Hl. etrans; [exact (rtc_once _ _ (step_commits msg s d disk' rest l Hm Hw He Ha Hl))|].
  exact (steps_watches msg _ w).
Qed.

(** The watches after [watch_retirement]. *)
Definition watched (env : Env) (d : DataDirectoryActor) (target : ActorAddress) : gset ActorAddress :=
  if bool_decide (target ∈ retirement_watches d) then retirement_watches d
  else if routes_watched d && watch_route env target then {[target]} ∪ retirement_watches d
  else retirement_watches d.

Lemma watch_retirement_eq env s target :
  watch_retirement env s target = with_dir s (set_watches (dir s) (watched env (dir s) target)).
Proof. rw /watch_retirement /watched. by repeat case_match; destruct s as [[]]. Qed.

Lemma enlist_none d : enlist None d = d.
Proof. destruct d. rw /enlist /set_queue /=. f_equal; [set_solver|apply app_nil_r]. Qed.

Lemma queue_retirement_eq env s a :
  queue_retirement env s a =
  send (with_dir s (set_watches (enlist (Some a) (dir s)) (watched env (dir s) a)))
    a (Retire (Some (self_addr env))).
Proof.
  rw /queue_retirement watch_retirement_eq. case_bool_decide as H.
  - do 2 f_equal. rw /enlist bool_decide_true //=. destruct s as [d]. destruct d. cbn in *.
    rw app_nil_r. rw /set_watches /=. do 2 f_equal. set_solver.
  - by rw /enlist bool_decide_false.
Qed.

(** ** The log *)

Lemma replay_none d id request : replay d id request = None ↔ operations (snapshot d) !! id = None.
Proof. rw /replay fmap_None. done. Qed.

Lemma rejected_steps msg s id request rejection r s' :
  rejected s id request rejection = (r, s') → operations (snapshot (dir s)) !! id = None →
  (∃ e, r = inr e) ∧ dir s' = set_snapshot (dir s) (snapshot (dir s')) ∧ rtc (step msg) s s'.
Proof.
  rw /rejected /reject. destruct (store_commit _ _) as [r1 s1] eqn:E. intros H Hid.
  eapply commit_steps in E as [(e&disk'&rest&->&->&Hs)|(disk'&rest&->&->&Hs)];
    [..|by apply (mv_refuse msg _ id request rejection)|done|by apply announces_same]; injection H as <- <-.
  - split_and!; [eauto|by rw set_snapshot_id|done].
  - split_and!; [eauto|done..].
Qed.

(** ** Displacement *)

Lemma queue_stream_displacement_steps msg env s e i :
  i_epoch i = directory_epoch (dir s) →
  (∀ p f, stream_replacement_fences (dir s) !! p = Some f → f_incarnation f ≠ i) →
  let s' := queue_stream_displacement env s e i in
  rtc (step msg) s s'
  ∧ directory_epoch (dir s') = directory_epoch (dir s)
  ∧ stream_replacement_fences (dir s') = stream_replacement_fences (dir s)
  ∧ streams (dir s') = streams (dir s).
Proof.
  intros He Hf s'. subst s'. rw /queue_stream_displacement. case_match; [done|].
  destruct (store_commit _ _) as [r1 s1] eqn:E.
  assert (Hm := mv_displace msg (dir s) e i He Hf).
  apply store_commit_spec in E as (disk'&rest&Hw&[(err&->&->)|(->&->&Hd)]).
  { split_and!; [|done..]. by eapply rtc_once, step_fails; [exact Hm|]. }
  rw watch_retirement_eq. split_and!; [|done..].
  refine (steps_announce msg s _ disk' rest [(e, Displaced i (Some (self_addr env)))] _ Hm Hw Hd _ _); [|by repeat constructor].
  intros e' i'. cbn. rw lookup_insert. case_decide; [subst|by left]. intros [= ->]. right. eexists. by left.
Qed.

Lemma remove_stream_id s p : streams (dir s) !! p = None → remove_stream s p = s.
Proof.
  intros H. destruct s as [[] ? ? ?]. cbn in *. rw /remove_stream /with_dir /set_streams /=.
  do 2 f_equal. by apply delete_id.
Qed.

(** [displace_stream] once the stream is gone. *)
Lemma displace_rest_steps msg env s p :
  (∀ a, streams (dir s) !! p = Some (Active a) →
     i_epoch (m_incarnation (a_binding a)) = directory_epoch (dir s)
     ∧ ∀ q f, stream_replacement_fences (dir s) !! q = Some f → f_incarnation f ≠ m_incarnation (a_binding a)) →
  rtc (step msg) (remove_stream s p) (displace_stream env s p)
  ∧ stream_replacement_fences (dir (displace_stream env s p)) = stream_replacement_fences (dir s).
Proof.
  intros Ha. rw /displace_stream. destruct (streams (dir s) !! p) as [[pending|a]|] eqn:Hp.
  - split; [by apply steps_reply|done].
  - destruct (Ha a eq_refl) as [He Hf]. set (i := m_incarnation (a_binding a)) in *.
    destruct (queue_stream_displacement_steps msg env (remove_stream s p) (m_source (a_binding a)) i He Hf)
      as (H1&E1&F1&_).
    destruct (queue_stream_displacement_steps msg env
      (queue_stream_displacement env (remove_stream s p) (m_source (a_binding a)) i) (m_sink (a_binding a)) i)
      as (H2&E2&F2&_); [by rw E1|by rw F1|].
    split; [by etrans; [exact H1|exact H2]|by rw F2 F1].
  - by rw remove_stream_id.
Qed.

Lemma active_incarnation s p a :
  Inv s → streams (dir s) !! p = Some (Active a) →
  i_epoch (m_incarnation (a_binding a)) = directory_epoch (dir s)
  ∧ ∀ q f, stream_replacement_fences (dir s) !! q = Some f → f_incarnation f ≠ m_incarnation (a_binding a).
Proof.
  intros HI Hp. pose proof (g_vol _ (inv_good _ HI)) as HV.
  rw (st_incarnation _ _ _ (v_streams _ HV _ _ Hp) _ eq_refl). split; [done|].
  intros q f Hq. by apply (v_dead _ HV _ _ _ _ Hq Hp).
Qed.

Lemma displace_stream_steps msg env s p :
  Inv s →
  (∀ active, streams (dir s) !! p = Some (Active active) → ends_stream p (m_incarnation (a_binding active)) msg) →
  rtc (step msg) s (displace_stream env s p)
  ∧ stream_replacement_fences (dir (displace_stream env s p)) = stream_replacement_fences (dir s).
Proof.
  intros HI Hend. destruct (displace_rest_steps msg env s p) as [H1 F1].
  { intros a. by apply active_incarnation. }
  split; [|done]. etrans; [|exact H1]. by apply steps_volatile; [apply mv_drop|..].
Qed.

(** ** Replacement *)

Lemma watch_displaced_eq env i order s :
  ∃ w, foldl (λ s e, watch_retirement env (with_dir s (set_displacements (dir s)
         (<[e := mkDisplacement i false]> (pending_stream_displacements (dir s))))) e) s order =
       with_dir s (set_watches
         (set_displacements (dir s) (displaced i order (pending_stream_displacements (dir s)))) w).
Proof.
  revert s. induction order as [|e order IH]; intros s; cbn [foldl displaced].
  { exists (retirement_watches (dir s)). by destruct s as [[]]. }
  rw watch_retirement_eq. destruct (IH (with_dir (with_dir s (set_displacements (dir s)
    (<[e := mkDisplacement i false]> (pending_stream_displacements (dir s)))))
    (set_watches (set_displacements (dir s)
       (<[e := mkDisplacement i false]> (pending_stream_displacements (dir s))))
       (watched env (set_displacements (dir s)
         (<[e := mkDisplacement i false]> (pending_stream_displacements (dir s)))) e))))
    as [w Hw]. exists w. exact Hw.
Qed.

Lemma sends_eq (f : ActorAddress → Message) l s :
  foldl (λ s a, send s a (f a)) s l =
  mkSt (dir s) (disk s) (faults s) (sent s ++ ((λ a, (a, f a)) <$> l)).
Proof.
  revert s. induction l as [|a l IH]; intros s; cbn; [rw app_nil_r; by destruct s|].
  by rw IH /= -app_assoc.
Qed.

(** What opening a stream leaves alone: the other fences, and the displacements but for those of the
    stream at its path. *)
Definition frame (path : DataPath) (s s' : St) : Prop :=
  (∀ p, p ≠ path → stream_replacement_fences (dir s') !! p = stream_replacement_fences (dir s) !! p)
  ∧ ∀ e x, pending_stream_displacements (dir s') !! e = Some x →
      pending_stream_displacements (dir s) !! e = Some x
      ∨ ∃ a, streams (dir s) !! path = Some (Active a) ∧ d_incarnation x = m_incarnation (a_binding a).

Lemma frame_same path s s' :
  stream_replacement_fences (dir s') = stream_replacement_fences (dir s) →
  pending_stream_displacements (dir s') = pending_stream_displacements (dir s) → frame path s s'.
Proof. intros E1 E2. split; [by rw E1|]. rw E2. by left. Qed.

Lemma begin_stream_replacement_steps msg env s request active :
  streams (dir s) !! s_path request = Some (Active active) →
  stream_replacement_fences (dir s) !! s_path request = None →
  let s' := begin_stream_replacement env (remove_stream s (s_path request)) request active in
  rtc (step msg) s s' ∧ frame (s_path request) s s'.
Proof.
  intros Hst Hf s'. subst s'. rw /begin_stream_replacement.
  set (order := hash_order env _). set (i := m_incarnation _).
  destruct (store_commit _ _) as [r1 s1] eqn:E.
  assert (Hm := mv_fence msg (dir s) request active order Hst Hf (hash_order_all env _)).
  apply store_commit_spec in E as (disk'&rest&Hw&[(e&->&->)|(->&->&He)]).
  - split; [|by apply frame_same]. etrans; [|by apply steps_reply]. apply rtc_once.
    replace (with_dir _ _) with (mkSt (dir s) disk' rest (sent s)).
    { by eapply step_fails; [exact Hm|]. }
    destruct s as [[] ? ? ?]. cbn in *. rw /with_dir /set_streams /=. do 2 f_equal.
    rw insert_delete_eq insert_id //.
  - destruct (watch_displaced_eq env i order
      (mkSt (set_snapshot (dir (remove_stream s (s_path request)))
        (displaced_snapshot i order (snapshot (dir s)))) disk' rest (sent s))) as [w Hfold].
    cbn in Hfold |- *. rw Hfold. split.
    + rw (sends_eq (λ _, Displaced i (Some (self_addr env)))).
      refine (steps_announce msg s _ disk' rest
        ((λ a, (a, Displaced i (Some (self_addr env)))) <$> order) w Hm Hw He _ _);
        [|by apply Forall_fmap, Forall_true].
      intros e' i'. cbn [pending_stream_displacements set_fences set_displacements].
      rw displaced_lookup. case_decide as Hin; [|by left]. intros [= <-]. right. eexists.
      by apply list_elem_of_fmap; eexists; split; [|exact Hin].
    + rw /frame (sends_eq (λ _, Displaced i (Some (self_addr env)))) /=. split.
      * intros p Hp. by rw lookup_insert_ne.
      * intros e x. rw displaced_lookup. case_decide; [|by left]. intros [= <-]. eauto.
Qed.

(** ** Opening a stream *)

Lemma restore_stream s p st : streams (dir s) !! p = Some st → set_stream (remove_stream s p) p st = s.
Proof.
  intros H. destruct s as [[] ? ? ?]. cbn in *. rw /set_stream /remove_stream /with_dir /set_streams /=.
  do 2 f_equal. by rw insert_delete_eq insert_id.
Qed.

Lemma match_streams_steps msg s request pending :
  streams (dir s) !! s_path request = Some (Pending pending) →
  operations (snapshot (dir s)) !! s_operation_id request = None →
  rtc (step msg) s (match_streams s request pending)
  ∧ stream_replacement_fences (dir (match_streams s request pending)) = stream_replacement_fences (dir s)
  ∧ pending_stream_displacements (dir (match_streams s request pending)) = pending_stream_displacements (dir s).
Proof.
  intros Hst Hop. rw /match_streams. case_bool_decide as Hrole.
  { rw restore_stream //. split; [by apply steps_reply|done]. }
  rw /record_stream_participant /= Hop.
  destruct (store_commit _ _) as [r1 s1] eqn:E.
  assert (Hm := mv_join msg (dir s) request pending Hop Hst Hrole).
  apply store_commit_spec in E as (disk'&rest&Hw&[(e&->&->)|(->&->&He)]).
  - split; [|done]. etrans; [|by apply steps_reply].
    change (mkSt (dir (remove_stream s (s_path request))) disk' rest (sent (remove_stream s (s_path request))))
      with (remove_stream (mkSt (dir s) disk' rest (sent s)) (s_path request)).
    rw restore_stream //. by eapply rtc_once, step_fails; [exact Hm|].
  - assert (Hend : ∀ p i1 q i2,
      let stream := joined (directory_epoch (dir s)) request pending in
      let opened i := DirectoryReply (mkOut i (directory_epoch (dir s)) (StreamOpened (inl (a_binding stream)))) in
      rtc (step msg) s (send (send (mkSt
        (set_streams (set_snapshot (dir s) (log (snapshot (dir s)) (s_operation_id request)
           (MBindStream (s_path request)) (Committed (p_revision pending))))
           (<[s_path request := Active stream]> (streams (dir s))))
        disk' rest (sent s)) p (opened i1)) q (opened i2))).
    { intros. etrans; [apply (steps_commit msg s _ _ rest Hm Hw He); by apply announces_same|].
      etrans; apply steps_send; intros b [= <-]; left; exists (s_path request), stream; cbn;
        by rw lookup_insert_eq. }
    rw /joined in Hend.
    destruct (s_role request); (split; [|done]); rw /set_stream /with_dir /set_streams /= insert_delete_eq;
      apply Hend.
Qed.

Lemma bind_first_steps msg env s request :
  let path := s_path request in
  streams (dir s) !! path = None → stream_replacement_fences (dir s) !! path = None →
  operations (snapshot (dir s)) !! s_operation_id request = None →
  rtc (step msg) s (bind_first env s request)
  ∧ stream_replacement_fences (dir (bind_first env s request)) = stream_replacement_fences (dir s)
  ∧ pending_stream_displacements (dir (bind_first env s request)) = pending_stream_displacements (dir s).
Proof.
  intros path Hst Hf Hop. rw /bind_first /bind_stream (proj2 (replay_none _ _ _) Hop).
  case_bool_decide as Hres.
  { destruct (rejected _ _ _ _) as [r s1] eqn:E.
    apply (rejected_steps msg) in E as ([e ->]&Hd&Hs); [|done].
    split; [by etrans; [|by apply steps_reply]|]. cbn. by rw Hd. }
  apply eq_None_not_Some in Hres. rw /checked_succ.
  destruct (N.leb_spec u64_max (next_revision (snapshot (dir s)))) as [Hmax|Hmax].
  { split; [by apply steps_reply|done]. }
  destruct (store_commit _ _) as [r1 s1] eqn:E.
  assert (Hm := mv_bind msg (dir s) request Hop Hst Hf Hres Hmax).
  apply store_commit_spec in E as (disk'&rest&Hw&[(e&->&->)|(->&->&He)]).
  - split; [|done]. etrans; [|by apply steps_reply]. by eapply rtc_once, step_fails; [exact Hm|].
  - destruct (available_actor (sources (dir s) !! s_path request)) as [a|] eqn:Ea.
    + rw queue_retirement_eq. split; [|done].
      etrans; [apply (steps_commit msg s _ _ rest Hm Hw He); by apply announces_same|].
      etrans; [exact (steps_watches msg _ (watched env (dir s) a))|].
      exact (steps_send _ _ a (Retire (Some (self_addr env))) ltac:(done)).
    + split; [|done]. cbv zeta in Hm. rw enlist_none in Hm.
      apply (steps_commit msg s _ _ rest Hm Hw He). by apply announces_same.
Qed.

Lemma open_vacant_steps msg env s request :
  stream_replacement_fences (dir s) !! s_path request = None →
  operations (snapshot (dir s)) !! s_operation_id request = None →
  rtc (step msg) s (open_vacant env s request)
  ∧ stream_replacement_fences (dir (open_vacant env s request)) = stream_replacement_fences (dir s)
  ∧ pending_stream_displacements (dir (open_vacant env s request)) = pending_stream_displacements (dir s).
Proof.
  intros Hf Hop. rw /open_vacant. destruct (streams (dir s) !! s_path request) as [[]|] eqn:Hst.
  - by apply match_streams_steps.
  - split; [by apply steps_reply|done].
  - case_match; [split; [by apply steps_reply|done]|]. by apply bind_first_steps.
Qed.

(** Past its first test, an open is of an operation that is current or not in the log. *)
Lemma replay_refuses_none d request :
  replay_refuses d request = None → has_operation (streams d !! s_path request) (s_operation_id request) = false →
  operations (snapshot d) !! s_operation_id request = None.
Proof.
  rw /replay_refuses. destruct (replay _ _ _) as [[r|e]|] eqn:E; [|done|].
  - by case_match.
  - intros _ _. by eapply replay_none.
Qed.

Lemma open_unfenced_steps msg env s request :
  Inv s → stream_replacement_fences (dir s) !! s_path request = None →
  rtc (step msg) s (open_unfenced env s request) ∧ frame (s_path request) s (open_unfenced env s request).
Proof.
  intros HI Hf. rw /open_unfenced.
  assert (Hreply : ∀ r, (∀ b, r = inl b → current (dir s) b) →
    rtc (step msg) s (send_stream_result s (s_request_id request) (s_reply_to request) r)
    ∧ frame (s_path request) s (send_stream_result s (s_request_id request) (s_reply_to request) r)).
  { intros r Hr. split; [apply steps_reply; intros b [= ->]; by apply Hr|by apply frame_same]. }
  assert (Hvacant : operations (snapshot (dir s)) !! s_operation_id request = None →
    rtc (step msg) s (open_vacant env s request) ∧ frame (s_path request) s (open_vacant env s request)).
  { intros Hop. destruct (open_vacant_steps msg env s request Hf Hop) as (?&?&?). split; [done|by apply frame_same]. }
  destruct (replay_refuses (dir s) request) eqn:Hr; [by apply Hreply|].
  destruct (entry_refuses (dir s) request); [by apply Hreply|].
  pose proof (replay_refuses_none _ _ Hr) as Hop.
  destruct (streams (dir s) !! s_path request) as [[pending|active]|] eqn:Hst; cbn in Hop.
  - case_bool_decide as Hid.
    { rw /repeat_pending. case_match; [by apply Hreply|]. split; [|by apply frame_same].
      apply steps_volatile; [by eapply mv_repeat|done..]. }
    specialize (Hop eq_refl). case_match; [|by apply Hvacant].
    destruct (displace_stream_steps msg env s (s_path request) HI) as (H1&F1); [by intros ?; rw Hst|].
    destruct (open_vacant_steps msg env (displace_stream env s (s_path request)) request)
      as (H2&F2&D2); [by rw F1|by rw /displace_stream Hst|].
    split; [by etrans|]. apply frame_same; [by rw F2 F1|]. rw D2 /displace_stream Hst. done.
  - case_match eqn:Hid; [apply Hreply; intros b [= <-]; left; eauto|]. specialize (Hop eq_refl).
    case_match; [by apply begin_stream_replacement_steps|by apply Hvacant].
  - by apply Hvacant, Hop.
Qed.

Lemma hold_request_paths request l p :
  s_path request = p → Forall (λ r, s_path r = p) l → Forall (λ r, s_path r = p) (hold_request request l).
Proof.
  intros Hp. induction 1 as [|r l Hr Hl IH]; cbn; [by repeat constructor|].
  case_match; by constructor.
Qed.

Lemma old_reply_current fence request b :
  old_reply fence request = Some (inl b) → ∃ a, f_old fence = Some a ∧ a_binding a = b.
Proof.
  rw /old_reply. destruct (f_old fence) as [a|]; [|done]. intros H. exists a. split; [done|].
  revert H. case_match; [|done]. case_match; [|done]. by intros [= <-].
Qed.

Lemma open_stream_steps msg env s request :
  Inv s →
  rtc (step msg) s (open_stream env s request) ∧ frame (s_path request) s (open_stream env s request).
Proof.
  intros HI. rw /open_stream.
  destruct (stream_replacement_fences (dir s) !! s_path request) as [fence|] eqn:Hf;
    [|by apply open_unfenced_steps].
  rw /hold_stream_open_for_fence. case_match eqn:Ho.
  { split; [|by apply frame_same]. apply steps_reply. intros b [= ->]. right.
    destruct (old_reply_current _ _ _ Ho) as (a&Ha&?). eauto 10. }
  split; [|split; [intros p Hp; cbn; by rw lookup_insert_ne|by left]].
  apply steps_volatile; [|done..]. apply mv_requests; [done|].
  apply hold_request_paths; [done|]. by apply (v_requests _ (g_vol _ (inv_good _ HI))).
Qed.

(** ** Fences *)

Lemma fence_ready_spec d f :
  fence_ready d f = true ↔
  ∀ e, e ∈ f_endpoints f → ∀ b, pending_stream_displacements d !! e ≠ Some (mkDisplacement (f_incarnation f) b).
Proof.
  rw /fence_ready forallb_forall. split.
  - intros H e He b Hb. specialize (H e). rw Hb /= in H.
    apply negb_true_iff, bool_decide_eq_false in H; [done|].
    by apply list_elem_of_In, elem_of_elements.
  - intros H e He. apply list_elem_of_In, elem_of_elements in He. specialize (H e He).
    destruct (pending_stream_displacements d !! e) as [[i b]|]; [|done]. cbn.
    apply negb_true_iff, bool_decide_eq_false. intros ->. by apply (H b).
Qed.

(** A fence that is ready stays so while streams are opened elsewhere. *)
Lemma frame_ready s s' path p f :
  Inv s → frame path s s' → p ≠ path → stream_replacement_fences (dir s) !! p = Some f →
  fence_ready (dir s) f = true →
  stream_replacement_fences (dir s') !! p = Some f ∧ fence_ready (dir s') f = true.
Proof.
  intros HI [Hf Hd] Hp Hpf. rw Hf // !fence_ready_spec. intros Hr. split; [done|]. intros e He b Hb.
  apply Hd in Hb as [Hb|(a&Ha&E)]; [by eapply Hr|].
  pose proof (g_vol _ (inv_good _ HI)) as HV. apply (v_dead _ HV _ _ _ _ Hpf Ha).
  by rw -(st_incarnation _ _ _ (v_streams _ HV _ _ Ha) _ eq_refl).
Qed.

Lemma open_streams_steps msg env s l path ps :
  Inv s → Forall (λ r, s_path r = path) l → (path ∉ ps) →
  Forall (λ p, ∃ f, stream_replacement_fences (dir s) !! p = Some f ∧ fence_ready (dir s) f = true) ps →
  let s' := foldl (open_stream env) s l in
  rtc (step msg) s s'
  ∧ Forall (λ p, ∃ f, stream_replacement_fences (dir s') !! p = Some f ∧ fence_ready (dir s') f = true) ps.
Proof.
  intros HI Hl Hps. revert s HI. induction Hl as [|r l Hr Hl IH]; intros s HI Hready; [done|]. cbn.
  destruct (open_stream_steps msg env s r HI) as [H1 F1].
  destruct (IH (open_stream env s r)) as [H2 R2]; [by eapply steps_inv| |split; [by etrans|done]].
  apply Forall_forall. intros p Hp. rw Forall_forall in Hready. destruct (Hready p Hp) as (f&Hf&Hfr).
  exists f. eapply frame_ready; [done..| |done|done]. intros ->. congruence.
Qed.

Lemma resume_fences_steps msg env s ps :
  Inv s → NoDup ps →
  Forall (λ p, ∃ f, stream_replacement_fences (dir s) !! p = Some f ∧ fence_ready (dir s) f = true) ps →
  rtc (step msg) s (foldl (resume_fence env) s ps).
Proof.
  intros HI Hnd. revert s HI. induction Hnd as [|p ps Hp Hnd IH]; intros s HI Hready; [done|]. cbn.
  apply Forall_cons_1 in Hready as [(f&Hf&Hfr) Hready].
  assert (H1 : rtc (step msg) s (with_dir s (set_fences (dir s) (delete p (stream_replacement_fences (dir s)))))).
  { apply steps_volatile; [by eapply mv_resume|done..]. }
  assert (Hreq := v_requests _ (g_vol _ (inv_good _ HI)) _ _ Hf).
  destruct (open_streams_steps msg env _ (f_requests f) p ps (steps_inv _ _ _ HI H1) Hreq Hp) as [H2 R2].
  { apply Forall_forall. intros q Hq. rw Forall_forall in Hready. destruct (Hready q Hq) as (g&Hg&Hgr).
    exists g. cbn. rw lookup_delete_ne; [|done]. by intros ->. }
  assert (Heq : resume_fence env s p = foldl (open_stream env)
    (with_dir s (set_fences (dir s) (delete p (stream_replacement_fences (dir s))))) (f_requests f))
    by by rw /resume_fence Hf.
  rw Heq. etrans; [exact H1|]. etrans; [exact H2|]. apply IH; [|done].
  eapply steps_inv; [|exact H2]. by eapply steps_inv.
Qed.

Lemma resume_steps msg env s : Inv s → rtc (step msg) s (resume_stream_replacement_fences env s).
Proof.
  intros HI. rw /resume_stream_replacement_fences. apply resume_fences_steps; [done| |].
  - apply filter_fmap_nodup. rw /ordered merge_sort_Permutation. apply NoDup_fst_map_to_list.
  - apply Forall_forall. intros p Hp. apply list_elem_of_fmap in Hp as ([p' f]&->&Hp).
    apply list_elem_of_filter in Hp as [Hr Hp]. rw /ordered merge_sort_Permutation in Hp.
    apply elem_of_map_to_list in Hp. eauto.
Qed.

(** ** Retries *)

Lemma retain_displacement_steps msg env s e : rtc (step msg) s (retain_displacement env s e).
Proof.
  rw /retain_displacement. destruct (pending_stream_displacements (dir s) !! e) as [pending|] eqn:Hp; [|done].
  rw /displacement_retry. destruct (d_acknowledged pending) eqn:Ha; cbn [negb]; [|by apply steps_send].
  destruct (store_commit _ _) as [r1 s1] eqn:E.
  assert (Hm := mv_forget msg (dir s) e pending Hp Ha).
  apply store_commit_spec in E as (disk'&rest&Hw&[(err&->&->)|(->&->&He)]).
  - by eapply rtc_once, step_fails; [exact Hm|].
  - assert (Hn : ∀ x, announces (dir s) (set_displacements (set_snapshot (dir s) x)
      (delete e (pending_stream_displacements (dir s)))) []).
    { intros x e' i'. cbn. rw lookup_delete. case_decide; [done|by left]. }
    etrans; [exact (steps_commit msg s _ _ rest Hm Hw He (Hn _))|].
    exact (steps_watches msg _ _).
Qed.

Lemma steps_rotate s a rest :
  retirement_retry_queue (dir s) = a :: rest →
  rtc (step RetryRetirements) s (with_dir s (set_queue (dir s)
    (if bool_decide (a ∈ pending_retirements (dir s)) then rest ++ [a] else rest))).
Proof. intros Hq. apply steps_volatile; [by apply (mv_rotate RetryRetirements)|done..]. Qed.

Lemma retry_queue_steps env s examine sent_count :
  rtc (step RetryRetirements) s (retry_queue env s examine sent_count).
Proof.
  revert s sent_count. induction examine as [|examine IH]; intros s n; cbn [retry_queue]; [done|].
  case_bool_decide; [|done]. destruct (retirement_retry_queue (dir s)) as [|a rest] eqn:Hq; [done|].
  etrans; [apply (steps_rotate s a rest Hq)|]. case_bool_decide as Ha; cbn [negb]; [|apply IH].
  case_match; [apply IH|]. etrans; [|apply IH]; by apply steps_send.
Qed.

Lemma foldl_steps {A} msg (f : St → A → St) s l :
  (∀ s x, rtc (step msg) s (f s x)) → rtc (step msg) s (foldl f s l).
Proof.
  intros Hf. revert s. induction l as [|x l IH]; intros s; [done|]. by etrans; [apply Hf|apply IH].
Qed.

Lemma retry_retirements_steps env s :
  Inv s → rtc (step RetryRetirements) s (retry_retirements env s).
Proof.
  intros HI. rw /retry_retirements. set (msg := RetryRetirements).
  set (s1 := foldl _ _ _). assert (H1 : rtc (step msg) s s1) by apply foldl_steps, retain_displacement_steps.
  set (s2 := retry_queue _ _ _ _). assert (H2 : rtc (step msg) s1 s2) by apply retry_queue_steps.
  etrans; [exact H1|]. etrans; [exact H2|]. apply resume_steps. by eapply steps_inv; [eapply steps_inv|].
Qed.

Lemma retry_retirement_steps msg env s target : Inv s → rtc (step msg) s (retry_retirement env s target).
Proof.
  intros HI. rw /retry_retirement.
  assert (H1 := retain_displacement_steps msg env s target). set (s1 := retain_displacement _ _ _) in *.
  assert (H2 := resume_steps msg env s1 (steps_inv _ _ _ HI H1)).
  etrans; [exact H1|]. etrans; [exact H2|]. case_match; [by apply steps_send|done].
Qed.

Lemma confirm_stream_displacement_steps env s e i :
  Inv s → rtc (step (StreamDisplaced e i)) s (confirm_stream_displacement env s e i).
Proof.
  intros HI. rw /confirm_stream_displacement.
  destruct (pending_stream_displacements (dir s) !! e) as [pending|] eqn:Hp; [|done].
  case_bool_decide as Hi; [subst|done]. cbn [negb].
  assert (H1 : rtc (step (StreamDisplaced e (d_incarnation pending))) s
    (with_dir s (set_displacements (dir s) (<[e := mkDisplacement (d_incarnation pending) true]>
       (pending_stream_displacements (dir s)))))).
  { apply rtc_once, step_volatile; [by apply mv_acknowledge|done|].
    intros e' i'. cbn. rw lookup_insert. case_decide; [done|by left]. }
  etrans; [exact H1|]. apply retry_retirement_steps. by eapply steps_inv.
Qed.

Lemma confirm_retirement_steps s a : rtc (step (SourceRetired a)) s (confirm_retirement s a).2.
Proof.
  rw /confirm_retirement. case_bool_decide as Ha; [|done]. cbn [negb].
  destruct (store_commit _ _) as [r1 s1] eqn:E.
  assert (Hm := mv_retired (SourceRetired a) (dir s) a eq_refl Ha).
  apply store_commit_spec in E as (disk'&rest&Hw&[(err&->&->)|(->&->&He)]).
  - by eapply rtc_once, step_fails; [exact Hm|].
  - etrans; [apply (steps_commit _ s _ _ rest Hm Hw He); by apply announces_same|].
    exact (steps_watches _ _ _).
Qed.

(** ** Requests *)

Lemma alter_insert `{Countable K} {A} (f : A → A) (m : gmap K A) i x :
  m !! i = Some x → alter f i m = <[i := f x]> m.
Proof. intros Hi. apply map_eq. intros j. rw lookup_alter lookup_insert. case_decide; [by subst; rw Hi|done]. Qed.

Lemma cancel_stream_steps msg s p id r s' :
  Inv s → cancel_stream s p id = (r, s') → rtc (step msg) s s'.
Proof.
  intros HI. rw /cancel_stream.
  assert (Hend : ∀ s, Inv s → ∀ r s',
    (let s := match streams (dir s) !! p with
       | Some (Pending pending) => if bool_decide (p_operation_id pending = id) then remove_stream s p else s
       | _ => s
       end in
     let retain fence := mkFence (f_incarnation fence) (f_endpoints fence) (f_old fence)
       (filter (λ request, s_operation_id request ≠ id) (f_requests fence)) in
     (inl tt : unit + NamespaceError,
      with_dir s (set_fences (dir s) (alter retain p (stream_replacement_fences (dir s)))))) = (r, s') →
    rtc (step msg) s s').
  { clear. intros s HI r s'. cbv zeta. set (s1 := match _ with Some _ => _ | None => _ end).
    assert (H1 : rtc (step msg) s s1).
    { subst s1. destruct (streams (dir s) !! p) as [[pending|]|] eqn:Hp; [|done..]. case_match; [|done].
      apply steps_volatile; [apply mv_drop; by rw Hp|done..]. }
    intros [= _ <-]. etrans; [exact H1|].
    assert (HI1 : Inv s1) by by eapply steps_inv.
    destruct (stream_replacement_fences (dir s1) !! p) as [f|] eqn:Hf.
    - rw (alter_insert _ _ _ f) //. apply steps_volatile; [|done..].
      apply (mv_requests msg _ p f); [done|]. apply Forall_forall. intros x Hx.
      apply list_elem_of_filter in Hx as [_ Hx].
      pose proof (v_requests _ (g_vol _ (inv_good _ HI1)) _ _ Hf) as Hr. rw Forall_forall in Hr. by apply Hr.
    - rw alter_id; [by intros x; rw /= Hf|]. by destruct s1 as [[]]. }
  case_bool_decide as Hid; [by apply Hend|].
  apply eq_None_not_Some in Hid. destruct (store_commit _ _) as [r1 s1] eqn:E. intros Hs'.
  eapply (commit_steps msg) in E as [(err&disk'&rest&->&->&Hs)|(disk'&rest&->&->&Hs)];
    [..|by apply (mv_refuse msg _ id (MBindStream p) (RPathReplaced p))|done|by apply announces_same].
  - by injection Hs' as _ <-.
  - etrans; [exact Hs|]. eapply Hend; [by eapply steps_inv|exact Hs'].
Qed.

Lemma close_stream_steps request_id reply_to s p i r s' :
  close_stream s p i = (r, s') → rtc (step (CloseStream request_id p i reply_to)) s s'.
Proof.
  rw /close_stream. destruct (streams (dir s) !! p) as [[pending|a]|] eqn:Hp;
    try (by intros H; repeat case_match; injection H as _ <-).
  case_bool_decide as Hi; [|by intros H; repeat case_match; injection H as _ <-].
  intros [= _ <-]. apply steps_volatile; [apply mv_drop; rw Hp; by intros ? [= <-]|done..].
Qed.

Lemma reserve_blob_steps msg s p id r s' : reserve_blob s p id = (r, s') → rtc (step msg) s s'.
Proof.
  rw /reserve_blob. destruct (is_bound _ _) eqn:Hb; [by intros [= _ <-]|].
  destruct (blob_reservations (dir s) !! p) eqn:Hp; [case_match; by intros [= _ <-]|].
  intros [= _ <-]. apply steps_volatile; [by apply mv_reserve|done..].
Qed.

Lemma release_steps s request_id p id reply_to r s' :
  release_blob_reservation s p id = (r, s') → rtc (step (ReleaseBlobReservation request_id p id reply_to)) s s'.
Proof.
  rw /release_blob_reservation. destruct (blob_reservations (dir s) !! p) as [id'|] eqn:Hp; [|by intros [= _ <-]].
  destruct (N.eqb_spec id' id) as [->|]; intros [= _ <-]; [|done].
  apply steps_volatile; [by eapply (mv_release _ _ request_id p id reply_to)|done..].
Qed.

(** ** Mutations *)

(** What [queue_retirement] does besides: a watch and a message. *)
Lemma queue_retired_eq env s retired r :
  ∃ w l, queue_retired env s retired (inl r) =
      mkSt (set_watches (enlist retired (dir s)) w) (disk s) (faults s) (sent s ++ l)
    ∧ Forall (λ x, opens x.2 = None) l.
Proof.
  rw /queue_retired. destruct retired as [a|].
  - rw queue_retirement_eq. eexists _, _. split; [done|by repeat constructor].
  - exists (retirement_watches (dir s)), []. rw enlist_none app_nil_r. split; [by destruct s as [[]]|done].
Qed.

Lemma steps_sent msg s l :
  Forall (λ x, opens x.2 = None) l → rtc (step msg) s (mkSt (dir s) (disk s) (faults s) (sent s ++ l)).
Proof.
  intros Hl. revert s. induction Hl as [|[a m] l Hm _ IH]; intros s; [rw app_nil_r; by destruct s|].
  etrans; [apply (steps_send msg s a m); cbn in Hm; by rw Hm|]. specialize (IH (send s a m)). cbn in IH. by rw -app_assoc in IH.
Qed.

(** A commit, and the bookkeeping of the source it retires. *)
Lemma commit_retire_steps msg env s d retired disk' rest r (f : DataDirectoryActor → DataDirectoryActor) :
  (∀ d w, f (set_watches d w) = set_watches (f d) w) →
  (∀ d', f (enlist retired d) = d' → rtc (step msg) s (mkSt d' disk' rest (sent s))) →
  let s' := queue_retired env (mkSt d disk' rest (sent s)) retired (inl r) in
  rtc (step msg) s (with_dir s' (f (dir s'))).
Proof.
  intros Hf Hs s'. subst s'. destruct (queue_retired_eq env (mkSt d disk' rest (sent s)) retired r)
    as (w&l&->&Hl). cbn. rw /with_dir /= Hf.
  etrans; [by apply Hs|]. etrans; [exact (steps_watches msg _ w)|]. exact (steps_sent msg _ l Hl).
Qed.

Lemma queue_retired_none env s r : queue_retired env s None r = s.
Proof. by destruct r. Qed.

Lemma queue_retired_error env s retired e : queue_retired env s retired (inr e) = s.
Proof. done. Qed.

Lemma logged_replay s id request :
  if logged s id then ∃ r, replay (dir s) id request = Some r
  else replay (dir s) id request = None ∧ operations (snapshot (dir s)) !! id = None.
Proof.
  rw /logged /replay. case_bool_decide as H.
  - destruct H as [o ->]. by eexists.
  - apply eq_None_not_Some in H. by rw H.
Qed.

Lemma unregister_steps env s request_id path id reply_to r s1 :
  let msg := Unregister request_id path id reply_to in
  streams (dir s) !! path = None →
  let retired := if logged s id then None else available_actor (sources (dir s) !! path) in
  unregister s path id retired = (r, s1) → rtc (step msg) s (queue_retired env s1 retired r).
Proof.
  intros msg Hst retired. subst retired. rw /unregister. pose proof (logged_replay s id (MUnregister path)) as Hl.
  destruct (logged s id).
  { destruct Hl as [r' ->]. intros [= <- <-]. by rw queue_retired_none. }
  destruct Hl as [-> Hid]. case_bool_decide as Hres.
  { intros H. eapply rejected_steps in H as ([e ->]&_&Hs); [exact Hs|done]. }
  apply eq_None_not_Some in Hres. destruct (is_bound (snapshot (dir s)) path) eqn:Hb; cbn [negb].
  2: { intros H. eapply rejected_steps in H as ([e ->]&_&Hs); [exact Hs|done]. }
  rw /checked_succ. destruct (N.leb_spec u64_max (next_revision (snapshot (dir s)))) as [Hmax|Hmax].
  { by intros [= <- <-]. }
  destruct (store_commit _ _) as [r1 s2] eqn:E.
  assert (Hm := mv_unregister msg (dir s) request_id path id reply_to eq_refl Hid Hres Hst Hb Hmax).
  apply store_commit_spec in E as (disk'&rest&Hw&[(e&->&->)|(->&->&He)]); intros [= <- <-].
  - by eapply rtc_once, step_fails; [exact Hm|].
  - assert (H := commit_retire_steps msg env s (set_sources (set_snapshot (dir s)
      (unregistered_snapshot (snapshot (dir s)) path id (available_actor (sources (dir s) !! path))))
      (delete path (sources (dir s)))) (available_actor (sources (dir s) !! path)) disk' rest
      (next_revision (snapshot (dir s))) (λ d, d) ltac:(done)).
    cbv beta zeta in H. rw with_dir_id in H. apply H. intros d' <-.
    apply (steps_commit msg s _ _ rest Hm Hw He). by apply announces_same.
Qed.

Lemma rename_steps env s request_id p q replace id reply_to r s1 :
  let msg := Rename request_id p q replace id reply_to in
  let retired := if logged s id then None else destination_retired (dir s) p q in
  rename s p q replace id = (r, s1) → rtc (step msg) s (queue_retired env s1 retired r).
Proof.
  intros msg retired. subst retired. rw /rename. pose proof (logged_replay s id (MRename p q replace)) as Hl.
  destruct (logged s id).
  { destruct Hl as [r' ->]. intros [= <- <-]. by rw queue_retired_none. }
  destruct Hl as [-> Hid]. destruct (rename_refuses (dir s) p q replace) eqn:Href.
  { intros H. eapply rejected_steps in H as ([e ->]&_&Hs); [exact Hs|done]. }
  rw /checked_succ. destruct (N.leb_spec u64_max (next_revision (snapshot (dir s)))) as [Hmax|Hmax].
  { by intros [= <- <-]. }
  destruct (store_commit _ _) as [r1 s2] eqn:E.
  assert (Hm := mv_rename msg (dir s) request_id p q replace id reply_to eq_refl Hid Href Hmax).
  apply store_commit_spec in E as (disk'&rest&Hw&[(e&->&->)|(->&->&He)]); intros [= <- <-].
  - by eapply rtc_once, step_fails; [exact Hm|].
  - assert (H := commit_retire_steps msg env s (set_sources (set_snapshot (dir s)
      (renamed_snapshot (snapshot (dir s)) p q replace id (destination_retired (dir s) p q)))
      (moved_sources p q (sources (dir s)))) (destination_retired (dir s) p q) disk' rest
      (next_revision (snapshot (dir s))) (λ d, d) ltac:(done)).
    cbv beta zeta in H. rw with_dir_id in H. apply H. intros d' <-.
    apply (steps_commit msg s _ _ rest Hm Hw He). by apply announces_same.
Qed.

(** The source that [handle] retires for a registration. *)
Lemma replaced_source_eq d path source :
  match sources d !! path with
  | Some (Available actor _ _) => if negb (bool_decide (actor = source)) then Some actor else None
  | _ => None
  end = replaced_source d path source.
Proof.
  rw /replaced_source. destruct (sources d !! path) as [[]|]; [|done..]. cbn. by case_bool_decide.
Qed.

Lemma register_steps env s request_id path source node length recovery id reservation reply_to r s1 :
  let msg := Register request_id path source node length recovery id reservation reply_to in
  let retired := if logged s id then None else replaced_source (dir s) path source in
  Inv s →
  register s (mkRegistration path source node length recovery id reservation retired) = (r, s1) →
  rtc (step msg) s
    (match r with
     | inl _ => displace_stream env (queue_retired env s1 retired r) path
     | inr _ => queue_retired env s1 retired r
     end).
Proof.
  intros msg retired HI. subst retired. rw /register /=.
  pose proof (logged_replay s id (MRegister path length recovery)) as Hl. destruct (logged s id).
  { destruct Hl as [r' ->]. intros [= <- <-]. rw queue_retired_none.
    destruct r'; [by apply displace_stream_steps|done]. }
  destruct Hl as [-> Hid]. destruct (reservation_refuses (dir s) path reservation) eqn:Hres.
  { intros H. eapply rejected_steps in H as ([e ->]&_&Hs); [exact Hs|done]. }
  rw /checked_succ. destruct (N.leb_spec u64_max (next_revision (snapshot (dir s)))) as [Hmax|Hmax].
  { by intros [= <- <-]. }
  destruct (store_commit _ _) as [r1 s2] eqn:E.
  assert (Hm := mv_register msg (dir s) request_id path source node length recovery id reservation
    reply_to eq_refl Hid Hres Hmax).
  apply store_commit_spec in E as (disk'&rest&Hw&[(e&->&->)|(->&->&He)]).
  { intros [= <- <-]. by eapply rtc_once, step_fails; [exact Hm|]. }
  set (d := set_sources (set_blob_reservations (set_snapshot (dir s)
      (registered_snapshot (snapshot (dir s)) path length recovery id (replaced_source (dir s) path source)))
      (if bool_decide (is_Some reservation) then delete path (blob_reservations (dir s))
       else blob_reservations (dir s)))
      (<[path := Available source node (recovery_owner recovery)]> (sources (dir s)))).
  intros Hs1. assert (s1 = mkSt d disk' rest (sent s) ∧ r = inl (next_revision (snapshot (dir s)))) as [-> ->].
  { injection Hs1 as <- <-. split; [|done]. rw /d. by case_bool_decide. }
  set (s2 := queue_retired _ _ _ _).
  assert (Hs2 : rtc (step msg) s (remove_stream s2 path)).
  { apply (commit_retire_steps msg env s d (replaced_source (dir s) path source) disk' rest
      (next_revision (snapshot (dir s))) (λ d, set_streams d (delete path (streams d)))); [done|].
    intros d' <-. apply (steps_commit msg s _ _ rest Hm Hw He). by apply announces_same. }
  etrans; [exact Hs2|]. apply displace_rest_steps.
  destruct (queue_retired_eq env (mkSt d disk' rest (sent s)) (replaced_source (dir s) path source)
    (next_revision (snapshot (dir s)))) as (w&l&Heq&_). subst s2. rw Heq. cbn.
  intros a. by apply (active_incarnation s path).
Qed.

(** ** Every message *)

Lemma handle_steps env s msg : Inv s → rtc (step msg) s (handle env s msg).
Proof.
  intros HI. destruct msg; cbn [handle].
  - rw replaced_source_eq. destruct (register _ _) as [r s1] eqn:E.
    etrans; [|by apply steps_reply]. eapply (register_steps env _ request_id _ _ _ _ _ _ _ reply_to) in E; [|done]. by destruct r.
  - by apply steps_reply.
  - by apply steps_reply.
  - destruct (reserve_blob _ _ _) as [r s1] eqn:E. etrans; [|by apply steps_reply]. by eapply reserve_blob_steps.
  - destruct (release_blob_reservation _ _ _) as [r s1] eqn:E.
    etrans; [|by apply steps_reply]. by eapply release_steps in E.
  - case_bool_decide as Hst; [by apply steps_reply|]. apply eq_None_not_Some in Hst.
    destruct (unregister _ _ _ _) as [r s1] eqn:E. etrans; [|by apply steps_reply]. by eapply (unregister_steps env _ request_id _ _ reply_to) in E.
  - destruct (rename _ _ _ _ _) as [r s1] eqn:E. etrans; [|by apply steps_reply]. by eapply (rename_steps env _ request_id _ _ _ _ reply_to) in E.
  - by apply open_stream_steps.
  - destruct (cancel_stream _ _ _) as [r s1] eqn:E. eapply cancel_stream_steps in E; [|done].
    destruct reply_to; [|done]. etrans; [exact E|by apply steps_reply].
  - destruct (close_stream _ _ _) as [r s1] eqn:E. etrans; [|by apply steps_reply]. by eapply close_stream_steps.
  - apply confirm_retirement_steps.
  - by apply confirm_stream_displacement_steps.
  - by apply retry_retirements_steps.
  - by apply retry_retirement_steps.
Qed.

Lemma handle_inv env s msg : Inv s → Inv (handle env s msg).
Proof. intros HI. eapply steps_inv; [done|]. by apply handle_steps. Qed.

Lemma on_start_steps env s : Inv s → rtc (step RetryRetirements) s (on_start env s).
Proof.
  intros HI. rw /on_start.
  set (s1 := if bool_decide (is_Some (retire_retry (dir s))) then _ else s).
  assert (H1 : rtc (step RetryRetirements) s s1).
  { subst s1. case_match; [|done].
    apply (steps_volatile _ s (set_timer (set_watches (dir s) (retirement_watches (dir s))) true));
      [apply mv_watch|done..]. }
  set (s2 := foldl _ _ _). assert (H2 : rtc (step RetryRetirements) s1 s2).
  { apply foldl_steps. intros s' x. rw watch_retirement_eq. apply steps_watches. }
  etrans; [exact H1|]. etrans; [exact H2|]. apply retry_retirements_steps.
  by eapply steps_inv; [eapply steps_inv|].
Qed.

(** ** Recovery *)

Lemma recover_sources_lookup (rec : Recoverer) x p :
  is_Some (recover_sources rec x !! p) ↔ is_Some (bindings x !! p).
Proof.
  rw /recover_sources map_lookup_imap. destruct (bindings x !! p); cbn; [by split; eauto|done].
Qed.

Lemma recovered_displacements (l : list (ActorAddress * StreamIncarnation)) e i :
  NoDup l.*1 →
  (∃ b, foldl (λ m (x : ActorAddress * StreamIncarnation), <[x.1 := mkDisplacement x.2 false]> m) (∅ : gmap ActorAddress PendingStreamDisplacement) l !! e
        = Some (mkDisplacement i b)) ↔ (e, i) ∈ l.
Proof.
  induction l as [|[e' i'] l IH] using rev_ind; intros Hnd; [cbn; split; [by intros []|set_solver]|].
  rw fmap_app NoDup_app /= in Hnd. destruct Hnd as (Hnd&Hout&_).
  rw foldl_app /= lookup_insert elem_of_app list_elem_of_singleton. specialize (IH Hnd).
  case_decide as He; [subst|rw IH; naive_solver].
  split; [intros [b [= <-]]; by right|]. intros [Hin|[= <-]]; [|by exists false].
  exfalso. eapply (Hout e); [|set_solver]. apply list_elem_of_fmap. by exists (e, i).
Qed.

Lemma recovered_fences held l p f :
  foldl (recover_fence held) ∅ l !! p = Some f →
  f_requests f = [] ∧ ∃ e, (e, f_incarnation f) ∈ l.
Proof.
  revert p f. induction l as [|[e i] l IH] using rev_ind; intros p f; [done|].
  rw foldl_app. set (m := foldl (recover_fence held) ∅ l) in *. cbn [foldl]. clearbody m. rw /recover_fence.
  assert (Hold : m !! p = Some f → f_requests f = [] ∧ ∃ e', (e', f_incarnation f) ∈ l ++ [(e, i)]).
  { intros H. destruct (IH _ _ H) as [? [e' ?]]. split; [done|]. exists e'. set_solver. }
  destruct (list_find _ _) as [[n [q r]]|]; [|exact Hold].
  rw lookup_insert. case_decide as Hq; [subst q|exact Hold]. intros [= <-]. clear Hold.
  destruct (m !! p) as [g|] eqn:Hg; cbn.
  - destruct (IH _ _ Hg) as [? [e' ?]]. case_bool_decide; cbn; (split; [done|]); exists e'; set_solver.
  - rw bool_decide_true //=. split; [done|]. exists e. set_solver.
Qed.

Lemma checked_succ_Some n m : checked_succ n = Some m ↔ m = n + 1 ∧ n < u64_max.
Proof. rw /checked_succ. destruct (N.leb_spec u64_max n); (split; [|intros [-> ?]]); [done|lia|by intros [= <-]|done]. Qed.

(** The directory that starts from the snapshot [x]. *)
Definition restarted (env : Env) (retry : option RetirementRetry) (rec : Recoverer) (x : NamespaceSnapshot)
    : DataDirectoryActor :=
  mkDirectory (set_authority_epoch x (authority_epoch x + 1)) (recover_sources rec x) ∅ ∅
    (list_to_set (retirements x))
    (foldl (λ m y, <[y.1 := mkDisplacement y.2 false]> m) ∅ (stream_retirements x))
    (foldl (recover_fence x) ∅ (stream_retirements x)) (authority_epoch x + 1) retry ∅
    (hash_order env (elements (list_to_set (retirements x) : gset ActorAddress))) false.

(** A directory that starts holds a snapshot that could be found, under the next epoch, durably. *)
Lemma recover_spec env error fault retry rec d r d' :
  recover env error fault retry rec d = (r, d') →
  (∀ P : NamespaceSnapshot → Prop,
     (∀ x e, P x → authority_epoch x < e → P (set_authority_epoch x e)) →
     recoverable P d → recoverable P d')
  ∧ ∀ a, r = inl a → recoverable (eq (snapshot a)) d'
      ∧ ∃ x, a = restarted env retry rec x ∧ ∀ P, recoverable P d → P x ∧ validate x = inl tt.
Proof.
  rw /recover. destruct (open error d) as [held|e] eqn:Ho; [|by intros [= <- <-]].
  rw /advance_authority_epoch. destruct (checked_succ _) as [epoch|] eqn:Hs; [|by intros [= <- <-]].
  apply checked_succ_Some in Hs as [-> _].
  destruct (commit _ _ _ _) as [[r1 held'] d1] eqn:Hc. apply commit_spec in Hc as [Hw Hr].
  intros H. assert (d' = d1) as -> by by destruct r1; injection H.
  split.
  - intros P HP Hd. apply Hw; [|done]. apply HP; [by apply (open_gives _ _ _ Ho P)|lia].
  - intros a ->. destruct Hr as [(e&->&->)|(->&->&He)]; [done|]. injection H as <-.
    split; [done|]. exists held. split; [done|]. intros P Hd. by apply (open_gives _ _ _ Ho P Hd).
Qed.

Lemma restarted_good env retry rec x :
  wf x → validate (snapshot (restarted env retry rec x)) = inl tt → Good (restarted env retry rec x).
Proof.
  intros Hwf Hv. split; [done| |split; cbn; try done].
  - eapply wf_rest; try done; try apply Hwf. cbn. intros e i Hi%wf_displaced_epoch; [lia|done].
  - intros p. by rw recover_sources_lookup.
  - intros b. apply elem_of_list_to_set.
  - intros b Hb. rw hash_order_all. by apply elem_of_elements.
  - intros e i. by rw recovered_displacements; [apply Hwf|].
  - intros p f (_&e&Hin)%recovered_fences. apply wf_displaced_epoch in Hin; [|done]. lia.
  - intros p f [-> _]%recovered_fences. done.
  - intros p [? []%lookup_empty_Some].
Qed.

End Refine.
