(* ===== verification/NamespaceWorld.v ===== *)
(** * The directory among crashes

    A history of the namespace's authority: it starts from its disk, handles messages in any order and
    any number of times, stops, and loses power.  A process that dies inside a handler leaves the disk
    as one does whose remaining commits all fail at their first call, and then stops.

    [keeper] is the proof rule: what every move keeps, of the directory and of the snapshots it may
    leave on disk, and what a restart takes from a snapshot, holds for ever. *)

From S2P Require Import Prelude LogicalPath NamespaceStore NamespaceDirectory NamespaceMoves NamespaceInv.
From S2P Require Import NamespaceRefine.
#[local] Open Scope N_scope.

Section World.
Context {F : NamespaceFormat}.

Record World := mkWorld {
  stored : Disk;
  running : option DataDirectoryActor;
}.

Definition world_new : World := mkWorld empty_disk None.

Inductive Event :=
| Start (env : Env) (error : option string) (fault : option Fault) (retry : option RetirementRetry)
    (recover_source : Recoverer) (faults : list (option Fault))
| Deliver (env : Env) (faults : list (option Fault)) (message : DataDirectoryIn)
| Stop
| PowerLoss (choice : nat) (cut keep : bool).

(** What an event does, and the messages that are sent. *)
Definition world_step (w : World) (event : Event) : World * list (ActorAddress * Message) :=
  match event, running w with
  | Start env error fault retry recover_source faults, None =>
      let '(r, d) := recover env error fault retry recover_source (stored w) in
      match r with
      | inr _ => (mkWorld d None, [])
      | inl a => let s := on_start env (mkSt a d faults []) in (mkWorld (disk s) (Some (dir s)), sent s)
      end
  | Deliver env faults message, Some a =>
      let s := handle env (mkSt a (stored w) faults []) message in
      (mkWorld (disk s) (Some (dir s)), sent s)
  | Stop, _ => (mkWorld (stored w) None, [])
  | PowerLoss choice cut keep, _ => (mkWorld (power_loss choice cut keep (stored w)) None, [])
  | _, _ => (w, [])
  end.

Definition world_run (w : World) (events : list Event) : World :=
  foldl (λ w event, (world_step w event).1) w events.

Definition reachable (w : World) : Prop := ∃ events, w = world_run world_new events.

Lemma world_run_cat w es es' : world_run w (es ++ es') = world_run (world_run w es) es'.
Proof. apply foldl_app. Qed.

Lemma reachable_run w es : reachable w → reachable (world_run w es).
Proof. intros [es0 ->]. exists (es0 ++ es). by rw world_run_cat. Qed.

Definition WInv (w : World) : Prop :=
  match running w with
  | None => recoverable wf (stored w)
  | Some d => Good d ∧ recoverable (λ x, wf x ∧ ext (snapshot d) x) (stored w)
  end.

(** ** What stays *)

(** [P] of the snapshots that a restart may find, [Q] of the directory that runs; [ok] are the messages
    that are delivered, [okr] the plug-ins that start sources again. *)
Record keeper (ok : DataDirectoryIn → Prop) (okr : Recoverer → Prop) (P : NamespaceSnapshot → Prop) (Q : DataDirectoryActor → Prop) : Prop := {
  k_move msg d d' : ok msg → Good d → Q d → move msg d d' → Q d' ∧ P (snapshot d');
  k_epoch x e : P x → authority_epoch x < e → P (set_authority_epoch x e);
  k_restart env retry rec x : okr rec → wf x → P x → Q (restarted env retry rec x);
  k_tick : ok RetryRetirements;
}.

Definition kept (P : NamespaceSnapshot → Prop) (Q : DataDirectoryActor → Prop) (w : World) : Prop :=
  recoverable P (stored w) ∧ match running w with Some d => Q d | None => True end.

Definition delivers (ok : DataDirectoryIn → Prop) (okr : Recoverer → Prop) (event : Event) : Prop :=
  match event with
  | Deliver _ _ msg => ok msg
  | Start _ _ _ _ recover_source _ => okr recover_source
  | _ => True
  end.

Lemma steps_kept ok okr P Q msg s s' :
  keeper ok okr P Q → ok msg → Inv s → rtc (step msg) s s' →
  Q (dir s) → recoverable P (disk s) → Q (dir s') ∧ recoverable P (disk s').
Proof.
  intros HK Hok HI Hs. revert HI. induction Hs as [s|s s1 s' H1 _ IH]; intros HI HQ HP; [done|].
  assert (HI1 := step_inv _ _ _ HI H1). apply IH; [done|clear IH..].
  - destruct H1 as [| d Hm _ _ | | d ? ? ? Hm _ _ _]; cbn; [done| |done|];
      by apply (k_move _ _ _ _ HK _ _ _ Hok (inv_good _ HI) HQ Hm).
  - destruct H1 as [| | d ? ? Hm Hw | d ? ? ? Hm Hw _ _]; cbn; [done|done|..];
      (apply Hw; [|done]; by apply (k_move _ _ _ _ HK _ _ _ Hok (inv_good _ HI) HQ Hm)).
Qed.

Lemma inv_any d x fs l : Good d → recoverable (λ y, wf y ∧ ext (snapshot d) y) x → Inv (mkSt d x fs l).
Proof. by split. Qed.

Lemma inv_world s : Inv s → WInv (mkWorld (disk s) (Some (dir s))).
Proof. intros [HG Hd]. by split. Qed.

(** A restart, seen from outside. *)
Lemma start_spec env error fault retry rec d r d' faults :
  recover env error fault retry rec d = (r, d') → recoverable wf d →
  match r with
  | inr _ => recoverable wf d'
  | inl a => Inv (mkSt a d' faults []) ∧ recoverable (eq (snapshot a)) d'
  end.
Proof.
  intros Hr Hd. apply recover_spec in Hr as [Hp Ha]. destruct r as [a|e].
  - destruct (Ha a eq_refl) as (He&x&->&Hx). destruct (Hx wf Hd) as [Hwf _].
    assert (HG : Good (restarted env retry rec x)).
    { apply restarted_good; [done|]. by eapply recoverable_eq. }
    split; [|done]. split; [done|]. cbn [disk dir]. eapply recoverable_impl; [|exact He]. intros y <-. split; [apply HG|done].
  - apply Hp; [|done]. intros x e' Hwf Hlt. eapply wf_rest; try done; try apply Hwf.
    cbn. intros ? i Hi%wf_displaced_epoch; [lia|done].
Qed.

Lemma world_step_inv w event : WInv w → WInv (world_step w event).1.
Proof.
  rw /WInv /world_step. destruct event as [env error fault retry rec faults|env faults msg| |choice cut keep];
    destruct (running w) as [d|] eqn:Hr; cbn; rw ?Hr; try done.
  - intros Hd. destruct (recover _ _ _ _ _ _) as [r d'] eqn:E. apply (start_spec _ _ _ _ _ _ _ _ faults) in E; [|done].
    destruct r as [a|e]; [|done]. destruct E as [HI _].
    by apply (inv_world (on_start env (mkSt a d' faults []))); eapply steps_inv, on_start_steps.
  - intros [HG Hd]. apply (inv_world (handle env (mkSt d (stored w) faults []) msg)).
    apply handle_inv. by apply inv_any.
  - intros [HG Hd]. eapply recoverable_impl; [|done]. by intros x [].
  - intros [HG Hd]. apply power_loss_recoverable. eapply recoverable_impl; [|done]. by intros x [].
  - intros Hd. by apply power_loss_recoverable.
Qed.

Lemma world_run_inv w events : WInv w → WInv (world_run w events).
Proof.
  revert w. induction events as [|e es IH]; intros w Hw; [done|]. by apply IH, world_step_inv.
Qed.

Lemma default_wf : wf default_snapshot.
Proof.
  split; cbn; try (intros *; rw ?lookup_empty; done); try apply NoDup_nil_2.
  intros ? ? []%not_elem_of_nil.
Qed.

Lemma reachable_inv w : reachable w → WInv w.
Proof.
  intros [events ->]. apply world_run_inv. apply empty_disk_recoverable, default_wf.
Qed.

Lemma reachable_running w d : reachable w → running w = Some d → Good d.
Proof. intros Hw%reachable_inv Hr. rw /WInv Hr in Hw. by destruct Hw. Qed.

Lemma world_step_kept ok okr P Q w event :
  keeper ok okr P Q → delivers ok okr event → WInv w → kept P Q w → kept P Q (world_step w event).1.
Proof.
  intros HK Hok HI [HP HQ]. rw /WInv in HI. rw /kept /world_step.
  destruct event as [env error fault retry rec faults|env faults msg| |choice cut keep];
    destruct (running w) as [d|] eqn:Hr; cbn; rw ?Hr; try done.
  - destruct (recover _ _ _ _ _ _) as [r d'] eqn:E.
    pose proof (start_spec _ _ _ _ _ _ _ _ faults E HI) as HS.
    apply recover_spec in E as [Hp Ha]. specialize (Hp P (k_epoch _ _ _ _ HK) HP).
    destruct r as [a|e]; [|done]. destruct (Ha a eq_refl) as (_&x&->&Hx).
    destruct (Hx _ HI) as [Hwf _], (Hx _ HP) as [HPx _]. destruct HS as [HI' _].
    apply and_comm. eapply (steps_kept ok okr P Q RetryRetirements); [done|apply HK|exact HI'| |cbn|done].
    + by apply on_start_steps.
    + by apply (k_restart _ _ _ _ HK).
  - destruct HI as [HG Hd]. apply and_comm.
    eapply (steps_kept ok okr P Q msg); [done|done|by apply inv_any|apply handle_steps; by apply inv_any|done..].
  - split; [by apply power_loss_recoverable|done].
  - split; [by apply power_loss_recoverable|done].
Qed.

Lemma world_run_kept ok okr P Q w events :
  keeper ok okr P Q → Forall (delivers ok okr) events → WInv w → kept P Q w → kept P Q (world_run w events).
Proof.
  intros HK Hok. revert w. induction Hok as [|e es He _ IH]; intros w HI Hw; [done|].
  apply IH; [by apply world_step_inv|]. by eapply world_step_kept.
Qed.

(** Every message is allowed. *)
Lemma delivers_all events : Forall (delivers (λ _, True) (λ _, True)) events.
Proof. apply Forall_forall. by intros []. Qed.

End World.
