(* ===== verification/NamespaceOnce.v ===== *)
(** * Mutations are done once

    A client that has no answer sends its mutation again, under the same identifier, to whichever
    authority runs.  Whatever happens in between, crashes and losses of power included, the answer is the
    first one and the namespace is left alone. *)

From S2P Require Import Prelude LogicalPath NamespaceStore NamespaceDirectory NamespaceMoves NamespaceInv.
From S2P Require Import NamespaceRefine NamespaceWorld.
#[local] Open Scope N_scope.

Section Once.
Context {F : NamespaceFormat}.

(** ** Mutations and their answers *)

Definition mutation (msg : DataDirectoryIn) : option (OperationId * MutationRequest) :=
  match msg with
  | Register _ path _ _ length recovery id _ _ => Some (id, MRegister path length recovery)
  | Unregister _ path id _ => Some (id, MUnregister path)
  | Rename _ source destination replace id _ => Some (id, MRename source destination replace)
  | _ => None
  end.

Definition answer_to (msg : DataDirectoryIn) (epoch : N) (result : MutationReceipt + NamespaceError)
    : option (ActorAddress * Message) :=
  match msg with
  | Register request_id _ _ _ _ _ _ _ reply_to =>
      Some (reply_to, DirectoryReply (mkOut request_id epoch (Registered result)))
  | Unregister request_id _ _ reply_to =>
      Some (reply_to, DirectoryReply (mkOut request_id epoch (Unregistered result)))
  | Rename request_id _ _ _ _ reply_to =>
      Some (reply_to, DirectoryReply (mkOut request_id epoch (Renamed result)))
  | _ => None
  end.

Definition outcome (r : PersistedMutationResult) : MutationReceipt + NamespaceError :=
  match r with Committed receipt => inl receipt | Rejected rejection => inr (rejection_error rejection) end.

(** The operation is in the log with this result. *)
Definition logs (id : OperationId) (request : MutationRequest) (result : MutationReceipt + NamespaceError)
    (x : NamespaceSnapshot) : Prop :=
  ∃ o, operations x !! id = Some (mkOperation request o) ∧ outcome o = result.

(** A receipt or a rejection: neither a failure of the storage nor a conflict. *)
Definition settled (result : MutationReceipt + NamespaceError) : Prop := ∃ o, outcome o = result.

(** An open stream makes [Unregister] fail before the log is looked at. *)
Definition blocked (d : DataDirectoryActor) (msg : DataDirectoryIn) : bool :=
  match msg with Unregister _ path _ _ => bool_decide (is_Some (streams d !! path)) | _ => false end.

Definition blocked_error (msg : DataDirectoryIn) : NamespaceError :=
  match msg with Unregister _ path _ _ => WrongEntryType path Blob Stream | _ => Protocol EmptyString end.

(** The names, the log and the revisions agree. *)
Definition same_names (x y : NamespaceSnapshot) : Prop :=
  bindings y = bindings x ∧ stream_nodes y = stream_nodes x ∧ operations y = operations x
  ∧ next_revision y = next_revision x.

(** ** Handlers that leave the names alone *)

Lemma replay_logs d id request result :
  logs id request result (snapshot d) ↔ replay d id request = Some result ∧ result ≠ inr (OperationConflict id).
Proof.
  rw /logs /replay. split.
  - intros (o&->&<-). cbn. rw bool_decide_true //=. destruct o as [r|[]]; by split.
  - intros [H Hne]. apply fmap_Some in H as ([q o]&Ho&->). cbn in *. case_bool_decide; [subst|done].
    exists o. split; [done|]. by destruct o as [r|[]].
Qed.

Lemma logs_keeper id request result :
  keeper (λ _, True) (λ _, True) (logs id request result) (λ d, logs id request result (snapshot d)).
Proof.
  split; try done.
  assert (H : ∀ msg d d', logs id request result (snapshot d) → move msg d d' → logs id request result (snapshot d')).
  { intros msg d d' (o&Ho&Hr) Hm. exists o. split; [|done].
    eapply lookup_weaken; [done|]. apply (ext_log _ _ (move_ext _ _ _ Hm)). }
  intros msg d d' _ _ Hd Hm. by split; eapply H.
Qed.

Lemma queue_stream_displacement_names env s e i :
  let s' := queue_stream_displacement env s e i in
  same_names (snapshot (dir s)) (snapshot (dir s')) ∧ directory_epoch (dir s') = directory_epoch (dir s).
Proof.
  intros s'. subst s'. rw /queue_stream_displacement. case_match; [done|].
  destruct (store_commit _ _) as [r s1] eqn:E.
  apply store_commit_spec in E as (disk'&rest&_&[(err&->&->)|(->&->&_)]); [done|].
  rw watch_retirement_eq. done.
Qed.

Lemma displace_stream_names env s p :
  let s' := displace_stream env s p in
  same_names (snapshot (dir s)) (snapshot (dir s')) ∧ directory_epoch (dir s') = directory_epoch (dir s).
Proof.
  intros s'. subst s'. rw /displace_stream. destruct (streams (dir s) !! p) as [[pending|a]|]; [done| |done].
  set (s0 := with_dir _ _). set (i := m_incarnation _).
  destruct (queue_stream_displacement_names env s0 (m_source (a_binding a)) i) as ((B1&S1&O1&N1)&E1).
  destruct (queue_stream_displacement_names env
    (queue_stream_displacement env s0 (m_source (a_binding a)) i) (m_sink (a_binding a)) i) as ((B2&S2&O2&N2)&E2).
  rw /same_names B2 B1 S2 S1 O2 O1 N2 N1 E2 E1. done.
Qed.

Lemma queue_retired_names env s retired r :
  let s' := queue_retired env s retired r in
  snapshot (dir s') = snapshot (dir s) ∧ directory_epoch (dir s') = directory_epoch (dir s).
Proof.
  intros s'. subst s'. destruct r as [r|e]; [|done].
  destruct (queue_retired_eq env s retired r) as (w&l&->&_). done.
Qed.

(** ** Every answer that settles a mutation is in the log *)

Lemma rejected_logs s id request rejection r s' :
  rejected s id request rejection = (r, s') →
  directory_epoch (dir s') = directory_epoch (dir s) ∧ (settled r → logs id request r (snapshot (dir s'))).
Proof.
  rw /rejected /reject. destruct (store_commit _ _) as [r1 s1] eqn:E.
  apply store_commit_spec in E as (disk'&rest&_&[(err&->&->)|(->&->&_)]); intros [= <- <-]; (split; [done|]).
  - intros [[receipt|[]] Ho]; done.
  - intros _. exists (Rejected rejection). split; [|done]. cbn. by rw lookup_insert_eq.
Qed.

Lemma replay_settled d id request r :
  replay d id request = Some r → settled r → logs id request r (snapshot d).
Proof.
  intros Hr [o Ho]. apply replay_logs. split; [done|]. subst r. by destruct o as [|[]].
Qed.

Lemma log_logs x id request r :
  logs id request (inl r) (log x id request (Committed r)).
Proof. exists (Committed r). split; [|done]. cbn. by rw lookup_insert_eq. Qed.

(** The three mutations share their shape: a replay, a rejection, or a commit that logs its receipt. *)
Definition logging (id : OperationId) (request : MutationRequest) (s : St)
    (out : (MutationReceipt + NamespaceError) * St) : Prop :=
  directory_epoch (dir out.2) = directory_epoch (dir s)
  ∧ (settled out.1 → logs id request out.1 (snapshot (dir out.2))).

Lemma unsettled_store e : ¬ settled (inr (from_store e)).
Proof. intros [[|[]] ?]; done. Qed.

Lemma unregister_logging s path id retired : logging id (MUnregister path) s (unregister s path id retired).
Proof.
  rw /unregister. destruct (replay _ _ _) eqn:Hr; [by split; [|apply replay_settled]|].
  case_bool_decide; [destruct (rejected _ _ _ _) as [r s'] eqn:E; by apply rejected_logs in E|].
  case_match; [destruct (rejected _ _ _ _) as [r s'] eqn:E; by apply rejected_logs in E|].
  case_match; [|split; [done|by intros ?%unsettled_store]].
  destruct (store_commit _ _) as [r s'] eqn:E.
  apply store_commit_spec in E as (disk'&rest&_&[(err&->&->)|(->&->&_)]); (split; [done|]).
  - by intros ?%unsettled_store.
  - intros _. apply log_logs.
Qed.

Lemma rename_logging s p q replace id : logging id (MRename p q replace) s (rename s p q replace id).
Proof.
  rw /rename. destruct (replay _ _ _) eqn:Hr; [by split; [|apply replay_settled]|].
  case_match; [destruct (rejected _ _ _ _) as [r s'] eqn:E; by apply rejected_logs in E|].
  case_match; [|split; [done|by intros ?%unsettled_store]].
  destruct (store_commit _ _) as [r s'] eqn:E.
  apply store_commit_spec in E as (disk'&rest&_&[(err&->&->)|(->&->&_)]); (split; [done|]).
  - by intros ?%unsettled_store.
  - intros _. apply log_logs.
Qed.

Lemma register_logging s g :
  logging (r_operation_id g) (MRegister (r_path g) (r_length g) (r_recovery g)) s (register s g).
Proof.
  rw /register. destruct (replay _ _ _) eqn:Hr; [by split; [|apply replay_settled]|].
  case_match; [destruct (rejected _ _ _ _) as [r s'] eqn:E; by apply rejected_logs in E|].
  case_match; [|split; [done|by intros ?%unsettled_store]].
  destruct (store_commit _ _) as [r s'] eqn:E.
  apply store_commit_spec in E as (disk'&rest&_&[(err&->&->)|(->&->&_)]).
  - split; [done|]. by intros ?%unsettled_store.
  - case_bool_decide; (split; [done|]); intros _; apply log_logs.
Qed.

Lemma last_reply s request_id reply_to r :
  last (sent (reply s request_id reply_to r)) =
  Some (reply_to, DirectoryReply (mkOut request_id (directory_epoch (dir s)) r)).
Proof. cbn. by rw last_snoc. Qed.

Lemma answer_inj msg e e' r r' id request :
  mutation msg = Some (id, request) → answer_to msg e r = answer_to msg e' r' → r = r'.
Proof. destruct msg; cbn; try done; intros _ H; by injection H. Qed.

(** The handler of a mutation ends with its answer, and a settled one is logged by then. *)
Lemma handle_logs env s msg id request :
  mutation msg = Some (id, request) →
  ∃ result, last (sent (handle env s msg)) = answer_to msg (directory_epoch (dir s)) result
    ∧ (settled result → logs id request result (snapshot (dir (handle env s msg)))).
Proof.
  destruct msg; try done; intros [= <- <-]; cbn [handle].
  - set (retired := if logged s operation_id then _ else _).
    set (g := mkRegistration _ _ _ _ _ _ _ _). pose proof (register_logging s g) as [He Hl].
    destruct (register s g) as [r s1]. exists r. cbn [fst snd] in *. rw last_reply. cbn [dir reply send].
    destruct (queue_retired_names env s1 retired r) as [Q1 Q2].
    destruct r as [receipt|e]; [|by rw Q1 Q2 He].
    destruct (displace_stream_names env (queue_retired env s1 retired (inl receipt)) path) as ((_&_&O1&_)&E1).
    rw E1 Q2 He. split; [done|]. intros Hs. destruct (Hl Hs) as (o&Ho&?). exists o. by rw O1 Q1.
  - case_bool_decide as Hst.
    { eexists. rw last_reply. split; [done|]. by intros [[|[]] ?]. }
    set (retired := if logged s operation_id then _ else _).
    pose proof (unregister_logging s path operation_id retired) as [He Hl].
    destruct (unregister _ _ _ _) as [r s1]. exists r. cbn [fst snd] in *. rw last_reply. cbn [dir reply send].
    destruct (queue_retired_names env s1 retired r) as [-> ->]. by rw He.
  - set (retired := if logged s operation_id then _ else _).
    pose proof (rename_logging s source destination replace operation_id) as [He Hl].
    destruct (rename _ _ _ _ _) as [r s1]. exists r. cbn [fst snd] in *. rw last_reply. cbn [dir reply send].
    destruct (queue_retired_names env s1 retired r) as [-> ->]. by rw He.
Qed.

(** A mutation of the log is answered from the log, unless it is blocked. *)
Lemma handle_replays env s msg id request result :
  mutation msg = Some (id, request) → replay (dir s) id request = Some result →
  last (sent (handle env s msg))
    = answer_to msg (directory_epoch (dir s)) (if blocked (dir s) msg then inr (blocked_error msg) else result)
  ∧ same_names (snapshot (dir s)) (snapshot (dir (handle env s msg))).
Proof.
  intros Hm Hr. assert (Hlog : logged s id = true).
  { rw /logged. apply bool_decide_eq_true. apply fmap_Some in Hr as (o&Ho&_). by eexists. }
  destruct msg; try done; injection Hm as <- <-; cbn [handle blocked]; rw ?Hlog.
  - rw /register /= Hr queue_retired_none. destruct result as [receipt|e].
    + destruct (displace_stream_names env s path) as (Hn&E1).
      split; [by rw last_reply E1|done].
    + split; [by rw last_reply|done].
  - case_bool_decide; [split; [by rw last_reply|done]|]. rw /unregister Hr queue_retired_none.
    split; [by rw last_reply|done].
  - rw /rename Hr queue_retired_none. split; [by rw last_reply|done].
Qed.

(** C8. The first settled answer to a mutation, a receipt or a rejection, is the answer
    to every repetition of it, by this authority and by every later one, and a
    repetition changes no name, revision or log entry. There is one exception: while a
    stream is open or opening at its path, an [Unregister] is answered [WrongEntryType],
    also one that was done before; that too changes nothing, and it is no settled
    answer. *)
Theorem mutation_done_once w d env faults msg id request result events d' env' faults' msg' :
  reachable w → running w = Some d → mutation msg = Some (id, request) →
  let sent1 := (world_step w (Deliver env faults msg)).2 in
  last sent1 = answer_to msg (directory_epoch d) result → settled result →
  let w' := world_run (world_step w (Deliver env faults msg)).1 events in
  running w' = Some d' → mutation msg' = Some (id, request) →
  let (w'', sent2) := world_step w' (Deliver env' faults' msg') in
  last sent2 = answer_to msg' (directory_epoch d') (if blocked d' msg' then inr (blocked_error msg') else result)
  ∧ ∃ d'', running w'' = Some d'' ∧ same_names (snapshot d') (snapshot d'').
Proof.
  intros Hw Hr Hm sent1 Hsent Hs w' Hr' Hm'.
  pose proof (reachable_inv _ Hw) as HI. subst sent1.
  assert (Hk : kept (logs id request result) (λ d, logs id request result (snapshot d)) w').
  { apply (world_run_kept (λ _, True) (λ _, True)); [apply logs_keeper|apply delivers_all|by apply world_step_inv|].
    rw /world_step Hr in Hsent |- *. cbn in Hsent |- *. rw /WInv Hr in HI. destruct HI as [HG Hd].
    destruct (handle_logs env (mkSt d (stored w) faults []) msg id request Hm) as (r&Hlast&Hlog).
    assert (r = result) as ->
      by (eapply (answer_inj msg); [exact Hm|]; etrans; [symmetry; exact Hlast|exact Hsent]).
    specialize (Hlog Hs). split; [|exact Hlog].
    pose proof (handle_inv env (mkSt d (stored w) faults []) msg (inv_any _ _ _ _ HG Hd)) as [_ Hd'].
    eapply recoverable_impl; [|exact Hd']. intros x [_ Hx]. destruct Hlog as (o&Ho&?). exists o.
    split; [|done]. eapply lookup_weaken; [exact Ho|]. apply Hx. }
  destruct Hk as [_ Hk]. rw Hr' in Hk. rw /world_step Hr'.
  apply replay_logs in Hk as [Hk _].
  destruct (handle_replays env' (mkSt d' (stored w') faults' []) msg' id request result Hm' Hk) as [H1 H2].
  split; [exact H1|]. by eexists.
Qed.

End Once.
