(* ===== verification/NamespaceSafety.v ===== *)
(** * What the namespace guarantees

    The properties of the directory that hold for all histories: what lookups answer, the names,
    reservations, cancelled opens, generations of a stream, fences and retired
    sources.  Each is a property of the moves, carried over histories by [keeper]. *)

From S2P Require Import Prelude LogicalPath NamespaceStore NamespaceDirectory NamespaceMoves NamespaceInv.
From S2P Require Import NamespaceRefine NamespaceWorld.
#[local] Open Scope N_scope.

Section Safety.
Context {F : NamespaceFormat}.

(** ** Answers *)

(** What the answers are of: one entry per path. *)
Definition spec_lookup (d : DataDirectoryActor) (p : DataPath) : NamespaceNode + NamespaceError :=
  match blob_reservations d !! p, view (snapshot d) !! p with
  | Some _, _ => inr (PathExists p)
  | None, Some (EBlob _ revision _) => inl (mkNamespaceNode Blob revision false)
  | None, Some (EStream revision) =>
      inl (mkNamespaceNode Stream revision (bool_decide (is_Some (streams d !! p))))
  | None, None => inr (PathNotFound p)
  end.

Definition spec_resolve (d : DataDirectoryActor) (p : DataPath) : BlobBinding + NamespaceError :=
  match view (snapshot d) !! p, sources d !! p with
  | Some (EBlob length revision _), Some (Available actor node owner) =>
      inl (mkBlobBinding actor node owner length revision)
  | Some (EBlob _ _ _), Some (Unavailable reason) => inr (SourceRecoveryFailed reason)
  | Some (EStream _), _ => inr (WrongEntryType p Blob Stream)
  | _, _ => inr (PathNotFound p)
  end.

(** A path is a blob with a source, a stream, or nothing, and lookups and resolutions
    answer by it; two paths never have one revision, and a reserved path has no entry. *)
Theorem namespace_answers w d p :
  reachable w → running w = Some d →
  lookup_node d p = spec_lookup d p
  ∧ resolve d p = spec_resolve d p
  ∧ (is_Some (blob_reservations d !! p) → view (snapshot d) !! p = None)
  ∧ ∀ q e f, view (snapshot d) !! p = Some e → view (snapshot d) !! q = Some f →
      entry_revision e = entry_revision f → p = q.
Proof.
  intros Hw Hr. pose proof (reachable_running _ _ Hw Hr) as [_ Hwf HV].
  pose proof (wf_apart _ Hwf p) as Hap. pose proof (v_sources _ HV p) as Hsrc.
  split_and!.
  - rw /lookup_node /spec_lookup view_lookup.
    destruct (blob_reservations d !! p); [done|]. rw bool_decide_false; [by intros []|].
    destruct (bindings (snapshot d) !! p), (stream_nodes (snapshot d) !! p); try done.
    by destruct (Hap _ _ eq_refl eq_refl).
  - rw /resolve /spec_resolve view_lookup.
    destruct (bindings (snapshot d) !! p), (stream_nodes (snapshot d) !! p); cbn;
      try (by destruct (Hap _ _ eq_refl eq_refl)); try done.
    destruct (sources d !! p) as [[]|]; [done..|]. destruct Hsrc as [_ Hsrc].
    by destruct (Hsrc ltac:(eauto)).
  - intros Hres%(v_reserved _ HV). rw is_bound_view in Hres. apply bool_decide_eq_false in Hres.
    by apply eq_None_not_Some.
  - intros q e f. apply Hwf.
Qed.

(** ** The names *)

(** The namespace as its clients see it: the entries, the next revision and the operations that took
    effect or were refused. *)
Record Names := mkNames {
  entries_of : gmap DataPath Entry;
  next_of : N;
  done_of : gset OperationId;
}.

Definition names (x : NamespaceSnapshot) : Names := mkNames (view x) (next_revision x) (dom (operations x)).

Lemma running_steps w d env faults msg :
  reachable w → running w = Some d →
  ∃ s, rtc (step msg) (mkSt d (stored w) faults []) s ∧ Inv (mkSt d (stored w) faults [])
       ∧ s = handle env (mkSt d (stored w) faults []) msg
       ∧ world_step w (Deliver env faults msg) = (mkWorld (disk s) (Some (dir s)), sent s).
Proof.
  intros Hw Hr. pose proof (reachable_inv _ Hw) as HI. rw /WInv Hr in HI. destruct HI as [HG Hd].
  eexists. split_and!; [|by apply inv_any|done|by rw /world_step Hr].
  apply handle_steps. by apply inv_any.
Qed.

(** ** Reservations *)

Definition ends_reservation (p : DataPath) (id : OperationId) (msg : DataDirectoryIn) : Prop :=
  match msg with
  | ReleaseBlobReservation _ path operation_id _ => path = p ∧ operation_id = id
  | Register _ path _ _ _ _ _ reservation _ => path = p ∧ reservation = Some id
  | _ => False
  end.

Lemma move_reservation msg d d' p id :
  move msg d d' → blob_reservations d !! p = Some id →
  ends_reservation p id msg ∨ blob_reservations d' !! p = Some id.
Proof.
  intros Hm Hp. destruct Hm; cbn; try (by right).
  - case_bool_decide as Hres; [|by right]. rw lookup_delete. case_decide; [subst|by right].
    revert H1. rw /reservation_refuses Hp. case_bool_decide as E; [|done]. left. subst. done.
  - right. rw lookup_insert. case_decide; [congruence|done].
  - rw lookup_delete. case_decide; [subst|by right]. left. cbn. split; congruence.
Qed.

(** While a path is reserved nothing else is published there: only the holder's registration and the
    holder's release end the reservation. *)
Theorem reservation_is_exclusive w d env faults msg p id :
  reachable w → running w = Some d → blob_reservations d !! p = Some id → ¬ ends_reservation p id msg →
  ∃ d', running (world_step w (Deliver env faults msg)).1 = Some d'
        ∧ blob_reservations d' !! p = Some id ∧ view (snapshot d') !! p = None.
Proof.
  intros Hw Hr Hp Hmsg. destruct (running_steps w d env faults msg Hw Hr) as (s&Hs&HI&_&E). rw E.
  exists (dir s). split; [done|].
  assert (blob_reservations (dir s) !! p = Some id) as Hp'.
  { clear E HI. change d with (dir (mkSt d (stored w) faults [])) in Hp.
    induction Hs as [|s0 s1 s2 H1 _ IH]; [done|]. apply IH.
    destruct H1 as [|d1 Hm _ _| |d1 ? ? ? Hm _ _ _]; try done;
      by destruct (move_reservation _ _ _ _ _ Hm Hp). }
  split; [done|]. pose proof (steps_inv _ _ _ HI Hs) as [[_ _ HV] _].
  pose proof (v_reserved _ HV p ltac:(eauto)) as Hb. rw is_bound_view in Hb.
  apply bool_decide_eq_false in Hb. by apply eq_None_not_Some.
Qed.

(** ** Cancelled opens *)

Lemma out_of_stream_keeper p id :
  keeper (λ _, True) (λ _, True) (λ x, is_Some (operations x !! id))
    (λ d, is_Some (operations (snapshot d) !! id) ∧ has_operation (streams d !! p) id = false).
Proof.
  split; [|done|done|done]. intros msg d d' _ HG [Hid Hout] Hm.
  assert (Hid' : is_Some (operations (snapshot d') !! id)).
  { destruct Hid as [o Ho]. exists o. eapply lookup_weaken; [exact Ho|]. apply (move_ext _ _ _ Hm). }
  split; [|done]. split; [done|]. destruct (streams d' !! p) as [st|] eqn:Hst; [|done].
  apply not_true_iff_false. intros Hop.
  destruct (move_streams_from _ _ _ HG Hm _ _ Hst) as [Hfrom _].
  by rw (Hfrom id Hop Hid) in Hout.
Qed.

Lemma cancel_stream_spec s p id r s' :
  cancel_stream s p id = (r, s') → r = inl tt →
  has_operation (streams (dir s) !! p) id = false
  ∨ (∃ pending, streams (dir s) !! p = Some (Pending pending)) →
  is_Some (operations (snapshot (dir s')) !! id) ∧ has_operation (streams (dir s') !! p) id = false.
Proof.
  intros H -> Hst. rw /cancel_stream in H.
  set (q := if bool_decide (is_Some (operations (snapshot (dir s)) !! id)) then _ else _) in H.
  assert (Hq : ∃ s1, (q = (inl tt, s1) ∧ is_Some (operations (snapshot (dir s1)) !! id) ∧ streams (dir s1) = streams (dir s))
    ∨ (∃ e, q = (inr e, s1))).
  { subst q. case_bool_decide as Hid; [by exists s; left|].
    destruct (store_commit _ _) as [r1 s1] eqn:E. exists s1.
    apply store_commit_spec in E as (disk'&rest&_&[(e&->&->)|(->&->&_)]); [right; by eexists|left].
    split_and!; [done| |done]. cbn. rw lookup_insert_eq. by eexists. }
  destruct Hq as (s1&[(->&Hid&Hs1)|(e&->)]); [|done]. rw Hs1 in H.
  destruct (streams (dir s) !! p) as [[pending|a]|] eqn:Hp; cbn in Hst.
  - destruct (bool_decide (p_operation_id pending = id)) eqn:Hb; injection H as <-; cbn; split; try done.
    + by rw Hs1 lookup_delete_eq.
    + by rw Hs1 Hp.
  - destruct Hst as [Hst|[? ?]]; [|done]. injection H as <-. cbn. rw Hs1 Hp. done.
  - injection H as <-. cbn. rw Hs1 Hp. done.
Qed.

(** An open that was cancelled, with an acknowledgement, before its stream was complete
    takes part in no stream of its path, however late and however often its frames
    arrive. *)
Theorem cancelled_open_never_joins w d env faults request_id p id reply_to events d' :
  reachable w → running w = Some d →
  (∀ a, streams d !! p = Some (Active a) → a_source_operation a ≠ id ∧ a_sink_operation a ≠ id) →
  let out := world_step w (Deliver env faults (CancelStream request_id p id (Some reply_to))) in
  last out.2 = Some (reply_to, DirectoryReply
    (mkOut request_id (directory_epoch d) (StreamCancelled (inl tt)))) →
  running (world_run out.1 events) = Some d' →
  has_operation (streams d' !! p) id = false.
Proof.
  intros Hw Hr Hnot out Hlast Hr'.
  destruct (running_steps w d env faults (CancelStream request_id p id (Some reply_to)) Hw Hr)
    as (s&Hs&HI&Hhandle&E). subst out. rw E in Hlast, Hr'. cbn [fst snd] in *.
  pose proof (steps_inv _ _ _ HI Hs) as HI'. cbn [handle] in Hhandle.
  destruct (cancel_stream _ _ _) as [r s1] eqn:Ec.
  assert (r = inl tt) as Hok by (rw Hhandle last_snoc in Hlast; by injection Hlast).
  apply cancel_stream_spec in Ec as [Hid Hout]; [|done|].
  - assert (Hk : kept (λ x, is_Some (operations x !! id))
      (λ d, is_Some (operations (snapshot d) !! id) ∧ has_operation (streams d !! p) id = false)
      (world_run (mkWorld (disk s) (Some (dir s))) events)).
    { apply (world_run_kept (λ _, True) (λ _, True)); [apply out_of_stream_keeper|apply delivers_all|
        by apply inv_world|].
      subst s. split; [|by split]. eapply recoverable_impl; [|exact (inv_disk _ HI')].
      intros x [_ Hx]. destruct Hid as [o Ho]. exists o. eapply lookup_weaken; [exact Ho|]. apply Hx. }
    destruct Hk as [_ Hk]. rw Hr' in Hk. by destruct Hk.
  - cbn. destruct (streams d !! p) as [[pending|a]|] eqn:Hp; [right; eauto| |by left].
    left. cbn. destruct (Hnot a eq_refl). by rw !bool_decide_false.
Qed.

(** ** Generations *)

(** Once given out: nothing newer can have this incarnation. *)
Definition past (i : StreamIncarnation) (d : DataDirectoryActor) : Prop :=
  i_epoch i < directory_epoch d
  ∨ (i_epoch i = directory_epoch d ∧ i_revision i < next_revision (snapshot d)).

Definition absent (i : StreamIncarnation) (d : DataDirectoryActor) : Prop :=
  ∀ q st, streams d !! q = Some st → mkIncarnation (directory_epoch d) (stream_revision st) ≠ i.

Lemma move_past msg d d' i : move msg d d' → past i d → past i d'.
Proof.
  intros Hm. pose proof (move_ext _ _ _ Hm) as [_ Hn _]. rw /past (move_epoch _ _ _ Hm). intros [?|[? ?]]; [by left|].
  right. split; [done|lia].
Qed.

Lemma past_snapshot i d : Good d → past i d → i_epoch i <= authority_epoch (snapshot d).
Proof. intros [_ _ HV] Hp. rw (v_epoch _ HV). destruct Hp as [?|[? ?]]; lia. Qed.

Lemma past_keeper i :
  keeper (λ _, True) (λ _, True) (λ x, i_epoch i <= authority_epoch x) (past i).
Proof.
  split; try done.
  - intros msg d d' _ HG Hp Hm. split; [by eapply move_past|].
    rw (ext_epoch _ _ (move_ext _ _ _ Hm)). by apply past_snapshot.
  - cbn. lia.
  - intros env retry rec x _ _ Hx. left. cbn. lia.
Qed.

Lemma absent_keeper i :
  keeper (λ _, True) (λ _, True) (λ x, i_epoch i <= authority_epoch x) (λ d, past i d ∧ absent i d).
Proof.
  split; try done.
  - intros msg d d' _ HG [Hp Ha] Hm. split; [split; [by eapply move_past|]|].
    + intros q st Hst. rw (move_epoch _ _ _ Hm).
      destruct (move_streams_from _ _ _ HG Hm _ _ Hst) as [_ [(st'&Hst'&<-)|[-> _]]]; [by eapply Ha|].
      intros <-. destruct Hp as [?|[? ?]]; cbn in *; lia.
    + rw (ext_epoch _ _ (move_ext _ _ _ Hm)). by apply past_snapshot.
  - cbn. lia.
  - intros env retry rec x _ _ Hx. split; [left; cbn; lia|]. intros q st H. cbn in H. by rw lookup_empty in H.
Qed.

Lemma active_past w d p a :
  reachable w → running w = Some d → streams d !! p = Some (Active a) →
  kept (λ x, i_epoch (m_incarnation (a_binding a)) <= authority_epoch x) (past (m_incarnation (a_binding a))) w.
Proof.
  intros Hw Hr Hp. pose proof (reachable_inv _ Hw) as HI. rw /WInv Hr in HI. destruct HI as [HG Hd].
  pose proof HG as [_ _ HV]. rw (st_incarnation _ _ _ (v_streams _ HV _ _ Hp) _ eq_refl).
  split; rw ?Hr.
  - eapply recoverable_impl; [|exact Hd]. intros x [_ Hx]. cbn. rw -(v_epoch _ HV) (ext_epoch _ _ Hx). lia.
  - right. split; [done|]. cbn. by apply (stream_revision_range _ _ _ HG Hp).
Qed.

Lemma close_absent s p i r s' :
  Good (dir s) → absent i (dir s) → close_stream s p i = (r, s') → streams (dir s') = streams (dir s).
Proof.
  intros [_ _ HV] Ha. rw /close_stream.
  destruct (streams (dir s) !! p) as [[pending|a]|] eqn:Hp; try (case_match; by intros [= _ <-]).
  rw bool_decide_false; [|case_match; by intros [= _ <-]].
  intros E. apply (Ha _ _ Hp). by rw -(st_incarnation _ _ _ (v_streams _ HV _ _ Hp) _ eq_refl).
Qed.

(** A generation of a stream that has ended never comes back, under this authority or a
    later one, so that a late close of it ends nothing. *)
Theorem generation_never_returns w d p a events events' d' :
  reachable w → running w = Some d → streams d !! p = Some (Active a) →
  let i := m_incarnation (a_binding a) in
  let w1 := world_run w events in
  (∀ d1, running w1 = Some d1 → absent i d1) →
  let w2 := world_run w1 events' in
  running w2 = Some d' →
  absent i d'
  ∧ ∀ env faults request_id q reply_to, ∃ d'',
      running (world_step w2 (Deliver env faults (CloseStream request_id q i reply_to))).1 = Some d''
      ∧ streams d'' = streams d'.
Proof.
  intros Hw Hr Hp i w1 Habs w2 Hr'.
  assert (H1 : kept (λ x, i_epoch i <= authority_epoch x) (past i) w1).
  { apply (world_run_kept (λ _, True) (λ _, True)); [apply past_keeper|apply delivers_all|
      by apply reachable_inv|by eapply active_past]. }
  assert (Hw1 : reachable w1) by by apply reachable_run.
  assert (H2 : kept (λ x, i_epoch i <= authority_epoch x) (λ d, past i d ∧ absent i d) w2).
  { apply (world_run_kept (λ _, True) (λ _, True)); [apply absent_keeper|apply delivers_all|
      by apply reachable_inv|].
    destruct H1 as [H1 H1']. split; [done|]. destruct (running w1) as [d1|]; [|done].
    split; [done|by apply Habs]. }
  destruct H2 as [_ H2]. rw Hr' in H2. destruct H2 as [_ Ha]. split; [done|].
  intros env faults request_id q reply_to.
  assert (Hw2 : reachable w2) by by apply reachable_run.
  destruct (running_steps w2 d' env faults (CloseStream request_id q i reply_to) Hw2 Hr')
    as (s&_&HI&Hs&E). rw E. exists (dir s). split; [done|]. cbn [handle] in Hs.
  destruct (close_stream _ _ _) as [r s1] eqn:Ec. subst s.
  by apply close_absent in Ec; [|apply HI|].
Qed.

(** ** Fences *)

(** The replacement of generation [i] at [p] waits for [e]. *)
Definition waits_for (p : DataPath) (i : StreamIncarnation) (e : ActorAddress) (d : DataDirectoryActor) : Prop :=
  ∃ f, stream_replacement_fences d !! p = Some f ∧ f_incarnation f = i ∧ e ∈ f_endpoints f
       ∧ pending_stream_displacements d !! e = Some (mkDisplacement i false).

Definition displaced_from_another (e : ActorAddress) (i : StreamIncarnation)
    (l : list (ActorAddress * Message)) : Prop :=
  ∃ j reply_to, j ≠ i ∧ (e, Displaced j reply_to) ∈ l.

Lemma move_waits msg d d' p i e :
  Good d → move msg d d' → msg ≠ StreamDisplaced e i → waits_for p i e d →
  waits_for p i e d'
  ∨ ∃ j, j ≠ i ∧ pending_stream_displacements d' !! e = Some (mkDisplacement j false).
Proof.
  intros HG Hm Hmsg (f&Hf&Hi&He&Hd).
  assert (Hsame : ∀ d0, stream_replacement_fences d0 !! p = Some f →
    pending_stream_displacements d0 !! e = Some (mkDisplacement i false) → waits_for p i e d0).
  { intros d0 H1 H2. by exists f. }
  destruct Hm; try (by left; apply Hsame).
  - destruct (decide (endpoint = e)) as [->|Hne].
    + right. exists incarnation. split; [rw -Hi; symmetry; by eapply H0|]. cbn. by rw lookup_insert_eq.
    + left. apply Hsame; [done|]. cbn. by rw lookup_insert_ne.
  - assert (Hinc : incarnation ≠ i).
    { rw -Hi /incarnation (st_incarnation _ _ _ (v_streams _ (g_vol _ HG) _ _ H) _ eq_refl). symmetry.
      by apply (v_dead _ (g_vol _ HG) _ _ _ _ Hf H). }
    cbn. rw displaced_lookup. case_decide as Hin; [right; by eexists|].
    left. apply Hsame; cbn; [|by rw displaced_lookup decide_False].
    rw lookup_insert_ne; [|done]. intros E. change (path = p) in E. subst p. congruence.
  - left. destruct (decide (path = p)) as [->|Hne].
    + assert (fence = f) as -> by congruence. exists (with_requests l f). split; [|done]. cbn. by rw lookup_insert_eq.
    + apply Hsame; [|done]. cbn. by rw lookup_insert_ne.
  - left. apply Hsame; [|done]. cbn. rw lookup_delete_ne; [|done]. intros ->.
    assert (fence = f) as -> by congruence. rw fence_ready_spec in H0.
    by destruct (H0 e He false); rw Hi.
  - left. apply Hsame; [done|]. cbn. rw lookup_insert_ne; [|done]. intros ->.
    rw Hd in H0. injection H0 as <-. done.
  - left. apply Hsame; [done|]. cbn. rw lookup_delete_ne; [|done]. intros ->.
    rw Hd in H. by injection H as <-.
Qed.

(** The stream [a] is open at [p], or its replacement waits for [e]. *)
Definition guarded (p : DataPath) (a : ActiveStream) (e : ActorAddress) (d : DataDirectoryActor) : Prop :=
  streams d !! p = Some (Active a) ∨ waits_for p (m_incarnation (a_binding a)) e d.

Lemma move_active msg d d' p a e :
  move msg d d' → ¬ ends_stream p (m_incarnation (a_binding a)) msg →
  e = m_source (a_binding a) ∨ e = m_sink (a_binding a) →
  streams d !! p = Some (Active a) → guarded p a e d'.
Proof.
  intros Hm Hmsg He Hp. destruct Hm; try (by left); cbn.
  - left. cbn. rw lookup_delete_ne; [|done]. intros ->. subst msg. by apply Hmsg.
  - left. cbn. rw lookup_insert_ne; [|done]. intros <-. congruence.
  - left. cbn. rw lookup_insert_ne; [|done]. intros <-. congruence.
  - left. cbn. rw lookup_insert_ne; [|done]. intros ->. congruence.
  - left. cbn. rw lookup_delete_ne; [|done]. intros ->. by apply Hmsg, H.
  - destruct (decide (path = p)) as [Ep|Hne]; [right|left; cbn; by rw lookup_delete_ne].
    assert (active = a) as -> by congruence. eexists. cbn. fold path. rw Ep lookup_insert_eq.
    split_and!; [done|done|set_solver|]. rw displaced_lookup decide_True //.
    rw H1 elem_of_elements. set_solver.
Qed.

Lemma steps_guarded msg s s' p a e :
  let i := m_incarnation (a_binding a) in
  Inv s → rtc (step msg) s s' → msg ≠ StreamDisplaced e i → ¬ ends_stream p i msg →
  e = m_source (a_binding a) ∨ e = m_sink (a_binding a) →
  guarded p a e (dir s) → guarded p a e (dir s') ∨ displaced_from_another e i (sent s').
Proof.
  intros i HI Hs Hmsg Hends He Hw.
  assert (Hgen : ∀ s s', Inv s → rtc (step msg) s s' →
    guarded p a e (dir s) ∨ displaced_from_another e i (sent s) →
    guarded p a e (dir s') ∨ displaced_from_another e i (sent s')); [|by eapply Hgen; eauto].
  clear s s' HI Hs Hw. intros s s' HI Hs. revert HI.
  induction Hs as [|s s1 s' H1 _ IH]; intros HI; [done|]. intros HT.
  apply IH; [by eapply step_inv|clear IH]. destruct HT as [[Hp|Hw]|(j&r&Hj&Hin)].
  - left. destruct H1 as [|d Hm _ _| |d ? ? ? Hm _ _ _]; try (by left); by eapply move_active.
  - destruct H1 as [|d Hm _ Ha| |d ? ? l Hm _ _ Ha]; try (by left; right); cbn;
      (destruct (move_waits _ _ _ _ _ _ (inv_good _ HI) Hm Hmsg Hw) as [?|(j&Hj&Hd)]; [by left; right|right]);
      (destruct (Ha _ _ Hd) as [Hold|[r Hr]]; [destruct Hw as (f&_&_&_&Hw); subst i; congruence|]);
      exists j, r; (split; [done|]); set_solver.
  - right. exists j, r. split; [done|]. destruct H1; cbn; set_solver.
Qed.

(** Every message that a history sends. *)
Fixpoint sends (w : World) (events : list Event) : list (ActorAddress * Message) :=
  match events with
  | [] => []
  | event :: events => (world_step w event).2 ++ sends (world_step w event).1 events
  end.

(** The messages that let the stream [a] of [p] go, as far as [e] is concerned. *)
Definition lets_go (p : DataPath) (i : StreamIncarnation) (e : ActorAddress) (msg : DataDirectoryIn) : Prop :=
  msg = StreamDisplaced e i ∨ ends_stream p i msg.

#[export] Instance lets_go_dec p i e msg : Decision (lets_go p i e msg).
Proof.
  destruct msg as [| | | | | | | | | | |e' i'| |]; cbn;
    try (right; intros [?|?]; done); try (right; intros [?|[]]; done).
  - destruct (decide (path = p)); [left; by right|right; by intros [?|?]].
  - destruct (decide (path = p ∧ incarnation = i)); [left; by right|right; by intros [?|?]].
  - destruct (decide (e' = e ∧ i' = i)) as [[-> ->]|Hn]; [left; by left|right].
    intros [[= -> ->]|?]; [by apply Hn|done].
Defined.

Definition is_delivery (event : Event) : Prop := match event with Deliver _ _ _ => True | _ => False end.


(** ** Retired sources *)

Section Sources.
Context (a : ActorAddress).

Definition of_actor (recovery : SourceRecovery) : Prop := ∃ node owner, recovery = FromActor a node owner.

Definition serves (d : DataDirectoryActor) (p : DataPath) : Prop :=
  ∃ node owner, sources d !! p = Some (Available a node owner).
Definition recorded (x : NamespaceSnapshot) (p : DataPath) : Prop :=
  ∃ b, bindings x !! p = Some b ∧ of_actor (b_recovery b).

(** The log has a receipt for a registration of the actor. *)
Definition registered (x : NamespaceSnapshot) : Prop :=
  ∃ id p length recovery r,
    operations x !! id = Some (mkOperation (MRegister p length recovery) (Committed r)) ∧ of_actor recovery.

(** A registered source is bound or on the list of those to be told. *)
Definition accounted (x : NamespaceSnapshot) : Prop :=
  registered x → (∃ p, recorded x p) ∨ a ∈ retirements x.

Definition sources_ok (d : DataDirectoryActor) : Prop := ∀ p, serves d p ↔ recorded (snapshot d) p.

(** The actor registers itself, with a recovery that names it, and has not said that it retired. *)
Definition honest (msg : DataDirectoryIn) : Prop :=
  match msg with
  | Register _ _ source _ _ recovery _ _ _ => source = a ↔ of_actor recovery
  | SourceRetired source => source ≠ a
  | _ => True
  end.

(** A restart finds the actor again, and takes no other source for it. *)
Definition honest_recoverer (rec : Recoverer) : Prop :=
  ∀ p recovery length, (∃ node, rec p recovery length = inl (a, node)) ↔ of_actor recovery.

Lemma serves_actor d p : serves d p → available_actor (sources d !! p) = Some a.
Proof. by intros (n&o&->). Qed.

(** The entries of a snapshot after a mutation that retires the source of one path. *)
Lemma accounted_after x y retired (lost : DataPath → Prop) :
  (registered y → registered x ∨ ∃ p, recorded y p) →
  (∀ p, recorded x p → (∃ q, recorded y q) ∨ lost p) →
  (∀ p, recorded x p → lost p → retired = Some a) →
  retirements y = retirements (push_retired retired x) →
  accounted x → accounted y.
Proof.
  intros Hreg Hrec Hlost Hret Hx Hy. destruct (Hreg Hy) as [Hy'|?]; [|by left].
  destruct (Hx Hy') as [[p Hp]|Hin].
  - destruct (Hrec p Hp) as [?|Hl]; [by left|]. right. rw Hret push_retired_in. left. by eapply Hlost.
  - right. rw Hret push_retired_in. by right.
Qed.

Lemma registered_log x y id request result :
  operations y = <[id := mkOperation request result]> (operations x) →
  (∀ p length recovery, request ≠ MRegister p length recovery) ∨ (∀ r, result ≠ Committed r) →
  registered y → registered x.
Proof.
  intros Hy Hn (id'&p&l&rec&r&Ho&Ha). rw Hy lookup_insert in Ho. case_decide; [|by exists id', p, l, rec, r].
  injection Ho as -> ->. destruct Hn as [Hn|Hn]; [by destruct (Hn p l rec)|by destruct (Hn r)].
Qed.

Lemma register_accounted d path source node length recovery id :
  sources_ok d → (source = a ↔ of_actor recovery) → accounted (snapshot d) →
  let x := registered_snapshot (snapshot d) path length recovery id (replaced_source d path source) in
  accounted x
  ∧ ∀ p, (∃ n o, <[path := Available source node (recovery_owner recovery)]> (sources d) !! p
                 = Some (Available a n o)) ↔ recorded x p.
Proof.
  intros Hs Hh Hx x. split.
  - apply (accounted_after (snapshot d) x (replaced_source d path source) (λ p, p = path ∧ source ≠ a));
      [| | |done|done].
    + intros (id'&p&l&rec&r&Ho&Ha). cbn in Ho. rw lookup_insert in Ho. case_decide.
      * injection Ho as -> -> -> _. right. exists p. eexists. split; [cbn; by rw lookup_insert_eq|done].
      * left. by exists id', p, l, rec, r.
    + intros p (b&Hb&Ha). destruct (decide (p = path)) as [->|Hne].
      * destruct (decide (source = a)) as [He|]; [left|by right].
        exists path. eexists. split; [cbn; by rw lookup_insert_eq|]. by apply Hh.
      * left. exists p, b. split; [|done]. cbn. by rw lookup_insert_ne.
    + intros p Hp%Hs [-> Hne]. rw /replaced_source (serves_actor _ _ Hp). by rw bool_decide_false.
  - intros p. rw /recorded /= !lookup_insert. case_decide; [|apply Hs].
    split.
    + intros (n&o&[= -> _ _]). eexists. split; [done|]. by apply Hh.
    + intros (b&[= <-]&Ha). apply Hh in Ha as ->. eauto.
Qed.

Lemma gone_accounted d path retired x :
  sources_ok d → accounted (snapshot d) → retired = available_actor (sources d !! path) →
  (registered x → registered (snapshot d)) →
  (∀ p, bindings x !! p = delete path (bindings (snapshot d)) !! p) →
  retirements x = retirements (push_retired retired (snapshot d)) →
  accounted x ∧ ∀ p, (∃ n o, delete path (sources d) !! p = Some (Available a n o)) ↔ recorded x p.
Proof.
  intros Hs Hx -> Hreg Hb Hret. split.
  - apply (accounted_after (snapshot d) x (available_actor (sources d !! path)) (λ p, p = path)); [eauto| | |done|done].
    + intros p (b&Hp&Ha). destruct (decide (p = path)) as [->|Hne]; [by right|left].
      exists p, b. split; [|done]. by rw Hb lookup_delete_ne.
    + intros p Hp%Hs ->. by apply serves_actor.
  - intros p. rw /recorded. setoid_rewrite Hb. rw !lookup_delete.
    case_decide; [|apply Hs]. split; [by intros (?&?&?)|by intros (?&?&?)].
Qed.

Lemma rename_accounted d p q replace id :
  sources_ok d → accounted (snapshot d) →
  let x := renamed_snapshot (snapshot d) p q replace id (destination_retired d p q) in
  accounted x
  ∧ ∀ k, (∃ n o, moved_sources p q (sources d) !! k = Some (Available a n o)) ↔ recorded x k.
Proof.
  intros Hs Hx x.
  assert (Hb : ∀ k, bindings x !! k = bindings (move_node (set_next_revision (snapshot d)
    (next_revision (snapshot d) + 1)) p q (next_revision (snapshot d))) !! k) by done.
  assert (Hk : ∀ k, recorded x k ↔ if decide (k = q) then recorded (snapshot d) p
    else if decide (k = p) then False else recorded (snapshot d) k).
  { intros k. rw /recorded. setoid_rewrite Hb. rw moved_bindings_lookup. cbn. case_decide.
    - split; [intros (b&Hb'&Ha); apply fmap_Some in Hb' as (b'&?&->); by exists b'|].
      intros (b&->&Ha). cbn. eexists. split; [done|]. done.
    - case_decide; [|done]. split; [by intros (?&?&?)|done]. }
  split.
  - apply (accounted_after (snapshot d) x (destination_retired d p q) (λ k, k = q ∧ p ≠ q)); [|  | |done|done].
    + intros Hr. left. eapply (registered_log (snapshot d) x); [reflexivity|by left|exact Hr].
    + intros k Hk'. destruct (decide (k = p)) as [->|Hne].
      * left. exists q. rw Hk. by rw decide_True.
      * destruct (decide (k = q)) as [->|]; [right; split; congruence|].
        left. exists k. rw Hk. by rw !decide_False.
    + intros k Hk'%Hs [-> Hne]. rw /destination_retired bool_decide_false //. by apply serves_actor.
  - intros k. rw Hk moved_sources_lookup. case_decide; [apply Hs|]. case_decide; [|apply Hs].
    split; [by intros (?&?&?)|done].
Qed.

(** The directory that starts from a snapshot has its sources. *)
Lemma restarted_sources env retry rec x :
  honest_recoverer rec → sources_ok (restarted env retry rec x).
Proof.
  intros Hrec p. rw /serves /recorded /= /recover_sources map_lookup_imap.
  destruct (bindings x !! p) as [b|]; cbn; [|by split; [intros (?&?&?)|intros (?&?&?)]].
  specialize (Hrec p (b_recovery b) (b_length b)). split.
  - intros (n&o&Hs). exists b. split; [done|]. apply Hrec.
    destruct (rec p _ _) as [[actor node]|]; [|done]. injection Hs as -> _ _. eauto.
  - intros (b'&[= <-]&Ha%Hrec). destruct Ha as [node ->]. eauto.
Qed.

Lemma sources_keeper :
  keeper honest honest_recoverer accounted (λ d, accounted (snapshot d) ∧ sources_ok d).
Proof.
  split; [|done| |done].
  2: { intros env retry rec x Hrec _ Hx. split; [exact Hx|by apply restarted_sources]. }
  intros msg d d' Hmsg HG [Hx Hs] Hm. apply and_assoc; cbn.
  assert (Hboth : accounted (snapshot d') ∧ sources_ok d'); [|by destruct Hboth].
  destruct Hm; try exact (conj Hx Hs).
  - split; [|exact Hs]. intros Hr. apply Hx. eapply registered_log; cycle 2; [exact Hr|reflexivity|by right].
  - subst msg. by apply register_accounted.
  - apply (gone_accounted d path retired); try done. intros Hr.
    eapply registered_log; cycle 2; [exact Hr|reflexivity|by left].
  - by apply rename_accounted.
  - apply (gone_accounted d path retired); try done. intros Hr.
    eapply registered_log; cycle 2; [exact Hr|reflexivity|by left].
  - split; [|exact Hs]. intros Hr. apply Hx. eapply registered_log; cycle 2; [exact Hr|reflexivity|by left].
  - split; [|exact Hs]. intros Hr. destruct (Hx Hr) as [?|Hin]; [by left|right].
    cbn. apply list_elem_of_filter. split; [|done]. subst msg. intros ->. by apply Hmsg.
Qed.

(** *** Under one authority *)

(** The actor is the source of a path, or is being told to retire until it says that it did. *)
Definition known_source (d : DataDirectoryActor) : Prop :=
  (∃ p, serves d p) ∨ (a ∈ pending_retirements d ∧ a ∈ retirement_retry_queue d).

Lemma known_sourceI d : Good d → (∃ p, serves d p) ∨ a ∈ pending_retirements d → known_source d.
Proof. intros [_ _ HV] [?|Hin]; [by left|right]. split; [done|]. by apply (v_queue _ HV). Qed.

Lemma enlist_pending retired d : a ∈ pending_retirements d ∨ retired = Some a → a ∈ pending_retirements (enlist retired d).
Proof. rw /enlist /=. intros [?| ->]; set_solver. Qed.

(** A mutation that leaves the sources [m] of [d], but for those of the paths [lost]. *)
Lemma known_after d d' retired m (lost : DataPath → Prop) :
  (∀ p, serves d p → (∃ q n o, m !! q = Some (Available a n o)) ∨ lost p) →
  (∀ p, serves d p → lost p → retired = Some a) →
  sources d' = m → pending_retirements d' = pending_retirements (enlist retired d) →
  (∃ p, serves d p) ∨ a ∈ pending_retirements d → (∃ p, serves d' p) ∨ a ∈ pending_retirements d'.
Proof.
  intros Hm Hl Hs Hp [[p H]|Hin]; rw Hp.
  - destruct (Hm p H) as [(q&n&o&Hq)|Hlost]; [left; exists q, n, o; by rw Hs|].
    right. apply enlist_pending. right. by eapply Hl.
  - right. apply enlist_pending. by left.
Qed.

Lemma move_known msg d d' :
  move msg d d' → msg ≠ SourceRetired a →
  (∃ p, serves d p) ∨ a ∈ pending_retirements d → (∃ p, serves d' p) ∨ a ∈ pending_retirements d'.
Proof.
  intros Hm Hmsg. destruct Hm; try exact (λ H, H).
  - eapply (known_after d _ retired _ (λ p, p = path ∧ source ≠ a)); [| |done|done].
    + intros p (n&o&Hp). destruct (decide (p = path)) as [->|Hne].
      * destruct (decide (source = a)) as [->|]; [left; exists path; eexists _, _; by rw lookup_insert_eq|by right].
      * left. exists p, n, o. by rw lookup_insert_ne.
    + intros p Hp [-> Hne]. rw /retired /replaced_source (serves_actor _ _ Hp). by rw bool_decide_false.
  - eapply (known_after d _ retired _ (λ p, p = path)); [| |done|done].
    + intros p (n&o&Hp). destruct (decide (p = path)) as [->|Hne]; [by right|].
      left. exists p, n, o. by rw lookup_delete_ne.
    + intros p Hp ->. by apply serves_actor.
  - eapply (known_after d _ retired _ (λ p, p = destination ∧ source ≠ destination)); [| |done|done].
    + intros p (n&o&Hp). destruct (decide (p = source)) as [->|Hne].
      * left. exists destination, n, o. by rw moved_sources_lookup decide_True.
      * destruct (decide (p = destination)) as [->|]; [right; split; congruence|].
        left. exists p, n, o. by rw moved_sources_lookup !decide_False.
    + intros p Hp [-> Hne]. rw /retired /destination_retired bool_decide_false //. by apply serves_actor.
  - eapply (known_after d _ retired _ (λ p, p = path)); [| |done|done].
    + intros p (n&o&Hp). destruct (decide (p = path)) as [->|Hne]; [by right|].
      left. exists p, n, o. by rw lookup_delete_ne.
    + intros p Hp ->. by apply serves_actor.
  - intros [?|Hin]; [by left|right]. cbn. set_solver.
Qed.

(** The events of one authority, up to the actor's word that it retired. *)
Definition unretired (event : Event) : Prop :=
  match event with Deliver _ _ msg => msg ≠ SourceRetired a | _ => False end.

Lemma deliver_known w d env faults msg :
  reachable w → running w = Some d → msg ≠ SourceRetired a → known_source d →
  ∃ d', running (world_step w (Deliver env faults msg)).1 = Some d' ∧ known_source d'.
Proof.
  intros Hw Hr Hmsg Hd. destruct (running_steps w d env faults msg Hw Hr) as (s&Hs&HI&_&E). rw E.
  exists (dir s). split; [done|]. apply known_sourceI; [by apply (steps_inv _ _ _ HI Hs)|].
  assert (Hd' : (∃ p, serves d p) ∨ a ∈ pending_retirements d) by by destruct Hd as [?|[??]]; [left|right].
  clear E HI Hd. change d with (dir (mkSt d (stored w) faults [])) in Hd'.
  induction Hs as [|s0 s1 s2 H1 _ IH]; [done|]. apply IH.
  destruct H1 as [|d1 Hm _ _| |d1 ? ? ? Hm _ _ _]; try done; by eapply move_known.
Qed.

Lemma known_run w d events d' :
  reachable w → running w = Some d → known_source d → Forall unretired events →
  running (world_run w events) = Some d' → known_source d'.
Proof.
  intros Hw Hr Hd Hev. revert w d Hw Hr Hd. induction Hev as [|event events He _ IH]; intros w d Hw Hr Hd Hr'.
  { cbn in Hr'. congruence. }
  destruct event as [|env faults msg| |]; try done.
  destruct (deliver_known w d env faults msg Hw Hr He Hd) as (d1&Hr1&Hd1).
  eapply (IH (world_step w (Deliver env faults msg)).1); [|done..].
  by apply (reachable_run w [Deliver env faults msg]).
Qed.

End Sources.

(** C19. A source is not forgotten before it says that it retired: it is the source of a
    path, or it is being told to retire, whatever is replaced, removed and renamed.
    While one authority runs this holds of every source that it serves. Over restarts
    and crashes it holds of a source that registered with a recovery that names the
    actor itself, if the restarts find that actor by it and take no other for it; it is
    not claimed of a source that is started again from a file, which a restart replaces
    by a new actor. *)
Theorem no_source_forgotten history w d a :
  w = world_run world_new history → running w = Some d →
  (known_source a d → ∀ events d',
     Forall (unretired a) events → running (world_run w events) = Some d' → known_source a d')
  ∧ (Forall (delivers (honest a) (honest_recoverer a)) history → registered a (snapshot d) → known_source a d).
Proof.
  intros -> Hr. assert (Hw : reachable (world_run world_new history)) by by exists history.
  split; [by intros Hd events d' Hev; apply (known_run a _ d)|]. intros Hev Hreg.
  assert (Hk : kept (accounted a) (λ d, accounted a (snapshot d) ∧ sources_ok a d)
    (world_run world_new history)).
  { eapply world_run_kept; [apply sources_keeper|done|by apply reachable_inv; exists []|].
    split; [|done]. apply empty_disk_recoverable. intros (id&p&l&rec&r&Ho&_). cbn in Ho. by rw lookup_empty in Ho. }
  destruct Hk as [_ Hk]. rw Hr in Hk. destruct Hk as [Hx Hs].
  pose proof (reachable_running _ _ Hw Hr) as HG. apply known_sourceI; [done|].
  destruct (Hx Hreg) as [[p Hp]|Hin]; [left; exists p; by apply Hs|right].
  by apply (v_retired _ (g_vol _ HG)) in Hin.
Qed.

End Safety.
