(* ===== verification/NamespaceEffect.v ===== *)
(** * What a mutation does

    A mutation that the log does not know is refused, fails in the store, or takes effect; [refusal] and
    [effect] say which and how, on the entries of the namespace.  Unless the disk or the revisions fail,
    the answer is one of the first and the last.  A late copy of a registration is answered from the log
    and still ends the stream at its path.  At the end, the steps of an abstract namespace that every
    handler is one of. *)

From S2P Require Import Prelude LogicalPath NamespaceStore NamespaceDirectory NamespaceMoves NamespaceInv.
From S2P Require Import NamespaceRefine NamespaceWorld NamespaceOnce NamespaceSafety.
#[local] Open Scope N_scope.

Section Effect.
Context {F : NamespaceFormat}.

(** ** The specification *)

Definition taken (d : DataDirectoryActor) (p : DataPath) : bool :=
  bool_decide (is_Some (blob_reservations d !! p)).
Definition bound (d : DataDirectoryActor) (p : DataPath) : bool :=
  bool_decide (is_Some (view (snapshot d) !! p)).
Definition streaming (d : DataDirectoryActor) (p : DataPath) : bool :=
  bool_decide (is_Some (streams d !! p)).

(** Why a mutation is refused: a blob that is being written holds its path against everyone but its
    writer, only what exists can be removed or moved, a stream in use does not move, and a move replaces
    only when asked to. *)
Definition refusal (d : DataDirectoryActor) (msg : DataDirectoryIn) : option MutationRejection :=
  match msg with
  | Register _ p _ _ _ _ _ reservation _ =>
      if bool_decide (blob_reservations d !! p = reservation) then None
      else if taken d p then Some (RPathExists p) else Some (RPathReplaced p)
  | Unregister _ p _ _ =>
      if taken d p then Some (RPathExists p)
      else if bound d p then None else Some (RPathNotFound p)
  | Rename _ p q replace _ _ =>
      if negb (bound d p) then Some (RPathNotFound p)
      else if taken d p then Some (RPathExists p)
      else if taken d q then Some (RPathExists q)
      else if streaming d p then Some (RStreamActive p)
      else if streaming d q then Some (RStreamActive q)
      else if bool_decide (p = q) || negb (bound d q) || replace then None
      else Some (RPathExists q)
  | _ => None
  end.

(** The entries after a mutation under revision [n]. *)
Definition effect (msg : DataDirectoryIn) (n : N) (V : gmap DataPath Entry) : gmap DataPath Entry :=
  match msg with
  | Register _ p _ _ length recovery _ _ _ => <[p := EBlob length n recovery]> V
  | Unregister _ p _ _ => delete p V
  | Rename _ p q _ _ _ =>
      match V !! p with Some e => <[q := with_revision n e]> (delete p V) | None => V end
  | _ => V
  end.

(** What the answer [r] to the mutation [id] says of the names [x], and those [y] left. *)
Definition explains (d : DataDirectoryActor) (msg : DataDirectoryIn) (id : OperationId)
    (r : MutationReceipt + NamespaceError) (x y : Names) : Prop :=
  match r with
  | inl receipt =>
      refusal d msg = None ∧ receipt = next_of x
      ∧ y = mkNames (effect msg receipt (entries_of x)) (receipt + 1) ({[id]} ∪ done_of x)
  | inr (Storage _) => y = x
  | inr e =>
      ∃ rejection, refusal d msg = Some rejection ∧ e = rejection_error rejection
        ∧ y = mkNames (entries_of x) (next_of x) ({[id]} ∪ done_of x)
  end.

(** The store works: no call fails, every snapshot can be written, and revisions are left. *)
Definition works (s : St) : Prop :=
  faults s = [] ∧ (∀ x, ∃ bytes, to_vec x = inl bytes) ∧ next_revision (snapshot (dir s)) < u64_max.

Definition storage (r : MutationReceipt + NamespaceError) : bool :=
  match r with inr (Storage _) => true | _ => false end.

(** ** The store *)

Lemma store_commit_works s next :
  faults s = [] → (∀ x, ∃ bytes, to_vec x = inl bytes) → validate next = inl tt →
  ∃ disk', store_commit s next = (inl tt, mkSt (set_snapshot (dir s) next) disk' [] (sent s)).
Proof.
  intros Hf Hb Hv. rw /store_commit Hf /= /commit Hv /persist /=.
  destruct (Hb next) as [bytes ->]. by eexists.
Qed.

(** The snapshot of a mutation is valid: what it adds has the revision that was next. *)
Lemma validate_mutation x y id request result :
  validate x = inl tt → schema_version y = schema_version x →
  (∀ p b, bindings y !! p = Some b → bindings x !! p = Some b ∨ b_revision b = next_revision x) →
  (∀ p r, stream_nodes y !! p = Some r → stream_nodes x !! p = Some r ∨ r = next_revision x) →
  operations y = <[id := mkOperation request result]> (operations x) →
  (next_revision y = next_revision x + 1 ∧ result = Committed (next_revision x))
  ∨ (next_revision y = next_revision x ∧ bindings y = bindings x ∧ stream_nodes y = stream_nodes x
     ∧ ∃ rejection, result = Rejected rejection) →
  validate y = inl tt.
Proof.
  rw !validate_iff. intros (Hs&Hn&Hb&Hst&Ho) Es Eb Est Eo [[En ->]|(En&Eb'&Est'&rej&->)].
  - rw Es En Eo. split_and!; [done|lia|..].
    + intros p b [Hp|Hr]%Eb; [apply Hb in Hp|]; lia.
    + intros p r [Hp|Hr]%Est; [apply Hst in Hp|]; lia.
    + intros id' q r. rw lookup_insert. case_decide; [intros [= _ <-]; lia|]. intros Hq%Ho. lia.
  - rw Es En Eb' Est' Eo. split_and!; [done..|]. intros id' q r. rw lookup_insert.
    case_decide; [done|apply Ho].
Qed.

(** *** Refusals and effects *)

Lemma rejected_explains d msg s id request rejection r s' :
  Good (dir s) → refusal d msg = Some rejection → operations (snapshot (dir s)) !! id = None →
  rejected s id request rejection = (r, s') →
  explains d msg id r (names (snapshot (dir s))) (names (snapshot (dir s')))
  ∧ (works s → storage r = false).
Proof.
  intros HG Href Hid. rw /rejected /reject.
  destruct (store_commit _ _) as [r1 s1] eqn:E. pose proof E as E'.
  apply store_commit_spec in E as (disk'&rest&_&[(err&->&->)|(->&->&_)]); intros [= <- <-].
  - split; [done|]. intros (Hf&Hb&_). destruct (store_commit_works s
      (log (snapshot (dir s)) id request (Rejected rejection)) Hf Hb) as [s' Es]; [|by rw Es in E'].
    eapply validate_mutation; [apply HG|done|by left|by left|done|right; split_and!; [done..|by eexists]].
  - split; [|by destruct rejection].
    assert (He : names (log (snapshot (dir s)) id request (Rejected rejection))
                 = mkNames (view (snapshot (dir s))) (next_revision (snapshot (dir s)))
                     ({[id]} ∪ dom (operations (snapshot (dir s))))).
    { rw /names /= dom_insert_L. done. }
    destruct rejection; cbn [rejection_error explains]; (eexists; split_and!; [exact Href|done|exact He]).
Qed.

Lemma committed_explains d msg s id request next f r s1 :
  Good (dir s) → refusal d msg = None →
  (validate (snapshot (dir s)) = inl tt → validate next = inl tt) →
  view next = effect msg (next_revision (snapshot (dir s))) (view (snapshot (dir s))) →
  next_revision next = next_revision (snapshot (dir s)) + 1 →
  operations next = <[id := mkOperation request (Committed (next_revision (snapshot (dir s))))]>
                      (operations (snapshot (dir s))) →
  (∀ s, snapshot (dir (f s)) = snapshot (dir s)) →
  store_commit s next = (r, s1) →
  let out := match r with
             | inr e => (inr (from_store e), s1)
             | inl _ => (inl (next_revision (snapshot (dir s))), f s1)
             end in
  explains d msg id out.1 (names (snapshot (dir s))) (names (snapshot (dir out.2)))
  ∧ (works s → storage out.1 = false).
Proof.
  intros HG Href Hv Hview Hn Ho Hf E. pose proof E as E'.
  apply store_commit_spec in E as (disk'&rest&_&[(err&->&->)|(->&->&_)]).
  - split; [done|]. intros (Hfs&Hb&_).
    destruct (store_commit_works s next Hfs Hb (Hv (g_valid _ HG))) as [s' Es].
    by rw Es in E'.
  - split; [|done]. cbn. split_and!; [done..|]. rw Hf /names /= Hview Hn Ho dom_insert_L. done.
Qed.

Definition explained (s : St) (msg : DataDirectoryIn) (id : OperationId)
    (out : (MutationReceipt + NamespaceError) * St) : Prop :=
  explains (dir s) msg id out.1 (names (snapshot (dir s))) (names (snapshot (dir out.2)))
  ∧ (works s → storage out.1 = false).

Lemma exhausted_explained s msg id :
  u64_max <= next_revision (snapshot (dir s)) → explained s msg id (inr (from_store RevisionExhausted), s).
Proof. intros H. split; [done|]. intros (_&_&Hlt). lia. Qed.

Lemma unregister_explained s request_id p id reply_to retired :
  Good (dir s) → operations (snapshot (dir s)) !! id = None →
  explained s (Unregister request_id p id reply_to) id (unregister s p id retired).
Proof.
  intros HG Hid. set (msg := Unregister _ _ _ _).
  rw /unregister (proj2 (replay_none _ _ _) Hid). case_bool_decide as Hres.
  { destruct (rejected _ _ _ _) as [r s'] eqn:E. eapply rejected_explains; [done| |done..].
    cbn. by rw /taken bool_decide_true. }
  rw is_bound_view. case_bool_decide as Hb; cbn [negb].
  2: { destruct (rejected _ _ _ _) as [r s'] eqn:E. eapply rejected_explains; [done| |done..].
       cbn. by rw /taken /bound !bool_decide_false. }
  rw /checked_succ. destruct (N.leb_spec u64_max (next_revision (snapshot (dir s)))); [by apply exhausted_explained|].
  destruct (store_commit _ _) as [r1 s2] eqn:E.
  eapply (committed_explains _ msg s id _ (unregistered_snapshot (snapshot (dir s)) p id retired)
    (λ s, with_dir s (set_sources (dir s) (delete p (sources (dir s)))))); try done.
  - cbn. by rw /taken /bound bool_decide_false // bool_decide_true.
  - intros Hv. eapply validate_mutation; [exact Hv|done|..|done|by left]; intros q x; cbn;
      rw lookup_delete; case_decide; [done|by left|done|by left].
  - apply view_unregistered.
Qed.

Lemma register_explained s g request_id reply_to :
  Good (dir s) → operations (snapshot (dir s)) !! r_operation_id g = None →
  explained s (Register request_id (r_path g) (r_source g) (r_source_node g) (r_length g) (r_recovery g)
                 (r_operation_id g) (r_reservation g) reply_to) (r_operation_id g) (register s g).
Proof.
  intros HG Hid. set (msg := Register _ _ _ _ _ _ _ _ _).
  rw /register (proj2 (replay_none _ _ _) Hid).
  assert (Href : reservation_refuses (dir s) (r_path g) (r_reservation g) = refusal (dir s) msg).
  { rw /reservation_refuses /= /taken. destruct (blob_reservations (dir s) !! r_path g) as [e|]; cbn.
    - by case_bool_decide.
    - destruct (r_reservation g); cbn; [by rw bool_decide_false|by rw bool_decide_true]. }
  rw Href. destruct (refusal (dir s) msg) as [rejection|] eqn:Er.
  { destruct (rejected _ _ _ _) as [r s'] eqn:E. by eapply rejected_explains. }
  rw /checked_succ. destruct (N.leb_spec u64_max (next_revision (snapshot (dir s)))); [by apply exhausted_explained|].
  destruct (store_commit _ _) as [r1 s2] eqn:E.
  eapply (committed_explains _ msg s _ _ (registered_snapshot (snapshot (dir s)) (r_path g) (r_length g)
    (r_recovery g) (r_operation_id g) (r_retired g)) (λ s2,
      let s2 := if bool_decide (is_Some (r_reservation g))
                then with_dir s2 (set_blob_reservations (dir s2) (delete (r_path g) (blob_reservations (dir s2))))
                else s2 in
      with_dir s2 (set_sources (dir s2)
        (<[r_path g := Available (r_source g) (r_source_node g) (recovery_owner (r_recovery g))]>
           (sources (dir s2)))))); try done.
  - intros Hv. eapply validate_mutation; [exact Hv|done|..|done|by left]; intros q x; cbn;
      rw ?lookup_delete ?lookup_insert; case_decide; try (by left). intros [= <-]. by right.
  - apply view_registered.
  - intros s'. by case_bool_decide.
Qed.

Lemma rename_explained s request_id p q replace id reply_to :
  Good (dir s) → operations (snapshot (dir s)) !! id = None →
  explained s (Rename request_id p q replace id reply_to) id (rename s p q replace id).
Proof.
  intros HG Hid. set (msg := Rename _ _ _ _ _ _).
  rw /rename (proj2 (replay_none _ _ _) Hid).
  assert (Href : rename_refuses (dir s) p q replace = refusal (dir s) msg).
  { rw /rename_refuses /= !is_bound_view -/(bound (dir s) p) -/(bound (dir s) q).
    rw -/(taken (dir s) p) -/(taken (dir s) q) -/(streaming (dir s) p) -/(streaming (dir s) q).
    by destruct (bound (dir s) p), (bound (dir s) q), (taken (dir s) p), (taken (dir s) q),
      (streaming (dir s) p), (streaming (dir s) q), (bool_decide (p = q)), replace. }
  rw Href. destruct (refusal (dir s) msg) as [rejection|] eqn:Er.
  { destruct (rejected _ _ _ _) as [r s'] eqn:E. by eapply rejected_explains. }
  rw /checked_succ. destruct (N.leb_spec u64_max (next_revision (snapshot (dir s)))); [by apply exhausted_explained|].
  destruct (store_commit _ _) as [r1 s2] eqn:E.
  eapply (committed_explains _ msg s _ _ (renamed_snapshot (snapshot (dir s)) p q replace id
    (destination_retired (dir s) p q)) (λ s2, with_dir s2 (set_sources (dir s2)
      (moved_sources p q (sources (dir s2)))))); try done.
  - intros Hv. eapply validate_mutation; [exact Hv|done|..|done|by left]; intros k x; cbn.
    + destruct (bindings (snapshot (dir s)) !! p); rw ?lookup_insert ?lookup_delete;
        repeat case_decide; try done; try (by left). intros [= <-]. by right.
    + destruct (bindings (snapshot (dir s)) !! p), (stream_nodes (snapshot (dir s)) !! p);
        rw ?lookup_insert ?lookup_delete; repeat case_decide; try done; try (by left).
      intros [= <-]. by right.
  - rw view_renamed. apply rename_allowed in Href as [Hb _]. cbn.
    rw is_bound_view in Hb. apply bool_decide_eq_true in Hb as [e ->]. done.
Qed.

(** ** The handler *)

Lemma handle_explained env s msg id request :
  Inv s → mutation msg = Some (id, request) → operations (snapshot (dir s)) !! id = None →
  blocked (dir s) msg = false →
  ∃ result, last (sent (handle env s msg)) = answer_to msg (directory_epoch (dir s)) result
    ∧ explains (dir s) msg id result (names (snapshot (dir s))) (names (snapshot (dir (handle env s msg))))
    ∧ (works s → storage result = false).
Proof.
  intros [HG _] Hm Hid Hb. destruct msg; try done; injection Hm as <- <-; cbn [handle].
  - set (retired := if logged s operation_id then _ else _).
    set (g := mkRegistration _ _ _ _ _ _ _ _). pose proof (register_logging s g) as [He _].
    destruct (register_explained s g request_id reply_to HG Hid) as [Hx Hw].
    destruct (register s g) as [r s1]. exists r. cbn [fst snd] in *. rw last_reply. cbn [dir reply send].
    destruct (queue_retired_names env s1 retired r) as [Q1 Q2].
    destruct r as [receipt|e]; [|by rw Q1 Q2 He].
    destruct (displace_stream_names env (queue_retired env s1 retired (inl receipt)) path) as ((B1&S1&O1&N1)&E1).
    rw E1 Q2 He. split_and!; [done| |done]. by rw /names /view B1 S1 N1 O1 Q1.
  - cbn in Hb. rw Hb. set (retired := if logged s operation_id then _ else _).
    pose proof (unregister_logging s path operation_id retired) as [He _].
    destruct (unregister_explained s request_id path operation_id reply_to retired HG Hid) as [Hx Hw].
    destruct (unregister _ _ _ _) as [r s1]. exists r. cbn [fst snd] in *. rw last_reply. cbn [dir reply send].
    destruct (queue_retired_names env s1 retired r) as [-> ->]. by rw He.
  - set (retired := if logged s operation_id then _ else _).
    pose proof (rename_logging s source destination replace operation_id) as [He _].
    destruct (rename_explained s request_id source destination replace operation_id reply_to HG Hid) as [Hx Hw].
    destruct (rename _ _ _ _ _) as [r s1]. exists r. cbn [fst snd] in *. rw last_reply. cbn [dir reply send].
    destruct (queue_retired_names env s1 retired r) as [-> ->]. by rw He.
Qed.

Lemma handle_blocked env s msg :
  blocked (dir s) msg = true →
  last (sent (handle env s msg)) = answer_to msg (directory_epoch (dir s)) (inr (blocked_error msg))
  ∧ dir (handle env s msg) = dir s.
Proof. destruct msg; try done. cbn. intros ->. by rw last_reply. Qed.


(** ** Streams *)

(** The second endpoint of a stream makes it: both are told the same, the one that waited first. *)
Theorem second_endpoint_joins w d env request pending :
  reachable w → running w = Some d → (∀ x, ∃ bytes, to_vec x = inl bytes) →
  stream_replacement_fences d !! s_path request = None →
  streams d !! s_path request = Some (Pending pending) → p_role pending ≠ s_role request →
  operations (snapshot d) !! s_operation_id request = None → entry_refuses d request = None →
  let stream := joined (directory_epoch d) request pending in
  let told request_id :=
    DirectoryReply (mkOut request_id (directory_epoch d) (StreamOpened (inl (a_binding stream)))) in
  let out := world_step w (Deliver env [] (OpenStream request)) in
  ∃ d', running out.1 = Some d'
  ∧ out.2 = [(p_reply_to pending, told (p_request_id pending)); (s_reply_to request, told (s_request_id request))]
  ∧ streams d' = <[s_path request := Active stream]> (streams d).
Proof.
  intros Hw Hr Hb Hf Hst Hrole Hid He stream told out. subst out.
  destruct (running_steps w d env [] (OpenStream request) Hw Hr) as (s&_&[HG _]&->&->).
  cbn [handle]. rw /open_stream /= Hf /open_unfenced /= /replay_refuses (proj2 (replay_none _ _ _) Hid) He Hst.
  rw bool_decide_false.
  { intros E. pose proof (st_log _ _ _ (v_streams _ (g_vol _ HG) _ _ Hst) (p_operation_id pending)) as Hl.
    cbn in Hl. rw bool_decide_true // E in Hl. cbn in Hl. specialize (Hl eq_refl). congruence. }
  rw (bool_decide_false _ Hrole) /= andb_false_r /open_vacant /= Hst /match_streams (bool_decide_false _ Hrole).
  rw /record_stream_participant /= Hid.
  destruct (store_commit_works (remove_stream (mkSt d (stored w) [] []) (s_path request))
    (log (snapshot d) (s_operation_id request) (MBindStream (s_path request)) (Committed (p_revision pending))))
    as [disk' ->]; [done|done| |].
  { apply validate_iff. pose proof (g_valid _ HG) as (?&?&?&?&Ho)%validate_iff. split_and!; [done..|].
    intros id q r. cbn. rw lookup_insert. case_decide; [intros [= _ <-]|apply Ho].
    exact (stream_revision_range _ _ _ HG Hst). }
  subst stream told. rw /joined. destruct (s_role request); (eexists; split_and!; [done..|]); cbn; by rw insert_delete_eq.
Qed.

(** ** Late copies of a registration *)

Lemma same_names_eq x y : same_names x y → names y = names x.
Proof. intros (B&S&O&N). by rw /names /view B S N O. Qed.

(** With a store that works, an endpoint that is displaced is told until it acknowledges. *)
Lemma queue_stream_displacement_works env s e i :
  faults s = [] → (∀ x, ∃ bytes, to_vec x = inl bytes) → validate (snapshot (dir s)) = inl tt →
  let s' := queue_stream_displacement env s e i in
  faults s' = [] ∧ validate (snapshot (dir s')) = inl tt
  ∧ ∀ e', e' = e ∨ (∃ b, pending_stream_displacements (dir s) !! e' = Some (mkDisplacement i b)) →
      ∃ b, pending_stream_displacements (dir s') !! e' = Some (mkDisplacement i b).
Proof.
  intros Hf Hb Hv s'. subst s'. rw /queue_stream_displacement.
  set (next := set_stream_retirements _ _). assert (Hv' : validate next = inl tt) by exact Hv.
  destruct (pending_stream_displacements (dir s) !! e) as [[j b]|] eqn:Hp; [cbn; case_bool_decide|].
  { split_and!; [done..|]. intros e' [->|?]; [|done]. subst. eauto. }
  all: destruct (store_commit_works s next Hf Hb Hv') as [disk' ->]; rw watch_retirement_eq.
  all: split_and!; [done..|]; intros e' He'; cbn; rw lookup_insert; case_decide; [by eexists|].
  all: destruct He' as [->|?]; done.
Qed.


(** ** Refinement *)

(** What an open finds at its path decides whether it may bind it. *)
Definition may_bind (r : StreamOpenRequest) (e : option Entry) : bool :=
  match e with
  | None => s_ensure r
  | Some (EBlob _ _ _) => s_ensure r && s_replace r
  | Some (EStream _) => true
  end.

(** What the open [r] does to the names, where [reserved] are the paths of blobs that are being
    written: it makes the node, it is refused because of a reservation, or it joins the stream whose node
    is there. *)
Inductive open_step (reserved : gmap DataPath OperationId) (r : StreamOpenRequest) : Names → Names → Prop :=
| os_bind V n L :
    (s_operation_id r ∉ L) → reserved !! s_path r = None → may_bind r (V !! s_path r) = true →
    open_step reserved r (mkNames V n L)
      (mkNames (<[s_path r := EStream n]> V) (n + 1) ({[s_operation_id r]} ∪ L))
| os_refuse V n L :
    (s_operation_id r ∉ L) → is_Some (reserved !! s_path r) →
    open_step reserved r (mkNames V n L) (mkNames V n ({[s_operation_id r]} ∪ L))
| os_join V n L revision :
    (s_operation_id r ∉ L) → V !! s_path r = Some (EStream revision) →
    open_step reserved r (mkNames V n L) (mkNames V n ({[s_operation_id r]} ∪ L)).

(** The opens that a fence holds back. *)
Definition held (d : DataDirectoryActor) (r : StreamOpenRequest) : Prop :=
  ∃ p f, stream_replacement_fences d !! p = Some f ∧ r ∈ f_requests f.

(** The opens that a message may cause: its own, or those that a fence held back until now. *)
Definition asks (d : DataDirectoryActor) (msg : DataDirectoryIn) (r : StreamOpenRequest) : Prop :=
  match msg with
  | OpenStream request => r = request
  | StreamDisplaced _ _ | RetryRetirements | RetirementRouteChanged _ => held d r
  | _ => False
  end.

(** What the handler of [msg] may do to the names of the directory [d]: each step under an identifier
    that is new. *)
Inductive ns_step (d : DataDirectoryActor) (msg : DataDirectoryIn) : Names → Names → Prop :=
| ns_mutate V n L id request :
    mutation msg = Some (id, request) → (id ∉ L) → blocked d msg = false → refusal d msg = None →
    ns_step d msg (mkNames V n L) (mkNames (effect msg n V) (n + 1) ({[id]} ∪ L))
| ns_refuse V n L id request rejection :
    mutation msg = Some (id, request) → (id ∉ L) → blocked d msg = false → refusal d msg = Some rejection →
    ns_step d msg (mkNames V n L) (mkNames V n ({[id]} ∪ L))
| ns_open x y r : asks d msg r → open_step (blob_reservations d) r x y → ns_step d msg x y
| ns_cancel V n L request_id path id reply_to :
    msg = CancelStream request_id path id reply_to → (id ∉ L) →
    ns_step d msg (mkNames V n L) (mkNames V n ({[id]} ∪ L)).

(** *** Opens *)

(** The nodes of the streams that wait. *)
Record noded (d : DataDirectoryActor) : Prop := {
  nd_apart p : bindings (snapshot d) !! p = None ∨ stream_nodes (snapshot d) !! p = None;
  nd_pending p pending :
    streams d !! p = Some (Pending pending) → is_Some (stream_nodes (snapshot d) !! p);
}.

(** [s'] comes from [s] by opens of requests in [P]. *)
Record opened (P : StreamOpenRequest → Prop) (s s' : St) : Prop := {
  op_names :
    rtc (λ x y, ∃ r, P r ∧ open_step (blob_reservations (dir s)) r x y)
      (names (snapshot (dir s))) (names (snapshot (dir s')));
  op_reserved : blob_reservations (dir s') = blob_reservations (dir s);
  op_held r : held (dir s') r → held (dir s) r ∨ P r;
  op_noded : noded (dir s');
}.

Lemma opened_trans P s1 s2 s3 : opened P s1 s2 → opened P s2 s3 → opened P s1 s3.
Proof.
  intros [N1 R1 H1 _] [N2 R2 H2 J2]. rw R1 in N2. split; [by etrans|congruence| |done].
  intros r [?|?]%H2; [by apply H1|by right].
Qed.

Lemma opened_same P s s' :
  noded (dir s) → same_names (snapshot (dir s)) (snapshot (dir s')) →
  blob_reservations (dir s') = blob_reservations (dir s) →
  stream_replacement_fences (dir s') = stream_replacement_fences (dir s) →
  (∀ p pending, streams (dir s') !! p = Some (Pending pending) → ∃ x, streams (dir s) !! p = Some (Pending x)) →
  opened P s s'.
Proof.
  intros [Ha Hp] (B&S&O&N) HR HF HS. split; [|done| |].
  - by rw /names /view B S N O.
  - rw /held HF. by left.
  - split; rw ?B ?S; [done|]. intros p pending [x Hx]%HS. by eapply Hp.
Qed.

(** A commit that only logs the open, when it works. *)
Lemma opened_logged r s request result disk' rest l :
  noded (dir s) → operations (snapshot (dir s)) !! s_operation_id r = None →
  is_Some (blob_reservations (dir s) !! s_path r) ∨ is_Some (stream_nodes (snapshot (dir s)) !! s_path r) →
  opened (eq r) s (mkSt (set_snapshot (dir s) (log (snapshot (dir s)) (s_operation_id r) request result))
                     disk' rest l).
Proof.
  intros HJ Hid Hwhy. split; [|done|by left|by destruct HJ]. apply rtc_once. exists r. split; [done|].
  rw /names /= dom_insert_L.
  assert (Hfresh : s_operation_id r ∉ dom (operations (snapshot (dir s)))) by by apply not_elem_of_dom.
  destruct Hwhy as [Hr|[revision Hn]]; [by apply os_refuse|]. apply (os_join _ _ _ _ _ revision); [done|].
  change (view (snapshot (dir s)) !! s_path r = Some (EStream revision)). rw view_lookup Hn.
  by destruct (nd_apart _ HJ (s_path r)) as [->|?]; [|congruence].
Qed.

Lemma match_streams_opened s r pending :
  noded (dir s) → streams (dir s) !! s_path r = Some (Pending pending) →
  operations (snapshot (dir s)) !! s_operation_id r = None →
  opened (eq r) s (match_streams s r pending).
Proof.
  intros HJ Hst Hid. rw /match_streams. case_bool_decide.
  { rw restore_stream //. by apply opened_same; eauto. }
  rw /record_stream_participant /= Hid. destruct (store_commit _ _) as [r1 s1] eqn:E.
  apply store_commit_spec in E as (disk'&rest&_&[(e&->&->)|(->&->&_)]).
  - apply opened_same; try done. intros p x. cbn. rw lookup_insert. case_decide; [subst; eauto|].
    rw lookup_delete_ne; eauto.
  - destruct (opened_logged r s (MBindStream (s_path r)) (Committed (p_revision pending)) disk' rest
      (sent s) HJ Hid) as [Hn Hr Hh [Hap Hnd]]; [by right; eapply nd_pending|].
    destruct (s_role r); (split; [exact Hn|exact Hr|exact Hh|split; [exact Hap|]]);
      intros p x; cbn; (rw lookup_insert; case_decide; [done|]); rw lookup_delete_ne //; apply Hnd.
Qed.

Lemma bind_first_opened env s r :
  noded (dir s) → operations (snapshot (dir s)) !! s_operation_id r = None →
  may_bind r (view (snapshot (dir s)) !! s_path r) = true →
  opened (eq r) s (bind_first env s r).
Proof.
  intros HJ Hid Hmay. rw /bind_first /bind_stream (proj2 (replay_none _ _ _) Hid). case_bool_decide as Hres.
  { rw /rejected /reject. destruct (store_commit _ _) as [r1 s1] eqn:E.
    apply store_commit_spec in E as (disk'&rest&_&[(e&->&->)|(->&->&_)]); [by apply opened_same; eauto|].
    apply opened_logged; [done..|by left]. }
  apply eq_None_not_Some in Hres. rw /checked_succ. destruct (N.leb_spec u64_max (next_revision (snapshot (dir s)))).
  { by apply opened_same; eauto. }
  destruct (store_commit _ _) as [r1 s1] eqn:E.
  apply store_commit_spec in E as (disk'&rest&_&[(e&->&->)|(->&->&_)]); [by apply opened_same; eauto|].
  set (retired := available_actor _).
  assert (Hend : ∀ s', snapshot (dir s') = bound_snapshot (snapshot (dir s)) (s_path r) (s_operation_id r) retired →
    blob_reservations (dir s') = blob_reservations (dir s) →
    stream_replacement_fences (dir s') = stream_replacement_fences (dir s) →
    (∃ x, streams (dir s') = <[s_path r := x]> (streams (dir s))) → opened (eq r) s s').
  { intros s' Es Er Ef [x Ex]. split; [|done|by rw /held Ef; left|].
    - apply rtc_once. exists r. split; [done|]. rw Es /names view_bound /= dom_insert_L.
      apply os_bind; [by apply not_elem_of_dom|done|done].
    - split; rw Es /=.
      + intros p. rw lookup_delete lookup_insert. case_decide; [by left|apply HJ].
      + intros p y. rw Ex !lookup_insert. case_decide; [by eexists|apply HJ]. }
  destruct retired as [a|]; [rw queue_retirement_eq|]; apply Hend; try done; by eexists.
Qed.

Lemma open_vacant_opened env s r :
  noded (dir s) → operations (snapshot (dir s)) !! s_operation_id r = None →
  (s_ensure r = false → is_Some (stream_nodes (snapshot (dir s)) !! s_path r)) →
  opened (eq r) s (open_vacant env s r).
Proof.
  intros HJ Hid Hen. rw /open_vacant. destruct (streams (dir s) !! s_path r) as [[]|] eqn:Hst.
  - by apply match_streams_opened.
  - by apply opened_same; eauto.
  - destruct (_ && _) eqn:Hb; [by apply opened_same; eauto|]. apply bind_first_opened; [done..|].
    rw view_lookup. destruct (nd_apart _ HJ (s_path r)) as [E|E]; rw E; rw ?E in Hb Hen; cbn in *.
    + destruct (stream_nodes _ !! _); [done|]. cbn in *. destruct (s_ensure r); [done|].
      by destruct (Hen eq_refl).
    + destruct (bindings _ !! _); cbn in *; destruct (s_ensure r); try done;
        try (by destruct (Hen eq_refl)). by apply negb_false_iff in Hb.
Qed.

Lemma begin_stream_replacement_opened env s r active :
  noded (dir s) → opened (eq r) s (begin_stream_replacement env (remove_stream s (s_path r)) r active).
Proof.
  intros HJ. rw /begin_stream_replacement. set (order := hash_order env _). set (i := m_incarnation _).
  destruct (store_commit _ _) as [r1 s1] eqn:E.
  apply store_commit_spec in E as (disk'&rest&_&[(e&->&->)|(->&->&_)]).
  - apply opened_same; try done. intros p x. cbn. rw lookup_insert. case_decide; [done|].
    rw lookup_delete_ne; eauto.
  - destruct (watch_displaced_eq env i order
      (mkSt (set_snapshot (dir (remove_stream s (s_path r)))
        (displaced_snapshot i order (snapshot (dir s)))) disk' rest (sent s))) as [w Hfold].
    cbn in Hfold |- *. rw Hfold (sends_eq (λ _, Displaced i (Some (self_addr env)))). split; cbn; [done..| |].
    + intros r' (p&f&Hf&Hr'). cbn in Hf. rw lookup_insert in Hf. case_decide; [|by left; exists p, f].
      injection Hf as <-. cbn in Hr'. apply list_elem_of_singleton in Hr' as ->. by right.
    + split; [apply HJ|]. intros p x. cbn. rw lookup_delete. case_decide; [done|apply HJ].
Qed.

Lemma entry_refuses_none d r :
  entry_refuses d r = None → s_ensure r = false → is_Some (stream_nodes (snapshot d) !! s_path r).
Proof. rw /entry_refuses. intros H E. rw E in H. by destruct (stream_nodes _ !! _). Qed.

Lemma open_unfenced_opened env s r : noded (dir s) → opened (eq r) s (open_unfenced env s r).
Proof.
  intros HJ. rw /open_unfenced.
  assert (Hreply : ∀ x, opened (eq r) s (send_stream_result s (s_request_id r) (s_reply_to r) x)).
  { intros x. by apply opened_same; eauto. }
  destruct (replay_refuses (dir s) r) eqn:Hr; [apply Hreply|].
  destruct (entry_refuses (dir s) r) eqn:He; [apply Hreply|].
  pose proof (replay_refuses_none _ _ Hr) as Hid. pose proof (entry_refuses_none _ _ He) as Hen.
  destruct (streams (dir s) !! s_path r) as [[pending|active]|] eqn:Hst; cbn in Hid.
  - case_bool_decide.
    { rw /repeat_pending. destruct (_ || _); [apply Hreply|]. apply opened_same; try done.
      intros p x. cbn. rw lookup_insert. case_decide as Hpath; [intros _; rw -Hpath; by exists pending|by eauto]. }
    destruct (s_replace r && _); [|by apply open_vacant_opened; [|apply Hid|]].
    assert (H1 : opened (eq r) s (displace_stream env s (s_path r))).
    { rw /displace_stream Hst. apply opened_same; try done. intros p x. cbn. rw lookup_delete.
      case_decide; [done|by eauto]. }
    eapply opened_trans; [exact H1|]. apply open_vacant_opened; [apply H1|..];
      rw /displace_stream Hst /=; [by apply Hid|done].
  - case_match; [apply Hreply|]. case_match; [by apply begin_stream_replacement_opened|].
    by apply open_vacant_opened; [|apply Hid|].
  - by apply open_vacant_opened; [|apply Hid|].
Qed.

Lemma hold_request_elem r l x : x ∈ hold_request r l → x ∈ l ∨ x = r.
Proof.
  induction l as [|known l IH]; cbn; [rw list_elem_of_singleton; by right|].
  case_match; rw !elem_of_cons; naive_solver.
Qed.

Lemma open_stream_opened env s r : noded (dir s) → opened (eq r) s (open_stream env s r).
Proof.
  intros HJ. rw /open_stream. destruct (stream_replacement_fences (dir s) !! s_path r) as [fence|] eqn:Hf;
    [|by apply open_unfenced_opened].
  rw /hold_stream_open_for_fence. case_match; [by apply opened_same; eauto|].
  split; [done..| |by destruct HJ]. intros r' (p&f&Hp&Hr'). cbn in Hp. rw lookup_insert in Hp.
  case_decide; [|by left; exists p, f]. injection Hp as <-. cbn in Hr'.
  apply hold_request_elem in Hr' as [?|?]; [left; by eexists _, fence|by right].
Qed.

(** *** Fences and retries *)

Lemma opened_weaken (P Q : StreamOpenRequest → Prop) s s' : (∀ r, P r → Q r) → opened P s s' → opened Q s s'.
Proof.
  intros H [Hn Hr Hh HJ]. split; [|done| |done].
  - eapply rtc_subrel; [|exact Hn]. intros x y (r&?&?). eauto.
  - intros r [?|?]%Hh; [by left|right; by apply H].
Qed.

(** The opens that are held belong to [P], and go on doing so. *)
Lemma opened_foldl {A} P (f : St → A → St) l s :
  noded (dir s) → (∀ r, held (dir s) r → P r) →
  (∀ s x, x ∈ l → noded (dir s) → (∀ r, held (dir s) r → P r) → opened P s (f s x)) →
  opened P s (foldl f s l).
Proof.
  revert s. induction l as [|x l IH]; intros s HJ HP Hf; cbn [foldl]; [by apply opened_same; eauto|].
  assert (H1 : opened P s (f s x)) by (apply Hf; [by left|done..]).
  eapply opened_trans; [exact H1|]. apply IH; [apply H1| |].
  - intros r [?|?]%(op_held _ _ _ H1); [by apply HP|done].
  - intros s' y Hy. apply Hf. by right.
Qed.

Lemma resume_fence_opened P env s path :
  noded (dir s) → (∀ r, held (dir s) r → P r) → opened P s (resume_fence env s path).
Proof.
  intros HJ HP. rw /resume_fence.
  destruct (stream_replacement_fences (dir s) !! path) as [fence|] eqn:Hf; [|by apply opened_same; eauto].
  set (s0 := with_dir _ _).
  assert (Hheld : ∀ r, held (dir s0) r → held (dir s) r).
  { intros r (p&f&Hp&Hr). exists p, f. split; [|done]. cbn in Hp. by apply lookup_delete_Some in Hp as [_ ?]. }
  assert (H0 : opened P s s0) by (split; [done..| |by destruct HJ]; intros r Hr; left; by apply Hheld).
  eapply opened_trans; [exact H0|]. apply opened_foldl; [by destruct HJ|by intros r Hr; apply HP, Hheld|].
  intros s' r Hr HJ' HP'. eapply opened_weaken, open_stream_opened; [|done].
  intros ? <-. apply HP. by exists path, fence.
Qed.

Lemma resume_opened P env s :
  noded (dir s) → (∀ r, held (dir s) r → P r) → opened P s (resume_stream_replacement_fences env s).
Proof. intros HJ HP. apply opened_foldl; [done..|]. intros s' path _ ? ?. by apply resume_fence_opened. Qed.

Lemma retain_displacement_opened P env s e : noded (dir s) → opened P s (retain_displacement env s e).
Proof.
  intros HJ. rw /retain_displacement. destruct (_ !! e) as [pending|]; [|by apply opened_same; eauto].
  rw /displacement_retry. destruct (d_acknowledged pending); cbn [negb]; [|by apply opened_same; eauto].
  destruct (store_commit _ _) as [r1 s1] eqn:E.
  by apply store_commit_spec in E as (disk'&rest&_&[(err&->&->)|(->&->&_)]); apply opened_same; eauto.
Qed.

Lemma retry_queue_opened P env s examine n : noded (dir s) → opened P s (retry_queue env s examine n).
Proof.
  revert s n. induction examine as [|examine IH]; intros s n HJ; cbn [retry_queue]; [by apply opened_same; eauto|].
  case_bool_decide; [|by apply opened_same; eauto].
  destruct (retirement_retry_queue (dir s)) as [|a rest]; [by apply opened_same; eauto|].
  repeat case_match; (eapply opened_trans; [|apply IH]; [by apply opened_same; eauto|by destruct HJ]).
Qed.

Lemma retry_retirement_opened P env s target :
  noded (dir s) → (∀ r, held (dir s) r → P r) → opened P s (retry_retirement env s target).
Proof.
  intros HJ HP. rw /retry_retirement. assert (H1 := retain_displacement_opened P env s target HJ).
  eapply opened_trans; [exact H1|]. set (s1 := retain_displacement _ _ _) in *.
  assert (H2 : opened P s1 (resume_stream_replacement_fences env s1)).
  { apply resume_opened; [apply H1|]. intros r [?|?]%(op_held _ _ _ H1); [by apply HP|done]. }
  eapply opened_trans; [exact H2|]. case_match; (apply opened_same; [apply H2|done..|eauto]).
Qed.

Lemma retry_retirements_opened P env s :
  noded (dir s) → (∀ r, held (dir s) r → P r) → opened P s (retry_retirements env s).
Proof.
  intros HJ HP. rw /retry_retirements. set (s1 := foldl _ _ _).
  assert (H1 : opened P s s1).
  { apply opened_foldl; [done..|]. intros s' e _ HJ' _. by apply retain_displacement_opened. }
  eapply opened_trans; [exact H1|]. set (s2 := retry_queue _ _ _ _).
  assert (H2 : opened P s1 s2) by apply retry_queue_opened, H1.
  eapply opened_trans; [exact H2|]. apply resume_opened; [apply H2|].
  intros r [[?|?]%(op_held _ _ _ H1)|?]%(op_held _ _ _ H2); [by apply HP|done..].
Qed.

(** *** The handler *)

Lemma good_noded d : Good d → noded d.
Proof.
  intros [_ Hwf HV]. split.
  - intros p. destruct (bindings _ !! p) eqn:E1, (stream_nodes _ !! p) eqn:E2; try (by auto).
    by destruct (wf_apart _ Hwf _ _ _ E1 E2).
  - intros p pending Hp. eexists. apply (st_node _ _ _ (v_streams _ HV _ _ Hp)).
Qed.

Lemma mutation_refines env s msg id request :
  Inv s → mutation msg = Some (id, request) →
  rtc (ns_step (dir s) msg) (names (snapshot (dir s))) (names (snapshot (dir (handle env s msg)))).
Proof.
  intros HI Hm. destruct (blocked (dir s) msg) eqn:Hb; [by destruct (handle_blocked env s msg Hb) as [_ ->]|].
  destruct (operations (snapshot (dir s)) !! id) as [o|] eqn:Hid.
  { destruct (replay (dir s) id request) as [r|] eqn:Hr; [|by rw replay_none Hid in Hr].
    destruct (handle_replays env s msg id request r Hm Hr) as [_ Hn]. by rw (same_names_eq _ _ Hn). }
  destruct (handle_explained env s msg id request HI Hm Hid Hb) as (r&_&Hx&_).
  assert (Hfresh : id ∉ dom (operations (snapshot (dir s)))) by by apply not_elem_of_dom.
  destruct r as [receipt|e]; cbn in Hx.
  - destruct Hx as (Href&->&->). by eapply rtc_once, ns_mutate.
  - destruct e; try (destruct Hx as (rejection&Href&_&->); by eapply rtc_once, ns_refuse). by rw Hx.
Qed.

Lemma cancel_refines env s request_id path id reply_to :
  let msg := CancelStream request_id path id reply_to in
  rtc (ns_step (dir s) msg) (names (snapshot (dir s))) (names (snapshot (dir (handle env s msg)))).
Proof.
  intros msg. cbn [handle msg]. rw /cancel_stream.
  assert (Hn : ∀ s', (snapshot (dir match streams (dir s') !! path with
      | Some (Pending pending) => if bool_decide (p_operation_id pending = id) then remove_stream s' path else s'
      | _ => s' end)) = snapshot (dir s')).
  { intros s'. by repeat case_match. }
  case_bool_decide as Hid; [by destruct reply_to; cbn; rw Hn|].
  apply eq_None_not_Some in Hid. destruct (store_commit _ _) as [r s1] eqn:E.
  apply store_commit_spec in E as (disk'&rest&_&[(err&->&->)|(->&->&_)]); [by destruct reply_to|].
  apply rtc_once. set (s1 := mkSt _ _ _ _).
  assert (Hc : ns_step (dir s) msg (names (snapshot (dir s))) (names (snapshot (dir s1)))).
  { rw /names /= dom_insert_L. eapply ns_cancel; [done|by apply not_elem_of_dom]. }
  rw -(Hn s1) in Hc. by destruct reply_to.
Qed.

Lemma opened_refines s msg s' :
  opened (asks (dir s) msg) s s' →
  rtc (ns_step (dir s) msg) (names (snapshot (dir s))) (names (snapshot (dir s'))).
Proof.
  intros [Hn _ _ _]. eapply rtc_subrel; [|exact Hn]. intros x y (r&?&?). by eapply ns_open.
Qed.

Lemma handle_refines env s msg :
  Inv s → rtc (ns_step (dir s) msg) (names (snapshot (dir s))) (names (snapshot (dir (handle env s msg)))).
Proof.
  intros HI. pose proof (good_noded _ (inv_good _ HI)) as HJ.
  destruct (mutation msg) as [[id request]|] eqn:Hm; [by eapply mutation_refines|].
  destruct msg; try done; cbn [handle].
  - by rw /reserve_blob; repeat case_match; simplify_eq.
  - by rw /release_blob_reservation; repeat case_match; simplify_eq.
  - apply opened_refines. eapply opened_weaken, open_stream_opened; [|done]. by intros ? <-.
  - exact (cancel_refines env s _ _ _ _).
  - by rw /close_stream; repeat case_match; simplify_eq.
  - rw /confirm_retirement. case_match; [done|]. destruct (store_commit _ _) as [r s1] eqn:E.
    by apply store_commit_spec in E as (disk'&rest&_&[(err&->&->)|(->&->&_)]).
  - apply opened_refines. rw /confirm_stream_displacement.
    destruct (_ !! endpoint) as [pending|]; [|by apply opened_same; eauto].
    case_match; [by apply opened_same; eauto|]. set (s0 := with_dir _ _).
    eapply (opened_trans _ s s0); [by apply opened_same; eauto|]. by apply retry_retirement_opened; [destruct HJ|].
  - apply opened_refines. by apply retry_retirements_opened.
  - apply opened_refines. by apply retry_retirement_opened.
Qed.

(** C20. A handler refines its abstract specification on the names. A mutation does what
    [effect] says of its own path, or is refused where [refusal] says so, both at most
    once. A stream node is made only by an open that the message carries, or that a
    fence held back and the message releases; not at a reserved path, over a blob only
    if the open replaces it, and from nothing only if the open creates. A cancellation
    logs its operation. Every other message leaves the names alone. *)
Theorem handler_refines w d env faults msg :
  reachable w → running w = Some d →
  ∃ d', running (world_step w (Deliver env faults msg)).1 = Some d'
        ∧ rtc (ns_step d msg) (names (snapshot d)) (names (snapshot d')).
Proof.
  intros Hw Hr. destruct (running_steps w d env faults msg Hw Hr) as (s&_&HI&->&->).
  eexists. split; [done|]. exact (handle_refines env _ msg HI).
Qed.

End Effect.
