(* ===== verification/NamespaceAgree.v ===== *)
(** * Endpoints agree on their stream

    The two endpoints of a stream are told of it one by one, and told again when they ask again, also
    while the stream is being replaced.  All that is ever told about one incarnation, by all authorities,
    is the same stream: the same two endpoints and descriptors. *)

From S2P Require Import Prelude LogicalPath NamespaceStore NamespaceDirectory NamespaceMoves NamespaceInv.
From S2P Require Import NamespaceRefine NamespaceWorld NamespaceSafety.
#[local] Open Scope N_scope.

Section Agree.
Context {F : NamespaceFormat}.

(** ** The streams behind fences *)

Record Old (d : DataDirectoryActor) : Prop := {
  old_incarnation p f a :
    stream_replacement_fences d !! p = Some f → f_old f = Some a →
    f_incarnation f = m_incarnation (a_binding a) ∧ i_epoch (f_incarnation f) = directory_epoch d;
  old_apart p q f g a c :
    stream_replacement_fences d !! p = Some f → stream_replacement_fences d !! q = Some g →
    f_old f = Some a → f_old g = Some c → f_incarnation f = f_incarnation g → p = q;
}.

(** The fences a move may leave: as they were, or new, of a stream in use. *)
Lemma move_old_from msg d d' p f a :
  move msg d d' → stream_replacement_fences d' !! p = Some f → f_old f = Some a →
  (∃ f', stream_replacement_fences d !! p = Some f' ∧ f_old f' = Some a ∧ f_incarnation f' = f_incarnation f)
  ∨ (streams d !! p = Some (Active a) ∧ f_incarnation f = m_incarnation (a_binding a)).
Proof.
  destruct 1; cbn; try (by eauto).
  - rw lookup_insert. case_decide; [|by eauto]. intros [= <-] [= <-]. subst. by right.
  - rw lookup_insert. case_decide; [|by eauto]. intros [= <-]. cbn. subst. left. by eauto.
  - rw lookup_delete. case_decide; [done|by eauto].
Qed.

(** A fence is not of the incarnation of a stream in use. *)
Lemma fence_not_active d p q f a :
  Good d → stream_replacement_fences d !! p = Some f → streams d !! q = Some (Active a) →
  f_incarnation f ≠ m_incarnation (a_binding a).
Proof.
  intros [_ _ HV] Hf Hq. rw (st_incarnation _ _ _ (v_streams _ HV _ _ Hq) _ eq_refl).
  by apply (v_dead _ HV _ _ _ _ Hf Hq).
Qed.

Lemma active_inj d p q a c :
  Good d → streams d !! p = Some (Active a) → streams d !! q = Some (Active c) →
  m_incarnation (a_binding a) = m_incarnation (a_binding c) → p = q.
Proof.
  intros HG Hp Hq. pose proof HG as [_ _ HV].
  rw (st_incarnation _ _ _ (v_streams _ HV _ _ Hp) _ eq_refl)
     (st_incarnation _ _ _ (v_streams _ HV _ _ Hq) _ eq_refl). intros [= E].
  by eapply stream_revision_inj.
Qed.

Lemma move_old msg d d' : Good d → move msg d d' → Old d → Old d'.
Proof.
  intros HG Hm HO. split.
  - intros p f a Hf Ha. rw (move_epoch _ _ _ Hm).
    destruct (move_old_from _ _ _ _ _ _ Hm Hf Ha) as [(f'&Hf'&Ha'&<-)|[Hp ->]]; [by eapply old_incarnation|].
    split; [done|]. by rw (st_incarnation _ _ _ (v_streams _ (g_vol _ HG) _ _ Hp) _ eq_refl).
  - intros p q f g a c Hf Hg Ha Hc E.
    destruct (move_old_from _ _ _ _ _ _ Hm Hf Ha) as [(f'&Hf'&Ha'&Ef)|[Hp Ef]],
      (move_old_from _ _ _ _ _ _ Hm Hg Hc) as [(g'&Hg'&Hc'&Eg)|[Hq Eg]].
    + eapply old_apart; [exact HO|exact Hf'|exact Hg'|done..|congruence].
    + destruct (fence_not_active _ _ _ _ _ HG Hf' Hq). congruence.
    + destruct (fence_not_active _ _ _ _ _ HG Hg' Hp). congruence.
    + eapply active_inj; [done..|congruence].
Qed.

Lemma restarted_old env retry rec x : Old (restarted env retry rec x).
Proof.
  assert (H : ∀ p f, foldl (recover_fence x) ∅ (stream_retirements x) !! p = Some f → f_old f = None).
  { generalize (stream_retirements x). intros l. induction l as [|[e i] l IH] using rev_ind; intros p f; [done|].
    rw foldl_app. set (m := foldl _ _ _) in *. clearbody m. cbn [foldl]. rw /recover_fence.
    destruct (list_find _ _) as [[n [q r]]|]; [|apply IH]. rw lookup_insert.
    case_decide; [|apply IH]. intros [= <-]. destruct (m !! q) as [g|] eqn:Hg; cbn.
    - apply IH in Hg. by case_bool_decide.
    - by rw bool_decide_true. }
  split; cbn; intros *; intros Hf; apply H in Hf; congruence.
Qed.

Lemma old_keeper : keeper (λ _, True) (λ _, True) (λ _, True) Old.
Proof.
  split; try done; [|intros; apply restarted_old]. intros msg d d' _ HG HO Hm. split; [by eapply move_old|done].
Qed.

Lemma reachable_old w d : reachable w → running w = Some d → Old d.
Proof.
  intros [events ->] Hr.
  assert (Hk : kept (λ _, True) Old (world_run world_new events)).
  { eapply world_run_kept; [apply old_keeper|apply delivers_all|by apply reachable_inv; exists []|].
    split; [by apply empty_disk_recoverable|done]. }
  destruct Hk as [_ Hk]. by rw Hr in Hk.
Qed.

(** ** One stream per incarnation *)

(** The incarnation of [b] is past, and is of [b] alone. *)
Record bound_to (b : StreamMatch) (d : DataDirectoryActor) : Prop := {
  bt_past : past (m_incarnation b) d;
  bt_pending p pending :
    streams d !! p = Some (Pending pending) →
    m_incarnation b ≠ mkIncarnation (directory_epoch d) (p_revision pending);
  bt_current b' : current d b' → m_incarnation b' = m_incarnation b → b' = b;
}.

(** Two streams that the directory knows are one, or have two incarnations. *)
Lemma current_inj d b b' :
  Good d → Old d → current d b → current d b' → m_incarnation b' = m_incarnation b → b' = b.
Proof.
  intros HG HO [(p&a&Hp&<-)|(p&f&a&Hf&Ha&<-)] [(q&c&Hq&<-)|(q&g&c&Hg&Hc&<-)] E.
  - assert (q = p) as -> by by eapply active_inj. congruence.
  - destruct (old_incarnation _ HO _ _ _ Hg Hc) as [Eg _].
    destruct (fence_not_active _ _ _ _ _ HG Hg Hp). congruence.
  - destruct (old_incarnation _ HO _ _ _ Hf Ha) as [Ef _].
    destruct (fence_not_active _ _ _ _ _ HG Hf Hq). congruence.
  - destruct (old_incarnation _ HO _ _ _ Hf Ha) as [Ef _], (old_incarnation _ HO _ _ _ Hg Hc) as [Eg _].
    assert (q = p) as -> by (eapply old_apart; [exact HO|exact Hg|exact Hf|done..|congruence]). congruence.
Qed.

Lemma current_bound_to d b : Good d → Old d → current d b → bound_to b d.
Proof.
  intros HG HO Hb. pose proof HG as [_ _ HV]. split; [| |intros b' Hb'; by apply (current_inj d)].
  - destruct Hb as [(p&a&Hp&<-)|(p&f&a&Hf&Ha&<-)]; right.
    + rw (st_incarnation _ _ _ (v_streams _ HV _ _ Hp) _ eq_refl).
      split; [done|]. by apply (stream_revision_range _ _ _ HG Hp).
    + destruct (old_incarnation _ HO _ _ _ Hf Ha) as [<- He]. split; [done|]. by apply (v_past _ HV _ _ Hf).
  - intros q pending Hq. destruct Hb as [(p&a&Hp&<-)|(p&f&a&Hf&Ha&<-)].
    + rw (st_incarnation _ _ _ (v_streams _ HV _ _ Hp) _ eq_refl). intros [= E].
      assert (p = q) as -> by by eapply (stream_revision_inj d p q _ (Pending pending)). congruence.
    + destruct (old_incarnation _ HO _ _ _ Hf Ha) as [<- _]. exact (v_dead _ HV _ _ _ _ Hf Hq).
Qed.

(** What a move adds to the streams the directory knows has the incarnation of a stream that waited. *)
Lemma move_current msg d d' b :
  move msg d d' → current d' b →
  current d b
  ∨ ∃ p pending, streams d !! p = Some (Pending pending)
      ∧ m_incarnation b = mkIncarnation (directory_epoch d) (p_revision pending).
Proof.
  intros Hm [(p&a&Hp&<-)|(p&f&a&Hf&Ha&<-)].
  - assert (Hold : streams d !! p = Some (Active a) →
      current d (a_binding a) ∨ ∃ p pending, streams d !! p = Some (Pending pending)
        ∧ m_incarnation (a_binding a) = mkIncarnation (directory_epoch d) (p_revision pending)).
    { intros H. left. left. eauto. }
    destruct Hm; try (by apply Hold); revert Hp; cbn;
      rw ?lookup_insert ?lookup_delete; case_decide; try done.
    intros [= <-]. right. eexists _, pending. split; [exact H0|]. rw /joined. by destruct (s_role request).
  - left. destruct (move_old_from _ _ _ _ _ _ Hm Hf Ha) as [(f'&Hf'&Ha'&_)|[Hp _]]; [right; eauto 10|left; eauto].
Qed.

Lemma move_waiting msg d d' p pending :
  move msg d d' → streams d' !! p = Some (Pending pending) →
  (∃ old, streams d !! p = Some (Pending old) ∧ p_revision old = p_revision pending)
  ∨ p_revision pending = next_revision (snapshot d).
Proof.
  destruct 1; cbn; try (by eauto); rw ?lookup_insert ?lookup_delete; case_decide; try (by eauto).
  - intros [= <-]. by right.
  - intros [= <-]. subst. by eauto.
Qed.

Lemma bound_to_move msg d d' b : move msg d d' → bound_to b d → bound_to b d'.
Proof.
  intros Hm [Hp Hn Hc]. split; [by eapply move_past|..].
  - intros p pending Hst. rw (move_epoch _ _ _ Hm).
    destruct (move_waiting _ _ _ _ _ Hm Hst) as [(old&Hold&<-)| ->]; [by eapply Hn|].
    intros E. rw E in Hp. destruct Hp as [?|[_ ?]]; cbn in *; lia.
  - intros b' [Hb'|(p&pending&Hst&E)]%(move_current _ _ _ _ Hm); [by apply Hc|].
    intros E'. destruct (Hn _ _ Hst). congruence.
Qed.

Lemma bound_to_restarted env retry rec x b :
  i_epoch (m_incarnation b) <= authority_epoch x → bound_to b (restarted env retry rec x).
Proof.
  intros Hx. split; [left; cbn; lia|..].
  - intros p pending H. cbn in H. by rw lookup_empty in H.
  - intros b' [(p&a&H&_)|(p&f&a&Hf&Ha&<-)]; [cbn in H; by rw lookup_empty in H|].
    destruct (old_incarnation _ (restarted_old env retry rec x) _ _ _ Hf Ha) as [<- E]. intros E'.
    rw E' in E. cbn in E. lia.
Qed.

(** ** Histories *)

Definition opened (l : list (ActorAddress * Message)) : list StreamMatch := omap (λ x, opens x.2) l.

Definition agree (l : list StreamMatch) : Prop :=
  ∀ b b', b ∈ l → b' ∈ l → m_incarnation b = m_incarnation b' → b = b'.

(** The directory goes on from what was told before, [l]. *)
Record Agreed (l : list StreamMatch) (d : DataDirectoryActor) : Prop := {
  ag_old : Old d;
  ag_bound b : b ∈ l → bound_to b d;
  ag_agree : agree l;
}.

Lemma agreed_move msg l d d' : Good d → move msg d d' → Agreed l d → Agreed l d'.
Proof.
  intros HG Hm [HO Hb Ha]. split; [by eapply move_old| |done]. intros b Hin. eapply bound_to_move; eauto.
Qed.

Lemma agreed_tell l d b : Good d → Agreed l d → current d b → Agreed (l ++ [b]) d.
Proof.
  intros HG [HO Hb Ha] Hc. split; [done|..].
  - intros b' [Hin| ->%list_elem_of_singleton]%elem_of_app; [by apply Hb|by apply current_bound_to].
  - intros b1 b2 [H1| ->%list_elem_of_singleton]%elem_of_app [H2| ->%list_elem_of_singleton]%elem_of_app E;
      [by apply Ha| | |done].
    + symmetry. by apply (bt_current _ _ (Hb _ H1)).
    + by apply (bt_current _ _ (Hb _ H2)).
Qed.

Lemma opened_none l : Forall (λ x, opens x.2 = None) l → opened l = [].
Proof. induction 1 as [|x l Hx _ IH]; [done|]. by rw /opened /= Hx. Qed.

Lemma opened_app l l' : opened (l ++ l') = opened l ++ opened l'.
Proof. apply omap_app. Qed.

Lemma steps_agreed msg l s s' :
  Inv s → rtc (step msg) s s' → Agreed (l ++ opened (sent s)) (dir s) → Agreed (l ++ opened (sent s')) (dir s').
Proof.
  intros HI Hs. revert HI. induction Hs as [|s s1 s' H1 _ IH]; intros HI Ha; [done|].
  assert (HI1 := step_inv _ _ _ HI H1). apply IH; [done|clear IH].
  destruct H1 as [target m Hm|d Hm _ _|d ? ? _ _|d ? ? l' Hm _ _ _ Hl]; cbn [dir sent send with_dir].
  - rw opened_app assoc. destruct (opens m) as [b|] eqn:E.
    + rw /opened /= E. apply agreed_tell; [apply HI|done|by apply Hm].
    + rw (opened_none [(target, m)]); [by repeat constructor|]. by rw app_nil_r.
  - by eapply agreed_move; [apply HI|..].
  - done.
  - rw opened_app (opened_none l') // app_nil_r. by eapply agreed_move; [apply HI|..].
Qed.

(** The same of a world; what is on disk is of an epoch that was reached. *)
Record WAgreed (l : list StreamMatch) (w : World) : Prop := {
  wa_stored b : b ∈ l → recoverable (λ x, i_epoch (m_incarnation b) <= authority_epoch x) (stored w);
  wa_running d : running w = Some d → Agreed l d;
  wa_agree : agree l;
}.

Lemma agreed_world l s : Inv s → Agreed l (dir s) → WAgreed l (mkWorld (disk s) (Some (dir s))).
Proof.
  intros [HG Hd] Ha. split; [|by intros d [= <-]|apply Ha].
  intros b Hb. eapply recoverable_impl; [|exact Hd]. intros x [_ Hx].
  rw (ext_epoch _ _ Hx). apply past_snapshot; [done|]. by apply Ha.
Qed.

Lemma world_step_agreed l w event :
  WInv w → WAgreed l w → WAgreed (l ++ opened (world_step w event).2) (world_step w event).1.
Proof.
  intros HI HA. pose proof HI as HI0. rw /WInv in HI. rw /world_step.
  assert (Hsame : ∀ w', running w' = None → (∀ P, recoverable P (stored w) → recoverable P (stored w')) →
    WAgreed (l ++ opened []) w').
  { intros w' Hr Hs. rw app_nil_r. split; [|by rw Hr|apply HA]. intros b Hb. by apply Hs, HA. }
  destruct event as [env error fault retry rec faults|env faults msg| |choice cut keep];
    destruct (running w) as [d|] eqn:Hr; cbn [fst snd];
    try (by rw app_nil_r); try (by apply Hsame); try (by apply Hsame; [|intros; by apply power_loss_recoverable]).
  - destruct (recover _ _ _ _ _ _) as [r d'] eqn:E.
    pose proof (start_spec _ _ _ _ _ _ _ _ faults E HI) as HS. apply recover_spec in E as [Hp Ha].
    destruct r as [a|e]; cbn [fst snd].
    + destruct HS as [HI' _]. destruct (Ha a eq_refl) as (_&x&->&Hx).
      apply agreed_world; [eapply steps_inv; [exact HI'|by apply on_start_steps]|].
      eapply steps_agreed; [exact HI'|by apply on_start_steps|]. cbn. rw app_nil_r.
      split; [apply restarted_old| |apply HA]. intros b Hb. apply bound_to_restarted.
      by destruct (Hx _ (wa_stored _ _ HA b Hb)).
    + rw app_nil_r. split; [|done|apply HA]. intros b Hb. apply Hp; [cbn; lia|by apply HA].
  - destruct HI as [HG Hd]. pose proof (inv_any _ _ faults [] HG Hd) as HI'.
    apply agreed_world; [by apply handle_inv|]. eapply steps_agreed; [exact HI'|by apply handle_steps|].
    cbn. rw app_nil_r. by apply HA.
Qed.

Lemma world_run_agreed l w events :
  WInv w → WAgreed l w → WAgreed (l ++ opened (sends w events)) (world_run w events).
Proof.
  revert l w. induction events as [|event events IH]; intros l w HI HA; [by rw app_nil_r|].
  cbn [sends]. rw opened_app assoc. apply IH; [by apply world_step_inv|by apply world_step_agreed].
Qed.

(** C9. Whatever the authorities of a namespace ever tell about one incarnation of a
    stream is the same. *)
Theorem endpoints_agree events a b target target' epoch epoch' request_id request_id' :
  (target, DirectoryReply (mkOut request_id epoch (StreamOpened (inl a)))) ∈ sends world_new events →
  (target', DirectoryReply (mkOut request_id' epoch' (StreamOpened (inl b)))) ∈ sends world_new events →
  m_incarnation a = m_incarnation b → a = b.
Proof.
  intros Ha Hb. assert (HA : WAgreed ([] ++ opened (sends world_new events)) (world_run world_new events)).
  { apply world_run_agreed; [by apply reachable_inv; exists []|]. split; [|done|]; intros ? *; set_solver. }
  apply (wa_agree _ _ HA); apply list_elem_of_omap; eauto.
Qed.

End Agree.
