(* ===== verification/NamespaceProgress.v ===== *)
(** * Nobody waits for ever

    Retirements and displacements are sent over a transport that may lose them.  The tick sends them
    again: a retired source that can be reached is told within as many ticks as the queue has batches
    before it, and a displaced endpoint at every tick, by this authority and by every later one, until it
    acknowledges. *)

From S2P Require Import Prelude LogicalPath NamespaceStore NamespaceDirectory NamespaceMoves NamespaceInv.
From S2P Require Import NamespaceRefine NamespaceWorld NamespaceSafety.
#[local] Open Scope N_scope.

Section Progress.
Context {F : NamespaceFormat}.

(** ** What a handler leaves in the queue *)

Lemma step_sent msg s s' : step msg s s' → ∃ l, sent s' = sent s ++ l.
Proof. destruct 1; cbn; [by eexists|by exists []; rw app_nil_r..|by eexists]. Qed.

Lemma steps_sent_mono msg s s' x : rtc (step msg) s s' → x ∈ sent s → x ∈ sent s'.
Proof.
  induction 1 as [|s s1 s' H1 _ IH]; [done|]. intros Hx. apply IH.
  apply step_sent in H1 as [l ->]. set_solver.
Qed.

Lemma move_routes msg d d' : move msg d d' → routes_watched d' = routes_watched d.
Proof. by destruct 1. Qed.

Lemma move_queue msg d d' :
  move msg d d' → msg ≠ RetryRetirements → ∃ l, retirement_retry_queue d' = retirement_retry_queue d ++ l.
Proof.
  intros Hm Hmsg. destruct Hm; cbn; try (by exists []; rw app_nil_r); by eexists.
Qed.

Lemma move_pending msg d d' a :
  move msg d d' → msg ≠ SourceRetired a → a ∈ pending_retirements d → a ∈ pending_retirements d'.
Proof.
  intros Hm Hmsg Ha. destruct Hm; cbn; try done; try (apply elem_of_union; by right).
  apply elem_of_difference. split; [done|]. intros ->%elem_of_singleton. by subst.
Qed.

(** The source waits behind at most [k] others. *)
Definition ahead (a : ActorAddress) (k : nat) (d : DataDirectoryActor) : Prop :=
  a ∈ pending_retirements d
  ∧ ∃ l1 l2, retirement_retry_queue d = l1 ++ a :: l2 ∧ (length l1 ≤ k)%nat.

Lemma steps_ahead msg s s' a k :
  rtc (step msg) s s' → msg ≠ RetryRetirements → msg ≠ SourceRetired a → ahead a k (dir s) →
  ahead a k (dir s') ∧ routes_watched (dir s') = routes_watched (dir s).
Proof.
  intros Hs Hm1 Hm2. induction Hs as [|s s1 s' H1 _ IH]; [done|]. intros Ha.
  assert (ahead a k (dir s1) ∧ routes_watched (dir s1) = routes_watched (dir s)) as [Ha1 <-]; [|by apply IH].
  destruct H1 as [|d Hm _ _| |d ? ? ? Hm _ _ _]; try done; cbn; (split; [|by eapply move_routes]);
    destruct Ha as [Hp (l1&l2&Hq&Hk)]; (split; [by eapply move_pending|]);
    destruct (move_queue _ _ _ Hm Hm1) as [lq ->]; exists l1, (l2 ++ lq); by rw Hq -app_assoc.
Qed.

(** ** A tick *)

Definition reaches (env : Env) (d : DataDirectoryActor) (a : ActorAddress) : Prop :=
  routes_watched d = false ∨ is_routable env a = true.

Definition told (a : ActorAddress) (l : list (ActorAddress * Message)) : Prop :=
  ∃ reply_to, (a, Retire reply_to) ∈ l.

(** The loop tells the source, or has sent the rest of its batch to sources before it. *)
Lemma retry_queue_ahead env a s examine n l1 l2 :
  a ∈ pending_retirements (dir s) → reaches env (dir s) a →
  retirement_retry_queue (dir s) = l1 ++ a :: l2 → (length l1 < examine)%nat →
  let s' := retry_queue env s examine n in
  told a (sent s')
  ∨ (∃ l1' l2', retirement_retry_queue (dir s') = l1' ++ a :: l2'
       ∧ (length l1' + (RETIREMENT_RETRY_BATCH - n) ≤ length l1)%nat
       ∧ a ∈ pending_retirements (dir s')).
Proof.
  intros Ha Hr. cbv zeta. revert s n l1 l2 Ha Hr.
  induction examine as [|examine IH]; intros s n l1 l2 Ha Hr Hq Hlen; [lia|]. cbn [retry_queue].
  case_bool_decide as Hn.
  2: { right. exists l1, l2. split_and!; [done| |done]. lia. }
  destruct l1 as [|x l1]; cbn in Hq; rw Hq.
  - left. rw bool_decide_true //=. rw /routes_watched /=.
    assert ((routes_watched (dir s) && negb (is_routable env a)) = false) as Hsend.
    { destruct Hr as [-> | ->]; [done|apply andb_false_r]. }
    rw /routes_watched in Hsend. rw Hsend. exists (Some (self_addr env)).
    eapply steps_sent_mono; [apply retry_queue_steps|]. cbn. set_solver.
  - cbn in Hlen. case_bool_decide as Hx; cbn [negb].
    + set (s1 := with_dir s _). destruct (routes_watched (dir s1) && _).
      * destruct (IH s1 n l1 (l2 ++ [x]) Ha Hr) as [?|(l1'&l2'&Hq'&Hl&?)];
          [by cbn; rw -app_assoc|lia|by left|]. right. exists l1', l2'. split_and!; [done|rw length_cons; lia|done].
      * destruct (IH (send s1 x (Retire (Some (self_addr env)))) (S n) l1 (l2 ++ [x]) Ha Hr)
          as [?|(l1'&l2'&Hq'&Hl&?)]; [by cbn; rw -app_assoc|lia|by left|].
        right. exists l1', l2'. split_and!; [done|rw length_cons; lia|done].
    + destruct (IH (with_dir s (set_queue (dir s) (l1 ++ a :: l2))) n l1 l2 Ha Hr)
        as [?|(l1'&l2'&Hq'&Hl&?)]; [done|lia|by left|].
      right. exists l1', l2'. split_and!; [done|rw length_cons; lia|done].
Qed.

Lemma tick_ahead env s a k :
  Inv s → ahead a k (dir s) → reaches env (dir s) a →
  let s' := retry_retirements env s in
  told a (sent s') ∨ ((RETIREMENT_RETRY_BATCH ≤ k)%nat ∧ ahead a (k - RETIREMENT_RETRY_BATCH) (dir s')).
Proof.
  intros HI Ha Hr. cbv zeta. rw /retry_retirements.
  set (s1 := foldl _ _ _). set (calm := RetirementRouteChanged 0).
  assert (H1 : rtc (step calm) s s1) by apply foldl_steps, retain_displacement_steps.
  destruct (steps_ahead calm _ _ a k H1 ltac:(done) ltac:(done) Ha) as [[Hp (l1&l2&Hq&Hk)] Hw].
  destruct (retry_queue_ahead env a s1 (length (retirement_retry_queue (dir s1))) 0 l1 l2)
    as [[r Htold]|(l1'&l2'&Hq'&Hl&Hp')]; [done|by rw /reaches Hw|done|rw Hq length_app /=; lia|..];
    set (s2 := retry_queue _ _ _ _) in *.
  all: assert (HI2 : Inv s2) by (eapply steps_inv; [|apply retry_queue_steps]; by eapply steps_inv).
  - left. exists r. eapply steps_sent_mono; [by apply (resume_steps calm)|done].
  - right. rw Nat.sub_0_r in Hl. split; [lia|].
    apply (steps_ahead calm s2 _ a (k - RETIREMENT_RETRY_BATCH)); [by apply resume_steps|done..|].
    split; [done|]. exists l1', l2'. split; [done|lia].
Qed.

(** ** Retired sources are told *)

Definition is_tick (event : Event) : bool :=
  match event with Deliver _ _ RetryRetirements => true | _ => false end.

Fixpoint ticks (events : list Event) : nat :=
  match events with [] => 0 | event :: events => (if is_tick event then 1 else 0) + ticks events end%nat.

(** Messages among which the source does not confirm, and at the ticks of which it can be reached. *)
Definition reachable_at (a : ActorAddress) (event : Event) : Prop :=
  match event with
  | Deliver env _ RetryRetirements => is_routable env a = true
  | Deliver _ _ msg => msg ≠ SourceRetired a
  | _ => False
  end.

Lemma deliver_ahead w d env faults msg a k :
  reachable w → running w = Some d → ahead a k d → reachable_at a (Deliver env faults msg) →
  ∃ d', running (world_step w (Deliver env faults msg)).1 = Some d'
    ∧ (told a (world_step w (Deliver env faults msg)).2
       ∨ if is_tick (Deliver env faults msg)
         then (RETIREMENT_RETRY_BATCH ≤ k)%nat ∧ ahead a (k - RETIREMENT_RETRY_BATCH) d'
         else ahead a k d').
Proof.
  intros Hw Hr Ha Hev. destruct (running_steps w d env faults msg Hw Hr) as (s&Hs&HI&Hh&E). rw E.
  exists (dir s). split; [done|]. cbn [fst snd].
  destruct (decide (is_tick (Deliver env faults msg) = true)) as [Ht|Ht].
  - destruct msg; try done. rw Hh. apply (tick_ahead env _ a k HI Ha). by right.
  - assert (msg ≠ RetryRetirements ∧ msg ≠ SourceRetired a) as [H1 H2] by by destruct msg.
    destruct (steps_ahead _ _ _ a k Hs H1 H2 Ha) as [Ha' _]. right. by destruct msg.
Qed.

(** A source that waits to be told is told within as many ticks as its queue has
    batches, whatever else the directory does, when it can be reached at them. *)
Theorem retired_source_is_told w d a events :
  reachable w → running w = Some d → a ∈ pending_retirements d →
  Forall (reachable_at a) events →
  (length (retirement_retry_queue d) ≤ RETIREMENT_RETRY_BATCH * ticks events)%nat →
  told a (sends w events).
Proof.
  intros Hw Hr Ha Hev Hlen.
  assert (Hahead : ∃ k, ahead a k d ∧ (k < RETIREMENT_RETRY_BATCH * ticks events)%nat).
  { pose proof (v_queue _ (g_vol _ (reachable_running _ _ Hw Hr)) _ Ha) as Hin.
    apply list_elem_of_split in Hin as (l1&l2&Hq). exists (length l1). split; [split; [done|by exists l1, l2]|].
    rw Hq length_app length_cons in Hlen. unfold RETIREMENT_RETRY_BATCH in *. lia. }
  clear Ha Hlen. destruct Hahead as (k&Hk&Hlen). revert w d k Hw Hr Hk Hlen.
  induction Hev as [|event events Hev _ IH]; intros w d k Hw Hr Hk Hlen; [cbn in Hlen; lia|].
  destruct event as [|env faults msg| |]; try done.
  destruct (deliver_ahead w d env faults msg a k Hw Hr Hk Hev) as (d'&Hr'&[[r Htold]|Hrest]).
  { exists r. cbn [sends]. set_solver. }
  assert (Hw' : reachable (world_step w (Deliver env faults msg)).1).
  { exact (reachable_run _ [Deliver env faults msg] Hw). }
  cbn [ticks] in Hlen.
  assert (told a (sends (world_step w (Deliver env faults msg)).1 events)) as [r Htold].
  { destruct (is_tick _).
    - destruct Hrest as [Hb Hrest]. eapply IH; [done..|]. unfold RETIREMENT_RETRY_BATCH in *. lia.
    - eapply IH; [done..|]. lia. }
  exists r. cbn [sends]. set_solver.
Qed.

(** ** Displaced endpoints are told *)

(** The directory owes [e] a displacement that it has not acknowledged; so does every snapshot that a
    restart may find. *)
Definition owes (e : ActorAddress) (d : DataDirectoryActor) : Prop :=
  ∃ i, pending_stream_displacements d !! e = Some (mkDisplacement i false).
Definition owed (e : ActorAddress) (x : NamespaceSnapshot) : Prop := ∃ i, (e, i) ∈ stream_retirements x.

Lemma move_owed msg d d' e : Good d → move msg d d' → owes e d → owed e (snapshot d').
Proof.
  intros HG Hm [i Hi].
  assert (Hold : owed e (snapshot d)).
  { exists i. apply (v_displaced _ (g_vol _ HG)). eauto. }
  assert (Hdis : ∀ j es, owed e (displaced_snapshot j es (snapshot d))).
  { intros j es. destruct Hold as [i' Hi']. destruct (decide (e ∈ es)).
    - exists j. apply displaced_in. by left.
    - exists i'. apply displaced_in. by right. }
  destruct Hm; try exact Hold; try apply Hdis.
  destruct Hold as [i' Hi']. exists i'. cbn. apply list_elem_of_filter. split; [|done]. cbn. intros <-.
  rw H in Hi. injection Hi as ->. done.
Qed.

Lemma owes_owed e d : Good d → owes e d → owed e (snapshot d).
Proof. intros HG [i Hi]. exists i. apply (v_displaced _ (g_vol _ HG)). eauto. Qed.

Lemma steps_owed msg s s' e :
  Inv s → rtc (step msg) s s' →
  (owes e (dir s) → recoverable (owed e) (disk s)) → owes e (dir s') → recoverable (owed e) (disk s').
Proof.
  intros HI Hs. revert HI. induction Hs as [|s s1 s' H1 _ IH]; intros HI Hd; [done|].
  assert (HI1 := step_inv _ _ _ HI H1). apply IH; [done|clear IH]. intros [i Hi].
  destruct H1 as [|d Hm _ Ha|d ? ? Hm Hw|d ? ? l Hm Hw He _]; cbn in *.
  - apply Hd. by exists i.
  - apply Hd. destruct (Ha _ _ Hi) as [?|[r []%not_elem_of_nil]]. by exists i.
  - apply Hw; [|apply Hd; by exists i]. eapply move_owed; [apply HI|done|by exists i].
  - eapply recoverable_impl; [|exact He]. intros x <-. apply owes_owed; [apply HI1|by exists i].
Qed.

Definition WOwed (w : World) : Prop :=
  ∀ e d, running w = Some d → owes e d → recoverable (owed e) (stored w).

Lemma world_step_owed w event : WInv w → WOwed w → WOwed (world_step w event).1.
Proof.
  intros HI HO e d'. rw /WInv in HI. rw /world_step.
  destruct event as [env error fault retry rec faults|env faults msg| |choice cut keep];
    destruct (running w) as [d|] eqn:Hr; cbn; rw ?Hr; try done; try (by intros [= <-]; apply HO).
  - destruct (recover _ _ _ _ _ _) as [r d1] eqn:E.
    pose proof (start_spec _ _ _ _ _ _ _ _ faults E HI) as HS. destruct r as [a|]; [|done].
    destruct HS as [HI' He]. cbn. intros [= <-]. eapply steps_owed; [exact HI'|by apply on_start_steps|].
    cbn. intros Ho. eapply recoverable_impl; [|exact He]. intros x <-. apply owes_owed; [apply HI'|done].
  - destruct HI as [HG Hd]. intros [= <-]. eapply steps_owed; [by apply inv_any|apply handle_steps; by apply inv_any|].
    cbn. by apply HO.
Qed.

Lemma reachable_owed w : reachable w → WOwed w.
Proof.
  intros [events ->]. assert (H : ∀ w, WInv w → WOwed w → WOwed (world_run w events)).
  { induction events as [|event events IH]; intros w HI HO; [done|]. apply IH; [by apply world_step_inv|by apply world_step_owed]. }
  apply H; [by apply reachable_inv; exists []|done].
Qed.

Lemma recovered_unacknowledged (l : list (ActorAddress * StreamIncarnation)) e x :
  foldl (λ m (y : ActorAddress * StreamIncarnation), <[y.1 := mkDisplacement y.2 false]> m)
    (∅ : gmap ActorAddress PendingStreamDisplacement) l !! e = Some x → d_acknowledged x = false.
Proof.
  induction l as [|y l IH] using rev_ind; [done|]. rw foldl_app /= lookup_insert.
  case_decide; [by intros [= <-]|done].
Qed.

Lemma owes_keeper e :
  keeper (λ msg, ∀ i, msg ≠ StreamDisplaced e i) (λ _, True) (owed e) (owes e).
Proof.
  split; [|done| |done].
  - intros msg d d' Hmsg HG Ho Hm. split; [|by eapply move_owed]. destruct Ho as [i Hi].
    destruct Hm; try (by exists i); cbn.
    + destruct (decide (endpoint = e)) as [->|]; [exists incarnation; cbn; by rw lookup_insert_eq|].
      exists i. cbn. by rw lookup_insert_ne.
    + rw /owes /= displaced_lookup. case_decide; [by eexists|by exists i].
    + exists i. cbn. rw lookup_insert_ne; [|done]. intros ->. by apply (Hmsg (d_incarnation pending)).
    + exists i. cbn. rw lookup_delete_ne; [|done]. intros ->. rw Hi in H. by injection H as <-.
  - intros env retry rec x _ Hwf [i Hi]. exists i. cbn.
    destruct (proj2 (recovered_displacements _ e i (wf_displaced _ Hwf)) Hi) as [b Hb].
    pose proof (recovered_unacknowledged _ _ _ Hb) as Hack. cbn in Hack. by subst.
Qed.

(** Every tick sends the displacements that are owed. *)
Lemma retain_other env s e e' :
  e' ≠ e →
  pending_stream_displacements (dir (retain_displacement env s e')) !! e
  = pending_stream_displacements (dir s) !! e.
Proof.
  intros Hne. rw /retain_displacement. destruct (pending_stream_displacements (dir s) !! e') as [p|]; [|done].
  rw /displacement_retry. destruct (d_acknowledged p); [|done]. cbn [negb].
  destruct (store_commit _ _) as [r s1] eqn:E.
  apply store_commit_spec in E as (disk'&rest&_&[(err&->&->)|(->&->&_)]); [done|].
  cbn. by rw lookup_delete_ne.
Qed.

Lemma retain_sends env s e i l :
  e ∈ l → pending_stream_displacements (dir s) !! e = Some (mkDisplacement i false) →
  (e, Displaced i (Some (self_addr env))) ∈ sent (foldl (retain_displacement env) s l).
Proof.
  revert s. induction l as [|e' l IH]; intros s Hin Hi; [by apply not_elem_of_nil in Hin|]. cbn [foldl].
  destruct (decide (e' = e)) as [->|Hne].
  - eapply (steps_sent_mono RetryRetirements); [apply foldl_steps, retain_displacement_steps|].
    rw /retain_displacement Hi /=. set_solver.
  - apply IH; [set_solver|]. by rw retain_other.
Qed.

Lemma tick_sends env s e i :
  Inv s → pending_stream_displacements (dir s) !! e = Some (mkDisplacement i false) →
  (e, Displaced i (Some (self_addr env))) ∈ sent (retry_retirements env s).
Proof.
  intros HI Hi. rw /retry_retirements. set (s1 := foldl _ _ _).
  assert (H1 : rtc (step RetryRetirements) s s1) by apply foldl_steps, retain_displacement_steps.
  eapply (steps_sent_mono RetryRetirements); [apply resume_steps; eapply steps_inv; [|apply retry_queue_steps]; by eapply steps_inv|].
  eapply steps_sent_mono; [apply retry_queue_steps|]. apply retain_sends; [|done].
  rw hash_order_all. apply list_elem_of_fmap. exists (e, mkDisplacement i false). split; [done|].
  by apply elem_of_map_to_list.
Qed.

(** A displaced endpoint is told again at every tick until it acknowledges, by this authority and by
    every later one. *)
Theorem displaced_until_acknowledged w d e events d' :
  reachable w → running w = Some d → owes e d →
  Forall (delivers (λ msg, ∀ i, msg ≠ StreamDisplaced e i) (λ _, True)) events →
  running (world_run w events) = Some d' →
  ∃ i, pending_stream_displacements d' !! e = Some (mkDisplacement i false)
    ∧ ∀ env faults,
        (e, Displaced i (Some (self_addr env)))
        ∈ (world_step (world_run w events) (Deliver env faults RetryRetirements)).2.
Proof.
  intros Hw Hr Ho Hev Hr'.
  assert (Hk : kept (owed e) (owes e) (world_run w events)).
  { eapply world_run_kept; [apply owes_keeper|done|by apply reachable_inv|].
    split; [by eapply reachable_owed|by rw Hr]. }
  destruct Hk as [_ Hk]. rw Hr' in Hk. destruct Hk as [i Hi]. exists i. split; [done|]. intros env faults.
  destruct (running_steps _ d' env faults RetryRetirements (reachable_run _ events Hw) Hr')
    as (s&_&HI&->&->). by apply tick_sends.
Qed.

End Progress.
