(* ===== verification/NamespaceSample.v ===== *)
(** * Runs of the namespace

    Concrete histories, on a store that writes snapshots as they are: they show that what the theorems
    assume can hold, and what a restart does to the streams in use. *)

From S2P Require Import Prelude LogicalPath NamespaceStore NamespaceDirectory NamespaceMoves NamespaceInv.
From S2P Require Import NamespaceRefine NamespaceWorld NamespaceOnce NamespaceSafety NamespaceEffect NamespaceAgree NamespaceProgress.
#[local] Open Scope N_scope.

#[local] Instance plain_format : NamespaceFormat := {|
  Bytes := NamespaceSnapshot; to_vec := inl; from_slice := inl;
  reads_back s bytes := λ H, f_equal inl (eq_sym (inl_inj _ _ H));
|}.

Definition env0 : Env := mkEnv 1 (λ _, true) (λ _, true) (λ l, l) (λ l, reflexivity l).

Definition path_a : DataPath := exist _ "/run/a"%string eq_refl.
Definition path_b : DataPath := exist _ "/run/b"%string eq_refl.

Definition recoverer0 : Recoverer := λ _ recovery _,
  match recovery with FromActor actor node _ => inl (actor, node) | FromFile _ => inr (SourceRecoveryFailed "gone") end.
Definition start0 : Event := Start env0 None None (Some (mkRetry false)) recoverer0 [].

Definition register_a (request_id source id : N) : DataDirectoryIn :=
  Register request_id path_a source 7 10 (FromActor source 7 None) id None 200.

Definition open_a (request_id : N) (role : StreamRole) (endpoint id : N) (replace : bool) : DataDirectoryIn :=
  OpenStream (mkOpen request_id path_a role endpoint replace true None [] id 200).

Definition deliver (msg : DataDirectoryIn) : Event := Deliver env0 [] msg.

Definition run0 (messages : list DataDirectoryIn) : World :=
  world_run world_new (start0 :: (deliver <$> messages)).

Definition the_dir (w : World) : DataDirectoryActor :=
  default (restarted env0 None recoverer0 default_snapshot) (running w).

Lemma run0_reachable messages : reachable (run0 messages).
Proof. by eexists. Qed.

(** Whether a directory runs can be computed without its state being written out. *)
Lemma runs w : bool_decide (is_Some (running w)) = true → running w = Some (the_dir w).
Proof. intros H%bool_decide_eq_true. rw /the_dir. by destruct (running w); [|destruct H]. Qed.

Lemma the_only w d : running w = Some d → d = the_dir w.
Proof. by rw /the_dir => ->. Qed.

Ltac runs := apply runs; vm_compute; reflexivity.

(** ** The theorems at work *)

Lemma mutation_done_once_witness :
  let w := run0 [] in
  let w' := world_run (world_step w (deliver (register_a 1 100 50))).1 [Stop; start0] in
  let (w'', sent2) := world_step w' (deliver (register_a 2 100 50)) in
  last sent2 = answer_to (register_a 2 100 50) 2 (inl 1)
  ∧ ∃ d'', running w'' = Some d'' ∧ same_names (snapshot (the_dir w')) (snapshot d'').
Proof.
  exact (mutation_done_once (run0 []) (the_dir (run0 [])) env0 [] (register_a 1 100 50) 50
    (MRegister path_a 10 (FromActor 100 7 None)) (inl 1) [Stop; start0]
    (the_dir (world_run (world_step (run0 []) (deliver (register_a 1 100 50))).1 [Stop; start0]))
    env0 [] (register_a 2 100 50) (run0_reachable []) ltac:(runs) eq_refl
    ltac:(by vm_compute) (ex_intro _ (Committed 1) eq_refl) ltac:(runs) eq_refl).
Defined.


(** A stream of endpoints 31 and 32, one of which asks twice. *)
Definition pair_a : list DataDirectoryIn :=
  [open_a 1 Source 31 61 false; open_a 2 Sink 32 62 false; open_a 3 Source 31 61 false].
Definition match_a : StreamMatch := mkStreamMatch (mkIncarnation 1 1) 31 [] [] 32 1.

Lemma endpoints_agree_witness :
  let told := sends world_new (start0 :: (deliver <$> pair_a)) in
  told !! 0%nat = Some (200, DirectoryReply (mkOut 1 1 (StreamOpened (inl match_a))))
  ∧ told !! 2%nat = Some (200, DirectoryReply (mkOut 3 1 (StreamOpened (inl match_a))))
  ∧ match_a = match_a.
Proof.
  assert (H0 : sends world_new (start0 :: (deliver <$> pair_a)) !! 0%nat
    = Some (200, DirectoryReply (mkOut 1 1 (StreamOpened (inl match_a))))) by by vm_compute.
  assert (H2 : sends world_new (start0 :: (deliver <$> pair_a)) !! 2%nat
    = Some (200, DirectoryReply (mkOut 3 1 (StreamOpened (inl match_a))))) by by vm_compute.
  split_and!; [exact H0|exact H2|].
  exact (endpoints_agree (start0 :: (deliver <$> pair_a)) match_a match_a 200 200 1 1 1 3
    (list_elem_of_lookup_2 _ _ _ H0) (list_elem_of_lookup_2 _ _ _ H2) eq_refl).
Defined.

Lemma namespace_answers_witness :
  lookup_node (the_dir (run0 [register_a 1 100 50])) path_a = inl (mkNamespaceNode Blob 1 false)
  ∧ lookup_node (the_dir (run0 [register_a 1 100 50])) path_a
    = spec_lookup (the_dir (run0 [register_a 1 100 50])) path_a.
Proof.
  split; [by vm_compute|].
  destruct (namespace_answers (run0 [register_a 1 100 50]) (the_dir (run0 [register_a 1 100 50])) path_a
    (run0_reachable _) ltac:(runs)) as [H _]. exact H.
Defined.

Lemma handler_refines_witness :
  ∃ d', running (world_step (run0 []) (deliver (register_a 1 100 50))).1 = Some d'
    ∧ rtc (ns_step (the_dir (run0 [])) (register_a 1 100 50)) (names (snapshot (the_dir (run0 [])))) (names (snapshot d')).
Proof.
  exact (handler_refines (run0 []) (the_dir (run0 [])) env0 [] (register_a 1 100 50) (run0_reachable [])
    ltac:(runs)).
Defined.

(** An open that a late cancellation meets, before its peer comes. *)
Lemma cancelled_open_never_joins_witness :
  let w := run0 [open_a 1 Source 31 61 false] in
  let out := world_step w (deliver (CancelStream 4 path_a 61 (Some 200))) in
  has_operation (streams (the_dir (world_run out.1 (deliver <$> pair_a))) !! path_a) 61 = false.
Proof.
  set (w := run0 [open_a 1 Source 31 61 false]).
  apply (cancelled_open_never_joins w (the_dir w) env0 [] 4 path_a 61 200 (deliver <$> pair_a)).
  - apply run0_reachable.
  - runs.
  - intros a H. vm_compute in H. done.
  - by vm_compute.
  - runs.
Defined.

Lemma generation_never_returns_witness :
  let w1 := world_run (run0 pair_a) [deliver (CloseStream 5 path_a (mkIncarnation 1 1) 200)] in
  let w2 := world_run w1 [deliver (open_a 6 Source 31 63 false); deliver (open_a 7 Sink 32 64 false)] in
  absent (mkIncarnation 1 1) (the_dir w2).
Proof.
  destruct (generation_never_returns (run0 pair_a) (the_dir (run0 pair_a)) path_a (mkActive match_a 61 62)
    [deliver (CloseStream 5 path_a (mkIncarnation 1 1) 200)]
    [deliver (open_a 6 Source 31 63 false); deliver (open_a 7 Sink 32 64 false)]
    (the_dir (world_run (world_run (run0 pair_a) [deliver (CloseStream 5 path_a (mkIncarnation 1 1) 200)])
      [deliver (open_a 6 Source 31 63 false); deliver (open_a 7 Sink 32 64 false)]))) as [H _].
  - apply run0_reachable.
  - runs.
  - by vm_compute.
  - intros d1 H q st Hq. rw (the_only _ _ H) in Hq. 
    assert (E : size (streams (the_dir (world_run (run0 pair_a)
      [deliver (CloseStream 5 path_a (mkIncarnation 1 1) 200)]))) = 0%nat) by (vm_compute; reflexivity).
    apply map_size_empty_inv in E. rw E in Hq. done.
  - runs.
  - exact H.
Defined.


Lemma recoverer0_honest a : honest_recoverer a recoverer0.
Proof.
  intros p recovery length. destruct recovery as [file|actor node owner]; cbn; rw /of_actor.
  - split; [by intros [? ?]|by intros (?&?&?)].
  - split; [intros [n [= -> ->]]; by eexists _, _|intros (n&o&[= -> -> ->]); by eexists].
Qed.

Lemma register_honest a request_id source id : honest a (register_a request_id source id).
Proof.
  cbn. rw /of_actor. split; [intros ->; by eexists _, _|intros (n&o&H); congruence].
Qed.

(** Source 100 is replaced by 101 at its path. *)
Definition replaced_a : list DataDirectoryIn := [register_a 1 100 50; register_a 2 101 51].

Lemma no_source_forgotten_witness :
  let history := start0 :: (deliver <$> replaced_a) ++ [Stop; start0] in
  let w := world_run world_new history in
  let events := [deliver (register_a 3 102 52); deliver (Unregister 4 path_a 53 200)] in
  known_source 100 (the_dir w) ∧ known_source 100 (the_dir (world_run w events)).
Proof.
  set (history := start0 :: (deliver <$> replaced_a) ++ [Stop; start0]).
  set (w := world_run world_new history).
  set (events := [deliver (register_a 3 102 52); deliver (Unregister 4 path_a 53 200)]).
  destruct (no_source_forgotten history w (the_dir w) 100 eq_refl ltac:(runs)) as [Hrun Hhist].
  assert (H : known_source 100 (the_dir w)).
  { apply Hhist.
    - repeat apply Forall_cons_2; try apply Forall_nil_2; try done;
        first [apply recoverer0_honest|apply register_honest].
    - exists 50, path_a, 10, (FromActor 100 7 None), 1. split; [by vm_compute|by eexists _, _]. }
  split; [exact H|]. apply (Hrun H events); [by repeat constructor|runs].
Defined.

Lemma retired_source_is_told_witness :
  told 100 (sends (run0 replaced_a) [deliver RetryRetirements]).
Proof.
  apply (retired_source_is_told (run0 replaced_a) (the_dir (run0 replaced_a))).
  - apply run0_reachable.
  - runs.
  - apply (bool_decide_unpack _). by vm_compute.
  - by repeat constructor.
  - apply Nat.leb_le. by vm_compute.
Defined.

(** A stream of 31 and 32 in the place of the blob of 100, and a copy of the registration of that. *)
Definition overwritten_a : list DataDirectoryIn :=
  [register_a 1 100 50; open_a 2 Source 31 61 true; open_a 3 Sink 32 62 true].
Definition match_b : StreamMatch := mkStreamMatch (mkIncarnation 1 2) 31 [] [] 32 2.


(** ** After a restart *)

(** A directory that starts again has forgotten the streams in use: one is replaced without a fence, and
    its endpoints are not told. *)
Theorem restart_forgets_streams :
  let w := world_run (run0 pair_a) [Stop; start0] in
  let '(w', sent') := world_step w (deliver (open_a 4 Source 33 63 true)) in
  is_Some (streams (the_dir (run0 pair_a)) !! path_a)
  ∧ streams (the_dir w') !! path_a
    = Some (Pending (mkPending Source 33 63 4 [] 200 2 None))
  ∧ stream_replacement_fences (the_dir w') !! path_a = None ∧ sent' = [].
Proof. vm_compute. split_and!; try done. by eexists. Qed.
