(* ===== verification/NamespaceClient.v ===== *)
(** * The client of the namespace

    [NamespaceClientActor] of [namespace.rs]: the proxy through which the actors of a node ask the
    directory.  It numbers the requests, sends them again at every tick to the directory that is known
    then, forwards the answers, and fails what is too old.  A stream open that is given up is retracted
    by a request of the proxy's own, which never expires. *)

From S2P Require Import Prelude LogicalPath NamespaceStore NamespaceDirectory.
#[local] Open Scope N_scope.

(** ** Messages *)

Module Req.
Inductive NamespaceRequest :=
| Register (path : DataPath) (source : ActorAddress) (source_node length : N)
    (recovery : SourceRecovery) (operation_id : OperationId) (reservation : option OperationId)
| Resolve (path : DataPath)
| Lookup (path : DataPath)
| ReserveBlob (path : DataPath) (operation_id : OperationId)
| ReleaseBlobReservation (path : DataPath) (operation_id : OperationId)
| Unregister (path : DataPath) (operation_id : OperationId)
| Rename (source destination : DataPath) (replace : bool) (operation_id : OperationId)
| OpenStream (path : DataPath) (role : StreamRole) (endpoint : ActorAddress) (descriptor : list N)
    (replace ensure : bool) (expected_revision : option N) (operation_id : OperationId)
| CancelStream (path : DataPath) (operation_id : OperationId)
| CloseStream (path : DataPath) (incarnation : StreamIncarnation).
End Req.
Abbreviation NamespaceRequest := Req.NamespaceRequest.

Inductive NamespaceClientIn :=
| Request (request : NamespaceRequest) (reply_to : ActorAddress)
| Cancel (reply_to : ActorAddress)
| CancelBlobReservation (path : DataPath) (operation_id : OperationId) (reply_to : ActorAddress)
| FromDirectory (reply : DataDirectoryOut)  (** [DirectoryReply] *)
| TransferFailed (destination : ActorAddress) (transfer_id : N) (reason : string)
| Retry.

(** What the proxy sends. *)
Inductive ClientOut :=
| ToDirectory (message : DataDirectoryIn)
| Answer (reply : DataDirectoryOut)
| BlobTransferFailed (transfer_id : N) (reason : string).

Record PendingRequest := mkPendingRequest {
  q_request : NamespaceRequest;
  q_reply_to : ActorAddress;
  q_enqueued : N;
}.

Record NamespaceClientActor := mkClient {
  request_deadline : N;
  next_request_id : N;
  pending : gmap DirectoryRequestId PendingRequest;
}.

(** The discovery, the clock, and the order in which the hash map is walked, at one message. *)
Record ClientEnv := mkClientEnv {
  current_directory : option ActorAddress;
  accepts_authority_epoch : N → bool;
  now : N;
  walk : list DirectoryRequestId → list DirectoryRequestId;
  walk_all l : walk l ≡ₚ l;
}.

Definition NAMESPACE_REQUEST_DEADLINE : N := 80 * 1000000000.

Definition new_with_deadline (deadline : N) : NamespaceClientActor := mkClient deadline 1 ∅.
Definition new : NamespaceClientActor := new_with_deadline NAMESPACE_REQUEST_DEADLINE.

(** [Instant::duration_since] is zero for an instant that is later. *)
Definition duration_since (later earlier : N) : N := later - earlier.

(** Retractions: requests that outlive their callers. *)
Definition retraction (request : NamespaceRequest) : bool :=
  match request with Req.CloseStream _ _ | Req.CancelStream _ _ => true | _ => false end.

Section Client.
Context (self : ActorAddress).

Definition with_pending (c : NamespaceClientActor) (m : gmap DirectoryRequestId PendingRequest)
    : NamespaceClientActor := mkClient (request_deadline c) (next_request_id c) m.

Definition message_of (request_id : DirectoryRequestId) (request : NamespaceRequest) : DataDirectoryIn :=
  match request with
  | Req.Register path source source_node length recovery operation_id reservation =>
      Register request_id path source source_node length recovery operation_id reservation self
  | Req.Resolve path => Resolve request_id path self
  | Req.Lookup path => Lookup request_id path self
  | Req.ReserveBlob path operation_id => ReserveBlob request_id path operation_id self
  | Req.ReleaseBlobReservation path operation_id =>
      ReleaseBlobReservation request_id path operation_id self
  | Req.Unregister path operation_id => Unregister request_id path operation_id self
  | Req.Rename source destination replace operation_id =>
      Rename request_id source destination replace operation_id self
  | Req.OpenStream path role endpoint descriptor replace ensure expected_revision operation_id =>
      OpenStream (mkOpen request_id path role endpoint replace ensure expected_revision descriptor
                    operation_id self)
  | Req.CancelStream path operation_id => CancelStream request_id path operation_id (Some self)
  | Req.CloseStream path incarnation => CloseStream request_id path incarnation self
  end.

Definition dispatch (env : ClientEnv) (request_id : DirectoryRequestId) (request : NamespaceRequest)
    : list (ActorAddress * ClientOut) :=
  match current_directory env with
  | None => []
  | Some directory => [(directory, ToDirectory (message_of request_id request))]
  end.

(** A client and what it has sent while it handles one message. *)
Definition Cl : Type := NamespaceClientActor * list (ActorAddress * ClientOut).

(** The end of [Request] and of [retract_stream_open]. *)
Definition enqueue (env : ClientEnv) (x : Cl) (next : N) (request : NamespaceRequest)
    (reply_to : ActorAddress) : Cl :=
  let '(c, l) := x in
  let request_id := next_request_id c in
  (mkClient (request_deadline c) next
     (<[request_id := mkPendingRequest request reply_to (now env)]> (pending c)),
   l ++ dispatch env request_id request).

Definition retract_stream_open (env : ClientEnv) (x : Cl) (open : DataPath * OperationId) : Cl :=
  match checked_succ (next_request_id x.1) with
  | None => x
  | Some next => enqueue env x next (Req.CancelStream open.1 open.2) self
  end.

Definition stream_open (request : NamespaceRequest) : option (DataPath * OperationId) :=
  match request with
  | Req.OpenStream path _ _ _ _ _ _ operation_id => Some (path, operation_id)
  | _ => None
  end.

(** The pending requests in the order of the hash map. *)
Definition pending_values (env : ClientEnv) (c : NamespaceClientActor) : list PendingRequest :=
  omap (λ request_id, pending c !! request_id) (walk env (map_to_list (pending c)).*1).

Definition cancelled_opens (env : ClientEnv) (c : NamespaceClientActor) (reply_to : ActorAddress)
    : list (DataPath * OperationId) :=
  omap (λ q, stream_open (q_request q))
    (filter (λ q, q_reply_to q = reply_to) (pending_values env c)).

(** The closure of [Cancel]'s [retain]. *)
Definition retain_cancelled (reply_to : ActorAddress) (q : PendingRequest) : option PendingRequest :=
  if negb (bool_decide (q_reply_to q = reply_to)) then Some q
  else if retraction (q_request q) then Some (mkPendingRequest (q_request q) self (q_enqueued q))
  else None.

Definition unavailable {A} : A + NamespaceError :=
  inr (DirectoryUnavailable "no namespace authority was discoverable within the request deadline").

Definition expired_reply (request_id : DirectoryRequestId) (request : NamespaceRequest) : DataDirectoryOut :=
  mkOut request_id 0
    (match request with
     | Req.Register _ _ _ _ _ _ _ => Registered unavailable
     | Req.Resolve _ => Resolved unavailable
     | Req.Lookup _ => LookedUp unavailable
     | Req.ReserveBlob _ _ => BlobReserved unavailable
     | Req.ReleaseBlobReservation _ _ => BlobReservationReleased unavailable
     | Req.Unregister _ _ => Unregistered unavailable
     | Req.Rename _ _ _ _ => Renamed unavailable
     | Req.OpenStream _ _ _ _ _ _ _ _ => StreamOpened unavailable
     | Req.CancelStream _ _ => StreamCancelled unavailable
     | Req.CloseStream _ _ => StreamClosed unavailable
     end).

Definition is_expired (env : ClientEnv) (c : NamespaceClientActor) (q : PendingRequest) : bool :=
  negb (retraction (q_request q)) && (request_deadline c <? duration_since (now env) (q_enqueued q)).

Definition expired (env : ClientEnv) (c : NamespaceClientActor) : list DirectoryRequestId :=
  filter (λ request_id, from_option (is_expired env c) false (pending c !! request_id) = true)
    (walk env (map_to_list (pending c)).*1).

Definition expire (env : ClientEnv) (x : Cl) (request_id : DirectoryRequestId) : Cl :=
  let '(c, l) := x in
  match pending c !! request_id with
  | None => x
  | Some q =>
      let x := (with_pending c (delete request_id (pending c)), l) in
      let '(c, l) :=
        match stream_open (q_request q) with
        | Some open => retract_stream_open env x open
        | None => x
        end in
      (c, l ++ [(q_reply_to q, Answer (expired_reply request_id (q_request q)))])
  end.

Definition dispatch_pending (env : ClientEnv) (c : NamespaceClientActor) : list (ActorAddress * ClientOut) :=
  flat_map (λ request_id, match pending c !! request_id with
                          | Some q => dispatch env request_id (q_request q)
                          | None => []
                          end) (walk env (map_to_list (pending c)).*1).

Definition handle (env : ClientEnv) (c : NamespaceClientActor) (message : NamespaceClientIn) : Cl :=
  match message with
  | Request request reply_to =>
      let request_id := next_request_id c in
      match checked_succ request_id with
      | None =>
          (c, [(reply_to, Answer (mkOut request_id 0
                 (Resolved (inr (Protocol "namespace client request IDs exhausted")))))])
      | Some next => enqueue env (c, []) next request reply_to
      end
  | Cancel reply_to =>
      let cancelled := cancelled_opens env c reply_to in
      foldl (retract_stream_open env)
        (with_pending c (omap (retain_cancelled reply_to) (pending c)), []) cancelled
  | CancelBlobReservation path operation_id reply_to =>
      (with_pending c (filter (λ x, q_reply_to x.2 ≠ reply_to) (pending c)),
       match current_directory env with
       | Some directory =>
           [(directory, ToDirectory (ReleaseBlobReservation 0 path operation_id self))]
       | None => []
       end)
  | FromDirectory reply =>
      if negb (accepts_authority_epoch env (out_authority_epoch reply)) then (c, [])
      else
        match pending c !! out_request_id reply with
        | Some q =>
            (with_pending c (delete (out_request_id reply) (pending c)), [(q_reply_to q, Answer reply)])
        | None => (c, [])
        end
  | TransferFailed destination transfer_id reason =>
      (c, [(destination, BlobTransferFailed transfer_id reason)])
  | Retry =>
      let '(c, l) := foldl (expire env) (c, []) (expired env c) in
      (c, l ++ dispatch_pending env c)
  end.

End Client.
