(* ===== verification/NamespaceRequests.v ===== *)
(** * Requests through the proxy

    What [NamespaceClientActor] owes its callers over any history of messages: a request is answered
    once, in bounded time, by the directory or by its deadline, and a stream open that is given up is
    retracted until the directory says that it is gone. *)

From S2P Require Import Prelude LogicalPath NamespaceStore NamespaceDirectory NamespaceRefine NamespaceClient.
#[local] Open Scope N_scope.

Section Requests.
Context (self : ActorAddress).
#[local] Abbreviation handle := (NamespaceClient.handle self).
#[local] Abbreviation Ev := (ClientEnv * NamespaceClientIn)%type.

Definition client_run (c : NamespaceClientActor) (events : list Ev) : NamespaceClientActor :=
  foldl (λ c event, (handle event.1 c event.2).1) c events.

Fixpoint client_sends (c : NamespaceClientActor) (events : list Ev) : list (ActorAddress * ClientOut) :=
  match events with
  | [] => []
  | (env, msg) :: events => (handle env c msg).2 ++ client_sends (handle env c msg).1 events
  end.

Definition client_reachable (c : NamespaceClientActor) : Prop :=
  ∃ deadline events, c = client_run (new_with_deadline deadline) events.

(** The answers to request [k]. *)
Definition answer_for (k : DirectoryRequestId) (x : ActorAddress * ClientOut)
    : option (ActorAddress * DataDirectoryOut) :=
  match x.2 with
  | Answer out => if out_request_id out =? k then Some (x.1, out) else None
  | _ => None
  end.
Definition answers (k : DirectoryRequestId) (l : list (ActorAddress * ClientOut))
    : list (ActorAddress * DataDirectoryOut) := omap (answer_for k) l.

Lemma answers_app k l l' : answers k (l ++ l') = answers k l ++ answers k l'.
Proof. apply omap_app. Qed.

Lemma answers_dispatch k env id request : answers k (dispatch self env id request) = [].
Proof. rw /dispatch. by destruct (current_directory env). Qed.

Lemma answers_dispatch_pending k env c : answers k (dispatch_pending self env c) = [].
Proof.
  rw /dispatch_pending. induction (walk env _) as [|id l IH]; [done|]. cbn [flat_map].
  rw answers_app IH app_nil_r. destruct (pending c !! id); [apply answers_dispatch|done].
Qed.

Lemma answers_one k target out :
  answers k [(target, Answer out)] = if out_request_id out =? k then [(target, out)] else [].
Proof. cbn. by destruct (out_request_id out =? k). Qed.

Lemma answers_number k L target out : (target, out) ∈ answers k L → out_request_id out = k.
Proof.
  intros ([t m]&_&H)%list_elem_of_omap. rw /answer_for /= in H. destruct m as [|reply|]; try done.
  by destruct (N.eqb_spec (out_request_id reply) k); [injection H as -> ->|].
Qed.

(** ** Numbers are used once *)

(** [L] is all that was sent. *)
Record Once (c : NamespaceClientActor) (L : list (ActorAddress * ClientOut)) : Prop := {
  on_fresh k : next_request_id c <= k → pending c !! k = None;
  on_range : next_request_id c <= u64_max;
  on_open k : is_Some (pending c !! k) → answers k L = [];
  on_new k : next_request_id c <= k → k < u64_max → answers k L = [];
  on_once k : k < u64_max → (length (answers k L) ≤ 1)%nat;
}.

Lemma once_open_range c L k : Once c L → is_Some (pending c !! k) → k < next_request_id c.
Proof.
  intros HO [q Hq]. destruct (N.lt_ge_cases k (next_request_id c)) as [|Hk]; [done|].
  apply (on_fresh _ _ HO) in Hk. congruence.
Qed.

(** Messages that are no answers, and fewer pending requests. *)
Lemma once_less c L l m :
  Once c L → (∀ k, answers k l = []) → (∀ k, is_Some (m !! k) → is_Some (pending c !! k)) →
  Once (with_pending c m) (L ++ l).
Proof.
  intros HO Hl Hm. split; cbn; [|apply HO|..]; intros k; rw ?answers_app ?Hl ?app_nil_r.
  - intros Hk. apply eq_None_not_Some. intros [q Hq]%Hm. rw (on_fresh _ _ HO) in Hq; done.
  - intros Hk. by apply HO, Hm.
  - apply HO.
  - apply HO.
Qed.

Lemma once_same c L l : Once c L → (∀ k, answers k l = []) → Once c (L ++ l).
Proof. intros HO Hl. pose proof (once_less c L l (pending c) HO Hl) as H. destruct c. by apply H. Qed.

Lemma once_enqueue env c L l next request reply_to :
  checked_succ (next_request_id c) = Some next → Once c (L ++ l) →
  let x := enqueue self env (c, l) next request reply_to in Once x.1 (L ++ x.2).
Proof.
  intros [-> Hn]%checked_succ_Some HO x. subst x. rw /enqueue assoc. split; cbn [fst snd next_request_id pending].
  - intros k Hk. rw lookup_insert_ne; [lia|]. apply (on_fresh _ _ HO). lia.
  - lia.
  - intros k. rw answers_app answers_dispatch app_nil_r lookup_insert. case_decide as E; [subst|apply HO].
    intros _. apply (on_new _ _ HO); [done|lia].
  - intros k Hk Hu. rw answers_app answers_dispatch app_nil_r. apply (on_new _ _ HO); lia.
  - intros k Hk. rw answers_app answers_dispatch app_nil_r. by apply HO.
Qed.

Lemma once_retract env c L l open :
  Once c (L ++ l) → let x := retract_stream_open self env (c, l) open in Once x.1 (L ++ x.2).
Proof.
  intros HO x. subst x. rw /retract_stream_open. destruct (checked_succ _) eqn:E; [|done].
  by apply once_enqueue.
Qed.

(** A pending request is answered. *)
Lemma once_answer c L k q out :
  Once c L → pending c !! k = Some q → out_request_id out = k →
  Once (with_pending c (delete k (pending c))) (L ++ [(q_reply_to q, Answer out)]).
Proof.
  intros HO Hq Hk. assert (Hr : k < next_request_id c) by (eapply once_open_range; eauto).
  split; cbn [with_pending next_request_id pending]; [|apply HO|..]; intros j; rw ?answers_app ?answers_one ?Hk.
  - intros Hj. rw lookup_delete. case_decide; [done|]. by apply HO.
  - rw lookup_delete. case_decide as E; [by intros []|]. intros Hj. rw (proj2 (N.eqb_neq _ _) E) app_nil_r.
    by apply HO.
  - intros Hj Hu. rw (proj2 (N.eqb_neq k j)); [lia|]. rw app_nil_r. by apply (on_new _ _ HO).
  - intros Hj. destruct (N.eqb_spec k j) as [->|]; [|rw app_nil_r; by apply HO].
    rw (on_open _ _ HO); [by eexists|]. done.
Qed.

(** The order of what is sent does not matter. *)
Lemma once_ext c L L' : (∀ k, k < u64_max → answers k L' = answers k L) → Once c L → Once c L'.
Proof.
  intros E HO. split; [apply HO|apply HO|..]; intros k.
  - intros Hk. pose proof (once_open_range _ _ _ HO Hk). pose proof (on_range _ _ HO). rw E; [lia|]. by apply HO.
  - intros Hk Hu. rw E //. by apply (on_new _ _ HO).
  - intros Hu. rw E //. by apply (on_once _ _ HO).
Qed.

Lemma once_expire env c L l k :
  Once c (L ++ l) → let x := expire self env (c, l) k in Once x.1 (L ++ x.2).
Proof.
  intros HO x. subst x. rw /expire. destruct (pending c !! k) as [q|] eqn:Hq; [|done].
  set (out := expired_reply k (q_request q)).
  pose proof (once_answer c (L ++ l) k q out HO Hq eq_refl) as H1. rw -assoc in H1.
  destruct (stream_open (q_request q)) as [open|]; [|done].
  pose proof (once_retract env _ L _ open H1) as H2.
  rw /retract_stream_open /= in H2 |- *. destruct (checked_succ (next_request_id c)) as [next|]; [|done].
  eapply once_ext; [|exact H2]. intros j _. cbn. by rw !answers_app answers_dispatch !app_nil_r.
Qed.

Lemma once_fold {A} (f : Cl → A → Cl) L x l :
  (∀ c l a, Once c (L ++ l) → Once (f (c, l) a).1 (L ++ (f (c, l) a).2)) →
  Once x.1 (L ++ x.2) → Once (foldl f x l).1 (L ++ (foldl f x l).2).
Proof.
  intros Hf. revert x. induction l as [|a l IH]; intros [c sent] HO; [done|]. by apply IH, Hf.
Qed.

Lemma once_handle env c L msg : Once c L → Once (handle env c msg).1 (L ++ (handle env c msg).2).
Proof.
  intros HO. assert (HO0 : Once c (L ++ [])) by by rw app_nil_r.
  destruct msg as [request reply_to|reply_to|path id reply_to|reply|dest id reason|]; cbn [NamespaceClient.handle].
  - destruct (checked_succ _) as [next|] eqn:E; [by apply once_enqueue|]. cbn.
    assert (u64_max <= next_request_id c) as Hmax.
    { rw /checked_succ in E. by destruct (N.leb_spec u64_max (next_request_id c)). }
    eapply once_ext; [|exact HO]. intros k Hk. rw answers_app answers_one /=.
    rw (proj2 (N.eqb_neq _ _)); [lia|]. by rw app_nil_r.
  - apply once_fold; [intros; by apply once_retract|]. apply (once_less c L []); [done..|].
    intros k. rw lookup_omap. destruct (pending c !! k); [by eexists|done].
  - apply once_less; [done|intros k; by destruct (current_directory env)|].
    intros k [q [Hq _]%map_lookup_filter_Some]. by eexists.
  - case_match; [done|]. destruct (pending c !! _) as [q|] eqn:Hq; [|done]. by apply once_answer.
  - by apply once_same.
  - pose proof (once_fold (expire self env) L (c, []) (expired env c)
      (λ c l a H, once_expire env c L l a H) HO0) as H1.
    destruct (foldl _ _ _) as [c' l]. cbn [fst snd] in *. rw assoc. apply once_same; [done|].
    intros k. apply answers_dispatch_pending.
Qed.

Lemma once_run c L events : Once c L → Once (client_run c events) (L ++ client_sends c events).
Proof.
  revert c L. induction events as [|[env msg] events IH]; intros c L HO; cbn [client_sends].
  - by rw app_nil_r.
  - rw assoc. by apply IH, once_handle.
Qed.

Lemma once_new deadline : Once (new_with_deadline deadline) [].
Proof. split; try done; cbn; lia. Qed.

(** The history before a client is of no interest but for its numbers. *)
Lemma once_forget c L : Once c L → Once c [].
Proof. intros HO. split; try apply HO; cbn; try done. lia. Qed.

Lemma reachable_once c : client_reachable c → Once c [].
Proof.
  intros (deadline&events&->). eapply once_forget, (once_run _ [] events), once_new.
Qed.

(** ** Requests are answered *)

Section Waits.
Context (k : DirectoryRequestId) (q : PendingRequest) (genuine : DataDirectoryOut → Prop).
Hypothesis (expiry : retraction (q_request q) = false → genuine (expired_reply k (q_request q))).

(** Request [k] waits, or was answered. *)
Definition answered (L : list (ActorAddress * ClientOut)) : Prop :=
  ∃ out, (q_reply_to q, out) ∈ answers k L ∧ genuine out.
Definition waits (c : NamespaceClientActor) (L : list (ActorAddress * ClientOut)) : Prop :=
  k < next_request_id c ∧ (pending c !! k = Some q ∨ answered L).

Lemma answered_app L l : answered L → answered (L ++ l).
Proof. intros (out&Hin&H). exists out. split; [|done]. rw answers_app. set_solver. Qed.

Lemma waits_next c c' L l :
  next_request_id c <= next_request_id c' → (pending c !! k = Some q → pending c' !! k = Some q) →
  waits c L → waits c' (L ++ l).
Proof.
  intros Hn H [Hk [Hq|Ha]]; (split; [lia|]); [left; by apply H|right; by apply answered_app].
Qed.

Lemma enqueue_waits env c L l next request reply_to :
  checked_succ (next_request_id c) = Some next → waits c (L ++ l) →
  let x := enqueue self env (c, l) next request reply_to in waits x.1 (L ++ x.2).
Proof.
  intros [-> _]%checked_succ_Some Hw x. subst x. cbn [enqueue fst snd]. rw assoc.
  pose proof Hw as [Hk _]. eapply waits_next; [..|exact Hw]; cbn; [lia|]. rw lookup_insert_ne //. lia.
Qed.

Lemma retract_waits env c L l open :
  waits c (L ++ l) → let x := retract_stream_open self env (c, l) open in waits x.1 (L ++ x.2).
Proof. intros Hw x. subst x. rw /retract_stream_open. case_match; [by apply enqueue_waits|done]. Qed.

Lemma expire_waits env c L l id :
  waits c (L ++ l) → (id = k → retraction (q_request q) = false ∨ answered (L ++ l)) →
  let x := expire self env (c, l) id in waits x.1 (L ++ x.2) ∧ (id = k → answered (L ++ x.2)).
Proof.
  intros Hw Hret x. subst x. rw /expire. pose proof Hw as [Hk Ha]. destruct (pending c !! id) as [q'|] eqn:Hq'.
  2: { split; [done|]. intros ->. destruct Ha; [congruence|done]. }
  set (c1 := with_pending c (delete id (pending c))).
  assert (Ha' : (pending c !! k = Some q ∧ (id = k → retraction (q_request q) = false)) ∨ answered (L ++ l)).
  { destruct Ha as [Hq|]; [|by right]. destruct (decide (id = k)) as [E|]; [|by left].
    destruct (Hret E); [by left|by right]. }
  assert (H1 : ∀ c2 l2, k < next_request_id c2 → (id ≠ k → pending c !! k = Some q → pending c2 !! k = Some q) →
    (∃ l', l2 = l ++ l') →
    let l3 := l2 ++ [(q_reply_to q', Answer (expired_reply id (q_request q')))] in
    waits c2 (L ++ l3) ∧ (id = k → answered (L ++ l3))).
  { intros c2 l2 Hk2 Hc2 [l' ->] l3. subst l3. rw !assoc. destruct Ha' as [[Hq Hr]|Ha'].
    - destruct (decide (id = k)) as [->|Hne]; [|split; [split; [done|left; by apply Hc2]|done]].
      assert (q' = q) as -> by congruence.
      assert (answered (((L ++ l) ++ l') ++ [(q_reply_to q, Answer (expired_reply k (q_request q)))])).
      { exists (expired_reply k (q_request q)). split; [|by apply expiry, Hr]. rw answers_app answers_one /= N.eqb_refl. set_solver. }
      split; [split; [done|by right]|done].
    - assert (answered (((L ++ l) ++ l') ++ [(q_reply_to q', Answer (expired_reply id (q_request q')))])).
      { by do 2 apply answered_app. }
      split; [split; [done|by right]|done]. }
  destruct (stream_open (q_request q')) as [open|].
  - rw /retract_stream_open. cbn [fst with_pending c1 next_request_id].
    destruct (checked_succ (next_request_id c)) as [n|] eqn:E.
    + apply checked_succ_Some in E as [-> _]. apply H1; cbn; [lia| |by eexists].
      intros Hne Hq. rw lookup_insert_ne; [lia|]. by rw lookup_delete_ne.
    + apply H1; [done| |by exists []; rw app_nil_r]. intros Hne Hq. cbn. by rw lookup_delete_ne.
  - apply H1; [done| |by exists []; rw app_nil_r]. intros Hne Hq. cbn. by rw lookup_delete_ne.
Qed.

Lemma expire_sends env x id : ∃ l, (expire self env x id).2 = x.2 ++ l.
Proof.
  destruct x as [c l]. rw /expire. destruct (pending c !! id) as [q'|]; [|by exists []; rw app_nil_r].
  destruct (stream_open (q_request q')) as [open|]; [|by eexists].
  rw /retract_stream_open. destruct (checked_succ _); cbn; [rw -assoc|]; by eexists.
Qed.

Lemma expire_all_waits env x L ids :
  waits x.1 (L ++ x.2) → (k ∈ ids → retraction (q_request q) = false ∨ answered (L ++ x.2)) →
  let y := foldl (expire self env) x ids in waits y.1 (L ++ y.2) ∧ (k ∈ ids → answered (L ++ y.2)).
Proof.
  assert (Hans : ∀ ids x, answered (L ++ x.2) → answered (L ++ (foldl (expire self env) x ids).2)).
  { induction ids0 as [|id ids0 IH]; intros y Hy; [done|]. apply IH.
    destruct (expire_sends env y id) as [l ->]. rw assoc. by apply answered_app. }
  revert x. induction ids as [|id ids IH]; intros [c l] Hw Hret; [split; [done|set_solver]|]. cbn [foldl].
  destruct (expire_waits env c L l id Hw) as [Hw' Hk]; [intros ->; apply Hret; by left|].
  destruct (IH _ Hw') as [Hw'' Hk'].
  { intros Hin. destruct (Hret ltac:(by right)) as [|Ha]; [by left|right].
    destruct (expire_sends env (c, l) id) as [l' ->]. rw assoc. by apply answered_app. }
  split; [done|]. rw elem_of_cons. intros [Hid|Hin]; [by apply Hans, Hk|by apply Hk'].
Qed.

(** The caller does not give up, and replies are genuine. *)
Definition patient (event : Ev) : Prop :=
  match event.2 with
  | Cancel reply_to | CancelBlobReservation _ _ reply_to => reply_to ≠ q_reply_to q
  | FromDirectory reply => accepts_authority_epoch event.1 (out_authority_epoch reply) = true → genuine reply
  | _ => True
  end.

Lemma handle_waits env c L msg :
  patient (env, msg) → waits c L →
  let x := handle env c msg in
  waits x.1 (L ++ x.2) ∧ (msg = Retry → is_expired env c q = true → answered (L ++ x.2)).
Proof.
  intros Hp Hw x. subst x. assert (Hw0 : waits c (L ++ [])) by by rw app_nil_r.
  assert (Hret : k ∈ expired env c → retraction (q_request q) = false ∨ answered (L ++ [])).
  { rw /expired list_elem_of_filter app_nil_r. intros [Hx _]. destruct Hw as [_ [Hq|?]]; [left|by right].
    rw Hq /= /is_expired in Hx. by apply andb_prop in Hx as [Hx%negb_true_iff _]. }
  destruct msg as [request reply_to|reply_to|path id reply_to|reply|dest id reason|];
    cbn [NamespaceClient.handle patient snd fst] in *; (split; [|try done]).
  - destruct (checked_succ _) as [next|] eqn:E; [by apply enqueue_waits|]. by eapply waits_next.
  - assert (Hc : waits (with_pending c (omap (retain_cancelled self reply_to) (pending c))) (L ++ [])).
    { eapply waits_next; [..|exact Hw]; [done|]. intros Hq. cbn. rw lookup_omap Hq /= /retain_cancelled.
      by rw bool_decide_false. }
    revert Hc. generalize ([] : list (ActorAddress * ClientOut)). generalize (with_pending c
      (omap (retain_cancelled self reply_to) (pending c))).
    induction (cancelled_opens env c reply_to) as [|open opens IH]; intros c1 l Hc; [done|].
    cbn [foldl]. destruct (retract_stream_open self env (c1, l) open) as [c2 l2] eqn:E.
    apply IH. pose proof (retract_waits env c1 L l open Hc) as H. by rw E in H.
  - eapply waits_next; [..|exact Hw]; [done|]. intros Hq. cbn. apply map_lookup_filter_Some. by split; [|cbn].
  - destruct (accepts_authority_epoch env _) eqn:Ha; [|done]. cbn [negb].
    destruct (pending c !! out_request_id reply) as [q'|] eqn:Hq'; [|done].
    destruct (decide (out_request_id reply = k)) as [E|Hne].
    + destruct Hw as [Hk [Hq|Hans]]; (split; [done|]); right; [|by apply answered_app].
      exists reply. split; [|by apply Hp]. cbn [snd]. rw answers_app answers_one E N.eqb_refl.
      rw E in Hq'. assert (q' = q) as -> by congruence. set_solver.
    + eapply waits_next; [..|exact Hw]; [done|]. intros Hq. cbn. by rw lookup_delete_ne.
  - by eapply waits_next.
  - destruct (expire_all_waits env (c, []) L (expired env c) Hw0 Hret) as [H1 _].
    destruct (foldl _ _ _) as [c' l]. cbn [fst snd] in *. rw assoc. by eapply waits_next.
  - intros _ Hexp. destruct (expire_all_waits env (c, []) L (expired env c) Hw0 Hret) as [_ H1].
    destruct Hw as [_ [Hq|Ha]]; [|by apply answered_app].
    destruct (foldl _ _ _) as [c' l]. cbn [fst snd] in *. rw assoc. apply answered_app, H1.
    rw /expired list_elem_of_filter walk_all Hq. split; [done|]. apply list_elem_of_fmap.
    exists (k, q). split; [done|]. by apply elem_of_map_to_list.
Qed.

Lemma run_waits c L events :
  Forall patient events → waits c L → waits (client_run c events) (L ++ client_sends c events).
Proof.
  intros Hev. revert c L. induction Hev as [|[env msg] events Hp _ IH]; intros c L Hw; cbn [client_sends].
  - by rw app_nil_r.
  - rw assoc. apply IH. by apply handle_waits.
Qed.

End Waits.

Lemma client_sends_app c events events' :
  client_sends c (events ++ events') = client_sends c events ++ client_sends (client_run c events) events'.
Proof.
  revert c. induction events as [|[env msg] events IH]; intros c; [done|]. cbn. by rw IH assoc.
Qed.

Lemma ends_with c e events e' :
  let c1 := handle e.1 c e.2 in
  let c2 := handle e'.1 (client_run c1.1 events) e'.2 in
  client_run c (e :: events ++ [e']) = c2.1
  ∧ client_sends c (e :: events ++ [e']) = c1.2 ++ client_sends c1.1 events ++ c2.2.
Proof.
  destruct e as [env msg], e' as [env' msg']. cbn. split; [by rw /client_run foldl_app|].
  by rw client_sends_app /= app_nil_r.
Qed.

Lemma handle_deadline env c msg : request_deadline (handle env c msg).1 = request_deadline c.
Proof.
  assert (Hr : ∀ x open, request_deadline (retract_stream_open self env x open).1 = request_deadline x.1).
  { intros [c0 l] open. rw /retract_stream_open. by case_match. }
  assert (He : ∀ x id, request_deadline (expire self env x id).1 = request_deadline x.1).
  { intros [c0 l] id. rw /expire. destruct (pending c0 !! id) as [q|]; [|done].
    destruct (stream_open (q_request q)) as [open|]; [|done].
    specialize (Hr (with_pending c0 (delete id (pending c0)), l) open).
    by destruct (retract_stream_open _ _ _ _). }
  assert (Hfold : ∀ {A} (f : Cl → A → Cl) l x, (∀ x a, request_deadline (f x a).1 = request_deadline x.1) →
    request_deadline (foldl f x l).1 = request_deadline x.1).
  { intros A f l. induction l as [|a l IH]; intros x Hf; [done|]. cbn. by rw IH. }
  destruct msg; cbn [NamespaceClient.handle]; try (by repeat case_match).
  - by rw Hfold.
  - specialize (Hfold _ (expire self env) (expired env c) (c, []) He). by destruct (foldl _ _ _).
Qed.

Lemma run_deadline c events : request_deadline (client_run c events) = request_deadline c.
Proof.
  revert c. induction events as [|[env msg] events IH]; intros c; [done|]. cbn. by rw IH handle_deadline.
Qed.

(** The failures that a caller may be told: of the kind of its request, and none for the requests that
    withdraw something. *)
Definition failed_as (request : NamespaceRequest) (result : DirectoryResult) : Prop :=
  match request, result with
  | Req.Register _ _ _ _ _ _ _, Registered (inr (DirectoryUnavailable _))
  | Req.Resolve _, Resolved (inr (DirectoryUnavailable _))
  | Req.Lookup _, LookedUp (inr (DirectoryUnavailable _))
  | Req.ReserveBlob _ _, BlobReserved (inr (DirectoryUnavailable _))
  | Req.ReleaseBlobReservation _ _, BlobReservationReleased (inr (DirectoryUnavailable _))
  | Req.Unregister _ _, Unregistered (inr (DirectoryUnavailable _))
  | Req.Rename _ _ _ _, Renamed (inr (DirectoryUnavailable _))
  | Req.OpenStream _ _ _ _ _ _ _ _, StreamOpened (inr (DirectoryUnavailable _)) => True
  | _, _ => False
  end.

(** A request that withdraws something is repeated until the directory answers it. *)
Definition withdraws (request : NamespaceRequest) : Prop :=
  match request with Req.CancelStream _ _ | Req.CloseStream _ _ => True | _ => False end.

(** The answer [out] to [request] of number [k]: from the directory, under an epoch that is accepted, or
    the failure that the proxy makes up. *)
Definition proper_answer (k : DirectoryRequestId) (request : NamespaceRequest) (events : list Ev)
    (out : DataDirectoryOut) : Prop :=
  out_request_id out = k
  ∧ (failed_as request (out_result out)
     ∨ ∃ env, (env, FromDirectory out) ∈ events ∧ accepts_authority_epoch env (out_authority_epoch out) = true).

(** C18. A request, given while there are request numbers left, is answered at most
    once, if its caller waits: by what the directory sends under an epoch that is
    accepted, or by a failure of the request's own kind, that the directory is
    unavailable. Until then it is pending; and at the first tick past the deadline it
    has been answered, unless it closes or cancels a stream: such a request never fails,
    and stays pending until the directory answers it. *)
Theorem request_is_answered c env request target events env' :
  client_reachable c → next_request_id c < u64_max →
  let k := next_request_id c in
  Forall (λ event : Ev, match event.2 with
    | Cancel reply_to | CancelBlobReservation _ _ reply_to => reply_to ≠ target
    | _ => True
    end) events →
  let history := (env, Request request target) :: events ++ [(env', Retry)] in
  (∃ out, answers k (client_sends c history) = [(target, out)] ∧ proper_answer k request events out)
  ∨ (answers k (client_sends c history) = []
     ∧ pending (client_run c history) !! k = Some (mkPendingRequest request target (now env))
     ∧ (withdraws request ∨ duration_since (now env') (now env) <= request_deadline c)).
Proof.
  intros Hc Hn k Hev history. set (q := mkPendingRequest request target (now env)).
  set (genuine := λ out, failed_as request (out_result out)
    ∨ ∃ env'', (env'', FromDirectory out) ∈ events ∧ accepts_authority_epoch env'' (out_authority_epoch out) = true).
  assert (Hexpiry : retraction (q_request q) = false → genuine (expired_reply k (q_request q))).
  { intros Hr. left. by destruct request. }
  pose proof (reachable_once _ Hc) as HO. pose proof (once_run c [] history HO) as HO'. cbn [app] in HO'.
  pose proof (on_once _ _ HO' k Hn) as Hone.
  destruct (ends_with c (env, Request request target) events (env', Retry)) as [Hrun Hsent].
  fold history in Hrun, Hsent. cbn [fst snd] in Hrun, Hsent.
  set (x := handle env c (Request request target)) in *.
  assert (Hw : waits k q genuine x.1 x.2).
  { subst x. cbn [NamespaceClient.handle]. rw /checked_succ (proj2 (N.leb_gt _ _) Hn). cbn. subst k.
    split; cbn; [lia|left; by rw lookup_insert_eq]. }
  apply (run_waits k q genuine Hexpiry _ _ events) in Hw.
  2: { apply Forall_forall. intros [env'' msg] Hin. pose proof (proj1 (Forall_forall _ _) Hev _ Hin) as Hm.
       destruct msg; try done. intros Ha. right. eauto. }
  destruct (handle_waits k q genuine Hexpiry env' _ _ Retry I Hw) as [[_ Hend] Hlate].
  rw -assoc -Hsent in Hend Hlate. rw -Hrun in Hend. specialize (Hlate eq_refl).
  assert (Hans : answered k q genuine (client_sends c history) →
    ∃ out, answers k (client_sends c history) = [(target, out)] ∧ proper_answer k request events out).
  { intros (out&Hout&Hgen). exists out. pose proof (answers_number _ _ _ _ Hout) as Hk.
    destruct (answers k _) as [|y l]; [by apply not_elem_of_nil in Hout|].
    destruct l; [|cbn in Hone; lia]. by apply list_elem_of_singleton in Hout as <-. }
  destruct Hend as [Hq|Ha]; [|by left; apply Hans].
  destruct (is_expired _ _ _) eqn:Hexp in Hlate; [by left; apply Hans, Hlate|right].
  split_and!; [apply (on_open _ _ HO'); by eexists|done|].
  rw /is_expired run_deadline handle_deadline in Hexp. apply andb_false_iff in Hexp as [Hexp|Hexp].
  - left. by destruct request.
  - right. by apply N.ltb_ge in Hexp.
Qed.

(** ** Opens are retracted *)

Section Retracts.
Context (open : DataPath * OperationId).

(** Request [j] of the proxy retracts [open]. *)
Definition retracts (j : DirectoryRequestId) (c : NamespaceClientActor) : Prop :=
  j < next_request_id c
  ∧ ∃ t, pending c !! j = Some (mkPendingRequest (Req.CancelStream open.1 open.2) self t).

Lemma retract_keeps env x o j : retracts j x.1 → retracts j (retract_stream_open self env x o).1.
Proof.
  destruct x as [c l]. rw /retract_stream_open /=. destruct (checked_succ _) as [n|] eqn:E; [|done].
  apply checked_succ_Some in E as [-> _]. intros [Hj [t Ht]]. split; cbn; [lia|]. exists t.
  rw lookup_insert_ne //. lia.
Qed.

Lemma retract_adds env x :
  next_request_id x.1 < u64_max → retracts (next_request_id x.1) (retract_stream_open self env x open).1.
Proof.
  destruct x as [c l]. intros Hn. rw /retract_stream_open /checked_succ (proj2 (N.leb_gt _ _) Hn).
  split; cbn; [lia|]. rw lookup_insert_eq. by eexists.
Qed.

Lemma retract_next env x o :
  next_request_id x.1 <= next_request_id (retract_stream_open self env x o).1 <= next_request_id x.1 + 1.
Proof.
  destruct x as [c l]. rw /retract_stream_open /=. destruct (checked_succ _) as [n|] eqn:E; cbn; [|lia].
  apply checked_succ_Some in E as [-> _]. lia.
Qed.

Lemma retract_all_adds env x opens :
  open ∈ opens → next_request_id x.1 + N.of_nat (length opens) <= u64_max →
  ∃ j, retracts j (foldl (retract_stream_open self env) x opens).1.
Proof.
  assert (Hk : ∀ opens x j, retracts j x.1 → retracts j (foldl (retract_stream_open self env) x opens).1).
  { induction opens0 as [|o os IH]; intros y j Hj; [done|]. by apply IH, retract_keeps. }
  revert x. induction opens as [|o opens IH]; intros x Hin Hn; [by apply not_elem_of_nil in Hin|].
  rw length_cons Nat2N.inj_succ in Hn. cbn [foldl]. apply elem_of_cons in Hin as [<-|Hin].
  - eexists. apply Hk, retract_adds. lia.
  - apply IH; [done|]. pose proof (retract_next env x o). lia.
Qed.

(** *** Expiry *)

Lemma expire_keeps env x id j r :
  pending x.1 !! j = Some r → j ≠ id → j < next_request_id x.1 → pending (expire self env x id).1 !! j = Some r.
Proof.
  destruct x as [c l]. intros Hj Hne Hn. rw /expire. destruct (pending c !! id) as [q|]; [|done].
  assert (H1 : pending (with_pending c (delete id (pending c))) !! j = Some r) by by cbn; rw lookup_delete_ne.
  destruct (stream_open (q_request q)) as [o|]; [|done]. rw /retract_stream_open /=.
  destruct (checked_succ _) as [n|] eqn:E; [|done]. cbn. rw lookup_insert_ne //. cbn in Hn. lia.
Qed.

Lemma expire_next env x id :
  next_request_id x.1 <= next_request_id (expire self env x id).1 <= next_request_id x.1 + 1.
Proof.
  destruct x as [c l]. rw /expire. destruct (pending c !! id) as [q|]; [|cbn; lia].
  destruct (stream_open (q_request q)) as [o|]; [|cbn; lia].
  pose proof (retract_next env (with_pending c (delete id (pending c)), l) o) as H.
  by destruct (retract_stream_open _ _ _ _).
Qed.

Lemma expire_adds env x id q :
  pending x.1 !! id = Some q → stream_open (q_request q) = Some open → next_request_id x.1 < u64_max →
  retracts (next_request_id x.1) (expire self env x id).1.
Proof.
  destruct x as [c l]. cbn. intros Hq Ho Hn. rw Hq Ho.
  pose proof (retract_adds env (with_pending c (delete id (pending c)), l) Hn) as H.
  by destruct (retract_stream_open _ _ _ _).
Qed.

Lemma expire_all_keeps env x ids j : (j ∉ ids) → retracts j x.1 → retracts j (foldl (expire self env) x ids).1.
Proof.
  revert x. induction ids as [|id ids IH]; intros x Hj Hr; [done|]. cbn [foldl]. apply IH; [set_solver|].
  destruct Hr as [Hn [t Ht]]. pose proof (expire_next env x id). split; [lia|]. exists t.
  apply expire_keeps; [done|set_solver|done].
Qed.

Lemma expire_all_adds env x ids k q :
  k ∈ ids → Forall (λ id, id < next_request_id x.1) ids →
  pending x.1 !! k = Some q → stream_open (q_request q) = Some open →
  next_request_id x.1 + N.of_nat (length ids) <= u64_max →
  ∃ j, retracts j (foldl (expire self env) x ids).1.
Proof.
  intros Hin Hids Hq Ho. revert x Hids Hq. induction ids as [|id ids IH]; intros x Hids Hq Hn;
    [by apply not_elem_of_nil in Hin|].
  rw length_cons Nat2N.inj_succ in Hn. cbn [foldl]. pose proof (expire_next env x id) as Hx.
  apply Forall_cons in Hids as [Hid Hids]. destruct (decide (k = id)) as [->|Hne].
  - eexists. apply expire_all_keeps; [|by eapply expire_adds; [..|lia]].
    intros Hj. apply (proj1 (Forall_forall _ _) Hids) in Hj. lia.
  - apply elem_of_cons in Hin as [|Hin]; [done|]. apply IH; [done| | |lia].
    + eapply Forall_impl; [exact Hids|]. cbn. lia.
    + apply expire_keeps; [done..|]. by apply (proj1 (Forall_forall _ _) Hids).
Qed.

Lemma length_omap_le {A B} (f : A → option B) l : (length (omap f l) ≤ length l)%nat.
Proof. induction l as [|a l IH]; [done|]. cbn. destruct (f a); cbn; lia. Qed.

Lemma walk_length env c : length (walk env (map_to_list (pending c)).*1) = size (pending c).
Proof. rw walk_all length_fmap. apply length_map_to_list. Qed.

(** *** Events *)

(** The directory does not acknowledge the retraction [j]. *)
Definition unacknowledged (j : DirectoryRequestId) (event : Ev) : Prop :=
  match event.2 with
  | FromDirectory reply =>
      out_request_id reply = j → accepts_authority_epoch event.1 (out_authority_epoch reply) = false
  | CancelBlobReservation _ _ reply_to => reply_to ≠ self
  | _ => True
  end.

Lemma not_expired env c j : retracts j c → j ∉ expired env c.
Proof. intros [_ [t Ht]]. rw /expired list_elem_of_filter Ht. by intros []. Qed.

Lemma handle_retracts env c msg j :
  unacknowledged j (env, msg) → retracts j c → retracts j (handle env c msg).1.
Proof.
  intros Hu Hr. pose proof Hr as [Hj [t Ht]].
  destruct msg as [request reply_to|reply_to|path id reply_to|reply|dest id reason|];
    cbn [NamespaceClient.handle unacknowledged fst snd] in *; try done.
  - destruct (checked_succ _) as [n|] eqn:E; [|done]. apply checked_succ_Some in E as [-> _].
    split; cbn; [lia|]. exists t. rw lookup_insert_ne //. lia.
  - set (c1 := with_pending c _). assert (Hc1 : retracts j c1).
    { split; [done|]. exists t. cbn. rw lookup_omap Ht /= /retain_cancelled /=. by case_bool_decide. }
    clearbody c1. generalize ([] : list (ActorAddress * ClientOut)). revert c1 Hc1.
    induction (cancelled_opens env c reply_to) as [|o os IH]; intros c1 Hc1 l; [done|]. cbn [foldl].
    pose proof (retract_keeps env (c1, l) o j Hc1) as H. destruct (retract_stream_open _ _ _ _). by apply IH.
  - split; [done|]. exists t. cbn. apply map_lookup_filter_Some. by split; [|cbn].
  - destruct (accepts_authority_epoch env _) eqn:Ha; [|done]. cbn [negb].
    destruct (pending c !! out_request_id reply); [|done]. split; [done|]. exists t. cbn.
    rw lookup_delete_ne //. intros E. by specialize (Hu E).
  - pose proof (expire_all_keeps env (c, []) (expired env c) j (not_expired env c j Hr) Hr) as H.
    by destruct (foldl _ _ _).
Qed.

Lemma run_retracts c events j :
  Forall (unacknowledged j) events → retracts j c → retracts j (client_run c events).
Proof.
  intros Hev. revert c. induction Hev as [|[env msg] events Hu _ IH]; intros c Hr; [done|].
  by apply IH, handle_retracts.
Qed.

Lemma retry_retracts env c directory j :
  retracts j c → current_directory env = Some directory →
  (directory, ToDirectory (CancelStream j open.1 open.2 (Some self))) ∈ (handle env c Retry).2.
Proof.
  intros Hr Hd. cbn [NamespaceClient.handle].
  pose proof (expire_all_keeps env (c, []) (expired env c) j (not_expired env c j Hr) Hr) as [_ [t Ht]].
  destruct (foldl _ _ _) as [c' l]. cbn [fst snd] in *. apply elem_of_app. right.
  rw /dispatch_pending. apply list_elem_of_In, in_flat_map. exists j. split.
  - apply list_elem_of_In. rw walk_all. apply list_elem_of_fmap. eexists (j, _). split; [done|].
    by apply elem_of_map_to_list.
  - rw Ht /dispatch Hd. by left.
Qed.

End Retracts.

Lemma abandon_retracts env c k q open msg :
  client_reachable c → pending c !! k = Some q → stream_open (q_request q) = Some open →
  (msg = Cancel (q_reply_to q) ∨ (msg = Retry ∧ is_expired env c q = true)) →
  next_request_id c + N.of_nat (size (pending c)) <= u64_max →
  ∃ j, retracts open j (handle env c msg).1.
Proof.
  intros Hc Hq Ho Hmsg Hn. pose proof (reachable_once _ Hc) as HO.
  assert (Hwalk : k ∈ walk env (map_to_list (pending c)).*1).
  { rw walk_all. apply list_elem_of_fmap. exists (k, q). split; [done|]. by apply elem_of_map_to_list. }
  destruct Hmsg as [->|[-> Hexp]]; cbn [NamespaceClient.handle].
  - apply retract_all_adds; cbn.
    + rw /cancelled_opens. apply list_elem_of_omap. exists q. split; [|done]. apply list_elem_of_filter.
      split; [done|]. apply list_elem_of_omap. by exists k.
    + rw -(walk_length env c) in Hn. rw /cancelled_opens /pending_values.
      pose proof (length_omap_le (λ q, stream_open (q_request q)) (filter (λ x, q_reply_to x = q_reply_to q)
        (omap (λ id, pending c !! id) (walk env (map_to_list (pending c)).*1)))).
      pose proof (length_filter (λ x, q_reply_to x = q_reply_to q)
        (omap (λ id, pending c !! id) (walk env (map_to_list (pending c)).*1))).
      pose proof (length_omap_le (λ id, pending c !! id) (walk env (map_to_list (pending c)).*1)). lia.
  - destruct (expire_all_adds open env (c, []) (expired env c) k q) as [j Hj]; try done.
    + rw /expired list_elem_of_filter Hq. done.
    + apply Forall_forall. intros id [_ Hid]%list_elem_of_filter. rw walk_all in Hid.
      apply list_elem_of_fmap in Hid as ([id' q']&->&Hid). apply elem_of_map_to_list in Hid.
      by apply (once_open_range _ _ _ HO).
    + cbn. rw -(walk_length env c) in Hn. rw /expired.
      pose proof (length_filter (λ id, from_option (is_expired env c) false (pending c !! id) = true)
        (walk env (map_to_list (pending c)).*1)). lia.
    + exists j. by destruct (foldl _ _ _).
Qed.

(** A stream open that its caller cancels, or that expires, is retracted: at every tick
    from then on the directory that is known is asked to cancel it, until a directory
    that is accepted has answered. *)
Theorem abandoned_open_is_retracted c env k q open msg :
  client_reachable c → pending c !! k = Some q → stream_open (q_request q) = Some open →
  (msg = Cancel (q_reply_to q) ∨ (msg = Retry ∧ is_expired env c q = true)) →
  next_request_id c + N.of_nat (size (pending c)) <= u64_max →
  ∃ j, ∀ events env' directory,
    Forall (unacknowledged j) events → current_directory env' = Some directory →
    (directory, ToDirectory (CancelStream j open.1 open.2 (Some self)))
    ∈ (handle env' (client_run (handle env c msg).1 events) Retry).2.
Proof.
  intros Hc Hq Ho Hmsg Hn. destruct (abandon_retracts env c k q open msg Hc Hq Ho Hmsg Hn) as [j Hj].
  exists j. intros events env' directory Hev Hd. apply retry_retracts; [|done]. by apply run_retracts.
Qed.

End Requests.

(** ** A run *)

Definition client_env (directory : option ActorAddress) (now : N) : ClientEnv :=
  mkClientEnv directory (λ epoch, epoch =? 1) now (λ l, l) (λ l, reflexivity l).

Definition some_path : DataPath := exist _ "/run/a"%string eq_refl.
Definition some_open : NamespaceRequest := Req.OpenStream some_path Source 31 [] false true None 61.

(** No directory is known, and the directory of an older epoch answers; a close that nobody answers stays
    pending. *)
Lemma request_is_answered_witness :
  let run request := client_run 9 (new_with_deadline 80)
      [(client_env None 0, Request request 5);
       (client_env None 10, FromDirectory (mkOut 1 0 (LookedUp (inr (PathNotFound some_path)))));
       (client_env None 81, Retry)] in
  let sends request := client_sends 9 (new_with_deadline 80)
      [(client_env None 0, Request request 5);
       (client_env None 10, FromDirectory (mkOut 1 0 (LookedUp (inr (PathNotFound some_path)))));
       (client_env None 81, Retry)] in
  let close := Req.CloseStream some_path (mkIncarnation 1 1) in
  (∃ out, answers 1 (sends (Req.Lookup some_path)) = [(5, out)]
     ∧ failed_as (Req.Lookup some_path) (out_result out))
  ∧ pending (run close) !! 1 = Some (mkPendingRequest close 5 0).
Proof.
  split.
  - destruct (request_is_answered 9 (new_with_deadline 80) (client_env None 0) (Req.Lookup some_path) 5
      [(client_env None 10, FromDirectory (mkOut 1 0 (LookedUp (inr (PathNotFound some_path)))))]
      (client_env None 81) (ex_intro _ 80 (ex_intro _ [] eq_refl)) eq_refl ltac:(by repeat constructor))
      as [(out&H&_&Hout)|(H&_)]; [|by vm_compute in H].
    exists out. split; [exact H|]. destruct Hout as [Hf|(env''&Hin&Ha)]; [exact Hf|exfalso].
    apply list_elem_of_singleton in Hin. injection Hin as -> ->. done.
  - destruct (request_is_answered 9 (new_with_deadline 80) (client_env None 0)
      (Req.CloseStream some_path (mkIncarnation 1 1)) 5
      [(client_env None 10, FromDirectory (mkOut 1 0 (LookedUp (inr (PathNotFound some_path)))))]
      (client_env None 81) (ex_intro _ 80 (ex_intro _ [] eq_refl)) eq_refl ltac:(by repeat constructor))
      as [(out&H&_)|(_&H&_)]; [by vm_compute in H|exact H].
Defined.

(** A stream open expires while no directory is known; later one is. *)
Lemma abandoned_open_is_retracted_witness :
  let c := client_run 9 (new_with_deadline 80) [(client_env None 0, Request some_open 5)] in
  ∃ j, (3, ToDirectory (CancelStream j some_path 61 (Some 9)))
    ∈ (NamespaceClient.handle 9 (client_env (Some 3) 90)
         (NamespaceClient.handle 9 (client_env None 81) c Retry).1 Retry).2.
Proof.
  destruct (abandoned_open_is_retracted 9
    (client_run 9 (new_with_deadline 80) [(client_env None 0, Request some_open 5)])
    (client_env None 81) 1 (mkPendingRequest some_open 5 0) (some_path, 61) Retry) as [j Hj].
  - by eexists 80, _.
  - by vm_compute.
  - done.
  - right. split; [done|by vm_compute].
  - by vm_compute.
  - exists j. apply (Hj [] (client_env (Some 3) 90) 3); [apply Forall_nil_2|done].
Defined.

(** Giving up a reservation is attempted once: without a directory at that moment nothing is sent and
    nothing is kept to send later. *)
Theorem lost_reservation_is_not_released :
  let c := client_run 9 (new_with_deadline 80) [(client_env None 10, CancelBlobReservation some_path 61 5)] in
  client_sends 9 (new_with_deadline 80) [(client_env None 10, CancelBlobReservation some_path 61 5)] = []
  ∧ (NamespaceClient.handle 9 (client_env (Some 3) 20) c Retry).2 = [].
Proof. by vm_compute. Qed.
