(* ===== verification/ObjectRecord.v ===== *)
(** * Object records

    [crates/data-plane/src/object_record.rs], the frames in which objects travel over an edge, and the
    loop of [edge_runtime.rs] that takes them off the bytes of a stream.  A frame read back is the frame
    that was written, however the stream was cut into pieces. *)

From S2P Require Import Prelude Memory.
#[local] Open Scope N_scope.

(** ** Headers *)

Inductive ObjectLayout := Token.

Record ObjectSpec := mkObjectSpec {
  max_extent : N;
  alignment : N;
  layout : ObjectLayout;
}.

Definition HEADER_LEN : N := 40.
Definition OBJECT_MAGIC : N := le_value [77; 79; 48; 49].  (** "MO01" *)
Definition OBJECT_VERSION : N := 1.
Definition FLAG_END_OF_SEQUENCE : N := 1.
Definition FLAG_BEGIN_SEQUENCE : N := N.shiftl 1 1.
Definition KNOWN_FLAGS_MASK : N := N.lor FLAG_END_OF_SEQUENCE FLAG_BEGIN_SEQUENCE.

Record ObjectFlags := mkObjectFlags {
  end_of_sequence : bool;
  begin_sequence : bool;
}.

Definition bits (f : ObjectFlags) : N :=
  let bits := if end_of_sequence f then N.lor 0 FLAG_END_OF_SEQUENCE else 0 in
  if begin_sequence f then N.lor bits FLAG_BEGIN_SEQUENCE else bits.

(** [bits & !KNOWN_FLAGS_MASK] *)
Definition from_bits (bits : N) : option ObjectFlags :=
  if negb (N.ldiff bits KNOWN_FLAGS_MASK =? 0) then None
  else Some (mkObjectFlags (negb (N.land bits FLAG_END_OF_SEQUENCE =? 0))
               (negb (N.land bits FLAG_BEGIN_SEQUENCE =? 0))).

Record ObjectHeader := mkObjectHeader {
  object_id : N;
  sequence : N;
  extent : N;
  flags : ObjectFlags;
}.

Inductive ObjectFailureReason :=
| UnsupportedMagic | UnsupportedVersion | MalformedHeaderLength | MalformedHeader | ExtentExceedsMax
| ExtentAlignmentViolation | SequenceViolation | EofBeforeFullPayload | DeviceCopyFailed.

Definition encode_header (h : ObjectHeader) : list N :=
  le_bytes 4 OBJECT_MAGIC ++ le_bytes 2 OBJECT_VERSION ++ le_bytes 2 HEADER_LEN ++
  le_bytes 8 (object_id h) ++ le_bytes 8 (sequence h) ++ le_bytes 8 (extent h) ++
  le_bytes 4 (bits (flags h)) ++ le_bytes 4 0.

(** [from_le_bytes(bytes[a..a + n])] *)
Definition field_at (bytes : list N) (a n : nat) : N := le_value (take n (drop a bytes)).

Definition decode_header (bytes : list N) : ObjectHeader + ObjectFailureReason :=
  if N.of_nat (length bytes) <? HEADER_LEN then inr EofBeforeFullPayload
  else if negb (field_at bytes 0 4 =? OBJECT_MAGIC) then inr UnsupportedMagic
  else if negb (field_at bytes 4 2 =? OBJECT_VERSION) then inr UnsupportedVersion
  else if negb (field_at bytes 6 2 =? HEADER_LEN) then inr MalformedHeaderLength
  else if negb (field_at bytes 36 4 =? 0) then inr MalformedHeader
  else
    match from_bits (field_at bytes 32 4) with
    | None => inr MalformedHeader
    | Some flags => inl (mkObjectHeader (field_at bytes 8 8) (field_at bytes 16 8) (field_at bytes 24 8) flags)
    end.

(** ** Records *)

Record ObjectRecordBuilder := mkBuilder {
  b_object_id : N;
  b_sequence : N;
  b_extent : N;
  b_payload : list N;
  b_magic : N;
  b_version : N;
  b_header_len : N;
  b_flags : ObjectFlags;
}.

Definition new_builder : ObjectRecordBuilder :=
  mkBuilder 9000 0 0 [] OBJECT_MAGIC OBJECT_VERSION HEADER_LEN (mkObjectFlags false false).

(** [out[a..a + bs.len()].copy_from_slice(bs)] *)
Definition patch (out : list N) (a : nat) (bs : list N) : list N :=
  take a out ++ bs ++ drop (a + length bs) out.

Definition encode (b : ObjectRecordBuilder) : list N :=
  let extent :=
    if (b_extent b =? 0) && negb (bool_decide (b_payload b = []))
    then N.of_nat (length (b_payload b)) else b_extent b in
  let out := encode_header (mkObjectHeader (b_object_id b) (b_sequence b) extent (b_flags b)) in
  let out := if b_magic b =? OBJECT_MAGIC then out else patch out 0 (le_bytes 4 (b_magic b)) in
  let out := if b_version b =? OBJECT_VERSION then out else patch out 4 (le_bytes 2 (b_version b)) in
  let out := if b_header_len b =? HEADER_LEN then out else patch out 6 (le_bytes 2 (b_header_len b)) in
  out ++ b_payload b.

Record ObjectRecord := mkObjectRecord {
  r_object_id : N;
  r_sequence : N;
  r_extent : N;
  r_flags : ObjectFlags;
  total_len : N;
}.

(** [bytes.get(HEADER_LEN..self.total_len)] *)
Definition payload (r : ObjectRecord) (bytes : list N) : option (list N) :=
  if (HEADER_LEN <=? total_len r) && (total_len r <=? N.of_nat (length bytes))
  then Some (drop (N.to_nat HEADER_LEN) (take (N.to_nat (total_len r)) bytes)) else None.

Inductive ObjectRecordRead := Incomplete | Complete (record : ObjectRecord).

(** The addition of [total_len] is of machine width. *)
Definition read_object_record (bytes : list N) (spec : ObjectSpec) (eof : bool)
    : ObjectRecordRead + ObjectFailureReason :=
  let len := N.of_nat (length bytes) in
  if len <? HEADER_LEN then
    (if eof && negb (bool_decide (bytes = [])) then inr EofBeforeFullPayload else inl Incomplete)
  else
    match decode_header bytes with
    | inr e => inr e
    | inl h =>
        if max_extent spec <? extent h then inr ExtentExceedsMax
        else if negb (alignment spec =? 0) && negb (extent h mod alignment spec =? 0)
        then inr ExtentAlignmentViolation
        else
          let total_len := HEADER_LEN +64 extent h in
          if len <? total_len then (if eof then inr EofBeforeFullPayload else inl Incomplete)
          else inl (Complete (mkObjectRecord (object_id h) (sequence h) (extent h) (flags h) total_len))
    end.

(** [ObjectIdAllocator], by the identifier it gives next. *)
Definition new_allocator : N := 1.

Definition alloc (next : N) : N * N := (next, u64_saturating_add next 1).

(** ** Streams *)

(** [IngressRecord] *)
Record IngressRecord := mkIngressRecord {
  i_bytes : list N;
  i_record : ObjectRecord;
}.

(** [take_complete_record]: the record and the rest of the buffer. *)
Definition take_complete_record (buffer : list N) (spec : ObjectSpec)
    : option (IngressRecord * list N) + ObjectFailureReason :=
  match read_object_record buffer spec false with
  | inr e => inr e
  | inl Incomplete => inl None
  | inl (Complete r) =>
      inl (Some (mkIngressRecord (take (N.to_nat (total_len r)) buffer) r, drop (N.to_nat (total_len r)) buffer))
  end.

(** The [loop] of [ingress_bytes]; while [HEADER_LEN + extent] does not wrap, every record takes
    bytes from the buffer, and the length of the buffer is enough. *)
Fixpoint take_records (fuel : nat) (buffer : list N) (spec : ObjectSpec)
    : (list IngressRecord + ObjectFailureReason) * list N :=
  match fuel with
  | O => (inl [], buffer)
  | S fuel =>
      match take_complete_record buffer spec with
      | inr e => (inr e, buffer)
      | inl None => (inl [], buffer)
      | inl (Some (record, buffer)) =>
          let '(r, buffer) := take_records fuel buffer spec in
          (records <-! r; inl (record :: records), buffer)
      end
  end.

(** [buffer.extend_from_slice(&bytes)] and the loop. *)
Definition ingest (buffer bytes : list N) (spec : ObjectSpec)
    : (list IngressRecord + ObjectFailureReason) * list N :=
  take_records (length (buffer ++ bytes)) (buffer ++ bytes) spec.

(** The calls of [ingress_bytes] for one stream, up to the first that fails. *)
Fixpoint feed (buffer : list N) (chunks : list (list N)) (spec : ObjectSpec)
    : (list IngressRecord + ObjectFailureReason) * list N :=
  match chunks with
  | [] => (inl [], buffer)
  | bytes :: chunks =>
      match ingest buffer bytes spec with
      | (inr e, buffer) => (inr e, buffer)
      | (inl records, buffer) =>
          let '(r, buffer) := feed buffer chunks spec in
          (more <-! r; inl (records ++ more), buffer)
      end
  end.

(** A record a sender may put on an edge of a given format: an ordinary header, and an extent that is the
    payload's, within the maximum and aligned. *)
Record sendable (spec : ObjectSpec) (b : ObjectRecordBuilder) : Prop := {
  send_magic : b_magic b = OBJECT_MAGIC;
  send_version : b_version b = OBJECT_VERSION;
  send_header_len : b_header_len b = HEADER_LEN;
  send_id : b_object_id b < u64_modulus;
  send_sequence : b_sequence b < u64_modulus;
  send_extent : b_extent b = 0 ∨ b_extent b = N.of_nat (length (b_payload b));
  send_max : N.of_nat (length (b_payload b)) ≤ max_extent spec;
  send_alignment : alignment spec = 0 ∨ N.of_nat (length (b_payload b)) mod alignment spec = 0;
}.

(** The lengths of the format's records are lengths of the machine. *)
Definition addressable (spec : ObjectSpec) : Prop := HEADER_LEN + max_extent spec < u64_modulus.

(** What the receiver makes of a record. *)
Definition received (b : ObjectRecordBuilder) : IngressRecord :=
  mkIngressRecord (encode b)
    (mkObjectRecord (b_object_id b) (b_sequence b) (N.of_nat (length (b_payload b))) (b_flags b)
       (HEADER_LEN + N.of_nat (length (b_payload b)))).

(** ** Headers *)

Lemma from_bits_bits f : from_bits (bits f) = Some f.
Proof. by case: f => [[] []]. Qed.

Lemma length_encode_header h : length (encode_header h) = 40%nat.
Proof. done. Qed.

Lemma decode_encode_header h rest :
  object_id h < u64_modulus → sequence h < u64_modulus → extent h < u64_modulus →
  decode_header (encode_header h ++ rest) = inl h.
Proof.
  move=> Hi Hs He.
  have Hl : (N.of_nat (length (encode_header h ++ rest)) <? HEADER_LEN) = false.
  { rw length_app length_encode_header /HEADER_LEN. apply N.ltb_ge. lia. }
  rw /decode_header Hl.
  change (field_at _ 0 4) with (le_value (le_bytes 4 OBJECT_MAGIC)).
  change (field_at _ 4 2) with (le_value (le_bytes 2 OBJECT_VERSION)).
  change (field_at _ 6 2) with (le_value (le_bytes 2 HEADER_LEN)).
  change (field_at _ 36 4) with (le_value (le_bytes 4 0)).
  change (field_at _ 32 4) with (le_value (le_bytes 4 (bits (flags h)))).
  change (field_at _ 8 8) with (le_value (le_bytes 8 (object_id h))).
  change (field_at _ 16 8) with (le_value (le_bytes 8 (sequence h))).
  change (field_at _ 24 8) with (le_value (le_bytes 8 (extent h))).
  rw (le_value_bytes 8 (object_id h) Hi) (le_value_bytes 8 (sequence h) Hs) (le_value_bytes 8 (extent h) He).
  have -> : le_value (le_bytes 4 (bits (flags h))) = bits (flags h) by case: (flags h) => [[] []].
  rw from_bits_bits. by case: h {Hi Hs He Hl}.
Qed.

(** A header is decided by its own bytes. *)
Lemma field_at_app a n x y : (a + n ≤ length x)%nat → field_at (x ++ y) a n = field_at x a n.
Proof.
  move=> H. rw /field_at drop_app_le; first lia. rw take_app_le //. rw length_drop. lia.
Qed.

Lemma decode_header_app x y : HEADER_LEN ≤ N.of_nat (length x) → decode_header (x ++ y) = decode_header x.
Proof.
  rw /HEADER_LEN => H. rw /decode_header /HEADER_LEN length_app.
  rw (proj2 (N.ltb_ge _ _)); first lia. rw (proj2 (N.ltb_ge (N.of_nat (length x)) _)); first lia.
  rw !field_at_app; lia || done.
Qed.

Lemma decode_header_extent x h : decode_header x = inl h → HEADER_LEN ≤ N.of_nat (length x).
Proof. rw /decode_header. case: N.ltb_spec => //. Qed.

(** ** Reading *)

(** A record that was read is whole, and longer than its header. *)
Lemma read_complete x spec eof r :
  addressable spec → read_object_record x spec eof = inl (Complete r) →
  HEADER_LEN ≤ total_len r ∧ total_len r ≤ N.of_nat (length x) ∧ total_len r ≤ HEADER_LEN + max_extent spec.
Proof.
  rw /addressable /read_object_record => Ha.
  case: N.ltb_spec => Hl; first by case: (eof && _).
  destruct (decode_header x) as [h|]; last done.
  case: N.ltb_spec => Hm //. case: (_ && _) => //.
  rw u64_add_small; first lia.
  case: N.ltb_spec => Ht; first by case: eof. move=> [<-] /=. lia.
Qed.

(** What has been decided stays so when more bytes come. *)
Lemma read_app x y spec :
  match read_object_record x spec false with
  | inl Incomplete => True
  | r => read_object_record (x ++ y) spec false = r
  end.
Proof.
  rw /read_object_record /= length_app.
  case: (N.ltb_spec (N.of_nat (length x)) HEADER_LEN) => Hl //.
  rw decode_header_app // (proj2 (N.ltb_ge (N.of_nat (_ + _)) _)); first lia.
  destruct (decode_header x) as [h|]; last done.
  case: (_ <? extent h) => //. case: (_ && _) => //.
  case: (N.ltb_spec (N.of_nat (length x))) => // Ht. rw (proj2 (N.ltb_ge _ _)) //. lia.
Qed.

Lemma take_complete_app x y spec r :
  addressable spec → take_complete_record x spec = inl (Some r) →
  take_complete_record (x ++ y) spec = inl (Some (r.1, r.2 ++ y)).
Proof.
  rw /take_complete_record => Ha. move: (read_app x y spec).
  destruct (read_object_record x spec false) as [[|q]|] eqn:E => // -> [<-] /=.
  have [_ [Hq _]] := read_complete _ _ _ _ Ha E.
  rw take_app_le; first lia. rw drop_app_le //. lia.
Qed.

Lemma take_failed_app x y spec e :
  take_complete_record x spec = inr e → take_complete_record (x ++ y) spec = inr e.
Proof.
  rw /take_complete_record. move: (read_app x y spec).
  by destruct (read_object_record x spec false) as [[|q]|] eqn:E => // ->.
Qed.

(** Taking a record shortens the buffer. *)
Lemma take_complete_shorter x spec r :
  addressable spec → take_complete_record x spec = inl (Some r) → (length r.2 < length x)%nat.
Proof.
  rw /take_complete_record => Ha.
  destruct (read_object_record x spec false) as [[|q]|] eqn:E => // -[<-] /=.
  have [Hh [Hq _]] := read_complete _ _ _ _ Ha E. rw length_drop. move: Hh. rw /HEADER_LEN. lia.
Qed.

(** The loop ends within the length of the buffer: more rounds change nothing. *)
Lemma take_records_fuel n m x spec :
  addressable spec → (length x ≤ n)%nat → (length x ≤ m)%nat → take_records n x spec = take_records m x spec.
Proof.
  move=> Ha. elim: n m x => [|n IH] [|m] x Hn Hm //=.
  - have -> : x = [] by destruct x; simpl in *; [|lia]. done.
  - have -> : x = [] by destruct x; simpl in *; [|lia]. done.
  - destruct (take_complete_record x spec) as [[[r x']|]|] eqn:E => //.
    have := take_complete_shorter _ _ _ Ha E. simpl => Hs. rw (IH m x'); lia || done.
Qed.

(** The loop over all of the bytes is the loop over the first of them, and then over what is left and the
    others. *)
Lemma take_records_split n x y spec rs rest :
  addressable spec → (length (x ++ y) ≤ n)%nat → take_records n (x ++ y) spec = (inl rs, rest) →
  ∃ rs1 x' rs2, take_records n x spec = (inl rs1, x') ∧ take_records n (x' ++ y) spec = (inl rs2, rest) ∧
    rs = rs1 ++ rs2 ∧ (length x' ≤ length x)%nat.
Proof.
  move=> Ha. elim: n x rs => [|n IH] x rs Hn Ht.
  { exists [], x, []. move: Ht => /= [<- <-]. done. }
  destruct (take_complete_record x spec) as [[[r x']|]|e] eqn:E.
  - have Hs := take_complete_shorter _ _ _ Ha E. simpl in Hs. rw length_app in Hn.
    move: Ht. rw /= (take_complete_app _ _ _ _ Ha E) /= E.
    destruct (take_records n (x' ++ y) spec) as [[l|] z] eqn:F => //= -[<- Hz]. subst z.
    have Hn' : (length (x' ++ y) ≤ n)%nat by rw length_app; lia.
    have [rs1 [x'' [rs2 [H1 [H2 [-> Hl]]]]]] := IH _ _ Hn' F.
    exists (r :: rs1), x'', rs2. rw H1. split_and!; [done| |done|lia].
    rw -H2. apply (take_records_fuel (S n) n) => //; rw length_app; lia.
  - exists [], x, rs. split_and!; [by rw /= E|done|done|lia].
  - move: Ht. by rw /= (take_failed_app _ _ _ _ E).
Qed.

Lemma ingest_split b x y spec rs rest :
  addressable spec → ingest b (x ++ y) spec = (inl rs, rest) →
  ∃ rs1 b' rs2, ingest b x spec = (inl rs1, b') ∧ ingest b' y spec = (inl rs2, rest) ∧ rs = rs1 ++ rs2.
Proof.
  rw /ingest => Ha. rw app_assoc => H.
  have [rs1 [b' [rs2 [H1 [H2 [-> Hl]]]]]] := take_records_split _ _ _ _ _ _ Ha (le_n _) H.
  exists rs1, b', rs2. split_and!; last done.
  - rw -H1. apply take_records_fuel => //. rw !length_app. lia.
  - rw -H2. apply take_records_fuel => //. rw !length_app in Hl |- *. lia.
Qed.

(** However the bytes of a stream are cut, the records taken from them are the same. *)
Lemma feed_concat b chunks spec rs rest :
  addressable spec → chunks ≠ [] → ingest b (concat chunks) spec = (inl rs, rest) → feed b chunks spec = (inl rs, rest).
Proof.
  move=> Ha. elim: chunks b rs => [|x [|y l] IH] b rs // _.
  - rw /= app_nil_r => ->. by rw /= app_nil_r.
  - rw [concat _]/= => H. have [rs1 [b' [rs2 [H1 [H2 ->]]]]] := ingest_split _ _ _ _ _ _ Ha H.
    change (feed b (x :: y :: l) spec) with
      (match ingest b x spec with
       | (inr e, b) => (inr e, b)
       | (inl records, b) => let '(r, b) := feed b (y :: l) spec in (more <-! r; inl (records ++ more), b)
       end).
    by rw H1 (IH b' rs2).
Qed.

(** ** Round trip *)

Lemma encode_sendable spec b :
  sendable spec b →
  encode b = encode_header (mkObjectHeader (b_object_id b) (b_sequence b) (N.of_nat (length (b_payload b))) (b_flags b))
               ++ b_payload b.
Proof.
  case=> Hm Hv Hh _ _ He _ _.
  have X : (if (b_extent b =? 0) && negb (bool_decide (b_payload b = []))
            then N.of_nat (length (b_payload b)) else b_extent b) = N.of_nat (length (b_payload b)).
  { case: He => [-> | ->]; last by case: (_ && _). case_bool_decide as E; last reflexivity. by rw E. }
  rw /encode Hm Hv Hh !N.eqb_refl X. reflexivity.
Qed.

Lemma length_encode spec b : sendable spec b → length (encode b) = (40 + length (b_payload b))%nat.
Proof. move=> Hb. by rw (encode_sendable _ _ Hb) length_app length_encode_header. Qed.

#[local] Opaque encode_header.

Lemma read_decoded x spec eof h :
  decode_header x = inl h → extent h ≤ max_extent spec → alignment spec = 0 ∨ extent h mod alignment spec = 0 →
  addressable spec → HEADER_LEN + extent h ≤ N.of_nat (length x) →
  read_object_record x spec eof =
    inl (Complete (mkObjectRecord (object_id h) (sequence h) (extent h) (flags h) (HEADER_LEN + extent h))).
Proof.
  rw /addressable /read_object_record => -> Hm Hal Ha Hl.
  rw (proj2 (N.ltb_ge _ HEADER_LEN)); first lia. rw (proj2 (N.ltb_ge (max_extent spec) _) Hm).
  have -> : negb (alignment spec =? 0) && negb (extent h mod alignment spec =? 0) = false.
  { by case: Hal => ->; rw N.eqb_refl ?andb_false_r. }
  rw u64_add_small; first lia. by rw (proj2 (N.ltb_ge _ _) Hl).
Qed.

Lemma read_encode spec b rest eof :
  addressable spec → sendable spec b →
  read_object_record (encode b ++ rest) spec eof = inl (Complete (i_record (received b))).
Proof.
  move=> Ha Hb. have Hl := length_encode _ _ Hb.
  have Hx := Ha. rw /addressable in Hx.
  have Hd : decode_header (encode b ++ rest) =
    inl (mkObjectHeader (b_object_id b) (b_sequence b) (N.of_nat (length (b_payload b))) (b_flags b)).
  { rw (encode_sendable _ _ Hb) -app_assoc. case: Hb => *. apply decode_encode_header; simpl; lia || done. }
  case: Hb => _ _ _ Hi Hs _ Hmax Hal.
  rw (read_decoded _ _ _ _ Hd) //=. rw length_app Hl /HEADER_LEN. lia.
Qed.

Lemma take_encode spec b rest :
  addressable spec → sendable spec b → take_complete_record (encode b ++ rest) spec = inl (Some (received b, rest)).
Proof.
  move=> Ha Hb. rw /take_complete_record read_encode //=.
  have -> : N.to_nat (HEADER_LEN + N.of_nat (length (b_payload b))) = length (encode b).
  { rw (length_encode _ _ Hb) /HEADER_LEN. lia. }
  by rw take_app_length drop_app_length.
Qed.

Lemma take_records_encode spec bs tail n :
  addressable spec → Forall (sendable spec) bs → read_object_record tail spec false = inl Incomplete →
  (length (concat (encode <$> bs) ++ tail) ≤ n)%nat →
  take_records n (concat (encode <$> bs) ++ tail) spec = (inl (received <$> bs), tail).
Proof.
  move=> Ha Hbs Ht. elim: Hbs n => [|b l Hb _ IH] n Hn.
  { destruct n => //=. by rw /take_complete_record Ht. }
  move: Hn. rw !fmap_cons [concat _]/= -app_assoc length_app (length_encode _ _ Hb) => Hn. destruct n as [|n]; first lia.
  have E := take_encode spec b (concat (encode <$> l) ++ tail) Ha Hb.
  rw [take_records _ _ _]/= E IH //. lia.
Qed.

Lemma payload_received spec b :
  sendable spec b → payload (i_record (received b)) (i_bytes (received b)) = Some (b_payload b).
Proof.
  move=> Hb. have Hl := length_encode _ _ Hb. rw /payload /= Hl.
  rw (proj2 (N.leb_le _ _)); first lia. rw (proj2 (N.leb_le _ _)); first by rw /HEADER_LEN; lia.
  rw /= take_ge; first by rw Hl /HEADER_LEN; lia.
  by rw (encode_sendable _ _ Hb) drop_app_length'.
Qed.

Lemma stream_is_fed spec bs tail chunks :
  addressable spec → Forall (sendable spec) bs → read_object_record tail spec false = inl Incomplete →
  concat chunks = concat (encode <$> bs) ++ tail → feed [] chunks spec = (inl (received <$> bs), tail).
Proof.
  move=> Ha Hbs Ht Hc. destruct (decide (chunks = [])) as [->|Hn].
  - symmetry in Hc. apply app_nil in Hc as [H ->].
    destruct Hbs as [|b l Hb _] => //. apply app_nil in H as [H _].
    by have := length_encode _ _ Hb; rw H.
  - apply feed_concat => //. rw /ingest Hc. by apply take_records_encode.
Qed.

(** Records written to a stream are received: however the bytes of the stream are cut into pieces, the
    receiver takes every record that has come whole, in the order in which they were sent and each with the
    header and the payload it was sent with, and keeps the bytes of the record that has not come whole. *)
Theorem stream_is_received spec bs tail chunks :
  addressable spec → Forall (sendable spec) bs → read_object_record tail spec false = inl Incomplete →
  concat chunks = concat (encode <$> bs) ++ tail →
  feed [] chunks spec = (inl (received <$> bs), tail) ∧
  Forall (λ b, payload (i_record (received b)) (i_bytes (received b)) = Some (b_payload b)) bs.
Proof.
  move=> Ha Hbs Ht Hc. split; first by apply stream_is_fed.
  by eapply Forall_impl => // b; apply payload_received.
Qed.

Definition sample_spec : ObjectSpec := mkObjectSpec 4096 4 Token.

Definition sample_record (id : N) (bytes : list N) : ObjectRecordBuilder :=
  mkBuilder id id 0 bytes OBJECT_MAGIC OBJECT_VERSION HEADER_LEN (mkObjectFlags false true).

Definition sample_bytes : list N :=
  concat (encode <$> [sample_record 1 [1; 2; 3; 4]; sample_record 2 []]) ++ [77; 79].

(** Two records and the first bytes of a third, in three pieces. *)
Lemma stream_is_received_witness :
  feed [] [take 7 sample_bytes; take 50 (drop 7 sample_bytes); drop 57 sample_bytes] sample_spec =
  (inl (received <$> [sample_record 1 [1; 2; 3; 4]; sample_record 2 []]), [77; 79]).
Proof.
  apply (stream_is_received sample_spec [sample_record 1 [1; 2; 3; 4]; sample_record 2 []] [77; 79]).
  - by vm_compute.
  - repeat constructor; vm_compute; by [|left|right].
  - by vm_compute.
  - by vm_compute.
Defined.
