(* ===== verification/EdgeLifecycle.v ===== *)
(** * The life of an edge

    [crates/data-plane/src/edge_lifecycle.rs]: [EdgeEstablisherState], which takes an edge between two nodes
    from its provision to its end.  It observes events and answers with commands to the arena, the worker
    and the wire, and with announcements. *)

From S2P Require Import Prelude.
#[local] Open Scope N_scope.

(** ** Data *)

Abbreviation EdgeId := N.
Abbreviation RingId := N.
Abbreviation LeaseRequestId := N.

Inductive RingDirection := Egress | Ingress.
Inductive ObjectKind := Activation.
Inductive DType := F16.

Record ObjectSpec := mkObjectSpec {
  kind : ObjectKind;
  dtype : DType;
  max_extent_bytes : N;
}.

Record RingSpec := mkRingSpec {
  header_bytes : N;
  spec_data_bytes : N;
  spec_alignment : N;
}.

Record RingLayout := mkRingLayout {
  start_offset : N;
  header_offset : N;
  data_offset : N;
  end_offset : N;
  data_bytes : N;
  alignment : N;
}.

Record QuiescenceProof := mkProof { verified : bool }.

Record ProvisionTx := mkProvisionTx {
  tx_execution_id : N;
  tx_edge_id : EdgeId;
  tx_local_node_id : N;
  tx_consumer_node_id : N;
  tx_object_spec : ObjectSpec;
  tx_ring_spec : RingSpec;
}.

Record ProvisionRx := mkProvisionRx {
  rx_execution_id : N;
  rx_edge_id : EdgeId;
  rx_local_node_id : N;
  rx_object_spec : ObjectSpec;
  rx_ring_spec : RingSpec;
}.

Inductive RingLeaseRejection := CannotFit | ArenaShuttingDown.
Inductive StreamFaultReason := ReadError | WriteError | ProtocolError.
Inductive RingFaultReason := WorkerRejectedRing | WorkerCrashed.

Inductive EdgeEvent :=
| EvProvisionTx (p : ProvisionTx)
| EvProvisionRx (p : ProvisionRx)
| RingLeased (request_id : LeaseRequestId) (ring_id : RingId) (layout : RingLayout)
| RingLeaseRejected (request_id : LeaseRequestId) (reason : RingLeaseRejection)
| RingInstalled (edge_id : EdgeId) (ring_id : RingId)
| DriverEdgeReady (edge_id : EdgeId)
| StreamFault (edge_id : EdgeId) (reason : StreamFaultReason)
| RingFault (edge_id : EdgeId) (ring_id : RingId) (reason : RingFaultReason)
| StopEdge (edge_id : EdgeId)
| PumpStopped (edge_id : EdgeId) (ring_id : RingId)
| RingQuiesced (ring_id : RingId)
| QuiescenceProven (ring_id : RingId)
| StoppedEvent (edge_id : EdgeId).

Inductive EdgeCommand :=
| LeaseRing (request_id : LeaseRequestId) (edge_id : EdgeId) (direction : RingDirection) (ring_spec : RingSpec)
| CancelQueuedLease (request_id : LeaseRequestId) (edge_id : EdgeId)
| InstallWorkerRing (edge_id : EdgeId) (ring_id : RingId) (direction : RingDirection) (layout : RingLayout)
    (object_spec : ObjectSpec) (ring_spec : RingSpec)
| UninstallWorkerRing (edge_id : EdgeId) (ring_id : RingId)
| EstablishSend (edge_id : EdgeId) (consumer_node_id : N) (layout : RingLayout)
| EstablishRecv (edge_id : EdgeId) (layout : RingLayout)
| StopPump (edge_id : EdgeId) (ring_id : RingId)
| ReleaseArenaLease (ring_id : RingId) (proof : QuiescenceProof).

Inductive EdgeFaultReason :=
| FaultLeaseRejected (reason : RingLeaseRejection)
| FaultRing (reason : RingFaultReason)
| FaultStream (reason : StreamFaultReason).

Inductive EdgeLifecycleEvent :=
| EdgeReady (edge_id : EdgeId) (local_edge_actor : N)
| EdgeFaulted (edge_id : EdgeId) (reason : EdgeFaultReason)
| EdgeStopped (edge_id : EdgeId).

Inductive EdgeProvisionState :=
| WaitingForLease | WaitingForWorkerRing | WaitingForDriver | Ready | Stopping | Stopped | Failed.

#[export] Instance provision_state_eq : EqDecision EdgeProvisionState.
Proof. solve_decision. Defined.

Record EdgeRecord := mkEdgeRecord {
  execution_id : N;
  edge_id : EdgeId;
  direction : RingDirection;
  state : EdgeProvisionState;
  lease_request_id : option LeaseRequestId;
  ring_id : option RingId;
  layout : option RingLayout;
  peer_node_id : option N;
  local_edge_actor : N;
  remote_actor_address : option N;
  object_spec : ObjectSpec;
  ring_spec : RingSpec;
  worker_ring_requested : bool;
  worker_installed : bool;
  driver_established : bool;
  pump_stopped : bool;
  worker_ring_quiesced : bool;
  quiescence_proven : bool;
}.

Definition record_eta (r : EdgeRecord) : EdgeRecord :=
  mkEdgeRecord (execution_id r) (edge_id r) (direction r) (state r) (lease_request_id r) (ring_id r) (layout r)
    (peer_node_id r) (local_edge_actor r) (remote_actor_address r) (object_spec r) (ring_spec r)
    (worker_ring_requested r) (worker_installed r) (driver_established r) (pump_stopped r)
    (worker_ring_quiesced r) (quiescence_proven r).

Definition set_state r v : EdgeRecord := ltac:(update_field record_eta r state v).
Definition set_ring_id r v : EdgeRecord := ltac:(update_field record_eta r ring_id v).
Definition set_layout r v : EdgeRecord := ltac:(update_field record_eta r layout v).
Definition set_requested r v : EdgeRecord := ltac:(update_field record_eta r worker_ring_requested v).
Definition set_installed r v : EdgeRecord := ltac:(update_field record_eta r worker_installed v).
Definition set_established r v : EdgeRecord := ltac:(update_field record_eta r driver_established v).
Definition set_pump_stopped r v : EdgeRecord := ltac:(update_field record_eta r pump_stopped v).
Definition set_quiesced r v : EdgeRecord := ltac:(update_field record_eta r worker_ring_quiesced v).
Definition set_proven r v : EdgeRecord := ltac:(update_field record_eta r quiescence_proven v).

Definition new_tx (p : ProvisionTx) (request_id : LeaseRequestId) (actor : N) : EdgeRecord :=
  mkEdgeRecord (tx_execution_id p) (tx_edge_id p) Egress WaitingForLease (Some request_id) None None
    (Some (tx_consumer_node_id p)) actor None (tx_object_spec p) (tx_ring_spec p)
    false false false false false false.

Definition new_rx (p : ProvisionRx) (request_id : LeaseRequestId) (actor : N) : EdgeRecord :=
  mkEdgeRecord (rx_execution_id p) (rx_edge_id p) Ingress WaitingForLease (Some request_id) None None
    None actor None (rx_object_spec p) (rx_ring_spec p) false false false false false false.

Definition worker_ring_cleanup_required (r : EdgeRecord) : bool := worker_ring_requested r || worker_installed r.

Definition teardown_quiesced (r : EdgeRecord) : bool :=
  (negb (driver_established r) || pump_stopped r) &&
  (negb (worker_ring_cleanup_required r) || worker_ring_quiesced r) && quiescence_proven r.

Record LocalEdgeRecord := mkLocalEdgeRecord {
  l_edge_id : EdgeId;
  l_direction : RingDirection;
  l_state : EdgeProvisionState;
  l_lease_request_id : option LeaseRequestId;
  l_ring_id : option RingId;
  l_peer_node_id : option N;
  l_local_edge_actor : N;
  l_remote_actor_address : option N;
}.

Definition snapshot (r : EdgeRecord) : LocalEdgeRecord :=
  mkLocalEdgeRecord (edge_id r) (direction r) (state r) (lease_request_id r) (ring_id r) (peer_node_id r)
    (local_edge_actor r) (remote_actor_address r).

Record EdgeEstablisherState := mkEstablisher {
  local_node_id : N;
  next_request_id : N;
  next_actor_id : N;
  records : gmap EdgeId EdgeRecord;
  commands : list EdgeCommand;
  events : list EdgeLifecycleEvent;
}.

Definition establisher_eta (s : EdgeEstablisherState) : EdgeEstablisherState :=
  mkEstablisher (local_node_id s) (next_request_id s) (next_actor_id s) (records s) (commands s) (events s).

Definition set_next_request s v : EdgeEstablisherState := ltac:(update_field establisher_eta s next_request_id v).
Definition set_next_actor s v : EdgeEstablisherState := ltac:(update_field establisher_eta s next_actor_id v).
Definition set_records s v : EdgeEstablisherState := ltac:(update_field establisher_eta s records v).
Definition set_commands s v : EdgeEstablisherState := ltac:(update_field establisher_eta s commands v).
Definition set_events s v : EdgeEstablisherState := ltac:(update_field establisher_eta s events v).

Definition new (local_node_id : N) : EdgeEstablisherState := mkEstablisher local_node_id 1 1 ∅ [] [].

Definition local_record (s : EdgeEstablisherState) (e : EdgeId) : option LocalEdgeRecord :=
  snapshot <$> records s !! e.

Definition push (s : EdgeEstablisherState) (c : EdgeCommand) : EdgeEstablisherState := set_commands s (commands s ++ [c]).
Definition announce (s : EdgeEstablisherState) (e : EdgeLifecycleEvent) : EdgeEstablisherState :=
  set_events s (events s ++ [e]).

(** What the code writes through [get_mut]. *)
Definition put (s : EdgeEstablisherState) (e : EdgeId) (r : EdgeRecord) : EdgeEstablisherState :=
  set_records s (<[e := r]> (records s)).

(** ** Handlers *)

(** [find_map] over the records, in the order of their edges. *)
Definition edge_where (p : EdgeRecord → bool) (s : EdgeEstablisherState) : option EdgeId :=
  head (omap (λ er, if p er.2 then Some er.1 else None) (btree_entries (records s))).

Definition edge_for_request (s : EdgeEstablisherState) (q : LeaseRequestId) : option EdgeId :=
  edge_where (λ r, bool_decide (lease_request_id r = Some q)) s.

Definition edge_for_waiting_request (s : EdgeEstablisherState) (q : LeaseRequestId) : option EdgeId :=
  edge_where (λ r, bool_decide (state r = WaitingForLease) && bool_decide (lease_request_id r = Some q)) s.

Definition edge_for_ring (s : EdgeEstablisherState) (ring : RingId) : option EdgeId :=
  edge_where (λ r, bool_decide (ring_id r = Some ring)) s.

Definition take_request_id (s : EdgeEstablisherState) : LeaseRequestId * EdgeEstablisherState :=
  (next_request_id s, set_next_request s (next_request_id s +64 1)).

Definition next_actor_address (s : EdgeEstablisherState) : N * EdgeEstablisherState :=
  (next_actor_id s, set_next_actor s (next_actor_id s +64 1)).

Definition provision_tx (s : EdgeEstablisherState) (p : ProvisionTx) : EdgeEstablisherState :=
  if negb (tx_local_node_id p =? local_node_id s) then s
  else
    let '(q, s) := take_request_id s in
    let '(actor, s) := next_actor_address s in
    let e := tx_edge_id p in
    let s := put s e (new_tx p q actor) in
    push s (LeaseRing q e Egress (tx_ring_spec p)).

Definition provision_rx (s : EdgeEstablisherState) (p : ProvisionRx) : EdgeEstablisherState :=
  if negb (rx_local_node_id p =? local_node_id s) then s
  else
    let '(q, s) := take_request_id s in
    let '(actor, s) := next_actor_address s in
    let e := rx_edge_id p in
    let s := put s e (new_rx p q actor) in
    push s (LeaseRing q e Ingress (rx_ring_spec p)).

Definition ring_leased (s : EdgeEstablisherState) (q : LeaseRequestId) (ring : RingId) (l : RingLayout)
    : EdgeEstablisherState :=
  match edge_for_request s q with
  | None => s
  | Some e =>
      match records s !! e with
      | None => s
      | Some r =>
          if negb (bool_decide (state r = WaitingForLease)) then push s (ReleaseArenaLease ring (mkProof true))
          else
            let r := set_ring_id r (Some ring) in
            let r := set_layout r (Some l) in
            let r := set_requested r true in
            let r := set_state r WaitingForWorkerRing in
            push (put s e r) (InstallWorkerRing e ring (direction r) l (object_spec r) (ring_spec r))
      end
  end.

Definition ring_lease_rejected (s : EdgeEstablisherState) (q : LeaseRequestId) (reason : RingLeaseRejection)
    : EdgeEstablisherState :=
  match edge_for_waiting_request s q with
  | None => s
  | Some e =>
      match records s !! e with
      | None => s
      | Some r => announce (put s e (set_state r Failed)) (EdgeFaulted e (FaultLeaseRejected reason))
      end
  end.

Definition ring_installed (s : EdgeEstablisherState) (e : EdgeId) (ring : RingId) : EdgeEstablisherState :=
  match records s !! e with
  | None => s
  | Some r =>
      if negb (bool_decide (state r = WaitingForWorkerRing)) || negb (bool_decide (ring_id r = Some ring)) then s
      else
        match layout r with
        | None => s
        | Some l =>
            let r := set_installed r true in
            let r := set_established r true in
            let r := set_state r WaitingForDriver in
            let s := put s e r in
            match direction r with
            | Egress =>
                match peer_node_id r with
                | Some consumer => push s (EstablishSend e consumer l)
                | None => s
                end
            | Ingress => push s (EstablishRecv e l)
            end
        end
  end.

Definition driver_edge_ready (s : EdgeEstablisherState) (e : EdgeId) : EdgeEstablisherState :=
  match records s !! e with
  | None => s
  | Some r =>
      if negb (bool_decide (state r = WaitingForDriver)) then s
      else announce (put s e (set_state r Ready)) (EdgeReady e (local_edge_actor r))
  end.

Definition mark_stopped_with_event (s : EdgeEstablisherState) (e : EdgeId) : EdgeEstablisherState :=
  match records s !! e with
  | None => s
  | Some r =>
      if bool_decide (state r = Stopped) then s
      else announce (put s e (set_state r Stopped)) (EdgeStopped e)
  end.

Definition mark_stopped (s : EdgeEstablisherState) (e : EdgeId) : EdgeEstablisherState :=
  match records s !! e with
  | None => s
  | Some r => put s e (set_state r Stopped)
  end.

Definition release_ring (s : EdgeEstablisherState) (e : EdgeId) (ring : RingId) : EdgeEstablisherState :=
  mark_stopped_with_event (push s (ReleaseArenaLease ring (mkProof true))) e.

Definition release_after_teardown_proofs (s : EdgeEstablisherState) (e : EdgeId) (ring : RingId)
    : EdgeEstablisherState :=
  match records s !! e with
  | None => s
  | Some r =>
      if negb (bool_decide (state r = Stopping)) || negb (bool_decide (ring_id r = Some ring)) ||
         negb (teardown_quiesced r)
      then s else release_ring s e ring
  end.

Definition start_stopping (s : EdgeEstablisherState) (e : EdgeId) (cancel_lease : bool) : EdgeEstablisherState :=
  match records s !! e with
  | None => s
  | Some r =>
      if bool_decide (state r = Stopping) || bool_decide (state r = Stopped) then s
      else
        let s := put s e (set_state r Stopping) in
        let s :=
          match lease_request_id r with
          | Some q => if cancel_lease then push s (CancelQueuedLease q e) else s
          | None => s
          end in
        match ring_id r with
        | None => mark_stopped_with_event s e
        | Some ring =>
            let s := if driver_established r then push s (StopPump e ring) else s in
            let s := if worker_ring_cleanup_required r then push s (UninstallWorkerRing e ring) else s in
            if negb (driver_established r) && negb (worker_ring_cleanup_required r)
            then release_ring s e ring else s
        end
  end.

Definition stop_edge (s : EdgeEstablisherState) (e : EdgeId) : EdgeEstablisherState := start_stopping s e true.

Definition fault_edge (s : EdgeEstablisherState) (e : EdgeId) (reason : EdgeFaultReason) : EdgeEstablisherState :=
  match records s !! e with
  | None => s
  | Some r =>
      if bool_decide (state r = Stopping) || bool_decide (state r = Stopped) || bool_decide (state r = Failed)
      then s else start_stopping (announce s (EdgeFaulted e reason)) e true
  end.

Definition ring_fault (s : EdgeEstablisherState) (e : EdgeId) (ring : RingId) (reason : RingFaultReason)
    : EdgeEstablisherState :=
  match records s !! e with
  | None => s
  | Some r => if negb (bool_decide (ring_id r = Some ring)) then s else fault_edge s e (FaultRing reason)
  end.

Definition on_pump_stopped (s : EdgeEstablisherState) (e : EdgeId) (ring : RingId) : EdgeEstablisherState :=
  match records s !! e with
  | None => s
  | Some r =>
      if negb (bool_decide (state r = Stopping)) || negb (bool_decide (ring_id r = Some ring)) then s
      else release_after_teardown_proofs (put s e (set_pump_stopped r true)) e ring
  end.

Definition ring_quiesced (s : EdgeEstablisherState) (ring : RingId) : EdgeEstablisherState :=
  match edge_for_ring s ring with
  | None => s
  | Some e =>
      match records s !! e with
      | None => s
      | Some r =>
          if negb (bool_decide (state r = Stopping)) then s
          else release_after_teardown_proofs (put s e (set_quiesced r true)) e ring
      end
  end.

Definition on_quiescence_proven (s : EdgeEstablisherState) (ring : RingId) : EdgeEstablisherState :=
  match edge_for_ring s ring with
  | None => s
  | Some e =>
      match records s !! e with
      | None => s
      | Some r =>
          if negb (bool_decide (state r = Stopping)) then s
          else release_after_teardown_proofs (put s e (set_proven r true)) e ring
      end
  end.

Definition observe (s : EdgeEstablisherState) (event : EdgeEvent) : EdgeEstablisherState :=
  match event with
  | EvProvisionTx p => provision_tx s p
  | EvProvisionRx p => provision_rx s p
  | RingLeased q ring l => ring_leased s q ring l
  | RingLeaseRejected q reason => ring_lease_rejected s q reason
  | RingInstalled e ring => ring_installed s e ring
  | DriverEdgeReady e => driver_edge_ready s e
  | StreamFault e reason => fault_edge s e (FaultStream reason)
  | RingFault e ring reason => ring_fault s e ring reason
  | StopEdge e => stop_edge s e
  | PumpStopped e ring => on_pump_stopped s e ring
  | RingQuiesced ring => ring_quiesced s ring
  | QuiescenceProven ring => on_quiescence_proven s ring
  | StoppedEvent e => mark_stopped s e
  end.

(** The establisher of a node after a sequence of events. *)
Definition run (node : N) (evs : list EdgeEvent) : EdgeEstablisherState := foldl observe (new node) evs.

(** ** The steps of one edge

    An event changes at most one record, and what it adds to the commands and announcements follows from
    that record. *)

Definition provision_of (ev : EdgeEvent) (q : LeaseRequestId) (actor : N) : option (EdgeId * EdgeRecord) :=
  match ev with
  | EvProvisionTx p => Some (tx_edge_id p, new_tx p q actor)
  | EvProvisionRx p => Some (rx_edge_id p, new_rx p q actor)
  | _ => None
  end.

Definition with_ring (r : EdgeRecord) (ring : RingId) (l : RingLayout) : EdgeRecord :=
  set_state (set_requested (set_layout (set_ring_id r (Some ring)) (Some l)) true) WaitingForWorkerRing.

Definition with_driver (r : EdgeRecord) : EdgeRecord :=
  set_state (set_established (set_installed r true) true) WaitingForDriver.

Definition establish_commands (e : EdgeId) (r : EdgeRecord) (l : RingLayout) : list EdgeCommand :=
  match direction r with
  | Egress => match peer_node_id r with Some consumer => [EstablishSend e consumer l] | None => [] end
  | Ingress => [EstablishRecv e l]
  end.

(** Whether a stop is complete at once: there is no ring, or no one uses it. *)
Definition idle (r : EdgeRecord) : bool :=
  match ring_id r with
  | None => true
  | Some _ => negb (driver_established r) && negb (worker_ring_cleanup_required r)
  end.

Definition stop_commands (e : EdgeId) (r : EdgeRecord) : list EdgeCommand :=
  match lease_request_id r with Some q => [CancelQueuedLease q e] | None => [] end ++
  match ring_id r with
  | None => []
  | Some ring =>
      (if driver_established r then [StopPump e ring] else []) ++
      (if worker_ring_cleanup_required r then [UninstallWorkerRing e ring] else []) ++
      (if negb (driver_established r) && negb (worker_ring_cleanup_required r)
       then [ReleaseArenaLease ring (mkProof true)] else [])
  end.

(** The proof an event brings for the teardown of an edge, and the record that has it. *)
Inductive proves (r : EdgeRecord) (e : EdgeId) (ring : RingId) : EdgeEvent → EdgeRecord → Prop :=
| proves_pump : proves r e ring (PumpStopped e ring) (set_pump_stopped r true)
| proves_quiesced : proves r e ring (RingQuiesced ring) (set_quiesced r true)
| proves_quiescence : proves r e ring (QuiescenceProven ring) (set_proven r true).

Definition faults (ev : EdgeEvent) (e : EdgeId) (reason : EdgeFaultReason) : Prop :=
  match ev with
  | StreamFault e' x => e' = e ∧ reason = FaultStream x
  | RingFault e' _ x => e' = e ∧ reason = FaultRing x
  | _ => False
  end.

Inductive move (ev : EdgeEvent) (e : EdgeId)
  : option EdgeRecord → EdgeRecord → list EdgeCommand → list EdgeLifecycleEvent → Prop :=
| move_provision old q actor r :
    provision_of ev q actor = Some (e, r) → move ev e old r [LeaseRing q e (direction r) (ring_spec r)] []
| move_leased r q ring l :
    ev = RingLeased q ring l → lease_request_id r = Some q → state r = WaitingForLease →
    move ev e (Some r) (with_ring r ring l)
      [InstallWorkerRing e ring (direction r) l (object_spec r) (ring_spec r)] []
| move_late r q ring l :
    ev = RingLeased q ring l → lease_request_id r = Some q → state r ≠ WaitingForLease →
    move ev e (Some r) r [ReleaseArenaLease ring (mkProof true)] []
| move_rejected r q reason :
    ev = RingLeaseRejected q reason → lease_request_id r = Some q → state r = WaitingForLease →
    move ev e (Some r) (set_state r Failed) [] [EdgeFaulted e (FaultLeaseRejected reason)]
| move_installed r ring l :
    ev = RingInstalled e ring → state r = WaitingForWorkerRing → ring_id r = Some ring → layout r = Some l →
    move ev e (Some r) (with_driver r) (establish_commands e r l) []
| move_ready r :
    ev = DriverEdgeReady e → state r = WaitingForDriver →
    move ev e (Some r) (set_state r Ready) [] [EdgeReady e (local_edge_actor r)]
| move_stop r pre :
    state r ≠ Stopping → state r ≠ Stopped →
    (ev = StopEdge e ∧ pre = []) ∨
      (∃ reason, faults ev e reason ∧ state r ≠ Failed ∧ pre = [EdgeFaulted e reason]) →
    move ev e (Some r) (set_state r (if idle r then Stopped else Stopping)) (stop_commands e r)
      (pre ++ if idle r then [EdgeStopped e] else [])
| move_proof r r' ring :
    state r = Stopping → ring_id r = Some ring → proves r e ring ev r' →
    move ev e (Some r) (if teardown_quiesced r' then set_state r' Stopped else r')
      (if teardown_quiesced r' then [ReleaseArenaLease ring (mkProof true)] else [])
      (if teardown_quiesced r' then [EdgeStopped e] else [])
| move_stopped r :
    ev = StoppedEvent e → move ev e (Some r) (set_state r Stopped) [] [].

Record after (s : EdgeEstablisherState) (e : EdgeId) (r : EdgeRecord) (cs : list EdgeCommand)
    (es : list EdgeLifecycleEvent) (s' : EdgeEstablisherState) : Prop := {
  after_records : records s' = <[e := r]> (records s);
  after_commands : commands s' = commands s ++ cs;
  after_events : events s' = events s ++ es;
}.

Inductive step (ev : EdgeEvent) (s : EdgeEstablisherState) : EdgeEstablisherState → Prop :=
| step_idle : step ev s s
| step_move e r cs es s' : move ev e (records s !! e) r cs es → after s e r cs es s' → step ev s s'.

Lemma edge_where_Some p s e : edge_where p s = Some e → ∃ r, records s !! e = Some r ∧ p r = true.
Proof.
  rw /edge_where. destruct (omap _ _) as [|x l] eqn:E => //= -[Hx]. subst x.
  have : e ∈ omap (λ er, if p er.2 then Some er.1 else None) (btree_entries (records s)) by rw E; left.
  rw list_elem_of_omap => -[[e' r] [/elem_of_btree_entries H /=]]. case E' : (p r) => // -[<-]. by exists r.
Qed.

Lemma edge_where_is_Some p s e r : records s !! e = Some r → p r = true → ∃ e', edge_where p s = Some e'.
Proof.
  move=> Hr Hp. rw /edge_where. destruct (omap _ _) as [|x l] eqn:E; last by exists x.
  have : e ∈ omap (λ er, if p er.2 then Some er.1 else None) (btree_entries (records s)).
  { rw list_elem_of_omap. exists (e, r). by rw elem_of_btree_entries /= Hp. }
  rw E. by move=> /elem_of_nil.
Qed.

(** A record is found by what only it has. *)
Lemma edge_where_only p s e r :
  records s !! e = Some r → p r = true → (∀ e' r', records s !! e' = Some r' → p r' = true → e' = e) →
  edge_where p s = Some e.
Proof.
  move=> Hr Hp Hu. have [e' He] := edge_where_is_Some _ _ _ _ Hr Hp.
  have [r' [Hr' Hp']] := edge_where_Some _ _ _ He. by rw He (Hu _ _ Hr' Hp').
Qed.

Lemma mark_stopped_after s e r :
  records s !! e = Some r → state r ≠ Stopped → after s e (set_state r Stopped) [] [EdgeStopped e] (mark_stopped_with_event s e).
Proof. move=> Hr Hs. rw /mark_stopped_with_event Hr bool_decide_false //. split; simpl; rw ?app_nil_r //. Qed.

Lemma after_put s e r r' cs es s' :
  after (put s e r) e r' cs es s' → after s e r' cs es s'.
Proof. case=> Hr Hc He. split => //. by rw Hr /= insert_insert_eq. Qed.

Lemma after_push s e r c cs es s' : after (push s c) e r cs es s' → after s e r (c :: cs) es s'.
Proof. case=> Hr Hc He. split => //. by rw Hc /= -app_assoc. Qed.

Lemma after_announce s e r x cs es s' : after (announce s x) e r cs es s' → after s e r cs (x :: es) s'.
Proof. case=> Hr Hc He. split => //. by rw He /= -app_assoc. Qed.

Lemma put_after s e r : after s e r [] [] (put s e r).
Proof. split; by rw /= ?app_nil_r. Qed.

Lemma teardown_after s e r' ring :
  state r' = Stopping → ring_id r' = Some ring →
  after s e (if teardown_quiesced r' then set_state r' Stopped else r')
    (if teardown_quiesced r' then [ReleaseArenaLease ring (mkProof true)] else [])
    (if teardown_quiesced r' then [EdgeStopped e] else []) (release_after_teardown_proofs (put s e r') e ring).
Proof.
  move=> Hs Hr. rw /release_after_teardown_proofs /= lookup_insert_eq Hs Hr !bool_decide_true //=.
  case: (teardown_quiesced r'); last apply put_after.
  apply (after_put _ _ r'), after_push, mark_stopped_after; [by rw /= lookup_insert_eq|by rw Hs].
Qed.

Lemma stopping_after s e r :
  records s !! e = Some r → state r ≠ Stopping → state r ≠ Stopped →
  after s e (set_state r (if idle r then Stopped else Stopping)) (stop_commands e r)
    (if idle r then [EdgeStopped e] else []) (start_stopping s e true).
Proof.
  move=> Hr H1 H2. rw /start_stopping Hr !bool_decide_false //= /stop_commands /idle.
  apply (after_put _ _ (set_state r Stopping)).
  set s1 := put s e (set_state r Stopping).
  have Hs1 : records s1 !! e = Some (set_state r Stopping) by rw /= lookup_insert_eq.
  have Ha t : records t = records s1 → after t e (set_state r Stopped) [] [EdgeStopped e] (mark_stopped_with_event t e).
  { move=> Ht. apply (mark_stopped_after t e (set_state r Stopping)) => //. by rw Ht. }
  have Hp t : records t = records s1 → after t e (set_state r Stopping) [] [] t.
  { move=> Ht. split; rw ?app_nil_r // Ht insert_id //. }
  destruct (lease_request_id r) as [q|]; destruct (ring_id r) as [ring|];
    destruct (driver_established r), (worker_ring_cleanup_required r); simpl;
    repeat apply after_push; rw /release_ring; try apply after_push; by [apply Ha|apply Hp].
Qed.

Lemma fault_step s ev e reason : faults ev e reason → step ev s (fault_edge s e reason).
Proof.
  move=> Hf. rw /fault_edge. destruct (records s !! e) as [r|] eqn:Hr; last by constructor.
  repeat (case_bool_decide; first by constructor). rw /=. eapply (step_move _ _ e).
  - rw Hr. apply (move_stop _ _ r [EdgeFaulted e reason]) => //. right. by exists reason.
  - by apply after_announce, stopping_after.
Qed.

Lemma proof_step s ev e r r' ring :
  records s !! e = Some r → state r = Stopping → ring_id r = Some ring → proves r e ring ev r' →
  step ev s (release_after_teardown_proofs (put s e r') e ring).
Proof.
  move=> Hr Hs Hg Hp. eapply (step_move _ _ e).
  - rw Hr. by apply (move_proof _ _ r r' ring).
  - apply teardown_after; by destruct Hp.
Qed.

Lemma leased_step s q ring l : step (RingLeased q ring l) s (ring_leased s q ring l).
Proof.
  rw /ring_leased. destruct (edge_for_request s q) as [e|] eqn:He; last by constructor.
  apply edge_where_Some in He as [r [Hr Hq%bool_decide_eq_true]]. rw Hr. case_bool_decide as Hs => /=.
  - eapply (step_move _ _ e); first by rw Hr; apply (move_leased _ _ r q ring l).
    split; by rw /= ?app_nil_r.
  - eapply (step_move _ _ e); first by rw Hr; apply (move_late _ _ r q ring l).
    split; by rw /= ?app_nil_r ?insert_id.
Qed.

Lemma rejected_step s q reason : step (RingLeaseRejected q reason) s (ring_lease_rejected s q reason).
Proof.
  rw /ring_lease_rejected. destruct (edge_for_waiting_request s q) as [e|] eqn:He; last by constructor.
  apply edge_where_Some in He as [r [Hr Hq]]. bool_to_prop. rw Hr.
  eapply (step_move _ _ e); first by rw Hr; apply (move_rejected _ _ r q reason).
  split; by rw /= ?app_nil_r.
Qed.

Lemma installed_step s e ring : step (RingInstalled e ring) s (ring_installed s e ring).
Proof.
  rw /ring_installed. destruct (records s !! e) as [r|] eqn:Hr; last by constructor.
  case_bool_decide as Hs; last by constructor. case_bool_decide as Hg; last by constructor.
  destruct (layout r) as [l|] eqn:Hl; last by constructor.
  eapply (step_move _ _ e); first by rw Hr; apply (move_installed _ _ r ring l).
  rw /establish_commands /=. destruct (direction r), (peer_node_id r); split; by rw /= ?app_nil_r.
Qed.

Lemma stop_step s e : step (StopEdge e) s (stop_edge s e).
Proof.
  rw /stop_edge. destruct (records s !! e) as [r|] eqn:Hr; last by rw /start_stopping Hr; constructor.
  destruct (decide (state r = Stopping)) as [H1|H1]; first by rw /start_stopping Hr bool_decide_true //; constructor.
  destruct (decide (state r = Stopped)) as [H2|H2].
  { rw /start_stopping Hr (bool_decide_true (_ = Stopped)) // orb_true_r. constructor. }
  eapply (step_move _ _ e); last by apply stopping_after.
  rw Hr. apply (move_stop _ _ r []) => //. by left.
Qed.

(** Every event is such a step. *)
Lemma observe_step s ev : step ev s (observe s ev).
Proof.
  destruct ev as [p|p|q ring l|q reason|e ring|e|e x|e ring x|e|e ring|ring|ring|e]; simpl.
  - rw /provision_tx. case: (_ =? _) => /=; last by constructor.
    eapply (step_move _ _ (tx_edge_id p)); [by apply (move_provision _ _ _ (next_request_id s) (next_actor_id s))|].
    split; by rw /= ?app_nil_r.
  - rw /provision_rx. case: (_ =? _) => /=; last by constructor.
    eapply (step_move _ _ (rx_edge_id p)); [by apply (move_provision _ _ _ (next_request_id s) (next_actor_id s))|].
    split; by rw /= ?app_nil_r.
  - apply leased_step.
  - apply rejected_step.
  - apply installed_step.
  - rw /driver_edge_ready. destruct (records s !! e) as [r|] eqn:Hr; last by constructor.
    case_bool_decide as Hs; last by constructor.
    eapply (step_move _ _ e); first by rw Hr; apply (move_ready _ _ r).
    split; by rw /= ?app_nil_r.
  - by apply fault_step.
  - rw /ring_fault. destruct (records s !! e) as [r|]; last by constructor.
    case: (negb _); first by constructor. by apply fault_step.
  - apply stop_step.
  - rw /on_pump_stopped. destruct (records s !! e) as [r|] eqn:Hr; last by constructor.
    case_bool_decide as Hs; last by constructor. case_bool_decide as Hg; last by constructor.
    apply (proof_step _ _ _ r) => //. constructor.
  - rw /ring_quiesced. destruct (edge_for_ring s ring) as [e|] eqn:He; last by constructor.
    apply edge_where_Some in He as [r [Hr Hg%bool_decide_eq_true]]. rw Hr.
    case_bool_decide as Hs; last by constructor. apply (proof_step _ _ _ r) => //. constructor.
  - rw /on_quiescence_proven. destruct (edge_for_ring s ring) as [e|] eqn:He; last by constructor.
    apply edge_where_Some in He as [r [Hr Hg%bool_decide_eq_true]]. rw Hr.
    case_bool_decide as Hs; last by constructor. apply (proof_step _ _ _ r) => //. constructor.
  - rw /mark_stopped. destruct (records s !! e) as [r|] eqn:Hr; last by constructor.
    eapply (step_move _ _ e); first by rw Hr; apply move_stopped. apply put_after.
Qed.
