(* ===== verification/EdgeSafety.v ===== *)
(** * What an edge's life keeps

    The invariant of [EdgeLifecycle] over every sequence of events, and what follows: a ring goes back to
    the arena once, and only when the wire and the worker have let go of it; an edge is announced at most
    once as ready, as faulted and as stopped, in this order; a stop completes when its proofs have come. *)

From S2P Require Import Prelude EdgeLifecycle.
#[local] Open Scope N_scope.

(** ** Histories *)

Definition provisioned (ev : EdgeEvent) : option EdgeId := fst <$> provision_of ev 0 0.

Definition leased (ev : EdgeEvent) : option RingId := match ev with RingLeased _ ring _ => Some ring | _ => None end.

Definition released (c : EdgeCommand) : option RingId :=
  match c with ReleaseArenaLease ring _ => Some ring | _ => None end.

(** What an edge's user and the arena promise: an edge is provisioned once, and a ring leased once. *)
Record well_used (evs : list EdgeEvent) : Prop := {
  edges_once : NoDup (omap provisioned evs);
  rings_once : NoDup (omap leased evs);
}.

Definition establishes (c : EdgeCommand) (e : EdgeId) : Prop :=
  match c with EstablishSend e' _ _ | EstablishRecv e' _ => e' = e | _ => False end.

(** ** The invariant *)

Record record_ok (evs : list EdgeEvent) (e : EdgeId) (r : EdgeRecord) : Prop := {
  ok_known : e ∈ omap provisioned evs;
  ok_leased g : ring_id r = Some g → g ∈ omap leased evs ∧ worker_ring_requested r = true;
  ok_pump g : ring_id r = Some g → pump_stopped r = true → PumpStopped e g ∈ evs;
  ok_quiesced g : ring_id r = Some g → worker_ring_quiesced r = true → RingQuiesced g ∈ evs;
  ok_proven g : ring_id r = Some g → quiescence_proven r = true → QuiescenceProven g ∈ evs;
  ok_none : ring_id r = None → driver_established r = false ∧ pump_stopped r = false ∧
    worker_ring_quiesced r = false ∧ quiescence_proven r = false;
  ok_waiting : state r = WaitingForLease → ring_id r = None;
}.

Record inv (evs : list EdgeEvent) (s : EdgeEstablisherState) : Prop := {
  i_records e r : records s !! e = Some r → record_ok evs e r;
  i_unique e e' r r' g :
    records s !! e = Some r → records s !! e' = Some r' → ring_id r = Some g → ring_id r' = Some g → e = e';
  i_installed e g d l o k :
    InstallWorkerRing e g d l o k ∈ commands s → ∃ r, records s !! e = Some r ∧ ring_id r = Some g;
  i_established c e :
    c ∈ commands s → establishes c e → ∃ r, records s !! e = Some r ∧ driver_established r = true;
  i_released g p :
    ReleaseArenaLease g p ∈ commands s → verified p = true ∧ g ∈ omap leased evs ∧
      ∀ e r, records s !! e = Some r → ring_id r = Some g → state r = Stopped ∧ teardown_quiesced r = true;
  i_once : NoDup (omap released (commands s));
}.

Lemma well_used_prefix evs evs' : well_used (evs ++ evs') → well_used evs.
Proof. case. rw !omap_app => /NoDup_app [H _] /NoDup_app [H' _]. by split. Qed.

Lemma leased_fresh evs ev g : well_used (evs ++ [ev]) → leased ev = Some g → g ∉ omap leased evs.
Proof. case=> _. rw omap_app => /NoDup_app [_ [H _]] Hg /H. rw /= Hg. set_solver. Qed.

Lemma provisioned_fresh evs ev e : well_used (evs ++ [ev]) → provisioned ev = Some e → e ∉ omap provisioned evs.
Proof. case. rw omap_app => /NoDup_app [_ [H _]] _ He /H. rw /= He. set_solver. Qed.

Lemma provision_of_edge ev q a e r : provision_of ev q a = Some (e, r) → provisioned ev = Some e.
Proof. by destruct ev => //= -[<- _]. Qed.

Lemma record_ok_more evs evs' e r : record_ok evs e r → record_ok (evs ++ evs') e r.
Proof.
  case=> H1 H2 H3 H4 H5 H6 H7. split; rw ?omap_app => //.
  - set_solver.
  - move=> g /H2 [H ?]. split => //. set_solver.
  - move=> g Hg /(H3 _ Hg). set_solver.
  - move=> g Hg /(H4 _ Hg). set_solver.
  - move=> g Hg /(H5 _ Hg). set_solver.
Qed.

Lemma new_record_ok evs ev e q a r : provision_of ev q a = Some (e, r) → record_ok (evs ++ [ev]) e r.
Proof.
  move=> H. have He := provision_of_edge _ _ _ _ _ H. split.
  1: { rw omap_app /= He. set_solver. }
  all: by destruct ev => //; case: H => _ <-.
Qed.

(** The record a step leaves. *)
Lemma move_record_ok evs ev e old r cs es :
  (∀ x, old = Some x → record_ok evs e x) → move ev e old r cs es → record_ok (evs ++ [ev]) e r.
Proof.
  move=> Hold Hm. destruct Hm as [old q a r H|r q g l -> Hq Hs|r q g l -> Hq Hs|r q x -> Hq Hs|r g l -> Hs Hg Hl
    |r -> Hs|r pre Hs1 Hs2 H|r r' g Hs Hg Hp|r ->]; first by eapply new_record_ok.
  all: match goal with |- record_ok (?h ++ ?t) _ _ =>
         have [H1 H2 H3 H4 H5 H6 H7] := record_ok_more h t _ _ (Hold _ eq_refl) end.
  - have [Hd [Hp [Hq' Hv]]] := H6 (H7 Hs). split => //=.
    + move=> _ [<-]. split => //. rw omap_app /=. set_solver.
    + by rw Hp.
    + by rw Hq'.
    + by rw Hv.
  - by split.
  - by split => //= ?.
  - split => //=. by rw Hg.
  - by split.
  - split => //=. by case: (idle r).
  - have Hok : record_ok (evs ++ [ev]) e r'.
    { destruct Hp; split => //=; try (by rw Hg); try (by rw Hs);
        move=> g' E; rw Hg in E; case: E => <- _; set_solver. }
    case: (teardown_quiesced r') => //. by case: Hok => *; split.
  - by split.
Qed.

(** ** Preservation *)

Lemma move_ring ev e old r cs es g :
  move ev e old r cs es → ring_id r = Some g →
  (∃ x, old = Some x ∧ ring_id x = Some g) ∨ leased ev = Some g.
Proof.
  move=> Hm. destruct Hm as [? ? ? ? H|? ? ? ? ->|? ? ? ? ->| | | | |r r' ? ? ? Hp|] => /=; eauto.
  - by destruct ev => //; case: H => _ <-.
  - move=> Hg. left. exists r. split => //. move: Hg. by destruct Hp; case: (teardown_quiesced _).
Qed.

(** A record that stays: what it has it keeps. *)
Record kept (r r' : EdgeRecord) : Prop := {
  kept_ring g : ring_id r = Some g → ring_id r' = Some g;
  kept_established : driver_established r = true → driver_established r' = true;
  kept_stopped : state r = Stopped → state r' = Stopped ∧ teardown_quiesced r' = teardown_quiesced r;
  kept_stopping : state r = Stopping → state r' = Stopping ∨ state r' = Stopped;
  kept_request : lease_request_id r' = lease_request_id r;
  kept_pump : pump_stopped r = true → pump_stopped r' = true;
  kept_quiesced : worker_ring_quiesced r = true → worker_ring_quiesced r' = true;
  kept_proven : quiescence_proven r = true → quiescence_proven r' = true;
}.

Lemma move_kept evs ev e r r' cs es :
  record_ok evs e r → provisioned ev = None → move ev e (Some r) r' cs es → kept r r'.
Proof.
  move=> Hok Hn. have Hw := ok_waiting _ _ _ Hok. move E : (Some r) => old Hm. move: E.
  destruct Hm as [? ? ? ? H|x q g l -> Hq Hs|x q g l -> Hq Hs|x q y -> Hq Hs|x g l -> Hs Hg Hl
    |x -> Hs|x pre Hs1 Hs2 H|x x' g Hs Hg Hp|x ->] => E; first by rw (provision_of_edge _ _ _ _ _ H) in Hn.
  all: case: E => ?; subst x.
  - split => //=; by rw ?Hw ?Hs.
  - split => //=; by left.
  - split => //=; by rw Hs.
  - split => //=; by rw Hs.
  - split => //=; by rw Hs.
  - by split.
  - destruct Hp; case: (teardown_quiesced _); split => //=; rw Hs; by [|left|right].
  - split => //=. by right.
Qed.

(** The commands of a step. *)
Record commands_ok (ev : EdgeEvent) (e : EdgeId) (old : option EdgeRecord) (r : EdgeRecord) (cs : list EdgeCommand) : Prop := {
  c_installed e' g d l o k : InstallWorkerRing e' g d l o k ∈ cs → e' = e ∧ ring_id r = Some g;
  c_established c e' : c ∈ cs → establishes c e' → e' = e ∧ driver_established r = true;
  c_released g p : ReleaseArenaLease g p ∈ cs → verified p = true ∧
    ((leased ev = Some g ∧ old = Some r) ∨
     ∃ x, old = Some x ∧ ring_id x = Some g ∧ state x = Stopping ∧ state r = Stopped ∧ teardown_quiesced r = true);
  c_once : NoDup (omap released cs);
}.

Lemma commands_none ev e old r cs :
  Forall (λ c, match c with InstallWorkerRing _ _ _ _ _ _ | EstablishSend _ _ _ | EstablishRecv _ _
                          | ReleaseArenaLease _ _ => False | _ => True end) cs →
  commands_ok ev e old r cs.
Proof.
  move=> /Forall_forall H. split.
  - by move=> > /H.
  - by move=> c e' /H; destruct c.
  - by move=> > /H.
  - have -> : omap released cs = []; last constructor.
    apply elem_of_nil_inv => g /list_elem_of_omap [c [/H Hc]]. by destruct c.
Qed.

Lemma establish_only e r l c : c ∈ establish_commands e r l → establishes c e.
Proof.
  rw /establish_commands. destruct (direction r), (peer_node_id r); rw ?elem_of_nil ?list_elem_of_singleton //;
    by move=> ->.
Qed.

Lemma move_commands evs ev e old r cs es :
  (∀ x, old = Some x → record_ok evs e x) → move ev e old r cs es → commands_ok ev e old r cs.
Proof.
  move=> Hold Hm. destruct Hm as [old q a r H|r q g l -> Hq Hs|r q g l -> Hq Hs|r q x -> Hq Hs|r g l -> Hs Hg Hl
    |r -> Hs|r pre Hs1 Hs2 H|r r' g Hs Hg Hp|r ->].
  - apply commands_none. by repeat constructor.
  - split; try by move=> > /list_elem_of_singleton.
    + by move=> > /list_elem_of_singleton [-> -> *].
    + by move=> > /list_elem_of_singleton ->.
    + constructor.
  - split; try by move=> > /list_elem_of_singleton.
    + by move=> > /list_elem_of_singleton ->.
    + move=> > /list_elem_of_singleton [-> ->]. split => //. by left.
    + apply NoDup_singleton.
  - apply commands_none. constructor.
  - have He := establish_only e r l. split.
    + by move=> > /He.
    + move=> c e' /He. destruct c => //= -> ->; done.
    + by move=> > /He.
    + have -> : omap released (establish_commands e r l) = []; last constructor.
      apply elem_of_nil_inv => x /list_elem_of_omap [c [/He Hc]]. by destruct c.
  - apply commands_none. constructor.
  - apply commands_none. rw /stop_commands. apply Forall_app. split; first by case: lease_request_id => *; repeat constructor.
    destruct (ring_id r) as [g|] eqn:Hg; last constructor.
    have [_ Hw] := ok_leased _ _ _ (Hold _ eq_refl) _ Hg. rw /worker_ring_cleanup_required Hw /= andb_false_r.
    case: (driver_established r); by repeat constructor.
  - case E : (teardown_quiesced r'); last by apply commands_none; constructor.
    split; try by move=> > /list_elem_of_singleton.
    + by move=> > /list_elem_of_singleton ->.
    + move=> > /list_elem_of_singleton [-> ->]. split => //. right. by exists r.
    + apply NoDup_singleton.
  - apply commands_none. constructor.
Qed.

Lemma inv_more evs ev s : inv evs s → inv (evs ++ [ev]) s.
Proof.
  case=> H1 H2 H3 H4 H5 H6. split => //.
  - move=> e r /H1. apply record_ok_more.
  - move=> g p /H5 [Hp [Hg H]]. split_and! => //. rw omap_app. set_solver.
Qed.

(** A provision is for an edge that has no record. *)
Lemma move_provisioned ev e e' old r cs es : move ev e old r cs es → provisioned ev = Some e' → e' = e.
Proof.
  move=> Hm. destruct Hm as [? ? ? ? H|? ? ? ? ->|? ? ? ? ->|? ? ? ->|? ? ? ->|? ->|r pre ? ? H|? ? ? ? ? Hp|? ->] => //.
  - rw (provision_of_edge _ _ _ _ _ H). by case.
  - case: H => [[-> _] | [x [H _]]] //. by destruct ev.
  - by destruct Hp.
Qed.

Section move.
Context (evs : list EdgeEvent) (ev : EdgeEvent) (s s' : EdgeEstablisherState) (e : EdgeId) (r : EdgeRecord)
  (cs : list EdgeCommand) (es : list EdgeLifecycleEvent).
Hypothesis Hi : inv evs s.
Hypothesis Hw : well_used (evs ++ [ev]).
Hypothesis Hm : move ev e (records s !! e) r cs es.
Hypothesis Ha : after s e r cs es s'.

Lemma record_kept x : records s !! e = Some x → kept x r.
Proof using Hi Hw Hm.
  move=> Hx. have Hok := i_records _ _ Hi _ _ Hx. destruct (provisioned ev) as [e'|] eqn:Hp.
  - have E := move_provisioned _ _ _ _ _ _ _ Hm Hp. subst e'. exfalso.
    by apply (provisioned_fresh _ _ _ Hw Hp), (ok_known _ _ _ Hok).
  - have Hm' := Hm. rw Hx in Hm'. by apply (move_kept evs _ _ _ _ _ _ Hok Hp Hm').
Qed.

Lemma ring_fresh g x e' : leased ev = Some g → records s !! e' = Some x → ring_id x = Some g → False.
Proof using Hi Hw.
  move=> Hl Hx Hg. have [Hin _] := ok_leased _ _ _ (i_records _ _ Hi _ _ Hx) _ Hg. by apply (leased_fresh _ _ _ Hw Hl).
Qed.

Lemma step_commands : commands_ok ev e (records s !! e) r cs.
Proof using Hi Hm. apply (move_commands evs _ _ _ _ _ _ (λ x H, i_records _ _ Hi e x H) Hm). Qed.

(** The records of the new state: the edge's, and those of the others. *)
Lemma records_after e' x :
  records s' !! e' = Some x → (e' = e ∧ x = r) ∨ (e' ≠ e ∧ records s !! e' = Some x).
Proof using Ha. rw (after_records _ _ _ _ _ _ Ha). by move=> /lookup_insert_Some [[-> ->] | [? ?]]; [left|right]. Qed.

Lemma keeps_record (P : EdgeRecord → Prop) e' x :
  records s !! e' = Some x → P x → (∀ x, kept x r → P x → P r) → ∃ x, records s' !! e' = Some x ∧ P x.
Proof using Hi Hw Hm Ha.
  move=> Hx HP Hk. rw (after_records _ _ _ _ _ _ Ha). destruct (decide (e' = e)) as [->|He].
  - exists r. rw lookup_insert_eq. split => //. by eapply Hk, HP; apply record_kept.
  - exists x. by rw lookup_insert_ne.
Qed.

Lemma unique_after e1 e2 r1 r2 g :
  records s' !! e1 = Some r1 → records s' !! e2 = Some r2 → ring_id r1 = Some g → ring_id r2 = Some g → e1 = e2.
Proof using Hi Hw Hm Ha.
  have Hone e' x : records s !! e' = Some x → ring_id x = Some g → ring_id r = Some g → e = e'.
  { move=> Hx Hg /(move_ring _ _ _ _ _ _ _ Hm) [[y [Hy Hg']] | Hl]; last by exfalso; apply (ring_fresh g x e').
    exact (i_unique _ _ Hi _ _ _ _ _ Hy Hx Hg' Hg). }
  move=> /records_after [[-> ->] | [_ H1]] /records_after [[-> ->] | [_ H2]] // G1 G2; eauto.
  - symmetry. eauto.
  - by apply (i_unique _ _ Hi _ _ _ _ _ H1 H2 G1 G2).
Qed.

Lemma released_after g p :
  ReleaseArenaLease g p ∈ commands s' → verified p = true ∧ g ∈ omap leased (evs ++ [ev]) ∧
    ∀ e' x, records s' !! e' = Some x → ring_id x = Some g → state x = Stopped ∧ teardown_quiesced x = true.
Proof using Hi Hw Hm Ha.
  rw (after_commands _ _ _ _ _ _ Ha) elem_of_app omap_app => -[/(i_released _ _ Hi) [Hp [Hg H]] | Hin].
  - split_and!; [done|set_solver|]. move=> e' x /records_after [[_ ->] | [_ Hx]]; last by eapply H.
    move=> /(move_ring _ _ _ _ _ _ _ Hm) [[y [Hy Hy']] | /(leased_fresh _ _ _ Hw)] //.
    have [Hs Ht] := H _ _ Hy Hy'. have [-> ->] := kept_stopped _ _ (record_kept _ Hy) Hs. done.
  - have [Hp [[Hl Hr] | [y [Hy [Hg [_ [Hs Ht]]]]]]] := c_released _ _ _ _ _ step_commands _ _ Hin.
    + split_and!; [done|rw /= Hl; set_solver|].
      move=> e' x /records_after [[_ ->] | [_ Hx]] Hx'; exfalso; by eapply ring_fresh.
    + have [Hin' _] := ok_leased _ _ _ (i_records _ _ Hi _ _ Hy) _ Hg.
      split_and!; [done|set_solver|]. move=> e' x /records_after [[_ ->] | [Hne Hx]] Hx' //.
      by case: Hne; exact (i_unique _ _ Hi _ _ _ _ _ Hx Hy Hx' Hg).
Qed.

Lemma once_after : NoDup (omap released (commands s')).
Proof using Hi Hw Hm Ha.
  rw (after_commands _ _ _ _ _ _ Ha) omap_app NoDup_app. split_and!; [apply Hi| |apply step_commands].
  move=> g /list_elem_of_omap [c [Hc Hg]] /list_elem_of_omap [c' [Hc' Hg']].
  destruct c, c' => //. move: Hg Hg' => /= [?] [?]. subst.
  have [_ [Hl H]] := i_released _ _ Hi _ _ Hc.
  have [_ [[/(leased_fresh _ _ _ Hw) // _] | [y [Hy [Hg [Hs _]]]]]] := c_released _ _ _ _ _ step_commands _ _ Hc'.
  have [Hs' _] := H _ _ Hy Hg. by rw Hs in Hs'.
Qed.

Lemma inv_move : inv (evs ++ [ev]) s'.
Proof using Hi Hw Hm Ha.
  split; [| apply unique_after | | | apply released_after | apply once_after].
  - move=> e' x /records_after [[-> ->] | [_ Hx]]; last by apply record_ok_more, (i_records _ _ Hi).
    by apply (move_record_ok _ _ _ _ _ _ _ (λ x H, i_records _ _ Hi e x H) Hm).
  - move=> e' g d l o k. rw (after_commands _ _ _ _ _ _ Ha) elem_of_app.
    move=> [/(i_installed _ _ Hi) [x [Hx Hg]] | /(c_installed _ _ _ _ _ step_commands) [-> Hg]].
    + apply (keeps_record (λ x, ring_id x = Some g) _ x) => // y Hk. apply Hk.
    + exists r. by rw (after_records _ _ _ _ _ _ Ha) lookup_insert_eq.
  - move=> c e'. rw (after_commands _ _ _ _ _ _ Ha) elem_of_app => -[Hin | Hin] He.
    + have [x [Hx Hd]] := i_established _ _ Hi _ _ Hin He.
      apply (keeps_record (λ x, driver_established x = true) _ x) => // y Hk. apply Hk.
    + have [-> Hd] := c_established _ _ _ _ _ step_commands _ _ Hin He.
      exists r. by rw (after_records _ _ _ _ _ _ Ha) lookup_insert_eq.
Qed.
End move.

Lemma run_snoc n evs ev : run n (evs ++ [ev]) = observe (run n evs) ev.
Proof. by rw /run foldl_app. Qed.

Lemma inv_new n : inv [] (new n).
Proof.
  split => /=; try by move=> > H; apply elem_of_nil in H || rw lookup_empty in H.
  constructor.
Qed.

Lemma inv_run n evs : well_used evs → inv evs (run n evs).
Proof.
  elim/rev_ind: evs => [|ev evs IH] Hw; first by apply inv_new.
  rw run_snoc. have Hi := IH (well_used_prefix _ _ Hw).
  have Hs := observe_step (run n evs) ev. move: Hs. move E : (observe _ _) => s' Hs. destruct Hs as [|e r cs es s' Hm Ha].
  - by apply inv_more.
  - by eapply inv_move.
Qed.

(** ** Releases *)

(** C21. Where each edge is provisioned once and each ring leased once, a ring goes back
    to the arena only when no one uses it: it was leased, and if the worker was asked to
    install it, the worker has let go of it, its quiescence was proven, and, if its wire
    was established, the pump has stopped; and it goes back once. *)
Theorem ring_release_is_proven n evs :
  well_used evs →
  NoDup (omap released (commands (run n evs))) ∧
  ∀ g p, ReleaseArenaLease g p ∈ commands (run n evs) →
    verified p = true ∧ g ∈ omap leased evs ∧
    ∀ e d l o k, InstallWorkerRing e g d l o k ∈ commands (run n evs) →
      RingQuiesced g ∈ evs ∧ QuiescenceProven g ∈ evs ∧
      ((∃ c, c ∈ commands (run n evs) ∧ establishes c e) → PumpStopped e g ∈ evs).
Proof.
  move=> Hw. have Hi := inv_run n evs Hw. split; first apply Hi.
  move=> g p Hin. have [Hp [Hg H]] := i_released _ _ Hi _ _ Hin. split_and! => // e d l o k Hc.
  have [r [Hr Hring]] := i_installed _ _ Hi _ _ _ _ _ _ Hc. have Hok := i_records _ _ Hi _ _ Hr.
  have [_ Ht] := H _ _ Hr Hring. have [_ Hreq] := ok_leased _ _ _ Hok _ Hring.
  move: Ht. rw /teardown_quiesced /worker_ring_cleanup_required Hreq /= !andb_true_iff => -[[Hpump Hq] Hv].
  split_and!; [by eapply ok_quiesced|by eapply ok_proven|].
  move=> [c [Hc' He]]. have [r' [Hr' Hd]] := i_established _ _ Hi _ _ Hc' He.
  rw Hr in Hr'. case: Hr' => ?; subst r'. apply (ok_pump _ _ _ Hok _ Hring).
  move: Hpump. by rw Hd.
Qed.

(** ** Announcements *)

Inductive stage := AnnouncedReady | AnnouncedFaulted | AnnouncedStopped.

(** What an announcement says of an edge. *)
Definition about (e : EdgeId) (x : EdgeLifecycleEvent) : option stage :=
  match x with
  | EdgeReady e' _ => if e' =? e then Some AnnouncedReady else None
  | EdgeFaulted e' _ => if e' =? e then Some AnnouncedFaulted else None
  | EdgeStopped e' => if e' =? e then Some AnnouncedStopped else None
  end.

(** What may have been said of an edge in a state. *)
Definition upto (st : EdgeProvisionState) : list stage :=
  match st with
  | WaitingForLease | WaitingForWorkerRing | WaitingForDriver => []
  | Ready => [AnnouncedReady]
  | Failed => [AnnouncedFaulted]
  | Stopping => [AnnouncedReady; AnnouncedFaulted]
  | Stopped => [AnnouncedReady; AnnouncedFaulted; AnnouncedStopped]
  end.

Definition upto_record (old : option EdgeRecord) : list stage := default [] (upto ∘ state <$> old).

Lemma move_other ev e old r cs es e' : move ev e old r cs es → e' ≠ e → omap (about e') es = [].
Proof.
  move=> Hm He. have E : (e =? e') = false by apply N.eqb_neq. destruct Hm as [| | | | | |r pre _ _ H|r r' g|] => //=; rw ?E //.
  - case: H => [[_ ->] | [x [_ [_ ->]]]]; case: (idle r); by rw /= ?E.
  - case: (teardown_quiesced r'); by rw /= ?E.
Qed.

Lemma upto_stopped st l : l `sublist_of` upto st → l `sublist_of` upto Stopped.
Proof. move=> H. etrans; first exact H. case: st {H} => /=; repeat constructor. Qed.

Lemma upto_stopping st l :
  st ≠ Stopping → st ≠ Stopped → l `sublist_of` upto st → l `sublist_of` upto Stopping.
Proof. move=> H1 H2 H. etrans; first exact H. case: st H1 H2 {H} => //= _ _; repeat constructor. Qed.

Lemma move_announces ev e old r cs es l :
  (provisioned ev ≠ None → old = None) → move ev e old r cs es → l `sublist_of` upto_record old →
  l ++ omap (about e) es `sublist_of` upto (state r).
Proof.
  move=> Hold Hm. have E : (e =? e) = true by apply N.eqb_refl.
  destruct Hm as [old q a r H|r q g x -> Hq Hs|r q g x -> Hq Hs|r q x -> Hq Hs|r g x -> Hs Hg Hl
    |r -> Hs|r pre Hs1 Hs2 H|r r' g Hs Hg Hp|r ->]; rw /upto_record /= ?E ?app_nil_r ?Hs //.
  - rw Hold; first by rw (provision_of_edge _ _ _ _ _ H). move=> /sublist_nil_r ->. apply sublist_nil_l.
  - move=> /sublist_nil_r ->. done.
  - move=> /sublist_nil_r ->. done.
  - move=> Hl. have Hl' : l ++ omap (about e) pre `sublist_of` upto Stopping.
    { case: H => [[_ ->] | [x [_ [Hf ->]]]] /=; first by rw app_nil_r; eapply upto_stopping.
      rw E. apply (sublist_app _ [AnnouncedReady] _ [AnnouncedFaulted]) => //.
      by move: Hl; destruct (state r) => // /sublist_nil_r ->; apply sublist_nil_l. }
    rw omap_app app_assoc. case: (idle r) => /=; last by rw app_nil_r.
    rw E. by apply (sublist_app _ (upto Stopping) _ [_]).
  - case: (teardown_quiesced r') => /= Hl; last by rw app_nil_r; destruct Hp; rw /= Hs.
    rw E. by apply (sublist_app _ (upto Stopping) _ [_]).
  - apply upto_stopped.
Qed.

Lemma announced_run n evs e :
  well_used evs → omap (about e) (events (run n evs)) `sublist_of` upto_record (records (run n evs) !! e).
Proof.
  elim/rev_ind: evs => [|ev evs IH] Hw; first constructor.
  have Hw' := well_used_prefix _ _ Hw. have Hi := inv_run n _ Hw'. rw run_snoc.
  have Hs := observe_step (run n evs) ev. move: Hs. move E : (observe _ _) => s' Hs.
  destruct Hs as [|e' r cs es s' Hm [Hr _ He]]; first by apply IH.
  rw Hr He omap_app. destruct (decide (e' = e)) as [->|Hne].
  - rw lookup_insert_eq. eapply move_announces; [|done|by apply IH].
    destruct (provisioned ev) as [x|] eqn:Hp => // _. destruct (records (run n evs) !! e) as [y|] eqn:Hy => //.
    have Ex := move_provisioned _ _ _ _ _ _ _ Hm Hp. subst x. exfalso.
    by apply (provisioned_fresh _ _ _ Hw Hp), (ok_known _ _ _ (i_records _ _ Hi _ _ Hy)).
  - rw lookup_insert_ne // (move_other _ _ _ _ _ _ _ Hm) // app_nil_r. by apply IH.
Qed.

(** An edge is announced as ready, as faulted and as stopped at most once each, and in this order: one that
    was reported faulted or stopped is never reported ready afterwards. *)
Theorem edge_announced_in_order n evs e :
  well_used evs →
  omap (about e) (events (run n evs)) `sublist_of` [AnnouncedReady; AnnouncedFaulted; AnnouncedStopped].
Proof.
  move=> Hw. have H := announced_run n evs e Hw. destruct (records (run n evs) !! e) as [r|].
  - by apply (upto_stopped (state r)).
  - move: H => /sublist_nil_r ->. apply sublist_nil_l.
Qed.

(** ** How an edge ends

    No ring is lost between the arena and an edge, and a stop that was asked for completes when the wire,
    the worker and the device have answered. *)

(** A lease answers a request the establisher has made. *)
Definition answered (n : N) (evs : list EdgeEvent) : Prop :=
  ∀ evs1 q g l evs2, evs = evs1 ++ RingLeased q g l :: evs2 → ∃ e d k, LeaseRing q e d k ∈ commands (run n evs1).

Lemma answered_prefix n evs ev : answered n (evs ++ [ev]) → answered n evs.
Proof. move=> H evs1 q g l evs2 E. apply (H evs1 q g l (evs2 ++ [ev])). by rw E -app_assoc. Qed.

Record ends (s : EdgeEstablisherState) (e : EdgeId) (r : EdgeRecord) : Prop := {
  e_stopped : state r = Stopped →
    EdgeStopped e ∈ events s ∧ ∀ g, ring_id r = Some g → ∃ p, ReleaseArenaLease g p ∈ commands s;
  e_stopping : state r = Stopping → is_Some (ring_id r) ∧ teardown_quiesced r = false;
  e_unproven : state r ≠ Stopping → state r ≠ Stopped → quiescence_proven r = false;
}.

Record live (evs : list EdgeEvent) (s : EdgeEstablisherState) : Prop := {
  l_asked q e d k : LeaseRing q e d k ∈ commands s → ∃ r, records s !! e = Some r ∧ lease_request_id r = Some q;
  l_leased g : g ∈ omap leased evs →
    (∃ e r, records s !! e = Some r ∧ ring_id r = Some g) ∨ ∃ p, ReleaseArenaLease g p ∈ commands s;
}.

Lemma ends_more s e' r' cs es s' e r : after s e' r' cs es s' → ends s e r → ends s' e r.
Proof.
  case=> _ Hc He [H1 H2 H3]. split => // Hs. have [Ha Hb] := H1 Hs. rw He Hc. split; first set_solver.
  move=> g /Hb [p Hp]. exists p. set_solver.
Qed.

(** The record a step leaves, when nothing is declared. *)
Lemma move_ends evs ev s e r cs es s' :
  (∀ x, records s !! e = Some x → record_ok evs e x ∧ ends s e x) → ev ≠ StoppedEvent e →
  move ev e (records s !! e) r cs es → after s e r cs es s' → ends s' e r.
Proof.
  move=> Hold Hev Hm Ha. have [_ Hc He] := Ha. move: Hold Hm. move E : (records s !! e) => old Hold Hm.
  destruct Hm as [old q a r H|r q g l -> Hq Hs|r q g l -> Hq Hs|r q x -> Hq Hs|r g l -> Hs Hg Hl
    |r -> Hs|r pre Hs1 Hs2 H|r r' g Hs Hg Hp|r ->] => //.
  { by destruct ev => //; case: H => _ <-. }
  all: have [Hok Hends] := Hold _ eq_refl; have [H1 H2 H3] := ends_more _ _ _ _ _ _ _ _ Ha Hends.
  1, 3, 4, 5: split => //= _ _; apply H3; by rw Hs.
  - by split.
  - rw /idle /stop_commands in Hc He |- *. destruct (ring_id r) as [g|] eqn:Hg.
    + have [_ Hw] := ok_leased _ _ _ Hok _ Hg. rw /worker_ring_cleanup_required Hw andb_false_r /= in Hc He |- *.
      split => //= _. rw Hg. split; first done. rw /teardown_quiesced /= (H3 Hs1 Hs2). apply andb_false_r.
    + split => //= _. rw He Hg. split => //. set_solver.
  - case E' : (teardown_quiesced r') Hc He => Hc He.
    + split => //= _. rw Hc He. split; first set_solver. move=> g' Hg'.
      have -> : g' = g by destruct Hp; simpl in *; congruence. exists (mkProof true). set_solver.
    + split; destruct Hp; rw /= ?Hs ?Hg //.
Qed.

(** Of an edge that nobody declares stopped from outside. *)
Lemma ends_run n evs e r :
  well_used evs → (StoppedEvent e ∉ evs) → records (run n evs) !! e = Some r → ends (run n evs) e r.
Proof.
  elim/rev_ind: evs e r => [|ev evs IH] e r Hw Hu; first by rw lookup_empty.
  have Hw' := well_used_prefix _ _ Hw. have Hi := inv_run n _ Hw'.
  have [Hu' Hev] : (StoppedEvent e ∉ evs) ∧ ev ≠ StoppedEvent e by split; [set_solver|move=> E; apply Hu; set_solver].
  rw run_snoc. have Hs := observe_step (run n evs) ev. move: (observe _ ev) Hs => s' Hs.
  destruct Hs as [|e' r' cs es s' Hm Ha]; first by apply IH.
  move=> /(records_after _ _ _ _ _ _ Ha) [[E ->] | [_ Hx]]; last by eapply ends_more, IH.
  subst e'. eapply move_ends => //. move=> y Hy. split; [by apply Hi|by apply IH].
Qed.

Lemma declared_dec e (evs : list EdgeEvent) : StoppedEvent e ∈ evs ∨ (StoppedEvent e ∉ evs).
Proof.
  elim: evs => [|ev evs [IH|IH]]; [right; apply not_elem_of_nil|left; set_solver|].
  have [<-|Hev] : StoppedEvent e = ev ∨ StoppedEvent e ≠ ev; [|left; set_solver|right; set_solver].
  destruct ev as [| | | | | | | | | | | |e'] => //; try (by right).
  all: destruct (decide (e' = e)) as [->|]; [by left|right; congruence].
Qed.

Lemma leased_accounted s q e r g l :
  records s !! e = Some r → lease_request_id r = Some q →
  (∃ e r, records (ring_leased s q g l) !! e = Some r ∧ ring_id r = Some g) ∨
  ∃ p, ReleaseArenaLease g p ∈ commands (ring_leased s q g l).
Proof.
  move=> Hr Hq. rw /ring_leased.
  have [e' He] := edge_where_is_Some (λ r, bool_decide (lease_request_id r = Some q)) s e r Hr (bool_decide_eq_true_2 _ Hq).
  rw /edge_for_request He. have [r' [-> _]] := edge_where_Some _ _ _ He. case_bool_decide => /=.
  - left. exists e'. eexists. by rw lookup_insert_eq.
  - right. exists (mkProof true). set_solver.
Qed.

Lemma move_asks ev e old r cs es q e' d k :
  move ev e old r cs es → LeaseRing q e' d k ∈ cs → e' = e ∧ lease_request_id r = Some q.
Proof.
  move=> Hm Hin. destruct Hm as [old q' a r H|r q' g l|r q' g l|r q' x|r g l|r|r pre|r r' g|r];
    rw ?list_elem_of_singleton ?elem_of_nil in Hin => //.
  - case: Hin => -> -> _ _. split => //. by destruct ev => //; case: H => _ <-.
  - by apply establish_only in Hin.
  - exfalso. move: Hin. rw /stop_commands.
    destruct (lease_request_id r), (ring_id r), (driver_established r), (worker_ring_cleanup_required r); set_solver.
  - exfalso. move: Hin. case: (teardown_quiesced r'); set_solver.
Qed.

Lemma live_step n evs ev :
  well_used (evs ++ [ev]) → answered n (evs ++ [ev]) → live evs (run n evs) →
  live (evs ++ [ev]) (run n (evs ++ [ev])).
Proof.
  move=> Hw Hans Hl. have Hi := inv_run n evs (well_used_prefix _ _ Hw).
  rw run_snoc. set s := run n evs in Hl Hi |- *. have Hs := observe_step s ev.
  have Hnew g : leased ev = Some g → (∃ e r, records (observe s ev) !! e = Some r ∧ ring_id r = Some g) ∨
    ∃ p, ReleaseArenaLease g p ∈ commands (observe s ev).
  { destruct ev as [| |q g' l| | | | | | | | | |] => // -[<-].
    have [e [d [k /(l_asked _ _ Hl) [r [Hr Hq]]]]] := Hans evs q g' l [] eq_refl. by eapply leased_accounted. }
  have Hone g : g ∈ omap leased (evs ++ [ev]) → g ∈ omap leased evs ∨ leased ev = Some g.
  { rw omap_app elem_of_app /=. case: (leased ev) => [x|]; set_solver. }
  move: Hs Hnew. move: (observe s ev) => s' Hs Hnew. destruct Hs as [|e r cs es s' Hm Ha].
  { split; first apply Hl. by move=> g /Hone [/(l_leased _ _ Hl) | /Hnew]. }
  have Hk := record_kept _ _ _ _ _ _ _ Hi Hw Hm. have [Hr Hc He] := Ha. split.
  - move=> q e' d k. rw Hc elem_of_app => -[/(l_asked _ _ Hl) [x [Hx Hq]] | /(move_asks _ _ _ _ _ _ _ _ _ _ Hm) [-> Hq]].
    + apply (keeps_record _ _ _ _ _ _ _ _ Hi Hw Hm Ha (λ x, lease_request_id x = Some q) _ x) => // y Hy.
      by rw (kept_request _ _ Hy).
    + exists r. by rw Hr lookup_insert_eq.
  - move=> g /Hone [/(l_leased _ _ Hl) [[e' [x [Hx Hg]]] | [p Hp]] | /Hnew] //.
    + left. exists e'. apply (keeps_record _ _ _ _ _ _ _ _ Hi Hw Hm Ha (λ x, ring_id x = Some g) _ x) => // y Hy. apply Hy.
    + right. exists p. rw Hc. set_solver.
Qed.

Lemma live_run n evs : well_used evs → answered n evs → live evs (run n evs).
Proof.
  elim/rev_ind: evs => [|ev evs IH] Hw Ha; first by split => /= >; rw elem_of_nil.
  apply live_step => //. apply IH; [by eapply well_used_prefix|by eapply answered_prefix].
Qed.

(** C26. No ring is lost: where each edge is provisioned once, each ring is leased once,
    and only in answer to a request, a ring leased for an edge is held by an edge that
    has not stopped, or goes back to the arena; unless the edge that holds it was
    declared stopped from outside. *)
Theorem no_ring_lost n evs g :
  well_used evs → answered n evs → g ∈ omap leased evs →
  (∃ e r, records (run n evs) !! e = Some r ∧ ring_id r = Some g ∧
     (state r ≠ Stopped ∨ StoppedEvent e ∈ evs)) ∨
  ReleaseArenaLease g (mkProof true) ∈ commands (run n evs).
Proof.
  move=> Hw Ha Hg. have Hl := live_run _ _ Hw Ha. have Hi := inv_run n _ Hw.
  have Hp p : ReleaseArenaLease g p ∈ commands (run n evs) → ReleaseArenaLease g (mkProof true) ∈ commands (run n evs).
  { move=> H. have [Hv _] := i_released _ _ Hi _ _ H. by case: p Hv H => [[]]. }
  have [[e [r [Hr Hring]]] | [p /Hp]] := l_leased _ _ Hl _ Hg; last by right.
  destruct (decide (state r = Stopped)) as [Hs|Hs]; last by left; exists e, r; auto.
  destruct (declared_dec e evs) as [Hd|Hd]; first by left; exists e, r; auto.
  right. have [_ H] := e_stopped _ _ _ (ends_run _ _ _ _ Hw Hd Hr) Hs. by have [p /Hp] := H _ Hring.
Qed.

(** ** Stops *)

Lemma proof_recorded s e r g :
  state r = Stopping → ring_id r = Some g →
  records (release_after_teardown_proofs (put s e r) e g) !! e =
    Some (if teardown_quiesced r then set_state r Stopped else r).
Proof. move=> Hs Hg. by rw (after_records _ _ _ _ _ _ (teardown_after s e r g Hs Hg)) lookup_insert_eq. Qed.

(** An answer that comes while the edge is stopping is recorded. *)
Lemma answer_recorded evs s e r g :
  inv evs s → records s !! e = Some r → state r = Stopping → ring_id r = Some g →
  (∀ x, records (observe s (PumpStopped e g)) !! e = Some x → pump_stopped x = true) ∧
  (∀ x, records (observe s (RingQuiesced g)) !! e = Some x → worker_ring_quiesced x = true) ∧
  (∀ x, records (observe s (QuiescenceProven g)) !! e = Some x → quiescence_proven x = true).
Proof.
  move=> Hi Hr Hs Hg.
  have He : edge_for_ring s g = Some e.
  { apply (edge_where_only _ _ _ r) => //; first by apply bool_decide_eq_true.
    move=> e' r' Hr' /bool_decide_eq_true Hg'. exact (i_unique _ _ Hi _ _ _ _ _ Hr' Hr Hg' Hg). }
  rw /= /on_pump_stopped /ring_quiesced /on_quiescence_proven He Hr !bool_decide_true //=.
  rw !proof_recorded //. split_and! => x [<-]; by case: (teardown_quiesced _).
Qed.

Record stopping (e : EdgeId) (g : RingId) (evs : list EdgeEvent) (r : EdgeRecord) : Prop := {
  s_state : state r = Stopping;
  s_pump : PumpStopped e g ∈ evs → pump_stopped r = true;
  s_quiesced : RingQuiesced g ∈ evs → worker_ring_quiesced r = true;
  s_proven : QuiescenceProven g ∈ evs → quiescence_proven r = true;
}.

Definition stop_going (s : EdgeEstablisherState) (e : EdgeId) (g : RingId) (evs : list EdgeEvent) : Prop :=
  ∃ r, records s !! e = Some r ∧ ring_id r = Some g ∧ (state r = Stopped ∨ stopping e g evs r).

Lemma record_observed evs s ev e r :
  inv evs s → well_used (evs ++ [ev]) → records s !! e = Some r →
  ∃ x, records (observe s ev) !! e = Some x ∧ kept r x.
Proof.
  move=> Hi Hw Hr. have Hid : kept r r by split; auto.
  have Hs := observe_step s ev. move: (observe s ev) Hs => s' Hs. destruct Hs as [|e' r' cs es s' Hm Ha]; first by exists r.
  rw (after_records _ _ _ _ _ _ Ha). destruct (decide (e' = e)) as [->|He].
  - exists r'. rw lookup_insert_eq. split => //. by eapply record_kept.
  - exists r. by rw lookup_insert_ne.
Qed.

Lemma stop_goes_on evs s e g evs' ev :
  inv evs s → well_used (evs ++ [ev]) → stop_going s e g evs' → stop_going (observe s ev) e g (evs' ++ [ev]).
Proof.
  move=> Hi Hw [r [Hr [Hg Hs]]]. have [x [Hx Hk]] := record_observed _ _ _ _ _ Hi Hw Hr.
  exists x. split_and! => //; first by apply (kept_ring _ _ Hk).
  case: Hs => [Hs | [Hs H1 H2 H3]]; first by left; apply (kept_stopped _ _ Hk).
  case: (kept_stopping _ _ Hk Hs) => Hs'; last by left. right.
  have [A1 [A2 A3]] := answer_recorded _ _ _ _ _ Hi Hr Hs Hg.
  split => // /elem_of_app [H | /list_elem_of_singleton E].
  - by apply (kept_pump _ _ Hk), H1.
  - subst ev. by apply A1.
  - by apply (kept_quiesced _ _ Hk), H2.
  - subst ev. by apply A2.
  - by apply (kept_proven _ _ Hk), H3.
  - subst ev. by apply A3.
Qed.

Lemma stop_starts evs s e g r :
  inv evs s → well_used (evs ++ [StopEdge e]) → records s !! e = Some r → ring_id r = Some g →
  stop_going (observe s (StopEdge e)) e g [].
Proof.
  move=> Hi Hw Hr Hg. have [x [Hx Hk]] := record_observed _ _ _ _ _ Hi Hw Hr.
  exists x. split_and! => //; first by apply (kept_ring _ _ Hk).
  have Hd : state x = Stopping → stopping e g [] x by move=> H; split => //; rw elem_of_nil.
  destruct (decide (state r = Stopping)) as [H1|H1].
  { case: (kept_stopping _ _ Hk H1) => ?; [right; by apply Hd|by left]. }
  destruct (decide (state r = Stopped)) as [H2|H2]; first by left; apply (kept_stopped _ _ Hk).
  move: Hx. rw /= /stop_edge (after_records _ _ _ _ _ _ (stopping_after _ _ _ Hr H1 H2)) lookup_insert_eq => -[Ex].
  move: Ex Hd => <-. case: (idle r) => /= Hd; [by left|right; by apply Hd].
Qed.

Lemma stop_going_run n evs evs' e r g :
  well_used (evs ++ StopEdge e :: evs') → records (run n evs) !! e = Some r → ring_id r = Some g →
  stop_going (run n (evs ++ StopEdge e :: evs')) e g evs'.
Proof.
  move=> Hw Hr Hg. elim/rev_ind: evs' Hw => [|ev evs' IH].
  - rw run_snoc => Hw. eapply stop_starts => //. apply inv_run. by eapply well_used_prefix.
  - change (evs ++ StopEdge e :: evs' ++ [ev]) with (evs ++ (StopEdge e :: evs') ++ [ev]). rw app_assoc run_snoc => Hw.
    have Hw' := well_used_prefix _ _ Hw. eapply stop_goes_on; [by apply inv_run|done|by apply IH].
Qed.

(** C25. A stop completes, where each edge is provisioned once and each ring leased
    once: after an edge that has a ring was told to stop, and the pump has stopped, the
    worker has let go and the quiescence is proven, in whatever order and whatever other
    events come between, the edge is stopped, announced as such, and its ring is given
    back; unless it was declared stopped from outside. *)
Theorem stop_completes n evs evs' e r g :
  let history := evs ++ StopEdge e :: evs' in
  well_used history → records (run n evs) !! e = Some r → ring_id r = Some g →
  PumpStopped e g ∈ evs' → RingQuiesced g ∈ evs' → QuiescenceProven g ∈ evs' →
  let s := run n history in
  ∃ x, records s !! e = Some x ∧
    ((state x = Stopped ∧ EdgeStopped e ∈ events s ∧ ∃ p, ReleaseArenaLease g p ∈ commands s) ∨
     StoppedEvent e ∈ history).
Proof.
  move=> history Hw Hr Hg P1 P2 P3 s.
  have [x [Hx [Hx' Hs]]] := stop_going_run _ _ _ _ _ _ Hw Hr Hg. exists x. split; first done.
  destruct (declared_dec e history) as [Hd|Hd]; [by right|left].
  have [E1 E2 _] := ends_run _ _ _ _ Hw Hd Hx.
  have Hst : state x = Stopped; last by have [? ?] := E1 Hst; eauto.
  case: Hs => [// | [Hs Q1 Q2 Q3]]. have [_] := E2 Hs.
  rw /teardown_quiesced (Q1 P1) (Q2 P2) (Q3 P3) !orb_true_r //.
Qed.
