(* ===== verification/EdgeRuntime.v ===== *)
(** * The edge runtime

    [crates/data-plane/src/edge_runtime.rs], with the ports of [edge_wire.rs]: [EdgeRuntime] drives the
    lifecycle of a node's edges against the arena, the worker and the byte transport, and moves the objects
    that arrive into the rings.  The worker, the transport and [pwrite] are parameters.  A worker maps the
    arena, so what it loads may depend on the memory.  Times are left out of the observations. *)

From S2P Require Import Prelude Memory Arena ObjectRecord EdgeLifecycle.
#[local] Open Scope N_scope.

(** ** Ports *)

Abbreviation StreamId := N.

Inductive WireFault := WireReadError | WireWriteError | WireProtocolError.

Inductive WireEvent :=
| StreamArrived (edge_id : EdgeId) (stream_id : StreamId)
| BytesRead (edge_id : EdgeId) (stream_id : StreamId) (bytes : list N)
| StreamEnded (edge_id : EdgeId) (stream_id : StreamId)
| WireStreamFault (edge_id : option EdgeId) (stream_id : option StreamId) (reason : WireFault).

Record LoadedObject := mkLoadedObject {
  lo_object_id : N;
  lo_sequence : N;
  handle_generation : N;
  handle_id : N;
}.

Class WorkerPort (W : Type) := {
  install_ring : W → EdgeId → RingId → RingDirection → Arena.RingLayout → ObjectSpec → W * (unit + string);
  uninstall_ring : W → RingId → W * (unit + string);
  load_object : W → Mem → EdgeId → RingId → ObjectRecord.ObjectRecord → ObjectRecord.ObjectSpec →
    W * (LoadedObject + string);
}.

Class EdgeTransport (T Peer Writer : Type) := {
  open_writer : T → EdgeId → Peer → T * (Writer + string);
  drain_events : T → T * list WireEvent;
}.

(** How many bytes [pwrite] writes of so many at an offset, if it does not fail. *)
Class Pwrite := pwrite : N → N → option N.

(** ** State *)

Inductive Observation :=
| ObsStreamArrived (edge_id : EdgeId) (stream_id : StreamId)
| ObsBytesRead (edge_id : EdgeId) (stream_id : StreamId) (byte_count : N)
| ObsIngressRingWrite (edge_id : EdgeId) (ring_id : RingId) (stream_id : StreamId) (object_id sequence extent : N)
    (begin_sequence end_of_sequence : bool) (record_bytes buffered_bytes : N)
| ObsObjectLoaded (edge_id : EdgeId) (ring_id : RingId) (stream_id : StreamId) (object : LoadedObject)
| ObsObjectFailed (edge_id : EdgeId) (object_id : option N)
| ObsEdgeReady (edge_id : EdgeId) (direction : RingDirection)
| ObsEdgeFaulted (edge_id : EdgeId) (reason : EdgeFaultReason)
| ObsEdgeStopped (edge_id : EdgeId).

(** The messages of the errors [poll] returns. *)
Inductive RuntimeError :=
| InvalidIngressRecord (reason : ObjectRecord.ObjectFailureReason)
| InboundRingMissing
| InboundLeaseMissing (ring_id : RingId)
| WriteIngressRing
| LeaseMissing (ring_id : RingId)
| EdgeRingMissing (edge_id : EdgeId)
| OutboundEdgeMissing
| EdgeFaultedError (edge_id : EdgeId) (reason : EdgeFaultReason)
| PortError (message : string).

Record InboundEdge := mkInboundEdge {
  in_edge_id : EdgeId;
  in_ring_id : option RingId;
  parse_spec : ObjectRecord.ObjectSpec;
  buffers : gmap StreamId (list N);
}.

Record OutboundEdge (Peer Writer : Type) := mkOutboundEdge {
  out_edge_id : EdgeId;
  peer : Peer;
  out_ring_id : option RingId;
  writer : option Writer;
  next_object_id : N;
}.
Arguments mkOutboundEdge {_ _} _ _ _ _ _.
Arguments out_edge_id {_ _} _.
Arguments peer {_ _} _.
Arguments out_ring_id {_ _} _.
Arguments writer {_ _} _.
Arguments next_object_id {_ _} _.

Section Runtime.
Context {W T Peer Writer : Type} {HW : WorkerPort W} {HT : EdgeTransport T Peer Writer} {HP : Pwrite}.

Record EdgeRuntime := mkEdgeRuntime {
  establisher : EdgeEstablisherState;
  command_cursor : nat;
  lifecycle_cursor : nat;
  send_rings : gmap EdgeId RingId;
  recv_specs : gmap EdgeId RingId;
  pending_streams : gmap EdgeId StreamId;
  recv_rings : gmap EdgeId RingId;
  inbound : option InboundEdge;
  outbound : option (OutboundEdge Peer Writer);
  object_handles : gmap (EdgeId * N) LoadedObject;
  observations : list Observation;
}.

Definition runtime_eta (x : EdgeRuntime) : EdgeRuntime :=
  mkEdgeRuntime (establisher x) (command_cursor x) (lifecycle_cursor x) (send_rings x) (recv_specs x)
    (pending_streams x) (recv_rings x) (inbound x) (outbound x) (object_handles x) (observations x).

Definition set_establisher x v : EdgeRuntime := ltac:(update_field runtime_eta x establisher v).
Definition set_command_cursor x v : EdgeRuntime := ltac:(update_field runtime_eta x command_cursor v).
Definition set_lifecycle_cursor x v : EdgeRuntime := ltac:(update_field runtime_eta x lifecycle_cursor v).
Definition set_send_rings x v : EdgeRuntime := ltac:(update_field runtime_eta x send_rings v).
Definition set_recv_specs x v : EdgeRuntime := ltac:(update_field runtime_eta x recv_specs v).
Definition set_pending_streams x v : EdgeRuntime := ltac:(update_field runtime_eta x pending_streams v).
Definition set_recv_rings x v : EdgeRuntime := ltac:(update_field runtime_eta x recv_rings v).
Definition set_inbound x v : EdgeRuntime := ltac:(update_field runtime_eta x inbound v).
Definition set_outbound x v : EdgeRuntime := ltac:(update_field runtime_eta x outbound v).
Definition set_object_handles x v : EdgeRuntime := ltac:(update_field runtime_eta x object_handles v).
Definition set_observations x v : EdgeRuntime := ltac:(update_field runtime_eta x observations v).

Definition new_runtime (local_node_id : N) : EdgeRuntime :=
  mkEdgeRuntime (new local_node_id) 0 0 ∅ ∅ ∅ ∅ None None ∅ [].

(** The runtime and what [poll] is given, with the memory of the arena. *)
Record World := mkWorld {
  runtime : EdgeRuntime;
  arena : Arena.ArenaManager;
  memory : Mem;
  worker : W;
  transport : T;
}.

Definition with_runtime (w : World) (x : EdgeRuntime) : World := mkWorld x (arena w) (memory w) (worker w) (transport w).
Definition with_arena (w : World) (a : Arena.ArenaManager) : World := mkWorld (runtime w) a (memory w) (worker w) (transport w).
Definition with_memory (w : World) (m : Mem) : World := mkWorld (runtime w) (arena w) m (worker w) (transport w).
Definition with_worker (w : World) (k : W) : World := mkWorld (runtime w) (arena w) (memory w) k (transport w).
Definition with_transport (w : World) (t : T) : World := mkWorld (runtime w) (arena w) (memory w) (worker w) t.

(** A call that may fail leaves the world as it was when it failed. *)
Definition Outcome (A : Type) : Type := World * (A + RuntimeError).

Definition attempt {A B} (o : Outcome A) (k : World → A → Outcome B) : Outcome B :=
  match o with
  | (w, inl a) => k w a
  | (w, inr e) => (w, inr e)
  end.

(** [option.ok_or_else(…)?] *)
Definition or_fail {A B} (w : World) (o : option A) (e : RuntimeError) (k : A → Outcome B) : Outcome B :=
  match o with Some a => k a | None => (w, inr e) end.

(** The result of a port. *)
Definition port {A B} (r : A + string) (w : World) (k : A → Outcome B) : Outcome B :=
  match r with inl a => k a | inr e => (w, inr (PortError e)) end.

Definition tell (x : EdgeRuntime) (ev : EdgeEvent) : EdgeRuntime := set_establisher x (observe (establisher x) ev).
Definition note (x : EdgeRuntime) (o : Observation) : EdgeRuntime := set_observations x (observations x ++ [o]).

(** ** Provisioning *)

Definition establish_inbound (x : EdgeRuntime) (p : ProvisionRx) (spec : ObjectRecord.ObjectSpec) : EdgeRuntime :=
  tell (set_inbound x (Some (mkInboundEdge (rx_edge_id p) None spec ∅))) (EvProvisionRx p).

Definition establish_outbound (x : EdgeRuntime) (p : ProvisionTx) (peer : Peer) : EdgeRuntime :=
  tell (set_outbound x (Some (mkOutboundEdge (tx_edge_id p) peer None None 1))) (EvProvisionTx p).

(** [self.inbound.as_mut().filter(|edge| edge.edge_id == edge_id)], and the assignment through it. *)
Definition update_inbound (x : EdgeRuntime) (e : EdgeId) (f : InboundEdge → InboundEdge) : EdgeRuntime :=
  match inbound x with
  | Some edge => if in_edge_id edge =? e then set_inbound x (Some (f edge)) else x
  | None => x
  end.

Definition update_outbound (x : EdgeRuntime) (e : EdgeId)
    (f : OutboundEdge Peer Writer → OutboundEdge Peer Writer) : EdgeRuntime :=
  match outbound x with
  | Some edge => if out_edge_id edge =? e then set_outbound x (Some (f edge)) else x
  | None => x
  end.

Definition loaded_object (x : EdgeRuntime) (e : EdgeId) (object_id : N) : option LoadedObject :=
  object_handles x !! (e, object_id).

Definition outbound_ring_id (x : EdgeRuntime) : option RingId := outbound x ≫= out_ring_id.
Definition outbound_writer (x : EdgeRuntime) : option Writer := outbound x ≫= writer.
Definition inbound_edge_id (x : EdgeRuntime) : option EdgeId := in_edge_id <$> inbound x.
Definition outbound_edge_id (x : EdgeRuntime) : option EdgeId := out_edge_id <$> outbound x.

Definition take_observations (x : EdgeRuntime) : list Observation * EdgeRuntime := (observations x, set_observations x []).

Definition alloc_output_object_id (x : EdgeRuntime) : EdgeRuntime * (N + RuntimeError) :=
  match outbound x with
  | None => (x, inr OutboundEdgeMissing)
  | Some edge =>
      (set_outbound x (Some (mkOutboundEdge (out_edge_id edge) (peer edge) (out_ring_id edge) (writer edge)
                               (u64_saturating_add (next_object_id edge) 1))),
       inl (next_object_id edge))
  end.

(** ** The wire *)

Definition establish_send_wire (x : EdgeRuntime) (e : EdgeId) (ring : RingId) : EdgeRuntime :=
  tell (set_send_rings x (<[e := ring]> (send_rings x))) (DriverEdgeReady e).

Definition spawn_recv (x : EdgeRuntime) (e : EdgeId) (stream : StreamId) : EdgeRuntime :=
  match recv_specs x !! e with
  | None => set_pending_streams x (<[e := stream]> (pending_streams x))
  | Some ring => tell (set_recv_rings x (<[e := ring]> (recv_rings x))) (DriverEdgeReady e)
  end.

Definition establish_recv_wire (x : EdgeRuntime) (e : EdgeId) (ring : RingId) : EdgeRuntime :=
  let x := set_recv_specs x (<[e := ring]> (recv_specs x)) in
  match pending_streams x !! e with
  | Some stream => spawn_recv (set_pending_streams x (delete e (pending_streams x))) e stream
  | None => x
  end.

Definition incoming_stream (x : EdgeRuntime) (e : EdgeId) (stream : StreamId) : EdgeRuntime :=
  if bool_decide (is_Some (recv_specs x !! e)) then spawn_recv x e stream
  else set_pending_streams x (<[e := stream]> (pending_streams x)).

Definition read_error (x : EdgeRuntime) (e : EdgeId) : EdgeRuntime := tell x (StreamFault e ReadError).

Definition stop_wire (x : EdgeRuntime) (e : EdgeId) : EdgeRuntime :=
  let ring :=
    match send_rings x !! e with
    | Some ring => ring
    | None =>
        match recv_rings x !! e with
        | Some ring => ring
        | None => default 0 (recv_specs x !! e)
        end
    end in
  let x := set_send_rings x (delete e (send_rings x)) in
  let x := set_recv_rings x (delete e (recv_rings x)) in
  let x := set_recv_specs x (delete e (recv_specs x)) in
  let x := set_pending_streams x (delete e (pending_streams x)) in
  tell x (PumpStopped e ring).

(** ** Commands *)

Definition edge_layout (l : Arena.RingLayout) : RingLayout :=
  mkRingLayout (Arena.start_offset l) (Arena.header_offset l) (Arena.data_offset l) (Arena.end_offset l)
    (Arena.data_bytes l) (Arena.alignment l).

Definition edge_ring {A} (w : World) (e : EdgeId) (k : RingId → Outcome A) : Outcome A :=
  or_fail w (local_record (establisher (runtime w)) e ≫= l_ring_id) (EdgeRingMissing e) k.

Definition edge_rejection (r : Arena.RingLeaseRejection) : RingLeaseRejection :=
  match r with
  | Arena.CannotFitWithinCeiling => CannotFit
  | Arena.ArenaShuttingDown => ArenaShuttingDown
  end.

(** The answers of the arena to a lease. *)
Definition lease_event (x : EdgeRuntime) (ev : Arena.ArenaEvent) : EdgeRuntime :=
  match ev with
  | Arena.RingLeased lease =>
      tell x (RingLeased (Arena.request_id lease) (Arena.ring_id lease) (edge_layout (Arena.layout lease)))
  | Arena.RingLeaseRejected q reason => tell x (RingLeaseRejected q (edge_rejection reason))
  | Arena.RingLeaseQueued _ | Arena.RingReleased _ _ _ | Arena.RingReleaseRejected _ _
  | Arena.CancelledFreshLeaseReleased _ => x
  end.

Definition arena_request (w : World) (r : Arena.ArenaRequest) : World * list Arena.ArenaEvent :=
  let '(a, evs) := Arena.handle_request (arena w) r in (with_arena w a, evs).

Definition install_worker_ring (w : World) (e : EdgeId) (ring : RingId) (d : RingDirection) (spec : ObjectSpec)
    : Outcome unit :=
  or_fail w (Arena.layout <$> Arena.lookup_lease (arena w) ring) (LeaseMissing ring) (λ l,
    let '(k, r) := install_ring (worker w) e ring d l spec in
    let w := with_worker w k in
    port r w (λ _,
      let x := runtime w in
      let x :=
        match d with
        | Ingress => update_inbound x e (λ i, mkInboundEdge (in_edge_id i) (Some ring) (parse_spec i) (buffers i))
        | Egress =>
            update_outbound x e (λ o,
              mkOutboundEdge (out_edge_id o) (peer o) (Some ring) (writer o) (next_object_id o))
        end in
      (with_runtime w (tell x (RingInstalled e ring)), inl tt))).

Definition establish_send (w : World) (e : EdgeId) : Outcome unit :=
  edge_ring w e (λ ring,
    or_fail w (peer <$> (outbound (runtime w) ≫= λ o, if out_edge_id o =? e then Some o else None))
      OutboundEdgeMissing (λ p,
        let '(t, r) := open_writer (transport w) e p in
        let w := with_transport w t in
        port r w (λ wr,
          let x := update_outbound (runtime w) e (λ o,
            mkOutboundEdge (out_edge_id o) (peer o) (out_ring_id o) (Some wr) (next_object_id o)) in
          (with_runtime w (establish_send_wire x e ring), inl tt)))).

Definition execute_command (w : World) (c : EdgeCommand) : Outcome unit :=
  match c with
  | LeaseRing q _ _ spec =>
      let '(w, evs) := arena_request w (Arena.RequestLease (Arena.mkLeaseRing q
        (Arena.mkRingSpec (header_bytes spec) (spec_data_bytes spec) (spec_alignment spec)))) in
      (with_runtime w (foldl lease_event (runtime w) evs), inl tt)
  | InstallWorkerRing e ring d _ spec _ => install_worker_ring w e ring d spec
  | EstablishSend e _ _ => establish_send w e
  | EstablishRecv e _ =>
      edge_ring w e (λ ring, (with_runtime w (establish_recv_wire (runtime w) e ring), inl tt))
  | CancelQueuedLease q _ => ((arena_request w (Arena.CancelLease q)).1, inl tt)
  | StopPump e _ => (with_runtime w (stop_wire (runtime w) e), inl tt)
  | UninstallWorkerRing _ ring =>
      let '(k, r) := uninstall_ring (worker w) ring in
      let w := with_worker w k in
      port r w (λ _, (with_runtime w (tell (runtime w) (RingQuiesced ring)), inl tt))
  | ReleaseArenaLease ring proof => ((arena_request w (Arena.ReleaseRing ring (verified proof))).1, inl tt)
  end.

(** ** The workflow *)

(** How many commands a command can lead to, itself included. *)
Definition weight (c : EdgeCommand) : nat :=
  match c with
  | LeaseRing _ _ _ _ => 3
  | InstallWorkerRing _ _ _ _ _ _ | StopPump _ _ | UninstallWorkerRing _ _ => 2
  | _ => 1
  end.

Definition weigh (cs : list EdgeCommand) : nat := sum_list_with weight cs.

(** The commands that have not been executed, and the announcements that have not been drained. *)
Definition waiting_commands (x : EdgeRuntime) : list EdgeCommand := drop (command_cursor x) (commands (establisher x)).
Definition waiting_events (x : EdgeRuntime) : list EdgeLifecycleEvent := drop (lifecycle_cursor x) (events (establisher x)).

(** The [while] of [execute_commands]; [None] when the fuel ends first. *)
Fixpoint execute_loop (fuel : nat) (progressed : bool) (w : World) : option (Outcome bool) :=
  match waiting_commands (runtime w) with
  | [] => Some (w, inl progressed)
  | c :: _ =>
      match fuel with
      | O => None
      | S fuel =>
          let w := with_runtime w (set_command_cursor (runtime w) (S (command_cursor (runtime w)))) in
          match execute_command w c with
          | (w, inl _) => execute_loop fuel true w
          | (w, inr e) => Some (w, inr e)
          end
      end
  end.

Definition execute_commands (w : World) : option (Outcome bool) :=
  execute_loop (weigh (waiting_commands (runtime w))) false w.

(** The [while] of [drain_lifecycle], over the events that are left; nothing is added to them meanwhile. *)
Fixpoint drain_loop (todo : list EdgeLifecycleEvent) (progressed : bool) (x : EdgeRuntime)
    : EdgeRuntime * (bool + RuntimeError) :=
  match todo with
  | [] => (x, inl progressed)
  | ev :: todo =>
      let x := set_lifecycle_cursor x (S (lifecycle_cursor x)) in
      match ev with
      | EdgeReady e _ =>
          let d := default Ingress (l_direction <$> local_record (establisher x) e) in
          drain_loop todo true (note x (ObsEdgeReady e d))
      | EdgeFaulted e reason => (note x (ObsEdgeFaulted e reason), inr (EdgeFaultedError e reason))
      | EdgeStopped e => drain_loop todo true (note x (ObsEdgeStopped e))
      end
  end.

Definition drain_lifecycle (w : World) : Outcome bool :=
  let '(x, r) := drain_loop (waiting_events (runtime w)) false (runtime w) in (with_runtime w x, r).

(** The [loop] of [drive]: a round with commands, one with announcements and one with neither. *)
Fixpoint drive_loop (fuel : nat) (w : World) : option (Outcome unit) :=
  match fuel with
  | O => None
  | S fuel =>
      match execute_commands w with
      | None => None
      | Some (w, inr e) => Some (w, inr e)
      | Some (w, inl true) => drive_loop fuel w
      | Some (w, inl false) =>
          match drain_lifecycle w with
          | (w, inr e) => Some (w, inr e)
          | (w, inl true) => drive_loop fuel w
          | (w, inl false) => Some (w, inl tt)
          end
      end
  end.

Definition drive (w : World) : option (Outcome unit) := drive_loop 3 w.

(** ** Ingress *)

(** [arena.write_arena(offset, bytes)] *)
Definition write_arena (w : World) (offset : N) (bytes : list N) : Outcome unit :=
  match pwrite offset (N.of_nat (length bytes)) with
  | None => (w, inr WriteIngressRing)
  | Some written =>
      (with_memory w (mwrite (memory w) offset (take (N.to_nat written) bytes)),
       if written =? N.of_nat (length bytes) then inl tt else inr WriteIngressRing)
  end.

Definition ingress_record (e : EdgeId) (stream : StreamId) (spec : ObjectRecord.ObjectSpec) (buffered : N) (w : World)
    (i : IngressRecord) : Outcome unit :=
  let record := i_record i in
  or_fail w (inbound (runtime w) ≫= in_ring_id) InboundRingMissing (λ ring,
    or_fail w (Arena.lookup_lease (arena w) ring) (InboundLeaseMissing ring) (λ lease,
      attempt (write_arena w (Arena.data_offset (Arena.layout lease)) (i_bytes i)) (λ w _,
        let w := with_runtime w (note (runtime w)
          (ObsIngressRingWrite e ring stream (r_object_id record) (r_sequence record) (r_extent record)
             (begin_sequence (r_flags record)) (end_of_sequence (r_flags record)) (N.of_nat (length (i_bytes i))) buffered)) in
        let '(k, r) := load_object (worker w) (memory w) e ring record spec in
        let w := with_worker w k in
        match r with
        | inr message =>
            (with_runtime w (note (runtime w) (ObsObjectFailed e (Some (r_object_id record)))), inr (PortError message))
        | inl loaded =>
            let x := note (runtime w) (ObsObjectLoaded e ring stream loaded) in
            (with_runtime w (set_object_handles x (<[(e, lo_object_id loaded) := loaded]> (object_handles x))), inl tt)
        end))).

(** A [for] whose body may return an error. *)
Fixpoint for_each {A} (f : World → A → Outcome unit) (l : list A) (w : World) : Outcome unit :=
  match l with
  | [] => (w, inl tt)
  | a :: l => attempt (f w a) (λ w _, for_each f l w)
  end.

Definition ingress_bytes (w : World) (e : EdgeId) (stream : StreamId) (bytes : list N) : Outcome unit :=
  match inbound (runtime w) with
  | None => (w, inl tt)
  | Some i =>
      if negb (in_edge_id i =? e) then (w, inl tt)
      else
        let buffer := default [] (buffers i !! stream) in
        let '(r, rest) := ingest buffer bytes (parse_spec i) in
        let x := set_inbound (runtime w)
          (Some (mkInboundEdge (in_edge_id i) (in_ring_id i) (parse_spec i) (<[stream := rest]> (buffers i)))) in
        match r with
        | inr reason => (with_runtime w (note x (ObsObjectFailed e None)), inr (InvalidIngressRecord reason))
        | inl records =>
            for_each (ingress_record e stream (parse_spec i) (N.of_nat (length (buffer ++ bytes)))) records (with_runtime w x)
        end
  end.

(** ** The tick *)

Definition wire_event (w : World) (ev : WireEvent) : Outcome unit :=
  match ev with
  | StreamArrived e stream =>
      (with_runtime w (note (incoming_stream (runtime w) e stream) (ObsStreamArrived e stream)), inl tt)
  | BytesRead e stream bytes =>
      let w := with_runtime w (note (runtime w) (ObsBytesRead e stream (N.of_nat (length bytes)))) in
      ingress_bytes w e stream bytes
  | StreamEnded e stream =>
      (with_runtime w (update_inbound (runtime w) e (λ i,
         mkInboundEdge (in_edge_id i) (in_ring_id i) (parse_spec i) (delete stream (buffers i)))), inl tt)
  | WireStreamFault (Some e) _ _ => (with_runtime w (read_error (runtime w) e), inl tt)
  | WireStreamFault None _ _ => (w, inl tt)
  end.

Definition poll (w : World) : option (Outcome unit) :=
  match drive w with
  | None => None
  | Some (w, inr e) => Some (w, inr e)
  | Some (w, inl _) =>
      let '(t, evs) := drain_events (transport w) in
      match for_each wire_event evs (with_transport w t) with
      | (w, inr e) => Some (w, inr e)
      | (w, inl _) => drive w
      end
  end.
End Runtime.
