(* ===== verification/EdgeNode.v ===== *)
(** * A node's edges

    The runs of a node's edge runtime over its arena.  First the workflow of a tick: it ends, the establisher
    sees a history of events, and the arena one of requests.  Then the runs and their invariant: the arena
    keeps what the lifecycle asks of it, a ring leased once, and the ring of an edge stays leased as long as
    the node runs and is never given back. *)

From S2P Require Import Prelude Memory Arena ArenaSafety ObjectRecord EdgeLifecycle EdgeSafety.
From S2P Require Import EdgeRuntime.
#[local] Open Scope N_scope.

(** ** Termination *)

(** The weight of the commands an event leads to. *)
Definition gain (ev : EdgeEvent) : nat :=
  match ev with
  | RingLeased _ _ _ => 2
  | RingInstalled _ _ | PumpStopped _ _ | RingQuiesced _ => 1
  | RingLeaseRejected _ _ | DriverEdgeReady _ => 0
  | _ => 6
  end%nat.

Lemma move_gain ev e old r cs es : move ev e old r cs es → (weigh cs ≤ gain ev)%nat.
Proof.
  move=> Hm. destruct Hm as [old q a r H|r q g l ->|r q g l ->|r q x ->|r g l ->|r ->|r pre _ _ H|r r' g _ _ Hp|r ->];
    rw /weigh /=; try lia.
  - destruct ev => //=; lia.
  - rw /establish_commands. destruct (direction r), (peer_node_id r); simpl; lia.
  - have -> : gain ev = 6%nat by case: H => [[-> _] | [x [H _]]] //; destruct ev.
    rw /stop_commands. destruct (lease_request_id r), (ring_id r), (driver_established r), (worker_ring_cleanup_required r);
      simpl; lia.
  - destruct Hp; case: (teardown_quiesced _) => /=; lia.
Qed.

Lemma observe_gain s ev : ∃ cs, commands (observe s ev) = commands s ++ cs ∧ (weigh cs ≤ gain ev)%nat.
Proof.
  have Hs := observe_step s ev. move: (observe s ev) Hs => s' Hs. destruct Hs as [|e r cs es s' Hm [_ Hc _]].
  - exists []. rw app_nil_r. split => //. rw /weigh /=. lia.
  - exists cs. split => //. by apply (move_gain _ _ _ _ _ _ Hm).
Qed.

Lemma weigh_app l l' : weigh (l ++ l') = (weigh l + weigh l')%nat.
Proof. apply sum_list_with_app. Qed.

(** A lease is answered by one event. *)
Lemma lease_ring_one m r : ∃ ev, (Arena.lease_ring m r).2 = [ev].
Proof.
  rw /Arena.lease_ring. destruct (Arena.state m); last by eexists.
  destruct (Arena.request_layout_at _ _ _); last by eexists.
  case_bool_decide; last by eexists. destruct (Arena.try_allocate m r) as [m' [l|]]; by eexists.
Qed.

Section Drive.
Context {W T Peer Writer : Type} {HW : WorkerPort W} {HT : EdgeTransport T Peer Writer} {HP : Pwrite}.
Implicit Types (w : World (W:=W) (T:=T) (Peer:=Peer) (Writer:=Writer)) (x : EdgeRuntime (Peer:=Peer) (Writer:=Writer)).

(** What the arena answers to a lease, as the establisher is told. *)
Definition answers (ev : Arena.ArenaEvent) : list EdgeEvent :=
  match ev with
  | Arena.RingLeased l => [RingLeased (Arena.request_id l) (Arena.ring_id l) (edge_layout (Arena.layout l))]
  | Arena.RingLeaseRejected q reason => [RingLeaseRejected q (edge_rejection reason)]
  | _ => []
  end.

(** The events the runtime tells the establisher of: no provision, and no word on stops or quiescence. *)
Definition driven (ev : EdgeEvent) : Prop :=
  match ev with
  | RingLeased _ _ _ | RingLeaseRejected _ _ | RingInstalled _ _ | DriverEdgeReady _ | StreamFault _ _
  | PumpStopped _ _ | RingQuiesced _ => True
  | _ => False
  end.

(** What a call does to the runtime's bookkeeping: the establisher is told of events. *)
Record told x (evs : list EdgeEvent) x' : Prop := {
  told_establisher : establisher x' = foldl observe (establisher x) evs;
  told_cursor : command_cursor x' = command_cursor x;
  told_driven : Forall driven evs;
}.

(** What a command does to the arena, with the events that are told. *)
Inductive asks (a : Arena.ArenaManager) : EdgeCommand → list EdgeEvent → Arena.ArenaManager → Prop :=
| asks_nothing c evs : omap leased evs = [] → asks a c evs a
| asks_cancel q e : asks a (CancelQueuedLease q e) [] (Arena.cancel_lease a q)
| asks_release g p : asks a (ReleaseArenaLease g p) [] (Arena.release_ring a g (verified p)).1
| asks_lease c r a' ev : Arena.lease_ring a r = (a', [ev]) → asks a c (answers ev) a'.

Lemma told_nothing x x' : establisher x' = establisher x → command_cursor x' = command_cursor x → told x [] x'.
Proof. move=> H1 H2. split => //. Qed.

Lemma told_one x x0 ev :
  establisher x0 = establisher x → command_cursor x0 = command_cursor x → driven ev → told x [ev] (tell x0 ev).
Proof. move=> H1 H2 H3. split => //=; [by rw H1|by constructor]. Qed.

Lemma spawn_told x x0 e stream :
  establisher x0 = establisher x → command_cursor x0 = command_cursor x →
  told x [] (spawn_recv x0 e stream) ∨ told x [DriverEdgeReady e] (spawn_recv x0 e stream).
Proof.
  move=> H1 H2. rw /spawn_recv. destruct (recv_specs x0 !! e); last by left; apply told_nothing.
  right. by apply told_one.
Qed.

Lemma recv_told x e ring :
  told x [] (establish_recv_wire x e ring) ∨ told x [DriverEdgeReady e] (establish_recv_wire x e ring).
Proof.
  rw /establish_recv_wire. destruct (pending_streams _ !! e); [by apply spawn_told|by left; apply told_nothing].
Qed.

Lemma update_inbound_same x e f :
  establisher (update_inbound x e f) = establisher x ∧ command_cursor (update_inbound x e f) = command_cursor x.
Proof. rw /update_inbound. destruct (inbound x) as [i|] => //. by case: (_ =? _). Qed.

Lemma update_outbound_same x e f :
  establisher (update_outbound x e f) = establisher x ∧ command_cursor (update_outbound x e f) = command_cursor x.
Proof. rw /update_outbound. destruct (outbound x) as [i|] => //. by case: (_ =? _). Qed.

Lemma lease_told x ev : told x (answers ev) (lease_event x ev).
Proof. destruct ev; by [apply told_one|apply told_nothing]. Qed.

(** The total gain of events. *)
Definition gains (evs : list EdgeEvent) : nat := sum_list_with gain evs.

(** What a command does. *)
Record executed w (c : EdgeCommand) (evs : list EdgeEvent) w' : Prop := {
  ex_told : told (runtime w) evs (runtime w');
  ex_asks : asks (arena w) c evs (arena w');
  ex_gain : (gains evs < weight c)%nat;
}.

Lemma installed_executed w e ring d l o k w' r :
  install_worker_ring w e ring d o = (w', r) → ∃ evs, executed w (InstallWorkerRing e ring d l o k) evs w'.
Proof.
  rw /install_worker_ring /or_fail. destruct (Arena.layout <$> _) as [lay|].
  2: { move=> [<- _]. exists []. split; [by apply told_nothing|by constructor|rw /gains /=; lia]. }
  destruct (install_ring _ _ _ _ _ _) as [kk [[]|m]] => /= -[<- _].
  - exists [RingInstalled e ring]. split; [|by constructor|rw /gains /=; lia].
    destruct d; [apply (told_one _ (update_outbound _ _ _))|apply (told_one _ (update_inbound _ _ _))];
      by [apply update_outbound_same|apply update_inbound_same|].
  - exists []. split; [by apply told_nothing|by constructor|rw /gains /=; lia].
Qed.

Lemma idle_executed w c w' :
  establisher (runtime w') = establisher (runtime w) → command_cursor (runtime w') = command_cursor (runtime w) →
  arena w' = arena w → executed w c [] w'.
Proof.
  move=> H1 H2 H3. split; [by apply told_nothing|rw H3; by constructor|]. rw /gains /=. by destruct c; simpl; lia.
Qed.

Lemma send_executed w e p l w' r :
  establish_send w e = (w', r) → ∃ evs, executed w (EstablishSend e p l) evs w'.
Proof.
  rw /establish_send /edge_ring /or_fail. destruct (local_record _ e ≫= l_ring_id) as [ring|].
  2: { move=> [<- _]. exists []. by apply idle_executed. }
  destruct (peer <$> _) as [pr|]; last by move=> [<- _]; exists []; apply idle_executed.
  destruct (open_writer _ _ _) as [t [wr|m]] => /= -[<- _]; last by exists []; apply idle_executed.
  exists [DriverEdgeReady e]. split; [|by constructor|rw /gains /=; lia].
  rw /establish_send_wire. by apply told_one => //=; apply update_outbound_same.
Qed.

Lemma execute_executed w c w' r : execute_command w c = (w', r) → ∃ evs, executed w c evs w'.
Proof.
  destruct c as [q e d spec|q e|e ring d l o k|e ring|e p l|e l|e ring|ring p]; simpl.
  - rw /arena_request /=. have [ev Hev] := lease_ring_one (arena w) (Arena.mkLeaseRing q
      (Arena.mkRingSpec (header_bytes spec) (spec_data_bytes spec) (spec_alignment spec))).
    destruct (Arena.lease_ring _ _) as [a evs] eqn:E. simpl in Hev. subst evs => -[<- _].
    exists (answers ev). split; [apply lease_told|by eapply asks_lease|]. rw /gains /=. by destruct ev; simpl; lia.
  - move=> [<- _]. exists []. split; [by apply told_nothing|constructor|]. rw /gains /=. lia.
  - apply installed_executed.
  - destruct (uninstall_ring _ _) as [k [[]|m]] => /= -[<- _]; last by exists []; apply idle_executed.
    exists [RingQuiesced ring]. split; [by apply told_one|by constructor|rw /gains /=; lia].
  - apply send_executed.
  - rw /edge_ring /or_fail. destruct (local_record _ e ≫= l_ring_id) as [ring|] => -[<- _].
    2: { exists []. by apply idle_executed. }
    case: (recv_told (runtime w) e ring) => H; [exists []|exists [DriverEdgeReady e]];
      (split; [exact H|by constructor|rw /gains /=; lia]).
  - move=> [<- _]. exists [PumpStopped e (match send_rings (runtime w) !! e with Some ring => ring | None =>
      match recv_rings (runtime w) !! e with Some ring => ring | None => default 0 (recv_specs (runtime w) !! e) end end)].
    split; [by apply told_one|by constructor|rw /gains /=; lia].
  - rw /arena_request /=. destruct (Arena.release_ring _ _ _) as [a evs] eqn:E => -[<- _]. exists [].
    split; [by apply told_nothing| |rw /gains /=; lia]. have := asks_release (arena w) ring p. by rw E.
Qed.

Lemma observe_all_gain s evs :
  ∃ cs, commands (foldl observe s evs) = commands s ++ cs ∧ (weigh cs ≤ gains evs)%nat.
Proof.
  elim/rev_ind: evs => [|ev evs [cs [IH Hw]]]; first by exists []; rw app_nil_r.
  rw foldl_app. have [cs' [Hc Hg]] := observe_gain (foldl observe s evs) ev.
  exists (cs ++ cs'). rw /= Hc IH app_assoc. split => //. rw weigh_app /gains sum_list_with_app /=. move: Hw. rw /gains. lia.
Qed.

(** The command that is executed next, and the runtime past it. *)
Definition next_command x : EdgeRuntime := set_command_cursor x (S (command_cursor x)).

Lemma waiting_after x c rest evs x' :
  waiting_commands x = c :: rest → told (next_command x) evs x' →
  ∃ cs, waiting_commands x' = rest ++ cs ∧ (weigh cs ≤ gains evs)%nat.
Proof.
  rw /waiting_commands => Hx [He Hc _]. have [cs [Hcs Hw]] := observe_all_gain (establisher x) evs.
  exists cs. split => //. rw He Hc [establisher _]/= Hcs.
  have Hl : (S (command_cursor x) ≤ length (commands (establisher x)))%nat.
  { have := f_equal length Hx. rw length_drop /=. lia. }
  rw drop_app_le //. f_equal. have -> : command_cursor (next_command x) = (command_cursor x + 1)%nat by simpl; lia.
  by rw -drop_drop Hx.
Qed.

Lemma execute_loop_ends n b w :
  (weigh (waiting_commands (runtime w)) ≤ n)%nat →
  ∃ w' r, execute_loop n b w = Some (w', r) ∧ (∀ b', r = inl b' → waiting_commands (runtime w') = []).
Proof.
  elim: n b w => [|n IH] b w; simpl; destruct (waiting_commands (runtime w)) as [|c rest] eqn:E.
  - move=> _. exists w, (inl b). by rw E.
  - rw /weigh /=. by destruct c; simpl; lia.
  - move=> _. exists w, (inl b). by rw E.
  - move=> Hn. destruct (execute_command _ c) as [w1 [[]|e]] eqn:Ex; last by eexists _, _; split.
    have [evs [Ht _ Hg]] := execute_executed _ _ _ _ Ex.
    have [cs [Hw Hcs]] := waiting_after _ _ _ _ _ E Ht. apply IH. rw Hw weigh_app. move: Hn Hg Hcs. rw /weigh /=. lia.
Qed.

(** What the observers see changes nothing else. *)
Lemma drain_loop_spec todo b x :
  let o := drain_loop todo b x in
  establisher o.1 = establisher x ∧ command_cursor o.1 = command_cursor x ∧
  (∀ b', o.2 = inl b' →
     lifecycle_cursor o.1 = (lifecycle_cursor x + length todo)%nat ∧ b' = b || negb (bool_decide (todo = []))).
Proof.
  elim: todo b x => [|[e a|e reason|e] todo IH] b x /=.
  - split_and! => // b' [<-]. split; [lia|by rw orb_false_r].
  - have [-> [-> H]] := IH true (note (set_lifecycle_cursor x (S (lifecycle_cursor x)))
      (ObsEdgeReady e (default Ingress (l_direction <$> local_record (establisher (set_lifecycle_cursor x (S (lifecycle_cursor x)))) e)))).
    split_and! => // b' /H [-> ->] /=. split; [lia|by rw orb_true_r].
  - done.
  - have [-> [-> H]] := IH true (note (set_lifecycle_cursor x (S (lifecycle_cursor x))) (ObsEdgeStopped e)).
    split_and! => // b' /H [-> ->] /=. split; [lia|by rw orb_true_r].
Qed.

Lemma drain_spec w w' r :
  drain_lifecycle w = (w', r) →
  establisher (runtime w') = establisher (runtime w) ∧ command_cursor (runtime w') = command_cursor (runtime w) ∧
  arena w' = arena w ∧
  (∀ b, r = inl b → waiting_events (runtime w') = [] ∧ b = negb (bool_decide (waiting_events (runtime w) = []))).
Proof.
  rw /drain_lifecycle. have := drain_loop_spec (waiting_events (runtime w)) false (runtime w).
  destruct (drain_loop _ _ _) as [x o] => /= -[He [Hc H]] [<- <-] /=. split_and! => // b /H [Hl ->]. split => //.
  rw /waiting_events He Hl drop_ge //. rw length_drop. lia.
Qed.

Lemma execute_idle b w : waiting_commands (runtime w) = [] → execute_loop 0 b w = Some (w, inl b).
Proof. by move=> /= ->. Qed.

Lemma commands_end w : ∃ w' r, execute_commands w = Some (w', r) ∧ ∀ b, r = inl b → waiting_commands (runtime w') = [].
Proof. by apply execute_loop_ends. Qed.

Lemma commands_idle w : waiting_commands (runtime w) = [] → execute_commands w = Some (w, inl false).
Proof. move=> H. rw /execute_commands H. by apply execute_idle. Qed.

(** With no command waiting, two rounds are enough, and one when no announcement is waiting either. *)
Lemma drive_quiet n w :
  waiting_commands (runtime w) = [] → waiting_events (runtime w) = [] → drive_loop (S n) w ≠ None.
Proof.
  move=> Hc He. rw /= (commands_idle _ Hc). destruct (drain_lifecycle w) as [w' r] eqn:E.
  have [_ [_ [_ H]]] := drain_spec _ _ _ E. destruct r as [b|]; last done. have [_ ->] := H _ eq_refl. by rw He.
Qed.

Lemma drive_drains n w : waiting_commands (runtime w) = [] → drive_loop (S (S n)) w ≠ None.
Proof.
  move=> Hc. rw {1}/drive_loop -/(drive_loop (S n)) (commands_idle _ Hc). destruct (drain_lifecycle w) as [w' r] eqn:E.
  have [He [Hcur [_ H]]] := drain_spec _ _ _ E. destruct r as [[]|] => //.
  have [Hev _] := H _ eq_refl. apply drive_quiet => //. by rw /waiting_commands He Hcur.
Qed.

Lemma drive_returns w : drive w ≠ None.
Proof.
  rw /drive. change (drive_loop 3 w) with (match execute_commands w with
    | None => None | Some (w, inr e) => Some (w, inr e) | Some (w, inl true) => drive_loop 2 w
    | Some (w, inl false) => match drain_lifecycle w with
        | (w, inr e) => Some (w, inr e) | (w, inl true) => drive_loop 2 w | (w, inl false) => Some (w, inl tt) end end).
  have [w' [r [-> H]]] := commands_end w. destruct r as [[]|e] => //; first by apply drive_drains, (H true).
  destruct (drain_lifecycle w') as [w2 r2] eqn:E. have [He [Hcur _]] := drain_spec _ _ _ E.
  destruct r2 as [[]|] => //. apply drive_drains. rw /waiting_commands He Hcur. by apply (H false).
Qed.

(** A tick ends: every command leads to a bounded number of others, and the workflow comes to rest after a
    round of commands, one of announcements and one of neither. *)
Theorem poll_returns w : ∃ w' r, poll w = Some (w', r).
Proof.
  rw /poll. have := drive_returns w. destruct (drive w) as [[w1 [[]|e]]|] => // _; last by eexists _, _.
  destruct (drain_events _) as [t evs]. destruct (for_each _ _ _) as [w2 [[]|e]]; last by eexists _, _.
  have := drive_returns w2. destruct (drive w2) as [[w3 r]|] => // _. by eexists _, _.
Qed.
End Drive.

(** ** The arena *)

Lemma try_allocate_ids m r :
  let x := Arena.try_allocate m r in
  Arena.next_ring_id m ≤ Arena.next_ring_id x.1 ∧
  ∀ l, x.2 = Some l → Arena.ring_id l = Arena.next_ring_id m ∧ Arena.next_ring_id x.1 = Arena.next_ring_id m + 1.
Proof.
  rw /Arena.try_allocate. destruct (Arena.first_fit _ _ _) as [[free l]|] => /=; last by split; [lia|].
  destruct (checked_add _ 1) as [next|] eqn:E => /=; last by split; [lia|].
  apply checked_add_Some in E as [-> _]. split; [lia|]. by move=> l' [<-].
Qed.

(** A lease keeps the live leases, and one that is granted has the next identifier. *)
Lemma lease_ring_keeps m r m' ev :
  Arena.lease_ring m r = (m', [ev]) →
  Arena.live_order m ⊆ Arena.live_order m' ∧ Arena.next_ring_id m ≤ Arena.next_ring_id m' ∧
  ∀ l, ev = Arena.RingLeased l →
    l ∈ Arena.live_order m' ∧ Arena.ring_id l = Arena.next_ring_id m ∧ Arena.next_ring_id m' = Arena.next_ring_id m + 1 ∧
    Arena.request_id l = Arena.lr_request_id r.
Proof.
  rw /Arena.lease_ring. destruct (Arena.state m); last by move=> [<- <-]; split_and!; [set_solver|simpl; lia|].
  destruct (Arena.request_layout_at _ _ _); last by move=> [<- <-]; split_and!; [set_solver|simpl; lia|].
  case_bool_decide; last by move=> [<- <-]; split_and!; [set_solver|simpl; lia|].
  have [Hn Hl] := try_allocate_ids m r. have [_ [_ [Hlive Hsv]]] := try_allocate_live m r.
  destruct (Arena.try_allocate m r) as [m1 [l|]]; move=> [<- <-]; simpl in *; rw Hlive.
  - split_and!; [set_solver|done|]. move=> l' [<-]. have [H1 H2] := Hl _ eq_refl. have [H3 _] := Hsv _ eq_refl.
    split_and! => //. set_solver.
  - rw app_nil_r. split_and!; [set_solver|done|done].
Qed.

Lemma retry_keeps m queue :
  Arena.live_order m ⊆ Arena.live_order (Arena.retry m queue).1 ∧
  Arena.next_ring_id m ≤ Arena.next_ring_id (Arena.retry m queue).1.
Proof.
  elim: queue m => [|p queue IH] m /=; first by split; [set_solver|lia].
  destruct (cancelled p); first by have := IH m; destruct (Arena.retry m queue).
  have [Hn _] := try_allocate_ids m (Arena.request p). have [_ [_ [Hlive _]]] := try_allocate_live m (Arena.request p).
  destruct (Arena.try_allocate m (Arena.request p)) as [m1 [l|]]; simpl in *.
  - have := IH m1. destruct (Arena.retry m1 queue) as [m2 evs] => /= -[H1 H2]. rw Hlive in H1. split; [set_solver|lia].
  - rw Hlive app_nil_r. split; [set_solver|lia].
Qed.

(** A release takes away the lease it is for, and no other. *)
Lemma release_ring_keeps m g v l :
  core_ok m → l ∈ Arena.live_order m → Arena.ring_id l ≠ g → l ∈ Arena.live_order (Arena.release_ring m g v).1.
Proof.
  move=> Hm Hl Hg. rw /Arena.release_ring. destruct (Arena.live_index m !! g) as [i|] eqn:Hi => //.
  case: v => //=. destruct (Arena.live_order m !! i) as [x|] eqn:Hx => //.
  rw (co_index _ Hm) in Hi. have [y [Hy Hid]] := index_of_lookup _ _ _ Hi. rw Hx in Hy. case: Hy => ?; subst y.
  have Hin : l ∈ delete i (Arena.live_order m).
  { have Hp := delete_Permutation _ _ _ Hx. rw Hp in Hl. move: Hl => /elem_of_cons [E|//]. by subst x. }
  destruct (Arena.state _) => //=. rw /Arena.retry_pending_leases.
  match goal with |- context [Arena.retry ?a ?b] => have [Hk _] := retry_keeps a b; destruct (Arena.retry a b) as [m2 evs] end.
  by apply Hk.
Qed.

Lemma release_ring_ids m g v : Arena.next_ring_id m ≤ Arena.next_ring_id (Arena.release_ring m g v).1.
Proof.
  rw /Arena.release_ring. destruct (Arena.live_index m !! g) as [i|] => /=; last lia.
  case: v => /=; last lia. destruct (Arena.live_order m !! i) as [x|] => /=; last lia.
  destruct (Arena.state m) => /=; last lia. rw /Arena.retry_pending_leases.
  match goal with |- context [Arena.retry ?a ?b] => have [_ Hk] := retry_keeps a b; destruct (Arena.retry a b) as [m2 evs] end.
  exact Hk.
Qed.

Section World.
Context {W T Peer Writer : Type} {HW : WorkerPort W} {HT : EdgeTransport T Peer Writer} {HP : Pwrite}.
Implicit Types (w : World (W:=W) (T:=T) (Peer:=Peer) (Writer:=Writer)) (x : EdgeRuntime (Peer:=Peer) (Writer:=Writer)).

(** ** Runs *)

(** What happens to a node's runtime: it is polled, with whatever result, edges that it does not know are
    provisioned, and its observations and object identifiers are taken; the memory, the worker and the
    transport change on their own.  The runtime would also take the provision of an edge that it knows; that
    replaces the record, and the ring on it is lost, so these runs are left out. *)
Inductive tick w : World → Prop :=
| tick_poll w' r : poll w = Some (w', r) → tick w w'
| tick_inbound p spec :
    records (establisher (runtime w)) !! rx_edge_id p = None →
    tick w (with_runtime w (establish_inbound (runtime w) p spec))
| tick_outbound p peer :
    records (establisher (runtime w)) !! tx_edge_id p = None →
    tick w (with_runtime w (establish_outbound (runtime w) p peer))
| tick_taken : tick w (with_runtime w (take_observations (runtime w)).2)
| tick_alloc : tick w (with_runtime w (alloc_output_object_id (runtime w)).1)
| tick_outside m k t : tick w (mkWorld (runtime w) (arena w) m k t).

(** A node that starts. *)
Record starts (n : N) w : Prop := {
  starts_runtime : runtime w = new_runtime n;
  starts_arena : ∃ backing c, boot backing c = inr (arena w);
}.

Definition reach (n : N) w : Prop := ∃ w0, starts n w0 ∧ rtc tick w0 w.

(** The number of commands of a node stays within the machine's. *)
Definition bounded w : Prop := N.of_nat (length (commands (establisher (runtime w)))) < u64_max.

(** ** Steps within a tick *)

Inductive micro w : World → Prop :=
| micro_command c rest w' r :
    waiting_commands (runtime w) = c :: rest →
    execute_command (with_runtime w (next_command (runtime w))) c = (w', r) → micro w w'
| micro_told evs w' :
    told (runtime w) evs (runtime w') → omap leased evs = [] → arena w' = arena w → micro w w'
| micro_provision ev e w' :
    establisher (runtime w') = observe (establisher (runtime w)) ev →
    command_cursor (runtime w') = command_cursor (runtime w) → arena w' = arena w →
    provisioned ev = Some e → records (establisher (runtime w)) !! e = None → micro w w'.

Lemma micro_quiet w w' :
  establisher (runtime w') = establisher (runtime w) → command_cursor (runtime w') = command_cursor (runtime w) →
  arena w' = arena w → micro w w'.
Proof. move=> H1 H2 H3. by apply (micro_told _ []) => //; apply told_nothing. Qed.

Lemma execute_micro n b w w' r : execute_loop n b w = Some (w', r) → rtc micro w w'.
Proof.
  elim: n b w => [|n IH] b w /=; destruct (waiting_commands (runtime w)) as [|c rest] eqn:E ; try done.
  1, 2: by move=> [<- _].
  destruct (execute_command _ c) as [w1 [[]|e]] eqn:Ex.
  - move=> /IH H. apply rtc_l with w1 => //. by eapply micro_command.
  - move=> [<- _]. apply rtc_once. by eapply micro_command.
Qed.

Lemma drain_micro w w' r : drain_lifecycle w = (w', r) → micro w w'.
Proof. move=> /drain_spec [H1 [H2 [H3 _]]]. by apply micro_quiet. Qed.

Lemma drive_micro n w w' r : drive_loop n w = Some (w', r) → rtc micro w w'.
Proof.
  elim: n w => [|n IH] w //=. destruct (execute_commands w) as [[w1 o]|] eqn:E => //.
  have H1 := execute_micro _ _ _ _ _ E. destruct o as [[]|e].
  - move=> /IH H2. by transitivity w1.
  - destruct (drain_lifecycle w1) as [w2 o] eqn:E2. have H2 := drain_micro _ _ _ E2.
    have H12 : rtc micro w w2 by apply rtc_r with w1. destruct o as [[]|e].
    + move=> /IH H3. by transitivity w2.
    + by move=> [<- _].
    + by move=> [<- _].
  - by move=> [<- _].
Qed.

(** What ingress does not touch. *)
Definition same_node w w' : Prop :=
  establisher (runtime w') = establisher (runtime w) ∧ command_cursor (runtime w') = command_cursor (runtime w) ∧
  arena w' = arena w.

Lemma write_same w off bs : same_node w (write_arena w off bs).1.
Proof. rw /write_arena. by destruct (pwrite _ _). Qed.

Lemma ingress_record_same e st spec n w i : same_node w (ingress_record e st spec n w i).1.
Proof.
  rw /ingress_record /or_fail. destruct (inbound _ ≫= _) as [ring|] => //.
  destruct (lookup_lease _ _) as [lease|] => //.
  have [H1 [H2 H3]] := write_same w (Arena.data_offset (Arena.layout lease)) (i_bytes i).
  destruct (write_arena _ _ _) as [w1 [[]|]] => //=. destruct (load_object _ _ _ _ _ _) as [k [o|m]] => //.
Qed.

Lemma for_each_same {A} (f : World → A → Outcome unit) l w :
  (∀ w a, same_node w (f w a).1) → same_node w (for_each f l w).1.
Proof.
  move=> Hf. elim: l w => [|a l IH] w //=. rw /attempt. have := Hf w a.
  destruct (f w a) as [w1 [[]|]] => //= -[H1 [H2 H3]]. have [G1 [G2 G3]] := IH w1.
  by rw /same_node G1 G2 G3.
Qed.

Lemma ingress_bytes_same w e st bytes : same_node w (ingress_bytes w e st bytes).1.
Proof.
  rw /ingress_bytes. destruct (inbound _) as [i|] => //. case: (negb _) => //.
  destruct (ingest _ _ _) as [[rs|] rest] => //.
  match goal with |- context [for_each ?f ?l ?w0] =>
    have [H1 [H2 H3]] := for_each_same f l w0 (λ w a, ingress_record_same _ _ _ _ w a) end.
  by rw /same_node H1 H2 H3.
Qed.

Lemma wire_micro w ev w' r : wire_event w ev = (w', r) → micro w w'.
Proof.
  destruct ev as [e st|e st bytes|e st|[e|] st f] => /=.
  - move=> [<- _]. rw /incoming_stream. case_bool_decide.
    + case: (spawn_told (runtime w) (runtime w) e st eq_refl eq_refl) => -[H1 H2 H3]; 
        [by apply (micro_told _ [])|by apply (micro_told _ [DriverEdgeReady e])].
    + by apply micro_quiet.
  - match goal with |- ingress_bytes ?w0 _ _ _ = _ → _ => have := ingress_bytes_same w0 e st bytes end.
    destruct (ingress_bytes _ _ _ _) as [w1 o] => -[H1 [H2 H3]] [<- _]. by apply micro_quiet.
  - move=> [<- _]. by apply micro_quiet => //=; apply update_inbound_same.
  - move=> [<- _]. apply (micro_told _ [StreamFault e ReadError]) => //. by apply told_one.
  - move=> [<- _]. by apply micro_quiet.
Qed.

Lemma wires_micro l w w' r : for_each wire_event l w = (w', r) → rtc micro w w'.
Proof.
  elim: l w => [|ev l IH] w /=; first by move=> [<- _].
  rw /attempt. destruct (wire_event w ev) as [w1 [[]|]] eqn:E; have H := wire_micro _ _ _ _ E.
  - move=> /IH. by apply rtc_l.
  - move=> [<- _]. by apply rtc_once.
Qed.

Lemma poll_micro w w' r : poll w = Some (w', r) → rtc micro w w'.
Proof.
  rw /poll /drive. destruct (drive_loop 3 w) as [[w1 [[]|e]]|] eqn:E1 => //; last by move=> [<- _]; eapply drive_micro.
  destruct (drain_events _) as [t evs]. destruct (for_each _ _ _) as [w2 o] eqn:E2.
  have H1 := drive_micro _ _ _ _ E1. have H2 := wires_micro _ _ _ _ E2.
  have H : rtc micro w w2.
  { transitivity w1 => //. apply rtc_l with (with_transport w1 t) => //. by apply micro_quiet. }
  destruct o as [[]|]; last by move=> [<- _]. move=> /drive_micro H3. by transitivity w2.
Qed.

Lemma tick_micro w w' : tick w w' → rtc micro w w'.
Proof.
  case=> [w1 r H|p spec H|p peer H| | |m k t]; first by eapply poll_micro.
  all: apply rtc_once.
  - by apply (micro_provision _ (EvProvisionRx p) (rx_edge_id p)).
  - by apply (micro_provision _ (EvProvisionTx p) (tx_edge_id p)).
  - by apply micro_quiet.
  - apply micro_quiet; rw /alloc_output_object_id /=; by destruct (outbound (runtime w)).
  - by apply micro_quiet.
Qed.
End World.

(** ** Histories of events *)

Record history (n : N) (evs : list EdgeEvent) : Prop := {
  h_used : well_used evs;
  h_driven : Forall (λ ev, driven ev ∨ is_Some (provisioned ev)) evs;
  h_known e : e ∈ omap provisioned evs → is_Some (records (run n evs) !! e);
}.

(** The edges that hold a ring. *)
Definition holds_ring (s : EdgeEstablisherState) (e : EdgeId) (g : RingId) : Prop :=
  ∃ r, records s !! e = Some r ∧ ring_id r = Some g.

Lemma ring_origin s ev e g : holds_ring (observe s ev) e g → holds_ring s e g ∨ leased ev = Some g.
Proof.
  move=> [x [Hx Hg]]. have Hs := observe_step s ev. move: Hx. move: (observe s ev) Hs => s' Hs.
  destruct Hs as [|e' r cs es s' Hm Ha]; first by left; exists x.
  move=> /(records_after _ _ _ _ _ _ Ha) [[-> E] | [_ Hx]]; last by left; exists x.
  subst x. case: (move_ring _ _ _ _ _ _ _ Hm Hg) => [[y [Hy Hg']]|]; [left; by exists y|by right].
Qed.

Lemma records_stay s ev e : is_Some (records s !! e) → is_Some (records (observe s ev) !! e).
Proof.
  move=> [x Hx]. have Hs := observe_step s ev. move: (observe s ev) Hs => s' Hs.
  destruct Hs as [|e' r cs es s' Hm [Hr _ _]]; first by exists x.
  rw Hr lookup_insert_is_Some'. by right; exists x.
Qed.

Lemma driven_unprovisioned ev : driven ev → provisioned ev = None.
Proof. by destruct ev. Qed.

Lemma history_driven n evs ev :
  history n evs → driven ev → (∀ g, leased ev = Some g → g ∉ omap leased evs) → history n (evs ++ [ev]).
Proof.
  move=> [[Hp Hl] Hd Hk] Hev Hg. have Hnp := driven_unprovisioned _ Hev. split.
  - split; rw omap_app /=; first by rw Hnp app_nil_r.
    destruct (leased ev) as [g|]; last by rw app_nil_r.
    apply NoDup_app. split_and! => //; last by apply NoDup_singleton.
    move=> g' Hin /list_elem_of_singleton E. subst g'. by apply (Hg g).
  - apply Forall_app. split => //. by repeat constructor.
  - move=> e. rw omap_app /= Hnp app_nil_r run_snoc => /Hk. apply records_stay.
Qed.

Lemma history_told n evs l :
  history n evs → Forall driven l → omap leased l = [] →
  history n (evs ++ l) ∧ ∀ e g, holds_ring (run n (evs ++ l)) e g → holds_ring (run n evs) e g.
Proof.
  move=> Hh. elim/rev_ind: l => [|ev l IH]; first by rw app_nil_r.
  rw Forall_app omap_app => -[Hl /Forall_cons [Hev _]] /app_nil [Hn Hn'].
  have [H1 H2] := IH Hl Hn. have Hnone : leased ev = None by move: Hn' => /=; case: (leased ev).
  rw app_assoc. split; first by apply history_driven => // g; rw Hnone.
  move=> e g. rw run_snoc => /ring_origin [/H2|] //. by rw Hnone.
Qed.

(** The provision of an edge that is not known: one for another node is ignored. *)
Lemma history_provision n evs ev e :
  history n evs → provisioned ev = Some e → records (run n evs) !! e = None →
  observe (run n evs) ev = run n evs ∨ history n (evs ++ [ev]).
Proof.
  move=> [[Hp Hl] Hd Hk] Hev Hnone.
  have Hcase : observe (run n evs) ev = run n evs ∨ is_Some (records (observe (run n evs) ev) !! e).
  { destruct ev => //; injection Hev as <-; rw /= /provision_tx /provision_rx; case: (_ =? _); (by left) || right => /=;
      by rw lookup_insert_eq. }
  case: Hcase => Hcase; [by left|right]. split.
  - split; rw omap_app /= ?Hev; last by rw (_ : leased ev = None); [destruct ev|rw app_nil_r].
    apply NoDup_app. split_and! => //; last by apply NoDup_singleton.
    move=> e' Hin /list_elem_of_singleton E. subst e'. have [x Hx] := Hk _ Hin. by rw Hnone in Hx.
  - apply Forall_app. split => //. apply Forall_singleton. right. by rw Hev.
  - move=> e'. rw omap_app run_snoc elem_of_app /= Hev => -[/Hk | /list_elem_of_singleton ->] //. apply records_stay.
Qed.

(** The quiescence of a ring is never proven, so no release is for the ring of an edge. *)
Lemma unreleased n evs g p e : history n evs → ReleaseArenaLease g p ∈ commands (run n evs) → ¬ holds_ring (run n evs) e g.
Proof.
  move=> [Hu Hd _] Hin [r [Hr Hg]]. have Hi := inv_run n _ Hu. have [_ [_ H]] := i_released _ _ Hi _ _ Hin.
  have [_] := H _ _ Hr Hg. rw /teardown_quiesced !andb_true_iff => -[_ Hq].
  have := ok_proven _ _ _ (i_records _ _ Hi _ _ Hr) _ Hg Hq. move: Hd => /Forall_forall Hd /Hd /= [//|[x Hx]]. done.
Qed.

Section Node.
Context {W T Peer Writer : Type} {HW : WorkerPort W} {HT : EdgeTransport T Peer Writer} {HP : Pwrite}.
Implicit Types (w : World (W:=W) (T:=T) (Peer:=Peer) (Writer:=Writer)).

(** ** The invariant *)

Record node_ok (n : N) (evs : list EdgeEvent) w : Prop := {
  n_run : establisher (runtime w) = run n evs;
  n_history : history n evs;
  n_fresh g : g ∈ omap leased evs → g < Arena.next_ring_id (arena w);
  n_held e g : holds_ring (run n evs) e g → ∃ l, l ∈ Arena.live_order (arena w) ∧ Arena.ring_id l = g;
  n_core : core_ok (arena w);
  n_queue : ∃ k, queue_ok k (arena w) ∧ k ≤ N.of_nat (command_cursor (runtime w));
  n_cursor : (command_cursor (runtime w) ≤ length (commands (run n evs)))%nat;
  n_sourced : sourced (λ _, True) (arena w);
}.

Lemma commands_grow n evs l : (length (commands (run n evs)) ≤ length (commands (run n (evs ++ l))))%nat.
Proof.
  rw /run foldl_app. have [cs [-> _]] := observe_all_gain (foldl observe (new n) evs) l. rw length_app. lia.
Qed.

(** The arena after a command. *)
Lemma asks_arena w c evs a k :
  core_ok (arena w) → sourced (λ _, True) (arena w) → queue_ok k (arena w) → k + 1 < u64_max → asks (arena w) c evs a →
  core_ok a ∧ sourced (λ _, True) a ∧ (∃ k', queue_ok k' a ∧ k' ≤ k + 1) ∧
  Arena.next_ring_id (arena w) ≤ Arena.next_ring_id a.
Proof.
  move=> Hc Hs Hq Hk Ha.
  have Hreq r : core_ok (Arena.handle_request (arena w) r).1 ∧ sourced (λ _, True) (Arena.handle_request (arena w) r).1 ∧
    (∃ k', queue_ok k' (Arena.handle_request (arena w) r).1 ∧ k' ≤ k + 1).
  { have Hr : asked r ≤ 1 by destruct r; simpl; lia. have [H1 [H2 _]] := handle_request_ok k (arena w) r Hc Hq ltac:(lia).
    split_and! => //; first by apply handle_request_sourced. exists (k + asked r). split => //. lia. }
  destruct Ha as [c evs _|q e|g p|c r a' ev E].
  - split_and!; [done|done|exists k; split; [done|lia]|lia].
  - have [H1 [H2 H3]] := Hreq (Arena.CancelLease q). by split_and!.
  - have [H1 [H2 H3]] := Hreq (Arena.ReleaseRing g (verified p)). split_and! => //. apply release_ring_ids.
  - have [H1 [H2 H3]] := Hreq (Arena.RequestLease r). rw /= E in H1 H2 H3. split_and! => //.
    by have [_ [? _]] := lease_ring_keeps _ _ _ _ E.
Qed.

(** The history and the rings after a command. *)
Lemma asks_history n evs w c l a :
  node_ok n evs w → c ∈ commands (run n evs) → Forall driven l → asks (arena w) c l a →
  history n (evs ++ l) ∧ (∀ g, g ∈ omap leased (evs ++ l) → g < Arena.next_ring_id a) ∧
  ∀ e g, holds_ring (run n (evs ++ l)) e g → ∃ x, x ∈ Arena.live_order a ∧ Arena.ring_id x = g.
Proof.
  move=> Hok Hc Hl Ha. destruct Ha as [c l Hnone|q e|g p|c r a' ev E].
  - have [H1 H2] := history_told _ _ _ (n_history _ _ _ Hok) Hl Hnone. split_and! => //.
    + move=> g. rw omap_app Hnone app_nil_r. apply Hok.
    + move=> e g /H2. apply Hok.
  - rw app_nil_r. split_and!; apply Hok.
  - rw app_nil_r. split_and!; first apply Hok.
    + move=> g' /(n_fresh _ _ _ Hok) Hg. have := release_ring_ids (arena w) g (verified p). lia.
    + move=> e g' Hg. have [x [Hx Hid]] := n_held _ _ _ Hok _ _ Hg. exists x. split => //.
      apply release_ring_keeps => //; first apply Hok. move=> Eg. rw -Hid Eg in Hg.
      exact (unreleased _ _ _ _ _ (n_history _ _ _ Hok) Hc Hg).
  - have [K1 [K2 K3]] := lease_ring_keeps _ _ _ _ E.
    have Hheld e g : holds_ring (run n evs) e g → ∃ x, x ∈ Arena.live_order a' ∧ Arena.ring_id x = g.
    { move=> /(n_held _ _ _ Hok) [x [Hx Hid]]. exists x. split => //. by apply K1. }
    have Hfr g : g ∈ omap leased evs → g < Arena.next_ring_id a' by move=> /(n_fresh _ _ _ Hok); lia.
    destruct (decide (omap leased (answers ev) = [])) as [Hnone|Hsome].
    { have [H1 H2] := history_told _ _ _ (n_history _ _ _ Hok) Hl Hnone. split_and!; [done| |by move=> e g /H2 /Hheld].
      move=> g. rw omap_app Hnone app_nil_r. apply Hfr. }
    destruct ev as [lease| | | | |] => //. have [L1 [L2 [L3 _]]] := K3 _ eq_refl.
    have Hnew : Arena.ring_id lease ∉ omap leased evs by move=> /(n_fresh _ _ _ Hok); lia.
    split_and!.
    + apply history_driven; [apply Hok|done|]. by move=> g [<-].
    + move=> g. rw omap_app elem_of_app => -[/Hfr | /list_elem_of_singleton ->] //. lia.
    + move=> e g. rw run_snoc => /ring_origin [/Hheld | [<-]] //. by exists lease.
Qed.

Lemma run_told n evs l (s : EdgeEstablisherState) : s = run n evs → foldl observe s l = run n (evs ++ l).
Proof. move=> ->. by rw /run foldl_app. Qed.

Lemma command_ok n evs w c rest w' r :
  node_ok n evs w → bounded w' → waiting_commands (runtime w) = c :: rest →
  execute_command (with_runtime w (next_command (runtime w))) c = (w', r) → ∃ evs', node_ok n evs' w'.
Proof.
  move=> Hok Hb Hw Hx. have [l [[Hest Hcur Hdr] Hasks _]] := execute_executed _ _ _ _ Hx.
  change (runtime (with_runtime w (next_command (runtime w)))) with (next_command (runtime w)) in Hest, Hcur.
  change (establisher (next_command (runtime w))) with (establisher (runtime w)) in Hest.
  change (command_cursor (next_command (runtime w))) with (S (command_cursor (runtime w))) in Hcur.
  rw (n_run _ _ _ Hok) (run_told _ _ _ _ eq_refl) in Hest.
  have Hin : c ∈ commands (run n evs).
  { rw -(n_run _ _ _ Hok). rw -(take_drop (command_cursor (runtime w)) (commands _)). rw /waiting_commands in Hw. rw Hw. set_solver. }
  have Hlen : (S (command_cursor (runtime w)) ≤ length (commands (run n evs)))%nat.
  { have := f_equal length Hw. rw /waiting_commands length_drop (n_run _ _ _ Hok) /=. lia. }
  have Hgrow := commands_grow n evs l.
  have [k [Hq Hk]] := n_queue _ _ _ Hok.
  have Hk' : k + 1 < u64_max by move: Hb; rw /bounded Hest; lia.
  have [A1 [A2 [[k' [A3 A4]] A5]]] := asks_arena _ _ _ _ _ (n_core _ _ _ Hok) (n_sourced _ _ _ Hok) Hq Hk' Hasks.
  have [B1 [B2 B3]] := asks_history _ _ _ _ _ _ Hok Hin Hdr Hasks.
  exists (evs ++ l). split => //; rw Hcur; [|lia]. exists k'. split => //. lia.
Qed.

Lemma told_ok n evs w l w' :
  node_ok n evs w → told (runtime w) l (runtime w') → omap leased l = [] → arena w' = arena w → node_ok n (evs ++ l) w'.
Proof.
  move=> Hok [Hest Hcur Hdr] Hnone Ha. rw (n_run _ _ _ Hok) (run_told _ _ _ _ eq_refl) in Hest.
  have [H1 H2] := history_told _ _ _ (n_history _ _ _ Hok) Hdr Hnone. have Hgrow := commands_grow n evs l.
  have Hcu := n_cursor _ _ _ Hok. split => //; rw ?Ha ?Hcur; try apply Hok; [|by move=> e g /H2; apply Hok|lia].
  move=> g. rw omap_app Hnone app_nil_r. apply Hok.
Qed.

Lemma provision_ok n evs w ev e w' :
  node_ok n evs w → establisher (runtime w') = observe (establisher (runtime w)) ev →
  command_cursor (runtime w') = command_cursor (runtime w) → arena w' = arena w → provisioned ev = Some e →
  records (establisher (runtime w)) !! e = None → ∃ evs', node_ok n evs' w'.
Proof.
  move=> Hok Hest Hcur Ha Hev Hnone. rw (n_run _ _ _ Hok) in Hest Hnone.
  have Hl : leased ev = None by destruct ev. have Hcu := n_cursor _ _ _ Hok.
  case: (history_provision _ _ _ _ (n_history _ _ _ Hok) Hev Hnone) => H.
  - exists evs. split; rw ?Ha ?Hcur ?Hest ?H //; apply Hok.
  - exists (evs ++ [ev]). have Hgrow := commands_grow n evs [ev].
    split => //; rw ?Ha ?Hcur ?Hest -?run_snoc //; try apply Hok; [| |lia].
    + move=> g. rw omap_app /= Hl app_nil_r. apply Hok.
    + move=> e' g. rw run_snoc => /ring_origin [|]; [apply Hok|by rw Hl].
Qed.

Lemma micro_ok n evs w w' : micro w w' → bounded w' → node_ok n evs w → ∃ evs', node_ok n evs' w'.
Proof.
  case=> [c rest w1 r Hw Hx Hb Hok|l w1 Ht Hn Ha _ Hok|ev e w1 He Hc Ha Hev Hn _ Hok].
  - by eapply command_ok.
  - exists (evs ++ l). by eapply told_ok.
  - by eapply provision_ok.
Qed.

Lemma micro_grows w w' :
  micro w w' → (length (commands (establisher (runtime w))) ≤ length (commands (establisher (runtime w'))))%nat.
Proof.
  case=> [c rest w1 r _ Hx|l w1 [He _ _] _ _|ev e w1 He _ _ _ _].
  - have [l [[He _ _] _ _]] := execute_executed _ _ _ _ Hx. rw He /=.
    have [cs [-> _]] := observe_all_gain (establisher (runtime w)) l. rw length_app. lia.
  - rw He. have [cs [-> _]] := observe_all_gain (establisher (runtime w)) l. rw length_app. lia.
  - rw He. have [cs [-> _]] := observe_gain (establisher (runtime w)) ev. rw length_app. lia.
Qed.

Lemma starts_ok n w : starts n w → node_ok n [] w.
Proof.
  case=> Hr [backing [c /boot_ok [H1 [H2 [_ [H3 H4]]]]]].
  have H : history n [].
  { split; [split; apply NoDup_nil_2|constructor|]. by move=> e /elem_of_nil. }
  split; rw ?Hr //=; [by move=> g /elem_of_nil| |by exists 0|].
  - move=> e g [r [Hx _]]. by rw lookup_empty in Hx.
  - split; rw ?H3 ?H4; constructor.
Qed.

Lemma micros_ok n evs w w' : rtc micro w w' → bounded w' → node_ok n evs w → ∃ evs', node_ok n evs' w'.
Proof.
  move=> H Hb Hok. move: w' H Hb.
  apply (rtc_ind_r (λ w', bounded w' → ∃ evs', node_ok n evs' w') w); first by exists evs.
  move=> w1 w2 _ H2 IH Hb. have Hb1 : bounded w1 by move: Hb (micro_grows _ _ H2); rw /bounded; lia.
  have [evs' Hok'] := IH Hb1. by eapply micro_ok.
Qed.

Lemma reach_ok n w : reach n w → bounded w → ∃ evs, node_ok n evs w.
Proof.
  move=> [w0 [Hs Hr]] Hb. apply (micros_ok n [] w0 w) => //; last by apply starts_ok.
  elim: Hr {Hs Hb} => // w1 w2 w3 /tick_micro H _. by transitivity w2.
Qed.

(** C22. The ring of an edge is the edge's for good: in every run of a node in which an
    edge is provisioned while it has no record, and fewer than 2^64 commands are given,
    an edge that has a ring finds it leased in the arena and is not stopped, whatever
    its faults, and no other edge has the same ring. *)
Theorem ring_stays_leased n w e r g :
  reach n w → bounded w → records (establisher (runtime w)) !! e = Some r → ring_id r = Some g →
  (∃ lease, Arena.lookup_lease (arena w) g = Some lease) ∧ state r ≠ Stopped ∧
  ∀ e' r', records (establisher (runtime w)) !! e' = Some r' → ring_id r' = Some g → e' = e.
Proof.
  move=> Hr Hb. have [evs Hok] := reach_ok _ _ Hr Hb. rw (n_run _ _ _ Hok) => He Hg.
  have [Hu Hd _] := n_history _ _ _ Hok. have Hi := inv_run n _ Hu. split_and!.
  - have [l [Hl Hid]] := n_held _ _ _ Hok e g ltac:(by exists r). exists l. by apply lookup_live; first apply Hok.
  - move=> Hs. have Hun : StoppedEvent e ∉ evs.
    { move=> Hin. move: Hd => /Forall_forall Hd. by have [|[]] := Hd _ Hin. }
    have [_ H] := e_stopped _ _ _ (ends_run _ _ _ _ Hu Hun He) Hs. have [p Hp] := H _ Hg.
    apply (unreleased _ _ _ _ e (n_history _ _ _ Hok) Hp). by exists r.
  - move=> e' r' He' Hg'. exact (i_unique _ _ Hi _ _ _ _ _ He' He Hg' Hg).
Qed.
End Node.
