(* ===== verification/EdgeTraffic.v ===== *)
(** * Edges that come up, and objects that arrive

    What [ingress_bytes] does with the bytes of a stream: the records that come whole are put into the ring
    of the edge, one after the other, each is in the ring when the worker is asked to load it, until it
    refuses one, and nothing else of the arena is touched.  Then how an edge comes up: it gets its ring, its worker and its wire within one tick
    of the runtime, when the arena has room and the worker and the transport do their part. *)

From S2P Require Import Prelude Memory Arena ArenaSafety ObjectRecord EdgeLifecycle EdgeSafety.
From S2P Require Import EdgeRuntime EdgeNode.
#[local] Open Scope N_scope.

(** ** Bounds *)

Lemma take_records_bounded n x spec :
  addressable spec →
  ∀ rs, (take_records n x spec).1 = inl rs →
  Forall (λ i, N.of_nat (length (i_bytes i)) ≤ HEADER_LEN + max_extent spec) rs.
Proof.
  move=> Ha. elim: n x => [|n IH] x rs /=; first by move=> [<-].
  destruct (take_complete_record x spec) as [[[r x']|]|e] eqn:E => //=; last by move=> [<-].
  have := IH x'. destruct (take_records n x' spec) as [[l|e] z] => //= H [<-].
  constructor; last by apply H. move: E. rw /take_complete_record.
  destruct (read_object_record x spec false) as [[|q]|] eqn:Er => // -[<- _] /=.
  have [_ [_ Hq]] := read_complete _ _ _ _ Ha Er. rw length_take. lia.
Qed.

Section Ingress.
Context {W T Peer Writer : Type} {HW : WorkerPort W} {HT : EdgeTransport T Peer Writer} {HP : Pwrite}.
Implicit Types (w : World (W:=W) (T:=T) (Peer:=Peer) (Writer:=Writer)).

(** What a call leaves of the memory: every byte outside a range. *)
Definition writes_in (lo hi : N) w w' : Prop := ∀ pos, ¬ (lo ≤ pos ∧ pos < hi) → memory w' pos = memory w pos.

Lemma write_arena_in lo hi w off bs :
  lo ≤ off → off + N.of_nat (length bs) ≤ hi → writes_in lo hi w (write_arena w off bs).1.
Proof.
  move=> H1 H2 pos Hp. rw /write_arena. destruct (pwrite _ _) as [k|] => //=. apply mwrite_out. rw length_take. lia.
Qed.

(** The edge the ingress works for: its ring and the ring's lease. *)
Definition works_in (ring : RingId) (lease : Arena.RingLease) w : Prop :=
  (inbound (runtime w) ≫= in_ring_id) = Some ring ∧ Arena.lookup_lease (arena w) ring = Some lease.

Lemma ingress_record_in ring lease e st spec n w i :
  works_in ring lease w →
  N.of_nat (length (i_bytes i)) ≤ Arena.end_offset (Arena.layout lease) - Arena.data_offset (Arena.layout lease) →
  Arena.data_offset (Arena.layout lease) ≤ Arena.end_offset (Arena.layout lease) →
  writes_in (Arena.data_offset (Arena.layout lease)) (Arena.end_offset (Arena.layout lease)) w
    (ingress_record e st spec n w i).1 ∧
  works_in ring lease (ingress_record e st spec n w i).1.
Proof.
  move=> [Hr Hl] Hlen Hle. rw /ingress_record /or_fail Hr Hl.
  have Hw := write_arena_in (Arena.data_offset (Arena.layout lease)) (Arena.end_offset (Arena.layout lease)) w
    (Arena.data_offset (Arena.layout lease)) (i_bytes i) ltac:(lia) ltac:(lia).
  have Hk : works_in ring lease (write_arena w (Arena.data_offset (Arena.layout lease)) (i_bytes i)).1.
  { rw /write_arena. by destruct (pwrite _ _). }
  destruct (write_arena _ _ _) as [w1 [[]|]] => //=. by destruct (load_object _ _ _ _ _ _) as [k [o|m]].
Qed.

Lemma ingress_records_in ring lease e st spec n rs w :
  works_in ring lease w →
  Forall (λ i, N.of_nat (length (i_bytes i)) ≤
    Arena.end_offset (Arena.layout lease) - Arena.data_offset (Arena.layout lease)) rs →
  Arena.data_offset (Arena.layout lease) ≤ Arena.end_offset (Arena.layout lease) →
  writes_in (Arena.data_offset (Arena.layout lease)) (Arena.end_offset (Arena.layout lease)) w
    (for_each (ingress_record e st spec n) rs w).1.
Proof.
  move=> Hw Hrs Hle. elim: Hrs w Hw => [|i l Hi _ IH] w Hw //=. rw /attempt.
  have [H1 H2] := ingress_record_in _ _ e st spec n w i Hw Hi Hle.
  destruct (ingress_record _ _ _ _ _ _) as [w1 [[]|]] => //= pos Hp. rw IH //. by apply H1.
Qed.

(** A lease of the arena of a node is laid out as its ring needs. *)
Lemma node_layout n evs w g lease :
  node_ok n evs w → Arena.lookup_lease (arena w) g = Some lease →
  lease ∈ Arena.live_order (arena w) ∧ Arena.ring_id lease = g ∧
  Arena.start_offset (Arena.layout lease) ≤ Arena.data_offset (Arena.layout lease) ∧
  Arena.end_offset (Arena.layout lease) = Arena.data_offset (Arena.layout lease) + Arena.data_bytes (Arena.layout lease).
Proof.
  move=> Hok /(lookup_live _ _ _ (n_core _ _ _ Hok)) [Hl Hid]. split_and! => //.
  all: have /Forall_forall Hs := so_live _ _ (n_sourced _ _ _ Hok).
  all: have [r [_ [_ [s /layout_at_inv [_ [_ [_ [H3 [H4 [H5 _]]]]]]]]]] := Hs _ Hl.
  - apply align_up_spec in H3. lia.
  - by rw H5.
Qed.

(** C24. The bytes of a stream stay in their ring: in every run of a node, when the ring
    of the inbound edge has room for one record of its format, the bytes that arrive are
    written to the data of that ring only, whatever they are: its header and the rings
    of all the others are untouched. *)
Theorem ingress_stays_in_ring n w e st bytes i ring lease :
  reach n w → bounded w → inbound (runtime w) = Some i → in_ring_id i = Some ring →
  Arena.lookup_lease (arena w) ring = Some lease → addressable (parse_spec i) →
  HEADER_LEN + max_extent (parse_spec i) ≤ Arena.data_bytes (Arena.layout lease) →
  let w' := (ingress_bytes w e st bytes).1 in
  writes_in (Arena.data_offset (Arena.layout lease)) (Arena.end_offset (Arena.layout lease)) w w' ∧
  ∀ g other pos, Arena.lookup_lease (arena w) g = Some other → g ≠ ring →
    Arena.start_offset (Arena.layout other) ≤ pos < Arena.end_offset (Arena.layout other) → memory w' pos = memory w pos.
Proof.
  move=> Hr Hb Hi Hring Hl Ha Hroom w'. have [evs Hok] := reach_ok _ _ Hr Hb.
  have [Hin [Hid [Hs He]]] := node_layout _ _ _ _ _ Hok Hl.
  have Hw : writes_in (Arena.data_offset (Arena.layout lease)) (Arena.end_offset (Arena.layout lease)) w w'.
  { rw /w' /ingress_bytes Hi. case: (negb _) => //. rw /ingest. set b := default [] (buffers i !! st).
    have Hx := take_records_bounded (length (b ++ bytes)) (b ++ bytes) _ Ha.
    destruct (take_records _ _ _) as [[rs|] rest] => //. have Hrs := Hx _ eq_refl.
    match goal with |- writes_in _ _ _ (for_each ?f _ ?w0).1 => apply (ingress_records_in ring lease e st _ _ rs w0) end.
    - by split.
    - eapply Forall_impl; first exact Hrs. move=> j /= Hj. lia.
    - lia. }
  split => // g other pos Ho Hne Hpos. apply Hw => -[P1 P2].
  have [Hoin [Hoid _]] := node_layout _ _ _ _ _ Hok Ho.
  apply (live_disjoint _ _ _ pos (n_core _ _ _ Hok) Hin Hoin); [by rw Hid Hoid; auto|apply holds_spec; simpl; lia..].
Qed.

(** ** Delivery *)

(** The objects the worker was seen to load. *)
Definition loaded_of (o : Observation) : option LoadedObject :=
  match o with ObsObjectLoaded _ _ _ object => Some object | _ => None end.

Definition objects_seen w : list LoadedObject := omap loaded_of (observations (runtime w)).

(** The objects [hs] of the edge were seen, in this order, and each has its handle. *)
Record seen (e : EdgeId) (hs : list LoadedObject) w w' : Prop := {
  sn_arena : arena w' = arena w;
  sn_objects : objects_seen w' = objects_seen w ++ hs;
  sn_handles id :
    id ∈ lo_object_id <$> hs ∨ is_Some (loaded_object (runtime w) e id) → is_Some (loaded_object (runtime w') e id);
}.

Lemma seen_none e w w' :
  arena w' = arena w → observations (runtime w') = observations (runtime w) →
  object_handles (runtime w') = object_handles (runtime w) → seen e [] w w'.
Proof.
  move=> H1 H2 H3. split => //; first by rw /objects_seen H2 app_nil_r.
  move=> id [/elem_of_nil|] //. by rw /loaded_object H3.
Qed.

Lemma seen_trans e hs hs' w w1 w2 : seen e hs w w1 → seen e hs' w1 w2 → seen e (hs ++ hs') w w2.
Proof.
  move=> [A1 S1 H1] [A2 S2 H2]. split; [by rw A2|by rw S2 S1 app_assoc|].
  move=> id. rw fmap_app elem_of_app => -[[?|?]|?]; apply H2; [right; apply H1; by left|by left|right; apply H1; by right].
Qed.

Section Delivery.
Context (e : EdgeId) (st : StreamId) (spec : ObjectRecord.ObjectSpec) (ring : RingId) (lease : Arena.RingLease).

(** The ring has room for a record of the format, and a write of no more than its data is not short. *)
Hypothesis room : HEADER_LEN + max_extent spec ≤ Arena.data_bytes (Arena.layout lease).
Hypothesis write_whole : ∀ len,
  len ≤ Arena.data_bytes (Arena.layout lease) → pwrite (Arena.data_offset (Arena.layout lease)) len = Some len.

(** The bytes of a record are in the ring. *)
Definition in_ring (m : Mem) (b : ObjectRecordBuilder) : Prop :=
  N.of_nat (length (encode b)) ≤ Arena.data_bytes (Arena.layout lease) ∧
  mread m (Arena.data_offset (Arena.layout lease)) (N.of_nat (length (encode b))) = encode b.

(** The worker loads records one after the other, each while its bytes are in the ring. *)
Inductive worker_loads : W → list ObjectRecordBuilder → W → list LoadedObject → Prop :=
| loads_none k : worker_loads k [] k []
| loads_next k m b k1 h bs k2 hs :
    in_ring m b → load_object k m e ring (i_record (received b)) spec = (k1, inl h) →
    worker_loads k1 bs k2 hs → worker_loads k (b :: bs) k2 (h :: hs).

(** How the ingress of records ends: they are all loaded, or those before one that the worker refuses. *)
Inductive outcome (bs : list ObjectRecordBuilder) w w' : unit + RuntimeError → list LoadedObject → Prop :=
| all_loaded hs : worker_loads (worker w) bs (worker w') hs → outcome bs w w' (inl tt) hs
| one_refused done b more k m message hs :
    bs = done ++ b :: more → worker_loads (worker w) done k hs → in_ring m b →
    load_object k m e ring (i_record (received b)) spec = (worker w', inr message) →
    outcome bs w w' (inr (PortError message)) hs.

Lemma worker_loads_app k bs1 k1 hs1 bs2 k2 hs2 :
  worker_loads k bs1 k1 hs1 → worker_loads k1 bs2 k2 hs2 → worker_loads k (bs1 ++ bs2) k2 (hs1 ++ hs2).
Proof. move=> H1. elim: H1 => [//|? ? ? ? ? ? ? ? Hr Hl _ IH] /IH H2 /=. by econstructor. Qed.

Lemma outcome_app bs1 bs2 w w1 w2 r hs1 hs2 :
  outcome bs1 w w1 (inl tt) hs1 → outcome bs2 w1 w2 r hs2 → outcome (bs1 ++ bs2) w w2 r (hs1 ++ hs2).
Proof.
  move=> H1. inversion H1 as [hs L1|]; subst. case=> [hs L2|done b more k m message hs -> L2 Hm Hr].
  - constructor. by eapply worker_loads_app.
  - eapply (one_refused _ _ _ (bs1 ++ done) b more); [by rw -app_assoc|by eapply worker_loads_app|done|done].
Qed.

Lemma outcome_refused bs more w w' x hs : outcome bs w w' (inr x) hs → outcome (bs ++ more) w w' (inr x) hs.
Proof.
  move=> H. inversion H as [|done b more' k m message hs' E L Hm Hr]; subst.
  by eapply (one_refused _ _ _ done b (more' ++ more)); [rw -app_assoc|..].
Qed.

Lemma sendable_fits b : sendable spec b → N.of_nat (length (encode b)) ≤ Arena.data_bytes (Arena.layout lease).
Proof using room.
  move=> Hb. rw (length_encode _ _ Hb). case: Hb => *. move: room. rw /HEADER_LEN. lia.
Qed.

Lemma record_ingress n w b :
  sendable spec b → works_in ring lease w →
  ∃ w' r hs, ingress_record e st spec n w (received b) = (w', r) ∧ outcome [b] w w' r hs ∧ seen e hs w w' ∧
    inbound (runtime w') = inbound (runtime w).
Proof using room write_whole.
  move=> Hb [Hr Hl]. have Hfit := sendable_fits _ Hb.
  rw /ingress_record /or_fail Hr Hl /write_arena write_whole //= N.eqb_refl. rw take_ge; first lia.
  match goal with |- context [load_object ?k ?m _ _ _ _] =>
    have Hm : in_ring m b by split; [|apply mread_mwrite_same]
  end.
  destruct (load_object _ _ _ _ _ _) as [k' [h|message]] eqn:E; eexists _, _, _; (split; first done); split_and! => //.
  - constructor. econstructor; [exact Hm|exact E|constructor].
  - split => //; first by rw /objects_seen /= !omap_app /= app_nil_r.
    move=> id. rw /loaded_object /= lookup_insert_is_Some'. set_solver.
  - by eapply (one_refused _ _ _ [] b []); [|constructor|exact Hm|exact E].
  - split => //; first by rw /objects_seen /= !omap_app /= !app_nil_r.
    move=> id [/elem_of_nil|] //.
Qed.

Lemma records_ingress n bs w :
  Forall (sendable spec) bs → works_in ring lease w →
  ∃ w' r hs, for_each (ingress_record e st spec n) (received <$> bs) w = (w', r) ∧ outcome bs w w' r hs ∧ seen e hs w w' ∧
    inbound (runtime w') = inbound (runtime w).
Proof using room write_whole.
  move=> Hbs. elim: Hbs w => [|b l Hb _ IH] w Hw.
  - exists w, (inl tt), []. split_and! => //; [by repeat constructor|by apply seen_none].
  - have [w1 [r1 [hs1 [H1 [O1 [S1 I1]]]]]] := record_ingress n w b Hb Hw. rw fmap_cons /= /attempt H1.
    destruct r1 as [[]|x]; last by exists w1, (inr x), hs1; split_and! => //; apply (outcome_refused [b]).
    have Hw1 : works_in ring lease w1 by case: Hw => ? ?; rw /works_in I1 (sn_arena _ _ _ _ S1).
    have [w2 [r2 [hs2 [H2 [O2 [S2 I2]]]]]] := IH w1 Hw1. exists w2, r2, (hs1 ++ hs2).
    split_and! => //; [by apply (outcome_app [b] _ w w1)|by eapply seen_trans|by rw I2].
Qed.

(** The edge the stream belongs to, with what it has buffered of it. *)
Definition buffering (b : list N) w : Prop :=
  ∃ i, inbound (runtime w) = Some i ∧ in_edge_id i = e ∧ in_ring_id i = Some ring ∧ parse_spec i = spec ∧
    default [] (buffers i !! st) = b ∧ Arena.lookup_lease (arena w) ring = Some lease.

Lemma bytes_ingress b bytes bs rest w :
  Forall (sendable spec) bs → buffering b w → ingest b bytes spec = (inl (received <$> bs), rest) →
  ∃ w' r hs, ingress_bytes w e st bytes = (w', r) ∧ outcome bs w w' r hs ∧ seen e hs w w' ∧ buffering rest w'.
Proof using room write_whole.
  move=> Hbs [i [Hi [He [Hr [Hs [Hb Hl]]]]]] Hin. rw /ingress_bytes Hi He N.eqb_refl /= Hs Hb Hin.
  set x := set_inbound _ _. have Hw : works_in ring lease (with_runtime w x) by split.
  have [w' [r [hs [H [O [S I]]]]]] := records_ingress (N.of_nat (length (b ++ bytes))) bs _ Hbs Hw.
  exists w', r, hs. split_and! => //.
  - case: O => *; by econstructor.
  - by case: S => S1 S2 S3; split.
  - eexists. split; first by rw I. rw /= lookup_insert_eq (sn_arena _ _ _ _ S). by split_and!.
Qed.

Lemma chunks_ingress b chunks bs rest w :
  Forall (sendable spec) bs → buffering b w → feed b chunks spec = (inl (received <$> bs), rest) →
  ∃ w' r hs, for_each (λ w bytes, ingress_bytes w e st bytes) chunks w = (w', r) ∧
    outcome bs w w' r hs ∧ seen e hs w w' ∧ (r = inl tt → buffering rest w').
Proof using room write_whole.
  elim: chunks b bs w => [|bytes chunks IH] b bs w Hbs Hb /=.
  - move=> [Hn <-]. symmetry in Hn. apply fmap_nil_inv in Hn as ->. exists w, (inl tt), [].
    split_and! => //; [by repeat constructor|by apply seen_none].
  - destruct (ingest b bytes spec) as [[rs|] b1] eqn:E => //.
    destruct (feed b1 chunks spec) as [[more|] b2] eqn:F => //= -[Hrs Hrest]. subst b2.
    symmetry in Hrs. apply fmap_app_inv in Hrs as [bs1 [bs2 [E1 [E2 ->]]]]. subst rs more.
    apply Forall_app in Hbs as [B1 B2]. have [w1 [r1 [hs1 [H1 [O1 [S1 P1]]]]]] := bytes_ingress _ _ _ _ _ B1 Hb E.
    rw /attempt H1. destruct r1 as [[]|x]; last by exists w1, (inr x), hs1; split_and! => //; apply outcome_refused.
    have [w2 [r2 [hs2 [H2 [O2 [S2 P2]]]]]] := IH _ _ _ B2 P1 F. exists w2, r2, (hs1 ++ hs2). rw H2.
    split_and! => //; [by eapply outcome_app|by eapply seen_trans].
Qed.

(** C13. Objects arrive. Let the ring of the inbound edge have room for a record of the
    edge's format, let the size of such a record fit 64 bits, and let no write of at
    most the ring's data be short. When the peer puts records of this format on a stream
    of which nothing is buffered, then however the transport cuts its bytes, the worker
    is asked to load the records that have come whole, each once, in order, and while
    its bytes are whole in the ring. If it accepts them all, the bytes of the record
    that has not come whole are kept; if it refuses one, those before it have been
    loaded, and its refusal is the error. What it loaded is what was seen, in this
    order, and each has its handle. *)
Theorem stream_is_loaded w bs tail chunks :
  addressable spec → Forall (sendable spec) bs → read_object_record tail spec false = inl Incomplete →
  concat chunks = concat (encode <$> bs) ++ tail → buffering [] w →
  ∃ w' r hs, for_each (λ w bytes, ingress_bytes w e st bytes) chunks w = (w', r) ∧
    outcome bs w w' r hs ∧ (r = inl tt → buffering tail w') ∧
    objects_seen w' = objects_seen w ++ hs ∧
    ∀ h, h ∈ hs → is_Some (loaded_object (runtime w') e (lo_object_id h)).
Proof using room write_whole.
  move=> Ha Hbs Ht Hc Hb. have Hf := stream_is_fed spec bs tail chunks Ha Hbs Ht Hc.
  have [w' [r [hs [H [O [[_ S1 S2] P]]]]]] := chunks_ingress _ _ _ _ _ Hbs Hb Hf. exists w', r, hs.
  split_and! => //. move=> h Hin. apply S2. left. apply list_elem_of_fmap. by exists h.
Qed.
End Delivery.
End Ingress.

(** ** Request identifiers *)

Lemma observe_requests s ev :
  (provisioned ev = None ∧ next_request_id (observe s ev) = next_request_id s) ∨ observe s ev = s ∨
  (next_request_id (observe s ev) = next_request_id s +64 1 ∧
   length (commands (observe s ev)) = S (length (commands s)) ∧
   ∃ e a r, records (observe s ev) = <[e := r]> (records s) ∧ provision_of ev (next_request_id s) a = Some (e, r)).
Proof.
  destruct ev as [p|p| | | | | | | | | | |]; simpl.
  1: rw /provision_tx; case: (_ =? _); [right; right|by right; left].
  1: { split_and!; [done|by rw /= length_app /=; lia|]. by exists (tx_edge_id p), (next_actor_id s), (new_tx p (next_request_id s) (next_actor_id s)). }
  1: rw /provision_rx; case: (_ =? _); [right; right|by right; left].
  1: { split_and!; [done|by rw /= length_app /=; lia|]. by exists (rx_edge_id p), (next_actor_id s), (new_rx p (next_request_id s) (next_actor_id s)). }
  all: left; split; first done.
  all: rw /ring_leased /ring_lease_rejected /ring_installed /driver_edge_ready /ring_fault /stop_edge /fault_edge
    /start_stopping /on_pump_stopped /ring_quiesced /on_quiescence_proven /release_after_teardown_proofs /release_ring
    /mark_stopped_with_event /mark_stopped; repeat (case_match; simpl; try done).
Qed.

Record requests (s : EdgeEstablisherState) : Prop := {
  rq_below e r q : records s !! e = Some r → lease_request_id r = Some q → q < next_request_id s;
  rq_count : next_request_id s ≤ 1 + N.of_nat (length (commands s));
}.

Lemma requests_run n evs :
  well_used evs → N.of_nat (length (commands (run n evs))) < u64_max → requests (run n evs).
Proof.
  elim/rev_ind: evs => [|ev evs IH] Hw Hb; first by split => //= e r q; rw lookup_empty.
  have Hw' := well_used_prefix _ _ Hw. have Hi := inv_run n _ Hw'. have Hg := commands_grow n evs [ev].
  have [R1 R2] := IH Hw' ltac:(lia). rw run_snoc in Hb Hg |- *.
  case: (observe_requests (run n evs) ev) => [[Hp Hn] | [-> | [Hn [Hl [e [a [r [Hr Hev]]]]]]]] //.
  - split; rw Hn; last lia. move=> e x q Hx Hq.
    have [y Hy] : is_Some (records (run n evs) !! e).
    { have Hs := observe_step (run n evs) ev. move: Hx. move: (observe _ ev) Hs => s' Hs. destruct Hs as [|e' r' cs es s' Hm Ha] => //.
      move=> /(records_after _ _ _ _ _ _ Ha) [[-> _] | [_ Hx]]; last by exists x.
      destruct Hm as [? ? ? ? Hpr| | | | | | | |] => //. by rw (provision_of_edge _ _ _ _ _ Hpr) in Hp. }
    have [x' [Hx' Hk]] := record_observed _ _ _ _ _ Hi Hw Hy. rw Hx in Hx'. case: Hx' => ?; subst x'.
    apply (R1 _ _ _ Hy). by rw -(kept_request _ _ Hk).
  - have Hlt : next_request_id (run n evs) + 1 < u64_modulus by move: Hb; rw /u64_max /u64_modulus; lia.
    rw u64_add_small // in Hn. split; rw Hn; last lia.
    move=> e' x q. rw Hr => /lookup_insert_Some [[_ <-] | [_ Hx]] Hq; last by have := R1 _ _ _ Hx Hq; lia.
    have E : lease_request_id r = Some (next_request_id (run n evs)) by destruct ev => //; injection Hev as _ <-.
    rw Hq in E. case: E => ->. lia.
Qed.

(** ** The steps of an edge that comes up *)

Lemma observe_leased s e r q g l :
  records s !! e = Some r → state r = WaitingForLease → lease_request_id r = Some q →
  (∀ e' r', records s !! e' = Some r' → lease_request_id r' = Some q → e' = e) →
  observe s (RingLeased q g l) =
    push (put s e (with_ring r g l)) (InstallWorkerRing e g (direction r) l (object_spec r) (ring_spec r)).
Proof.
  move=> Hr Hs Hq Hu. rw /= /ring_leased.
  have -> : edge_for_request s q = Some e.
  { apply (edge_where_only _ _ _ r) => //; first by apply bool_decide_eq_true.
    move=> e' r' Hr' /bool_decide_eq_true. by apply Hu. }
  by rw Hr Hs.
Qed.

Lemma observe_installed s e r g l :
  records s !! e = Some r → state r = WaitingForWorkerRing → ring_id r = Some g → layout r = Some l →
  observe s (RingInstalled e g) =
    set_commands (put s e (with_driver r)) (commands s ++ establish_commands e r l).
Proof.
  move=> Hr Hs Hg Hl. rw /= /ring_installed Hr Hs Hg Hl !bool_decide_true //= /establish_commands.
  destruct (direction r), (peer_node_id r) => //. by rw app_nil_r.
Qed.

Lemma observe_ready s e r :
  records s !! e = Some r → state r = WaitingForDriver →
  observe s (DriverEdgeReady e) = announce (put s e (set_state r Ready)) (EdgeReady e (local_edge_actor r)).
Proof. move=> Hr Hs. by rw /= /driver_edge_ready Hr Hs. Qed.

Section Ready.
Context {W T Peer Writer : Type} {HW : WorkerPort W} {HT : EdgeTransport T Peer Writer} {HP : Pwrite}.
Implicit Types (w : World (W:=W) (T:=T) (Peer:=Peer) (Writer:=Writer)) (x : EdgeRuntime (Peer:=Peer) (Writer:=Writer)).

(** No command and no announcement waits. *)
Definition quiet x : Prop :=
  command_cursor x = length (commands (establisher x)) ∧ lifecycle_cursor x = length (events (establisher x)).

Lemma drop_last {A} n (l l' : list A) : n = length l → drop n (l ++ l') = l'.
Proof. move=> ->. apply drop_app_length. Qed.

Lemma quiet_waits x : quiet x → waiting_commands x = [] ∧ waiting_events x = [].
Proof. move=> [H1 H2]. by rw /waiting_commands /waiting_events H1 H2 !drop_all. Qed.

Lemma execute_one n b w c rest w' :
  waiting_commands (runtime w) = c :: rest →
  execute_command (with_runtime w (next_command (runtime w))) c = (w', inl tt) →
  execute_loop (S n) b w = execute_loop n true w'.
Proof. move=> /= -> Hx. by rw Hx. Qed.

(** The runtime whose establisher was told, one command further. *)
Definition onward x (s : EdgeEstablisherState) : EdgeRuntime := set_establisher (next_command x) s.

Lemma execute_lease n b w q e d spec r a lease :
  waiting_commands (runtime w) = [LeaseRing q e d spec] →
  Arena.lease_ring (arena w) (Arena.mkLeaseRing q
    (Arena.mkRingSpec (header_bytes spec) (spec_data_bytes spec) (spec_alignment spec))) = (a, [Arena.RingLeased lease]) →
  records (establisher (runtime w)) !! e = Some r → state r = WaitingForLease → lease_request_id r = Some q →
  (∀ e' r', records (establisher (runtime w)) !! e' = Some r' → lease_request_id r' = Some q → e' = e) →
  let g := Arena.ring_id lease in let l := edge_layout (Arena.layout lease) in
  execute_loop (S n) b w = execute_loop n true
    (with_arena (with_runtime w (onward (runtime w)
       (push (put (establisher (runtime w)) e (with_ring r g l))
          (InstallWorkerRing e g (direction r) l (object_spec r) (ring_spec r))))) a).
Proof.
  move=> Hw Ha Hr Hs Hq Hu g l. apply (execute_one _ _ _ _ _ _ Hw). rw /= /arena_request /= Ha /=.
  have [_ [_ Hk]] := lease_ring_keeps _ _ _ _ Ha. have [_ [_ [_ Hid]]] := Hk _ eq_refl. rw /= in Hid.
  have Ho := observe_leased _ _ _ _ g l Hr Hs Hq Hu.
  by rw /tell Hid /= in Ho |- *; rw Ho.
Qed.

Definition ring_placed x (e : EdgeId) (g : RingId) (d : RingDirection) : EdgeRuntime :=
  match d with
  | Ingress => update_inbound x e (λ i, mkInboundEdge (in_edge_id i) (Some g) (parse_spec i) (buffers i))
  | Egress => update_outbound x e (λ o, mkOutboundEdge (out_edge_id o) (peer o) (Some g) (writer o) (EdgeRuntime.next_object_id o))
  end.

Lemma execute_install n b w e g d l0 o k0 r lease l k :
  waiting_commands (runtime w) = [InstallWorkerRing e g d l0 o k0] →
  Arena.lookup_lease (arena w) g = Some lease →
  install_ring (worker w) e g d (Arena.layout lease) o = (k, inl tt) →
  records (establisher (runtime w)) !! e = Some r → state r = WaitingForWorkerRing → ring_id r = Some g → layout r = Some l →
  execute_loop (S n) b w = execute_loop n true
    (with_worker (with_runtime w (set_establisher (ring_placed (next_command (runtime w)) e g d)
       (set_commands (put (establisher (runtime w)) e (with_driver r))
          (commands (establisher (runtime w)) ++ establish_commands e r l)))) k).
Proof.
  move=> Hw Hl Hi Hr Hs Hg Hlay. apply (execute_one _ _ _ _ _ _ Hw).
  rw /= /install_worker_ring /or_fail /= Hl /= Hi /=.
  have He : establisher (ring_placed (next_command (runtime w)) e g d) = establisher (runtime w).
  { destruct d; [apply (update_outbound_same (next_command (runtime w)))|apply (update_inbound_same (next_command (runtime w)))]. }
  change (match d with Egress => _ | Ingress => _ end) with (ring_placed (next_command (runtime w)) e g d).
  rw /tell He (observe_installed _ _ r _ l) //.
Qed.

(** An edge that waits for its lease, with the arena and the worker ready to serve it. *)
Record ready_to_lease w (e : EdgeId) (r : EdgeRecord) (q : LeaseRequestId) (a : Arena.ArenaManager) (lease : Arena.RingLease)
    (k : W) : Prop := {
  rl_waiting : waiting_commands (runtime w) = [LeaseRing q e (direction r) (ring_spec r)];
  rl_cursor : S (command_cursor (runtime w)) = length (commands (establisher (runtime w)));
  rl_record : records (establisher (runtime w)) !! e = Some r;
  rl_state : state r = WaitingForLease;
  rl_request : lease_request_id r = Some q;
  rl_only e' r' : records (establisher (runtime w)) !! e' = Some r' → lease_request_id r' = Some q → e' = e;
  rl_arena : Arena.lease_ring (arena w) (Arena.mkLeaseRing q
    (Arena.mkRingSpec (header_bytes (ring_spec r)) (spec_data_bytes (ring_spec r)) (spec_alignment (ring_spec r))))
    = (a, [Arena.RingLeased lease]);
  rl_leased : Arena.lookup_lease a (Arena.ring_id lease) = Some lease;
  rl_worker : install_ring (worker w) e (Arena.ring_id lease) (direction r) (Arena.layout lease) (object_spec r) = (k, inl tt);
}.

(** What is left when the ring is leased and installed: the wire. *)
Record ring_ready w (e : EdgeId) (r : EdgeRecord) (a : Arena.ArenaManager) (lease : Arena.RingLease) (k : W) w' : Prop := {
  rr_waiting : waiting_commands (runtime w') = establish_commands e r (edge_layout (Arena.layout lease));
  rr_length : length (commands (establisher (runtime w'))) =
    (command_cursor (runtime w') + length (establish_commands e r (edge_layout (Arena.layout lease))))%nat;
  rr_record : records (establisher (runtime w')) !! e =
    Some (with_driver (with_ring r (Arena.ring_id lease) (edge_layout (Arena.layout lease))));
  rr_events : events (establisher (runtime w')) = events (establisher (runtime w));
  rr_arena : arena w' = a;
  rr_transport : transport w' = transport w;
  rr_runtime : ∃ s n, runtime w' =
    set_establisher (set_command_cursor (ring_placed (runtime w) e (Arena.ring_id lease) (direction r)) n) s;
}.

Lemma placed_onward x e g d s s' :
  set_establisher (ring_placed (next_command (onward x s)) e g d) s' =
  set_establisher (set_command_cursor (ring_placed x e g d) (S (S (command_cursor x)))) s'.
Proof.
  destruct d; rw /ring_placed /update_outbound /update_inbound /=.
  - destruct (outbound x) as [o|] => //. by case: (_ =? _).
  - destruct (inbound x) as [i|] => //. by case: (_ =? _).
Qed.

Lemma rings_up b w e r q a lease k :
  ready_to_lease w e r q a lease k →
  ∃ w', execute_loop 3 b w = execute_loop 1 true w' ∧ ring_ready w e r a lease k w'.
Proof.
  case=> Hw Hc Hr Hs Hq Hu Ha Hl Hk.
  rw (execute_lease _ _ _ _ _ _ _ _ _ _ Hw Ha Hr Hs Hq Hu).
  set s2 := push _ _. set w2 := with_arena _ _.
  have Hrec2 : records (establisher (runtime w2)) !! e = Some (with_ring r (Arena.ring_id lease) (edge_layout (Arena.layout lease))).
  { by rw /= lookup_insert_eq. }
  have Hw2 : waiting_commands (runtime w2) = [InstallWorkerRing e (Arena.ring_id lease) (direction r)
    (edge_layout (Arena.layout lease)) (object_spec r) (ring_spec r)].
  { by rw /waiting_commands /= drop_last. }
  rw (execute_install _ _ w2 _ _ _ _ _ _ _ lease (edge_layout (Arena.layout lease)) k Hw2 Hl Hk Hrec2) //.
  eexists. split; first done. set s3 := set_commands _ _. set w3 := with_worker _ _.
  have Hrt : runtime w3 = set_establisher (set_command_cursor (ring_placed (runtime w) e (Arena.ring_id lease) (direction r))
    (S (S (command_cursor (runtime w))))) s3 := placed_onward _ _ _ _ _ _.
  split => //.
  - rw /waiting_commands Hrt /=. by rw drop_last //= length_app /=; lia.
  - rw Hrt /= !length_app /=.
    change (establish_commands e (with_ring r _ _)) with (establish_commands e r). lia.
  - by rw Hrt /= lookup_insert_eq.
  - by eexists _, _.
Qed.

(** ** Rest *)

Lemma world_eta w : with_runtime w (runtime w) = w.
Proof. by case: w. Qed.

Lemma drain_none w : waiting_events (runtime w) = [] → drain_lifecycle w = (w, inl false).
Proof. move=> H. by rw /drain_lifecycle H /= world_eta. Qed.

Lemma drive_rest m w :
  waiting_commands (runtime w) = [] → waiting_events (runtime w) = [] → drive_loop (S m) w = Some (w, inl tt).
Proof. move=> Hc He. by rw /= (commands_idle _ Hc) (drain_none _ He). Qed.

(** The runtime that has observed an edge to be ready. *)
Definition observed_ready x (e : EdgeId) (d : RingDirection) : EdgeRuntime :=
  note (set_lifecycle_cursor x (S (lifecycle_cursor x))) (ObsEdgeReady e d).

Lemma drive_announces m w e a r :
  waiting_commands (runtime w) = [] → waiting_events (runtime w) = [EdgeReady e a] →
  records (establisher (runtime w)) !! e = Some r →
  drive_loop (S (S m)) w = Some (with_runtime w (observed_ready (runtime w) e (direction r)), inl tt).
Proof.
  move=> Hc He Hr. change (drive_loop (S (S m)) w) with (match execute_commands w with
    | None => None | Some (w, inr e) => Some (w, inr e) | Some (w, inl true) => drive_loop (S m) w
    | Some (w, inl false) => match drain_lifecycle w with
        | (w, inr e) => Some (w, inr e) | (w, inl true) => drive_loop (S m) w | (w, inl false) => Some (w, inl tt) end end).
  have Hd : drain_lifecycle w = (with_runtime w (observed_ready (runtime w) e (direction r)), inl true).
  { rw /drain_lifecycle He /= /local_record /= Hr. done. }
  rw (commands_idle _ Hc) Hd. apply drive_rest => //. have := drain_spec _ _ _ Hd. move=> [_ [_ [_ H]]]. by apply (H true).
Qed.

(** ** Provision *)

Definition arena_spec (k : RingSpec) : Arena.RingSpec :=
  Arena.mkRingSpec (header_bytes k) (spec_data_bytes k) (spec_alignment k).

(** The node, before an edge is provisioned that the arena and the worker can serve. *)
Record can_provision (n : N) w (e : EdgeId) (d : RingDirection) (o : ObjectSpec) (k : RingSpec) (a : Arena.ArenaManager)
    (lease : Arena.RingLease) (wk : W) : Prop := {
  cp_reach : reach n w;
  cp_bounded : N.of_nat (S (length (commands (establisher (runtime w))))) < u64_max;
  cp_quiet : quiet (runtime w);
  cp_new : records (establisher (runtime w)) !! e = None;
  cp_arena : Arena.lease_ring (arena w) (Arena.mkLeaseRing (next_request_id (establisher (runtime w))) (arena_spec k))
    = (a, [Arena.RingLeased lease]);
  cp_worker : install_ring (worker w) e (Arena.ring_id lease) d (Arena.layout lease) o = (wk, inl tt);
}.

Lemma provisioned_ready n w e r a lease wk x s :
  can_provision n w e (direction r) (object_spec r) (ring_spec r) a lease wk →
  state r = WaitingForLease → lease_request_id r = Some (next_request_id (establisher (runtime w))) →
  establisher x = s → command_cursor x = command_cursor (runtime w) →
  records s = <[e := r]> (records (establisher (runtime w))) →
  commands s = commands (establisher (runtime w)) ++
    [LeaseRing (next_request_id (establisher (runtime w))) e (direction r) (ring_spec r)] →
  ready_to_lease (with_runtime w x) e r (next_request_id (establisher (runtime w))) a lease wk.
Proof.
  case=> Hreach Hb [Hq _] Hnew Ha Hk Hs Hreq Hx Hc Hr Hcs.
  have Hb' : bounded w by rw /bounded; lia. have [evs Hok] := reach_ok _ _ Hreach Hb'.
  have [Hu _ _] := n_history _ _ _ Hok. rw /bounded (n_run _ _ _ Hok) in Hb'. have [R1 _] := requests_run _ _ Hu Hb'.
  rw -(n_run _ _ _ Hok) in R1. have [kq [Hqueue Hkq]] := n_queue _ _ _ Hok.
  have Has := asks_lease (arena w) (CancelQueuedLease 0 0) _ _ _ Ha.
  have [Hcore _] := asks_arena _ _ _ _ kq (n_core _ _ _ Hok) (n_sourced _ _ _ Hok) Hqueue ltac:(rw Hq in Hkq; lia) Has.
  have [_ [_ Hl]] := lease_ring_keeps _ _ _ _ Ha. have [Hlive _] := Hl _ eq_refl.
  split => //=; rw ?Hx ?Hr ?Hcs.
  - by rw /waiting_commands Hx Hc Hcs Hq drop_last.
  - rw Hc Hq length_app /=. lia.
  - by rw lookup_insert_eq.
  - move=> e' r' /lookup_insert_Some [[-> _] | [_ Hr']] // Hreq'. have := R1 _ _ _ Hr' Hreq'. lia.
  - by apply lookup_live.
Qed.

(** An edge that is up: ready, on its leased ring, with nothing left to do. *)
Record edge_up w (e : EdgeId) (lease : Arena.RingLease) : Prop := {
  up_record : ∃ r, records (establisher (runtime w)) !! e = Some r ∧ state r = Ready ∧ ring_id r = Some (Arena.ring_id lease);
  up_leased : Arena.lookup_lease (arena w) (Arena.ring_id lease) = Some lease;
  up_quiet : waiting_commands (runtime w) = [] ∧ waiting_events (runtime w) = [];
}.

Lemma drive_first w w' :
  execute_commands w = Some (w', inl true) → drive w = drive_loop 2 w'.
Proof. move=> H. rw /drive. by rw {1}/drive_loop -/(drive_loop 2) H. Qed.

Lemma commands_three w c : waiting_commands (runtime w) = [c] → weight c = 3%nat → execute_commands w = execute_loop 3 false w.
Proof. move=> H Hc. by rw /execute_commands H /weigh /= Hc. Qed.

(** The outbound edge after its ring is ready: the wire is opened and the edge is announced. *)
Lemma send_up w e r a lease k w' p t wr pr o :
  ring_ready w e r a lease k w' → direction r = Egress → peer_node_id r = Some p →
  outbound (runtime w) = Some o → out_edge_id o = e → peer o = pr → open_writer (transport w) e pr = (t, inl wr) →
  waiting_events (runtime w) = [] → lifecycle_cursor (runtime w) = length (events (establisher (runtime w))) →
  let g := Arena.ring_id lease in
  ∃ w4, execute_loop 1 true w' = Some (w4, inl true) ∧ waiting_commands (runtime w4) = [] ∧
    waiting_events (runtime w4) = [EdgeReady e (local_edge_actor r)] ∧
    records (establisher (runtime w4)) !! e =
      Some (set_state (with_driver (with_ring r g (edge_layout (Arena.layout lease)))) Ready) ∧
    arena w4 = a ∧ transport w4 = t ∧ observations (runtime w4) = observations (runtime w) ∧
    outbound (runtime w4) = Some (mkOutboundEdge e pr (Some g) (Some wr) (EdgeRuntime.next_object_id o)).
Proof.
  case=> Hw Hlen Hr Hev Ha Ht [s [c Hrt]] Hd Hp Ho Hoe Hpr Hopen _ Hcur g.
  rw /establish_commands Hd Hp in Hw Hlen. rw Hd in Hrt.
  have Hpl : ring_placed (runtime w) e g Egress = set_outbound (runtime w) (Some (mkOutboundEdge e pr (Some g) (writer o) (EdgeRuntime.next_object_id o))).
  { by rw /ring_placed /update_outbound Ho Hoe N.eqb_refl Hpr. }
  rw Hpl in Hrt.
  have Hx : execute_command (with_runtime w' (next_command (runtime w'))) (EstablishSend e p (edge_layout (Arena.layout lease))) =
    (with_runtime (with_transport w' t) (establish_send_wire (set_outbound (next_command (runtime w'))
       (Some (mkOutboundEdge e pr (Some g) (Some wr) (EdgeRuntime.next_object_id o)))) e g), inl tt).
  { rw /= /establish_send /edge_ring /local_record /= Hr /= Hrt /= N.eqb_refl /= Ht Hopen /= /update_outbound /= N.eqb_refl. done. }
  rw (execute_one 0 true _ _ _ _ Hw Hx). set w4 := with_runtime _ _.
  have He : establisher (runtime w4) = announce (put (establisher (runtime w')) e
    (set_state (with_driver (with_ring r g (edge_layout (Arena.layout lease)))) Ready)) (EdgeReady e (local_edge_actor r)).
  { exact (observe_ready _ _ _ Hr eq_refl). }
  have Hc4 : command_cursor (runtime w4) = S (command_cursor (runtime w')) by [].
  have Hw4 : waiting_commands (runtime w4) = [].
  { rw /waiting_commands He Hc4 /= drop_ge //. rw Hlen /=. lia. }
  exists w4. rw (execute_idle _ _ Hw4). split_and! => //.
  - rw /waiting_events He /=. change (lifecycle_cursor (runtime w')) with (lifecycle_cursor (runtime w')).
    rw drop_last // Hrt /= Hcur -Hev Hrt. done.
  - by rw He /= lookup_insert_eq.
  - by rw /= Hrt.
Qed.

(** C23. An outbound edge comes up: when it is provisioned on a node at rest whose arena
    has room for its ring, whose worker installs the ring and whose transport opens the
    wire, then the next tick succeeds, the edge is ready on its leased ring, its writer
    and ring are there for the application, and all it is told is that the edge is
    ready. *)
Theorem outbound_comes_up n w p pr a lease wk t wr t2 :
  can_provision n w (tx_edge_id p) Egress (tx_object_spec p) (tx_ring_spec p) a lease wk →
  tx_local_node_id p = local_node_id (establisher (runtime w)) →
  open_writer (transport w) (tx_edge_id p) pr = (t, inl wr) → drain_events t = (t2, []) →
  ∃ w', poll (with_runtime w (establish_outbound (runtime w) p pr)) = Some (w', inl tt) ∧
    edge_up w' (tx_edge_id p) lease ∧
    observations (runtime w') = observations (runtime w) ++ [ObsEdgeReady (tx_edge_id p) Egress] ∧
    outbound (runtime w') = Some (mkOutboundEdge (tx_edge_id p) pr (Some (Arena.ring_id lease)) (Some wr) 1).
Proof.
  move=> Hcp Hnode Hopen Hdr. set x := establish_outbound _ _ _. set w1 := with_runtime w x.
  set s := establisher (runtime w). set r := new_tx p (next_request_id s) (next_actor_id s).
  have Hs1 : establisher x = push (put (set_next_actor (set_next_request s (next_request_id s +64 1)) (next_actor_id s +64 1))
    (tx_edge_id p) r) (LeaseRing (next_request_id s) (tx_edge_id p) Egress (tx_ring_spec p)).
  { by rw /x /= /provision_tx Hnode N.eqb_refl. }
  have Hready : ready_to_lease w1 (tx_edge_id p) r (next_request_id s) a lease wk.
  { by apply (provisioned_ready n w _ r _ _ _ x _ Hcp eq_refl eq_refl Hs1). }
  have [w3 [Hx Hrr]] := rings_up false _ _ _ _ _ _ _ Hready.
  have [Hq1 Hq2] := cp_quiet _ _ _ _ _ _ _ _ _ Hcp.
  have Hev1 : events (establisher x) = events s by rw Hs1.
  have Hwe : waiting_events (runtime w1) = [] by rw /waiting_events Hev1 [lifecycle_cursor _]/= Hq2 drop_all.
  have [w4 [Hx4 [C4 [E4 [R4 [A4 [T4 [O4 B4]]]]]]]] := send_up _ _ _ _ _ _ _ _ _ wr pr _ Hrr eq_refl eq_refl eq_refl eq_refl eq_refl Hopen
    Hwe ltac:(by rw [lifecycle_cursor _]/= Hq2 [establisher _]/= Hev1).
  have Hd1 : drive w1 = Some (with_runtime w4 (observed_ready (runtime w4) (tx_edge_id p) Egress), inl tt).
  { rw (drive_first _ w4); last by apply (drive_announces 0 _ _ _ _ C4 E4 R4).
    by rw (commands_three _ _ (rl_waiting _ _ _ _ _ _ _ Hready) eq_refl) Hx. }
  have Hrest : waiting_events (observed_ready (runtime w4) (tx_edge_id p) Egress) = [].
  { move: E4. rw /waiting_events /= -(Nat.add_1_r (lifecycle_cursor _)) -drop_drop => ->. done. }
  rw /poll Hd1 /= T4 Hdr /=. eexists. split; first by apply drive_rest.
  split_and!; [split|by rw /= O4|done].
  - eexists. split; first exact R4. done.
  - by rw /= A4 (rl_leased _ _ _ _ _ _ _ Hready).
  - done.
Qed.

(** The inbound edge after its ring is ready: it waits for a stream. *)
Lemma recv_up w e r a lease k w' i :
  ring_ready w e r a lease k w' → direction r = Ingress →
  inbound (runtime w) = Some i → in_edge_id i = e → pending_streams (runtime w) !! e = None →
  lifecycle_cursor (runtime w) = length (events (establisher (runtime w))) →
  let g := Arena.ring_id lease in
  ∃ w4, execute_loop 1 true w' = Some (w4, inl true) ∧ quiet (runtime w4) ∧
    records (establisher (runtime w4)) !! e = Some (with_driver (with_ring r g (edge_layout (Arena.layout lease)))) ∧
    arena w4 = a ∧ transport w4 = transport w ∧ observations (runtime w4) = observations (runtime w) ∧
    recv_specs (runtime w4) !! e = Some g ∧
    inbound (runtime w4) = Some (mkInboundEdge e (Some g) (parse_spec i) (buffers i)).
Proof.
  case=> Hw Hlen Hr Hev Ha Ht [s [c Hrt]] Hd Hi Hie Hpend Hcur g.
  rw /establish_commands Hd in Hw Hlen. rw Hd in Hrt.
  have Hpl : ring_placed (runtime w) e g Ingress = set_inbound (runtime w) (Some (mkInboundEdge e (Some g) (parse_spec i) (buffers i))).
  { by rw /ring_placed /update_inbound Hi Hie N.eqb_refl. }
  rw Hpl in Hrt.
  have Hx : execute_command (with_runtime w' (next_command (runtime w'))) (EstablishRecv e (edge_layout (Arena.layout lease))) =
    (with_runtime w' (set_recv_specs (next_command (runtime w')) (<[e := g]> (recv_specs (runtime w')))), inl tt).
  { rw /= /edge_ring /local_record /= Hr /= /establish_recv_wire /= Hrt /= Hpend. done. }
  rw (execute_one 0 true _ _ _ _ Hw Hx). set w4 := with_runtime _ _.
  have Hc4 : command_cursor (runtime w4) = S (command_cursor (runtime w')) by [].
  have Hw4 : waiting_commands (runtime w4) = [].
  { rw /waiting_commands Hc4 drop_ge //. rw [establisher _]/= Hlen /=. lia. }
  have Hq4 : quiet (runtime w4).
  { split; [rw Hc4 [establisher _]/= Hlen /=; lia|]. by rw [establisher _]/= Hev -Hcur /= Hrt. }
  exists w4. rw (execute_idle _ _ Hw4). split_and! => //.
  - by rw /= Hrt.
  - by rw /= lookup_insert_eq.
  - by rw /= Hrt.
Qed.

Lemma for_one {A} (f : World → A → Outcome unit) (y : A) w w' : f w y = (w', inl tt) → for_each f [y] w = (w', inl tt).
Proof. by move=> /= ->. Qed.

(** The stream that an inbound edge waits for. *)
Lemma stream_up w e st r g :
  quiet (runtime w) → records (establisher (runtime w)) !! e = Some r → state r = WaitingForDriver →
  recv_specs (runtime w) !! e = Some g →
  ∃ w', wire_event w (StreamArrived e st) = (w', inl tt) ∧ waiting_commands (runtime w') = [] ∧
    waiting_events (runtime w') = [EdgeReady e (local_edge_actor r)] ∧
    records (establisher (runtime w')) !! e = Some (set_state r Ready) ∧
    arena w' = arena w ∧ observations (runtime w') = observations (runtime w) ++ [ObsStreamArrived e st] ∧
    inbound (runtime w') = inbound (runtime w).
Proof.
  move=> [Q1 Q2] Hr Hs Hg. eexists. split; first done.
  rw /incoming_stream bool_decide_true; first by rw Hg. rw /spawn_recv Hg.
  have Ho := observe_ready _ _ _ Hr Hs. rw /waiting_commands /waiting_events /= in Ho |- *. rw Ho.
  split_and! => //=; [by rw Q1 drop_all|by rw Q2 drop_last|by rw lookup_insert_eq].
Qed.

(** An inbound edge comes up: when it is provisioned on a node at rest whose arena has room for its ring and
    whose worker installs it, and the peer's stream arrives, then the next tick succeeds and the edge is
    ready on its leased ring, where its objects will go. *)
Theorem inbound_comes_up n w p spec a lease wk t2 st :
  can_provision n w (rx_edge_id p) Ingress (rx_object_spec p) (rx_ring_spec p) a lease wk →
  rx_local_node_id p = local_node_id (establisher (runtime w)) →
  pending_streams (runtime w) !! rx_edge_id p = None →
  drain_events (transport w) = (t2, [StreamArrived (rx_edge_id p) st]) →
  ∃ w', poll (with_runtime w (establish_inbound (runtime w) p spec)) = Some (w', inl tt) ∧
    edge_up w' (rx_edge_id p) lease ∧
    observations (runtime w') = observations (runtime w) ++
      [ObsStreamArrived (rx_edge_id p) st; ObsEdgeReady (rx_edge_id p) Ingress] ∧
    inbound (runtime w') = Some (mkInboundEdge (rx_edge_id p) (Some (Arena.ring_id lease)) spec ∅).
Proof.
  move=> Hcp Hnode Hpend Hdr. set x := establish_inbound _ _ _. set w1 := with_runtime w x.
  set s := establisher (runtime w). set r := new_rx p (next_request_id s) (next_actor_id s).
  have Hs1 : establisher x = push (put (set_next_actor (set_next_request s (next_request_id s +64 1)) (next_actor_id s +64 1))
    (rx_edge_id p) r) (LeaseRing (next_request_id s) (rx_edge_id p) Ingress (rx_ring_spec p)).
  { by rw /x /= /provision_rx Hnode N.eqb_refl. }
  have Hready : ready_to_lease w1 (rx_edge_id p) r (next_request_id s) a lease wk.
  { by apply (provisioned_ready n w _ r _ _ _ x _ Hcp eq_refl eq_refl Hs1). }
  have [w3 [Hx Hrr]] := rings_up false _ _ _ _ _ _ _ Hready.
  have [Hq1 Hq2] := cp_quiet _ _ _ _ _ _ _ _ _ Hcp. have Hev1 : events (establisher x) = events s by rw Hs1.
  have [w4 [Hx4 [Q4 [R4 [A4 [T4 [O4 [G4 I4]]]]]]]] := recv_up _ _ _ _ _ _ _ _ Hrr eq_refl eq_refl eq_refl Hpend
    ltac:(by rw [lifecycle_cursor _]/= Hq2 [establisher _]/= Hev1).
  have [C4 E4] := quiet_waits _ Q4.
  have Hd1 : drive w1 = Some (w4, inl tt).
  { rw (drive_first _ w4); last by apply drive_rest.
    by rw (commands_three _ _ (rl_waiting _ _ _ _ _ _ _ Hready) eq_refl) Hx. }
  have [w5 [Hx5 [C5 [E5 [R5 [A5 [O5 I5]]]]]]] := stream_up (with_transport w4 t2) _ st _ _ Q4 R4 eq_refl G4.
  rw /poll Hd1 T4 Hdr (for_one _ _ _ _ Hx5). eexists. split; first by apply (drive_announces 1 _ _ _ _ C5 E5 R5).
  split_and!; [split|by rw /= O5 /= O4 -app_assoc|by rw /= I5 /= I4].
  - eexists. split; first exact R5. done.
  - by rw /= A5 /= A4 (rl_leased _ _ _ _ _ _ _ Hready).
  - split => //. move: E5. rw /waiting_events /= -(Nat.add_1_r (lifecycle_cursor _)) -drop_drop => ->. done.
Qed.
End Ready.
