(* ===== verification/EdgeSample.v ===== *)
(** * Edges at work

    The theorems on edges at concrete runs: a worker that accepts everything, a transport that is a list of
    batches of events, and writes that are never short. *)

From S2P Require Import Prelude Memory Arena ArenaSafety ObjectRecord EdgeLifecycle EdgeSafety.
From S2P Require Import EdgeRuntime EdgeNode EdgeTraffic.
#[local] Open Scope N_scope.

(** ** The lifecycle *)

Definition sample_layout : RingLayout := mkRingLayout 0 0 128 4224 4096 64.
Definition sample_ring_spec : RingSpec := mkRingSpec 128 4096 64.
Definition sample_objects : ObjectSpec := mkObjectSpec Activation F16 4096.

Definition sample_up : list EdgeEvent :=
  [EvProvisionTx (mkProvisionTx 1 7 1 2 sample_objects sample_ring_spec); RingLeased 1 5 sample_layout;
   RingInstalled 7 5; DriverEdgeReady 7].

Definition sample_down : list EdgeEvent := [RingQuiesced 5; PumpStopped 7 5; QuiescenceProven 5].

Definition sample_life : list EdgeEvent := sample_up ++ StopEdge 7 :: sample_down.

Lemma sample_used : well_used sample_life.
Proof. split; vm_compute; repeat constructor; by move=> /elem_of_nil. Qed.

Lemma sample_answered : answered 1 sample_life.
Proof.
  move=> evs1 q g l evs2. rw /sample_life /sample_up /sample_down /=.
  destruct evs1 as [|a1 [|a2 [|a3 [|a4 [|a5 [|a6 [|a7 [|a8 evs1]]]]]]]] => //= E; simplify_eq;
    last by destruct evs1.
  exists 7, Egress, sample_ring_spec. vm_compute. left.
Qed.

Lemma sample_commands :
  commands (run 1 sample_life) =
    [LeaseRing 1 7 Egress sample_ring_spec; InstallWorkerRing 7 5 Egress sample_layout sample_objects sample_ring_spec;
     EstablishSend 7 2 sample_layout; CancelQueuedLease 1 7; StopPump 7 5; UninstallWorkerRing 7 5;
     ReleaseArenaLease 5 (mkProof true)].
Proof. by vm_compute. Qed.

Lemma sample_released : ReleaseArenaLease 5 (mkProof true) ∈ commands (run 1 sample_life).
Proof. rw sample_commands. set_solver. Qed.

Lemma sample_installed :
  InstallWorkerRing 7 5 Egress sample_layout sample_objects sample_ring_spec ∈ commands (run 1 sample_life).
Proof. rw sample_commands. set_solver. Qed.

Lemma sample_established : ∃ c, c ∈ commands (run 1 sample_life) ∧ establishes c 7.
Proof. exists (EstablishSend 7 2 sample_layout). rw sample_commands. split; [set_solver|done]. Qed.

Lemma ring_release_is_proven_witness :
  RingQuiesced 5 ∈ sample_life ∧ QuiescenceProven 5 ∈ sample_life ∧ PumpStopped 7 5 ∈ sample_life.
Proof.
  destruct (ring_release_is_proven 1 sample_life sample_used) as [_ H].
  destruct (H _ _ sample_released) as [_ [_ H']].
  destruct (H' _ _ _ _ _ sample_installed) as [H1 [H2 H3]]. exact (conj H1 (conj H2 (H3 sample_established))).
Defined.

Lemma edge_announced_in_order_witness :
  omap (about 7) (events (run 1 sample_life)) `sublist_of` [AnnouncedReady; AnnouncedFaulted; AnnouncedStopped].
Proof. exact (edge_announced_in_order 1 sample_life 7 sample_used). Defined.

Lemma sample_leased : 5 ∈ omap leased sample_life.
Proof. vm_compute. left. Qed.

Lemma no_ring_lost_witness :
  (∃ e r, records (run 1 sample_life) !! e = Some r ∧ ring_id r = Some 5 ∧
     (state r ≠ Stopped ∨ StoppedEvent e ∈ sample_life)) ∨
  ReleaseArenaLease 5 (mkProof true) ∈ commands (run 1 sample_life).
Proof. exact (no_ring_lost 1 sample_life 5 sample_used sample_answered sample_leased). Defined.

Lemma sample_up_record : ∃ r, records (run 1 sample_up) !! 7 = Some r ∧ ring_id r = Some 5.
Proof. eexists. by vm_compute. Qed.

Lemma sample_proofs : PumpStopped 7 5 ∈ sample_down ∧ RingQuiesced 5 ∈ sample_down ∧ QuiescenceProven 5 ∈ sample_down.
Proof. rw /sample_down. set_solver. Qed.

Lemma sample_undeclared : StoppedEvent 7 ∉ sample_life.
Proof. rw /sample_life /sample_up /sample_down /= !not_elem_of_cons. split_and!; try done. apply not_elem_of_nil. Qed.

Lemma stop_completes_witness :
  ∃ x, records (run 1 sample_life) !! 7 = Some x ∧ state x = Stopped ∧ EdgeStopped 7 ∈ events (run 1 sample_life).
Proof.
  destruct sample_up_record as [r [Hr Hg]]. destruct sample_proofs as [P1 [P2 P3]].
  destruct (stop_completes 1 sample_up sample_down 7 r 5 sample_used Hr Hg P1 P2 P3)
    as [x [Hx [[H1 [H2 _]]|H]]]; [exact (ex_intro _ x (conj Hx (conj H1 H2)))|case (sample_undeclared H)].
Defined.

(** ** The runtime *)

#[local] Instance plain_worker : WorkerPort unit := {|
  install_ring _ _ _ _ _ _ := (tt, inl tt);
  uninstall_ring _ _ := (tt, inl tt);
  load_object _ _ _ _ r _ := (tt, inl (mkLoadedObject (r_object_id r) (r_sequence r) 0 (r_object_id r)));
|}.

#[local] Instance plain_transport : EdgeTransport (list (list WireEvent)) unit unit := {|
  open_writer t _ _ := (t, inl tt);
  drain_events t := match t with [] => ([], []) | evs :: t => (t, evs) end;
|}.

#[local] Instance whole_writes : Pwrite := λ _ len, Some len.

Abbreviation SampleWorld := (World (W:=unit) (T:=list (list WireEvent)) (Peer:=unit) (Writer:=unit)).

Definition sample_config : ArenaConfig := mkArenaConfig 1 65536 64.

Definition sample_arena : Arena.ArenaManager :=
  mkArenaManager sample_config Arena.Ready 1 [mkFreeRange 0 65536] [] [] ∅ 0 0.

(** A node that starts, with what the transport will report. *)
Definition sample_start (evs : list (list WireEvent)) : SampleWorld :=
  mkWorld (new_runtime 1) sample_arena (λ _, 0) tt evs.

Lemma sample_starts evs : starts 1 (sample_start evs).
Proof. split => //. by exists true, sample_config. Qed.

Definition sample_rx (k : RingSpec) : ProvisionRx := mkProvisionRx 1 7 1 sample_objects k.
Definition sample_tx (k : RingSpec) : ProvisionTx := mkProvisionTx 1 8 1 2 sample_objects k.

Definition with_inbound (w : SampleWorld) (k : RingSpec) (spec : ObjectRecord.ObjectSpec) : SampleWorld :=
  with_runtime w (establish_inbound (runtime w) (sample_rx k) spec).
Definition with_outbound (w : SampleWorld) (k : RingSpec) : SampleWorld :=
  with_runtime w (establish_outbound (runtime w) (sample_tx k) tt).

Definition polled (w : SampleWorld) : SampleWorld := match poll w with Some (w', _) => w' | None => w end.

Lemma polled_tick (w : SampleWorld) : bool_decide (is_Some (poll w)) = true → tick w (polled w).
Proof.
  rw /polled. destruct (poll w) as [[w' r]|] eqn:E; last by move=> /bool_decide_eq_true [].
  move=> _. by eapply tick_poll.
Qed.

Lemma reach_more (n : N) (w w' : SampleWorld) : reach n w → tick w w' → reach n w'.
Proof. move=> [w0 [Hs Hr]] Ht. exists w0. split => //. by eapply rtc_r. Qed.

Definition sample_lease (q g start : N) (e : N) : Arena.RingLease :=
  mkRingLease q g 1 (Arena.mkRingLayout start start (start + 128) e 4096 64) 64.

Definition sample_request (k : RingSpec) : Arena.ArenaManager * list Arena.ArenaEvent :=
  Arena.lease_ring sample_arena (Arena.mkLeaseRing 1 (arena_spec k)).

Lemma sample_leases : sample_request sample_ring_spec = ((sample_request sample_ring_spec).1, [Arena.RingLeased (sample_lease 1 1 0 4224)]).
Proof. rw {1}(surjective_pairing (sample_request sample_ring_spec)). by f_equal; vm_compute. Qed.

Lemma sample_provision evs e d :
  can_provision 1 (sample_start evs) e d sample_objects sample_ring_spec (sample_request sample_ring_spec).1
    (sample_lease 1 1 0 4224) tt.
Proof.
  split; [|by vm_compute|done|done|exact sample_leases|done]. exists (sample_start evs). split; [apply sample_starts|done].
Qed.

Lemma outbound_comes_up_witness :
  ∃ w', poll (with_outbound (sample_start []) sample_ring_spec) = Some (w', inl tt) ∧
    observations (runtime w') = [ObsEdgeReady 8 Egress] ∧ is_Some (Arena.lookup_lease (arena w') 1).
Proof.
  destruct (outbound_comes_up 1 (sample_start []) (sample_tx sample_ring_spec) tt _ _ tt [] tt []
    (sample_provision [] 8 Egress) eq_refl eq_refl eq_refl) as [w' [H1 [[_ H2 _] [H3 _]]]].
  exists w'. split_and!; [exact H1|exact H3|by eexists].
Defined.

Lemma inbound_comes_up_witness :
  ∃ w', poll (with_inbound (sample_start [[StreamArrived 7 3]]) sample_ring_spec (ObjectRecord.mkObjectSpec 4000 4 Token)) =
      Some (w', inl tt) ∧
    observations (runtime w') = [ObsStreamArrived 7 3; ObsEdgeReady 7 Ingress].
Proof.
  destruct (inbound_comes_up 1 (sample_start [[StreamArrived 7 3]]) (sample_rx sample_ring_spec)
    (ObjectRecord.mkObjectSpec 4000 4 Token) _ _ tt [] 3
    (sample_provision [[StreamArrived 7 3]] 7 Ingress) eq_refl eq_refl eq_refl) as [w' [H1 [_ [H3 _]]]].
  exists w'. split; [exact H1|exact H3].
Defined.

(** The inbound edge with its stream up, and then after a fault of the stream. *)
Definition sample_format : ObjectRecord.ObjectSpec := ObjectRecord.mkObjectSpec 4000 4 Token.

Definition sample_node : SampleWorld :=
  polled (with_inbound (sample_start [[StreamArrived 7 3]; [WireStreamFault (Some 7) (Some 3) WireReadError]])
            sample_ring_spec sample_format).

Lemma sample_node_reached : reach 1 sample_node.
Proof.
  eapply reach_more; last by apply polled_tick; vm_compute.
  eapply reach_more; last by apply tick_inbound.
  eexists. split; [apply sample_starts|done].
Qed.

Lemma sample_faulted_reached : reach 1 (polled sample_node).
Proof. eapply reach_more; [apply sample_node_reached|]. apply polled_tick. by vm_compute. Qed.

Lemma sample_faulted_record :
  ∃ r, records (establisher (runtime (polled sample_node))) !! 7 = Some r ∧ ring_id r = Some 1 ∧ state r = Stopping.
Proof. eexists. by vm_compute. Qed.

Lemma sample_faulted_bounded : bounded (polled sample_node).
Proof. by vm_compute. Qed.

(** The stream has failed and the worker has let go of the ring, which stays leased. *)
Lemma ring_stays_leased_witness : ∃ lease, Arena.lookup_lease (arena (polled sample_node)) 1 = Some lease.
Proof.
  destruct sample_faulted_record as [r [Hr [Hg _]]].
  exact (proj1 (ring_stays_leased 1 (polled sample_node) 7 r 1 sample_faulted_reached sample_faulted_bounded Hr Hg)).
Defined.

Lemma sample_node_bounded : bounded sample_node.
Proof. by vm_compute. Qed.

Lemma sample_node_inbound : inbound (runtime sample_node) = Some (mkInboundEdge 7 (Some 1) sample_format ∅).
Proof. by vm_compute. Qed.

Lemma sample_node_lease : Arena.lookup_lease (arena sample_node) 1 = Some (sample_lease 1 1 0 4224).
Proof. by vm_compute. Qed.

Lemma ingress_stays_in_ring_witness :
  writes_in 128 4224 sample_node (ingress_bytes sample_node 7 3 sample_bytes).1.
Proof.
  exact (proj1 (ingress_stays_in_ring 1 sample_node 7 3 sample_bytes _ 1 _ sample_node_reached sample_node_bounded
    sample_node_inbound eq_refl sample_node_lease ltac:(by vm_compute) ltac:(by vm_compute))).
Defined.

Lemma sample_sendable : Forall (sendable sample_format) [sample_record 1 [1; 2; 3; 4]; sample_record 2 []].
Proof. repeat constructor; vm_compute; by [|left|right]. Qed.

(** This worker accepts every record, with its identifier. *)
Lemma sample_loads k bs k' hs :
  worker_loads 7 sample_format 1 (sample_lease 1 1 0 4224) k bs k' hs → lo_object_id <$> hs = b_object_id <$> bs.
Proof. elim=> [//|? ? b ? h ? ? ? _ [_ <-] _ IH]. by rw !fmap_cons IH. Qed.

Lemma sample_buffering : buffering 7 3 sample_format 1 (sample_lease 1 1 0 4224) [] sample_node.
Proof. eexists. split; first exact sample_node_inbound. by split_and!; [..|exact sample_node_lease]. Qed.

Lemma stream_is_loaded_witness :
  ∃ w' hs, for_each (λ w bytes, ingress_bytes w 7 3 bytes) [take 50 sample_bytes; drop 50 sample_bytes] sample_node = (w', inl tt) ∧
    objects_seen w' = objects_seen sample_node ++ hs ∧ lo_object_id <$> hs = [1; 2].
Proof.
  destruct (stream_is_loaded 7 3 sample_format 1 (sample_lease 1 1 0 4224) ltac:(by vm_compute) (λ _ _, eq_refl) sample_node
    [sample_record 1 [1; 2; 3; 4]; sample_record 2 []] [77; 79] [take 50 sample_bytes; drop 50 sample_bytes]
    ltac:(by vm_compute) sample_sendable ltac:(by vm_compute) ltac:(by vm_compute) sample_buffering)
    as [w' [r [hs [H1 [H2 [_ [H3 _]]]]]]].
  exists w', hs. destruct H2 as [hs H|? ? ? ? ? ? ? ? ? ? H]; [|discriminate H].
  split; [exact H1|split; [exact H3|exact (sample_loads _ _ _ _ H)]].
Defined.

(** ** Records larger than their ring *)

Definition tight_spec : RingSpec := mkRingSpec 0 64 64.
Definition tight_format : ObjectRecord.ObjectSpec := ObjectRecord.mkObjectSpec 64 0 Token.

(** An inbound and an outbound edge whose rings, of 64 bytes each, are neighbours. *)
Definition tight_node : SampleWorld :=
  polled (with_outbound (with_inbound (sample_start [[StreamArrived 7 3]]) tight_spec tight_format) tight_spec).

Definition full_record : list N := encode (sample_record 1 (replicate 64 9)).

Definition tight_lease (q start : N) : Arena.RingLease :=
  mkRingLease q q 1 (Arena.mkRingLayout start start start (start + 64) 64 64) 64.

Lemma tight_node_reached : reach 1 tight_node.
Proof.
  eapply reach_more; last by apply polled_tick; vm_compute.
  eapply reach_more; last by apply tick_outbound.
  eapply reach_more; last by apply tick_inbound.
  eexists. split; [apply sample_starts|done].
Qed.

(** C40. A record may leave its ring: nothing compares the largest record of an edge's
    format with the size of the edge's ring. Here the format allows 64 bytes, as many as
    the ring has; a record of that size is accepted and loaded, and its end is written
    over the ring of another edge. *)
Theorem record_overruns_its_ring :
  reach 1 tight_node ∧
  sendable tight_format (sample_record 1 (replicate 64 9)) ∧
  Arena.lookup_lease (arena tight_node) 1 = Some (tight_lease 1 0) ∧
  Arena.lookup_lease (arena tight_node) 2 = Some (tight_lease 2 64) ∧
  outbound_ring_id (runtime tight_node) = Some 2 ∧
  (ingress_bytes tight_node 7 3 full_record).2 = inl tt ∧
  memory tight_node 64 = 0 ∧ memory (ingress_bytes tight_node 7 3 full_record).1 64 = 9.
Proof.
  split_and!; [exact tight_node_reached| |by vm_compute..].
  split; by [vm_compute|left; vm_compute].
Qed.
